(* ===== verification/_CoqProject ===== *)
-Q . S2P
Prelude.v
Text.v
Pattern.v
Cidr.v
Naming.v
Schema.v
RemoteBuilder.v
Validation.v
Planner.v
ServiceRuntime.v
Membership.v
Catalog.v
Desired.v
OpLog.v
Leases.v
Cron.v
CronExec.v
Cascade.v
Locks.v
Bytes.v
Dns.v
Certs.v
Routes.v
Replication.v
Store.v
Api.v
CandidatePlan.v
Substring.v
EnvResolution.v
Session.v
ProxyRoutes.v
Transaction.v
SessionLaws.v
Deploy.v
DeployGate.v
Daemon.v
Wireguard.v
ProxyScript.v
Discovery.v
Reconcile.v
HostProxy.v
AuditTrail.v
Teardown.v
TeardownLaws.v
Fleet.v
FleetLaws.v
FleetLogs.v
LockSession.v
LockLaws.v
NetworkSetup.v
NetworkApply.v
WireguardConf.v
NetworkLaws.v
Services.v
ServiceRemove.v
ServiceScale.v
ServiceRedeploy.v
CommandLogs.v
ServiceLaws.v
EngineInstall.v
ServerSetup.v
ServerUpgrade.v
UpgradeLaws.v
SetupLaws.v
RemoveLaws.v
