(* ===== verification/Prelude.v ===== *)
(** * Jiji: a verification development

    Jiji deploys containers over a set of servers.  The command-line tool ([jiji-cli]) reads
    a deploy configuration ([jiji-config]), derives a network plan from it
    ([jiji-network]) and drives the servers over SSH ([jiji-ssh]).  On every server an
    agent ([jiji-agent]) keeps an SQLite database of what it knows: the members of the
    mesh, the service catalog, the desired state, the addresses it leased to containers and
    the cron jobs; it exchanges its own records with the other agents, answers DNS for the
    project's names and runs the cron jobs.  A proxy ([jiji-proxy]) routes public traffic to
    the containers by those names.

    The development embeds the logic of these parts as Rocq functions, one file per
    component, and proves the properties that make them correct.  Definitions carry the
    names of the Rust items they translate; paths below are relative to [src/crates].

    ** Files

    Shared:
    - [Prelude] (this file): [result] with the [let?] and [ensure?] notations for [?] and
      early returns, total orders ([Ord], [OrdLaws]) as Rust derives them on tuples, stable
      sorting, B-tree iteration over [gmap], checked, wrapping and saturating integers.
    - [Text]: the operations of [str], [char] and integer parsing; [Bytes]: buffers,
      big-endian integers, lossy UTF-8, lines and splitting.
    - [Pattern]: [jiji-core/src/pattern.rs], the wildcard matcher.

    Configuration and planning:
    - [Schema], [RemoteBuilder], [Validation]: the types, defaults and checks of
      [jiji-config/src/schema.rs], [remote_builder.rs] and [validation.rs].
    - [Cidr], [Naming], [Planner], [ServiceRuntime]: [jiji-network/src/cidr.rs],
      [naming.rs], [planner.rs] and [service_runtime.rs].

    The agent:
    - [Membership], [Catalog], [Desired]: the three replicated views
      ([jiji-agent/src/membership.rs], [catalog.rs], [desired.rs]), each a record type, its
      validation and the merge [apply]; [Membership] also has the functions of
      [jiji-cli/src/commands/network/membership.rs] that derive records from a plan.
    - [OpLog]: the operation logs and winner tables of [jiji-agent/src/store.rs] that store
      the views, with their transactions and compaction.
    - [Replication]: the exchange of records between two agents,
      [jiji-agent/src/catalog_replication.rs].
    - [Leases]: [jiji-agent/src/leases.rs] and the lease and observation tables.
    - [Cron], [CronExec]: [jiji-agent/src/cron.rs], [cron_schedule.rs], the cron tables, and
      the execution of runs in [cron_exec.rs], [scheduler.rs] and the run request of
      [api.rs].
    - [Dns]: [jiji-agent/src/dns.rs], queries and responses byte by byte, and the zone.
    - [Store]: the small tables of [jiji-agent/src/store.rs]: idempotency keys, local state,
      peer sync, component status, peer cache, liveness, image retention.
    - [Api]: [jiji-agent/src/api.rs], every request over the whole database.
    - [Daemon]: the agent as a program of the host: commands it runs, its database and its
      configuration ([runtime.rs]).  [Wireguard]: [wireguard.rs] and the pass over the peers of
      [runtime.rs].  [ProxyScript]: [jiji-network/src/proxy_script.rs] and [bridge_script.rs],
      as the text they render.  [Discovery]: [discovery.rs] and
      [image_retention.rs].  [Reconcile]: [local_reconcile.rs], the repair loop, and what it
      brings up ([wireguard_bringup.rs], [bridge_bringup.rs], [proxy_bringup.rs],
      [host_lease.rs]).

    The command-line tool:
    - [Cascade]: [jiji-cli/src/placement.rs], the selection and the waves of [cascade.rs].
    - [Locks]: [jiji-cli/src/lock.rs].
    - [Substring], [EnvResolution]: searching and replacing in text, and
      [jiji-cli/src/env_resolution.rs]: [.env] files, secrets, redaction.
    - [CandidatePlan]: the pure parts of [container_runtime.rs] and [health_check.rs].
    - [Session]: what the CLI does on a server, as programs on a [World] (the agent's database,
      the machine, a log of events): [container_ops.rs], [mounts.rs], [agent_client.rs],
      [version_requirements.rs].  [SessionLaws] has their triples and invariants.
    - [ProxyRoutes]: [proxy_routes.rs].
    - [Transaction]: [deploy_transaction.rs] and the health gate.  [Deploy] and [DeployGate]
      have its properties; [DeployGate] ends with runs of a sample server.
    - [HostProxy]: [proxy.rs], [proxy_ingress.rs] and [agent_install.rs], with the paths and the
      unit of the agent.  [AuditTrail]: [audit.rs].
    - [Teardown]: [commands/server/teardown.rs] and the plans and removals it is made of
      ([teardown_plan.rs], [network_teardown.rs], [proxy_teardown.rs], [image_teardown.rs],
      [volume_teardown.rs]).  [TeardownLaws] has its properties.
    - [Fleet]: programs over several servers: [cron_reconcile.rs], [image_retention_reconcile.rs]
      and the image names of [registry.rs].  [FleetLaws] has their properties.
      [FleetLogs] has the triples about what was issued on a server.
    - [LockSession]: [lock.rs] over the sessions of a command and [with_locks] of
      [commands/lock/mod.rs].  [LockLaws] has their properties.
    - [NetworkSetup]: [commands/network/bridge.rs], [network_guard.rs] and what
      [commands/network/setup.rs] does on one server.  [NetworkApply]: its run over all of them,
      with the rollback.  [WireguardConf] and [NetworkLaws] have their properties.
    - [Services]: what the commands on services share: selection, connections, environments,
      proxies, the two waves over the sessions, the report ([commands/deploy.rs], [cascade.rs],
      [proxy_routes.rs], [audit.rs]).  [ServiceRemove]: [service/remove.rs] and [prune.rs].
      [ServiceScale]: [service/scale.rs].  [ServiceRedeploy]: [service/restart.rs],
      [rollback.rs] and [commands/deploy.rs] without [--build].  [ServiceLaws] has their
      properties, [CommandLogs] the order of events in their logs and [RemoveLaws] that of a
      removal.
    - [EngineInstall]: [engine.rs], [agent_distribution.rs], the search for a local agent of
      [agent_install.rs] and [recovery_epoch.rs].  [ServerSetup]: [server/setup.rs] with
      [network/membership.rs], [assess.rs], [import.rs] and the replay of [backup.rs].
      [ServerUpgrade]: [server/upgrade.rs].  [UpgradeLaws] and [SetupLaws] have their
      properties.

    The proxy:
    - [Certs]: [jiji-proxy/src/wildcard.rs], [cert_store.rs] and the check of [acme.rs].
    - [Routes]: [jiji-proxy/src/route_manager.rs], the requests of [admin.rs] and the lookup
      of [proxy.rs].

    ** How the code is rendered

    State is a record that operations take and return.  A database table is a [gmap] from its
    primary key, or a list of rows where the order of insertion is observed; a transaction
    that fails returns no new state, as it is rolled back.  Errors are values of [result];
    a panic is a value of its own ([fault]) wherever the code can panic, so that the absence
    of panics is a theorem.  Integers are [N] or [Z] with the width written where a
    conversion, an overflow or a column can matter.  Tasks that interleave (cron runs, lock
    holders, concurrent route requests) are step relations, and their properties hold in
    every reachable state, crashes included.

    Code outside the repository is a parameter, mostly a type class: SHA-256 and the content
    hash of a record ([Sha256], [ContentHash]), the cron and time zone library, OpenSSL and
    what a certificate authority issues, the load balancers of Pingora, what a DNS forwarder
    answers, what the container engine and remote shells return, and whether a request to an
    agent and its answer arrive ([Host], [AgentLink]).  A theorem that needs
    more of one of them (no collision of hashes among the records in play, for example) has
    that as a hypothesis.

    Loops that are not structural have fuel: the label loop of a DNS query takes
    [LABEL_TURNS] = 34 turns, one more than the labels it accepts, and [queries_are_understood]
    proves that no message exhausts it; lossy decoding takes one turn per byte of its
    input; a round of lock acquisition takes one turn per requested lock; a poll takes one
    turn per look, and [activation_wait_ends] and [health_gate_ends] say how many looks the
    timeout allows.

    ** What the theorems show

    - Replication ([Membership], [Catalog], [Desired], [OpLog], [Replication]): live members
      never share a name, address, subnet or key; the database refines the view it stores;
      logs replay and compaction changes nothing; an older owner is fenced out; records of a
      peer are only its own, and an exchange delivers them.
    - Addresses ([Planner], [Leases]): a plan gives every server disjoint addresses and a
      complete mesh, and planning never panics; no address is leased twice and allocation
      fails only when none is free.
    - Cron ([Cron], [CronExec]): at most one run of a job is active, an active run has a task
      unless its task panicked or a restart could not list the containers, the tick advances each
      job, retention keeps what it must.
    - Names and traffic ([Dns], [Routes], [Certs]): a response reads back as the question and
      the addresses of the zone, the zone has the live replicas, a request goes to the
      longest prefix of the most specific host, certificates are renewed when due.
    - Deployment ([Validation], [Cascade], [Locks]): an accepted configuration can be placed,
      the cascade takes every dependent along, a lock excludes.
    - The host ([Wireguard], [ProxyScript], [Discovery], [Reconcile]): a pass over the peers
      from a ready state brings the kernel to the members; recovery of
      leases and of interrupted deployments only follows what is seen to run; a turn of the
      repair loop always completes, records what came of each component and is retried with a
      bounded wait.
    - Teardown ([Teardown]): containers go before networks and images, data of others stays,
      and a report of success means that all that was found was removed, is kept for a reason, or
      could not be inspected, which the code takes for its absence.
    - Cron jobs over a fleet ([Fleet]): a pass loses no job and touches no other service, and
      a pass without problems leaves the jobs on the owner and nowhere else.
    - Network set-up ([NetworkApply]): every target is staged before one is activated, a failure
      takes the activated ones back or names those it could not, success means activated and
      checked; the keys of a
      configuration are read back from it.  A log says what was issued on a server and answered.
    - Locks over a fleet ([LockSession]): acquisition is all or nothing, ends, and what is
      acquired is given back, by the answers of the servers; a lock whose claim or release lost its
      answer is named in the error.
    - Commands on services ([ServiceScale], [Services]): the plan of a scaling leads to the
      scale asked for, a dependent waits for its upstream and a failure stops what
      comes after it, and a removal
      takes the containers before the records and is complete when it says so.
    - Preparing servers ([ServerSetup], [ServerUpgrade]): a set-up or an upgrade that ends well
      has reached every selected server in every phase, and an upgrade only reads an agent
      that is ahead of it.
    - One endpoint ([Transaction], [Api], [EnvResolution], [ProxyRoutes]): whatever fails on
      the way, a replica that is served stays served; only a container that was started and
      checked becomes active; success leaves the new deployment active and the previous one
      drained; the polls end; the agent's tables stay sound under every request and a
      request with a key is carried out once; secrets are redacted, the longest first, and TLS material stays
      out of the container's environment.
    Some theorems state what goes wrong: a desired-state log that refuses every record after an
    epoch change, lock recovery that breaks exclusion, an issued certificate that is not
    renewed after a restart, a renamed server that loses its
    peers, a stopped proxy that is removed with every certificate, a restart that waits for its own
    lock, a scaling that panics, a removal that forgets containers it could not look at, a cron run
    without a task that blocks its job; the end of
    [DeployGate] computes what a failed preparation leaves behind: a leaked lease and, with
    [stop_first], a stopped service.

    ** Not modelled

    Sockets, timeouts, files, SSH and the terminal; YAML and JSON decoding; SQLite itself
    (migrations, integrity checks, backup); unit files that are written for systemd; the build and registry commands; the proxy's
    connection handling, which is Pingora's.  Their inputs and outputs are arguments
    where a modelled function uses them.  Left to extend, in this order: the
    backups of a cluster, the build commands and the logs of services. *)

From Stdlib Require Export Ascii.
From stdpp Require Export base gmap strings list sorting pretty fin_maps.

(** ** Results *)

(** Rust's [Result<A, E>]. *)
Inductive result (E A : Type) : Type :=
| Ok (a : A)
| Err (e : E).
Arguments Ok {E A} a.
Arguments Err {E A} e.

Declare Scope jiji_scope.
Delimit Scope jiji_scope with jiji.
Open Scope jiji_scope.

(** The [?] operator: return the error early, go on with the value. *)
Notation "'let?' x ':=' c 'in' k" :=
  (match c with Ok x => k | Err e => Err e end)
  (at level 10, x pattern, c at level 100, k at level 200,
   format "'[v' 'let?'  x  ':='  c  'in' '/' k ']'") : jiji_scope.

(** [guard? b else e in k]: the early return [if !b { return Err(e) }]. *)
Notation "'ensure?' b 'else' e 'in' k" :=
  (if b then k else Err e)
  (at level 10, b at level 100, e at level 100, k at level 200,
   format "'[v' 'ensure?'  b  'else'  e  'in' '/' k ']'") : jiji_scope.

Definition ok_or {E A} (o : option A) (e : E) : result E A :=
  match o with Some a => Ok a | None => Err e end.

Definition map_err {E F A} (f : E → F) (r : result E A) : result F A :=
  match r with Ok a => Ok a | Err e => Err (f e) end.

Definition is_ok {E A} (r : result E A) : bool :=
  match r with Ok _ => true | Err _ => false end.

(** Code that may also panic ([expect], an index out of range, a division by zero). *)
Inductive fault (E : Type) : Type :=
| Failed (e : E)
| Panic.
Arguments Failed {E} e.
Arguments Panic {E}.

(** [Option::expect]. *)
Definition expect {E A} (o : option A) : result (fault E) A := ok_or o Panic.
(** [?] on an error of the code itself. *)
Definition fallible {E A} (r : result E A) : result (fault E) A := map_err Failed r.

(** A [for] loop whose body may return early with [?]. *)
Fixpoint try_fold {E S A} (f : S → A → result E S) (s : S) (l : list A) : result E S :=
  match l with
  | [] => Ok s
  | a :: l => let? s' := f s a in try_fold f s' l
  end.

Lemma try_fold_app {E S A} (f : S → A → result E S) s l1 l2 :
  try_fold f s (l1 ++ l2) = (let? s' := try_fold f s l1 in try_fold f s' l2).
Proof. revert s. induction l1 as [|a l1 IH]; intros s; simpl; [done|]. by destruct (f s a). Qed.

Lemma try_fold_invariant {E S A} (I : S → Prop) (f : S → A → result E S) s l s' :
  (∀ s a s', I s → a ∈ l → f s a = Ok s' → I s') →
  I s → try_fold f s l = Ok s' → I s'.
Proof.
  revert s. induction l as [|a l IH]; intros s Hstep HI Hf; simplify_eq/=; [done|].
  destruct (f s a) as [s1|] eqn:E1; simplify_eq/=.
  apply (IH s1); eauto using list_elem_of_here, list_elem_of_further.
Qed.

(** ** Total orders as comparison functions (Rust's [Ord]) *)

Class Ord (A : Type) := cmp : A → A → comparison.

Class OrdLaws (A : Type) `{Ord A} := {
  cmp_eq_iff x y : cmp x y = Eq ↔ x = y;
  cmp_swap x y : cmp y x = CompOpp (cmp x y);
  cmp_lt_trans x y z : cmp x y = Lt → cmp y z = Lt → cmp x z = Lt;
}.

#[export] Instance N_ord : Ord N := N.compare.
#[export] Instance string_ord : Ord string := String.compare.
(** Tuples compare lexicographically. *)
#[export] Instance prod_ord {A B} `{Ord A, Ord B} : Ord (A * B) := λ x y,
  match cmp x.1 y.1 with Eq => cmp x.2 y.2 | c => c end.

#[export] Instance N_ord_laws : OrdLaws N.
Proof.
  split; unfold cmp, N_ord.
  - apply N.compare_eq_iff.
  - intros; apply N.compare_antisym.
  - intros x y z. rewrite !N.compare_lt_iff. lia.
Qed.

Lemma string_compare_refl x : String.compare x x = Eq.
Proof.
  pose proof (String.compare_antisym x x) as H. by destruct (String.compare x x).
Qed.

Lemma string_leb_not_gt x y : String.le x y ↔ String.compare x y ≠ Gt.
Proof. unfold String.le, String.leb. by destruct (String.compare x y); simpl; split; intros; try done. Qed.

#[export] Instance string_ord_laws : OrdLaws string.
Proof.
  split; unfold cmp, string_ord.
  - intros x y. split; [apply String.compare_eq_iff|intros ->; apply string_compare_refl].
  - intros; apply String.compare_antisym.
  - intros x y z Hxy Hyz.
    assert (String.le x z) as Hxz.
    { transitivity y; apply string_leb_not_gt; congruence. }
    apply string_leb_not_gt in Hxz.
    destruct (String.compare x z) eqn:E; try done.
    apply String.compare_eq_iff in E as ->.
    rewrite String.compare_antisym, Hxy in Hyz. done.
Qed.

#[export] Instance prod_ord_laws {A B} `{OrdLaws A, OrdLaws B} : OrdLaws (A * B).
Proof.
  split; unfold cmp at 1, prod_ord.
  - intros [a b] [a' b']; simpl. destruct (cmp a a') eqn:E.
    + apply cmp_eq_iff in E as ->. rewrite cmp_eq_iff. naive_solver.
    + split; [done|]. intros [= -> ->].
      assert (cmp a' a' = Eq) by by apply cmp_eq_iff. congruence.
    + split; [done|]. intros [= -> ->].
      assert (cmp a' a' = Eq) by by apply cmp_eq_iff. congruence.
  - intros [a b] [a' b']; unfold cmp; simpl. fold (cmp a' a) (cmp a a').
    rewrite (cmp_swap a a'). destruct (cmp a a'); simpl; [apply cmp_swap|done|done].
  - intros [a b] [a' b'] [a'' b'']; unfold cmp; simpl.
    fold (cmp a a') (cmp a' a'') (cmp a a'').
    destruct (cmp a a') eqn:E1, (cmp a' a'') eqn:E2; try done; intros.
    + apply cmp_eq_iff in E1 as ->, E2 as ->.
      assert (cmp a'' a'' = Eq) as -> by by apply cmp_eq_iff.
      eapply cmp_lt_trans; eauto.
    + apply cmp_eq_iff in E1 as ->. by rewrite E2.
    + apply cmp_eq_iff in E2 as ->. by rewrite E1.
    + by rewrite (cmp_lt_trans _ _ _ E1 E2).
Qed.

(** *** Derived facts and decision procedures *)

Definition leb {A} `{Ord A} (x y : A) : bool := match cmp x y with Gt => false | _ => true end.
Definition ltb {A} `{Ord A} (x y : A) : bool := match cmp x y with Lt => true | _ => false end.

Section ord_facts.
Context {A : Type} `{OrdLaws A}.
Implicit Types x y z : A.

Lemma cmp_refl x : cmp x x = Eq.
Proof. by apply cmp_eq_iff. Qed.

Lemma ltb_leb x y : ltb x y = negb (leb y x).
Proof. unfold ltb, leb. rewrite (cmp_swap x y). by destruct (cmp x y). Qed.

Lemma leb_ltb x y : leb x y = negb (ltb y x).
Proof. by rewrite ltb_leb, negb_involutive. Qed.

Lemma leb_refl x : leb x x = true.
Proof. unfold leb. by rewrite cmp_refl. Qed.

Lemma leb_antisym x y : leb x y = true → leb y x = true → x = y.
Proof.
  unfold leb. rewrite (cmp_swap x y). destruct (cmp x y) eqn:E; try done.
  intros _ _. by apply cmp_eq_iff.
Qed.

Lemma leb_total x y : leb x y = true ∨ leb y x = true.
Proof. unfold leb. rewrite (cmp_swap x y). destruct (cmp x y); auto. Qed.

Lemma ltb_trans x y z : ltb x y = true → ltb y z = true → ltb x z = true.
Proof.
  unfold ltb. destruct (cmp x y) eqn:E1, (cmp y z) eqn:E2; try done.
  by rewrite (cmp_lt_trans _ _ _ E1 E2).
Qed.

Lemma leb_lt_or_eq x y : leb x y = true ↔ ltb x y = true ∨ x = y.
Proof.
  unfold leb, ltb. rewrite <-cmp_eq_iff. destruct (cmp x y); naive_solver.
Qed.

Lemma leb_trans x y z : leb x y = true → leb y z = true → leb x z = true.
Proof.
  rewrite !leb_lt_or_eq. intros [?| ->] [?| ->]; eauto using ltb_trans.
Qed.

Lemma ltb_irrefl x : ltb x x = false.
Proof. unfold ltb. by rewrite cmp_refl. Qed.

Lemma leb_ltb_trans x y z : leb x y = true → ltb y z = true → ltb x z = true.
Proof. rewrite leb_lt_or_eq. intros [?| ->]; eauto using ltb_trans. Qed.
End ord_facts.

Lemma prod_leb_fst {A B} `{OrdLaws A, OrdLaws B} (x y : A * B) :
  leb x y = true → leb x.1 y.1 = true.
Proof. unfold leb, cmp at 1, prod_ord. by destruct (cmp x.1 y.1). Qed.

Lemma prod_leb_snd {A B} `{OrdLaws A, OrdLaws B} (a : A) (x y : B) :
  leb (a, x) (a, y) = true → leb x y = true.
Proof. unfold leb, cmp at 1, prod_ord. simpl. by rewrite cmp_refl. Qed.

Lemma N_leb_le (x y : N) : leb x y = true ↔ (x ≤ y)%N.
Proof. unfold leb, cmp, N_ord, N.le. by destruct (x ?= y)%N. Qed.

(** ** Stable sorting by a comparison (Rust's [sort], [sort_by]) *)

Fixpoint insert_by {A} (le : A → A → bool) (x : A) (l : list A) : list A :=
  match l with
  | [] => [x]
  | y :: l => if le x y then x :: y :: l else y :: insert_by le x l
  end.

Definition sort_by {A} (le : A → A → bool) (l : list A) : list A :=
  foldr (insert_by le) [] l.

Section sort_by.
Context {A : Type} (le : A → A → bool).
Implicit Types (x : A) (l : list A).

Lemma insert_by_Permutation x l : insert_by le x l ≡ₚ x :: l.
Proof.
  induction l as [|y l IH]; simpl; [done|]. destruct (le x y); [done|].
  rewrite IH. apply Permutation_swap.
Qed.

Lemma sort_by_Permutation l : sort_by le l ≡ₚ l.
Proof. induction l as [|x l IH]; simpl; [done|]. by rewrite insert_by_Permutation, IH. Qed.

Lemma elem_of_sort_by x l : x ∈ sort_by le l ↔ x ∈ l.
Proof. by rewrite sort_by_Permutation. Qed.

Hypothesis le_total : ∀ x y, le x y = true ∨ le y x = true.
Hypothesis le_trans : ∀ x y z, le x y = true → le y z = true → le x z = true.

Lemma insert_by_sorted x l :
  StronglySorted (λ a b, le a b = true) l →
  StronglySorted (λ a b, le a b = true) (insert_by le x l).
Proof.
  induction 1 as [|y l Hl IH Hy]; simpl; [by repeat constructor|].
  destruct (le x y) eqn:E.
  - constructor; [by constructor|]. constructor; [done|].
    eapply Forall_impl; [exact Hy|]. simpl. eauto.
  - constructor; [done|]. rewrite insert_by_Permutation.
    constructor; [|done]. destruct (le_total x y); congruence.
Qed.

Lemma sort_by_sorted l : StronglySorted (λ a b, le a b = true) (sort_by le l).
Proof. induction l; simpl; [constructor|by apply insert_by_sorted]. Qed.
End sort_by.

(** ** Ordered maps *)

(** A [BTreeMap<K, V>] is a [gmap K V] whose iteration is in key order. *)
Definition key_leb {K V} `{Ord K} (a b : K * V) : bool := leb a.1 b.1.
Definition btree_list {K V} `{Countable K, Ord K} (m : gmap K V) : list (K * V) :=
  sort_by key_leb (map_to_list m).
Definition btree_keys {K V} `{Countable K, Ord K} (m : gmap K V) : list K := (btree_list m).*1.
Definition btree_values {K V} `{Countable K, Ord K} (m : gmap K V) : list V := (btree_list m).*2.
(** A [BTreeSet<K>] likewise. *)
Definition btree_elems {K} `{Countable K, Ord K} (s : gset K) : list K := sort_by leb (elements s).

Create HintDb btree.

Section btree.
Context {K V : Type} `{Countable K, OrdLaws K}.
Implicit Types m : gmap K V.

Lemma btree_list_Permutation m : btree_list m ≡ₚ map_to_list m.
Proof. apply sort_by_Permutation. Qed.

Lemma elem_of_btree_list m k v : (k, v) ∈ btree_list m ↔ m !! k = Some v.
Proof. unfold btree_list. by rewrite elem_of_sort_by, elem_of_map_to_list. Qed.

Lemma elem_of_btree_values m v : v ∈ btree_values m ↔ ∃ k, m !! k = Some v.
Proof.
  unfold btree_values. rewrite list_elem_of_fmap. split.
  - intros [[k v'] [-> Hin]]. exists k. by apply elem_of_btree_list.
  - intros [k Hk]. exists (k, v). split; [done|]. by apply elem_of_btree_list.
Qed.

Lemma elem_of_btree_keys m k : k ∈ btree_keys m ↔ is_Some (m !! k).
Proof.
  unfold btree_keys. rewrite list_elem_of_fmap. split.
  - intros [[k' v'] [-> Hin]]. exists v'. by apply elem_of_btree_list.
  - intros [v Hv]. exists (k, v). split; [done|]. by apply elem_of_btree_list.
Qed.

Lemma NoDup_btree_keys m : NoDup (btree_keys m).
Proof.
  unfold btree_keys. rewrite (btree_list_Permutation m). apply NoDup_fst_map_to_list.
Qed.

Lemma NoDup_btree_list m : NoDup (btree_list m).
Proof. rewrite btree_list_Permutation. apply NoDup_map_to_list. Qed.

Lemma btree_list_sorted m :
  StronglySorted (λ a b, key_leb a b = true) (btree_list m).
Proof.
  apply sort_by_sorted; unfold key_leb.
  - intros; apply leb_total.
  - intros x y z; apply leb_trans.
Qed.

(** The listing is the only list of the map's entries in key order. *)
Lemma btree_list_unique m l :
  l ≡ₚ map_to_list m → StronglySorted (λ a b, key_leb a b = true) l → btree_list m = l.
Proof.
  intros Hp Hs. eapply (StronglySorted_unique_strong (λ a b, key_leb a b = true));
    [|apply btree_list_sorted|done|by rewrite btree_list_Permutation].
  intros [k1 v1] [k2 v2] Hm1 Hm2 Hle Hge. unfold key_leb in *; simpl in *.
  pose proof (leb_antisym _ _ Hle Hge) as ->. f_equal.
  rewrite elem_of_btree_list in Hm1. rewrite Hp, elem_of_map_to_list in Hm2. congruence.
Qed.
End btree.

Lemma btree_list_fmap {K V W} `{Countable K, OrdLaws K} (f : V → W) (m : gmap K V) :
  btree_list (f <$> m) = prod_map id f <$> btree_list m.
Proof.
  apply btree_list_unique.
  - by rewrite btree_list_Permutation, map_to_list_fmap.
  - pose proof (btree_list_sorted m) as Hs. revert Hs. generalize (btree_list m).
    induction 1 as [|[k v] l Hl IH Hx]; simpl; constructor; [done|].
    apply Forall_fmap. eapply Forall_impl; [exact Hx|]. by intros [].
Qed.

Lemma elem_of_btree_elems {K} `{Countable K, OrdLaws K} (s : gset K) x :
  x ∈ btree_elems s ↔ x ∈ s.
Proof. unfold btree_elems. by rewrite elem_of_sort_by, elem_of_elements. Qed.

#[export] Hint Rewrite @elem_of_btree_list @elem_of_btree_values @elem_of_btree_keys
  @elem_of_btree_elems using apply _ : btree.

(** Sorting by a total order forgets the order of the input. *)
Lemma sort_by_leb_Permutation {A} `{OrdLaws A} (l k : list A) :
  l ≡ₚ k → sort_by leb l = sort_by leb k.
Proof.
  intros Hp. eapply (StronglySorted_unique_strong (λ a b, leb a b = true)).
  - intros x y _ _. apply leb_antisym.
  - apply sort_by_sorted; [apply leb_total|apply leb_trans].
  - apply sort_by_sorted; [apply leb_total|apply leb_trans].
  - by rewrite !sort_by_Permutation.
Qed.

(** A filter none of the elements passes leaves nothing. *)
Lemma filter_none {A} (P : A → Prop) `{∀ x, Decision (P x)} (l : list A) :
  (∀ x, x ∈ l → ¬ P x) → filter P l = [].
Proof.
  induction l as [|x l IH]; intros Hn; [done|]. rewrite filter_cons_False.
  - apply IH. intros y Hy. apply Hn. by apply list_elem_of_further.
  - apply Hn. apply list_elem_of_here.
Qed.

(** A filter every element passes changes nothing. *)
Lemma filter_all {A} (P : A → Prop) `{∀ x, Decision (P x)} (l : list A) :
  (∀ x, x ∈ l → P x) → filter P l = l.
Proof.
  induction l as [|x l IH]; intros Ha; [done|]. rewrite filter_cons_True.
  - f_equal. apply IH. intros y Hy. apply Ha. by apply list_elem_of_further.
  - apply Ha. apply list_elem_of_here.
Qed.

Lemma StronglySorted_weaken {A} (R S : A → A → Prop) (l : list A) :
  (∀ x y, R x y → S x y) → StronglySorted R l → StronglySorted S l.
Proof.
  intros HRS. induction 1 as [|x l Hs IH Hx]; constructor; [done|].
  eapply Forall_impl; [exact Hx|]. intros y. apply HRS.
Qed.

Lemma StronglySorted_filter {A} (R : A → A → Prop) (P : A → Prop) `{∀ x, Decision (P x)} l :
  StronglySorted R l → StronglySorted R (filter P l).
Proof.
  induction 1 as [|x l Hl IH Hx]; [constructor|]. rewrite filter_cons. destruct (decide (P x)); [|done].
  constructor; [done|]. rewrite Forall_forall in *. intros y [_ Hy]%list_elem_of_filter. auto.
Qed.

Lemma StronglySorted_snoc {A} (Rel : A → A → Prop) l x :
  StronglySorted Rel l → Forall (λ a, Rel a x) l → StronglySorted Rel (l ++ [x]).
Proof.
  induction 1 as [|a l Hl IH Ha]; intros Hx; simpl; [by repeat constructor|].
  inversion Hx; subst. constructor; [by apply IH|]. apply Forall_app. by split; [|constructor].
Qed.

Lemma StronglySorted_sublist {A} (Rel : A → A → Prop) l k :
  k `sublist_of` l → StronglySorted Rel l → StronglySorted Rel k.
Proof.
  induction 1 as [|x k l Hs IH|x k l Hs IH]; intros Hl; [done| |]; inversion Hl; subst; auto.
  constructor; [auto|]. rewrite Forall_forall in *. intros y Hy.
  assert (y ∈ l) by by eapply elem_of_sublist. auto.
Qed.

Lemma StronglySorted_lookup_lt {A} (R : A → A → Prop) (l : list A) i j x y :
  StronglySorted R l → l !! i = Some x → l !! j = Some y → (i < j)%nat → R x y.
Proof.
  intros Hs. revert i j. induction Hs as [|z l Hs IH Hz]; intros [|i] [|j] Hx Hy Hlt; try done; try lia.
  - injection Hx as ->. rewrite Forall_forall in Hz. by eapply Hz, list_elem_of_lookup_2.
  - apply (IH i j); [done|done|lia].
Qed.

(** ** Machine integers *)

Definition u16_max : N := 65535.
Definition u32_max : N := 4294967295.
Definition u64_max : N := 18446744073709551615.
Definition i64_max : N := 9223372036854775807.

(** [+] on [u64] in a release build wraps around. *)
Definition u64_add (a b : N) : N := ((a + b) mod 2 ^ 64)%N.
Definition u64_saturating_add (a b : N) : N := N.min (a + b) u64_max.
Definition saturating_sub (a b : N) : N := (a - b)%N.

Lemma u64_add_small a b : (a + b ≤ u64_max)%N → u64_add a b = (a + b)%N.
Proof. intros. unfold u64_add. apply N.mod_small. unfold u64_max in *. lia. Qed.

(** ** Case analysis *)

(** Destruct the scrutinee of every [match] and [if] in a hypothesis, closing the
    branches the hypothesis refutes. *)
Ltac case_hyp H :=
  repeat (match type of H with
          | context [match ?x with _ => _ end] =>
              let E := fresh "E" in destruct x eqn:E; simpl in H; try discriminate H
          end);
  simplify_eq/=.

Ltac bool_to_prop :=
  repeat match goal with
  | H : (_ || _)%bool = false |- _ => apply orb_false_iff in H as [? ?]
  | H : (_ && _)%bool = true |- _ => apply andb_true_iff in H as [? ?]
  | H : negb _ = true |- _ => apply negb_true_iff in H
  | H : negb _ = false |- _ => apply negb_false_iff in H
  | H : bool_decide _ = true |- _ => apply bool_decide_eq_true_1 in H
  | H : bool_decide _ = false |- _ => apply bool_decide_eq_false_1 in H
  end.

(** [lia] after abstracting quotients and remainders of [N], which keeps the facts about
    them that are in the context and their sign. *)
Ltac nlia :=
  repeat match goal with
  | |- context [N.modulo ?a ?b] => generalize dependent (N.modulo a b); intros
  | |- context [N.div ?a ?b] => generalize dependent (N.div a b); intros
  | H : context [N.modulo ?a ?b] |- _ => generalize dependent (N.modulo a b); intros
  | H : context [N.div ?a ?b] |- _ => generalize dependent (N.div a b); intros
  end; lia.
