(* ===== verification/Text.v ===== *)
(** Text: the operations of Rust's [str], [char] and integer parsing that the modelled
    code uses.  A string is its UTF-8 bytes; the operations that look at characters
    ([trim], [split_whitespace]) first cut the bytes into characters. *)

From S2P Require Import Prelude.
Open Scope N_scope.

Definition bytes (s : string) : list ascii := String.list_ascii_of_string s.

(** [str::split_once(char)]. *)
Fixpoint split_once (c : ascii) (s : string) : option (string * string) :=
  match s with
  | EmptyString => None
  | String d s' =>
      if bool_decide (d = c) then Some (EmptyString, s')
      else match split_once c s' with
           | Some (a, b) => Some (String d a, b)
           | None => None
           end
  end.

Definition digit_value (c : ascii) : option N :=
  let n := N_of_ascii c in
  if (48 <=? n) && (n <=? 57) then Some (n - 48) else None.

Inductive ParseIntError := PIE_Empty | PIE_InvalidDigit | PIE_PosOverflow.

Definition parse_int_error_text (e : ParseIntError) : string :=
  match e with
  | PIE_Empty => "cannot parse integer from empty string"
  | PIE_InvalidDigit => "invalid digit found in string"
  | PIE_PosOverflow => "number too large to fit in target type"
  end.

(** The digit loop of [u8::from_str] and its wider siblings: the digit is checked before
    the overflow of the multiplication and of the addition. *)
Fixpoint parse_digits (max acc : N) (s : string) : result ParseIntError N :=
  match s with
  | EmptyString => Ok acc
  | String c s' =>
      match digit_value c with
      | None => Err PIE_InvalidDigit
      | Some d =>
          if acc * 10 <=? max then
            if acc * 10 + d <=? max then parse_digits max (acc * 10 + d) s'
            else Err PIE_PosOverflow
          else Err PIE_PosOverflow
      end
  end.

(** [str::parse] at an unsigned type with the given maximum: an optional [+], then digits. *)
Definition parse_uint (max : N) (s : string) : result ParseIntError N :=
  match s with
  | EmptyString => Err PIE_Empty
  | String c s' =>
      if bool_decide (c = "+"%char) then
        match s' with EmptyString => Err PIE_InvalidDigit | _ => parse_digits max 0 s' end
      else parse_digits max 0 s
  end.

(** [str::rsplit_once(char)]: split at the last occurrence. *)
Fixpoint rsplit_once (c : ascii) (s : string) : option (string * string) :=
  match s with
  | EmptyString => None
  | String d s' =>
      match rsplit_once c s' with
      | Some (a, b) => Some (String d a, b)
      | None => if bool_decide (d = c) then Some (EmptyString, s') else None
      end
  end.

(** [str::strip_prefix(&str)] and [str::starts_with(&str)]. *)
Fixpoint strip_prefix (p s : string) : option string :=
  match p, s with
  | EmptyString, _ => Some s
  | String a p', String b s' => if bool_decide (a = b) then strip_prefix p' s' else None
  | String _ _, EmptyString => None
  end.

#[global] Arguments strip_prefix : simpl never.

Definition starts_with (p s : string) : bool :=
  match strip_prefix p s with Some _ => true | None => false end.

(** [str::contains(char)]. *)
Definition contains_char (c : ascii) (s : string) : bool := bool_decide (c ∈ bytes s).

(** ** Characters *)

Definition to_ascii_lowercase (c : ascii) : ascii :=
  let n := N_of_ascii c in if (65 <=? n) && (n <=? 90) then ascii_of_N (n + 32) else c.
Definition is_ascii_digit (c : ascii) : bool :=
  let n := N_of_ascii c in (48 <=? n) && (n <=? 57).
Definition is_ascii_lowercase (c : ascii) : bool :=
  let n := N_of_ascii c in (97 <=? n) && (n <=? 122).
Definition is_ascii_uppercase (c : ascii) : bool :=
  let n := N_of_ascii c in (65 <=? n) && (n <=? 90).
Definition is_ascii_alphanumeric (c : ascii) : bool :=
  is_ascii_digit c || is_ascii_lowercase c || is_ascii_uppercase c.


(** The number of bytes of the UTF-8 character a lead byte starts. *)
Definition utf8_width (c : ascii) : nat :=
  let n := N_of_ascii c in
  if n <? 192 then 1 else if n <? 224 then 2 else if n <? 240 then 3 else 4.

(** [str::chars], each character as its bytes. The fuel is the number of bytes. *)
Fixpoint utf8_chars_go (fuel : nat) (l : list ascii) : list (list ascii) :=
  match fuel, l with
  | S fuel, c :: l' =>
      let w := utf8_width c in
      take w l :: utf8_chars_go fuel (drop w l)
  | _, _ => []
  end.
Definition utf8_chars (s : string) : list (list ascii) :=
  utf8_chars_go (length (bytes s)) (bytes s).

(** [char::is_whitespace]: the characters with the property White_Space. *)
Definition is_whitespace (ch : list ascii) : bool :=
  match N_of_ascii <$> ch with
  | [n] => (n =? 32) || ((9 <=? n) && (n <=? 13))
  | [194; n] => (n =? 133) || (n =? 160)
  | [225; 154; n] => n =? 128
  | [226; 128; n] => ((128 <=? n) && (n <=? 138)) || (n =? 168) || (n =? 169) || (n =? 175)
  | [226; 129; n] => n =? 159
  | [227; 128; n] => n =? 128
  | _ => false
  end.

Fixpoint drop_whitespace (l : list (list ascii)) : list (list ascii) :=
  match l with
  | ch :: l' => if is_whitespace ch then drop_whitespace l' else l
  | [] => []
  end.

(** [str::trim], as characters. *)
Definition trim_chars (s : string) : list (list ascii) :=
  rev (drop_whitespace (rev (drop_whitespace (utf8_chars s)))).
Definition of_chars (l : list (list ascii)) : string :=
  String.string_of_list_ascii (mjoin l).
Definition trim (s : string) : string := of_chars (trim_chars s).

(** [s.trim().is_empty()] *)
Definition trim_is_empty (s : string) : bool := bool_decide (trim_chars s = []).

(** [str::split_whitespace().count()]: the number of maximal runs of other characters. *)
Fixpoint count_fields (in_field : bool) (l : list (list ascii)) : nat :=
  match l with
  | [] => 0
  | ch :: l' =>
      if is_whitespace ch then count_fields false l'
      else (if in_field then 0 else 1) + count_fields true l'
  end.
Definition split_whitespace_count (s : string) : nat := count_fields false (utf8_chars s).

(** [str::split_whitespace]: the runs themselves. *)
Definition flush_field (field : list (list ascii)) : list string :=
  match field with [] => [] | _ => [of_chars field] end.
Fixpoint whitespace_fields (field : list (list ascii)) (l : list (list ascii)) : list string :=
  match l with
  | [] => flush_field field
  | ch :: l => if is_whitespace ch then flush_field field ++ whitespace_fields [] l
               else whitespace_fields (field ++ [ch]) l
  end.
Definition split_whitespace (s : string) : list string := whitespace_fields [] (utf8_chars s).

(** ** Lemmas *)

Lemma length_bytes s : length (bytes s) = String.length s.
Proof. induction s as [|c s IH]; [done|]. simpl. by f_equal. Qed.

Lemma list_ascii_app s1 s2 :
  String.list_ascii_of_string (s1 +:+ s2) =
  String.list_ascii_of_string s1 ++ String.list_ascii_of_string s2.
Proof. induction s1 as [|c s1 IH]; simpl; [done|]. by f_equal. Qed.

Lemma split_once_app c s1 s2 :
  c ∉ String.list_ascii_of_string s1 →
  split_once c (s1 +:+ String c s2) = Some (s1, s2).
Proof.
  induction s1 as [|d s1 IH]; simpl; intros Hc.
  - by rewrite bool_decide_true.
  - rewrite bool_decide_false by set_solver.
    change (s1 ++ String c s2)%string with (s1 +:+ String c s2). rewrite IH by set_solver. done.
Qed.

Lemma N_below_forallb (k : nat) (f : N → bool) (n : N) :
  forallb f (N.of_nat <$> seq 0 k) = true → n < N.of_nat k → f n = true.
Proof.
  intros Hf%Is_true_true Hn. apply forallb_True in Hf.
  rewrite Forall_forall in Hf. specialize (Hf n).
  apply Is_true_true, Hf. apply list_elem_of_fmap. exists (N.to_nat n).
  split; [lia|]. apply elem_of_seq. lia.
Qed.

Lemma ascii_forallb (f : ascii → bool) (c : ascii) :
  forallb (λ n, f (ascii_of_N n)) (N.of_nat <$> seq 0 256) = true → f c = true.
Proof.
  intros Hf. rewrite <-(ascii_N_embedding c).
  apply (N_below_forallb 256 (λ n, f (ascii_of_N n))); [done|]. apply N_ascii_bounded.
Qed.

Lemma strip_prefix_app p s : strip_prefix p (p +:+ s) = Some s.
Proof.
  induction p as [|c p IH]; [done|]. change (strip_prefix (String c p) (String c p +:+ s)) with
    (if bool_decide (c = c) then strip_prefix p (p +:+ s) else None).
  by rewrite bool_decide_true.
Qed.

Lemma parse_digits_bound max acc s n : acc ≤ max → parse_digits max acc s = Ok n → n ≤ max.
Proof.
  revert acc. induction s as [|c s IH]; intros acc Hacc; simpl; [by intros [= <-]|].
  destruct (digit_value c); [|done]. destruct (_ <=? max); [|done].
  destruct (N.leb_spec (acc * 10 + n0) max); [|done]. by apply IH.
Qed.

Lemma parse_uint_bound max s n : parse_uint max s = Ok n → n ≤ max.
Proof.
  unfold parse_uint. destruct s as [|c s]; [done|].
  case_bool_decide; [destruct s; [done|]|]; apply parse_digits_bound; lia.
Qed.

Lemma append_inj_l (p a b : string) : p +:+ a = p +:+ b → a = b.
Proof. induction p; simpl; [done|]. intros [= ?]. auto. Qed.

Lemma append_assoc (a b c : string) : (a +:+ b) +:+ c = a +:+ (b +:+ c).
Proof.
  induction a as [|x a IH]; [done|].
  change (String x ((a +:+ b) +:+ c) = String x (a +:+ (b +:+ c))). by rewrite IH.
Qed.
