(* ===== verification/Pattern.v ===== *)
(** Host and service filters: the [*]-wildcard matcher of [jiji-core/src/pattern.rs],
    which every [-H]/[-S] selection of the planner and the CLI goes through.  The
    model works on the bytes of the strings: a pattern literal starts at a character
    boundary, so matching bytes and matching [char]s accept the same strings. *)

From S2P Require Import Prelude.

Definition star : ascii := "*"%char.

(** [matches], on slices. The inner [fix] is the second disjunct of the [*] arm, which
    drops one character of the value and keeps the pattern. *)
Fixpoint matches (value pattern : list ascii) {struct pattern} : bool :=
  match pattern with
  | [] => bool_decide (value = [])
  | p :: rest =>
      if bool_decide (p = star) then
        (fix skip (value : list ascii) : bool :=
           matches value rest || match value with [] => false | _ :: v => skip v end) value
      else
        match value with
        | c :: v => bool_decide (c = p) && matches v rest
        | [] => false
        end
  end.

Definition matches_pattern (value pattern : string) : bool :=
  matches (String.list_ascii_of_string value) (String.list_ascii_of_string pattern).

(** ** Declarative meaning of a pattern *)

(** [wild v p]: [v] is [p] with every [*] replaced by some (possibly empty) text and
    every other character standing for itself. *)
Inductive wild : list ascii → list ascii → Prop :=
| wild_nil : wild [] []
| wild_star pre v p : wild v p → wild (pre ++ v) (star :: p)
| wild_char c v p : c ≠ star → wild v p → wild (c :: v) (c :: p).

Lemma matches_star v p :
  matches v (star :: p) = true ↔ ∃ pre v', v = pre ++ v' ∧ matches v' p = true.
Proof.
  simpl. induction v as [|c v IH].
  - rewrite orb_false_r. split.
    + intros. by exists [], [].
    + intros (pre & v' & ?%symmetry%app_nil & ?). naive_solver.
  - rewrite orb_true_iff, IH. split.
    + intros [?|(pre & v' & -> & ?)]; [by exists [], (c :: v)|by exists (c :: pre), v'].
    + intros ([|c' pre] & v' & ? & ?); simplify_eq/=; eauto.
Qed.

Lemma matches_wild v p : matches v p = true ↔ wild v p.
Proof.
  split.
  - revert v. induction p as [|c p IH]; intros v.
    + simpl. intros ->%bool_decide_eq_true_1. constructor.
    + destruct (decide (c = star)) as [->|Hc].
      * rewrite matches_star. intros (pre & v' & -> & ?). constructor. auto.
      * simpl. rewrite bool_decide_false by done. destruct v as [|c' v]; [done|].
        intros [->%bool_decide_eq_true_1 ?]%andb_true_iff. constructor; auto.
  - induction 1 as [|pre v p H IH|c v p Hc H IH]; [done|apply matches_star; eauto|].
    simpl. rewrite bool_decide_false by done. by rewrite bool_decide_true.
Qed.

Lemma wild_literal v p : star ∉ p → wild v p ↔ v = p.
Proof.
  intros Hp. split.
  - induction 1; [done|set_solver|]. f_equal. set_solver.
  - intros ->. induction p; constructor; set_solver.
Qed.

(** A literal pattern (no [*]) matches exactly itself, and [*] matches everything. *)
Lemma matches_literal v p : star ∉ p → matches v p = true ↔ v = p.
Proof. intros. by rewrite matches_wild, wild_literal. Qed.

Lemma matches_any v : matches v [star] = true.
Proof. apply matches_wild. rewrite <-(app_nil_r v). repeat constructor. Qed.

Module PatternProps.

(** [matches_pattern] accepts exactly the values obtained from the pattern by
    replacing each [*] with arbitrary text and keeping every other character. *)
Theorem matches_pattern_spec (value pattern : string) :
  matches_pattern value pattern = true ↔
  wild (String.list_ascii_of_string value) (String.list_ascii_of_string pattern).
Proof. apply matches_wild. Qed.

End PatternProps.
