(* ===== verification/Cidr.v ===== *)
(** IPv4 ranges: [Ipv4Cidr] of [jiji-network/src/cidr.rs], the address arithmetic the
    planner and the lease allocator are built on, with the standard library's textual
    forms of addresses and of [u8] that [FromStr] relies on.

    An [Ipv4Addr] is its [u32] value; [u8] and [u64] values are [N]. *)

From S2P Require Import Prelude Text.
Open Scope N_scope.

(** ** Errors of the network plan ([jiji-network/src/error.rs]) *)

Inductive NetworkPlanError :=
| InvalidCidr (value reason : string)
| OverlappingAddressSpaces (management container : string)
| ContainerRangeTooSmall (cidr : string) (prefix : N)
| ManagementRangeTooSmall (cidr : string) (available required : N)
| BucketExhausted (kind : string) (bucket capacity : N)
| DuplicateServiceServer (service server : string)
| UnknownServiceServer (service server : string)
| UnmatchedHostFilter (filter : string)
| UnmatchedServiceFilter (filter : string).

(** ** Text of addresses and numbers *)

Definition octet (a i : N) : N := (a / 2 ^ (8 * i)) mod 256.

(** [Display for Ipv4Addr]. *)
Definition ipv4_to_string (a : N) : string :=
  pretty (octet a 3) +:+ "." +:+ pretty (octet a 2) +:+ "." +:+
  pretty (octet a 1) +:+ "." +:+ pretty (octet a 0).

(** One decimal octet: one to three digits, no leading zero, at most 255. *)
Definition parse_octet (s : string) : option N :=
  match s with
  | EmptyString => None
  | String c s' =>
      if bool_decide (c = "0"%char) && negb (bool_decide (s' = EmptyString)) then None
      else if (3 <? String.length s)%nat then None
      else match parse_digits 255 0 s with Ok n => Some n | Err _ => None end
  end.

(** [Ipv4Addr::from_str]: exactly four octets separated by dots. *)
Definition parse_ipv4 (s : string) : option N :=
  '(a, s) ← split_once "." s;
  '(b, s) ← split_once "." s;
  '(c, d) ← split_once "." s;
  a ← parse_octet a; b ← parse_octet b; c ← parse_octet c; d ← parse_octet d;
  Some (a * 2 ^ 24 + b * 2 ^ 16 + c * 2 ^ 8 + d).

Definition addr_parse_error_text : string := "invalid IPv4 address syntax".

(** ** [Ipv4Cidr] *)

Record Ipv4Cidr := { network : N; prefix : N }.

#[export] Instance Ipv4Cidr_eq_dec : EqDecision Ipv4Cidr.
Proof. solve_decision. Defined.

(** [u32::MAX << (32 - prefix)] keeps the low 32 bits. *)
Definition prefix_mask (prefix : N) : N :=
  if prefix =? 0 then 0 else N.land (N.shiftl u32_max (32 - prefix)) u32_max.

Definition cidr_text (network prefix : N) : string :=
  ipv4_to_string network +:+ "/" +:+ pretty prefix.

(** [Ipv4Cidr::new]. *)
Definition cidr_new (network prefix : N) : result NetworkPlanError Ipv4Cidr :=
  if 32 <? prefix then
    Err (InvalidCidr (cidr_text network prefix) "IPv4 prefixes must be between 0 and 32")
  else if negb (N.land network (prefix_mask prefix) =? network) then
    Err (InvalidCidr (cidr_text network prefix)
           "host bits must be zero; specify the network address")
  else Ok {| network := network; prefix := prefix |}.

Definition address_count (c : Ipv4Cidr) : N := N.shiftl 1 (32 - prefix c).

(** [u32 + u32] in a release build wraps around. *)
Definition address (c : Ipv4Cidr) (offset : N) : option N :=
  if address_count c <=? offset then None
  else Some ((network c + offset mod 2 ^ 32) mod 2 ^ 32).

Definition contains (c : Ipv4Cidr) (a : N) : bool :=
  N.land a (prefix_mask (prefix c)) =? network c.

Definition overlaps (c d : Ipv4Cidr) : bool :=
  contains c (network d) || contains d (network c).

Definition subnet_count (c : Ipv4Cidr) (new_prefix : N) : option N :=
  if (new_prefix <? prefix c) || (32 <? new_prefix) then None
  else Some (N.shiftl 1 (new_prefix - prefix c)).

Definition subnet (c : Ipv4Cidr) (new_prefix index : N) : option Ipv4Cidr :=
  count ← subnet_count c new_prefix;
  if count <=? index then None
  else
    let subnet_size := N.shiftl 1 (32 - new_prefix) in
    a ← address c (index * subnet_size);
    match cidr_new a new_prefix with Ok d => Some d | Err _ => None end.

(** [Display for Ipv4Cidr]. *)
Definition cidr_to_string (c : Ipv4Cidr) : string := cidr_text (network c) (prefix c).

(** [FromStr for Ipv4Cidr]. *)
Definition cidr_from_str (value : string) : result NetworkPlanError Ipv4Cidr :=
  let? (a, p) := ok_or (split_once "/" value)
      (InvalidCidr value "expected IPv4 CIDR notation such as 10.0.0.0/16") in
  let? a := ok_or (parse_ipv4 a) (InvalidCidr value addr_parse_error_text) in
  let? p := map_err (λ e, InvalidCidr value (parse_int_error_text e)) (parse_uint 255 p) in
  cidr_new a p.

(** ** Well-formed ranges and the addresses they denote *)

Definition cidr_wf (c : Ipv4Cidr) : Prop :=
  prefix c ≤ 32 ∧ network c < 2 ^ 32 ∧ network c mod 2 ^ (32 - prefix c) = 0.

(** The half-open interval of addresses a range denotes. *)
Definition in_range (c : Ipv4Cidr) (a : N) : Prop :=
  network c ≤ a < network c + 2 ^ (32 - prefix c).

Lemma pow2_pos k : 0 < 2 ^ k.
Proof. apply N.neq_0_lt_0, N.pow_nonzero. lia. Qed.

Lemma pow2_split p q : p ≤ q → 2 ^ q = 2 ^ p * 2 ^ (q - p).
Proof. intros. rewrite <-N.pow_add_r. f_equal. lia. Qed.

#[export] Hint Resolve pow2_pos : core.

Lemma address_count_pow c : address_count c = 2 ^ (32 - prefix c).
Proof. apply N.shiftl_1_l. Qed.

Lemma land_prefix_mask a p :
  p ≤ 32 → a < 2 ^ 32 →
  N.land a (prefix_mask p) = a / 2 ^ (32 - p) * 2 ^ (32 - p).
Proof.
  intros Hp Ha. unfold prefix_mask. destruct (N.eqb_spec p 0) as [->|Hp0].
  { rewrite N.land_0_r, (N.div_small a) by done. done. }
  rewrite <-N.shiftr_div_pow2, <-N.shiftl_mul_pow2. apply N.bits_inj_iff. intros i.
  change u32_max with (N.ones 32).
  rewrite N.land_spec, N.land_spec.
  destruct (N.lt_ge_cases i (32 - p)) as [Hi|Hi].
  - rewrite !N.shiftl_spec_low by done. by rewrite andb_false_r.
  - rewrite !N.shiftl_spec_high by lia. rewrite N.shiftr_spec by lia.
    replace (i - (32 - p) + (32 - p)) with i by lia.
    destruct (N.lt_ge_cases i 32) as [Hi32|Hi32].
    + rewrite !N.ones_spec_low by lia. by rewrite andb_true_r.
    + rewrite (N.ones_spec_high 32 i) by lia. rewrite !andb_false_r.
      destruct (N.eq_dec a 0) as [->|]; [by rewrite N.bits_0|].
      symmetry. apply N.bits_above_log2. apply N.log2_lt_pow2 in Ha; lia.
Qed.

(** Keep quotient and remainder opaque so that the arithmetic is linear in them. *)
Lemma div_mul_eq_iff a n k : 0 < k → n mod k = 0 → a / k * k = n ↔ n ≤ a < n + k.
Proof.
  intros Hk Hn.
  pose proof (N.Div0.div_mod a k) as Ha. pose proof (N.mod_lt a k ltac:(lia)) as Hm.
  pose proof (N.Div0.div_mod n k) as Hn'. rewrite Hn in Hn'.
  generalize dependent (a / k). generalize dependent (a mod k).
  generalize dependent (n / k). intros qn Hn' r Hr q Ha. subst n. split.
  - intros Heq. assert (q * k = k * q) by ring. lia.
  - intros [H1 H2]. assert (q = qn) as ->; [|ring]. nia.
Qed.

Lemma contains_spec c a :
  cidr_wf c → a < 2 ^ 32 → contains c a = true ↔ in_range c a.
Proof.
  intros (Hp & _ & Hn) Ha. unfold contains, in_range.
  rewrite N.eqb_eq, land_prefix_mask by done. by apply div_mul_eq_iff.
Qed.

Lemma cidr_new_ok n p c :
  n < 2 ^ 32 → cidr_new n p = Ok c ↔
  c = {| network := n; prefix := p |} ∧ cidr_wf c.
Proof.
  intros Hn. unfold cidr_new, cidr_wf. destruct (N.ltb_spec 32 p) as [Hp|Hp].
  { split; [done|]. intros [-> [? _]]; simpl in *. lia. }
  rewrite land_prefix_mask by done.
  pose proof (N.Div0.div_mod n (2 ^ (32 - p))) as Hd.
  destruct (N.eqb_spec (n / 2 ^ (32 - p) * 2 ^ (32 - p)) n) as [He|He]; simpl.
  - split; [|intros [-> _]; done]. intros [= <-]. simpl. repeat split; [done..|].
    rewrite <-He. apply N.Div0.mod_mul.
  - split; [done|]. intros [-> (_ & _ & Hm)]. simpl in Hm.
    pose proof (pow2_pos (32 - p)). destruct He. lia.
Qed.

Lemma wf_range_bound c : cidr_wf c → network c + 2 ^ (32 - prefix c) ≤ 2 ^ 32.
Proof.
  intros (Hp & Hn & Hm). pose proof (pow2_pos (32 - prefix c)) as Hk.
  rewrite (pow2_split (32 - prefix c) 32) in * by lia.
  pose proof (N.Div0.div_mod (network c) (2 ^ (32 - prefix c))) as Hd.
  set (k := 2 ^ (32 - prefix c)) in *. set (q := network c / k) in *.
  assert (q < 2 ^ (32 - (32 - prefix c))); nia.
Qed.

(** [address] never wraps on a well-formed range: offset [i] is the [i]-th address. *)
Lemma address_spec c i :
  cidr_wf c →
  address c i = if i <? address_count c then Some (network c + i) else None.
Proof.
  intros Hc. unfold address. rewrite N.leb_antisym, address_count_pow.
  destruct (N.ltb_spec i (2 ^ (32 - prefix c))) as [Hi|Hi]; simpl; [|done].
  pose proof (wf_range_bound c Hc). rewrite (N.mod_small i), N.mod_small; lia || done.
Qed.

Lemma overlaps_spec c d :
  cidr_wf c → cidr_wf d →
  overlaps c d = true ↔ ∃ a, in_range c a ∧ in_range d a.
Proof.
  intros Hc Hd. unfold overlaps. rewrite orb_true_iff.
  rewrite !contains_spec by (done || apply Hc || apply Hd). unfold in_range.
  pose proof (pow2_pos (32 - prefix c)). pose proof (pow2_pos (32 - prefix d)). split.
  - intros [?|?]; [exists (network d)|exists (network c)]; lia.
  - intros [a [? ?]]. destruct (N.le_ge_cases (network c) (network d)); [left|right]; lia.
Qed.

Lemma subnet_spec c p i :
  cidr_wf c → prefix c ≤ p ≤ 32 → i < 2 ^ (p - prefix c) →
  let d := {| network := network c + i * 2 ^ (32 - p); prefix := p |} in
  subnet c p i = Some d ∧ cidr_wf d.
Proof.
  intros Hc [Hp1 Hp2] Hi d. unfold subnet, subnet_count.
  rewrite (proj2 (N.ltb_ge _ _)) by lia. rewrite (proj2 (N.ltb_ge 32 p)) by lia. simpl.
  rewrite !N.shiftl_1_l. rewrite (proj2 (N.leb_gt _ i)) by done.
  rewrite address_spec, address_count_pow by done.
  assert (32 - prefix c = (p - prefix c) + (32 - p)) as Hsum by lia.
  pose proof (pow2_pos (32 - p)) as Hk.
  assert (i * 2 ^ (32 - p) < 2 ^ (32 - prefix c)) as Hlt.
  { rewrite Hsum, N.pow_add_r. nia. }
  rewrite (proj2 (N.ltb_lt _ _)) by done. simpl.
  pose proof (wf_range_bound c Hc) as Hb.
  assert (cidr_wf d) as Hd.
  { split; [done|]. split; [subst d; simpl; lia|]. destruct Hc as (_ & _ & Hm). subst d; simpl.
    rewrite Hsum, N.pow_add_r in Hm.
    pose proof (N.Div0.div_mod (network c) (2 ^ (p - prefix c) * 2 ^ (32 - p))) as Hdm.
    rewrite Hdm, Hm.
    rewrite N.add_0_r.
    replace (2 ^ (p - prefix c) * 2 ^ (32 - p) *
       (network c / (2 ^ (p - prefix c) * 2 ^ (32 - p))) + i * 2 ^ (32 - p))
      with ((2 ^ (p - prefix c) * (network c / (2 ^ (p - prefix c) * 2 ^ (32 - p))) + i)
            * 2 ^ (32 - p)) by ring.
    apply N.Div0.mod_mul. }
  split; [|done].
  assert (cidr_new (network d) p = Ok d) as Hnew by (apply cidr_new_ok; [apply Hd|done]).
  subst d. simpl in Hnew. by rewrite Hnew.
Qed.

(** ** Text round trips *)

Definition octet_text_ok (n : N) : bool :=
  bool_decide (parse_octet (pretty n) = Some n)
  && bool_decide (¬ ("."%char ∈ String.list_ascii_of_string (pretty n)))
  && bool_decide (¬ ("/"%char ∈ String.list_ascii_of_string (pretty n)))
  && match parse_uint 255 (pretty n) with Ok m => m =? n | Err _ => false end.

Lemma octet_text n :
  n < 256 →
  parse_octet (pretty n) = Some n
  ∧ "."%char ∉ String.list_ascii_of_string (pretty n)
  ∧ "/"%char ∉ String.list_ascii_of_string (pretty n)
  ∧ parse_uint 255 (pretty n) = Ok n.
Proof.
  intros Hn.
  assert (octet_text_ok n = true) as H.
  { apply (N_below_forallb 256); [by vm_compute|lia]. }
  unfold octet_text_ok in H. bool_to_prop. repeat split; try done.
  destruct (parse_uint 255 (pretty n)); [|done]. f_equal. by apply N.eqb_eq.
Qed.

Lemma octet_lt a i : octet a i < 256.
Proof. unfold octet. by apply N.mod_lt. Qed.

(** Positional notation in base 256, with quotients and remainders abstracted. *)
Lemma base256_digits a q1 q2 q3 r0 r1 r2 :
  a < 4294967296 → a = 256 * q1 + r0 → q1 = 256 * q2 + r1 → q2 = 256 * q3 + r2 →
  q3 < 256 ∧ q3 * 16777216 + r2 * 65536 + r1 * 256 + r0 = a.
Proof. lia. Qed.

Lemma octets_sum a :
  a < 2 ^ 32 →
  octet a 3 * 2 ^ 24 + octet a 2 * 2 ^ 16 + octet a 1 * 2 ^ 8 + octet a 0 = a.
Proof.
  intros Ha. unfold octet. change (2 ^ (8 * 3)) with (256 * (256 * 256)).
  change (2 ^ (8 * 2)) with (256 * 256). change (2 ^ (8 * 1)) with 256.
  change (2 ^ (8 * 0)) with 1. rewrite N.div_1_r, <-!N.Div0.div_div.
  destruct (base256_digits a _ _ _ _ _ _ Ha (N.Div0.div_mod a 256)
              (N.Div0.div_mod (a / 256) 256) (N.Div0.div_mod (a / 256 / 256) 256)) as [Hq Hs].
  rewrite (N.mod_small (a / 256 / 256 / 256) 256) by done. exact Hs.
Qed.

Lemma parse_ipv4_to_string a : a < 2 ^ 32 → parse_ipv4 (ipv4_to_string a) = Some a.
Proof.
  intros Ha. unfold parse_ipv4, ipv4_to_string.
  destruct (octet_text _ (octet_lt a 3)) as (H3 & D3 & _).
  destruct (octet_text _ (octet_lt a 2)) as (H2 & D2 & _).
  destruct (octet_text _ (octet_lt a 1)) as (H1 & D1 & _).
  destruct (octet_text _ (octet_lt a 0)) as (H0 & _).
  change ("." +:+ ?x) with (String "." x).
  rewrite split_once_app by done; simpl. change ("." +:+ ?x) with (String "." x).
  rewrite split_once_app by done; simpl. change ("." +:+ ?x) with (String "." x).
  rewrite split_once_app by done; simpl.
  rewrite H3, H2, H1, H0; simpl. f_equal. by apply octets_sum.
Qed.

Lemma ipv4_no_slash a : "/"%char ∉ String.list_ascii_of_string (ipv4_to_string a).
Proof.
  unfold ipv4_to_string. rewrite !list_ascii_app, !elem_of_app. simpl.
  pose proof (octet_text _ (octet_lt a 3)) as (_ & _ & ? & _).
  pose proof (octet_text _ (octet_lt a 2)) as (_ & _ & ? & _).
  pose proof (octet_text _ (octet_lt a 1)) as (_ & _ & ? & _).
  pose proof (octet_text _ (octet_lt a 0)) as (_ & _ & ? & _).
  assert ("/"%char ∉ ["."%char]) by (by apply (bool_decide_unpack _); vm_compute).
  naive_solver.
Qed.

Lemma cidr_text_parse n p :
  n < 2 ^ 32 → p < 256 →
  cidr_from_str (cidr_text n p) =
  match cidr_new n p with
  | Ok c => Ok c
  | Err e => Err e
  end.
Proof.
  intros Hn Hp. unfold cidr_from_str, cidr_text. change ("/" +:+ ?x) with (String "/" x).
  rewrite split_once_app by apply ipv4_no_slash. simpl.
  rewrite parse_ipv4_to_string by done. simpl.
  destruct (octet_text p Hp) as (_ & _ & _ & ->). simpl. by destruct (cidr_new n p).
Qed.

Lemma parse_octet_bound s n : parse_octet s = Some n → n < 256.
Proof.
  unfold parse_octet. destruct s as [|c s]; [done|]. destruct (_ && _); [done|].
  destruct (_ <? _)%nat; [done|]. destruct (parse_digits 255 0 (String c s)) eqn:E; [|done].
  intros [= <-]. apply parse_digits_bound in E; lia.
Qed.

Lemma parse_ipv4_bound s a : parse_ipv4 s = Some a → a < 2 ^ 32.
Proof.
  unfold parse_ipv4. intros Hp.
  repeat match type of Hp with
  | (split_once _ ?s ≫= _) = _ => destruct (split_once _ s) as [[??]|]; simpl in Hp; [|done]
  | (parse_octet ?s ≫= _) = _ =>
      let E := fresh "E" in destruct (parse_octet s) eqn:E; simpl in Hp; [|done];
      apply parse_octet_bound in E
  end. injection Hp as <-. lia.
Qed.

(** Every range that was parsed is well formed. *)
Lemma cidr_from_str_wf s c : cidr_from_str s = Ok c → cidr_wf c.
Proof.
  unfold cidr_from_str. destruct (split_once "/" s) as [[a p]|]; [|done]. simpl.
  destruct (parse_ipv4 a) as [n|] eqn:En; [|done]. simpl.
  destruct (parse_uint 255 p); [|done]. simpl. intros Hc.
  by apply cidr_new_ok in Hc as [_ ?]; [|by apply parse_ipv4_bound in En].
Qed.

Module CidrProps.

(** [Ipv4Cidr::new] succeeds exactly when the prefix is at most 32 and every host
    bit of the network address is zero. *)
Theorem new_accepts_canonical (n p : N) (c : Ipv4Cidr) :
  n < 2 ^ 32 → cidr_new n p = Ok c ↔ c = {| network := n; prefix := p |} ∧ cidr_wf c.
Proof. apply cidr_new_ok. Qed.

(** Two ranges [overlaps] exactly when some address belongs to both. *)
Theorem overlaps_iff_common_address (c d : Ipv4Cidr) :
  cidr_wf c → cidr_wf d →
  overlaps c d = true ↔
  ∃ a, a < 2 ^ 32 ∧ contains c a = true ∧ contains d a = true.
Proof.
  intros Hc Hd. rewrite overlaps_spec by done. split.
  - intros [a [Hac Had]]. exists a.
    assert (a < 2 ^ 32) by (pose proof (wf_range_bound c Hc); unfold in_range in *; lia).
    by rewrite !contains_spec.
  - intros (a & Ha & Hac & Had). exists a. by rewrite !contains_spec in Hac, Had by done.
Qed.

(** Splitting a range into subnets partitions it: every subnet index below the count
    gives a well-formed range, and each address of the parent lies in exactly the subnet
    whose index is its offset divided by the subnet size. *)
Theorem subnets_partition (c : Ipv4Cidr) (p : N) :
  cidr_wf c → prefix c ≤ p ≤ 32 →
  ∀ a, a < 2 ^ 32 → contains c a = true →
  ∀ i, (∃ d, subnet c p i = Some d ∧ cidr_wf d ∧ contains d a = true) ↔
       i = (a - network c) / 2 ^ (32 - p).
Proof.
  intros Hc Hp a Ha Hca i. apply contains_spec in Hca; [|done..].
  assert (2 ^ (32 - prefix c) = 2 ^ (p - prefix c) * 2 ^ (32 - p)) as Hsplit.
  { rewrite <-N.pow_add_r. f_equal. lia. }
  unfold in_range in Hca. rewrite Hsplit in Hca.
  pose proof (pow2_pos (32 - p)) as Hk.
  split.
  - intros (d & Hd & Hwf & Hda). apply contains_spec in Hda; [|done..].
    assert (i < 2 ^ (p - prefix c)) as Hi.
    { unfold subnet, subnet_count in Hd.
      rewrite (proj2 (N.ltb_ge _ _)) in Hd by lia.
      rewrite (proj2 (N.ltb_ge 32 p)) in Hd by lia. simpl in Hd.
      rewrite N.shiftl_1_l in Hd. destruct (N.leb_spec (2 ^ (p - prefix c)) i); [done|lia]. }
    destruct (subnet_spec c p i Hc Hp Hi) as [Hs _]. rewrite Hs in Hd. simplify_eq.
    unfold in_range in Hda. simpl in Hda.
    apply (N.div_unique _ _ _ (a - network c - i * 2 ^ (32 - p))); lia.
  - intros ->. pose proof (N.Div0.div_mod (a - network c) (2 ^ (32 - p))) as Hdm.
    pose proof (N.mod_lt (a - network c) (2 ^ (32 - p)) ltac:(lia)) as Hm.
    generalize dependent ((a - network c) `mod` 2 ^ (32 - p)).
    generalize ((a - network c) / 2 ^ (32 - p)). intros q r Hdm Hm.
    assert (q < 2 ^ (p - prefix c)) as Hq by nia.
    destruct (subnet_spec c p q Hc Hp Hq) as [Hs Hwf]. eexists; split; [exact Hs|].
    split; [done|]. apply contains_spec; [done..|]. unfold in_range; simpl. lia.
Qed.

(** Printing a well-formed range and parsing the text gives the range back. *)
Theorem display_parse_roundtrip (c : Ipv4Cidr) :
  cidr_wf c → cidr_from_str (cidr_to_string c) = Ok c.
Proof.
  intros Hc. unfold cidr_to_string. pose proof Hc as (Hp & Hn & Hm).
  rewrite cidr_text_parse by lia.
  rewrite (proj2 (cidr_new_ok (network c) (prefix c) c Hn)); [done|]. by destruct c.
Qed.

(** The range [10.0.0.0/8] and a part of it, at which the theorems apply. *)
Definition sample_cidr : Ipv4Cidr := {| network := 167772160; prefix := 8 |}.
Definition sample_part : Ipv4Cidr := {| network := 168427520; prefix := 16 |}.

Lemma new_accepts_canonical_witness :
  cidr_new 167772160 8 = Ok sample_cidr ↔
  sample_cidr = {| network := 167772160; prefix := 8 |} ∧ cidr_wf sample_cidr.
Proof. apply (new_accepts_canonical 167772160 8 sample_cidr). done. Defined.

Lemma overlaps_iff_common_address_witness :
  overlaps sample_cidr sample_part = true ∧
  (overlaps sample_cidr sample_part = true ↔
   ∃ a, a < 2 ^ 32 ∧ contains sample_cidr a = true ∧ contains sample_part a = true).
Proof.
  split; [done|]. apply (overlaps_iff_common_address sample_cidr sample_part); by vm_compute.
Defined.

Lemma subnets_partition_witness :
  (∃ d, subnet sample_cidr 16 10 = Some d ∧ cidr_wf d ∧ contains d 168427530 = true) ↔
  10 = (168427530 - network sample_cidr) / 2 ^ (32 - 16).
Proof.
  apply (subnets_partition sample_cidr 16); [by vm_compute|by vm_compute|done|done].
Defined.

Lemma display_parse_roundtrip_witness :
  cidr_from_str (cidr_to_string sample_cidr) = Ok sample_cidr.
Proof. apply (display_parse_roundtrip sample_cidr). by vm_compute. Defined.

End CidrProps.
