(* ===== verification/Naming.v ===== *)
(** Project-derived names: [jiji-network/src/naming.rs], the single source of the
    interface, bridge, unit and table names, the ports and the default address ranges
    of a project, all computed from the project's name through SHA-256. *)

From S2P Require Import Prelude Text Cidr.
Open Scope N_scope.

(** SHA-256 (the [sha2] crate) is a parameter: a function from byte strings to 32 bytes. *)
Class Sha256 := {
  sha256 : string → list N;
  sha256_length s : length (sha256 s) = 32%nat;
  sha256_byte s : Forall (λ b, b < 256) (sha256 s);
}.

(** A degenerate instance of the interface, for evaluating the definitions. *)
#[refine] Definition constant_sha256 : Sha256 := {| sha256 _ := replicate 32 0 |}.
Proof.
  - intros. apply length_replicate.
  - intros. apply Forall_replicate. done.
Defined.

(** [u64::from_be_bytes] on a slice of bytes. *)
Definition from_be_bytes (l : list N) : N := foldl (λ acc b, acc * 256 + b) 0 l.

Definition hex_digit (n : N) : ascii :=
  ascii_of_N (if n <? 10 then 48 + n else 87 + n).

(** The [w] low hexadecimal digits; [format!("{:0wx}")] of a value below [16 ^ w]. *)
Fixpoint hex_fixed (w : nat) (n : N) : list ascii :=
  match w with
  | O => []
  | S w => hex_fixed w (n / 16) ++ [hex_digit (n mod 16)]
  end.

Definition as_u32 (n : N) : N := n mod 2 ^ 32.

(** Constants of [jiji-core/src/constants.rs]. *)
Definition DEFAULT_LOCAL_REGISTRY_PORT : N := 31270.
Definition DEFAULT_MANAGEMENT_POOL_PREFIX : N * N := (198, 18).
Definition DEFAULT_CONTAINER_POOL_PREFIX : N * N := (100, 64).
Definition DEFAULT_SERVICE_DOMAIN : string := "jiji".

Definition dash : ascii := "-"%char.
Definition ends_with_dash (l : list ascii) : bool := bool_decide (last l = Some dash).

(** [while slug.ends_with('-') { slug.pop(); }] *)
Fixpoint pop_dashes_rev (l : list ascii) : list ascii :=
  match l with
  | c :: l' => if bool_decide (c = dash) then pop_dashes_rev l' else l
  | [] => []
  end.
Definition pop_dashes (l : list ascii) : list ascii := rev (pop_dashes_rev (rev l)).

(** One iteration of the loop over the characters of the project name. *)
Definition slug_push (slug : list ascii) (ch : ascii) : list ascii :=
  let lower := to_ascii_lowercase ch in
  if is_ascii_alphanumeric lower then slug ++ [lower]
  else if negb (ends_with_dash slug) && negb (bool_decide (slug = [])) then slug ++ [dash]
  else slug.

Definition slug_text (project : string) : list ascii :=
  pop_dashes (take 20 (pop_dashes (foldl slug_push [] (String.list_ascii_of_string project)))).

Section naming.
Context `{Sha256}.

Definition stable_hash (value : string) : N := from_be_bytes (take 8 (sha256 value)).

Definition salted_hash (salt project : string) : N :=
  stable_hash (salt +:+ ":" +:+ project).

Definition project_cidrs (project : string) : string * string :=
  let slot := salted_hash "cidr" project mod 64 in
  let '(management_first, management_second) := DEFAULT_MANAGEMENT_POOL_PREFIX in
  let '(container_first, container_base) := DEFAULT_CONTAINER_POOL_PREFIX in
  let container_second := container_base + slot in
  (pretty management_first +:+ "." +:+ pretty management_second +:+ "." +:+ pretty slot +:+ ".0/24",
   pretty container_first +:+ "." +:+ pretty container_second +:+ ".0.0/16").

Definition wireguard_interface_name (project : string) : list ascii :=
  String.list_ascii_of_string "jiji" ++ hex_fixed 8 (as_u32 (salted_hash "wg" project)).

Definition bridge_interface_name (project : string) : list ascii :=
  String.list_ascii_of_string "jijib" ++
  hex_fixed 7 (N.land (as_u32 (salted_hash "br" project)) (2 ^ 28 - 1)).

Definition project_slug (project : string) : list ascii :=
  let slug := slug_text project in
  let hash := hex_fixed 8 (as_u32 (stable_hash project)) in
  if bool_decide (slug = []) then hash else slug ++ dash :: hash.

Definition bridge_network_name (project : string) : list ascii :=
  String.list_ascii_of_string "jiji-" ++ project_slug project.

Definition systemd_unit_slug (project : string) : list ascii := project_slug project.

Definition wireguard_port (project : string) : N :=
  51820 + salted_hash "port" project mod 4000.

Definition service_nat_table_name (project : string) : list ascii :=
  String.list_ascii_of_string "jiji_service_nat_" ++
  ((λ c, if bool_decide (c = dash) then "_"%char else c) <$> systemd_unit_slug project).

Definition catalog_replication_port (project : string) : N :=
  58000 + salted_hash "replication-catalog" project mod 2000.
End naming.

(** ** Lemmas *)

Definition is_hex_lower (c : ascii) : bool :=
  is_ascii_digit c || let n := N_of_ascii c in (97 <=? n) && (n <=? 102).
Definition is_slug_char (c : ascii) : bool :=
  is_ascii_lowercase c || is_ascii_digit c || bool_decide (c = dash).

Fixpoint no_double_dash (l : list ascii) : bool :=
  match l with
  | c :: ((d :: _) as l') => negb (bool_decide (c = dash) && bool_decide (d = dash)) && no_double_dash l'
  | _ => true
  end.

Lemma hex_fixed_length w n : length (hex_fixed w n) = w.
Proof. revert n. induction w; intros; simpl; [done|]. rewrite length_app, IHw. simpl. lia. Qed.

Definition hex_digit_ok (d : N) : bool :=
  is_hex_lower (hex_digit d) && negb (bool_decide (hex_digit d = dash)).

Lemma hex_fixed_hex w n : Forall (λ c, is_hex_lower c = true ∧ c ≠ dash) (hex_fixed w n).
Proof.
  revert n. induction w as [|w IH]; intros n; simpl; [constructor|].
  apply Forall_app. split; [done|]. constructor; [|constructor].
  assert (hex_digit_ok (n mod 16) = true) as Hc.
  { apply (N_below_forallb 16 hex_digit_ok); [by vm_compute|]. by apply N.mod_lt. }
  unfold hex_digit_ok in Hc. by bool_to_prop.
Qed.

Lemma hex_lower_slug_char c : is_hex_lower c = true → is_slug_char c = true.
Proof.
  intros Hc. assert (implb (is_hex_lower c) (is_slug_char c) = true) as Hi.
  { apply (ascii_forallb (λ c, implb (is_hex_lower c) (is_slug_char c))). by vm_compute. }
  by rewrite Hc in Hi.
Qed.

(** *** The slug loop *)

(** What the text of a slug satisfies at every point of the loop. *)
Definition slug_inv (l : list ascii) : Prop :=
  Forall (λ c, is_slug_char c = true) l ∧ no_double_dash l = true ∧ head l ≠ Some dash.

Lemma no_double_dash_snoc l c :
  no_double_dash l = true → (last l ≠ Some dash ∨ c ≠ dash) →
  no_double_dash (l ++ [c]) = true.
Proof.
  induction l as [|a [|b l] IH]; intros Hl Hc; [done| |].
  - simpl in *. rewrite andb_true_r. apply negb_true_iff, andb_false_iff.
    destruct Hc; [left|right]; apply bool_decide_false; congruence.
  - change (no_double_dash (a :: b :: l ++ [c]) = true).
    simpl in Hl. apply andb_true_iff in Hl as [Hab Hl].
    simpl. rewrite Hab. simpl. apply IH; [done|]. by rewrite last_cons_cons in Hc.
Qed.

Lemma no_double_dash_app_l l k : no_double_dash (l ++ k) = true → no_double_dash l = true.
Proof.
  induction l as [|a [|b l] IH]; intros Hl; [done|done|].
  simpl in Hl |- *. apply andb_true_iff in Hl as [-> Hl]. by apply IH.
Qed.

Lemma slug_inv_app_l l k : slug_inv (l ++ k) → slug_inv l.
Proof.
  intros (Hc & Hd & Hh). split_and!.
  - by apply Forall_app in Hc as [? _].
  - by eapply no_double_dash_app_l.
  - destruct l; [done|by simpl in *].
Qed.

Lemma lower_alnum_slug ch :
  is_ascii_alphanumeric (to_ascii_lowercase ch) = true →
  is_slug_char (to_ascii_lowercase ch) = true ∧ to_ascii_lowercase ch ≠ dash.
Proof.
  intros Hc. set (ok := λ c, implb (is_ascii_alphanumeric (to_ascii_lowercase c))
    (is_slug_char (to_ascii_lowercase c) && negb (bool_decide (to_ascii_lowercase c = dash)))).
  assert (ok ch = true) as Hok by (apply ascii_forallb; by vm_compute).
  unfold ok in Hok. rewrite Hc in Hok. simpl in Hok. by bool_to_prop.
Qed.

Lemma slug_push_inv l ch : slug_inv l → slug_inv (slug_push l ch).
Proof.
  intros (Hc & Hd & Hh). unfold slug_push.
  destruct (is_ascii_alphanumeric (to_ascii_lowercase ch)) eqn:Ea.
  { apply lower_alnum_slug in Ea as [? ?]. split_and!.
    - apply Forall_app. by repeat constructor.
    - apply no_double_dash_snoc; auto.
    - destruct l; simpl in *; congruence. }
  destruct (negb (ends_with_dash l) && negb (bool_decide (l = []))) eqn:Eb; [|done].
  bool_to_prop. unfold ends_with_dash in *. bool_to_prop. split_and!.
  - apply Forall_app. by repeat constructor.
  - apply no_double_dash_snoc; auto.
  - destruct l; simpl in *; congruence.
Qed.

Lemma pop_dashes_rev_prefix r : ∃ k, rev r = rev (pop_dashes_rev r) ++ k.
Proof.
  induction r as [|c r [k Hk]]; simpl; [by exists []|].
  case_bool_decide; [|exists []; by rewrite app_nil_r].
  exists (k ++ [c]). by rewrite Hk, app_assoc.
Qed.

Lemma pop_dashes_prefix l : ∃ k, l = pop_dashes l ++ k.
Proof.
  destruct (pop_dashes_rev_prefix (rev l)) as [k Hk]. exists k.
  by rewrite rev_involutive in Hk.
Qed.

Lemma pop_dashes_last l : last (pop_dashes l) ≠ Some dash.
Proof.
  unfold pop_dashes. generalize (rev l) as r.
  induction r as [|c r IH]; simpl; [done|]. case_bool_decide; [done|].
  simpl. rewrite last_snoc. congruence.
Qed.

Lemma slug_text_ok project :
  slug_inv (slug_text project) ∧ last (slug_text project) ≠ Some dash
  ∧ (length (slug_text project) ≤ 20)%nat.
Proof.
  unfold slug_text. set (l := foldl slug_push [] _).
  assert (slug_inv l) as Hl.
  { subst l. generalize (String.list_ascii_of_string project) as chars.
    assert (slug_inv []) as H0 by (by split_and!). revert H0. generalize (@nil ascii) as acc.
    intros acc Hacc chars. revert acc Hacc.
    induction chars as [|ch chars IH]; intros acc Hacc; simpl; [done|].
    by apply IH, slug_push_inv. }
  destruct (pop_dashes_prefix l) as [k1 Hk1].
  destruct (pop_dashes_prefix (take 20 (pop_dashes l))) as [k2 Hk2].
  split_and!; [|apply pop_dashes_last|].
  - apply (slug_inv_app_l _ k2). rewrite <-Hk2.
    apply (slug_inv_app_l _ (drop 20 (pop_dashes l))). rewrite take_drop.
    apply (slug_inv_app_l _ k1). by rewrite <-Hk1.
  - apply (f_equal length) in Hk2. rewrite length_app, length_take in Hk2. lia.
Qed.

Lemma no_double_dash_cons2 c d l :
  no_double_dash (c :: d :: l) =
  negb (bool_decide (c = dash) && bool_decide (d = dash)) && no_double_dash (d :: l).
Proof. done. Qed.

Lemma no_double_dash_join l k :
  no_double_dash l = true → last l ≠ Some dash →
  no_double_dash k = true → head k ≠ Some dash →
  no_double_dash (l ++ dash :: k) = true.
Proof.
  intros Hl Hlast Hk Hhead. induction l as [|a [|b l] IH].
  - destruct k as [|c k]; [done|]. simpl in Hhead. change ([] ++ dash :: c :: k) with (dash :: c :: k).
    rewrite no_double_dash_cons2, Hk, andb_true_r.
    rewrite (bool_decide_false (c = dash)) by congruence. by rewrite andb_false_r.
  - change ([a] ++ dash :: k) with (a :: dash :: k). simpl in Hlast, IH. rewrite no_double_dash_cons2.
    rewrite (bool_decide_false (a = dash)) by congruence. simpl. by apply IH.
  - change (no_double_dash (a :: b :: l ++ dash :: k) = true). simpl in Hl |- *.
    apply andb_true_iff in Hl as [-> Hl]. simpl. apply IH; [done|].
    by rewrite last_cons_cons in Hlast.
Qed.

Lemma no_double_dash_free k : Forall (λ c, c ≠ dash) k → no_double_dash k = true.
Proof.
  induction 1 as [|c [|d k] Hc Hk IH]; [done|done|]. rewrite no_double_dash_cons2.
  by rewrite bool_decide_false, IH.
Qed.

(** Checks the pair of default ranges a slot stands for. *)
Definition default_ranges_ok (slot : N) : bool :=
  let management := pretty 198 +:+ "." +:+ pretty 18 +:+ "." +:+ pretty slot +:+ ".0/24" in
  let container := pretty 100 +:+ "." +:+ pretty (64 + slot) +:+ ".0.0/16" in
  match cidr_from_str management, cidr_from_str container with
  | Ok m, Ok c =>
      negb (overlaps m c) && bool_decide (subnet_count c 21 = Some 32)
      && (32 <=? address_count m - 2)
  | _, _ => false
  end.

Lemma default_ranges slot : slot < 64 → default_ranges_ok slot = true.
Proof. intros. apply (N_below_forallb 64); [by vm_compute|lia]. Qed.

Lemma hash_mod_lt h k : 0 < k → h mod k < k.
Proof. intros. apply N.mod_lt. lia. Qed.

Module NamingProps.
Section props.
Context `{Sha256}.

(** For every project name the interface names are at most 15 characters long
    (the [IFNAMSIZ] limit), start with their fixed tag and continue in lower-case hex. *)
Theorem interface_names_fit (project : string) :
  length (wireguard_interface_name project) = 12%nat ∧
  length (bridge_interface_name project) = 12%nat ∧
  (∃ h, wireguard_interface_name project = String.list_ascii_of_string "jiji" ++ h
        ∧ Forall (λ c, is_hex_lower c = true) h) ∧
  (∃ h, bridge_interface_name project = String.list_ascii_of_string "jijib" ++ h
        ∧ Forall (λ c, is_hex_lower c = true) h).
Proof.
  unfold wireguard_interface_name, bridge_interface_name.
  rewrite !length_app, !hex_fixed_length. split_and!; [done|done| |];
    (eexists; split; [done|]; eapply Forall_impl; [apply hex_fixed_hex|naive_solver]).
Qed.

(** For every project name, including an empty one or one of any character set,
    the unit slug and the bridge network name use only lower-case letters, digits and
    single hyphens, and the slug has no hyphen at either end. *)
Theorem slug_is_safe (project : string) :
  Forall (λ c, is_slug_char c = true) (bridge_network_name project) ∧
  no_double_dash (bridge_network_name project) = true ∧
  head (systemd_unit_slug project) ≠ Some dash ∧
  last (systemd_unit_slug project) ≠ Some dash ∧
  (length (systemd_unit_slug project) ≤ 29)%nat.
Proof.
  unfold bridge_network_name, systemd_unit_slug, project_slug.
  destruct (slug_text_ok project) as [(Hc & Hd & Hh) [Hlast Hlen]].
  set (slug := slug_text project) in *. set (hash := hex_fixed 8 _).
  assert (Forall (λ c, is_slug_char c = true ∧ c ≠ dash) hash) as Hhash.
  { eapply Forall_impl; [apply hex_fixed_hex|]. intros c [??]. auto using hex_lower_slug_char. }
  assert (length hash = 8%nat) as Hl8 by apply hex_fixed_length.
  assert (Forall (λ c, is_slug_char c = true) hash ∧ Forall (λ c, c ≠ dash) hash) as [Hh1 Hh2].
  { by apply Forall_and. }
  assert (last hash ≠ Some dash) as Hhl.
  { intros [l E]%last_Some. rewrite E, Forall_app, Forall_singleton in Hh2. naive_solver. }
  assert (head hash ≠ Some dash) as Hhh.
  { destruct hash; [done|]. inversion Hh2. simpl. congruence. }
  assert (slug_inv (String.list_ascii_of_string "jiji")) as (Hj1 & Hj2 & _).
  { split_and!; [by repeat constructor|done|done]. }
  change (String.list_ascii_of_string "jiji-" ++ ?x)
    with (String.list_ascii_of_string "jiji" ++ dash :: x).
  case_bool_decide as Hs.
  - split_and!; [|apply no_double_dash_join; auto using no_double_dash_free|done|done|lia].
    apply Forall_app. split; [done|]. by constructor.
  - split_and!.
    + apply Forall_app. split; [done|]. constructor; [done|].
      apply Forall_app. split; [done|]. by constructor.
    + apply no_double_dash_join; [done|done| |by destruct slug].
      apply no_double_dash_join; [done..| |done]. by apply no_double_dash_free.
    + by destruct slug.
    + rewrite last_app, last_cons. destruct (last hash) eqn:El; [done|].
      apply last_None in El. by rewrite El in Hl8.
    + rewrite length_app. simpl. lia.
Qed.

(** For every project name the default management and container ranges parse, do
    not overlap, hold exactly 32 server subnets and enough management addresses. *)
Theorem default_ranges_valid (project : string) :
  ∃ m c, cidr_from_str (project_cidrs project).1 = Ok m ∧
         cidr_from_str (project_cidrs project).2 = Ok c ∧
         overlaps m c = false ∧ subnet_count c 21 = Some 32 ∧ 32 ≤ address_count m - 2.
Proof.
  unfold project_cidrs. simpl.
  pose proof (default_ranges (salted_hash "cidr" project mod 64)) as Hd.
  specialize (Hd (hash_mod_lt _ 64 ltac:(done))). unfold default_ranges_ok in Hd.
  destruct (cidr_from_str _) as [m|]; [|done].
  destruct (cidr_from_str (pretty 100 +:+ _)) as [c|]; [|done].
  exists m, c. bool_to_prop. split_and!; try done. by apply N.leb_le.
Qed.

(** The WireGuard and catalog replication ports are valid [u16] ports in disjoint
    ranges, so the additions and the [as u16] casts never wrap. *)
Theorem ports_in_range (project : string) :
  51820 ≤ wireguard_port project ≤ 55819 ∧
  58000 ≤ catalog_replication_port project < 60000.
Proof.
  unfold wireguard_port, catalog_replication_port.
  pose proof (hash_mod_lt (salted_hash "port" project) 4000 ltac:(done)).
  pose proof (hash_mod_lt (salted_hash "replication-catalog" project) 2000 ltac:(done)). nlia.
Qed.

End props.

(** The theorems at a concrete digest function and project. *)
Lemma interface_names_fit_witness :
  length (@wireguard_interface_name constant_sha256 "shop") = 12%nat.
Proof. apply (@interface_names_fit constant_sha256 "shop"). Defined.

Lemma slug_is_safe_witness :
  no_double_dash (@bridge_network_name constant_sha256 "My  Shop!") = true.
Proof. apply (@slug_is_safe constant_sha256 "My  Shop!"). Defined.

Lemma default_ranges_valid_witness :
  ∃ m c, cidr_from_str (@project_cidrs constant_sha256 "shop").1 = Ok m ∧
         cidr_from_str (@project_cidrs constant_sha256 "shop").2 = Ok c ∧
         overlaps m c = false ∧ subnet_count c 21 = Some 32 ∧ 32 ≤ address_count m - 2.
Proof. apply (@default_ranges_valid constant_sha256 "shop"). Defined.

Lemma ports_in_range_witness : 51820 ≤ @wireguard_port constant_sha256 "shop" ≤ 55819.
Proof. apply (@ports_in_range constant_sha256 "shop"). Defined.

End NamingProps.
