(* ===== verification/Schema.v ===== *)
(** The deploy configuration: the types of [jiji-config/src/schema.rs] with the defaults
    serde fills in and the helper methods on them.

    A [HashMap<String, V>] is the list of its entries in iteration order, which Rust
    leaves unspecified: statements about it quantify over every order.  An [f64] is its
    64 bits; nothing here computes with one. *)

From S2P Require Import Prelude Text Naming.
Open Scope N_scope.

(** ** Hash maps *)

Abbreviation hashmap V := (list (string * V)).

(** [HashMap::get]. *)
Definition hm_get {V} (m : hashmap V) (k : string) : option V :=
  snd <$> find (λ e, String.eqb e.1 k) m.
Definition hm_contains_key {V} (m : hashmap V) (k : string) : bool :=
  match hm_get m k with Some _ => true | None => false end.
(** Keys of a map are distinct. *)
Definition hm_wf {V} (m : hashmap V) : Prop := NoDup m.*1.

Lemma hm_get_elem {V} (m : hashmap V) k v :
  hm_wf m → hm_get m k = Some v ↔ (k, v) ∈ m.
Proof.
  unfold hm_wf, hm_get. induction m as [|[k' v'] m IH]; simpl; intros Hwf.
  { split; [done|set_solver]. }
  apply NoDup_cons in Hwf as [Hk Hwf]. rewrite elem_of_cons.
  destruct (String.eqb_spec k' k) as [->|Hne]; simpl.
  - split; [naive_solver|]. intros [?|Hin]; [naive_solver|].
    destruct Hk. apply list_elem_of_fmap. by exists (k, v).
  - rewrite IH by done. naive_solver.
Qed.

Lemma hm_contains_key_elem {V} (m : hashmap V) k :
  hm_contains_key m k = true ↔ k ∈ m.*1.
Proof.
  unfold hm_contains_key, hm_get. induction m as [|[k' v'] m IH]; simpl.
  { split; [done|set_solver]. }
  rewrite elem_of_cons. destruct (String.eqb_spec k' k) as [->|Hne]; simpl; naive_solver.
Qed.

(** Lookups do not depend on the iteration order. *)
Lemma hm_get_Permutation {V} (m1 m2 : hashmap V) k :
  hm_wf m1 → m1 ≡ₚ m2 → hm_get m1 k = hm_get m2 k.
Proof.
  intros H1 Hp. assert (hm_wf m2) as H2 by (unfold hm_wf; by rewrite <-Hp).
  destruct (hm_get m2 k) as [v|] eqn:E.
  - apply hm_get_elem; [done|]. rewrite Hp. by apply hm_get_elem.
  - destruct (hm_get m1 k) as [v|] eqn:E1; [|done].
    apply hm_get_elem in E1; [|done]. rewrite Hp in E1.
    apply hm_get_elem in E1; [|done]. congruence.
Qed.

(** ** The schema *)

Inductive ContainerEngine := Docker | Podman.

Definition engine_to_string (e : ContainerEngine) : string :=
  match e with Docker => "docker" | Podman => "podman" end.

Record Registry := {
  registry_port : N;
  registry_server : option string;
  registry_username : option string;
  registry_password : option string;
}.

Definition default_registry_port : N := DEFAULT_LOCAL_REGISTRY_PORT.
Definition Registry_default : Registry :=
  {| registry_port := default_registry_port; registry_server := None;
     registry_username := None; registry_password := None |}.
Definition registry_is_local (r : Registry) : bool := bool_decide (registry_server r = None).

Record Builder := {
  builder_engine : ContainerEngine;
  builder_remote : option string;
  builder_cache : bool;
  builder_registry : Registry;
}.

Record NamedServer := {
  server_host : string;
  server_arch : option string;
  server_user : option string;
  server_port : option N;
  server_key_passphrase : option string;
  server_keys : option (list string);
}.

Inductive LogLevel := LogDebug | LogInfo | LogWarn | LogError | LogFatal.
Definition LogLevel_default : LogLevel := LogError.

Inductive SshConfigFiles :=
| SshConfigEnabled (b : bool)
| SshConfigSingle (path : string)
| SshConfigMultiple (paths : list string).
Definition SshConfigFiles_default : SshConfigFiles := SshConfigEnabled false.

Record Ssh := {
  ssh_user : option string;
  ssh_port : N;
  ssh_key_passphrase : option string;
  ssh_connect_timeout : N;
  ssh_command_timeout : N;
  ssh_options : hashmap string;
  ssh_proxy : option string;
  ssh_proxy_command : option string;
  ssh_keys : option (list string);
  ssh_keys_only : bool;
  ssh_max_concurrent_starts : N;
  ssh_pool_idle_timeout : N;
  ssh_dns_retries : N;
  ssh_log_level : LogLevel;
  ssh_config : SshConfigFiles;
}.

Record Network := {
  network_enabled : bool;
  network_management_cidr : option string;
  network_container_cidr : option string;
  network_dns_forwarders : list N;
}.

(** 1.1.1.1 and 8.8.8.8. *)
Definition default_dns_forwarders : list N := [16843009; 134744072].

Record SecretsAdapter := {
  secrets_adapter : string;
  secrets_project : option string;
  secrets_config : option string;
}.

(** A [serde_yaml::Number]: an integer or the bits of a float. *)
Inductive YamlNumber := YamlInt (z : Z) | YamlFloat (bits : N).

Inductive ClearValue :=
| ClearString (s : string)
| ClearNumber (n : YamlNumber)
| ClearBool (b : bool).

Record Environment := {
  env_clear : hashmap ClearValue;
  env_secrets : list string;
}.

Record BuildConfig := {
  build_context : string;
  build_dockerfile : option string;
  build_args : option (hashmap string);
  build_target : option string;
  build_secrets : option (list string);
}.

Inductive BuildValue := BuildContext (context : string) | BuildDetailed (build : BuildConfig).
Inductive CommandValue := CommandSingle (s : string) | CommandMultiple (parts : list string).
Inductive CpusValue := CpusNumber (bits : N) | CpusText (s : string).

Inductive MountConfig :=
| MountStr (s : string)
| MountDetailed (local remote : string) (mode owner options : option string).

Inductive SslValue := SslEnabled (b : bool) | SslCerts (certificate_pem private_key_pem : string).

Record HealthcheckConfig := {
  healthcheck_path : option string;
  healthcheck_cmd : option string;
  healthcheck_cmd_runtime : option ContainerEngine;
  healthcheck_interval : option string;
  healthcheck_timeout : option string;
  healthcheck_deploy_timeout : option string;
}.

Record ProxyTarget := {
  target_port : N;
  target_hosts : option (list string);
  target_ssl : option SslValue;
  target_path_prefix : option string;
  target_healthcheck : option HealthcheckConfig;
  target_listen_port : option N;
}.

Record ProxyConfig := {
  proxy_port : option N;
  proxy_hosts : option (list string);
  proxy_ssl : option SslValue;
  proxy_path_prefix : option string;
  proxy_healthcheck : option HealthcheckConfig;
  proxy_targets : option (list ProxyTarget);
  proxy_listen_port : option N;
}.

Inductive RestartPolicy := UnlessStopped | Always | OnFailure | RestartNo.
Definition restart_to_string (r : RestartPolicy) : string :=
  match r with
  | UnlessStopped => "unless-stopped"
  | Always => "always"
  | OnFailure => "on-failure"
  | RestartNo => "no"
  end.

Inductive CronOverlap := Forbid.
Inductive CronMissedRuns := Skip.

Record CronConfig := {
  cron_schedule : string;
  cron_command : CommandValue;
  cron_timezone : string;
  cron_timeout : string;
  cron_overlap : CronOverlap;
  cron_missed_runs : CronMissedRuns;
}.

Definition default_cron_timezone : string := "UTC".
Definition default_cron_timeout : string := "1h".

(** The outcome of code that may panic. *)
Inductive outcome (A : Type) := Returned (a : A) | Panicked.
Arguments Returned {A} a.
Arguments Panicked {A}.

(** [parse_cron_duration], in seconds.  [split_at] panics when the index is inside a
    character; [amount * 60] and [amount * 3600] wrap in a release build. *)
Definition parse_cron_duration (value : string) : outcome (option N) :=
  let value := trim_chars value in
  if (length (mjoin value) <? 2)%nat then Returned None
  else match last value with
       | Some [unit_byte] =>
           let digits := of_chars (removelast value) in
           match parse_uint u64_max digits with
           | Err _ => Returned None
           | Ok amount =>
               Returned
                 (if bool_decide (unit_byte = "s"%char) then Some amount
                  else if bool_decide (unit_byte = "m"%char) then Some ((amount * 60) mod 2 ^ 64)
                  else if bool_decide (unit_byte = "h"%char) then Some ((amount * 3600) mod 2 ^ 64)
                  else None)
           end
       | _ => Panicked
       end.

Definition timeout_duration (c : CronConfig) : outcome (option N) :=
  parse_cron_duration (cron_timeout c).

Record Service := {
  service_image : option string;
  service_build : option BuildValue;
  service_servers : list string;
  service_scale : N;
  service_ports : list string;
  service_volumes : list string;
  service_files : list MountConfig;
  service_directories : list MountConfig;
  service_environment : Environment;
  service_command : option CommandValue;
  service_proxy : option ProxyConfig;
  service_retain : N;
  service_network_mode : string;
  service_cpus : option CpusValue;
  service_memory : option string;
  service_gpus : option string;
  service_devices : list string;
  service_privileged : bool;
  service_cap_add : list string;
  service_stop_first : bool;
  service_restart : option RestartPolicy;
  service_crons : gmap string CronConfig;
}.

(** [Service::network_mode_dependency]. *)
Definition network_mode_dependency (s : Service) : option string :=
  strip_prefix "service:" (service_network_mode s).

Record Config := {
  config_project : string;
  config_builder : Builder;
  config_servers : hashmap NamedServer;
  config_services : hashmap Service;
  config_ssh : option Ssh;
  config_network : option Network;
  config_secrets_path : option string;
  config_secrets : option SecretsAdapter;
  config_environment : option Environment;
}.

(** What the types guarantee: the keys of the two maps are distinct. *)
Definition config_wf (c : Config) : Prop := hm_wf (config_servers c) ∧ hm_wf (config_services c).

(** Defaults serde fills in for absent fields. *)
Definition default_ssh_port : N := 22.
Definition default_connect_timeout : N := 30.
Definition default_command_timeout : N := 300.
Definition default_max_concurrent_starts : N := 30.
Definition default_pool_idle_timeout : N := 900.
Definition default_dns_retries : N := 3.
Definition default_retain : N := 3.
Definition default_scale : N := 1.
Definition default_network_mode : string := "bridge".
Definition default_build_context : string := ".".

(** A service of which only the servers are written in the file. *)
Definition Service_default (srvs : list string) : Service :=
  {| service_image := None; service_build := None; service_servers := srvs;
     service_scale := default_scale; service_ports := []; service_volumes := [];
     service_files := []; service_directories := [];
     service_environment := {| env_clear := []; env_secrets := [] |};
     service_command := None; service_proxy := None; service_retain := default_retain;
     service_network_mode := default_network_mode; service_cpus := None;
     service_memory := None; service_gpus := None; service_devices := [];
     service_privileged := false; service_cap_add := []; service_stop_first := false;
     service_restart := None; service_crons := ∅ |}.

(** ** A sample project *)

(** A small project: a web service behind the proxy on a raw TCP port, a sidecar sharing
    its network, and a host-networked agent. *)
Definition sample_registry : Registry := Registry_default.
Definition sample_builder : Builder :=
  {| builder_engine := Docker; builder_remote := None; builder_cache := true;
     builder_registry := sample_registry |}.
Definition sample_server (host : string) : NamedServer :=
  {| server_host := host; server_arch := None; server_user := Some "root"; server_port := None;
     server_key_passphrase := None; server_keys := None |}.
Definition with_network (mode : string) (ports : list string) (proxy : option ProxyConfig)
    (s : Service) : Service :=
  {| service_image := service_image s; service_build := service_build s;
     service_servers := service_servers s; service_scale := service_scale s;
     service_ports := ports; service_volumes := service_volumes s;
     service_files := service_files s; service_directories := service_directories s;
     service_environment := service_environment s; service_command := service_command s;
     service_proxy := proxy; service_retain := service_retain s;
     service_network_mode := mode; service_cpus := service_cpus s;
     service_memory := service_memory s; service_gpus := service_gpus s;
     service_devices := service_devices s; service_privileged := service_privileged s;
     service_cap_add := service_cap_add s; service_stop_first := service_stop_first s;
     service_restart := service_restart s; service_crons := service_crons s |}.
Definition sample_tcp_proxy : ProxyConfig :=
  {| proxy_port := Some 5432; proxy_hosts := None; proxy_ssl := None; proxy_path_prefix := None;
     proxy_healthcheck := None; proxy_targets := None; proxy_listen_port := Some 15432 |}.
Definition sample_config : Config :=
  {| config_project := "demo"; config_builder := sample_builder;
     config_servers := [("a", sample_server "10.0.0.1"); ("b", sample_server "10.0.0.2")];
     config_services :=
       [("db", with_network "bridge" [] (Some sample_tcp_proxy) (Service_default ["a"; "b"]));
        ("sidecar", with_network "service:db" [] None (Service_default ["a"]));
        ("agent", with_network "host" ["9100"] None (Service_default ["a"; "b"]))];
     config_ssh := None; config_network := None; config_secrets_path := None;
     config_secrets := None; config_environment := None |}.
Lemma sample_config_wf : config_wf sample_config.
Proof. split; apply (bool_decide_unpack _); vm_compute; exact I. Qed.

Module SchemaProps.

(** The default timeout of a cron job is one hour. *)
Example default_timeout_is_an_hour : parse_cron_duration default_cron_timeout = Returned (Some 3600).
Proof. vm_compute. reflexivity. Qed.

End SchemaProps.
