(* ===== verification/RemoteBuilder.v ===== *)
(** [builder.remote]: the URI [ssh://[user@]hostname[:port]] of
    [jiji-config/src/remote_builder.rs]. *)

From S2P Require Import Prelude Text.
Open Scope N_scope.

Record RemoteBuilder := {
  remote_host : string;
  remote_user : option string;
  remote_port : option N;
}.

Inductive RemoteBuilderUriError :=
| RB_Empty
| RB_InvalidScheme
| RB_PasswordNotAllowed
| RB_UnsupportedComponent (kind : string)
| RB_EmptyHost
| RB_EmptyUser
| RB_ZeroPort
| RB_InvalidPort (port : string).

Definition SCHEME_PREFIX : string := "ssh://".

(** The first of [/], [?] and [#] in the text. *)
Fixpoint find_component (s : string) : option ascii :=
  match s with
  | EmptyString => None
  | String c s' =>
      if bool_decide (c ∈ ["/"; "?"; "#"]%char) then Some c else find_component s'
  end.

Definition parse_port (value : string) : result RemoteBuilderUriError N :=
  let? port := map_err (λ _, RB_InvalidPort value) (parse_uint u32_max value) in
  if port =? 0 then Err RB_ZeroPort
  else if port <=? u16_max then Ok port else Err (RB_InvalidPort value).

(** [host[:port]], where [host] may be a bracketed IPv6 literal. *)
Definition parse_host_port (value : string) :
    result RemoteBuilderUriError (string * option N) :=
  match strip_prefix "[" value with
  | Some rest =>
      let? (host, after) := ok_or (split_once "]" rest) RB_EmptyHost in
      match strip_prefix ":" after with
      | Some port_str => let? port := parse_port port_str in Ok (host, Some port)
      | None =>
          if bool_decide (after = EmptyString) then Ok (host, None) else Err RB_EmptyHost
      end
  | None =>
      match rsplit_once ":" value with
      | Some (host, port_str) => let? port := parse_port port_str in Ok (host, Some port)
      | None => Ok (value, None)
      end
  end.

Definition parse_remote_builder_uri (raw : string) :
    result RemoteBuilderUriError RemoteBuilder :=
  let raw := trim raw in
  if bool_decide (raw = EmptyString) then Err RB_Empty
  else
    let? rest := ok_or (strip_prefix SCHEME_PREFIX raw) RB_InvalidScheme in
    if bool_decide (rest = EmptyString) then Err RB_EmptyHost
    else match find_component rest with
    | Some c =>
        Err (RB_UnsupportedComponent
          (if bool_decide (c = "/"%char) then "path"
           else if bool_decide (c = "?"%char) then "query string" else "fragment"))
    | None =>
        let '(userinfo, host_port) :=
          match rsplit_once "@" rest with
          | Some (userinfo, host_port) => (Some userinfo, host_port)
          | None => (None, rest)
          end in
        let? user :=
          match userinfo with
          | Some userinfo =>
              if contains_char ":" userinfo then Err RB_PasswordNotAllowed
              else if bool_decide (userinfo = EmptyString) then Err RB_EmptyUser
              else Ok (Some userinfo)
          | None => Ok None
          end in
        let? (host, port) := parse_host_port host_port in
        if bool_decide (host = EmptyString) then Err RB_EmptyHost
        else Ok {| remote_host := host; remote_user := user; remote_port := port |}
    end.

Lemma parse_port_ok value port :
  parse_port value = Ok port → 1 ≤ port ≤ u16_max.
Proof.
  unfold parse_port. destruct (map_err _ _) as [p|]; [|done].
  destruct (N.eqb_spec p 0); [done|]. destruct (N.leb_spec p u16_max); [|done].
  intros [= <-]. lia.
Qed.

Lemma parse_host_port_ok value host port :
  parse_host_port value = Ok (host, Some port) → 1 ≤ port ≤ u16_max.
Proof.
  unfold parse_host_port. intros Hp. case_hyp Hp; eauto using parse_port_ok.
Qed.

Module RemoteBuilderProps.

(** A remote builder that parses has a non-empty host, a user (when given) that is
    non-empty and carries no password, and a port (when given) in 1..65535. *)
Theorem parsed_builder_is_usable (raw : string) (b : RemoteBuilder) :
  parse_remote_builder_uri raw = Ok b →
  remote_host b ≠ EmptyString ∧
  (∀ u, remote_user b = Some u → u ≠ EmptyString ∧ contains_char ":" u = false) ∧
  (∀ p, remote_port b = Some p → 1 ≤ p ≤ u16_max).
Proof.
  unfold parse_remote_builder_uri. intros Hp.
  case_hyp Hp; bool_to_prop; split_and!; try done; intros; simplify_eq/=;
    eauto using parse_host_port_ok.
  all: match goal with H : match ?o with _ => _ end = Ok (Some _) |- _ =>
         case_hyp H; bool_to_prop; done end.
Qed.

Lemma parsed_builder_is_usable_witness :
  ∃ b, parse_remote_builder_uri " ssh://ci@build.example.com:2222 " = Ok b ∧
       remote_host b ≠ EmptyString.
Proof.
  eexists. assert (parse_remote_builder_uri " ssh://ci@build.example.com:2222 " =
    Ok {| remote_host := "build.example.com"; remote_user := Some "ci"; remote_port := Some 2222 |})
    as H by (vm_compute; reflexivity).
  split; [exact H|]. exact (proj1 (parsed_builder_is_usable _ _ H)).
Defined.

End RemoteBuilderProps.
