(* ===== verification/Validation.v ===== *)
(** Validation of the deploy configuration: [jiji-config/src/validation.rs].

    Each check of the code pushes onto one vector of errors; here it returns the errors
    it pushes, concatenated in the same order.  An error carries its path and its code;
    the sentence for the operator is not modelled.  The parsers of cron expressions and
    time zones (the [jiff-cron] and [jiff] crates) are parameters. *)

From S2P Require Import Prelude Text Schema RemoteBuilder.
Open Scope N_scope.

Definition MAX_SERVICES : nat := 500.
Definition MAX_REPLICAS : N := 2000.
Definition MAX_NODES : nat := 32.
Definition MAX_CRONS_PER_SERVICE : nat := 32.
Definition MAX_CRONS_PER_PROJECT : N := 1000.

Record ValidationError := { ve_path : string; ve_code : string }.
Record ValidationWarning := { vw_path : string; vw_code : string }.
Record ValidationResult := {
  valid : bool;
  errors : list ValidationError;
  warnings : list ValidationWarning;
}.

Definition verr (path code : string) : ValidationError := {| ve_path := path; ve_code := code |}.
(** [if b { errors.push(..) }] *)
Definition push_if (b : bool) (path code : string) : list ValidationError :=
  if b then [verr path code] else [].

Definition u32_saturating_add (a b : N) : N := N.min (a + b) u32_max.
Definition u32_saturating_mul (a b : N) : N := N.min (a * b) u32_max.
Definition as_u32_len {A} (l : list A) : N := N.of_nat (length l) mod 2 ^ 32.

Definition nonempty {A} (l : list A) : bool := match l with [] => false | _ => true end.

(** ** Names *)

Definition is_bare_all_caps_name (value : string) : bool :=
  match bytes value with
  | c :: cs =>
      is_ascii_uppercase c &&
      forallb (λ c, is_ascii_uppercase c || is_ascii_digit c || bool_decide (c = "_"%char)) cs
  | [] => false
  end.

Definition validate_cron_name (name : string) : bool :=
  if bool_decide (name = EmptyString) then false
  else if (63 <? String.length name)%nat then false
  else
    forallb (λ c, is_ascii_lowercase c || is_ascii_digit c || bool_decide (c = "-"%char)) (bytes name)
    && negb (bool_decide (head (bytes name) = Some "-"%char))
    && negb (bool_decide (last (bytes name) = Some "-"%char)).

Definition command_is_empty (command : CommandValue) : bool :=
  match command with
  | CommandSingle s => trim_is_empty s
  | CommandMultiple parts => bool_decide (parts = []) || forallb trim_is_empty parts
  end.

(** ** Proxy targets *)

Definition well_formed_wildcard (host : string) : bool :=
  match strip_prefix "*." host with
  | Some rest => negb (bool_decide (rest = EmptyString)) && negb (contains_char "*" rest)
  | None => false
  end.

Definition ssl_is_acme (ssl : option SslValue) : bool :=
  match ssl with Some (SslEnabled true) => true | _ => false end.

Definition validate_hosts_and_ssl (path : string) (hosts : list string) (ssl : option SslValue) :
    list ValidationError :=
  mjoin ((λ host,
    if negb (contains_char "*" host) then []
    else if negb (well_formed_wildcard host) then [verr path "PROXY_INVALID_WILDCARD_HOST"]
    else push_if (ssl_is_acme ssl) path "PROXY_WILDCARD_REQUIRES_STATIC_CERT") <$> hosts).

Definition service_path (name rest : string) : string := "services." +:+ name +:+ rest.
Definition target_path (name : string) (index : nat) : string :=
  service_path name (".proxy.targets[" +:+ pretty index +:+ "]").

Definition hosts_of (hosts : option (list string)) : list string := default [] hosts.

Definition validate_proxy_hosts (c : Config) : list ValidationError :=
  mjoin ((λ '(name, service),
    match service_proxy service with
    | None => []
    | Some proxy =>
        match proxy_targets proxy with
        | Some targets =>
            mjoin (imap (λ index target,
              validate_hosts_and_ssl (target_path name index)
                (hosts_of (target_hosts target)) (target_ssl target)) targets)
        | None =>
            validate_hosts_and_ssl (service_path name ".proxy")
              (hosts_of (proxy_hosts proxy)) (proxy_ssl proxy)
        end
    end) <$> config_services c).

Definition is_some {A} (o : option A) : bool := match o with Some _ => true | None => false end.

Definition validate_proxy_has_a_routable_host (c : Config) : list ValidationError :=
  mjoin ((λ '(name, service),
    match service_proxy service with
    | None => []
    | Some proxy =>
        match proxy_targets proxy with
        | Some targets =>
            mjoin (imap (λ index target,
              if is_some (target_listen_port target) then []
              else push_if (negb (nonempty (hosts_of (target_hosts target))))
                     (target_path name index +:+ ".hosts") "PROXY_HTTP_ROUTE_WITHOUT_HOSTS") targets)
        | None =>
            push_if (negb (is_some (proxy_listen_port proxy)) && is_some (proxy_port proxy)
                     && negb (nonempty (hosts_of (proxy_hosts proxy))))
              (service_path name ".proxy.hosts") "PROXY_HTTP_ROUTE_WITHOUT_HOSTS"
        end
    end) <$> config_services c).

(** [validate_tcp_target]: the errors it pushes and the updated table of claimed ports. *)
Definition validate_tcp_target (service_name path : string) (listen_port : option N)
    (path_prefix : option string) (ssl : option SslValue)
    (seen_listen_ports : gmap N string) : list ValidationError * gmap N string :=
  match listen_port with
  | None => ([], seen_listen_ports)
  | Some listen_port =>
      let conflict := push_if (is_some path_prefix || is_some ssl) path
                        "PROXY_TCP_HTTP_FIELDS_CONFLICT" in
      if (listen_port =? 0) || (listen_port =? 80) || (listen_port =? 443) then
        (conflict ++ [verr path "PROXY_INVALID_TCP_PORT"], seen_listen_ports)
      else match seen_listen_ports !! listen_port with
           | Some _ => (conflict ++ [verr path "PROXY_TCP_PORT_CONFLICT"], seen_listen_ports)
           | None => (conflict, <[listen_port := service_name]> seen_listen_ports)
           end
  end.

#[global] Arguments validate_tcp_target : simpl never.

(** The raw-TCP views of a service's proxy section, in the order the code visits them:
    error path, listen port, path prefix and TLS setting. *)
Definition tcp_views (name : string) (proxy : ProxyConfig) :
    list (string * option N * option string * option SslValue) :=
  match proxy_targets proxy with
  | Some targets =>
      imap (λ index target,
        (target_path name index, target_listen_port target, target_path_prefix target,
         target_ssl target)) targets
  | None =>
      [(service_path name ".proxy", proxy_listen_port proxy, proxy_path_prefix proxy,
        proxy_ssl proxy)]
  end.

Definition validate_tcp_step (name : string) (st : list ValidationError * gmap N string)
    (view : string * option N * option string * option SslValue) :
    list ValidationError * gmap N string :=
  let '(path, listen_port, path_prefix, ssl) := view in
  let '(errs, seen) := validate_tcp_target name path listen_port path_prefix ssl st.2 in
  (st.1 ++ errs, seen).

Definition validate_tcp_service (st : list ValidationError * gmap N string)
    (entry : string * Service) : list ValidationError * gmap N string :=
  match service_proxy entry.2 with
  | None => st
  | Some proxy => foldl (validate_tcp_step entry.1) st (tcp_views entry.1 proxy)
  end.

Definition validate_tcp_targets (c : Config) : list ValidationError :=
  (foldl validate_tcp_service ([], ∅) (config_services c)).1.

(** ** Host networking *)

Definition host_ports_step (st : list ValidationError * list (N * string * list string))
    (entry : string * Service) : list ValidationError * list (N * string * list string) :=
  let '(errs, seen_ports) := st in
  let '(name, service) := entry in
  if negb (bool_decide (service_network_mode service = "host")) then st
  else if (1 <? length (service_ports service))%nat then
    (errs ++ [verr (service_path name ".ports") "HOST_NETWORK_TOO_MANY_PORTS"], seen_ports)
  else match service_ports service with
  | [] => st
  | raw_port :: _ =>
      match parse_uint u16_max raw_port with
      | Err _ => (errs ++ [verr (service_path name ".ports") "HOST_NETWORK_INVALID_PORT"], seen_ports)
      | Ok port =>
          if port =? 0 then
            (errs ++ [verr (service_path name ".ports") "HOST_NETWORK_INVALID_PORT"], seen_ports)
          else
            let conflicts := mjoin ((λ '(existing_port, _, existing_servers),
              push_if ((existing_port =? port) &&
                       existsb (λ host, bool_decide (host ∈ existing_servers)) (service_servers service))
                (service_path name ".ports") "HOST_NETWORK_PORT_CONFLICT") <$> seen_ports) in
            (errs ++ conflicts, seen_ports ++ [(port, name, service_servers service)])
      end
  end.

Definition validate_host_network_ports (c : Config) : list ValidationError :=
  (foldl host_ports_step ([], []) (config_services c)).1.

(** ** Builder *)

Definition validate_builder (c : Config) : list ValidationError :=
  let b := config_builder c in
  match builder_remote b with
  | Some remote =>
      push_if (negb (is_ok (parse_remote_builder_uri remote))) "builder.remote" "INVALID_BUILDER_REMOTE"
  | None => []
  end ++
  push_if (negb (is_some (registry_server (builder_registry b))) &&
           (is_some (registry_username (builder_registry b)) ||
            is_some (registry_password (builder_registry b))))
    "builder.registry.server" "REGISTRY_CREDENTIALS_REQUIRE_SERVER".

Definition build_secret_step (path : string) (st : list ValidationError * gset string)
    (name : string) : list ValidationError * gset string :=
  let '(errs, seen) := st in
  if negb (is_bare_all_caps_name name) then (errs ++ [verr path "BUILD_SECRET_NAME_INVALID"], seen)
  else if bool_decide (name ∈ seen) then (errs ++ [verr path "BUILD_SECRET_DUPLICATE"], seen)
  else (errs, {[name]} ∪ seen).

Definition validate_service_build_secrets (service_name : string) (service : Service) :
    list ValidationError :=
  match service_build service with
  | Some (BuildDetailed build) =>
      match build_secrets build with
      | Some secrets =>
          (foldl (build_secret_step (service_path service_name ".build.secrets")) ([], ∅) secrets).1
      | None => []
      end
  | _ => []
  end.

(** ** Cron jobs *)

(** [jiff_cron::Schedule::from_str] and [jiff::tz::TimeZone::get]: whether they accept. *)
Class CronLibrary := {
  schedule_parses : string → bool;
  timezone_exists : string → bool;
}.

(** Run the checks of a list in order; a panic in one of them is a panic of the whole. *)
Fixpoint collect {A} (f : A → outcome (list ValidationError)) (l : list A) :
    outcome (list ValidationError) :=
  match l with
  | [] => Returned []
  | a :: l =>
      match f a with
      | Panicked => Panicked
      | Returned e =>
          match collect f l with Panicked => Panicked | Returned es => Returned (e ++ es) end
      end
  end.

Section validate.
Context `{CronLibrary}.

Definition validate_cron_schedule (expression : string) : bool :=
  if negb (split_whitespace_count expression =? 5)%nat then false
  else schedule_parses ("0 " +:+ expression).

Definition validate_cron_timezone (name : string) : bool := timezone_exists name.

Definition validate_cron (service_name : string) (entry : string * CronConfig) :
    outcome (list ValidationError) :=
  let '(cron_name, cron) := entry in
  let path := service_path service_name (".crons." +:+ cron_name) in
  match timeout_duration cron with
  | Panicked => Panicked
  | Returned duration =>
      Returned
        (push_if (negb (validate_cron_name cron_name)) path "CRON_NAME_INVALID" ++
         push_if (negb (validate_cron_schedule (cron_schedule cron)))
           (path +:+ ".schedule") "CRON_SCHEDULE_INVALID" ++
         push_if (negb (validate_cron_timezone (cron_timezone cron)))
           (path +:+ ".timezone") "CRON_TIMEZONE_INVALID" ++
         push_if (command_is_empty (cron_command cron)) (path +:+ ".command") "CRON_COMMAND_EMPTY" ++
         push_if (match duration with Some d => d =? 0 | None => true end)
           (path +:+ ".timeout") "CRON_TIMEOUT_INVALID")
  end.

(** The crons are a [BTreeMap], visited in key order. *)
Definition validate_service_crons (service_name : string) (service : Service) :
    outcome (list ValidationError) :=
  if bool_decide (service_crons service = ∅) then Returned []
  else
    match collect (validate_cron service_name) (btree_list (service_crons service)) with
    | Panicked => Panicked
    | Returned es =>
        Returned
          (push_if (is_some (network_mode_dependency service))
             (service_path service_name ".crons") "CRON_UNSUPPORTED_ON_NETWORK_MODE_SERVICE" ++
           push_if (MAX_CRONS_PER_SERVICE <? size (service_crons service))%nat
             (service_path service_name ".crons") "TOO_MANY_CRONS_PER_SERVICE" ++ es)
    end.

(** ** One service *)

Definition validate_servers (c : Config) (name : string) (service : Service) : list ValidationError :=
  push_if (negb (nonempty (service_servers service))) (service_path name ".servers") "NO_SERVERS" ++
  mjoin ((λ host, push_if (negb (hm_contains_key (config_servers c) host))
            (service_path name ".servers") "UNDEFINED_SERVER") <$> service_servers service).

Definition validate_network_mode (c : Config) (name : string) (service : Service) :
    list ValidationError :=
  let np := service_path name ".network_mode" in
  let bridge := bool_decide (service_network_mode service = "bridge") in
  push_if (service_stop_first service && (1 <? service_scale service))
    (service_path name ".scale") "STOP_FIRST_REQUIRES_SINGLETON" ++
  push_if (starts_with "container:" (service_network_mode service)) np "UNSUPPORTED_NETWORK_MODE" ++
  push_if (bool_decide (service_network_mode service = "none")) np "NETWORK_MODE_NONE_UNSUPPORTED" ++
  push_if ((1 <? service_scale service) && negb bridge) np "NON_BRIDGE_SCALE" ++
  push_if (negb bridge && is_some (service_proxy service))
    (service_path name ".proxy") "NON_BRIDGE_PROXY" ++
  match network_mode_dependency service with
  | None => []
  | Some upstream_name =>
      if bool_decide (upstream_name = name) then [verr np "NETWORK_MODE_SERVICE_SELF_REFERENCE"]
      else match hm_get (config_services c) upstream_name with
      | Some upstream =>
          push_if (is_some (network_mode_dependency upstream)) np
            "NETWORK_MODE_SERVICE_CHAIN_UNSUPPORTED" ++
          push_if (bool_decide (service_network_mode upstream = "host")) np
            "NETWORK_MODE_SERVICE_HOST_UPSTREAM_UNSUPPORTED" ++
          push_if (negb (forallb (λ host, bool_decide (host ∈ service_servers upstream))
                           (service_servers service)))
            (service_path name ".servers") "NETWORK_MODE_SERVICE_SERVER_MISMATCH"
      | None => [verr np "UNDEFINED_NETWORK_MODE_SERVICE"]
      end
  end.

Definition validate_scale (name : string) (service : Service) : list ValidationError :=
  let has_local_state :=
    nonempty (service_volumes service) || nonempty (service_files service)
    || nonempty (service_directories service) in
  push_if ((1 <? service_scale service) && has_local_state)
    (service_path name ".scale") "STATEFUL_SCALE" ++
  push_if ((1 <? service_scale service) &&
           (service_privileged service || nonempty (service_devices service)
            || is_some (service_gpus service)))
    (service_path name ".scale") "EXCLUSIVE_RESOURCE_SCALE".

(** The body of the loop over the services, apart from the two running totals. *)
Definition validate_service (c : Config) (entry : string * Service) :
    outcome (list ValidationError) :=
  let '(name, service) := entry in
  match validate_service_crons name service with
  | Panicked => Panicked
  | Returned crons =>
      Returned
        (validate_servers c name service ++ validate_network_mode c name service ++
         validate_scale name service ++ crons ++
         validate_service_build_secrets name service)
  end.

Definition total_replicas (c : Config) : N :=
  foldl (λ total '(_, service),
           u32_saturating_add total
             (u32_saturating_mul (as_u32_len (service_servers service)) (service_scale service)))
        0 (config_services c).

Definition total_crons (c : Config) : N :=
  foldl (λ total '(_, service), u64_saturating_add total (N.of_nat (size (service_crons service))))
        0 (config_services c).

Definition user_is_set (user : option string) : bool :=
  match user with Some u => negb (trim_is_empty u) | None => false end.

Definition validate_ssh (c : Config) : list ValidationError :=
  match config_ssh c with
  | None => []
  | Some s =>
      let user_can_come_from_config :=
        match ssh_config s with SshConfigEnabled false => false | _ => true end in
      let every_server_has_user :=
        forallb (λ '(_, server), user_is_set (server_user server)) (config_servers c) in
      push_if (negb (user_is_set (ssh_user s)) && negb user_can_come_from_config
               && negb every_server_has_user) "ssh.user" "MISSING_FIELD" ++
      push_if (ssh_port s =? 0) "ssh.port" "INVALID_PORT"
  end.

(** [validate_config]. *)
Definition validate_config (c : Config) : outcome ValidationResult :=
  match collect (validate_service c) (config_services c) with
  | Panicked => Panicked
  | Returned service_errors =>
      let errs :=
        push_if (MAX_NODES <? length (config_servers c))%nat "servers" "TOO_MANY_SERVERS" ++
        push_if (MAX_SERVICES <? length (config_services c))%nat "services" "TOO_MANY_SERVICES" ++
        service_errors ++
        push_if (MAX_CRONS_PER_PROJECT <? total_crons c) "services" "TOO_MANY_CRONS" ++
        push_if (MAX_REPLICAS <? total_replicas c) "services" "TOO_MANY_REPLICAS" ++
        validate_builder c ++ validate_proxy_hosts c ++
        validate_proxy_has_a_routable_host c ++ validate_tcp_targets c ++
        validate_host_network_ports c ++ validate_ssh c in
      Returned {| valid := negb (nonempty errs); errors := errs; warnings := [] |}
  end.

(** *** From YAML *)

Definition REQUIRED_TOP_LEVEL : list string := ["project"; "builder"; "servers"; "services"].

(** What [serde_yaml] reports of a document: not a mapping, or a mapping with its
    string keys and the outcome of deserialising it as a [Config]. *)
Inductive YamlDocument :=
| NotAMapping
| Mapping (keys : gset string) (parsed : option Config).

Definition invalid (errs : list ValidationError) : ValidationResult :=
  {| valid := false; errors := errs; warnings := [] |}.

Definition validate_yaml (raw : YamlDocument) : outcome ValidationResult :=
  match raw with
  | NotAMapping => Returned (invalid [verr "" "NOT_AN_OBJECT"])
  | Mapping keys parsed =>
      let missing :=
        mjoin ((λ key, push_if (negb (bool_decide (key ∈ keys))) key "MISSING_FIELD")
                 <$> REQUIRED_TOP_LEVEL) in
      if nonempty missing then Returned (invalid missing)
      else match parsed with
           | Some config => validate_config config
           | None => Returned (invalid [verr "" "PARSE_ERROR"])
           end
  end.
End validate.

(** ** What acceptance means, check by check *)

Lemma app_nil_iff {A} (l k : list A) : l ++ k = [] ↔ l = [] ∧ k = [].
Proof. destruct l; naive_solver. Qed.

Lemma push_if_nil b path code : push_if b path code = [] ↔ b = false.
Proof. by destruct b. Qed.

Lemma mjoin_nil {A} (l : list (list A)) : mjoin l = [] ↔ Forall (λ x, x = []) l.
Proof.
  induction l as [|x l IH]; simpl; [by split|].
  rewrite app_nil_iff, Forall_cons. naive_solver.
Qed.

Lemma mjoin_fmap_nil {A B} (f : A → list B) (l : list A) :
  mjoin (f <$> l) = [] ↔ ∀ a, a ∈ l → f a = [].
Proof. rewrite mjoin_nil, Forall_fmap, Forall_forall. done. Qed.

Lemma collect_nil {A} (f : A → outcome (list ValidationError)) (l : list A) :
  collect f l = Returned [] ↔ ∀ a, a ∈ l → f a = Returned [].
Proof.
  induction l as [|a l IH]; simpl; [set_solver|]. split.
  - intros Hc b [->|Hb]%elem_of_cons; destruct (f a) as [e|] eqn:E; simplify_eq/=;
      rewrite ?E; destruct (collect f l) as [es|] eqn:Ec; simplify_eq/=;
      match goal with H : _ ++ _ = [] |- _ => apply app_nil_iff in H as [-> ->] end; [done|].
    by apply IH.
  - intros Hall. rewrite (Hall a) by set_solver.
    rewrite (proj2 IH); [done|]. intros; apply Hall; set_solver.
Qed.

(** *** Raw TCP targets *)

Definition tcp_view : Type := string * option N * option string * option SslValue.
Definition view_port (v : tcp_view) : option N := v.1.1.2.

(** Every raw TCP target of the project, with the name of its service. *)
Definition all_tcp_views (services : hashmap Service) : list (string * tcp_view) :=
  services ≫= λ '(name, service),
    match service_proxy service with
    | None => []
    | Some proxy => (name,.) <$> tcp_views name proxy
    end.

Definition tcp_ports (views : list (string * tcp_view)) : list N :=
  omap (λ nv, view_port nv.2) views.

(** A raw TCP target has a public port of its own kind and no HTTP-only setting. *)
Definition tcp_view_ok (v : tcp_view) : Prop :=
  ∀ p, view_port v = Some p →
       p ≠ 0 ∧ p ≠ 80 ∧ p ≠ 443 ∧ v.1.2 = None ∧ v.2 = None.

Definition tcp_fold (st : list ValidationError * gmap N string) (nv : string * tcp_view) :=
  validate_tcp_step nv.1 st nv.2.

Lemma foldl_bind {A B S} (f : S → B → S) (g : A → list B) (s : S) (l : list A) :
  foldl (λ s a, foldl f s (g a)) s l = foldl f s (l ≫= g).
Proof.
  revert s. induction l as [|a l IH]; intros s; simpl; [done|]. by rewrite foldl_app, <-IH.
Qed.

Lemma foldl_ext' {A S} (f g : S → A → S) s l :
  (∀ s a, f s a = g s a) → foldl f s l = foldl g s l.
Proof. intros Hfg. revert s. induction l; intros; simpl; [done|]. by rewrite Hfg. Qed.

Lemma foldl_fmap {A B S} (f : S → B → S) (g : A → B) s l :
  foldl f s (g <$> l) = foldl (λ s a, f s (g a)) s l.
Proof. revert s. induction l; intros; simpl; done. Qed.

Lemma validate_tcp_targets_views c :
  validate_tcp_targets c = (foldl tcp_fold ([], ∅) (all_tcp_views (config_services c))).1.
Proof.
  unfold validate_tcp_targets, all_tcp_views. rewrite <-foldl_bind. f_equal.
  apply foldl_ext'. intros s [name service]. unfold validate_tcp_service. simpl.
  destruct (service_proxy service); [|done]. by rewrite foldl_fmap.
Qed.

Lemma tcp_view_ok_some path p prefix ssl :
  tcp_view_ok (path, Some p, prefix, ssl) ↔
  is_some prefix || is_some ssl = false ∧ (p =? 0) || (p =? 80) || (p =? 443) = false.
Proof.
  unfold tcp_view_ok, view_port; simpl. rewrite !orb_false_iff, !N.eqb_neq. split.
  - intros Hp. destruct (Hp p eq_refl) as (? & ? & ? & -> & ->). done.
  - intros [[? ?] [[? ?] ?]] q [= <-]. by destruct prefix, ssl.
Qed.

Lemma tcp_view_ok_none path prefix ssl : tcp_view_ok (path, None, prefix, ssl).
Proof. by intros p [=]. Qed.

(** The three outcomes of [validate_tcp_target] that push nothing or something. *)
Lemma validate_tcp_target_cases name path p prefix ssl seen :
  let r := validate_tcp_target name path (Some p) prefix ssl seen in
  (tcp_view_ok (path, Some p, prefix, ssl) ∧ seen !! p = None ∧ r = ([], <[p := name]> seen))
  ∨ (¬ (tcp_view_ok (path, Some p, prefix, ssl) ∧ seen !! p = None) ∧ r.1 ≠ []).
Proof.
  unfold validate_tcp_target. rewrite tcp_view_ok_some. simpl.
  destruct (is_some prefix || is_some ssl) eqn:Ec; simpl.
  { right. split; [intros [[? _] _]; done|].
    destruct ((p =? 0) || (p =? 80) || (p =? 443)); [done|]. by destruct (seen !! p). }
  destruct ((p =? 0) || (p =? 80) || (p =? 443)) eqn:Ep; simpl.
  { right. split; [intros [[_ ?] _]; done|done]. }
  destruct (seen !! p) as [owner|] eqn:Es; simpl; [|by left].
  right. split; [intros [_ ?]; done|done].
Qed.

Lemma tcp_fold_nil errs seen views :
  (foldl tcp_fold (errs, seen) views).1 = [] ↔
  errs = [] ∧ Forall (λ nv, tcp_view_ok nv.2) views ∧ NoDup (tcp_ports views) ∧
  Forall (λ p, seen !! p = None) (tcp_ports views).
Proof.
  revert errs seen. induction views as [|[n [[[path [p|]] prefix] ssl]] views IH];
    intros errs seen;
    [simpl; split; [intros ->; repeat split; constructor|by intros (-> & _)]| |].
  - cbn [foldl]. change (tcp_ports _) with (p :: tcp_ports views).
    rewrite !Forall_cons, NoDup_cons. unfold tcp_fold at 2. simpl.
    destruct (validate_tcp_target_cases n path p prefix ssl seen) as [(Hok & Hs & ->)|[Hno Hne]].
    + rewrite IH, app_nil_r. rewrite !Forall_forall. setoid_rewrite lookup_insert_None. split.
      * intros (-> & Hv & Hnd & Hp). split_and!; try done; [|intros x Hx; by apply Hp].
        intros Hin. by destruct (Hp p Hin).
      * intros (-> & [_ Hv] & [Hp Hnd] & _ & Hs'). split_and!; try done.
        intros x Hx. split; [by apply Hs'|]. intros <-. done.
    + destruct (validate_tcp_target _ _ _ _ _ _) as [e seen'] eqn:E. simpl in Hne.
      rewrite IH, app_nil_iff. split; [intros ([_ ?] & _); done|].
      intros (_ & [? _] & _ & [? _]). destruct Hno; done.
  - cbn [foldl]. unfold tcp_fold at 2. simpl. rewrite app_nil_r, IH, Forall_cons. simpl.
    pose proof (tcp_view_ok_none path prefix ssl). tauto.
Qed.

Lemma validate_tcp_targets_nil c :
  validate_tcp_targets c = [] ↔
  Forall (λ nv, tcp_view_ok nv.2) (all_tcp_views (config_services c)) ∧
  NoDup (tcp_ports (all_tcp_views (config_services c))).
Proof.
  rewrite validate_tcp_targets_views, tcp_fold_nil. split; [naive_solver|].
  intros [? ?]. split_and!; try done. apply Forall_forall. intros; apply lookup_empty.
Qed.

(** *** Host-networked services *)

Definition is_host_mode (s : Service) : bool := bool_decide (service_network_mode s = "host").

(** The port a host-networked service binds, when it declares one. *)
Definition host_port (s : Service) : option N :=
  if is_host_mode s then
    match service_ports s with
    | raw :: _ => match parse_uint u16_max raw with Ok p => Some p | Err _ => None end
    | [] => None
    end
  else None.

(** A host-networked service declares no port, or one bare non-zero port. *)
Definition host_service_ok (s : Service) : Prop :=
  is_host_mode s = true →
  service_ports s = [] ∨
  ∃ raw p, service_ports s = [raw] ∧ parse_uint u16_max raw = Ok p ∧ p ≠ 0.

(** A claim (port, service, servers) collides with a service that binds the same port on
    one of the servers. *)
Definition host_conflict (claim : N * string * list string) (s : Service) : Prop :=
  host_port s = Some claim.1.1 ∧ ∃ host, host ∈ service_servers s ∧ host ∈ claim.2.

Definition host_claim (entry : string * Service) : option (N * string * list string) :=
  (λ p, (p, entry.1, service_servers entry.2)) <$> host_port entry.2.

Lemma host_ports_step_cases errs seen name s :
  let r := host_ports_step (errs, seen) (name, s) in
  (host_service_ok s ∧ (∀ claim, claim ∈ seen → ¬ host_conflict claim s) ∧
   r = (errs, seen ++ option_list (host_claim (name, s))))
  ∨ (¬ (host_service_ok s ∧ ∀ claim, claim ∈ seen → ¬ host_conflict claim s) ∧
     ∃ e es, r.1 = errs ++ e :: es).
Proof.
  unfold host_ports_step, host_service_ok, host_claim, host_conflict, host_port, is_host_mode; simpl.
  case_bool_decide as Hmode; simpl; [|left; split_and!; [done|by intros ? ? [? ?]|by rewrite app_nil_r]].
  destruct (service_ports s) as [|raw [|raw2 rest]]; simpl.
  - left. split_and!; [auto|by intros ? ? [? ?]|by rewrite app_nil_r].
  - destruct (parse_uint u16_max raw) as [p|] eqn:Ep; simpl.
    2:{ right. split; [|by eexists _, []]. intros [Hok _].
        destruct (Hok eq_refl) as [?|(? & ? & [= <-] & ? & ?)]; congruence. }
    destruct (N.eqb_spec p 0) as [->|Hp]; simpl.
    { right. split; [|by eexists _, []]. intros [Hok _].
      destruct (Hok eq_refl) as [?|(? & ? & [= <-] & ? & ?)]; congruence. }
    set (conflicts := mjoin _).
    assert (conflicts = [] ↔ ∀ claim, claim ∈ seen →
      ¬ (Some p = Some claim.1.1 ∧ ∃ host, host ∈ service_servers s ∧ host ∈ claim.2)) as Hc.
    { subst conflicts. rewrite mjoin_fmap_nil. apply forall_proper. intros [[q n'] srv'].
      rewrite push_if_nil, andb_false_iff, N.eqb_neq. simpl.
      rewrite <-not_true_iff_false, existsb_exists. setoid_rewrite bool_decide_eq_true.
      setoid_rewrite <-list_elem_of_In. split; intros Hx Hin; specialize (Hx Hin).
      - intros [[= ->] Hh]. tauto.
      - destruct (decide (q = p)) as [->|]; [right|by left]. intros Hh. by apply Hx. }
    destruct conflicts as [|e es] eqn:E.
    + left. split_and!; [|by apply Hc|by rewrite app_nil_r]. intros _. right. eauto.
    + right. split; [|by exists e, es]. intros [_ Hno]. by apply Hc in Hno.
  - right. split; [|by eexists _, []]. intros [Hok _].
    destruct (Hok eq_refl) as [?|(? & ? & [=] & ?)]; done.
Qed.

Lemma host_conflict_sym n1 s1 n2 s2 claim :
  host_claim (n1, s1) = Some claim → host_conflict claim s2 →
  ∃ claim2, host_claim (n2, s2) = Some claim2 ∧ host_conflict claim2 s1.
Proof.
  unfold host_claim, host_conflict. simpl. destruct (host_port s1) as [p|]; [|done]. simpl.
  intros [= <-] [-> (host & H1 & H2)]. eexists. split; [done|]. simpl in *. eauto.
Qed.

Lemma host_fold_nil errs seen l :
  hm_wf l →
  (foldl host_ports_step (errs, seen) l).1 = [] ↔
  errs = [] ∧ (∀ n s, (n, s) ∈ l → host_service_ok s) ∧
  (∀ n s claim, (n, s) ∈ l → claim ∈ seen → ¬ host_conflict claim s) ∧
  (∀ n1 s1 n2 s2 claim, (n1, s1) ∈ l → (n2, s2) ∈ l → n1 ≠ n2 →
     host_claim (n1, s1) = Some claim → ¬ host_conflict claim s2).
Proof.
  revert errs seen. induction l as [|[n s] l IH]; intros errs seen Hwf.
  { simpl. split; [intros ->; set_solver|by intros (-> & _)]. }
  unfold hm_wf in Hwf. simpl in Hwf. apply NoDup_cons in Hwf as [Hn Hwf].
  cbn [foldl]. destruct (host_ports_step_cases errs seen n s) as [(Hok & Hs & ->)|[Hno (e & es & He)]].
  - rewrite IH by done. split.
    + intros (-> & H1 & H2 & H3). split_and!; [done| | |].
      * intros n' s' [[= -> ->]|?]%elem_of_cons; eauto.
      * intros n' s' claim [[= -> ->]|?]%elem_of_cons Hc; [by apply Hs|].
        eapply H2; [done|]. apply elem_of_app; by left.
      * intros n1 s1 n2 s2 claim [[= -> ->]|Hi1]%elem_of_cons [[= -> ->]|Hi2]%elem_of_cons Hne Hc;
          [done| | |by apply (H3 n1 s1 n2 s2)].
        -- eapply H2; [done|]. rewrite Hc. apply elem_of_app; right; set_solver.
        -- intros Hcf. destruct (host_conflict_sym _ _ n s _ Hc Hcf) as (cl & Hcl & Hcf').
           eapply (H2 n1 s1 cl); [done| |done]. rewrite Hcl. apply elem_of_app; right; set_solver.
    + intros (-> & H1 & H2 & H3). split_and!; [done| | |].
      * intros n' s' ?. apply (H1 n' s'). set_solver.
      * intros n' s' claim Hin [Hc|Hc]%elem_of_app.
        -- apply (H2 n' s'); [set_solver|done].
        -- destruct (host_claim (n, s)) as [cl|] eqn:Ecl; simpl in Hc; [|set_solver].
           apply list_elem_of_singleton in Hc as ->. eapply (H3 n s n' s'); [set_solver|set_solver| |done].
           intros <-. destruct Hn. apply list_elem_of_fmap. by exists (n, s').
      * intros n1 s1 n2 s2 claim Hi1 Hi2. apply (H3 n1 s1 n2 s2); set_solver.
  - destruct (host_ports_step (errs, seen) (n, s)) as [errs' seen']. simpl in He. subst errs'.
    rewrite IH by done. split.
    + intros (Hnil & _). by destruct errs.
    + intros (_ & H1 & H2 & _). destruct Hno. split; [apply (H1 n s); set_solver|].
      intros claim. apply (H2 n s). set_solver.
Qed.

Lemma validate_host_network_ports_nil c :
  hm_wf (config_services c) →
  validate_host_network_ports c = [] ↔
  (∀ n s, (n, s) ∈ config_services c → host_service_ok s) ∧
  (∀ n1 s1 n2 s2 p host, (n1, s1) ∈ config_services c → (n2, s2) ∈ config_services c →
     n1 ≠ n2 → host_port s1 = Some p → host_port s2 = Some p →
     host ∈ service_servers s1 → host ∉ service_servers s2).
Proof.
  intros Hwf. unfold validate_host_network_ports. rewrite host_fold_nil by done. split.
  - intros (_ & H1 & _ & H3). split; [done|].
    intros n1 s1 n2 s2 p host Hi1 Hi2 Hne Hp1 Hp2 Hh1 Hh2.
    apply (H3 n1 s1 n2 s2 (p, n1, service_servers s1)); try done.
    + unfold host_claim; simpl. by rewrite Hp1.
    + split; [done|]. by exists host.
  - intros [H1 H3]. split_and!; try done; [set_solver|].
    intros n1 s1 n2 s2 claim Hi1 Hi2 Hne Hc [Hp2 (host & Hh2 & Hh1)].
    unfold host_claim in Hc; simpl in Hc. destruct (host_port s1) as [p|] eqn:Hp1; simplify_eq/=.
    by eapply (H3 n1 s1 n2 s2 p host).
Qed.

Lemma forallb_Permutation {A} (f : A → bool) l k : l ≡ₚ k → forallb f l = forallb f k.
Proof. induction 1; simpl; try congruence. by destruct (f x), (f y). Qed.

(** *** Saturating totals *)

Definition N_sum (l : list N) : N := foldr N.add 0 l.

#[export] Instance N_sum_Permutation : Proper ((≡ₚ) ==> (=)) N_sum.
Proof. intros l k Hp. induction Hp; simpl; lia. Qed.

(** A running total that saturates is the true total cut off once. *)
Lemma foldl_saturating {A} (f : A → N) (m acc : N) (l : list A) :
  acc ≤ m → foldl (λ t a, N.min (t + f a) m) acc l = N.min (acc + N_sum (f <$> l)) m.
Proof.
  revert acc. induction l as [|a l IH]; intros acc Hacc; [unfold N_sum; simpl; lia|].
  cbn [foldl]. rewrite fmap_cons, IH by lia.
  change (N_sum (f a :: (f <$> l))) with (f a + N_sum (f <$> l)).
  lia.
Qed.

Definition service_replicas (s : Service) : N :=
  u32_saturating_mul (as_u32_len (service_servers s)) (service_scale s).

Lemma total_replicas_sum c :
  total_replicas c =
  N.min (N_sum ((λ e : string * Service, service_replicas e.2) <$> config_services c)) u32_max.
Proof.
  unfold total_replicas. rewrite <-(N.add_0_l (N_sum _)), <-foldl_saturating by (vm_compute; done).
  apply foldl_ext'. by intros t [n s].
Qed.

Lemma total_crons_sum c :
  total_crons c =
  N.min (N_sum ((λ e : string * Service, N.of_nat (size (service_crons e.2))) <$> config_services c)) u64_max.
Proof.
  unfold total_crons. rewrite <-(N.add_0_l (N_sum _)), <-foldl_saturating by (vm_compute; done).
  apply foldl_ext'. by intros t [n s].
Qed.

Lemma N_sum_elem x l : x ∈ l → x ≤ N_sum l.
Proof. induction 1; simpl; unfold N_sum in *; simpl; lia. Qed.

(** *** The whole configuration *)

Section accepted.
Context `{CronLibrary}.

Definition accepted (c : Config) : Prop :=
  ∃ r, validate_config c = Returned r ∧ valid r = true.

(** Everything the checks establish about an accepted configuration. *)
Record accepted_checks (c : Config) : Prop := {
  ac_nodes : (length (config_servers c) ≤ MAX_NODES)%nat;
  ac_services : (length (config_services c) ≤ MAX_SERVICES)%nat;
  ac_each : ∀ e, e ∈ config_services c → validate_service c e = Returned [];
  ac_crons : total_crons c ≤ MAX_CRONS_PER_PROJECT;
  ac_replicas : total_replicas c ≤ MAX_REPLICAS;
  ac_builder : validate_builder c = [];
  ac_hosts : validate_proxy_hosts c = [];
  ac_routable : validate_proxy_has_a_routable_host c = [];
  ac_tcp : validate_tcp_targets c = [];
  ac_host_ports : validate_host_network_ports c = [];
  ac_ssh : validate_ssh c = [];
}.

Lemma nonempty_false {A} (l : list A) : negb (nonempty l) = true ↔ l = [].
Proof. by destruct l. Qed.

Lemma accepted_iff c : accepted c ↔ accepted_checks c.
Proof.
  unfold accepted, validate_config. split.
  - intros (r & Hr & Hv). destruct (collect _ _) as [es|] eqn:Ec; [|done].
    injection Hr as <-. simpl in Hv. apply nonempty_false in Hv.
    rewrite !app_nil_iff, !push_if_nil, ?Nat.ltb_ge, ?N.ltb_ge in Hv.
    destruct Hv as (? & ? & -> & ? & ? & ? & ? & ? & ? & ? & ?).
    constructor; try done. by apply collect_nil.
  - intros [H1 H2 H3 H4 H5 H6 H7 H8 H9 H10 H11].
    rewrite (proj2 (collect_nil _ _) H3). eexists. split; [done|]. simpl.
    apply nonempty_false. rewrite !app_nil_iff, !push_if_nil, ?Nat.ltb_ge, ?N.ltb_ge. done.
Qed.

Lemma accepted_service c n s :
  accepted c → (n, s) ∈ config_services c →
  validate_servers c n s = [] ∧ validate_network_mode c n s = [] ∧
  validate_scale n s = [] ∧ validate_service_crons n s = Returned [] ∧
  validate_service_build_secrets n s = [].
Proof.
  intros Ha%accepted_iff Hin. pose proof (ac_each _ Ha _ Hin) as Hv.
  unfold validate_service in Hv. destruct (validate_service_crons n s) as [cr|]; [|done].
  injection Hv as Hv. rewrite !app_nil_iff in Hv. destruct Hv as (? & ? & ? & -> & ?). done.
Qed.

(** Same configuration up to the iteration order of its maps. *)
Record config_permuted (c d : Config) : Prop := {
  cp_builder : config_builder c = config_builder d;
  cp_ssh : config_ssh c = config_ssh d;
  cp_servers : config_servers c ≡ₚ config_servers d;
  cp_services : config_services c ≡ₚ config_services d;
}.

Lemma validate_service_permuted c d e :
  config_wf c → config_permuted c d → validate_service c e = validate_service d e.
Proof.
  intros [Hw1 Hw2] [_ _ Hs Hv]. destruct e as [n s]. unfold validate_service.
  destruct (validate_service_crons n s); [|done]. do 2 f_equal.
  - unfold validate_servers. f_equal. f_equal. apply list_fmap_ext. intros i h _.
    unfold hm_contains_key. by rewrite (hm_get_Permutation _ _ _ Hw1 Hs).
  - f_equal. unfold validate_network_mode. do 5 f_equal.
    destruct (network_mode_dependency s); [|done].
    by rewrite (hm_get_Permutation _ _ _ Hw2 Hv).
Qed.

Lemma accepted_checks_permuted c d :
  config_wf c → config_permuted c d → accepted_checks c → accepted_checks d.
Proof.
  intros Hwf Hp [H1 H2 H3 H4 H5 H6 H7 H8 H9 H10 H11].
  pose proof Hp as [Hb Hssh Hs Hv]. pose proof Hwf as [Hw1 Hw2].
  assert (hm_wf (config_services d)) as Hw2' by (unfold hm_wf; by rewrite <-Hv).
  constructor.
  - by rewrite <-Hs.
  - by rewrite <-Hv.
  - intros e He. rewrite <-(validate_service_permuted c d) by done. apply H3. by rewrite Hv.
  - rewrite total_crons_sum in *. by rewrite <-Hv.
  - rewrite total_replicas_sum in *. by rewrite <-Hv.
  - unfold validate_builder in *. by rewrite <-Hb.
  - unfold validate_proxy_hosts in *. rewrite mjoin_fmap_nil in *. intros a Ha. apply H7. by rewrite Hv.
  - unfold validate_proxy_has_a_routable_host in *. rewrite mjoin_fmap_nil in *.
    intros a Ha. apply H8. by rewrite Hv.
  - rewrite validate_tcp_targets_nil in *. unfold all_tcp_views, tcp_ports in *. by rewrite <-Hv.
  - rewrite validate_host_network_ports_nil in * by done. destruct H10 as [Ha Hc]. split.
    + intros n s Hin. apply (Ha n). by rewrite Hv.
    + intros n1 s1 n2 s2 p host Hi1 Hi2. apply Hc; by rewrite Hv.
  - unfold validate_ssh in *. rewrite <-Hssh. destruct (config_ssh c); [|done].
    rewrite app_nil_iff, !push_if_nil in *. destruct H11 as [Hu Hport]. split; [|done].
    by rewrite <-(forallb_Permutation _ _ _ Hs).
Qed.
End accepted.

Module ValidationProps.

Definition sample_cron_library : CronLibrary :=
  {| schedule_parses _ := true; timezone_exists _ := true |}.

Section props.
Context `{CronLibrary}.

Lemma accepted_servers c n s :
  accepted c → (n, s) ∈ config_services c →
  service_servers s ≠ [] ∧ ∀ host, host ∈ service_servers s → host ∈ (config_servers c).*1.
Proof.
  intros Ha Hin. destruct (accepted_service c n s Ha Hin) as (Hs & _).
  unfold validate_servers in Hs. rewrite app_nil_iff, push_if_nil, mjoin_fmap_nil in Hs.
  destruct Hs as [Hne Hdef]. split; [by destruct (service_servers s)|].
  intros host Hh. specialize (Hdef host Hh). rewrite push_if_nil, negb_false_iff in Hdef.
  by apply hm_contains_key_elem.
Qed.

Lemma accepted_dependency c n s u :
  config_wf c → accepted c → (n, s) ∈ config_services c →
  network_mode_dependency s = Some u →
  u ≠ n ∧ ∃ us, (u, us) ∈ config_services c ∧ network_mode_dependency us = None ∧
    service_network_mode us ≠ "host" ∧ service_servers s ⊆ service_servers us.
Proof.
  intros [_ Hw] Ha Hin Hdep. destruct (accepted_service c n s Ha Hin) as (_ & Hm & _).
  unfold validate_network_mode in Hm. rewrite Hdep, !app_nil_iff in Hm.
  destruct Hm as (_ & _ & _ & _ & _ & Hm).
  destruct (bool_decide (u = n)) eqn:Eu; [done|]. bool_to_prop. split; [done|].
  destruct (hm_get (config_services c) u) as [us|] eqn:Eg; [|done].
  apply hm_get_elem in Eg; [|done]. rewrite !app_nil_iff, !push_if_nil in Hm.
  destruct Hm as (Hc & Hh & Hsub). bool_to_prop. exists us. split_and!; try done.
  - by destruct (network_mode_dependency us).
  - intros host Hhost. rewrite forallb_forall in Hsub. specialize (Hsub host).
    rewrite <-list_elem_of_In in Hsub. specialize (Hsub Hhost). by bool_to_prop.
Qed.

(** An accepted configuration places every service: each service names at least
    one server, every server it names is defined, and a service that shares the network
    of another ([network_mode: service:<name>]) names a different, existing service
    that shares nobody's network itself, is not on the host network and runs on every
    server the dependent runs on.  Dependency chains and cycles are therefore absent,
    which is what the two-wave deploy order relies on. *)
Theorem accepted_config_is_placeable c n s :
  config_wf c → accepted c → (n, s) ∈ config_services c →
  service_servers s ≠ [] ∧
  (∀ host, host ∈ service_servers s → host ∈ (config_servers c).*1) ∧
  (∀ u, network_mode_dependency s = Some u →
     u ≠ n ∧ ∃ us, (u, us) ∈ config_services c ∧ network_mode_dependency us = None ∧
       service_network_mode us ≠ "host" ∧ service_servers s ⊆ service_servers us).
Proof.
  intros Hw Ha Hin. destruct (accepted_servers c n s Ha Hin). split_and!; try done.
  intros u. by apply (accepted_dependency c n s u).
Qed.

(** The public ports of an accepted configuration do not collide: the listening
    ports of all raw TCP targets of the project are pairwise distinct, none of them is
    0, 80 or 443, and a TCP target carries no path prefix or TLS setting; and two
    different host-networked services that bind the same port share no server. *)
Theorem accepted_ports_do_not_collide c :
  config_wf c → accepted c →
  NoDup (tcp_ports (all_tcp_views (config_services c))) ∧
  Forall (λ nv, tcp_view_ok nv.2) (all_tcp_views (config_services c)) ∧
  (∀ n1 s1 n2 s2 p host, (n1, s1) ∈ config_services c → (n2, s2) ∈ config_services c →
     n1 ≠ n2 → host_port s1 = Some p → host_port s2 = Some p →
     host ∈ service_servers s1 → host ∉ service_servers s2).
Proof.
  intros [_ Hw] Ha%accepted_iff.
  pose proof (proj1 (validate_tcp_targets_nil c) (ac_tcp _ Ha)) as [? ?].
  pose proof (proj1 (validate_host_network_ports_nil c Hw) (ac_host_ports _ Ha)) as [_ ?].
  done.
Qed.

(** The limit on the number of replicas holds for the real total although the code
    sums with saturating 32-bit arithmetic: in an accepted configuration the sum over
    the services of (number of servers x scale) is at most 2000, and there are at most
    500 services, 32 servers and 1000 cron jobs. *)
Theorem accepted_config_is_bounded c :
  accepted c →
  (∀ n s, (n, s) ∈ config_services c → N.of_nat (length (service_servers s)) ≤ u32_max) →
  N_sum ((λ e : string * Service, N.of_nat (length (service_servers e.2)) * service_scale e.2)
           <$> config_services c) ≤ 2000 ∧
  N_sum ((λ e : string * Service, N.of_nat (size (service_crons e.2))) <$> config_services c) ≤ 1000 ∧
  (length (config_services c) ≤ 500)%nat ∧ (length (config_servers c) ≤ 32)%nat.
Proof.
  intros Ha%accepted_iff Hlen.
  pose proof (ac_crons _ Ha) as Hc. rewrite total_crons_sum in Hc.
  pose proof (ac_replicas _ Ha) as Hr. rewrite total_replicas_sum in Hr.
  unfold MAX_REPLICAS, MAX_CRONS_PER_PROJECT, u32_max, u64_max in *.
  split_and!; [|lia|apply (ac_services _ Ha)|apply (ac_nodes _ Ha)].
  rewrite (list_fmap_ext _ (λ e : string * Service, service_replicas e.2)); [lia|].
  intros i [n s] Hi%list_elem_of_lookup_2. simpl. unfold service_replicas, u32_saturating_mul.
  pose proof (N_sum_elem (service_replicas s) _
    (list_elem_of_fmap_2' (λ e : string * Service, service_replicas e.2) _ (n, s) _ Hi eq_refl)) as Hle.
  assert (service_replicas s ≤ 2000) as Hs by lia. clear Hle Hr Hc.
  unfold service_replicas, u32_saturating_mul in Hs. unfold as_u32_len in *. rewrite N.mod_small in * by (specialize (Hlen n s Hi); lia).
  unfold u32_max in *. lia.
Qed.

(** Whether a configuration is accepted does not depend on the iteration order of
    its two hash maps, although several checks thread a set of seen ports through the
    iteration. *)
Theorem acceptance_ignores_map_order c d :
  config_wf c → config_permuted c d → accepted c ↔ accepted d.
Proof.
  intros Hw Hp. rewrite !accepted_iff. split; [by apply accepted_checks_permuted|].
  pose proof Hp as [Hb Hs Hsv Hss]. pose proof Hw as [Hw1 Hw2]. apply accepted_checks_permuted.
  - split; unfold hm_wf; by rewrite <-?Hsv, <-?Hss.
  - by constructor.
Qed.
End props.

Lemma sample_config_accepted : @accepted sample_cron_library sample_config.
Proof. eexists. split; [vm_compute; reflexivity|reflexivity]. Qed.

Lemma accepted_config_is_placeable_witness :
  ∃ us, ("db", us) ∈ config_services sample_config ∧ network_mode_dependency us = None.
Proof.
  destruct (@accepted_config_is_placeable sample_cron_library sample_config "sidecar"
    (with_network "service:db" [] None (Service_default ["a"])) sample_config_wf
    sample_config_accepted) as (_ & _ & Hd).
  - apply list_elem_of_further, list_elem_of_here.
  - destruct (Hd "db" eq_refl) as (_ & us & Hin & Hn & _). by exists us.
Defined.

Lemma accepted_ports_do_not_collide_witness :
  tcp_ports (all_tcp_views (config_services sample_config)) = [15432] ∧ NoDup [15432].
Proof.
  split; [reflexivity|].
  apply (@accepted_ports_do_not_collide sample_cron_library sample_config sample_config_wf
    sample_config_accepted).
Defined.

Lemma accepted_config_is_bounded_witness :
  N_sum ((λ e : string * Service, N.of_nat (length (service_servers e.2)) * service_scale e.2)
           <$> config_services sample_config) ≤ 2000.
Proof.
  apply (@accepted_config_is_bounded sample_cron_library sample_config sample_config_accepted).
  intros n s Hin. repeat (apply elem_of_cons in Hin as [[= -> ->]|Hin]; [vm_compute; done|]).
  by apply elem_of_nil in Hin.
Defined.

Lemma acceptance_ignores_map_order_witness :
  @accepted sample_cron_library
    {| config_project := "demo"; config_builder := sample_builder;
       config_servers := reverse (config_servers sample_config);
       config_services := reverse (config_services sample_config);
       config_ssh := None; config_network := None; config_secrets_path := None;
       config_secrets := None; config_environment := None |}.
Proof.
  apply (@acceptance_ignores_map_order sample_cron_library sample_config).
  - apply sample_config_wf.
  - split; [done|done| |]; simpl; symmetry; apply reverse_Permutation.
  - apply sample_config_accepted.
Defined.

(** Validation does not always report: a cron job whose timeout ends in a character
    of more than one byte makes the check of that service panic, whatever the other
    fields are, because the unit is cut off by byte position. *)
Theorem multibyte_cron_timeout_panics `{CronLibrary} service_name cron_name schedule command tz :
  validate_cron service_name
    (cron_name, {| cron_schedule := schedule; cron_command := command; cron_timezone := tz;
                   cron_timeout := "5µ"; cron_overlap := Forbid; cron_missed_runs := Skip |})
  = Panicked.
Proof. reflexivity. Qed.

End ValidationProps.
