(* ===== verification/Planner.v ===== *)
(** The network planner: [jiji-network/src/planner.rs].  From a configuration it derives
    the address plan of every server (management address, container subnet, the reserved
    addresses of the subnet), the WireGuard peers, routes and firewall sets, the service
    endpoints, and the [mesh_generation] fingerprint that decides whether hosts must be
    reconfigured.

    Code that panics ([expect], indexing a map, a zero divisor) is [Err Panic]. *)

From S2P Require Import Prelude Text Pattern Cidr Naming Schema.
Open Scope N_scope.

Definition CONTAINER_SERVER_PREFIX : N := 21.
Definition SERVER_BUCKET_CAPACITY : N := 8.

Record WireGuardPeerPlan := {
  peer_server : string;
  peer_endpoint : string;
  peer_management_address : N;
  peer_allowed_ips : list Ipv4Cidr;
}.

Record RoutePlan := { route_destination : Ipv4Cidr; route_interface : string }.

Record FirewallPlan := {
  local_container_subnet : Ipv4Cidr;
  remote_container_subnets : list Ipv4Cidr;
}.

Record ServerPlan := {
  sp_name : string;
  sp_public_host : string;
  sp_management_address : N;
  sp_container_subnet : Ipv4Cidr;
  sp_bridge_gateway : N;
  sp_dns_address : N;
  sp_proxy_address : N;
  sp_wireguard_port : N;
  sp_wireguard_interface : string;
  sp_bridge_interface : string;
  sp_bridge_name : string;
  sp_peers : list WireGuardPeerPlan;
  sp_routes : list RoutePlan;
  sp_firewall : FirewallPlan;
}.

Record ServiceEndpointPlan := {
  ep_identity : string;
  ep_project : string;
  ep_service : string;
  ep_server : string;
}.

Record NetworkPlan := {
  np_enabled : bool;
  np_project : string;
  np_management_cidr : Ipv4Cidr;
  np_container_cidr : Ipv4Cidr;
  np_servers : gmap string ServerPlan;
  np_endpoints : gmap string ServiceEndpointPlan;
  np_mesh_generation : string;
}.

(** ** Selection *)

(** The loop both selections share: one filter adds the keys it matches, and a filter
    that matches nothing is an error. *)
Definition select_step {V} (entries : gmap string V) (hit : string → string → V → bool)
    (unmatched : string → NetworkPlanError) (selected : gset string) (filter : string) :
    result NetworkPlanError (gset string) :=
  let found := (base.filter (λ e : string * V, hit filter e.1 e.2 = true) (btree_list entries)).*1 in
  if bool_decide (found = []) then Err (unmatched filter)
  else Ok (selected ∪ list_to_set found).

Definition select {V} (entries : gmap string V) (hit : string → string → V → bool)
    (unmatched : string → NetworkPlanError) (filters : list string) :
    result NetworkPlanError (list V) :=
  if bool_decide (filters = []) then Ok (btree_values entries)
  else
    let? selected := try_fold (select_step entries hit unmatched) ∅ filters in
    Ok (omap (λ name, entries !! name) (btree_elems selected)).

Definition host_hit (filter name : string) (server : ServerPlan) : bool :=
  matches_pattern name filter || matches_pattern (sp_public_host server) filter.
Definition endpoint_hit (filter _ : string) (endpoint : ServiceEndpointPlan) : bool :=
  matches_pattern (ep_service endpoint) filter.

Definition select_hosts (p : NetworkPlan) (filters : list string) :
    result NetworkPlanError (list ServerPlan) :=
  select (np_servers p) host_hit UnmatchedHostFilter filters.
Definition select_endpoints (p : NetworkPlan) (filters : list string) :
    result NetworkPlanError (list ServiceEndpointPlan) :=
  select (np_endpoints p) endpoint_hit UnmatchedServiceFilter filters.

(** ** Slot allocation *)

(** [buckets.entry(bucket).or_default().push(identity)] *)
Definition bucket_push {K A} `{Countable K} (m : gmap K (list A)) (b : K) (a : A) : gmap K (list A) :=
  <[b := default [] (m !! b) ++ [a]]> m.

Definition number_from {A} (start : N) (l : list A) : list (A * N) :=
  imap (λ i a, (a, start + N.of_nat i)) l.

Definition assign_bucket (bucket_capacity : N) (kind : string)
    (assignments : gmap string N) (entry : N * list string) :
    result (fault NetworkPlanError) (gmap string N) :=
  let '(bucket, bucket_identities) := entry in
  let sorted := sort_by leb bucket_identities in
  if bucket_capacity <? N.of_nat (length sorted) then
    Err (Failed (BucketExhausted kind bucket bucket_capacity))
  else
    Ok (foldl (λ m '(identity, slot), <[identity := slot]> m) assignments
          (number_from (bucket * bucket_capacity) sorted)).

Section planner.
Context `{Sha256}.

Definition allocate_bucketed (identities : list string) (total_slots desired_bucket_capacity : N)
    (kind : string) : result (fault NetworkPlanError) (gmap string N) :=
  if bool_decide (identities = []) then Ok ∅
  else
    let bucket_capacity := N.min desired_bucket_capacity total_slots in
    if bucket_capacity =? 0 then Err Panic
    else
      let bucket_count := total_slots / bucket_capacity in
      let buckets :=
        foldl (λ m identity, bucket_push m (stable_hash identity mod bucket_count) identity)
          ∅ identities in
      try_fold (assign_bucket bucket_capacity kind) ∅ (btree_list buckets).

(** ** Endpoints *)

(** The inner loop over the servers of one service; the state is the set of servers
    seen for this service and the identities collected per server. *)
Definition endpoint_step (project service_name : string) (servers : gmap string ServerPlan)
    (st : gset string * gmap string (list (string * string))) (server_name : string) :
    result NetworkPlanError (gset string * gmap string (list (string * string))) :=
  let '(seen, by_server) := st in
  if bool_decide (server_name ∈ seen) then Err (DuplicateServiceServer service_name server_name)
  else if bool_decide (servers !! server_name = None) then
    Err (UnknownServiceServer service_name server_name)
  else
    let identity := project +:+ ":" +:+ service_name +:+ ":" +:+ server_name in
    Ok ({[server_name]} ∪ seen, bucket_push by_server server_name (identity, service_name)).

Definition endpoint_service_step (project : string) (servers : gmap string ServerPlan)
    (by_server : gmap string (list (string * string))) (entry : string * Service) :
    result NetworkPlanError (gmap string (list (string * string))) :=
  let '(service_name, service) := entry in
  let? (_, by_server) :=
    try_fold (endpoint_step project service_name servers) (∅, by_server) (service_servers service) in
  Ok by_server.

Definition insert_endpoints (project : string) (endpoints : gmap string ServiceEndpointPlan)
    (entry : string * list (string * string)) : gmap string ServiceEndpointPlan :=
  let '(server_name, identities) := entry in
  foldl (λ m '(identity, service),
           <[identity := {| ep_identity := identity; ep_project := project;
                            ep_service := service; ep_server := server_name |}]> m)
    endpoints identities.

Definition plan_endpoints (config : Config) (servers : gmap string ServerPlan) :
    result NetworkPlanError (gmap string ServiceEndpointPlan) :=
  let? by_server :=
    try_fold (endpoint_service_step (config_project config) servers) ∅ (config_services config) in
  Ok (foldl (insert_endpoints (config_project config)) ∅ (btree_list by_server)).

(** ** Peers, routes and firewall *)

Record Snapshot := {
  snap_name : string;
  snap_public_host : string;
  snap_management_address : N;
  snap_container_subnet : Ipv4Cidr;
  snap_wireguard_port : N;
}.

Definition snapshot (s : ServerPlan) : Snapshot :=
  {| snap_name := sp_name s; snap_public_host := sp_public_host s;
     snap_management_address := sp_management_address s;
     snap_container_subnet := sp_container_subnet s;
     snap_wireguard_port := sp_wireguard_port s |}.

(** The body of the loop over the snapshots: the three pushes onto one server. *)
Definition add_peer (server : ServerPlan) (snap : Snapshot) :
    result (fault NetworkPlanError) ServerPlan :=
  if bool_decide (snap_name snap = sp_name server) then Ok server
  else
    let? host_route :=
      expect (match cidr_new (snap_management_address snap) 32 with
              | Ok c => Some c | Err _ => None end) in
    Ok {| sp_name := sp_name server; sp_public_host := sp_public_host server;
          sp_management_address := sp_management_address server;
          sp_container_subnet := sp_container_subnet server;
          sp_bridge_gateway := sp_bridge_gateway server;
          sp_dns_address := sp_dns_address server;
          sp_proxy_address := sp_proxy_address server;
          sp_wireguard_port := sp_wireguard_port server;
          sp_wireguard_interface := sp_wireguard_interface server;
          sp_bridge_interface := sp_bridge_interface server;
          sp_bridge_name := sp_bridge_name server;
          sp_peers := sp_peers server ++
            [{| peer_server := snap_name snap;
                peer_endpoint := snap_public_host snap +:+ ":" +:+ pretty (snap_wireguard_port snap);
                peer_management_address := snap_management_address snap;
                peer_allowed_ips := [host_route; snap_container_subnet snap] |}];
          sp_routes := sp_routes server ++
            [{| route_destination := snap_container_subnet snap;
                route_interface := sp_wireguard_interface server |}];
          sp_firewall :=
            {| local_container_subnet := local_container_subnet (sp_firewall server);
               remote_container_subnets :=
                 remote_container_subnets (sp_firewall server) ++ [snap_container_subnet snap] |} |}.

Definition populate_server_networks (servers : gmap string ServerPlan) :
    result (fault NetworkPlanError) (gmap string ServerPlan) :=
  let snapshots := snapshot <$> btree_values servers in
  try_fold (λ acc '(key, server),
              let? server := try_fold add_peer server snapshots in
              Ok (<[key := server]> acc))
    servers (btree_list servers).

(** ** The fingerprint *)

(** [u64::to_be_bytes]. *)
Definition be_bytes (n : N) : string :=
  String.string_of_list_ascii
    ((λ i, ascii_of_N ((n / 256 ^ i) mod 256)) <$> [7; 6; 5; 4; 3; 2; 1; 0]).

(** [hash_field] feeds the length and then the bytes; the state of the hasher is what
    has been fed to it. *)
Definition hash_field (hasher value : string) : string :=
  hasher +:+ be_bytes (N.of_nat (String.length value)) +:+ value.

Definition hex_byte (b : N) : string := String.string_of_list_ascii (hex_fixed 2 b).

Definition finish_generation (hasher : string) : string :=
  foldl (λ generation byte, generation +:+ hex_byte byte) "" (sha256 hasher).

Definition peer_fields (peer : WireGuardPeerPlan) : list string :=
  peer_server peer :: peer_endpoint peer :: (cidr_to_string <$> peer_allowed_ips peer).

Definition server_fields (server : ServerPlan) : list string :=
  [sp_name server; sp_public_host server; ipv4_to_string (sp_management_address server);
   cidr_to_string (sp_container_subnet server); sp_wireguard_interface server;
   sp_bridge_interface server; sp_bridge_name server; pretty (sp_wireguard_port server)]
  ++ (sp_peers server ≫= peer_fields).

(** The fields in the order they are hashed. *)
Definition mesh_fields (enabled : bool) (project : string) (management_cidr container_cidr : Ipv4Cidr)
    (servers : gmap string ServerPlan) : list string :=
  [if enabled then "enabled" else "disabled"; project; cidr_to_string management_cidr;
   cidr_to_string container_cidr] ++ (btree_values servers ≫= server_fields).

Definition hash_fields (fields : list string) : string := foldl hash_field "" fields.

Definition mesh_generation_checksum (enabled : bool) (project : string)
    (management_cidr container_cidr : Ipv4Cidr) (servers : gmap string ServerPlan) : string :=
  finish_generation (hash_fields (mesh_fields enabled project management_cidr container_cidr servers)).

(** ** The plan *)

Definition base_server (config : Config) (management_cidr container_cidr : Ipv4Cidr)
    (name : string) (slot : N) : result (fault NetworkPlanError) ServerPlan :=
  let project := config_project config in
  let? named_server := expect (hm_get (config_servers config) name) in
  let? container_subnet := expect (subnet container_cidr CONTAINER_SERVER_PREFIX slot) in
  let? management_address := expect (address management_cidr (slot + 1)) in
  let? bridge_gateway := expect (address container_subnet 1) in
  let? dns_address := expect (address container_subnet 2) in
  let? proxy_address := expect (address container_subnet 3) in
  Ok {| sp_name := name; sp_public_host := server_host named_server;
        sp_management_address := management_address;
        sp_container_subnet := container_subnet; sp_bridge_gateway := bridge_gateway;
        sp_dns_address := dns_address; sp_proxy_address := proxy_address;
        sp_wireguard_port := wireguard_port project;
        sp_wireguard_interface := String.string_of_list_ascii (wireguard_interface_name project);
        sp_bridge_interface := String.string_of_list_ascii (bridge_interface_name project);
        sp_bridge_name := String.string_of_list_ascii (bridge_network_name project);
        sp_peers := []; sp_routes := [];
        sp_firewall := {| local_container_subnet := container_subnet;
                          remote_container_subnets := [] |} |}.

Definition base_server_step (config : Config) (management_cidr container_cidr : Ipv4Cidr)
    (base_servers : gmap string ServerPlan) (assignment : string * N) :
    result (fault NetworkPlanError) (gmap string ServerPlan) :=
  let '(identity, slot) := assignment in
  let? name := expect (strip_prefix (config_project config +:+ ":") identity) in
  let? server := base_server config management_cidr container_cidr name slot in
  Ok (<[name := server]> base_servers).

(** The two ranges of the project: configured, or derived from its name. *)
Definition plan_cidrs (config : Config) : result NetworkPlanError (Ipv4Cidr * Ipv4Cidr) :=
  let '(default_management_cidr, default_container_cidr) := project_cidrs (config_project config) in
  let? management_cidr :=
    cidr_from_str (default default_management_cidr (config_network config ≫= network_management_cidr)) in
  let? container_cidr :=
    cidr_from_str (default default_container_cidr (config_network config ≫= network_container_cidr)) in
  if overlaps management_cidr container_cidr then
    Err (OverlappingAddressSpaces (cidr_to_string management_cidr) (cidr_to_string container_cidr))
  else Ok (management_cidr, container_cidr).

(** The number of server slots, after the capacity checks. *)
Definition plan_slots (management_cidr container_cidr : Ipv4Cidr) : result NetworkPlanError N :=
  let? server_slots := ok_or (subnet_count container_cidr CONTAINER_SERVER_PREFIX)
      (ContainerRangeTooSmall (cidr_to_string container_cidr) CONTAINER_SERVER_PREFIX) in
  let management_slots := saturating_sub (address_count management_cidr) 2 in
  if management_slots <? server_slots then
    Err (ManagementRangeTooSmall (cidr_to_string management_cidr) management_slots server_slots)
  else Ok server_slots.

Definition server_identities (config : Config) : list string :=
  (λ entry, config_project config +:+ ":" +:+ entry.1) <$> config_servers config.

Definition plan_base_servers (config : Config) (management_cidr container_cidr : Ipv4Cidr)
    (server_slots : N) : result (fault NetworkPlanError) (gmap string ServerPlan) :=
  let? server_slot_assignments :=
    allocate_bucketed (server_identities config) server_slots SERVER_BUCKET_CAPACITY "servers" in
  try_fold (base_server_step config management_cidr container_cidr) ∅
    (btree_list server_slot_assignments).

Definition plan_enabled (config : Config) : bool :=
  match config_network config with Some value => network_enabled value | None => true end.

(** [NetworkPlanner::plan]. *)
Definition plan (config : Config) : result (fault NetworkPlanError) NetworkPlan :=
  let? (management_cidr, container_cidr) := fallible (plan_cidrs config) in
  let? server_slots := fallible (plan_slots management_cidr container_cidr) in
  let? base_servers := plan_base_servers config management_cidr container_cidr server_slots in
  let? endpoints := fallible (plan_endpoints config base_servers) in
  let? servers := populate_server_networks base_servers in
  Ok {| np_enabled := plan_enabled config;
        np_project := config_project config;
        np_management_cidr := management_cidr;
        np_container_cidr := container_cidr;
        np_servers := servers;
        np_endpoints := endpoints;
        np_mesh_generation :=
          mesh_generation_checksum (plan_enabled config) (config_project config)
            management_cidr container_cidr servers |}.
End planner.

(** ** Lemmas: building maps in a loop *)

Definition insert_all {K V} `{Countable K} (m : gmap K V) (kvs : list (K * V)) : gmap K V :=
  foldl (λ m kv, <[kv.1 := kv.2]> m) m kvs.

Section insert_all.
Context {K V : Type} `{Countable K}.
Implicit Types (m : gmap K V) (kvs : list (K * V)).

Lemma insert_all_inv m kvs k v :
  insert_all m kvs !! k = Some v → (k, v) ∈ kvs ∨ m !! k = Some v.
Proof.
  revert m. induction kvs as [|[k' v'] kvs IH]; intros m; simpl; [auto|].
  intros [?|Hl]%IH; [set_solver|]. apply lookup_insert_Some in Hl as [[-> ->]|[_ ?]]; set_solver.
Qed.

Lemma insert_all_is_Some m kvs k :
  is_Some (insert_all m kvs !! k) ↔ k ∈ kvs.*1 ∨ is_Some (m !! k).
Proof.
  revert m. induction kvs as [|[k' v'] kvs IH]; intros m; simpl; [set_solver|].
  rewrite IH, lookup_insert_is_Some', elem_of_cons. naive_solver.
Qed.

Lemma insert_all_lookup m kvs k v :
  NoDup kvs.*1 →
  insert_all m kvs !! k = Some v ↔ (k, v) ∈ kvs ∨ (k ∉ kvs.*1 ∧ m !! k = Some v).
Proof.
  revert m. induction kvs as [|[k' v'] kvs IH]; intros m; simpl; [set_solver|].
  intros [Hk' Hnd]%NoDup_cons. rewrite IH by done. rewrite !elem_of_cons, lookup_insert_Some.
  destruct (decide (k = k')) as [->|Hne].
  - split.
    + intros [Hin|[_ [[_ ->]|[? _]]]]; [|by left; left|done]. destruct Hk'.
      apply list_elem_of_fmap. by exists (k', v).
    + intros [[[= ->]|Hin]|[[] _]]; [|by left|by left]. right. auto.
  - split.
    + intros [?|[? [[? _]|[_ ?]]]]; [auto|done|]. right. split; [|done]. by intros [?|?].
    + intros [[[= -> ->]|?]|[Hn ?]]; [done|auto|]. right. split; [tauto|]. by right.
Qed.

(** The loop [for a in l { m.insert(k(a)?, v(a)?) }]. *)
Context {E A : Type} (f : gmap K V → A → result E (gmap K V)) (g : A → result E (K * V)).
Hypothesis f_inserts : ∀ m a, f m a = let? kv := g a in Ok (<[kv.1 := kv.2]> m).

Lemma try_fold_inserts m l kvs :
  Forall2 (λ a kv, g a = Ok kv) l kvs → try_fold f m l = Ok (insert_all m kvs).
Proof.
  intros Hg. revert m. induction Hg as [|a kv l kvs Ha Hl IH]; intros m; simpl; [done|].
  by rewrite f_inserts, Ha.
Qed.

Lemma try_fold_inserts_inv m l m' :
  try_fold f m l = Ok m' → ∃ kvs, Forall2 (λ a kv, g a = Ok kv) l kvs ∧ m' = insert_all m kvs.
Proof.
  revert m. induction l as [|a l IH]; intros m; simpl.
  - intros [= <-]. by exists [].
  - rewrite f_inserts. destruct (g a) as [kv|] eqn:Ea; [|done].
    intros (kvs & ? & ->)%IH. exists (kv :: kvs). by split; [constructor|].
Qed.
End insert_all.

Lemma Forall2_total {A B} (R : A → B → Prop) l :
  (∀ a, a ∈ l → ∃ b, R a b) → ∃ k, Forall2 R l k.
Proof.
  induction l as [|a l IH]; intros Hl; [by exists []|].
  destruct (Hl a) as [b Hb]; [set_solver|]. destruct IH as [k Hk]; [set_solver|].
  exists (b :: k). by constructor.
Qed.

(** ** Lemmas: slot allocation *)

Section buckets.
Context {A : Type} (f : A → N).

Lemma buckets_lookup (m : gmap N (list A)) l b :
  foldl (λ m a, bucket_push m (f a) a) m l !! b =
  match filter (λ a, f a = b) l with
  | [] => m !! b
  | members => Some (default [] (m !! b) ++ members)
  end.
Proof.
  revert m. induction l as [|a l IH]; intros m; simpl; [done|]. rewrite IH. unfold bucket_push.
  destruct (decide (f a = b)) as [<-|Hne].
  - rewrite filter_cons_True by done. rewrite lookup_insert_eq. simpl.
    destruct (filter _ l); [done|]. by rewrite <-app_assoc.
  - rewrite filter_cons_False by done. by rewrite lookup_insert_ne.
Qed.

Lemma buckets_lookup_empty l b :
  foldl (λ m a, bucket_push m (f a) a) ∅ l !! b =
  match filter (λ a, f a = b) l with [] => None | members => Some members end.
Proof. rewrite buckets_lookup, lookup_empty. by destruct (filter _ l). Qed.
End buckets.

Lemma elem_of_number_from {A} start (l : list A) a n :
  (a, n) ∈ number_from start l ↔ ∃ i, l !! i = Some a ∧ n = start + N.of_nat i.
Proof.
  unfold number_from. rewrite list_elem_of_lookup. setoid_rewrite list_lookup_imap_Some. split.
  - intros (i & x & Hx & [= -> ->]). eauto.
  - intros (i & ? & ->). eauto 10.
Qed.

Lemma number_from_fst {A} start (l : list A) : (number_from start l).*1 = l.
Proof.
  unfold number_from. rewrite fmap_imap. unfold compose; simpl.
  rewrite <-(list_fmap_id l) at 2. rewrite <-imap_const. apply imap_ext. done.
Qed.

Definition numbered (cap : N) (entry : N * list string) : list (string * N) :=
  number_from (entry.1 * cap) (sort_by leb entry.2).

Lemma foldl_insert_pairs (m : gmap string N) l :
  foldl (λ m '(identity, slot), <[identity := slot]> m) m l = insert_all m l.
Proof. revert m. induction l as [|[k v] l IH]; intros m; simpl; auto. Qed.

Lemma insert_all_app {K V} `{Countable K} (m : gmap K V) l k :
  insert_all m (l ++ k) = insert_all (insert_all m l) k.
Proof. apply foldl_app. Qed.

(** A successful allocation inserts the numbered members of every bucket. *)
Lemma assign_buckets_ok cap kind m L m' :
  try_fold (assign_bucket cap kind) m L = Ok m' →
  m' = insert_all m (L ≫= numbered cap) ∧ Forall (λ e, N.of_nat (length e.2) ≤ cap) L.
Proof.
  revert m. induction L as [|[b ids] L IH]; intros m; simpl; [by intros [= <-]|].
  destruct (N.ltb_spec cap (N.of_nat (length (sort_by leb ids)))) as [?|Hlen]; [done|].
  rewrite sort_by_Permutation in Hlen. rewrite foldl_insert_pairs. intros [-> ?]%IH.
  split; [by rewrite insert_all_app|by constructor].
Qed.

(** The only error of the loop is a full bucket. *)
Lemma assign_buckets_err cap kind m L e :
  try_fold (assign_bucket cap kind) m L = Err e →
  ∃ b ids, (b, ids) ∈ L ∧ cap < N.of_nat (length ids) ∧ e = Failed (BucketExhausted kind b cap).
Proof.
  revert m. induction L as [|[b ids] L IH]; intros m; simpl; [done|].
  destruct (N.ltb_spec cap (N.of_nat (length (sort_by leb ids)))) as [Hlen|_].
  - rewrite sort_by_Permutation in Hlen. intros [= <-]. exists b, ids. set_solver.
  - intros (b' & ids' & ? & ? & ?)%IH. exists b', ids'. set_solver.
Qed.

Lemma try_fold_ext {E S A} (f g : S → A → result E S) s l :
  (∀ s a, f s a = g s a) → try_fold f s l = try_fold g s l.
Proof. intros Hfg. revert s. induction l; intros s; simpl; [done|]. rewrite Hfg. by destruct (g s a). Qed.

Lemma try_fold_fmap {E S A B} (f : S → B → result E S) (h : A → B) s l :
  try_fold f s (h <$> l) = try_fold (λ s a, f s (h a)) s l.
Proof. revert s. induction l; intros s; simpl; [done|]. by destruct (f s (h a)). Qed.

Lemma div_small_bound b i cap total :
  0 < cap → b < total / cap → i < cap → b * cap + i < total.
Proof.
  intros Hc Hb Hi. pose proof (N.Div0.div_mod total cap). pose proof (N.mod_lt total cap ltac:(lia)).
  generalize dependent (total / cap). generalize dependent (total mod cap). intros. nia.
Qed.

Lemma slot_unique b i b' j k :
  i < k → j < k → b * k + i = b' * k + j → b = b' ∧ i = j.
Proof. intros. assert (b = b') as -> by nia. lia. Qed.

Section allocation.
Context `{Sha256}.

Lemma assign_sorted cap kind m b ids :
  assign_bucket cap kind m (b, sort_by leb ids) = assign_bucket cap kind m (b, ids).
Proof.
  unfold assign_bucket. rewrite (sort_by_leb_Permutation (sort_by leb ids) ids); [done|].
  apply sort_by_Permutation.
Qed.

(** The allocation only depends on the set of identities. *)
Lemma allocate_bucketed_Permutation ids1 ids2 total cap kind :
  ids1 ≡ₚ ids2 → allocate_bucketed ids1 total cap kind = allocate_bucketed ids2 total cap kind.
Proof.
  intros Hp. unfold allocate_bucketed.
  destruct (decide (ids1 = [])) as [->|Hne].
  { by apply Permutation_nil in Hp as ->. }
  rewrite !bool_decide_false; [|intros ->; symmetry in Hp; by apply Permutation_nil in Hp|done].
  destruct (_ =? 0); [done|].
  set (step := assign_bucket _ _). 
  set (h := λ identity, stable_hash identity mod (total / N.min cap total)).
  change (λ (m : gmap N (list string)) identity, bucket_push m _ identity) with
    (λ (m : gmap N (list string)) a, bucket_push m (h a) a).
  assert (∀ m (L : list (N * list string)), try_fold step m L =
            try_fold step m (prod_map id (sort_by leb) <$> L)) as Hsort.
  { intros m L. rewrite try_fold_fmap. apply try_fold_ext.
    intros s [b ids]. symmetry. apply assign_sorted. }
  rewrite Hsort, (Hsort _ (btree_list (foldl _ ∅ ids2))), <-!btree_list_fmap.
  do 2 f_equal. apply map_eq. intros b. rewrite !lookup_fmap, !(buckets_lookup_empty h).
  assert (filter (λ a, h a = b) ids1 ≡ₚ filter (λ a, h a = b) ids2) as Hf by by rewrite Hp.
  destruct (filter (λ a, h a = b) ids1) eqn:E1, (filter (λ a, h a = b) ids2) eqn:E2; try done.
  - by apply Permutation_nil in Hf.
  - symmetry in Hf; by apply Permutation_nil in Hf.
  - cbn [fmap option_fmap option_map]. f_equal. by apply sort_by_leb_Permutation.
Qed.

(** Every identity gets a slot of its own, below the total. *)
Lemma allocate_bucketed_spec ids total cap kind m :
  allocate_bucketed ids total cap kind = Ok m →
  (∀ id, is_Some (m !! id) ↔ id ∈ ids) ∧
  (∀ id slot, m !! id = Some slot → slot < total) ∧
  (∀ id1 id2 slot, m !! id1 = Some slot → m !! id2 = Some slot → id1 = id2).
Proof.
  unfold allocate_bucketed. case_bool_decide as Hnil.
  { intros [= <-]. subst ids. split_and!; intros *; rewrite ?lookup_empty; [|done|done].
    split; [by intros []|set_solver]. }
  set (k := N.min cap total). destruct (N.eqb_spec k 0) as [|Hk]; [done|].
  set (h := λ identity, stable_hash identity mod (total / k)).
  set (buckets := foldl _ ∅ ids). intros [-> Hlen]%assign_buckets_ok.
  assert (∀ b members, (b, members) ∈ btree_list buckets ↔
    members = filter (λ id, h id = b) ids ∧ members ≠ []) as HB.
  { intros b members. rewrite elem_of_btree_list. subst buckets.
    change (λ m identity, bucket_push m _ identity) with
      (λ (m : gmap N (list string)) a, bucket_push m (h a) a).
    rewrite buckets_lookup_empty. destruct (filter _ ids); naive_solver. }
  assert (0 < total / k) as Hbc.
  { assert (k ≤ total) by lia. apply N.div_str_pos. lia. }
  assert (∀ id slot, (id, slot) ∈ (btree_list buckets ≫= numbered k) ↔
    ∃ i, sort_by leb (filter (λ x, h x = h id) ids) !! i = Some id ∧
         slot = h id * k + N.of_nat i ∧ N.of_nat i < k) as Hmem.
  { intros id slot. rewrite list_elem_of_bind. split.
    - intros ([b members] & Hn & HL). unfold numbered in Hn. simpl in Hn.
      apply elem_of_number_from in Hn as (i & Hi & ->).
      rewrite Forall_forall in Hlen. pose proof (Hlen _ HL) as Hl. apply HB in HL as [-> _].
      simpl in Hl. pose proof (list_elem_of_lookup_2 _ _ _ Hi) as Hin.
      rewrite elem_of_sort_by in Hin. apply list_elem_of_filter in Hin as [<- _].
      exists i. split_and!; [done..|]. apply lookup_lt_Some in Hi. rewrite sort_by_Permutation in Hi. lia.
    - intros (i & Hi & -> & _). exists (h id, filter (λ x, h x = h id) ids). split.
      + apply elem_of_number_from. eauto.
      + apply HB. split; [done|]. intros E. rewrite E in Hi. done. }
  split_and!.
  - intros id. rewrite insert_all_is_Some, lookup_empty. split.
    + intros [Hin|[]%is_Some_None]. apply list_elem_of_fmap in Hin as ([? slot] & -> & Hin).
      apply Hmem in Hin as (i & Hi & _). apply list_elem_of_lookup_2 in Hi.
      rewrite elem_of_sort_by in Hi. by apply list_elem_of_filter in Hi as [_ ?].
    + intros Hin. left. apply list_elem_of_fmap.
      assert (id ∈ sort_by leb (filter (λ x, h x = h id) ids)) as (i & Hi)%list_elem_of_lookup.
      { rewrite elem_of_sort_by. by apply list_elem_of_filter. }
      exists (id, h id * k + N.of_nat i). split; [done|]. apply Hmem. exists i. split_and!; [done..|].
      rewrite Forall_forall in Hlen. specialize (Hlen (h id, filter (λ x, h x = h id) ids)).
      simpl in Hlen. apply lookup_lt_Some in Hi. rewrite sort_by_Permutation in Hi.
      enough (N.of_nat (length (filter (λ x, h x = h id) ids)) ≤ k) by lia. apply Hlen, HB.
      split; [done|]. apply (elem_of_not_nil id). by apply list_elem_of_filter.
  - intros id slot [(i & _ & -> & Hi)%Hmem|Hl]%insert_all_inv; [|by rewrite lookup_empty in Hl].
    apply div_small_bound; [lia| |done]. by apply N.mod_lt; lia.
  - intros id1 id2 slot H1 H2.
    apply insert_all_inv in H1 as [(i & Hi & Hs1 & Hk1)%Hmem|H1]; [|by rewrite lookup_empty in H1].
    apply insert_all_inv in H2 as [(j & Hj & Hs2 & Hk2)%Hmem|H2]; [|by rewrite lookup_empty in H2].
    rewrite Hs1 in Hs2. apply slot_unique in Hs2 as [Hh Hij%Nat2N.inj]; [|done..].
    subst j. rewrite Hh in Hi. congruence.
Qed.
End allocation.

(** ** Lemmas: the plan of one server *)

Section servers.
Context `{Sha256}.

(** The ranges passed the checks of [plan]. *)
Record ranges_ok (mc cc : Ipv4Cidr) (slots : N) : Prop := {
  ro_mc : cidr_wf mc;
  ro_cc : cidr_wf cc;
  ro_disjoint : overlaps mc cc = false;
  ro_prefix : prefix cc ≤ 21;
  ro_slots : slots = 2 ^ (21 - prefix cc);
  ro_capacity : slots + 2 ≤ address_count mc;
}.

Lemma plan_ranges config mc cc slots :
  plan_cidrs config = Ok (mc, cc) → plan_slots mc cc = Ok slots → ranges_ok mc cc slots.
Proof.
  unfold plan_cidrs, plan_slots. destruct (project_cidrs _) as [dm dc].
  destruct (cidr_from_str (default dm _)) as [mc'|] eqn:Em; [|done].
  destruct (cidr_from_str (default dc _)) as [cc'|] eqn:Ec; [|done].
  destruct (overlaps mc' cc') eqn:Eo; [done|]. intros [= -> ->].
  apply cidr_from_str_wf in Em, Ec.
  unfold subnet_count, CONTAINER_SERVER_PREFIX, saturating_sub. simpl.
  destruct (N.ltb_spec 21 (prefix cc)); simpl; [done|]. rewrite N.shiftl_1_l.
  destruct (N.ltb_spec (address_count mc - 2) (2 ^ (21 - prefix cc))) as [|Hcap]; [done|].
  intros [= <-]. pose proof (pow2_pos (21 - prefix cc)). by constructor; try lia.
Qed.

Definition slot_subnet (cc : Ipv4Cidr) (slot : N) : Ipv4Cidr :=
  {| network := network cc + slot * 2 ^ 11; prefix := 21 |}.

(** The plan of a server in a slot, without the partial operations. *)
Definition slot_server (config : Config) (mc cc : Ipv4Cidr) (name : string) (host : string)
    (slot : N) : ServerPlan :=
  {| sp_name := name; sp_public_host := host;
     sp_management_address := network mc + slot + 1;
     sp_container_subnet := slot_subnet cc slot;
     sp_bridge_gateway := network (slot_subnet cc slot) + 1;
     sp_dns_address := network (slot_subnet cc slot) + 2;
     sp_proxy_address := network (slot_subnet cc slot) + 3;
     sp_wireguard_port := wireguard_port (config_project config);
     sp_wireguard_interface :=
       String.string_of_list_ascii (wireguard_interface_name (config_project config));
     sp_bridge_interface :=
       String.string_of_list_ascii (bridge_interface_name (config_project config));
     sp_bridge_name := String.string_of_list_ascii (bridge_network_name (config_project config));
     sp_peers := []; sp_routes := [];
     sp_firewall := {| local_container_subnet := slot_subnet cc slot;
                       remote_container_subnets := [] |} |}.

Lemma slot_subnet_wf mc cc slots slot :
  ranges_ok mc cc slots → slot < slots →
  subnet cc 21 slot = Some (slot_subnet cc slot) ∧ cidr_wf (slot_subnet cc slot).
Proof.
  intros [_ Hcc _ Hp -> _] Hslot. apply (subnet_spec cc 21 slot); [done|lia|done].
Qed.

Lemma base_server_slot config mc cc slots name slot ns :
  ranges_ok mc cc slots → slot < slots → hm_get (config_servers config) name = Some ns →
  base_server config mc cc name slot = Ok (slot_server config mc cc name (server_host ns) slot).
Proof.
  intros Hr Hslot Hns. destruct (slot_subnet_wf _ _ _ _ Hr Hslot) as [Hs Hw].
  unfold base_server, CONTAINER_SERVER_PREFIX. rewrite Hns, Hs. cbn [expect ok_or].
  rewrite !address_spec by (done || apply (ro_mc _ _ _ Hr)). pose proof (ro_capacity _ _ _ Hr).
  rewrite (proj2 (N.ltb_lt (slot + 1) _)) by lia. cbn [expect ok_or].
  unfold slot_server. by rewrite N.add_assoc.
Qed.

(** *** All base servers *)

Definition identity_of (config : Config) (name : string) : string :=
  config_project config +:+ ":" +:+ name.

Lemma identity_of_inj config n1 n2 : identity_of config n1 = identity_of config n2 → n1 = n2.
Proof. unfold identity_of. intros Hi%append_inj_l. by injection Hi. Qed.

Definition base_entry (config : Config) (mc cc : Ipv4Cidr) (assignment : string * N) :
    result (fault NetworkPlanError) (string * ServerPlan) :=
  let? name := expect (strip_prefix (config_project config +:+ ":") assignment.1) in
  let? server := base_server config mc cc name assignment.2 in
  Ok (name, server).

Lemma base_server_step_entry config mc cc m a :
  base_server_step config mc cc m a =
  let? kv := base_entry config mc cc a in Ok (<[kv.1 := kv.2]> m).
Proof.
  unfold base_server_step, base_entry. destruct a as [identity slot]. simpl.
  destruct (expect _) as [name|]; [|done]. by destruct (base_server _ _ _ _ _).
Qed.

Lemma strip_identity config name :
  strip_prefix (config_project config +:+ ":") (identity_of config name) = Some name.
Proof.
  unfold identity_of. rewrite <-strip_prefix_app with (p := config_project config +:+ ":").
  by rewrite append_assoc.
Qed.

Lemma elem_of_server_identities config id :
  id ∈ server_identities config ↔
  ∃ name ns, (name, ns) ∈ config_servers config ∧ id = identity_of config name.
Proof.
  unfold server_identities. rewrite list_elem_of_fmap. split.
  - intros ([name ns] & -> & Hin). by exists name, ns.
  - intros (name & ns & Hin & ->). by exists (name, ns).
Qed.

(** What the base servers are: one per configured server, at the slot of its identity. *)
Definition base_servers_spec (config : Config) (mc cc : Ipv4Cidr) (m : gmap string N)
    (base : gmap string ServerPlan) : Prop :=
  ∀ name s, base !! name = Some s ↔
    ∃ ns slot, hm_get (config_servers config) name = Some ns ∧
      m !! identity_of config name = Some slot ∧
      s = slot_server config mc cc name (server_host ns) slot.

Lemma base_servers_total config mc cc slots m :
  hm_wf (config_servers config) → ranges_ok mc cc slots →
  allocate_bucketed (server_identities config) slots SERVER_BUCKET_CAPACITY "servers" = Ok m →
  ∃ base, try_fold (base_server_step config mc cc) ∅ (btree_list m) = Ok base ∧
          base_servers_spec config mc cc m base.
Proof.
  intros Hwf Hr Ha. destruct (allocate_bucketed_spec _ _ _ _ _ Ha) as (Hdom & Hlt & _).
  assert (∀ id slot, (id, slot) ∈ btree_list m → ∃ name ns, id = identity_of config name ∧
    hm_get (config_servers config) name = Some ns ∧
    base_entry config mc cc (id, slot) =
      Ok (name, slot_server config mc cc name (server_host ns) slot)) as Hentry.
  { intros id slot Hin. apply elem_of_btree_list in Hin.
    destruct (proj1 (elem_of_server_identities config id)) as (name & ns & Hns & ->).
    { apply Hdom. eauto. }
    apply hm_get_elem in Hns; [|done]. exists name, ns. split_and!; [done..|].
    unfold base_entry. simpl. rewrite strip_identity. simpl.
    by rewrite (base_server_slot _ _ _ slots _ _ ns) by eauto. }
  assert (∃ kvs, Forall2 (λ a kv, base_entry config mc cc a = Ok kv) (btree_list m) kvs) as [kvs Hkvs].
  { apply Forall2_total. intros [id slot] Hin. destruct (Hentry id slot Hin) as (? & ? & _ & _ & ?).
    eauto. }
  exists (insert_all ∅ kvs). split.
  { apply (try_fold_inserts _ (base_entry config mc cc)); [|done]. apply base_server_step_entry. }
  assert (∀ name s, (name, s) ∈ kvs ↔ ∃ ns slot, hm_get (config_servers config) name = Some ns ∧
    m !! identity_of config name = Some slot ∧
    s = slot_server config mc cc name (server_host ns) slot) as Hmem.
  { intros name s. split.
    - intros (i & Hi)%list_elem_of_lookup. destruct (Forall2_lookup_r _ _ _ _ _ Hkvs Hi) as ([id slot] & Hl & Hb).
      apply list_elem_of_lookup_2 in Hl. destruct (Hentry _ _ Hl) as (n & ns & -> & Hns & Hb').
      rewrite Hb in Hb'. injection Hb' as -> ->. apply elem_of_btree_list in Hl. eauto.
    - intros (ns & slot & Hns & Hm & ->). apply elem_of_btree_list in Hm as Hin.
      apply list_elem_of_lookup in Hin as Hi. destruct Hi as [i Hi].
      destruct (Forall2_lookup_l _ _ _ _ _ Hkvs Hi) as (kv & Hkv & Hb).
      destruct (Hentry _ _ Hin) as (n & ns' & Hn & Hns' & Hb').
      apply identity_of_inj in Hn as <-. rewrite Hns in Hns'. injection Hns' as <-.
      rewrite Hb in Hb'. injection Hb' as ->. by eapply list_elem_of_lookup_2. }
  intros name s. rewrite <-Hmem. split.
  - intros [?|Hl]%insert_all_inv; [done|]. by rewrite lookup_empty in Hl.
  - intros Hin. destruct (insert_all ∅ kvs !! name) as [s'|] eqn:E.
    + apply insert_all_inv in E as [Hin'|E]; [|by rewrite lookup_empty in E].
      apply Hmem in Hin as (ns & slot & ? & ? & ->), Hin' as (ns' & slot' & ? & ? & ->).
      simplify_eq. done.
    + assert (is_Some (insert_all (∅ : gmap string ServerPlan) kvs !! name)) as [? ?].
      { apply insert_all_is_Some. left. apply list_elem_of_fmap. by exists (name, s). }
      congruence.
Qed.
End servers.

(** ** Lemmas: peers *)

(** The peer entry one server keeps for another. *)
Definition peer_of (snap : Snapshot) : WireGuardPeerPlan :=
  {| peer_server := snap_name snap;
     peer_endpoint := snap_public_host snap +:+ ":" +:+ pretty (snap_wireguard_port snap);
     peer_management_address := snap_management_address snap;
     peer_allowed_ips := [{| network := snap_management_address snap; prefix := 32 |};
                          snap_container_subnet snap] |}.

Definition others (name : string) (snaps : list Snapshot) : list Snapshot :=
  filter (λ snap, snap_name snap ≠ name) snaps.

(** A server with every snapshot but its own added. *)
Definition with_peers (snaps : list Snapshot) (s : ServerPlan) : ServerPlan :=
  {| sp_name := sp_name s; sp_public_host := sp_public_host s;
     sp_management_address := sp_management_address s;
     sp_container_subnet := sp_container_subnet s;
     sp_bridge_gateway := sp_bridge_gateway s; sp_dns_address := sp_dns_address s;
     sp_proxy_address := sp_proxy_address s; sp_wireguard_port := sp_wireguard_port s;
     sp_wireguard_interface := sp_wireguard_interface s;
     sp_bridge_interface := sp_bridge_interface s; sp_bridge_name := sp_bridge_name s;
     sp_peers := sp_peers s ++ (peer_of <$> others (sp_name s) snaps);
     sp_routes := sp_routes s ++
       ((λ snap, {| route_destination := snap_container_subnet snap;
                    route_interface := sp_wireguard_interface s |}) <$> others (sp_name s) snaps);
     sp_firewall :=
       {| local_container_subnet := local_container_subnet (sp_firewall s);
          remote_container_subnets :=
            remote_container_subnets (sp_firewall s) ++
            (snap_container_subnet <$> others (sp_name s) snaps) |} |}.

Lemma others_names name snaps :
  peer_server ∘ peer_of <$> others name snaps = filter (λ n, n ≠ name) (snap_name <$> snaps).
Proof.
  unfold others. induction snaps as [|snap snaps IH]; [done|]. rewrite fmap_cons, !filter_cons.
  destruct (decide (snap_name snap ≠ name)); [|done]. rewrite fmap_cons. by rewrite IH.
Qed.

Lemma with_peers_nil s : with_peers [] s = s.
Proof. destruct s as [???????????? ? [??]]. unfold with_peers. simpl. by rewrite !app_nil_r. Qed.

Lemma add_peer_with s snap snaps :
  snap_management_address snap < 2 ^ 32 →
  ∃ s', add_peer s snap = Ok s' ∧ with_peers snaps s' = with_peers (snap :: snaps) s.
Proof.
  intros Hb. unfold add_peer. case_bool_decide as Hn.
  - exists s. split; [done|]. unfold with_peers, others. by rewrite filter_cons_False by naive_solver.
  - rewrite (proj2 (cidr_new_ok (snap_management_address snap) 32
      {| network := snap_management_address snap; prefix := 32 |} Hb)).
    2:{ split; [done|]. split_and!; simpl; [done|done|]. change (2 ^ 0) with 1. apply N.mod_1_r. }
    eexists. split; [done|]. unfold with_peers, others. cbn [sp_name sp_peers sp_routes sp_firewall
      sp_wireguard_interface local_container_subnet remote_container_subnets sp_public_host
      sp_management_address sp_container_subnet sp_bridge_gateway sp_dns_address sp_proxy_address
      sp_wireguard_port sp_bridge_interface sp_bridge_name].
    rewrite filter_cons_True by done. by rewrite !fmap_cons, <-!app_assoc.
Qed.

Lemma add_peers_with s snaps :
  Forall (λ snap, snap_management_address snap < 2 ^ 32) snaps →
  try_fold add_peer s snaps = Ok (with_peers snaps s).
Proof.
  intros Hb. revert s. induction Hb as [|snap snaps Hs Hb IH]; intros s; simpl.
  - by rewrite with_peers_nil.
  - destruct (add_peer_with s snap snaps Hs) as (s' & -> & <-). apply IH.
Qed.

Lemma populate_with servers :
  map_Forall (λ _ s, sp_management_address s < 2 ^ 32) servers →
  populate_server_networks servers =
  Ok (with_peers (snapshot <$> btree_values servers) <$> servers).
Proof.
  intros Hb. unfold populate_server_networks. set (snaps := snapshot <$> btree_values servers).
  assert (Forall (λ snap, snap_management_address snap < 2 ^ 32) snaps) as Hsn.
  { subst snaps. apply Forall_fmap, Forall_forall. intros s (k & Hk)%elem_of_btree_values.
    by apply (Hb k). }
  set (kvs := prod_map id (with_peers snaps) <$> btree_list servers).
  erewrite (try_fold_inserts _ (λ '(key, server),
    let? server := try_fold add_peer server snaps in Ok (key, server))) with (kvs := kvs).
  - f_equal. apply map_eq. intros k. apply option_eq. intros v. rewrite insert_all_lookup.
    + subst kvs. rewrite <-btree_list_fmap, elem_of_btree_list. change ((btree_list ?m).*1) with (btree_keys m).
      rewrite elem_of_btree_keys.
      split; [intros [?|[Hno Hk]]; [done|]|auto].
      destruct Hno. rewrite lookup_fmap, Hk. eauto.
    + subst kvs. rewrite <-btree_list_fmap. apply NoDup_btree_keys.
  - intros m [key server]. by destruct (try_fold add_peer server snaps).
  - subst kvs. apply Forall2_fmap_r. apply Forall_Forall2_diag, Forall_forall.
    intros [key server] _. simpl. by rewrite add_peers_with.
Qed.

(** ** Lemmas: the whole plan *)

Section whole.
Context `{Sha256}.

(** Everything a successful plan is made of. *)
Record plan_parts (config : Config) (p : NetworkPlan) (m : gmap string N)
    (base : gmap string ServerPlan) (slots : N) : Prop := {
  pp_ranges : ranges_ok (np_management_cidr p) (np_container_cidr p) slots;
  pp_alloc : allocate_bucketed (server_identities config) slots SERVER_BUCKET_CAPACITY "servers" = Ok m;
  pp_base : base_servers_spec config (np_management_cidr p) (np_container_cidr p) m base;
  pp_endpoints : plan_endpoints config base = Ok (np_endpoints p);
  pp_servers : np_servers p = with_peers (snapshot <$> btree_values base) <$> base;
  pp_generation : np_mesh_generation p =
    mesh_generation_checksum (plan_enabled config) (config_project config)
      (np_management_cidr p) (np_container_cidr p) (np_servers p);
  pp_cidrs : plan_cidrs config = Ok (np_management_cidr p, np_container_cidr p);
  pp_slots : plan_slots (np_management_cidr p) (np_container_cidr p) = Ok slots;
  pp_fields : np_enabled p = plan_enabled config ∧ np_project p = config_project config;
}.

Lemma base_management_bound config mc cc slots m base :
  ranges_ok mc cc slots →
  allocate_bucketed (server_identities config) slots SERVER_BUCKET_CAPACITY "servers" = Ok m →
  base_servers_spec config mc cc m base →
  map_Forall (λ _ s, sp_management_address s < 2 ^ 32) base.
Proof.
  intros Hr Ha Hb name s (ns & slot & _ & Hm & ->)%Hb. simpl.
  destruct (allocate_bucketed_spec _ _ _ _ _ Ha) as (_ & Hlt & _). specialize (Hlt _ _ Hm).
  pose proof (ro_capacity _ _ _ Hr) as Hc. rewrite address_count_pow in Hc.
  pose proof (wf_range_bound _ (ro_mc _ _ _ Hr)). lia.
Qed.

(** [plan] after the ranges are known: nothing panics, and the only errors are those of
    the allocation and of the endpoints. *)
Lemma plan_cases config :
  hm_wf (config_servers config) →
  match plan config with
  | Ok p => ∃ m base slots, plan_parts config p m base slots
  | Err (Failed _) => True
  | Err Panic => False
  end.
Proof.
  intros Hwf. unfold plan. destruct (plan_cidrs config) as [[mc cc]|] eqn:Ec; [|done]. simpl.
  destruct (plan_slots mc cc) as [slots|] eqn:Es; [|done]. simpl.
  pose proof (plan_ranges _ _ _ _ Ec Es) as Hr. unfold plan_base_servers.
  destruct (allocate_bucketed _ _ _ _) as [m|e] eqn:Ea.
  - destruct (base_servers_total _ _ _ _ _ Hwf Hr Ea) as (base & -> & Hb).
    destruct (plan_endpoints config base) as [eps|] eqn:Ee; [|done]. simpl.
    rewrite populate_with by by eapply base_management_bound. exists m, base, slots. by constructor.
  - unfold allocate_bucketed in Ea. case_bool_decide; [done|].
    destruct (N.eqb_spec (N.min SERVER_BUCKET_CAPACITY slots) 0) as [Hz|_].
    + pose proof (pow2_pos (21 - prefix cc)). pose proof (ro_slots _ _ _ Hr).
      unfold SERVER_BUCKET_CAPACITY in Hz. lia.
    + apply assign_buckets_err in Ea as (? & ? & _ & _ & ->). done.
Qed.

Lemma plan_parts_of config p :
  hm_wf (config_servers config) → plan config = Ok p →
  ∃ m base slots, plan_parts config p m base slots.
Proof. intros Hwf Hp. pose proof (plan_cases config Hwf) as Hc. by rewrite Hp in Hc. Qed.
End whole.

Section facts.
Context `{Sha256}.

Section one_plan.
Context (config : Config) (p : NetworkPlan) (m : gmap string N)
(base : gmap string ServerPlan) (slots : N) (Hp : plan_parts config p m base slots).
Let mc := np_management_cidr p.
Let cc := np_container_cidr p.

(** A server of the plan is the base server of its slot with the peers added. *)
Lemma plan_server_slot name s :
np_servers p !! name = Some s ↔
∃ ns slot, hm_get (config_servers config) name = Some ns ∧
m !! identity_of config name = Some slot ∧
s = with_peers (snapshot <$> btree_values base)
      (slot_server config mc cc name (server_host ns) slot).
Proof.
rewrite (pp_servers _ _ _ _ _ Hp), lookup_fmap_Some. split.
- intros (s0 & <- & (ns & slot & ? & ? & ->)%(pp_base _ _ _ _ _ Hp)). eauto 10.
- intros (ns & slot & ? & ? & ->). eexists. split; [done|].
apply (pp_base _ _ _ _ _ Hp). eauto 10.
Qed.

Lemma plan_slot_lt name slot : m !! identity_of config name = Some slot → slot < slots.
Proof.
destruct (allocate_bucketed_spec _ _ _ _ _ (pp_alloc _ _ _ _ _ Hp)) as (_ & Hlt & _). apply Hlt.
Qed.

Lemma plan_slot_inj n1 n2 slot :
m !! identity_of config n1 = Some slot → m !! identity_of config n2 = Some slot → n1 = n2.
Proof.
destruct (allocate_bucketed_spec _ _ _ _ _ (pp_alloc _ _ _ _ _ Hp)) as (_ & _ & Hinj).
intros H1 H2. by apply (identity_of_inj config), (Hinj _ _ slot).
Qed.

(** Addresses of a slot stay in the ranges. *)
Lemma slot_subnet_in_range slot a :
slot < slots → in_range (slot_subnet cc slot) a → in_range cc a.
Proof.
intros Hs. pose proof (ro_slots _ _ _ (pp_ranges _ _ _ _ _ Hp)) as Hsl.
pose proof (ro_prefix _ _ _ (pp_ranges _ _ _ _ _ Hp)) as Hpre. fold cc in Hsl, Hpre.
unfold in_range, slot_subnet. simpl network. simpl prefix. change (2 ^ (32 - 21)) with (2 ^ 11).
replace (32 - prefix cc) with ((21 - prefix cc) + 11) by lia. rewrite N.pow_add_r, <-Hsl. nia.
Qed.

Lemma management_in_range slot : slot < slots → in_range mc (network mc + slot + 1).
Proof.
intros Hs. pose proof (ro_capacity _ _ _ (pp_ranges _ _ _ _ _ Hp)) as Hc. fold mc in Hc.
rewrite address_count_pow in Hc. unfold in_range. lia.
Qed.

Lemma ranges_disjoint a : in_range mc a → in_range cc a → False.
Proof.
intros H1 H2. destruct (pp_ranges _ _ _ _ _ Hp) as [Hm Hc Hd _ _ _]. fold mc cc in Hm, Hc, Hd.
assert (overlaps mc cc = true) by (apply overlaps_spec; eauto). congruence.
Qed.

Lemma slot_subnets_disjoint s1 s2 a :
in_range (slot_subnet cc s1) a → in_range (slot_subnet cc s2) a → s1 = s2.
Proof. unfold in_range, slot_subnet. simpl. change (2 ^ (32 - 21)) with 2048. lia. Qed.

Lemma base_snapshots snap :
snap ∈ snapshot <$> btree_values base ↔
∃ name ns slot, hm_get (config_servers config) name = Some ns ∧
m !! identity_of config name = Some slot ∧
snap = snapshot (slot_server config mc cc name (server_host ns) slot).
Proof.
rewrite list_elem_of_fmap. setoid_rewrite elem_of_btree_values. split.
- intros (s & -> & name & (ns & slot & ? & ? & ->)%(pp_base _ _ _ _ _ Hp)). eauto 10.
- intros (name & ns & slot & ? & ? & ->). eexists. split; [done|]. exists name.
apply (pp_base _ _ _ _ _ Hp). eauto 10.
Qed.

Lemma base_snapshot_names : snap_name <$> (snapshot <$> btree_values base) = btree_keys base.
Proof.
unfold btree_values, btree_keys. rewrite <-!list_fmap_compose. apply list_fmap_ext.
intros i [name s] Hi%list_elem_of_lookup_2%elem_of_btree_list. simpl.
apply (pp_base _ _ _ _ _ Hp) in Hi as (? & ? & _ & _ & ->). done.
Qed.

(** The allowed ranges of a peer entry, by slot. *)
Definition slot_allowed (slot : N) : list Ipv4Cidr :=
[{| network := network mc + slot + 1; prefix := 32 |}; slot_subnet cc slot].

Lemma slot_allowed_overlap s1 s2 a b x :
s1 < slots → s2 < slots → a ∈ slot_allowed s1 → b ∈ slot_allowed s2 →
in_range a x → in_range b x → s1 = s2 ∧ a = b.
Proof.
intros H1 H2 Ha Hb Hax Hbx.
assert (∀ s, in_range {| network := network mc + s + 1; prefix := 32 |} x →
        x = network mc + s + 1) as Hone.
{ intros s. unfold in_range. simpl network. simpl prefix. change (2 ^ (32 - 32)) with 1. lia. }
unfold slot_allowed in *.
apply elem_of_cons in Ha as [->|Ha]; apply elem_of_cons in Hb as [->|Hb];
try apply list_elem_of_singleton in Ha as ->; try apply list_elem_of_singleton in Hb as ->.
- apply Hone in Hax, Hbx. assert (s1 = s2) as -> by lia. done.
- apply Hone in Hax as ->. destruct (ranges_disjoint (network mc + s1 + 1)).
+ by apply management_in_range.
+ by apply (slot_subnet_in_range s2).
- apply Hone in Hbx as ->. destruct (ranges_disjoint (network mc + s2 + 1)).
+ by apply management_in_range.
+ by apply (slot_subnet_in_range s1).
- by rewrite (slot_subnets_disjoint s1 s2 x).
Qed.

Lemma slot_allowed_wf slot a : slot < slots → a ∈ slot_allowed slot → cidr_wf a.
Proof.
intros Hs [->|Ha]%elem_of_cons; [|apply list_elem_of_singleton in Ha as ->].
- pose proof (management_in_range slot Hs) as Hr. unfold in_range in Hr.
pose proof (wf_range_bound mc (ro_mc _ _ _ (pp_ranges _ _ _ _ _ Hp))).
split_and!; simpl; [done|lia|]. change (2 ^ 0) with 1. apply N.mod_1_r.
- by eapply slot_subnet_wf; [apply Hp|].
Qed.
End one_plan.

(** A plan is determined by the project, the network section and the set of servers. *)
Lemma plan_servers_unique c d p q :
  hm_wf (config_servers c) → config_project c = config_project d →
  config_network c = config_network d → config_servers c ≡ₚ config_servers d →
  plan c = Ok p → plan d = Ok q →
  np_servers p = np_servers q ∧ np_mesh_generation p = np_mesh_generation q.
Proof.
  intros Hw Hproj Hnet Hsrv Hpc Hpd.
  assert (hm_wf (config_servers d)) as Hwd by (unfold hm_wf; by rewrite <-Hsrv).
  destruct (plan_parts_of _ _ Hw Hpc) as (m & base & slots & P).
  destruct (plan_parts_of _ _ Hwd Hpd) as (m' & base' & slots' & Q).
  pose proof (pp_cidrs _ _ _ _ _ P) as Hc. pose proof (pp_cidrs _ _ _ _ _ Q) as Hd.
  unfold plan_cidrs in Hc, Hd. rewrite <-Hproj, <-Hnet, Hc in Hd. injection Hd as Hmc Hcc.
  pose proof (pp_slots _ _ _ _ _ P) as Hs. pose proof (pp_slots _ _ _ _ _ Q) as Hs'.
  rewrite Hmc, Hcc, Hs' in Hs. injection Hs as ->.
  assert (m' = m) as ->.
  { pose proof (pp_alloc _ _ _ _ _ P) as Ha. pose proof (pp_alloc _ _ _ _ _ Q) as Ha'.
    rewrite (allocate_bucketed_Permutation _ (server_identities d)) in Ha; [congruence|].
    unfold server_identities. by rewrite Hproj, Hsrv. }
  assert (base' = base) as ->.
  { apply map_eq. intros n. apply option_eq. intros s.
    rewrite (pp_base _ _ _ _ _ P n s), (pp_base _ _ _ _ _ Q n s).
    rewrite (hm_get_Permutation _ _ n Hw Hsrv).
    unfold identity_of, slot_server. by rewrite Hproj, Hmc, Hcc. }
  assert (np_servers p = np_servers q) as Heq
    by by rewrite (pp_servers _ _ _ _ _ P), (pp_servers _ _ _ _ _ Q).
  split; [done|].
  rewrite (pp_generation _ _ _ _ _ P), (pp_generation _ _ _ _ _ Q).
  unfold plan_enabled. by rewrite Hproj, Hnet, Hmc, Hcc, Heq.
Qed.
End facts.

(** ** Lemmas: the fingerprint's input *)

Lemma digits256_inj (k : nat) n m :
  (∀ i, (i < k)%nat → n / 256 ^ N.of_nat i mod 256 = m / 256 ^ N.of_nat i mod 256) →
  n mod 256 ^ N.of_nat k = m mod 256 ^ N.of_nat k.
Proof.
  induction k as [|k IH]; intros Hd; [by rewrite !N.mod_1_r|].
  rewrite Nat2N.inj_succ, N.pow_succ_r', (N.mul_comm 256), !N.Div0.mod_mul_r.
  rewrite IH by (intros; apply Hd; lia). by rewrite (Hd k) by lia.
Qed.

Lemma ascii_of_N_inj a b : a < 256 → b < 256 → ascii_of_N a = ascii_of_N b → a = b.
Proof. intros Ha Hb Heq. by rewrite <-(N_ascii_embedding a), <-(N_ascii_embedding b), Heq. Qed.

Lemma be_bytes_inj n m : n < 2 ^ 64 → m < 2 ^ 64 → be_bytes n = be_bytes m → n = m.
Proof.
  intros Hn Hm Heq. rewrite <-(N.mod_small n (256 ^ N.of_nat 8)), <-(N.mod_small m (256 ^ N.of_nat 8)) by done.
  apply digits256_inj. intros i Hi. unfold be_bytes in Heq. cbn [fmap list_fmap String.string_of_list_ascii] in Heq.
  injection Heq as H7 H6 H5 H4 H3 H2 H1 H0.
  assert (i = 0 ∨ i = 1 ∨ i = 2 ∨ i = 3 ∨ i = 4 ∨ i = 5 ∨ i = 6 ∨ i = 7)%nat as Hc by lia.
  destruct Hc as [->|[->|[->|[->|[->|[->|[->| ->]]]]]]];
    apply ascii_of_N_inj; by (apply N.mod_lt || idtac).
Qed.

Lemma append_split (a b c d : string) :
  String.length a = String.length c → a +:+ b = c +:+ d → a = c ∧ b = d.
Proof.
  revert c. induction a as [|x a IH]; intros [|y c]; simpl; try done.
  intros Hl [= -> Heq]. injection Hl as Hl. destruct (IH c Hl Heq) as [-> ->]. done.
Qed.

(** What [hash_fields] feeds to the hasher, from the front. *)
Definition encode_fields (fields : list string) : string :=
  foldr (λ f acc, be_bytes (N.of_nat (String.length f)) +:+ f +:+ acc) "" fields.

Lemma hash_fields_encode h fields : foldl hash_field h fields = h +:+ encode_fields fields.
Proof.
  revert h. induction fields as [|f fields IH]; intros h.
  - change (encode_fields []) with "". change (h = h +:+ ""). induction h as [|c h IHh]; [done|].
    change (String c h = String c (h +:+ "")). by rewrite <-IHh.
  - cbn [foldl]. rewrite IH. unfold hash_field. by rewrite !append_assoc.
Qed.

Lemma encode_fields_inj fs gs :
  Forall (λ f, N.of_nat (String.length f) < 2 ^ 64) fs →
  Forall (λ f, N.of_nat (String.length f) < 2 ^ 64) gs →
  encode_fields fs = encode_fields gs → fs = gs.
Proof.
  intros Hf. revert gs. induction Hf as [|f fs Hlf Hf IH]; intros [|g gs] Hg Heq; [done..|].
  inversion Hg as [|?? Hlg Hg']; subst. cbn [encode_fields foldr] in Heq.
  apply append_split in Heq as [Hlen Heq]; [|done].
  apply be_bytes_inj in Hlen as Hlen%Nat2N.inj; [|done..].
  apply append_split in Heq as [-> Heq]; [|done]. by rewrite (IH gs).
Qed.

(** ** Lemmas: selection *)

Lemma btree_elems_unique {K} `{Countable K, OrdLaws K} (s : gset K) l :
  NoDup l → (∀ x, x ∈ l ↔ x ∈ s) → StronglySorted (λ a b, leb a b = true) l → btree_elems s = l.
Proof.
  intros Hnd Hin Hs. eapply (StronglySorted_unique_strong (λ a b, leb a b = true)).
  - intros x y _ _. apply leb_antisym.
  - apply sort_by_sorted; [apply leb_total|apply leb_trans].
  - done.
  - unfold btree_elems. rewrite sort_by_Permutation. apply NoDup_Permutation; [apply NoDup_elements|done|].
    intros x. by rewrite elem_of_elements, Hin.
Qed.

Lemma StronglySorted_fst {K V} `{Ord K} (l : list (K * V)) :
  StronglySorted (λ a b, key_leb a b = true) l → StronglySorted (λ a b, leb a b = true) l.*1.
Proof.
  induction 1 as [|x l Hl IH Hx]; simpl; constructor; [done|]. by apply Forall_fmap.
Qed.

Section selection.
Context {V : Type} (entries : gmap string V) (hit : string → string → V → bool)
  (unmatched : string → NetworkPlanError).

Definition hits (filter : string) (e : string * V) : bool := hit filter e.1 e.2.

(** The entries some filter hits, in key order. *)
Definition selected_entries (filters : list string) : list (string * V) :=
  filter (λ e, existsb (λ f, hits f e) filters = true) (btree_list entries).

Lemma select_fold_ok sel filters out :
  try_fold (select_step entries hit unmatched) sel filters = Ok out →
  (∀ f, f ∈ filters → ∃ e, e ∈ btree_list entries ∧ hits f e = true) ∧
  (∀ name, name ∈ out ↔ name ∈ sel ∨
     ∃ v f, entries !! name = Some v ∧ f ∈ filters ∧ hits f (name, v) = true).
Proof.
  revert sel. induction filters as [|f filters IH]; intros sel; simpl.
  { intros [= <-]. split; [set_solver|]. intros name. set_solver. }
  unfold select_step at 1. set (found := filter _ (btree_list entries)).
  case_bool_decide as Hnil; [done|]. intros [Hall Hout]%IH. split.
  - intros g [->|Hg]%elem_of_cons; [|by apply Hall].
    destruct found as [|e found'] eqn:Ef; [done|]. exists e.
    assert (e ∈ found) as He by (rewrite Ef; set_solver). subst found.
    apply list_elem_of_filter in He as [? ?]. done.
  - intros name. rewrite Hout, elem_of_union, elem_of_list_to_set, list_elem_of_fmap. split.
    + intros [[?|([n v] & -> & Hin)]|(v & g & ? & ? & ?)]; [by left| |].
      * right. subst found. apply list_elem_of_filter in Hin as [? Hin%elem_of_btree_list].
        exists v, f. set_solver.
      * right. exists v, g. set_solver.
    + intros [?|(v & g & Hv & [->|Hg]%elem_of_cons & Hh)]; [by left; left| |].
      * left; right. exists (name, v). split; [done|]. subst found. apply list_elem_of_filter.
        split; [done|]. by apply elem_of_btree_list.
      * right. by exists v, g.
Qed.

Lemma select_fold_err sel filters e :
  try_fold (select_step entries hit unmatched) sel filters = Err e →
  ∃ f, f ∈ filters ∧ e = unmatched f ∧ ∀ x, x ∈ btree_list entries → hits f x = false.
Proof.
  revert sel. induction filters as [|f filters IH]; intros sel; simpl; [done|].
  unfold select_step at 1. case_bool_decide as Hnil.
  - intros [= <-]. exists f. split_and!; [set_solver|done|]. intros x Hx.
    destruct (hits f x) eqn:Eh; [|done]. apply fmap_nil_inv in Hnil.
    assert (x ∈ filter (λ e : string * V, hit f e.1 e.2 = true) (btree_list entries)) as Hin.
    { by apply list_elem_of_filter. }
    rewrite Hnil in Hin. by apply elem_of_nil in Hin.
  - intros (g & ? & -> & ?)%IH. exists g. set_solver.
Qed.

Lemma selected_keys filters sel :
  try_fold (select_step entries hit unmatched) ∅ filters = Ok sel →
  btree_elems sel = (selected_entries filters).*1.
Proof.
  intros [_ Hsel]%select_fold_ok. apply btree_elems_unique.
  - unfold selected_entries. eapply sublist_NoDup;
      [apply (NoDup_btree_keys entries)|apply fmap_sublist, sublist_filter].
  - intros name. rewrite Hsel, list_elem_of_fmap. setoid_rewrite list_elem_of_filter.
    setoid_rewrite existsb_exists. setoid_rewrite <-list_elem_of_In. split.
    + intros ([n v] & -> & (f & ? & ?) & ?%elem_of_btree_list). right. eauto.
    + intros [?|(v & f & ? & ? & ?)]; [set_solver|]. exists (name, v).
      split_and!; [done|by exists f|by apply elem_of_btree_list].
  - apply StronglySorted_fst, StronglySorted_filter, btree_list_sorted.
Qed.

Lemma omap_lookup_entries (l : list (string * V)) :
  (∀ e, e ∈ l → entries !! e.1 = Some e.2) → omap (λ name, entries !! name) l.*1 = l.*2.
Proof.
  induction l as [|[k v] l IH]; intros Hl; [done|]. simpl.
  pose proof (Hl (k, v) (list_elem_of_here _ _)) as Hkv. simpl in Hkv. rewrite Hkv.
  f_equal. apply IH. set_solver.
Qed.

Lemma select_ok filters vs :
  filters ≠ [] → select entries hit unmatched filters = Ok vs →
  vs = (selected_entries filters).*2 ∧
  (∀ f, f ∈ filters → ∃ e, e ∈ btree_list entries ∧ hits f e = true).
Proof.
  intros Hne. unfold select. rewrite bool_decide_false by done.
  destruct (try_fold _ ∅ filters) as [sel|] eqn:Es; [|done]. intros [= <-]. split.
  - rewrite (selected_keys _ _ Es). apply omap_lookup_entries.
    intros [k v] [_ Hin]%list_elem_of_filter. by apply elem_of_btree_list.
  - by apply select_fold_ok in Es as [? _].
Qed.

Lemma select_err filters e :
  select entries hit unmatched filters = Err e →
  ∃ f, f ∈ filters ∧ e = unmatched f ∧ ∀ x, x ∈ btree_list entries → hits f x = false.
Proof.
  unfold select. case_bool_decide; [done|].
  destruct (try_fold _ ∅ filters) as [sel|] eqn:Es; [done|]. intros [= <-].
  by apply select_fold_err in Es.
Qed.
End selection.

Module PlannerProps.

Section props.
Context `{Sha256}.

(** Planning never panics: none of the [expect] calls, map indexings and divisions
    of the planner can fail, for any configuration, whatever the configured ranges. *)
Theorem plan_never_panics config : hm_wf (config_servers config) → plan config ≠ Err Panic.
Proof.
  intros Hwf Hp. pose proof (plan_cases config Hwf) as Hc. by rewrite Hp in Hc.
Qed.

(** C2: The addresses of a plan do not collide.  The plan has exactly the configured
    servers; the management addresses of different servers differ, lie in the
    management range and are neither its first nor its last address; the container
    subnets of different servers do not overlap and lie in the container range; the
    gateway, DNS and proxy addresses of a server are three different addresses of its
    own subnet. *)
Theorem plan_addresses_do_not_collide config p :
  hm_wf (config_servers config) → plan config = Ok p →
  (∀ name, is_Some (np_servers p !! name) ↔ name ∈ (config_servers config).*1) ∧
  (∀ n1 n2 s1 s2, np_servers p !! n1 = Some s1 → np_servers p !! n2 = Some s2 → n1 ≠ n2 →
     sp_management_address s1 ≠ sp_management_address s2 ∧
     overlaps (sp_container_subnet s1) (sp_container_subnet s2) = false) ∧
  (∀ name s, np_servers p !! name = Some s →
     network (np_management_cidr p) < sp_management_address s
       < network (np_management_cidr p) + address_count (np_management_cidr p) - 1 ∧
     (∀ a, in_range (sp_container_subnet s) a → in_range (np_container_cidr p) a) ∧
     NoDup [sp_bridge_gateway s; sp_dns_address s; sp_proxy_address s] ∧
     Forall (in_range (sp_container_subnet s))
       [sp_bridge_gateway s; sp_dns_address s; sp_proxy_address s]).
Proof.
  intros Hwf Hplan. destruct (plan_parts_of _ _ Hwf Hplan) as (m & base & slots & P). split_and!.
  - intros name. destruct (allocate_bucketed_spec _ _ _ _ _ (pp_alloc _ _ _ _ _ P)) as (Hdom & _).
    rewrite <-hm_contains_key_elem. unfold hm_contains_key. split.
    + intros [s (ns & slot & -> & _)%(plan_server_slot _ _ _ _ _ P)]. done.
    + destruct (hm_get (config_servers config) name) as [ns|] eqn:Ens; [|done]. intros _.
      apply hm_get_elem in Ens as Hin; [|done].
      destruct (proj2 (Hdom (identity_of config name))) as [slot Hslot].
      { apply elem_of_server_identities. eauto. }
      eexists. apply (plan_server_slot _ _ _ _ _ P). eauto 10.
  - intros n1 n2 s1 s2 (ns1 & k1 & _ & Hk1 & ->)%(plan_server_slot _ _ _ _ _ P)
      (ns2 & k2 & _ & Hk2 & ->)%(plan_server_slot _ _ _ _ _ P) Hne. simpl.
    assert (k1 ≠ k2) as Hk by (intros ->; by eapply Hne, plan_slot_inj).
    split; [lia|]. apply not_true_iff_false. intros Ho.
    pose proof (plan_slot_lt _ _ _ _ _ P _ _ Hk1). pose proof (plan_slot_lt _ _ _ _ _ P _ _ Hk2).
    apply overlaps_spec in Ho as (a & Ha & Hb); [|by eapply slot_subnet_wf; [apply P|]..].
    by apply Hk, (slot_subnets_disjoint p _ _ a).
  - intros name s (ns & k & _ & Hk & ->)%(plan_server_slot _ _ _ _ _ P). simpl.
    pose proof (plan_slot_lt _ _ _ _ _ P _ _ Hk) as Hlt.
    pose proof (ro_capacity _ _ _ (pp_ranges _ _ _ _ _ P)). split_and!; [lia|lia| | |].
    + intros a. by apply (slot_subnet_in_range _ _ _ _ _ P).
    + repeat (apply NoDup_cons; split; [rewrite ?elem_of_cons, elem_of_nil; lia|]). constructor.
    + rewrite !Forall_cons, Forall_nil. unfold in_range, slot_subnet. simpl network. simpl prefix.
      change (2 ^ (32 - 21)) with 2048. lia.
Qed.

(** The WireGuard mesh is complete and unambiguous.  Every server has one peer entry
    for each other server, in name order; an entry carries the other server's public
    host, port, management address and container subnet; the routes and the remote
    firewall set are the subnets of the peers; and no two allowed ranges on an interface
    overlap, so that every destination address selects one peer. *)
Theorem plan_mesh_is_complete config p name s :
  hm_wf (config_servers config) → plan config = Ok p → np_servers p !! name = Some s →
  peer_server <$> sp_peers s = filter (λ n, n ≠ name) (btree_keys (np_servers p)) ∧
  (∀ x, x ∈ sp_peers s → ∃ t, np_servers p !! peer_server x = Some t ∧
     peer_endpoint x = sp_public_host t +:+ ":" +:+ pretty (sp_wireguard_port t) ∧
     peer_management_address x = sp_management_address t ∧
     peer_allowed_ips x =
       [{| network := sp_management_address t; prefix := 32 |}; sp_container_subnet t]) ∧
  route_destination <$> sp_routes s = remote_container_subnets (sp_firewall s) ∧
  (∀ x y a b, x ∈ sp_peers s → y ∈ sp_peers s → a ∈ peer_allowed_ips x → b ∈ peer_allowed_ips y →
     peer_server x ≠ peer_server y ∨ a ≠ b → overlaps a b = false).
Proof.
  intros Hwf Hplan Hs. destruct (plan_parts_of _ _ Hwf Hplan) as (m & base & slots & P).
  destruct (proj1 (plan_server_slot _ _ _ _ _ P _ _) Hs) as (ns & k & Hns & Hk & Heq).
  clear Hs. subst s. simpl.
  assert (∀ x, x ∈ peer_of <$> others name (snapshot <$> btree_values base) →
    ∃ n ns' slot, hm_get (config_servers config) n = Some ns' ∧
      m !! identity_of config n = Some slot ∧ slot < slots ∧
      x = peer_of (snapshot (slot_server config (np_management_cidr p) (np_container_cidr p) n
                               (server_host ns') slot))) as Hpeer.
  { intros x (snap & -> & [_ Hsnap]%list_elem_of_filter)%list_elem_of_fmap.
    apply (base_snapshots _ _ _ _ _ P) in Hsnap as (n & ns' & slot & ? & Hm & ->).
    pose proof (plan_slot_lt _ _ _ _ _ P _ _ Hm). eauto 10. }
  split_and!.
  - rewrite <-list_fmap_compose.
    transitivity (filter (λ n, n ≠ name) (snap_name <$> (snapshot <$> btree_values base))).
    + apply others_names.
    + rewrite (base_snapshot_names _ _ _ _ _ P), (pp_servers _ _ _ _ _ P).
      unfold btree_keys. by rewrite btree_list_fmap, <-list_fmap_compose.
  - intros x (n & ns' & slot & Hn & Hm & _ & ->)%Hpeer. eexists. split.
    + apply (plan_server_slot _ _ _ _ _ P). eauto 10.
    + done.
  - by rewrite <-list_fmap_compose.
  - intros x y a b (n1 & ns1 & k1 & _ & Hm1 & Hk1 & ->)%Hpeer (n2 & ns2 & k2 & _ & Hm2 & Hk2 & ->)%Hpeer.
    simpl. intros Ha Hb Hne. apply not_true_iff_false. intros Ho.
    change (a ∈ slot_allowed p k1) in Ha. change (b ∈ slot_allowed p k2) in Hb.
    apply overlaps_spec in Ho as (z & Hz1 & Hz2); 
      [|by apply (slot_allowed_wf _ _ _ _ _ P k1)|by apply (slot_allowed_wf _ _ _ _ _ P k2)].
    destruct (slot_allowed_overlap _ _ _ _ _ P k1 k2 a b z) as [-> ->]; try done.
    destruct Hne as [Hne|]; [|done]. by eapply Hne, plan_slot_inj.
Qed.

(** The fingerprint of the mesh, and the whole server plan, depend only on the
    project, the network section and the set of servers: changing services, builder,
    SSH or environment settings, or the order in which the server map is iterated,
    leaves [mesh_generation] and every server's plan as they were. *)
Theorem mesh_generation_ignores_services c d p q :
  hm_wf (config_servers c) → config_project c = config_project d →
  config_network c = config_network d → config_servers c ≡ₚ config_servers d →
  plan c = Ok p → plan d = Ok q →
  np_servers p = np_servers q ∧ np_mesh_generation p = np_mesh_generation q.
Proof. apply plan_servers_unique. Qed.
End props.

(** What is hashed into the fingerprint determines the hashed fields: two sequences
    of fields that feed the same bytes to SHA-256 are the same sequence, because every
    field is preceded by its length. *)
Theorem hashed_fields_are_unambiguous fs gs :
  Forall (λ f, N.of_nat (String.length f) < 2 ^ 64) fs →
  Forall (λ f, N.of_nat (String.length f) < 2 ^ 64) gs →
  hash_fields fs = hash_fields gs → fs = gs.
Proof.
  intros Hf Hg. unfold hash_fields. rewrite !hash_fields_encode. by apply encode_fields_inj.
Qed.

(** Selecting hosts with filters returns, in name order, exactly the servers of the
    plan whose name or public host matches at least one filter, and succeeds only when
    every filter matches some server; a failure names a filter that matches none. *)
Theorem select_hosts_spec p filters :
  filters ≠ [] →
  match select_hosts p filters with
  | Ok servers =>
      servers = (filter (λ e : string * ServerPlan, existsb (λ f, host_hit f e.1 e.2) filters = true)
                   (btree_list (np_servers p))).*2 ∧
      ∀ f, f ∈ filters → ∃ name s, np_servers p !! name = Some s ∧ host_hit f name s = true
  | Err e =>
      ∃ f, f ∈ filters ∧ e = UnmatchedHostFilter f ∧
        ∀ name s, np_servers p !! name = Some s → host_hit f name s = false
  end.
Proof.
  intros Hne. unfold select_hosts. destruct (select _ _ _ _) as [vs|e] eqn:Es.
  - apply select_ok in Es as [-> Hall]; [|done]. split; [done|]. intros f Hf.
    destruct (Hall f Hf) as ([name s] & Hin%elem_of_btree_list & ?). eauto.
  - apply select_err in Es as (f & ? & -> & Hno). exists f. split_and!; [done..|].
    intros name s Hl. by apply (Hno (name, s)), elem_of_btree_list.
Qed.

(** A plan of the sample project. *)
Definition sample_plan : NetworkPlan :=
  Eval vm_compute in
    match @plan constant_sha256 sample_config with
    | Ok p => p
    | Err _ => {| np_enabled := false; np_project := ""; np_management_cidr := {| network := 0; prefix := 0 |};
                  np_container_cidr := {| network := 0; prefix := 0 |}; np_servers := ∅;
                  np_endpoints := ∅; np_mesh_generation := "" |}
    end.

Lemma sample_plan_ok : @plan constant_sha256 sample_config = Ok sample_plan.
Proof. vm_compute. reflexivity. Qed.

Lemma plan_never_panics_witness : @plan constant_sha256 sample_config ≠ Err Panic.
Proof. apply (@plan_never_panics constant_sha256 sample_config), sample_config_wf. Defined.

Lemma plan_addresses_do_not_collide_witness :
  ∃ s1 s2, np_servers sample_plan !! "a" = Some s1 ∧ np_servers sample_plan !! "b" = Some s2 ∧
    sp_management_address s1 ≠ sp_management_address s2.
Proof.
  destruct (np_servers sample_plan !! "a") as [s1|] eqn:H1; [|vm_compute in H1; discriminate H1].
  destruct (np_servers sample_plan !! "b") as [s2|] eqn:H2; [|vm_compute in H2; discriminate H2].
  exists s1, s2. split; [done|]. split; [done|].
  eapply (@plan_addresses_do_not_collide constant_sha256 sample_config sample_plan
    (proj1 sample_config_wf) sample_plan_ok); [exact H1|exact H2|done].
Defined.

Lemma plan_mesh_is_complete_witness :
  ∃ s, np_servers sample_plan !! "a" = Some s ∧ peer_server <$> sp_peers s = ["b"].
Proof.
  destruct (np_servers sample_plan !! "a") as [s|] eqn:Es; [|vm_compute in Es; discriminate Es].
  exists s. split; [done|].
  rewrite (proj1 (@plan_mesh_is_complete constant_sha256 sample_config sample_plan "a" s
    (proj1 sample_config_wf) sample_plan_ok Es)).
  vm_compute. reflexivity.
Defined.

(** The sample project without its services. *)
Definition sample_without_services : Config :=
  {| config_project := config_project sample_config; config_builder := config_builder sample_config;
     config_servers := reverse (config_servers sample_config); config_services := [];
     config_ssh := None; config_network := None; config_secrets_path := None;
     config_secrets := None; config_environment := None |}.

Lemma mesh_generation_ignores_services_witness :
  ∃ q, @plan constant_sha256 sample_without_services = Ok q ∧
       np_mesh_generation q = np_mesh_generation sample_plan.
Proof.
  destruct (@plan constant_sha256 sample_without_services) as [q|] eqn:Eq;
    [|vm_compute in Eq; discriminate Eq].
  exists q. split; [done|]. symmetry.
  apply (@mesh_generation_ignores_services constant_sha256 sample_config sample_without_services
    sample_plan q (proj1 sample_config_wf) eq_refl eq_refl); [|apply sample_plan_ok|exact Eq].
  simpl. symmetry. apply reverse_Permutation.
Defined.

Lemma hashed_fields_are_unambiguous_witness :
  hash_fields ["ab"; "c"] = hash_fields ["ab"; "c"] ∧ ["ab"; "c"] = ["ab"; "c"].
Proof.
  split; [reflexivity|]. apply hashed_fields_are_unambiguous; [by repeat constructor..|reflexivity].
Defined.

Lemma select_hosts_spec_witness :
  ∃ servers, select_hosts sample_plan ["b*"] = Ok servers ∧
    ∀ f, f ∈ ["b*"] → ∃ name s, np_servers sample_plan !! name = Some s ∧ host_hit f name s = true.
Proof.
  pose proof (select_hosts_spec sample_plan ["b*"] ltac:(done)) as Hs.
  destruct (select_hosts sample_plan ["b*"]) as [servers|] eqn:Es; [|vm_compute in Es; discriminate Es].
  exists servers. split; [done|]. apply Hs.
Defined.

(** Adding a server can move the addresses of the servers that are already there: the
    members of a bucket are numbered in name order, so a server whose name sorts earlier
    takes the slot of a later one.  Here the project with servers [b] gives [b] another
    management address once [a] is added. *)
Theorem adding_a_server_can_move_another :
  ∃ (H : Sha256) (c d : Config) (p q : NetworkPlan) (s t : ServerPlan),
    config_servers d = ("a", sample_server "10.0.0.1") :: config_servers c ∧
    plan c = Ok p ∧ plan d = Ok q ∧
    np_servers p !! "b" = Some s ∧ np_servers q !! "b" = Some t ∧
    sp_management_address s ≠ sp_management_address t.
Proof.
  exists constant_sha256.
  exists {| config_project := "demo"; config_builder := sample_builder;
            config_servers := [("b", sample_server "10.0.0.2")]; config_services := [];
            config_ssh := None; config_network := None; config_secrets_path := None;
            config_secrets := None; config_environment := None |}.
  exists {| config_project := "demo"; config_builder := sample_builder;
            config_servers := [("a", sample_server "10.0.0.1"); ("b", sample_server "10.0.0.2")];
            config_services := []; config_ssh := None; config_network := None;
            config_secrets_path := None; config_secrets := None; config_environment := None |}.
  do 4 eexists. split; [reflexivity|].
  split; [vm_compute; reflexivity|]. split; [vm_compute; reflexivity|].
  split; [vm_compute; reflexivity|]. split; [vm_compute; reflexivity|].
  vm_compute. discriminate.
Qed.

End PlannerProps.
