(* ===== verification/ServiceRuntime.v ===== *)
(** How a container is started: [jiji-network/src/service_runtime.rs], the argument vector
    of [docker run] / [podman run] and its rendering as a shell command.

    The command line is sent to a remote shell, so what matters is that the shell reads
    back exactly the arguments.  [sh_words] is a reference definition of that reading: the
    quoting rules of a POSIX shell, restricted to characters that have no other meaning. *)

From S2P Require Import Prelude Text Cidr Naming Schema Planner.
Open Scope N_scope.

Inductive NetworkTarget := TargetBridge | SharedContainer (name : string) | TargetHost.

Record NetworkedContainerRun := {
  nc_engine : ContainerEngine;
  nc_container_name : string;
  nc_image : string;
  nc_address : N;
  nc_dns_address : N;
  nc_bridge_name : string;
  nc_bridge_interface : string;
  nc_network_target : NetworkTarget;
  nc_extra_args : list string;
  nc_command : list string;
}.

Definition dynamic (engine : ContainerEngine) (container_name image : string) (address : N)
    (server : ServerPlan) : NetworkedContainerRun :=
  {| nc_engine := engine; nc_container_name := container_name; nc_image := image;
     nc_address := address; nc_dns_address := sp_dns_address server;
     nc_bridge_name := sp_bridge_name server; nc_bridge_interface := sp_bridge_interface server;
     nc_network_target := TargetBridge; nc_extra_args := []; nc_command := [] |}.

Definition shared (engine : ContainerEngine) (container_name image target_container : string)
    (address : N) (server : ServerPlan) : NetworkedContainerRun :=
  {| nc_engine := engine; nc_container_name := container_name; nc_image := image;
     nc_address := address; nc_dns_address := sp_dns_address server;
     nc_bridge_name := sp_bridge_name server; nc_bridge_interface := sp_bridge_interface server;
     nc_network_target := SharedContainer target_container; nc_extra_args := []; nc_command := [] |}.

Definition host (engine : ContainerEngine) (container_name image : string) (address : N)
    (server : ServerPlan) : NetworkedContainerRun :=
  {| nc_engine := engine; nc_container_name := container_name; nc_image := image;
     nc_address := address; nc_dns_address := sp_dns_address server;
     nc_bridge_name := sp_bridge_name server; nc_bridge_interface := sp_bridge_interface server;
     nc_network_target := TargetHost; nc_extra_args := []; nc_command := [] |}.

Definition dns_args (run : NetworkedContainerRun) : list string :=
  ["--dns"; ipv4_to_string (nc_dns_address run); "--dns-search"; DEFAULT_SERVICE_DOMAIN;
   "--dns-option"; "ndots:1"].

Definition args (run : NetworkedContainerRun) : list string :=
  [engine_to_string (nc_engine run); "run"; "--name"; nc_container_name run] ++
  match nc_network_target run with
  | SharedContainer target => ["--network"; "container:" +:+ target]
  | TargetBridge =>
      ["--network"; nc_bridge_name run; "--ip"; ipv4_to_string (nc_address run)] ++ dns_args run
  | TargetHost => ["--network"; "host"] ++ dns_args run
  end ++ nc_extra_args run ++ [nc_image run] ++ nc_command run.

(** A character the shell takes literally: [is_ascii_alphanumeric] or one of [_-./:@]. *)
Definition is_shell_safe (c : ascii) : bool :=
  is_ascii_alphanumeric c || contains_char c "_-./:@".

(** [value.replace('\'', "'\\''")]. *)
Fixpoint escape_quotes (s : string) : string :=
  match s with
  | EmptyString => EmptyString
  | String c s => if bool_decide (c = "'"%char) then "'\''" +:+ escape_quotes s
                  else String c (escape_quotes s)
  end.

Definition shell_escape (value : string) : string :=
  if negb (bool_decide (value = "")) && forallb is_shell_safe (bytes value) then value
  else "'" +:+ escape_quotes value +:+ "'".

(** [join(" ")]. *)
Fixpoint join (sep : string) (l : list string) : string :=
  match l with
  | [] => ""
  | [x] => x
  | x :: l => x +:+ sep +:+ join sep l
  end.

Definition shell_command (run : NetworkedContainerRun) : string :=
  join " " (shell_escape <$> args run).

(** ** The shell's reading of a command line *)

(** [word] is the word read so far, if one has begun.  An unquoted character that could
    mean something to the shell makes the whole line unreadable. *)
Fixpoint sh_lex (quoted : bool) (word : option string) (s : string) : option (list string) :=
  match s with
  | EmptyString => if quoted then None else Some (option_list word)
  | String c s =>
      let w := default "" word in
      if quoted then
        if bool_decide (c = "'"%char) then sh_lex false (Some w) s
        else sh_lex true (Some (w +:+ String c "")) s
      else if bool_decide (c = "'"%char) then sh_lex true (Some w) s
      else if bool_decide (c = " "%char) then app (option_list word) <$> sh_lex false None s
      else if bool_decide (c = "\"%char) then
        match s with
        | EmptyString => None
        | String c s => sh_lex false (Some (w +:+ String c "")) s
        end
      else if is_shell_safe c then sh_lex false (Some (w +:+ String c "")) s
      else None
  end.

Definition sh_words (s : string) : option (list string) := sh_lex false None s.

(** ** Lemmas *)

Lemma shell_safe_plain c : is_shell_safe c = true → c ≠ "'"%char ∧ c ≠ " "%char ∧ c ≠ "\"%char.
Proof. intros H. split_and!; intros ->; vm_compute in H; discriminate H. Qed.

Lemma append_nil_r s : s +:+ "" = s.
Proof. induction s as [|c s IH]; [done|].
  change (String c (s +:+ "") = String c s). by rewrite IH. Qed.

(** Reading one literal character. *)
Lemma sh_lex_safe c word s :
  is_shell_safe c = true →
  sh_lex false word (String c s) = sh_lex false (Some (default "" word +:+ String c "")) s.
Proof.
  intros Hc. destruct (shell_safe_plain c Hc) as (H1 & H2 & H3). cbn [sh_lex].
  by rewrite !bool_decide_false, Hc.
Qed.

Lemma sh_lex_safe_word v w s :
  forallb is_shell_safe (bytes v) = true →
  sh_lex false (Some w) (v +:+ s) = sh_lex false (Some (w +:+ v)) s.
Proof.
  revert w. induction v as [|c v IH]; intros w Hv.
  - by rewrite append_nil_r.
  - cbn in Hv. apply andb_true_iff in Hv as [Hc Hv].
    change (String c v +:+ s) with (String c (v +:+ s)). rewrite sh_lex_safe by done.
    cbn [default from_option]. rewrite IH by done. by rewrite append_assoc.
Qed.

Lemma sh_lex_quoted v w s :
  sh_lex true (Some w) (escape_quotes v +:+ String "'" s) = sh_lex false (Some (w +:+ v)) s.
Proof.
  revert w. induction v as [|c v IH]; intros w.
  - by rewrite append_nil_r.
  - cbn [escape_quotes]. case_bool_decide as Hc.
    + subst c. change (sh_lex true (Some w) (("'\''" +:+ escape_quotes v) +:+ String "'" s))
        with (sh_lex true (Some (w +:+ String "'" "")) (escape_quotes v +:+ String "'" s)).
      rewrite IH. by rewrite append_assoc.
    + change (String c (escape_quotes v) +:+ String "'" s)
        with (String c (escape_quotes v +:+ String "'" s)).
      cbn [sh_lex]. rewrite bool_decide_false by done. cbn [default from_option].
      rewrite IH. by rewrite append_assoc.
Qed.

(** The shell reads an escaped value as one word, the value. *)
Lemma sh_lex_escape v s : sh_lex false None (shell_escape v +:+ s) = sh_lex false (Some v) s.
Proof.
  unfold shell_escape. destruct (negb _ && _) eqn:E.
  - apply andb_true_iff in E as [Hn Hs]. destruct v as [|c v]; [done|].
    cbn in Hs. apply andb_true_iff in Hs as [Hc Hs].
    change (String c v +:+ s) with (String c (v +:+ s)). rewrite sh_lex_safe by done.
    by rewrite sh_lex_safe_word.
  - change (("'" +:+ escape_quotes v +:+ "'") +:+ s)
      with (String "'" ((escape_quotes v +:+ "'") +:+ s)).
    rewrite append_assoc. cbn [sh_lex]. rewrite bool_decide_true by done.
    apply (sh_lex_quoted v "" s).
Qed.

Lemma sh_words_join l : l ≠ [] → sh_words (join " " (shell_escape <$> l)) = Some l.
Proof.
  unfold sh_words. induction l as [|x l IH]; intros Hne; [done|]. destruct l as [|y l].
  - cbn. rewrite <-(append_nil_r (shell_escape x)), sh_lex_escape. done.
  - change (join " " (shell_escape <$> x :: y :: l))
      with (shell_escape x +:+ String " " (join " " (shell_escape <$> y :: l))).
    rewrite sh_lex_escape. cbn [sh_lex]. rewrite bool_decide_false, bool_decide_true by done.
    rewrite IH by done. done.
Qed.

Module ServiceRuntimeProps.

(** The command line of a container carries exactly its arguments: whatever the image,
    names, labels, mounts and command are, a POSIX shell that reads the rendered line gets
    the argument vector back, word for word, and no character of an argument reaches the
    shell unquoted with a meaning of its own. *)
Theorem shell_command_is_read_back run : sh_words (shell_command run) = Some (args run).
Proof. unfold shell_command. apply sh_words_join. unfold args. done. Qed.

End ServiceRuntimeProps.
