(* ===== verification/Membership.v ===== *)
(** Mesh membership: [jiji-agent/src/membership.rs] (the records, the merge rule
    [MembershipView::apply] and the attribution of peers) and the two functions of
    [jiji-cli/src/commands/network/membership.rs] that produce records
    ([reconcile_record], [compute_decommissions]).

    A view is the pair of its two [BTree] collections; [apply] returns the new view with
    its outcome, or an error that leaves the view as it was. *)

From S2P Require Import Prelude Text Cidr.
Open Scope N_scope.

Definition MEMBERSHIP_PROTOCOL_VERSION : N := 1.
Definition MEMBERSHIP_SCHEMA_VERSION : N := 1.

Inductive MembershipState := Active | Tombstoned.

(** [SocketAddr]: the address and the port. *)
Inductive SocketAddr := SocketV4 (ip port : N) | SocketV6 (ip port : N).

#[export] Instance MembershipState_eq_dec : EqDecision MembershipState.
Proof. solve_decision. Defined.
#[export] Instance SocketAddr_eq_dec : EqDecision SocketAddr.
Proof. solve_decision. Defined.

Record MembershipRecord := {
  project_id : string;
  recovery_epoch : N;
  protocol_version : N;
  schema_version : N;
  node_id : string;
  server_name : string;
  wireguard_public_key : string;
  management_address : N;
  container_subnet : string;
  endpoints : list SocketAddr;
  owner_epoch : N;
  revision : N;
  state : MembershipState;
}.

#[export] Instance MembershipRecord_eq_dec : EqDecision MembershipRecord.
Proof. solve_decision. Defined.

Inductive MembershipError :=
| Serialization
| InvalidRecord
| InvalidSubnet
| ProtocolVersion (v : N)
| SchemaVersion (v : N)
| WrongProject
| RecoveryEpoch (expected actual : N)
| StaleOwnerEpoch
| TombstoneResurrection
| ServerNameClaimed
| ManagementAddressClaimed
| ContainerSubnetClaimed
| WireGuardKeyClaimed.

Definition is_empty (s : string) : bool := bool_decide (s = "").

(** [MembershipRecord::validate]. *)
Definition validate (r : MembershipRecord) : result MembershipError () :=
  if negb (protocol_version r =? MEMBERSHIP_PROTOCOL_VERSION) then
    Err (ProtocolVersion (protocol_version r))
  else if negb (schema_version r =? MEMBERSHIP_SCHEMA_VERSION) then
    Err (SchemaVersion (schema_version r))
  else if is_empty (project_id r) || is_empty (node_id r) || is_empty (server_name r)
          || trim_is_empty (wireguard_public_key r) || bool_decide (endpoints r = [])
          || (revision r =? 0) || (owner_epoch r =? 0) then Err InvalidRecord
  else
    let? _ := map_err (λ _, InvalidSubnet) (cidr_from_str (container_subnet r)) in Ok ().

Record MembershipScope := { scope_project_id : string; scope_recovery_epoch : N }.

Record NodeIdentity := {
  identity_project_id : string;
  identity_recovery_epoch : N;
  identity_node_id : string;
}.
Definition identity_scope (i : NodeIdentity) : MembershipScope :=
  {| scope_project_id := identity_project_id i; scope_recovery_epoch := identity_recovery_epoch i |}.

Inductive MembershipApply := Applied | Duplicate | Superseded.

Record MembershipView := {
  records : gmap string MembershipRecord;
  record_ids : gset string;
}.
Definition MembershipView_default : MembershipView := {| records := ∅; record_ids := ∅ |}.

(** The records in a view, in node order. *)
Definition all (v : MembershipView) : list MembershipRecord := btree_values (records v).
Definition is_active (r : MembershipRecord) : bool := bool_decide (state r = Active).
Definition active (v : MembershipView) : list MembershipRecord :=
  filter (λ r, is_active r = true) (all v).
Definition get (v : MembershipView) (node : string) : option MembershipRecord := records v !! node.

(** One iteration of the loop of [reject_claim_collisions]. *)
Definition reject_claim_collision (candidate : MembershipRecord) (_ : ()) (current : MembershipRecord) :
    result MembershipError () :=
  if bool_decide (node_id current = node_id candidate) then Ok ()
  else if bool_decide (server_name current = server_name candidate) then Err ServerNameClaimed
  else if management_address current =? management_address candidate then Err ManagementAddressClaimed
  else if bool_decide (container_subnet current = container_subnet candidate) then
    Err ContainerSubnetClaimed
  else if bool_decide (wireguard_public_key current = wireguard_public_key candidate) then
    Err WireGuardKeyClaimed
  else Ok ().

Definition reject_claim_collisions (v : MembershipView) (candidate : MembershipRecord) :
    result MembershipError () :=
  try_fold (reject_claim_collision candidate) () (active v).

(** [order]: records of one node compare by epoch, revision, state and content hash. *)
Definition order (r : MembershipRecord) (id : string) : N * (N * (N * string)) :=
  (owner_epoch r, (revision r, (match state r with Active => 0 | Tombstoned => 1 end, id))).

(** [content_hash]: SHA-256 of the JSON of a record, or a serialisation failure. *)
Class ContentHash (A : Type) := { content_hash : A → option string }.

Section membership.
Context `{ContentHash MembershipRecord}.

Definition record_id (r : MembershipRecord) : result MembershipError string :=
  ok_or (content_hash r) Serialization.

Definition insert_record (v : MembershipView) (r : MembershipRecord) (id : string) : MembershipView :=
  {| records := <[node_id r := r]> (records v); record_ids := {[id]} ∪ record_ids v |}.

(** [MembershipView::apply]. *)
Definition apply (v : MembershipView) (r : MembershipRecord) (scope : MembershipScope) :
    result MembershipError (MembershipApply * MembershipView) :=
  let? _ := validate r in
  ensure? bool_decide (project_id r = scope_project_id scope) else WrongProject in
  ensure? recovery_epoch r =? scope_recovery_epoch scope
    else RecoveryEpoch (scope_recovery_epoch scope) (recovery_epoch r) in
  let? id := record_id r in
  if bool_decide (id ∈ record_ids v) then Ok (Duplicate, v)
  else
    let install :=
      let? _ := if is_active r then reject_claim_collisions v r else Ok () in
      Ok (Applied, insert_record v r id) in
    match records v !! node_id r with
    | None => install
    | Some current =>
        if owner_epoch r <? owner_epoch current then Err StaleOwnerEpoch
        else
          let? current_id := record_id current in
          if leb (order r id) (order current current_id) then
            Ok (Superseded, {| records := records v; record_ids := {[id]} ∪ record_ids v |})
          else if bool_decide (state current = Tombstoned) && is_active r
                  && (owner_epoch r =? owner_epoch current) then Err TombstoneResurrection
          else install
    end.

Definition apply_step (scope : MembershipScope) (v : MembershipView) (r : MembershipRecord) :
    result MembershipError MembershipView :=
  let? (_, v) := apply v r scope in Ok v.

Definition from_records (rs : list MembershipRecord) (scope : MembershipScope) :
    result MembershipError MembershipView :=
  try_fold (apply_step scope) MembershipView_default rs.
End membership.

(** ** Attribution of peers *)

Definition find_by_management_address (v : MembershipView) (a : N) : option MembershipRecord :=
  find (λ r, management_address r =? a) (all v).

Inductive RecordProvenance := Local | Verified | Peer (source : SocketAddr).
Inductive ProvenanceError := UnknownPeer | NotOwner.

Definition authenticate (v : MembershipView) (provenance : RecordProvenance) (claimed_owner : string) :
    result ProvenanceError () :=
  match provenance with
  | Local | Verified => Ok ()
  | Peer (SocketV6 _ _) => Err UnknownPeer
  | Peer (SocketV4 source_ip _) =>
      match find_by_management_address v source_ip with
      | None => Err UnknownPeer
      | Some peer => if bool_decide (node_id peer = claimed_owner) then Ok () else Err NotOwner
      end
  end.

(** ** Records the CLI derives from the configuration *)

Definition with_revision (r : MembershipRecord) (epoch rev : N) (st : MembershipState) :
    MembershipRecord :=
  {| project_id := project_id r; recovery_epoch := recovery_epoch r;
     protocol_version := protocol_version r; schema_version := schema_version r;
     node_id := node_id r; server_name := server_name r;
     wireguard_public_key := wireguard_public_key r;
     management_address := management_address r; container_subnet := container_subnet r;
     endpoints := endpoints r; owner_epoch := epoch; revision := rev; state := st |}.

(** [reconcile_record]. *)
Definition reconcile_record (current : option MembershipRecord) (candidate : MembershipRecord) :
    option MembershipRecord :=
  match current with
  | None => Some (with_revision candidate 1 1 Active)
  | Some current =>
      let key_changed := negb (bool_decide (wireguard_public_key current = wireguard_public_key candidate)) in
      let endpoint_changed := negb (bool_decide (endpoints current = endpoints candidate)) in
      let was_tombstoned := bool_decide (state current = Tombstoned) in
      if negb key_changed && negb endpoint_changed && negb was_tombstoned then None
      else if key_changed || was_tombstoned then
        Some (with_revision candidate (u64_add (owner_epoch current) 1) 1 Active)
      else Some (with_revision candidate (owner_epoch current) (u64_add (revision current) 1) Active)
  end.

(** [compute_decommissions]. *)
Definition compute_decommissions (configured : gset string) (v : MembershipView) :
    list MembershipRecord :=
  (λ r, with_revision r (owner_epoch r) (u64_add (revision r) 1) Tombstoned) <$>
  filter (λ r, is_active r && negb (bool_decide (server_name r ∈ configured)) = true) (all v).

(** ** Lemmas *)

(** Two records that may be active at once: they claim nothing in common. *)
Definition no_shared_claim (r s : MembershipRecord) : Prop :=
  server_name r ≠ server_name s ∧ management_address r ≠ management_address s ∧
  container_subnet r ≠ container_subnet s ∧ wireguard_public_key r ≠ wireguard_public_key s.

Lemma no_shared_claim_sym r s : no_shared_claim r s → no_shared_claim s r.
Proof. unfold no_shared_claim. intros (? & ? & ? & ?). split_and!; congruence. Qed.

Lemma reject_claim_collision_ok cand u cur :
  reject_claim_collision cand u cur = Ok () ↔
  node_id cur = node_id cand ∨ no_shared_claim cur cand.
Proof.
  unfold reject_claim_collision, no_shared_claim.
  case_bool_decide; [tauto|]. case_bool_decide; [split; [done|tauto]|].
  destruct (N.eqb_spec (management_address cur) (management_address cand)); [split; [done|tauto]|].
  case_bool_decide; [split; [done|tauto]|]. case_bool_decide; [split; [done|tauto]|]. tauto.
Qed.

Lemma try_fold_unit {E A} (f : () → A → result E ()) u l :
  try_fold f u l = Ok () ↔ ∀ a, a ∈ l → f () a = Ok ().
Proof.
  destruct u. induction l as [|a l IH]; simpl; [set_solver|].
  destruct (f () a) as [[]|e] eqn:Ea.
  - rewrite IH. split; [intros Hl b [->|]%elem_of_cons; eauto|]. intros Hl b Hb. apply Hl. set_solver.
  - split; [done|]. intros Hl. rewrite Hl in Ea by set_solver. done.
Qed.

Lemma elem_of_all v r : r ∈ all v ↔ ∃ n, records v !! n = Some r.
Proof. unfold all. apply elem_of_btree_values. Qed.

Lemma is_active_true r : is_active r = true ↔ state r = Active.
Proof. apply bool_decide_eq_true. Qed.

Lemma elem_of_active v r : r ∈ active v ↔ state r = Active ∧ ∃ n, records v !! n = Some r.
Proof. unfold active. by rewrite list_elem_of_filter, is_active_true, elem_of_all. Qed.

Lemma reject_claim_collisions_ok v cand :
  reject_claim_collisions v cand = Ok () ↔
  ∀ n r, records v !! n = Some r → state r = Active →
    node_id r = node_id cand ∨ no_shared_claim r cand.
Proof.
  unfold reject_claim_collisions. rewrite try_fold_unit.
  setoid_rewrite reject_claim_collision_ok. setoid_rewrite elem_of_active. split; eauto.
  intros Hr r (? & n & ?). eauto.
Qed.

Section lemmas.
Context `{ContentHash MembershipRecord}.

Definition in_scope (scope : MembershipScope) (r : MembershipRecord) : Prop :=
  validate r = Ok () ∧ project_id r = scope_project_id scope ∧
  recovery_epoch r = scope_recovery_epoch scope.

(** The current record of a node, when there is one, has the order [o]. *)
Definition node_order (v : MembershipView) (n : string) : option (N * (N * (N * string))) :=
  r ← records v !! n; id ← content_hash r; Some (order r id).

(** The three ways [apply] succeeds. *)
Inductive apply_result (v : MembershipView) (r : MembershipRecord) (id : string) :
    MembershipApply → MembershipView → Prop :=
| ar_duplicate : id ∈ record_ids v → apply_result v r id Duplicate v
| ar_superseded cur cid :
    id ∉ record_ids v → records v !! node_id r = Some cur → content_hash cur = Some cid →
    leb (order r id) (order cur cid) = true →
    apply_result v r id Superseded
      {| records := records v; record_ids := {[id]} ∪ record_ids v |}
| ar_applied :
    id ∉ record_ids v →
    (state r = Active → reject_claim_collisions v r = Ok ()) →
    (∀ cur, records v !! node_id r = Some cur → ∃ cid, content_hash cur = Some cid ∧
       owner_epoch cur ≤ owner_epoch r ∧ ltb (order cur cid) (order r id) = true ∧
       (state cur = Tombstoned → state r = Active → owner_epoch cur < owner_epoch r)) →
    apply_result v r id Applied (insert_record v r id).

Lemma membership_apply_inv v r scope out v' :
  apply v r scope = Ok (out, v') →
  in_scope scope r ∧ ∃ id, content_hash r = Some id ∧ apply_result v r id out v'.
Proof.
  unfold apply. destruct (validate r) as [[]|] eqn:Ev; [|done].
  case_bool_decide as Hp; [|done]. destruct (N.eqb_spec (recovery_epoch r) (scope_recovery_epoch scope)); [|done].
  unfold record_id. destruct (content_hash r) as [id|] eqn:Eh; [|done]. simpl.
  intros Ha. split; [done|]. exists id. split; [done|]. revert Ha.
  case_bool_decide as Hid; [intros [= <- <-]; by constructor|].
  assert (∀ P : Prop, ((state r = Active → reject_claim_collisions v r = Ok ()) →
      out = Applied → v' = insert_record v r id → P) →
    (let? _ := if is_active r then reject_claim_collisions v r else Ok () in
     Ok (Applied, insert_record v r id)) = Ok (out, v') → P) as Hinst.
  { intros P HP. destruct (is_active r) eqn:Ea.
    - destruct (reject_claim_collisions v r) as [[]|]; [|done]. intros [= <- <-]. by apply HP.
    - intros [= <- <-]. apply HP; [|done|done]. intros Hact. apply is_active_true in Hact. congruence. }
  destruct (records v !! node_id r) as [cur|] eqn:Er.
  - destruct (N.ltb_spec (owner_epoch r) (owner_epoch cur)); [done|].
    destruct (content_hash cur) as [cid|] eqn:Ec; [|done]. simpl.
    destruct (leb (order r id) (order cur cid)) eqn:El; [intros [= <- <-]; by econstructor|].
    destruct (_ && _) eqn:Et; [done|]. apply Hinst. intros Hc -> ->. constructor; [done|done|].
    intros cur' Hcur'. rewrite Er in Hcur'. injection Hcur' as <-.
    exists cid. split_and!; [done|done|by rewrite ltb_leb, El|].
    intros Htomb Hact. rewrite bool_decide_true in Et by done.
    apply is_active_true in Hact. rewrite Hact in Et. simpl in Et. apply N.eqb_neq in Et. lia.
  - apply Hinst. intros Hc -> ->. constructor; [done|done|]. intros cur. by rewrite Er.
Qed.

(** *** The invariant *)

Record view_wf (scope : MembershipScope) (v : MembershipView) : Prop := {
  vw_keyed : ∀ n r, records v !! n = Some r → node_id r = n ∧ in_scope scope r;
  vw_ids : ∀ n r, records v !! n = Some r → ∃ id, content_hash r = Some id ∧ id ∈ record_ids v;
  vw_claims : ∀ n1 n2 r1 r2, records v !! n1 = Some r1 → records v !! n2 = Some r2 → n1 ≠ n2 →
    state r1 = Active → state r2 = Active → no_shared_claim r1 r2;
}.

Lemma membership_view_wf_default scope : view_wf scope MembershipView_default.
Proof. split; intros *; simpl; by rewrite ?lookup_empty. Qed.

Lemma view_wf_more_ids scope v ids :
  view_wf scope v → view_wf scope {| records := records v; record_ids := ids ∪ record_ids v |}.
Proof.
  intros [Hk Hi Hc]. split; [done| |done]. simpl. intros n r Hr.
  destruct (Hi n r Hr) as (id & ? & ?). exists id. set_solver.
Qed.

Lemma view_wf_insert scope v r id :
  view_wf scope v → in_scope scope r → content_hash r = Some id →
  (state r = Active → reject_claim_collisions v r = Ok ()) →
  view_wf scope (insert_record v r id).
Proof.
  intros [Hk Hi Hc] Hs Hid Hrej. split; simpl.
  - intros n s [[<- <-]|[_ ?]]%lookup_insert_Some; [done|by apply Hk].
  - intros n s [[<- <-]|[_ Hs']]%lookup_insert_Some; [exists id; set_solver|].
    destruct (Hi n s Hs') as (id' & ? & ?). exists id'. set_solver.
  - assert (∀ n s, node_id r ≠ n → records v !! n = Some s → state s = Active →
      state r = Active → no_shared_claim s r) as Hnew.
    { intros n s Hne Hl Has Har. specialize (Hrej Har).
      rewrite reject_claim_collisions_ok in Hrej. destruct (Hrej n s Hl Has) as [Heq|]; [|done].
      destruct (Hk n s Hl) as [Hn _]. congruence. }
    intros n1 n2 r1 r2 [[<- <-]|[Hn1 H1]]%lookup_insert_Some [[<- <-]|[Hn2 H2]]%lookup_insert_Some;
      intros; [done| | |by eapply Hc].
    + apply no_shared_claim_sym. by eapply Hnew.
    + by eapply Hnew.
Qed.

Lemma membership_apply_view_wf scope v r out v' :
  view_wf scope v → apply v r scope = Ok (out, v') → view_wf scope v'.
Proof.
  intros Hw [Hs (id & Hid & Hr)]%membership_apply_inv. destruct Hr; [done|by apply view_wf_more_ids|].
  by apply view_wf_insert.
Qed.

(** *** Progress of each node *)

Lemma order_epoch r id s sid :
  leb (order r id) (order s sid) = true → owner_epoch r ≤ owner_epoch s.
Proof. intros Hl%prod_leb_fst. by apply N_leb_le in Hl. Qed.

Lemma apply_node_order v r scope out v' n o :
  apply v r scope = Ok (out, v') → node_order v n = Some o →
  ∃ o', node_order v' n = Some o' ∧ leb o o' = true.
Proof.
  intros [_ (id & Hid & Hr)]%membership_apply_inv Ho. destruct Hr as [|cur cid|Hnid Hrej Hcur]; simpl.
  - exists o. by rewrite leb_refl.
  - exists o. unfold node_order in *. simpl. by rewrite leb_refl.
  - unfold node_order in *. simpl. destruct (decide (node_id r = n)) as [<-|Hne].
    + rewrite lookup_insert_eq. simpl. rewrite Hid. simpl. eexists. split; [done|].
      destruct (records v !! node_id r) as [cur|] eqn:Er; [|done]. simpl in Ho.
      destruct (Hcur cur eq_refl) as (cid & Hcid & _ & Hlt & _). rewrite Hcid in Ho.
      injection Ho as <-. apply leb_lt_or_eq. by left.
    + rewrite lookup_insert_ne by done. exists o. by rewrite leb_refl.
Qed.

Lemma apply_epoch v r scope out v' n t :
  apply v r scope = Ok (out, v') → records v !! n = Some t →
  ∃ t', records v' !! n = Some t' ∧ owner_epoch t ≤ owner_epoch t'.
Proof.
  intros [_ (id & Hid & Hr)]%membership_apply_inv Ht. destruct Hr as [|cur cid|Hnid Hrej Hcur]; simpl; [by eauto..|].
  destruct (decide (node_id r = n)) as [<-|Hne].
  - rewrite lookup_insert_eq. exists r. split; [done|].
    by destruct (Hcur t Ht) as (cid & _ & Hle & _).
  - rewrite lookup_insert_ne by done. by exists t.
Qed.

Lemma apply_tombstone v r scope out v' n t :
  apply v r scope = Ok (out, v') → records v !! n = Some t → state t = Tombstoned →
  ∃ t', records v' !! n = Some t' ∧ owner_epoch t ≤ owner_epoch t' ∧
        (state t' = Tombstoned ∨ owner_epoch t < owner_epoch t').
Proof.
  intros [_ (id & Hid & Hr)]%membership_apply_inv Ht Hs. destruct Hr as [|cur cid|Hnid Hrej Hcur]; simpl.
  - exists t. split_and!; [done|lia|by left].
  - exists t. split_and!; [done|lia|by left].
  - destruct (decide (node_id r = n)) as [<-|Hne].
    + rewrite lookup_insert_eq. exists r. split; [done|].
      destruct (Hcur t Ht) as (cid & _ & Hle & _ & Hres). split; [done|].
      destruct (state r) eqn:Er; [right|by left]. by apply Hres.
    + rewrite lookup_insert_ne by done. exists t. split_and!; [done|lia|by left].
Qed.

(** A record whose order is above the node's current one and that does not resurrect a
    tombstone is installed, unless an active node holds one of its claims. *)
Lemma apply_newer v r scope id :
  in_scope scope r → content_hash r = Some id → id ∉ record_ids v →
  (∀ cur, records v !! node_id r = Some cur → ∃ cid, content_hash cur = Some cid ∧
     owner_epoch cur ≤ owner_epoch r ∧ ltb (order cur cid) (order r id) = true ∧
     (state cur = Tombstoned → state r = Active → owner_epoch cur < owner_epoch r)) →
  apply v r scope =
  let? _ := if is_active r then reject_claim_collisions v r else Ok () in
  Ok (Applied, insert_record v r id).
Proof.
  intros (Hv & Hp & He) Hid Hnew Hcur. unfold apply.
  rewrite Hv, bool_decide_true by done. rewrite (proj2 (N.eqb_eq _ _) He).
  unfold record_id. rewrite Hid. simpl. rewrite bool_decide_false by done.
  destruct (records v !! node_id r) as [cur|]; [|done].
  destruct (Hcur cur eq_refl) as (cid & Hcid & Hle & Hlt & Hres).
  rewrite (proj2 (N.ltb_ge _ _) Hle), Hcid. simpl.
  rewrite ltb_leb, negb_true_iff in Hlt. rewrite Hlt.
  destruct (_ && _) eqn:Et; [|done].
  apply andb_true_iff in Et as [[Hts Hact]%andb_true_iff Heq%N.eqb_eq].
  apply bool_decide_eq_true_1 in Hts. apply is_active_true in Hact. specialize (Hres Hts Hact). lia.
Qed.
End lemmas.

Section cli_lemmas.
Context `{ContentHash MembershipRecord}.

Lemma validate_ok r :
  validate r = Ok () ↔
  (validate (with_revision r 1 1 Active) = Ok () ∧ revision r ≠ 0 ∧ owner_epoch r ≠ 0).
Proof.
  unfold validate. simpl. destruct (negb _); [split; [done|by intros []]|].
  destruct (negb _); [split; [done|by intros []]|].
  destruct (is_empty (project_id r)), (is_empty (node_id r)), (is_empty (server_name r)),
    (trim_is_empty (wireguard_public_key r)), (bool_decide (endpoints r = [])); simpl;
    try (split; [done|by intros []]).
  destruct (N.eqb_spec (revision r) 0) as [->|], (N.eqb_spec (owner_epoch r) 0) as [->|]; simpl;
    try (split; [done|intros (_ & ? & ?); congruence]).
  destruct (map_err _ _); split; [done|by intros []|done|by intros []].
Qed.

Lemma in_scope_revision scope r epoch rev st :
  in_scope scope (with_revision r 1 1 Active) → epoch ≠ 0 → rev ≠ 0 →
  in_scope scope (with_revision r epoch rev st).
Proof.
  intros (Hv & Hp & He) ??. split_and!; [|done|done]. apply validate_ok. by split_and!.
Qed.

(** A later revision or a later epoch is a greater order. *)
Lemma order_later r id s sid :
  owner_epoch r < owner_epoch s ∨ (owner_epoch r = owner_epoch s ∧ revision r < revision s) →
  ltb (order r id) (order s sid) = true.
Proof.
  unfold ltb, order, cmp, prod_ord, cmp, N_ord. simpl. intros [Hlt|[-> Hlt]].
  - by rewrite (proj2 (N.compare_lt_iff _ _) Hlt).
  - rewrite N.compare_refl. by rewrite (proj2 (N.compare_lt_iff _ _) Hlt).
Qed.

Lemma u64_succ n : n < u64_max → u64_add n 1 = n + 1.
Proof. intros. apply u64_add_small. unfold u64_max in *. lia. Qed.

Lemma node_id_revision r e k st : node_id (with_revision r e k st) = node_id r.
Proof. done. Qed.

(** What the CLI publishes for a node is above everything the view knows of it. *)
Lemma reconcile_newer scope v cand r id cur :
  view_wf scope v → in_scope scope (with_revision cand 1 1 Active) →
  reconcile_record (get v (node_id cand)) cand = Some r →
  (∀ cur, get v (node_id cand) = Some cur → owner_epoch cur < u64_max ∧ revision cur < u64_max) →
  in_scope scope r ∧ state r = Active ∧
  (records v !! node_id r = Some cur → ∃ cid, content_hash cur = Some cid ∧
     owner_epoch cur ≤ owner_epoch r ∧ ltb (order cur cid) (order r id) = true ∧
     (state cur = Tombstoned → state r = Active → owner_epoch cur < owner_epoch r)).
Proof.
  intros Hw Hc Hr Hb. unfold get in *. destruct (records v !! node_id cand) as [cur'|] eqn:Ecur.
  2:{ injection Hr as <-. split_and!; [done|done|]. simpl. congruence. }
  destruct (Hb cur' eq_refl) as [Hbe Hbr]. destruct (vw_keyed _ _ Hw _ _ Ecur) as [_ Hsc].
  destruct (vw_ids _ _ Hw _ _ Ecur) as (cid & Hcid & _).
  destruct Hsc as [(_ & Hr0 & He0)%validate_ok _].
  simpl in Hr. destruct (negb _ && _ && _) eqn:Enone; [done|].
  destruct (negb _ || _) eqn:Enew; injection Hr as <-; rewrite u64_succ by done.
  - split_and!; [apply in_scope_revision; by try lia|done|]. rewrite node_id_revision, Ecur.
    intros [= <-]. exists cid. simpl. split_and!; [done|lia| |lia].
    apply order_later. simpl. lia.
  - split_and!; [apply in_scope_revision; by try lia|done|]. rewrite node_id_revision, Ecur.
    intros [= <-]. exists cid. simpl. split_and!; [done|lia| |].
    + apply order_later. simpl. lia.
    + intros Ht. rewrite Ht in Enew. by rewrite orb_true_r in Enew.
Qed.

(** Installing tombstones for distinct active nodes, one after the other. *)
Lemma apply_tombstones scope (h : MembershipRecord → string) l v :
  (∀ r, content_hash r = Some (h r)) → NoDup (h <$> l) →
  NoDup (node_id <$> l) → view_wf scope v →
  (∀ r, r ∈ l → h r ∉ record_ids v ∧ state r = Tombstoned ∧ in_scope scope r ∧
     ∃ cur, records v !! node_id r = Some cur ∧ owner_epoch cur = owner_epoch r ∧
            revision cur < revision r) →
  ∃ v', try_fold (apply_step scope) v l = Ok v' ∧
    (∀ r, r ∈ l → records v' !! node_id r = Some r) ∧
    (∀ n, n ∉ node_id <$> l → records v' !! n = records v !! n).
Proof.
  intros Hh. revert v. induction l as [|r l IH]; intros v Hids Hnd Hw Hl.
  { exists v. split_and!; [done|set_solver|done]. }
  rewrite fmap_cons in Hids. apply NoDup_cons in Hids as [Hid Hids].
  rewrite fmap_cons in Hnd. apply NoDup_cons in Hnd as [Hr Hnd].
  destruct (Hl r) as (Hfresh & Hst & Hsc & cur & Hcur & Hep & Hrev); [set_solver|].
  assert (apply v r scope = Ok (Applied, insert_record v r (h r))) as Happ.
  { rewrite (apply_newer _ _ _ (h r)); [|done|done|done|].
    - destruct (is_active r) eqn:Ea; [apply is_active_true in Ea; congruence|done].
    - intros cur' Hcur'. rewrite Hcur in Hcur'. injection Hcur' as <-. exists (h cur).
      split_and!; [done|lia|apply order_later; lia|congruence]. }
  pose proof (membership_apply_view_wf _ _ _ _ _ Hw Happ) as Hw'. simpl. unfold apply_step at 1. rewrite Happ.
  destruct (IH (insert_record v r (h r)) Hids Hnd Hw') as (v' & Hv' & Hin & Hout).
  { intros s Hs. destruct (Hl s) as (Hfs & Hss & Hsc' & curs & Hcs & ?); [set_solver|].
    assert (node_id s ≠ node_id r) as Hne.
    { intros Heq. apply Hr. rewrite <-Heq. by apply list_elem_of_fmap_2. }
    simpl. split_and!; [|done|done|exists curs; by rewrite lookup_insert_ne].
    intros [Heq%elem_of_singleton|]%elem_of_union; [|done]. apply Hid. rewrite <-Heq.
    by apply list_elem_of_fmap_2. }
  exists v'. split_and!; [done| |].
  - intros s [->|Hs]%elem_of_cons; [|by apply Hin]. rewrite Hout by done. simpl.
    by rewrite lookup_insert_eq.
  - intros n [Hne Hn]%not_elem_of_cons. rewrite (Hout n Hn). simpl.
    by rewrite lookup_insert_ne.
Qed.

Lemma NoDup_all_node_ids scope v : view_wf scope v → NoDup (node_id <$> all v).
Proof.
  intros Hw. unfold all, btree_values. rewrite <-list_fmap_compose.
  rewrite (list_fmap_ext _ fst); [apply NoDup_btree_keys|].
  intros i [n r] Hi%list_elem_of_lookup_2%elem_of_btree_list. simpl. by apply (vw_keyed _ _ Hw) in Hi as [? _].
Qed.

Lemma elem_of_decommissions configured v r :
  r ∈ compute_decommissions configured v ↔
  ∃ cur n, records v !! n = Some cur ∧ state cur = Active ∧ server_name cur ∉ configured ∧
    r = with_revision cur (owner_epoch cur) (u64_add (revision cur) 1) Tombstoned.
Proof.
  unfold compute_decommissions. rewrite list_elem_of_fmap. setoid_rewrite list_elem_of_filter.
  setoid_rewrite elem_of_all. setoid_rewrite andb_true_iff. setoid_rewrite is_active_true.
  setoid_rewrite negb_true_iff. setoid_rewrite bool_decide_eq_false. split.
  - intros (cur & -> & [? ?] & n & ?). eauto 10.
  - intros (cur & n & ? & ? & ? & ->). eauto 10.
Qed.
End cli_lemmas.

Module MembershipProps.

Section props.
Context `{ContentHash MembershipRecord}.

(** Receiving a record that [apply] refuses leaves the view as it was. *)
Definition receive (scope : MembershipScope) (v : MembershipView) (r : MembershipRecord) :
    MembershipView :=
  match apply v r scope with Ok (_, v') => v' | Err _ => v end.
Definition receive_all (scope : MembershipScope) (v : MembershipView) (rs : list MembershipRecord) :
    MembershipView := foldl (receive scope) v rs.

Lemma membership_receive_all_invariant (I : MembershipView → Prop) scope v rs :
  (∀ v r out v', I v → apply v r scope = Ok (out, v') → I v') → I v → I (receive_all scope v rs).
Proof.
  intros Hstep. revert v. induction rs as [|r rs IH]; intros v HI; [done|]. apply IH. simpl.
  unfold receive. destruct (apply v r scope) as [[out v']|] eqn:Ea; [|done]. by eapply Hstep.
Qed.

(** C1: Whatever records arrive, in whatever order, refused ones included, the view
    stays consistent: every stored record is valid, belongs to the project and recovery
    epoch and is filed under its own node, and no two active nodes share a server name,
    a management address, a container subnet or a WireGuard key. *)
Theorem membership_claims_stay_unique scope rs :
  let v := receive_all scope MembershipView_default rs in
  (∀ n r, get v n = Some r → node_id r = n ∧ in_scope scope r) ∧
  (∀ r1 r2, r1 ∈ active v → r2 ∈ active v → node_id r1 ≠ node_id r2 → no_shared_claim r1 r2).
Proof.
  simpl. assert (view_wf scope (receive_all scope MembershipView_default rs)) as [Hk Hi Hc].
  { apply membership_receive_all_invariant; [|apply membership_view_wf_default].
    intros v r out v'. apply membership_apply_view_wf. }
  split; [done|]. intros r1 r2 [H1 [n1 Hn1]]%elem_of_active [H2 [n2 Hn2]]%elem_of_active Hne.
  apply (Hc n1 n2); try done. intros ->. rewrite Hn1 in Hn2. by simplify_eq.
Qed.

(** A tombstone fences its node: after any further records, the node is still
    tombstoned or has moved to a strictly greater owner epoch, and the owner epoch of a
    node never goes back. *)
Theorem tombstones_are_sticky scope v rs n t :
  get v n = Some t → state t = Tombstoned →
  ∃ t', get (receive_all scope v rs) n = Some t' ∧ owner_epoch t ≤ owner_epoch t' ∧
        (state t' = Tombstoned ∨ owner_epoch t < owner_epoch t').
Proof.
  intros Ht Hs.
  apply (membership_receive_all_invariant (λ w, ∃ t', get w n = Some t' ∧ owner_epoch t ≤ owner_epoch t' ∧
    (state t' = Tombstoned ∨ owner_epoch t < owner_epoch t'))).
  - clear v Ht. intros v r out v' (t1 & Ht1 & Hle & Hor) Ha. destruct (state t1) eqn:Es1.
    + destruct Hor as [?|Hlt]; [congruence|].
      destruct (apply_epoch v r scope out v' n t1 Ha Ht1) as (t2 & Ht2 & Hle2).
      exists t2. split_and!; [done|lia|right; lia].
    + destruct (apply_tombstone _ _ _ _ _ _ _ Ha Ht1 Es1) as (t2 & Ht2 & Hle2 & Hor2).
      exists t2. split_and!; [done|lia|]. destruct Hor2; [by left|right; lia].
  - exists t. split_and!; [done|lia|by left].
Qed.

(** Receiving a record twice is receiving it once: after a successful [apply] the
    same record is a duplicate that changes nothing, and no [apply] moves any node to a
    smaller (epoch, revision, state, hash). *)
Theorem apply_is_idempotent_and_monotone v r scope out v' :
  apply v r scope = Ok (out, v') →
  apply v' r scope = Ok (Duplicate, v') ∧
  ∀ n o, node_order v n = Some o → ∃ o', node_order v' n = Some o' ∧ leb o o' = true.
Proof.
  intros Ha. split; [|by intros n o; apply (apply_node_order v r scope out)].
  apply membership_apply_inv in Ha as [(Hv & Hp & He) (id & Hid & Hr)]. unfold apply.
  rewrite Hv, bool_decide_true by done. rewrite (proj2 (N.eqb_eq _ _) He).
  unfold record_id. rewrite Hid. simpl. rewrite bool_decide_true; [done|].
  destruct Hr; simpl; set_solver.
Qed.

(** The record the CLI derives for a server is one the agent takes: it is never
    refused as stale, superseded or a resurrection, even when the node was tombstoned
    before; [apply] installs it unless an active node holds one of its claims. *)
Theorem reconciled_record_is_accepted scope v cand r id :
  view_wf scope v → in_scope scope (with_revision cand 1 1 Active) →
  (∀ cur, get v (node_id cand) = Some cur → owner_epoch cur < u64_max ∧ revision cur < u64_max) →
  reconcile_record (get v (node_id cand)) cand = Some r →
  content_hash r = Some id → id ∉ record_ids v →
  apply v r scope =
  let? _ := reject_claim_collisions v r in Ok (Applied, insert_record v r id).
Proof.
  intros Hw Hc Hb Hr Hid Hnew.
  assert (in_scope scope r ∧ state r = Active) as [Hsc Hact].
  { by destruct (reconcile_newer scope v cand r id cand Hw Hc Hr Hb) as (? & ? & _). }
  rewrite (apply_newer v r scope id Hsc Hid Hnew).
  - apply is_active_true in Hact. by rewrite Hact.
  - intros cur. by apply (reconcile_newer scope v cand r id cur Hw Hc Hr Hb).
Qed.

(** Decommissioning removes exactly the servers that left the configuration: applying
    the computed tombstones succeeds, afterwards every active record belongs to a
    configured server, and the records of all other nodes are what they were. *)
Theorem decommissions_remove_unconfigured scope v configured (h : MembershipRecord → string) :
  view_wf scope v → (∀ r, content_hash r = Some (h r)) →
  (∀ n r, get v n = Some r → revision r < u64_max) →
  NoDup (h <$> compute_decommissions configured v) →
  (∀ r, r ∈ compute_decommissions configured v → h r ∉ record_ids v) →
  ∃ v', try_fold (apply_step scope) v (compute_decommissions configured v) = Ok v' ∧
    (∀ r, r ∈ active v' → server_name r ∈ configured) ∧
    (∀ n r, get v n = Some r → server_name r ∈ configured ∨ state r = Tombstoned →
       get v' n = Some r).
Proof.
  intros Hw Hh Hb Hnd Hfresh.
  destruct (apply_tombstones scope h (compute_decommissions configured v) v) as (v' & Hv' & Hin & Hout);
    try done.
  { unfold compute_decommissions. rewrite <-list_fmap_compose.
    eapply sublist_NoDup; [by apply (NoDup_all_node_ids scope v)|].
    rewrite (list_fmap_ext _ node_id) by done. apply fmap_sublist, sublist_filter. }
  { intros r Hr. split; [by apply Hfresh|]. apply elem_of_decommissions in Hr
      as (cur & n & Hcur & Hact & _ & ->). destruct (vw_keyed _ _ Hw _ _ Hcur) as [<- Hsc].
    rewrite u64_succ by by eapply Hb. split_and!; [done| |].
    - destruct Hsc as ((Hv1 & Hr0 & He0)%validate_ok & Hp & He).
      apply in_scope_revision; [by split_and!|done|lia].
    - exists cur. simpl. split_and!; [done|done|lia]. }
  exists v'. split; [done|].
  assert (∀ n r, records v !! n = Some r → n ∈ node_id <$> compute_decommissions configured v →
    state r = Active ∧ server_name r ∉ configured) as Hdec.
  { intros n r Hr (d & -> & Hd)%list_elem_of_fmap.
    apply elem_of_decommissions in Hd as (cur & n' & Hcur & ? & ? & ->).
    destruct (vw_keyed _ _ Hw _ _ Hcur) as [<- _]. simpl in Hr. by simplify_eq. }
  split.
  - intros r [Hact [n Hn]]%elem_of_active.
    destruct (decide (n ∈ node_id <$> compute_decommissions configured v)) as [Hd|Hd].
    + apply list_elem_of_fmap in Hd as (d & -> & Hd). rewrite (Hin d Hd) in Hn. injection Hn as <-.
      apply elem_of_decommissions in Hd as (cur & n' & _ & _ & _ & ->). done.
    + rewrite Hout in Hn by done. destruct (decide (server_name r ∈ configured)); [done|].
      destruct Hd. apply list_elem_of_fmap.
      exists (with_revision r (owner_epoch r) (u64_add (revision r) 1) Tombstoned). split.
      * simpl. by destruct (vw_keyed _ _ Hw _ _ Hn) as [-> _].
      * apply elem_of_decommissions. eauto 10.
  - intros n r Hr Hkeep. unfold get. rewrite Hout; [done|]. intros Hd.
    destruct (Hdec n r Hr Hd) as [? ?]. destruct Hkeep; congruence.
Qed.

(** A peer is attributed by its source address: when [authenticate] accepts a record
    from a mesh address, the claimed owner is a known member whose management address is
    that source; and it accepts every claim of a member whose address no other record,
    active or tombstoned, carries. *)
Theorem authenticate_attributes_by_address scope v ip port owner :
  view_wf scope v →
  (authenticate v (Peer (SocketV4 ip port)) owner = Ok () →
     ∃ r, get v owner = Some r ∧ management_address r = ip) ∧
  (∀ r, get v owner = Some r → management_address r = ip →
     (∀ n s, get v n = Some s → management_address s = ip → n = owner) →
     authenticate v (Peer (SocketV4 ip port)) owner = Ok ()).
Proof.
  intros Hw. unfold authenticate, find_by_management_address, get. split.
  - destruct (find _ (all v)) as [peer|] eqn:Ef; [|done]. case_bool_decide as Ho; [|done]. intros _.
    apply find_some in Ef as [Hin Ha%N.eqb_eq]. apply list_elem_of_In, elem_of_all in Hin as [n Hn].
    destruct (vw_keyed _ _ Hw _ _ Hn) as [<- _]. exists peer. by rewrite <-Ho.
  - intros r Hr Ha Huniq. destruct (find _ (all v)) as [peer|] eqn:Ef.
    + apply find_some in Ef as [Hin Hpa%N.eqb_eq]. apply list_elem_of_In, elem_of_all in Hin as [n Hn].
      destruct (vw_keyed _ _ Hw _ _ Hn) as [Hk _]. rewrite bool_decide_true; [done|].
      rewrite Hk. by apply (Huniq n peer).
    + assert (r ∈ all v) as Hin by (apply elem_of_all; eauto).
      apply list_elem_of_In in Hin. apply (find_none _ _ Ef), N.eqb_neq in Hin. done.
Qed.
End props.

(** A concrete content hash, for evaluating the definitions. *)
Definition sample_hash : ContentHash MembershipRecord :=
  {| content_hash r := Some (node_id r +:+ ":" +:+ pretty (owner_epoch r) +:+ ":" +:+ pretty (revision r)
       +:+ match state r with Active => "A" | Tombstoned => "T" end) |}.
Definition sample_scope : MembershipScope := {| scope_project_id := "demo"; scope_recovery_epoch := 1 |}.
Definition sample_record (node : string) (address : N) (subnet : string) (epoch rev : N)
    (st : MembershipState) : MembershipRecord :=
  {| project_id := "demo"; recovery_epoch := 1; protocol_version := 1; schema_version := 1;
     node_id := node; server_name := node; wireguard_public_key := "key-" +:+ node;
     management_address := address; container_subnet := subnet;
     endpoints := [SocketV4 1 51820]; owner_epoch := epoch; revision := rev; state := st |}.
Definition sample_a : MembershipRecord := sample_record "a" 1001 "100.64.0.0/21" 1 1 Active.
Definition sample_b : MembershipRecord := sample_record "b" 1002 "100.64.8.0/21" 1 1 Active.
Definition sample_view : MembershipView :=
  @receive_all sample_hash sample_scope MembershipView_default [sample_a; sample_b].

Lemma sample_view_wf : @view_wf sample_hash sample_scope sample_view.
Proof.
  unfold sample_view. apply (@membership_receive_all_invariant sample_hash (@view_wf sample_hash sample_scope)).
  - intros v r out v'. apply membership_apply_view_wf.
  - apply membership_view_wf_default.
Qed.

Lemma tombstones_are_sticky_witness :
  let t := sample_record "a" 1001 "100.64.0.0/21" 1 2 Tombstoned in
  let v := @receive_all sample_hash sample_scope sample_view [t] in
  ∃ t', get (@receive_all sample_hash sample_scope v [sample_a]) "a" = Some t' ∧
    owner_epoch t ≤ owner_epoch t' ∧ (state t' = Tombstoned ∨ owner_epoch t < owner_epoch t').
Proof. apply (@tombstones_are_sticky sample_hash); reflexivity. Defined.

Lemma apply_is_idempotent_and_monotone_witness :
  ∃ v', @apply sample_hash sample_view (sample_record "a" 1001 "100.64.0.0/21" 1 2 Active) sample_scope
        = Ok (Applied, v') ∧
        @apply sample_hash v' (sample_record "a" 1001 "100.64.0.0/21" 1 2 Active) sample_scope
        = Ok (Duplicate, v').
Proof.
  eexists. split; [vm_compute; reflexivity|].
  eapply (@apply_is_idempotent_and_monotone sample_hash sample_view). vm_compute. reflexivity.
Defined.

Lemma reconciled_record_is_accepted_witness :
  let cand := sample_record "c" 1003 "100.64.16.0/21" 7 7 Tombstoned in
  let r := with_revision cand 1 1 Active in
  @apply sample_hash sample_view r sample_scope = Ok (Applied, insert_record sample_view r "c:1:1A").
Proof.
  simpl. etransitivity.
  - apply (@reconciled_record_is_accepted sample_hash sample_scope sample_view
      (sample_record "c" 1003 "100.64.16.0/21" 7 7 Tombstoned) _ "c:1:1A" sample_view_wf).
    + split_and!; vm_compute; reflexivity.
    + intros cur Hc. vm_compute in Hc. discriminate Hc.
    + reflexivity.
    + reflexivity.
    + apply (bool_decide_unpack _). vm_compute. exact I.
  - vm_compute. reflexivity.
Defined.

Lemma decommissions_remove_unconfigured_witness :
  ∃ v', try_fold (@apply_step sample_hash sample_scope) sample_view
          (compute_decommissions {["b"]} sample_view) = Ok v' ∧
        ∀ r, r ∈ active v' → server_name r ∈ ({["b"]} : gset string).
Proof.
  destruct (@decommissions_remove_unconfigured sample_hash sample_scope sample_view {["b"]}
    (λ r, node_id r +:+ ":" +:+ pretty (owner_epoch r) +:+ ":" +:+ pretty (revision r)
       +:+ match state r with Active => "A" | Tombstoned => "T" end) sample_view_wf)
    as (v' & Hv & Ha & _).
  - reflexivity.
  - intros n r Hr. assert (map_Forall (λ _ r, revision r < u64_max) (records sample_view)) as Hall.
    { apply (bool_decide_unpack _). vm_compute. exact I. }
    by apply (Hall n).
  - apply (bool_decide_unpack _). vm_compute. exact I.
  - assert (Forall (λ r, (node_id r +:+ ":" +:+ pretty (owner_epoch r) +:+ ":" +:+ pretty (revision r)
       +:+ match state r with Active => "A" | Tombstoned => "T" end) ∉ record_ids sample_view)
       (compute_decommissions {["b"]} sample_view)) as Hall.
    { apply (bool_decide_unpack _). vm_compute. exact I. }
    rewrite Forall_forall in Hall. exact Hall.
  - by exists v'.
Defined.

Lemma authenticate_attributes_by_address_witness :
  authenticate sample_view (Peer (SocketV4 1001 9)) "a" = Ok ().
Proof.
  destruct (@authenticate_attributes_by_address sample_hash sample_scope sample_view 1001 9 "a"
    sample_view_wf) as [_ Hok].
  eapply Hok; [vm_compute; reflexivity|reflexivity|].
  intros n s Hs Ha.
  assert (map_Forall (λ n s, management_address s = 1001 → n = "a") (records sample_view)) as Hall.
  { apply (bool_decide_unpack _). vm_compute. exact I. }
  by apply (Hall n s).
Defined.

(** A retired node shadows a live one that was given its address: after node [a] is
    tombstoned and its management address passes to node [b], a record that [b] sends from
    that address is refused as not its own, because the lookup by address does not look at
    the state of the records it finds. *)
Theorem tombstoned_node_shadows_its_address :
  ∃ (H : ContentHash MembershipRecord) rs r,
    let v := receive_all sample_scope MembershipView_default rs in
    get v "b" = Some r ∧ state r = Active ∧
    authenticate v (Peer (SocketV4 (management_address r) 9)) "b" = Err NotOwner.
Proof.
  exists sample_hash.
  exists [sample_a; with_revision sample_a 1 2 Tombstoned; sample_record "b" 1001 "100.64.8.0/21" 1 1 Active].
  exists (sample_record "b" 1001 "100.64.8.0/21" 1 1 Active). cbv zeta.
  split; [vm_compute; reflexivity|]. split; [reflexivity|]. vm_compute. reflexivity.
Qed.

(** A changed address is not a change to the CLI: [reconcile_record] publishes nothing
    for an active node whose key and endpoints are as before, whatever management address
    and container subnet the new plan gives it. *)
Theorem reconcile_ignores_addressing cur cand :
  state cur = Active → wireguard_public_key cur = wireguard_public_key cand →
  endpoints cur = endpoints cand → reconcile_record (Some cur) cand = None.
Proof.
  intros Hs Hk He. simpl. rewrite Hs, !bool_decide_true by done. done.
Qed.

Lemma reconcile_ignores_addressing_witness :
  reconcile_record (Some sample_a) (sample_record "a" 1002 "100.64.8.0/21" 1 1 Active) = None.
Proof. apply reconcile_ignores_addressing; reflexivity. Defined.

End MembershipProps.
