(* ===== verification/Catalog.v ===== *)
(** The service catalog: [jiji-agent/src/catalog.rs].  A record describes one deployment of
    one replica; [CatalogView::apply] merges the records a node receives, and
    [active_healthy] is what DNS and the proxy may answer with. *)

From S2P Require Import Prelude Text Membership.
Open Scope N_scope.

Definition CATALOG_PROTOCOL_VERSION : N := 1.
Definition CATALOG_SCHEMA_VERSION : N := 2.

Inductive DeploymentState := Candidate | Active | Draining | Stopped | Tombstoned.
Inductive HealthState := Unknown | Healthy | Unhealthy.

#[export] Instance DeploymentState_eq_dec : EqDecision DeploymentState.
Proof. solve_decision. Defined.
#[export] Instance HealthState_eq_dec : EqDecision HealthState.
Proof. solve_decision. Defined.

Record CatalogRecord := {
  project_id : string;
  recovery_epoch : N;
  protocol_version : N;
  schema_version : N;
  service : string;
  replica_id : string;
  owner_node_id : string;
  owner_epoch : N;
  revision : N;
  deployment_id : string;
  address : N;
  ports : list N;
  image : string;
  state : DeploymentState;
  health : HealthState;
}.

#[export] Instance CatalogRecord_eq_dec : EqDecision CatalogRecord.
Proof. solve_decision. Defined.

Inductive CatalogError :=
| Serialization
| InvalidRecord
| ProtocolVersion (v : N)
| SchemaVersion (v : N)
| WrongProject
| RecoveryEpoch (expected actual : N)
| UnknownPeer
| NotOwner
| StaleOwnerEpoch
| TombstoneResurrection.

Definition from_provenance_error (e : ProvenanceError) : CatalogError :=
  match e with
  | Membership.UnknownPeer => UnknownPeer
  | Membership.NotOwner => NotOwner
  end.

(** [CatalogRecord::validate]. *)
Definition validate (r : CatalogRecord) : result CatalogError () :=
  if negb (protocol_version r =? CATALOG_PROTOCOL_VERSION) then
    Err (ProtocolVersion (protocol_version r))
  else if negb (schema_version r =? CATALOG_SCHEMA_VERSION) then
    Err (SchemaVersion (schema_version r))
  else if is_empty (project_id r) || is_empty (service r) || is_empty (replica_id r)
          || is_empty (owner_node_id r) || is_empty (deployment_id r)
          || (revision r =? 0) || (owner_epoch r =? 0) then Err InvalidRecord
  else Ok ().

(** Where the records of a view belong: the project, the recovery epoch, and the members. *)
Record CatalogScope := {
  scope_project : string;
  scope_epoch : N;
  scope_members : MembershipView;
}.

Definition verify (r : CatalogRecord) (provenance : RecordProvenance) (scope : CatalogScope) :
    result CatalogError () :=
  let? _ := validate r in
  ensure? bool_decide (project_id r = scope_project scope) else WrongProject in
  ensure? recovery_epoch r =? scope_epoch scope
    else RecoveryEpoch (scope_epoch scope) (recovery_epoch r) in
  map_err from_provenance_error (authenticate (scope_members scope) provenance (owner_node_id r)).

Inductive CatalogApply := Applied | Duplicate | Superseded.

Record CatalogView := {
  records : gmap string CatalogRecord;
  record_ids : gset string;
}.
Definition CatalogView_default : CatalogView := {| records := ∅; record_ids := ∅ |}.

Definition all (v : CatalogView) : list CatalogRecord := btree_values (records v).

Definition is_tombstoned (r : CatalogRecord) : bool := bool_decide (state r = Tombstoned).

Definition order (r : CatalogRecord) (id : string) : N * (N * (N * string)) :=
  (owner_epoch r, (revision r, (if is_tombstoned r then 1 else 0, id))).
Definition record_order (r : CatalogRecord) : N * (N * (N * string)) :=
  order r (deployment_id r).

(** [Iterator::max] on numbers. *)
Definition max_option (l : list N) : option N :=
  foldl (λ acc x, Some match acc with None => x | Some y => N.max y x end) None l.

(** The greatest owner epoch known for a replica. *)
Definition replica_owner_epoch (v : CatalogView) (replica : string) : option N :=
  max_option (owner_epoch <$> filter (λ r, replica_id r = replica) (all v)).

(** [replica_owner_epoch.is_some_and(|epoch| record.owner_epoch < epoch)]. *)
Definition stale_replica_epoch (v : CatalogView) (r : CatalogRecord) : bool :=
  match replica_owner_epoch v (replica_id r) with
  | Some epoch => owner_epoch r <? epoch
  | None => false
  end.

Section catalog.
Context `{ContentHash CatalogRecord}.

Definition record_id (r : CatalogRecord) : result CatalogError string :=
  ok_or (content_hash r) Serialization.

Definition insert_record (v : CatalogView) (r : CatalogRecord) (id : string) : CatalogView :=
  {| records := <[deployment_id r := r]> (records v); record_ids := {[id]} ∪ record_ids v |}.

(** [CatalogView::apply]. *)
Definition apply (v : CatalogView) (r : CatalogRecord) (provenance : RecordProvenance)
    (scope : CatalogScope) : result CatalogError (CatalogApply * CatalogView) :=
  let? _ := verify r provenance scope in
  let? id := record_id r in
  if bool_decide (id ∈ record_ids v) then Ok (Duplicate, v)
  else if stale_replica_epoch v r then Err StaleOwnerEpoch
  else
    match records v !! deployment_id r with
    | None => Ok (Applied, insert_record v r id)
    | Some current =>
        if owner_epoch r <? owner_epoch current then Err StaleOwnerEpoch
        else
          let? current_id := record_id current in
          if leb (order r id) (order current current_id) then
            Ok (Superseded, {| records := records v; record_ids := {[id]} ∪ record_ids v |})
          else if is_tombstoned current && negb (is_tombstoned r)
                  && (owner_epoch r =? owner_epoch current) then Err TombstoneResurrection
          else Ok (Applied, insert_record v r id)
    end.

Definition apply_step (scope : CatalogScope) (v : CatalogView)
    (rp : CatalogRecord * RecordProvenance) : result CatalogError CatalogView :=
  let? (_, v) := apply v rp.1 rp.2 scope in Ok v.

Definition from_records (rs : list (CatalogRecord * RecordProvenance)) (scope : CatalogScope) :
    result CatalogError CatalogView :=
  try_fold (apply_step scope) CatalogView_default rs.
End catalog.

(** ** What may be answered *)

Definition is_active_healthy (r : CatalogRecord) : bool :=
  bool_decide (state r = Active) && bool_decide (health r = Healthy).

Definition win (winners : gmap string CatalogRecord) (r : CatalogRecord) : gmap string CatalogRecord :=
  if match winners !! replica_id r with
     | None => true
     | Some current => ltb (record_order current) (record_order r)
     end
  then <[replica_id r := r]> winners else winners.

(** [active_healthy_winners]: per replica the greatest active and healthy record. *)
Definition active_healthy_winners (rs : list CatalogRecord) : list CatalogRecord :=
  btree_values (foldl win ∅ (filter (λ r, is_active_healthy r = true) rs)).

(** [CatalogView::active_healthy]. *)
Definition active_healthy (v : CatalogView) : list CatalogRecord :=
  active_healthy_winners (all v).

(** [Iterator::max_by_key]: the last of the greatest elements. *)
Definition max_by_key {A K} `{Ord K} (key : A → K) (l : list A) : option A :=
  foldl (λ acc x, Some match acc with
                       | None => x
                       | Some y => if leb (key y) (key x) then x else y
                       end) None l.

(** [CatalogView::get]. *)
Definition get (v : CatalogView) (replica : string) : option CatalogRecord :=
  max_by_key record_order (filter (λ r, replica_id r = replica) (all v)).

(** ** Lemmas *)

Lemma max_option_spec l acc :
  match foldl (λ acc x, Some match acc with None => x | Some y => N.max y x end) acc l with
  | None => acc = None ∧ l = []
  | Some m => (acc = Some m ∨ m ∈ l) ∧ (∀ x, x ∈ l → x ≤ m) ∧ (∀ y, acc = Some y → y ≤ m)
  end.
Proof.
  revert acc. induction l as [|x l IH]; intros acc; simpl.
  { destruct acc; [|done]. split_and!; [by left|set_solver|]. intros y [= ->]. lia. }
  specialize (IH (Some match acc with None => x | Some y => N.max y x end)).
  destruct (foldl _ _ l) as [m|]; [|by destruct IH].
  destruct IH as (Hor & Hl & Hacc). specialize (Hacc _ eq_refl). split_and!.
  - destruct Hor as [[= <-]|?]; [|right; set_solver]. destruct acc as [y|]; [|right; set_solver].
    destruct (N.max_spec y x) as [[_ ->]|[_ ->]]; [right; set_solver|by left].
  - intros z [->|Hz]%elem_of_cons; [|by apply Hl]. destruct acc; lia.
  - intros y ->. lia.
Qed.

Lemma replica_owner_epoch_None v replica :
  replica_owner_epoch v replica = None →
  ∀ d r, records v !! d = Some r → replica_id r ≠ replica.
Proof.
  unfold replica_owner_epoch, max_option. intros Hn d r Hr Heq.
  pose proof (max_option_spec (owner_epoch <$> filter (λ r, replica_id r = replica) (all v)) None) as Hs.
  rewrite Hn in Hs. destruct Hs as [_ Hnil%fmap_nil_inv].
  assert (r ∈ filter (λ r, replica_id r = replica) (all v)) as Hin.
  { apply list_elem_of_filter. split; [done|]. apply elem_of_btree_values. eauto. }
  rewrite Hnil in Hin. by apply elem_of_nil in Hin.
Qed.

Lemma replica_owner_epoch_Some v replica e :
  replica_owner_epoch v replica = Some e →
  (∃ d r, records v !! d = Some r ∧ replica_id r = replica ∧ owner_epoch r = e) ∧
  (∀ d r, records v !! d = Some r → replica_id r = replica → owner_epoch r ≤ e).
Proof.
  unfold replica_owner_epoch, max_option. intros He.
  pose proof (max_option_spec (owner_epoch <$> filter (λ r, replica_id r = replica) (all v)) None) as Hs.
  rewrite He in Hs. destruct Hs as (Hor & Hle & _). split.
  - destruct Hor as [|(r & -> & [Hr Hin]%list_elem_of_filter)%list_elem_of_fmap]; [done|].
    apply elem_of_btree_values in Hin as [d ?]. eauto.
  - intros d r Hr Heq. apply Hle, list_elem_of_fmap. exists r. split; [done|].
    apply list_elem_of_filter. split; [done|]. apply elem_of_btree_values. eauto.
Qed.

(** The record an [apply] lets in is above the epochs of its replica. *)
Lemma epoch_check_spec v r :
  stale_replica_epoch v r = false ↔
  ∀ d c, records v !! d = Some c → replica_id c = replica_id r → owner_epoch c ≤ owner_epoch r.
Proof.
  unfold stale_replica_epoch. destruct (replica_owner_epoch v (replica_id r)) as [e|] eqn:Ee.
  - apply replica_owner_epoch_Some in Ee as [(d & c & Hc & Hr & <-) Hmax]. rewrite N.ltb_ge. split.
    + intros Hle d' c' Hc' Hr'. specialize (Hmax _ _ Hc' Hr'). lia.
    + intros Hall. by eapply Hall.
  - split; [|done]. intros _ d c Hc Hr. by destruct (replica_owner_epoch_None _ _ Ee d c Hc).
Qed.

Section lemmas.
Context `{ContentHash CatalogRecord}.

Definition in_scope (scope : CatalogScope) (r : CatalogRecord) : Prop :=
  validate r = Ok () ∧ project_id r = scope_project scope ∧ recovery_epoch r = scope_epoch scope.

Lemma verify_ok r prov scope :
  verify r prov scope = Ok () ↔
  in_scope scope r ∧ authenticate (scope_members scope) prov (owner_node_id r) = Ok ().
Proof.
  unfold verify, in_scope. destruct (validate r) as [[]|]; [|split; [done|by intros [[] _]]].
  case_bool_decide; [|split; [done|by intros [(_ & ? & _) _]]].
  destruct (N.eqb_spec (recovery_epoch r) (scope_epoch scope));
    [|split; [done|by intros [(_ & _ & ?) _]]].
  destruct (authenticate _ _ _) as [[]|]; simpl; [done|]. split; [done|by intros [_ ?]].
Qed.

(** The three ways [apply] succeeds. *)
Inductive apply_result (v : CatalogView) (r : CatalogRecord) (id : string) :
    CatalogApply → CatalogView → Prop :=
| ar_duplicate : id ∈ record_ids v → apply_result v r id Duplicate v
| ar_superseded cur cid :
    id ∉ record_ids v → records v !! deployment_id r = Some cur → content_hash cur = Some cid →
    leb (order r id) (order cur cid) = true →
    apply_result v r id Superseded
      {| records := records v; record_ids := {[id]} ∪ record_ids v |}
| ar_applied :
    id ∉ record_ids v →
    (∀ d c, records v !! d = Some c → replica_id c = replica_id r → owner_epoch c ≤ owner_epoch r) →
    (∀ cur, records v !! deployment_id r = Some cur → ∃ cid, content_hash cur = Some cid ∧
       owner_epoch cur ≤ owner_epoch r ∧ ltb (order cur cid) (order r id) = true ∧
       (state cur = Tombstoned → state r ≠ Tombstoned → owner_epoch cur < owner_epoch r)) →
    apply_result v r id Applied (insert_record v r id).

Lemma catalog_apply_inv v r prov scope out v' :
  apply v r prov scope = Ok (out, v') →
  verify r prov scope = Ok () ∧ ∃ id, content_hash r = Some id ∧ apply_result v r id out v'.
Proof.
  unfold apply. destruct (verify r prov scope) as [[]|]; [|done].
  unfold record_id. destruct (content_hash r) as [id|]; [|done]. simpl.
  intros Ha. split; [done|]. exists id. split; [done|]. revert Ha.
  case_bool_decide as Hid; [intros [= <- <-]; by constructor|].
  destruct (stale_replica_epoch v r) eqn:Ee; [done|].
  pose proof (proj1 (epoch_check_spec v r) Ee) as Hep. clear Ee. destruct (records v !! deployment_id r) as [cur|] eqn:Er.
  - destruct (N.ltb_spec (owner_epoch r) (owner_epoch cur)); [done|].
    destruct (content_hash cur) as [cid|] eqn:Ec; [|done]. simpl.
    destruct (leb (order r id) (order cur cid)) eqn:El; [intros [= <- <-]; by econstructor|].
    destruct (_ && _) eqn:Et; [done|]. intros [= <- <-]. constructor; [done|done|].
    intros cur' Hcur'. rewrite Er in Hcur'. injection Hcur' as <-.
    exists cid. split_and!; [done|done|by rewrite ltb_leb, El|].
    intros Ht Hnt. unfold is_tombstoned in Et. rewrite bool_decide_true, bool_decide_false in Et by done.
    simpl in Et. apply N.eqb_neq in Et. lia.
  - intros [= <- <-]. constructor; [done|done|]. intros cur. by rewrite Er.
Qed.

Record view_wf (scope : CatalogScope) (v : CatalogView) : Prop := {
  vw_keyed : ∀ d r, records v !! d = Some r → deployment_id r = d ∧ in_scope scope r;
  vw_ids : ∀ d r, records v !! d = Some r → ∃ id, content_hash r = Some id ∧ id ∈ record_ids v;
}.

Lemma catalog_view_wf_default scope : view_wf scope CatalogView_default.
Proof. split; intros *; simpl; by rewrite ?lookup_empty. Qed.

Lemma catalog_apply_view_wf scope v r prov out v' :
  view_wf scope v → apply v r prov scope = Ok (out, v') → view_wf scope v'.
Proof.
  intros [Hk Hi] [[Hs _]%verify_ok (id & Hid & Hr)]%catalog_apply_inv.
  destruct Hr; [done| |]; split; simpl; try done.
  - intros d s Hl. destruct (Hi d s Hl) as (id' & ? & ?). exists id'. set_solver.
  - intros d s [[<- <-]|[_ ?]]%lookup_insert_Some; [done|by apply Hk].
  - intros d s [[<- <-]|[_ Hl]]%lookup_insert_Some; [exists id; set_solver|].
    destruct (Hi d s Hl) as (id' & ? & ?). exists id'. set_solver.
Qed.

(** Nothing is lost: a deployment stays known, at the same or a greater epoch, and a
    tombstone only yields to a greater epoch. *)
Lemma apply_progress v r prov scope out v' d c :
  apply v r prov scope = Ok (out, v') → records v !! d = Some c →
  ∃ c', records v' !! d = Some c' ∧ owner_epoch c ≤ owner_epoch c' ∧
    (state c = Tombstoned → state c' = Tombstoned ∨ owner_epoch c < owner_epoch c').
Proof.
  intros [_ (id & _ & Hr)]%catalog_apply_inv Hc. destruct Hr as [|cur cid|Hid Hep Hcur]; simpl;
    [exists c; split_and!; [done|lia|by left]..|].
  destruct (decide (deployment_id r = d)) as [<-|Hne].
  - rewrite lookup_insert_eq. exists r. destruct (Hcur c Hc) as (cid & _ & Hle & _ & Ht).
    split_and!; [done|done|]. intros Hts. destruct (decide (state r = Tombstoned)); [by left|right; auto].
  - rewrite lookup_insert_ne by done. exists c. split_and!; [done|lia|by left].
Qed.
End lemmas.

(** *** Winners *)

Definition wins (l : list CatalogRecord) (r : CatalogRecord) : Prop :=
  r ∈ l ∧ ∀ s, s ∈ l → replica_id s = replica_id r → leb (record_order s) (record_order r) = true.

Lemma win_fold_spec (l done_ : list CatalogRecord) w :
  (∀ rep r, w !! rep = Some r → replica_id r = rep ∧ wins done_ r) →
  (∀ s, s ∈ done_ → is_Some (w !! replica_id s)) →
  let w' := foldl win w l in
  (∀ rep r, w' !! rep = Some r → replica_id r = rep ∧ wins (done_ ++ l) r) ∧
  (∀ s, s ∈ done_ ++ l → is_Some (w' !! replica_id s)).
Proof.
  revert done_ w. induction l as [|x l IH]; intros done_ w Hw Hd; simpl.
  { by rewrite app_nil_r. }
  rewrite (cons_middle x done_ l), app_assoc. apply IH; clear IH.
  - intros rep r. unfold win. destruct (w !! replica_id x) as [cur|] eqn:Ex.
    + destruct (Hw _ _ Ex) as [Hcr [Hcin Hcmax]].
      destruct (ltb (record_order cur) (record_order x)) eqn:El.
      * intros [[<- <-]|[Hne Hr]]%lookup_insert_Some.
        -- split; [done|]. split; [set_solver|]. intros s [Hs| ->%list_elem_of_singleton]%elem_of_app Hrep.
           ++ apply leb_lt_or_eq. left. eapply leb_ltb_trans; [|exact El]. apply Hcmax; congruence.
           ++ apply leb_refl.
        -- destruct (Hw _ _ Hr) as [<- [Hin Hmax]]. split; [done|]. split; [set_solver|].
           intros s [Hs| ->%list_elem_of_singleton]%elem_of_app Hrep; [by apply Hmax|congruence].
      * intros Hr. destruct (Hw _ _ Hr) as [<- [Hin Hmax]]. split; [done|]. split; [set_solver|].
        intros s [Hs| ->%list_elem_of_singleton]%elem_of_app Hrep; [by apply Hmax|].
        rewrite Hrep, Hr in Ex. injection Ex as ->. rewrite leb_ltb, El. done.
    + intros [[<- <-]|[Hne Hr]]%lookup_insert_Some.
      * split; [done|]. split; [set_solver|]. intros s [Hs| ->%list_elem_of_singleton]%elem_of_app Hrep.
        -- destruct (Hd s Hs) as [? Hsome]. rewrite Hrep in Hsome. congruence.
        -- apply leb_refl.
      * destruct (Hw _ _ Hr) as [<- [Hin Hmax]]. split; [done|]. split; [set_solver|].
        intros s [Hs| ->%list_elem_of_singleton]%elem_of_app Hrep; [by apply Hmax|congruence].
  - intros s Hs. unfold win.
    destruct (match w !! replica_id x with Some _ => _ | None => _ end) eqn:Ew.
    + apply lookup_insert_is_Some'. apply elem_of_app in Hs as [Hs| ->%list_elem_of_singleton]; auto.
    + apply elem_of_app in Hs as [Hs| ->%list_elem_of_singleton]; [by apply Hd|].
      destruct (w !! replica_id x); [done|discriminate].
Qed.

Lemma winners_spec (l : list CatalogRecord) r :
  r ∈ btree_values (foldl win ∅ l) → wins l r.
Proof.
  intros [rep Hr]%elem_of_btree_values.
  destruct (win_fold_spec l [] ∅) as [Hw _].
  - intros rep' r'. by rewrite lookup_empty.
  - set_solver.
  - by apply (Hw rep r).
Qed.

Lemma winners_complete (l : list CatalogRecord) s :
  s ∈ l → ∃ r, r ∈ btree_values (foldl win ∅ l) ∧ replica_id r = replica_id s.
Proof.
  intros Hs. destruct (win_fold_spec l [] ∅) as [Hw Hall].
  - intros rep' r'. by rewrite lookup_empty.
  - set_solver.
  - destruct (Hall s Hs) as [r Hr]. exists r. split; [apply elem_of_btree_values; eauto|].
    by apply (Hw _ r).
Qed.

Lemma winners_unique (l : list CatalogRecord) :
  NoDup (replica_id <$> btree_values (foldl win ∅ l)).
Proof.
  unfold btree_values. rewrite <-list_fmap_compose.
  rewrite (list_fmap_ext _ fst); [apply NoDup_btree_keys|].
  intros i [rep r] Hi%list_elem_of_lookup_2%elem_of_btree_list. simpl.
  destruct (win_fold_spec l [] ∅) as [Hw _]; [intros ??; by rewrite lookup_empty|set_solver|].
  by apply (Hw rep r).
Qed.

Lemma max_by_key_spec {A K} `{OrdLaws K} (key : A → K) (l : list A) acc :
  match foldl (λ acc x, Some match acc with
                             | None => x
                             | Some y => if leb (key y) (key x) then x else y
                             end) acc l with
  | None => acc = None ∧ l = []
  | Some m => (acc = Some m ∨ m ∈ l) ∧ (∀ x, x ∈ l → leb (key x) (key m) = true) ∧
              (∀ y, acc = Some y → leb (key y) (key m) = true)
  end.
Proof.
  revert acc. induction l as [|x l IH]; intros acc; simpl.
  { destruct acc; [|done]. split_and!; [by left|set_solver|]. intros y [= ->]. apply leb_refl. }
  set (best := match acc with None => x | Some y => if leb (key y) (key x) then x else y end).
  assert (leb (key x) (key best) = true ∧ (∀ y, acc = Some y → leb (key y) (key best) = true)) as [Hx Hy].
  { subst best. destruct acc as [y|]; [|split; [apply leb_refl|done]].
    destruct (leb (key y) (key x)) eqn:E; split; intros; simplify_eq; auto using leb_refl.
    destruct (leb_total (key x) (key y)); congruence. }
  assert (acc = Some best ∨ best = x) as Hb.
  { subst best. destruct acc as [y|]; [|by right]. destruct (leb (key y) (key x)); [by right|by left]. }
  specialize (IH (Some best)). destruct (foldl _ _ l) as [m|]; [|by destruct IH].
  destruct IH as (Hor & Hl & Hacc). specialize (Hacc _ eq_refl). split_and!.
  - destruct Hor as [[= <-]|?]; [|right; set_solver]. destruct Hb as [?| ->]; [by left|right; set_solver].
  - intros z [->|Hz]%elem_of_cons; [|by apply Hl]. eapply leb_trans; [exact Hx|exact Hacc].
  - intros y Hacc'. eapply leb_trans; [by apply Hy|exact Hacc].
Qed.

Module CatalogProps.

Section props.
Context `{ContentHash CatalogRecord}.

(** Receiving a record that [apply] refuses leaves the view as it was. *)
Definition receive (scope : CatalogScope) (v : CatalogView) (rp : CatalogRecord * RecordProvenance) :
    CatalogView :=
  match apply v rp.1 rp.2 scope with Ok (_, v') => v' | Err _ => v end.
Definition receive_all (scope : CatalogScope) (v : CatalogView)
    (rps : list (CatalogRecord * RecordProvenance)) : CatalogView := foldl (receive scope) v rps.

Lemma catalog_receive_all_invariant (I : CatalogView → Prop) scope v rps :
  (∀ v r prov out v', I v → (r, prov) ∈ rps → apply v r prov scope = Ok (out, v') → I v') →
  I v → I (receive_all scope v rps).
Proof.
  revert v. induction rps as [|[r prov] rps IH]; intros v Hstep HI; [done|]. apply IH; clear IH.
  - intros w s prov' out w' HIw Hin. apply Hstep; [done|set_solver].
  - unfold receive. simpl. destruct (apply v r prov scope) as [[out v']|] eqn:Ea; [|done].
    apply (Hstep v r prov out v'); [done|set_solver|done].
Qed.

Lemma receive_all_wf scope rps : view_wf scope (receive_all scope CatalogView_default rps).
Proof.
  apply catalog_receive_all_invariant; [|apply catalog_view_wf_default].
  intros v r prov out v' Hw _. by apply catalog_apply_view_wf.
Qed.

(** The catalog never goes back.  Whatever records arrive, a known deployment stays
    known, its owner epoch does not decrease, and a tombstoned deployment is tombstoned
    for good within its owner epoch. *)
Theorem catalog_never_regresses scope v rps d c :
  records v !! d = Some c →
  ∃ c', records (receive_all scope v rps) !! d = Some c' ∧ owner_epoch c ≤ owner_epoch c' ∧
    (state c = Tombstoned → state c' = Tombstoned ∨ owner_epoch c < owner_epoch c').
Proof.
  intros Hc. apply (catalog_receive_all_invariant (λ w, ∃ c', records w !! d = Some c' ∧
    owner_epoch c ≤ owner_epoch c' ∧
    (state c = Tombstoned → state c' = Tombstoned ∨ owner_epoch c < owner_epoch c'))).
  - clear v Hc. intros v r prov out v' (c1 & Hc1 & Hle & Ht) _ Ha.
    destruct (apply_progress _ _ _ _ _ _ _ _ Ha Hc1) as (c2 & Hc2 & Hle2 & Ht2).
    exists c2. split_and!; [done|lia|]. intros Hts. destruct (Ht Hts) as [Hs1|]; [|right; lia].
    destruct (Ht2 Hs1); [by left|right; lia].
  - exists c. split_and!; [done|lia|by left].
Qed.

(** An owner epoch fences its predecessors.  Once a view holds a record of a replica
    under some owner epoch, no later record of that replica with a smaller epoch is ever
    installed, whatever arrived in between, as long as a deployment keeps belonging to
    its replica. *)
Theorem older_owner_is_fenced_out scope v rps d c r prov v' :
  records v !! d = Some c →
  (∀ s p, (s, p) ∈ rps → deployment_id s = d → replica_id s = replica_id c) →
  replica_id r = replica_id c → owner_epoch r < owner_epoch c →
  apply (receive_all scope v rps) r prov scope ≠ Ok (Applied, v').
Proof.
  intros Hc Hsame Hrep Hlt Ha.
  assert (∃ c', records (receive_all scope v rps) !! d = Some c' ∧ owner_epoch c ≤ owner_epoch c' ∧
    replica_id c' = replica_id c) as (c' & Hc' & Hle & Hr').
  { apply (catalog_receive_all_invariant (λ w, ∃ c', records w !! d = Some c' ∧
      owner_epoch c ≤ owner_epoch c' ∧ replica_id c' = replica_id c)); [|by exists c].
    clear v Hc Ha. intros v s p out w (c1 & Hc1 & Hle & Hr1) Hin [_ (id & _ & Hr)]%catalog_apply_inv.
    destruct Hr as [|cur cid|Hid Hep Hcur]; simpl; [by exists c1..|].
    destruct (decide (deployment_id s = d)) as [Hd|Hne].
    - rewrite Hd, lookup_insert_eq. exists s. subst d.
      destruct (Hcur c1 Hc1) as (cid & _ & Hle1 & _). split_and!; [done|lia|by eapply Hsame].
    - rewrite lookup_insert_ne by done. by exists c1. }
  apply catalog_apply_inv in Ha as [_ (id & _ & Hr)]. inversion Hr as [| |Hid Hep Hcur]; subst.
  specialize (Hep d c' Hc'). rewrite Hr', Hrep in Hep. specialize (Hep eq_refl). lia.
Qed.

(** A record from a peer is only taken from its owner: when [apply] accepts a record
    that arrived over the mesh, a member with the owner's node id has the connection's
    source address as its management address. *)
Theorem peer_record_comes_from_its_owner scope mscope v r ip port out v'
    `{!ContentHash MembershipRecord} :
  Membership.view_wf mscope (scope_members scope) →
  apply v r (Peer (SocketV4 ip port)) scope = Ok (out, v') →
  ∃ m, Membership.get (scope_members scope) (owner_node_id r) = Some m ∧
       management_address m = ip.
Proof.
  intros Hw [[_ Hau]%verify_ok _]%catalog_apply_inv. simpl in Hau.
  unfold find_by_management_address, Membership.get in *.
  destruct (find _ _) as [peer|] eqn:Ef; [|done]. case_bool_decide as Ho; [|done].
  apply find_some in Ef as [Hin Ha%N.eqb_eq].
  apply list_elem_of_In, elem_of_all in Hin as [n Hn].
  destruct (Membership.vw_keyed _ _ Hw _ _ Hn) as [<- _]. exists peer. by rewrite <-Ho.
Qed.

(** What DNS and the proxy are given is sound and complete: every answer is a record
    of the view that is active and healthy and is the greatest such record of its
    replica; there is at most one answer per replica; and every replica that has an
    active and healthy record has an answer. *)
Theorem active_healthy_is_the_winner_per_replica v :
  (∀ r, r ∈ active_healthy v →
     r ∈ all v ∧ state r = Active ∧ health r = Healthy ∧
     ∀ s, s ∈ all v → state s = Active → health s = Healthy → replica_id s = replica_id r →
          leb (record_order s) (record_order r) = true) ∧
  NoDup (replica_id <$> active_healthy v) ∧
  (∀ s, s ∈ all v → state s = Active → health s = Healthy →
     ∃ r, r ∈ active_healthy v ∧ replica_id r = replica_id s).
Proof.
  assert (∀ r, r ∈ filter (λ r, is_active_healthy r = true) (all v) ↔
    r ∈ all v ∧ state r = Active ∧ health r = Healthy) as Hf.
  { intros r. rewrite list_elem_of_filter. unfold is_active_healthy.
    rewrite andb_true_iff, !bool_decide_eq_true. tauto. }
  unfold active_healthy, active_healthy_winners. split_and!.
  - intros r [Hin Hmax]%winners_spec. apply Hf in Hin as (? & ? & ?). split_and!; try done.
    intros s ??? Hrep. apply Hmax; [|done]. by apply Hf.
  - apply winners_unique.
  - intros s ???. apply winners_complete. by apply Hf.
Qed.

(** Looking a replica up returns its greatest record: one of the view's records of
    that replica, above all the others, and nothing only when there is none. *)
Theorem get_returns_the_greatest_record v replica :
  match get v replica with
  | Some r => r ∈ all v ∧ replica_id r = replica ∧
      ∀ s, s ∈ all v → replica_id s = replica → leb (record_order s) (record_order r) = true
  | None => ∀ s, s ∈ all v → replica_id s ≠ replica
  end.
Proof.
  unfold get, max_by_key.
  pose proof (max_by_key_spec record_order (filter (λ r, replica_id r = replica) (all v)) None) as Hs.
  destruct (foldl _ _ _) as [m|].
  - destruct Hs as ([?|[Hrep Hin]%list_elem_of_filter] & Hmax & _); [done|].
    split_and!; [done..|]. intros s Hs Hr. apply Hmax. by apply list_elem_of_filter.
  - destruct Hs as [_ Hnil]. intros s Hs Hr.
    assert (s ∈ filter (λ r, replica_id r = replica) (all v)) as Hin by by apply list_elem_of_filter.
    rewrite Hnil in Hin. by apply elem_of_nil in Hin.
Qed.
End props.

(** A sample deployment of a replica, for evaluating the definitions. *)
Definition sample_hash : ContentHash CatalogRecord :=
  {| content_hash r := Some (deployment_id r +:+ ":" +:+ pretty (owner_epoch r) +:+ ":" +:+ pretty (revision r)
       +:+ (if is_tombstoned r then "T" else "")) |}.
Definition sample_scope : CatalogScope :=
  {| scope_project := "demo"; scope_epoch := 1; scope_members := MembershipProps.sample_view |}.
Definition sample_deployment (deployment owner : string) (epoch rev : N) (st : DeploymentState) :
    CatalogRecord :=
  {| project_id := "demo"; recovery_epoch := 1; protocol_version := 1; schema_version := 2;
     service := "web"; replica_id := "web-0"; owner_node_id := owner; owner_epoch := epoch;
     revision := rev; deployment_id := deployment; address := 7; ports := [80];
     image := "web:1"; state := st; health := Healthy |}.
Definition sample_view : CatalogView :=
  @receive_all sample_hash sample_scope CatalogView_default
    [(sample_deployment "d1" "a" 2 1 Active, Local)].

Lemma catalog_never_regresses_witness :
  ∃ c', records (@receive_all sample_hash sample_scope sample_view
          [(sample_deployment "d1" "a" 1 9 Active, Local)]) !! "d1" = Some c' ∧ 2 ≤ owner_epoch c'.
Proof.
  destruct (@catalog_never_regresses sample_hash sample_scope sample_view
    [(sample_deployment "d1" "a" 1 9 Active, Local)] "d1" (sample_deployment "d1" "a" 2 1 Active))
    as (c' & Hc & Hle & _).
  - vm_compute. reflexivity.
  - exists c'. split; [exact Hc|exact Hle].
Defined.

Lemma older_owner_is_fenced_out_witness :
  (∃ c, records sample_view !! "d1" = Some c) ∧
  ∀ v', @apply sample_hash sample_view (sample_deployment "d0" "b" 1 9 Active) Local sample_scope
        ≠ Ok (Applied, v').
Proof.
  split; [eexists; vm_compute; reflexivity|].
  intros v'. apply (@older_owner_is_fenced_out sample_hash sample_scope sample_view [] "d1"
    (sample_deployment "d1" "a" 2 1 Active)).
  - vm_compute. reflexivity.
  - intros s p Hin. by apply elem_of_nil in Hin.
  - reflexivity.
  - reflexivity.
Defined.

Lemma peer_record_comes_from_its_owner_witness :
  ∃ m, Membership.get (scope_members sample_scope) "a" = Some m ∧ management_address m = 1001.
Proof.
  eapply (@peer_record_comes_from_its_owner sample_hash sample_scope MembershipProps.sample_scope
    CatalogView_default (sample_deployment "d1" "a" 2 1 Active) 1001 9 Applied _
    MembershipProps.sample_hash).
  - apply MembershipProps.sample_view_wf.
  - vm_compute. reflexivity.
Defined.

End CatalogProps.
