(* ===== verification/Desired.v ===== *)
(** Desired service placement: [jiji-agent/src/desired.rs].  Every record overrides the
    scale of one service; the view keeps, per service, the greatest record by revision and
    content hash.  [apply] records the hash before it compares, so it returns the view
    together with its outcome. *)

From S2P Require Import Prelude Text Membership.
Open Scope N_scope.

Definition DESIRED_PROTOCOL_VERSION : N := 1.
Definition DESIRED_SCHEMA_VERSION : N := 2.
Definition DESIRED_MIN_SUPPORTED_SCHEMA_VERSION : N := 1.

Record DesiredStateRecord := {
  project_id : string;
  recovery_epoch : N;
  protocol_version : N;
  schema_version : N;
  service : string;
  scale_override : option N;
  revision : N;
  author_node_id : string;
  author_epoch : N;
}.

#[export] Instance DesiredStateRecord_eq_dec : EqDecision DesiredStateRecord.
Proof. solve_decision. Defined.

Inductive DesiredError :=
| Serialization
| InvalidRecord
| ProtocolVersion (v : N)
| SchemaVersion (v : N)
| WrongProject
| RecoveryEpoch
| UnknownAuthor
| NotAuthor
| StaleAuthor.

(** [DesiredStateRecord::validate]. *)
Definition validate (r : DesiredStateRecord) : result DesiredError () :=
  if negb (protocol_version r =? DESIRED_PROTOCOL_VERSION) then
    Err (ProtocolVersion (protocol_version r))
  else if (schema_version r <? DESIRED_MIN_SUPPORTED_SCHEMA_VERSION)
          || (DESIRED_SCHEMA_VERSION <? schema_version r) then
    Err (SchemaVersion (schema_version r))
  else if is_empty (project_id r) || is_empty (service r) || is_empty (author_node_id r)
          || (revision r =? 0) || (author_epoch r =? 0) then Err InvalidRecord
  else Ok ().

Definition from_provenance_error (e : ProvenanceError) : DesiredError :=
  match e with
  | Membership.UnknownPeer => UnknownAuthor
  | Membership.NotOwner => NotAuthor
  end.

Record DesiredScope := {
  scope_project : string;
  scope_epoch : N;
  scope_members : MembershipView;
}.

Definition verify (r : DesiredStateRecord) (provenance : RecordProvenance) (scope : DesiredScope) :
    result DesiredError () :=
  let? _ := validate r in
  ensure? bool_decide (project_id r = scope_project scope) else WrongProject in
  ensure? recovery_epoch r =? scope_epoch scope else RecoveryEpoch in
  let? _ := map_err from_provenance_error
              (authenticate (scope_members scope) provenance (author_node_id r)) in
  let? author := ok_or (Membership.get (scope_members scope) (author_node_id r)) UnknownAuthor in
  if negb (Membership.owner_epoch author =? author_epoch r) then Err StaleAuthor else Ok ().

Inductive DesiredApply := Applied | Duplicate | Superseded.

Record DesiredStateView := {
  records : gmap string DesiredStateRecord;
  record_ids : gset string;
}.
Definition DesiredStateView_default : DesiredStateView := {| records := ∅; record_ids := ∅ |}.

Definition get (v : DesiredStateView) (s : string) : option DesiredStateRecord := records v !! s.

Definition order (r : DesiredStateRecord) (id : string) : N * string := (revision r, id).

Section desired.
Context `{ContentHash DesiredStateRecord}.

Definition record_id (r : DesiredStateRecord) : result DesiredError string :=
  ok_or (content_hash r) Serialization.

(** [DesiredStateView::apply]. *)
Definition apply (v : DesiredStateView) (r : DesiredStateRecord) (provenance : RecordProvenance)
    (scope : DesiredScope) : DesiredStateView * result DesiredError DesiredApply :=
  match verify r provenance scope with
  | Err e => (v, Err e)
  | Ok _ =>
      match record_id r with
      | Err e => (v, Err e)
      | Ok id =>
          if bool_decide (id ∈ record_ids v) then (v, Ok Duplicate)
          else
            let v1 := {| records := records v; record_ids := {[id]} ∪ record_ids v |} in
            let install :=
              ({| records := <[service r := r]> (records v); record_ids := record_ids v1 |},
               Ok Applied) in
            match records v !! service r with
            | None => install
            | Some current =>
                match record_id current with
                | Err e => (v1, Err e)
                | Ok current_id =>
                    if leb (order r id) (order current current_id) then (v1, Ok Superseded)
                    else install
                end
            end
      end
  end.

Definition apply_step (scope : DesiredScope) (v : DesiredStateView)
    (rp : DesiredStateRecord * RecordProvenance) : result DesiredError DesiredStateView :=
  match apply v rp.1 rp.2 scope with
  | (v', Ok _) => Ok v'
  | (_, Err e) => Err e
  end.

Definition from_records (rps : list (DesiredStateRecord * RecordProvenance)) (scope : DesiredScope) :
    result DesiredError DesiredStateView :=
  try_fold (apply_step scope) DesiredStateView_default rps.
End desired.

(** ** Lemmas *)

Section lemmas.
Context `{ContentHash DesiredStateRecord} (h : DesiredStateRecord → string).
Hypothesis hash_h : ∀ r, content_hash r = Some (h r).

(** Records received so far, the view being the merge of them: it knows their hashes, and
    per service it holds one that is greatest. *)
Record merges (v : DesiredStateView) (rs : list DesiredStateRecord) : Prop := {
  mg_ids : ∀ id, id ∈ record_ids v ↔ ∃ r, r ∈ rs ∧ id = h r;
  mg_sound : ∀ s r, records v !! s = Some r → r ∈ rs ∧ service r = s;
  mg_best : ∀ r, r ∈ rs → ∃ best, records v !! service r = Some best ∧
              leb (order r (h r)) (order best (h best)) = true;
}.

Lemma merges_nil : merges DesiredStateView_default [].
Proof. split; simpl; [set_solver|by intros ??; rewrite lookup_empty|set_solver]. Qed.

Lemma apply_merges v rs r prov scope :
  (∀ x, x ∈ rs → h x = h r → x = r) → merges v rs → verify r prov scope = Ok () →
  ∃ out, (apply v r prov scope).2 = Ok out ∧ merges (apply v r prov scope).1 (rs ++ [r]).
Proof.
  intros Hinj [Hids Hsound Hbest] Hv. unfold apply, record_id. rewrite Hv, hash_h. simpl.
  case_bool_decide as Hid; simpl.
  { exists Duplicate. split; [done|]. apply Hids in Hid as (x & Hx & Heq).
    rewrite (Hinj x Hx (eq_sym Heq)) in Hx. split.
    - intros id. rewrite Hids. set_solver.
    - intros s y Hy. destruct (Hsound s y Hy). split; [set_solver|done].
    - intros y Hy. apply Hbest. set_solver. }
  assert (∀ id, id ∈ {[h r]} ∪ record_ids v ↔ ∃ x, x ∈ rs ++ [r] ∧ id = h x) as Hids'.
  { intros id. rewrite elem_of_union, elem_of_singleton, Hids. split.
    - intros [->|(x & ? & ->)]; [exists r; set_solver|exists x; set_solver].
    - intros (x & [Hx| ->%list_elem_of_singleton]%elem_of_app & ->); [right; by exists x|by left]. }
  destruct (records v !! service r) as [cur|] eqn:Ecur; simpl.
  - rewrite hash_h. simpl. destruct (Hsound _ _ Ecur) as [Hcin Hcs].
    destruct (leb (order r (h r)) (order cur (h cur))) eqn:El; simpl.
    + exists Superseded. split; [done|]. split; [done| |].
      * intros s y Hy. destruct (Hsound s y Hy). split; [set_solver|done].
      * intros y [Hy| ->%list_elem_of_singleton]%elem_of_app; [by apply Hbest|by exists cur].
    + exists Applied. split; [done|]. split; [done| |]; simpl.
      * intros s y [[<- <-]|[_ Hy]]%lookup_insert_Some; [split; [set_solver|done]|].
        destruct (Hsound s y Hy). split; [set_solver|done].
      * intros y [Hy| ->%list_elem_of_singleton]%elem_of_app.
        -- destruct (Hbest y Hy) as (best & Hb & Hle).
           destruct (decide (service r = service y)) as [Heq|Hne].
           ++ rewrite <-Heq, lookup_insert_eq. exists r. split; [done|].
              rewrite <-Heq, Ecur in Hb. injection Hb as <-.
              eapply leb_trans; [exact Hle|]. apply leb_lt_or_eq. left. by rewrite ltb_leb, El.
           ++ rewrite lookup_insert_ne by done. by exists best.
        -- rewrite lookup_insert_eq. exists r. split; [done|apply leb_refl].
  - exists Applied. split; [done|]. split; [done| |]; simpl.
    + intros s y [[<- <-]|[_ Hy]]%lookup_insert_Some; [split; [set_solver|done]|].
      destruct (Hsound s y Hy). split; [set_solver|done].
    + intros y [Hy| ->%list_elem_of_singleton]%elem_of_app.
      * destruct (Hbest y Hy) as (best & Hb & Hle).
        destruct (decide (service r = service y)) as [Heq|Hne]; [congruence|].
        rewrite lookup_insert_ne by done. by exists best.
      * rewrite lookup_insert_eq. exists r. split; [done|apply leb_refl].
Qed.

Lemma from_records_merges scope v rs rps :
  (∀ x y, x ∈ rs ++ rps.*1 → y ∈ rs ++ rps.*1 → h x = h y → x = y) → merges v rs →
  (∀ r p, (r, p) ∈ rps → verify r p scope = Ok ()) →
  ∃ v', try_fold (apply_step scope) v rps = Ok v' ∧ merges v' (rs ++ rps.*1).
Proof.
  revert v rs. induction rps as [|[r p] rps IH]; intros v rs Hinj Hm Hv; simpl.
  { exists v. by rewrite app_nil_r. }
  destruct (apply_merges v rs r p scope) as (out & Hout & Hm'); [|done|apply Hv; set_solver|].
  { intros x Hx. apply Hinj; set_solver. }
  unfold apply_step at 1. simpl. destruct (apply v r p scope) as [v1 res]. simpl in *. subst res.
  rewrite (cons_middle r rs), app_assoc. simpl in Hinj. rewrite (cons_middle r rs), app_assoc in Hinj.
  apply IH; [done|done|]. intros r' p' Hin. apply Hv. set_solver.
Qed.

(** The merge is determined by the set of records. *)
Lemma merges_unique v1 v2 rs1 rs2 :
  (∀ x y, x ∈ rs1 → y ∈ rs1 → h x = h y → x = y) → (∀ r, r ∈ rs1 ↔ r ∈ rs2) →
  merges v1 rs1 → merges v2 rs2 → records v1 = records v2.
Proof.
  intros Hinj Heq M1 M2.
  assert (∀ va vb ra rb, (∀ x y, x ∈ ra → y ∈ ra → h x = h y → x = y) → (∀ r, r ∈ ra ↔ r ∈ rb) →
    merges va ra → merges vb rb → ∀ s r, records va !! s = Some r → records vb !! s = Some r) as Hsub.
  { clear. intros va vb ra rb Hinj Heq Ma Mb s r Hr.
    destruct (mg_sound _ _ Ma _ _ Hr) as [Hin <-].
    destruct (mg_best _ _ Mb r) as (best & Hb & Hle); [by apply Heq|].
    destruct (mg_sound _ _ Mb _ _ Hb) as [Hbin Hbs].
    destruct (mg_best _ _ Ma best) as (best' & Hb' & Hle'); [by apply Heq|].
    rewrite Hbs, Hr in Hb'. injection Hb' as <-.
    pose proof (leb_antisym _ _ Hle Hle') as Ho. injection Ho as _ Hh.
    rewrite (Hinj r best) at 2; [done|done|by apply Heq|done]. }
  apply map_eq. intros s. destruct (records v1 !! s) as [r|] eqn:E1.
  - symmetry. by apply (Hsub v1 v2 rs1 rs2).
  - destruct (records v2 !! s) as [r|] eqn:E2; [|done].
    assert (records v1 !! s = Some r); [|congruence]. apply (Hsub v2 v1 rs2 rs1); try done.
    intros x y Hx Hy. apply Hinj; by apply Heq.
Qed.
End lemmas.

Lemma stale_author_replay `{ContentHash DesiredStateRecord} scope rps r author :
  (r, Verified) ∈ rps → validate r = Ok () → project_id r = scope_project scope →
  recovery_epoch r = scope_epoch scope →
  Membership.get (scope_members scope) (author_node_id r) = Some author →
  Membership.owner_epoch author ≠ author_epoch r →
  is_ok (from_records rps scope) = false.
Proof.
  intros Hin Hval Hp He Ha Hne.
  assert (∀ v, is_ok (try_fold (apply_step scope) v rps) = false) as Hfail; [|apply Hfail].
  induction rps as [|[x p] rps IH]; intros v; [by apply elem_of_nil in Hin|]. simpl.
  apply elem_of_cons in Hin as [[= <- <-]|Hin].
  - unfold apply_step, apply, verify. simpl. rewrite Hval, bool_decide_true by done.
    rewrite (proj2 (N.eqb_eq _ _) He), Ha. simpl. by rewrite (proj2 (N.eqb_neq _ _) Hne).
  - destruct (apply_step scope v (x, p)); [by apply IH|done].
Qed.

Module DesiredProps.

Section props.
Context `{ContentHash DesiredStateRecord} (h : DesiredStateRecord → string).

(** Desired state converges: nodes that received the same records, in any order and
    with any repetition, agree on the record of every service.  Merging records that
    verify always succeeds, and the two merged views are equal; content hashes are
    assumed distinct for distinct records of the set. *)
Theorem desired_state_converges scope rps1 rps2 :
  (∀ r, content_hash r = Some (h r)) →
  (∀ x y, x ∈ rps1.*1 → y ∈ rps1.*1 → h x = h y → x = y) →
  (∀ r, r ∈ rps1.*1 ↔ r ∈ rps2.*1) →
  (∀ r p, (r, p) ∈ rps1 ∨ (r, p) ∈ rps2 → verify r p scope = Ok ()) →
  ∃ v1 v2, from_records rps1 scope = Ok v1 ∧ from_records rps2 scope = Ok v2 ∧
    ∀ s, get v1 s = get v2 s.
Proof.
  intros Hh Hinj Heq Hv.
  assert (∀ x y, x ∈ rps2.*1 → y ∈ rps2.*1 → h x = h y → x = y) as Hinj2.
  { intros x y Hx Hy. apply Hinj; by apply Heq. }
  destruct (from_records_merges h Hh scope _ [] rps1 Hinj (merges_nil h Hh)) as (v1 & H1 & M1).
  { intros r p ?. apply Hv. by left. }
  destruct (from_records_merges h Hh scope _ [] rps2 Hinj2 (merges_nil h Hh)) as (v2 & H2 & M2).
  { intros r p ?. apply Hv. by right. }
  exists v1, v2. split_and!; [done|done|]. intros s. unfold get.
  by rewrite (merges_unique h v1 v2 _ _ Hinj Heq M1 M2).
Qed.

(** The merged record of a service is the greatest: no record that was merged has a
    greater revision than the one the view returns. *)
Theorem desired_get_is_latest scope rps v r s :
  (∀ r, content_hash r = Some (h r)) →
  (∀ x y, x ∈ rps.*1 → y ∈ rps.*1 → h x = h y → x = y) →
  (∀ r p, (r, p) ∈ rps → verify r p scope = Ok ()) →
  from_records rps scope = Ok v → get v s = Some r →
  service r = s ∧ r ∈ rps.*1 ∧ ∀ x, x ∈ rps.*1 → service x = s → revision x ≤ revision r.
Proof.
  intros Hh Hinj Hv Hf Hr.
  destruct (from_records_merges h Hh scope _ [] rps Hinj (merges_nil h Hh) Hv) as (v' & H1 & M).
  unfold from_records in Hf. rewrite H1 in Hf. injection Hf as <-.
  destruct (mg_sound _ _ _ M _ _ Hr) as [Hin Hs]. split_and!; [done|done|].
  intros x Hx Hxs. destruct (mg_best _ _ _ M x Hx) as (best & Hb & Hle).
  unfold get in Hr. rewrite Hxs, Hr in Hb. injection Hb as <-.
  apply prod_leb_fst in Hle. by apply N_leb_le in Hle.
Qed.

(** A change of an author's epoch invalidates its past: once the membership holds a
    different owner epoch for the author of some record, replaying any history that
    contains the record fails, even though the record was verified when it was stored.
    Storing a new desired record replays the whole history first. *)
Theorem stale_author_blocks_replay scope rps r author :
  (r, Verified) ∈ rps → validate r = Ok () → project_id r = scope_project scope →
  recovery_epoch r = scope_epoch scope →
  Membership.get (scope_members scope) (author_node_id r) = Some author →
  Membership.owner_epoch author ≠ author_epoch r →
  is_ok (from_records rps scope) = false.
Proof.
  apply stale_author_replay.
Qed.
End props.

Definition sample_hash_of (r : DesiredStateRecord) : string :=
  service r +:+ ":" +:+ pretty (revision r).
Definition sample_hash : ContentHash DesiredStateRecord :=
  {| content_hash r := Some (sample_hash_of r) |}.
Definition sample_scope : DesiredScope :=
  {| scope_project := "demo"; scope_epoch := 1; scope_members := MembershipProps.sample_view |}.
Definition sample_desired (rev : N) (scale : option N) (epoch : N) : DesiredStateRecord :=
  {| project_id := "demo"; recovery_epoch := 1; protocol_version := 1; schema_version := 2;
     service := "web"; scale_override := scale; revision := rev; author_node_id := "a";
     author_epoch := epoch |}.
Definition sample_history : list (DesiredStateRecord * RecordProvenance) :=
  [(sample_desired 1 None 1, Verified); (sample_desired 2 (Some 3) 1, Verified)].

Lemma sample_hash_inj x y :
  x ∈ sample_history.*1 → y ∈ sample_history.*1 → sample_hash_of x = sample_hash_of y → x = y.
Proof.
  assert (Forall (λ x, Forall (λ y, sample_hash_of x = sample_hash_of y → x = y) sample_history.*1)
            sample_history.*1) as Hall.
  { apply (bool_decide_unpack _). vm_compute. exact I. }
  rewrite Forall_forall in Hall. intros Hx Hy. specialize (Hall x Hx).
  rewrite Forall_forall in Hall. by apply Hall.
Qed.

Lemma sample_history_verifies r p : (r, p) ∈ sample_history → verify r p sample_scope = Ok ().
Proof.
  intros [[= -> ->]|[[= -> ->]|Hin%elem_of_nil]%elem_of_cons]%elem_of_cons; [vm_compute; reflexivity..|done].
Qed.

Lemma desired_state_converges_witness :
  ∃ v1 v2, @from_records sample_hash sample_history sample_scope = Ok v1 ∧
    @from_records sample_hash (reverse sample_history) sample_scope = Ok v2 ∧
    ∀ s, get v1 s = get v2 s.
Proof.
  apply (@desired_state_converges sample_hash sample_hash_of).
  - reflexivity.
  - apply sample_hash_inj.
  - intros r. assert (sample_history.*1 ≡ₚ (reverse sample_history).*1) as Hp.
    { by rewrite (reverse_Permutation sample_history). }
    by rewrite Hp.
  - intros r p [Hin|Hin]; apply sample_history_verifies; [done|]. by apply elem_of_reverse in Hin.
Defined.

Lemma desired_get_is_latest_witness :
  length sample_history ≠ O ∧
  ∀ x, x ∈ sample_history.*1 → service x = "web" → revision x ≤ 2.
Proof.
  split; [done|].
  eapply (@desired_get_is_latest sample_hash sample_hash_of sample_scope sample_history _
    (sample_desired 2 (Some 3) 1) "web").
  - reflexivity.
  - apply sample_hash_inj.
  - apply sample_history_verifies.
  - vm_compute. reflexivity.
  - vm_compute. reflexivity.
Defined.

Lemma stale_author_blocks_replay_witness :
  is_ok (@from_records sample_hash [(sample_desired 1 None 7, Verified)] sample_scope) = false.
Proof.
  eapply (@stale_author_blocks_replay sample_hash sample_scope _ (sample_desired 1 None 7)
    MembershipProps.sample_a).
  - apply list_elem_of_here.
  - reflexivity.
  - reflexivity.
  - reflexivity.
  - vm_compute. reflexivity.
  - vm_compute. discriminate.
Defined.

End DesiredProps.
