(* ===== verification/OpLog.v ===== *)
(** The replicated part of the agent's database: the operation logs and the materialised
    tables of membership, catalog and desired state ([apply_membership], [apply_catalog],
    [apply_desired], their readers and [compact_operations] of [jiji-agent/src/store.rs]).

    A log is its rows in [rowid] order, each an operation id with its record; a
    materialised table maps its primary key to the winning operation.  A record stands for
    its JSON: [serde_json] reads back what it wrote.  An SQLite transaction that returns
    an error is rolled back, so an error leaves the log as it was.  [rusqlite] refuses to
    store a [u64] above [i64::MAX], and the partial unique index on the server names of
    active members is a check of the table. *)

From S2P Require Import Prelude Text Membership Catalog Desired.
Open Scope N_scope.

Inductive StoreError :=
| Database
| MembershipFailed (e : MembershipError)
| CatalogFailed (e : CatalogError)
| DesiredFailed (e : DesiredError)
| QuotaExceeded (used_bytes quota_bytes : N).

(** ** Quota *)

(** What SQLite reports of the file, and the configured quota. *)
Record Capacity := { soft_quota_bytes : option N; page_count : N; page_size : N }.

Definition database_usage_bytes (c : Capacity) : N := N.min (page_count c * page_size c) u64_max.

Definition ensure_replication_capacity (c : Capacity) : result StoreError () :=
  match soft_quota_bytes c with
  | None => Ok ()
  | Some quota_bytes =>
      let used_bytes := database_usage_bytes c in
      if quota_bytes <=? used_bytes then Err (QuotaExceeded used_bytes quota_bytes) else Ok ()
  end.

(** ** Logs *)

Record Log (R : Type) := {
  operations : list (string * R);
  winners : gmap string (string * R);
}.
Arguments operations {R} _.
Arguments winners {R} _.

Definition Log_empty {R} : Log R := {| operations := []; winners := ∅ |}.

Section log.
Context {R : Type}.
Implicit Types log : Log R.

(** [SELECT EXISTS(SELECT 1 FROM .._operations WHERE operation_id = ?1)]. *)
Definition has_operation log (id : string) : bool := bool_decide (id ∈ (operations log).*1).

(** [INSERT INTO .._operations .. ON CONFLICT(operation_id) DO NOTHING]. *)
Definition insert_operation log (id : string) (r : R) : Log R :=
  {| operations := operations log ++ [(id, r)]; winners := winners log |}.

(** [INSERT INTO .._records .. ON CONFLICT(key) DO UPDATE SET ..]. *)
Definition upsert_winner log (key id : string) (r : R) : Log R :=
  {| operations := operations log; winners := <[key := (id, r)]> (winners log) |}.

(** [DELETE FROM .._operations WHERE operation_id NOT IN (SELECT operation_id FROM ..)]. *)
Definition winner_ids log : list string := (λ e : string * (string * R), e.2.1) <$> map_to_list (winners log).
Definition compact log : Log R * nat :=
  let kept := filter (λ e : string * R, e.1 ∈ winner_ids log) (operations log) in
  ({| operations := kept; winners := winners log |},
   (length (operations log) - length kept)%nat).

(** The winners in the order of their key. *)
Definition latest log : list R := snd <$> btree_values (winners log).
End log.

Definition fits_i64 (n : N) : bool := n <=? i64_max.

Section store.
Context `{ContentHash MembershipRecord, ContentHash CatalogRecord, ContentHash DesiredStateRecord}.

(** *** Membership *)

Definition membership_operations (log : Log MembershipRecord) : list MembershipRecord :=
  (operations log).*2.

(** No other active member of the table has the server name. *)
Definition server_name_free (log : Log MembershipRecord) (r : MembershipRecord) : bool :=
  negb (Membership.is_active r) ||
  forallb (λ e : string * (string * MembershipRecord),
             negb (Membership.is_active e.2.2 && bool_decide (e.1 ≠ node_id r)
                   && bool_decide (server_name e.2.2 = server_name r)))
    (map_to_list (winners log)).

Definition apply_membership (c : Capacity) (log : Log MembershipRecord) (r : MembershipRecord)
    (scope : MembershipScope) : result StoreError (MembershipApply * Log MembershipRecord) :=
  let? id := map_err MembershipFailed (Membership.record_id r) in
  if has_operation log id then Ok (Membership.Duplicate, log)
  else
    let? _ := ensure_replication_capacity c in
    let? view := map_err MembershipFailed (Membership.from_records (membership_operations log) scope) in
    let? (outcome, _) := map_err MembershipFailed (Membership.apply view r scope) in
    let log' := insert_operation log id r in
    match outcome with
    | Membership.Applied =>
        if fits_i64 (Membership.owner_epoch r) && fits_i64 (Membership.revision r)
           && server_name_free log r
        then Ok (outcome, upsert_winner log' (node_id r) id r)
        else Err Database
    | _ => Ok (outcome, log')
    end.

Definition latest_membership (log : Log MembershipRecord) : list MembershipRecord := latest log.
Definition active_membership (log : Log MembershipRecord) : list MembershipRecord :=
  filter (λ r, Membership.is_active r = true) (latest_membership log).

(** *** Catalog *)

Definition catalog_operations (log : Log CatalogRecord) : list CatalogRecord := (operations log).*2.

Definition verified {R} (rs : list R) : list (R * RecordProvenance) := (λ r, (r, Verified)) <$> rs.

Definition apply_catalog (c : Capacity) (log : Log CatalogRecord) (r : CatalogRecord)
    (provenance : RecordProvenance) (scope : CatalogScope) :
    result StoreError (CatalogApply * Log CatalogRecord) :=
  let? id := map_err CatalogFailed (Catalog.record_id r) in
  if has_operation log id then Ok (Catalog.Duplicate, log)
  else
    let? _ := ensure_replication_capacity c in
    let? view := map_err CatalogFailed
                   (Catalog.from_records (verified (catalog_operations log)) scope) in
    let? (outcome, _) := map_err CatalogFailed (Catalog.apply view r provenance scope) in
    let log' := insert_operation log id r in
    match outcome with
    | Catalog.Applied =>
        if fits_i64 (Catalog.owner_epoch r) && fits_i64 (Catalog.revision r)
        then Ok (outcome, upsert_winner log' (deployment_id r) id r)
        else Err Database
    | _ => Ok (outcome, log')
    end.

(** [ORDER BY replica_id, deployment_id]. *)
Definition replica_leb (a b : string * (string * CatalogRecord)) : bool :=
  leb (replica_id a.2.2, a.1) (replica_id b.2.2, b.1).
Definition latest_catalog (log : Log CatalogRecord) : list CatalogRecord :=
  (λ e : string * (string * CatalogRecord), e.2.2) <$> sort_by replica_leb (map_to_list (winners log)).

(** *** Desired state *)

Definition desired_operations (log : Log DesiredStateRecord) : list DesiredStateRecord :=
  (operations log).*2.

Definition apply_desired (c : Capacity) (log : Log DesiredStateRecord) (r : DesiredStateRecord)
    (provenance : RecordProvenance) (scope : DesiredScope) :
    result StoreError (DesiredApply * Log DesiredStateRecord) :=
  let? id := map_err DesiredFailed (Desired.record_id r) in
  if has_operation log id then Ok (Desired.Duplicate, log)
  else
    let? _ := ensure_replication_capacity c in
    let? view := map_err DesiredFailed
                   (Desired.from_records (verified (desired_operations log)) scope) in
    let? outcome := map_err DesiredFailed (Desired.apply view r provenance scope).2 in
    let log' := insert_operation log id r in
    match outcome with
    | Desired.Applied =>
        if fits_i64 (Desired.revision r)
        then Ok (outcome, upsert_winner log' (Desired.service r) id r)
        else Err Database
    | _ => Ok (outcome, log')
    end.

Definition desired_snapshot_operations (log : Log DesiredStateRecord) : list DesiredStateRecord :=
  latest log.
Definition desired_state (log : Log DesiredStateRecord) (s : string) : option DesiredStateRecord :=
  snd <$> winners log !! s.

(** *** The three logs together *)

Record Replicated := {
  membership_log : Log MembershipRecord;
  catalog_log : Log CatalogRecord;
  desired_log : Log DesiredStateRecord;
}.

Record CompactionResult := {
  membership_removed : nat;
  catalog_removed : nat;
  desired_removed : nat;
}.

Definition compact_operations (s : Replicated) : Replicated * CompactionResult :=
  let '(m, rm) := compact (membership_log s) in
  let '(c, rc) := compact (catalog_log s) in
  let '(d, rd) := compact (desired_log s) in
  ({| membership_log := m; catalog_log := c; desired_log := d |},
   {| membership_removed := rm; catalog_removed := rc; desired_removed := rd |}).

Record OperationCounts := { count_membership : nat; count_catalog : nat; count_desired : nat }.
Definition operation_counts (s : Replicated) : OperationCounts :=
  {| count_membership := length (operations (membership_log s));
     count_catalog := length (operations (catalog_log s));
     count_desired := length (operations (desired_log s)) |}.
End store.

(** ** Lemmas: logs *)

Section log_lemmas.
Context {R : Type}.
Implicit Types (log : Log R) (l : list (string * R)).

(** The rows compaction keeps. *)
Definition kept log : list (string * R) :=
  filter (λ e : string * R, e.1 ∈ winner_ids log) (operations log).

Lemma elem_of_winner_ids log id :
  id ∈ winner_ids log ↔ ∃ k r, winners log !! k = Some (id, r).
Proof.
  unfold winner_ids. rewrite list_elem_of_fmap. split.
  - intros ([k [id' r]] & -> & Hin%elem_of_map_to_list). eauto.
  - intros (k & r & Hk). exists (k, (id, r)). split; [done|]. by apply elem_of_map_to_list.
Qed.

Lemma NoDup_fst_inj l id r s :
  NoDup l.*1 → (id, r) ∈ l → (id, s) ∈ l → r = s.
Proof.
  induction l as [|[i x] l IH]; intros Hnd Hr Hs; [by apply elem_of_nil in Hr|].
  apply NoDup_cons in Hnd as [Hi Hnd].
  assert (∀ y, (i, y) ∉ l) as Hno.
  { intros y Hy. apply Hi. apply list_elem_of_fmap. by exists (i, y). }
  apply elem_of_cons in Hr as [[= -> ->]|Hr], Hs as [[= Hs1]|Hs]; subst; try done.
  - by destruct (Hno s).
  - by destruct (Hno r).
  - by apply IH.
Qed.

Lemma elem_of_latest log r : r ∈ latest log ↔ ∃ k id, winners log !! k = Some (id, r).
Proof.
  unfold latest. rewrite list_elem_of_fmap. setoid_rewrite elem_of_btree_values. split.
  - intros ([id r'] & -> & k & Hk). eauto.
  - intros (k & id & Hk). exists (id, r). eauto.
Qed.

(** A table of winners whose rows are in the log, and a log without repeated ids. *)
Record log_wf log : Prop := {
  lw_nodup : NoDup (operations log).*1;
  lw_logged : ∀ k id r, winners log !! k = Some (id, r) → (id, r) ∈ operations log;
}.

Lemma elem_of_kept log id r :
  log_wf log → (id, r) ∈ kept log ↔ ∃ k, winners log !! k = Some (id, r).
Proof.
  intros [Hnd Hl]. unfold kept. rewrite list_elem_of_filter, elem_of_winner_ids. simpl. split.
  - intros [(k & s & Hk) Hin]. exists k. by rewrite (NoDup_fst_inj _ _ r s Hnd Hin (Hl _ _ _ Hk)).
  - intros [k Hk]. split; eauto.
Qed.

Lemma log_wf_insert log id r :
  log_wf log → id ∉ (operations log).*1 → log_wf (insert_operation log id r).
Proof.
  intros [Hnd Hl] Hid. split; simpl.
  - rewrite fmap_app. apply NoDup_app. split_and!; [done| |apply NoDup_singleton].
    simpl. intros x Hx ->%list_elem_of_singleton. done.
  - intros k id' r' Hk. apply elem_of_app. left. eauto.
Qed.

Lemma log_wf_upsert log key id r :
  log_wf log → id ∉ (operations log).*1 → log_wf (upsert_winner (insert_operation log id r) key id r).
Proof.
  intros Hw Hid. destruct (log_wf_insert log id r Hw Hid) as [Hnd Hl]. split; [done|]. simpl in *.
  intros k id' r' [[<- [= <- <-]]|[_ Hk]]%lookup_insert_Some; [|by eauto].
  apply elem_of_app. right. apply list_elem_of_here.
Qed.

Lemma has_operation_false log id : has_operation log id = false ↔ id ∉ (operations log).*1.
Proof. apply bool_decide_eq_false. Qed.

Lemma log_wf_compact log : log_wf log → log_wf (compact log).1.
Proof.
  intros Hw. pose proof (elem_of_kept log) as Hk. destruct Hw as [Hnd Hl]. split; simpl.
  - eapply sublist_NoDup; [exact Hnd|]. apply fmap_sublist, sublist_filter.
  - intros k id r Hw. apply (Hk id r); [done|]. by exists k.
Qed.
End log_lemmas.

(** ** Lemmas: the membership log *)

Section membership_log.
Context `{ContentHash MembershipRecord}.

(** Replaying the log gives the view [v], and the table holds what [v] holds. *)
Record mlog_ok (scope : MembershipScope) (log : Log MembershipRecord) (v : MembershipView) : Prop := {
  mo_wf : log_wf log;
  mo_replay : Membership.from_records (membership_operations log) scope = Ok v;
  mo_hash : ∀ id r, (id, r) ∈ operations log → content_hash r = Some id;
  mo_ids : ∀ id, id ∈ Membership.record_ids v ↔ id ∈ (operations log).*1;
  mo_winners : ∀ n r, Membership.records v !! n = Some r ↔ ∃ id, winners log !! n = Some (id, r);
}.

Lemma from_records_view_wf rs scope v :
  Membership.from_records rs scope = Ok v → Membership.view_wf scope v.
Proof.
  intros Hf. eapply (try_fold_invariant (Membership.view_wf scope)); [|apply membership_view_wf_default|exact Hf].
  intros s a s' Hs _ Ha. unfold Membership.apply_step in Ha.
  destruct (Membership.apply s a scope) as [[out v']|] eqn:Ea; [|done]. injection Ha as <-.
  by eapply membership_apply_view_wf.
Qed.

Lemma from_records_snoc rs r scope v out v' :
  Membership.from_records rs scope = Ok v → Membership.apply v r scope = Ok (out, v') →
  Membership.from_records (rs ++ [r]) scope = Ok v'.
Proof.
  unfold Membership.from_records. intros Hf Ha. rewrite try_fold_app, Hf. simpl.
  unfold Membership.apply_step. by rewrite Ha.
Qed.

Lemma mlog_empty scope : mlog_ok scope Log_empty MembershipView_default.
Proof.
  split; simpl; [split; simpl; [constructor|by intros ???; rewrite lookup_empty]|done|set_solver|set_solver|].
  intros n r. rewrite lookup_empty. split; [done|]. intros [id Hid]. by rewrite lookup_empty in Hid.
Qed.

(** The unique index never objects: an active record that passed the view's claim check
    has a server name of its own. *)
Lemma server_name_free_ok scope log v r id :
  mlog_ok scope log v → Membership.apply_result v r id Membership.Applied (Membership.insert_record v r id) →
  server_name_free log r = true.
Proof.
  intros Hok Hr. unfold server_name_free. apply orb_true_iff.
  destruct (Membership.is_active r) eqn:Ea; [right|by left].
  apply is_active_true in Ea. inversion Hr as [| |Hid Hrej Hcur]; subst.
  specialize (Hrej Ea). rewrite reject_claim_collisions_ok in Hrej.
  apply forallb_forall. intros [n [i s]] Hin. apply list_elem_of_In, elem_of_map_to_list in Hin. simpl.
  apply negb_true_iff, not_true_iff_false. intros Hc.
  apply andb_true_iff in Hc as [[Hact%is_active_true Hn%bool_decide_eq_true_1]%andb_true_iff
    Heq%bool_decide_eq_true_1].
  assert (Membership.records v !! n = Some s) as Hs by (apply (mo_winners _ _ _ Hok); eauto).
  destruct (from_records_view_wf _ _ _ (mo_replay _ _ _ Hok)) as [Hk _ _].
  destruct (Hrej n s Hs Hact) as [Hnode|(Hne & _)]; [|done].
  destruct (Hk n s Hs) as [? _]. congruence.
Qed.

(** Logging an operation the view took as superseded, or as the new winner. *)
Lemma mlog_step scope log v r id out v' :
  mlog_ok scope log v → id ∉ (operations log).*1 →
  Membership.apply v r scope = Ok (out, v') → content_hash r = Some id →
  let log' := insert_operation log id r in
  mlog_ok scope (match out with
                 | Membership.Applied => upsert_winner log' (node_id r) id r
                 | _ => log'
                 end) v' ∧
  out ≠ Membership.Duplicate ∧ (out = Membership.Applied → server_name_free log r = true).
Proof.
  intros Hok Hnew Ea Hid. pose proof Hok as [Hw Hf Hh Hids Hwin].
  pose proof (from_records_snoc _ _ _ _ _ _ Hf Ea) as Hf'.
  pose proof Ea as Hinv. apply membership_apply_inv in Hinv as [Hsc (id' & Hid' & Hr)].
  rewrite Hid in Hid'. injection Hid' as <-.
  assert (∀ i x, (i, x) ∈ operations log ++ [(id, r)] → content_hash x = Some i) as Hh'.
  { intros i x [?|Hx]%elem_of_app; [by apply Hh|]. apply list_elem_of_singleton in Hx.
    by injection Hx as -> ->. }
  assert (∀ i, i ∈ {[id]} ∪ Membership.record_ids v ↔ i ∈ (operations log ++ [(id, r)]).*1) as Hids'.
  { intros i. rewrite fmap_app, elem_of_app, elem_of_union, Hids. simpl. set_solver. }
  destruct Hr as [Hdup|cur cid Hni Hcur Hcid Hle|Hni Hrej Hcur].
  - destruct Hnew. by apply Hids.
  - split_and!; [|done|done]. split; simpl; try done; [by apply log_wf_insert|].
    unfold membership_operations in *. simpl. by rewrite fmap_app.
  - split_and!; [|done|intros _; apply (server_name_free_ok scope log v r id); [done|by constructor]].
    split; simpl; try done; [by apply log_wf_upsert| |].
    + unfold membership_operations in *. simpl. by rewrite fmap_app.
    + intros n s. rewrite lookup_insert_Some, Hwin. split.
      * intros [[<- <-]|[Hne [i Hi]]]; [exists id; by rewrite lookup_insert_eq|].
        exists i. by rewrite lookup_insert_ne.
      * intros [i [[<- [= <- <-]]|[Hne Hi]]%lookup_insert_Some]; [by left|right; eauto].
Qed.

(** A new operation: the store does exactly what the view does. *)
Lemma apply_membership_new c scope log v r id :
  mlog_ok scope log v → content_hash r = Some id → id ∉ (operations log).*1 →
  ensure_replication_capacity c = Ok () →
  Membership.owner_epoch r ≤ i64_max → Membership.revision r ≤ i64_max →
  match Membership.apply v r scope with
  | Ok (out, v') => ∃ log', apply_membership c log r scope = Ok (out, log') ∧ mlog_ok scope log' v' ∧
      out ≠ Membership.Duplicate
  | Err e => apply_membership c log r scope = Err (MembershipFailed e)
  end.
Proof.
  intros Hok Hid Hnew Hcap Hepoch Hrev. unfold apply_membership, Membership.record_id. rewrite Hid. simpl.
  rewrite (proj2 (has_operation_false log id) Hnew), Hcap, (mo_replay _ _ _ Hok). simpl.
  destruct (Membership.apply v r scope) as [[out v']|e] eqn:Ea; [|done]. simpl.
  destruct (mlog_step _ _ _ _ _ _ _ Hok Hnew Ea Hid) as (Hok' & Hnd & Hfree).
  unfold fits_i64. rewrite !(proj2 (N.leb_le _ _)) by done.
  destruct out; [rewrite Hfree by done; eauto|done|eauto].
Qed.

(** Whatever the store accepts keeps the table equal to the replay of the log. *)
Lemma apply_membership_keeps c scope log v r out log' :
  mlog_ok scope log v → apply_membership c log r scope = Ok (out, log') → ∃ v', mlog_ok scope log' v'.
Proof.
  intros Hok. unfold apply_membership, Membership.record_id.
  destruct (content_hash r) as [id|] eqn:Hid; [|done]. simpl.
  destruct (has_operation log id) eqn:Hnew; [intros [= <- <-]; eauto|].
  apply has_operation_false in Hnew. destruct (ensure_replication_capacity c); [|done].
  rewrite (mo_replay _ _ _ Hok). simpl.
  destruct (Membership.apply v r scope) as [[o v']|e] eqn:Ea; [|done]. simpl.
  destruct (mlog_step _ _ _ _ _ _ _ Hok Hnew Ea Hid) as (Hok' & Hnd & _).
  destruct o; [destruct (_ && _); [|done]| |]; intros [= <- <-]; eauto.
Qed.

(** *** Compaction *)

Lemma default_records n : Membership.records MembershipView_default !! n = None.
Proof. apply lookup_empty. Qed.

(** Replaying records of distinct nodes that claim nothing in common installs them all. *)
Lemma replay_distinct scope l v0 :
  Membership.view_wf scope v0 → NoDup l.*1 → NoDup (node_id <$> l.*2) →
  (∀ id r, (id, r) ∈ l → content_hash r = Some id ∧ Membership.in_scope scope r ∧
     id ∉ Membership.record_ids v0 ∧ Membership.records v0 !! node_id r = None) →
  (∀ r s, r ∈ l.*2 → s ∈ l.*2 ∨ (∃ n, Membership.records v0 !! n = Some s) →
     node_id s ≠ node_id r → Membership.state r = Membership.Active →
     Membership.state s = Membership.Active → no_shared_claim s r) →
  ∃ v', try_fold (Membership.apply_step scope) v0 l.*2 = Ok v' ∧
    (∀ id, id ∈ Membership.record_ids v' ↔ id ∈ Membership.record_ids v0 ∨ id ∈ l.*1) ∧
    (∀ n r, Membership.records v' !! n = Some r ↔
       Membership.records v0 !! n = Some r ∨ (r ∈ l.*2 ∧ node_id r = n)).
Proof.
  revert v0. induction l as [|[id r] l IH]; intros v0 Hw Hnd Hnn Hl Hcl; simpl.
  { exists v0. split_and!; [done|set_solver|]. intros n r. set_solver. }
  simpl in Hnd, Hnn. apply NoDup_cons in Hnd as [Hid Hnd]. apply NoDup_cons in Hnn as [Hnode Hnn].
  destruct (Hl id r) as (Hh & Hsc & Hni & Hnone); [set_solver|].
  assert (reject_claim_collisions v0 r = Ok () ∨ Membership.is_active r = false) as Hrej.
  { destruct (Membership.is_active r) eqn:Ea; [left|by right]. apply is_active_true in Ea.
    apply reject_claim_collisions_ok. intros n s Hs Has. right. apply Hcl; [set_solver|by right; exists n| |done|done].
    intros Heq. destruct (Membership.vw_keyed _ _ Hw _ _ Hs) as [Hk _]. congruence. }
  assert (Membership.apply v0 r scope = Ok (Membership.Applied, Membership.insert_record v0 r id)) as Happ.
  { rewrite (Membership.apply_newer v0 r scope id Hsc Hh Hni) by (intros cur; by rewrite Hnone).
    destruct Hrej as [->| ->]; [by destruct (Membership.is_active r)|done]. }
  unfold Membership.apply_step at 1. rewrite Happ.
  destruct (IH (Membership.insert_record v0 r id)) as (v' & Hv' & Hids & Hrecs).
  - by eapply membership_apply_view_wf.
  - done.
  - done.
  - intros i s Hs. destruct (Hl i s) as (Hhs & Hscs & Hnis & Hns); [set_solver|]. simpl.
    split_and!; [done|done| |].
    + intros [->%elem_of_singleton|]%elem_of_union; [|done]. apply Hid, list_elem_of_fmap. by exists (id, s).
    + rewrite lookup_insert_ne; [done|]. intros Heq. apply Hnode. rewrite Heq.
      apply list_elem_of_fmap_2, list_elem_of_fmap. by exists (i, s).
  - intros x s Hx Hs Hne Hax Has. simpl in Hs. apply Hcl; [set_solver| |done..].
    destruct Hs as [Hs|[n [[<- <-]|[_ Hs]]%lookup_insert_Some]]; [left; set_solver|left; set_solver|].
    right. by exists n.
  - exists v'. split_and!; [done| |].
    + intros i. rewrite Hids. simpl. rewrite elem_of_union, elem_of_singleton, elem_of_cons. tauto.
    + intros n s. rewrite Hrecs. simpl. rewrite lookup_insert_Some, elem_of_cons. split.
      * intros [[[<- <-]|[_ ?]]|[? ?]]; tauto.
      * intros [Hs|[[->|?] <-]]; [|by left; left|by right].
        left; right. split; [|done]. intros Heq. rewrite <-Heq, Hnone in Hs. done.
Qed.

Lemma compact_membership_ok scope log v :
  mlog_ok scope log v →
  ∃ v', mlog_ok scope (compact log).1 v' ∧ Membership.records v' = Membership.records v.
Proof.
  intros Hok. pose proof Hok as [Hw Hf Hh Hids Hwin].
  pose proof (from_records_view_wf _ _ _ Hf) as [Hk _ Hcl].
  pose proof (log_wf_compact log Hw) as Hwc.
  assert (∀ id r, (id, r) ∈ kept log → Membership.records v !! node_id r = Some r ∧
    winners log !! node_id r = Some (id, r)) as Hkept.
  { intros id r Hin. apply (elem_of_kept log id r Hw) in Hin as [n Hn].
    assert (Membership.records v !! n = Some r) as Hr by (apply Hwin; eauto).
    destruct (Hk n r Hr) as [-> _]. done. }
  destruct (replay_distinct scope (kept log) MembershipView_default) as (v' & Hv' & Hids' & Hrecs).
  - apply membership_view_wf_default.
  - apply Hwc.
  - rewrite <-list_fmap_compose. apply NoDup_fmap_2_strong.
    + intros [i r] [j s] Hr Hs Heq. simpl in Heq.
      destruct (Hkept i r Hr) as [_ H1], (Hkept j s Hs) as [_ H2]. rewrite Heq in H1. congruence.
    + eapply NoDup_fmap_1, Hwc.
  - intros id r Hin. destruct (Hkept id r Hin) as [Hr _]. split_and!; simpl.
    + apply Hh. unfold kept in Hin. by apply list_elem_of_filter in Hin as [_ ?].
    + by apply (Hk (node_id r)).
    + set_solver.
    + apply lookup_empty.
  - intros r s Hr Hs Hne Har Has. apply list_elem_of_fmap in Hr as ([i r'] & -> & Hr).
    destruct Hs as [Hs|[n Hn]]; [|by rewrite default_records in Hn].
    apply list_elem_of_fmap in Hs as ([j s'] & -> & Hs). simpl in *.
    destruct (Hkept i r' Hr) as [H1 _], (Hkept j s' Hs) as [H2 _].
    by apply (Hcl _ _ _ _ H2 H1).
  - exists v'. assert (Membership.records v' = Membership.records v) as Heq.
    { apply map_eq. intros n. apply option_eq. intros r. rewrite Hrecs, default_records. split.
      - intros [?|[([i r'] & -> & Hr)%list_elem_of_fmap <-]]; [done|]. by apply Hkept in Hr as [? _].
      - intros Hr. right. destruct (proj1 (Hwin n r) Hr) as [id Hid]. split; [|by apply Hk].
        apply list_elem_of_fmap. exists (id, r). split; [done|]. apply elem_of_kept; eauto. }
    split; [|done]. split; simpl; [done|done| | |].
    + intros id r Hin. apply Hh. by apply list_elem_of_filter in Hin as [_ ?].
    + intros id. rewrite Hids'. simpl. fold (kept log). set_solver.
    + intros n r. by rewrite Heq.
Qed.
End membership_log.

(** ** Lemmas: the catalog log *)

Section catalog_log.
Context `{ContentHash CatalogRecord}.

Definition same_project (s t : CatalogScope) : Prop :=
  Catalog.scope_project s = Catalog.scope_project t ∧ Catalog.scope_epoch s = Catalog.scope_epoch t.

(** Owner epochs of a replica do not decrease along the log. *)
Definition epoch_ordered (a b : string * CatalogRecord) : Prop :=
  replica_id a.2 = replica_id b.2 → Catalog.owner_epoch a.2 ≤ Catalog.owner_epoch b.2.

Record clog_ok (scope : CatalogScope) (log : Log CatalogRecord) (v : CatalogView) : Prop := {
  co_wf : log_wf log;
  co_replay : ∀ scope', same_project scope scope' →
    Catalog.from_records (verified (catalog_operations log)) scope' = Ok v;
  co_hash : ∀ id r, (id, r) ∈ operations log → content_hash r = Some id;
  co_ids : ∀ id, id ∈ Catalog.record_ids v ↔ id ∈ (operations log).*1;
  co_winners : ∀ d r, Catalog.records v !! d = Some r ↔ ∃ id, winners log !! d = Some (id, r);
  co_order : StronglySorted epoch_ordered (kept log);
}.

Lemma apply_as_verified v r prov scope scope' x :
  same_project scope scope' → Catalog.apply v r prov scope = Ok x →
  Catalog.apply v r Verified scope' = Ok x.
Proof.
  intros [Hp He] Ha. unfold Catalog.apply in *.
  destruct (Catalog.verify r prov scope) as [[]|] eqn:Ev; [|done].
  apply Catalog.verify_ok in Ev as [(Hv & Hpr & Her) _].
  rewrite (proj2 (Catalog.verify_ok r Verified scope')); [done|].
  split; [|done]. split_and!; [done|by rewrite <-Hp|by rewrite <-He].
Qed.

Lemma catalog_from_records_wf rps scope v :
  Catalog.from_records rps scope = Ok v → Catalog.view_wf scope v.
Proof.
  intros Hf. eapply (try_fold_invariant (Catalog.view_wf scope)); [|apply catalog_view_wf_default|exact Hf].
  intros s a s' Hs _ Ha. unfold Catalog.apply_step in Ha.
  destruct (Catalog.apply s a.1 a.2 scope) as [[out v']|] eqn:Ea; [|done]. injection Ha as <-.
  by eapply catalog_apply_view_wf.
Qed.

Lemma catalog_replay_snoc rs r prov scope scope' v out v' :
  same_project scope scope' → Catalog.from_records (verified rs) scope' = Ok v →
  Catalog.apply v r prov scope = Ok (out, v') →
  Catalog.from_records (verified (rs ++ [r])) scope' = Ok v'.
Proof.
  unfold Catalog.from_records, verified. intros Hsp Hf Ha.
  rewrite fmap_app, try_fold_app, Hf. simpl. unfold Catalog.apply_step. simpl.
  by rewrite (apply_as_verified _ _ _ _ _ _ Hsp Ha).
Qed.

(** Only rows whose winner is kept remain kept when another winner is installed. *)
Lemma kept_upsert (log : Log CatalogRecord) key id r :
  log_wf log → id ∉ (operations log).*1 →
  ∃ k, kept (upsert_winner (insert_operation log id r) key id r) = k ++ [(id, r)] ∧
       k `sublist_of` kept log.
Proof.
  intros Hw Hid. set (log' := upsert_winner _ key id r).
  exists (filter (λ e : string * CatalogRecord, e.1 ∈ winner_ids log') (operations log)). split.
  - unfold kept. subst log'. simpl. rewrite filter_app. f_equal.
    rewrite filter_cons_True; [done|]. simpl. apply elem_of_winner_ids. exists key, r. simpl.
    by rewrite lookup_insert_eq.
  - assert (∀ l, l ⊆ operations log →
      filter (λ e : string * CatalogRecord, e.1 ∈ winner_ids log') l `sublist_of`
      filter (λ e : string * CatalogRecord, e.1 ∈ winner_ids log) l) as Hl; [|by apply Hl].
    induction l as [|[i s] l IH]; intros Hsub; [done|].
    assert (l ⊆ operations log) as Hsub' by set_solver. specialize (IH Hsub').
    rewrite !filter_cons. simpl. destruct (decide (i ∈ winner_ids log')) as [Hi|Hi].
    + rewrite decide_True; [by apply sublist_skip|].
      apply elem_of_winner_ids in Hi as (k & s' & Hk). subst log'. simpl in Hk.
      apply lookup_insert_Some in Hk as [[_ [= <- <-]]|[_ Hk]]; [|apply elem_of_winner_ids; eauto].
      destruct Hid. apply list_elem_of_fmap. exists (id, s). split; [done|]. apply Hsub. set_solver.
    + destruct (decide (i ∈ winner_ids log)); [by apply sublist_cons|done].
Qed.

Lemma kept_insert (log : Log CatalogRecord) id r :
  log_wf log → id ∉ (operations log).*1 → kept (insert_operation log id r) = kept log.
Proof.
  intros Hw Hid. unfold kept. simpl. rewrite filter_app.
  change (winner_ids (insert_operation log id r)) with (winner_ids log).
  rewrite filter_cons_False; [apply app_nil_r|]. simpl. intros (k & s & Hk)%elem_of_winner_ids.
  apply Hid, list_elem_of_fmap. exists (id, s). split; [done|]. by eapply lw_logged.
Qed.

Lemma clog_step scope log v r prov id out v' :
  clog_ok scope log v → id ∉ (operations log).*1 →
  Catalog.apply v r prov scope = Ok (out, v') → content_hash r = Some id →
  let log' := insert_operation log id r in
  clog_ok scope (match out with
                 | Catalog.Applied => upsert_winner log' (deployment_id r) id r
                 | _ => log'
                 end) v' ∧ out ≠ Catalog.Duplicate.
Proof.
  intros Hok Hnew Ea Hid. pose proof Hok as [Hw Hf Hh Hids Hwin Hord].
  pose proof Ea as Hinv. apply catalog_apply_inv in Hinv as [_ (id' & Hid' & Hr)].
  rewrite Hid in Hid'. injection Hid' as <-.
  assert (∀ scope', same_project scope scope' →
    Catalog.from_records (verified (operations log ++ [(id, r)]).*2) scope' = Ok v') as Hf'.
  { intros scope' Hsp. rewrite fmap_app. by eapply (catalog_replay_snoc _ _ _ _ _ v); [|apply Hf|]. }
  assert (∀ i x, (i, x) ∈ operations log ++ [(id, r)] → content_hash x = Some i) as Hh'.
  { intros i x [?|Hx]%elem_of_app; [by apply Hh|]. apply list_elem_of_singleton in Hx.
    by injection Hx as -> ->. }
  assert (∀ i, i ∈ {[id]} ∪ Catalog.record_ids v ↔ i ∈ (operations log ++ [(id, r)]).*1) as Hids'.
  { intros i. rewrite fmap_app, elem_of_app, elem_of_union, Hids. simpl. set_solver. }
  destruct Hr as [Hdup|cur cid Hni Hcur Hcid Hle|Hni Hep Hcur].
  - destruct Hnew. by apply Hids.
  - split; [|done]. split; try done; [by apply log_wf_insert|]. by rewrite kept_insert.
  - split; [|done]. split; try done; [by apply log_wf_upsert| |]; simpl.
    + intros d s. rewrite lookup_insert_Some, Hwin. split.
      * intros [[<- <-]|[Hne [i Hi]]]; [exists id; by rewrite lookup_insert_eq|].
        exists i. by rewrite lookup_insert_ne.
      * intros [i [[<- [= <- <-]]|[Hne Hi]]%lookup_insert_Some]; [by left|right; eauto].
    + destruct (kept_upsert log (deployment_id r) id r Hw Hnew) as (k & -> & Hk).
      apply StronglySorted_snoc; [by eapply StronglySorted_sublist|].
      apply Forall_forall. intros [i s] Hs. assert ((i, s) ∈ kept log) as Hs' by by eapply elem_of_sublist.
      apply elem_of_kept in Hs' as [d Hd]; [|done]. intros Hrep. simpl in *.
      apply (Hep d s); [apply Hwin; eauto|done].
Qed.

(** A new operation: the store does exactly what the view does. *)
Lemma apply_catalog_new c scope log v r prov id :
  clog_ok scope log v → content_hash r = Some id → id ∉ (operations log).*1 →
  ensure_replication_capacity c = Ok () →
  Catalog.owner_epoch r ≤ i64_max → Catalog.revision r ≤ i64_max →
  match Catalog.apply v r prov scope with
  | Ok (out, v') => ∃ log', apply_catalog c log r prov scope = Ok (out, log') ∧ clog_ok scope log' v' ∧
      out ≠ Catalog.Duplicate
  | Err e => apply_catalog c log r prov scope = Err (CatalogFailed e)
  end.
Proof.
  intros Hok Hid Hnew Hcap Hepoch Hrev. unfold apply_catalog, Catalog.record_id. rewrite Hid. simpl.
  rewrite (proj2 (has_operation_false log id) Hnew), Hcap, (co_replay _ _ _ Hok scope) by done. simpl.
  destruct (Catalog.apply v r prov scope) as [[out v']|e] eqn:Ea; [|done]. simpl.
  destruct (clog_step _ _ _ _ _ _ _ _ Hok Hnew Ea Hid) as (Hok' & Hnd).
  unfold fits_i64. rewrite !(proj2 (N.leb_le _ _)) by done. destruct out; eauto.
Qed.

Lemma clog_ok_members scope scope' log v :
  same_project scope scope' → clog_ok scope log v → clog_ok scope' log v.
Proof.
  intros [Hp He] [Hw Hf Hh Hids Hwin Hord]. split; try done. intros s [Hp' He']. apply Hf.
  split; congruence.
Qed.

Lemma apply_catalog_keeps c scope scope' log v r prov out log' :
  same_project scope scope' → clog_ok scope log v →
  apply_catalog c log r prov scope' = Ok (out, log') → ∃ v', clog_ok scope log' v'.
Proof.
  intros Hsp Hok. pose proof (clog_ok_members _ _ _ _ Hsp Hok) as Hok1.
  unfold apply_catalog, Catalog.record_id.
  destruct (content_hash r) as [id|] eqn:Hid; [|done]. simpl.
  destruct (has_operation log id) eqn:Hnew; [intros [= <- <-]; eauto|].
  apply has_operation_false in Hnew. destruct (ensure_replication_capacity c); [|done].
  rewrite (co_replay _ _ _ Hok1 scope') by done. simpl.
  destruct (Catalog.apply v r prov scope') as [[o v']|e] eqn:Ea; [|done]. simpl.
  destruct (clog_step _ _ _ _ _ _ _ _ Hok1 Hnew Ea Hid) as (Hok' & Hnd).
  assert (same_project scope' scope) as Hps by (destruct Hsp; split; congruence).
  destruct o; [destruct (_ && _); [|done]| |]; intros [= <- <-]; exists v';
    by eapply clog_ok_members.
Qed.

(** Replaying records of distinct deployments whose epochs are in order installs all. *)
Lemma catalog_replay_distinct scope l v0 :
  NoDup l.*1 → NoDup (deployment_id <$> l.*2) → StronglySorted epoch_ordered l →
  (∀ id r, (id, r) ∈ l → content_hash r = Some id ∧ Catalog.in_scope scope r ∧
     id ∉ Catalog.record_ids v0 ∧ Catalog.records v0 !! deployment_id r = None) →
  (∀ d c r, Catalog.records v0 !! d = Some c → r ∈ l.*2 → replica_id c = replica_id r →
     Catalog.owner_epoch c ≤ Catalog.owner_epoch r) →
  ∃ v', try_fold (Catalog.apply_step scope) v0 (verified l.*2) = Ok v' ∧
    (∀ id, id ∈ Catalog.record_ids v' ↔ id ∈ Catalog.record_ids v0 ∨ id ∈ l.*1) ∧
    (∀ d r, Catalog.records v' !! d = Some r ↔
       Catalog.records v0 !! d = Some r ∨ (r ∈ l.*2 ∧ deployment_id r = d)).
Proof.
  revert v0. induction l as [|[id r] l IH]; intros v0 Hnd Hnn Hs Hl Hep; simpl.
  { exists v0. split_and!; [done|set_solver|]. intros n r. set_solver. }
  simpl in Hnd, Hnn. apply NoDup_cons in Hnd as [Hid Hnd]. apply NoDup_cons in Hnn as [Hdep Hnn].
  apply StronglySorted_inv in Hs as [Hs Hfirst]. rewrite Forall_forall in Hfirst.
  destruct (Hl id r) as (Hh & Hsc & Hni & Hnone); [set_solver|].
  assert (Catalog.apply v0 r Verified scope = Ok (Catalog.Applied, Catalog.insert_record v0 r id)) as Happ.
  { unfold Catalog.apply. rewrite (proj2 (Catalog.verify_ok r Verified scope)) by done.
    unfold Catalog.record_id. rewrite Hh. simpl. rewrite bool_decide_false by done.
    rewrite (proj2 (epoch_check_spec v0 r)), Hnone; [done|].
    intros d c Hc Hrep. by apply (Hep d c r); [|set_solver|]. }
  unfold Catalog.apply_step at 1. simpl. rewrite Happ.
  destruct (IH (Catalog.insert_record v0 r id)) as (v' & Hv' & Hids & Hrecs); [done|done|done| | |].
  - intros i s His. destruct (Hl i s) as (Hhs & Hscs & Hnis & Hns); [set_solver|]. simpl.
    split_and!; [done|done| |].
    + intros [->%elem_of_singleton|]%elem_of_union; [|done]. apply Hid, list_elem_of_fmap. by exists (id, s).
    + rewrite lookup_insert_ne; [done|]. intros Heq. apply Hdep. rewrite Heq.
      apply list_elem_of_fmap_2, list_elem_of_fmap. by exists (i, s).
  - simpl. intros d c s [[<- <-]|[_ Hc]]%lookup_insert_Some Hin Hrep.
    + apply list_elem_of_fmap in Hin as ([i s'] & -> & Hin). by apply (Hfirst (i, s')).
    + by apply (Hep d c s Hc); [set_solver|].
  - exists v'. split_and!; [done| |].
    + intros i. rewrite Hids. simpl. rewrite elem_of_union, elem_of_singleton, elem_of_cons. tauto.
    + intros n s. rewrite Hrecs. simpl. rewrite lookup_insert_Some, elem_of_cons. split.
      * intros [[[<- <-]|[_ ?]]|[? ?]]; tauto.
      * intros [Hsn|[[->|?] <-]]; [|by left; left|by right].
        left; right. split; [|done]. intros Heq. rewrite <-Heq, Hnone in Hsn. done.
Qed.

Lemma catalog_default_records d : Catalog.records CatalogView_default !! d = None.
Proof. apply lookup_empty. Qed.

Lemma compact_catalog_ok scope log v :
  clog_ok scope log v →
  ∃ v', clog_ok scope (compact log).1 v' ∧ Catalog.records v' = Catalog.records v.
Proof.
  intros Hok. pose proof Hok as [Hw Hf Hh Hids Hwin Hord].
  pose proof (log_wf_compact log Hw) as Hwc.
  assert (∀ scope', same_project scope scope' → ∀ d r, Catalog.records v !! d = Some r →
    deployment_id r = d ∧ Catalog.in_scope scope' r) as Hk.
  { intros scope' Hsp. destruct (catalog_from_records_wf _ _ _ (Hf scope' Hsp)) as [Hk _]. apply Hk. }
  assert (∀ id r, (id, r) ∈ kept log → Catalog.records v !! deployment_id r = Some r ∧
    winners log !! deployment_id r = Some (id, r)) as Hkept.
  { intros id r Hin. apply (elem_of_kept log id r Hw) in Hin as [n Hn].
    assert (Catalog.records v !! n = Some r) as Hr by (apply Hwin; eauto).
    destruct (Hk scope ltac:(done) n r Hr) as [-> _]. done. }
  assert (∀ scope', same_project scope scope' → ∃ v',
    Catalog.from_records (verified (kept log).*2) scope' = Ok v' ∧
    (∀ id, id ∈ Catalog.record_ids v' ↔ id ∈ (kept log).*1) ∧
    Catalog.records v' = Catalog.records v) as Hreplay.
  { intros scope' Hsp.
    destruct (catalog_replay_distinct scope' (kept log) CatalogView_default) as (v' & Hv' & Hids' & Hrecs).
    - apply Hwc.
    - rewrite <-list_fmap_compose. apply NoDup_fmap_2_strong.
      + intros [i r] [j s] Hr Hs Heq. simpl in Heq.
        destruct (Hkept i r Hr) as [_ H1], (Hkept j s Hs) as [_ H2]. rewrite Heq in H1. congruence.
      + eapply NoDup_fmap_1, Hwc.
    - done.
    - intros id r Hin. destruct (Hkept id r Hin) as [Hr _]. split_and!; simpl.
      + apply Hh. unfold kept in Hin. by apply list_elem_of_filter in Hin as [_ ?].
      + by apply (Hk scope' Hsp (deployment_id r)).
      + set_solver.
      + apply lookup_empty.
    - intros d c r Hc. by rewrite catalog_default_records in Hc.
    - exists v'. split_and!; [done| |].
      + intros id. rewrite Hids'. simpl. set_solver.
      + apply map_eq. intros n. apply option_eq. intros r. rewrite Hrecs, catalog_default_records. split.
        * intros [?|[Hr <-]]; [done|]. apply list_elem_of_fmap in Hr as ([i r'] & -> & Hr).
          by apply Hkept in Hr as [? _].
        * intros Hr. right. destruct (proj1 (Hwin n r) Hr) as [id Hid].
          split; [|by apply (Hk scope ltac:(done))].
          apply list_elem_of_fmap. exists (id, r). split; [done|]. apply elem_of_kept; eauto. }
  destruct (Hreplay scope ltac:(done)) as (v' & Hv' & Hids' & Heq).
  exists v'. split; [|done]. split; [done| | |done| |].
  - intros scope' Hsp. destruct (Hreplay scope' Hsp) as (v2 & Hv2 & Hids2 & Heq2).
    change (Catalog.from_records (verified (kept log).*2) scope' = Ok v'). rewrite Hv2. f_equal.
    destruct v2 as [rec2 ids2], v' as [rec1 ids1]. simpl in *. subst rec1 rec2. f_equal.
    apply set_eq. intros id. by rewrite Hids2, Hids'.
  - intros id r Hin. apply Hh. by apply list_elem_of_filter in Hin as [_ ?].
  - intros n r. by rewrite Heq.
  - assert (kept (compact log).1 = kept log) as Hkk.
    { unfold kept at 1. simpl. fold (kept log).
      change (winner_ids (compact log).1) with (winner_ids log).
      unfold kept. rewrite list_filter_filter. apply list_filter_iff. tauto. }
    by rewrite Hkk.
Qed.
End catalog_log.

Module OpLogProps.

Section props.
Context `{ContentHash MembershipRecord, ContentHash CatalogRecord, ContentHash DesiredStateRecord}.

(** What can happen to the membership tables of one host. *)
Inductive mstep (scope : MembershipScope) : Log MembershipRecord → Log MembershipRecord → Prop :=
| mstep_apply c log r out log' :
    apply_membership c log r scope = Ok (out, log') → mstep scope log log'
| mstep_compact log : mstep scope log (compact log).1.

(** What can happen to the catalog tables; the members change between operations. *)
Inductive cstep (scope : CatalogScope) : Log CatalogRecord → Log CatalogRecord → Prop :=
| cstep_apply c log r prov scope' out log' :
    same_project scope scope' →
    apply_catalog c log r prov scope' = Ok (out, log') → cstep scope log log'
| cstep_compact log : cstep scope log (compact log).1.

Lemma mstep_ok scope log log' v :
  mlog_ok scope log v → mstep scope log log' → ∃ v', mlog_ok scope log' v'.
Proof.
  intros Hok Hs. destruct Hs as [c log r out log' Ha|log]; [by eapply apply_membership_keeps|].
  destruct (compact_membership_ok _ _ _ Hok) as (v' & ? & _). eauto.
Qed.

Lemma cstep_ok scope log log' v :
  clog_ok scope log v → cstep scope log log' → ∃ v', clog_ok scope log' v'.
Proof.
  intros Hok Hs. destruct Hs as [c log r prov scope' out log' Hsp Ha|log];
    [by eapply apply_catalog_keeps|].
  destruct (compact_catalog_ok _ _ _ Hok) as (v' & ? & _). eauto.
Qed.

Lemma clog_empty scope : clog_ok scope Log_empty CatalogView_default.
Proof.
  split; simpl; [split; simpl; [constructor|by intros ???; rewrite lookup_empty]|done|set_solver|set_solver| |constructor].
  intros n r. rewrite lookup_empty. split; [done|]. intros [id Hid]. by rewrite lookup_empty in Hid.
Qed.

Lemma reachable_membership scope log :
  rtc (mstep scope) Log_empty log → ∃ v, mlog_ok scope log v.
Proof.
  intros Hr. assert (∃ v, mlog_ok scope (@Log_empty MembershipRecord) v) as Hv
    by (eexists; apply mlog_empty).
  revert Hv. induction Hr as [|l1 l2 l3 Hs Hr IH]; intros [v Hv]; [eauto|].
  apply IH. by eapply mstep_ok.
Qed.

Lemma reachable_catalog scope log :
  rtc (cstep scope) Log_empty log → ∃ v, clog_ok scope log v.
Proof.
  intros Hr. assert (∃ v, clog_ok scope (@Log_empty CatalogRecord) v) as Hv
    by (eexists; apply clog_empty).
  revert Hv. induction Hr as [|l1 l2 l3 Hs Hr IH]; intros [v Hv]; [eauto|].
  apply IH. by eapply cstep_ok.
Qed.

(** C7: The database implements the membership view.  After any sequence of applied
    records and compactions the log replays to a view whose records are exactly the
    materialised table; and a record that is not logged yet gets from the database the
    outcome, or the error, the view gives it, the unique index on server names included,
    as long as the quota is not reached and the numbers fit the columns. *)
Theorem membership_store_refines_the_view scope log :
  rtc (mstep scope) Log_empty log →
  ∃ v, Membership.from_records (membership_operations log) scope = Ok v ∧
    (∀ n r, Membership.records v !! n = Some r ↔ ∃ id, winners log !! n = Some (id, r)) ∧
    ∀ c r id, content_hash r = Some id → id ∉ (operations log).*1 →
      ensure_replication_capacity c = Ok () →
      Membership.owner_epoch r ≤ i64_max → Membership.revision r ≤ i64_max →
      match Membership.apply v r scope, apply_membership c log r scope with
      | Ok (out, _), Ok (out', _) => out = out'
      | Err e, Err e' => e' = MembershipFailed e
      | _, _ => False
      end.
Proof.
  intros [v Hok]%reachable_membership. exists v. split_and!; [apply Hok|apply Hok|].
  intros c r id Hid Hnew Hcap He Hr. pose proof (apply_membership_new c scope log v r id Hok Hid Hnew Hcap He Hr) as Hn.
  destruct (Membership.apply v r scope) as [[out v']|e].
  - by destruct Hn as (log' & -> & _).
  - by rewrite Hn.
Qed.

(** The catalog never wedges.  After any sequence of applied records and
    compactions, under whatever membership each of them was checked, the log replays
    without error for every later membership, to a view whose records are exactly the
    materialised table. *)
Theorem catalog_log_always_replays scope log :
  rtc (cstep scope) Log_empty log →
  ∃ v, (∀ scope', same_project scope scope' →
          Catalog.from_records (verified (catalog_operations log)) scope' = Ok v) ∧
    ∀ d r, Catalog.records v !! d = Some r ↔ ∃ id, winners log !! d = Some (id, r).
Proof. intros [v Hok]%reachable_catalog. exists v. split; apply Hok. Qed.

(** C29: Compaction changes no state: what remains of the two logs replays to views with
    the same records as before, the materialised tables are untouched, and exactly the
    rows that are no winner's operation are gone. *)
Theorem compaction_preserves_state scope cscope log clog :
  rtc (mstep scope) Log_empty log → rtc (cstep cscope) Log_empty clog →
  (∃ v v', Membership.from_records (membership_operations log) scope = Ok v ∧
     Membership.from_records (membership_operations (compact log).1) scope = Ok v' ∧
     Membership.records v' = Membership.records v) ∧
  (∃ v v', Catalog.from_records (verified (catalog_operations clog)) cscope = Ok v ∧
     Catalog.from_records (verified (catalog_operations (compact clog).1)) cscope = Ok v' ∧
     Catalog.records v' = Catalog.records v) ∧
  winners (compact log).1 = winners log ∧ winners (compact clog).1 = winners clog ∧
  (∀ id r, (id, r) ∈ operations (compact log).1 ↔ ∃ n, winners log !! n = Some (id, r)).
Proof.
  intros [v Hok]%reachable_membership [w Hcok]%reachable_catalog.
  destruct (compact_membership_ok _ _ _ Hok) as (v' & Hok' & Heq).
  destruct (compact_catalog_ok _ _ _ Hcok) as (w' & Hcok' & Hceq). split_and!; try done.
  - exists v, v'. split_and!; [apply Hok|apply Hok'|done].
  - exists w, w'. split_and!; [by apply Hcok|by apply Hcok'|done].
  - intros id r. apply (elem_of_kept log id r), Hok.
Qed.

(** C36: A desired-state log with a record of an author whose owner epoch has moved on
    refuses every further record: whatever new record is offered, storing it fails,
    because the whole log is verified against the current membership first. *)
Theorem desired_log_wedges_after_epoch_change c log scope old author r prov id :
  old ∈ desired_operations log → Desired.validate old = Ok () →
  Desired.project_id old = Desired.scope_project scope →
  Desired.recovery_epoch old = Desired.scope_epoch scope →
  Membership.get (Desired.scope_members scope) (author_node_id old) = Some author →
  Membership.owner_epoch author ≠ author_epoch old →
  content_hash r = Some id → has_operation log id = false →
  is_ok (apply_desired c log r prov scope) = false.
Proof.
  intros Hold Hv Hp He Ha Hne Hid Hnew. unfold apply_desired, Desired.record_id. rewrite Hid. simpl.
  rewrite Hnew. destruct (ensure_replication_capacity c); [|done].
  assert (is_ok (Desired.from_records (verified (desired_operations log)) scope) = false) as Hf.
  { apply (stale_author_replay scope _ old author); try done.
    by apply (list_elem_of_fmap_2 (λ r, (r, Verified))). }
  by destruct (Desired.from_records _ _).
Qed.
End props.

Definition sample_capacity : Capacity := {| soft_quota_bytes := None; page_count := 8; page_size := 4096 |}.

Lemma sample_membership_log :
  ∃ log, rtc (@mstep MembershipProps.sample_hash MembershipProps.sample_scope) Log_empty log ∧
    map_to_list (winners log) = [("a", ("a:1:1A", MembershipProps.sample_a))] ∧
    operations log = [("a:1:1A", MembershipProps.sample_a)].
Proof.
  eexists. split.
  - eapply rtc_once, (@mstep_apply MembershipProps.sample_hash _ sample_capacity _ MembershipProps.sample_a).
    vm_compute. reflexivity.
  - split; vm_compute; reflexivity.
Qed.

Lemma membership_store_refines_the_view_witness :
  ∃ log v, operations log = [("a:1:1A", MembershipProps.sample_a)] ∧
    @Membership.from_records MembershipProps.sample_hash (membership_operations log)
      MembershipProps.sample_scope = Ok v.
Proof.
  destruct sample_membership_log as (log & Hr & _ & Hops). exists log.
  destruct (@membership_store_refines_the_view MembershipProps.sample_hash MembershipProps.sample_scope
    log Hr) as (v & Hv & _).
  by exists v.
Defined.

Lemma sample_catalog_log :
  ∃ log, rtc (@cstep CatalogProps.sample_hash CatalogProps.sample_scope) Log_empty log ∧
    operations log = [("d1:2:1", CatalogProps.sample_deployment "d1" "a" 2 1 Catalog.Active)].
Proof.
  eexists. split.
  - eapply rtc_once, (@cstep_apply CatalogProps.sample_hash _ sample_capacity _
      (CatalogProps.sample_deployment "d1" "a" 2 1 Catalog.Active) Local CatalogProps.sample_scope).
    + done.
    + vm_compute. reflexivity.
  - vm_compute. reflexivity.
Qed.

Lemma catalog_log_always_replays_witness :
  ∃ log v, operations log = [("d1:2:1", CatalogProps.sample_deployment "d1" "a" 2 1 Catalog.Active)] ∧
    @Catalog.from_records CatalogProps.sample_hash (verified (catalog_operations log))
      CatalogProps.sample_scope = Ok v.
Proof.
  destruct sample_catalog_log as (log & Hr & Hops). exists log.
  destruct (@catalog_log_always_replays CatalogProps.sample_hash CatalogProps.sample_scope log Hr)
    as (v & Hv & _).
  exists v. split; [done|]. by apply Hv.
Defined.

Lemma compaction_preserves_state_witness :
  ∃ log (clog : Log CatalogRecord), operations log = [("a:1:1A", MembershipProps.sample_a)] ∧
    winners (compact log).1 = winners log ∧ winners (compact clog).1 = winners clog.
Proof.
  destruct sample_membership_log as (log & Hr & _ & Hops).
  destruct sample_catalog_log as (clog & Hcr & _). exists log, clog.
  destruct (@compaction_preserves_state MembershipProps.sample_hash CatalogProps.sample_hash
    MembershipProps.sample_scope CatalogProps.sample_scope log clog Hr Hcr) as (_ & _ & Hw & Hcw & _).
  by split_and!.
Defined.

Lemma desired_log_wedges_after_epoch_change_witness :
  let old := DesiredProps.sample_desired 1 None 7 in
  is_ok (@apply_desired DesiredProps.sample_hash sample_capacity
           {| operations := [("web:1", old)]; winners := {["web" := ("web:1", old)]} |}
           (DesiredProps.sample_desired 2 (Some 5) 1) Local DesiredProps.sample_scope) = false.
Proof.
  intros old. eapply (@desired_log_wedges_after_epoch_change DesiredProps.sample_hash sample_capacity _
    DesiredProps.sample_scope old MembershipProps.sample_a _ Local "web:2").
  - apply list_elem_of_here.
  - reflexivity.
  - reflexivity.
  - reflexivity.
  - vm_compute. reflexivity.
  - vm_compute. discriminate.
  - vm_compute. reflexivity.
  - vm_compute. reflexivity.
Defined.

End OpLogProps.
