(* ===== verification/Leases.v ===== *)
(** Deployment addresses: the allocator of [jiji-agent/src/leases.rs] and the tables it
    works on in [jiji-agent/src/store.rs] (address leases, discovery checkpoints and
    container observations).

    The tables are maps keyed by their primary key; [address] is [UNIQUE], so an insert
    that would repeat an address is a database error.  [rusqlite] refuses to store or bind
    a [u64] above [i64::MAX].  The text of an address stands for the address. *)

From S2P Require Import Prelude Text Cidr.
Open Scope N_scope.

Record AddressLease := {
  lease_deployment : string;
  lease_replica : string;
  lease_address : N;
  lease_state : string;
  lease_quarantine_until : option N;
}.

Record Observation := {
  container_id : string;
  observed_name : string;
  observed_image : string;
  labels_json : string;
  observed_state : string;
}.

Record LeaseTables := {
  leases : gmap string AddressLease;
  checkpoints : gmap string string;
  observations : gmap string Observation;
}.

(** [DeploymentConflict] is declared by the source and constructed nowhere; the payload of
    a store error is left out. *)
Inductive LeaseError :=
| DeploymentConflict (deployment_id : string) (actual requested : N)
| Exhausted (subnet : Ipv4Cidr)
| StoreFailed.

(** The [Display] of an error, less the text of a store error. *)
Definition lease_error_text (e : LeaseError) : string :=
  match e with
  | DeploymentConflict d actual requested =>
      "deployment '" +:+ d +:+ "' already owns " +:+ ipv4_to_string actual +:+
      ", not requested address " +:+ ipv4_to_string requested
  | Exhausted subnet => "no deployment addresses remain in " +:+ cidr_to_string subnet
  | StoreFailed => "lease store failed"
  end.

Definition DEFAULT_QUARANTINE_SECONDS : N := 30.

Definition cron_replica_id (service cron_name : string) : string :=
  "cron/" +:+ service +:+ "/" +:+ cron_name.

Definition with_leases (t : LeaseTables) (l : gmap string AddressLease) : LeaseTables :=
  {| leases := l; checkpoints := checkpoints t; observations := observations t |}.

(** ** Checkpoints and observations *)

Definition set_checkpoint (t : LeaseTables) (key value : string) : LeaseTables :=
  {| leases := leases t; checkpoints := <[key := value]> (checkpoints t);
     observations := observations t |}.
Definition get_checkpoint (t : LeaseTables) (key : string) : option string := checkpoints t !! key.

Definition upsert_observation (t : LeaseTables) (o : Observation) : LeaseTables :=
  {| leases := leases t; checkpoints := checkpoints t;
     observations := <[container_id o := o]> (observations t) |}.

(** [retain_observations]: drop what the last discovery no longer sees. *)
Definition retain_observations (t : LeaseTables) (current_ids : list string) : LeaseTables * nat :=
  let kept := filter (λ e : string * Observation, e.1 ∈ current_ids) (observations t) in
  ({| leases := leases t; checkpoints := checkpoints t; observations := kept |},
   (size (observations t) - size kept)%nat).

Definition list_observations (t : LeaseTables) : list Observation := btree_values (observations t).
Definition observation_count (t : LeaseTables) : nat := size (observations t).

(** ** Leases *)

Definition address_lease (t : LeaseTables) (deployment : string) : option AddressLease :=
  leases t !! deployment.
Definition address_leases (t : LeaseTables) : list AddressLease := btree_values (leases t).

Definition active_lease (deployment replica : string) (a : N) : AddressLease :=
  {| lease_deployment := deployment; lease_replica := replica; lease_address := a;
     lease_state := "active"; lease_quarantine_until := None |}.

(** Some lease holds the address. *)
Definition address_taken (t : LeaseTables) (a : N) : bool :=
  existsb (λ l, lease_address l =? a) (address_leases t).

(** [claim_address_lease]. *)
Definition claim_address_lease (t : LeaseTables) (deployment replica : string) (a : N) :
    result LeaseError (bool * LeaseTables) :=
  match address_lease t deployment with
  | Some lease =>
      Ok (bool_decide (lease_replica lease = replica) && (lease_address lease =? a), t)
  | None =>
      if address_taken t a then Err StoreFailed
      else Ok (true, with_leases t (<[deployment := active_lease deployment replica a]> (leases t)))
  end.

(** [recover_address_lease]. *)
Definition recover_address_lease (t : LeaseTables) (deployment replica : string) (a : N) :
    bool * LeaseTables :=
  match address_lease t deployment with
  | Some existing =>
      if negb (bool_decide (lease_replica existing = replica)) || negb (lease_address existing =? a)
      then (false, t)
      else (true, with_leases t (<[deployment := active_lease deployment (lease_replica existing)
                                                  (lease_address existing)]> (leases t)))
  | None =>
      if address_taken t a then (false, t)
      else (true, with_leases t (<[deployment := active_lease deployment replica a]> (leases t)))
  end.

(** [quarantine_address_lease]: false when there is no such lease. *)
Definition quarantine_address_lease (t : LeaseTables) (deployment : string) (until : N) :
    result LeaseError (bool * LeaseTables) :=
  if i64_max <? until then Err StoreFailed
  else
    match address_lease t deployment with
    | None => Ok (false, t)
    | Some l =>
        Ok (true, with_leases t (<[deployment :=
              {| lease_deployment := deployment; lease_replica := lease_replica l;
                 lease_address := lease_address l; lease_state := "quarantined";
                 lease_quarantine_until := Some until |}]> (leases t)))
    end.

(** The [jiji.deployment] label of a container, as [serde_json] reads it out of the stored
    text: [None] when the text is not JSON or has no such string. *)
Class Labels := { deployment_label : string → option string }.

Definition is_expired (timestamp : N) (l : AddressLease) : bool :=
  bool_decide (lease_state l = "quarantined") &&
  match lease_quarantine_until l with Some until => until <=? timestamp | None => false end.

Section allocator.
Context `{Labels}.

(** The deployments some container is labelled with. *)
Definition claimed_deployments (t : LeaseTables) : list string :=
  omap (λ o, d ← deployment_label (labels_json o); if bool_decide (d = "") then None else Some d)
    (list_observations t).

(** [collect_expired_address_leases]. *)
Definition collect_expired_address_leases (t : LeaseTables) (timestamp : N) :
    result LeaseError (nat * LeaseTables) :=
  match get_checkpoint t "last_discovery_at" with
  | None => Ok (O, t)
  | Some _ =>
      if i64_max <? timestamp then Err StoreFailed
      else
        let claimed := claimed_deployments t in
        let kept := filter (λ e : string * AddressLease,
                              is_expired timestamp e.2 && negb (bool_decide (e.1 ∈ claimed)) = false)
                      (leases t) in
        Ok ((size (leases t) - size kept)%nat, with_leases t kept)
  end.

Record AddressAllocator := { alloc_subnet : Ipv4Cidr; alloc_reserved : gset N }.

(** [AddressAllocator::new]: the first and the last address are always reserved. *)
Definition allocator_new (s : Ipv4Cidr) (reserved : list N) : AddressAllocator :=
  let reserved := {[network s]} ∪ (list_to_set reserved : gset N) in
  {| alloc_subnet := s;
     alloc_reserved := match address s (saturating_sub (address_count s) 1) with
                       | Some broadcast => {[broadcast]} ∪ reserved
                       | None => reserved
                       end |}.

(** The loop over the offsets. *)
Fixpoint try_offsets (al : AddressAllocator) (used : gset N) (deployment replica : string)
    (t : LeaseTables) (offsets : list N) : result LeaseError (AddressLease * LeaseTables) :=
  match offsets with
  | [] => Err (Exhausted (alloc_subnet al))
  | offset :: rest =>
      match address (alloc_subnet al) offset with
      | None => try_offsets al used deployment replica t rest
      | Some a =>
          if bool_decide (a ∈ alloc_reserved al) || bool_decide (a ∈ used) then
            try_offsets al used deployment replica t rest
          else
            let? (claimed, t') := claim_address_lease t deployment replica a in
            if claimed then
              let? lease := ok_or (address_lease t' deployment) StoreFailed in Ok (lease, t')
            else try_offsets al used deployment replica t' rest
      end
  end.

(** [1..self.subnet.address_count().saturating_sub(1)]. *)
Definition candidate_offsets (al : AddressAllocator) : list N :=
  N.of_nat <$> seq 1 (N.to_nat (saturating_sub (address_count (alloc_subnet al)) 1 - 1)).

(** [AddressAllocator::allocate]. *)
Definition allocate (al : AddressAllocator) (t : LeaseTables) (deployment replica : string)
    (timestamp : N) : result LeaseError (AddressLease * LeaseTables) :=
  let? (_, t) := collect_expired_address_leases t timestamp in
  match address_lease t deployment with
  | Some existing => Ok (existing, t)
  | None =>
      let used := list_to_set (lease_address <$> address_leases t) in
      try_offsets al used deployment replica t (candidate_offsets al)
  end.

(** [AddressAllocator::release]. *)
Definition release (t : LeaseTables) (deployment : string) (timestamp quarantine_seconds : N) :
    result LeaseError (bool * LeaseTables) :=
  quarantine_address_lease t deployment (u64_saturating_add timestamp quarantine_seconds).
End allocator.

(** ** Lemmas *)

(** Rows are filed under their deployment and no address is leased twice. *)
Record leases_wf (m : gmap string AddressLease) : Prop := {
  ls_keyed : ∀ d l, m !! d = Some l → lease_deployment l = d;
  ls_unique : ∀ d1 d2 l1 l2, m !! d1 = Some l1 → m !! d2 = Some l2 →
    lease_address l1 = lease_address l2 → d1 = d2;
}.

Lemma address_taken_true t a :
  address_taken t a = true ↔ ∃ d l, leases t !! d = Some l ∧ lease_address l = a.
Proof.
  unfold address_taken. rewrite existsb_exists. setoid_rewrite <-list_elem_of_In.
  unfold address_leases. setoid_rewrite elem_of_btree_values. setoid_rewrite N.eqb_eq. split.
  - intros (l & (d & Hd) & Ha). eauto.
  - intros (d & l & Hd & Ha). eauto.
Qed.

(** A new row whose address is free, or a changed row that keeps its address. *)
Lemma leases_wf_insert m d l :
  leases_wf m → lease_deployment l = d →
  (∀ d' l', m !! d' = Some l' → lease_address l' = lease_address l → d' = d) →
  leases_wf (<[d := l]> m).
Proof.
  intros [Hk Hu] Hl Hfree. split.
  - intros d' l' [[<- <-]|[_ ?]]%lookup_insert_Some; [done|by apply Hk].
  - intros d1 d2 l1 l2 [[<- <-]|[Hn1 H1]]%lookup_insert_Some [[<- <-]|[Hn2 H2]]%lookup_insert_Some Ha;
      [done|symmetry; by eapply Hfree|by eapply Hfree|by eapply Hu].
Qed.

Lemma leases_wf_filter (P : string * AddressLease → Prop) `{∀ x, Decision (P x)} m :
  leases_wf m → leases_wf (filter P m).
Proof.
  intros [Hk Hu]. split.
  - intros d l [Hl _]%map_lookup_filter_Some. by apply Hk.
  - intros d1 d2 l1 l2 [H1 _]%map_lookup_filter_Some [H2 _]%map_lookup_filter_Some. by apply Hu.
Qed.

Lemma claim_address_lease_cases t deployment replica a :
  match claim_address_lease t deployment replica a with
  | Ok (claimed, t') =>
      (t' = t ∧ is_Some (leases t !! deployment)) ∨
      (claimed = true ∧ leases t !! deployment = None ∧ address_taken t a = false ∧
       t' = with_leases t (<[deployment := active_lease deployment replica a]> (leases t)))
  | Err e => e = StoreFailed ∧ leases t !! deployment = None ∧ address_taken t a = true
  end.
Proof.
  unfold claim_address_lease, address_lease. destruct (leases t !! deployment) eqn:E; [by left; eauto|].
  destruct (address_taken t a) eqn:Et; [done|]. right. done.
Qed.

Lemma address_not_taken t a d l :
  address_taken t a = false → leases t !! d = Some l → lease_address l ≠ a.
Proof.
  intros Hf Hl Ha. assert (address_taken t a = true) by (apply address_taken_true; eauto). congruence.
Qed.

Lemma claim_wf t deployment replica a claimed t' :
  leases_wf (leases t) → claim_address_lease t deployment replica a = Ok (claimed, t') →
  leases_wf (leases t').
Proof.
  intros Hw Hc. pose proof (claim_address_lease_cases t deployment replica a) as Hcases.
  rewrite Hc in Hcases. destruct Hcases as [[-> _]|(-> & Hn & Ht & ->)]; [done|]. simpl.
  apply leases_wf_insert; [done|done|]. intros d' l' Hl Ha. by destruct (address_not_taken t a d' l').
Qed.

Section allocator_lemmas.
Context `{Labels}.

Definition still_used (t : LeaseTables) (timestamp : N) (d : string) (l : AddressLease) : Prop :=
  lease_state l ≠ "quarantined" ∨ d ∈ claimed_deployments t ∨
  (∀ until, lease_quarantine_until l = Some until → timestamp < until).

Lemma is_expired_false timestamp l :
  is_expired timestamp l = false ↔
  lease_state l ≠ "quarantined" ∨ (∀ until, lease_quarantine_until l = Some until → timestamp < until).
Proof.
  unfold is_expired. rewrite andb_false_iff, bool_decide_eq_false.
  destruct (lease_quarantine_until l) as [u|].
  - rewrite N.leb_gt. split; (intros [?|Hu]; [by left|right]); [by intros ? [= <-]|by apply Hu].
  - split; [|tauto]. intros _. right. done.
Qed.

(** Collection removes nothing but expired, unclaimed quarantines. *)
Lemma collect_spec t timestamp n t' :
  collect_expired_address_leases t timestamp = Ok (n, t') →
  checkpoints t' = checkpoints t ∧ observations t' = observations t ∧
  (leases_wf (leases t) → leases_wf (leases t')) ∧
  (∀ d l, leases t' !! d = Some l → leases t !! d = Some l) ∧
  (∀ d l, leases t !! d = Some l → still_used t timestamp d l → leases t' !! d = Some l) ∧
  (get_checkpoint t "last_discovery_at" = None → t' = t).
Proof.
  unfold collect_expired_address_leases. destruct (get_checkpoint _ _).
  2:{ intros [= <- <-]. by split_and!. }
  destruct (i64_max <? timestamp); [done|]. intros [= <- <-]. simpl. split_and!; try done.
  - by apply leases_wf_filter.
  - by intros d l [? _]%map_lookup_filter_Some.
  - intros d l Hl Hu. apply map_lookup_filter_Some. split; [done|]. simpl.
    apply andb_false_iff. unfold still_used in Hu.
    destruct Hu as [?|[?|?]]; [left; apply is_expired_false; by left| |left; apply is_expired_false; by right].
    right. by rewrite bool_decide_true.
Qed.

(** What collection keeps is still used, once a discovery pass has completed. *)
Lemma collect_kept t timestamp n t' d l :
  collect_expired_address_leases t timestamp = Ok (n, t') → leases t' !! d = Some l →
  get_checkpoint t "last_discovery_at" = None ∨ still_used t timestamp d l.
Proof.
  unfold collect_expired_address_leases. destruct (get_checkpoint _ _); [|by left].
  destruct (i64_max <? timestamp); [done|]. intros [= <- <-] [_ Hf]%map_lookup_filter_Some. right.
  simpl in Hf. apply andb_false_iff in Hf as [[?|?]%is_expired_false|Hf]; [by left|by right; right|].
  right; left. by apply negb_false_iff, bool_decide_eq_true in Hf.
Qed.

Lemma address_in_subnet s offset a :
  cidr_wf s → address s offset = Some a → in_range s a ∧ a = network s + offset.
Proof.
  intros Hs Ha. rewrite address_spec in Ha by done.
  destruct (N.ltb_spec offset (address_count s)) as [Hlt|]; [|done]. injection Ha as <-.
  rewrite address_count_pow in Hlt. unfold in_range. lia.
Qed.

(** The address the loop picks, and what it means that there is none. *)
Lemma try_offsets_spec al used deployment replica t offsets :
  address_lease t deployment = None →
  (∀ a, a ∈ used ↔ address_taken t a = true) →
  match try_offsets al used deployment replica t offsets with
  | Ok (lease, t') => ∃ i offset a, offsets !! i = Some offset ∧
      address (alloc_subnet al) offset = Some a ∧ a ∉ alloc_reserved al ∧ a ∉ used ∧
      (∀ j o b, (j < i)%nat → offsets !! j = Some o → address (alloc_subnet al) o = Some b →
         b ∈ alloc_reserved al ∨ b ∈ used) ∧
      lease = active_lease deployment replica a ∧
      t' = with_leases t (<[deployment := lease]> (leases t))
  | Err e => e = Exhausted (alloc_subnet al) ∧
      ∀ o b, o ∈ offsets → address (alloc_subnet al) o = Some b → b ∈ alloc_reserved al ∨ b ∈ used
  end.
Proof.
  intros Hnone Hused. induction offsets as [|o rest IH]; simpl; [set_solver|].
  assert (∀ b, address (alloc_subnet al) o = Some b → b ∈ alloc_reserved al ∨ b ∈ used →
    match try_offsets al used deployment replica t rest with
    | Ok (lease, t') => ∃ i offset a, (o :: rest) !! i = Some offset ∧
        address (alloc_subnet al) offset = Some a ∧ a ∉ alloc_reserved al ∧ a ∉ used ∧
        (∀ j o' b, (j < i)%nat → (o :: rest) !! j = Some o' → address (alloc_subnet al) o' = Some b →
           b ∈ alloc_reserved al ∨ b ∈ used) ∧
        lease = active_lease deployment replica a ∧
        t' = with_leases t (<[deployment := lease]> (leases t))
    | Err e => e = Exhausted (alloc_subnet al) ∧
        ∀ o' b, o' ∈ o :: rest → address (alloc_subnet al) o' = Some b →
          b ∈ alloc_reserved al ∨ b ∈ used
    end) as Hskip.
  { intros b Hb Hres. destruct (try_offsets al used deployment replica t rest) as [[lease t']|e].
    - destruct IH as (i & offset & a & Hi & Ha & Hr & Hu & Hlow & -> & ->).
      exists (S i), offset, a. split_and!; try done. intros [|j] o' b' Hj Ho' Hb'; simpl in *.
      + injection Ho' as <-. congruence.
      + apply (Hlow j o'); [lia|done..].
    - destruct IH as [-> Hall]. split; [done|]. intros o' b' [->|Ho']%elem_of_cons Hb'.
      + congruence.
      + by eapply Hall. }
  destruct (address (alloc_subnet al) o) as [b|] eqn:Eb.
  2:{ clear Hskip. destruct (try_offsets al used deployment replica t rest) as [[lease t']|e].
      - destruct IH as (i & offset & a & Hi & Ha & Hr & Hu & Hlow & -> & ->).
        exists (S i), offset, a. split_and!; try done. intros [|j] o' b' Hj Ho' Hb'; simpl in *.
        + injection Ho' as <-. congruence.
        + apply (Hlow j o'); [lia|done..].
      - destruct IH as [-> Hall]. split; [done|]. intros o' b' [->|Ho']%elem_of_cons Hb'; [congruence|].
        by eapply Hall. }
  destruct (bool_decide (b ∈ alloc_reserved al)) eqn:Er; simpl.
  { apply bool_decide_eq_true_1 in Er. apply (Hskip b); auto. }
  destruct (bool_decide (b ∈ used)) eqn:Eu.
  { apply bool_decide_eq_true_1 in Eu. apply (Hskip b); auto. }
  clear Hskip IH. apply bool_decide_eq_false_1 in Er, Eu.
  assert (address_taken t b = false) as Hfree.
  { apply not_true_iff_false. by rewrite <-Hused. }
  unfold claim_address_lease. rewrite Hnone, Hfree. simpl.
  unfold address_lease. simpl. rewrite lookup_insert_eq. simpl.
  exists O, o, b. split_and!; try done. intros j o' b' Hj. lia.
Qed.
End allocator_lemmas.

Section allocate_lemmas.
Context `{Labels}.

Lemma used_spec t a :
  a ∈ (list_to_set (lease_address <$> address_leases t) : gset N) ↔ address_taken t a = true.
Proof.
  rewrite elem_of_list_to_set, list_elem_of_fmap, address_taken_true. unfold address_leases.
  setoid_rewrite elem_of_btree_values. split.
  - intros (l & -> & d & Hd). eauto.
  - intros (d & l & Hd & <-). eauto.
Qed.

Lemma elem_of_offsets al o :
  o ∈ candidate_offsets al ↔ 1 ≤ o ∧ o + 1 < address_count (alloc_subnet al).
Proof.
  unfold candidate_offsets, saturating_sub. rewrite list_elem_of_fmap. setoid_rewrite elem_of_seq. split.
  - intros (n & -> & Hn). lia.
  - intros Ho. exists (N.to_nat o). lia.
Qed.

Lemma offsets_lookup al i o :
  candidate_offsets al !! i = Some o → o = N.of_nat i + 1.
Proof.
  unfold candidate_offsets. rewrite list_lookup_fmap_Some. intros (n & -> & Hn).
  apply lookup_seq in Hn as [-> _]. lia.
Qed.

(** The loop on a table without a lease of the deployment, in terms of addresses. *)
Lemma allocate_fresh s reserved t deployment replica :
  cidr_wf s → leases_wf (leases t) → address_lease t deployment = None →
  let al := allocator_new s reserved in
  let used := list_to_set (lease_address <$> address_leases t) in
  match try_offsets al used deployment replica t (candidate_offsets al) with
  | Ok (lease, t') => lease = active_lease deployment replica (lease_address lease) ∧
      t' = with_leases t (<[deployment := lease]> (leases t)) ∧
      network s < lease_address lease < network s + address_count s - 1 ∧
      lease_address lease ∉ reserved ∧ address_taken t (lease_address lease) = false ∧
      (∀ b, network s < b < lease_address lease → b ∈ reserved ∨ address_taken t b = true)
  | Err e => e = Exhausted s ∧
      ∀ b, network s < b < network s + address_count s - 1 → b ∈ reserved ∨ address_taken t b = true
  end.
Proof.
  intros Hs Hw Hn al used. pose proof (try_offsets_spec al used deployment replica t
    (candidate_offsets al) Hn (used_spec t)) as Hspec.
  assert (∀ o b, address s o = Some b → b = network s + o ∧ o < address_count s) as Haddr.
  { intros o b Ho. rewrite address_spec in Ho by done.
    destruct (N.ltb_spec o (address_count s)); [|done]. by injection Ho as <-. }
  assert (∀ b, network s < b → b < network s + address_count s - 1 →
    b ∈ alloc_reserved al ∨ b ∈ used → b ∈ reserved ∨ address_taken t b = true) as Hres.
  { intros b H1 H2 [Hb|Hb]; [left|right; by apply used_spec]. unfold al, allocator_new in Hb.
    cbn [alloc_reserved] in Hb. destruct (address s _) as [bc|] eqn:Ebc.
    - apply Haddr in Ebc as [-> _]. unfold saturating_sub in Hb.
      rewrite !elem_of_union, !elem_of_singleton, elem_of_list_to_set in Hb.
      destruct Hb as [->|[->|?]]; [lia|lia|done].
    - rewrite elem_of_union, elem_of_singleton, elem_of_list_to_set in Hb.
      destruct Hb as [->|?]; [lia|done]. }
  assert (∀ b, network s < b → b < network s + address_count s - 1 →
    address s (b - network s) = Some b ∧ b - network s ∈ candidate_offsets al) as Hback.
  { intros b H1 H2. rewrite address_spec by done. rewrite (proj2 (N.ltb_lt _ _)) by lia.
    split; [f_equal; lia|]. apply elem_of_offsets. simpl. lia. }
  destruct (try_offsets al used deployment replica t (candidate_offsets al)) as [[lease t']|e].
  - destruct Hspec as (i & o & a & Hi & Ha & Hr & Hu & Hlow & -> & ->).
    change (alloc_subnet al) with s in *. cbn [lease_address active_lease].
    pose proof (Haddr o a Ha) as [-> Ho]. pose proof (list_elem_of_lookup_2 _ _ _ Hi) as Hin.
    apply elem_of_offsets in Hin. change (alloc_subnet al) with s in Hin.
    pose proof (offsets_lookup al i o Hi) as ->.
    split_and!; [done|done|lia|lia| | |].
    + intros Hin'. apply Hr. unfold al, allocator_new. cbn [alloc_reserved].
      destruct (address s (saturating_sub (address_count s) 1)); [apply elem_of_union_r|];
        by apply elem_of_union_r, elem_of_list_to_set.
    + apply not_true_iff_false. by rewrite <-used_spec.
    + intros b [Hb1 Hb2]. destruct (Hback b) as [Hab Hob]; [lia|lia|].
      apply list_elem_of_lookup in Hob as [j Hj]. pose proof (offsets_lookup al j _ Hj).
      apply Hres; [lia|lia|]. apply (Hlow j (b - network s) b); [lia|done|done].
  - destruct Hspec as [-> Hall]. split; [done|]. intros b [Hb1 Hb2].
    destruct (Hback b Hb1 Hb2) as [Hab Hob]. apply Hres; [done|done|]. by apply (Hall (b - network s)).
Qed.

Lemma allocate_cases s reserved t deployment replica timestamp :
  cidr_wf s → leases_wf (leases t) →
  match allocate (allocator_new s reserved) t deployment replica timestamp with
  | Ok (lease, t') => leases_wf (leases t') ∧ leases t' !! deployment = Some lease ∧
      (leases t !! deployment = Some lease ∨
       ∃ t1 n, collect_expired_address_leases t timestamp = Ok (n, t1) ∧
         lease = active_lease deployment replica (lease_address lease) ∧
         network s < lease_address lease < network s + address_count s - 1 ∧
         lease_address lease ∉ reserved ∧ address_taken t1 (lease_address lease) = false ∧
         (∀ b, network s < b < lease_address lease → b ∈ reserved ∨ address_taken t1 b = true))
  | Err (Exhausted s') => s' = s ∧ ∃ t1 n, collect_expired_address_leases t timestamp = Ok (n, t1) ∧
      ∀ b, network s < b < network s + address_count s - 1 → b ∈ reserved ∨ address_taken t1 b = true
  | Err StoreFailed => i64_max < timestamp
  | Err (DeploymentConflict _ _ _) => False
  end.
Proof.
  intros Hs Hw. unfold allocate.
  destruct (collect_expired_address_leases t timestamp) as [[n t1]|e] eqn:Ec.
  - destruct (collect_spec _ _ _ _ Ec) as (_ & _ & Hw1 & Hsub & _ & _). specialize (Hw1 Hw).
    destruct (address_lease t1 deployment) as [existing|] eqn:Ee.
    + split_and!; [done|done|left]. by apply Hsub.
    + pose proof (allocate_fresh s reserved t1 deployment replica Hs Hw1 Ee) as Hf. cbv zeta in Hf.
      destruct (try_offsets _ _ _ _ _ _) as [[lease t']|e].
      * destruct Hf as (Hl & -> & Hr & Hres & Hfree & Hlow). simpl. split_and!.
        -- apply leases_wf_insert; [done|by rewrite Hl|].
           intros d' l' Hd Ha. by destruct (address_not_taken t1 (lease_address lease) d' l').
        -- by rewrite lookup_insert_eq.
        -- right. by exists t1, n.
      * destruct Hf as [-> Hall]. split; [done|]. by exists t1, n.
  - unfold collect_expired_address_leases in Ec. destruct (get_checkpoint _ _); [|done].
    destruct (N.ltb_spec i64_max timestamp); [by injection Ec as <-|done].
Qed.
End allocate_lemmas.

Lemma release_quarantines t d l timestamp seconds t1 :
  release t d timestamp seconds = Ok (true, t1) → leases t !! d = Some l →
  ∃ q, leases t1 !! d = Some q ∧ lease_address q = lease_address l ∧
    lease_state q = "quarantined" ∧
    ∀ u, lease_quarantine_until q = Some u → timestamp + seconds ≤ u.
Proof.
  unfold release, quarantine_address_lease, address_lease. intros Hr Hl. rewrite Hl in Hr.
  destruct (N.ltb_spec i64_max (u64_saturating_add timestamp seconds)) as [|Hfit]; [done|].
  assert (u64_saturating_add timestamp seconds = timestamp + seconds) as Hs.
  { unfold u64_saturating_add in *. assert (i64_max < u64_max) by done. lia. }
  rewrite Hs in Hr. injection Hr as <-. eexists. split; [apply lookup_insert_eq|].
  split_and!; [done|done|]. by intros u [= <-].
Qed.

Module LeasesProps.

Section props.
Context `{Labels}.

(** What can happen to the lease tables of one host. *)
Inductive lstep : LeaseTables → LeaseTables → Prop :=
| lstep_allocate s reserved t deployment replica timestamp lease t' :
    cidr_wf s → allocate (allocator_new s reserved) t deployment replica timestamp = Ok (lease, t') →
    lstep t t'
| lstep_release t deployment timestamp seconds b t' :
    release t deployment timestamp seconds = Ok (b, t') → lstep t t'
| lstep_recover t deployment replica a :
    lstep t (recover_address_lease t deployment replica a).2
| lstep_collect t timestamp n t' :
    collect_expired_address_leases t timestamp = Ok (n, t') → lstep t t'
| lstep_checkpoint t key value : lstep t (set_checkpoint t key value)
| lstep_observe t o : lstep t (upsert_observation t o)
| lstep_retain t ids : lstep t (retain_observations t ids).1.

Lemma lstep_wf t t' : leases_wf (leases t) → lstep t t' → leases_wf (leases t').
Proof.
  intros Hw Hs. destruct Hs as [s res t d r ts lease t' Hs Ha|t d ts sec b t' Hr|t d r a|t ts n t' Hc| | |];
    try done.
  - pose proof (allocate_cases s res t d r ts Hs Hw) as Hcases. rewrite Ha in Hcases. apply Hcases.
  - unfold release, quarantine_address_lease, address_lease in Hr. destruct (_ <? _); [done|].
    destruct (leases t !! d) as [l|] eqn:El; injection Hr as <- <-; [|done]. simpl.
    apply leases_wf_insert; [done|done|]. simpl. intros d' l' Hl' Ha'. by eapply (ls_unique _ Hw).
  - unfold recover_address_lease, address_lease. destruct (leases t !! d) as [l|] eqn:El.
    + destruct (_ || _); [done|]. simpl. apply leases_wf_insert; [done|done|]. simpl.
      intros d' l' Hl' Ha'. by eapply (ls_unique _ Hw).
    + destruct (address_taken t a) eqn:Et; [done|]. simpl. apply leases_wf_insert; [done|done|]. simpl.
      intros d' l' Hl' Ha'. by destruct (address_not_taken t a d' l').
  - by eapply collect_spec.
Qed.

(** C3: No address is ever leased twice: in every state the agent can reach by
    allocating, releasing, recovering and collecting leases, in any order and with any
    subnets and reservations, two different deployments hold different addresses. *)
Theorem leased_addresses_are_unique t d1 d2 l1 l2 :
  rtc lstep {| leases := ∅; checkpoints := ∅; observations := ∅ |} t →
  leases t !! d1 = Some l1 → leases t !! d2 = Some l2 → d1 ≠ d2 →
  lease_address l1 ≠ lease_address l2.
Proof.
  intros Hr H1 H2 Hne Ha. assert (leases_wf (leases t)) as Hw.
  { assert (leases_wf (leases {| leases := ∅; checkpoints := ∅; observations := ∅ |})) as H0.
    { split; simpl; intros *; by rewrite lookup_empty. }
    revert H0. clear -Hr. induction Hr as [|t1 t2 t3 Hs Hr IH]; [done|].
    intros Hw. by eapply IH, lstep_wf. }
  by eapply Hne, (ls_unique _ Hw).
Qed.

(** Allocation is correct and complete.  A fresh lease is for the deployment that
    asked, at the lowest address strictly inside the subnet that is neither reserved nor
    leased, and all other rows are as they were after collection; a deployment that has
    a lease gets that lease back; and [Exhausted] is reported only when every address
    strictly inside the subnet is reserved or leased. *)
Theorem allocate_is_correct s reserved t deployment replica timestamp :
  cidr_wf s → leases_wf (leases t) →
  match allocate (allocator_new s reserved) t deployment replica timestamp with
  | Ok (lease, t') => leases_wf (leases t') ∧ leases t' !! deployment = Some lease ∧
      (leases t !! deployment = Some lease ∨
       ∃ t1 n, collect_expired_address_leases t timestamp = Ok (n, t1) ∧
         lease = active_lease deployment replica (lease_address lease) ∧
         network s < lease_address lease < network s + address_count s - 1 ∧
         lease_address lease ∉ reserved ∧ address_taken t1 (lease_address lease) = false ∧
         (∀ b, network s < b < lease_address lease → b ∈ reserved ∨ address_taken t1 b = true))
  | Err (Exhausted s') => s' = s ∧ ∃ t1 n, collect_expired_address_leases t timestamp = Ok (n, t1) ∧
      ∀ b, network s < b < network s + address_count s - 1 → b ∈ reserved ∨ address_taken t1 b = true
  | Err StoreFailed => i64_max < timestamp
  | Err (DeploymentConflict _ _ _) => False
  end.
Proof. apply allocate_cases. Qed.

(** A released address rests: until its quarantine has passed it is not given to
    another deployment, whatever the subnet and the reservations of the allocation. *)
Theorem quarantined_address_is_not_reused s reserved t d l timestamp seconds t1
    d2 replica timestamp2 lease t2 :
  cidr_wf s → leases_wf (leases t) → leases t !! d = Some l →
  release t d timestamp seconds = Ok (true, t1) →
  allocate (allocator_new s reserved) t1 d2 replica timestamp2 = Ok (lease, t2) →
  d2 ≠ d → timestamp2 < timestamp + seconds →
  lease_address lease ≠ lease_address l.
Proof.
  intros Hs Hw Hl Hrel Hall Hne Hlt Haddr.
  assert (leases_wf (leases t1)) as Hw1 by (eapply lstep_wf; [exact Hw|by eapply lstep_release]).
  destruct (release_quarantines _ _ _ _ _ _ Hrel Hl) as (q & Hq & Hqa & Hqs & Hqu).
  pose proof (allocate_cases s reserved _ d2 replica timestamp2 Hs Hw1) as Hcases.
  rewrite Hall in Hcases. destruct Hcases as (Hw2 & Hd2 & [Hold|(t' & n & Hc & _ & _ & _ & Hfree & _)]).
  - eapply Hne, (ls_unique _ Hw1); [exact Hold|exact Hq|congruence].
  - destruct (collect_spec _ _ _ _ Hc) as (_ & _ & _ & _ & Hkeep & _).
    assert (leases t' !! d = Some q) as Hq'.
    { apply Hkeep; [done|]. right; right. intros u Hu. specialize (Hqu u Hu). lia. }
    eapply (address_not_taken t' (lease_address lease) d q); congruence.
Qed.

(** Collecting expired leases is safe and complete: the leases that stay, unchanged,
    are exactly those that are active, whose quarantine has not passed or whose deployment
    an observed container still carries, and all of them as long as no discovery pass has
    completed. *)
Theorem collection_removes_only_expired_leases t timestamp n t' :
  collect_expired_address_leases t timestamp = Ok (n, t') →
  ∀ d l, leases t' !! d = Some l ↔
    leases t !! d = Some l ∧
    (lease_state l ≠ "quarantined" ∨ d ∈ claimed_deployments t ∨
     (∀ until, lease_quarantine_until l = Some until → timestamp < until) ∨
     get_checkpoint t "last_discovery_at" = None).
Proof.
  intros Hc d l. destruct (collect_spec _ _ _ _ Hc) as (_ & _ & _ & Hsub & Hkeep & Hnone). split.
  - intros Hl. split; [by apply Hsub|].
    destruct (collect_kept _ _ _ _ _ _ Hc Hl) as [?|[?|[?|?]]]; tauto.
  - intros [Hl Hu]. destruct (decide (get_checkpoint t "last_discovery_at" = None)) as [Hn|Hn].
    + by rewrite (Hnone Hn).
    + apply Hkeep; [done|]. unfold still_used. tauto.
Qed.
End props.

Definition sample_labels : Labels := {| deployment_label _ := None |}.
Definition sample_subnet : Ipv4Cidr := {| network := 1024; prefix := 29 |}.
Definition empty_tables : LeaseTables := {| leases := ∅; checkpoints := ∅; observations := ∅ |}.

Lemma sample_subnet_wf : cidr_wf sample_subnet.
Proof. by split_and!. Qed.

Lemma empty_leases_wf : leases_wf (leases empty_tables).
Proof. split; simpl; intros *; by rewrite lookup_empty. Qed.

(** The tables after two allocations. *)
Definition after_allocate (t : LeaseTables) (d : string) : LeaseTables :=
  match @allocate sample_labels (allocator_new sample_subnet [1025]) t d "r" 5 with
  | Ok (_, t') => t'
  | Err _ => t
  end.
Definition sample_tables : LeaseTables := after_allocate (after_allocate empty_tables "d1") "d2".

Lemma after_allocate_steps t d : rtc (@lstep sample_labels) t (after_allocate t d).
Proof.
  unfold after_allocate.
  destruct (@allocate sample_labels (allocator_new sample_subnet [1025]) t d "r" 5) as [[lease t']|] eqn:E;
    [|apply rtc_refl].
  eapply rtc_once, (@lstep_allocate sample_labels); [apply sample_subnet_wf|exact E].
Qed.

Lemma sample_tables_wf : leases_wf (leases sample_tables).
Proof.
  unfold sample_tables, after_allocate. pose proof empty_leases_wf as Hw.
  pose proof (@allocate_cases sample_labels sample_subnet [1025] empty_tables "d1" "r" 5 sample_subnet_wf Hw) as H1.
  destruct (@allocate _ _ empty_tables _ _ _) as [[l1 t1]|]; [destruct H1 as [H1 _]|].
  - pose proof (@allocate_cases sample_labels sample_subnet [1025] t1 "d2" "r" 5 sample_subnet_wf H1) as H2.
    destruct (@allocate _ _ t1 _ _ _) as [[l2 t2]|]; [apply H2|done].
  - pose proof (@allocate_cases sample_labels sample_subnet [1025] empty_tables "d2" "r" 5 sample_subnet_wf Hw) as H2.
    destruct (@allocate _ _ empty_tables _ _ _) as [[l2 t2]|]; [apply H2|done].
Qed.

Definition sample_lease (d : string) (a : N) : AddressLease := active_lease d "r" a.

Lemma leased_addresses_are_unique_witness :
  lease_address (sample_lease "d1" 1026) ≠ lease_address (sample_lease "d2" 1027).
Proof.
  apply (@leased_addresses_are_unique sample_labels sample_tables "d1" "d2").
  - unfold sample_tables. etransitivity; apply after_allocate_steps.
  - vm_compute. reflexivity.
  - vm_compute. reflexivity.
  - done.
Defined.

Lemma quarantined_address_is_not_reused_witness :
  ∃ t1 lease t2, release sample_tables "d1" 100 30 = Ok (true, t1) ∧
    @allocate sample_labels (allocator_new sample_subnet [1025]) t1 "d3" "r" 110 = Ok (lease, t2) ∧
    lease_address lease ≠ 1026.
Proof.
  destruct (release sample_tables "d1" 100 30) as [[b t1]|] eqn:Er; [|vm_compute in Er; discriminate Er].
  destruct (@allocate sample_labels (allocator_new sample_subnet [1025]) t1 "d3" "r" 110)
    as [[lease t2]|] eqn:Ea.
  2:{ exfalso. vm_compute in Er. injection Er as <- <-. vm_compute in Ea. discriminate Ea. }
  assert (b = true) as -> by (vm_compute in Er; injection Er as <- _; reflexivity).
  exists t1, lease, t2. split; [done|]. split; [done|].
  apply (@quarantined_address_is_not_reused sample_labels sample_subnet [1025] sample_tables "d1"
    (sample_lease "d1" 1026) 100 30 t1 "d3" "r" 110 lease t2 sample_subnet_wf sample_tables_wf);
    [vm_compute; reflexivity|exact Er|exact Ea|done|done].
Defined.

Lemma allocate_is_correct_witness :
  ∃ lease t', @allocate sample_labels (allocator_new sample_subnet [1025]) empty_tables "d1" "r" 5
    = Ok (lease, t') ∧ leases_wf (leases t') ∧ lease_address lease = 1026.
Proof.
  pose proof (@allocate_is_correct sample_labels sample_subnet [1025] empty_tables "d1" "r" 5
    sample_subnet_wf empty_leases_wf) as Ha.
  destruct (@allocate sample_labels (allocator_new sample_subnet [1025]) empty_tables "d1" "r" 5)
    as [[lease t']|] eqn:E; [|vm_compute in E; discriminate E].
  exists lease, t'. split; [done|]. split; [apply Ha|].
  vm_compute in E. injection E as <- _. reflexivity.
Defined.

(** Two leases after a discovery pass: an active one, and one whose quarantine has passed. *)
Definition collect_tables : LeaseTables :=
  {| leases := {[ "d1" := sample_lease "d1" 1026;
                  "d2" := {| lease_deployment := "d2"; lease_replica := "r"; lease_address := 1027;
                             lease_state := "quarantined"; lease_quarantine_until := Some 4 |} ]};
     checkpoints := {[ "last_discovery_at" := "3" ]}; observations := ∅ |}.

Lemma collection_removes_only_expired_leases_witness :
  ∃ t', @collect_expired_address_leases sample_labels collect_tables 5 = Ok (1%nat, t') ∧
    leases t' !! "d1" = Some (sample_lease "d1" 1026).
Proof.
  eexists. split; [vm_compute; reflexivity|].
  apply (@collection_removes_only_expired_leases sample_labels collect_tables 5 1%nat).
  - vm_compute. reflexivity.
  - split; [vm_compute; reflexivity|]. left. discriminate.
Defined.

End LeasesProps.
