(* ===== verification/Cron.v ===== *)
(** Cron jobs in the agent's database: [jiji-agent/src/cron.rs] (specifications, runs and
    their outcomes), the cron tables of [jiji-agent/src/store.rs] and the schedule
    computation of [jiji-agent/src/cron_schedule.rs].

    A row of the runs table keeps the columns SQLite sees (the job, the scheduled and the
    claimed time as [i64], the state) next to the run the code wrote as JSON; the two are
    separate fields here as they are there. *)

From S2P Require Import Prelude Text Membership Desired OpLog.
Open Scope N_scope.

(** ** [cron.rs] *)

Inductive CronOverlap := Forbid.
Inductive CronMissedRuns := Skip.

Record CronJobSpec := {
  spec_project : string;
  spec_service : string;
  spec_cron_name : string;
  spec_revision : N;
  spec_canonical_hash : string;
  spec_owner_node_id : string;
  spec_owner_epoch : N;
  spec_server : string;
  spec_source_deployment_id : string;
  spec_source_replica_id : string;
  spec_image : string;
  spec_schedule : string;
  spec_timezone : string;
  spec_timeout_seconds : N;
  spec_overlap : CronOverlap;
  spec_missed_runs : CronMissedRuns;
  spec_command : list string;
  spec_env_file_path : string;
  spec_mount_args : list string;
  spec_resource_args : list string;
  spec_bridge_network : string;
  spec_dns_address : string;
}.

(** The part of a specification that says what should run and when. *)
Record CronSpecContent := {
  content_image : string;
  content_schedule : string;
  content_timezone : string;
  content_timeout_seconds : N;
  content_overlap : CronOverlap;
  content_missed_runs : CronMissedRuns;
  content_command : list string;
  content_env_file_path : string;
  content_mount_args : list string;
  content_resource_args : list string;
  content_bridge_network : string;
  content_dns_address : string;
  content_source_deployment_id : string;
  content_source_replica_id : string;
}.

Definition spec_content (s : CronJobSpec) : CronSpecContent :=
  {| content_image := spec_image s; content_schedule := spec_schedule s;
     content_timezone := spec_timezone s; content_timeout_seconds := spec_timeout_seconds s;
     content_overlap := spec_overlap s; content_missed_runs := spec_missed_runs s;
     content_command := spec_command s; content_env_file_path := spec_env_file_path s;
     content_mount_args := spec_mount_args s; content_resource_args := spec_resource_args s;
     content_bridge_network := spec_bridge_network s; content_dns_address := spec_dns_address s;
     content_source_deployment_id := spec_source_deployment_id s;
     content_source_replica_id := spec_source_replica_id s |}.

(** [CronJobSpec::canonical_hash]; the [expect] panics when serialisation fails. *)
Definition canonical_hash `{ContentHash CronSpecContent} (s : CronJobSpec) : result (fault ()) string :=
  expect (content_hash (spec_content s)).

Inductive CronSpecApplyOutcome :=
| Installed (spec : CronJobSpec)
| Updated (spec : CronJobSpec)
| Unchanged (spec : CronJobSpec).

Inductive CronSpecApplyOutcomeKind := KindInstalled | KindUpdated | KindUnchanged.

Definition outcome_spec (o : CronSpecApplyOutcome) : CronJobSpec :=
  match o with Installed spec | Updated spec | Unchanged spec => spec end.

Definition outcome_kind (o : CronSpecApplyOutcome) : CronSpecApplyOutcomeKind :=
  match o with
  | Installed _ => KindInstalled
  | Updated _ => KindUpdated
  | Unchanged _ => KindUnchanged
  end.

Inductive CronRunCause := Scheduled | Manual.
Inductive CronRunState := Claimed | Running | Succeeded | RunFailed | TimedOut | Skipped.

#[export] Instance CronRunCause_eq_dec : EqDecision CronRunCause.
Proof. solve_decision. Defined.
#[export] Instance CronRunState_eq_dec : EqDecision CronRunState.
Proof. solve_decision. Defined.

Definition is_active (s : CronRunState) : bool :=
  match s with Claimed | Running => true | _ => false end.

Record CronRun := {
  run_id : string;
  run_project : string;
  run_service : string;
  run_cron_name : string;
  run_cause : CronRunCause;
  run_scheduled_at : option N;
  run_claimed_at : N;
  run_started_at : option N;
  run_finished_at : option N;
  run_state : CronRunState;
  run_deployment_id : option string;
  run_container_name : option string;
  run_address : option string;
  run_exit_code : option Z;
  run_error : option string;
}.

Inductive CronClaimOutcome :=
| ClaimedRun (run : CronRun)
| DuplicateScheduledClaim (run : CronRun)
| OverlapForbidden (active_run_id : string).

Record CronSchedulerState := {
  sched_service : string;
  sched_cron_name : string;
  sched_last_evaluated_at : option N;
  sched_next_due_at : option N;
  sched_skipped_overlap_count : N;
}.

Record CronRunFilter := {
  filter_service : option string;
  filter_cron_name : option string;
  filter_run_id : option string;
  filter_since : option N;
  filter_limit : option N;
}.

Definition CronRunFilter_default : CronRunFilter :=
  {| filter_service := None; filter_cron_name := None; filter_run_id := None;
     filter_since := None; filter_limit := None |}.

(** ** The tables *)

(** [as i64] on a [u64]. *)
Definition as_i64 (n : N) : Z :=
  if n <=? i64_max then Z.of_N n else (Z.of_N n - 2 ^ 64)%Z.

(** A job is named by its service and its own name. *)
Definition Job : Type := string * string.

Record SpecRow := { row_revision : Z; row_canonical_hash : string; row_spec : CronJobSpec }.

Record RunRow := {
  row_job : Job;
  row_cause : CronRunCause;
  row_scheduled_at : option Z;
  row_claimed_at : Z;
  row_state : CronRunState;
  row_run : CronRun;
}.

Record SchedulerRow := {
  row_skipped : Z;
  row_last_evaluated_at : option N;
  row_next_due_at : option N;
}.

Record CronTables := {
  job_specs : gmap Job SpecRow;
  runs : gmap string RunRow;
  scheduler : gmap Job SchedulerRow;
}.

Definition with_specs (t : CronTables) (m : gmap Job SpecRow) : CronTables :=
  {| job_specs := m; runs := runs t; scheduler := scheduler t |}.
Definition with_runs (t : CronTables) (m : gmap string RunRow) : CronTables :=
  {| job_specs := job_specs t; runs := m; scheduler := scheduler t |}.
Definition with_scheduler (t : CronTables) (m : gmap Job SchedulerRow) : CronTables :=
  {| job_specs := job_specs t; runs := runs t; scheduler := m |}.

(** *** Specifications *)

Definition spec_job (s : CronJobSpec) : Job := (spec_service s, spec_cron_name s).

Definition apply_cron_spec (t : CronTables) (spec : CronJobSpec) : CronSpecApplyOutcome * CronTables :=
  let existing := job_specs t !! spec_job spec in
  let unchanged :=
    match existing with
    | Some row => bool_decide (row_revision row = as_i64 (spec_revision spec)) &&
                  bool_decide (row_canonical_hash row = spec_canonical_hash spec)
    | None => false
    end in
  let row := {| row_revision := as_i64 (spec_revision spec);
                row_canonical_hash := spec_canonical_hash spec; row_spec := spec |} in
  let t := with_specs t (<[spec_job spec := row]> (job_specs t)) in
  (if unchanged then Unchanged spec
   else match existing with Some _ => Updated spec | None => Installed spec end, t).

Definition remove_cron_spec (t : CronTables) (job : Job) : bool * CronTables :=
  (bool_decide (is_Some (job_specs t !! job)), with_specs t (delete job (job_specs t))).

Definition cron_spec (t : CronTables) (job : Job) : option CronJobSpec :=
  row_spec <$> job_specs t !! job.

Definition cron_specs (t : CronTables) : list CronJobSpec := row_spec <$> btree_values (job_specs t).

(** *** Runs *)

(** The rows of a job in one of the given states; SQLite leaves their order open, and at
    most one row matches where the code asks for one ([cron_wf]). *)
Definition first_run (t : CronTables) (p : RunRow → bool) : option (string * RunRow) :=
  head (filter (λ e : string * RunRow, p e.2 = true) (btree_list (runs t))).

Definition is_slot (job : Job) (scheduled_at : Z) (r : RunRow) : bool :=
  bool_decide (row_job r = job) && bool_decide (row_scheduled_at r = Some scheduled_at).
Definition is_active_of (job : Job) (r : RunRow) : bool :=
  bool_decide (row_job r = job) && is_active (row_state r).

Definition new_run (project : string) (job : Job) (cause : CronRunCause) (scheduled_at : option N)
    (id : string) (timestamp : N) : CronRun :=
  {| run_id := id; run_project := project; run_service := job.1; run_cron_name := job.2;
     run_cause := cause; run_scheduled_at := scheduled_at; run_claimed_at := timestamp;
     run_started_at := None; run_finished_at := None; run_state := Claimed;
     run_deployment_id := None; run_container_name := None; run_address := None;
     run_exit_code := None; run_error := None |}.

(** One more skipped run of a job; the row is created when the job has none. *)
Definition bump_skipped (t : CronTables) (job : Job) : CronTables :=
  let row := match scheduler t !! job with
             | Some row => {| row_skipped := row_skipped row + 1;
                              row_last_evaluated_at := row_last_evaluated_at row;
                              row_next_due_at := row_next_due_at row |}
             | None => {| row_skipped := 1; row_last_evaluated_at := None; row_next_due_at := None |}
             end in
  with_scheduler t (<[job := row]> (scheduler t)).

(** The [INSERT] of a run: refused by the primary key or by the constraint
    [UNIQUE(service, cron_name, scheduled_at)], in which a missing time equals nothing. *)
Definition insert_run (t : CronTables) (run : CronRun) : result StoreError CronTables :=
  let job := (run_service run, run_cron_name run) in
  let taken := match run_scheduled_at run with
               | Some at_ => bool_decide (is_Some (first_run t (is_slot job (as_i64 at_))))
               | None => false
               end in
  if bool_decide (is_Some (runs t !! run_id run)) || taken then Err Database
  else
    let row := {| row_job := job; row_cause := run_cause run;
                  row_scheduled_at := as_i64 <$> run_scheduled_at run;
                  row_claimed_at := as_i64 (run_claimed_at run); row_state := Claimed;
                  row_run := run |} in
    Ok (with_runs t (<[run_id run := row]> (runs t))).

Definition claim_cron_run (t : CronTables) (project : string) (job : Job) (cause : CronRunCause)
    (scheduled_at : option N) (id : string) (timestamp : N) :
    result StoreError (CronClaimOutcome * CronTables) :=
  match (at_ ← scheduled_at; first_run t (is_slot job (as_i64 at_))) with
  | Some (_, existing) => Ok (DuplicateScheduledClaim (row_run existing), t)
  | None =>
      match first_run t (is_active_of job) with
      | Some (active_run_id, _) => Ok (OverlapForbidden active_run_id, bump_skipped t job)
      | None =>
          let run := new_run project job cause scheduled_at id timestamp in
          let? t := insert_run t run in Ok (ClaimedRun run, t)
      end
  end.

Definition cron_run (t : CronTables) (id : string) : option CronRun := row_run <$> runs t !! id.

Definition active_cron_run (t : CronTables) (job : Job) : option CronRun :=
  (λ e : string * RunRow, row_run e.2) <$> first_run t (is_active_of job).

Definition matches_filter {A} `{EqDecision A} (o : option A) (a : A) : bool :=
  match o with None => true | Some b => bool_decide (b = a) end.

(** [ORDER BY claimed_at DESC]. *)
Definition newer_first (a b : string * RunRow) : bool :=
  (row_claimed_at b.2 <=? row_claimed_at a.2)%Z.

Definition cron_runs (t : CronTables) (f : CronRunFilter) : list CronRun :=
  let rows := filter (λ e : string * RunRow,
      matches_filter (filter_service f) (row_job e.2).1 &&
      matches_filter (filter_cron_name f) (row_job e.2).2 &&
      matches_filter (filter_run_id f) e.1 &&
      match filter_since f with
      | None => true
      | Some since => (as_i64 since <=? row_claimed_at e.2)%Z
      end = true) (btree_list (runs t)) in
  let sorted := (λ e : string * RunRow, row_run e.2) <$> sort_by newer_first rows in
  match filter_limit f with None => sorted | Some n => take (N.to_nat n) sorted end.

(** [UPDATE cron_runs SET state = .., run_json = .. WHERE run_id = ..]. *)
Definition update_run (t : CronTables) (id : string) (state : CronRunState) (run : CronRun) : CronTables :=
  with_runs t (alter (λ r, {| row_job := row_job r; row_cause := row_cause r;
                              row_scheduled_at := row_scheduled_at r;
                              row_claimed_at := row_claimed_at r;
                              row_state := state; row_run := run |}) id (runs t)).

Definition start_cron_run (t : CronTables) (id : string) (started_at : N)
    (deployment_id container_name address : string) : bool * CronTables :=
  match cron_run t id with
  | None => (false, t)
  | Some run =>
      let run := {| run_id := run_id run; run_project := run_project run;
                    run_service := run_service run; run_cron_name := run_cron_name run;
                    run_cause := run_cause run; run_scheduled_at := run_scheduled_at run;
                    run_claimed_at := run_claimed_at run; run_started_at := Some started_at;
                    run_finished_at := run_finished_at run; run_state := Running;
                    run_deployment_id := Some deployment_id;
                    run_container_name := Some container_name; run_address := Some address;
                    run_exit_code := run_exit_code run; run_error := run_error run |} in
      (true, update_run t id Running run)
  end.

Definition finish_cron_run (t : CronTables) (id : string) (state : CronRunState) (finished_at : N)
    (exit_code : option Z) (error : option string) : bool * CronTables :=
  match cron_run t id with
  | None => (false, t)
  | Some run =>
      let run := {| run_id := run_id run; run_project := run_project run;
                    run_service := run_service run; run_cron_name := run_cron_name run;
                    run_cause := run_cause run; run_scheduled_at := run_scheduled_at run;
                    run_claimed_at := run_claimed_at run; run_started_at := run_started_at run;
                    run_finished_at := Some finished_at; run_state := state;
                    run_deployment_id := run_deployment_id run;
                    run_container_name := run_container_name run; run_address := run_address run;
                    run_exit_code := exit_code; run_error := error |} in
      (true, update_run t id state run)
  end.

(** *** Scheduler state *)

(** [scheduler_state_from_row]. *)
Definition scheduler_state_from_row (job : Job) (row : SchedulerRow) : CronSchedulerState :=
  {| sched_service := job.1; sched_cron_name := job.2;
     sched_last_evaluated_at := row_last_evaluated_at row;
     sched_next_due_at := row_next_due_at row;
     sched_skipped_overlap_count := Z.to_N (Z.max (row_skipped row) 0) |}.

Definition cron_scheduler_state (t : CronTables) (job : Job) : option CronSchedulerState :=
  scheduler_state_from_row job <$> scheduler t !! job.

Definition set_cron_scheduler_state (t : CronTables) (job : Job)
    (last_evaluated_at next_due_at : option N) : CronTables :=
  let skipped := match scheduler t !! job with Some row => row_skipped row | None => 0%Z end in
  with_scheduler t (<[job := {| row_skipped := skipped;
                                row_last_evaluated_at := last_evaluated_at;
                                row_next_due_at := next_due_at |}]> (scheduler t)).

(** *** Retention *)

Definition is_terminal (s : CronRunState) : bool :=
  match s with Succeeded | RunFailed | TimedOut | Skipped => true | Claimed | Running => false end.

(** [a] comes before [b] in its job's partition: claimed later, or at the same second and
    earlier in the table. *)
Definition ranks_before (a b : string * RunRow) : bool :=
  bool_decide (row_job a.2 = row_job b.2) && is_terminal (row_state a.2) &&
  ((row_claimed_at b.2 <? row_claimed_at a.2)%Z ||
   ((row_claimed_at b.2 =? row_claimed_at a.2)%Z && ltb a.1 b.1)).

(** [ROW_NUMBER() OVER (PARTITION BY service, cron_name ORDER BY claimed_at DESC)] over the
    terminal runs. *)
Definition row_number (t : CronTables) (e : string * RunRow) : nat :=
  S (length (filter (λ a, ranks_before a e = true) (map_to_list (runs t)))).

Definition is_retained (t : CronTables) (cutoff : Z) (keep_latest : N) (e : string * RunRow) : bool :=
  negb (is_terminal (row_state e.2) && (row_claimed_at e.2 <? cutoff)%Z &&
        (keep_latest <? N.of_nat (row_number t e))).

Definition retain_cron_runs (t : CronTables) (now_ts keep_seconds keep_latest : N) : nat * CronTables :=
  let cutoff := as_i64 (saturating_sub now_ts keep_seconds) in
  let kept := filter (λ e, is_retained t cutoff keep_latest e = true) (runs t) in
  ((size (runs t) - size kept)%nat, with_runs t kept).

(** ** [cron_schedule.rs] *)

(** What the code uses of [jiff] and [jiff-cron]: the time zone database, the parser of
    cron expressions, the range of a timestamp and the occurrences of a schedule after an
    instant.  The laws are the documented ones: [Schedule::after] is strict, and a
    timestamp is far below the [i64] limit. *)
Class Jiff := {
  TimeZone : Type;
  CronExpression : Type;
  timezone_get : string → option TimeZone;
  schedule_from_str : string → option CronExpression;
  timestamp_in_range : Z → bool;
  next_after : CronExpression → TimeZone → Z → option Z;
  next_after_later e tz a n : next_after e tz a = Some n → (a < n)%Z;
  next_after_range e tz a n : next_after e tz a = Some n → (n < 2 ^ 63)%Z;
}.

Inductive ScheduleError := InvalidTimezone | InvalidSchedule | TimestampOutOfRange | NoFutureOccurrence.

Definition as_u64 (z : Z) : N := Z.to_N (z mod 2 ^ 64).

Definition next_due_at `{Jiff} (schedule timezone : string) (after_unix : N) : result ScheduleError N :=
  let? tz := ok_or (timezone_get timezone) InvalidTimezone in
  let? parsed := ok_or (schedule_from_str ("0 " +:+ schedule)) InvalidSchedule in
  ensure? timestamp_in_range (as_i64 after_unix) else TimestampOutOfRange in
  let? next := ok_or (next_after parsed tz (as_i64 after_unix)) NoFutureOccurrence in
  Ok (as_u64 next).

(** ** Lemmas *)

Lemma as_i64_small n : n ≤ i64_max → as_i64 n = Z.of_N n.
Proof. unfold as_i64. intros. by rewrite (proj2 (N.leb_le _ _)). Qed.

Lemma as_u64_nonneg z : (0 ≤ z < 2 ^ 63)%Z → Z.of_N (as_u64 z) = z.
Proof. intros. unfold as_u64. rewrite Z.mod_small by lia. lia. Qed.

(** The next occurrence is strictly later. *)
Lemma next_due_at_later `{Jiff} schedule tz a n :
  a ≤ i64_max → next_due_at schedule tz a = Ok n → a < n ≤ i64_max.
Proof.
  intros Ha. unfold next_due_at. destruct (timezone_get tz); [|done]. simpl.
  destruct (schedule_from_str _); [|done]. simpl. destruct (timestamp_in_range _); [|done].
  rewrite as_i64_small by done. destruct (next_after _ _ _) as [z|] eqn:E; [|done]. simpl.
  intros [= <-]. pose proof (next_after_later _ _ _ _ E). pose proof (next_after_range _ _ _ _ E).
  pose proof (as_u64_nonneg z ltac:(lia)). unfold i64_max. lia.
Qed.

Lemma first_run_Some t p id r :
  first_run t p = Some (id, r) → runs t !! id = Some r ∧ p r = true.
Proof.
  unfold first_run. intros Hh. apply head_Some_elem_of in Hh.
  by apply list_elem_of_filter in Hh as [? ?%elem_of_btree_list].
Qed.

Lemma first_run_None t p :
  first_run t p = None ↔ ∀ id r, runs t !! id = Some r → p r = false.
Proof.
  unfold first_run. rewrite head_None. split.
  - intros Hf id r Hr. destruct (p r) eqn:Ep; [|done]. exfalso.
    assert ((id, r) ∈ filter (λ e : string * RunRow, p e.2 = true) (btree_list (runs t))) as Hin.
    { apply list_elem_of_filter. split; [done|]. by apply elem_of_btree_list. }
    rewrite Hf in Hin. by apply elem_of_nil in Hin.
  - intros Hall. destruct (filter _ _) as [|[id r] l] eqn:Ef; [done|]. exfalso.
    assert ((id, r) ∈ filter (λ e : string * RunRow, p e.2 = true) (btree_list (runs t))) as Hin.
    { rewrite Ef. apply list_elem_of_here. }
    apply list_elem_of_filter in Hin as [Hp Hr%elem_of_btree_list]. simpl in Hp.
    rewrite (Hall _ _ Hr) in Hp. done.
Qed.

Lemma is_slot_true job at_ r : is_slot job at_ r = true ↔ row_job r = job ∧ row_scheduled_at r = Some at_.
Proof. unfold is_slot. by rewrite andb_true_iff, !bool_decide_eq_true. Qed.

Lemma is_active_of_true job r : is_active_of job r = true ↔ row_job r = job ∧ is_active (row_state r) = true.
Proof. unfold is_active_of. by rewrite andb_true_iff, bool_decide_eq_true. Qed.

Lemma is_terminal_active s : is_terminal s = negb (is_active s).
Proof. by destruct s. Qed.

(** What a claim does, by its outcome. *)
Definition claim_spec (t : CronTables) (project : string) (job : Job) (cause : CronRunCause)
    (scheduled_at : option N) (id : string) (timestamp : N)
    (res : result StoreError (CronClaimOutcome * CronTables)) : Prop :=
  match res with
  | Ok (DuplicateScheduledClaim run, t') => t' = t ∧
      ∃ at_ id' r, scheduled_at = Some at_ ∧ runs t !! id' = Some r ∧
        row_job r = job ∧ row_scheduled_at r = Some (as_i64 at_) ∧ run = row_run r
  | Ok (OverlapForbidden id', t') => t' = bump_skipped t job ∧
      ∃ r, runs t !! id' = Some r ∧ row_job r = job ∧ is_active (row_state r) = true
  | Ok (ClaimedRun run, t') => run = new_run project job cause scheduled_at id timestamp ∧
      runs t !! id = None ∧
      (∀ id' r, runs t !! id' = Some r → row_job r = job → is_active (row_state r) = false) ∧
      (∀ at_ id' r, scheduled_at = Some at_ → runs t !! id' = Some r → row_job r = job →
         row_scheduled_at r ≠ Some (as_i64 at_)) ∧
      t' = with_runs t (<[id := {| row_job := job; row_cause := cause;
                                   row_scheduled_at := as_i64 <$> scheduled_at;
                                   row_claimed_at := as_i64 timestamp; row_state := Claimed;
                                   row_run := run |}]> (runs t))
  | Err e => e = Database ∧ is_Some (runs t !! id)
  end.

Lemma no_slot t scheduled_at job :
  (at_ ← scheduled_at; first_run t (is_slot job (as_i64 at_))) = None →
  ∀ at_ id r, scheduled_at = Some at_ → runs t !! id = Some r → row_job r = job →
    row_scheduled_at r ≠ Some (as_i64 at_).
Proof.
  intros Hn at_ id r -> Hr Hj Hat. simpl in Hn. rewrite first_run_None in Hn.
  specialize (Hn _ _ Hr). rewrite (proj2 (is_slot_true _ _ _)) in Hn by done. done.
Qed.

Lemma claim_cron_run_spec t project job cause scheduled_at id timestamp :
  claim_spec t project job cause scheduled_at id timestamp
    (claim_cron_run t project job cause scheduled_at id timestamp).
Proof.
  unfold claim_cron_run.
  destruct (scheduled_at ≫= _) as [[id' r]|] eqn:Eslot.
  { destruct scheduled_at as [at_|]; [|done]. simpl in *.
    apply first_run_Some in Eslot as [Hr [Hj Hat]%is_slot_true]. split; [done|]. by exists at_, id', r. }
  pose proof (no_slot _ _ _ Eslot) as Hns.
  destruct (first_run t (is_active_of job)) as [[id' r]|] eqn:Eact.
  { apply first_run_Some in Eact as [Hr [Hj Ha]%is_active_of_true]. simpl. split; [done|]. by exists r. }
  rewrite first_run_None in Eact. unfold insert_run. simpl. destruct job as [s c]; simpl in *.
  assert (match scheduled_at with
          | Some at_ => bool_decide (is_Some (first_run t (is_slot (s, c) (as_i64 at_))))
          | None => false end = false) as ->.
  { destruct scheduled_at as [at_|]; [|done]. simpl in Eslot. by rewrite Eslot. }
  rewrite orb_false_r. case_bool_decide as Hid; simpl; [by split|].
  split_and!; try done.
  - by destruct (runs t !! id) eqn:E; [destruct Hid|].
  - intros id' r Hr Hj. destruct (is_active (row_state r)) eqn:Ea; [|done].
    rewrite <-(Eact id' r Hr). symmetry. by apply is_active_of_true.
Qed.

(** The order of the checks of a claim: an overlap and a database error are reported only
    for a slot no run has, and the error only for a job without an active run. *)
Lemma claim_cron_run_order t project job cause scheduled_at id timestamp :
  let no_slot := ∀ at_ id' r, scheduled_at = Some at_ → runs t !! id' = Some r → row_job r = job →
    row_scheduled_at r ≠ Some (as_i64 at_) in
  match claim_cron_run t project job cause scheduled_at id timestamp with
  | Ok (OverlapForbidden _, _) => no_slot
  | Err _ => no_slot ∧
      ∀ id' r, runs t !! id' = Some r → row_job r = job → is_active (row_state r) = false
  | _ => True
  end.
Proof.
  simpl. unfold claim_cron_run.
  destruct (scheduled_at ≫= _) as [[id' r]|] eqn:Eslot; [by destruct r|]. pose proof (no_slot _ _ _ Eslot) as Hns.
  destruct (first_run t (is_active_of job)) as [[id' r]|] eqn:Eact; [done|].
  rewrite first_run_None in Eact. unfold insert_run. destruct (_ || _); [|done].
  split; [done|]. intros i r Hr Hj. specialize (Eact _ _ Hr).
  destruct (is_active (row_state r)) eqn:Ea; [|done]. by rewrite (proj2 (is_active_of_true _ _)) in Eact.
Qed.

(** *** The invariant of the runs *)

Record row_ok (id : string) (r : RunRow) : Prop := {
  rk_id : run_id (row_run r) = id;
  rk_job : row_job r = (run_service (row_run r), run_cron_name (row_run r));
  rk_state : row_state r = run_state (row_run r);
  rk_scheduled : row_scheduled_at r = as_i64 <$> run_scheduled_at (row_run r);
}.

Record cron_wf (t : CronTables) : Prop := {
  cw_rows : ∀ id r, runs t !! id = Some r → row_ok id r;
  cw_active : ∀ id1 id2 r1 r2, runs t !! id1 = Some r1 → runs t !! id2 = Some r2 →
    row_job r1 = row_job r2 → is_active (row_state r1) = true → is_active (row_state r2) = true →
    id1 = id2;
  cw_slot : ∀ id1 id2 r1 r2 at_, runs t !! id1 = Some r1 → runs t !! id2 = Some r2 →
    row_job r1 = row_job r2 → row_scheduled_at r1 = Some at_ → row_scheduled_at r2 = Some at_ →
    id1 = id2;
}.

Lemma cron_wf_same_runs t t' : runs t' = runs t → cron_wf t → cron_wf t'.
Proof. intros He [H1 H2 H3]. split; rewrite He; done. Qed.

Lemma cron_wf_claim t project job cause scheduled_at id timestamp out t' :
  cron_wf t → claim_cron_run t project job cause scheduled_at id timestamp = Ok (out, t') → cron_wf t'.
Proof.
  intros Hw Hc. pose proof (claim_cron_run_spec t project job cause scheduled_at id timestamp) as Hs.
  rewrite Hc in Hs. destruct out as [run|run|id']; simpl in Hs.
  2:{ destruct Hs as [-> _]. done. }
  2:{ destruct Hs as [-> _]. by apply (cron_wf_same_runs t). }
  destruct Hs as (-> & Hid & Hact & Hslot & ->). destruct Hw as [H1 H2 H3]. split; simpl.
  - intros i r. rewrite lookup_insert_Some. intros [[<- <-]|[_ ?]]; [|by apply H1].
    split; simpl; [done|by destruct job|done|done].
  - intros i1 i2 r1 r2. rewrite !lookup_insert_Some.
    intros [[<- <-]|[? Hr1]] [[<- <-]|[? Hr2]] Hj A1 A2; simpl in *; try done.
    + by rewrite (Hact _ _ Hr2) in A2.
    + by rewrite (Hact _ _ Hr1) in A1.
    + by eapply H2.
  - intros i1 i2 r1 r2 at_. rewrite !lookup_insert_Some.
    intros [[<- <-]|[? Hr1]] [[<- <-]|[? Hr2]] Hj A1 A2; simpl in *; try done.
    + destruct scheduled_at as [a|]; [|done]. simpl in A1. injection A1 as <-.
      by destruct (Hslot a _ _ eq_refl Hr2 (eq_sym Hj)).
    + destruct scheduled_at as [a|]; [|done]. simpl in A2. injection A2 as <-.
      by destruct (Hslot a _ _ eq_refl Hr1 Hj).
    + by eapply H3.
Qed.

(** Writing a run back keeps the invariant as long as no finished run becomes active. *)
Lemma cron_wf_update t id r st run :
  cron_wf t → runs t !! id = Some r → run_id run = id →
  (run_service run, run_cron_name run) = row_job r → run_scheduled_at run = run_scheduled_at (row_run r) →
  run_state run = st → (is_active st = true → is_active (row_state r) = true) →
  cron_wf (update_run t id st run).
Proof.
  intros [H1 H2 H3] Hr Hid Hjob Hat Hst Hact.
  assert (∀ i q, runs (update_run t id st run) !! i = Some q →
    ∃ q0, runs t !! i = Some q0 ∧ row_job q = row_job q0 ∧ row_scheduled_at q = row_scheduled_at q0 ∧
      (is_active (row_state q) = true → is_active (row_state q0) = true) ∧ row_ok i q) as Hold.
  { intros i q. simpl. destruct (decide (i = id)) as [->|Hne].
    - rewrite lookup_alter_eq, Hr. intros [= <-]. exists r. simpl. split_and!; try done.
      split; simpl; [done..|]. by rewrite Hat, (rk_scheduled _ _ (H1 _ _ Hr)).
    - rewrite lookup_alter_ne by done. intros Hq. exists q. split_and!; try done. by apply H1. }
  split.
  - intros i q (q0 & _ & _ & _ & _ & Hok)%Hold. done.
  - intros i1 i2 q1 q2 (p1 & Hp1 & E1 & _ & A1 & _)%Hold (p2 & Hp2 & E2 & _ & A2 & _)%Hold.
    rewrite E1, E2. intros Hj ??. eauto.
  - intros i1 i2 q1 q2 at_ (p1 & Hp1 & E1 & S1 & _)%Hold (p2 & Hp2 & E2 & S2 & _)%Hold.
    rewrite E1, E2, S1, S2. intros. eauto.
Qed.

Lemma cron_run_Some t id run :
  cron_run t id = Some run → ∃ r, runs t !! id = Some r ∧ row_run r = run.
Proof. unfold cron_run. intros (r & Hr & ->)%fmap_Some. eauto. Qed.

Lemma start_cron_run_wf t id started dep name addr b t' :
  cron_wf t → start_cron_run t id started dep name addr = (b, t') →
  (∀ r, runs t !! id = Some r → is_active (row_state r) = true) → cron_wf t'.
Proof.
  unfold start_cron_run. intros Hw Hs Hact.
  destruct (cron_run t id) as [run|] eqn:E; [|by injection Hs as <- <-].
  injection Hs as <- <-. apply cron_run_Some in E as (r & Hr & <-).
  destruct (cw_rows _ Hw _ _ Hr) as [Hid Hj Hst Hat].
  eapply cron_wf_update; [done|exact Hr|done|by rewrite Hj|done..|by intros _; apply Hact].
Qed.

Lemma finish_cron_run_wf t id st finished code error b t' :
  cron_wf t → finish_cron_run t id st finished code error = (b, t') → is_active st = false → cron_wf t'.
Proof.
  unfold finish_cron_run. intros Hw Hs Hact.
  destruct (cron_run t id) as [run|] eqn:E; [|by injection Hs as <- <-].
  injection Hs as <- <-. apply cron_run_Some in E as (r & Hr & <-).
  destruct (cw_rows _ Hw _ _ Hr) as [Hid Hj Hst Hat].
  eapply cron_wf_update; [done|exact Hr|done|by rewrite Hj|done..|by rewrite Hact].
Qed.

Lemma retain_wf t now_ts keep keep_latest :
  cron_wf t → cron_wf (retain_cron_runs t now_ts keep keep_latest).2.
Proof.
  intros [H1 H2 H3]. split; simpl.
  - intros i r [Hr _]%map_lookup_filter_Some. by apply H1.
  - intros i1 i2 r1 r2 [Hr1 _]%map_lookup_filter_Some [Hr2 _]%map_lookup_filter_Some. by apply H2.
  - intros i1 i2 r1 r2 at_ [Hr1 _]%map_lookup_filter_Some [Hr2 _]%map_lookup_filter_Some. by apply H3.
Qed.

Lemma active_run_found t id r :
  cron_wf t → runs t !! id = Some r → is_active (row_state r) = true →
  active_cron_run t (row_job r) = Some (row_run r).
Proof.
  intros Hw Hr Ha. unfold active_cron_run. destruct (first_run _ _) as [[i q]|] eqn:E.
  - apply first_run_Some in E as [Hq [Hj Hqa]%is_active_of_true].
    pose proof (cw_active _ Hw _ _ _ _ Hq Hr Hj Hqa Ha) as ->. simpl. by simplify_eq.
  - rewrite first_run_None in E. specialize (E _ _ Hr).
    rewrite (proj2 (is_active_of_true _ _)) in E; done.
Qed.

(** *** Ranks *)

(** The order of a job's terminal runs, newest first, as a strict total order. *)
Definition earlier (a b : string * RunRow) : bool :=
  (row_claimed_at b.2 <? row_claimed_at a.2)%Z ||
  ((row_claimed_at b.2 =? row_claimed_at a.2)%Z && leb a.1 b.1).

Definition siblings (t : CronTables) (job : Job) : list (string * RunRow) :=
  filter (λ e : string * RunRow, row_job e.2 = job ∧ is_terminal (row_state e.2) = true)
    (map_to_list (runs t)).

Lemma elem_of_siblings t job id r :
  (id, r) ∈ siblings t job ↔ runs t !! id = Some r ∧ row_job r = job ∧ is_terminal (row_state r) = true.
Proof. unfold siblings. rewrite list_elem_of_filter, elem_of_map_to_list. simpl. tauto. Qed.

Lemma NoDup_siblings t job : NoDup (siblings t job).
Proof. apply NoDup_filter, NoDup_map_to_list. Qed.

Lemma earlier_total a b : earlier a b = true ∨ earlier b a = true.
Proof.
  unfold earlier. rewrite !orb_true_iff, !andb_true_iff, !Z.ltb_lt, !Z.eqb_eq.
  destruct (Z.lt_trichotomy (row_claimed_at a.2) (row_claimed_at b.2)) as [?|[?|?]];
    [right; left; lia| |left; left; lia].
  destruct (leb_total a.1 b.1); [left|right]; right; (split; [lia|done]).
Qed.

Lemma earlier_trans a b c : earlier a b = true → earlier b c = true → earlier a c = true.
Proof.
  unfold earlier. rewrite !orb_true_iff, !andb_true_iff, !Z.ltb_lt, !Z.eqb_eq.
  intros [?|[? H1]] [?|[? H2]]; [left; lia..|]. right. split; [lia|]. by eapply leb_trans.
Qed.

Lemma ranks_before_iff a b :
  ranks_before a b = true ↔
  row_job a.2 = row_job b.2 ∧ is_terminal (row_state a.2) = true ∧ earlier a b = true ∧
  (row_claimed_at a.2 = row_claimed_at b.2 → a.1 ≠ b.1).
Proof.
  unfold ranks_before, earlier.
  rewrite !andb_true_iff, !orb_true_iff, !andb_true_iff, bool_decide_eq_true, !Z.ltb_lt, !Z.eqb_eq.
  rewrite leb_lt_or_eq. destruct (ltb a.1 b.1) eqn:E.
  - assert (a.1 ≠ b.1) by (intros He; by rewrite He, ltb_irrefl in E).
    assert (true = true) by done. tauto.
  - split.
    + intros [[? ?] [?|[_ ?]]]; [|done]. split_and!; try done; [by left|lia].
    + intros (? & ? & [?|[? [?|He]]] & Hne); [tauto|done|]. by destruct Hne.
Qed.

Lemma earlier_antisym a b :
  earlier a b = true → earlier b a = true → row_claimed_at a.2 = row_claimed_at b.2 ∧ a.1 = b.1.
Proof.
  unfold earlier. rewrite !orb_true_iff, !andb_true_iff, !Z.ltb_lt, !Z.eqb_eq.
  intros [?|[? H1]] [?|[? H2]]; try lia. split; [lia|]. by apply leb_antisym.
Qed.

(** In a list in that order, the runs that rank before the [i]th are the first [i]. *)
Lemma sorted_rank l i e :
  NoDup l.*1 → (∀ a b, a ∈ l → b ∈ l → row_job a.2 = row_job b.2) →
  (∀ a, a ∈ l → is_terminal (row_state a.2) = true) →
  StronglySorted (λ a b, earlier a b = true) l → l !! i = Some e →
  length (filter (λ a, ranks_before a e = true) l) = i.
Proof.
  intros Hnd Hjob Hterm Hs. revert i. induction Hs as [|x l Hs IH Hx]; intros i Hi; [done|].
  inversion Hnd as [|y ys Hnotin Hnd' Heq]; subst.
  assert (∀ a b, a ∈ l → b ∈ l → row_job a.2 = row_job b.2) as Hj' by
    (intros; apply Hjob; by apply list_elem_of_further).
  assert (∀ a, a ∈ l → is_terminal (row_state a.2) = true) as Ht' by
    (intros; apply Hterm; by apply list_elem_of_further).
  rewrite filter_cons. destruct i as [|i]; simpl in Hi.
  - injection Hi as <-. rewrite decide_False.
    2:{ rewrite ranks_before_iff. intros (_ & _ & _ & Hne). by apply Hne. }
    rewrite filter_none; [done|]. intros a Ha (_ & _ & Hax & Hne)%ranks_before_iff.
    rewrite Forall_forall in Hx. destruct (earlier_antisym _ _ Hax (Hx _ Ha)). by apply Hne.
  - pose proof (list_elem_of_lookup_2 _ _ _ Hi) as He.
    rewrite decide_True; [simpl; f_equal; by apply IH|].
    apply ranks_before_iff. rewrite Forall_forall in Hx. split_and!.
    + apply Hjob; [apply list_elem_of_here|by apply list_elem_of_further].
    + apply Hterm, list_elem_of_here.
    + by apply Hx.
    + intros _ Heq. apply Hnotin. rewrite Heq. by apply list_elem_of_fmap_2.
Qed.

Lemma NoDup_sorted_siblings t job : NoDup (sort_by earlier (siblings t job)).*1.
Proof.
  apply NoDup_fmap_2_strong.
  - intros [i1 r1] [i2 r2]. rewrite !elem_of_sort_by, !elem_of_siblings. simpl.
    intros [? _] [? _] ->. by simplify_eq.
  - rewrite sort_by_Permutation. apply NoDup_siblings.
Qed.

(** The row number of a terminal run is its place among its siblings, newest first. *)
Lemma sibling_rank t job e i :
  sort_by earlier (siblings t job) !! i = Some e → row_number t e = S i.
Proof.
  intros Hi. unfold row_number. f_equal. set (l := sort_by earlier (siblings t job)) in *.
  assert (l ≡ₚ siblings t job) as Hp by apply sort_by_Permutation.
  assert (∀ a, a ∈ l → row_job a.2 = job ∧ is_terminal (row_state a.2) = true) as Hl.
  { intros [j q] Hin. unfold l in Hin. rewrite elem_of_sort_by in Hin.
    by apply elem_of_siblings in Hin as [_ ?]. }
  apply list_elem_of_lookup_2 in Hi as Hin. destruct (Hl _ Hin) as [Hje _].
  rewrite <-(sorted_rank l i e); [|apply NoDup_sorted_siblings| | |apply sort_by_sorted|done].
  - rewrite Hp. unfold siblings. rewrite list_filter_filter_l; [done|].
    intros [j q] (? & ? & _)%ranks_before_iff. simpl in *. by rewrite <-Hje.
  - intros a b [-> _]%Hl [-> _]%Hl. done.
  - intros a [_ ?]%Hl. done.
  - apply earlier_total.
  - apply earlier_trans.
Qed.

(** The latest runs of a job survive: behind every run that was removed there are as many
    retained runs of the job, claimed no earlier, as retention is asked to keep. *)
Lemma removed_run_rank t id r k :
  runs t !! id = Some r → is_terminal (row_state r) = true → (k < row_number t (id, r))%nat →
  ∃ latest, length latest = k ∧ NoDup latest.*1 ∧
    ∀ e, e ∈ latest → runs t !! e.1 = Some e.2 ∧ row_job e.2 = row_job r ∧
      is_terminal (row_state e.2) = true ∧ (row_claimed_at r ≤ row_claimed_at e.2)%Z ∧
      (row_number t e ≤ k)%nat.
Proof.
  intros Hr Ht Hk. set (l := sort_by earlier (siblings t (row_job r))).
  assert (l ≡ₚ siblings t (row_job r)) as Hp by apply sort_by_Permutation.
  assert (∀ e, e ∈ l ↔ runs t !! e.1 = Some e.2 ∧ row_job e.2 = row_job r ∧
                       is_terminal (row_state e.2) = true) as Hl.
  { intros [i q]. rewrite (elem_of_Permutation_proper (i, q) _ _ Hp). apply elem_of_siblings. }
  assert (∀ e i, l !! i = Some e → row_number t e = S i) as Hrank.
  { intros e i Hi. by apply sibling_rank with (row_job r). }
  assert (∃ i, l !! i = Some (id, r)) as [i Hi].
  { apply list_elem_of_lookup. by apply Hl. }
  rewrite (Hrank _ _ Hi) in Hk.
  pose proof (sort_by_sorted earlier earlier_total earlier_trans (siblings t (row_job r))) as Hs.
  fold l in Hs. exists (take k l). split_and!.
  - apply length_take_le. apply lookup_lt_Some in Hi. lia.
  - eapply sublist_NoDup; [apply (NoDup_sorted_siblings t (row_job r))|]. fold l.
    rewrite fmap_take. apply sublist_take.
  - intros e (j & Hj)%list_elem_of_lookup. apply lookup_take_Some in Hj as [Hj Hlt].
    apply list_elem_of_lookup_2 in Hj as Hin. apply Hl in Hin as (?&?&?). split_and!; [done..| |].
    + assert (earlier e (id, r) = true) as He.
      { rewrite <-(take_drop i l) in Hs.
        apply (StronglySorted_app_1_elem_of _ _ _ _ _ Hs); apply list_elem_of_lookup.
        - exists j. apply lookup_take_Some. split; [done|lia].
        - exists O. by rewrite lookup_drop, Nat.add_0_r. }
      unfold earlier in He. rewrite orb_true_iff, andb_true_iff, Z.ltb_lt, Z.eqb_eq in He. simpl in He. lia.
    + rewrite (Hrank _ _ Hj). lia.
Qed.

(** A recorded run of a job, of a slot of the job, and an active one. *)
Definition run_of (job : Job) (run : CronRun) : Prop := (run_service run, run_cron_name run) = job.
Definition run_of_slot (job : Job) (scheduled_at : option N) (run : CronRun) : Prop :=
  run_of job run ∧ ∃ at_, scheduled_at = Some at_ ∧ as_i64 <$> run_scheduled_at run = Some (as_i64 at_).
Definition active_run_of (job : Job) (run : CronRun) : Prop :=
  run_of job run ∧ is_active (run_state run) = true.
Definition recorded (t : CronTables) (P : CronRun → Prop) : Prop :=
  ∃ id run, cron_run t id = Some run ∧ P run.

Lemma cron_run_row t id run :
  cron_wf t → cron_run t id = Some run →
  ∃ r, runs t !! id = Some r ∧ row_run r = run ∧ run_of (row_job r) run ∧
    row_state r = run_state run ∧ row_scheduled_at r = as_i64 <$> run_scheduled_at run.
Proof.
  intros Hw (r & Hr & ->)%fmap_Some. destruct (cw_rows _ Hw _ _ Hr) as [_ Hj Hs Hsc].
  exists r. unfold run_of. by rewrite <-Hj.
Qed.

Lemma unrecorded_slot t job scheduled_at :
  cron_wf t →
  (∀ at_ id r, scheduled_at = Some at_ → runs t !! id = Some r → row_job r = job →
     row_scheduled_at r ≠ Some (as_i64 at_)) →
  ¬ recorded t (run_of_slot job scheduled_at).
Proof.
  intros Hw Hn (id & run & (r & Hr & _ & Hj & _ & Hs)%cron_run_row & <- & at_ & -> & Hat); [|done].
  apply (Hn at_ id r); [done|done|by rewrite <-Hj|]. by rewrite Hs.
Qed.

Lemma unrecorded_active t job :
  cron_wf t →
  (∀ id r, runs t !! id = Some r → row_job r = job → is_active (row_state r) = false) →
  ¬ recorded t (active_run_of job).
Proof.
  intros Hw Hn (id & run & (r & Hr & _ & Hj & Hs & _)%cron_run_row & <- & Ha); [|done].
  rewrite <-Hs, (Hn id r) in Ha; [done|done|by rewrite <-Hj].
Qed.

Module CronProps.

(** C6: Claiming a run, in tables whose rows agree with their runs and where no two active
    runs share a job and no two runs of a job share a slot.  A claim succeeds only with a
    new identifier and when no recorded run of this job has the slot and none is active; it
    adds exactly the new run.  A slot that is taken returns a recorded run of this job and
    slot and changes nothing.  An overlap, reported only for a slot that is free, names a
    recorded active run of this job, changes no run, and counts one skip of this job and
    of no other.  A database error comes only of a known identifier, with the slot free and
    no active run.  The tables keep their invariant in every case. *)
Theorem claims_are_exclusive t project job cause scheduled_at id timestamp :
  cron_wf t →
  let slot := run_of_slot job scheduled_at in
  let active := active_run_of job in
  match claim_cron_run t project job cause scheduled_at id timestamp with
  | Ok (ClaimedRun run, t') =>
      run = new_run project job cause scheduled_at id timestamp ∧
      cron_run t id = None ∧ ¬ recorded t slot ∧ ¬ recorded t active ∧
      (∀ id', cron_run t' id' = if decide (id' = id) then Some run else cron_run t id') ∧
      job_specs t' = job_specs t ∧ scheduler t' = scheduler t ∧ cron_wf t'
  | Ok (DuplicateScheduledClaim run, t') =>
      t' = t ∧ slot run ∧ cron_run t (run_id run) = Some run
  | Ok (OverlapForbidden id', t') =>
      ¬ recorded t slot ∧ (∃ run, cron_run t id' = Some run ∧ active run) ∧
      runs t' = runs t ∧ job_specs t' = job_specs t ∧ cron_wf t' ∧
      row_skipped <$> scheduler t' !! job =
        Some (from_option row_skipped 0%Z (scheduler t !! job) + 1)%Z ∧
      (∀ job', job' ≠ job → scheduler t' !! job' = scheduler t !! job')
  | Err e => e = Database ∧ is_Some (cron_run t id) ∧ ¬ recorded t slot ∧ ¬ recorded t active
  end.
Proof.
  intros Hw slot active. pose proof (claim_cron_run_spec t project job cause scheduled_at id timestamp) as Hs.
  pose proof (claim_cron_run_order t project job cause scheduled_at id timestamp) as Ho.
  destruct (claim_cron_run _ _ _ _ _ _ _) as [[[run|run|id'] t']|e] eqn:Hc; simpl in Hs, Ho.
  - pose proof (cron_wf_claim _ _ _ _ _ _ _ _ _ Hw Hc) as Hw'.
    destruct Hs as (-> & Hid & Hact & Hns & ->). unfold cron_run. split_and!; try done.
    + by rewrite Hid.
    + by apply unrecorded_slot.
    + by apply unrecorded_active.
    + intros i. simpl. rewrite lookup_insert. do 2 case_decide; done.
  - destruct Hs as (-> & at_ & i & r & -> & Hr & Hj & Hat & ->).
    destruct (cw_rows _ Hw _ _ Hr) as [Hid Hj' _ Hsc].
    split_and!; [done|split; [by rewrite <-Hj|exists at_; by rewrite <-Hsc]|].
    unfold cron_run. by rewrite Hid, Hr.
  - destruct Hs as (-> & r & Hr & Hj & Ha). destruct (cw_rows _ Hw _ _ Hr) as [_ Hj' Hst _].
    split_and!; try done; [by apply unrecorded_slot|..].
    + exists (row_run r). unfold cron_run. rewrite Hr. split; [done|].
      split; [by rewrite <-Hj|by rewrite <-Hst].
    + by apply (cron_wf_same_runs t).
    + unfold bump_skipped. simpl. rewrite lookup_insert_eq. by destruct (scheduler t !! _).
    + intros job' Hne. unfold bump_skipped. simpl. by rewrite lookup_insert_ne.
  - destruct Hs as [-> Hid], Ho as [Hns Hna]. split_and!; [done| |by apply unrecorded_slot|by apply unrecorded_active].
    unfold cron_run. by apply fmap_is_Some.
Qed.

(** Retention is safe.  It never removes an active run, changes no run, removes a run
    only when it was claimed before the cutoff, and then leaves at least [keep_latest]
    finished runs of the same job that were claimed no earlier. *)
Theorem retention_keeps_active_and_latest_runs t now_ts keep_seconds keep_latest n t' :
  retain_cron_runs t now_ts keep_seconds keep_latest = (n, t') →
  (∀ id r, runs t' !! id = Some r → runs t !! id = Some r) ∧
  (∀ id r, runs t !! id = Some r → runs t' !! id = None →
     is_active (row_state r) = false ∧
     (row_claimed_at r < as_i64 (saturating_sub now_ts keep_seconds))%Z ∧
     ∃ latest, length latest = N.to_nat keep_latest ∧ NoDup latest.*1 ∧
       ∀ e, e ∈ latest → runs t' !! e.1 = Some e.2 ∧ row_job e.2 = row_job r ∧
         is_terminal (row_state e.2) = true ∧ (row_claimed_at r ≤ row_claimed_at e.2)%Z).
Proof.
  unfold retain_cron_runs. intros [= <- <-]. simpl.
  set (cutoff := as_i64 (saturating_sub now_ts keep_seconds)).
  split; [by intros id r [? _]%map_lookup_filter_Some|].
  intros id r Hr Hnone. rewrite map_lookup_filter_None in Hnone.
  destruct Hnone as [?|Hnone]; [congruence|]. specialize (Hnone _ Hr).
  unfold is_retained in Hnone. rewrite not_true_iff_false, negb_false_iff in Hnone.
  apply andb_true_iff in Hnone as [[Ht Hc%Z.ltb_lt]%andb_true_iff Hk%N.ltb_lt]. simpl in Ht, Hc.
  split_and!; [by rewrite is_terminal_active, negb_true_iff in Ht|done|].
  destruct (removed_run_rank t id r (N.to_nat keep_latest)) as (latest & Hlen & Hnd & Hall);
    [done|done|lia|].
  exists latest. split_and!; [done|done|]. intros [i q] He.
  destruct (Hall _ He) as (Hq & Hj & Hqt & Hle & Hrank). split_and!; try done.
  apply map_lookup_filter_Some. split; [done|]. unfold is_retained.
  rewrite (proj2 (N.ltb_ge _ _)); [by rewrite andb_false_r|]. simpl. lia.
Qed.

(** Two runs of one job, one finished and one running. *)
Definition sample_job : Job := ("web", "sync").
Definition sample_row (id : string) (at_ : N) (st : CronRunState) : RunRow :=
  let run := {| run_id := id; run_project := "demo"; run_service := "web"; run_cron_name := "sync";
                run_cause := Scheduled; run_scheduled_at := Some at_; run_claimed_at := at_;
                run_started_at := None; run_finished_at := None; run_state := st;
                run_deployment_id := None; run_container_name := None; run_address := None;
                run_exit_code := None; run_error := None |} in
  {| row_job := sample_job; row_cause := Scheduled; row_scheduled_at := Some (as_i64 at_);
     row_claimed_at := as_i64 at_; row_state := st; row_run := run |}.
Definition sample_cron : CronTables :=
  {| job_specs := ∅;
     runs := {[ "r1" := sample_row "r1" 60 Succeeded; "r2" := sample_row "r2" 120 Running ]};
     scheduler := ∅ |}.

Lemma sample_cron_wf : cron_wf sample_cron.
Proof.
  assert (∀ id r, runs sample_cron !! id = Some r →
    (id = "r1" ∧ r = sample_row "r1" 60 Succeeded) ∨ (id = "r2" ∧ r = sample_row "r2" 120 Running)) as H.
  { intros id r. unfold sample_cron. cbn [runs].
    rewrite lookup_insert_Some, lookup_singleton_Some. naive_solver. }
  split.
  - intros id r [[-> ->]|[-> ->]]%H; split; reflexivity.
  - intros i1 i2 r1 r2 [[-> ->]|[-> ->]]%H [[-> ->]|[-> ->]]%H; done.
  - intros i1 i2 r1 r2 at_ [[-> ->]|[-> ->]]%H [[-> ->]|[-> ->]]%H; try done; intros _ [= <-] E; vm_compute in E; discriminate E.
Qed.

(** Another job may claim a slot this job has; this job may not, and overlaps when it asks
    for a later one. *)
Lemma claims_are_exclusive_witness :
  (∃ run t', claim_cron_run sample_cron "demo" ("web", "prune") Scheduled (Some 120) "r3" 180
     = Ok (ClaimedRun run, t') ∧ ¬ recorded sample_cron (run_of_slot ("web", "prune") (Some 120))) ∧
  (∃ run, claim_cron_run sample_cron "demo" sample_job Scheduled (Some 60) "r3" 180
     = Ok (DuplicateScheduledClaim run, sample_cron) ∧ run_of_slot sample_job (Some 60) run) ∧
  (∃ t', claim_cron_run sample_cron "demo" sample_job Scheduled (Some 180) "r3" 180
     = Ok (OverlapForbidden "r2", t') ∧ runs t' = runs sample_cron).
Proof.
  pose proof (claims_are_exclusive sample_cron "demo" ("web", "prune") Scheduled (Some 120) "r3" 180
    sample_cron_wf) as H1.
  pose proof (claims_are_exclusive sample_cron "demo" sample_job Scheduled (Some 60) "r3" 180
    sample_cron_wf) as H2.
  pose proof (claims_are_exclusive sample_cron "demo" sample_job Scheduled (Some 180) "r3" 180
    sample_cron_wf) as H3.
  split_and!.
  - destruct (claim_cron_run _ _ ("web", "prune") _ _ _ _) as [[[run|?|?] t']|?] eqn:E;
      try (vm_compute in E; discriminate E). exists run, t'. split; [done|]. apply H1.
  - destruct (claim_cron_run _ _ _ _ (Some 60) _ _) as [[[?|run|?] t']|?] eqn:E;
      try (vm_compute in E; discriminate E). destruct H2 as (-> & Hr & _). by exists run.
  - destruct (claim_cron_run _ _ _ _ (Some 180) _ _) as [[[?|?|id'] t']|?] eqn:E;
      try (vm_compute in E; discriminate E).
    assert (id' = "r2") as -> by (vm_compute in E; by injection E). exists t'. split; [done|]. apply H3.
Defined.

(** Three finished runs, of which retention keeps the latest two. *)
Definition sample_history : CronTables :=
  {| job_specs := ∅;
     runs := {[ "r1" := sample_row "r1" 60 Succeeded; "r2" := sample_row "r2" 120 RunFailed;
                "r3" := sample_row "r3" 180 Succeeded ]};
     scheduler := ∅ |}.

Lemma retention_keeps_active_and_latest_runs_witness :
  ∃ t', retain_cron_runs sample_history 1000 10 2 = (1%nat, t') ∧
    runs t' !! "r1" = None ∧
    ∃ latest, length latest = 2%nat ∧ NoDup latest.*1 ∧
      ∀ e, e ∈ latest → runs t' !! e.1 = Some e.2.
Proof.
  destruct (retain_cron_runs sample_history 1000 10 2) as [n t'] eqn:E.
  assert (n = 1%nat ∧ runs t' !! "r1" = None) as [-> Hnone].
  { vm_compute in E. injection E as <- <-. by vm_compute. }
  exists t'. split; [done|]. split; [done|].
  destruct (retention_keeps_active_and_latest_runs sample_history 1000 10 2 1%nat t' E) as [_ H].
  destruct (H "r1" (sample_row "r1" 60 Succeeded)) as (_ & _ & latest & ? & ? & Hall);
    [vm_compute; reflexivity|done|].
  exists latest. split_and!; [done|done|]. intros e He. by apply Hall.
Defined.

End CronProps.
