(* ===== verification/CronExec.v ===== *)
(** Running cron jobs: [jiji-agent/src/cron_exec.rs] (naming, rendering, starting,
    monitoring and recovering the container of a claimed run), [jiji-agent/src/scheduler.rs]
    (the tick) and the [CronRun] request of [jiji-agent/src/api.rs].

    What the container engine answers is an argument of each operation ([StartOutcome],
    [MonitorOutcome], the observed containers).  The background task of a run is an entry
    of [drivers] that says how far the task has come; a restart of the agent loses them, and a
    task that panics goes away.
    The mutex around the store makes each store access one step, and is never poisoned
    here: no operation that is modelled panics while it holds it. *)

From S2P Require Import Prelude Text Cidr Naming Schema Planner ServiceRuntime Membership OpLog Leases Cron.
Open Scope N_scope.

Definition MAX_CONTAINER_NAME_LEN : nat := 120.
Definition FALLBACK_TIMEOUT_SECS : N := 3600.
Definition METADATA_RETAIN_SECS : N := 30 * 24 * 3600.
Definition METADATA_RETAIN_LATEST : N := 100.
Definition CONTAINER_RETAIN_SECS : N := 24 * 3600.

(** ** Names and rendering *)

(** [str::is_char_boundary]: the end, or the first byte of a character. *)
Definition is_char_boundary (n : nat) (s : string) : bool :=
  match bytes s !! n with
  | None => bool_decide (n = length (bytes s))
  | Some c => negb ((128 <=? N_of_ascii c) && (N_of_ascii c <? 192))
  end.

(** [s.get(..n)], and with [expect] the indexing [&s[..n]]. *)
Definition prefix_to (n : nat) (s : string) : option string :=
  if is_char_boundary n s then Some (String.substring 0 n s) else None.

Section exec.
Context `{Sha256, Labels}.

Definition short_hash (value : string) : string :=
  String.concat "" (hex_byte <$> take 4 (sha256 value)).

Definition cron_container_name (project service cron_name run_id : string) :
    result (fault ()) string :=
  let suffix := default run_id (prefix_to 12 run_id) in
  let readable := project +:+ "-" +:+ service +:+ "-cron-" +:+ cron_name +:+ "-" +:+ suffix in
  if (String.length readable <=? MAX_CONTAINER_NAME_LEN)%nat then Ok readable
  else
    let hash := short_hash readable in
    let keep := (MAX_CONTAINER_NAME_LEN - (String.length hash + 1))%nat in
    let? kept := expect (prefix_to keep readable) in
    Ok (kept +:+ "-" +:+ hash).

Definition cron_container_labels (spec : CronJobSpec) (id : string) (address : N) : list string :=
  mjoin ((λ kv : string * string, ["--label"; kv.1 +:+ "=" +:+ kv.2]) <$>
    [("jiji.managed", "true"); ("jiji.project", spec_project spec);
     ("jiji.service", spec_service spec); ("jiji.server", spec_server spec);
     ("jiji.resource", "cron"); ("jiji.cron", spec_cron_name spec); ("jiji.cron-run", id);
     ("jiji.deployment", id); ("jiji.lease", ipv4_to_string address)]).

Definition render_cron_run (spec : CronJobSpec) (engine : ContainerEngine)
    (id container_name : string) (address : N) : result string NetworkedContainerRun :=
  let? dns_address := ok_or (parse_ipv4 (spec_dns_address spec))
    ("cron spec dns_address '" +:+ spec_dns_address spec +:+ "' is not a valid IPv4 address") in
  Ok {| nc_engine := engine; nc_container_name := container_name; nc_image := spec_image spec;
        nc_address := address; nc_dns_address := dns_address;
        nc_bridge_name := spec_bridge_network spec; nc_bridge_interface := "";
        nc_network_target := TargetBridge;
        nc_extra_args := ["--detach"; "--restart"; "no"] ++ cron_container_labels spec id address ++
          spec_mount_args spec ++ ["--env-file"; spec_env_file_path spec] ++ spec_resource_args spec;
        nc_command := spec_command spec |}.

(** ** The agent *)

(** The background task of a run: about to lease an address, about to start the container,
    or waiting for the container to exit, for at most the given time. *)
Inductive Phase := Leasing | Starting | Monitoring (remaining : N).

Record Agent := {
  cron : CronTables;
  lease_tables : LeaseTables;
  drivers : gmap string Phase;
}.

Definition with_cron (a : Agent) (t : CronTables) : Agent :=
  {| cron := t; lease_tables := lease_tables a; drivers := drivers a |}.
Definition with_lease_tables (a : Agent) (t : LeaseTables) : Agent :=
  {| cron := cron a; lease_tables := t; drivers := drivers a |}.
Definition with_drivers (a : Agent) (d : gmap string Phase) : Agent :=
  {| cron := cron a; lease_tables := lease_tables a; drivers := d |}.

(** [MeshConfig]: the fields leasing uses. *)
Record MeshConfig := {
  mesh_bridge_gateway : N;
  mesh_dns_bind_address : N;
  mesh_proxy_address : N;
  mesh_container_subnet : Ipv4Cidr;
}.

(** [release_address]: failures are only logged. *)
Definition release_address (a : Agent) (id : string) (timestamp : N) : Agent :=
  match quarantine_address_lease (lease_tables a) id
          (u64_saturating_add timestamp DEFAULT_QUARANTINE_SECONDS) with
  | Ok (_, t) => with_lease_tables a t
  | Err _ => a
  end.

(** [finish]: the last thing the task of a run does. *)
Definition finish (a : Agent) (id : string) (state : CronRunState) (exit_code : option Z)
    (error : option string) (timestamp : N) : Agent :=
  let a := release_address a id timestamp in
  let a := with_cron a (finish_cron_run (cron a) id state timestamp exit_code error).2 in
  with_drivers a (delete id (drivers a)).

(** [lease_and_spawn].  When no address can be leased the expired leases have already been
    collected, if that succeeded. *)
Definition lease_and_spawn (a : Agent) (mesh : MeshConfig) (spec : CronJobSpec) (run : CronRun)
    (timestamp : N) : result LeaseError () * Agent :=
  let reserved := [mesh_bridge_gateway mesh; mesh_dns_bind_address mesh; mesh_proxy_address mesh] in
  match allocate (allocator_new (mesh_container_subnet mesh) reserved) (lease_tables a) (run_id run)
          (cron_replica_id (spec_service spec) (spec_cron_name spec)) timestamp with
  | Ok (_, leases) =>
      (Ok (), with_drivers (with_lease_tables a leases) (<[run_id run := Starting]> (drivers a)))
  | Err error =>
      let leases := match collect_expired_address_leases (lease_tables a) timestamp with
                    | Ok (_, t) => t
                    | Err _ => lease_tables a
                    end in
      let t := (finish_cron_run (cron a) (run_id run) RunFailed timestamp None
                  (Some ("address allocation failed: " +:+ lease_error_text error))).2 in
      (Err error, with_drivers (with_lease_tables (with_cron a t) leases)
                    (delete (run_id run) (drivers a)))
  end.

(** How the engine's [run] command ended. *)
Inductive StartOutcome := Started | StartExit (stderr : string) | SpawnFailed (error : string).

(** [execute_claimed_run_with_binary] up to the point where it waits for the container. *)
Definition execute_claimed_run (a : Agent) (spec : CronJobSpec) (engine : ContainerEngine)
    (run : CronRun) (address : N) (outcome : StartOutcome) (timestamp : N) :
    result (fault ()) Agent :=
  let? container_name := cron_container_name (spec_project spec) (spec_service spec)
                           (spec_cron_name spec) (run_id run) in
  match render_cron_run spec engine (run_id run) container_name address with
  | Err error => Ok (finish a (run_id run) RunFailed None (Some error) timestamp)
  | Ok _ =>
      match outcome with
      | StartExit detail | SpawnFailed detail =>
          Ok (finish a (run_id run) RunFailed None
                (Some ("could not start cron container: " +:+ detail)) timestamp)
      | Started =>
          let t := (start_cron_run (cron a) (run_id run) timestamp (run_id run) container_name
                      (ipv4_to_string address)).2 in
          Ok (with_drivers (with_cron a t)
                (<[run_id run := Monitoring (spec_timeout_seconds spec)]> (drivers a)))
      end
  end.

(** What waiting for a container gave: an exit code or an error within the timeout, or the
    timeout, after which the container was stopped and, if it did not exit in time either,
    removed. *)
Inductive MonitorOutcome :=
| Exited (code : Z)
| WaitFailed (detail : string)
| Elapsed (code_after_stop : option Z).

Definition monitor_result (o : MonitorOutcome) (remaining : N) :
    CronRunState * option Z * option string :=
  match o with
  | Exited code => (if (code =? 0)%Z then Succeeded else RunFailed, Some code, None)
  | WaitFailed detail => (RunFailed, None, Some detail)
  | Elapsed code =>
      (TimedOut, code, Some ("exceeded its configured timeout (" +:+ pretty remaining +:+
                             "s remaining when last observed)"))
  end.

Definition monitor_and_finish (a : Agent) (id : string) (remaining : N) (o : MonitorOutcome)
    (timestamp : N) : Agent :=
  let '(state, exit_code, error) := monitor_result o remaining in
  finish a id state exit_code error timestamp.

(** ** Recovery *)

Record CronContainerObservation := {
  observed_container : string;
  observed_run_id : option string;
  observed_running : bool;
}.

Definition remaining_timeout (run : CronRun) (timeout_seconds now : N) : N :=
  let began_at := default (run_claimed_at run) (run_started_at run) in
  let deadline := u64_saturating_add began_at timeout_seconds in
  saturating_sub deadline now.

(** One active run; the task that resumes a running container is given what is left of the
    timeout of the installed specification. *)
Definition recover_run (containers : list CronContainerObservation)
    (inspect_exit_code : string → option Z) (now : N) (a : Agent) (run : CronRun) : Agent :=
  match list_find (λ c, observed_run_id c = Some (run_id run)) containers with
  | None => finish a (run_id run) RunFailed None (Some "cron container missing on agent restart") now
  | Some (_, c) =>
      if observed_running c then
        let timeout_seconds := default FALLBACK_TIMEOUT_SECS
          (spec_timeout_seconds <$> cron_spec (cron a) (run_service run, run_cron_name run)) in
        with_drivers a
          (<[run_id run := Monitoring (remaining_timeout run timeout_seconds now)]> (drivers a))
      else
        let exit_code := inspect_exit_code (observed_container c) in
        let state := if bool_decide (exit_code = Some 0%Z) then Succeeded else RunFailed in
        finish a (run_id run) state exit_code None now
  end.

Definition active_runs (t : CronTables) : list CronRun :=
  filter (λ run, is_active (run_state run) = true) (cron_runs t CronRunFilter_default).

(** The containers that no resumed or finished run claims are removed. *)
Definition unclaimed_containers (containers : list CronContainerObservation)
    (matched : list string) : list string :=
  observed_container <$>
    filter (λ c, match observed_run_id c with
                 | Some id => bool_decide (id ∈ matched)
                 | None => false
                 end = false) containers.

(** [recover_claimed_runs_with_binary]; the containers could not be listed when [None]. *)
Definition recover_claimed_runs (a : Agent) (listed : option (list CronContainerObservation))
    (inspect_exit_code : string → option Z) (now : N) : Agent * list string :=
  match listed with
  | None => (a, [])
  | Some containers =>
      let active := active_runs (cron a) in
      let matched := run_id <$> filter (λ run,
          is_Some (list_find (λ c, observed_run_id c = Some (run_id run)) containers)) active in
      (foldl (recover_run containers inspect_exit_code now) a active,
       unclaimed_containers containers matched)
  end.

(** [cleanup_old_cron_containers_with_binary]: the containers it removes. *)
Definition cleanup_old_cron_containers (t : CronTables) (now keep_seconds : N) : list string :=
  omap (λ run,
    if is_active (run_state run) then None
    else
      finished_at ← run_finished_at run;
      if saturating_sub now finished_at <? keep_seconds then None else run_container_name run)
    (cron_runs t CronRunFilter_default).

(** ** [scheduler.rs] *)

Definition generate_scheduled_run_id (project service cron_name : string) (due_at : N) : string :=
  let nul := String Ascii.zero "" in
  String.concat "" (hex_byte <$>
    sha256 ("scheduled" +:+ nul +:+ project +:+ nul +:+ service +:+ nul +:+ cron_name +:+ nul +:+
            pretty due_at)).

Definition set_next_due (a : Agent) (job : Job) (now next : N) : Agent :=
  with_cron a (set_cron_scheduler_state (cron a) job (Some now) (Some next)).

(** Claim the due run of a job and start it. *)
Definition claim_due (a : Agent) (mesh : MeshConfig) (project : string) (now : N)
    (spec : CronJobSpec) (due_at : N) : Agent :=
  let id := generate_scheduled_run_id project (spec_service spec) (spec_cron_name spec) due_at in
  match claim_cron_run (cron a) project (spec_job spec) Scheduled (Some due_at) id now with
  | Ok (ClaimedRun run, t) =>
      (lease_and_spawn (with_drivers (with_cron a t) (<[id := Leasing]> (drivers a)))
         mesh spec run now).2
  | Ok (_, t) => with_cron a t
  | Err _ => a
  end.

(** *** The [CronRun] request of the agent's API *)

Inductive CronRunResponse :=
| CronRunAccepted (id : string)
| CronRunConflict (active_run_id : string)
| ApiNotFound
| ApiInternal.

(** The identifier is generated from the clock; the runtime may not be configured. *)
Definition request_cron_run (a : Agent) (runtime : option MeshConfig) (project : string) (job : Job)
    (timestamp : N) (id : string) : CronRunResponse * Agent :=
  match cron_spec (cron a) job with
  | None => (ApiNotFound, a)
  | Some spec =>
      match claim_cron_run (cron a) project job Manual None id timestamp with
      | Err _ => (ApiInternal, a)
      | Ok (OverlapForbidden active_run_id, t) => (CronRunConflict active_run_id, with_cron a t)
      | Ok (DuplicateScheduledClaim _, t) => (ApiInternal, with_cron a t)
      | Ok (ClaimedRun run, t) =>
          let a := with_drivers (with_cron a t) (<[id := Leasing]> (drivers a)) in
          match runtime with
          | None =>
              (ApiInternal,
               with_drivers
                 (with_cron a (finish_cron_run (cron a) (run_id run) RunFailed timestamp None
                    (Some "agent has no engine/mesh runtime configured; cannot execute cron containers")).2)
                 (delete (run_id run) (drivers a)))
          | Some mesh =>
              match lease_and_spawn a mesh spec run timestamp with
              | (Ok _, a) => (CronRunAccepted (run_id run), a)
              | (Err _, a) => (ApiInternal, a)
              end
          end
      end
  end.

Context `{Jiff}.

(** The next due time after a due run: the natural one, or, when that has passed as well,
    the next one from now ([missed_runs: skip]). *)
Definition next_schedule (spec : CronJobSpec) (due_at now : N) : option N :=
  match next_due_at (spec_schedule spec) (spec_timezone spec) due_at with
  | Ok next =>
      if now <? next then Some next
      else match next_due_at (spec_schedule spec) (spec_timezone spec) now with
           | Ok next => Some next
           | Err _ => None
           end
  | Err _ => None
  end.

(** The body of the loop of [tick]. *)
Definition tick_spec (mesh : MeshConfig) (project : string) (now : N) (a : Agent)
    (spec : CronJobSpec) : Agent :=
  match cron_scheduler_state (cron a) (spec_job spec) ≫= sched_next_due_at with
  | None =>
      match next_due_at (spec_schedule spec) (spec_timezone spec) now with
      | Ok next => set_next_due a (spec_job spec) now next
      | Err _ => a
      end
  | Some due_at =>
      if now <? due_at then a
      else
        let a := claim_due a mesh project now spec due_at in
        match next_schedule spec due_at now with
        | Some next => set_next_due a (spec_job spec) now next
        | None => a
        end
  end.

Definition tick (a : Agent) (mesh : MeshConfig) (project : string) (now : N) : Agent :=
  foldl (tick_spec mesh project now) a (cron_specs (cron a)).
End exec.

(** ** Lemmas *)

Definition active_row (t : CronTables) (id : string) : Prop :=
  ∃ r, runs t !! id = Some r ∧ is_active (row_state r) = true.

(** The tasks work on the active runs, but for some that have lost their task. *)
Record agent_with (orphans : gset string) (a : Agent) : Prop := {
  ak_wf : cron_wf (cron a);
  ak_driven : ∀ id, is_Some (drivers a !! id) ↔ active_row (cron a) id ∧ id ∉ orphans;
  ak_orphans : ∀ id, id ∈ orphans → active_row (cron a) id;
}.
(** The active runs are the ones some task works on. *)
Definition agent_ok (a : Agent) : Prop := agent_with ∅ a.
(** An active run no task works on. *)
Definition orphaned (a : Agent) (id : string) : Prop := active_row (cron a) id ∧ drivers a !! id = None.

Lemma agent_with_orphaned O a id : agent_with O a → orphaned a id ↔ id ∈ O.
Proof.
  intros [Hw Hd Ho]. unfold orphaned. rewrite eq_None_not_Some, Hd. destruct (decide (id ∈ O)) as [Hin|Hn]; split.
  - done.
  - intros _. split; [by apply Ho|]. by intros [_ ?].
  - intros [Ha Hna]. by destruct Hna.
  - done.
Qed.
Lemma driven_not_orphaned O a id : agent_with O a → is_Some (drivers a !! id) → id ∉ O.
Proof. intros [_ Hd _] Hs. by apply Hd. Qed.
Lemma driven_active O a id : agent_with O a → is_Some (drivers a !! id) → active_row (cron a) id.
Proof. intros [_ Hd _] Hs. by apply Hd. Qed.

Lemma update_run_lookup_ne t id st run i :
  i ≠ id → runs (update_run t id st run) !! i = runs t !! i.
Proof. intros. simpl. by rewrite lookup_alter_ne. Qed.

Lemma update_run_active t id st run :
  is_active st = false → ¬ active_row (update_run t id st run) id.
Proof.
  intros Hst (r & Hr & Ha). simpl in Hr. rewrite lookup_alter_eq in Hr.
  destruct (runs t !! id); [|done]. simpl in Hr. injection Hr as <-. simpl in Ha. congruence.
Qed.

Lemma finish_cron_run_active t id st ts code error i :
  is_active st = false →
  active_row (finish_cron_run t id st ts code error).2 i ↔ active_row t i ∧ i ≠ id.
Proof.
  intros Hst. unfold finish_cron_run. destruct (cron_run t id) as [run|] eqn:E.
  - simpl. destruct (decide (i = id)) as [->|Hne].
    + split; [by intros ?%update_run_active|by intros [_ ?]].
    + unfold active_row. rewrite update_run_lookup_ne by done. naive_solver.
  - simpl. unfold cron_run in E. apply fmap_None in E. split; [|by intros [? _]].
    intros Ha. split; [done|]. intros ->. destruct Ha as (r & Hr & _). congruence.
Qed.

Lemma start_cron_run_active t id ts dep name addr i :
  active_row t id → active_row (start_cron_run t id ts dep name addr).2 i ↔ active_row t i.
Proof.
  intros (r & Hr & Ha). unfold start_cron_run, cron_run. rewrite Hr. simpl.
  destruct (decide (i = id)) as [->|Hne].
  - unfold active_row. simpl. rewrite lookup_alter_eq, Hr. simpl. split; [eauto|].
    intros _. by eexists.
  - unfold active_row. by rewrite update_run_lookup_ne.
Qed.

(** *** Listing the active runs *)

Lemma NoDup_filter_fmap {A B} (f : A → B) (P : A → Prop) `{∀ x, Decision (P x)} (l : list A) :
  NoDup (f <$> l) → NoDup (f <$> filter P l).
Proof.
  induction l as [|x l IH]; intros Hnd; [done|]. inversion Hnd as [|? ? Hn Hnd']; subst.
  rewrite filter_cons. case_decide; [|by apply IH]. rewrite fmap_cons. constructor; [|by apply IH].
  rewrite list_elem_of_fmap. intros (y & Hy & [_ Hin]%list_elem_of_filter). apply Hn.
  rewrite Hy. by apply list_elem_of_fmap_2.
Qed.

Lemma cron_runs_default t :
  cron_runs t CronRunFilter_default ≡ₚ row_run <$> btree_values (runs t).
Proof.
  unfold cron_runs, btree_values. cbn [filter_limit CronRunFilter_default].
  rewrite sort_by_Permutation, filter_all; [|done]. by rewrite <-list_fmap_compose.
Qed.

Lemma elem_of_active_runs t run :
  cron_wf t → run ∈ active_runs t ↔
  ∃ r, runs t !! run_id run = Some r ∧ row_run r = run ∧ is_active (row_state r) = true.
Proof.
  intros Hw. unfold active_runs. rewrite list_elem_of_filter.
  rewrite (elem_of_Permutation_proper _ _ _ (cron_runs_default t)), list_elem_of_fmap.
  setoid_rewrite elem_of_btree_values. split.
  - intros [Ha (r & -> & id & Hr)]. destruct (cw_rows _ Hw _ _ Hr) as [Hid _ Hst _].
    exists r. rewrite Hid, Hst. done.
  - intros (r & Hr & <- & Ha). destruct (cw_rows _ Hw _ _ Hr) as [_ _ Hst _]. rewrite <-Hst. eauto 6.
Qed.

Lemma NoDup_active_runs t : cron_wf t → NoDup (run_id <$> active_runs t).
Proof.
  intros Hw. unfold active_runs.
  eapply (NoDup_filter_fmap run_id). rewrite (cron_runs_default t), <-list_fmap_compose.
  assert ((run_id ∘ row_run) <$> btree_values (runs t) = btree_keys (runs t)) as ->.
  { unfold btree_values, btree_keys. rewrite <-list_fmap_compose. apply list_fmap_ext.
    intros i [id r] Hi. simpl. apply list_elem_of_lookup_2, elem_of_btree_list in Hi.
    by destruct (cw_rows _ Hw _ _ Hi). }
  apply NoDup_btree_keys.
Qed.

Section exec_lemmas.
Context `{Sha256, Labels}.

Lemma release_address_same a id ts :
  cron (release_address a id ts) = cron a ∧ drivers (release_address a id ts) = drivers a.
Proof. unfold release_address. by destruct (quarantine_address_lease _ _ _) as [[??]|]. Qed.

(** Ending a run: its row becomes terminal and its task goes away. *)
Lemma end_run_ok O a t' leases id st ts code error :
  agent_with O a → id ∉ O → is_active st = false → t' = (finish_cron_run (cron a) id st ts code error).2 →
  agent_with O {| cron := t'; lease_tables := leases; drivers := delete id (drivers a) |}.
Proof.
  intros [Hw Hd Ho] Hid Hst ->. split; simpl.
  - eapply finish_cron_run_wf; [done|apply surjective_pairing|done].
  - intros i. rewrite finish_cron_run_active by done. rewrite lookup_delete_is_Some, Hd. naive_solver.
  - intros i Hi. apply finish_cron_run_active; [done|]. split; [by apply Ho|]. by intros ->.
Qed.

Lemma finish_ok O a id st code error ts :
  agent_with O a → id ∉ O → is_active st = false → agent_with O (finish a id st code error ts).
Proof.
  intros Ha Hid Hst. unfold finish. destruct (release_address_same a id ts) as [Hc Hd].
  simpl. rewrite Hc, Hd. by eapply end_run_ok.
Qed.

(** A claimed run gets a task. *)
Lemma claim_ok O a project job cause at_ id ts out t' leases :
  agent_with O a → claim_cron_run (cron a) project job cause at_ id ts = Ok (out, t') →
  agent_with O {| cron := t'; lease_tables := leases;
              drivers := match out with ClaimedRun _ => <[id := Leasing]> (drivers a) | _ => drivers a end |}.
Proof.
  intros [Hw Hd Ho] Hc. pose proof (cron_wf_claim _ _ _ _ _ _ _ _ _ Hw Hc) as Hw'.
  pose proof (claim_cron_run_spec (cron a) project job cause at_ id ts) as Hs. rewrite Hc in Hs.
  destruct out as [run|run|id']; simpl in Hs; [|destruct Hs as [-> _]; by split..].
  destruct Hs as (-> & Hid & _ & _ & ->).
  assert (∀ i, i ∈ O → i ≠ id) as Hno.
  { intros i Hi ->. destruct (Ho id Hi) as (r & Hr & _). by rewrite Hid in Hr. }
  split; [done|..]; simpl.
  - intros i. rewrite lookup_insert_is_Some'. rewrite Hd. unfold active_row. simpl.
    destruct (decide (i = id)) as [->|Hne].
    + rewrite lookup_insert_eq. split; [|by left]. intros _. split; [by eexists|]. intros Hi. by destruct (Hno id).
    + rewrite lookup_insert_ne by done. split; [|by right]. intros [->|?]; done.
  - intros i Hi. unfold active_row. simpl. rewrite lookup_insert_ne by (apply not_eq_sym; by apply Hno). by apply Ho.
Qed.

Lemma lease_and_spawn_ok O a mesh spec run ts :
  agent_with O a → is_Some (drivers a !! run_id run) → agent_with O (lease_and_spawn a mesh spec run ts).2.
Proof.
  intros Ha Hd. pose proof (driven_not_orphaned _ _ _ Ha Hd) as Hn. unfold lease_and_spawn.
  destruct (allocate _ _ _ _ _) as [[l t]|e]; simpl.
  - destruct Ha as [Hw Hdr Ho]. split; simpl; [done| |done]. intros i. rewrite lookup_insert_is_Some', <-Hdr.
    split; [|by right]. intros [<-|?]; done.
  - eapply (end_run_ok O a _ _ _ RunFailed); [done|done|done|reflexivity].
Qed.

Lemma execute_claimed_run_ok O a spec engine run address o ts a' :
  agent_with O a → is_Some (drivers a !! run_id run) →
  execute_claimed_run a spec engine run address o ts = Ok a' → agent_with O a'.
Proof.
  intros Ha Hd. pose proof (driven_not_orphaned _ _ _ Ha Hd) as Hn. pose proof (driven_active _ _ _ Ha Hd) as Hact. unfold execute_claimed_run. destruct (cron_container_name _ _ _ _); [|done].
  destruct (render_cron_run _ _ _ _ _); [|intros [= <-]; by apply finish_ok].
  destruct o; intros [= <-]; try by apply finish_ok.
  destruct Ha as [Hw Hdr Ho]. split; simpl.
  - eapply start_cron_run_wf; [done|apply surjective_pairing|].
    intros r Hr. destruct Hact as (r' & Hr' & ?). by simplify_eq.
  - intros i. rewrite start_cron_run_active, <-Hdr, lookup_insert_is_Some' by done.
    split; [|by right]. intros [<-|?]; done.
  - intros i Hi. rewrite start_cron_run_active by done. by apply Ho.
Qed.

Lemma monitor_result_terminal o n : is_active (monitor_result o n).1.1 = false.
Proof. destruct o as [c| |]; simpl; [by destruct (c =? 0)%Z|done..]. Qed.

Lemma monitor_and_finish_ok O a id n o ts : agent_with O a → id ∉ O → agent_with O (monitor_and_finish a id n o ts).
Proof.
  intros Ha Hid. unfold monitor_and_finish. pose proof (monitor_result_terminal o n) as Hm.
  destruct (monitor_result o n) as [[st code] error]. by apply finish_ok.
Qed.

(** *** Recovery *)

(** Halfway through recovery the active runs are the resumed ones and the ones to come. *)
Record recovering (a : Agent) (rest : list CronRun) : Prop := {
  rc_wf : cron_wf (cron a);
  rc_driven : ∀ id, is_Some (drivers a !! id) → active_row (cron a) id;
  rc_rest : ∀ run, run ∈ rest → active_row (cron a) (run_id run);
  rc_active : ∀ id, active_row (cron a) id → is_Some (drivers a !! id) ∨ id ∈ run_id <$> rest;
}.

Lemma recovering_finish a run rest st code error ts :
  recovering a (run :: rest) → run_id run ∉ run_id <$> rest → is_active st = false →
  recovering (finish a (run_id run) st code error ts) rest.
Proof.
  intros [Hw Hd Hr Ha] Hnd Hst. unfold finish.
  destruct (release_address_same a (run_id run) ts) as [Hc Hdr]. simpl. rewrite Hc, Hdr. split; simpl.
  - eapply finish_cron_run_wf; [done|apply surjective_pairing|done].
  - intros id [Hne ?]%lookup_delete_is_Some. apply finish_cron_run_active; [done|]. auto.
  - intros q Hq. apply finish_cron_run_active; [done|]. split; [by apply Hr, list_elem_of_further|].
    intros He. apply Hnd. rewrite <-He. by apply list_elem_of_fmap_2.
  - intros id [Hact Hne]%finish_cron_run_active; [|done]. rewrite lookup_delete_is_Some.
    destruct (Ha _ Hact) as [?|[?|?]%elem_of_cons]; [by left|done|by right].
Qed.

Lemma recovering_resume a run rest ph :
  recovering a (run :: rest) → recovering (with_drivers a (<[run_id run := ph]> (drivers a))) rest.
Proof.
  intros [Hw Hd Hr Ha]. split; simpl; [done| | |].
  - intros id [<-|?]%lookup_insert_is_Some'; [apply Hr, list_elem_of_here|by apply Hd].
  - intros q Hq. by apply Hr, list_elem_of_further.
  - intros id Hact. rewrite lookup_insert_is_Some'.
    destruct (Ha _ Hact) as [?|[?|?]%elem_of_cons]; [by left; right|by left; left|by right].
Qed.

Lemma recover_fold containers inspect now a rest :
  NoDup (run_id <$> rest) → recovering a rest →
  agent_ok (foldl (recover_run containers inspect now) a rest).
Proof.
  revert a. induction rest as [|run rest IH]; intros a Hnd Hrec; simpl.
  - destruct Hrec as [Hw Hd _ Ha]. split; [done| |by intros id ?%elem_of_empty].
    intros id. split; [intros Hs; split; [by apply Hd|apply not_elem_of_empty]|].
    by intros [[?|?%elem_of_nil]%Ha _].
  - inversion Hnd as [|? ? Hn Hnd']; subst. apply IH; [done|]. unfold recover_run.
    destruct (list_find _ _) as [[i c]|]; [|by apply recovering_finish].
    destruct (observed_running c); [by apply recovering_resume|].
    apply recovering_finish; [done|done|]. by case_bool_decide.
Qed.

(** Starting again from the database alone. *)
Lemma recover_claimed_runs_ok t leases containers inspect now :
  cron_wf t →
  agent_ok (recover_claimed_runs {| cron := t; lease_tables := leases; drivers := ∅ |}
              (Some containers) inspect now).1.
Proof.
  intros Hw. simpl. apply recover_fold; [by apply NoDup_active_runs|]. split; simpl; [done| | |].
  - intros id. rewrite lookup_empty. by intros [??].
  - intros run (r & Hr & _ & Ha)%elem_of_active_runs; [|done]. by exists r.
  - intros id (r & Hr & Ha). right. destruct (cw_rows _ Hw _ _ Hr) as [Hid _ _ _].
    apply list_elem_of_fmap. exists (row_run r). split; [done|].
    apply elem_of_active_runs; [done|]. rewrite Hid. by exists r.
Qed.
End exec_lemmas.

(** ** The agent as a state machine *)

Section machine.
Context `{Sha256, Labels, Jiff}.

(** The kinds of steps: the work of the agent, a task that panics, a crash and a restart that
    recovers the active runs, and one that could not list the containers and recovers none. *)
Inductive Label := Work | TaskPanics (id : string) | Restarts | RestartsBlind.

(** One step of the agent: a claim by the scheduler or by a request, a task that goes on, or that
    panics where it names its container, the periodic cleanup, a change to the specifications or to
    the schedule, any change to the leases by other parts of the agent, or a crash with the restart
    that follows it.  Tasks interleave freely; each store access is atomic. *)
Inductive step : Label → Agent → Agent → Prop :=
| step_claim a project job cause at_ id ts out t' :
    claim_cron_run (cron a) project job cause at_ id ts = Ok (out, t') →
    step Work a {| cron := t'; lease_tables := lease_tables a;
                   drivers := match out with
                              | ClaimedRun _ => <[id := Leasing]> (drivers a)
                              | _ => drivers a
                              end |}
| step_lease a mesh spec run ts :
    drivers a !! run_id run = Some Leasing → step Work a (lease_and_spawn a mesh spec run ts).2
| step_abandon a id error ts :
    drivers a !! id = Some Leasing →
    step Work a (with_drivers (with_cron a (finish_cron_run (cron a) id RunFailed ts None error).2)
                   (delete id (drivers a)))
| step_start a spec engine run address o ts a' :
    drivers a !! run_id run = Some Starting →
    execute_claimed_run a spec engine run address o ts = Ok a' → step Work a a'
| step_panic a spec engine run address o ts :
    drivers a !! run_id run = Some Starting →
    execute_claimed_run a spec engine run address o ts = Err Panic →
    step (TaskPanics (run_id run)) a (with_drivers a (delete (run_id run) (drivers a)))
| step_monitor a id remaining o ts :
    drivers a !! id = Some (Monitoring remaining) → step Work a (monitor_and_finish a id remaining o ts)
| step_cleanup a now :
    step Work a (with_cron a (retain_cron_runs (cron a) now METADATA_RETAIN_SECS METADATA_RETAIN_LATEST).2)
| step_apply_spec a spec : step Work a (with_cron a (apply_cron_spec (cron a) spec).2)
| step_remove_spec a job : step Work a (with_cron a (remove_cron_spec (cron a) job).2)
| step_schedule a job evaluated next :
    step Work a (with_cron a (set_cron_scheduler_state (cron a) job evaluated next))
| step_leases a t : step Work a (with_lease_tables a t)
| step_restart a (listed : option (list CronContainerObservation)) inspect now :
    step (if listed then Restarts else RestartsBlind) a
      (recover_claimed_runs {| cron := cron a; lease_tables := lease_tables a; drivers := ∅ |}
         listed inspect now).1.

Definition any_step (a a' : Agent) : Prop := ∃ l, step l a a'.

(** An agent with a fresh database. *)
Definition fresh_agent : Agent :=
  {| cron := {| job_specs := ∅; runs := ∅; scheduler := ∅ |};
     lease_tables := {| leases := ∅; checkpoints := ∅; observations := ∅ |}; drivers := ∅ |}.

Lemma fresh_agent_ok : agent_ok fresh_agent.
Proof.
  split.
  - split; simpl; intros *; by rewrite lookup_empty.
  - intros id. simpl. split; [by intros [? ?%lookup_empty_Some]|].
    intros [(r & Hr & _) _]. cbn in Hr. by apply lookup_empty_Some in Hr.
  - by intros id ?%elem_of_empty.
Qed.

Lemma agent_ok_same_runs O a t : runs t = runs (cron a) → agent_with O a → agent_with O (with_cron a t).
Proof.
  intros Hr [Hw Hd Ho]. split; simpl; [by apply (cron_wf_same_runs (cron a))|..].
  - intros id. rewrite Hd. unfold active_row. by rewrite Hr.
  - intros id Hid. unfold active_row. rewrite Hr. by apply Ho.
Qed.

Lemma retain_active t now keep keep_latest id : active_row (retain_cron_runs t now keep keep_latest).2 id ↔ active_row t id.
Proof.
  unfold active_row. simpl. split.
  - intros (r & [Hr _]%map_lookup_filter_Some & Ha). eauto.
  - intros (r & Hr & Ha). exists r. split; [|done]. apply map_lookup_filter_Some. split; [done|].
    unfold is_retained. simpl. by rewrite is_terminal_active, Ha.
Qed.
Lemma retain_ok O a now keep keep_latest :
  agent_with O a → agent_with O (with_cron a (retain_cron_runs (cron a) now keep keep_latest).2).
Proof.
  intros [Hw Hd Ho]. split; [by apply retain_wf|..]; intros id; cbn [drivers with_drivers with_cron cron]; rewrite retain_active; auto.
Qed.

(** A task that dies leaves its run behind; a restart that recovers nothing leaves all of them. *)
Lemma panic_ok O a id :
  agent_with O a → is_Some (drivers a !! id) → agent_with (O ∪ {[ id ]}) (with_drivers a (delete id (drivers a))).
Proof.
  intros Ha Hs. pose proof (driven_active _ _ _ Ha Hs) as Hact. destruct Ha as [Hw Hd Ho].
  split; [done|..]; intros i; cbn [drivers with_drivers cron].
  - rewrite lookup_delete_is_Some, Hd. set_solver.
  - intros [Hi| ->%elem_of_singleton]%elem_of_union; [by apply Ho|done].
Qed.
Definition active_ids (t : CronTables) : gset string := list_to_set (run_id <$> active_runs t).
Lemma elem_of_active_ids t id : cron_wf t → id ∈ active_ids t ↔ active_row t id.
Proof.
  intros Hw. unfold active_ids. rewrite elem_of_list_to_set, list_elem_of_fmap. split.
  - intros (run & -> & (r & Hr & _ & Ha)%elem_of_active_runs); [by exists r|done].
  - intros (r & Hr & Ha). exists (row_run r). destruct (cw_rows _ Hw _ _ Hr) as [Hid _ _ _]. split; [done|].
    apply elem_of_active_runs; [done|]. rewrite Hid. by exists r.
Qed.
Lemma forget_ok t leases : cron_wf t → agent_with (active_ids t) {| cron := t; lease_tables := leases; drivers := ∅ |}.
Proof.
  intros Hw. split; [done|..]; intros id; cbn [drivers cron]; rewrite elem_of_active_ids by done; [|done].
  rewrite lookup_empty. split; [by intros []|by intros [? ?]].
Qed.

(** The runs without a task after a step. *)
Definition orphans_after (l : Label) (a : Agent) (O : gset string) : gset string :=
  match l with
  | Work => O
  | TaskPanics id => O ∪ {[ id ]}
  | Restarts => ∅
  | RestartsBlind => active_ids (cron a)
  end.
Lemma step_with O l a a' : agent_with O a → step l a a' → agent_with (orphans_after l a O) a'.
Proof.
  intros Ha Hs. assert (∀ id p, drivers a !! id = Some p → id ∉ O) as Hn.
  { intros id p Hp. eapply driven_not_orphaned; [done|by eexists]. }
  destruct Hs; simpl.
  - by eapply claim_ok.
  - by apply lease_and_spawn_ok.
  - destruct a as [t ls d]. eapply (end_run_ok O {| cron := t; lease_tables := ls; drivers := d |} _ _ _ RunFailed); eauto.
  - by eapply execute_claimed_run_ok.
  - by apply panic_ok.
  - apply monitor_and_finish_ok; eauto.
  - by apply retain_ok.
  - by apply agent_ok_same_runs.
  - by apply agent_ok_same_runs.
  - by apply agent_ok_same_runs.
  - by destruct Ha.
  - destruct listed as [containers|]; [apply recover_claimed_runs_ok, Ha|apply forget_ok, Ha].
Qed.
Lemma step_ok a a' : agent_ok a → step Work a a' → agent_ok a'.
Proof. intros Ha Hs. exact (step_with ∅ Work a a' Ha Hs). Qed.
Lemma steps_with O a a' : agent_with O a → rtc any_step a a' → ∃ O', agent_with O' a'.
Proof.
  intros Ha Hs. revert O Ha. induction Hs as [|a b c [l Hs] _ IH]; intros O Ha; [eauto|]. by eapply IH, step_with.
Qed.
Lemma reachable_with a : rtc any_step fresh_agent a → ∃ O, agent_with O a.
Proof. apply (steps_with ∅), fresh_agent_ok. Qed.
Lemma work_any a a' : rtc (step Work) a a' → rtc any_step a a'.
Proof. apply rtc_subrel. intros x y Hs. by exists Work. Qed.

(** Nothing but a restart that recovers touches the row of a run without a task. *)
Lemma finish_cron_run_frame t id st ts code error i :
  i ≠ id → runs (finish_cron_run t id st ts code error).2 !! i = runs t !! i.
Proof. intros Hne. unfold finish_cron_run. destruct (cron_run t id); [|done]. simpl. by rewrite lookup_alter_ne. Qed.
Lemma finish_frame a id st code error ts i :
  i ≠ id → runs (cron (finish a id st code error ts)) !! i = runs (cron a) !! i.
Proof. intros Hne. unfold finish. simpl. rewrite finish_cron_run_frame by done. by rewrite (proj1 (release_address_same a id ts)). Qed.
Lemma lease_and_spawn_frame a mesh spec run ts i :
  i ≠ run_id run → runs (cron (lease_and_spawn a mesh spec run ts).2) !! i = runs (cron a) !! i.
Proof. intros Hne. unfold lease_and_spawn. destruct (allocate _ _ _ _ _) as [[??]|]; [done|]. by apply finish_cron_run_frame. Qed.
Lemma execute_frame a spec engine run address o ts a' i :
  execute_claimed_run a spec engine run address o ts = Ok a' → i ≠ run_id run → runs (cron a') !! i = runs (cron a) !! i.
Proof.
  intros He Hne. unfold execute_claimed_run in He. destruct (cron_container_name _ _ _ _); [|done].
  destruct (render_cron_run _ _ _ _ _); [|injection He as <-; by apply finish_frame].
  destruct o; injection He as <-; [|by apply finish_frame..]. simpl.
  unfold start_cron_run. destruct (cron_run _ _); [|done]. simpl. by rewrite lookup_alter_ne.
Qed.
Lemma claim_frame t project job cause at_ id ts out t' i :
  claim_cron_run t project job cause at_ id ts = Ok (out, t') → is_Some (runs t !! i) → runs t' !! i = runs t !! i.
Proof.
  intros Hc [r Hr]. pose proof (claim_cron_run_spec t project job cause at_ id ts) as Hs. rewrite Hc in Hs.
  destruct out; simpl in Hs; [|destruct Hs as [-> _]; done..]. destruct Hs as (_ & Hid & _ & _ & ->). simpl.
  rewrite lookup_insert_ne; [done|]. intros ->. by rewrite Hid in Hr.
Qed.
Lemma orphan_frame l a a' i : orphaned a i → step l a a' → l ≠ Restarts → runs (cron a') !! i = runs (cron a) !! i.
Proof.
  intros [(r & Hr & Ha) Hn] Hs Hl. assert (∀ id p, drivers a !! id = Some p → i ≠ id) as Hne.
  { intros id p Hp ->. by rewrite Hn in Hp. }
  destruct Hs; try done.
  - eapply claim_frame; [done|by eexists].
  - apply lease_and_spawn_frame. eauto.
  - apply finish_cron_run_frame. eauto.
  - eapply execute_frame; eauto.
  - unfold monitor_and_finish. destruct (monitor_result _ _) as [[??]?]. apply finish_frame. eauto.
  - simpl. rewrite Hr. apply map_lookup_filter_Some. split; [done|]. unfold is_retained. simpl. by rewrite is_terminal_active, Ha.
  - by destruct listed.
Qed.
(** A job with an active run has no other one claimed. *)
Lemma active_job_not_claimed t project job cause at_ id ts i r run t' :
  runs t !! i = Some r → row_job r = job → is_active (row_state r) = true →
  claim_cron_run t project job cause at_ id ts ≠ Ok (ClaimedRun run, t').
Proof.
  intros Hr Hj Ha Hc. pose proof (claim_cron_run_spec t project job cause at_ id ts) as Hs. rewrite Hc in Hs.
  destruct Hs as (_ & _ & Hno & _ & _). specialize (Hno i r Hr Hj). congruence.
Qed.

(** A tick is a sequence of steps. *)
Lemma set_next_due_step a job now next : rtc (step Work) a (set_next_due a job now next).
Proof. apply rtc_once, step_schedule. Qed.

Lemma claim_due_steps a mesh project now spec due_at :
  rtc (step Work) a (claim_due a mesh project now spec due_at).
Proof.
  unfold claim_due. set (id := generate_scheduled_run_id _ _ _ _).
  pose proof (claim_cron_run_spec (cron a) project (spec_job spec) Scheduled (Some due_at) id now) as Hs.
  destruct (claim_cron_run _ _ _ _ _ _ _) as [[out t]|] eqn:E; [|done].
  apply step_claim in E. destruct out as [run|run|i]; [|by apply rtc_once..].
  destruct Hs as (-> & _). eapply rtc_l; [exact E|]. apply rtc_once, step_lease.
  simpl. by rewrite lookup_insert_eq.
Qed.

Lemma tick_spec_steps mesh project now a spec : rtc (step Work) a (tick_spec mesh project now a spec).
Proof.
  unfold tick_spec. destruct (_ ≫= sched_next_due_at) as [due|].
  - destruct (now <? due); [done|]. destruct (next_schedule _ _ _); [|apply claim_due_steps].
    etransitivity; [apply claim_due_steps|apply set_next_due_step].
  - destruct (next_due_at _ _ _); [apply set_next_due_step|done].
Qed.

Lemma tick_steps a mesh project now : rtc (step Work) a (tick a mesh project now).
Proof.
  unfold tick. generalize (cron_specs (cron a)). intros l. revert a.
  induction l as [|spec l IH]; intros a; simpl; [done|].
  etransitivity; [apply tick_spec_steps|apply IH].
Qed.

Lemma request_steps a runtime project job ts id :
  rtc (step Work) a (request_cron_run a runtime project job ts id).2.
Proof.
  unfold request_cron_run. destruct (cron_spec _ _) as [spec|]; [|done].
  pose proof (claim_cron_run_spec (cron a) project job Manual None id ts) as Hs.
  destruct (claim_cron_run _ _ _ _ _ _ _) as [[out t]|] eqn:E; [|done].
  apply step_claim in E. destruct out as [run|run|i]; [|by apply rtc_once..].
  destruct Hs as (-> & _). eapply rtc_l; [exact E|].
  set (a1 := {| cron := t |}). assert (drivers a1 !! id = Some Leasing) as Hd
    by (simpl; apply lookup_insert_eq).
  destruct runtime as [mesh|].
  - pose proof (step_lease a1 mesh spec (new_run project job Manual None id ts) ts Hd) as Hl.
    apply rtc_once. unfold with_drivers, with_cron, a1 in *. cbn [cron lease_tables drivers] in *.
    destruct (lease_and_spawn _ mesh spec _ ts) as [[u|e] a2]; exact Hl.
  - apply rtc_once. by apply (step_abandon a1 id).
Qed.

(** *** Specifications are filed under their job *)

Definition specs_keyed (t : CronTables) : Prop :=
  ∀ job row, job_specs t !! job = Some row → spec_job (row_spec row) = job.

Lemma finish_cron_run_specs t id st ts code error :
  job_specs (finish_cron_run t id st ts code error).2 = job_specs t.
Proof. unfold finish_cron_run. by destruct (cron_run t id). Qed.

Lemma finish_specs a id st code error ts :
  job_specs (cron (finish a id st code error ts)) = job_specs (cron a).
Proof.
  unfold finish. simpl. by rewrite finish_cron_run_specs, (proj1 (release_address_same a id ts)).
Qed.

Lemma lease_and_spawn_specs a mesh spec run ts :
  job_specs (cron (lease_and_spawn a mesh spec run ts).2) = job_specs (cron a).
Proof.
  unfold lease_and_spawn. destruct (allocate _ _ _ _ _) as [[??]|]; [done|].
  apply finish_cron_run_specs.
Qed.

Lemma recover_specs containers inspect now a rest :
  job_specs (cron (foldl (recover_run containers inspect now) a rest)) = job_specs (cron a).
Proof.
  revert a. induction rest as [|run rest IH]; intros a; [done|]. simpl. rewrite IH. unfold recover_run.
  destruct (list_find _ _) as [[i c]|]; [|apply finish_specs].
  destruct (observed_running c); [done|apply finish_specs].
Qed.

Lemma claim_specs t project job cause at_ id ts out t' :
  claim_cron_run t project job cause at_ id ts = Ok (out, t') → job_specs t' = job_specs t.
Proof.
  intros Hc. pose proof (claim_cron_run_spec t project job cause at_ id ts) as Hs. rewrite Hc in Hs.
  destruct out; simpl in Hs; [destruct Hs as (_ & _ & _ & _ & ->)|destruct Hs as [-> _]..]; done.
Qed.

Lemma execute_specs a spec engine run address o ts a' :
  execute_claimed_run a spec engine run address o ts = Ok a' → job_specs (cron a') = job_specs (cron a).
Proof.
  unfold execute_claimed_run. destruct (cron_container_name _ _ _ _); [|done].
  destruct (render_cron_run _ _ _ _ _); [|intros [= <-]; apply finish_specs].
  destruct o; intros [= <-]; [|apply finish_specs..]. simpl.
  unfold start_cron_run. by destruct (cron_run _ _).
Qed.

Lemma step_specs_keyed a a' : specs_keyed (cron a) → any_step a a' → specs_keyed (cron a').
Proof.
  intros Hk [l Hs].
  assert (job_specs (cron a') = job_specs (cron a) → specs_keyed (cron a')) as Hsame.
  { unfold specs_keyed. by intros ->. }
  destruct Hs.
  - apply Hsame. by eapply claim_specs.
  - apply Hsame, lease_and_spawn_specs.
  - apply Hsame, finish_cron_run_specs.
  - apply Hsame. by eapply execute_specs.
  - by apply Hsame.
  - apply Hsame. unfold monitor_and_finish. destruct (monitor_result o remaining) as [[??]?].
    apply finish_specs.
  - by apply Hsame.
  - intros job row. simpl. rewrite lookup_insert_Some. intros [[<- <-]|[_ ?]]; [done|by apply Hk].
  - intros j row. simpl. rewrite lookup_delete_Some. intros [_ ?]. by apply Hk.
  - by apply Hsame.
  - by apply Hsame.
  - apply Hsame. destruct listed as [containers|]; [|done].
    apply (recover_specs containers inspect now {| cron := cron a; lease_tables := lease_tables a; drivers := ∅ |}).
Qed.

Lemma reachable_specs a : rtc any_step fresh_agent a → specs_keyed (cron a).
Proof.
  apply (rtc_ind_r (λ a, specs_keyed (cron a))); [|eauto using step_specs_keyed].
  intros job row. simpl. by rewrite lookup_empty.
Qed.

(** *** The effect of a tick on one job *)

(** What the scheduler sees of a job: its row and its runs. *)
Definition same_job (job : Job) (a b : Agent) : Prop :=
  scheduler (cron b) !! job = scheduler (cron a) !! job ∧
  ∀ id r, row_job r = job → runs (cron b) !! id = Some r ↔ runs (cron a) !! id = Some r.

Lemma same_job_trans job a b c : same_job job a b → same_job job b c → same_job job a c.
Proof.
  intros [Es1 Er1] [Es2 Er2]. split; [congruence|]. intros id r Hr. by rewrite Er2, Er1.
Qed.

Lemma set_next_due_due a job now next :
  cron_scheduler_state (cron (set_next_due a job now next)) job ≫= sched_next_due_at = Some next.
Proof. unfold cron_scheduler_state. simpl. by rewrite lookup_insert_eq. Qed.

Lemma set_next_due_skipped a job now next k :
  row_skipped <$> scheduler (cron a) !! job = Some k →
  row_skipped <$> scheduler (cron (set_next_due a job now next)) !! job = Some k.
Proof. simpl. rewrite lookup_insert_eq. destruct (scheduler (cron a) !! job); [|done]. by intros [= ->]. Qed.

Lemma set_next_due_other a job j now next : j ≠ job → same_job j a (set_next_due a job now next).
Proof. intros Hne. split; [|done]. simpl. by rewrite lookup_insert_ne. Qed.

(** Ending a run of one job is not seen by another. *)
Lemma finish_cron_run_other t id r st ts code error j i q :
  runs t !! id = Some r → row_job r ≠ j → row_job q = j →
  runs (finish_cron_run t id st ts code error).2 !! i = Some q ↔ runs t !! i = Some q.
Proof.
  intros Hr Hne Hj. unfold finish_cron_run, cron_run. rewrite Hr. simpl.
  destruct (decide (i = id)) as [->|?]; [|by rewrite lookup_alter_ne].
  rewrite lookup_alter_eq, Hr. simpl. split; intros [= <-]; [|done]. simpl in Hj. done.
Qed.

Lemma finish_cron_run_scheduler t id st ts code error :
  scheduler (finish_cron_run t id st ts code error).2 = scheduler t.
Proof. unfold finish_cron_run. by destruct (cron_run t id). Qed.

Lemma lease_and_spawn_other a mesh spec run ts r j :
  runs (cron a) !! run_id run = Some r → row_job r ≠ j →
  same_job j a (lease_and_spawn a mesh spec run ts).2.
Proof.
  intros Hr Hj. unfold lease_and_spawn. destruct (allocate _ _ _ _ _) as [[??]|]; simpl; [done|].
  split; simpl; [by rewrite finish_cron_run_scheduler|]. intros i q Hq.
  by eapply finish_cron_run_other.
Qed.

Lemma claim_due_other a mesh project now spec due_at j :
  spec_job spec ≠ j → same_job j a (claim_due a mesh project now spec due_at).
Proof.
  intros Hne. unfold claim_due. set (id := generate_scheduled_run_id _ _ _ _).
  pose proof (claim_cron_run_spec (cron a) project (spec_job spec) Scheduled (Some due_at) id now) as Hs.
  destruct (claim_cron_run _ _ _ _ _ _ _) as [[out t]|] eqn:E; [|done].
  destruct out as [run|run|i].
  - destruct Hs as (-> & Hid & _ & _ & ->).
    match goal with |- same_job _ _ (lease_and_spawn ?b _ _ _ _).2 =>
      apply (same_job_trans j a b) end.
    + split; simpl; [done|]. intros i q Hq. destruct (decide (i = id)) as [->|?].
      * rewrite lookup_insert_eq, Hid. split; [|done]. intros [= <-]. done.
      * by rewrite lookup_insert_ne.
    + eapply lease_and_spawn_other; [simpl; apply lookup_insert_eq|done].
  - destruct Hs as [-> _]. done.
  - destruct Hs as [-> _]. split; [|done]. simpl. by rewrite lookup_insert_ne.
Qed.

Lemma tick_spec_other mesh project now a spec j :
  spec_job spec ≠ j → same_job j a (tick_spec mesh project now a spec).
Proof.
  intros Hne. unfold tick_spec. destruct (_ ≫= sched_next_due_at) as [due|].
  - destruct (now <? due); [done|]. destruct (next_schedule _ _ _); [|by apply claim_due_other].
    eapply same_job_trans; [by apply claim_due_other|by apply set_next_due_other].
  - destruct (next_due_at _ _ _); [by apply set_next_due_other|done].
Qed.

Lemma tick_fold_other mesh project now a l j :
  j ∉ spec_job <$> l → same_job j a (foldl (tick_spec mesh project now) a l).
Proof.
  revert a. induction l as [|spec l IH]; intros a Hj; simpl; [done|].
  rewrite fmap_cons, not_elem_of_cons in Hj. destruct Hj as [Hj1 Hj2].
  eapply same_job_trans; [by apply tick_spec_other, not_eq_sym|by apply IH].
Qed.

(** Starting a claimed run keeps every row's job and slot. *)
Lemma lease_and_spawn_rows a mesh spec run ts i :
  (λ r, (row_job r, row_scheduled_at r)) <$> runs (cron (lease_and_spawn a mesh spec run ts).2) !! i =
  (λ r, (row_job r, row_scheduled_at r)) <$> runs (cron a) !! i ∧
  (i ≠ run_id run →
   runs (cron (lease_and_spawn a mesh spec run ts).2) !! i = runs (cron a) !! i) ∧
  scheduler (cron (lease_and_spawn a mesh spec run ts).2) = scheduler (cron a).
Proof.
  unfold lease_and_spawn. destruct (allocate _ _ _ _ _) as [[??]|]; [done|]. simpl.
  rewrite finish_cron_run_scheduler. unfold finish_cron_run.
  destruct (cron_run (cron a) (run_id run)); simpl; [|done].
  destruct (decide (i = run_id run)) as [->|?]; [|by rewrite lookup_alter_ne].
  rewrite lookup_alter_eq. by destruct (runs (cron a) !! run_id run).
Qed.

(** The due slot of a job after the scheduler has tried to claim it. *)
Lemma claim_due_job a mesh project now spec due :
  let a' := claim_due a mesh project now spec due in
  let slot := Some (as_i64 due) in
  ((∃ id r, runs (cron a') !! id = Some r ∧ row_job r = spec_job spec ∧ row_scheduled_at r = slot) ∨
   ((∃ id r, runs (cron a) !! id = Some r ∧ row_job r = spec_job spec ∧ is_active (row_state r) = true) ∧
    row_skipped <$> scheduler (cron a') !! spec_job spec =
      Some (from_option row_skipped 0%Z (scheduler (cron a) !! spec_job spec) + 1)%Z) ∨
   is_Some (runs (cron a) !!
     generate_scheduled_run_id project (spec_service spec) (spec_cron_name spec) due)) ∧
  (∀ id r, runs (cron a') !! id = Some r → runs (cron a) !! id = Some r ∨ row_scheduled_at r = slot).
Proof.
  cbv zeta. unfold claim_due. set (id := generate_scheduled_run_id _ _ _ _).
  pose proof (claim_cron_run_spec (cron a) project (spec_job spec) Scheduled (Some due) id now) as Hs.
  destruct (claim_cron_run _ _ _ _ _ _ _) as [[out t]|] eqn:E; [|destruct Hs as [_ ?]; eauto].
  destruct out as [run|run|i].
  - destruct Hs as (-> & Hid & _ & _ & ->).
    match goal with |- context [lease_and_spawn ?b ?m ?s ?r ?n] =>
      pose proof (lease_and_spawn_rows b m s r n) as Hrows; set (a2 := (lease_and_spawn b m s r n).2) in * end.
    simpl in Hrows. split.
    + left. destruct (Hrows id) as (Hid2 & _ & _). rewrite lookup_insert_eq in Hid2.
      destruct (runs (cron a2) !! id) as [r|] eqn:Er; [|done]. injection Hid2 as Hj Hat. by exists id, r.
    + intros i r Hr. destruct (Hrows i) as (Hi & Hne & _). destruct (decide (i = id)) as [->|Hd].
      * right. rewrite Hr, lookup_insert_eq in Hi. by injection Hi as _ ->.
      * left. rewrite <-Hr, (Hne Hd). by rewrite lookup_insert_ne.
  - destruct Hs as (-> & at_ & i & r & [= <-] & Hr & Hj & Hat & _). split; [|eauto]. left. by exists i, r.
  - destruct Hs as (-> & r & Hr & Hj & Ha). split; [|eauto]. right; left. split.
    + by exists i, r.
    + simpl. rewrite lookup_insert_eq. by destruct (scheduler (cron a) !! _).
Qed.

(** A tick removes no run. *)
Lemma claim_due_keeps a mesh project now spec due i :
  is_Some (runs (cron a) !! i) → is_Some (runs (cron (claim_due a mesh project now spec due)) !! i).
Proof.
  intros Hi. unfold claim_due. set (id := generate_scheduled_run_id _ _ _ _).
  pose proof (claim_cron_run_spec (cron a) project (spec_job spec) Scheduled (Some due) id now) as Hs.
  destruct (claim_cron_run _ _ _ _ _ _ _) as [[out t]|] eqn:E; [|done].
  destruct out as [run|run|k]; [|destruct Hs as [-> _]; done..].
  destruct Hs as (-> & _ & _ & _ & ->).
  match goal with |- context [lease_and_spawn ?b ?m ?s ?r ?n] =>
    destruct (lease_and_spawn_rows b m s r n i) as (Hrows & _ & _) end.
  rewrite <-(fmap_is_Some (λ r, (row_job r, row_scheduled_at r))), Hrows, fmap_is_Some. simpl.
  rewrite lookup_insert_is_Some'. by right.
Qed.

Lemma tick_spec_keeps mesh project now a spec i :
  is_Some (runs (cron a) !! i) → is_Some (runs (cron (tick_spec mesh project now a spec)) !! i).
Proof.
  intros Hi. unfold tick_spec. destruct (_ ≫= sched_next_due_at) as [due|].
  - destruct (now <? due); [done|]. destruct (next_schedule _ _ _); by apply claim_due_keeps.
  - by destruct (next_due_at _ _ _).
Qed.

Lemma tick_fold_keeps mesh project now a l i :
  is_Some (runs (cron a) !! i) → is_Some (runs (cron (foldl (tick_spec mesh project now) a l)) !! i).
Proof. revert a. induction l as [|spec l IH]; intros a Hi; [done|]. by apply IH, tick_spec_keeps. Qed.

(** A tick does to a job what the body of its loop does, and nothing else. *)
Lemma tick_job a mesh project now spec :
  specs_keyed (cron a) → spec ∈ cron_specs (cron a) →
  ∃ b, same_job (spec_job spec) a b ∧
       same_job (spec_job spec) (tick_spec mesh project now b spec) (tick a mesh project now) ∧
       ∀ id, is_Some (runs (cron b) !! id) → is_Some (runs (cron (tick a mesh project now)) !! id).
Proof.
  intros Hk Hin. unfold tick.
  assert (NoDup (spec_job <$> cron_specs (cron a))) as Hnd.
  { unfold cron_specs. rewrite <-list_fmap_compose.
    assert ((spec_job ∘ row_spec) <$> btree_values (job_specs (cron a))
            = btree_keys (job_specs (cron a))) as ->; [|apply NoDup_btree_keys].
    unfold btree_values, btree_keys. rewrite <-list_fmap_compose. apply list_fmap_ext.
    intros i [k row] Hi. simpl. apply list_elem_of_lookup_2, elem_of_btree_list in Hi. by apply Hk. }
  apply list_elem_of_split in Hin as (l1 & l2 & Hl). rewrite Hl in Hnd |- *.
  rewrite fmap_app, fmap_cons in Hnd. apply NoDup_app in Hnd as (_ & Hd & Hn2).
  apply NoDup_cons in Hn2 as [Hn2 _]. rewrite foldl_app. simpl.
  exists (foldl (tick_spec mesh project now) a l1). split_and!.
  - apply tick_fold_other. intros Hin. apply (Hd _ Hin). apply list_elem_of_here.
  - by apply tick_fold_other.
  - intros id Hid. by apply tick_fold_keeps, tick_spec_keeps.
Qed.

(** The body of the loop, for the job it is about. *)
Lemma tick_spec_job mesh project now b spec :
  now ≤ i64_max →
  let job := spec_job spec in
  let next := next_due_at (spec_schedule spec) (spec_timezone spec) in
  let due_of b := cron_scheduler_state (cron b) job ≫= sched_next_due_at in
  let b' := tick_spec mesh project now b spec in
  match due_of b with
  | None => (∀ n, next now = Ok n → due_of b' = Some n) ∧
      (∀ id r, runs (cron b') !! id = Some r ↔ runs (cron b) !! id = Some r)
  | Some due =>
      if now <? due then b' = b
      else
        (∀ m n, next due = Ok m → next now = Ok n → ∃ n', due_of b' = Some n' ∧ now < n') ∧
        ((∃ id r, runs (cron b') !! id = Some r ∧ row_job r = job ∧
            row_scheduled_at r = Some (as_i64 due)) ∨
         ((∃ id r, runs (cron b) !! id = Some r ∧ row_job r = job ∧ is_active (row_state r) = true) ∧
          row_skipped <$> scheduler (cron b') !! job =
            Some (from_option row_skipped 0%Z (scheduler (cron b) !! job) + 1)%Z) ∨
         is_Some (runs (cron b) !!
           generate_scheduled_run_id project (spec_service spec) (spec_cron_name spec) due)) ∧
        (∀ id r, runs (cron b') !! id = Some r →
           runs (cron b) !! id = Some r ∨ row_scheduled_at r = Some (as_i64 due))
  end.
Proof.
  intros Hnow. cbv zeta. unfold tick_spec.
  destruct (cron_scheduler_state (cron b) (spec_job spec) ≫= sched_next_due_at) as [due|].
  - destruct (N.ltb_spec now due); [done|].
    destruct (claim_due_job b mesh project now spec due) as [Hslot Hnew]. cbv zeta in Hslot, Hnew.
    set (c := claim_due b mesh project now spec due) in *.
    assert (∀ m n, next_due_at (spec_schedule spec) (spec_timezone spec) due = Ok m →
      next_due_at (spec_schedule spec) (spec_timezone spec) now = Ok n →
      ∃ n', next_schedule spec due now = Some n' ∧ now < n') as Hns.
    { intros m n Hm Hn. unfold next_schedule. rewrite Hm, Hn.
      destruct (N.ltb_spec now m); [by exists m|]. exists n. split; [done|].
      by apply (next_due_at_later _ _ _ _ Hnow Hn). }
    destruct (next_schedule spec due now) as [n|].
    + split_and!; [| |done].
      * intros m n' Hm Hn. destruct (Hns _ _ Hm Hn) as (? & [= <-] & ?).
        exists n. by rewrite set_next_due_due.
      * destruct Hslot as [?|[[Ha Hsk]|?]]; [by left| |by right; right].
        right; left. split; [done|]. by apply set_next_due_skipped.
    + split_and!; [|done|done]. intros m n' Hm Hn. by destruct (Hns _ _ Hm Hn) as (? & ? & _).
  - destruct (next_due_at _ _ now) as [n|]; [|by split]. split; [|done].
    intros n' [= <-]. by rewrite set_next_due_due.
Qed.

End machine.

(** *** Container names *)

Definition is_ascii (s : string) : bool := forallb (λ c, N_of_ascii c <? 128) (bytes s).

(** A name of sixty two-byte characters. *)
Definition sixty_accents : string :=
  String.concat "" (replicate 60 (String (ascii_of_N 195) (String (ascii_of_N 169) ""))).

Lemma is_ascii_app a b : is_ascii (a +:+ b) = is_ascii a && is_ascii b.
Proof. unfold is_ascii, bytes. by rewrite list_ascii_app, forallb_app. Qed.

Lemma length_append a b : String.length (a +:+ b) = (String.length a + String.length b)%nat.
Proof.
  induction a as [|c a IH]; [done|].
  change (S (String.length (a +:+ b)) = S (String.length a + String.length b))%nat. by rewrite IH.
Qed.

Lemma length_substring n s : (n ≤ String.length s)%nat → String.length (String.substring 0 n s) = n.
Proof.
  revert n. induction s as [|c s IH]; intros [|n] Hn; simpl in *; try done; [lia|].
  f_equal. apply IH. lia.
Qed.

Lemma is_ascii_substring n s : is_ascii s = true → is_ascii (String.substring 0 n s) = true.
Proof.
  revert n. induction s as [|c s IH]; intros [|n] Hs; try done.
  unfold is_ascii in *. cbn in *. apply andb_true_iff in Hs as [-> Hs]. simpl. by apply IH.
Qed.

Lemma is_ascii_boundary n s : is_ascii s = true → (n ≤ String.length s)%nat → is_char_boundary n s = true.
Proof.
  unfold is_ascii, is_char_boundary. rewrite forallb_forall. intros Hs Hn.
  destruct (bytes s !! n) as [c|] eqn:E.
  - apply list_elem_of_lookup_2, list_elem_of_In in E. apply Hs, N.ltb_lt in E.
    by rewrite (proj2 (N.leb_gt _ _)).
  - apply lookup_ge_None in E. rewrite length_bytes in *. apply bool_decide_true. lia.
Qed.

Lemma sixty_accents_boundary rest : is_char_boundary 111 (sixty_accents +:+ rest) = false.
Proof.
  unfold is_char_boundary, bytes. rewrite list_ascii_app, lookup_app_l by (vm_compute; lia).
  by vm_compute.
Qed.

Lemma short_hash_length `{Sha256} s : String.length (short_hash s) = 8%nat.
Proof.
  unfold short_hash. pose proof (sha256_length s) as Hl.
  destruct (sha256 s) as [|b0 [|b1 [|b2 [|b3 l]]]]; done.
Qed.

Module CronExecProps.
Section props.
Context `{Sha256, Labels, Jiff}.


(** C38: A run without a task blocks its job.  Let a reachable agent have an active run no task works
    on, as after the panic of its task or a restart that could not list the containers.  Whatever
    the agent does, short of a restart that lists them, the run stays as it is recorded and without
    a task, and no run of its job is claimed, whether it is due or asked for. *)
Theorem orphaned_run_blocks_its_job a b i r project cause at_ id ts run t' :
  rtc any_step fresh_agent a → orphaned a i → runs (cron a) !! i = Some r →
  rtc (λ x y, ∃ l, l ≠ Restarts ∧ step l x y) a b →
  orphaned b i ∧ runs (cron b) !! i = Some r ∧
  claim_cron_run (cron b) project (row_job r) cause at_ id ts ≠ Ok (ClaimedRun run, t').
Proof.
  intros Hreach Ho Hr Hs. destruct (reachable_with _ Hreach) as [O Ha].
  assert (orphaned b i ∧ runs (cron b) !! i = Some r) as [Hob Hrb].
  { clear Hreach. revert O Ha Ho Hr. induction Hs as [|x y z (l & Hl & Hxy) _ IH]; intros O Ha Ho Hr; [done|].
    pose proof (step_with _ _ _ _ Ha Hxy) as Hy. apply (IH _ Hy).
    - rewrite (agent_with_orphaned _ _ i Hy). rewrite (agent_with_orphaned _ _ i Ha) in Ho.
      destruct l; simpl; [done|set_solver|done|]. apply elem_of_active_ids; [apply Ha|]. by apply (ak_orphans _ _ Ha).
    - by rewrite (orphan_frame l x y i Ho Hxy Hl). }
  split_and!; [done..|]. destruct Hob as [(r' & Hr' & Hact) _]. eapply active_job_not_claimed; [done|done|].
  rewrite Hrb in Hr'. by injection Hr' as ->.
Qed.

(** A tick moves every job on.  A job that is not due is left alone, a job that was
    never evaluated gets its first due time and no run; a due job has its slot claimed (or
    the skip counted while a run is active, or its identifier is already in use), gets no
    run for any other slot however many were missed, and its next due time lies in the
    future. *)
Theorem tick_advances_every_job a mesh project now spec :
  rtc any_step fresh_agent a → now ≤ i64_max → spec ∈ cron_specs (cron a) →
  let job := spec_job spec in
  let next := next_due_at (spec_schedule spec) (spec_timezone spec) in
  let due_of b := cron_scheduler_state (cron b) job ≫= sched_next_due_at in
  let a' := tick a mesh project now in
  match due_of a with
  | None => (∀ n, next now = Ok n → due_of a' = Some n) ∧
      (∀ id r, row_job r = job → runs (cron a') !! id = Some r ↔ runs (cron a) !! id = Some r)
  | Some due =>
      if now <? due then same_job job a a'
      else
        (∀ m n, next due = Ok m → next now = Ok n → ∃ n', due_of a' = Some n' ∧ now < n') ∧
        ((∃ id r, runs (cron a') !! id = Some r ∧ row_job r = job ∧
            row_scheduled_at r = Some (as_i64 due)) ∨
         ((∃ id r, runs (cron a) !! id = Some r ∧ row_job r = job ∧ is_active (row_state r) = true) ∧
          row_skipped <$> scheduler (cron a') !! job =
            Some (from_option row_skipped 0%Z (scheduler (cron a) !! job) + 1)%Z) ∨
         is_Some (runs (cron a') !!
           generate_scheduled_run_id project (spec_service spec) (spec_cron_name spec) due)) ∧
        (∀ id r, row_job r = job → runs (cron a') !! id = Some r →
           runs (cron a) !! id = Some r ∨ row_scheduled_at r = Some (as_i64 due))
  end.
Proof.
  intros Hr Hnow Hin. cbv zeta.
  destruct (tick_job a mesh project now spec (reachable_specs _ Hr) Hin) as (b & [Hs1 Hr1] & [Hs2 Hr2] & Hk).
  pose proof (tick_spec_job mesh project now b spec Hnow) as Hj. cbv zeta in Hj.
  unfold cron_scheduler_state in *. rewrite Hs2. rewrite Hs1 in Hj.
  destruct ((scheduler_state_from_row (spec_job spec) <$> scheduler (cron a) !! spec_job spec)
    ≫= sched_next_due_at)
    as [due|].
  - destruct (now <? due).
    + rewrite Hj in Hs2, Hr2. split; [by rewrite Hs2|]. intros id r Hrow. by rewrite Hr2, Hr1.
    + destruct Hj as (Hnext & Hslot & Hnew). split_and!; [done| |].
      * destruct Hslot as [(id & r & Hrow & Hrj & Hat)|[[(id & r & Hrow & Hrj & Ha) Hsk]|Hid]].
        -- left. exists id, r. split_and!; [|done..]. by apply Hr2.
        -- right; left. split; [|done]. exists id, r. split_and!; [|done..]. by apply Hr1.
        -- right; right. by apply Hk.
      * intros id r Hrj Hrow. apply Hr2 in Hrow; [|done].
        destruct (Hnew _ _ Hrow); [left; by apply Hr1|by right].
  - destruct Hj as [Hnext Hsame]. split; [done|]. intros id r Hrow. rewrite Hr2, Hsame by done. by apply Hr1.
Qed.

(** The names of cron containers respect the engine's limit: for names and identifiers
    in ASCII a name is always produced, of at most 120 bytes. *)
Theorem ascii_container_name_fits project service cron_name id :
  is_ascii project = true → is_ascii service = true → is_ascii cron_name = true → is_ascii id = true →
  ∃ name, cron_container_name project service cron_name id = Ok name ∧
          (String.length name ≤ MAX_CONTAINER_NAME_LEN)%nat.
Proof.
  intros Hp Hs Hc Hi. unfold cron_container_name. cbv zeta.
  set (readable := project +:+ _). assert (is_ascii readable = true) as Ha.
  { unfold readable. rewrite !is_ascii_app, Hp, Hs, Hc. simpl.
    unfold prefix_to. destruct (is_char_boundary 12 id); [by apply is_ascii_substring|done]. }
  destruct (Nat.leb_spec (String.length readable) MAX_CONTAINER_NAME_LEN) as [Hle|Hgt]; [by exists readable|].
  rewrite short_hash_length. assert (111 ≤ String.length readable)%nat as Hlen
    by (unfold MAX_CONTAINER_NAME_LEN in Hgt; lia).
  change (MAX_CONTAINER_NAME_LEN - (8 + 1))%nat with 111%nat.
  unfold prefix_to, expect. rewrite is_ascii_boundary by done. simpl.
  eexists. split; [done|]. rewrite !length_append, short_hash_length, length_substring by done. simpl.
  unfold MAX_CONTAINER_NAME_LEN. lia.
Qed.

(** A long project name in another script kills the task of every cron run: the name is
    cut in the middle of a character, which panics, so the run is never started and stays
    claimed. *)
Theorem multibyte_project_name_panics service cron_name id :
  cron_container_name sixty_accents service cron_name id = Err Panic.
Proof.
  unfold cron_container_name. cbv zeta. set (suffix := default id _).
  set (rest := "-" +:+ service +:+ _). rewrite short_hash_length.
  assert (String.length (sixty_accents +:+ rest) = 120 + String.length rest)%nat as Hl
    by (rewrite length_append; done).
  assert (String.length rest ≠ O) as Hr by done.
  destruct (Nat.leb_spec (String.length (sixty_accents +:+ rest)) MAX_CONTAINER_NAME_LEN) as [Hle|_];
    [unfold MAX_CONTAINER_NAME_LEN in Hle; lia|].
  unfold prefix_to. by rewrite sixty_accents_boundary.
Qed.
End props.

(** A cron library in which every schedule fires a minute later. *)
#[refine] Definition sample_jiff : Jiff :=
  {| TimeZone := (); CronExpression := (); timezone_get _ := Some (); schedule_from_str _ := Some ();
     timestamp_in_range z := (z <? 2 ^ 40)%Z;
     next_after _ _ z := if (z <? 2 ^ 40)%Z then Some (z + 60)%Z else None |}.
Proof.
  - intros _ _ z n. destruct (Z.ltb_spec z (2 ^ 40)); [|done]. intros [= <-]. lia.
  - intros _ _ z n. destruct (Z.ltb_spec z (2 ^ 40)); [|done]. intros [= <-]. lia.
Defined.

Definition sample_labels : Labels := {| deployment_label _ := None |}.
Definition sample_mesh : MeshConfig :=
  {| mesh_bridge_gateway := 1025; mesh_dns_bind_address := 1026; mesh_proxy_address := 1027;
     mesh_container_subnet := {| network := 1024; prefix := 28 |} |}.
Definition sample_spec : CronJobSpec :=
  {| spec_project := "demo"; spec_service := "web"; spec_cron_name := "sync"; spec_revision := 1;
     spec_canonical_hash := "h"; spec_owner_node_id := "a"; spec_owner_epoch := 1; spec_server := "a";
     spec_source_deployment_id := "d"; spec_source_replica_id := "r"; spec_image := "img";
     spec_schedule := "* * * * *"; spec_timezone := "UTC"; spec_timeout_seconds := 3600;
     spec_overlap := Forbid; spec_missed_runs := Skip; spec_command := ["run"];
     spec_env_file_path := "/env"; spec_mount_args := []; spec_resource_args := [];
     spec_bridge_network := "jiji"; spec_dns_address := "100.64.0.2" |}.

(** An agent whose job was due four minutes ago. *)
Definition late_agent : Agent :=
  set_next_due (with_cron fresh_agent (apply_cron_spec (cron fresh_agent) sample_spec).2)
    ("web", "sync") 0 60.

Lemma late_agent_reachable : rtc (@any_step constant_sha256 sample_labels) fresh_agent late_agent.
Proof.
  apply work_any. eapply rtc_l; [apply step_apply_spec|]. apply rtc_once. apply step_schedule.
Qed.

Lemma tick_advances_every_job_witness :
  let a' := @tick constant_sha256 sample_labels sample_jiff late_agent sample_mesh "demo" 300 in
  (∃ n', cron_scheduler_state (cron a') ("web", "sync") ≫= sched_next_due_at = Some n' ∧ 300 < n') ∧
  ∀ id r, row_job r = ("web", "sync") → runs (cron a') !! id = Some r →
    runs (cron late_agent) !! id = Some r ∨ row_scheduled_at r = Some 60%Z.
Proof.
  cbv zeta.
  pose proof (@tick_advances_every_job constant_sha256 sample_labels sample_jiff late_agent sample_mesh
    "demo" 300 sample_spec late_agent_reachable ltac:(done)
    ltac:(vm_compute; apply list_elem_of_here)) as Ht. cbv beta zeta in Ht.
  assert (cron_scheduler_state (cron late_agent) (spec_job sample_spec) ≫= sched_next_due_at = Some 60) as Hd
    by (vm_compute; reflexivity).
  rewrite Hd in Ht. change (300 <? 60) with false in Ht. destruct Ht as (Hn & _ & Hnew). split.
  - apply (Hn 120 360); vm_compute; reflexivity.
  - exact Hnew.
Defined.

(** The same agent after the tick has claimed the run and leased it an address. *)
Definition busy_agent : Agent := @tick constant_sha256 sample_labels sample_jiff late_agent sample_mesh "demo" 300.
Definition busy_run : string := @generate_scheduled_run_id constant_sha256 "demo" "web" "sync" 60.
Lemma busy_agent_reachable : rtc (@any_step constant_sha256 sample_labels) fresh_agent busy_agent.
Proof. etransitivity; [apply late_agent_reachable|apply work_any, tick_steps]. Qed.

(** The agent after a restart during which the engine did not answer. *)
Definition blind_agent : Agent :=
  (recover_claimed_runs {| cron := cron busy_agent; lease_tables := lease_tables busy_agent; drivers := ∅ |} None (λ _, None) 400).1.
Lemma orphaned_run_blocks_its_job_witness :
  ∃ r, runs (cron blind_agent) !! busy_run = Some r ∧ row_job r = ("web", "sync") ∧
    claim_cron_run (cron blind_agent) "demo" (row_job r) Manual None "next" 500
      ≠ Ok (ClaimedRun (new_run "demo" (row_job r) Manual None "next" 500), cron blind_agent).
Proof.
  assert (rtc (@any_step constant_sha256 sample_labels) fresh_agent blind_agent) as Hr.
  { eapply rtc_r; [apply busy_agent_reachable|]. exists RestartsBlind. apply (step_restart busy_agent None). }
  destruct (runs (cron blind_agent) !! busy_run) as [r|] eqn:Hrow; [|exfalso; vm_compute in Hrow; discriminate Hrow].
  assert (Some (row_job r, is_active (row_state r)) = Some (("web", "sync"), true)) as Hj.
  { transitivity ((λ r, (row_job r, is_active (row_state r))) <$> runs (cron blind_agent) !! busy_run); [by rewrite Hrow|by vm_compute]. }
  injection Hj as Hj Hact. exists r. split_and!; [done..|].
  apply (@orphaned_run_blocks_its_job constant_sha256 sample_labels blind_agent blind_agent busy_run r "demo" Manual None "next" 500);
    [exact Hr| |exact Hrow|apply rtc_refl].
  split; [exists r; exact (conj Hrow Hact)|vm_compute; reflexivity].
Defined.

Lemma ascii_container_name_fits_witness :
  ∃ name, @cron_container_name constant_sha256 "demo" "web" "sync" "abcdef0123456789" = Ok name ∧
          (String.length name ≤ MAX_CONTAINER_NAME_LEN)%nat.
Proof. apply (@ascii_container_name_fits constant_sha256); reflexivity. Defined.

End CronExecProps.
