(* ===== verification/Cascade.v ===== *)
(** Placement and deployment order in the CLI: [jiji-cli/src/placement.rs] (which replicas a
    service has and on which servers), [jiji-cli/src/cascade.rs] (the dependents that must
    be redeployed with their upstream, and the two waves) and what the dispatch of the waves in
    [jiji-cli/src/commands/deploy.rs] computes from the outcomes.  The dispatch itself, over the
    sessions of a command, is in [Services]. *)

From S2P Require Import Prelude Text Cidr Naming Schema Validation Planner.
Open Scope N_scope.

(** ** [placement.rs] *)

Record ReplicaAssignment := {
  ra_replica_id : string;
  ra_ordinal : N;
  ra_server : string;
}.

(** [Vec::dedup]: drop repeated neighbours. *)
Fixpoint dedup (l : list string) : list string :=
  match l with
  | [] => []
  | x :: l => match dedup l with
              | [] => [x]
              | y :: l' => if bool_decide (x = y) then y :: l' else x :: y :: l'
              end
  end.

Definition u32_add (a b : N) : N := (a + b) mod 2 ^ 32.

(** The selected endpoints and the replica of each identity. *)
Abbreviation Selection := (list ServiceEndpointPlan * gmap string string)%type.
(** The selected endpoints of each service. *)
Abbreviation EndpointsByService := (gmap string (list ServiceEndpointPlan)).

Inductive EndpointOutcome :=
| Deployed (deployment_id : string)
| DeployFailed (error : string)
| SkippedAfterSiblingFailure.

(** The outcomes of one service, by identity. *)
Abbreviation ServiceOutcomes := (string * list (string * EndpointOutcome))%type.

Section placement.
Context `{Sha256}.

Definition replica_id_for (project service server : string) (local_index : N) : string :=
  let nul := String Ascii.zero "" in
  let digest := sha256 (project +:+ nul +:+ service +:+ nul +:+ server +:+ nul +:+ pretty local_index) in
  service +:+ "-" +:+ String.concat "" (hex_byte <$> take 6 digest).

(** The inner loop of [assignments_for]: one more assignment, one more ordinal. *)
Definition assign_replica (project service server : string)
    (acc : N * list ReplicaAssignment) (local_index : N) : N * list ReplicaAssignment :=
  let '(ordinal, assignments) := acc in
  (u32_add ordinal 1,
   assignments ++ [{| ra_replica_id := replica_id_for project service server local_index;
                      ra_ordinal := ordinal; ra_server := server |}]).

Definition local_indices (scale : N) : list N := N.of_nat <$> seq 0 (N.to_nat scale).

Definition assignments_for (project service : string) (servers : list string) (scale : N) :
    list ReplicaAssignment :=
  (foldl (λ acc server,
            foldl (assign_replica project service server) acc (local_indices scale))
     (0, []) (dedup (sort_by leb servers))).2.

(** ** [cascade.rs] *)

Definition with_identity (e : ServiceEndpointPlan) (identity : string) : ServiceEndpointPlan :=
  {| ep_identity := identity; ep_project := ep_project e; ep_service := ep_service e;
     ep_server := ep_server e |}.

Definition replica_identity (project service replica_id : string) : string :=
  project +:+ ":" +:+ service +:+ ":" +:+ replica_id.

Definition expand_endpoint (config : Config) (acc : Selection) (endpoint : ServiceEndpointPlan) :
    result (fault ()) Selection :=
  let? service := expect (hm_get (config_services config) (ep_service endpoint)) in
  Ok (foldl (λ acc local_index,
        let replica_id := replica_id_for (config_project config) (ep_service endpoint)
                            (ep_server endpoint) local_index in
        let identity := replica_identity (config_project config) (ep_service endpoint) replica_id in
        (acc.1 ++ [with_identity endpoint identity], <[identity := replica_id]> acc.2))
      acc (local_indices (service_scale service))).

Definition expand_replicas (config : Config) (matched : list ServiceEndpointPlan) :
    result (fault ()) Selection :=
  try_fold (expand_endpoint config) ([], ∅) matched.

Definition upstream_servers (selected : list ServiceEndpointPlan) : gmap string (gset string) :=
  foldl (λ m e, <[ep_service e := {[ep_server e]} ∪ default ∅ (m !! ep_service e)]> m) ∅ selected.

(** One server of a dependent. *)
Definition cascade_server (config : Config) (p : NetworkPlan) (dependent_name : string)
    (dependent : Service) (acc : Selection) (server_name : string) : result (fault ()) Selection :=
  if negb (bool_decide (server_name ∈ service_servers dependent)) then Ok acc
  else
    let replica_id := replica_id_for (config_project config) dependent_name server_name 0 in
    let? e := expect (snd <$> list_find
        (λ e, ep_service e = dependent_name ∧ ep_server e = server_name)
        (btree_values (np_endpoints p))) in
    let identity := replica_identity (config_project config) dependent_name replica_id in
    Ok (acc.1 ++ [with_identity e identity], <[identity := replica_id]> acc.2).

Definition cascade_service (config : Config) (p : NetworkPlan) (selected : list ServiceEndpointPlan)
    (acc : Selection) (entry : string * Service) : result (fault ()) Selection :=
  let '(dependent_name, dependent) := entry in
  match network_mode_dependency dependent with
  | None => Ok acc
  | Some upstream_name =>
      if bool_decide (dependent_name ∈ ep_service <$> selected) then Ok acc
      else
        match upstream_servers selected !! upstream_name with
        | None => Ok acc
        | Some servers =>
            try_fold (cascade_server config p dependent_name dependent) acc (btree_elems servers)
        end
  end.

Definition identity_leb (a b : ServiceEndpointPlan) : bool := leb (ep_identity a) (ep_identity b).

Definition add_cascaded_dependents (config : Config) (p : NetworkPlan) (sel : Selection) :
    result (fault ()) Selection :=
  let? sel' := try_fold (cascade_service config p sel.1) sel (config_services config) in
  Ok (sort_by identity_leb sel'.1, sel'.2).

(** *** Waves *)

(** [config.services[name]] panics when there is no such service. *)
Definition dependency_of (config : Config) (name : string) : result (fault ()) (option string) :=
  let? service := expect (hm_get (config_services config) name) in
  Ok (network_mode_dependency service).

Definition dependents_step (config : Config) (eps : EndpointsByService)
    (m : gmap string (list string)) (name : string) : result (fault ()) (gmap string (list string)) :=
  let? dependency := dependency_of config name in
  Ok (match dependency with
      | Some upstream =>
          if bool_decide (is_Some (eps !! upstream)) then
            <[upstream := default [] (m !! upstream) ++ [name]]> m
          else m
      | None => m
      end).

(** Whether a service belongs to the second wave. *)
Definition in_wave_two (config : Config) (dependents_of : gmap string (list string)) (name : string) : bool :=
  match dependency_of config name with
  | Ok (Some upstream) => bool_decide (is_Some (dependents_of !! upstream))
  | _ => false
  end.

Definition compute_service_waves (config : Config) (eps : EndpointsByService) :
    result (fault ()) (gmap string (list string) * EndpointsByService * EndpointsByService) :=
  let? dependents_of := try_fold (dependents_step config eps) ∅ (btree_keys eps) in
  Ok (dependents_of,
      filter (λ e : string * list ServiceEndpointPlan,
                in_wave_two config dependents_of e.1 = false) eps,
      filter (λ e : string * list ServiceEndpointPlan,
                in_wave_two config dependents_of e.1 = true) eps).

(** *** Deploying *)

Definition is_deployed (o : EndpointOutcome) : bool :=
  match o with Deployed _ => true | _ => false end.

(** ** The dispatch of [commands/deploy.rs] *)

(** Whether a service of the first wave failed, and which did. *)
Definition service_failed (outcomes : list (string * EndpointOutcome)) : bool :=
  negb (forallb (λ o : string * EndpointOutcome, is_deployed o.2) outcomes).

Definition upstream_failed (results : list ServiceOutcomes) : gmap string bool :=
  foldl (λ m r, <[r.1 := service_failed r.2]> m) ∅ results.

(** The grouping of the selection by service. *)
Definition group_by_service (selected : list ServiceEndpointPlan) : EndpointsByService :=
  foldl (λ m e, <[ep_service e := default [] (m !! ep_service e) ++ [e]]> m) ∅ selected.
End placement.

(** ** Lemmas *)

(** *** Placement *)

Lemma elem_of_dedup x l : x ∈ dedup l ↔ x ∈ l.
Proof.
  induction l as [|y l IH]; [done|]. cbn [dedup]. rewrite elem_of_cons, <-IH.
  destruct (dedup l) as [|z k]; [by rewrite elem_of_cons|].
  case_bool_decide as Hyz; [subst z|]; rewrite !elem_of_cons; tauto.
Qed.

Lemma dedup_sorted l :
  StronglySorted (λ a b, leb a b = true) l → StronglySorted (λ a b, ltb a b = true) (dedup l).
Proof.
  induction 1 as [|x l Hs IH Hx]; [constructor|]. cbn [dedup].
  destruct (dedup l) as [|y k] eqn:Ed; [by repeat constructor|].
  case_bool_decide as Hxy; [done|]. constructor; [done|].
  assert (∀ z, z ∈ y :: k → leb x z = true) as Hle.
  { intros z Hz. rewrite <-Ed, elem_of_dedup in Hz. rewrite Forall_forall in Hx. by apply Hx. }
  assert (ltb x y = true) as Hlt.
  { destruct (proj1 (leb_lt_or_eq x y) (Hle _ (list_elem_of_here _ _))); done. }
  constructor; [done|]. inversion IH as [|? ? _ Hy]; subst. eapply Forall_impl; [exact Hy|].
  intros z Hz. by apply (ltb_trans x y z).
Qed.

(** The sorted servers without repetition, whatever list they come from. *)
Lemma dedup_sort_unique l :
  dedup (sort_by leb l) = btree_elems (list_to_set l : gset string).
Proof.
  assert (StronglySorted (λ a b, leb a b = true) (sort_by leb l)) as Hs.
  { apply sort_by_sorted; [apply leb_total|apply leb_trans]. }
  apply dedup_sorted in Hs.
  assert (NoDup (dedup (sort_by leb l))) as Hnd.
  { clear -Hs. induction Hs as [|x k Hk IH Hx]; constructor; [|done].
    rewrite Forall_forall in Hx. intros Hin. specialize (Hx _ Hin). by rewrite ltb_irrefl in Hx. }
  eapply (StronglySorted_unique_strong (λ a b, leb a b = true)).
  - intros x y _ _. apply leb_antisym.
  - eapply StronglySorted_weaken; [|exact Hs]. intros x y Hxy. apply leb_lt_or_eq. by left.
  - apply sort_by_sorted; [apply leb_total|apply leb_trans].
  - apply NoDup_Permutation; [done| |].
    + unfold btree_elems. rewrite sort_by_Permutation. apply NoDup_elements.
    + intros x. rewrite elem_of_dedup, elem_of_sort_by, elem_of_btree_elems, elem_of_list_to_set. done.
Qed.

Section placement_lemmas.
Context `{Sha256}.

(** The replicas a service has, server by server. *)
Definition replica_slots (servers : list string) (scale : N) : list (string * N) :=
  server ← btree_elems (list_to_set servers : gset string); i ← local_indices scale; [(server, i)].

Definition assignment_of (project service : string) (ordinal : N) (slot : string * N) : ReplicaAssignment :=
  {| ra_replica_id := replica_id_for project service slot.1 slot.2;
     ra_ordinal := ordinal mod 2 ^ 32; ra_server := slot.1 |}.

Lemma assign_slots project service n l slots :
  foldl (λ acc (slot : string * N), assign_replica project service slot.1 acc slot.2)
    (n mod 2 ^ 32, l) slots =
  ((n + N.of_nat (length slots)) mod 2 ^ 32,
   l ++ imap (λ k slot, assignment_of project service (n + N.of_nat k) slot) slots).
Proof.
  revert n l. induction slots as [|[srv i] slots IH]; intros n l; cbn [foldl].
  - rewrite app_nil_r. f_equal. f_equal. simpl. lia.
  - unfold assign_replica at 2. unfold u32_add. rewrite N.Div0.add_mod_idemp_l.
    rewrite (IH (n + 1)). f_equal; [f_equal; simpl length; lia|].
    rewrite <-app_assoc. f_equal. simpl. f_equal.
    + unfold assignment_of. simpl. by rewrite N.add_0_r.
    + apply imap_ext. intros k slot _. simpl. f_equal. lia.
Qed.

Lemma assignments_for_slots project service servers scale :
  assignments_for project service servers scale =
  imap (λ k slot, assignment_of project service (N.of_nat k) slot) (replica_slots servers scale).
Proof.
  unfold assignments_for, replica_slots. rewrite dedup_sort_unique.
  generalize (btree_elems (list_to_set servers : gset string)). intros l.
  rewrite (foldl_ext' _ (λ acc server, foldl (λ acc (slot : string * N),
      assign_replica project service slot.1 acc slot.2) acc (pair server <$> local_indices scale))).
  - rewrite (foldl_bind (λ acc (slot : string * N), assign_replica project service slot.1 acc slot.2)
      (λ server, pair server <$> local_indices scale)).
    assert ((l ≫= λ server, pair server <$> local_indices scale) =
            (server ← l; i ← local_indices scale; [(server, i)])) as ->.
    { apply list_bind_ext; [|done]. intros server. induction (local_indices scale); [done|].
      simpl. by f_equal. }
    change (0, []) with (0 mod 2 ^ 32, @nil ReplicaAssignment). rewrite assign_slots. simpl.
    apply imap_ext. intros k slot _. f_equal.
  - intros acc server. by rewrite foldl_fmap.
Qed.
End placement_lemmas.

(** *** Waves *)

Section wave_lemmas.
Context (config : Config) (eps : EndpointsByService).

Definition depends_on (name upstream : string) : Prop :=
  dependency_of config name = Ok (Some upstream).

(** The services some selected service depends on, among the selected ones. *)
Lemma dependents_fold names m m' :
  try_fold (dependents_step config eps) m names = Ok m' →
  ∀ u, is_Some (m' !! u) ↔
    is_Some (m !! u) ∨ (is_Some (eps !! u) ∧ ∃ n, n ∈ names ∧ depends_on n u).
Proof.
  revert m. induction names as [|n names IH]; intros m; cbn [try_fold].
  - intros [= <-] u. split; [by left|]. intros [?|[_ (n & ?%elem_of_nil & _)]]; done.
  - unfold dependents_step at 1. destruct (dependency_of config n) as [dep|] eqn:Ed; [|done].
    intros Hf u. rewrite (IH _ Hf). clear IH Hf.
    assert ((∃ k, k ∈ n :: names ∧ depends_on k u) ↔
      dep = Some u ∨ ∃ k, k ∈ names ∧ depends_on k u) as Hex.
    { unfold depends_on. split.
      - intros (k & [->|Hk]%elem_of_cons & Hd); [left; congruence|right; eauto].
      - intros [->|(k & Hk & Hd)]; [exists n|exists k]; (split; [|done]);
          [apply list_elem_of_here|by apply list_elem_of_further]. }
    rewrite Hex. destruct dep as [w|]; [|split; [|intros [?|[? [?|?]]]; try done]; tauto].
    case_bool_decide as Hw.
    + rewrite lookup_insert_is_Some'. split; [|naive_solver].
      intros [[->|?]|[? ?]]; [|by left|by right; split; [|right]]. right. split; [done|by left].
    + split; [tauto|]. intros [?|[? [[= <-]|?]]]; [by left|done|by right].
Qed.

Lemma compute_waves_spec dependents_of one two :
  compute_service_waves config eps = Ok (dependents_of, one, two) →
  ∀ n l, eps !! n = Some l →
    (two !! n = Some l ↔ ∃ u, depends_on n u ∧ is_Some (eps !! u)) ∧
    (one !! n = Some l ↔ ¬ ∃ u, depends_on n u ∧ is_Some (eps !! u)).
Proof.
  unfold compute_service_waves. destruct (try_fold _ _ _) as [d|] eqn:Ef; [|done]. simpl.
  intros [= <- <- <-] n l Hn. pose proof (dependents_fold _ _ _ Ef) as Hd.
  assert (in_wave_two config d n = true ↔ ∃ u, depends_on n u ∧ is_Some (eps !! u)) as Hin.
  { unfold in_wave_two, depends_on. destruct (dependency_of config n) as [[u|]|] eqn:Edep.
    - rewrite bool_decide_eq_true, Hd, lookup_empty. split.
      + intros [[??]|[? _]]; [done|]. eauto.
      + intros (u' & [= <-] & Hu). right. split; [done|]. exists n. split; [|done].
        apply elem_of_btree_keys. eauto.
    - split; [done|]. by intros (u & ? & _).
    - split; [done|]. by intros (u & ? & _). }
  split; rewrite map_lookup_filter_Some; simpl; rewrite ?Hn; rewrite <-Hin;
    destruct (in_wave_two config d n); naive_solver.
Qed.

Lemma waves_partition dependents_of one two :
  compute_service_waves config eps = Ok (dependents_of, one, two) →
  btree_keys one ++ btree_keys two ≡ₚ btree_keys eps.
Proof.
  unfold compute_service_waves. destruct (try_fold _ _ _) as [d|]; [|done]. simpl.
  intros [= <- <- <-]. apply NoDup_Permutation.
  - apply NoDup_app. split_and!; [apply NoDup_btree_keys| |apply NoDup_btree_keys].
    intros n [l1 H1]%elem_of_btree_keys [l2 H2]%elem_of_btree_keys.
    apply map_lookup_filter_Some in H1 as [_ H1], H2 as [_ H2]. simpl in *. congruence.
  - apply NoDup_btree_keys.
  - intros n. rewrite elem_of_app, !elem_of_btree_keys. unfold is_Some.
    setoid_rewrite map_lookup_filter_Some. simpl.
    destruct (in_wave_two config d n); naive_solver.
Qed.
End wave_lemmas.

(** *** Outcomes *)

Lemma upstream_failed_lookup results n outs :
  NoDup results.*1 → (n, outs) ∈ results → upstream_failed results !! n = Some (service_failed outs).
Proof.
  unfold upstream_failed.
  assert (∀ m : gmap string bool, NoDup results.*1 → (n, outs) ∈ results ∨
    (n ∉ results.*1 ∧ m !! n = Some (service_failed outs)) →
    foldl (λ (m : gmap string bool) r, <[r.1 := service_failed r.2]> m) m results !! n
      = Some (service_failed outs)) as Hgen.
  { induction results as [|[k o] results IH]; intros m Hnd Hin; cbn [foldl].
    - by destruct Hin as [?%elem_of_nil|[_ ?]].
    - rewrite fmap_cons in Hnd. apply NoDup_cons in Hnd as [Hk Hnd]. apply IH; [done|]. simpl in *.
      destruct Hin as [[[= <- <-]|Hin]%elem_of_cons|[Hn Hm]]; [|by left|].
      + right. split; [done|]. by rewrite lookup_insert_eq.
      + right. apply not_elem_of_cons in Hn as [Hne Hn]. split; [done|].
        by rewrite lookup_insert_ne by congruence. }
  intros Hnd Hin. apply Hgen; [done|by left].
Qed.

Lemma waves_submap config eps deps w1 w2 :
  compute_service_waves config eps = Ok (deps, w1, w2) →
  (∀ n l, w1 !! n = Some l → eps !! n = Some l) ∧ (∀ n l, w2 !! n = Some l → eps !! n = Some l).
Proof.
  unfold compute_service_waves. destruct (try_fold _ _ _); [|done]. intros [= <- <- <-].
  split; intros n l Hn; by apply map_lookup_filter_Some in Hn as [? _].
Qed.

(** *** Cascading *)

Lemma upstream_servers_spec selected u s :
  s ∈ default ∅ (upstream_servers selected !! u) ↔
  ∃ x, x ∈ selected ∧ ep_service x = u ∧ ep_server x = s.
Proof.
  unfold upstream_servers.
  assert (∀ m : gmap string (gset string),
    s ∈ default ∅ (foldl (λ (m : gmap string (gset string)) e,
        <[ep_service e := {[ep_server e]} ∪ default ∅ (m !! ep_service e)]> m) m selected !! u) ↔
    s ∈ default ∅ (m !! u) ∨ ∃ x, x ∈ selected ∧ ep_service x = u ∧ ep_server x = s) as Hgen.
  { induction selected as [|e selected IH]; intros m; cbn [foldl].
    - split; [by left|]. intros [?|(x & ?%elem_of_nil & _)]; done.
    - rewrite IH. setoid_rewrite elem_of_cons. destruct (decide (ep_service e = u)) as [<-|Hne].
      + rewrite lookup_insert_eq. simpl. rewrite elem_of_union, elem_of_singleton. naive_solver.
      + rewrite lookup_insert_ne by done. naive_solver. }
  rewrite Hgen, lookup_empty. simpl. set_solver.
Qed.

Section cascade_lemmas.
Context `{Sha256} (config : Config) (p : NetworkPlan).

(** What a part of the cascade added to a selection: endpoints with the property [P], each
    with its replica, and nothing was lost. *)
Record added (P : ServiceEndpointPlan → Prop) (acc acc' : Selection) (new : list ServiceEndpointPlan) : Prop := {
  ad_app : acc'.1 = acc.1 ++ new;
  ad_prop : ∀ e, e ∈ new → P e ∧ is_Some (acc'.2 !! ep_identity e);
  ad_ids : ∀ i, is_Some (acc.2 !! i) → is_Some (acc'.2 !! i);
}.

Lemma added_refl P acc : added P acc acc [].
Proof. split; [by rewrite app_nil_r|by intros e ?%elem_of_nil|done]. Qed.

Lemma added_trans P a b c n1 n2 : added P a b n1 → added P b c n2 → added P a c (n1 ++ n2).
Proof.
  intros [E1 P1 I1] [E2 P2 I2]. split; [by rewrite E2, E1, app_assoc| |by auto].
  intros e [He|He]%elem_of_app; [|by apply P2]. destruct (P1 _ He). split; [done|by apply I2].
Qed.

Lemma added_weaken (P Q : ServiceEndpointPlan → Prop) a b n :
  (∀ e, P e → Q e) → added P a b n → added Q a b n.
Proof. intros HPQ [E HP I]. split; [done| |done]. intros e He. destruct (HP e He). split; auto. Qed.

Lemma cascade_servers_added d service servers acc acc' :
  try_fold (cascade_server config p d service) acc servers = Ok acc' →
  ∃ new, added (λ e, ep_service e = d ∧ ep_server e ∈ servers ∧ ep_server e ∈ service_servers service)
           acc acc' new ∧
    ∀ s, s ∈ servers → s ∈ service_servers service → ∃ e, e ∈ new ∧ ep_server e = s.
Proof.
  revert acc. induction servers as [|s servers IH]; intros acc; cbn [try_fold].
  { intros [= <-]. exists []. split; [apply added_refl|]. by intros s ?%elem_of_nil. }
  unfold cascade_server at 1. case_bool_decide as Hs; cbn [negb].
  2:{ intros (new & Ha & Hc)%IH. exists new. split.
      - eapply added_weaken; [|exact Ha]. intros e (? & ? & ?). split_and!; [done|by apply list_elem_of_further|done].
      - intros s' [->|?]%elem_of_cons ?; [done|by apply Hc]. }
  destruct (list_find _ _) as [[i e]|] eqn:Ef; [|done]. cbn [fmap option_fmap option_map snd expect ok_or].
  apply list_find_Some in Ef as (_ & [Hd Hsrv] & _). intros (new & Ha & Hc)%IH.
  set (identity := replica_identity _ _ _) in *. exists (with_identity e identity :: new). split.
  - change (with_identity e identity :: new) with ([with_identity e identity] ++ new).
    eapply added_trans; [|eapply added_weaken; [|exact Ha]].
    + split; [done| |].
      * intros x ->%list_elem_of_singleton. split; [|simpl; by rewrite lookup_insert_eq].
        split_and!; [done|simpl; rewrite Hsrv; apply list_elem_of_here|by simpl; rewrite Hsrv].
      * intros j Hj. simpl. apply lookup_insert_is_Some'. by right.
    + intros x (? & ? & ?). split_and!; [done|by apply list_elem_of_further|done].
  - intros s' [->|Hs']%elem_of_cons Hin.
    + exists (with_identity e identity). split; [apply list_elem_of_here|done].
    + destruct (Hc _ Hs' Hin) as (x & ? & ?). exists x. split; [by apply list_elem_of_further|done].
Qed.

(** The endpoints a cascade may add. *)
Definition cascaded (selected : list ServiceEndpointPlan) (services : hashmap Service)
    (e : ServiceEndpointPlan) : Prop :=
  ∃ service u, (ep_service e, service) ∈ services ∧ network_mode_dependency service = Some u ∧
    ep_service e ∉ ep_service <$> selected ∧ ep_server e ∈ service_servers service ∧
    ∃ x, x ∈ selected ∧ ep_service x = u ∧ ep_server x = ep_server e.

Lemma cascade_fold selected services acc acc' :
  try_fold (cascade_service config p selected) acc services = Ok acc' →
  ∃ new, added (cascaded selected services) acc acc' new ∧
    ∀ d service u x, (d, service) ∈ services → network_mode_dependency service = Some u →
      d ∉ ep_service <$> selected → x ∈ selected → ep_service x = u →
      ep_server x ∈ service_servers service →
      ∃ e, e ∈ new ∧ ep_service e = d ∧ ep_server e = ep_server x.
Proof.
  revert acc. induction services as [|[d service] services IH]; intros acc; cbn [try_fold].
  { intros [= <-]. exists []. split; [apply added_refl|]. by intros ? ? ? ? ?%elem_of_nil. }
  destruct (cascade_service config p selected acc (d, service)) as [mid|] eqn:Em; [|done].
  intros (new & Ha & Hc)%IH.
  assert (∃ n1, added (cascaded selected ((d, service) :: services)) acc mid n1 ∧
    ∀ u x, network_mode_dependency service = Some u → d ∉ ep_service <$> selected →
      x ∈ selected → ep_service x = u → ep_server x ∈ service_servers service →
      ∃ e, e ∈ n1 ∧ ep_service e = d ∧ ep_server e = ep_server x) as (n1 & Ha1 & Hc1).
  { clear Ha Hc IH. unfold cascade_service in Em.
    destruct (network_mode_dependency service) as [u|] eqn:Eu.
    2:{ injection Em as <-. exists []. split; [apply added_refl|done]. }
    case_bool_decide as Hsel.
    { injection Em as <-. exists []. split; [apply added_refl|]. by intros ?? ? Hn. }
    pose proof (upstream_servers_spec selected u) as Hup.
    destruct (upstream_servers selected !! u) as [servers|].
    2:{ injection Em as <-. exists []. split; [apply added_refl|].
        intros u' x [= <-] _ Hx Hxs _. simpl in Hup.
        destruct (not_elem_of_empty (C := gset string) (ep_server x)).
        apply Hup. by exists x. }
    simpl in Hup. apply cascade_servers_added in Em as (n1 & Ha1 & Hc1). exists n1. split.
    - eapply added_weaken; [|exact Ha1]. intros e (<- & Hin & Hsrv).
      apply elem_of_btree_elems, Hup in Hin. exists service, u.
      split_and!; [apply list_elem_of_here|done..].
    - intros u' x [= <-] _ Hx Hxs Hsrv. destruct (Hc1 (ep_server x)) as (e & He & Hes); [|done|].
      + apply elem_of_btree_elems, Hup. by exists x.
      + exists e. split_and!; [done| |done]. by destruct (ad_prop _ _ _ _ Ha1 _ He) as [[??] _]. }
  exists (n1 ++ new). split.
  - eapply added_trans; [exact Ha1|]. eapply added_weaken; [|exact Ha].
    intros e (s & u & ? & ?). exists s, u. split; [by apply list_elem_of_further|done].
  - intros d' s u x [[= -> ->]|Hin]%elem_of_cons Hu Hd Hx Hxs Hsrv.
    + destruct (Hc1 u x Hu Hd Hx Hxs Hsrv) as (e & ? & ? & ?). exists e.
      split_and!; [apply elem_of_app; by left|done..].
    + destruct (Hc d' s u x Hin Hu Hd Hx Hxs Hsrv) as (e & ? & ? & ?). exists e.
      split_and!; [apply elem_of_app; by right|done..].
Qed.
End cascade_lemmas.

Module CascadeProps.
Section props.
Context `{Sha256}.

(** Placement is canonical.  The replicas of a service are one per distinct server and
    local index, in server order and numbered from zero; neither the order nor repetitions
    in the server list change anything, and a replica's identifier depends on its own
    server and index only. *)
Theorem placement_is_canonical project service servers servers' scale :
  (∀ s, s ∈ servers ↔ s ∈ servers') →
  let assignments := assignments_for project service servers scale in
  assignments = assignments_for project service servers' scale ∧
  (λ a, (ra_server a, ra_replica_id a)) <$> assignments =
    (server ← btree_elems (list_to_set servers : gset string); i ← local_indices scale;
     [(server, replica_id_for project service server i)]) ∧
  (N.of_nat (length assignments) ≤ 2 ^ 32 →
   ra_ordinal <$> assignments = N.of_nat <$> seq 0 (length assignments)).
Proof.
  intros Hs. cbv zeta. rewrite !assignments_for_slots. split_and!.
  - unfold replica_slots. by replace (list_to_set servers' : gset string)
      with (list_to_set servers : gset string) by set_solver.
  - trans ((λ slot : string * N, (slot.1, replica_id_for project service slot.1 slot.2)) <$>
           replica_slots servers scale).
    { rewrite fmap_imap. apply list_eq. intros i. by rewrite list_lookup_imap, list_lookup_fmap. }
    unfold replica_slots. generalize (btree_elems (list_to_set servers : gset string)). intros l.
    induction l as [|s l IH]; [done|]. rewrite !bind_cons, fmap_app, IH. f_equal.
    clear. induction (local_indices scale) as [|i k IH]; [done|]. rewrite !bind_cons. cbn. by f_equal.
  - rewrite length_imap, fmap_imap. intros Hlen. apply list_eq. intros i.
    rewrite list_lookup_imap, list_lookup_fmap.
    destruct (replica_slots servers scale !! i) as [slot|] eqn:E; simpl.
    + apply lookup_lt_Some in E. rewrite lookup_seq_lt by done. simpl. f_equal.
      apply N.mod_small. lia.
    + apply lookup_ge_None in E. by rewrite lookup_seq_ge.
Qed.

(** A deployment never leaves a dependent behind.  The cascade keeps what was selected
    and adds exactly the services that share the network of a selected one, on the servers
    where both are configured, each with its replica; a dependent that was selected itself
    is not added again. *)
Theorem cascade_is_sound_and_complete config p sel sel' :
  add_cascaded_dependents config p sel = Ok sel' →
  (∀ e, e ∈ sel.1 → e ∈ sel'.1) ∧
  (∀ e, e ∈ sel'.1 → e ∈ sel.1 ∨
     (cascaded sel.1 (config_services config) e ∧ is_Some (sel'.2 !! ep_identity e))) ∧
  (∀ d service u x, (d, service) ∈ config_services config →
     network_mode_dependency service = Some u → d ∉ ep_service <$> sel.1 → x ∈ sel.1 →
     ep_service x = u → ep_server x ∈ service_servers service →
     ∃ e, e ∈ sel'.1 ∧ ep_service e = d ∧ ep_server e = ep_server x).
Proof.
  unfold add_cascaded_dependents. destruct (try_fold _ _ _) as [mid|] eqn:Ef; [|done]. simpl.
  intros [= <-]. simpl. setoid_rewrite elem_of_sort_by.
  apply cascade_fold in Ef as (new & [Happ Hprop _] & Hc). rewrite Happ. setoid_rewrite elem_of_app.
  split_and!; [by left| |].
  - intros e [?|?]; [by left|right]. by apply Hprop.
  - intros d service u x Hin Hu Hd Hx Hxu Hsrv. destruct (Hc d service u x Hin Hu Hd Hx Hxu Hsrv) as (e & ? & ?).
    exists e. split; [by right|done].
Qed.

End props.

Lemma placement_is_canonical_witness :
  @assignments_for constant_sha256 "demo" "web" ["b"; "a"; "b"] 2 =
  @assignments_for constant_sha256 "demo" "web" ["a"; "b"] 2.
Proof. apply (@placement_is_canonical constant_sha256). set_solver. Defined.

(** The database of the sample project selected on both servers. *)
Definition sample_endpoint (service server : string) : ServiceEndpointPlan :=
  {| ep_identity := "demo:" +:+ service +:+ ":" +:+ server; ep_project := "demo";
     ep_service := service; ep_server := server |}.
Definition sample_selection : Selection :=
  ([sample_endpoint "db" "a"; sample_endpoint "db" "b"], ∅).

(** A plan of which only the endpoint of the sidecar matters. *)
Definition sidecar_plan : NetworkPlan :=
  {| np_enabled := true; np_project := "demo";
     np_management_cidr := {| network := 0; prefix := 8 |};
     np_container_cidr := {| network := 0; prefix := 8 |}; np_servers := ∅;
     np_endpoints := {[ "demo:sidecar:a" := sample_endpoint "sidecar" "a" ]};
     np_mesh_generation := "" |}.

Lemma cascade_is_sound_and_complete_witness :
  ∃ sel', @add_cascaded_dependents constant_sha256 sample_config sidecar_plan
            sample_selection = Ok sel' ∧
    ∃ e, e ∈ sel'.1 ∧ ep_service e = "sidecar" ∧ ep_server e = "a".
Proof.
  assert (is_ok (@add_cascaded_dependents constant_sha256 sample_config sidecar_plan
    sample_selection) = true) as Hok by (vm_compute; reflexivity).
  destruct (@add_cascaded_dependents constant_sha256 sample_config sidecar_plan
    sample_selection) as [sel'|] eqn:E; [|discriminate Hok].
  exists sel'. split; [done|].
  destruct (@cascade_is_sound_and_complete constant_sha256 sample_config sidecar_plan
    sample_selection sel' E) as (_ & _ & Hc).
  eapply (Hc "sidecar" _ "db" (sample_endpoint "db" "a")).
  - right. left.
  - reflexivity.
  - apply (bool_decide_unpack _). vm_compute. exact I.
  - left.
  - reflexivity.
  - left.
Defined.

End CascadeProps.
