(* ===== verification/Locks.v ===== *)
(** Deployment locks: [jiji-cli/src/lock.rs].

    The first part is the pure part: scopes, their order and paths, and one round of
    [OwnedDeploymentLocks::acquire] over the outcomes of the single attempts.  The second
    part is the protocol of one lock: a directory on a remote host, which several
    invocations try to move into place, read, recover and remove with shell commands that
    interleave command by command. *)

From S2P Require Import Prelude Text.
Open Scope N_scope.

(** ** Scopes and paths *)

Inductive LockScope :=
| ProjectMaintenance
| HostRuntime
| ServiceScale (service : string)
| LogicalReplica (replica_id : string)
| HostGlobalProxy.

#[export] Instance LockScope_eq_dec : EqDecision LockScope.
Proof. solve_decision. Defined.

Definition HOST_GLOBAL_PROXY_LOCK_PATH : string := "/etc/jiji/proxy-ingress/lock".

(** [project_staging_dir] of [env_resolution.rs]. *)
Definition project_staging_dir (project : string) : string := ".jiji/" +:+ project.

Definition project_maintenance_lock_path (project : string) : string :=
  project_staging_dir project +:+ "/locks/maintenance.lock".
Definition host_runtime_lock_path (project : string) : string :=
  project_staging_dir project +:+ "/locks/host-runtime.lock".
Definition service_scale_lock_path (project service : string) : string :=
  project_staging_dir project +:+ "/locks/service/" +:+ service +:+ ".lock".
Definition replica_lock_path (project replica_id : string) : string :=
  project_staging_dir project +:+ "/locks/replica/" +:+ replica_id +:+ ".lock".

(** [parent_dir]: everything before the last slash. *)
Definition parent_dir (path : string) : string :=
  match rsplit_once "/" path with Some (parent, _) => parent | None => "." end.

Definition rank (s : LockScope) : N :=
  match s with
  | ProjectMaintenance => 0
  | HostRuntime => 1
  | ServiceScale _ => 2
  | LogicalReplica _ => 3
  | HostGlobalProxy => 4
  end.

Definition lock_path (s : LockScope) (project : string) : string :=
  match s with
  | ProjectMaintenance => project_maintenance_lock_path project
  | HostRuntime => host_runtime_lock_path project
  | ServiceScale service => service_scale_lock_path project service
  | LogicalReplica replica_id => replica_lock_path project replica_id
  | HostGlobalProxy => HOST_GLOBAL_PROXY_LOCK_PATH
  end.

Definition scope_to_string (s : LockScope) : string :=
  match s with
  | ProjectMaintenance => "project-maintenance"
  | HostRuntime => "host-runtime"
  | ServiceScale service => "service-scale:" +:+ service
  | LogicalReplica replica_id => "replica:" +:+ replica_id
  | HostGlobalProxy => "proxy"
  end.

Record LockRequest := { req_scope : LockScope; req_host : string }.

(** What requests are sorted by. *)
Definition request_key (project : string) (r : LockRequest) : N * (string * string) :=
  (rank (req_scope r), (req_host r, lock_path (req_scope r) project)).
Definition request_leb (project : string) (a b : LockRequest) : bool :=
  leb (request_key project a) (request_key project b).
Definition sort_requests (locks : list LockRequest) (project : string) : list LockRequest :=
  sort_by (request_leb project) locks.

Record LockInfo := {
  info_message : string;
  info_acquired_at : N;
  info_acquired_by : string;
  info_pid : N;
  info_lock_id : option string;
}.

Definition age_seconds (i : LockInfo) (now : N) : N := saturating_sub now (info_acquired_at i).

Definition format_age (seconds : N) : string :=
  if seconds <? 60 then pretty seconds +:+ "s"
  else if seconds <? 3600 then pretty (seconds / 60) +:+ "m" +:+ pretty (seconds mod 60) +:+ "s"
  else pretty (seconds / 3600) +:+ "h" +:+ pretty ((seconds mod 3600) / 60) +:+ "m".

(** [str::strip_suffix] and [str::ends_with]. *)
Definition ends_with (suffix s : string) : bool := bool_decide (bytes suffix `suffix_of` bytes s).
Definition strip_suffix (suffix s : string) : option string :=
  if ends_with suffix s then
    Some (String.string_of_list_ascii (take (length (bytes s) - length (bytes suffix)) (bytes s)))
  else None.

(** [str::rsplit_once] with a string: around its last occurrence. *)
Fixpoint rsplit_once_str (pat s : string) : option (string * string) :=
  match s with
  | EmptyString => None
  | String c s' =>
      match rsplit_once_str pat s' with
      | Some (a, b) => Some (String c a, b)
      | None => match strip_prefix pat s with Some rest => Some ("", rest) | None => None end
      end
  end.

Definition parse_scope_from_path (path : string) : option LockScope :=
  stripped ← strip_suffix "/info.json" path;
  if bool_decide (stripped = HOST_GLOBAL_PROXY_LOCK_PATH) then Some HostGlobalProxy
  else if ends_with "/locks/maintenance.lock" stripped then Some ProjectMaintenance
  else if ends_with "/locks/host-runtime.lock" stripped then Some HostRuntime
  else
    match (e ← rsplit_once_str "/locks/service/" stripped; strip_suffix ".lock" e.2) with
    | Some service => Some (ServiceScale service)
    | None =>
        match (e ← rsplit_once_str "/locks/replica/" stripped; strip_suffix ".lock" e.2) with
        | Some replica_id => Some (LogicalReplica replica_id)
        | None => None
        end
    end.

(** ** One round of [OwnedDeploymentLocks::acquire] *)

Inductive AcquireResult := Acquired | Held (holder : option LockInfo).

(** The outcome of one attempt; a transport or filesystem failure is an error. *)
Definition Attempt : Type := result string AcquireResult.

Definition failure_text (now : N) (r : LockRequest) (a : Attempt) : option string :=
  let where_ := scope_to_string (req_scope r) +:+ " on " +:+ req_host r +:+ ": " in
  let quote := String (ascii_of_N 34) "" in
  match a with
  | Ok Acquired => None
  | Ok (Held (Some holder)) =>
      Some (where_ +:+ quote +:+ info_message holder +:+ quote +:+ " by " +:+ info_acquired_by holder
            +:+ " (" +:+ format_age (age_seconds holder now) +:+ " ago)")
  | Ok (Held None) => Some (where_ +:+ "lock metadata is incomplete")
  | Err error => Some (where_ +:+ error)
  end.

Definition is_acquired (a : Attempt) : bool := match a with Ok Acquired => true | _ => false end.
Definition is_hard (a : Attempt) : bool := match a with Err _ => true | _ => false end.

Record Round := {
  round_acquired : list LockRequest;
  round_failures : list string;
  round_hard_failure : bool;
}.

(** The requests of one rank, tried concurrently. *)
Definition acquire_group (now : N) (try : LockRequest → Attempt) (acc : Round)
    (group : list LockRequest) : Round :=
  {| round_acquired := round_acquired acc ++ filter (λ r, is_acquired (try r) = true) group;
     round_failures := round_failures acc ++ omap (λ r, failure_text now r (try r)) group;
     round_hard_failure := round_hard_failure acc || existsb (λ r, is_hard (try r)) group |}.

(** The longest prefix that satisfies a test, and the rest. *)
Fixpoint span {A} (p : A → bool) (l : list A) : list A * list A :=
  match l with
  | [] => ([], [])
  | x :: l' => if p x then (x :: (span p l').1, (span p l').2) else ([], l)
  end.

Definition same_rank (a b : LockRequest) : bool := rank (req_scope b) =? rank (req_scope a).

(** The outer [while] loop: rank after rank, until one rank fails.  [fuel] bounds the number
    of ranks; the number of requests is enough, since every turn consumes a request. *)
Fixpoint acquire_ranks (fuel : nat) (now : N) (try : LockRequest → Attempt) (acc : Round)
    (sorted : list LockRequest) : Round :=
  match fuel, sorted with
  | S fuel, first :: _ =>
      if bool_decide (round_failures acc = []) then
        let group := span (same_rank first) sorted in
        acquire_ranks fuel now try (acquire_group now try acc group.1) group.2
      else acc
  | _, _ => acc
  end.

Definition Round_empty : Round :=
  {| round_acquired := []; round_failures := []; round_hard_failure := false |}.

(** One turn of the [loop]: [round_acquired] is what is returned when nothing failed, and
    what is released again otherwise. *)
Definition acquire_round (now : N) (try : LockRequest → Attempt) (locks : list LockRequest)
    (project : string) : Round :=
  let sorted := sort_requests locks project in
  acquire_ranks (length sorted) now try Round_empty sorted.

(** ** The protocol of one lock *)

(** What is at the lock's path: nothing, a file of an older version, or a directory with or
    without [info.json], which may be unreadable. *)
Inductive Node :=
| Absent
| PlainFile
| Directory (info : option (option LockInfo)).

(** [mv -T pending path]: replaces nothing but an empty directory. *)
Definition mv_pending (i : LockInfo) (n : Node) : option Node :=
  match n with
  | Absent | Directory None => Some (Directory (Some (Some i)))
  | _ => None
  end.

(** [read_lock]: the parsed [info.json], if there is one. *)
Definition read_lock (n : Node) : option LockInfo :=
  match n with Directory (Some (Some i)) => Some i | _ => None end.

(** [rm -f path/info.json], [rm -f path] and [rmdir path]. *)
Definition rm_info (n : Node) : Node := match n with Directory _ => Directory None | n => n end.
Definition rm_file (n : Node) : Node := match n with PlainFile => Absent | n => n end.
Definition rmdir (n : Node) : option Node :=
  match n with Directory None => Some Absent | _ => None end.

(** Where an invocation is: in the script of [acquire_lock], between its commands
    ([recover_incomplete_lock] included), holding the lock, or in the script of
    [release_owned_lock]. *)
Inductive Pc :=
| Trying
| Reading
| RecoverTest
| RecoverRemoveInfo
| RecoverRmdir
| RecoverRemoveFile
| Retrying
| Rereading
| Refused (holder : option LockInfo)
| Holding
| ReleaseCheck
| ReleaseRemoveInfo
| ReleaseRmdir
| Released
| ReleaseFailed
| NoLongerOwned
| AlreadyGone.

(** One command of an invocation with the lock information [i]. *)
Inductive command (i : LockInfo) : Pc * Node → Pc * Node → Prop :=
| try_wins n n' : mv_pending i n = Some n' → command i (Trying, n) (Holding, n')
| try_loses n : mv_pending i n = None → command i (Trying, n) (Reading, n)
| read_holder n h : read_lock n = Some h → command i (Reading, n) (Refused (Some h), n)
| read_nothing n : read_lock n = None → command i (Reading, n) (RecoverTest, n)
| recover_directory c : command i (RecoverTest, Directory c) (RecoverRemoveInfo, Directory c)
| recover_file : command i (RecoverTest, PlainFile) (RecoverRemoveFile, PlainFile)
| recover_absent : command i (RecoverTest, Absent) (Retrying, Absent)
| recover_rm_info n : command i (RecoverRemoveInfo, n) (RecoverRmdir, rm_info n)
| recover_rmdir n : command i (RecoverRmdir, n) (Retrying, default n (rmdir n))
| recover_rm_file n : command i (RecoverRemoveFile, n) (Retrying, rm_file n)
| retry_wins n n' : mv_pending i n = Some n' → command i (Retrying, n) (Holding, n')
| retry_loses n : mv_pending i n = None → command i (Retrying, n) (Rereading, n)
| reread n : command i (Rereading, n) (Refused (read_lock n), n)
| release_start n : command i (Holding, n) (ReleaseCheck, n)
| release_gone n : (∀ c, n ≠ Directory c) → command i (ReleaseCheck, n) (AlreadyGone, n)
| release_owned n h : read_lock n = Some h → info_lock_id h = info_lock_id i →
    command i (ReleaseCheck, n) (ReleaseRemoveInfo, n)
| release_foreign c :
    (∀ h, read_lock (Directory (Some c)) = Some h → info_lock_id h ≠ info_lock_id i) →
    command i (ReleaseCheck, Directory (Some c)) (NoLongerOwned, Directory (Some c))
| release_unreadable : command i (ReleaseCheck, Directory None) (ReleaseFailed, Directory None)
| release_rm_info n : command i (ReleaseRemoveInfo, n) (ReleaseRmdir, rm_info n)
| release_rmdir n n' : rmdir n = Some n' → command i (ReleaseRmdir, n) (Released, n')
| release_rmdir_fails n : rmdir n = None → command i (ReleaseRmdir, n) (ReleaseFailed, n).

(** The host: the node at the path and the invocations that work on it. *)
Record Host := { host_node : Node; host_pcs : gmap string (LockInfo * Pc) }.

(** An invocation runs its next command. *)
Inductive hstep : Host → Host → Prop :=
| hstep_command h name i pc pc' n' :
    host_pcs h !! name = Some (i, pc) → command i (pc, host_node h) (pc', n') →
    hstep h {| host_node := n'; host_pcs := <[name := (i, pc')]> (host_pcs h) |}.

(** The commands of a recovery. *)
Definition is_recovery (pc : Pc) : bool :=
  match pc with
  | RecoverTest | RecoverRemoveInfo | RecoverRmdir | RecoverRemoveFile => true
  | _ => false
  end.

(** The invocation relies on having the lock. *)
Definition is_owner (pc : Pc) : bool :=
  match pc with Holding | ReleaseCheck | ReleaseRemoveInfo => true | _ => false end.

(** Steps after which no invocation is in a recovery. *)
Definition quiet (h : Host) : Prop :=
  ∀ name i pc, host_pcs h !! name = Some (i, pc) → is_recovery pc = false.
Definition quiet_step (h h' : Host) : Prop := hstep h h' ∧ quiet h'.

(** ** Lemmas *)

Lemma span_app {A} (p : A → bool) l : (span p l).1 ++ (span p l).2 = l.
Proof. induction l as [|x l IH]; [done|]. simpl. destruct (p x); [simpl; by f_equal|done]. Qed.

Lemma span_fst {A} (p : A → bool) l x : x ∈ (span p l).1 → p x = true.
Proof.
  induction l as [|y l IH]; simpl; [by intros ?%elem_of_nil|].
  destruct (p y) eqn:E; simpl; [intros [->|?]%elem_of_cons; auto|by intros ?%elem_of_nil].
Qed.

Lemma span_snd_head {A} (p : A → bool) l x k : (span p l).2 = x :: k → p x = false.
Proof.
  induction l as [|y l IH]; simpl; [done|]. destruct (p y) eqn:E; simpl; [done|].
  by intros [= -> ->].
Qed.

Lemma span_length {A} (p : A → bool) x l : p x = true → (length (span p (x :: l)).2 ≤ length l)%nat.
Proof.
  intros Hx. simpl. rewrite Hx. simpl. rewrite <-(span_app p l) at 2. rewrite length_app. lia.
Qed.

Lemma failure_text_None now r a : failure_text now r a = None ↔ is_acquired a = true.
Proof. destruct a as [[|[h|]]|]; done. Qed.

Lemma omap_nil_iff {A B} (f : A → option B) l : omap f l = [] ↔ ∀ x, x ∈ l → f x = None.
Proof.
  induction l as [|x l IH]; [split; [by intros _ x ?%elem_of_nil|done]|]. simpl.
  destruct (f x) eqn:E.
  - split; [done|]. intros Hn. rewrite (Hn x (list_elem_of_here _ _)) in E. done.
  - rewrite IH. split.
    + intros Hn y [->|?]%elem_of_cons; auto.
    + intros Hn y Hy. apply Hn. by apply list_elem_of_further.
Qed.

Lemma filter_ext_elem {A} (P Q : A → Prop) `{∀ x, Decision (P x)} `{∀ x, Decision (Q x)} (l : list A) :
  (∀ x, x ∈ l → P x ↔ Q x) → filter P l = filter Q l.
Proof.
  induction l as [|x l IH]; intros Hpq; [done|]. rewrite !filter_cons.
  rewrite IH by (intros y Hy; apply Hpq; by apply list_elem_of_further).
  pose proof (Hpq x (list_elem_of_here _ _)).
  destruct (decide (P x)), (decide (Q x)); tauto.
Qed.

(** *** One round *)

Definition by_rank (a b : LockRequest) : Prop := rank (req_scope a) ≤ rank (req_scope b).

(** Behind the group of the first request all ranks are higher. *)
Lemma span_later first rest r :
  StronglySorted by_rank (first :: rest) → r ∈ (span (same_rank first) (first :: rest)).2 →
  rank (req_scope first) < rank (req_scope r).
Proof.
  set (l := first :: rest). intros Hs Hr. pose proof (span_app (same_rank first) l) as Hspan.
  pose proof (span_snd_head (same_rank first) l) as Hhead.
  destruct (span (same_rank first) l) as [group later]. simpl in *.
  destruct later as [|x k]; [by apply elem_of_nil in Hr|].
  specialize (Hhead x k eq_refl). apply N.eqb_neq in Hhead.
  assert (by_rank first x) as Hfx.
  { unfold l in *. inversion Hs as [|? ? _ Hall]; subst. rewrite Forall_forall in Hall.
    destruct group as [|g group]; simplify_eq/=. apply Hall, elem_of_app. right.
    apply list_elem_of_here. }
  unfold by_rank in *. assert (rank (req_scope x) ≤ rank (req_scope r)); [|lia].
  apply elem_of_cons in Hr as [->|Hr]; [done|].
  rewrite <-Hspan in Hs. apply StronglySorted_app_1_r in Hs. inversion Hs as [|? ? _ Hall]; subst.
  rewrite Forall_forall in Hall. by apply Hall.
Qed.

Section rounds.
Context (now : N) (try : LockRequest → Attempt).

(** What a round did: everything was acquired, or the ranks up to [k] were tried, the
    attempts below [k] succeeded, and some attempt at [k] did not. *)
Definition round_spec (acc : Round) (sorted : list LockRequest) (res : Round) : Prop :=
  (round_failures res = [] ∧ round_acquired res = round_acquired acc ++ sorted ∧
   ∀ r, r ∈ sorted → is_acquired (try r) = true) ∨
  (round_failures res ≠ [] ∧ ∃ k bad,
   bad ∈ sorted ∧ rank (req_scope bad) = k ∧ is_acquired (try bad) = false ∧
   (∀ r, r ∈ sorted → rank (req_scope r) < k → is_acquired (try r) = true) ∧
   round_acquired res = round_acquired acc ++
     filter (λ r, is_acquired (try r) = true ∧ rank (req_scope r) ≤ k) sorted).

Lemma group_failures acc group :
  round_failures acc = [] →
  round_failures (acquire_group now try acc group) = [] ↔ ∀ r, r ∈ group → is_acquired (try r) = true.
Proof.
  intros Ha. simpl. rewrite Ha. simpl. rewrite omap_nil_iff. by setoid_rewrite failure_text_None.
Qed.

Lemma acquire_ranks_failed fuel acc sorted :
  round_failures acc ≠ [] → acquire_ranks fuel now try acc sorted = acc.
Proof. intros Hf. destruct fuel, sorted; try done. simpl. by rewrite bool_decide_false. Qed.

Lemma acquire_ranks_spec fuel acc sorted :
  (length sorted ≤ fuel)%nat → StronglySorted by_rank sorted → round_failures acc = [] →
  round_spec acc sorted (acquire_ranks fuel now try acc sorted).
Proof.
  revert acc sorted. induction fuel as [|fuel IH]; intros acc sorted Hfuel Hs Hacc.
  { destruct sorted; [|simpl in Hfuel; lia]. left. simpl.
    split_and!; [done|by rewrite app_nil_r|by intros r ?%elem_of_nil]. }
  destruct sorted as [|first rest].
  { left. simpl. split_and!; [done|by rewrite app_nil_r|by intros r ?%elem_of_nil]. }
  cbn [acquire_ranks]. rewrite bool_decide_true by done.
  set (l := first :: rest) in *. pose proof (span_app (same_rank first) l) as Hspan.
  assert (∀ r, r ∈ (span (same_rank first) l).1 → rank (req_scope r) = rank (req_scope first)) as Hgroup.
  { intros r Hr%span_fst. by apply N.eqb_eq in Hr. }
  assert (length (span (same_rank first) l).2 ≤ fuel)%nat as Hlen.
  { assert (same_rank first first = true) as Hff by apply N.eqb_refl.
    pose proof (span_length _ _ rest Hff). simpl in Hfuel. unfold l. lia. }
  assert (∀ r, r ∈ (span (same_rank first) l).2 → rank (req_scope first) < rank (req_scope r)) as Hlater.
  { intros r. by apply (span_later first rest). }
  destruct (span (same_rank first) l) as [group later]. simpl in *.
  destruct (decide (round_failures (acquire_group now try acc group) = [])) as [Hok|Hbad].
  - pose proof (proj1 (group_failures _ _ Hacc) Hok) as Hall.
    assert (StronglySorted by_rank later) as Hs'.
    { rewrite <-Hspan in Hs. by apply StronglySorted_app_1_r in Hs. }
    assert (filter (λ r, is_acquired (try r) = true) group = group) as Hfilter by by apply filter_all.
    destruct (IH (acquire_group now try acc group) later Hlen Hs' Hok)
      as [(Hf & Hacq & Hev)|(Hf & k & bad & Hin & Hk & Hb & Hlow & Hacq)].
    + left. split_and!; [done| |].
      * rewrite Hacq. simpl. by rewrite Hfilter, <-app_assoc, Hspan.
      * intros r. rewrite <-Hspan, elem_of_app. intros [?|?]; auto.
    + right. split; [done|]. exists k, bad. split_and!; try done.
      * rewrite <-Hspan, elem_of_app. by right.
      * intros r. rewrite <-Hspan, elem_of_app. intros [?|?] ?; auto.
      * rewrite Hacq. simpl. rewrite Hfilter, <-Hspan, filter_app, <-app_assoc. f_equal. f_equal.
        symmetry. apply filter_all. intros r Hr. split; [by apply Hall|].
        rewrite (Hgroup _ Hr). pose proof (Hlater _ Hin). lia.
  - rewrite acquire_ranks_failed by done. right. split; [done|].
    rewrite group_failures in Hbad by done.
    assert (∃ bad, bad ∈ group ∧ is_acquired (try bad) = false) as (bad & Hin & Hb).
    { clear -Hbad. induction group as [|x group IH]; [by destruct Hbad; intros r ?%elem_of_nil|].
      destruct (is_acquired (try x)) eqn:E.
      - destruct IH as (b & ? & ?).
        + intros Hall. apply Hbad. intros r [->|?]%elem_of_cons; auto.
        + exists b. split; [by apply list_elem_of_further|done].
      - exists x. split; [apply list_elem_of_here|done]. }
    exists (rank (req_scope first)), bad. split_and!; [| |done| |].
    + rewrite <-Hspan, elem_of_app. by left.
    + by apply Hgroup.
    + intros r. rewrite <-Hspan, elem_of_app. intros [Hr|Hr] Hlt.
      * rewrite (Hgroup _ Hr) in Hlt. lia.
      * pose proof (Hlater _ Hr). lia.
    + simpl. f_equal. rewrite <-Hspan, filter_app.
      rewrite (filter_none _ later), app_nil_r.
      * apply filter_ext_elem. intros r Hr. rewrite (Hgroup _ Hr). split; [|tauto]. by split; [|lia].
      * intros r Hr [_ Hle]. pose proof (Hlater _ Hr). lia.
Qed.
End rounds.

(** *** Paths *)

(** Closed texts have no slash by evaluation. *)
Ltac no_slash := first [done | apply (bool_decide_unpack _); vm_compute; exact I].

Definition slashes (s : string) : nat := length (filter (λ c, c = "/"%char) (bytes s)).

Lemma slashes_app a b : slashes (a +:+ b) = (slashes a + slashes b)%nat.
Proof. unfold slashes, bytes. by rewrite list_ascii_app, filter_app, length_app. Qed.

Lemma strip_prefix_Some p s r : strip_prefix p s = Some r → s = p +:+ r.
Proof.
  revert s. induction p as [|c p IH]; intros s; [by intros [= ->]|].
  destruct s as [|d s]; [done|].
  change (strip_prefix (String c p) (String d s))
    with (if bool_decide (c = d) then strip_prefix p s else None). case_bool_decide as Hc; [|done]. subst d.
  intros ->%IH. done.
Qed.

(** A text with fewer slashes than the pattern does not contain it. *)
Lemma rsplit_few_slashes pat s : (slashes s < slashes pat)%nat → rsplit_once_str pat s = None.
Proof.
  induction s as [|c s IH]; intros Hs; [done|]. cbn [rsplit_once_str].
  assert (slashes s ≤ slashes (String c s))%nat as Hle.
  { unfold slashes. change (bytes (String c s)) with (c :: bytes s).
    rewrite filter_cons. destruct (decide (c = "/"%char)); simpl; lia. }
  rewrite IH by lia. destruct (strip_prefix pat (String c s)) as [r|] eqn:E; [|done].
  apply strip_prefix_Some in E. rewrite E, slashes_app in Hs. lia.
Qed.

Lemma rsplit_last pat p c pat' r :
  pat = String c pat' → rsplit_once_str pat (pat' +:+ r) = None →
  rsplit_once_str pat (p +:+ (pat +:+ r)) = Some (p, r).
Proof.
  intros -> Hnone. induction p as [|d p IH].
  - change ("" +:+ (String c pat' +:+ r)) with (String c (pat' +:+ r)).
    cbn [rsplit_once_str]. rewrite Hnone.
    change (String c (pat' +:+ r)) with (String c pat' +:+ r). by rewrite strip_prefix_app.
  - change (String d p +:+ (String c pat' +:+ r)) with (String d (p +:+ (String c pat' +:+ r))).
    cbn [rsplit_once_str]. by rewrite IH.
Qed.

Lemma strip_suffix_app a b : strip_suffix b (a +:+ b) = Some a.
Proof.
  unfold strip_suffix, ends_with. unfold bytes. rewrite list_ascii_app, bool_decide_true by by eexists.
  rewrite length_app, Nat.add_sub, take_app_length.
  by rewrite String.string_of_list_ascii_of_string.
Qed.

Lemma ends_with_last suffix s c d :
  last (bytes suffix) = Some c → last (bytes s) = Some d → c ≠ d → ends_with suffix s = false.
Proof.
  intros Hc Hd Hne. unfold ends_with. apply bool_decide_false. intros [k Hk].
  rewrite Hk, last_app, Hc in Hd. congruence.
Qed.

(** The text after the last slash, and the text before it, are determined. *)
Lemma split_last_slash a b c d :
  "/"%char ∉ b → "/"%char ∉ d → a ++ "/"%char :: b = c ++ "/"%char :: d → a = c ∧ b = d.
Proof.
  intros Hb Hd He. revert c He. induction a as [|x a IH]; intros [|y c] He; simplify_eq/=.
  - done.
  - exfalso. apply Hb, elem_of_app. right. apply list_elem_of_here.
  - exfalso. apply Hd, elem_of_app. right. apply list_elem_of_here.
  - by destruct (IH c) as [-> ->].
Qed.

(** A name below [dir] is no file below [locks], unless [dir] ends like [locks] does. *)
Lemma scoped_path_is_no_file pre dir name k file :
  "/"%char ∉ bytes name → "/"%char ∉ bytes file → last dir ≠ Some "s"%char → dir ≠ [] →
  pre ++ dir ++ "/"%char :: bytes name =
    k ++ String.list_ascii_of_string "/locks" ++ "/"%char :: bytes file → False.
Proof.
  intros Hn Hf Hd Hne He. rewrite !app_assoc in He.
  apply split_last_slash in He as [He _]; [|done|done].
  assert (last (pre ++ dir) = last (k ++ String.list_ascii_of_string "/locks")) as Hl by by rewrite He.
  rewrite !last_app in Hl. destruct (last dir) eqn:E; [|by apply last_None in E].
  change (last (String.list_ascii_of_string "/locks")) with (Some "s"%char) in Hl. congruence.
Qed.

Lemma scoped_path_ends dir_text name file project :
  "/"%char ∉ bytes name → "/"%char ∉ bytes file → last (bytes dir_text) ≠ Some "s"%char → dir_text ≠ "" →
  ends_with ("/locks/" +:+ file) (project_staging_dir project +:+ dir_text +:+ "/" +:+ name) = false.
Proof.
  intros Hn Hf Hd Hne. unfold ends_with. apply bool_decide_false. intros [k Hk].
  apply (scoped_path_is_no_file (bytes (project_staging_dir project)) (bytes dir_text) name k file);
    [done|done|done|by destruct dir_text|].
  unfold bytes in *. rewrite !list_ascii_app in Hk. exact Hk.
Qed.

Lemma not_slash_lock name : "/"%char ∉ bytes name → "/"%char ∉ bytes (name +:+ ".lock").
Proof.
  intros Hn. unfold bytes. rewrite list_ascii_app, elem_of_app. intros [?|Hl]; [done|].
  revert Hl. apply (bool_decide_unpack _). vm_compute. exact I.
Qed.

Lemma slashes_none name : "/"%char ∉ bytes name → slashes name = O.
Proof.
  intros Hn. unfold slashes. rewrite filter_none; [done|]. by intros x Hx ->.
Qed.

(** Names without a slash come back out of the path. *)
Lemma rsplit_scoped project pat pat' name :
  pat = String "/" pat' → slashes pat = 3%nat → "/"%char ∉ bytes name →
  rsplit_once_str pat (project_staging_dir project +:+ (pat +:+ (name +:+ ".lock"))) =
    Some (project_staging_dir project, name +:+ ".lock").
Proof.
  intros Hp Hs Hn. apply (rsplit_last pat _ "/" pat'); [done|]. apply rsplit_few_slashes.
  rewrite Hs. subst pat. rewrite slashes_app, (slashes_none (name +:+ ".lock")) by by apply not_slash_lock.
  unfold slashes in *. change (bytes (String "/" pat')) with ("/"%char :: bytes pat') in Hs.
  rewrite filter_cons_True in Hs by done. simpl in Hs. lia.
Qed.

Lemma split_first_slash a b c d :
  "/"%char ∉ a → "/"%char ∉ c → a ++ "/"%char :: b = c ++ "/"%char :: d → a = c ∧ b = d.
Proof.
  revert c. induction a as [|x a IH]; intros [|y c] Ha Hc He; simplify_eq/=; [done|..].
  - by destruct Hc; apply list_elem_of_here.
  - by destruct Ha; apply list_elem_of_here.
  - apply not_elem_of_cons in Ha as [_ Ha], Hc as [_ Hc]. by destruct (IH c) as [-> ->].
Qed.

Lemma rsplit_once_str_Some pat s a b : rsplit_once_str pat s = Some (a, b) → s = a +:+ (pat +:+ b).
Proof.
  revert a. induction s as [|c s IH]; intros a; [done|]. cbn [rsplit_once_str].
  destruct (rsplit_once_str pat s) as [[x y]|].
  - intros [= <- ->]. by rewrite (IH x eq_refl) at 1.
  - destruct (strip_prefix pat (String c s)) as [r|] eqn:E; [|done]. intros [= <- ->].
    by apply strip_prefix_Some in E.
Qed.

Lemma no_slash_filter l : length (filter (λ c, c = "/"%char) l) = O → "/"%char ∉ l.
Proof.
  intros Hl Hin. apply nil_length_inv in Hl.
  by apply (filter_nil_not_elem_of _ _ "/"%char Hl).
Qed.

(** The path of a replica lock mentions no service. *)
Lemma replica_path_no_service project name :
  "/"%char ∉ bytes project → "/"%char ∉ bytes name →
  rsplit_once_str "/locks/service/" (replica_lock_path project name) = None.
Proof.
  intros Hp Hname. pose proof (not_slash_lock _ Hname) as Hn. destruct (rsplit_once_str _ _) as [[a b]|] eqn:E; [|done]. exfalso.
  apply rsplit_once_str_Some in E. unfold replica_lock_path, project_staging_dir in E.
  rewrite append_assoc in E. pose proof (f_equal slashes E) as Hs. rewrite !slashes_app in Hs.
  rewrite (slashes_none project), (slashes_none name) in Hs by done.
  change (slashes ".lock") with O in Hs.
  change (slashes ".jiji/") with 1%nat in Hs. change (slashes "/locks/replica/") with 3%nat in Hs.
  change (slashes "/locks/service/") with 3%nat in Hs.
  apply (f_equal bytes) in E. unfold bytes in *. rewrite !list_ascii_app in E.
  assert (slashes a = O ∨ slashes b = O) as [Ha|Hb] by lia.
  - apply no_slash_filter in Ha. unfold bytes in Ha.
    change (String.list_ascii_of_string ".jiji/" ++ ?x)
      with (String.list_ascii_of_string ".jiji" ++ "/"%char :: x) in E.
    change (String.list_ascii_of_string "/locks/service/" ++ ?x)
      with ("/"%char :: String.list_ascii_of_string "locks" ++ "/"%char ::
            String.list_ascii_of_string "service/" ++ x) in E.
    apply split_first_slash in E as [_ E]; [| |done].
    2:{ apply (bool_decide_unpack _). vm_compute. exact I. }
    change (String.list_ascii_of_string "/locks/replica/" ++ ?x)
      with ("/"%char :: String.list_ascii_of_string "locks/replica/" ++ x) in E.
    apply split_first_slash in E as [_ E]; [done|done|].
    apply (bool_decide_unpack _). vm_compute. exact I.
  - apply no_slash_filter in Hb. unfold bytes in Hb.
    change (String.list_ascii_of_string "/locks/replica/" ++ ?x)
      with (String.list_ascii_of_string "/locks/replica" ++ "/"%char :: x) in E.
    change (String.list_ascii_of_string "/locks/service/" ++ ?x)
      with (String.list_ascii_of_string "/locks/service" ++ "/"%char :: x) in E.
    rewrite <-list_ascii_app, !app_assoc in E. apply split_last_slash in E as [E _]; [|done|done].
    apply (f_equal last) in E. rewrite !last_app in E. done.
Qed.

(** *** The protocol *)

(** Every invocation that has the lock finds its own information in the directory. *)
Definition owners_ok (h : Host) : Prop :=
  ∀ name i pc, host_pcs h !! name = Some (i, pc) → is_owner pc = true →
    host_node h = Directory (Some (Some i)).

(** Invocations have their own lock identifiers. *)
Definition ids_unique (h : Host) : Prop :=
  ∀ n1 n2 i1 i2 p1 p2, host_pcs h !! n1 = Some (i1, p1) → host_pcs h !! n2 = Some (i2, p2) →
    info_lock_id i1 = info_lock_id i2 → n1 = n2.

Lemma ids_unique_step h h' : hstep h h' → ids_unique h → ids_unique h'.
Proof.
  intros Hs Hu. destruct Hs as [h name i pc pc' n' Hpc _]. intros n1 n2 i1 i2 p1 p2. simpl.
  rewrite !lookup_insert_Some.
  intros [[<- [= <- <-]]|[_ H1]] [[<- [= <- <-]]|[_ H2]] Hid; [done|by eapply Hu..].
Qed.

(** A command that changes the node while nobody is in recovery. *)
Lemma quiet_command i pc n pc' n' :
  command i (pc, n) (pc', n') → is_recovery pc = false →
  n' = n ∨
  (is_owner pc' = true ∧ n' = Directory (Some (Some i)) ∧ ∀ j, n ≠ Directory (Some (Some j))) ∨
  (is_owner pc = true ∧ is_owner pc' = false) ∨
  (is_owner pc' = false ∧ ∀ j, n ≠ Directory (Some (Some j))).
Proof.
  intros Hc Hr. inversion Hc; subst; try done; auto.
  - right; left. destruct n as [| |[?|]]; simplify_eq/=; done.
  - right; left. destruct n as [| |[?|]]; simplify_eq/=; done.
  - right; right; right. destruct n as [| |[?|]]; simplify_eq/=; done.
Qed.

(** An owner stays an owner of the same information, or becomes one by moving it in. *)
Lemma owner_command i pc n pc' n' :
  command i (pc, n) (pc', n') → is_owner pc' = true →
  (is_owner pc = true ∧ n' = n) ∨ n' = Directory (Some (Some i)).
Proof.
  intros Hc Ho. inversion Hc; subst; try done; auto;
    right; (destruct n as [| |[?|]]; simplify_eq/=; done).
Qed.

Lemma quiet_owners h h' :
  quiet h → hstep h h' → ids_unique h → owners_ok h → owners_ok h'.
Proof.
  intros Hq Hs Hu Ho. destruct Hs as [h name i pc pc' n' Hpc Hc].
  intros m j q. simpl. rewrite lookup_insert_Some. intros [[<- [= <- <-]]|[Hne Hm]] Hown.
  - destruct (owner_command _ _ _ _ _ Hc Hown) as [[Hop ->]|?]; [by apply (Ho name i pc)|done].
  - pose proof (Ho _ _ _ Hm Hown) as Hnode.
    destruct (quiet_command _ _ _ _ _ Hc (Hq _ _ _ Hpc)) as [->|[(_ & _ & Hn)|[[Hop _]|[_ Hn]]]];
      [done|by destruct (Hn j)| |by destruct (Hn j)].
    pose proof (Ho _ _ _ Hpc Hop) as Hnode'. rewrite Hnode in Hnode'. injection Hnode' as ->.
    by destruct Hne; apply (Hu _ _ _ _ _ _ Hpc Hm).
Qed.

Lemma ends_with_app a b : ends_with b (a +:+ b) = true.
Proof. unfold ends_with, bytes. rewrite list_ascii_app. apply bool_decide_true. by eexists. Qed.

Lemma host_runtime_is_no_maintenance project :
  ends_with "/locks/maintenance.lock" (project_staging_dir project +:+ "/locks/host-runtime.lock") = false.
Proof.
  unfold ends_with. apply bool_decide_false. intros [k Hk]. unfold bytes in Hk.
  rewrite list_ascii_app in Hk.
  change (String.list_ascii_of_string "/locks/host-runtime.lock")
    with (String.list_ascii_of_string "/locks" ++ "/"%char :: String.list_ascii_of_string "host-runtime.lock") in Hk.
  change (String.list_ascii_of_string "/locks/maintenance.lock")
    with (String.list_ascii_of_string "/locks" ++ "/"%char :: String.list_ascii_of_string "maintenance.lock") in Hk.
  rewrite !app_assoc in Hk. apply split_last_slash in Hk as [_ Hk]; [done|..];
    (apply (bool_decide_unpack _); vm_compute; exact I).
Qed.

(** The paths below [locks/service/] and [locks/replica/] are no project-wide locks. *)
Lemma service_path_scoped project name file full :
  full = "/locks/" +:+ file → "/"%char ∉ bytes name → "/"%char ∉ bytes file →
  ends_with full (project_staging_dir project +:+ "/locks/service/" +:+ name +:+ ".lock") = false.
Proof.
  intros -> Hn Hf. apply (scoped_path_ends "/locks/service" (name +:+ ".lock") file project);
    [by apply not_slash_lock|done|done|done].
Qed.

Lemma replica_path_scoped project name file full :
  full = "/locks/" +:+ file → "/"%char ∉ bytes name → "/"%char ∉ bytes file →
  ends_with full (project_staging_dir project +:+ "/locks/replica/" +:+ name +:+ ".lock") = false.
Proof.
  intros -> Hn Hf. apply (scoped_path_ends "/locks/replica" (name +:+ ".lock") file project);
    [by apply not_slash_lock|done|done|done].
Qed.

Module LocksProps.

(** Taking several locks is all or nothing.  A round of attempts either acquires every
    requested lock, in the global order by rank, host and path, or fails at some rank: then
    every attempt at a lower rank succeeded, nothing of a higher rank was touched, and what
    is rolled back is exactly what was acquired. *)
Theorem acquire_is_all_or_nothing now try locks project :
  let round := acquire_round now try locks project in
  let sorted := sort_requests locks project in
  (∀ r, r ∈ sorted ↔ r ∈ locks) ∧
  StronglySorted (λ a b, leb (request_key project a) (request_key project b) = true) sorted ∧
  ((round_failures round = [] ∧ round_acquired round = sorted ∧
    ∀ r, r ∈ locks → try r = Ok Acquired) ∨
   (round_failures round ≠ [] ∧ ∃ bad, bad ∈ locks ∧ try bad ≠ Ok Acquired ∧
    (∀ r, r ∈ locks → rank (req_scope r) < rank (req_scope bad) → try r = Ok Acquired) ∧
    ∀ r, r ∈ round_acquired round ↔
         r ∈ locks ∧ try r = Ok Acquired ∧ rank (req_scope r) ≤ rank (req_scope bad))).
Proof.
  cbv zeta. unfold acquire_round. set (sorted := sort_requests locks project).
  assert (∀ r, r ∈ sorted ↔ r ∈ locks) as Hin by (intros r; apply elem_of_sort_by).
  assert (∀ r, is_acquired (try r) = true ↔ try r = Ok Acquired) as Hacq.
  { intros r. by destruct (try r) as [[]|]. }
  assert (StronglySorted (λ a b, request_leb project a b = true) sorted) as Hs.
  { apply sort_by_sorted; unfold request_leb; [intros; apply leb_total|intros ???; apply leb_trans]. }
  split; [done|]. split; [done|].
  assert (StronglySorted by_rank sorted) as Hr.
  { eapply StronglySorted_weaken; [|exact Hs]. intros a b Hab. apply prod_leb_fst in Hab.
    by apply N_leb_le in Hab. }
  destruct (acquire_ranks_spec now try (length sorted) Round_empty sorted (le_n _) Hr eq_refl)
    as [(Hf & Ha & Hall)|(Hf & k & bad & Hb & <- & Hnot & Hlow & Ha)].
  - left. split_and!; [done|done|]. intros r Hl. apply Hacq, Hall. by apply Hin.
  - right. split; [done|]. exists bad. split_and!; [by apply Hin| | |].
    + intros Hb'. apply Hacq in Hb'. congruence.
    + intros r Hl Hlt. apply Hacq, Hlow; [by apply Hin|done].
    + intros r. rewrite Ha. simpl. rewrite list_elem_of_filter, Hacq, Hin. tauto.
Qed.

(** A lock can be found again: the scope read back from the path of a lock's
    [info.json] is the scope it was taken with, for every project, service and replica
    whose name has no slash. *)
Theorem lock_path_roundtrip scope project :
  "/"%char ∉ bytes project →
  match scope with
  | ServiceScale name | LogicalReplica name => "/"%char ∉ bytes name
  | _ => True
  end →
  parse_scope_from_path (lock_path scope project +:+ "/info.json") = Some scope.
Proof.
  intros Hp Hn. unfold parse_scope_from_path. rewrite strip_suffix_app. cbn [mbind option_bind].
  destruct scope as [| |name|name|]; cbn [lock_path]; [..|done];
    rewrite bool_decide_false by done.
  - unfold project_maintenance_lock_path. by rewrite ends_with_app.
  - unfold host_runtime_lock_path. by rewrite host_runtime_is_no_maintenance, ends_with_app.
  - unfold service_scale_lock_path. 
    rewrite (service_path_scoped project name "maintenance.lock" "/locks/maintenance.lock" eq_refl),
      (service_path_scoped project name "host-runtime.lock" "/locks/host-runtime.lock" eq_refl) by no_slash.
    rewrite (rsplit_scoped project "/locks/service/" "locks/service/" name) by done.
    cbn [mbind option_bind snd]. by rewrite strip_suffix_app.
  - unfold lock_path. rewrite replica_path_no_service by done. unfold replica_lock_path.
    rewrite (replica_path_scoped project name "maintenance.lock" "/locks/maintenance.lock" eq_refl),
      (replica_path_scoped project name "host-runtime.lock" "/locks/host-runtime.lock" eq_refl) by no_slash. cbn [mbind option_bind].
    rewrite (rsplit_scoped project "/locks/replica/" "locks/replica/" name) by done.
    cbn [mbind option_bind snd]. by rewrite strip_suffix_app.
Qed.

(** C33: The lock excludes, as long as nobody recovers it.  From any state of the path, with
    invocations that have just begun and whose identifiers differ, whatever way their
    commands interleave: while no invocation takes the recovery branch, at most one of them
    has the lock, and the directory names it. *)
Theorem lock_excludes_without_recovery h0 h :
  ids_unique h0 → (∀ name i pc, host_pcs h0 !! name = Some (i, pc) → pc = Trying) →
  rtc quiet_step h0 h →
  (∀ n1 n2 i1 i2 p1 p2, host_pcs h !! n1 = Some (i1, p1) → host_pcs h !! n2 = Some (i2, p2) →
     is_owner p1 = true → is_owner p2 = true → n1 = n2) ∧
  (∀ name i pc, host_pcs h !! name = Some (i, pc) → is_owner pc = true →
     read_lock (host_node h) = Some i).
Proof.
  intros Hu Hstart Hsteps.
  assert (quiet h ∧ ids_unique h ∧ owners_ok h) as (Hq & Hu' & Ho).
  { revert Hsteps. apply (rtc_ind_r (λ h, quiet h ∧ ids_unique h ∧ owners_ok h) h0).
    - split_and!; [|done|]; intros name i pc Hpc; by rewrite (Hstart _ _ _ Hpc).
    - intros x y _ [Hs Hqy] (Hqx & Hux & Hox). split_and!; [done|by eapply ids_unique_step|].
      by eapply quiet_owners. }
  split.
  - intros n1 n2 i1 i2 p1 p2 H1 H2 O1 O2. pose proof (Ho _ _ _ H1 O1) as E1.
    rewrite (Ho _ _ _ H2 O2) in E1. injection E1 as ->. by apply (Hu' _ _ _ _ _ _ H1 H2).
  - intros name i pc Hpc Hown. by rewrite (Ho _ _ _ Hpc Hown).
Qed.

(** Three invocations that begin at a free path. *)
Definition sample_info (id : string) : LockInfo :=
  {| info_message := "deploy"; info_acquired_at := 0; info_acquired_by := "ci"; info_pid := 1;
     info_lock_id := Some id |}.
Definition three_at (n : Node) (a b c : Pc) : Host :=
  {| host_node := n;
     host_pcs := <["c" := (sample_info "3", c)]> (<["b" := (sample_info "2", b)]>
                   {[ "a" := (sample_info "1", a) ]}) |}.

Lemma three_a n a b c n' a' :
  command (sample_info "1") (a, n) (a', n') → hstep (three_at n a b c) (three_at n' a' b c).
Proof.
  intros Hc. replace (three_at n' a' b c) with
    {| host_node := n'; host_pcs := <["a" := (sample_info "1", a')]> (host_pcs (three_at n a b c)) |}.
  - eapply hstep_command; [|exact Hc]. done.
  - reflexivity.
Qed.

Lemma three_b n a b c n' b' :
  command (sample_info "2") (b, n) (b', n') → hstep (three_at n a b c) (three_at n' a b' c).
Proof.
  intros Hc. replace (three_at n' a b' c) with
    {| host_node := n'; host_pcs := <["b" := (sample_info "2", b')]> (host_pcs (three_at n a b c)) |}.
  - eapply hstep_command; [|exact Hc]. done.
  - reflexivity.
Qed.

Lemma three_c n a b c n' c' :
  command (sample_info "3") (c, n) (c', n') → hstep (three_at n a b c) (three_at n' a b c').
Proof.
  intros Hc. replace (three_at n' a b c') with
    {| host_node := n'; host_pcs := <["c" := (sample_info "3", c')]> (host_pcs (three_at n a b c)) |}.
  - eapply hstep_command; [|exact Hc]. done.
  - reflexivity.
Qed.

(** Recovery breaks the lock.  An invocation that lost against a holder, and then finds
    the lock released when it reads it, takes it for an incomplete lock and removes the
    directory, even though a third invocation has acquired the lock in the meantime: the
    two of them hold the same lock at once. *)
Theorem recovery_breaks_exclusion :
  ∃ n, rtc hstep (three_at Absent Trying Trying Trying) (three_at n Released Holding Holding).
Proof.
  eexists. eapply rtc_l; [apply three_a; by apply try_wins|]. simpl.
  eapply rtc_l; [apply three_b; by apply try_loses|].
  eapply rtc_l; [apply three_a; apply release_start|].
  eapply rtc_l; [apply three_a; by eapply release_owned|].
  eapply rtc_l; [apply three_a; apply release_rm_info|]. simpl.
  eapply rtc_l; [apply three_a; by apply release_rmdir|].
  eapply rtc_l; [apply three_b; by apply read_nothing|].
  eapply rtc_l; [apply three_c; by apply try_wins|]. simpl.
  eapply rtc_l; [apply three_b; apply recover_directory|].
  eapply rtc_l; [apply three_b; apply recover_rm_info|]. simpl.
  eapply rtc_l; [apply three_b; apply recover_rmdir|]. simpl.
  eapply rtc_l; [apply three_b; by apply retry_wins|]. apply rtc_refl.
Qed.

Lemma lock_path_roundtrip_witness :
  parse_scope_from_path (lock_path (ServiceScale "web") "demo" +:+ "/info.json")
  = Some (ServiceScale "web").
Proof.
  apply (lock_path_roundtrip (ServiceScale "web") "demo");
    apply (bool_decide_unpack _); vm_compute; exact I.
Defined.

(** One invocation of a host with a free path takes the lock. *)
Definition one_at (n : Node) (pc : Pc) : Host :=
  {| host_node := n; host_pcs := {[ "a" := (sample_info "1", pc) ]} |}.

Lemma one_at_only n pc name i pc' :
  host_pcs (one_at n pc) !! name = Some (i, pc') → name = "a" ∧ pc' = pc.
Proof.
  change (({[ "a" := (sample_info "1", pc) ]} : gmap string (LockInfo * Pc)) !! name
    = Some (i, pc') → name = "a" ∧ pc' = pc).
  rewrite lookup_singleton_Some. by intros [<- [= _ <-]].
Qed.

Lemma lock_excludes_without_recovery_witness :
  read_lock (host_node (one_at (Directory (Some (Some (sample_info "1")))) Holding))
  = Some (sample_info "1").
Proof.
  destruct (lock_excludes_without_recovery (one_at Absent Trying)
    (one_at (Directory (Some (Some (sample_info "1")))) Holding)) as [_ Hread].
  - intros n1 n2 i1 i2 p1 p2 H1 H2 _.
    apply one_at_only in H1 as [-> _]. by apply one_at_only in H2 as [-> _].
  - intros name i pc H1. apply one_at_only in H1 as [_ ->]. reflexivity.
  - apply rtc_once. split.
    + replace (one_at (Directory (Some (Some (sample_info "1")))) Holding) with
        {| host_node := Directory (Some (Some (sample_info "1")));
           host_pcs := <["a" := (sample_info "1", Holding)]> (host_pcs (one_at Absent Trying)) |}.
      * eapply hstep_command; [reflexivity|]. by apply try_wins.
      * reflexivity.
    + intros name i pc H1. apply one_at_only in H1 as [_ ->]. reflexivity.
  - apply (Hread "a" (sample_info "1") Holding); reflexivity.
Defined.

End LocksProps.
