(* ===== verification/Bytes.v ===== *)
(** Byte buffers and the text operations on command output: big-endian integers and slices
    ([u16::from_be_bytes], [to_be_bytes], [slice::get]), [String::from_utf8_lossy],
    [str::lines] and [str::split].  A buffer is the list of its bytes; a [u16] or [u32] is
    an [N]. *)

From S2P Require Import Prelude Text.
Open Scope N_scope.

(** ** Buffers *)

Definition of_bytes (l : list ascii) : string := String.string_of_list_ascii l.

Definition u16_from_be (a b : ascii) : N := N_of_ascii a * 256 + N_of_ascii b.
(** [to_be_bytes] of a [u16] and of a [u32]; a larger number is reduced first, as [as] does. *)
Definition u16_to_be (n : N) : list ascii := [ascii_of_N ((n / 256) mod 256); ascii_of_N (n mod 256)].
Definition u32_to_be (n : N) : list ascii :=
  [ascii_of_N ((n / 16777216) mod 256); ascii_of_N ((n / 65536) mod 256);
   ascii_of_N ((n / 256) mod 256); ascii_of_N (n mod 256)].

(** [buf.get(from..to)]. *)
Definition slice (buf : list ascii) (from to : nat) : option (list ascii) :=
  if bool_decide (from ≤ to ∧ to ≤ length buf)%nat then Some (take (to - from) (drop from buf)) else None.

(** [buf.get(at..at + 2)] read as a [u16]. *)
Definition get_u16 (buf : list ascii) (at_ : nat) : option N :=
  match slice buf at_ (at_ + 2) with Some [a; b] => Some (u16_from_be a b) | _ => None end.

(** ** [String::from_utf8_lossy] *)

Definition in_range (lo hi : N) (c : option ascii) : bool :=
  match c with Some c => (lo <=? N_of_ascii c) && (N_of_ascii c <=? hi) | None => false end.
Definition is_cont (c : option ascii) : bool := in_range 128 191 c.

(** The first sequence of a buffer: whether it is a character, and how many bytes it takes.
    An ill-formed sequence is the longest prefix that could have begun a character, and one
    byte when there is none (Table 3-7 of the Unicode standard). *)
Definition utf8_next (l : list ascii) : bool * nat :=
  match l with
  | [] => (false, 1%nat)
  | c :: _ =>
      let n := N_of_ascii c in
      let b1 := l !! 1%nat in let b2 := l !! 2%nat in let b3 := l !! 3%nat in
      if n <? 128 then (true, 1%nat)
      else if (194 <=? n) && (n <=? 223) then
        if is_cont b1 then (true, 2%nat) else (false, 1%nat)
      else if (224 <=? n) && (n <=? 239) then
        let second := if n =? 224 then in_range 160 191 b1
                      else if n =? 237 then in_range 128 159 b1 else is_cont b1 in
        if negb second then (false, 1%nat)
        else if is_cont b2 then (true, 3%nat) else (false, 2%nat)
      else if (240 <=? n) && (n <=? 244) then
        let second := if n =? 240 then in_range 144 191 b1
                      else if n =? 244 then in_range 128 143 b1 else is_cont b1 in
        if negb second then (false, 1%nat)
        else if negb (is_cont b2) then (false, 2%nat)
        else if is_cont b3 then (true, 4%nat) else (false, 3%nat)
      else (false, 1%nat)
  end.

(** The bytes of U+FFFD. *)
Definition REPLACEMENT : list ascii := [ascii_of_N 239; ascii_of_N 191; ascii_of_N 189].

(** The fuel is the number of bytes: every sequence takes one at least. *)
Fixpoint lossy_go (fuel : nat) (l : list ascii) : list ascii :=
  match fuel, l with
  | S fuel, _ :: _ =>
      let '(valid, w) := utf8_next l in
      (if valid then take w l else REPLACEMENT) ++ lossy_go fuel (drop w l)
  | _, _ => []
  end.
Definition from_utf8_lossy (l : list ascii) : string := of_bytes (lossy_go (length l) l).

(** [str::to_ascii_lowercase]. *)
Definition str_to_ascii_lowercase (s : string) : string := of_bytes (to_ascii_lowercase <$> bytes s).

(** ** Splitting *)

(** [str::split(char)]: always at least one piece. *)
Fixpoint split_char (c : ascii) (s : string) : list string :=
  match s with
  | EmptyString => [""]
  | String d s' =>
      let rest := split_char c s' in
      if bool_decide (d = c) then "" :: rest
      else match rest with
           | p :: rest => String d p :: rest
           | [] => [String d ""]
           end
  end.

Definition newline : ascii := ascii_of_N 10.
Definition carriage_return : ascii := ascii_of_N 13.

(** A line loses a carriage return before its newline. *)
Definition strip_cr (s : string) : string :=
  match rev (bytes s) with
  | c :: l => if bool_decide (c = carriage_return) then of_bytes (rev l) else s
  | [] => s
  end.

(** [str::lines]: the pieces that end in a newline without their line ending, and the rest
    as it is if there is any. *)
Definition lines (s : string) : list string :=
  match rev (split_char newline s) with
  | last :: pieces =>
      rev (strip_cr <$> pieces) ++ (if bool_decide (last = "") then [] else [last])
  | [] => []
  end.

(** ** Lemmas *)

Lemma bytes_of_bytes l : bytes (of_bytes l) = l.
Proof. apply String.list_ascii_of_string_of_list_ascii. Qed.
Lemma of_bytes_bytes s : of_bytes (bytes s) = s.
Proof. apply String.string_of_list_ascii_of_string. Qed.
Lemma bytes_app s1 s2 : bytes (s1 +:+ s2) = bytes s1 ++ bytes s2.
Proof. apply list_ascii_app. Qed.
Lemma bytes_inj s1 s2 : bytes s1 = bytes s2 → s1 = s2.
Proof. intros Heq. by rewrite <-(of_bytes_bytes s1), Heq, of_bytes_bytes. Qed.

Lemma mjoin_cons {A} (x : list A) l : mjoin (x :: l) = x ++ mjoin l.
Proof. done. Qed.

Lemma N_ascii_small n : n < 256 → N_of_ascii (ascii_of_N n) = n.
Proof. apply N_ascii_embedding. Qed.

Lemma u16_be_roundtrip n :
  n < 65536 → ∃ a b, u16_to_be n = [a; b] ∧ u16_from_be a b = n.
Proof.
  intros Hn. eexists _, _. split; [done|]. unfold u16_from_be.
  rewrite !N_ascii_small by (apply N.mod_lt; lia).
  rewrite (N.mod_small (n / 256)) by (apply N.Div0.div_lt_upper_bound; lia).
  pose proof (N.div_mod n 256). lia.
Qed.

Lemma u16_from_be_bound a b : u16_from_be a b < 65536.
Proof. unfold u16_from_be. pose proof (N_ascii_bounded a). pose proof (N_ascii_bounded b). lia. Qed.

Lemma slice_Some buf from to l :
  slice buf from to = Some l →
  l = take (to - from) (drop from buf) ∧ (from ≤ to)%nat ∧ (to ≤ length buf)%nat ∧ length l = (to - from)%nat.
Proof.
  unfold slice. case_bool_decide as Hb; [|done]. intros [= <-]. split_and!; [done|lia..|].
  rewrite length_take, length_drop. lia.
Qed.

Lemma slice_app l1 l2 l3 : slice (l1 ++ l2 ++ l3) (length l1) (length l1 + length l2) = Some l2.
Proof.
  unfold slice. rewrite bool_decide_true by (rewrite !length_app; lia).
  rewrite drop_app_length. f_equal. replace (_ - _)%nat with (length l2) by lia. apply take_app_length.
Qed.

(** Only the bytes of the slice matter. *)
Lemma slice_agree buf buf' from to l :
  slice buf from to = Some l → (to ≤ length buf')%nat →
  (∀ i, from ≤ i → i < to → buf' !! i = buf !! i)%nat → slice buf' from to = Some l.
Proof.
  intros (-> & H1 & H2 & _)%slice_Some Hlen Hag. unfold slice. rewrite bool_decide_true by lia.
  f_equal. apply list_eq. intros i. destruct (decide (i < to - from)%nat).
  - rewrite !lookup_take_lt, !lookup_drop by lia. apply Hag; lia.
  - by rewrite !lookup_take_ge by lia.
Qed.

Lemma get_u16_agree buf buf' at_ n :
  get_u16 buf at_ = Some n → (at_ + 2 ≤ length buf')%nat →
  (∀ i, at_ ≤ i → i < at_ + 2 → buf' !! i = buf !! i)%nat → get_u16 buf' at_ = Some n.
Proof.
  unfold get_u16. destruct (slice buf at_ (at_ + 2)) as [l|] eqn:Hs; [|done].
  intros Hl Hlen Hag. by rewrite (slice_agree _ _ _ _ _ Hs Hlen Hag).
Qed.

Lemma get_u16_bound buf at_ n : get_u16 buf at_ = Some n → n < 65536 ∧ (at_ + 2 ≤ length buf)%nat.
Proof.
  unfold get_u16. destruct (slice buf at_ (at_ + 2)) as [l|] eqn:Hs; [|done].
  apply slice_Some in Hs as (_ & _ & Hlen & _). destruct l as [|a [|b [|]]]; try done.
  intros [= <-]. split; [apply u16_from_be_bound|done].
Qed.

Lemma get_u16_app l1 n l3 : n < 65536 → get_u16 (l1 ++ u16_to_be n ++ l3) (length l1) = Some n.
Proof.
  intros Hn. destruct (u16_be_roundtrip n Hn) as (a & b & Hb & Hv). unfold get_u16.
  rewrite Hb. change 2%nat with (length [a; b]). rewrite slice_app. by rewrite Hv.
Qed.

(** *** Text *)

Definition is_ascii (c : ascii) : bool := N_of_ascii c <? 128.

Lemma lossy_go_ascii fuel l :
  (length l ≤ fuel)%nat → Forall (λ c, is_ascii c = true) l → lossy_go fuel l = l.
Proof.
  revert l. induction fuel as [|fuel IH]; intros [|c l] Hlen Hl; try done; [simpl in Hlen; lia|].
  apply Forall_cons in Hl as [Hc Hl]. cbn [lossy_go]. unfold utf8_next. unfold is_ascii in Hc.
  rewrite Hc. simpl in *. rewrite drop_0. f_equal. apply IH; [lia|done].
Qed.

Lemma from_utf8_lossy_ascii l :
  Forall (λ c, is_ascii c = true) l → from_utf8_lossy l = of_bytes l.
Proof. intros Hl. unfold from_utf8_lossy. by rewrite lossy_go_ascii. Qed.

Lemma to_ascii_lowercase_not_upper c : is_ascii_uppercase (to_ascii_lowercase c) = false.
Proof.
  apply negb_true_iff, (ascii_forallb (λ c, negb (is_ascii_uppercase (to_ascii_lowercase c)))).
  by vm_compute.
Qed.

Lemma to_ascii_lowercase_id c : is_ascii_uppercase c = false → to_ascii_lowercase c = c.
Proof.
  unfold to_ascii_lowercase, is_ascii_uppercase. by intros ->.
Qed.

Lemma to_ascii_lowercase_idemp c : to_ascii_lowercase (to_ascii_lowercase c) = to_ascii_lowercase c.
Proof. apply to_ascii_lowercase_id, to_ascii_lowercase_not_upper. Qed.
