(* ===== verification/Dns.v ===== *)
(** The resolver of the [.jiji] zone: [jiji-agent/src/dns.rs].  Messages are parsed and built
    byte by byte; the zone is rebuilt for every query from the operation logs of the store
    and the time each node was last seen.

    What a forwarder answers is an argument ([ask]); sockets, timeouts and tasks are not
    modelled.  The loop over the labels of a question is bounded by fuel that it cannot
    exhaust. *)

From S2P Require Import Prelude Text Bytes Membership Catalog Desired OpLog.
Open Scope N_scope.

Definition QTYPE_A : N := 1.
Definition QTYPE_ANY : N := 255.
Definition QCLASS_IN : N := 1.
Definition RCODE_NOERROR : N := 0.
Definition RCODE_SERVFAIL : N := 2.
Definition RCODE_NOTIMP : N := 4.
Definition RCODE_NXDOMAIN : N := 3.
Definition DEFAULT_TTL : N := 5.
Definition MAX_ANSWERS : nat := 64.
Definition MAX_UDP_RESPONSE_BYTES : nat := 512.
(** The length of the receive buffer. *)
Definition RECV_BYTES : nat := 4096.

Record ParsedQuery := {
  q_id : N;
  q_opcode : N;
  q_recursion_desired : bool;
  q_name : string;
  q_qtype : N;
  q_qclass : N;
  q_question_bytes : list ascii;
}.

(** ** [parse_query] *)

(** What the label loop comes to: the labels with the offset behind them, the early return
    of [None], or no end within the fuel. *)
Inductive Labels :=
| LabelsDone (labels : list string) (offset : nat)
| LabelsMalformed
| LabelsOutOfFuel.

Fixpoint parse_labels (fuel : nat) (buf : list ascii) (offset : nat) (labels : list string) : Labels :=
  match fuel with
  | O => LabelsOutOfFuel
  | S fuel =>
      match buf !! offset with
      | None => LabelsMalformed
      | Some c =>
          let len := N.to_nat (N_of_ascii c) in
          let offset := (offset + 1)%nat in
          if (len =? 0)%nat then LabelsDone labels offset
          else if (63 <? len)%nat || (32 <? length labels)%nat then LabelsMalformed
          else
            let end_ := (offset + len)%nat in
            match slice buf offset end_ with
            | None => LabelsMalformed
            | Some label =>
                parse_labels fuel buf end_
                  (labels ++ [str_to_ascii_lowercase (from_utf8_lossy label)])
            end
      end
  end.

(** 33 labels at most are taken, so the loop ends within 34 turns. *)
Definition LABEL_TURNS : nat := 34.

Definition QUESTION_START : nat := 12.

Definition parse_query (buf : list ascii) : option ParsedQuery :=
  match buf with
  | b0 :: b1 :: b2 :: _ :: b4 :: b5 :: _ =>
      if (length buf <? 12)%nat then None
      else
        let flags1 := N_of_ascii b2 in
        if negb (u16_from_be b4 b5 =? 1) then None
        else
          match parse_labels LABEL_TURNS buf QUESTION_START [] with
          | LabelsDone labels offset =>
              qtype ← get_u16 buf offset;
              qclass ← get_u16 buf (offset + 2);
              question_bytes ← slice buf QUESTION_START (offset + 4);
              Some {| q_id := u16_from_be b0 b1;
                      q_opcode := N.land (N.shiftr flags1 3) 15;
                      q_recursion_desired := negb (N.land flags1 1 =? 0);
                      q_name := String.concat "." labels;
                      q_qtype := qtype; q_qclass := qclass;
                      q_question_bytes := question_bytes |}
          | _ => None
          end
  | _ => None
  end.

(** ** [encode_response] *)

Definition flag (b : bool) (n : N) : N := if b then n else 0.

Definition response_flags (q : ParsedQuery) (truncated authoritative : bool) : N :=
  N.lor (N.lor (N.lor (N.lor 128 (N.shiftl (q_opcode q) 3 mod 256))
    (flag authoritative 4)) (flag truncated 2)) (flag (q_recursion_desired q) 1).

Definition encode_answer (address : N) : list ascii :=
  [ascii_of_N 192; ascii_of_N 12] ++ u16_to_be QTYPE_A ++ u16_to_be QCLASS_IN
  ++ u32_to_be DEFAULT_TTL ++ u16_to_be 4 ++ u32_to_be address.

Definition encode_response (q : ParsedQuery) (rcode : N) (answers : list N)
    (truncated authoritative : bool) : list ascii :=
  u16_to_be (q_id q)
  ++ [ascii_of_N (response_flags q truncated authoritative); ascii_of_N (N.land rcode 15)]
  ++ u16_to_be 1 ++ u16_to_be (N.of_nat (length answers)) ++ u16_to_be 0 ++ u16_to_be 0
  ++ q_question_bytes q ++ mjoin (encode_answer <$> answers).

(** ** [respond] *)

Abbreviation Zone := (gmap string (list N)).

(** The answer section before it is cut. *)
Definition zone_answer (zone : Zone) (q : ParsedQuery) : N * list N :=
  match zone !! q_name q with
  | None => (RCODE_NXDOMAIN, [])
  | Some addresses =>
      if (q_qtype q =? QTYPE_A) || (q_qtype q =? QTYPE_ANY) then (RCODE_NOERROR, addresses)
      else (RCODE_NOERROR, [])
  end.

Definition respond (buf : list ascii) (zone : Zone) (is_udp : bool) : option (list ascii) :=
  q ← parse_query buf;
  if negb (q_opcode q =? 0) then Some (encode_response q RCODE_NOTIMP [] false true)
  else if negb (q_qclass q =? QCLASS_IN) then Some (encode_response q RCODE_NOTIMP [] false true)
  else
    let '(rcode, answers) := zone_answer zone q in
    let full := encode_response q rcode (take MAX_ANSWERS answers) false true in
    if is_udp && (MAX_UDP_RESPONSE_BYTES <? length full)%nat
    then Some (encode_response q rcode [] true true)
    else Some full.

Definition ends_with (suffix s : string) : bool := bool_decide (bytes suffix `suffix_of` bytes s).

Definition is_authoritative_name (name : string) : bool :=
  bool_decide (name = "jiji") || ends_with ".jiji" name.

(** [ask] is what comes back from a forwarder, if anything does in time. *)
Fixpoint forward_query {F} (ask : F → list ascii → option (list ascii)) (query_bytes : list ascii)
    (forwarders : list F) : option (list ascii) :=
  match forwarders with
  | [] => None
  | forwarder :: forwarders =>
      match ask forwarder query_bytes with
      | Some datagram => Some (take RECV_BYTES datagram)
      | None => forward_query ask query_bytes forwarders
      end
  end.

Definition handle_query {F} (ask : F → list ascii → option (list ascii)) (buf : list ascii)
    (zone : Zone) (forwarders : list F) (is_udp : bool) : option (list ascii) :=
  q ← parse_query buf;
  if is_authoritative_name (q_name q) then respond buf zone is_udp
  else
    match forward_query ask buf forwarders with
    | Some response => Some response
    | None => Some (encode_response q RCODE_SERVFAIL [] false false)
    end.

(** What [serve_tcp_connection] writes for a response. *)
Definition tcp_frame (response : list ascii) : list ascii :=
  u16_to_be (N.of_nat (length response)) ++ response.

(** ** The zone *)

Definition aggregate_name (project service : string) : string := project +:+ "-" +:+ service +:+ ".jiji".
Definition server_name_of (project service node : string) : string :=
  project +:+ "-" +:+ service +:+ "-" +:+ node +:+ ".jiji".

(** [zone.entry(name).or_default().push(address)]. *)
Definition push_address (zone : Zone) (name : string) (address : N) : Zone :=
  <[name := default [] (zone !! name) ++ [address]]> zone.

Definition zone_step (project : string) (reachable : string → bool) (zone : Zone)
    (r : CatalogRecord) : Zone :=
  if negb (reachable (owner_node_id r)) then zone
  else
    push_address
      (push_address zone (aggregate_name project (Catalog.service r)) (Catalog.address r))
      (server_name_of project (Catalog.service r) (owner_node_id r)) (Catalog.address r).

Definition zone_from_records (project : string) (records : list CatalogRecord)
    (reachable : string → bool) : Zone :=
  foldl (zone_step project reachable) ∅ records.

Record DnsConfig := {
  dns_project_id : string;
  dns_recovery_epoch : N;
  dns_local_node_id : string;
  dns_reachability_timeout : N;
}.

Inductive DnsError :=
| DnsMembership (e : MembershipError)
| DnsCatalog (e : CatalogError).

Definition dns_scope (config : DnsConfig) : MembershipScope :=
  {| Membership.scope_project_id := dns_project_id config;
     Membership.scope_recovery_epoch := dns_recovery_epoch config |}.

(** A node is reachable when it is this one or was seen within the timeout. *)
Definition reachable (config : DnsConfig) (liveness : gmap string N) (now : N) (node : string) : bool :=
  bool_decide (node = dns_local_node_id config)
  || match liveness !! node with
     | Some seen_at => saturating_sub now seen_at <=? dns_reachability_timeout config
     | None => false
     end.

Section zone.
Context `{ContentHash MembershipRecord, ContentHash CatalogRecord}.

Definition build_zone (mlog : Log MembershipRecord) (clog : Log CatalogRecord)
    (liveness : gmap string N) (now : N) (config : DnsConfig) : result DnsError Zone :=
  let? members := map_err DnsMembership
    (Membership.from_records (membership_operations mlog) (dns_scope config)) in
  let? catalog := map_err DnsCatalog
    (Catalog.from_records (verified (catalog_operations clog))
       {| Catalog.scope_project := dns_project_id config; Catalog.scope_epoch := dns_recovery_epoch config;
          Catalog.scope_members := members |}) in
  Ok (zone_from_records (dns_project_id config) (active_healthy catalog)
        (reachable config liveness now)).
End zone.

(** ** A client's reading of a response *)

Record Response := {
  resp_id : N;
  resp_is_response : bool;
  resp_opcode : N;
  resp_authoritative : bool;
  resp_truncated : bool;
  resp_recursion_desired : bool;
  resp_rcode : N;
  resp_name : string;
  resp_qtype : N;
  resp_qclass : N;
  resp_answers : list N;
}.

Definition u32_from_be (a b c d : ascii) : N :=
  ((N_of_ascii a * 256 + N_of_ascii b) * 256 + N_of_ascii c) * 256 + N_of_ascii d.

(** [count] address records that point back to the question and nothing behind them. *)
Fixpoint decode_answers (count : nat) (l : list ascii) : option (list N) :=
  match count, l with
  | O, [] => Some []
  | S count, p0 :: p1 :: t0 :: t1 :: c0 :: c1 :: _ :: _ :: _ :: _ :: l0 :: l1 :: a0 :: a1 :: a2 :: a3 :: l =>
      if (u16_from_be p0 p1 =? 49164) && (u16_from_be t0 t1 =? QTYPE_A)
         && (u16_from_be c0 c1 =? QCLASS_IN) && (u16_from_be l0 l1 =? 4)
      then cons (u32_from_be a0 a1 a2 a3) <$> decode_answers count l
      else None
  | _, _ => None
  end.

Definition decode_response (buf : list ascii) : option Response :=
  match buf with
  | b0 :: b1 :: b2 :: b3 :: b4 :: b5 :: b6 :: b7 :: _ =>
      let flags := N_of_ascii b2 in
      if negb (u16_from_be b4 b5 =? 1) then None
      else
        match parse_labels LABEL_TURNS buf QUESTION_START [] with
        | LabelsDone labels offset =>
            qtype ← get_u16 buf offset;
            qclass ← get_u16 buf (offset + 2);
            answers ← decode_answers (N.to_nat (u16_from_be b6 b7)) (drop (offset + 4) buf);
            Some {| resp_id := u16_from_be b0 b1; resp_is_response := N.testbit flags 7;
                    resp_opcode := N.land (N.shiftr flags 3) 15;
                    resp_authoritative := N.testbit flags 2;
                    resp_truncated := N.testbit flags 1;
                    resp_recursion_desired := N.testbit flags 0;
                    resp_rcode := N.land (N_of_ascii b3) 15;
                    resp_name := String.concat "." labels; resp_qtype := qtype;
                    resp_qclass := qclass; resp_answers := answers |}
        | _ => None
        end
  | _ => None
  end.

(** ** Lemmas *)

(** *** Questions *)

(** The loop over the labels ends: every turn takes a label and 33 of them is the most. *)
Lemma parse_labels_terminates fuel buf offset labels :
  (length labels ≤ 33)%nat → (34 ≤ fuel + length labels)%nat →
  parse_labels fuel buf offset labels ≠ LabelsOutOfFuel.
Proof.
  revert offset labels. induction fuel as [|fuel IH]; intros offset labels Hl Hf; [lia|].
  cbn [parse_labels]. destruct (buf !! offset); [|done]. destruct (_ =? 0)%nat; [done|].
  destruct (63 <? _)%nat; [done|]. destruct (Nat.ltb_spec 32 (length labels)); [done|].
  cbn [orb]. destruct (slice _ _ _); [|done]. apply IH; rewrite length_app; simpl; lia.
Qed.

Lemma parse_labels_bounds fuel buf offset labels labels' offset' :
  parse_labels fuel buf offset labels = LabelsDone labels' offset' →
  (offset < offset')%nat ∧ (offset' ≤ length buf)%nat ∧
  (length labels' ≤ length labels + 33)%nat ∧ (length labels ≤ length labels')%nat ∧
  (length labels ≤ 33 → length labels' ≤ 33)%nat ∧
  (offset' ≤ offset + 64 * (length labels' - length labels) + 1)%nat.
Proof.
  revert offset labels. induction fuel as [|fuel IH]; intros offset labels; cbn [parse_labels]; [done|].
  destruct (buf !! offset) as [c|] eqn:Hc; [|done]. apply lookup_lt_Some in Hc.
  destruct (_ =? 0)%nat eqn:E0.
  { intros [= <- <-]. lia. }
  destruct (Nat.ltb_spec 63 (N.to_nat (N_of_ascii c))); [done|].
  destruct (Nat.ltb_spec 32 (length labels)); [done|]. cbn [orb].
  destruct (slice _ _ _) as [label|] eqn:Hs; [|done]. apply slice_Some in Hs as (_ & _ & Hlen & _).
  apply Nat.eqb_neq in E0.
  intros Hp%IH. rewrite length_app in Hp. simpl in Hp. lia.
Qed.

(** Only the bytes of the question matter. *)
Lemma parse_labels_agree fuel buf buf' offset labels labels' offset' :
  parse_labels fuel buf offset labels = LabelsDone labels' offset' →
  (∀ i, offset ≤ i → i < offset' → buf' !! i = buf !! i)%nat →
  parse_labels fuel buf' offset labels = LabelsDone labels' offset'.
Proof.
  revert offset labels. induction fuel as [|fuel IH]; intros offset labels Hp Hag; [done|].
  pose proof (parse_labels_bounds _ _ _ _ _ _ Hp) as (Hlt & _).
  cbn [parse_labels] in *. rewrite Hag by lia.
  destruct (buf !! offset) as [c|] eqn:Hc; [|done]. destruct (_ =? 0)%nat; [done|].
  destruct (_ || _); [done|]. destruct (slice buf _ _) as [label|] eqn:Hs; [|done].
  pose proof (parse_labels_bounds _ _ _ _ _ _ Hp) as (Hlt' & _).
  apply slice_Some in Hs as (-> & H1 & H2 & _).
  set (e := (offset + 1 + N.to_nat (N_of_ascii c))%nat) in *.
  assert (e ≤ length buf')%nat as Hlen.
  { destruct (decide (e ≤ offset + 1)%nat) as [Hle|Hgt].
    - assert (is_Some (buf' !! offset)) as Hi%lookup_lt_is_Some by (rewrite Hag by lia; eauto). lia.
    - assert (is_Some (buf' !! (e - 1)%nat)) as Hi%lookup_lt_is_Some; [|lia].
      rewrite Hag by lia. apply lookup_lt_is_Some. lia. }
  rewrite (slice_agree buf) with (l := take (e - (offset + 1)) (drop (offset + 1) buf)).
  - apply IH; [done|]. intros i ? ?. apply Hag; lia.
  - unfold slice. by rewrite bool_decide_true by lia.
  - done.
  - intros i ? ?. apply Hag; lia.
Qed.

Lemma parse_query_inv buf q :
  parse_query buf = Some q →
  ∃ labels offset, parse_labels LABEL_TURNS buf QUESTION_START [] = LabelsDone labels offset ∧
    q_name q = String.concat "." labels ∧ get_u16 buf offset = Some (q_qtype q) ∧
    get_u16 buf (offset + 2) = Some (q_qclass q) ∧
    slice buf QUESTION_START (offset + 4) = Some (q_question_bytes q) ∧
    q_id q < 65536 ∧ q_opcode q < 16.
Proof.
  unfold parse_query. destruct buf as [|b0 [|b1 [|b2 [|b3 [|b4 [|b5 rest]]]]]]; try done.
  set (buf := b0 :: _). destruct (_ <? 12)%nat; [done|]. destruct (negb _); [done|].
  destruct (parse_labels _ _ _ _) as [labels offset| |] eqn:Hl; [|done..].
  destruct (get_u16 buf offset) as [ty|] eqn:Ht; [|done]. simpl.
  destruct (get_u16 buf (offset + 2)) as [cl|] eqn:Hc; [|done]. simpl.
  destruct (slice buf QUESTION_START (offset + 4)) as [qb|] eqn:Hq; [|done]. simpl. intros [= <-].
  exists labels, offset. simpl. split_and!; try done; [apply u16_from_be_bound|].
  change 15 with (N.ones 4). rewrite N.land_ones. by apply N.mod_lt.
Qed.

(** A question has 33 labels of 63 bytes at most. *)
Lemma question_bytes_bound buf q : parse_query buf = Some q → (length (q_question_bytes q) ≤ 2117)%nat.
Proof.
  intros (labels & offset & Hl & _ & _ & _ & Hs & _)%parse_query_inv.
  apply parse_labels_bounds in Hl. simpl in Hl. apply slice_Some in Hs. unfold QUESTION_START in *. lia.
Qed.

(** *** Responses *)

Lemma length_encode_answer a : length (encode_answer a) = 16%nat.
Proof. done. Qed.

Lemma length_encode_response q rcode answers t a :
  length (encode_response q rcode answers t a)
  = (12 + length (q_question_bytes q) + 16 * length answers)%nat.
Proof.
  unfold encode_response. rewrite !length_app. simpl. 
  assert (length (mjoin (encode_answer <$> answers)) = (16 * length answers)%nat) as ->; [|lia].
  induction answers as [|x l IH]; [done|].
  rewrite fmap_cons, mjoin_cons, length_app, IH, length_encode_answer. simpl. lia.
Qed.

Lemma u32_be_roundtrip n : n < 2 ^ 32 →
  u32_from_be (ascii_of_N ((n / 16777216) mod 256)) (ascii_of_N ((n / 65536) mod 256))
    (ascii_of_N ((n / 256) mod 256)) (ascii_of_N (n mod 256)) = n.
Proof.
  intros Hn. unfold u32_from_be. rewrite !N_ascii_small by (apply N.mod_lt; lia).
  rewrite (N.mod_small (n / 16777216)) by (apply N.Div0.div_lt_upper_bound; lia).
  change 16777216 with (256 * 65536). change 65536 with (256 * 256). rewrite <-!N.Div0.div_div.
  pose proof (N.div_mod n 256 ltac:(done)). pose proof (N.div_mod (n / 256) 256 ltac:(done)).
  pose proof (N.div_mod (n / 256 / 256) 256 ltac:(done)). lia.
Qed.

Lemma decode_encode_answers answers :
  Forall (λ a, a < 2 ^ 32) answers →
  decode_answers (length answers) (mjoin (encode_answer <$> answers)) = Some answers.
Proof.
  induction 1 as [|a l Ha _ IH]; [done|].
  rewrite fmap_cons, mjoin_cons. unfold encode_answer at 1, u16_to_be, u32_to_be.
  cbn [app decode_answers length]. rewrite IH, (u32_be_roundtrip a Ha). done.
Qed.

(** The flags of a response carry what they are made of. *)
Definition flags_ok (op : N) (t a r : bool) : bool :=
  let f := N.lor (N.lor (N.lor (N.lor 128 (N.shiftl op 3 mod 256)) (flag a 4)) (flag t 2)) (flag r 1) in
  (f <? 256) && N.testbit f 7 && (N.land (N.shiftr f 3) 15 =? op) && eqb (N.testbit f 2) a
  && eqb (N.testbit f 1) t && eqb (N.testbit f 0) r.

Lemma response_flags_ok op t a r : op < 16 → flags_ok op t a r = true.
Proof.
  intros Hop. apply (N_below_forallb 16 (λ op, flags_ok op t a r)); [|done].
  destruct t, a, r; by vm_compute.
Qed.

(** What a client reads out of a response. *)
Definition read_back (q : ParsedQuery) (rcode : N) (answers : list N) (t a : bool) : Response :=
  {| resp_id := q_id q; resp_is_response := true; resp_opcode := q_opcode q;
     resp_authoritative := a; resp_truncated := t;
     resp_recursion_desired := q_recursion_desired q; resp_rcode := rcode;
     resp_name := q_name q; resp_qtype := q_qtype q; resp_qclass := q_qclass q;
     resp_answers := answers |}.

Lemma decode_encode_response buf q rcode answers t a :
  parse_query buf = Some q → rcode < 16 → (length answers ≤ 64)%nat → Forall (λ x, x < 2 ^ 32) answers →
  decode_response (encode_response q rcode answers t a) = Some (read_back q rcode answers t a).
Proof.
  intros Hq Hr Hn Ha. pose proof (length_encode_response q rcode answers t a) as Hlen.
  destruct (parse_query_inv _ _ Hq) as (labels & offset & Hl & Hname & Hty & Hcl & Hqb & Hid & Hop).
  pose proof (response_flags_ok _ t a (q_recursion_desired q) Hop) as Hfl.
  set (out := encode_response q rcode answers t a) in *.
  assert (∀ i, 12 ≤ i → i < offset + 4 → out !! i = buf !! i)%nat as Hag.
  { intros i H1 H2. apply slice_Some in Hqb as (Hqb & H3 & H4 & H5). unfold QUESTION_START in *.
    transitivity (q_question_bytes q !! (i - 12)%nat).
    - unfold out, encode_response, u16_to_be. cbn [app].
      do 12 (destruct i as [|i]; [lia|]). simpl. rewrite lookup_app_l by lia. f_equal. lia.
    - rewrite Hqb, lookup_take_lt, lookup_drop by lia. f_equal. lia. }
  assert (drop (offset + 4) out = mjoin (encode_answer <$> answers)) as Hdrop.
  { apply slice_Some in Hqb as (_ & H3 & H4 & H5). unfold QUESTION_START in *.
    unfold out, encode_response, u16_to_be. cbn [app].
    replace (offset + 4)%nat with (12 + length (q_question_bytes q))%nat by lia.
    simpl. apply drop_app_length. }
  apply slice_Some in Hqb as (_ & H3 & H4 & H5). unfold QUESTION_START in *.
  pose proof (parse_labels_agree _ _ out _ _ _ _ Hl ltac:(intros; apply Hag; lia)) as Hl'.
  pose proof (get_u16_agree _ out _ _ Hty ltac:(lia) ltac:(intros; apply Hag; pose proof (parse_labels_bounds _ _ _ _ _ _ Hl); lia)) as Hty'.
  pose proof (get_u16_agree _ out _ _ Hcl ltac:(lia) ltac:(intros; apply Hag; pose proof (parse_labels_bounds _ _ _ _ _ _ Hl); lia)) as Hcl'.
  assert (∃ rest, out = ascii_of_N ((q_id q / 256) mod 256) :: ascii_of_N (q_id q mod 256)
    :: ascii_of_N (response_flags q t a) :: ascii_of_N (N.land rcode 15)
    :: ascii_of_N 0 :: ascii_of_N 1 :: ascii_of_N ((N.of_nat (length answers) / 256) mod 256)
    :: ascii_of_N (N.of_nat (length answers) mod 256) :: rest) as [rest Hout] by (by eexists).
  unfold decode_response. rewrite Hout at 1. cbv beta iota zeta.
  change (u16_from_be (ascii_of_N 0) (ascii_of_N 1)) with 1. cbn [negb N.eqb Pos.eqb].
  unfold QUESTION_START. rewrite Hl'. cbv beta iota. rewrite Hty', Hcl', Hdrop.
  destruct (u16_be_roundtrip (N.of_nat (length answers)) ltac:(lia)) as (x & y & [= <- <-] & ->).
  destruct (u16_be_roundtrip (q_id q) Hid) as (x & y & [= <- <-] & ->).
  rewrite Nat2N.id, (decode_encode_answers _ Ha). cbn. unfold read_back. rewrite <-Hname.
  unfold flags_ok in Hfl. fold (response_flags q t a) in Hfl.
  rewrite !andb_true_iff in Hfl. destruct Hfl as [[[[[F1%N.ltb_lt F2] F3%N.eqb_eq] F4%eqb_prop] F5%eqb_prop] F6%eqb_prop].
  rewrite (N_ascii_small _ F1), F2, F3, F4, F5, F6.
  assert (N.land rcode 15 = rcode) as Hrc.
  { change 15 with (N.ones 4). rewrite N.land_ones. by apply N.mod_small. }
  rewrite Hrc, (N_ascii_small rcode), Hrc by lia. done.
Qed.

Lemma decode_encode_empty buf q rcode t a :
  parse_query buf = Some q → rcode < 16 →
  decode_response (encode_response q rcode [] t a) = Some (read_back q rcode [] t a).
Proof. intros Hq Hr. apply (decode_encode_response buf); [done|done|simpl; lia|constructor]. Qed.

(** *** The zone *)

Lemma push_address_elem zone name a name' a' :
  a' ∈ default [] (push_address zone name a !! name') ↔
  a' ∈ default [] (zone !! name') ∨ (name = name' ∧ a' = a).
Proof.
  unfold push_address. destruct (decide (name = name')) as [<-|Hne].
  - rewrite lookup_insert_eq. simpl. rewrite elem_of_app, list_elem_of_singleton. naive_solver.
  - rewrite lookup_insert_ne by done. naive_solver.
Qed.

(** The names a record is served under. *)
Definition served_under (project : string) (r : CatalogRecord) (name : string) : Prop :=
  name = aggregate_name project (Catalog.service r) ∨
  name = server_name_of project (Catalog.service r) (owner_node_id r).

Lemma zone_from_records_elem project records live name a :
  a ∈ default [] (zone_from_records project records live !! name) ↔
  ∃ r, r ∈ records ∧ live (owner_node_id r) = true ∧ served_under project r name ∧ a = Catalog.address r.
Proof.
  unfold zone_from_records.
  assert (∀ zone, a ∈ default [] (foldl (zone_step project live) zone records !! name) ↔
    a ∈ default [] (zone !! name) ∨
    ∃ r, r ∈ records ∧ live (owner_node_id r) = true ∧ served_under project r name ∧
      a = Catalog.address r) as Hgen.
  { induction records as [|r records IH]; intros zone; cbn [foldl].
    - split; [by left|]. intros [?|(r & ?%elem_of_nil & _)]; done.
    - rewrite IH. setoid_rewrite elem_of_cons. unfold zone_step.
      destruct (live (owner_node_id r)) eqn:El; cbn [negb].
      + rewrite !push_address_elem. unfold served_under. naive_solver.
      + naive_solver congruence. }
  rewrite Hgen, lookup_empty. simpl. set_solver.
Qed.

(** The reachability of nodes does not enter the replay. *)
Lemma build_zone_replayed `{ContentHash MembershipRecord, ContentHash CatalogRecord}
    mlog clog liveness now config mscope cscope mv cv :
  mscope = dns_scope config → mlog_ok mscope mlog mv →
  Catalog.scope_project cscope = dns_project_id config →
  Catalog.scope_epoch cscope = dns_recovery_epoch config → clog_ok cscope clog cv →
  build_zone mlog clog liveness now config =
  Ok (zone_from_records (dns_project_id config) (active_healthy cv) (reachable config liveness now)).
Proof.
  intros -> Hm Hp He Hc. unfold build_zone. rewrite (mo_replay _ _ _ Hm). cbn [map_err].
  rewrite (co_replay _ _ _ Hc); [done|]. by split.
Qed.

(** *** Names *)

Lemma bytes_concat sep l c :
  c ∈ bytes (String.concat sep l) → c ∈ bytes sep ∨ ∃ s, s ∈ l ∧ c ∈ bytes s.
Proof.
  induction l as [|x [|y l] IH]; simpl; [by intros ?%elem_of_nil|intros ?; right; exists x; set_solver|].
  rewrite !bytes_app, !elem_of_app. intros [Hc|[Hc|Hc]]; [|by left|].
  - right. exists x. split; [apply list_elem_of_here|done].
  - destruct (IH Hc) as [?|(s & Hs & ?)]; [by left|]. right. exists s. split; [by right|done].
Qed.

Lemma parse_labels_lowercase fuel buf offset labels labels' offset' :
  parse_labels fuel buf offset labels = LabelsDone labels' offset' →
  (∀ s c, s ∈ labels → c ∈ bytes s → is_ascii_uppercase c = false) →
  ∀ s c, s ∈ labels' → c ∈ bytes s → is_ascii_uppercase c = false.
Proof.
  revert offset labels. induction fuel as [|fuel IH]; intros offset labels; cbn [parse_labels]; [done|].
  destruct (buf !! offset); [|done]. destruct (_ =? 0)%nat; [by intros [= <- <-]|].
  destruct (_ || _); [done|]. destruct (slice _ _ _) as [label|]; [|done].
  intros Hp Hl. eapply IH; [exact Hp|]. intros s c [Hs| ->%list_elem_of_singleton]%elem_of_app; [by apply Hl|].
  unfold str_to_ascii_lowercase. rewrite bytes_of_bytes.
  intros (d & -> & _)%list_elem_of_fmap. apply to_ascii_lowercase_not_upper.
Qed.

Lemma query_name_lowercase buf q c :
  parse_query buf = Some q → c ∈ bytes (q_name q) → is_ascii_uppercase c = false.
Proof.
  intros (labels & offset & Hl & -> & _)%parse_query_inv [Hc|(s & Hs & Hc)]%bytes_concat.
  - apply list_elem_of_singleton in Hc as ->. done.
  - eapply parse_labels_lowercase; [exact Hl| |done..]. by intros ? ? ?%elem_of_nil.
Qed.

(** *** A client's query *)

(** The question as a resolver writes it. *)
Definition encode_labels (labels : list string) : list ascii :=
  mjoin ((λ l, ascii_of_N (N.of_nat (length (bytes l))) :: bytes l) <$> labels) ++ [ascii_of_N 0].
Definition encode_query (id : N) (recursion_desired : bool) (labels : list string) (qtype : N) : list ascii :=
  u16_to_be id ++ [ascii_of_N (flag recursion_desired 1); ascii_of_N 0]
  ++ u16_to_be 1 ++ u16_to_be 0 ++ u16_to_be 0 ++ u16_to_be 0
  ++ encode_labels labels ++ u16_to_be qtype ++ u16_to_be QCLASS_IN.

(** A label of a host name. *)
Definition label_ok (s : string) : Prop :=
  (1 ≤ length (bytes s) ≤ 63)%nat ∧ Forall (λ c, is_ascii c = true) (bytes s).

Lemma parse_encoded_labels fuel pre labels post acc :
  Forall label_ok labels → (length acc + length labels ≤ 33)%nat → (length labels < fuel)%nat →
  parse_labels fuel (pre ++ encode_labels labels ++ post) (length pre) acc =
  LabelsDone (acc ++ (str_to_ascii_lowercase <$> labels)) (length pre + length (encode_labels labels)).
Proof.
  intros Hl. revert fuel pre acc. induction Hl as [|s labels [Hlen Hs] Hl IH]; intros fuel pre acc Hn Hf;
    destruct fuel as [|fuel]; try (simpl in Hf; lia).
  - cbn [parse_labels]. rewrite lookup_app_r, Nat.sub_diag by lia. simpl. by rewrite app_nil_r.
  - simpl in Hn, Hf. unfold encode_labels. rewrite fmap_cons, mjoin_cons.
    set (tail := mjoin ((λ l, _) <$> labels)).
    assert (encode_labels labels = tail ++ [ascii_of_N 0]) as Het by done.
    replace (pre ++ (((ascii_of_N (N.of_nat (length (bytes s))) :: bytes s) ++ tail) ++ [ascii_of_N 0]) ++ post)
      with ((pre ++ [ascii_of_N (N.of_nat (length (bytes s)))]) ++ bytes s ++ (encode_labels labels ++ post)).
    2:{ rewrite Het, <-!app_assoc. done. }
    set (pre1 := pre ++ [_]). assert (length pre1 = length pre + 1)%nat as Hp1 by (unfold pre1; by rewrite length_app).
    cbn [parse_labels].
    assert ((pre1 ++ bytes s ++ encode_labels labels ++ post) !! length pre
            = Some (ascii_of_N (N.of_nat (length (bytes s))))) as ->.
    { unfold pre1. rewrite <-app_assoc, lookup_app_r, Nat.sub_diag by lia. done. }
    rewrite N_ascii_small, Nat2N.id by lia.
    destruct (Nat.eqb_spec (length (bytes s)) 0); [lia|].
    destruct (Nat.ltb_spec 63 (length (bytes s))); [lia|].
    destruct (Nat.ltb_spec 32 (length acc)); [lia|]. cbn [orb].
    rewrite <-Hp1, slice_app, <-length_app.
    rewrite from_utf8_lossy_ascii, of_bytes_bytes by done.
    rewrite app_assoc. rewrite IH; [|rewrite ?length_app; simpl; lia..].
    rewrite fmap_cons, <-app_assoc. f_equal. rewrite Het, !length_app, Hp1. simpl.
    rewrite ?length_app. simpl. lia.
Qed.

Lemma forward_query_length {F} (ask : F → list ascii → option (list ascii)) buf forwarders out :
  forward_query ask buf forwarders = Some out → (length out ≤ RECV_BYTES)%nat.
Proof.
  induction forwarders as [|f l IH]; [done|]. cbn [forward_query]. destruct (ask f buf); [|done].
  intros [= <-]. rewrite length_take. lia.
Qed.

Lemma respond_length buf zone is_udp out q :
  parse_query buf = Some q → respond buf zone is_udp = Some out →
  (length out ≤ 12 + length (q_question_bytes q) + 16 * MAX_ANSWERS)%nat.
Proof.
  intros Hq. unfold respond. rewrite Hq. cbn [mbind option_bind].
  destruct (negb _); [|destruct (negb _); [|destruct (zone_answer _ _) as [rc l]; destruct (_ && _)]];
    intros [= <-]; rewrite length_encode_response, ?length_take; cbn [length]; unfold MAX_ANSWERS; lia.
Qed.

Lemma reachable_true config liveness now node :
  reachable config liveness now node = true ↔
  node = dns_local_node_id config ∨
  ∃ seen, liveness !! node = Some seen ∧ now - seen ≤ dns_reachability_timeout config.
Proof.
  unfold reachable, saturating_sub. rewrite orb_true_iff, bool_decide_eq_true.
  destruct (liveness !! node) as [seen|]; [rewrite N.leb_le|]; naive_solver.
Qed.

Lemma all_latest `{ContentHash CatalogRecord} scope clog cv r :
  clog_ok scope clog cv → r ∈ all cv ↔ r ∈ latest_catalog clog.
Proof.
  intros Hc. unfold all, latest_catalog. rewrite elem_of_btree_values, list_elem_of_fmap.
  setoid_rewrite (co_winners _ _ _ Hc). setoid_rewrite elem_of_sort_by. split.
  - intros (d & id & Hw). exists (d, (id, r)). split; [done|]. by apply elem_of_map_to_list.
  - intros ([d [id r']] & -> & Hin%elem_of_map_to_list). by exists d, id.
Qed.

Module DnsProps.

(** C30: What the resolver answers is what a client reads.  For every message it can parse,
    over either transport, it sends a response that decodes to the identifier, the flags
    and the question of the query.  A query of another operation or class is not
    implemented; otherwise the name is denied exactly when the zone does not have it, and a
    question for addresses is answered with the first 64 addresses of the name, unless the
    transport is UDP and they do not fit: then there is none and the truncation bit tells
    the client to come back over TCP. *)
Theorem respond_is_read_back buf zone is_udp q :
  map_Forall (λ _ addresses, Forall (λ a, a < 2 ^ 32) addresses) zone →
  parse_query buf = Some q →
  ∃ out rcode answers truncated,
    respond buf zone is_udp = Some out ∧
    decode_response out = Some (read_back q rcode answers truncated true) ∧
    (q_opcode q ≠ 0 ∨ q_qclass q ≠ QCLASS_IN →
       rcode = RCODE_NOTIMP ∧ answers = [] ∧ truncated = false) ∧
    (q_opcode q = 0 → q_qclass q = QCLASS_IN →
       let wanted := if (q_qtype q =? QTYPE_A) || (q_qtype q =? QTYPE_ANY)
                     then take MAX_ANSWERS (default [] (zone !! q_name q)) else [] in
       (rcode = RCODE_NXDOMAIN ↔ zone !! q_name q = None) ∧
       (is_Some (zone !! q_name q) → rcode = RCODE_NOERROR) ∧
       (if truncated
        then is_udp = true ∧ answers = [] ∧
             (512 < 12 + length (q_question_bytes q) + 16 * length wanted)%nat
        else answers = wanted ∧ (is_udp = true → length out ≤ 512)%nat)).
Proof.
  intros Hz Hq. unfold respond. rewrite Hq. cbn [mbind option_bind].
  destruct (N.eqb_spec (q_opcode q) 0) as [Hop|Hop]; cbn [negb].
  2:{ exists (encode_response q RCODE_NOTIMP [] false true), RCODE_NOTIMP, [], false.
      split_and!; [done|by apply (decode_encode_empty buf)|done|lia]. }
  destruct (N.eqb_spec (q_qclass q) QCLASS_IN) as [Hcl|Hcl]; cbn [negb].
  2:{ exists (encode_response q RCODE_NOTIMP [] false true), RCODE_NOTIMP, [], false.
      split_and!; [done|by apply (decode_encode_empty buf)|done|done]. }
  assert (∃ rcode addrs, zone_answer zone q = (rcode, addrs) ∧ rcode < 16 ∧
    Forall (λ a, a < 2 ^ 32) addrs ∧
    addrs = (if (q_qtype q =? QTYPE_A) || (q_qtype q =? QTYPE_ANY)
             then default [] (zone !! q_name q) else []) ∧
    (rcode = RCODE_NXDOMAIN ↔ zone !! q_name q = None) ∧
    (is_Some (zone !! q_name q) → rcode = RCODE_NOERROR)) as (rcode & addrs & -> & Hr & Ha & Haddrs & Hnx & Hne).
  { unfold zone_answer. destruct (zone !! q_name q) as [l|] eqn:El.
    - exists RCODE_NOERROR. destruct (_ || _); eexists; (split; [done|split; [done|]]);
        (split; [first [by apply (Hz _ _ El)|constructor]|]); split_and!; done.
    - exists RCODE_NXDOMAIN, []. split_and!; try done; first [by destruct (_ || _)|by intros [? [=]]]. }
  set (wanted := take MAX_ANSWERS addrs).
  assert (length wanted ≤ 64)%nat as Hw by (unfold wanted, MAX_ANSWERS; rewrite length_take; lia).
  assert (Forall (λ a, a < 2 ^ 32) wanted) as Haw by by apply Forall_take.
  assert (wanted = if (q_qtype q =? QTYPE_A) || (q_qtype q =? QTYPE_ANY)
             then take MAX_ANSWERS (default [] (zone !! q_name q)) else []) as <-.
  { unfold wanted. rewrite Haddrs. by destruct (_ || _). }
  pose proof (length_encode_response q rcode wanted false true) as Hlen.
  destruct (is_udp && _) eqn:Eu.
  - apply andb_true_iff in Eu as [-> Hlt%Nat.ltb_lt].
    exists (encode_response q rcode [] true true), rcode, [], true.
    split_and!; [done|by apply (decode_encode_empty buf)|by intros [?|?]|].
    intros _ _. cbv zeta. split_and!; try done; [apply Hnx..|]. unfold MAX_UDP_RESPONSE_BYTES in Hlt. lia.
  - exists (encode_response q rcode wanted false true), rcode, wanted, false.
    split_and!; [done|by apply (decode_encode_response buf)|by intros [?|?]|].
    intros _ _. cbv zeta. split_and!; try done; [apply Hnx..|]. intros ->. simpl in Eu.
    apply Nat.ltb_ge in Eu. done.
Qed.

(** A well-formed query is understood.  Whatever host name a client asks for, in labels of
    ASCII characters, up to the 33 labels the resolver takes, the message parses to the
    identifier, the type and the name in lower case; the loop over its labels, and over
    the bytes of any message at all, ends. *)
Theorem queries_are_understood id rd labels qtype :
  id < 65536 → qtype < 65536 → Forall label_ok labels → (length labels ≤ 33)%nat →
  (∃ q, parse_query (encode_query id rd labels qtype) = Some q ∧
     q_id q = id ∧ q_opcode q = 0 ∧ q_recursion_desired q = rd ∧ q_qtype q = qtype ∧
     q_qclass q = QCLASS_IN ∧ q_name q = String.concat "." (str_to_ascii_lowercase <$> labels)) ∧
  ∀ buf, parse_labels LABEL_TURNS buf QUESTION_START [] ≠ LabelsOutOfFuel.
Proof.
  intros Hid Hty Hl Hn. split; [|intros buf; apply parse_labels_terminates; unfold LABEL_TURNS; simpl; lia].
  set (buf := encode_query id rd labels qtype).
  set (hdr := u16_to_be id ++ [ascii_of_N (flag rd 1); ascii_of_N 0]
     ++ u16_to_be 1 ++ u16_to_be 0 ++ u16_to_be 0 ++ u16_to_be 0).
  set (off := (12 + length (encode_labels labels))%nat).
  assert (buf = hdr ++ encode_labels labels ++ u16_to_be qtype ++ u16_to_be QCLASS_IN) as Hbuf.
  { unfold buf, encode_query, hdr. by rewrite <-!app_assoc. }
  assert (parse_labels LABEL_TURNS buf QUESTION_START [] =
          LabelsDone (str_to_ascii_lowercase <$> labels) off) as Hp.
  { rewrite Hbuf. change QUESTION_START with (length hdr).
    rewrite parse_encoded_labels; [done|done|simpl; lia|unfold LABEL_TURNS; lia]. }
  assert (get_u16 buf off = Some qtype) as Ht.
  { rewrite Hbuf, (app_assoc hdr). unfold off. change 12%nat with (length hdr). rewrite <-length_app.
    by apply get_u16_app. }
  assert (get_u16 buf (off + 2) = Some QCLASS_IN) as Hc.
  { rewrite Hbuf, !(app_assoc), <-(app_nil_r (_ ++ u16_to_be QCLASS_IN)), <-(app_assoc _ (u16_to_be QCLASS_IN)).
    unfold off. change 12%nat with (length hdr). change 2%nat with (length (u16_to_be qtype)).
    rewrite <-!length_app. by apply get_u16_app. }
  assert (length buf = off + 4)%nat as Hlen.
  { rewrite Hbuf, !length_app. unfold off. simpl. lia. }
  assert (slice buf QUESTION_START (off + 4) = Some (drop 12 buf)) as Hs.
  { unfold slice, QUESTION_START. rewrite bool_decide_true by (unfold off in *; lia).
    rewrite take_ge; [done|]. rewrite length_drop. lia. }
  assert (∃ rest, buf = ascii_of_N ((id / 256) mod 256) :: ascii_of_N (id mod 256)
    :: ascii_of_N (flag rd 1) :: ascii_of_N 0 :: ascii_of_N 0 :: ascii_of_N 1 :: rest) as [rest Hb]
    by (by eexists).
  eexists. split.
  - unfold parse_query. rewrite Hb at 1. cbv beta iota zeta.
    assert ((length buf <? 12)%nat = false) as -> by (apply Nat.ltb_ge; unfold off in *; lia).
    change (u16_from_be (ascii_of_N 0) (ascii_of_N 1)) with 1. cbn [negb N.eqb Pos.eqb].
    rewrite Hp. cbv beta iota. rewrite Ht, Hc, Hs. reflexivity.
  - cbn. destruct (u16_be_roundtrip id Hid) as (x & y & [= <- <-] & ->).
    split_and!; try done; by destruct rd.
Qed.

(** C31: Responses fit their frames.  Whatever the message, the zone and the forwarders, a
    response is short enough that the two length bytes in front of it on a TCP stream give
    its length exactly; and over UDP what the resolver writes itself for its own zone has
    at most 512 bytes, or is the bare header and question. *)
Theorem responses_fit_their_frames {F} (ask : F → list ascii → option (list ascii)) buf zone
    forwarders is_udp out :
  handle_query ask buf zone forwarders is_udp = Some out →
  (∃ a b, tcp_frame out = a :: b :: out ∧ u16_from_be a b = N.of_nat (length out)) ∧
  (length out ≤ RECV_BYTES)%nat ∧
  (is_udp = true → respond buf zone is_udp = Some out →
     (length out ≤ MAX_UDP_RESPONSE_BYTES)%nat ∨
     ∃ q, parse_query buf = Some q ∧ length out = (12 + length (q_question_bytes q))%nat).
Proof.
  intros Hh. assert (length out ≤ RECV_BYTES)%nat as Hlen.
  { unfold handle_query in Hh. destruct (parse_query buf) as [q|] eqn:Hq; [|done]. cbn [mbind option_bind] in Hh.
    pose proof (question_bytes_bound _ _ Hq). unfold RECV_BYTES.
    destruct (is_authoritative_name _).
    - apply (respond_length _ _ _ _ q Hq) in Hh. unfold MAX_ANSWERS in Hh. lia.
    - destruct (forward_query _ _ _) as [r|] eqn:Ef; injection Hh as <-.
      + by apply forward_query_length in Ef.
      + rewrite length_encode_response. simpl. lia. }
  split; [|split; [done|]].
  - destruct (u16_be_roundtrip (N.of_nat (length out))) as (a & b & Hab & Hv);
      [unfold RECV_BYTES in Hlen; lia|].
    exists a, b. unfold tcp_frame. by rewrite Hab.
  - intros -> Hr. unfold respond in Hr. destruct (parse_query buf) as [q|] eqn:Hq; [|done].
    cbn [mbind option_bind] in Hr. destruct (negb _); [|destruct (negb _); [|destruct (zone_answer _ _) as [rc l]]].
    1,2: injection Hr as <-; right; exists q; split; [done|]; by rewrite length_encode_response.
    cbn [andb] in Hr. destruct (Nat.ltb_spec MAX_UDP_RESPONSE_BYTES
      (length (encode_response q rc (take MAX_ANSWERS l) false true))) as [Hlt|Hle];
      injection Hr as <-; [right; exists q; split; [done|]; by rewrite length_encode_response|by left].
Qed.

Section zone_props.
Context `{ContentHash MembershipRecord, ContentHash CatalogRecord}.

(** C32: The zone serves exactly the live replicas.  However the logs of a host came about,
    building the zone does not fail; there is one record per replica it is built from, the
    greatest active and healthy one; an address is served under a name exactly when it is
    the address of such a record, of a service and server with that name, whose node is
    this one or was seen within the timeout. *)
Theorem zone_serves_live_replicas mlog clog cscope liveness now config :
  rtc (OpLogProps.mstep (dns_scope config)) Log_empty mlog →
  rtc (OpLogProps.cstep cscope) Log_empty clog →
  Catalog.scope_project cscope = dns_project_id config →
  Catalog.scope_epoch cscope = dns_recovery_epoch config →
  ∃ zone best, build_zone mlog clog liveness now config = Ok zone ∧
    NoDup (replica_id <$> best) ∧
    (∀ r, r ∈ best → r ∈ latest_catalog clog ∧ is_active_healthy r = true ∧
       ∀ s, s ∈ latest_catalog clog → is_active_healthy s = true → replica_id s = replica_id r →
            leb (record_order s) (record_order r) = true) ∧
    (∀ s, s ∈ latest_catalog clog → is_active_healthy s = true →
       ∃ r, r ∈ best ∧ replica_id r = replica_id s) ∧
    ∀ name a, a ∈ default [] (zone !! name) ↔
      ∃ r, r ∈ best ∧ served_under (dns_project_id config) r name ∧ a = Catalog.address r ∧
        (owner_node_id r = dns_local_node_id config ∨
         ∃ seen, liveness !! owner_node_id r = Some seen ∧
                 now - seen ≤ dns_reachability_timeout config).
Proof.
  intros [mv Hm]%OpLogProps.reachable_membership [cv Hc]%OpLogProps.reachable_catalog Hp He.
  eexists _, (active_healthy cv). split; [by eapply build_zone_replayed|].
  assert (∀ r, r ∈ all cv ↔ r ∈ latest_catalog clog) as Hall by (intros r; by eapply all_latest).
  assert (∀ r, r ∈ filter (λ r, is_active_healthy r = true) (all cv) ↔
    r ∈ latest_catalog clog ∧ is_active_healthy r = true) as Hf.
  { intros r. rewrite list_elem_of_filter, Hall. tauto. }
  unfold active_healthy, active_healthy_winners. split_and!.
  - apply winners_unique.
  - intros r [Hin Hmax]%winners_spec. apply Hf in Hin as [??]. split_and!; try done.
    intros s ???. apply Hmax; [by apply Hf|done].
  - intros s ??. by apply winners_complete, Hf.
  - intros name a. rewrite zone_from_records_elem. setoid_rewrite reachable_true. naive_solver.
Qed.

(** The name of a server of one service can be the name of another service: a service
    [web] on the server [a] is also served under the name of the service [web-a], so
    clients of the one are sent to the other. *)
Theorem service_names_collide project service node records live r a :
  r ∈ records → Catalog.service r = service → owner_node_id r = node → live node = true →
  a = Catalog.address r →
  a ∈ default [] (zone_from_records project records live
                    !! aggregate_name project (service +:+ "-" +:+ node)).
Proof.
  intros Hr <- <- Hl ->. apply zone_from_records_elem. exists r. split_and!; try done.
  right. unfold aggregate_name, server_name_of. by rewrite !append_assoc.
Qed.
End zone_props.

(** A name with an upper-case letter is never answered.  The resolver lowers the names of
    queries and keeps those of the zone as they are, so taking such a name out of the zone
    changes no response: a project or service written with a capital letter cannot be
    resolved. *)
Theorem uppercase_names_never_resolve buf zone is_udp name c :
  c ∈ bytes name → is_ascii_uppercase c = true →
  respond buf zone is_udp = respond buf (delete name zone) is_udp.
Proof.
  intros Hc Hu. unfold respond. destruct (parse_query buf) as [q|] eqn:Hq; [|done].
  cbn [mbind option_bind]. unfold zone_answer. rewrite lookup_delete_ne; [done|]. intros ->.
  rewrite (query_name_lowercase _ _ _ Hq Hc) in Hu. done.
Qed.

(** A query for [demo-web.jiji] and a zone that has it. *)
Definition sample_query : list ascii := encode_query 42 true ["Demo-Web"; "jiji"] QTYPE_A.
Definition sample_zone : Zone := {[ "demo-web.jiji" := [3323068426] ]}.

Lemma sample_query_parses :
  ∃ q, parse_query sample_query = Some q ∧ q_name q = "demo-web.jiji" ∧ q_opcode q = 0 ∧
    q_qclass q = QCLASS_IN ∧ q_qtype q = QTYPE_A ∧ length (q_question_bytes q) = 19%nat.
Proof. eexists. split; [vm_compute; reflexivity|]. by vm_compute. Qed.

Lemma respond_is_read_back_witness :
  ∃ out, respond sample_query sample_zone true = Some out ∧
    resp_answers <$> decode_response out = Some [3323068426].
Proof.
  destruct sample_query_parses as (q & Hq & Hn & Ho & Hc & Ht & Hb).
  destruct (respond_is_read_back sample_query sample_zone true q) as (out & rc & l & t & Hr & Hd & _ & Ha).
  - apply map_Forall_singleton. constructor; [lia|constructor].
  - done.
  - exists out. split; [done|]. rewrite Hd. simpl. destruct (Ha Ho Hc) as (_ & _ & Hl).
    rewrite Ht, Hn in Hl. destruct t.
    + destruct Hl as (_ & _ & Hlen). rewrite Hb in Hlen. vm_compute in Hlen. lia.
    + destruct Hl as [-> _]. reflexivity.
Defined.

Lemma queries_are_understood_witness :
  ∃ q, parse_query sample_query = Some q ∧ q_name q = "demo-web.jiji".
Proof.
  destruct (queries_are_understood 42 true ["Demo-Web"; "jiji"] QTYPE_A) as [(q & Hq & _ & _ & _ & _ & _ & Hn) _].
  - lia.
  - unfold QTYPE_A. lia.
  - repeat constructor; vm_compute; try reflexivity; lia.
  - simpl. lia.
  - by exists q.
Defined.

Lemma responses_fit_their_frames_witness :
  ∃ out a b, handle_query (λ (_ : unit) _, None) sample_query sample_zone [] false = Some out ∧
    tcp_frame out = a :: b :: out ∧ u16_from_be a b = N.of_nat (length out).
Proof.
  destruct (handle_query (λ (_ : unit) _, None) sample_query sample_zone [] false) as [out|] eqn:E;
    [|vm_compute in E; discriminate E].
  destruct (responses_fit_their_frames _ _ _ _ _ _ E) as [(a & b & H1 & H2) _]. by exists out, a, b.
Defined.

Definition sample_dns_config : DnsConfig :=
  {| dns_project_id := "demo"; dns_recovery_epoch := 1; dns_local_node_id := "a";
     dns_reachability_timeout := 30 |}.

Lemma zone_serves_live_replicas_witness :
  ∃ mlog clog zone, @build_zone MembershipProps.sample_hash CatalogProps.sample_hash
    mlog clog ∅ 0 sample_dns_config = Ok zone ∧
    operations clog = [("d1:2:1", CatalogProps.sample_deployment "d1" "a" 2 1 Catalog.Active)].
Proof.
  destruct OpLogProps.sample_membership_log as (mlog & Hm & _). destruct OpLogProps.sample_catalog_log as (clog & Hc & Hops).
  destruct (@zone_serves_live_replicas MembershipProps.sample_hash CatalogProps.sample_hash
    mlog clog CatalogProps.sample_scope ∅ 0 sample_dns_config Hm Hc eq_refl eq_refl) as (zone & best & Hz & _).
  by exists mlog, clog, zone.
Defined.

Lemma service_names_collide_witness :
  let web := CatalogProps.sample_deployment "d1" "a" 2 1 Catalog.Active in
  Catalog.address web ∈ default []
    (zone_from_records "demo" [web] (λ _, true) !! aggregate_name "demo" (Catalog.service web +:+ "-" +:+ "a")).
Proof.
  cbv zeta. eapply (service_names_collide "demo" _ "a" _ (λ _, true)).
  - apply list_elem_of_here.
  - reflexivity.
  - reflexivity.
  - reflexivity.
  - reflexivity.
Defined.

Lemma uppercase_names_never_resolve_witness :
  respond sample_query {[ "Demo-web.jiji" := [1] ]} true = respond sample_query ∅ true.
Proof.
  rewrite (uppercase_names_never_resolve sample_query {[ "Demo-web.jiji" := [1] ]} true "Demo-web.jiji" "D"%char).
  - by rewrite delete_singleton_eq.
  - apply list_elem_of_here.
  - reflexivity.
Defined.

End DnsProps.
