(* ===== verification/Certs.v ===== *)
(** Certificates of jiji-proxy: the wildcard rule of [jiji-proxy/src/wildcard.rs], the store
    of [jiji-proxy/src/cert_store.rs] and the check of [jiji-proxy/src/acme.rs] that decides
    which hosts get a certificate issued.

    OpenSSL is a parameter: what a PEM text parses to, whether a certificate and a key
    belong together, when a certificate ends.  The certificate directory is the map of its
    [{host}.crt] and [{host}.key] texts. *)

From S2P Require Import Prelude Text Bytes.
Open Scope N_scope.

(** ** [wildcard.rs] *)

Definition parent_wildcard_key (host : string) : option string :=
  e ← split_once "." host;
  if bool_decide (e.2 = "") then None else Some ("*." +:+ e.2).

Definition is_wildcard_host (host : string) : bool := starts_with "*." host.

(** ** [cert_store.rs] *)

Class OpenSsl := {
  X509 : Type;
  PrivateKey : Type;
  x509_from_pem : string → option X509;
  key_from_pem : string → option PrivateKey;
  public_eq : X509 → PrivateKey → bool;
  not_after : X509 → N;
  (** [Asn1Time::days_from_now], from the current time. *)
  days_from_now : N → N → option N;
}.

Inductive CertSource := Static | Acme.
#[export] Instance CertSource_eq_dec : EqDecision CertSource.
Proof. solve_decision. Defined.

Section certs.
Context `{OpenSsl}.

Record CertEntry := { ce_cert : X509; ce_key : PrivateKey; ce_source : CertSource }.

Record CertStore := {
  crt_files : gmap string string;
  key_files : gmap string string;
  entries : gmap string CertEntry;
}.

(** Both texts of a pair, read, parsed and checked against each other. *)
Definition load_pair (crt key : gmap string string) (host : string) : option (X509 * PrivateKey) :=
  cert_pem ← crt !! host;
  key_pem ← key !! host;
  cert ← x509_from_pem cert_pem;
  k ← key_from_pem key_pem;
  if public_eq cert k then Some (cert, k) else None.

(** [CertStore::load]: every pair of the directory that can be loaded. *)
Definition load (crt key : gmap string string) : CertStore :=
  {| crt_files := crt; key_files := key;
     entries := map_imap (λ host _,
       (λ p, {| ce_cert := p.1; ce_key := p.2; ce_source := Static |}) <$> load_pair crt key host) crt |}.

Definition get (s : CertStore) (host : string) : option CertEntry :=
  match entries s !! host with
  | Some entry => Some entry
  | None => key ← parent_wildcard_key host; entries s !! key
  end.

Definition needs_issuance (s : CertStore) (now : N) (host : string) (renew_before : N) : bool :=
  match get s host with
  | None => true
  | Some entry =>
      match ce_source entry with
      | Static => false
      | Acme =>
          let days := N.max (renew_before / 86400) 1 mod 2 ^ 32 in
          match days_from_now now days with
          | None => true
          | Some threshold => not_after (ce_cert entry) <? threshold
          end
      end
  end.

(** [store_acme_cert]: nothing changes when a text does not parse. *)
Definition store_acme_cert (s : CertStore) (host cert_pem key_pem : string) : option CertStore :=
  cert ← x509_from_pem cert_pem;
  key ← key_from_pem key_pem;
  Some {| crt_files := <[host := cert_pem]> (crt_files s);
          key_files := <[host := key_pem]> (key_files s);
          entries := <[host := {| ce_cert := cert; ce_key := key; ce_source := Acme |}]> (entries s) |}.

Definition reload_static (s : CertStore) (host : string) : option CertStore :=
  p ← load_pair (crt_files s) (key_files s) host;
  Some {| crt_files := crt_files s; key_files := key_files s;
          entries := <[host := {| ce_cert := p.1; ce_key := p.2; ce_source := Static |}]> (entries s) |}.

(** ** [acme.rs]: one check of all hosts *)

(** What the authority issues for a host, if the order goes through. *)
Definition check_host (issue : string → option (string * string)) (now renew_before : N)
    (s : CertStore) (host : string) : CertStore :=
  if negb (needs_issuance s now host renew_before) then s
  else match issue host with
       | Some (cert_pem, key_pem) => default s (store_acme_cert s host cert_pem key_pem)
       | None => s
       end.

Definition check_all (issue : string → option (string * string)) (now renew_before : N)
    (s : CertStore) (tls_hosts : list string) : CertStore :=
  foldl (check_host issue now renew_before) s tls_hosts.

(** A restart of the proxy keeps the directory and nothing else. *)
Definition restart (s : CertStore) : CertStore := load (crt_files s) (key_files s).
End certs.
Arguments CertEntry {_}.
Arguments CertStore {_}.

(** ** Lemmas *)

Section lemmas.
Context `{OpenSsl}.

Lemma load_lookup crt key host :
  entries (load crt key) !! host =
  (λ p, {| ce_cert := p.1; ce_key := p.2; ce_source := Static |}) <$> load_pair crt key host.
Proof.
  unfold load. simpl. rewrite map_lookup_imap.
  destruct (crt !! host) as [c|] eqn:Hc; simpl; [done|]. unfold load_pair. by rewrite Hc.
Qed.

(** A check changes the entry of a host only when that host needs a certificate. *)
Lemma check_host_keeps issue now renew s host h :
  needs_issuance s now h renew = false →
  entries (check_host issue now renew s host) !! h = entries s !! h.
Proof.
  intros Hn. unfold check_host. destruct (needs_issuance s now host renew) eqn:E; simpl; [|done].
  destruct (issue host) as [[c k]|]; [|done]. unfold store_acme_cert.
  destruct (x509_from_pem c); [|done]. simpl. destruct (key_from_pem k); [|done]. simpl.
  rewrite lookup_insert_ne; [done|]. intros ->. congruence.
Qed.

Lemma parent_is_wildcard host key : parent_wildcard_key host = Some key → is_wildcard_host key = true.
Proof.
  unfold parent_wildcard_key. destruct (split_once _ _) as [[a b]|]; [|done]. simpl.
  case_bool_decide; [done|]. intros [= <-]. unfold is_wildcard_host, starts_with.
  by rewrite strip_prefix_app.
Qed.

Lemma check_all_keeps_static issue now renew s hosts h e :
  entries s !! h = Some e → ce_source e = Static →
  entries (check_all issue now renew s hosts) !! h = Some e.
Proof.
  unfold check_all. revert s. induction hosts as [|host hosts IH]; intros s He Hs; [done|]. cbn [foldl].
  apply IH; [|done]. assert (needs_issuance s now h renew = false) as Hn.
  { unfold needs_issuance, get. by rewrite He, Hs. }
  by rewrite (check_host_keeps issue now renew s host h Hn).
Qed.
End lemmas.

Module CertsProps.

Section props.
Context `{OpenSsl}.

(** A certificate of the operator is never replaced by an issued one: a check leaves every
    entry that was loaded from a file as it is, whatever hosts ask for certificates and
    whatever the authority issues; reloading a pair that cannot be loaded changes nothing;
    and the exact host wins over the wildcard that would match it. *)
Theorem static_certificates_win issue now renew s hosts h e :
  entries s !! h = Some e → ce_source e = Static →
  get (check_all issue now renew s hosts) h = Some e ∧
  (load_pair (crt_files s) (key_files s) h = None → reload_static s h = None) ∧
  ∀ p, load_pair (crt_files s) (key_files s) h = Some p →
    ∃ s', reload_static s h = Some s' ∧
      get s' h = Some {| ce_cert := p.1; ce_key := p.2; ce_source := Static |} ∧
      ∀ h', h' ≠ h → entries s' !! h' = entries s !! h'.
Proof.
  intros He Hs. split_and!.
  - unfold get. by rewrite (check_all_keeps_static issue now renew s hosts h e He Hs).
  - unfold reload_static. by intros ->.
  - intros p Hp. unfold reload_static. rewrite Hp. simpl. eexists. split; [done|]. simpl.
    unfold get. simpl. rewrite lookup_insert_eq. split; [done|].
    intros h' Hne. by rewrite lookup_insert_ne.
Qed.

(** An issued certificate is not renewed after a restart.  What an issuance stores in the
    certificate directory is loaded as a certificate of the operator when the proxy starts
    again, and no check renews it from then on, not even when it has expired. *)
Theorem issued_certificate_is_not_renewed_after_restart s host cert_pem key_pem s' cert key :
  x509_from_pem cert_pem = Some cert → key_from_pem key_pem = Some key → public_eq cert key = true →
  store_acme_cert s host cert_pem key_pem = Some s' →
  (entries s' !! host = Some {| ce_cert := cert; ce_key := key; ce_source := Acme |}) ∧
  ∀ issue now renew hosts,
    needs_issuance (restart s') now host renew = false ∧
    entries (check_all issue now renew (restart s') hosts) !! host =
      Some {| ce_cert := cert; ce_key := key; ce_source := Static |}.
Proof.
  intros Hc Hk Heq. unfold store_acme_cert. rewrite Hc. simpl. rewrite Hk. simpl. intros [= <-]. simpl.
  split; [apply lookup_insert_eq|]. intros issue now renew hosts.
  assert (entries (restart
      {| crt_files := <[host := cert_pem]> (crt_files s); key_files := <[host := key_pem]> (key_files s);
         entries := <[host := {| ce_cert := cert; ce_key := key; ce_source := Acme |}]> (entries s) |}) !! host
    = Some {| ce_cert := cert; ce_key := key; ce_source := Static |}) as Hl.
  { unfold restart. rewrite load_lookup. simpl. unfold load_pair. rewrite !lookup_insert_eq. simpl.
    rewrite Hc. simpl. rewrite Hk. simpl. by rewrite Heq. }
  split.
  - unfold needs_issuance, get. by rewrite Hl.
  - by apply check_all_keeps_static.
Qed.

(** While the proxy runs, a check renews what is due: a host that asks for a certificate,
    that has none or an issued one that ends within the renewal time, and for which the
    authority issues a pair that parses, is served with that pair afterwards, wherever it
    stands among the hosts; none of them is a wildcard, as [tls_hosts] sees to. *)
Theorem check_renews_what_is_due issue now renew s hosts host cert_pem key_pem cert key :
  host ∈ hosts → issue host = Some (cert_pem, key_pem) →
  x509_from_pem cert_pem = Some cert → key_from_pem key_pem = Some key →
  needs_issuance s now host renew = true →
  (∀ h, h ∈ hosts → is_wildcard_host h = false) →
  entries (check_all issue now renew s hosts) !! host =
    Some {| ce_cert := cert; ce_key := key; ce_source := Acme |}.
Proof.
  intros Hin Hi Hc Hk Hn Hw'. unfold check_all.
  assert (∀ h, h ∈ hosts → parent_wildcard_key host ≠ Some h) as Hw.
  { intros h Hh Hp%parent_is_wildcard. by rewrite (Hw' h Hh) in Hp. }
  clear Hw'.
  assert (∀ hs s, (∀ h, h ∈ hs → parent_wildcard_key host ≠ Some h) →
    entries s !! host = Some {| ce_cert := cert; ce_key := key; ce_source := Acme |} →
    entries (foldl (check_host issue now renew) s hs) !! host =
      Some {| ce_cert := cert; ce_key := key; ce_source := Acme |}) as Hkeep.
  { induction hs as [|h hs IH]; intros s0 Hw0 He; [done|]. cbn [foldl]. apply IH.
    { intros h' Hh'. apply Hw0. by right. }
    unfold check_host. destruct (negb _); [done|]. destruct (issue h) as [[c k]|] eqn:Eh; [|done].
    unfold store_acme_cert. destruct (x509_from_pem c) as [x|] eqn:Ex; [|done]. simpl.
    destruct (key_from_pem k) as [y|] eqn:Ey; [|done]. simpl. destruct (decide (h = host)) as [->|Hne].
    - rewrite lookup_insert_eq. congruence.
    - by rewrite lookup_insert_ne. }
  revert s Hn. induction hosts as [|h hosts IH]; [by apply elem_of_nil in Hin|]. intros s Hn. cbn [foldl].
  destruct (decide (h = host)) as [->|Hne].
  - apply Hkeep; [intros h' Hh'; apply Hw; by right|]. unfold check_host. rewrite Hn. simpl.
    rewrite Hi. unfold store_acme_cert. rewrite Hc. simpl. rewrite Hk. simpl. apply lookup_insert_eq.
  - apply IH.
    + apply elem_of_cons in Hin as [->|?]; done.
    + intros h' Hh'. apply Hw. by right.
    + unfold check_host. destruct (negb _); [done|]. destruct (issue h) as [[c k]|]; [|done].
      unfold store_acme_cert. destruct (x509_from_pem c) as [x|]; [|done]. simpl.
      destruct (key_from_pem k) as [y|]; [|done]. simpl. unfold needs_issuance, get in *. simpl.
      rewrite lookup_insert_ne by done. destruct (entries s !! host); [done|].
      destruct (parent_wildcard_key host) as [key0|] eqn:Ekey; [|done]. simpl in *.
      rewrite lookup_insert_ne; [done|]. intros ->. by apply (Hw key0 (list_elem_of_here _ _)).
Qed.
End props.

(** A library in which the text of a certificate or key is its length. *)
Definition sample_openssl : OpenSsl := {|
  X509 := nat; PrivateKey := nat;
  x509_from_pem := λ pem, if bool_decide (pem = "") then None else Some (String.length pem);
  key_from_pem := λ pem, if bool_decide (pem = "") then None else Some (String.length pem);
  public_eq := Nat.eqb; not_after := λ c, N.of_nat c;
  days_from_now := λ now days, Some (now + days * 86400) |}.
Definition sample_store : @CertStore sample_openssl :=
  @load sample_openssl {[ "a.example" := "CRT"; "b.example" := "CRT" ]} {[ "a.example" := "KEY" ]}.

Lemma static_certificates_win_witness :
  @get sample_openssl (@check_all sample_openssl (λ _, Some ("cert", "pkey")) 0 86400 sample_store
    ["b.example"; "a.example"]) "a.example" = @entries sample_openssl sample_store !! "a.example".
Proof.
  destruct (@static_certificates_win sample_openssl (λ _, Some ("cert", "pkey")) 0 86400 sample_store
    ["b.example"; "a.example"] "a.example"
    (@Build_CertEntry sample_openssl 3%nat 3%nat Static)) as [Hg _]; [reflexivity|reflexivity|].
  rewrite Hg. reflexivity.
Defined.

Lemma issued_certificate_is_not_renewed_after_restart_witness :
  ∃ s', @store_acme_cert sample_openssl sample_store "b.example" "cert" "pkey" = Some s' ∧
    @needs_issuance sample_openssl (@restart sample_openssl s') 1000000 "b.example" 86400 = false.
Proof.
  eexists. split; [reflexivity|].
  destruct (@issued_certificate_is_not_renewed_after_restart sample_openssl sample_store "b.example"
    "cert" "pkey" _ 4%nat 4%nat eq_refl eq_refl eq_refl eq_refl) as [_ Hr].
  apply (Hr (λ _, None) 1000000 86400 []).
Defined.

Lemma check_renews_what_is_due_witness :
  @entries sample_openssl (@check_all sample_openssl (λ _, Some ("cert", "pkey")) 0 86400 sample_store
    ["b.example"]) !! "b.example" = Some (@Build_CertEntry sample_openssl 4%nat 4%nat Acme).
Proof.
  eapply (@check_renews_what_is_due sample_openssl).
  - apply list_elem_of_here.
  - reflexivity.
  - reflexivity.
  - reflexivity.
  - reflexivity.
  - intros h ->%list_elem_of_singleton. reflexivity.
Defined.
End CertsProps.
