(* ===== verification/Routes.v ===== *)
(** The route table of jiji-proxy: [jiji-proxy/src/route_manager.rs], the admin requests of
    [jiji-proxy/src/admin.rs] that change it, and the host and path a request is looked up
    with in [jiji-proxy/src/proxy.rs].

    A load balancer, with its discovery and health checks, is a value of the parameter
    [LB]; making one may fail.  The tables are hash maps: what is read from them is only
    stated up to the order of iteration.  Socket addresses are their texts; times are
    milliseconds since the epoch. *)

From S2P Require Import Prelude Text Bytes Certs.
Open Scope N_scope.

Record HealthCheckSpec := {
  hc_path : option string;
  hc_interval : N;
  hc_timeout : N;
  hc_consecutive_success : N;
  hc_consecutive_failure : N;
}.

Record HealthCheckRequest := {
  hr_path : option string;
  hr_interval_secs : N;
  hr_timeout_secs : N;
  hr_consecutive_success : N;
  hr_consecutive_failure : N;
}.

(** [HealthCheckSpec::from]. *)
Definition health_check_from (r : HealthCheckRequest) : HealthCheckSpec :=
  {| hc_path := hr_path r; hc_interval := N.max (hr_interval_secs r) 1;
     hc_timeout := N.max (hr_timeout_secs r) 1;
     hc_consecutive_success := N.max (hr_consecutive_success r) 1;
     hc_consecutive_failure := N.max (hr_consecutive_failure r) 1 |}.

(** [Duration::as_millis() as u64] of whole seconds. *)
Definition millis (secs : N) : N := (secs * 1000) mod 2 ^ 64.

(** The load balancers of Pingora over the DNS discovery of the agent. *)
Class Balancer (LB : Type) := {
  new_lb : string → string → N → option HealthCheckSpec → result string LB;
  backends : LB → list (string * bool);
  (** What a discovery, failed or not, and a round of health checks make of a balancer. *)
  lb_update : LB → LB;
  lb_run_health_check : LB → LB;
}.

Section routes.
Context {LB : Type} `{Balancer LB, OpenSsl}.

Record RouteEntry := {
  r_lb : LB;
  r_dns_server : string;
  r_name : string;
  r_port : N;
  r_path_prefix : option string;
  r_tls : bool;
  r_refresh_interval : N;
  r_last_refresh_millis : N;
  r_health_check_interval : option N;
  r_last_health_check_millis : N;
}.

Record TcpRouteEntry := {
  t_lb : LB;
  t_dns_server : string;
  t_name : string;
  t_port : N;
  t_listen_port : N;
  t_refresh_interval : N;
  t_last_refresh_millis : N;
  t_health_check_interval : option N;
  t_last_health_check_millis : N;
}.

Record RouteManager := {
  routes : gmap string (list RouteEntry);
  tcp_routes : gmap N TcpRouteEntry;
  cert_store : option CertStore;
}.

Definition new_with_cert_store (store : option CertStore) : RouteManager :=
  {| routes := ∅; tcp_routes := ∅; cert_store := store |}.
Definition new : RouteManager := new_with_cert_store None.

Definition set_routes (m : RouteManager) (r : gmap string (list RouteEntry)) : RouteManager :=
  {| routes := r; tcp_routes := tcp_routes m; cert_store := cert_store m |}.
Definition set_tcp_routes (m : RouteManager) (r : gmap N TcpRouteEntry) : RouteManager :=
  {| routes := routes m; tcp_routes := r; cert_store := cert_store m |}.

(** ** HTTP routes *)

(** The entry of a host with exactly this prefix. *)
Definition find_prefix (entries : list RouteEntry) (prefix : option string) : option RouteEntry :=
  snd <$> list_find (λ e, r_path_prefix e = prefix) entries.

Definition route_tls (m : RouteManager) (host : string) (prefix : option string) : option bool :=
  r_tls <$> (routes m !! host ≫= λ entries, find_prefix entries prefix).

(** The code returns the load balancer of the entry a lookup finds; here it is the entry. *)
Definition prefix_matches (path : string) (e : RouteEntry) : bool :=
  match r_path_prefix e with Some prefix => starts_with prefix path | None => true end.

Definition select_entry (entries : list RouteEntry) (path : string) : option RouteEntry :=
  snd <$> list_find (λ e, prefix_matches path e = true) entries.

(** The longest prefix first, the catch-all last. *)
Definition prefix_leb (a b : RouteEntry) : bool :=
  match r_path_prefix a, r_path_prefix b with
  | Some p, Some q => (String.length q <=? String.length p)%nat
  | Some _, None => true
  | None, Some _ => false
  | None, None => true
  end.
Definition sort_by_prefix_length_descending (entries : list RouteEntry) : list RouteEntry :=
  sort_by prefix_leb entries.

Definition lookup_route (m : RouteManager) (host path : string) : option RouteEntry :=
  match (entries ← routes m !! host; select_entry entries path) with
  | Some e => Some e
  | None =>
      wildcard_key ← parent_wildcard_key host;
      entries ← routes m !! wildcard_key;
      select_entry entries path
  end.

(** The insertion of [apply], after the load balancer is there. *)
Definition insert_entry (m : RouteManager) (host : string) (e : RouteEntry) : RouteManager :=
  let entries := default [] (routes m !! host) in
  let kept := filter (λ x, r_path_prefix x ≠ r_path_prefix e) entries in
  set_routes m (<[host := sort_by_prefix_length_descending (kept ++ [e])]> (routes m)).

Definition apply (now : N) (m : RouteManager) (host : string) (path_prefix : option string)
    (dns_server name : string) (port refresh_interval_secs : N) (tls : bool)
    (health_check : option HealthCheckSpec) : result string RouteManager :=
  let? lb := new_lb dns_server name port health_check in
  Ok (insert_entry m host
        {| r_lb := lb; r_dns_server := dns_server; r_name := name; r_port := port;
           r_path_prefix := path_prefix; r_tls := tls;
           r_refresh_interval := N.max refresh_interval_secs 1; r_last_refresh_millis := now;
           r_health_check_interval := hc_interval <$> health_check;
           r_last_health_check_millis := now |}).

Definition remove (m : RouteManager) (host : string) (path_prefix : option string) : bool * RouteManager :=
  match routes m !! host with
  | None => (false, m)
  | Some entries =>
      let kept := filter (λ x, r_path_prefix x ≠ path_prefix) entries in
      (negb (length kept =? length entries)%nat,
       set_routes m (if bool_decide (kept = []) then delete host (routes m)
                     else <[host := kept]> (routes m)))
  end.

Definition list_routes (m : RouteManager) : list (string * RouteEntry) :=
  e ← map_to_list (routes m); pair e.1 <$> e.2.

Definition backend_status (m : RouteManager) (host : string) (prefix : option string) :
    option (list (string * bool)) :=
  entries ← routes m !! host;
  e ← find_prefix entries prefix;
  Some (backends (r_lb e)).

Definition tls_hosts (m : RouteManager) : list string :=
  fst <$> filter (λ e : string * list RouteEntry,
    negb (is_wildcard_host e.1) && existsb r_tls e.2 = true) (map_to_list (routes m)).

(** ** TCP routes *)

Definition tcp_lookup (m : RouteManager) (listen_port : N) : option LB := t_lb <$> tcp_routes m !! listen_port.

(** The check [tcp_apply] begins with. *)
Definition tcp_check (m : RouteManager) (listen_port : N) (name : string) : result string () :=
  match tcp_routes m !! listen_port with
  | Some existing =>
      if bool_decide (t_name existing = name) then Ok ()
      else Err ("listen_port " +:+ pretty listen_port +:+ " is already in use by '" +:+ t_name existing
                +:+ "'; each TCP route needs its own public port")
  | None => Ok ()
  end.

(** The insertion it ends with. *)
Definition tcp_insert (m : RouteManager) (listen_port : N) (e : TcpRouteEntry) : RouteManager :=
  set_tcp_routes m (<[listen_port := e]> (tcp_routes m)).

Definition tcp_entry (now : N) (lb : LB) (listen_port : N) (dns_server name : string)
    (port refresh_interval_secs : N) (health_check : option HealthCheckSpec) : TcpRouteEntry :=
  {| t_lb := lb; t_dns_server := dns_server; t_name := name; t_port := port;
     t_listen_port := listen_port; t_refresh_interval := N.max refresh_interval_secs 1;
     t_last_refresh_millis := now; t_health_check_interval := hc_interval <$> health_check;
     t_last_health_check_millis := now |}.

Definition tcp_apply (now : N) (m : RouteManager) (listen_port : N) (dns_server name : string)
    (port refresh_interval_secs : N) (health_check : option HealthCheckSpec) :
    result string RouteManager :=
  let? _ := tcp_check m listen_port name in
  let? lb := new_lb dns_server name port health_check in
  Ok (tcp_insert m listen_port
        (tcp_entry now lb listen_port dns_server name port refresh_interval_secs health_check)).

Definition tcp_remove (m : RouteManager) (listen_port : N) : bool * RouteManager :=
  (bool_decide (is_Some (tcp_routes m !! listen_port)),
   set_tcp_routes m (delete listen_port (tcp_routes m))).

Definition tcp_list (m : RouteManager) : list TcpRouteEntry := (map_to_list (tcp_routes m)).*2.

Definition tcp_backend_status (m : RouteManager) (listen_port : N) : option (list (string * bool)) :=
  (backends ∘ t_lb) <$> tcp_routes m !! listen_port.

(** ** [refresh_due_routes] *)

(** Whether an interval has passed, in milliseconds. *)
Definition is_due (now last interval : N) : bool := millis interval <=? saturating_sub now last.

Definition refresh_route (now : N) (e : RouteEntry) : RouteEntry :=
  let update_due := is_due now (r_last_refresh_millis e) (r_refresh_interval e) in
  let check_due := match r_health_check_interval e with
                   | Some interval => is_due now (r_last_health_check_millis e) interval
                   | None => false
                   end in
  let lb := if update_due then lb_update (r_lb e) else r_lb e in
  {| r_lb := if check_due then lb_run_health_check lb else lb; r_dns_server := r_dns_server e; r_name := r_name e; r_port := r_port e;
     r_path_prefix := r_path_prefix e; r_tls := r_tls e; r_refresh_interval := r_refresh_interval e;
     r_last_refresh_millis := if update_due then now else r_last_refresh_millis e;
     r_health_check_interval := r_health_check_interval e;
     r_last_health_check_millis := if check_due then now else r_last_health_check_millis e |}.

Definition refresh_tcp_route (now : N) (e : TcpRouteEntry) : TcpRouteEntry :=
  let update_due := is_due now (t_last_refresh_millis e) (t_refresh_interval e) in
  let check_due := match t_health_check_interval e with
                   | Some interval => is_due now (t_last_health_check_millis e) interval
                   | None => false
                   end in
  let lb := if update_due then lb_update (t_lb e) else t_lb e in
  {| t_lb := if check_due then lb_run_health_check lb else lb; t_dns_server := t_dns_server e; t_name := t_name e; t_port := t_port e;
     t_listen_port := t_listen_port e; t_refresh_interval := t_refresh_interval e;
     t_last_refresh_millis := if update_due then now else t_last_refresh_millis e;
     t_health_check_interval := t_health_check_interval e;
     t_last_health_check_millis := if check_due then now else t_last_health_check_millis e |}.

Definition refresh_due_routes (now : N) (m : RouteManager) : RouteManager :=
  {| routes := (λ l : list RouteEntry, refresh_route now <$> l) <$> routes m;
     tcp_routes := refresh_tcp_route now <$> tcp_routes m; cert_store := cert_store m |}.

(** ** Admin requests *)

Inductive AdminRequest :=
| RouteApply (host : string) (path_prefix : option string) (dns_server name : string) (port : N)
    (refresh_interval_secs : N) (tls reload_certificate preserve_existing_tls : bool)
    (health_check : option HealthCheckRequest)
| RouteRemove (host : string) (path_prefix : option string)
| RouteList
| RouteStatus (host : string) (path_prefix : option string)
| Version
| TcpRouteApply (listen_port : N) (dns_server name : string) (port refresh_interval_secs : N)
    (health_check : option HealthCheckRequest)
| TcpRouteRemove (listen_port : N)
| TcpRouteList
| TcpRouteStatus (listen_port : N).

Inductive AdminResponse :=
| AdminOk
| Routes (routes : list (string * RouteEntry))
| Status (route_exists : bool) (backends : list (string * bool))
| VersionIs (version : string)
| Error (message : string)
| TcpRoutes (routes : list TcpRouteEntry)
| TcpStatus (route_exists : bool) (backends : list (string * bool)).

Definition reload_static_certificate (m : RouteManager) (host : string) : option RouteManager :=
  store ← cert_store m;
  store ← reload_static store host;
  Some {| routes := routes m; tcp_routes := tcp_routes m; cert_store := Some store |}.

(** The cause of a failed reload is not part of the text here. *)
Definition handle_request (version : string) (now : N) (m : RouteManager) (request : AdminRequest) :
    AdminResponse * RouteManager :=
  match request with
  | RouteApply host path_prefix dns_server name port refresh tls reload preserve health_check =>
      match (if reload then reload_static_certificate m host else Some m) with
      | None => (Error ("could not reload certificate for '" +:+ host +:+ "'"), m)
      | Some m =>
          let tls := if preserve then default tls (route_tls m host path_prefix) else tls in
          match apply now m host path_prefix dns_server name port refresh tls
                  (health_check_from <$> health_check) with
          | Ok m' => (AdminOk, m')
          | Err message => (Error message, m)
          end
      end
  | RouteRemove host path_prefix => (AdminOk, (remove m host path_prefix).2)
  | RouteList => (Routes (list_routes m), m)
  | RouteStatus host path_prefix =>
      (match backend_status m host path_prefix with
       | Some backends => Status true backends
       | None => Status false []
       end, m)
  | Version => (VersionIs version, m)
  | TcpRouteApply listen_port dns_server name port refresh health_check =>
      match tcp_apply now m listen_port dns_server name port refresh (health_check_from <$> health_check) with
      | Ok m' => (AdminOk, m')
      | Err message => (Error message, m)
      end
  | TcpRouteRemove listen_port => (AdminOk, (tcp_remove m listen_port).2)
  | TcpRouteList => (TcpRoutes (tcp_list m), m)
  | TcpRouteStatus listen_port =>
      (match tcp_backend_status m listen_port with
       | Some backends => TcpStatus true backends
       | None => TcpStatus false []
       end, m)
  end.

(** ** [upstream_peer] *)

(** The host of a request, without its port, in lower case. *)
Definition lookup_host (header : option string) : string :=
  let host := default "" header in
  str_to_ascii_lowercase (default host (head (split_char ":" host))).

Definition upstream_route (m : RouteManager) (header : option string) (path : string) : option RouteEntry :=
  lookup_route m (lookup_host header) path.
End routes.
Arguments RouteEntry : clear implicits.
Arguments TcpRouteEntry : clear implicits.

(** ** The abstract table *)

Section spec.
Context {LB : Type} `{Balancer LB, OpenSsl}.
Implicit Types m : RouteManager (LB := LB).

(** What a table means: at most one entry per host and prefix. *)
Definition route_at m (host : string) (prefix : option string) : option (RouteEntry LB) :=
  entries ← routes m !! host; find_prefix entries prefix.

(** The entries of a host: in the order of lookup, one per prefix, and at least one. *)
Definition entries_wf (entries : list (RouteEntry LB)) : Prop :=
  entries ≠ [] ∧ NoDup (r_path_prefix <$> entries) ∧
  StronglySorted (λ a b, prefix_leb a b = true) entries.
Definition routes_wf m : Prop := map_Forall (λ _ entries, entries_wf entries) (routes m).

(** Which of two entries that match a path is the better one. *)
Definition prefix_rank (p : option string) : nat :=
  match p with Some p => S (String.length p) | None => 0 end.

(** The entry of a host a path belongs to: it matches, and no entry with a longer prefix does. *)
Definition best_match m (host path : string) (e : RouteEntry LB) : Prop :=
  route_at m host (r_path_prefix e) = Some e ∧ prefix_matches path e = true ∧
  ∀ p e', route_at m host p = Some e' → prefix_matches path e' = true →
    (prefix_rank p ≤ prefix_rank (r_path_prefix e))%nat.
End spec.

(** ** Lemmas *)

Section lemmas.
Context {LB : Type} `{Balancer LB, OpenSsl}.
Implicit Types m : RouteManager (LB := LB).
Implicit Types e : RouteEntry LB.
Implicit Types entries : list (RouteEntry LB).

Lemma prefix_leb_rank e1 e2 :
  prefix_leb e1 e2 = true ↔ (prefix_rank (r_path_prefix e2) ≤ prefix_rank (r_path_prefix e1))%nat.
Proof.
  unfold prefix_leb, prefix_rank. destruct (r_path_prefix e1), (r_path_prefix e2); rewrite ?Nat.leb_le;
    split; intros; done || lia.
Qed.

Lemma prefix_leb_total e1 e2 : prefix_leb e1 e2 = true ∨ prefix_leb e2 e1 = true.
Proof. rewrite !prefix_leb_rank. lia. Qed.
Lemma prefix_leb_trans e1 e2 e3 :
  prefix_leb e1 e2 = true → prefix_leb e2 e3 = true → prefix_leb e1 e3 = true.
Proof. rewrite !prefix_leb_rank. lia. Qed.

Lemma find_prefix_Some entries p e :
  find_prefix entries p = Some e → e ∈ entries ∧ r_path_prefix e = p.
Proof.
  unfold find_prefix. destruct (list_find _ _) as [[i x]|] eqn:E; [|done]. simpl. intros [= ->].
  apply list_find_Some in E as (Hi & Hp & _). split; [by eapply list_elem_of_lookup_2|done].
Qed.

Lemma find_prefix_iff entries p e :
  NoDup (r_path_prefix <$> entries) →
  find_prefix entries p = Some e ↔ e ∈ entries ∧ r_path_prefix e = p.
Proof.
  intros Hnd. split; [apply find_prefix_Some|]. intros [Hin <-].
  unfold find_prefix. destruct (list_find _ _) as [[i x]|] eqn:E; simpl.
  - apply list_find_Some in E as (Hi & Hp & _). apply list_elem_of_lookup in Hin as [j Hj].
    f_equal. assert (i = j) as ->; [|congruence]. eapply NoDup_lookup; [exact Hnd| |].
    + by rewrite list_lookup_fmap, Hi.
    + rewrite list_lookup_fmap, Hj. simpl. by rewrite Hp.
  - apply list_find_None in E. rewrite Forall_forall in E. by destruct (E e Hin).
Qed.

Lemma find_prefix_None entries p :
  find_prefix entries p = None ↔ ∀ e, e ∈ entries → r_path_prefix e ≠ p.
Proof.
  unfold find_prefix. destruct (list_find _ _) as [[i x]|] eqn:E; simpl.
  - apply list_find_Some in E as (Hi & Hp & _). split; [done|]. intros Hn.
    destruct (Hn x); [by eapply list_elem_of_lookup_2|done].
  - apply list_find_None in E. rewrite Forall_forall in E. done.
Qed.

(** *** Selecting *)

Lemma select_entry_spec entries path :
  StronglySorted (λ a b, prefix_leb a b = true) entries →
  match select_entry entries path with
  | Some e => e ∈ entries ∧ prefix_matches path e = true ∧
      ∀ e', e' ∈ entries → prefix_matches path e' = true →
        (prefix_rank (r_path_prefix e') ≤ prefix_rank (r_path_prefix e))%nat
  | None => ∀ e', e' ∈ entries → prefix_matches path e' = false
  end.
Proof.
  intros Hs. unfold select_entry. destruct (list_find _ _) as [[i e]|] eqn:E; simpl.
  - apply list_find_Some in E as (Hi & Hm & Hbefore).
    split_and!; [by eapply list_elem_of_lookup_2|done|]. intros e' [j Hj]%list_elem_of_lookup Hm'.
    destruct (lt_eq_lt_dec i j) as [[Hlt| ->]|Hgt].
    + apply prefix_leb_rank. by apply (StronglySorted_lookup_lt _ _ i j e e' Hs).
    + by simplify_eq.
    + by destruct (Hbefore j e' Hj Hgt).
  - apply list_find_None in E. rewrite Forall_forall in E. intros e' Hin.
    apply not_true_is_false, (E e' Hin).
Qed.

(** *** The invariant *)

Lemma entries_wf_insert entries e :
  NoDup (r_path_prefix <$> entries) →
  entries_wf (sort_by_prefix_length_descending (filter (λ x, r_path_prefix x ≠ r_path_prefix e) entries ++ [e])).
Proof.
  intros Hnd. unfold sort_by_prefix_length_descending. split_and!.
  - intros Heq. assert (e ∈ ([] : list (RouteEntry LB))) as He%elem_of_nil; [|done].
    rewrite <-Heq, elem_of_sort_by, elem_of_app. right. by apply list_elem_of_singleton.
  - rewrite sort_by_Permutation, fmap_app. apply NoDup_app. split_and!.
    + eapply sublist_NoDup; [exact Hnd|]. apply fmap_sublist, sublist_filter.
    + intros p (x & -> & [Hx _]%list_elem_of_filter)%list_elem_of_fmap Hp%list_elem_of_singleton. done.
    + apply NoDup_singleton.
  - apply sort_by_sorted; [apply prefix_leb_total|apply prefix_leb_trans].
Qed.

Lemma entries_wf_filter entries p :
  entries_wf entries → filter (λ x, r_path_prefix x ≠ p) entries ≠ [] →
  entries_wf (filter (λ x, r_path_prefix x ≠ p) entries).
Proof.
  intros (_ & Hnd & Hs) Hne. split_and!; [done| |by apply StronglySorted_filter].
  eapply sublist_NoDup; [exact Hnd|]. apply fmap_sublist, sublist_filter.
Qed.

Lemma routes_NoDup m host :
  routes_wf m → NoDup (r_path_prefix <$> default [] (routes m !! host)).
Proof.
  intros Hwf. destruct (routes m !! host) as [l|] eqn:El; [|constructor].
  apply (Hwf _ _ El).
Qed.

Lemma routes_wf_insert m host e : routes_wf m → routes_wf (insert_entry m host e).
Proof.
  intros Hwf. unfold insert_entry, routes_wf. simpl. apply map_Forall_insert_2; [|done].
  apply entries_wf_insert. by apply routes_NoDup.
Qed.

Lemma routes_wf_remove m host p : routes_wf m → routes_wf (remove m host p).2.
Proof.
  intros Hwf. unfold remove. destruct (routes m !! host) as [l|] eqn:El; [|done].
  unfold routes_wf. simpl. case_bool_decide; [by apply map_Forall_delete|].
  apply map_Forall_insert_2; [|done]. apply entries_wf_filter; [|done]. apply (Hwf _ _ El).
Qed.

(** Refreshing keeps the prefixes, and so the order. *)
Lemma refresh_prefix now e : r_path_prefix (refresh_route now e) = r_path_prefix e.
Proof. done. Qed.

Lemma routes_wf_refresh now m : routes_wf m → routes_wf (refresh_due_routes now m).
Proof.
  intros Hwf host l. simpl. rewrite lookup_fmap, fmap_Some. intros (l0 & Hl0 & ->).
  destruct (Hwf _ _ Hl0) as (Hne & Hnd & Hs). split_and!.
  - by intros ?%fmap_nil_inv.
  - rewrite <-list_fmap_compose. by rewrite (list_fmap_ext _ r_path_prefix).
  - clear -Hs. induction Hs as [|x l Hs IH Hx]; constructor; [done|].
    apply Forall_fmap. eapply Forall_impl; [exact Hx|]. done.
Qed.

(** *** The table as a map *)

Lemma find_prefix_refresh now entries p : find_prefix (refresh_route now <$> entries) p = refresh_route now <$> find_prefix entries p.
Proof.
  unfold find_prefix. rewrite list_find_fmap. change (list_find (_ ∘ _) entries) with (list_find (λ e, r_path_prefix e = p) entries).
  by destruct (list_find _ _) as [[i e]|].
Qed.
Lemma route_at_refresh now m h p : route_at (refresh_due_routes now m) h p = refresh_route now <$> route_at m h p.
Proof.
  unfold route_at. simpl. rewrite lookup_fmap. destruct (routes m !! h) as [entries|]; [|done]. apply find_prefix_refresh.
Qed.

Lemma route_at_insert m host e h p :
  routes_wf m →
  route_at (insert_entry m host e) h p =
  if bool_decide (h = host ∧ p = r_path_prefix e) then Some e else route_at m h p.
Proof.
  intros Hwf. unfold route_at, insert_entry. simpl. destruct (decide (h = host)) as [->|Hne].
  - rewrite lookup_insert_eq. cbn [mbind option_bind].
    pose proof (routes_NoDup m host Hwf) as Hnd0.
    set (l := default [] (routes m !! host)) in *.
    destruct (entries_wf_insert l e Hnd0) as (_ & Hnd & _).
    assert ((routes m !! host ≫= λ entries, find_prefix entries p) = find_prefix l p) as ->.
    { unfold l. by destruct (routes m !! host). }
    case_bool_decide as Hp.
    + destruct Hp as [_ ->]. apply find_prefix_iff; [done|]. split; [|done].
      unfold sort_by_prefix_length_descending. rewrite elem_of_sort_by, elem_of_app.
      right. by apply list_elem_of_singleton.
    + apply option_eq. intros x. rewrite !find_prefix_iff by done.
      unfold sort_by_prefix_length_descending. rewrite elem_of_sort_by, elem_of_app, list_elem_of_filter,
        list_elem_of_singleton. split.
      * intros [[[_ ?]| ->] <-]; [done|]. destruct Hp. done.
      * intros [? <-]. split; [|done]. left. split; [|done]. intros Heq. by destruct Hp.
  - rewrite lookup_insert_ne by done. rewrite bool_decide_false by naive_solver. done.
Qed.

Lemma route_at_remove m host p0 h p :
  routes_wf m →
  route_at (remove m host p0).2 h p = (if bool_decide (h = host ∧ p = p0) then None else route_at m h p) ∧
  ((remove m host p0).1 = true ↔ is_Some (route_at m host p0)).
Proof.
  intros Hwf. unfold route_at, remove. destruct (routes m !! host) as [l|] eqn:El; simpl.
  2:{ split; [|split; [done|by intros []]]. case_bool_decide as Hd; [|done]. destruct Hd as [-> ->].
      by rewrite El. }
  destruct (Hwf _ _ El) as (_ & Hnd & _).
  set (kept := filter (λ x, r_path_prefix x ≠ p0) l).
  assert (NoDup (r_path_prefix <$> kept)) as Hnk.
  { eapply sublist_NoDup; [exact Hnd|]. apply fmap_sublist, sublist_filter. }
  assert (∀ q, find_prefix kept q = if bool_decide (q = p0) then None else find_prefix l q) as Hkept.
  { intros q. apply option_eq. intros x. rewrite find_prefix_iff by done. unfold kept.
    rewrite list_elem_of_filter. case_bool_decide as Hq; [|rewrite find_prefix_iff by done]; naive_solver. }
  split.
  - destruct (decide (h = host)) as [->|Hne].
    + rewrite El. simpl. transitivity (find_prefix kept p).
      * case_bool_decide as Hk; [|by rewrite lookup_insert_eq].
        rewrite lookup_delete_eq. simpl. by rewrite Hk.
      * rewrite Hkept. do 2 case_bool_decide; naive_solver.
    + rewrite (bool_decide_false (h = host ∧ p = p0)) by naive_solver.
      case_bool_decide; [by rewrite lookup_delete_ne|by rewrite lookup_insert_ne].
  - rewrite negb_true_iff, Nat.eqb_neq. split.
    + intros Hlen. destruct (find_prefix l p0) eqn:Ef; [by eexists|]. destruct Hlen.
      f_equal. apply filter_all. by apply find_prefix_None.
    + intros [e He] Hlen. apply find_prefix_Some in He as [Hin <-].
      pose proof (length_filter_lt (λ x, r_path_prefix x ≠ r_path_prefix e) l e Hin).
      unfold kept in Hlen. naive_solver lia.
Qed.
End lemmas.

Lemma starts_with_prefix p s : starts_with p s = true ↔ bytes p `prefix_of` bytes s.
Proof.
  unfold starts_with. revert s. induction p as [|c p IH]; intros s.
  - change (strip_prefix "" s) with (Some s). split; [intros _; apply prefix_nil|done].
  - destruct s as [|d s].
    { change (strip_prefix (String c p) "") with (@None string). split; [done|]. by intros [? [=]]. }
    change (strip_prefix (String c p) (String d s)) with
      (if bool_decide (c = d) then strip_prefix p s else None).
    change (bytes (String c p)) with (c :: bytes p). change (bytes (String d s)) with (d :: bytes s).
    case_bool_decide as Hcd.
    + subst d. rewrite IH. split; [apply prefix_cons|apply prefix_cons_inv_2].
    + split; [done|]. intros Hp. by destruct (prefix_cons_inv_1 _ _ _ _ Hp).
Qed.

(** Two prefixes of a path with the same length are the same. *)
Lemma prefix_unique p q path :
  starts_with p path = true → starts_with q path = true → String.length p = String.length q → p = q.
Proof.
  rewrite !starts_with_prefix, <-!length_bytes. intros [x Hx] [y Hy] Hlen. apply bytes_inj.
  rewrite Hx in Hy. by apply app_inj_1 in Hy as [? _].
Qed.

Section lookup.
Context {LB : Type} `{Balancer LB, OpenSsl}.
Implicit Types m : RouteManager (LB := LB).

Lemma rank_unique (e1 e2 : RouteEntry LB) path :
  prefix_matches path e1 = true → prefix_matches path e2 = true →
  prefix_rank (r_path_prefix e1) = prefix_rank (r_path_prefix e2) → r_path_prefix e1 = r_path_prefix e2.
Proof.
  unfold prefix_matches, prefix_rank. destruct (r_path_prefix e1), (r_path_prefix e2); try done.
  intros ?? [= ?]. f_equal. by eapply prefix_unique.
Qed.

Lemma route_at_elem m host entries p e :
  routes_wf m → routes m !! host = Some entries →
  route_at m host p = Some e ↔ e ∈ entries ∧ r_path_prefix e = p.
Proof.
  intros Hwf Hl. unfold route_at. rewrite Hl. cbn [mbind option_bind].
  apply find_prefix_iff. apply (Hwf _ _ Hl).
Qed.

(** Selecting among the entries of a host finds its best match. *)
Lemma select_best m host path :
  routes_wf m →
  match (entries ← routes m !! host; select_entry entries path) with
  | Some e => best_match m host path e
  | None => ∀ p e', route_at m host p = Some e' → prefix_matches path e' = false
  end.
Proof.
  intros Hwf. destruct (routes m !! host) as [entries|] eqn:El; cbn [mbind option_bind].
  - pose proof (select_entry_spec entries path ltac:(apply (Hwf _ _ El))) as Hs.
    destruct (select_entry entries path) as [e|].
    + destruct Hs as (Hin & Hm & Hmax). split_and!; [by apply (route_at_elem m host entries)|done|].
      intros p e' [Hin' <-]%(route_at_elem m host entries); [|done|done]. by apply Hmax.
    + intros p e' [Hin' _]%(route_at_elem m host entries); [|done|done]. by apply Hs.
  - intros p e'. unfold route_at. by rewrite El.
Qed.

Lemma best_match_unique m host path e1 e2 :
  best_match m host path e1 → best_match m host path e2 → e1 = e2.
Proof.
  intros (H1 & M1 & B1) (H2 & M2 & B2). pose proof (B1 _ _ H2 M2). pose proof (B2 _ _ H1 M1).
  assert (r_path_prefix e1 = r_path_prefix e2) as Heq by (eapply rank_unique; [done..|lia]).
  rewrite Heq in H1. congruence.
Qed.

Lemma select_iff m host path e :
  routes_wf m → (entries ← routes m !! host; select_entry entries path) = Some e ↔ best_match m host path e.
Proof.
  intros Hwf. pose proof (select_best m host path Hwf) as Hs.
  destruct (routes m !! host ≫= λ entries, select_entry entries path) as [e'|].
  - split; [by intros [= <-]|]. intros Hb. f_equal. by eapply best_match_unique.
  - split; [done|]. intros (Hr & Hm & _). by rewrite (Hs _ _ Hr) in Hm.
Qed.
End lookup.

Module RoutesProps.

Section props.
Context {LB : Type} `{Balancer LB, OpenSsl}.
Implicit Types m : RouteManager (LB := LB).

(** What happens to the tables of a proxy: an admin request, or a tick. *)
Inductive rstep : RouteManager (LB := LB) → RouteManager (LB := LB) → Prop :=
| rstep_request version now m request : rstep m (handle_request version now m request).2
| rstep_refresh now m : rstep m (refresh_due_routes now m).

Lemma reload_routes m host m' :
  reload_static_certificate m host = Some m' → routes m' = routes m ∧ tcp_routes m' = tcp_routes m.
Proof.
  unfold reload_static_certificate. destruct (cert_store m); [|done]. simpl.
  destruct (reload_static _ _); [|done]. simpl. by intros [= <-].
Qed.

Lemma request_keeps_wf version now m request :
  routes_wf m → routes_wf (handle_request version now m request).2.
Proof.
  intros Hwf. destruct request; simpl; try done.
  - destruct (if reload_certificate then _ else _) as [m1|] eqn:Er; [|done].
    assert (routes_wf m1) as Hwf1.
    { destruct reload_certificate; [|by injection Er as <-].
      unfold routes_wf. by rewrite (proj1 (reload_routes _ _ _ Er)). }
    unfold apply. destruct (new_lb _ _ _ _); [|done]. simpl. by apply routes_wf_insert.
  - by apply routes_wf_remove.
  - destruct (tcp_apply _ _ _ _ _ _ _ _) eqn:Et; [|done]. unfold tcp_apply in Et.
    destruct (tcp_check _ _ _); [|done]. destruct (new_lb _ _ _ _); [|done]. by injection Et as <-.
Qed.

Lemma reachable_wf store m : rtc rstep (new_with_cert_store store) m → routes_wf m.
Proof.
  revert m. apply (rtc_ind_r (λ m, routes_wf m) (new_with_cert_store store)).
  - intros h l. simpl. by rewrite lookup_empty.
  - intros x y _ Hs Hx. destruct Hs; [by apply request_keeps_wf|by apply routes_wf_refresh].
Qed.

(** C28: The table implements a map from host and prefix to route.  In every state the admin
    requests and ticks lead to: applying a route, when it succeeds, sets that key and no
    other, to a route with the requested name, port and server; when it fails nothing
    changes; removing deletes that key and no other; every other request leaves the routes
    alone; a tick refreshes the route of every key that is set and sets no other; and the list
    shows exactly the keys that are set. *)
Theorem route_table_refines_a_map version now store m :
  rtc rstep (new_with_cert_store store) m →
  (∀ host prefix dns name port refresh tls reload preserve hc m',
     handle_request version now m (RouteApply host prefix dns name port refresh tls reload preserve hc) = (AdminOk, m') →
     ∃ e, r_dns_server e = dns ∧ r_name e = name ∧ r_port e = port ∧
       r_tls e = (if preserve then default tls (r_tls <$> route_at m host prefix) else tls) ∧
       ∀ h p, route_at m' h p = if bool_decide (h = host ∧ p = prefix) then Some e else route_at m h p) ∧
  (∀ host prefix dns name port refresh tls reload preserve hc text m',
     handle_request version now m (RouteApply host prefix dns name port refresh tls reload preserve hc) = (Error text, m') →
     ∀ h p, route_at m' h p = route_at m h p) ∧
  (∀ host prefix, ∀ h p,
     route_at (handle_request version now m (RouteRemove host prefix)).2 h p
     = if bool_decide (h = host ∧ p = prefix) then None else route_at m h p) ∧
  (∀ request, match request with
     | RouteApply _ _ _ _ _ _ _ _ _ _ | RouteRemove _ _ => True
     | _ => routes (handle_request version now m request).2 = routes m
     end) ∧
  (∀ h p, route_at (refresh_due_routes now m) h p = refresh_route now <$> route_at m h p) ∧
  (∀ h e, (h, e) ∈ list_routes m ↔ route_at m h (r_path_prefix e) = Some e).
Proof.
  intros Hr%reachable_wf. split_and!.
  - intros host prefix dns name port refresh tls reload preserve hc m'. simpl.
    destruct (if reload then _ else _) as [m1|] eqn:Er; [|done].
    assert (routes m1 = routes m) as Hm1.
    { destruct reload; [apply (reload_routes _ _ _ Er)|by injection Er as <-]. }
    assert (∀ h p, route_at m1 h p = route_at m h p) as Hat by (intros; unfold route_at; by rewrite Hm1).
    unfold apply. destruct (new_lb _ _ _ _) as [lb|]; [|done]. intros [= <-].
    match goal with |- context [insert_entry _ _ ?e] => exists e end.
    split_and!; [reflexivity|reflexivity|reflexivity| |].
    + simpl. destruct preserve; [|done]. f_equal. unfold route_tls, route_at. by rewrite Hm1.
    + intros h p. rewrite route_at_insert by (unfold routes_wf; by rewrite Hm1). by rewrite Hat.
  - intros host prefix dns name port refresh tls reload preserve hc text m'. simpl.
    destruct (if reload then _ else _) as [m1|] eqn:Er; [|by intros [= _ <-]].
    assert (routes m1 = routes m) as Hm1.
    { destruct reload; [apply (reload_routes _ _ _ Er)|by injection Er as <-]. }
    unfold apply. destruct (new_lb _ _ _ _) as [lb|]; [done|]. intros [= _ <-] h p.
    unfold route_at. by rewrite Hm1.
  - intros host prefix h p. simpl. by apply route_at_remove.
  - intros []; simpl; try done. unfold tcp_apply.
    destruct (tcp_check _ _ _); [|done]. by destruct (new_lb _ _ _ _).
  - apply route_at_refresh.
  - intros h e. unfold list_routes. rewrite list_elem_of_bind. split.
    + intros ([h' l] & (e' & [= -> ->] & He)%list_elem_of_fmap & Hl%elem_of_map_to_list).
      by apply (route_at_elem m h' l).
    + unfold route_at. destruct (routes m !! h) as [l|] eqn:El; [|done]. cbn [mbind option_bind].
      intros [He _]%find_prefix_Some. exists (h, l). split; [|by apply elem_of_map_to_list].
      apply list_elem_of_fmap. by exists e.
Qed.

(** A request goes to the most specific route.  In every reachable state the route of a
    host and path is, and is only, the one with the longest registered prefix of the path
    among the routes of exactly that host, or, when none of these matches, among those of
    the wildcard one label above it. *)
Theorem lookup_is_the_longest_prefix store m host path e :
  rtc rstep (new_with_cert_store store) m →
  lookup_route m host path = Some e ↔
  best_match m host path e ∨
  ((∀ p e', route_at m host p = Some e' → prefix_matches path e' = false) ∧
   ∃ key, parent_wildcard_key host = Some key ∧ best_match m key path e).
Proof.
  intros Hwf%reachable_wf. unfold lookup_route. pose proof (select_best m host path Hwf) as Hs.
  destruct (routes m !! host ≫= λ entries, select_entry entries path) as [e1|] eqn:E1.
  - split.
    + intros [= <-]. by left.
    + intros [Hb|[Hn _]]; [f_equal; by eapply best_match_unique|].
      destruct Hs as (Hr & Hm & _). by rewrite (Hn _ _ Hr) in Hm.
  - split.
    + destruct (parent_wildcard_key host) as [key|]; [|done]. cbn [mbind option_bind].
      intros Hsel%select_iff; [|done]. right. split; [done|]. by exists key.
    + intros [(Hr & Hm & _)|(_ & key & -> & Hb)]; [by rewrite (Hs _ _ Hr) in Hm|].
      cbn [mbind option_bind]. by apply select_iff.
Qed.

(** Certificates are asked for exactly the hosts that want them: a host is on the list of
    the issuer when it is not a wildcard and some route of it, with whatever prefix, wants
    TLS; it is on the list once. *)
Theorem tls_hosts_are_exact store m :
  rtc rstep (new_with_cert_store store) m →
  NoDup (tls_hosts m) ∧
  ∀ host, host ∈ tls_hosts m ↔
    is_wildcard_host host = false ∧ ∃ p e, route_at m host p = Some e ∧ r_tls e = true.
Proof.
  intros Hwf%reachable_wf. unfold tls_hosts. split.
  - eapply sublist_NoDup; [apply (NoDup_fst_map_to_list (routes m))|].
    apply fmap_sublist, sublist_filter.
  - intros host. rewrite list_elem_of_fmap. split.
    + intros ([h l] & -> & [Hf Hl%elem_of_map_to_list]%list_elem_of_filter). simpl in *.
      apply andb_true_iff in Hf as [Hw%negb_true_iff (e & He%list_elem_of_In & Ht)%existsb_exists].
      split; [done|]. exists (r_path_prefix e), e. split; [|done]. by apply (route_at_elem m h l).
    + intros (Hw & p & e & Hr & Ht). unfold route_at in Hr.
      destruct (routes m !! host) as [l|] eqn:El; [|done]. cbn [mbind option_bind] in Hr.
      apply find_prefix_Some in Hr as [He _]. exists (host, l). split; [done|].
      apply list_elem_of_filter. split; [|by apply elem_of_map_to_list]. simpl.
      rewrite Hw. apply existsb_exists. exists e. split; [by apply list_elem_of_In|done].
Qed.

(** Steps that do not remove the route of a port. *)
Inductive keep_step (port : N) : RouteManager (LB := LB) → RouteManager (LB := LB) → Prop :=
| keep_request version now m request :
    request ≠ TcpRouteRemove port → keep_step port m (handle_request version now m request).2
| keep_refresh now m : keep_step port m (refresh_due_routes now m).

Lemma tcp_name_kept port m m' :
  keep_step port m m' → t_name <$> tcp_routes m !! port ≠ None →
  t_name <$> tcp_routes m' !! port = t_name <$> tcp_routes m !! port.
Proof.
  intros [version now m0 request Hr|now m0] Hne; [destruct request; simpl; try done|].
  - destruct (if reload_certificate then _ else _) as [m1|] eqn:Er; [|done].
    assert (tcp_routes m1 = tcp_routes m0) as Hm1.
    { destruct reload_certificate; [apply (reload_routes _ _ _ Er)|by injection Er as <-]. }
    unfold apply. destruct (new_lb _ _ _ _); simpl; by rewrite Hm1.
  - unfold remove. by destruct (routes m0 !! host).
  - unfold tcp_apply. destruct (tcp_check m0 listen_port name) as [[]|] eqn:Ec; [|done].
    destruct (new_lb _ _ _ _); [|done]. simpl. destruct (decide (listen_port = port)) as [->|Hp].
    + rewrite lookup_insert_eq. unfold tcp_check in Ec. destruct (tcp_routes m0 !! port) as [e|]; [|done].
      case_bool_decide; [|done]. simpl. congruence.
    + by rewrite lookup_insert_ne.
  - rewrite lookup_delete_ne; [done|]. intros ->. done.
  - simpl. rewrite lookup_fmap. by destruct (tcp_routes m0 !! port).
Qed.

(** A public port has one owner, as long as requests are handled one after the other:
    once a name has a port, no sequence of requests and ticks gives it to another name
    without a removal, and an attempt to take it is refused and changes nothing. *)
Theorem tcp_port_keeps_its_owner port m m' name :
  rtc (keep_step port) m m' → t_name <$> tcp_routes m !! port = Some name →
  t_name <$> tcp_routes m' !! port = Some name ∧
  ∀ version now dns other target refresh hc, other ≠ name →
    ∃ text, handle_request version now m' (TcpRouteApply port dns other target refresh hc) = (Error text, m').
Proof.
  intros Hr Hn. assert (t_name <$> tcp_routes m' !! port = Some name) as Hn'.
  { induction Hr as [|x y z Hs _ IH]; [done|]. apply IH.
    rewrite (tcp_name_kept _ _ _ Hs); [done|]. by rewrite Hn. }
  split; [done|]. intros version now dns other target refresh hc Hne. simpl. unfold tcp_apply, tcp_check.
  destruct (tcp_routes m' !! port) as [e|]; [|done]. injection Hn' as He.
  rewrite bool_decide_false by congruence. by eexists.
Qed.

(** Admin connections are served concurrently: [tcp_apply] checks, waits for the first
    discovery, and inserts. *)
Inductive TcpTask :=
| TcpStart (listen_port : N) (e : TcpRouteEntry LB)
| TcpChecked (listen_port : N) (e : TcpRouteEntry LB)
| TcpAnswered (response : result string ()).

Inductive tcp_step : RouteManager (LB := LB) * gmap string TcpTask →
    RouteManager (LB := LB) * gmap string TcpTask → Prop :=
| tcp_step_check m tasks t port e r :
    tasks !! t = Some (TcpStart port e) → tcp_check m port (t_name e) = r →
    tcp_step (m, tasks)
      (m, <[t := match r with Ok _ => TcpChecked port e | Err text => TcpAnswered (Err text) end]> tasks)
| tcp_step_insert m tasks t port e :
    tasks !! t = Some (TcpChecked port e) →
    tcp_step (m, tasks) (tcp_insert m port e, <[t := TcpAnswered (Ok ())]> tasks).

(** Concurrent requests can take a port from each other.  When two connections apply
    routes of different names to the same free port, both checks can pass before either
    insertion: both are told that their route is applied, and only the second one's is. *)
Theorem concurrent_tcp_routes_overwrite store port (e1 e2 : TcpRouteEntry LB) :
  t_name e1 ≠ t_name e2 →
  ∃ m', rtc tcp_step
      (new_with_cert_store store, <["a" := TcpStart port e1]> {[ "b" := TcpStart port e2 ]})
      (m', <["a" := TcpAnswered (Ok ())]> {[ "b" := TcpAnswered (Ok ()) ]}) ∧
    tcp_routes m' !! port = Some e2 ∧ t_name e2 ≠ t_name e1.
Proof.
  intros Hne. exists (tcp_insert (tcp_insert (new_with_cert_store store) port e1) port e2).
  split_and!; [|apply lookup_insert_eq|done].
  eapply rtc_l; [apply (tcp_step_check _ _ "a" port e1 (Ok ())); [by rewrite lookup_insert_eq|done]|].
  eapply rtc_l; [apply (tcp_step_check _ _ "b" port e2 (Ok ())); [|done]|].
  { rewrite !lookup_insert_ne by done. apply lookup_singleton_eq. }
  eapply rtc_l; [apply (tcp_step_insert _ _ "a" port e1)|].
  { rewrite lookup_insert_ne by done. apply lookup_insert_eq. }
  eapply rtc_l; [apply (tcp_step_insert _ _ "b" port e2)|].
  { rewrite lookup_insert_ne by done. apply lookup_insert_eq. }
  match goal with |- rtc _ (?m1, ?t1) (?m2, ?t2) => assert (t1 = t2) as ->; [|apply rtc_refl] end.
  apply map_eq. intros k. destruct (decide (k = "a")) as [->|]; [|destruct (decide (k = "b")) as [->|]].
  - by simplify_map_eq.
  - by simplify_map_eq.
  - by rewrite !lookup_insert_ne, !lookup_singleton_ne by done.
Qed.
End props.

(** A balancer that is the name it discovers. *)
Definition sample_balancer : Balancer string :=
  {| new_lb := λ _ name _ _, Ok name; backends := λ _, []; lb_update := id; lb_run_health_check := id |}.

Definition sample_apply (host : string) (prefix : option string) (name : string) : AdminRequest :=
  RouteApply host prefix "10.0.0.1:53" name 80 5 true false false None.
Definition sample_manager : @RouteManager string CertsProps.sample_openssl :=
  (@handle_request _ sample_balancer CertsProps.sample_openssl "1" 0
    (@handle_request _ sample_balancer CertsProps.sample_openssl "1" 0 (new (LB := string))
       (sample_apply "*.example.com" None "wild")).2
    (sample_apply "*.example.com" (Some "/api") "api")).2.

Lemma sample_manager_reachable :
  rtc (@rstep string sample_balancer CertsProps.sample_openssl) (new_with_cert_store None) sample_manager.
Proof. eapply rtc_l; [apply (rstep_request "1" 0)|]. eapply rtc_once, rstep_request. Qed.

Lemma route_table_refines_a_map_witness :
  r_name <$> @route_at string CertsProps.sample_openssl
    (@handle_request _ sample_balancer CertsProps.sample_openssl "1" 0 sample_manager
       (RouteRemove "*.example.com" None)).2 "*.example.com" (Some "/api") = Some "api".
Proof.
  destruct (@route_table_refines_a_map string sample_balancer CertsProps.sample_openssl "1" 0 None
    sample_manager sample_manager_reachable) as (_ & _ & Hr & _).
  rewrite (Hr "*.example.com" None "*.example.com" (Some "/api")). vm_compute. reflexivity.
Defined.

Lemma lookup_is_the_longest_prefix_witness :
  ∃ e, @lookup_route string CertsProps.sample_openssl sample_manager "a.example.com" "/api/x" = Some e ∧
    best_match sample_manager "*.example.com" "/api/x" e.
Proof.
  destruct (@lookup_route string CertsProps.sample_openssl sample_manager "a.example.com" "/api/x") as [e|] eqn:E;
    [|vm_compute in E; discriminate E].
  exists e. split; [done|].
  apply (@lookup_is_the_longest_prefix string sample_balancer CertsProps.sample_openssl None
    sample_manager "a.example.com" "/api/x" e sample_manager_reachable) in E as [(Hr & _)|(_ & key & Hk & Hb)].
  - exfalso. vm_compute in Hr. discriminate Hr.
  - injection Hk as <-. exact Hb.
Defined.

Lemma tls_hosts_are_exact_witness :
  is_Some (@route_at string CertsProps.sample_openssl sample_manager "*.example.com" None) ∧
  "*.example.com" ∉ tls_hosts sample_manager.
Proof.
  destruct (@tls_hosts_are_exact string sample_balancer CertsProps.sample_openssl None
    sample_manager sample_manager_reachable) as [_ Ht].
  split; [vm_compute; by eexists|]. rewrite (Ht "*.example.com"). intros [Hw _]. discriminate Hw.
Defined.

Definition sample_tcp (name : string) : TcpRouteEntry string :=
  tcp_entry 0 name 5432 "10.0.0.1:53" name 5432 5 None.
Definition sample_tcp_manager : @RouteManager string CertsProps.sample_openssl :=
  tcp_insert (new_with_cert_store None) 5432 (sample_tcp "db.jiji").

Lemma tcp_port_keeps_its_owner_witness :
  ∃ text, @handle_request _ sample_balancer CertsProps.sample_openssl "1" 0 sample_tcp_manager
    (TcpRouteApply 5432 "10.0.0.1:53" "other.jiji" 5432 5 None) = (Error text, sample_tcp_manager).
Proof.
  destruct (@tcp_port_keeps_its_owner string sample_balancer CertsProps.sample_openssl 5432
    sample_tcp_manager sample_tcp_manager "db.jiji") as [_ Hr]; [apply rtc_refl|reflexivity|].
  by apply (Hr "1" 0 "10.0.0.1:53" "other.jiji" 5432 5 None).
Defined.

Lemma concurrent_tcp_routes_overwrite_witness :
  ∃ m' : @RouteManager string CertsProps.sample_openssl,
    rtc tcp_step
      (new_with_cert_store None, <["a" := TcpStart 5432 (sample_tcp "db.jiji")]>
         {[ "b" := TcpStart 5432 (sample_tcp "other.jiji") ]})
      (m', <["a" := TcpAnswered (Ok ())]> {[ "b" := TcpAnswered (Ok ()) ]}).
Proof.
  destruct (@concurrent_tcp_routes_overwrite string CertsProps.sample_openssl None 5432
    (sample_tcp "db.jiji") (sample_tcp "other.jiji")) as (m' & Hr & _); [done|].
  by exists m'.
Defined.
End RoutesProps.
