(* ===== verification/Replication.v ===== *)
(** Anti-entropy between agents: [jiji-agent/src/catalog_replication.rs].  A node sends the
    records it owns, as its tables have them, and takes the records of its peer under the
    peer's source address; every record is its own transaction, so the records in front of
    a refused one stay.

    The store of a node is its three logs; framing, sockets and timeouts are not modelled. *)

From S2P Require Import Prelude Text Cidr Membership Catalog Desired OpLog.
Open Scope N_scope.

Definition MAX_CATALOG_RECORDS : nat := 4096.
Definition MAX_DESIRED_RECORDS : nat := 1024.

Record Exchange := {
  x_project_id : string;
  x_recovery_epoch : N;
  x_protocol_version : N;
  x_schema_version : N;
  x_operations : list CatalogRecord;
  x_desired_operations : list DesiredStateRecord;
}.

Inductive CatalogReplicationError :=
| ReplicationStore (e : StoreError)
| ReplicationMembership (e : MembershipError)
| SnapshotTooLarge (kind : string) (records limit : nat)
| ReplicationWrongProject
| ReplicationRecoveryEpoch
| IncompatibleVersion.

(** [Exchange::validate]. *)
Definition validate_exchange (x : Exchange) (identity : NodeIdentity) :
    result CatalogReplicationError () :=
  if negb (bool_decide (x_project_id x = identity_project_id identity)) then Err ReplicationWrongProject
  else if negb (x_recovery_epoch x =? identity_recovery_epoch identity) then Err ReplicationRecoveryEpoch
  else if negb (x_protocol_version x =? CATALOG_PROTOCOL_VERSION)
          || negb (x_schema_version x =? CATALOG_SCHEMA_VERSION) then Err IncompatibleVersion
  else if (MAX_CATALOG_RECORDS <? length (x_operations x))%nat then
    Err (SnapshotTooLarge "catalog" (length (x_operations x)) MAX_CATALOG_RECORDS)
  else if (MAX_DESIRED_RECORDS <? length (x_desired_operations x))%nat then
    Err (SnapshotTooLarge "desired-state" (length (x_desired_operations x)) MAX_DESIRED_RECORDS)
  else Ok ().

(** The records of a node in its own tables. *)
Definition own_catalog (s : Replicated) (node : string) : list CatalogRecord :=
  filter (λ r, owner_node_id r = node) (latest_catalog (catalog_log s)).
Definition own_desired (s : Replicated) (node : string) : list DesiredStateRecord :=
  filter (λ r, Desired.author_node_id r = node) (desired_snapshot_operations (desired_log s)).

(** [Exchange::from_store]. *)
Definition exchange_from_store (s : Replicated) (identity : NodeIdentity) :
    result CatalogReplicationError Exchange :=
  let x := {| x_project_id := identity_project_id identity;
              x_recovery_epoch := identity_recovery_epoch identity;
              x_protocol_version := CATALOG_PROTOCOL_VERSION;
              x_schema_version := CATALOG_SCHEMA_VERSION;
              x_operations := own_catalog s (identity_node_id identity);
              x_desired_operations := own_desired s (identity_node_id identity) |} in
  let? _ := validate_exchange x identity in Ok x.

Definition set_catalog (s : Replicated) (l : Log CatalogRecord) : Replicated :=
  {| membership_log := membership_log s; catalog_log := l; desired_log := desired_log s |}.
Definition set_desired (s : Replicated) (l : Log DesiredStateRecord) : Replicated :=
  {| membership_log := membership_log s; catalog_log := catalog_log s; desired_log := l |}.

Section replication.
Context `{ContentHash MembershipRecord, ContentHash CatalogRecord, ContentHash DesiredStateRecord}.

(** The two loops of [apply_exchange]: the first refused record ends them, and what was
    applied before it stays. *)
Fixpoint apply_catalog_records (c : Capacity) (prov : RecordProvenance) (scope : CatalogScope)
    (l : Log CatalogRecord) (rs : list CatalogRecord) : result StoreError () * Log CatalogRecord :=
  match rs with
  | [] => (Ok (), l)
  | r :: rs =>
      match apply_catalog c l r prov scope with
      | Ok (_, l') => apply_catalog_records c prov scope l' rs
      | Err e => (Err e, l)
      end
  end.

Fixpoint apply_desired_records (c : Capacity) (prov : RecordProvenance) (scope : DesiredScope)
    (l : Log DesiredStateRecord) (rs : list DesiredStateRecord) :
    result StoreError () * Log DesiredStateRecord :=
  match rs with
  | [] => (Ok (), l)
  | r :: rs =>
      match apply_desired c l r prov scope with
      | Ok (_, l') => apply_desired_records c prov scope l' rs
      | Err e => (Err e, l)
      end
  end.

Definition catalog_scope (identity : NodeIdentity) (members : MembershipView) : CatalogScope :=
  {| Catalog.scope_project := identity_project_id identity;
     Catalog.scope_epoch := identity_recovery_epoch identity; Catalog.scope_members := members |}.
Definition desired_scope (identity : NodeIdentity) (members : MembershipView) : DesiredScope :=
  {| Desired.scope_project := identity_project_id identity;
     Desired.scope_epoch := identity_recovery_epoch identity; Desired.scope_members := members |}.

Definition apply_exchange (c : Capacity) (x : Exchange) (s : Replicated) (identity : NodeIdentity)
    (peer : SocketAddr) : result CatalogReplicationError () * Replicated :=
  match validate_exchange x identity with
  | Err e => (Err e, s)
  | Ok _ =>
      match Membership.from_records (membership_operations (membership_log s)) (identity_scope identity) with
      | Err e => (Err (ReplicationMembership e), s)
      | Ok members =>
          let '(r, l) := apply_catalog_records c (Peer peer) (catalog_scope identity members)
                           (catalog_log s) (x_operations x) in
          let s1 := set_catalog s l in
          match r with
          | Err e => (Err (ReplicationStore e), s1)
          | Ok _ =>
              let '(r, l) := apply_desired_records c (Peer peer) (desired_scope identity members)
                               (desired_log s1) (x_desired_operations x) in
              (map_err ReplicationStore r, set_desired s1 l)
          end
      end
  end.

(** One connection between two nodes, each with its identity and the address it is seen
    under: the caller sends, the other applies and answers with its own records, the caller
    applies.  A failure of one step ends the exchange there. *)
Record Peered := { p_store : Replicated; p_identity : NodeIdentity; p_address : SocketAddr }.

Definition with_store (p : Peered) (s : Replicated) : Peered :=
  {| p_store := s; p_identity := p_identity p; p_address := p_address p |}.

Definition sync_once (c : Capacity) (caller other : Peered) :
    result CatalogReplicationError () * (Peered * Peered) :=
  match exchange_from_store (p_store caller) (p_identity caller) with
  | Err e => (Err e, (caller, other))
  | Ok outbound =>
      let '(r, s) := apply_exchange c outbound (p_store other) (p_identity other) (p_address caller) in
      let other := with_store other s in
      match r with
      | Err e => (Err e, (caller, other))
      | Ok _ =>
          match exchange_from_store (p_store other) (p_identity other) with
          | Err e => (Err e, (caller, other))
          | Ok inbound =>
              let '(r, s) := apply_exchange c inbound (p_store caller) (p_identity caller) (p_address other) in
              (r, (with_store caller s, other))
          end
      end
  end.
End replication.

(** ** Lemmas *)

Section lemmas.
Context `{ContentHash MembershipRecord, ContentHash CatalogRecord, ContentHash DesiredStateRecord}.

(** No logged record of a deployment is above its winner, and a winner fits its columns. *)
Record log_bounded (log : Log CatalogRecord) : Prop := {
  lb_below : ∀ id r, (id, r) ∈ operations log → ∃ id' r', winners log !! deployment_id r = Some (id', r') ∧
    leb (Catalog.order r id) (Catalog.order r' id') = true;
  lb_fits : ∀ d id r, winners log !! d = Some (id, r) →
    Catalog.owner_epoch r ≤ i64_max ∧ Catalog.revision r ≤ i64_max;
}.

Lemma log_bounded_empty : log_bounded Log_empty.
Proof. split; simpl; [intros id r; by intros ?%elem_of_nil|intros d id r; by rewrite lookup_empty]. Qed.

Lemma winner_hash scope log v d id r :
  clog_ok scope log v → winners log !! d = Some (id, r) → content_hash r = Some id.
Proof. intros Hok Hw. eapply co_hash; [done|]. by eapply lw_logged; [apply Hok|]. Qed.

Lemma winner_in_scope scope log v d id r :
  clog_ok scope log v → winners log !! d = Some (id, r) → deployment_id r = d ∧ Catalog.in_scope scope r.
Proof.
  intros Hok Hw. destruct (catalog_from_records_wf _ _ _ (co_replay _ _ _ Hok scope ltac:(done))) as [Hk _].
  apply (Hk d r). apply (co_winners _ _ _ Hok). eauto.
Qed.

(** The database takes what the view takes. *)
Lemma log_bounded_apply c scope scope' log v r prov out log' :
  same_project scope scope' → clog_ok scope log v → log_bounded log →
  apply_catalog c log r prov scope' = Ok (out, log') → log_bounded log'.
Proof.
  intros Hsp Hok0 [Hb Hf]. pose proof (clog_ok_members _ _ _ _ Hsp Hok0) as Hok.
  unfold apply_catalog, Catalog.record_id. destruct (content_hash r) as [id|] eqn:Hid; [|done]. simpl.
  destruct (has_operation log id) eqn:Hnew; [by intros [= <- <-]|]. apply has_operation_false in Hnew.
  destruct (ensure_replication_capacity c); [|done]. rewrite (co_replay _ _ _ Hok scope') by done. simpl.
  destruct (Catalog.apply v r prov scope') as [[o v']|e] eqn:Ea; [|done]. simpl.
  apply catalog_apply_inv in Ea as [_ (id' & Hid' & Hr)]. rewrite Hid in Hid'. injection Hid' as <-.
  destruct Hr as [Hdup|cur cid Hni Hcur Hcid Hle|Hni Hep Hcur].
  - destruct Hnew. by apply (co_ids _ _ _ Hok).
  - intros [= <- <-]. split; [|done]. simpl.
    intros i s [His|[= -> ->]%list_elem_of_singleton]%elem_of_app; [by apply Hb|].
    apply (co_winners _ _ _ Hok) in Hcur as [i' Hi']. exists i', cur. split; [done|].
    rewrite (winner_hash _ _ _ _ _ _ Hok Hi') in Hcid. by injection Hcid as ->.
  - unfold fits_i64. destruct (N.leb_spec (Catalog.owner_epoch r) i64_max); [|done].
    destruct (N.leb_spec (Catalog.revision r) i64_max); [|done]. intros [= <- <-]. split; simpl.
    2:{ intros d i s [[_ [= <- <-]]|[_ Hs]]%lookup_insert_Some; [done|by eapply Hf]. }
    intros i s His. destruct (decide (deployment_id s = deployment_id r)) as [Heq|Hne].
    + rewrite Heq, lookup_insert_eq. exists id, r. split; [done|].
      apply elem_of_app in His as [His|[= -> ->]%list_elem_of_singleton]; [|apply leb_refl].
      destruct (Hb i s His) as (i0 & r0 & Hw0 & Hle0). rewrite Heq in Hw0.
      destruct (Hcur r0) as (cid & Hcid & _ & Hlt & _); [apply (co_winners _ _ _ Hok); eauto|].
      rewrite (winner_hash _ _ _ _ _ _ Hok Hw0) in Hcid. injection Hcid as <-.
      eapply leb_trans; [exact Hle0|]. apply leb_lt_or_eq. by left.
    + rewrite lookup_insert_ne by done.
      apply elem_of_app in His as [His|[= -> ->]%list_elem_of_singleton]; [|done]. by apply Hb.
Qed.

Lemma log_bounded_compact log : log_bounded log → log_bounded (compact log).1.
Proof.
  intros [Hb Hf]. split; [|done]. simpl. intros id r [_ Hin]%list_elem_of_filter. by apply Hb.
Qed.

(** What can happen to the tables of a node keeps them in this form. *)
Lemma reachable_bounded scope log :
  rtc (OpLogProps.cstep scope) Log_empty log → (∃ v, clog_ok scope log v) ∧ log_bounded log.
Proof.
  intros Hr. assert ((∃ v, clog_ok scope (@Log_empty CatalogRecord) v) ∧ log_bounded Log_empty) as Hs.
  { split; [eexists; apply OpLogProps.clog_empty|apply log_bounded_empty]. }
  revert Hs. induction Hr as [|l1 l2 l3 Hst Hr IH]; intros [[v Hv] Hb]; [eauto|].
  apply IH. split; [by eapply OpLogProps.cstep_ok|].
  destruct Hst; [by eapply log_bounded_apply|by apply log_bounded_compact].
Qed.

(** The receiver's record of a deployment is an earlier one of the sender's. *)
Definition lags (old : string * CatalogRecord) (id : string) (r : CatalogRecord) : Prop :=
  leb (Catalog.order old.2 old.1) (Catalog.order r id) = true ∧
  (is_tombstoned old.2 = true → is_tombstoned r = false → Catalog.owner_epoch old.2 ≠ Catalog.owner_epoch r).

Lemma catalog_order_epoch r1 id1 r2 id2 :
  leb (Catalog.order r1 id1) (Catalog.order r2 id2) = true → Catalog.owner_epoch r1 ≤ Catalog.owner_epoch r2.
Proof. intros Hle%prod_leb_fst. by apply N_leb_le in Hle. Qed.

(** A view takes a new record that is not behind. *)
Lemma apply_not_behind v r prov scope id :
  Catalog.verify r prov scope = Ok () → content_hash r = Some id → id ∉ Catalog.record_ids v →
  (∀ d c, Catalog.records v !! d = Some c → replica_id c = replica_id r →
     Catalog.owner_epoch c ≤ Catalog.owner_epoch r) →
  (∀ cur, Catalog.records v !! deployment_id r = Some cur →
     ∃ cid, content_hash cur = Some cid ∧ lags (cid, cur) id r ∧ cid ≠ id) →
  Catalog.apply v r prov scope = Ok (Catalog.Applied, Catalog.insert_record v r id).
Proof.
  intros Hv Hid Hni Hep Hcur. unfold Catalog.apply, Catalog.record_id. rewrite Hv, Hid. simpl.
  rewrite bool_decide_false by done. rewrite (proj2 (epoch_check_spec v r) Hep).
  destruct (Catalog.records v !! deployment_id r) as [cur|]; [|done].
  destruct (Hcur cur eq_refl) as (cid & Hcid & [Hle Ht] & Hne). rewrite Hcid. simpl in *.
  rewrite (proj2 (N.ltb_ge _ _)) by by eapply catalog_order_epoch.
  destruct (leb (Catalog.order r id) (Catalog.order cur cid)) eqn:El.
  { pose proof (leb_antisym _ _ Hle El) as Ho. injection Ho as _ _ _ Ho. done. }
  destruct (is_tombstoned cur) eqn:Et, (is_tombstoned r) eqn:Er; try done. simpl.
  rewrite (proj2 (N.eqb_neq _ _)); [done|]. specialize (Ht eq_refl eq_refl). congruence.
Qed.

(** A record of an authenticated owner that is not behind arrives. *)
Lemma deliver_one c scope log v r prov id :
  clog_ok scope log v → log_bounded log →
  content_hash r = Some id → Catalog.verify r prov scope = Ok () →
  ensure_replication_capacity c = Ok () →
  Catalog.owner_epoch r ≤ i64_max → Catalog.revision r ≤ i64_max →
  (∀ s, (id, s) ∈ operations log → s = r) →
  (∀ d id0 r0, winners log !! d = Some (id0, r0) → replica_id r0 = replica_id r →
     Catalog.owner_epoch r0 ≤ Catalog.owner_epoch r) →
  (∀ old, winners log !! deployment_id r = Some old → lags old id r) →
  ∃ out log', apply_catalog c log r prov scope = Ok (out, log') ∧
    winners log' = <[deployment_id r := (id, r)]> (winners log) ∧
    (∀ e, e ∈ operations log' → e ∈ operations log ∨ e = (id, r)).
Proof.
  intros Hok Hb Hid Hv Hcap He Hrev Hcoll Hep Hlag.
  destruct (decide (id ∈ (operations log).*1)) as [Hin|Hnew].
  - exists Catalog.Duplicate, log. split.
    { unfold apply_catalog, Catalog.record_id. rewrite Hid. simpl. unfold has_operation.
      by rewrite bool_decide_true. }
    split; [|by left].
    apply list_elem_of_fmap in Hin as ([i s] & -> & Hin). simpl in *. pose proof (Hcoll _ Hin) as ->.
    destruct (lb_below _ Hb _ _ Hin) as (id0 & r0 & Hw0 & Hle0).
    destruct (Hlag _ Hw0) as [Hle1 _]. simpl in Hle1.
    pose proof (leb_antisym _ _ Hle0 Hle1) as Ho. injection Ho as _ _ _ ->.
    rewrite (Hcoll r0) in Hw0 by by eapply lw_logged; [apply Hok|].
    by rewrite insert_id.
  - assert (Catalog.apply v r prov scope = Ok (Catalog.Applied, Catalog.insert_record v r id)) as Ha.
    { apply apply_not_behind; [done|done|by rewrite (co_ids _ _ _ Hok)| |].
      - intros d c0 [i Hi]%(co_winners _ _ _ Hok). by eapply Hep.
      - intros cur [cid Hcid]%(co_winners _ _ _ Hok). exists cid. split_and!.
        + by eapply winner_hash.
        + by apply Hlag.
        + intros ->. apply Hnew, list_elem_of_fmap. exists (id, cur). split; [done|].
          by eapply lw_logged; [apply Hok|]. }
    unfold apply_catalog, Catalog.record_id. rewrite Hid. simpl.
    rewrite (proj2 (has_operation_false log id) Hnew), Hcap, (co_replay _ _ _ Hok scope) by done. simpl.
    rewrite Ha. simpl. unfold fits_i64. rewrite !(proj2 (N.leb_le _ _)) by done. simpl.
    eexists _, _. split_and!; [done|done|]. simpl.
    intros e [?|?%list_elem_of_singleton]%elem_of_app; auto.
Qed.

(** Records a node can take in the order they come. *)
Record receivable (scope : CatalogScope) (prov : RecordProvenance) (log : Log CatalogRecord)
    (rs : list CatalogRecord) : Prop := {
  rv_keys : NoDup (deployment_id <$> rs);
  rv_order : StronglySorted (λ a b, replica_id a = replica_id b →
               Catalog.owner_epoch a ≤ Catalog.owner_epoch b) rs;
  rv_each : ∀ r, r ∈ rs → Catalog.verify r prov scope = Ok () ∧ is_Some (content_hash r) ∧
              Catalog.owner_epoch r ≤ i64_max ∧ Catalog.revision r ≤ i64_max;
  rv_hash : ∀ r s, r ∈ rs → s ∈ rs ++ (operations log).*2 → content_hash r = content_hash s → s = r;
  rv_epoch : ∀ r d id0 r0, r ∈ rs → winners log !! d = Some (id0, r0) → replica_id r0 = replica_id r →
               Catalog.owner_epoch r0 ≤ Catalog.owner_epoch r;
  rv_lags : ∀ r id old, r ∈ rs → content_hash r = Some id → winners log !! deployment_id r = Some old →
              lags old id r;
}.

Lemma receivable_cons scope prov log log' r rs id :
  receivable scope prov log (r :: rs) → content_hash r = Some id →
  winners log' = <[deployment_id r := (id, r)]> (winners log) →
  (∀ e, e ∈ operations log' → e ∈ operations log ∨ e = (id, r)) →
  receivable scope prov log' rs.
Proof.
  intros [Hk Ho He Hh Hep Hl] Hid Hw Hops. simpl in Hk. apply NoDup_cons in Hk as [Hnk Hk].
  apply StronglySorted_inv in Ho as [Ho Hfirst]. rewrite Forall_forall in Hfirst. split; try done.
  - intros s Hs. apply He. by right.
  - intros s t Hs Ht. apply Hh; [by right|]. apply elem_of_app in Ht as [Ht|Ht]; [set_solver|].
    apply list_elem_of_fmap in Ht as ([i u] & -> & Ht). simpl.
    destruct (Hops _ Ht) as [Hin|[= _ ->]]; [|set_solver].
    apply (elem_of_app (r :: rs)). right. apply list_elem_of_fmap. by exists (i, u).
  - intros s d id0 r0 Hs. rewrite Hw. intros [[_ [= <- <-]]|[_ Hd0]]%lookup_insert_Some Hrep; [by apply Hfirst|].
    eapply Hep; [by right|done|done].
  - intros s i old Hs Hi. rewrite Hw. intros [[Heq _]|[_ Hd0]]%lookup_insert_Some.
    + destruct Hnk. rewrite Heq. by apply list_elem_of_fmap_2.
    + eapply Hl; [by right|done|done].
Qed.

Lemma deliver_all c scope prov log v rs :
  clog_ok scope log v → log_bounded log → ensure_replication_capacity c = Ok () →
  receivable scope prov log rs →
  ∃ log', apply_catalog_records c prov scope log rs = (Ok (), log') ∧
    (∀ r id, r ∈ rs → content_hash r = Some id → winners log' !! deployment_id r = Some (id, r)) ∧
    (∀ d, d ∉ deployment_id <$> rs → winners log' !! d = winners log !! d).
Proof.
  revert log v. induction rs as [|r rs IH]; intros log v Hok Hb Hcap Hrv; simpl.
  { exists log. split_and!; [done|set_solver|done]. }
  destruct (rv_each _ _ _ _ Hrv r ltac:(by left)) as (Hv & [id Hid] & He & Hrev).
  destruct (deliver_one c scope log v r prov id) as (out & log1 & Ha & Hw & Hops); try done.
  - intros s Hs. eapply (rv_hash _ _ _ _ Hrv); [by left| |by rewrite (co_hash _ _ _ Hok _ _ Hs)].
    apply elem_of_app. right. apply list_elem_of_fmap. by exists (id, s).
  - intros d id0 r0 Hd. eapply (rv_epoch _ _ _ _ Hrv); [by left|done].
  - intros old Hold. eapply (rv_lags _ _ _ _ Hrv); [by left|done|done].
  - rewrite Ha. assert (same_project scope scope) as Hsp by done.
    destruct (apply_catalog_keeps _ _ _ _ _ _ _ _ _ Hsp Hok Ha) as [v1 Hok1].
    destruct (IH log1 v1) as (log' & -> & Hin & Hout); [done|exact (log_bounded_apply _ _ _ _ _ _ _ _ _ Hsp Hok Hb Ha)|done|
      by eapply receivable_cons|].
    pose proof (rv_keys _ _ _ _ Hrv) as Hk. simpl in Hk. apply NoDup_cons in Hk as [Hnk _].
    exists log'. split_and!; [done| |].
    + intros s i [->|Hs]%elem_of_cons Hi; [|by apply Hin]. rewrite Hid in Hi. injection Hi as <-.
      by rewrite (Hout _ Hnk), Hw, lookup_insert_eq.
    + intros d [Hne Hd]%not_elem_of_cons. by rewrite (Hout d Hd), Hw, lookup_insert_ne.
Qed.

Lemma apply_exchange_catalog c x s identity peer members :
  validate_exchange x identity = Ok () →
  Membership.from_records (membership_operations (membership_log s)) (identity_scope identity) = Ok members →
  catalog_log (apply_exchange c x s identity peer).2 =
  (apply_catalog_records c (Peer peer) (catalog_scope identity members) (catalog_log s) (x_operations x)).2.
Proof.
  intros Hv Hm. unfold apply_exchange. rewrite Hv, Hm.
  destruct (apply_catalog_records _ _ _ _ _) as [[[]|e] l]; [|done].
  by destruct (apply_desired_records _ _ _ _ _) as [? ?].
Qed.

(** *** What a node sends *)

Lemma elem_of_latest_catalog log r :
  r ∈ latest_catalog log ↔ ∃ d id, winners log !! d = Some (id, r).
Proof.
  unfold latest_catalog. rewrite list_elem_of_fmap. split.
  - intros ([d [id r']] & -> & Hin). rewrite sort_by_Permutation in Hin.
    apply elem_of_map_to_list in Hin. eauto.
  - intros (d & id & Hd). exists (d, (id, r)). split; [done|]. rewrite sort_by_Permutation.
    by apply elem_of_map_to_list.
Qed.

Lemma latest_catalog_keys scope log v :
  clog_ok scope log v → NoDup (deployment_id <$> latest_catalog log).
Proof.
  intros Hok. unfold latest_catalog. rewrite <-list_fmap_compose.
  rewrite (list_fmap_ext _ fst).
  - rewrite sort_by_Permutation. apply NoDup_fst_map_to_list.
  - intros i [d [id r]] Hi%list_elem_of_lookup_2. rewrite sort_by_Permutation in Hi.
    apply elem_of_map_to_list in Hi. by eapply winner_in_scope.
Qed.

Lemma exchange_from_store_ok s identity x :
  exchange_from_store s identity = Ok x →
  x_operations x = own_catalog s (identity_node_id identity) ∧
  x_desired_operations x = own_desired s (identity_node_id identity) ∧
  ∀ i, identity_project_id i = identity_project_id identity →
       identity_recovery_epoch i = identity_recovery_epoch identity → validate_exchange x i = Ok ().
Proof.
  unfold exchange_from_store. set (x0 := {| x_project_id := _ |}).
  destruct (validate_exchange x0 identity) as [[]|e] eqn:E; [|done]. intros [= <-].
  split_and!; [done|done|]. intros i Hp He. rewrite <-E. unfold validate_exchange. by rewrite Hp, He.
Qed.

(** *** What a peer can change *)

Lemma apply_catalog_winner c log r prov scope out log' d w :
  apply_catalog c log r prov scope = Ok (out, log') → winners log' !! d = Some w →
  winners log !! d = Some w ∨ (w.2 = r ∧ Catalog.verify r prov scope = Ok ()).
Proof.
  unfold apply_catalog. destruct (Catalog.record_id r) as [id|]; [|done]. simpl.
  destruct (has_operation log id); [intros [= <- <-]; by left|].
  destruct (ensure_replication_capacity c); [|done].
  destruct (Catalog.from_records _ scope) as [v|]; [|done]. simpl.
  destruct (Catalog.apply v r prov scope) as [[o v']|] eqn:Ea; [|done]. simpl.
  apply catalog_apply_inv in Ea as [Hv _].
  destruct o; [destruct (_ && _); [|done]| |]; intros [= <- <-]; simpl; [|by left..].
  intros [[_ <-]|[_ ?]]%lookup_insert_Some; [by right|by left].
Qed.

Lemma apply_desired_winner c log r prov scope out log' d w :
  apply_desired c log r prov scope = Ok (out, log') → winners log' !! d = Some w →
  winners log !! d = Some w ∨ (w.2 = r ∧ Desired.verify r prov scope = Ok ()).
Proof.
  unfold apply_desired. destruct (Desired.record_id r) as [id|]; [|done]. simpl.
  destruct (has_operation log id); [intros [= <- <-]; by left|].
  destruct (ensure_replication_capacity c); [|done].
  destruct (Desired.from_records _ scope) as [v|]; [|done]. simpl.
  unfold Desired.apply. destruct (Desired.verify r prov scope) as [[]|]; [|done]. simpl.
  destruct (map_err _ _) as [o|]; [|done].
  destruct o; [destruct (fits_i64 _); [|done]| |]; intros [= <- <-]; simpl; [|by left..].
  intros [[_ <-]|[_ ?]]%lookup_insert_Some; [by right|by left].
Qed.

Lemma apply_catalog_records_winner c prov scope log rs d w :
  winners (apply_catalog_records c prov scope log rs).2 !! d = Some w →
  winners log !! d = Some w ∨ Catalog.verify w.2 prov scope = Ok ().
Proof.
  revert log. induction rs as [|r rs IH]; intros log; simpl; [by left|].
  destruct (apply_catalog c log r prov scope) as [[out log']|] eqn:Ea; [|by left].
  intros [Hw|?]%IH; [|by right]. destruct (apply_catalog_winner _ _ _ _ _ _ _ _ _ Ea Hw) as [?|[-> ?]]; auto.
Qed.

Lemma apply_desired_records_winner c prov scope log rs d w :
  winners (apply_desired_records c prov scope log rs).2 !! d = Some w →
  winners log !! d = Some w ∨ Desired.verify w.2 prov scope = Ok ().
Proof.
  revert log. induction rs as [|r rs IH]; intros log; simpl; [by left|].
  destruct (apply_desired c log r prov scope) as [[out log']|] eqn:Ea; [|by left].
  intros [Hw|?]%IH; [|by right]. destruct (apply_desired_winner _ _ _ _ _ _ _ _ _ Ea Hw) as [?|[-> ?]]; auto.
Qed.

(** The node of the view that a source address belongs to. *)
Definition speaks_for (members : MembershipView) (peer : SocketAddr) (node : string) : Prop :=
  ∃ ip port p, peer = SocketV4 ip port ∧ find_by_management_address members ip = Some p ∧ node_id p = node.

Lemma authenticate_peer members peer node :
  authenticate members (Peer peer) node = Ok () ↔ speaks_for members peer node.
Proof.
  unfold authenticate, speaks_for. destruct peer as [ip port|ip port].
  - destruct (find_by_management_address members ip) as [p|] eqn:Ef.
    + case_bool_decide as Hn; split; try done; [by exists ip, port, p|].
      intros (? & ? & p' & [= <- <-] & Hf & ?). congruence.
    + split; [done|]. intros (? & ? & p' & [= <- <-] & Hf & ?). congruence.
  - split; [done|]. by intros (? & ? & ? & ? & _).
Qed.
End lemmas.

Module ReplicationProps.

Section props.
Context `{ContentHash MembershipRecord, ContentHash CatalogRecord, ContentHash DesiredStateRecord}.

(** C8: An exchange delivers what the owner has, under these conditions.  The catalog tables of the
    two nodes came about by applied records and compactions, in the same project and recovery
    epoch; the sender could build its exchange and the membership records of the receiver replay;
    the receiver knows the source address as the sender's; the quota of the receiver for replicated
    records is not reached; the sender's records come in an order in which no replica's owner
    epoch goes back; no two different records involved have the same hash; and the receiver is not
    ahead of the sender in any deployment or replica the sender owns.  Then after the exchange the
    receiver's table holds, for every deployment the sender owns, the sender's record under its
    hash, and nothing else has changed; also when the desired-state half of the exchange is
    refused. *)
Theorem exchange_delivers_the_owners_records c sender receiver ids idr ms members peer x :
  rtc (OpLogProps.cstep (catalog_scope ids ms)) Log_empty (catalog_log sender) →
  rtc (OpLogProps.cstep (catalog_scope idr members)) Log_empty (catalog_log receiver) →
  identity_project_id ids = identity_project_id idr →
  identity_recovery_epoch ids = identity_recovery_epoch idr →
  exchange_from_store sender ids = Ok x →
  Membership.from_records (membership_operations (membership_log receiver)) (identity_scope idr) = Ok members →
  speaks_for members peer (identity_node_id ids) →
  ensure_replication_capacity c = Ok () →
  let sent := own_catalog sender (identity_node_id ids) in
  StronglySorted (λ a b, replica_id a = replica_id b →
    Catalog.owner_epoch a ≤ Catalog.owner_epoch b) sent →
  (∀ r s, r ∈ sent → s ∈ sent ++ catalog_operations (catalog_log receiver) →
     content_hash r = content_hash s → s = r) →
  (∀ r d id0 r0, r ∈ sent → winners (catalog_log receiver) !! d = Some (id0, r0) →
     replica_id r0 = replica_id r → Catalog.owner_epoch r0 ≤ Catalog.owner_epoch r) →
  (∀ r id old, r ∈ sent → content_hash r = Some id →
     winners (catalog_log receiver) !! deployment_id r = Some old → lags old id r) →
  let after := winners (catalog_log (apply_exchange c x receiver idr peer).2) in
  (∀ r, r ∈ sent → ∃ id, content_hash r = Some id ∧ after !! deployment_id r = Some (id, r)) ∧
  (∀ d, d ∉ deployment_id <$> sent → after !! d = winners (catalog_log receiver) !! d).
Proof.
  intros [[vs Hs] Hbs]%reachable_bounded [[vr Hr] Hbr]%reachable_bounded Hp He Hx Hm Hpeer Hcap
    sent Hord Hcoll Hep Hlag after.
  apply exchange_from_store_ok in Hx as (Hops & _ & Hval). subst after.
  rewrite (apply_exchange_catalog c x receiver idr peer members) by auto. rewrite Hops. fold sent.
  assert (∀ r, r ∈ sent → owner_node_id r = identity_node_id ids ∧
    ∃ d id, winners (catalog_log sender) !! d = Some (id, r)) as Hsent.
  { intros r [Ho Hr']%list_elem_of_filter. by apply elem_of_latest_catalog in Hr'. }
  destruct (deliver_all c (catalog_scope idr members) (Peer peer) (catalog_log receiver) vr sent)
    as (log' & -> & Hin & Hout); try done.
  - split; try done.
    + eapply sublist_NoDup; [eapply latest_catalog_keys, Hs|]. apply fmap_sublist, sublist_filter.
    + intros r Hr'. destruct (Hsent r Hr') as (Ho & d & id & Hd).
      destruct (winner_in_scope _ _ _ _ _ _ Hs Hd) as [_ (Hv & Hpr & Her)].
      destruct (lb_fits _ Hbs _ _ _ Hd). split_and!; [|by rewrite (winner_hash _ _ _ _ _ _ Hs Hd)|done|done].
      apply Catalog.verify_ok. split; [|by rewrite Ho; apply authenticate_peer].
      split_and!; [done|by rewrite Hpr|by rewrite Her].
  - split; [|done]. intros r Hr'. destruct (Hsent r Hr') as (_ & d & id & Hd). exists id.
    pose proof (winner_hash _ _ _ _ _ _ Hs Hd). auto.
Qed.

(** A peer speaks only for itself.  Whatever an exchange contains, and however far it is
    applied, every catalog or desired-state record it puts into the tables of the receiver
    is of the node whose management address the exchange came from; all the others are the
    ones that were there. *)
Theorem exchange_cannot_forge c x s identity peer :
  let after := (apply_exchange c x s identity peer).2 in
  membership_log after = membership_log s ∧
  (∀ d id r, winners (catalog_log after) !! d = Some (id, r) →
     winners (catalog_log s) !! d = Some (id, r) ∨
     ∃ members, Membership.from_records (membership_operations (membership_log s)) (identity_scope identity) = Ok members ∧
       speaks_for members peer (owner_node_id r)) ∧
  (∀ d id r, winners (desired_log after) !! d = Some (id, r) →
     winners (desired_log s) !! d = Some (id, r) ∨
     ∃ members, Membership.from_records (membership_operations (membership_log s)) (identity_scope identity) = Ok members ∧
       speaks_for members peer (Desired.author_node_id r)).
Proof.
  unfold apply_exchange. destruct (validate_exchange x identity); [|by auto].
  destruct (Membership.from_records _ _) as [members|]; [|by auto].
  pose proof (apply_catalog_records_winner c (Peer peer) (catalog_scope identity members)
    (catalog_log s) (x_operations x)) as Hc.
  destruct (apply_catalog_records _ _ _ _ _) as [res l]. simpl in Hc.
  pose proof (apply_desired_records_winner c (Peer peer) (desired_scope identity members)
    (desired_log s) (x_desired_operations x)) as Hd.
  assert (∀ d id r, winners l !! d = Some (id, r) → winners (catalog_log s) !! d = Some (id, r) ∨
    ∃ m, Ok (E := MembershipError) members = Ok m ∧ speaks_for m peer (owner_node_id r)) as Hcat.
  { intros d id r [?|[_ Ha]%Catalog.verify_ok]%Hc; [by left|right]. exists members. split; [done|].
    by apply authenticate_peer. }
  destruct res as [[]|]; [|by auto]. simpl.
  destruct (apply_desired_records _ _ _ _ _) as [res' l']. simpl in *. split_and!; [done|done|].
  intros d id r [?|Hv]%Hd; [by left|right]. exists members. split; [done|]. apply authenticate_peer.
  revert Hv. unfold Desired.verify. cbn [snd]. destruct (Desired.validate r); [|done].
  case_bool_decide; [|done]. destruct (_ =? _); [|done].
  by destruct (authenticate _ (Peer peer) _) as [[]|].
Qed.

(** A node sends what it owns and nothing else: whatever its tables hold, the records of
    an exchange are exactly the winners of which it is the owner, and the desired states of
    which it is the author, and an exchange that exists passes its peer's check, unless the
    peer is of another project or recovery epoch. *)
Theorem exchange_has_only_own_records s identity x :
  exchange_from_store s identity = Ok x →
  (∀ r, r ∈ x_operations x ↔ owner_node_id r = identity_node_id identity ∧
     ∃ d id, winners (catalog_log s) !! d = Some (id, r)) ∧
  (∀ r, r ∈ x_desired_operations x ↔ Desired.author_node_id r = identity_node_id identity ∧
     ∃ k id, winners (desired_log s) !! k = Some (id, r)) ∧
  (∀ peer, is_ok (validate_exchange x peer) = true ↔
     identity_project_id peer = identity_project_id identity ∧
     identity_recovery_epoch peer = identity_recovery_epoch identity).
Proof.
  intros Hx. pose proof (exchange_from_store_ok _ _ _ Hx) as (-> & -> & Hv). split_and!.
  - intros r. unfold own_catalog. by rewrite list_elem_of_filter, elem_of_latest_catalog.
  - intros r. unfold own_desired. by rewrite list_elem_of_filter, elem_of_latest.
  - intros peer. split; [|intros [Hp He]; by rewrite (Hv peer)]. revert Hx. unfold exchange_from_store.
    set (x0 := {| x_project_id := _ |}). destruct (validate_exchange x0 identity); [|done].
    intros [= <-]. unfold validate_exchange. simpl. case_bool_decide as Hp; [|done]. simpl.
    destruct (N.eqb_spec (identity_recovery_epoch identity) (identity_recovery_epoch peer)); [|done]. done.
Qed.
End props.

Definition log_of {O R} (log : Log R) (x : result StoreError (O * Log R)) : Log R :=
  match x with Ok (_, log') => log' | Err _ => log end.

Definition members_log : Log MembershipRecord :=
  let take log r := log_of log (@apply_membership MembershipProps.sample_hash
                                  OpLogProps.sample_capacity log r MembershipProps.sample_scope) in
  take (take Log_empty MembershipProps.sample_a) MembershipProps.sample_b.

Definition catalog_with (rs : list CatalogRecord) : Log CatalogRecord :=
  foldl (λ log r, log_of log (@apply_catalog CatalogProps.sample_hash OpLogProps.sample_capacity
                                log r Local CatalogProps.sample_scope)) Log_empty rs.

Definition node (name : string) (address : N) (rs : list CatalogRecord) : Peered :=
  {| p_store := {| membership_log := members_log; catalog_log := catalog_with rs;
                   desired_log := Log_empty |};
     p_identity := {| identity_project_id := "demo"; identity_recovery_epoch := 1;
                      identity_node_id := name |};
     p_address := SocketV4 address 8443 |}.

Definition sample_sync := @sync_once MembershipProps.sample_hash CatalogProps.sample_hash
  DesiredProps.sample_hash OpLogProps.sample_capacity.

(** Two deployments of one replica can keep a third from ever reaching a new peer.  The
    node holds the deployment "d2" of its first owner epoch and "d1" of its second, both
    accepted in that order; it sends them in the order of their names, the new peer takes
    "d1" and refuses "d2" as stale, and the exchange ends there, so that "d3" behind it does
    not arrive; the next exchange ends the same way and changes nothing. *)
Theorem stale_sibling_blocks_a_new_peer :
  let d n e := CatalogProps.sample_deployment n "a" e 1 Catalog.Active in
  let a := node "a" 1001 [d "d2" 1; d "d1" 2; d "d3" 2] in
  let b := node "b" 1002 [] in
  (deployment_id <$> own_catalog (p_store a) "a") = ["d1"; "d2"; "d3"] ∧
  let '(r1, (a1, b1)) := sample_sync a b in
  let '(r2, (a2, b2)) := sample_sync a1 b1 in
  r1 = Err (ReplicationStore (CatalogFailed Catalog.StaleOwnerEpoch)) ∧ r2 = r1 ∧
  (deployment_id <$> latest_catalog (catalog_log (p_store b1))) = ["d1"] ∧ a2 = a ∧ b2 = b1.
Proof. vm_compute. by split_and!. Qed.

Lemma catalog_with_reachable rs :
  rtc (@OpLogProps.cstep CatalogProps.sample_hash CatalogProps.sample_scope) Log_empty (catalog_with rs).
Proof.
  unfold catalog_with. assert (∀ log, rtc (@OpLogProps.cstep CatalogProps.sample_hash CatalogProps.sample_scope)
    log (foldl (λ log r, log_of log (@apply_catalog CatalogProps.sample_hash OpLogProps.sample_capacity
                                log r Local CatalogProps.sample_scope)) log rs)) as Hs; [|done].
  induction rs as [|r rs IH]; intros log; simpl; [done|].
  destruct (@apply_catalog _ _ log r Local _) as [[out log']|e] eqn:Ea; simpl; [|done].
  eapply rtc_l; [|apply IH].
  by eapply (@OpLogProps.cstep_apply CatalogProps.sample_hash _ OpLogProps.sample_capacity _ r Local
    CatalogProps.sample_scope).
Qed.

Lemma exchange_has_only_own_records_witness :
  let d n o := CatalogProps.sample_deployment n o 1 1 Catalog.Active in
  ∃ x, exchange_from_store (p_store (node "a" 1001 [d "d1" "a"; d "d2" "b"]))
         (p_identity (node "a" 1001 [])) = Ok x ∧
    d "d1" "a" ∈ x_operations x.
Proof.
  intros d. destruct (exchange_from_store (p_store (node "a" 1001 [d "d1" "a"; d "d2" "b"]))
         (p_identity (node "a" 1001 []))) as [x|] eqn:E; [|vm_compute in E; discriminate].
  exists x. split; [done|]. apply (exchange_has_only_own_records _ _ _ E). split; [vm_compute; reflexivity|].
  exists "d1", "d1:1:1". vm_compute. reflexivity.
Defined.

Lemma exchange_delivers_the_owners_records_witness :
  let r := CatalogProps.sample_deployment "d1" "a" 2 2 Catalog.Active in
  let old := CatalogProps.sample_deployment "d1" "a" 2 1 Catalog.Active in
  let a := node "a" 1001 [old; r] in
  let b := node "b" 1002 [old] in
  ∃ x, exchange_from_store (p_store a) (p_identity a) = Ok x ∧
    winners (catalog_log (@apply_exchange MembershipProps.sample_hash CatalogProps.sample_hash
      DesiredProps.sample_hash OpLogProps.sample_capacity x (p_store b) (p_identity b) (p_address a)).2)
      !! "d1" = Some ("d1:2:2", r).
Proof.
  intros r old a b. destruct (exchange_from_store (p_store a) (p_identity a)) as [x|] eqn:E;
    [|vm_compute in E; discriminate].
  exists x. split; [done|].
  assert (own_catalog (p_store a) (identity_node_id (p_identity a)) = [r]) as Hown by (vm_compute; reflexivity).
  assert (winners (catalog_log (p_store b)) = {["d1" := ("d1:2:1", old)]}) as Hwin by (vm_compute; reflexivity).
  destruct (@exchange_delivers_the_owners_records MembershipProps.sample_hash CatalogProps.sample_hash
    DesiredProps.sample_hash OpLogProps.sample_capacity (p_store a) (p_store b) (p_identity a) (p_identity b)
    MembershipProps.sample_view MembershipProps.sample_view (p_address a) x) as [Hin _].
  - apply catalog_with_reachable.
  - apply catalog_with_reachable.
  - reflexivity.
  - reflexivity.
  - exact E.
  - vm_compute. reflexivity.
  - exists 1001, 8443, MembershipProps.sample_a. split_and!; vm_compute; reflexivity.
  - reflexivity.
  - cbv zeta. rewrite Hown. repeat constructor.
  - cbv zeta. rewrite Hown. intros u s ->%list_elem_of_singleton [->%list_elem_of_singleton|Hs]%elem_of_app; [done|].
    vm_compute in Hs. apply list_elem_of_singleton in Hs as ->. vm_compute. discriminate.
  - cbv zeta. rewrite Hown, Hwin. intros u d id0 r0 ->%list_elem_of_singleton
      [<- [= <- <-]]%lookup_singleton_Some _. vm_compute. discriminate.
  - cbv zeta. rewrite Hown, Hwin. intros u id o ->%list_elem_of_singleton [= <-]
      [_ <-]%lookup_singleton_Some. split; [vm_compute; reflexivity|intros Ht; vm_compute in Ht; discriminate].
  - rewrite Hown in Hin. destruct (Hin r ltac:(by left)) as (id & Hid & Hr).
    assert (Some id = Some "d1:2:2") as Heq by (rewrite <-Hid; vm_compute; reflexivity).
    injection Heq as ->. exact Hr.
Defined.

End ReplicationProps.
