(* ===== verification/Store.v ===== *)
(** The small tables of the agent's database ([jiji-agent/src/store.rs]): answers kept for
    idempotent requests, local state, the sync status of peers, the status of repaired
    components, the WireGuard peer cache, the liveness of nodes and the image retention
    specifications.

    A table is a map from its primary key; [now] is the text of the current time.  Times in
    [updated_at] columns are written and never read, and are left out. *)

From S2P Require Import Prelude Text Membership.
Open Scope N_scope.

(** ** Idempotency keys *)

Section idempotency.
Context {V : Type}.
Implicit Types t : gmap string V.

Definition idempotent_get t (key : string) : option V := t !! key.

(** [INSERT .. ON CONFLICT(key) DO NOTHING]. *)
Definition idempotent_put t (key : string) (response : V) : gmap string V :=
  match t !! key with Some _ => t | None => <[key := response]> t end.
End idempotency.

(** ** Local state *)

(** The revision of a key is the number of times it was written: no host reaches the [i64]
    bound of the column. *)
Definition commit_local_transaction (t : gmap string (string * Z)) (key value : string) :
    Z * gmap string (string * Z) :=
  let previous_revision := match t !! key with Some (_, revision) => revision | None => 0%Z end in
  let revision := (previous_revision + 1)%Z in
  (revision, <[key := (value, revision)]> t).

Definition read_local_state (t : gmap string (string * Z)) (key : string) : option (string * Z) := t !! key.

(** ** Sync status of peers *)

Record PeerSyncStatus := {
  ps_node_id : string;
  ps_last_success_at : option string;
  ps_consecutive_failures : N;
  ps_last_error : option string;
}.

Abbreviation PeerSync := (gmap string PeerSyncStatus).

Definition record_peer_sync_success (now : string) (t : PeerSync) (node : string) : PeerSync :=
  <[node := {| ps_node_id := node; ps_last_success_at := Some now; ps_consecutive_failures := 0;
               ps_last_error := None |}]> t.

Definition record_peer_sync_failure (t : PeerSync) (node error : string) : PeerSync :=
  <[node := match t !! node with
            | None => {| ps_node_id := node; ps_last_success_at := None;
                         ps_consecutive_failures := 1; ps_last_error := Some error |}
            | Some s => {| ps_node_id := ps_node_id s; ps_last_success_at := ps_last_success_at s;
                           ps_consecutive_failures := ps_consecutive_failures s + 1;
                           ps_last_error := Some error |}
            end]> t.

Definition delete_peer_sync_status (t : PeerSync) (node : string) : PeerSync := delete node t.
Definition peer_sync_statuses (t : PeerSync) : list PeerSyncStatus := btree_values t.

(** ** Status of components *)

Record ComponentStatus := {
  cs_component : string;
  cs_last_attempt_at : option string;
  cs_last_success_at : option string;
  cs_consecutive_failures : N;
  cs_last_error : option string;
  cs_next_retry_at : option string;
}.

Abbreviation Components := (gmap string ComponentStatus).

Definition record_component_result (now : string) (t : Components) (component : string)
    (outcome : result string ()) (next_retry_at : option N) : Components :=
  match outcome with
  | Ok _ =>
      <[component := {| cs_component := component; cs_last_attempt_at := Some now;
                        cs_last_success_at := Some now; cs_consecutive_failures := 0;
                        cs_last_error := None; cs_next_retry_at := None |}]> t
  | Err error =>
      let previous := t !! component in
      <[component := {| cs_component := component; cs_last_attempt_at := Some now;
                        cs_last_success_at := previous ≫= cs_last_success_at;
                        cs_consecutive_failures :=
                          match previous with Some s => cs_consecutive_failures s + 1 | None => 1 end;
                        cs_last_error := Some error;
                        cs_next_retry_at := pretty <$> next_retry_at |}]> t
  end.

Definition component_statuses (t : Components) : list ComponentStatus := btree_values t.

(** ** Peer cache *)

Record PeerCacheEntry := {
  pc_node_id : string;
  pc_wireguard_public_key : string;
  pc_management_address : string;
  pc_container_subnet : string;
  pc_endpoint : SocketAddr;
  pc_owner_epoch : N;
  pc_revision : N;
}.

Abbreviation PeerCache := (gmap string PeerCacheEntry).

(** The rows are filed under the node of the entry, whatever key the argument has it under;
    a number that does not fit its column, or a node listed twice, rolls everything back. *)
Definition cache_row (t : PeerCache) (e : PeerCacheEntry) : result () PeerCache :=
  if (pc_owner_epoch e <=? i64_max) && (pc_revision e <=? i64_max)
     && bool_decide (t !! pc_node_id e = None)
  then Ok (<[pc_node_id e := e]> t) else Err ().

Definition replace_peer_cache (cache : PeerCache) : result () PeerCache :=
  try_fold cache_row ∅ (btree_values cache).

(** ** Liveness of nodes *)

Definition mark_node_seen (now : string) (t : gmap string string) (node : string) : gmap string string :=
  <[node := now]> t.

(** [parse().unwrap_or(0)]. *)
Definition node_liveness (t : gmap string string) : gmap string N :=
  (λ seen_at, match parse_uint u64_max seen_at with Ok n => n | Err _ => 0 end) <$> t.

(** ** Image retention *)

Record ImageRetentionSpec := { ir_service : string; ir_repo : string; ir_retain : N }.

Abbreviation RetentionSpecs := (gmap string ImageRetentionSpec).

Definition apply_image_retention_spec (t : RetentionSpecs) (spec : ImageRetentionSpec) :
    ImageRetentionSpec * RetentionSpecs :=
  (spec, <[ir_service spec := spec]> t).

Definition remove_image_retention_spec (t : RetentionSpecs) (service : string) : bool * RetentionSpecs :=
  (bool_decide (is_Some (t !! service)), delete service t).

Definition image_retention_specs (t : RetentionSpecs) : list ImageRetentionSpec := btree_values t.
