(* ===== verification/Api.v ===== *)
(** The agent's control API: [jiji-agent/src/api.rs].  [handle] is the dispatch over the
    whole database, [handle_idempotent] keeps the answer of a request under its key.

    The mutex around the store makes [handle] one step; a request with a key takes the mutex
    three times, and [handle_idempotent] is the three steps with nothing between them.  An
    answer is stored as JSON, which reads back as what was written, so the table has the
    answer itself.  The message of an
    error is the text of its cause.  The clock, the process and the database file are the
    environment of a request; sockets, frames and peer credentials are not modelled. *)

From S2P Require Import Prelude Text Cidr Naming Planner Membership Catalog Desired OpLog Leases.
From S2P Require Import Cron CronExec Replication Store.
Open Scope N_scope.

Inductive ErrorCode := Unauthorized | RequestTooLarge | Busy | NotFound | Invalid | Internal.

Inductive ApiCause :=
| CauseStore (e : StoreError)
| CauseMembership (e : MembershipError)
| CauseLease (e : LeaseError)
| CauseText (text : string).

Record ApiError := { error_code : ErrorCode; error_cause : ApiCause }.
Definition api_error (code : ErrorCode) (cause : ApiCause) : ApiError :=
  {| error_code := code; error_cause := cause |}.
Definition internal (e : StoreError) : ApiError := api_error Internal (CauseStore e).

Inductive RequestBody :=
| Health
| Identity
| Diagnostics
| Compact
| ReconciliationStatus
| CatalogRead (key : string)
| LocalTransaction (key value : string)
| CatalogList
| AllocateAddress (deployment_id replica_id subnet : string) (reserved : list string) (timestamp : N)
| ReleaseAddress (deployment_id : string) (timestamp : N)
| DesiredCommit (service : string) (scale_override : option N)
| DesiredRead (service : string)
| CatalogCommit (service replica_id deployment_id address : string) (ports : list N)
    (image : string) (state : DeploymentState) (health : HealthState)
| CronSpecApply (service cron_name : string) (revision : N) (canonical_hash source_deployment_id
    source_replica_id image schedule timezone : string) (timeout_seconds : N) (overlap : CronOverlap)
    (missed_runs : CronMissedRuns) (command : list string) (env_file_path : string)
    (mount_args resource_args : list string) (bridge_network dns_address : string)
| CronSpecRemove (service cron_name : string)
| CronSpecList
| CronStatus (service cron_name : option string)
| CronRunNow (service cron_name : string) (timestamp : N)
| CronRuns (service cron_name run_id : option string) (since limit : option N)
| ImageRetentionApply (service repo : string) (retain : N)
| ImageRetentionRemove (service : string)
| ImageRetentionList.

Record Request := { idempotency_key : option string; request_body : RequestBody }.

Record CronJobStatus := {
  js_service : string;
  js_cron_name : string;
  js_last_scheduled_at : option N;
  js_last_started_at : option N;
  js_last_finished_at : option N;
  js_last_state : option CronRunState;
  js_last_exit_code : option Z;
  js_next_due_at : option N;
  js_active_run_id : option string;
  js_skipped_overlap_count : N;
}.

Inductive ResponseBody :=
| HealthIs (schema_version : N) (observation_count : nat) (version : string)
| IdentityIs (project engine : string) (pid : N)
| DiagnosticsAre (schema_version : N) (observation_count : nat) (socket_path : string)
    (uptime_seconds database_usage_bytes : N) (database_soft_quota_bytes : option N)
    (counts : OperationCounts) (peer_reachability_timeout_secs : N)
    (peer_sync : list PeerSyncStatus) (components : list ComponentStatus)
| Compacted (membership_removed catalog_removed desired_removed : nat)
| ReconciliationStatusIs (last_discovery_at : option string) (observation_count : nat)
    (peer_sync : list PeerSyncStatus) (components : list ComponentStatus)
| CatalogValue (value : option string) (revision : option Z)
| LocalTransactionDone (revision : Z)
| CatalogRecords (records : list CatalogRecord)
| AddressLeased (deployment_id replica_id address state : string)
| AddressReleased (released : bool)
| DesiredStateIs (record : option DesiredStateRecord)
| CatalogCommitted (record : CatalogRecord)
| CronSpecApplied (spec : CronJobSpec) (outcome : CronSpecApplyOutcomeKind)
| CronSpecRemoved (removed : bool)
| CronSpecs (specs : list CronJobSpec)
| CronStatuses (statuses : list CronJobStatus)
| CronRunIsAccepted (run_id : string)
| CronRunIsInConflict (active_run_id : string)
| CronRunList (runs : list CronRun)
| ImageRetentionApplied (spec : ImageRetentionSpec)
| ImageRetentionRemoved (removed : bool)
| ImageRetentionSpecs (specs : list ImageRetentionSpec).

Abbreviation ApiResult := (result ApiError ResponseBody).

(** The database of an agent; [agent] has the lease and cron tables and the tasks of the
    cron runs. *)
Record AgentStore := {
  replicated : Replicated;
  agent : Agent;
  local_state : gmap string (string * Z);
  idempotency_keys : gmap string ApiResult;
  peer_sync : PeerSync;
  components : Components;
  retention_specs : RetentionSpecs;
}.

Definition with_replicated (s : AgentStore) (r : Replicated) : AgentStore :=
  {| replicated := r; agent := agent s; local_state := local_state s;
     idempotency_keys := idempotency_keys s; peer_sync := peer_sync s; components := components s;
     retention_specs := retention_specs s |}.
Definition with_agent (s : AgentStore) (a : Agent) : AgentStore :=
  {| replicated := replicated s; agent := a; local_state := local_state s;
     idempotency_keys := idempotency_keys s; peer_sync := peer_sync s; components := components s;
     retention_specs := retention_specs s |}.
Definition with_local_state (s : AgentStore) (l : gmap string (string * Z)) : AgentStore :=
  {| replicated := replicated s; agent := agent s; local_state := l;
     idempotency_keys := idempotency_keys s; peer_sync := peer_sync s; components := components s;
     retention_specs := retention_specs s |}.
Definition with_idempotency_keys (s : AgentStore) (k : gmap string ApiResult) : AgentStore :=
  {| replicated := replicated s; agent := agent s; local_state := local_state s;
     idempotency_keys := k; peer_sync := peer_sync s; components := components s;
     retention_specs := retention_specs s |}.
Definition with_retention_specs (s : AgentStore) (t : RetentionSpecs) : AgentStore :=
  {| replicated := replicated s; agent := agent s; local_state := local_state s;
     idempotency_keys := idempotency_keys s; peer_sync := peer_sync s; components := components s;
     retention_specs := t |}.
Definition with_catalog_log (s : AgentStore) (l : Log CatalogRecord) : AgentStore :=
  with_replicated s {| membership_log := membership_log (replicated s); catalog_log := l;
                       desired_log := desired_log (replicated s) |}.
Definition with_desired_log (s : AgentStore) (l : Log DesiredStateRecord) : AgentStore :=
  with_replicated s {| membership_log := membership_log (replicated s);
                       catalog_log := catalog_log (replicated s); desired_log := l |}.

Record AgentApi := {
  api_project : string;
  api_engine : string;
  api_socket_path : string;
  api_peer_reachability_timeout_secs : N;
  api_catalog_identity : option NodeIdentity;
  (** The engine and the mesh configuration, when both are there. *)
  api_runtime : option MeshConfig;
}.

(** The environment of one request; [env_run_id] is the generated identifier of a run. *)
Record Env := {
  env_capacity : Capacity;
  env_schema_version : N;
  env_version : string;
  env_pid : N;
  env_uptime : N;
  env_run_id : string;
}.

Section api.
Context `{ContentHash MembershipRecord, ContentHash CatalogRecord, ContentHash DesiredStateRecord,
  Labels}.

(** The membership of the local node, as the committing handlers look it up. *)
Definition local_member (s : AgentStore) (identity : NodeIdentity) :
    result ApiError (MembershipView * MembershipRecord) :=
  let? members := map_err (λ e, api_error Internal (CauseMembership e))
    (Membership.from_records (membership_operations (membership_log (replicated s)))
       (identity_scope identity)) in
  let? member := ok_or (Membership.get members (identity_node_id identity))
    (api_error Invalid (CauseText "local node has no active membership record")) in
  Ok (members, member).

Definition configured (api : AgentApi) (text : string) : result ApiError NodeIdentity :=
  ok_or (api_catalog_identity api) (api_error Invalid (CauseText text)).

(** [DesiredCommit]; the revision of a stored record fits [i64], so the sum does not
    overflow. *)
Definition desired_record (s : AgentStore) (identity : NodeIdentity) (author : MembershipRecord)
    (service : string) (scale_override : option N) : DesiredStateRecord :=
  {| Desired.project_id := identity_project_id identity;
     Desired.recovery_epoch := identity_recovery_epoch identity;
     Desired.protocol_version := DESIRED_PROTOCOL_VERSION;
     Desired.schema_version := DESIRED_SCHEMA_VERSION;
     Desired.service := service; Desired.scale_override := scale_override;
     Desired.revision := match desired_state (desired_log (replicated s)) service with
                         | None => 1
                         | Some current => Desired.revision current + 1
                         end;
     Desired.author_node_id := identity_node_id identity;
     Desired.author_epoch := Membership.owner_epoch author |}.

Definition desired_commit (api : AgentApi) (c : Capacity) (s : AgentStore) (service : string)
    (scale_override : option N) : result ApiError (DesiredStateRecord * AgentStore) :=
  let? identity := configured api "desired-state identity is not configured" in
  let? (members, author) := local_member s identity in
  let record := desired_record s identity author service scale_override in
  let? (_, log) := map_err internal
    (apply_desired c (desired_log (replicated s)) record Local
       (desired_scope identity members)) in
  Ok (record, with_desired_log s log).

(** [CatalogCommit]. *)
Definition next_revision (catalog : list CatalogRecord) (replica : string) : N :=
  u64_saturating_add
    (default 0 (max_option (Catalog.revision <$> filter (λ r, replica_id r = replica) catalog))) 1.

Definition fenced (catalog : list CatalogRecord) (replica node : string) (epoch : N) : bool :=
  existsb (λ r, bool_decide (replica_id r = replica) && negb (bool_decide (owner_node_id r = node))
                && (epoch <=? Catalog.owner_epoch r)) catalog.

(** The record of a commit. *)
Definition commit_record (identity : NodeIdentity) (epoch : N)
    (catalog : list CatalogRecord) (service replica deployment : string) (address : N)
    (ports : list N) (image : string) (state : DeploymentState) (health : HealthState) : CatalogRecord :=
  {| Catalog.project_id := identity_project_id identity;
     Catalog.recovery_epoch := identity_recovery_epoch identity;
     Catalog.protocol_version := CATALOG_PROTOCOL_VERSION;
     Catalog.schema_version := CATALOG_SCHEMA_VERSION;
     Catalog.service := service; replica_id := replica; owner_node_id := identity_node_id identity;
     Catalog.owner_epoch := epoch;
     Catalog.revision := next_revision catalog replica; deployment_id := deployment;
     Catalog.address := address; Catalog.ports := ports; Catalog.image := image;
     Catalog.state := state; Catalog.health := health |}.

Definition catalog_commit (api : AgentApi) (c : Capacity) (s : AgentStore)
    (service replica deployment address : string) (ports : list N) (image : string)
    (state : DeploymentState) (health : HealthState) :
    result ApiError (CatalogRecord * AgentStore) :=
  let? identity := configured api "catalog identity is not configured" in
  let? address := ok_or (parse_ipv4 address) (api_error Invalid (CauseText "invalid IPv4 address syntax")) in
  let? (members, owner) := local_member s identity in
  let catalog := latest_catalog (catalog_log (replicated s)) in
  if fenced catalog replica (identity_node_id identity) (Membership.owner_epoch owner) then
    Err (api_error Invalid (CauseText "replica is fenced to a different owner"))
  else
    let record := commit_record identity (Membership.owner_epoch owner) catalog service replica deployment
                    address ports image state health in
    let? (_, log) := map_err internal
      (apply_catalog c (catalog_log (replicated s)) record Local (catalog_scope identity members)) in
    Ok (record, with_catalog_log s log).

(** [CronStatus]. *)
Definition job_status (t : CronTables) (spec : CronJobSpec) : CronJobStatus :=
  let job := spec_job spec in
  let scheduler_state := cron_scheduler_state t job in
  let last_run := head (cron_runs t {| filter_service := Some (spec_service spec);
                                       filter_cron_name := Some (spec_cron_name spec);
                                       filter_run_id := None; filter_since := None;
                                       filter_limit := Some 1 |}) in
  {| js_service := spec_service spec; js_cron_name := spec_cron_name spec;
     js_last_scheduled_at := last_run ≫= run_scheduled_at;
     js_last_started_at := last_run ≫= run_started_at;
     js_last_finished_at := last_run ≫= run_finished_at;
     js_last_state := run_state <$> last_run;
     js_last_exit_code := last_run ≫= run_exit_code;
     js_next_due_at := scheduler_state ≫= sched_next_due_at;
     js_active_run_id := run_id <$> active_cron_run t job;
     js_skipped_overlap_count :=
       match scheduler_state with Some s => sched_skipped_overlap_count s | None => 0 end |}.

Definition cron_statuses (t : CronTables) (service cron_name : option string) : list CronJobStatus :=
  job_status t <$> filter (λ spec, matches_filter service (spec_service spec)
                                   && matches_filter cron_name (spec_cron_name spec) = true) (cron_specs t).

(** An operation with its answer and the state it leaves, an error leaving none. *)
Definition answer {A} (s : AgentStore) (r : result ApiError (A * AgentStore)) (f : A → ResponseBody) :
    ApiResult * AgentStore :=
  match r with Ok (a, s') => (Ok (f a), s') | Err e => (Err e, s) end.

Definition allocate_address (s : AgentStore) (deployment replica subnet : string)
    (reserved : list string) (timestamp : N) : result ApiError (AddressLease * AgentStore) :=
  let? subnet := map_err (λ _, api_error Invalid (CauseText "invalid subnet")) (cidr_from_str subnet) in
  let? reserved := ok_or (mapM parse_ipv4 reserved)
    (api_error Invalid (CauseText "invalid IPv4 address syntax")) in
  let? (lease, t) := map_err (λ e, api_error Invalid (CauseLease e))
    (allocate (allocator_new subnet reserved) (lease_tables (agent s)) deployment replica timestamp) in
  Ok (lease, with_agent s (with_lease_tables (agent s) t)).

(** [handle].  An allocation that fails has already collected the expired leases. *)
Definition handle (api : AgentApi) (env : Env) (s : AgentStore) (body : RequestBody) :
    ApiResult * AgentStore :=
  let t := lease_tables (agent s) in
  match body with
  | Health => (Ok (HealthIs (env_schema_version env) (observation_count t) (env_version env)), s)
  | Identity => (Ok (IdentityIs (api_project api) (api_engine api) (env_pid env)), s)
  | Diagnostics =>
      (Ok (DiagnosticsAre (env_schema_version env) (observation_count t) (api_socket_path api)
             (env_uptime env) (database_usage_bytes (env_capacity env))
             (soft_quota_bytes (env_capacity env)) (operation_counts (replicated s))
             (api_peer_reachability_timeout_secs api) (peer_sync_statuses (peer_sync s))
             (component_statuses (components s))), s)
  | Compact =>
      let '(r, removed) := compact_operations (replicated s) in
      (Ok (Compacted (membership_removed removed) (catalog_removed removed) (desired_removed removed)),
       with_replicated s r)
  | ReconciliationStatus =>
      (Ok (ReconciliationStatusIs (get_checkpoint t "last_discovery_at") (observation_count t)
             (peer_sync_statuses (peer_sync s)) (component_statuses (components s))), s)
  | CatalogRead key =>
      let entry := read_local_state (local_state s) key in
      (Ok (CatalogValue (fst <$> entry) (snd <$> entry)), s)
  | LocalTransaction key value =>
      let '(revision, l) := commit_local_transaction (local_state s) key value in
      (Ok (LocalTransactionDone revision), with_local_state s l)
  | CatalogList => (Ok (CatalogRecords (latest_catalog (catalog_log (replicated s)))), s)
  | AllocateAddress deployment replica subnet reserved timestamp =>
      match allocate_address s deployment replica subnet reserved timestamp with
      | Ok (lease, s') =>
          (Ok (AddressLeased (lease_deployment lease) (lease_replica lease)
                 (ipv4_to_string (lease_address lease)) (lease_state lease)), s')
      | Err e =>
          (Err e,
           match error_cause e, collect_expired_address_leases t timestamp with
           | CauseLease _, Ok (_, t') => with_agent s (with_lease_tables (agent s) t')
           | _, _ => s
           end)
      end
  | ReleaseAddress deployment timestamp =>
      match quarantine_address_lease t deployment (u64_saturating_add timestamp DEFAULT_QUARANTINE_SECONDS) with
      | Ok (released, t') => (Ok (AddressReleased released), with_agent s (with_lease_tables (agent s) t'))
      | Err _ => (Err (internal Database), s)
      end
  | DesiredCommit service scale_override =>
      answer s (desired_commit api (env_capacity env) s service scale_override) (DesiredStateIs ∘ Some)
  | DesiredRead service => (Ok (DesiredStateIs (desired_state (desired_log (replicated s)) service)), s)
  | CatalogCommit service replica deployment address ports image state health =>
      answer s (catalog_commit api (env_capacity env) s service replica deployment address ports image
                  state health) CatalogCommitted
  | CronSpecApply service cron_name revision hash source_deployment source_replica image schedule
      timezone timeout overlap missed command env_file mounts resources bridge dns =>
      match (let? identity := configured api "cron identity is not configured" in
             let? (_, owner) := local_member s identity in Ok (identity, owner)) with
      | Err e => (Err e, s)
      | Ok (identity, owner) =>
          let spec :=
            {| spec_project := identity_project_id identity; spec_service := service;
               spec_cron_name := cron_name; spec_revision := revision; spec_canonical_hash := hash;
               spec_owner_node_id := identity_node_id identity;
               spec_owner_epoch := Membership.owner_epoch owner; spec_server := server_name owner;
               spec_source_deployment_id := source_deployment; spec_source_replica_id := source_replica;
               spec_image := image; spec_schedule := schedule; spec_timezone := timezone;
               spec_timeout_seconds := timeout; spec_overlap := overlap; spec_missed_runs := missed;
               spec_command := command; spec_env_file_path := env_file; spec_mount_args := mounts;
               spec_resource_args := resources; spec_bridge_network := bridge;
               spec_dns_address := dns |} in
          let '(outcome, t) := apply_cron_spec (cron (agent s)) spec in
          (Ok (CronSpecApplied (outcome_spec outcome) (outcome_kind outcome)),
           with_agent s (with_cron (agent s) t))
      end
  | CronSpecRemove service cron_name =>
      let '(removed, t) := remove_cron_spec (cron (agent s)) (service, cron_name) in
      (Ok (CronSpecRemoved removed), with_agent s (with_cron (agent s) t))
  | CronSpecList => (Ok (CronSpecs (cron_specs (cron (agent s)))), s)
  | CronStatus service cron_name =>
      (Ok (CronStatuses (cron_statuses (cron (agent s)) service cron_name)), s)
  | CronRunNow service cron_name timestamp =>
      let '(response, a) := request_cron_run (agent s) (api_runtime api) (api_project api)
                              (service, cron_name) timestamp (env_run_id env) in
      (match response with
       | CronRunAccepted id => Ok (CronRunIsAccepted id)
       | CronRunConflict id => Ok (CronRunIsInConflict id)
       | ApiNotFound => Err (api_error NotFound (CauseText ("service '" +:+ service +:+
                          "' has no installed cron job named '" +:+ cron_name +:+ "'")))
       | ApiInternal => Err (api_error Internal (CauseText "cron run could not be started"))
       end, with_agent s a)
  | CronRuns service cron_name run_id since limit =>
      (Ok (CronRunList (cron_runs (cron (agent s))
             {| filter_service := service; filter_cron_name := cron_name; filter_run_id := run_id;
                filter_since := since; filter_limit := limit |})), s)
  | ImageRetentionApply service repo retain =>
      let '(spec, t) := apply_image_retention_spec (retention_specs s)
                          {| ir_service := service; ir_repo := repo; ir_retain := retain |} in
      (Ok (ImageRetentionApplied spec), with_retention_specs s t)
  | ImageRetentionRemove service =>
      let '(removed, t) := remove_image_retention_spec (retention_specs s) service in
      (Ok (ImageRetentionRemoved removed), with_retention_specs s t)
  | ImageRetentionList => (Ok (ImageRetentionSpecs (image_retention_specs (retention_specs s))), s)
  end.

Definition handle_idempotent (api : AgentApi) (env : Env) (s : AgentStore) (r : Request) :
    ApiResult * AgentStore :=
  match idempotency_key r with
  | None => handle api env s (request_body r)
  | Some key =>
      match idempotent_get (idempotency_keys s) key with
      | Some cached => (cached, s)
      | None =>
          let '(outcome, s') := handle api env s (request_body r) in
          (outcome, with_idempotency_keys s' (idempotent_put (idempotency_keys s') key outcome))
      end
  end.
End api.

(** ** Lemmas *)

(** The hash of a record tells its deployment, epoch and revision. *)
Class HashSeparates `{ContentHash CatalogRecord} : Prop :=
  hash_separates : ∀ r s id, content_hash r = Some id → content_hash s = Some id →
    deployment_id r = deployment_id s ∧ Catalog.owner_epoch r = Catalog.owner_epoch s ∧
    Catalog.revision r = Catalog.revision s.

Section lemmas.
Context `{ContentHash MembershipRecord, ContentHash CatalogRecord, ContentHash DesiredStateRecord,
  Sha256, Labels}.

(** *** Commits *)

Lemma max_option_le l m x : max_option l = Some m → x ∈ l → x ≤ m.
Proof.
  intros Hm Hx. pose proof (max_option_spec l None) as Hs. unfold max_option in Hm. rewrite Hm in Hs.
  destruct Hs as (_ & Hle & _). by apply Hle.
Qed.

Lemma next_revision_above catalog replica r :
  r ∈ catalog → replica_id r = replica → (∀ s, s ∈ catalog → Catalog.revision s ≤ i64_max) →
  Catalog.revision r < next_revision catalog replica.
Proof.
  intros Hr Hrep Hfit. unfold next_revision. set (l := Catalog.revision <$> filter _ catalog).
  assert (Catalog.revision r ∈ l) as Hin.
  { apply list_elem_of_fmap_2, list_elem_of_filter. done. }
  pose proof (max_option_spec l None) as Hs. fold (max_option l) in Hs.
  destruct (max_option l) as [m|] eqn:Em; simpl.
  - destruct Hs as ([?|Hm] & Hle & _); [done|]. specialize (Hle _ Hin).
    apply list_elem_of_fmap in Hm as (s & -> & [_ Hs]%list_elem_of_filter). specialize (Hfit s Hs).
    unfold u64_saturating_add. assert (i64_max < u64_max) by done. lia.
  - destruct Hs as [_ Hnil]. rewrite Hnil in Hin. by apply elem_of_nil in Hin.
Qed.

(** The deployment, as far as it is known, is of the replica, and no record of the replica
    is of a later epoch of its owner. *)
Definition committable (log : Log CatalogRecord) (replica deployment : string) (epoch : N) : Prop :=
  (∀ id r, winners log !! deployment = Some (id, r) → replica_id r = replica) ∧
  (∀ d id r, winners log !! d = Some (id, r) → replica_id r = replica → Catalog.owner_epoch r ≤ epoch).

Lemma apply_catalog_installs `{!HashSeparates} c scope scope' log r out log' :
  (∃ v, clog_ok scope log v) → log_bounded log → same_project scope scope' →
  committable log (replica_id r) (deployment_id r) (Catalog.owner_epoch r) →
  (∀ d id s, winners log !! d = Some (id, s) → replica_id s = replica_id r →
     Catalog.revision s < Catalog.revision r) →
  apply_catalog c log r Local scope' = Ok (out, log') →
  ∃ id, content_hash r = Some id ∧ out = Catalog.Applied ∧
    winners log' = <[deployment_id r := (id, r)]> (winners log).
Proof.
  intros [v Hok0] Hb Hsp [Hdep Hep] Hrev Ha. pose proof (clog_ok_members _ _ _ _ Hsp Hok0) as Hok.
  revert Ha. unfold apply_catalog, Catalog.record_id. destruct (content_hash r) as [id|] eqn:Hid; [|done].
  simpl. destruct (has_operation log id) eqn:Hlog.
  { exfalso. apply bool_decide_eq_true in Hlog. apply list_elem_of_fmap in Hlog as ([i s] & -> & Hs).
    destruct (hash_separates _ _ _ Hid (co_hash _ _ _ Hok _ _ Hs)) as (Hd & He & Hr).
    destruct (lb_below _ Hb _ _ Hs) as (iw & w & Hw & Hle). rewrite <-Hd in Hw. simpl in Hle.
    pose proof (Hdep _ _ Hw) as Hrep. specialize (Hrev _ _ _ Hw Hrep). specialize (Hep _ _ _ Hw Hrep).
    pose proof (catalog_order_epoch _ _ _ _ Hle) as Hle'. assert (Catalog.owner_epoch w = Catalog.owner_epoch s) as Heq by lia.
    unfold Catalog.order in Hle. rewrite Heq in Hle. apply prod_leb_snd, prod_leb_fst in Hle.
    apply N_leb_le in Hle. simpl in Hle. lia. }
  apply has_operation_false in Hlog.
  destruct (ensure_replication_capacity c); [|done]. rewrite (co_replay _ _ _ Hok scope') by done. simpl.
  destruct (Catalog.apply v r Local scope') as [[o v']|] eqn:Ea; [|done]. simpl.
  apply catalog_apply_inv in Ea as [_ (id' & Hid' & Hr)]. rewrite Hid in Hid'. injection Hid' as <-.
  destruct Hr as [Hdup|cur cid Hni Hcur Hcid Hle|Hni Hep' Hcur].
  - destruct Hlog. by apply (co_ids _ _ _ Hok).
  - exfalso. apply (co_winners _ _ _ Hok) in Hcur as [i Hi]. pose proof (Hdep _ _ Hi) as Hrep.
    specialize (Hrev _ _ _ Hi Hrep). specialize (Hep _ _ _ Hi Hrep).
    pose proof (catalog_order_epoch _ _ _ _ Hle) as Hle'.
    assert (Catalog.owner_epoch cur = Catalog.owner_epoch r) as Heq by lia.
    unfold Catalog.order in Hle. rewrite Heq in Hle. apply prod_leb_snd, prod_leb_fst in Hle.
    apply N_leb_le in Hle. simpl in Hle. lia.
  - destruct (_ && _); [|done]. intros [= <- <-]. exists id. done.
Qed.

(** The scope of the records of an identity; who the members are changes. *)
Definition identity_catalog_scope (identity : NodeIdentity) : CatalogScope :=
  catalog_scope identity MembershipView_default.

(** The tables of a store that came about by its operations. *)
Record store_ok (identity : NodeIdentity) (s : AgentStore) : Prop := {
  so_membership : rtc (OpLogProps.mstep (identity_scope identity)) Log_empty (membership_log (replicated s));
  so_catalog : rtc (OpLogProps.cstep (identity_catalog_scope identity)) Log_empty (catalog_log (replicated s));
  so_agent : agent_ok (agent s);
  so_leases : leases_wf (leases (lease_tables (agent s)));
}.

(** What a commit that succeeds did. *)
Lemma catalog_commit_installs `{!HashSeparates} api c s identity service replica deployment address
    ports image state health r s' :
  store_ok identity s → api_catalog_identity api = Some identity →
  catalog_commit api c s service replica deployment address ports image state health = Ok (r, s') →
  committable (catalog_log (replicated s)) replica deployment (Catalog.owner_epoch r) →
  ∃ id log' a, content_hash r = Some id ∧ s' = with_catalog_log s log' ∧
    winners log' = <[deployment := (id, r)]> (winners (catalog_log (replicated s))) ∧
    OpLogProps.cstep (identity_catalog_scope identity) (catalog_log (replicated s)) log' ∧
    parse_ipv4 address = Some a ∧
    r = commit_record identity (Catalog.owner_epoch r) (latest_catalog (catalog_log (replicated s)))
          service replica deployment a ports image state health.
Proof.
  intros Hs Hapi. unfold catalog_commit, configured. rewrite Hapi. simpl.
  destruct (parse_ipv4 address) as [a|]; [|done]. simpl.
  destruct (local_member s identity) as [[members owner]|]; [|done].
  destruct (fenced _ _ _ _); [done|]. set (rec := commit_record _ _ _ _ _ _ _ _ _ _ _).
  destruct (apply_catalog c _ rec Local _) as [[out log']|] eqn:Ea; [|done]. simpl.
  intros [= <- <-] Hcom.
  destruct (reachable_bounded _ _ (so_catalog _ _ Hs)) as [Hok Hb].
  assert (same_project (identity_catalog_scope identity) (catalog_scope identity members)) as Hsp by done.
  destruct (apply_catalog_installs c _ _ _ rec out log' Hok Hb Hsp) as (id & Hid & _ & Hw); [done| |done|].
  - intros d i s0 Hw Hrep. apply next_revision_above; [|done|].
    + apply elem_of_latest_catalog. eauto.
    + intros s1 (d1 & i1 & Hw1)%elem_of_latest_catalog. by apply (lb_fits _ Hb _ _ _ Hw1).
  - exists id, log', a. split_and!; try done. by eapply OpLogProps.cstep_apply.
Qed.

(** What a request can do to the database. *)
Definition runtime_ok (api : AgentApi) : Prop :=
  ∀ mesh, api_runtime api = Some mesh → cidr_wf (mesh_container_subnet mesh).

Inductive handled (api : AgentApi) (s : AgentStore) : AgentStore → Prop :=
| handled_same : handled api s s
| handled_compact : handled api s (with_replicated s (compact_operations (replicated s)).1)
| handled_local l : handled api s (with_local_state s l)
| handled_retention t : handled api s (with_retention_specs s t)
| handled_desired l : handled api s (with_desired_log s l)
| handled_commit c r identity members out l :
    api_catalog_identity api = Some identity →
    apply_catalog c (catalog_log (replicated s)) r Local (catalog_scope identity members) = Ok (out, l) →
    handled api s (with_catalog_log s l)
| handled_agent a :
    (agent_ok (agent s) → agent_ok a) →
    (runtime_ok api → leases_wf (leases (lease_tables (agent s))) → leases_wf (leases (lease_tables a))) →
    handled api s (with_agent s a).

Lemma handled_leases api s t :
  rtc LeasesProps.lstep (lease_tables (agent s)) t →
  handled api s (with_agent s (with_lease_tables (agent s) t)).
Proof.
  intros Hl. apply handled_agent.
  - intros Ha. eapply step_ok; [exact Ha|apply step_leases].
  - intros _ Hw. simpl. clear -Hl Hw. induction Hl; [done|]. by eapply IHHl, LeasesProps.lstep_wf.
Qed.

Lemma handled_cron api s t :
  step Work (agent s) (with_cron (agent s) t) → handled api s (with_agent s (with_cron (agent s) t)).
Proof. intros Hs. apply handled_agent; [|done]. intros Ha. by eapply step_ok. Qed.

Lemma lease_and_spawn_leases a mesh spec run ts :
  cidr_wf (mesh_container_subnet mesh) → leases_wf (leases (lease_tables a)) →
  leases_wf (leases (lease_tables (lease_and_spawn a mesh spec run ts).2)).
Proof.
  intros Hc Hw. unfold lease_and_spawn. destruct (allocate _ _ _ _ _) as [[l t]|e] eqn:Ea; simpl.
  - eapply LeasesProps.lstep_wf; [exact Hw|]. by eapply LeasesProps.lstep_allocate.
  - destruct (collect_expired_address_leases _ _) as [[n t]|] eqn:Ec; [|done].
    eapply LeasesProps.lstep_wf; [exact Hw|]. by eapply LeasesProps.lstep_collect.
Qed.

Lemma request_cron_run_leases a runtime project job ts id :
  (∀ mesh, runtime = Some mesh → cidr_wf (mesh_container_subnet mesh)) →
  leases_wf (leases (lease_tables a)) →
  leases_wf (leases (lease_tables (request_cron_run a runtime project job ts id).2)).
Proof.
  intros Hr Hw. unfold request_cron_run. destruct (cron_spec _ _); [|done].
  destruct (claim_cron_run _ _ _ _ _ _ _) as [[[run|run|i] t]|]; try done.
  destruct runtime as [mesh|]; [|done].
  set (a1 := with_drivers _ _). pose proof (lease_and_spawn_leases a1 mesh c run ts (Hr _ eq_refl) Hw) as Hl.
  by destruct (lease_and_spawn _ _ _ _ _) as [[|] ?].
Qed.

Lemma handle_handled api env s body : handled api s (handle api env s body).2.
Proof.
  destruct body; try apply handled_same; cbn -[allocate_address desired_commit catalog_commit compact_operations].
  - pose proof (handled_compact api s) as Hc. by destruct (compact_operations (replicated s)).
  - apply handled_local.
  - destruct (allocate_address _ _ _ _ _ _) as [[lease s']|e] eqn:E; unfold allocate_address in E.
    + destruct (cidr_from_str _) as [subnet'|] eqn:Es; [|done]. simpl in E. destruct (mapM _ _); [|done]. simpl in E.
      destruct (allocate _ _ _ _ _) as [[al t]|] eqn:Ea; [|done]. injection E as <- <-.
      apply handled_leases. eapply rtc_once, LeasesProps.lstep_allocate; [|exact Ea]. by eapply cidr_from_str_wf.
    + destruct (error_cause e); try apply handled_same.
      destruct (collect_expired_address_leases _ _) as [[n t]|] eqn:Ec; [|apply handled_same].
      eapply handled_leases, rtc_once, LeasesProps.lstep_collect, Ec.
  - destruct (quarantine_address_lease _ _ _) as [[b t]|] eqn:Eq; [|apply handled_same].
    eapply handled_leases, rtc_once, LeasesProps.lstep_release, Eq.
  - destruct (desired_commit _ _ _ _ _) as [[r s']|] eqn:E; [|apply handled_same]. unfold desired_commit in E.
    destruct (configured _ _); [|done]. destruct (local_member _ _) as [[? ?]|]; [|done].
    destruct (map_err _ _) as [[? ?]|]; [|done]. injection E as <- <-. apply handled_desired.
  - destruct (catalog_commit _ _ _ _ _ _ _ _ _ _ _) as [[r s']|] eqn:E; [|apply handled_same].
    unfold catalog_commit, configured in E.
    destruct (api_catalog_identity api) as [identity|] eqn:Hapi; [|done]. simpl in E. destruct (ok_or _ _); [|done].
    destruct (local_member _ _) as [[? ?]|]; [|done]. destruct (fenced _ _ _ _); [done|].
    destruct (apply_catalog _ _ _ _ _) as [[? ?]|] eqn:Ea; [|done]. injection E as <- <-.
    by eapply handled_commit.
  - destruct (configured _ _); [|apply handled_same]. destruct (local_member _ _) as [[? ?]|]; [|apply handled_same].
    apply handled_cron, step_apply_spec.
  - apply handled_cron, step_remove_spec.
  - pose proof (request_steps (agent s) (api_runtime api) (api_project api) (service, cron_name) timestamp
      (env_run_id env)) as Hr.
    pose proof (request_cron_run_leases (agent s) (api_runtime api) (api_project api) (service, cron_name)
      timestamp (env_run_id env)) as Hl.
    destruct (request_cron_run _ _ _ _ _ _) as [resp a]. cbn in *. apply handled_agent; [|by intros Hro; apply Hl].
    intros Ha. clear -Hr Ha. induction Hr; [done|]. by eapply IHHr, step_ok.
  - apply handled_retention.
  - apply handled_retention.
Qed.

Lemma handled_keys api s s' : handled api s s' → idempotency_keys s' = idempotency_keys s.
Proof. by intros []. Qed.

Lemma handled_ok api identity s s' :
  api_catalog_identity api = Some identity → runtime_ok api → store_ok identity s →
  handled api s s' → store_ok identity s'.
Proof.
  intros Hapi Hrt [Hm Hc Ha Hl] Hh. destruct Hh as [| | | | |c r i members out l Hi Happ|a Hag Hls]; try by split.
  - unfold compact_operations. split; try done; simpl.
    + eapply rtc_r; [exact Hm|]. apply OpLogProps.mstep_compact.
    + eapply rtc_r; [exact Hc|]. apply OpLogProps.cstep_compact.
  - rewrite Hapi in Hi. injection Hi as <-. split; try done. simpl. eapply rtc_r; [exact Hc|].
    by eapply OpLogProps.cstep_apply; [|exact Happ].
  - split; try done; simpl; auto.
Qed.
End lemmas.

Module ApiProps.

Section props.
Context `{ContentHash MembershipRecord, ContentHash CatalogRecord, ContentHash DesiredStateRecord,
  Sha256, Labels}.

(** One request, with or without a key, answered one after the other. *)
Inductive astep (api : AgentApi) : AgentStore → AgentStore → Prop :=
| astep_request env s r : astep api s (handle_idempotent api env s r).2.

Lemma handle_idempotent_handled api env s r :
  ∃ s', handled api s s' ∧ replicated (handle_idempotent api env s r).2 = replicated s' ∧
    agent (handle_idempotent api env s r).2 = agent s'.
Proof.
  unfold handle_idempotent. destruct (idempotency_key r) as [key|].
  - destruct (idempotent_get _ _); [exists s; split; [apply handled_same|done]|].
    pose proof (handle_handled api env s (request_body r)) as Hh.
    destruct (handle api env s (request_body r)) as [o s']. by exists s'.
  - eexists. split; [apply handle_handled|done].
Qed.

Lemma astep_ok api identity s s' :
  api_catalog_identity api = Some identity → runtime_ok api →
  store_ok identity s → astep api s s' → store_ok identity s'.
Proof.
  intros Hapi Hrt Hok Hs. destruct Hs as [env s r].
  destruct (handle_idempotent_handled api env s r) as (s' & Hh & Hr & Ha).
  destruct (handled_ok _ _ _ _ Hapi Hrt Hok Hh). by split; rewrite ?Hr, ?Ha.
Qed.

Lemma astep_key api s s' key answer :
  astep api s s' → idempotency_keys s !! key = Some answer → idempotency_keys s' !! key = Some answer.
Proof.
  intros [env s0 r] Hk. unfold handle_idempotent. destruct (idempotency_key r) as [key'|].
  - destruct (idempotent_get _ _) as [cached|] eqn:Eg; [done|].
    pose proof (handled_keys _ _ _ (handle_handled api env s0 (request_body r))) as Hkeys.
    destruct (handle api env s0 (request_body r)) as [o s1]. simpl in *. unfold idempotent_put.
    rewrite Hkeys. unfold idempotent_get in Eg. rewrite Eg. rewrite lookup_insert_ne; [done|]. congruence.
  - by rewrite (handled_keys _ _ _ (handle_handled api env s0 (request_body r))).
Qed.

(** C11: Whatever requests an agent answers, its tables stay sound: the membership and catalog
    logs are ones that applied records and compactions lead to, no address is leased twice,
    every row of the leases is filed under its deployment, and the cron tables have one
    active run per job, each with a task that works on it. *)
Theorem requests_keep_the_tables_sound api identity s s' :
  api_catalog_identity api = Some identity → runtime_ok api → store_ok identity s →
  rtc (astep api) s s' → store_ok identity s'.
Proof. intros Hapi Hrt Hok Hs. induction Hs; [done|]. by eauto using astep_ok. Qed.

(** A request is carried out once.  After a request with a key has been answered, every
    later request with that key, whatever its body and whatever was asked in between, gets
    the same answer, be it a success or an error, and changes nothing. *)
Theorem repeated_key_gets_the_same_answer api env s key body answer s1 s2 :
  handle_idempotent api env s {| idempotency_key := Some key; request_body := body |} = (answer, s1) →
  rtc (astep api) s1 s2 →
  ∀ env' body',
    handle_idempotent api env' s2 {| idempotency_key := Some key; request_body := body' |} = (answer, s2).
Proof.
  intros Hh Hs env' body'. assert (idempotency_keys s1 !! key = Some answer) as Hk.
  { unfold handle_idempotent in Hh. simpl in Hh. destruct (idempotent_get _ _) as [cached|] eqn:Eg.
    - injection Hh as -> ->. exact Eg.
    - pose proof (handled_keys _ _ _ (handle_handled api env s body)) as Hkeys.
      destruct (handle api env s body) as [o s']. injection Hh as -> <-. simpl in *.
      unfold idempotent_put. rewrite Hkeys. unfold idempotent_get in Eg. rewrite Eg. apply lookup_insert_eq. }
  assert (idempotency_keys s2 !! key = Some answer) as Hk2.
  { clear Hh. induction Hs as [|x y z Hxy Hs IH]; [done|]. by eapply IH, astep_key. }
  unfold handle_idempotent, idempotent_get. simpl. by rewrite Hk2.
Qed.

(** A commit to the catalog takes effect.  When the agent answers that a record is
    committed, the catalog holds that record for the deployment and is otherwise as it was;
    the record has the fields of the request, the identity of the node, and a revision above
    every record of its replica; nothing else of the database has changed. *)
Theorem commit_installs_its_record `{!HashSeparates} api env s identity service replica deployment
    address ports image state health r s' :
  store_ok identity s → api_catalog_identity api = Some identity →
  handle api env s (CatalogCommit service replica deployment address ports image state health)
    = (Ok (CatalogCommitted r), s') →
  committable (catalog_log (replicated s)) replica deployment (Catalog.owner_epoch r) →
  ∃ id log', content_hash r = Some id ∧ s' = with_catalog_log s log' ∧
    winners log' = <[deployment := (id, r)]> (winners (catalog_log (replicated s))) ∧
    owner_node_id r = identity_node_id identity ∧ deployment_id r = deployment ∧ replica_id r = replica ∧
    Catalog.state r = state ∧ Catalog.health r = health ∧ Catalog.service r = service ∧
    parse_ipv4 address = Some (Catalog.address r) ∧
    ∀ q, q ∈ latest_catalog (catalog_log (replicated s)) → replica_id q = replica →
      Catalog.revision q < Catalog.revision r.
Proof.
  intros Hs Hapi. simpl. destruct (catalog_commit _ _ _ _ _ _ _ _ _ _ _) as [[r0 s0]|] eqn:E; [|done].
  intros [= <- <-] Hcom.
  destruct (catalog_commit_installs _ _ _ _ _ _ _ _ _ _ _ _ _ _ Hs Hapi E Hcom)
    as (id & log' & a & Hid & Hs' & Hw & _ & Hp & Hr).
  destruct (reachable_bounded _ _ (so_catalog _ _ Hs)) as [_ Hb].
  exists id, log'. split_and!; try done; try by rewrite Hr.
  intros q Hq Hrep. rewrite Hr. apply next_revision_above; [done|done|].
  intros t (d1 & i1 & Hw1)%elem_of_latest_catalog. by apply (lb_fits _ Hb _ _ _ Hw1).
Qed.
End props.

(** A hash that tells the deployment, the epoch and the revision. *)
Definition commit_hash : ContentHash CatalogRecord :=
  {| content_hash r := Some (pretty (encode (deployment_id r, (Catalog.owner_epoch r, Catalog.revision r)))) |}.

Lemma commit_hash_separates : @HashSeparates commit_hash.
Proof.
  intros r s id [= <-] [= He]. apply (inj pretty) in He. apply (inj encode) in He.
  by injection He as -> -> ->.
Qed.

Definition sample_node : NodeIdentity :=
  {| identity_project_id := "demo"; identity_recovery_epoch := 1; identity_node_id := "a" |}.
Definition sample_api : AgentApi :=
  {| api_project := "demo"; api_engine := "docker"; api_socket_path := "/run/jiji.sock";
     api_peer_reachability_timeout_secs := 30; api_catalog_identity := Some sample_node;
     api_runtime := None |}.
Definition sample_env : Env :=
  {| env_capacity := OpLogProps.sample_capacity; env_schema_version := 12; env_version := "1";
     env_pid := 7; env_uptime := 0; env_run_id := "run" |}.
Definition empty_store (members : Log MembershipRecord) : AgentStore :=
  {| replicated := {| membership_log := members; catalog_log := Log_empty; desired_log := Log_empty |};
     agent := fresh_agent; local_state := ∅; idempotency_keys := ∅; peer_sync := ∅; components := ∅;
     retention_specs := ∅ |}.

Definition sample_store : AgentStore := empty_store ReplicationProps.members_log.

Definition sample_handle : AgentStore → RequestBody → ApiResult * AgentStore :=
  @handle MembershipProps.sample_hash commit_hash DesiredProps.sample_hash LeasesProps.sample_labels sample_api sample_env.
Definition sample_idempotent : AgentStore → Request → ApiResult * AgentStore :=
  @handle_idempotent MembershipProps.sample_hash commit_hash DesiredProps.sample_hash LeasesProps.sample_labels sample_api sample_env.

Definition sample_commit (deployment : string) (state : DeploymentState) : RequestBody :=
  CatalogCommit "web" "web-0" deployment "10.0.0.5" [80] "web:1" state Healthy.

Lemma members_log_reachable :
  rtc (@OpLogProps.mstep MembershipProps.sample_hash (identity_scope sample_node)) Log_empty
    ReplicationProps.members_log.
Proof.
  eapply rtc_l; [|eapply rtc_once].
  - eapply (@OpLogProps.mstep_apply MembershipProps.sample_hash _ OpLogProps.sample_capacity _
      MembershipProps.sample_a). vm_compute. reflexivity.
  - eapply (@OpLogProps.mstep_apply MembershipProps.sample_hash _ OpLogProps.sample_capacity _
      MembershipProps.sample_b). vm_compute. reflexivity.
Qed.

Lemma sample_store_ok :
  @store_ok MembershipProps.sample_hash commit_hash sample_node sample_store.
Proof.
  split; [apply members_log_reachable|apply rtc_refl|apply fresh_agent_ok|].
  split; simpl; intros *; by rewrite lookup_empty.
Qed.

Lemma requests_keep_the_tables_sound_witness :
  @store_ok MembershipProps.sample_hash commit_hash sample_node
    (sample_idempotent sample_store
       {| idempotency_key := Some "k"; request_body := sample_commit "d1" Catalog.Active |}).2.
Proof.
  eapply (@requests_keep_the_tables_sound MembershipProps.sample_hash commit_hash DesiredProps.sample_hash
    constant_sha256 LeasesProps.sample_labels sample_api sample_node sample_store).
  - reflexivity.
  - intros mesh Hm. discriminate Hm.
  - apply sample_store_ok.
  - apply rtc_once. apply (@astep_request MembershipProps.sample_hash commit_hash DesiredProps.sample_hash
      LeasesProps.sample_labels sample_api sample_env).
Defined.

Lemma repeated_key_gets_the_same_answer_witness :
  let lock v := {| idempotency_key := Some "k"; request_body := LocalTransaction "k" v |} in
  let s1 := (sample_idempotent sample_store (lock "x")).2 in
  (sample_idempotent s1 (lock "y")).1 = Ok (LocalTransactionDone 1).
Proof.
  intros lock s1.
  pose proof (@repeated_key_gets_the_same_answer MembershipProps.sample_hash commit_hash DesiredProps.sample_hash
    constant_sha256 LeasesProps.sample_labels sample_api sample_env sample_store "k" (LocalTransaction "k" "x")
    (Ok (LocalTransactionDone 1)) s1 s1) as Hw.
  assert (sample_idempotent s1 (lock "y") = (Ok (LocalTransactionDone 1), s1)) as ->; [|reflexivity].
  apply Hw; [vm_compute; reflexivity|apply rtc_refl].
Defined.

Lemma commit_installs_its_record_witness :
  ∃ r id, (sample_handle sample_store (sample_commit "d1" Catalog.Active)).1 = Ok (CatalogCommitted r) ∧
    winners (catalog_log (replicated (sample_handle sample_store (sample_commit "d1" Catalog.Active)).2))
      !! "d1" = Some (id, r).
Proof.
  destruct (sample_handle sample_store (sample_commit "d1" Catalog.Active)) as [o s'] eqn:E.
  destruct o as [[| | | | | | | | | | |r| | | | | | | | | |]|]; try (vm_compute in E; discriminate E).
  destruct (@commit_installs_its_record MembershipProps.sample_hash commit_hash DesiredProps.sample_hash
    LeasesProps.sample_labels commit_hash_separates sample_api sample_env sample_store
    sample_node "web" "web-0" "d1" "10.0.0.5" [80] "web:1" Catalog.Active Healthy r s')
    as (id & log' & _ & -> & Hw & _).
  - apply sample_store_ok.
  - reflexivity.
  - exact E.
  - split; simpl; intros *; by rewrite lookup_empty.
  - exists r, id. split; [reflexivity|]. simpl. rewrite Hw. apply lookup_insert_eq.
Defined.

(** A node that was removed from the project still commits: the handlers look for any
    membership record of the node, not for an active one. *)
Theorem removed_node_still_commits :
  let removed := ReplicationProps.log_of ReplicationProps.members_log
    (@apply_membership MembershipProps.sample_hash OpLogProps.sample_capacity ReplicationProps.members_log
       (MembershipProps.sample_record "a" 1001 "100.64.0.0/21" 1 2 Membership.Tombstoned)
       MembershipProps.sample_scope) in
  (Membership.state ∘ snd <$> winners removed !! "a") = Some Membership.Tombstoned ∧
  is_ok (sample_handle (empty_store removed) (sample_commit "d1" Catalog.Active)).1 = true.
Proof. vm_compute. done. Qed.
End ApiProps.
