(* ===== verification/CandidatePlan.v ===== *)
(** What the CLI derives for one endpoint before it deploys it: the container to run
    ([jiji-cli/src/container_runtime.rs]), the health check of the candidate
    ([jiji-cli/src/health_check.rs]) and its proxy routes with the commands that apply them
    ([jiji-cli/src/proxy_routes.rs]).

    Durations are whole seconds.  [split_at] in [parse_duration] panics inside a character,
    so what uses it has an [outcome]; a product of a release build wraps.  The text of an
    [f64] is a parameter. *)

From S2P Require Import Prelude Text Bytes Cidr Naming Schema Planner ServiceRuntime CronExec.
Open Scope N_scope.

(** Code that may panic, in sequence. *)
Definition outcome_bind {A B} (o : outcome A) (f : A → outcome B) : outcome B :=
  match o with Returned a => f a | Panicked => Panicked end.
Notation "'let!' x ':=' c 'in' k" := (outcome_bind c (λ x, k))
  (at level 10, x pattern, c at level 100, k at level 200) : jiji_scope.

(** ** [container_runtime.rs] *)

Definition exec_prefix (engine : ContainerEngine) : string :=
  match engine with Docker => "docker exec" | Podman => "podman exec --no-session" end.

Definition normalize_image_name (image : string) : string :=
  match split_once "/" image with
  | None => "docker.io/library/" +:+ image
  | Some (first, _) =>
      if bool_decide (first = "localhost") || contains_char "." first || contains_char ":" first
      then image else "docker.io/" +:+ image
  end.

(** [rsplit('/').next()]. *)
Definition last_segment (image : string) : string := default image (last (split_char "/" image)).

Definition resolve_image_reference (image : string) (version : option string) : result string string :=
  let has_explicit_tag := contains_char ":" (last_segment image) in
  match version with
  | None => Ok (normalize_image_name image)
  | Some version =>
      if has_explicit_tag then
        Err ("Image '" +:+ image +:+ "' already has an explicit tag; remove it or drop --version '"
             +:+ version +:+ "' to resolve the conflict.")
      else Ok (normalize_image_name (image +:+ ":" +:+ version))
  end.

Definition label_args (labels : list string) : list string := mjoin ((λ l, ["--label"; l]) <$> labels).

Definition render_labels (project service server : string) : list string :=
  label_args ["jiji.managed=true"; "jiji.project=" +:+ project; "jiji.service=" +:+ service;
              "jiji.server=" +:+ server; "jiji.resource=service"].

Definition bool_to_string (b : bool) : string := if b then "true" else "false".

Definition render_dynamic_labels (project service server replica deployment : string)
    (lease_address : N) (lifecycle : string) (owns_lease : bool) : list string :=
  render_labels project service server ++
  label_args ["jiji.catalog-managed=true"; "jiji.replica=" +:+ replica;
              "jiji.deployment=" +:+ deployment; "jiji.lease=" +:+ ipv4_to_string lease_address;
              "jiji.lease-owned=" +:+ bool_to_string owns_lease; "jiji.lifecycle=" +:+ lifecycle].

Definition dynamic_container_name (project service deployment : string) : string :=
  project +:+ "-" +:+ service +:+ "-" +:+ default deployment (prefix_to 12 deployment).

Definition render_ports (ports : list string) : list string := mjoin ((λ p, ["-p"; p]) <$> ports).

Definition is_named_volume_source (source : string) : bool :=
  negb (starts_with "/" source || starts_with "." source).

(** What a volume is mounted as; [find(':')] and [split_at]. *)
Definition render_volume (service_name volume : string) : string :=
  match split_once ":" volume with
  | None => volume
  | Some (source, rest) =>
      if is_named_volume_source source then service_name +:+ "-" +:+ source +:+ ":" +:+ rest else volume
  end.
Definition render_volumes (volumes : list string) (service_name : string) : list string :=
  mjoin ((λ v, ["-v"; render_volume service_name v]) <$> volumes).

(** [f64::to_string] of the bits of a number. *)
Class FloatText := { float_to_string : N → string }.

Definition flag_arg (flag : string) (value : option string) : list string :=
  match value with Some v => [flag; v] | None => [] end.

Definition render_resource_options `{FloatText} (s : Service) : list string :=
  flag_arg "--cpus" ((λ c, match c with CpusNumber n => float_to_string n | CpusText t => t end)
                     <$> service_cpus s) ++
  flag_arg "--memory" (service_memory s) ++ flag_arg "--gpus" (service_gpus s) ++
  mjoin ((λ d, ["--device"; d]) <$> service_devices s) ++
  (if service_privileged s then ["--privileged"] else []) ++
  mjoin ((λ c, ["--cap-add"; c]) <$> service_cap_add s).

Definition render_command (command : option CommandValue) : list string :=
  match command with
  | None => []
  | Some (CommandSingle value) => [value]
  | Some (CommandMultiple values) => values
  end.

Definition restart_args (s : Service) : list string :=
  ["--detach"; "--restart"; restart_to_string (default UnlessStopped (service_restart s))].

Definition with_extra (run : NetworkedContainerRun) (extra command : list string) : NetworkedContainerRun :=
  {| nc_engine := nc_engine run; nc_container_name := nc_container_name run; nc_image := nc_image run;
     nc_address := nc_address run; nc_dns_address := nc_dns_address run;
     nc_bridge_name := nc_bridge_name run; nc_bridge_interface := nc_bridge_interface run;
     nc_network_target := nc_network_target run; nc_extra_args := extra; nc_command := command |}.

Section runs.
Context `{FloatText} (engine : ContainerEngine)
  (project service_name server_name replica deployment image : string) (address : N)
  (server : ServerPlan) (service : Service) (mount_args : list string) (env_file_path : string).

Definition run_tail : list string :=
  mount_args ++ ["--env-file"; env_file_path] ++ render_resource_options service.

Definition build_dynamic_run : NetworkedContainerRun :=
  with_extra (dynamic engine (dynamic_container_name project service_name deployment) image address server)
    (restart_args service ++
     render_dynamic_labels project service_name server_name replica deployment address "candidate" true ++
     render_ports (service_ports service) ++ run_tail)
    (render_command (service_command service)).

Definition build_shared_run (target_container : string) : NetworkedContainerRun :=
  with_extra (shared engine (dynamic_container_name project service_name deployment) image
                target_container address server)
    (restart_args service ++
     render_dynamic_labels project service_name server_name replica deployment address "candidate" false ++
     run_tail)
    (render_command (service_command service)).

Definition build_host_run : NetworkedContainerRun :=
  with_extra (host engine (dynamic_container_name project service_name deployment) image address server)
    (restart_args service ++
     render_dynamic_labels project service_name server_name replica deployment address "candidate" false ++
     run_tail)
    (render_command (service_command service)).
End runs.

(** ** [health_check.rs] *)

Definition DEFAULT_INTERVAL : N := 2.
Definition DEFAULT_DEPLOY_TIMEOUT : N := 30.
Definition DEFAULT_HTTP_TIMEOUT : N := 5.

Record HealthCheckPlan := { hp_command : string; hp_interval : N; hp_deploy_timeout : N }.

Definition parse_duration (value : string) : outcome (option N) :=
  let value := trim_chars value in
  if (length (mjoin value) <? 2)%nat then Returned None
  else match last value with
       | Some [unit_byte] =>
           match parse_uint u64_max (of_chars (removelast value)) with
           | Err _ => Returned None
           | Ok amount =>
               Returned
                 (if bool_decide (unit_byte = "s"%char) then Some amount
                  else if bool_decide (unit_byte = "m"%char) then Some ((amount * 60) mod 2 ^ 64)
                  else None)
           end
       | _ => Panicked
       end.

(** [.as_deref().and_then(parse_duration)]. *)
Definition parse_optional (value : option string) : outcome (option N) :=
  match value with Some v => parse_duration v | None => Returned None end.

Definition container_readiness_command (engine : ContainerEngine) (container_name : string) : string :=
  engine_to_string engine +:+ " inspect " +:+ container_name
  +:+ " --format '{{.State.Status}}' | grep -qx running".

(** The command of an HTTP check. *)
Definition http_check_command (timeout address port : N) (path : string) : string :=
  "curl -fsS --max-time " +:+ pretty (N.max timeout 1) +:+ " http://" +:+ ipv4_to_string address
  +:+ ":" +:+ pretty port +:+ path.

Definition plan_for_candidate (engine : ContainerEngine) (container_name : string)
    (backend_address port : N) (healthcheck : option HealthcheckConfig) : outcome HealthCheckPlan :=
  let! interval := parse_optional (healthcheck ≫= healthcheck_interval) in
  let! deploy_timeout := parse_optional (healthcheck ≫= healthcheck_deploy_timeout) in
  let! command :=
    match healthcheck with
    | None => Returned None
    | Some check =>
        match healthcheck_cmd check with
        | Some cmd =>
            Returned (Some (exec_prefix (default engine (healthcheck_cmd_runtime check)) +:+ " "
                            +:+ container_name +:+ " " +:+ cmd))
        | None =>
            match healthcheck_path check with
            | None => Returned None
            | Some path =>
                let! timeout := parse_optional (healthcheck_timeout check) in
                Returned (Some (http_check_command (default DEFAULT_HTTP_TIMEOUT timeout)
                                  backend_address port path))
            end
        end
    end in
  Returned {| hp_command := default (container_readiness_command engine container_name) command;
              hp_interval := default DEFAULT_INTERVAL interval;
              hp_deploy_timeout := default DEFAULT_DEPLOY_TIMEOUT deploy_timeout |}.

(** [summarize_stream]: the first line that is not blank, with the last one if it differs;
    [next_back] is asked of what the first one left. *)
Definition summarize_stream (text : string) : option string :=
  match filter (λ l, l ≠ "") (trim <$> lines text) with
  | [] => None
  | first :: rest =>
      match last rest with
      | Some last => if bool_decide (last = first) then Some first
                     else Some (first +:+ " (... " +:+ last +:+ ")")
      | None => Some first
      end
  end.

Definition summarize_attempt (stdout stderr : string) (code : option N) : string :=
  match summarize_stream stderr with
  | Some summary => summary
  | None =>
      match summarize_stream stdout with
      | Some summary => summary
      | None => match code with
                | Some code => "exited with status " +:+ pretty code
                | None => "no exit status (killed by signal)"
                end
      end
  end.

Module CandidatePlanProps.

(** The named volumes of two services can be one: the separator between a service and a volume
    may be in the name of either. *)
Theorem volumes_of_services_collide :
  render_volume "shop" "api-data:/data" = render_volume "shop-api" "data:/data".
Proof. vm_compute. reflexivity. Qed.

(** A path with an ampersand ends the command of the check: a shell runs the request in the
    background and the rest as a command of its own. *)
Theorem health_path_is_not_quoted :
  hp_command <$> match plan_for_candidate Docker "c" 167772161 80
    (Some {| healthcheck_path := Some "/up?a=1&b=2"; healthcheck_cmd := None; healthcheck_cmd_runtime := None;
             healthcheck_interval := None; healthcheck_timeout := None; healthcheck_deploy_timeout := None |})
  with Returned p => Some p | Panicked => None end
  = Some "curl -fsS --max-time 5 http://10.0.0.1:80/up?a=1&b=2".
Proof. vm_compute. reflexivity. Qed.
End CandidatePlanProps.
