(* ===== verification/Substring.v ===== *)
(** Substrings of text: [str::find], [str::contains] and [str::replace] with a string
    pattern, as the CLI uses them, on the bytes of the text.  UTF-8 keeps an occurrence of a
    character sequence an occurrence of its bytes and nothing else one. *)

From S2P Require Import Prelude Text Bytes.

(** The rest of a list after a prefix. *)
Fixpoint strip_list (p s : list ascii) : option (list ascii) :=
  match p, s with
  | [], _ => Some s
  | c :: p', d :: s' => if bool_decide (c = d) then strip_list p' s' else None
  | _ :: _, [] => None
  end.

(** What comes before the first occurrence of a pattern and what comes after. *)
Fixpoint cut (p s : list ascii) : option (list ascii * list ascii) :=
  match strip_list p s with
  | Some rest => Some ([], rest)
  | None =>
      match s with
      | [] => None
      | c :: s' => prod_map (cons c) id <$> cut p s'
      end
  end.

(** [str::find] with the two sides of what is found. *)
Definition find_str (p s : string) : option (string * string) :=
  prod_map of_bytes of_bytes <$> cut (bytes p) (bytes s).
Definition contains_str (p s : string) : bool :=
  match cut (bytes p) (bytes s) with Some _ => true | None => false end.

(** [str::replace] of a pattern that is not empty: each replacement goes on after the
    occurrence, so the length of the text is fuel enough. *)
Fixpoint replace_go (fuel : nat) (p t s : list ascii) : list ascii :=
  match fuel with
  | O => s
  | S fuel =>
      match cut p s with
      | None => s
      | Some (before, after) => before ++ t ++ replace_go fuel p t after
      end
  end.
Definition replace_bytes (p t s : list ascii) : list ascii := replace_go (length s) p t s.
Definition replace (p t s : string) : string := of_bytes (replace_bytes (bytes p) (bytes t) (bytes s)).

(** ** Lemmas *)

Definition occurs (p s : list ascii) : Prop := ∃ a b, s = a ++ p ++ b.

Lemma strip_list_Some p s rest : strip_list p s = Some rest ↔ s = p ++ rest.
Proof.
  revert s. induction p as [|c p IH]; intros s; simpl; [naive_solver|].
  destruct s as [|d s]; [naive_solver|]. case_bool_decide; [subst; rewrite IH|]; naive_solver.
Qed.

Lemma cut_unfold p s :
  cut p s = match strip_list p s with
            | Some rest => Some ([], rest)
            | None => match s with [] => None | c :: s' => prod_map (cons c) id <$> cut p s' end
            end.
Proof. by destruct s. Qed.

Lemma cut_Some p s a b : cut p s = Some (a, b) → s = a ++ p ++ b.
Proof.
  revert a. induction s as [|c s IH]; intros a; rewrite cut_unfold;
    destruct (strip_list p _) as [rest|] eqn:E; try done.
  - intros [= <- <-]. by apply strip_list_Some in E.
  - intros [= <- <-]. by apply strip_list_Some in E.
  - destruct (cut p s) as [[a' b']|]; [|done]. intros [= <- <-]. simpl. f_equal. by apply IH.
Qed.

Lemma cut_None p s : cut p s = None ↔ ¬ occurs p s.
Proof.
  induction s as [|c s IH]; rewrite cut_unfold; destruct (strip_list p _) as [rest|] eqn:E.
  - apply strip_list_Some in E. split; [done|]. intros Hn. destruct Hn. exists [], rest. done.
  - split; [|done]. intros _ (a & b & Hs). destruct a; [|done]. simpl in Hs.
    assert (strip_list p [] = Some b) as Hb by (by apply strip_list_Some). congruence.
  - apply strip_list_Some in E. split; [done|]. intros Hn. destruct Hn. exists [], rest. done.
  - rewrite fmap_None, IH. split; intros Hn (a & b & Hs); destruct Hn.
    + destruct a as [|d a]; simpl in Hs; [|injection Hs as -> ->; by exists a, b].
      assert (strip_list p (c :: s) = Some b) by (by apply strip_list_Some). congruence.
    + exists (c :: a), b. by rewrite Hs.
Qed.

(** The text before the first occurrence has none. *)
Lemma cut_first p s a b : p ≠ [] → cut p s = Some (a, b) → ¬ occurs p a.
Proof.
  intros Hp. revert a. induction s as [|c s IH]; intros a; rewrite cut_unfold;
    destruct (strip_list p _) as [rest|] eqn:E; try done.
  1, 2: intros [= <- <-] (x & y & Hxy); symmetry in Hxy; apply app_nil in Hxy as [_ Hxy];
    apply app_nil in Hxy as [? _]; done.
  destruct (cut p s) as [[a' b']|] eqn:Ec; [|done]. intros [= <- <-]. simpl. intros (x & y & Hxy).
  destruct x as [|d x]; simpl in Hxy.
  - apply cut_Some in Ec. assert (strip_list p (c :: s) = Some (y ++ p ++ b')) as Hs; [|congruence].
    apply strip_list_Some. rewrite Ec. simpl. rewrite app_comm_cons, Hxy. by rewrite <-(assoc_L (++)).
  - injection Hxy as -> ->. by eapply IH; [done|]; exists x, y.
Qed.

(** An occurrence does not go over a character the pattern does not have. *)
Lemma occurs_split q a c r : q ≠ [] → c ∉ q → occurs q (a ++ c :: r) → occurs q a ∨ occurs q r.
Proof.
  intros Hq Hc (x & y & Hxy). apply app_eq_inv in Hxy as [(k & -> & Hk)|(k & -> & Hk)].
  - apply app_eq_inv in Hk as [(k2 & -> & Hk)|(k2 & -> & Hk)].
    + destruct k2 as [|d k2]; simpl in Hk.
      * left. exists x, []. by rewrite !app_nil_r.
      * injection Hk as -> _. set_solver.
    + left. by exists x, k2.
  - destruct k as [|d k]; simpl in Hk.
    + destruct q as [|d q]; [done|]. injection Hk as -> _. set_solver.
    + injection Hk as -> ->. right. by exists k, y.
Qed.

Lemma occurs_skip q t r : q ≠ [] → (∀ c, c ∈ t → c ∉ q) → occurs q (t ++ r) → occurs q r.
Proof.
  intros Hq. induction t as [|c t IH]; intros Ht Ho; [done|]. apply IH; [set_solver|].
  change (occurs q ([] ++ c :: (t ++ r))) in Ho. apply occurs_split in Ho as [(a & b & Hn)|Ho]; try done.
  - destruct a; [|done]. by destruct q.
  - apply Ht. set_solver.
Qed.

Lemma occurs_over q a t r :
  q ≠ [] → t ≠ [] → (∀ c, c ∈ t → c ∉ q) → occurs q (a ++ t ++ r) → occurs q a ∨ occurs q r.
Proof.
  intros Hq Ht Hd Ho. destruct t as [|c t]; [done|]. simpl in Ho.
  apply occurs_split in Ho as [Ho|Ho]; [by left|right|done|apply Hd; set_solver].
  eapply occurs_skip; [done| |exact Ho]. set_solver.
Qed.

Lemma occurs_app_l q a b : occurs q a → occurs q (a ++ b).
Proof. intros (x & y & ->). exists x, (y ++ b). by rewrite <-!(assoc_L (++)). Qed.
Lemma occurs_app_r q a b : occurs q b → occurs q (a ++ b).
Proof. intros (x & y & ->). exists (a ++ x), y. by rewrite <-!(assoc_L (++)). Qed.

(** *** Replacing *)

Lemma replace_go_id fuel p t s : ¬ occurs p s → replace_go fuel p t s = s.
Proof. intros Hn%cut_None. destruct fuel; [done|]. simpl. by rewrite Hn. Qed.

Lemma cut_length p s a b : p ≠ [] → cut p s = Some (a, b) → (length b < length s)%nat.
Proof. intros Hp ->%cut_Some. rewrite !length_app. destruct p; [done|simpl; lia]. Qed.

Lemma replace_go_fuel fuel p t s : p ≠ [] → (length s ≤ fuel)%nat → replace_go fuel p t s = replace_bytes p t s.
Proof.
  intros Hp. unfold replace_bytes. enough (∀ f1 f2 s, (length s ≤ f1)%nat → (length s ≤ f2)%nat → replace_go f1 p t s = replace_go f2 p t s) as Hgo by (intros; apply Hgo; [done|lia]).
  clear -Hp. intros f1. induction f1 as [|f1 IH]; intros f2 s H1 H2.
  - destruct s; [|simpl in H1; lia]. destruct f2; [done|]. simpl. destruct (strip_list p []) as [r|] eqn:E; [|done].
    apply strip_list_Some in E. symmetry in E. by apply app_nil in E as [? _].
  - destruct f2 as [|f2].
    + destruct s; [|simpl in H2; lia]. simpl. destruct (strip_list p []) as [r|] eqn:E; [|done].
      apply strip_list_Some in E. symmetry in E. by apply app_nil in E as [? _].
    + simpl. destruct (cut p s) as [[a b]|] eqn:Ec; [|done]. pose proof (cut_length _ _ _ _ Hp Ec). f_equal. f_equal. apply IH; lia.
Qed.
Lemma replace_bytes_unfold p t s :
  p ≠ [] → replace_bytes p t s = match cut p s with None => s | Some (a, b) => a ++ t ++ replace_bytes p t b end.
Proof.
  intros Hp. destruct (cut p s) as [[a b]|] eqn:Ec.
  - pose proof (cut_length _ _ _ _ Hp Ec) as Hl. unfold replace_bytes at 1. destruct (length s) as [|n] eqn:En; [lia|].
    simpl. rewrite Ec. do 2 f_equal. apply replace_go_fuel; [done|lia].
  - apply replace_go_id. by apply cut_None.
Qed.
Lemma replace_bytes_ind p (P : list ascii → Prop) :
  p ≠ [] → (∀ s, match cut p s with None => True | Some (_, b) => P b end → P s) → ∀ s, P s.
Proof.
  intros Hp HP s. remember (length s) as n eqn:En. revert s En. induction (lt_wf n) as [n _ IH]. intros s ->.
  apply HP. destruct (cut p s) as [[a b]|] eqn:Ec; [|done]. eapply IH; [|done]. by eapply cut_length.
Qed.

(** A pattern with one part at the end of a text and the rest at the start of the next one. *)
Definition straddling (w x y : list ascii) : Prop :=
  ∃ k r, w = k ++ r ∧ k ≠ [] ∧ r ≠ [] ∧ k `suffix_of` x ∧ r `prefix_of` y.

Lemma occurs_parts w x y : w ≠ [] → occurs w (x ++ y) → occurs w x ∨ occurs w y ∨ straddling w x y.
Proof.
  intros Hw (a & b & Hab). apply app_eq_inv in Hab as [(k & -> & Hk)|(k & -> & Hk)].
  - apply app_eq_inv in Hk as [(r & -> & Hk)|(r & -> & Hk)].
    + destruct (decide (k = [])) as [->|]; [right; left; exists [], b; by rewrite Hk|].
      destruct (decide (r = [])) as [->|]; [left; exists a, []; by rewrite !app_nil_r|].
      right. right. exists k, r. split_and!; [done..|by exists a|by exists b].
    + left. by exists a, r.
  - right. left. by exists k, b.
Qed.

(** Cutting in the first of two texts, and past it. *)
Lemma strip_list_app p x y rest : strip_list p x = Some rest → strip_list p (x ++ y) = Some (rest ++ y).
Proof. rewrite !strip_list_Some. intros ->. by rewrite <-(assoc_L (++)). Qed.
Lemma strip_list_shorter p x y : strip_list p x = None → (length p ≤ length x)%nat → strip_list p (x ++ y) = None.
Proof.
  intros Hn Hl. destruct (strip_list p (x ++ y)) as [rest|] eqn:E; [|done]. apply strip_list_Some in E.
  apply app_eq_inv in E as [(k & Hx & _)|(k & Hp & _)].
  - assert (strip_list p x = Some k) by (by apply strip_list_Some). congruence.
  - subst p. rewrite length_app in Hl. destruct k; [|simpl in Hl; lia]. rewrite app_nil_r in Hn.
    assert (strip_list x x = Some []) by (apply strip_list_Some; by rewrite app_nil_r). congruence.
Qed.
Lemma cut_app_first p x y a b : cut p x = Some (a, b) → cut p (x ++ y) = Some (a, b ++ y).
Proof.
  revert a. induction x as [|c x IH]; intros a; rewrite cut_unfold, (cut_unfold p (_ ++ y)).
  - destruct (strip_list p []) as [rest|] eqn:E; [|done]. rewrite (strip_list_app _ _ y _ E). by intros [= <- <-].
  - destruct (strip_list p (c :: x)) as [rest|] eqn:E.
    + rewrite (strip_list_app _ _ y _ E). by intros [= <- <-].
    + destruct (cut p x) as [[a' b']|] eqn:Ec; [|done]. intros [= <- <-].
      rewrite strip_list_shorter; [|done|apply cut_Some in Ec; rewrite Ec; simpl; rewrite !length_app; lia].
      simpl. by rewrite (IH a').
Qed.
Lemma cut_app_past p x y : p ≠ [] → ¬ occurs p x → ¬ straddling p x y → cut p (x ++ y) = prod_map (app x) id <$> cut p y.
Proof.
  intros Hp. induction x as [|c x IH]; intros Hx Hs.
  { change ([] ++ y) with y. destruct (cut p y) as [[a b]|]; done. }
  rewrite cut_unfold. destruct (strip_list p ((c :: x) ++ y)) as [rest|] eqn:E.
  - exfalso. apply strip_list_Some in E. apply app_eq_inv in E as [(k & Hk & _)|(k & Hk & Hr)]; [by apply Hx; exists [], k|].
    destruct (decide (k = [])) as [->|]; [apply Hx; exists [], []; by rewrite Hk, !app_nil_r|].
    apply Hs. exists (c :: x), k. split_and!; [done..|by exists []|by exists rest].
  - simpl. rewrite IH.
    + destruct (cut p y) as [[a b]|]; done.
    + intros (a & b & ->). apply Hx. by exists (c :: a), b.
    + intros (k & r & -> & Hk & Hr & [z ->] & Hpre). apply Hs. exists k, r. split_and!; [done..|by exists (c :: z)|done].
Qed.
(** Replacing in two texts no occurrence goes over. *)
Lemma replace_bytes_app p t x y :
  p ≠ [] → ¬ straddling p x y → replace_bytes p t (x ++ y) = replace_bytes p t x ++ replace_bytes p t y.
Proof.
  intros Hp. revert x. apply (replace_bytes_ind p (λ x, ¬ straddling p x y → _)); [done|]. intros x IH Hs.
  rewrite (replace_bytes_unfold p t x), (replace_bytes_unfold p t (x ++ y)) by done.
  destruct (cut p x) as [[a b]|] eqn:Ec.
  - rewrite (cut_app_first _ _ y _ _ Ec), <-!(assoc_L (++)). do 2 f_equal. apply IH. intros (k & r & Hw & Hk & Hr & [z ->] & Hpre).
    apply Hs. exists k, r. split_and!; [done..| |done]. apply cut_Some in Ec. subst x. exists (a ++ p ++ z). by rewrite <-!(assoc_L (++)).
  - apply cut_None in Ec. rewrite cut_app_past by done. rewrite (replace_bytes_unfold p t y) by done.
    destruct (cut p y) as [[a b]|]; simpl; [by rewrite <-(assoc_L (++))|done].
Qed.

(** A marker that begins and ends with a character of its own. *)
Section marker.
Context (p m : list ascii) (open close : ascii) (Hp : p ≠ []).
Abbreviation t := (open :: m ++ [close]).

Lemma replace_suffix s x : close ∉ s → s `suffix_of` replace_bytes p t x → s `suffix_of` x.
Proof using Hp.
  intros Hc. revert x. apply (replace_bytes_ind p (λ x, _ → s `suffix_of` x)); [done|]. intros x IH. rewrite replace_bytes_unfold by done.
  destruct (cut p x) as [[a b]|] eqn:Ec; [|done]. apply cut_Some in Ec. subst x. intros [z Hz].
  assert (s `suffix_of` replace_bytes p t b) as Hs.
  { replace (a ++ t ++ replace_bytes p t b) with ((a ++ open :: m) ++ close :: replace_bytes p t b) in Hz
      by (rewrite <-!(assoc_L (++)); simpl; by rewrite <-!(assoc_L (++))).
    apply app_eq_inv in Hz as [(k & _ & Hk)|(k & _ & Hk)].
    - exfalso. apply Hc. rewrite Hk. apply elem_of_app. right. by left.
    - destruct k as [|d k]; simpl in Hk; [subst s; exfalso; apply Hc; by left|]. injection Hk as -> Hk. by exists k. }
  apply IH in Hs as [y ->]. exists (a ++ p ++ y). by rewrite <-!(assoc_L (++)).
Qed.
Lemma replace_prefix s x : open ∉ s → s `prefix_of` replace_bytes p t x → s `prefix_of` x.
Proof using Hp.
  intros Hc. rewrite replace_bytes_unfold by done. destruct (cut p x) as [[a b]|] eqn:Ec; [|done].
  apply cut_Some in Ec. subst x. intros [z Hz]. simpl in Hz. apply app_eq_inv in Hz as [(k & -> & Hk)|(k & -> & Hk)].
  - destruct k as [|d k]; simpl in Hk; [exists (p ++ b); by rewrite app_nil_r|]. exists ((d :: k) ++ p ++ b). by rewrite <-(assoc_L (++)).
  - destruct k as [|d k]; [rewrite app_nil_r; by exists (p ++ b)|]. simpl in Hk. injection Hk as <- _. exfalso. apply Hc, elem_of_app. right. by left.
Qed.

(** Text the marker does not bring in was there before. *)
Lemma occurs_marked q x y :
  q ≠ [] → open ∉ q → close ∉ q → ¬ occurs q m → occurs q (x ++ t ++ y) → occurs q x ∨ occurs q y.
Proof using.
  intros Hq Ho Hc Hm Hin. simpl in Hin. apply occurs_split in Hin as [?|Hin]; [by left| |done..].
  rewrite <-(assoc_L (++)) in Hin. simpl in Hin. apply occurs_split in Hin as [?|?]; [done|by right|done..].
Qed.
Lemma occurs_replace q x :
  q ≠ [] → open ∉ q → close ∉ q → ¬ occurs q m → occurs q (replace_bytes p t x) → occurs q x.
Proof using Hp.
  intros Hq Ho Hc Hm. revert x. apply (replace_bytes_ind p (λ x, _ → occurs q x)); [done|]. intros x IH. rewrite replace_bytes_unfold by done.
  destruct (cut p x) as [[a b]|] eqn:Ec; [|done]. apply cut_Some in Ec. subst x.
  intros [?|?%IH]%occurs_marked; [by apply occurs_app_l|by do 2 apply occurs_app_r|done..].
Qed.
Lemma replace_gone x : open ∉ p → close ∉ p → ¬ occurs p m → ¬ occurs p (replace_bytes p t x).
Proof using Hp.
  intros Ho Hc Hm. revert x. apply (replace_bytes_ind p (λ x, ¬ occurs p (replace_bytes p t x))); [done|]. intros x IH. rewrite replace_bytes_unfold by done.
  destruct (cut p x) as [[a b]|] eqn:Ec; [|by apply cut_None]. apply cut_first in Ec; [|done].
  by intros [?|?]%occurs_marked.
Qed.
End marker.

Lemma contains_str_occurs p s : contains_str p s = true ↔ occurs (bytes p) (bytes s).
Proof.
  unfold contains_str. destruct (cut (bytes p) (bytes s)) as [[a b]|] eqn:E.
  - split; [|done]. intros _. apply cut_Some in E. by exists a, b.
  - split; [done|]. by intros Ho%cut_None.
Qed.
