(* ===== verification/EnvResolution.v ===== *)
(** Environment variables and secrets of a service: [jiji-cli/src/env_resolution.rs].  How a
    [.env] file is read, how the project's and the service's environment are merged and
    resolved, what is redacted from text that is shown, and the environment file a container
    gets.

    The local files, the process environment and the text of a YAML number are parameters. *)

From S2P Require Import Prelude Text Bytes Naming Schema Substring.
Open Scope N_scope.

(** ** Paths *)

(** [Path::join]. *)
Definition join_path (root path : string) : string :=
  if starts_with "/" path then path
  else if bool_decide (root = "") then path
  else if bool_decide (last (bytes root) = Some "/"%char) then root +:+ path
  else root +:+ "/" +:+ path.

(** ** [parse_env_file] *)

Definition is_alphabetic_or_underscore (c : ascii) : bool :=
  is_ascii_lowercase c || is_ascii_uppercase c || bool_decide (c = "_"%char).
Definition is_valid_env_var_name (name : string) : bool :=
  match bytes name with
  | [] => false
  | c :: rest =>
      is_alphabetic_or_underscore c
      && forallb (λ c, is_ascii_alphanumeric c || bool_decide (c = "_"%char)) rest
  end.

Definition is_quote (c : ascii) : bool := bool_decide (c = ascii_of_N 34) || bool_decide (c = "'"%char).

(** What a line says: nothing, a value, or the start of a quoted value that goes on. *)
Inductive EnvLine :=
| LineSkipped
| LineValue (key value : string)
| LineOpen (key : string) (quote : ascii) (rest : string).

Definition read_env_line (raw_line : string) : EnvLine :=
  let trimmed := trim raw_line in
  if bool_decide (trimmed = "") || starts_with "#" trimmed then LineSkipped
  else
    match split_once "=" trimmed with
    | None => LineSkipped
    | Some (key, value_part) =>
        let key := trim key in
        if negb (is_valid_env_var_name key) then LineSkipped
        else
          let value_part := trim value_part in
          match value_part with
          | String quote rest =>
              if is_quote quote then
                match split_once quote rest with
                | Some (value, _) => LineValue key value
                | None => LineOpen key quote rest
                end
              else match find_str " #" value_part with
                   | Some (value, _) => LineValue key (trim value)
                   | None => LineValue key value_part
                   end
          | EmptyString => LineValue key ""
          end
    end.

(** The two loops over [index]: [pending] is the quoted value the inner one is reading, with
    its parts. *)
Fixpoint read_env_lines (pending : option (string * ascii * list string)) (lines : list string)
    (result : gmap string string) : gmap string string :=
  match lines, pending with
  | [], None => result
  | [], Some (key, _, parts) => <[key := String.concat (String newline "") parts]> result
  | line :: lines, Some (key, quote, parts) =>
      match split_once quote line with
      | Some (part, _) =>
          read_env_lines None lines (<[key := String.concat (String newline "") (parts ++ [part])]> result)
      | None => read_env_lines (Some (key, quote, parts ++ [line])) lines result
      end
  | line :: lines, None =>
      match read_env_line line with
      | LineSkipped => read_env_lines None lines result
      | LineValue key value => read_env_lines None lines (<[key := value]> result)
      | LineOpen key quote rest => read_env_lines (Some (key, quote, [rest])) lines result
      end
  end.

Definition parse_env_file (content : string) : gmap string string :=
  read_env_lines None (split_char newline content) ∅.

Definition env_file_search_paths (project_root : string) (environment custom_path : option string) :
    list string :=
  let base := default ".env" custom_path in
  match environment with
  | Some env => [join_path project_root (base +:+ "." +:+ env)]
  | None => []
  end ++ [join_path project_root base].

(** The local files: [is_file] and [read_to_string] of one. *)
Class LocalFiles := {
  is_file : string → bool;
  read_to_string : string → result string string;
  path_exists : string → bool;
}.

Fixpoint load_first `{LocalFiles} (paths : list string) :
    result string (gmap string string * option string) :=
  match paths with
  | [] => Ok (∅, None)
  | path :: paths =>
      if is_file path then
        let? content := map_err (λ _, "Could not read env file " +:+ path) (read_to_string path) in
        Ok (parse_env_file content, Some path)
      else load_first paths
  end.
Definition load_env_file `{LocalFiles} (project_root : string) (environment custom_path : option string) :
    result string (gmap string string * option string) :=
  load_first (env_file_search_paths project_root environment custom_path).

(** ** Merging and resolving *)

(** [HashMap::insert]. *)
Fixpoint hm_insert {V} (k : string) (v : V) (m : hashmap V) : hashmap V :=
  match m with
  | [] => [(k, v)]
  | (k', v') :: m => if bool_decide (k = k') then (k, v) :: m else (k', v') :: hm_insert k v m
  end.

Definition merge_environment (shared service : Environment) : Environment :=
  {| env_clear := foldl (λ m kv, hm_insert kv.1 kv.2 m) (env_clear shared) (env_clear service);
     env_secrets := foldl (λ l s, if bool_decide (s ∈ l) then l else l ++ [s])
                      (env_secrets shared) (env_secrets service) |}.

Record ResolvedEnvironment := {
  env_values : gmap string string;
  secret_keys : gset string;
  control_keys : gset string;
}.

(** [Display] of a YAML number. *)
Class NumberText := { number_to_string : YamlNumber → string }.

Definition clear_to_string `{NumberText} (v : ClearValue) : string :=
  match v with
  | ClearString s => s
  | ClearNumber n => number_to_string n
  | ClearBool b => if b then "true" else "false"
  end.

Section resolving.
Context `{NumberText} (host_env : string → option string) (loaded : gmap string string)
  (allow_host_env : bool).

Definition resolve_secret_name (name : string) : option string :=
  match loaded !! name with
  | Some value => Some value
  | None => if allow_host_env then host_env name else None
  end.

(** The loop over the secrets: values, keys and the missing names. *)
Definition resolve_step (acc : gmap string string * gset string * list string) (name : string) :
    gmap string string * gset string * list string :=
  let '(values, keys, missing) := acc in
  match resolve_secret_name name with
  | Some value => (<[name := value]> values, {[name]} ∪ keys, missing)
  | None => (values, keys, missing ++ [name])
  end.

Definition clear_values (env : Environment) : gmap string string :=
  foldl (λ m kv, <[kv.1 := clear_to_string kv.2]> m) ∅ (env_clear env).

Definition resolve_environment (env : Environment) : result string ResolvedEnvironment :=
  let '(values, keys, missing) := foldl resolve_step (clear_values env, ∅, []) (env_secrets env) in
  if negb (bool_decide (missing = [])) then
    Err ("Missing required secrets: " +:+ String.concat ", " missing +:+
         ". Create a .env file with these secrets, or pass --host-env to read from the host environment.")
  else Ok {| env_values := values; secret_keys := keys; control_keys := ∅ |}.
End resolving.

Definition is_bare_all_caps_name (value : string) : bool :=
  match bytes value with
  | [] => false
  | c :: rest =>
      is_ascii_uppercase c
      && forallb (λ c, is_ascii_uppercase c || is_ascii_digit c || bool_decide (c = "_"%char)) rest
  end.

(** [strip_suffix] of one character. *)
Definition strip_last (c : ascii) (s : string) : option string :=
  match rev (bytes s) with
  | d :: rest => if bool_decide (d = c) then Some (of_bytes (rev rest)) else None
  | [] => None
  end.
Definition is_command_expression (value : string) : option string :=
  strip_prefix "$(" (trim value) ≫= strip_last ")".

(** ** What is shown *)

Definition redacted_summary (resolved : ResolvedEnvironment) : list string :=
  (λ kv : string * string,
     if bool_decide (kv.1 ∈ secret_keys resolved) then kv.1 +:+ "=<redacted>" else kv.1 +:+ "=" +:+ kv.2)
  <$> btree_list (env_values resolved).

(** [Vec::dedup]: neighbours that are equal. *)
Fixpoint dedup (l : list string) : list string :=
  match l with
  | x :: l' => match l' with
               | y :: _ => if bool_decide (x = y) then dedup l' else x :: dedup l'
               | [] => [x]
               end
  | [] => []
  end.

(** Longest first, a stable sort. *)
Definition longer (a b : string) : bool := (String.length b <=? String.length a)%nat.

Definition secret_values (resolved : ResolvedEnvironment) : list string :=
  filter (λ v, v ≠ "")
    (omap (λ key, env_values resolved !! key)
       (btree_elems (secret_keys resolved) ++ btree_elems (control_keys resolved))).

Definition redact_secrets (text : string) (resolved : ResolvedEnvironment) : string :=
  foldl (λ redacted value, replace value "<redacted>" redacted) text
    (dedup (sort_by longer (secret_values resolved))).

(** ** The environment file of a container *)

Definition project_staging_dir (project : string) : string := ".jiji/" +:+ project.

Fixpoint env_file_lines (service : string) (control : gset string) (values : list (string * string)) :
    result string string :=
  match values with
  | [] => Ok ""
  | (key, value) :: values =>
      if bool_decide (key ∈ control) then env_file_lines service control values
      else if contains_char newline value then
        Err ("Environment variable '" +:+ key +:+ "' for service '" +:+ service +:+
             "' contains a newline, which the container engine's --env-file format cannot represent. Remove the newline from that value and retry.")
      else
        let? rest := env_file_lines service control values in
        Ok (key +:+ "=" +:+ value +:+ String newline rest)
  end.
Definition env_file_content (service : string) (resolved : ResolvedEnvironment) : result string string :=
  env_file_lines service (control_keys resolved) (btree_list (env_values resolved)).

Definition env_file_path (project service server : string) : string :=
  ".jiji/" +:+ project +:+ "/env/" +:+ service +:+ "-" +:+ server +:+ ".env".

(** ** Lemmas *)

Lemma elem_of_dedup_values x l : x ∈ dedup l ↔ x ∈ l.
Proof.
  induction l as [|y [|z l] IH]; [done|done|]. change (dedup (y :: z :: l))
    with (if bool_decide (y = z) then dedup (z :: l) else y :: dedup (z :: l)).
  case_bool_decide as Hyz; [|rewrite !(elem_of_cons _ x y), IH; done].
  subst. rewrite IH. set_solver.
Qed.

Lemma elem_of_secret_values resolved key v :
  key ∈ secret_keys resolved ∪ control_keys resolved → env_values resolved !! key = Some v → v ≠ "" →
  v ∈ secret_values resolved.
Proof.
  intros Hk Hv Hne. unfold secret_values. apply list_elem_of_filter. split; [done|].
  apply list_elem_of_omap. exists key. split; [|done]. rewrite elem_of_app, !elem_of_btree_elems.
  set_solver.
Qed.

(** *** Redacting, on the bytes of a text *)

Definition marker : list ascii := bytes "<redacted>".
(** A value no occurrence of which has a part in common with a marker. *)
Definition plain_value (v : string) : bool :=
  negb (contains_char "<" v) && negb (contains_char ">" v) && negb (contains_str v "redacted").
Record plain (w : list ascii) : Prop := {
  pl_some : w ≠ [];
  pl_open : "<"%char ∉ w;
  pl_close : ">"%char ∉ w;
  pl_word : ¬ occurs w (bytes "redacted");
}.
Lemma plain_value_spec v : v ≠ "" → plain_value v = true → plain (bytes v).
Proof.
  intros Hv [[Ho Hc]%andb_true_iff Hw]%andb_true_iff. apply negb_true_iff in Ho, Hc, Hw.
  unfold contains_char in Ho, Hc. rewrite bool_decide_eq_false in Ho, Hc. apply not_true_iff_false in Hw. rewrite contains_str_occurs in Hw.
  split; [by destruct v|done..].
Qed.

Definition redact_all (values : list (list ascii)) (x : list ascii) : list ascii :=
  foldl (λ x w, replace_bytes w marker x) x values.
Lemma redact_all_cons w l x : redact_all (w :: l) x = redact_all l (replace_bytes w marker x).
Proof. done. Qed.
Lemma bytes_redactions l text :
  bytes (foldl (λ redacted value, replace value "<redacted>" redacted) text l) = redact_all (bytes <$> l) (bytes text).
Proof.
  revert text. induction l as [|v l IH]; intros text; [done|]. simpl. rewrite IH. unfold replace. by rewrite bytes_of_bytes.
Qed.

(** What is redacted is gone, and is not brought back. *)
Lemma redact_all_absent q l x : plain q → Forall plain l → ¬ occurs q x → ¬ occurs q (redact_all l x).
Proof.
  intros [Hq Ho Hc Hw] Hl. revert x. induction Hl as [|w l [Hne _ _ _] Hl IH]; intros x Hx; [done|]. rewrite redact_all_cons. apply IH.
  intros Hin. by apply (occurs_replace w (bytes "redacted") "<" ">" Hne q) in Hin.
Qed.
Lemma redact_all_hides q l x : q ∈ l → Forall plain l → ¬ occurs q (redact_all l x).
Proof.
  intros Hin Hl. revert x. induction Hl as [|w l Hw Hl IH]; intros x; [by apply elem_of_nil in Hin|]. rewrite redact_all_cons.
  apply elem_of_cons in Hin as [->|Hin]; [|by apply IH]. apply redact_all_absent; [done..|].
  destruct Hw as [Hne Ho Hc Hr]. by apply (replace_gone w (bytes "redacted") "<" ">").
Qed.

(** Redacting on both sides of a marker. *)
Lemma marker_opens w x y : "<"%char ∉ w → ¬ straddling w x (marker ++ y).
Proof.
  intros Ho (k & r & -> & _ & Hr & _ & [z Hz]). destruct r as [|c r]; [done|]. simpl in Hz. injection Hz as <- _. apply Ho, elem_of_app. right. by left.
Qed.
Lemma marker_closes w y : ">"%char ∉ w → ¬ straddling w marker y.
Proof.
  intros Hc (k & r & -> & Hk & _ & [z Hz] & _). apply Hc, elem_of_app. left.
  change marker with (bytes "<redacted" ++ [">"%char]) in Hz. destruct k as [|c k _] using rev_ind; [done|].
  rewrite (assoc_L (++)) in Hz. apply app_inj_2 in Hz as [_ [= <-]]; [|done]. apply elem_of_app. right. by left.
Qed.
Lemma marker_kept w : plain w → replace_bytes w marker marker = marker.
Proof.
  intros [Hne Ho Hc Hw]. apply replace_go_id. intros Hin.
  destruct (occurs_marked (bytes "redacted") "<" ">" w [] [] Hne Ho Hc Hw Hin) as [(a & b & Hab)|(a & b & Hab)]; destruct a; simpl in Hab; destruct w; done.
Qed.
Lemma redact_all_marker l x y : Forall plain l → redact_all l (x ++ marker ++ y) = redact_all l x ++ marker ++ redact_all l y.
Proof.
  intros Hl. revert x y. induction Hl as [|w l Hw Hl IH]; intros x y; [done|]. rewrite !redact_all_cons.
  rewrite (replace_bytes_app w marker x), (replace_bytes_app w marker marker), marker_kept; [apply IH|done|..].
  1,3: apply Hw.
  - apply marker_closes, Hw.
  - apply marker_opens, Hw.
Qed.

(** No value of [l] has one part in [v] and another before or after it. *)
Definition stands_alone (l : list (list ascii)) (x v y : list ascii) : Prop :=
  ∀ w, w ∈ l → ¬ straddling w x (v ++ y) ∧ ¬ straddling w (x ++ v) y.
Lemma prefix_app_or (r v y : list ascii) : r `prefix_of` v ++ y → r `prefix_of` v ∨ ∃ r', r = v ++ r' ∧ r' `prefix_of` y.
Proof. intros [z Hz]. apply app_eq_inv in Hz as [(k & -> & Hk)|(k & -> & Hk)]; [left; by exists k|right; exists k; split; [done|by exists z]]. Qed.
Lemma suffix_app_or (k x v : list ascii) : k `suffix_of` x ++ v → k `suffix_of` v ∨ ∃ k', k = k' ++ v ∧ k' `suffix_of` x.
Proof. intros [z Hz]. apply app_eq_inv in Hz as [(u & -> & Hu)|(u & -> & Hu)]; [right; exists u; split; [done|by exists z]|left; by exists u]. Qed.
Lemma stands_alone_replace w l x v y :
  w ≠ [] → Forall plain l → stands_alone l x v y → stands_alone l (replace_bytes w marker x) v (replace_bytes w marker y).
Proof.
  intros Hw Hl Hs u Hu. rewrite Forall_forall in Hl. destruct (Hl u Hu) as [Hne Ho Hc _], (Hs u Hu) as [Hs1 Hs2].
  split; intros (k & r & -> & Hk & Hr & Hsuf & Hpre); rewrite elem_of_app in Ho, Hc; [apply Hs1|apply Hs2]; exists k, r; (split_and!; [done..| |]).
  - eapply (replace_suffix w (bytes "redacted") "<" ">"); [done| |exact Hsuf]. tauto.
  - apply prefix_app_or in Hpre as [Hpre|(r' & -> & Hpre)]; [by apply prefix_app_r|]. apply prefix_app.
    rewrite elem_of_app in Ho. eapply (replace_prefix w (bytes "redacted") "<" ">"); [done| |exact Hpre]. tauto.
  - apply suffix_app_or in Hsuf as [Hsuf|(k' & -> & Hsuf)]; [by apply suffix_app_r|]. apply suffix_app.
    rewrite elem_of_app in Hc. eapply (replace_suffix w (bytes "redacted") "<" ">"); [done| |exact Hsuf]. tauto.
  - eapply (replace_prefix w (bytes "redacted") "<" ">"); [done| |exact Hpre]. tauto.
Qed.
Lemma replace_around w x v y :
  w ≠ [] → ¬ straddling w x (v ++ y) → ¬ straddling w (x ++ v) y →
  replace_bytes w marker (x ++ v ++ y) = replace_bytes w marker x ++ replace_bytes w marker v ++ replace_bytes w marker y.
Proof.
  intros Hw H1 H2. rewrite replace_bytes_app by done. f_equal. apply replace_bytes_app; [done|].
  intros (k & r & -> & Hk & Hr & Hsuf & Hpre). apply H2. exists k, r. split_and!; [done..|by apply suffix_app_r|done].
Qed.
Lemma replace_self v : v ≠ [] → replace_bytes v marker v = marker.
Proof.
  intros Hv. rewrite replace_bytes_unfold by done. assert (cut v v = Some ([], [])) as ->; [|done].
  rewrite cut_unfold. assert (strip_list v v = Some []) as ->; [|done]. apply strip_list_Some. by rewrite app_nil_r.
Qed.
Lemma occurs_length w v : occurs w v → (length w ≤ length v)%nat ∧ (length v ≤ length w → w = v)%nat.
Proof.
  intros (a & b & ->). rewrite !length_app. split; [lia|]. intros Hl. destruct a, b; simpl in Hl; [by rewrite app_nil_r|lia..].
Qed.

(** Longest first, an occurrence no value cuts is replaced as a whole. *)
Lemma redact_all_whole l x v y :
  v ∈ l → Forall plain l → StronglySorted (λ u w, (length w ≤ length u)%nat) l → stands_alone l x v y →
  redact_all l (x ++ v ++ y) = redact_all l x ++ marker ++ redact_all l y.
Proof.
  intros Hin Hl Hsort. revert x y Hin. induction Hsort as [|w l Hsort IH Hw]; intros x y Hin Hs; [by apply elem_of_nil in Hin|].
  apply Forall_cons in Hl as [Hplain Hl]. destruct (Hs w (list_elem_of_here _ _)) as [H1 H2]. rewrite !redact_all_cons, replace_around by (done || apply Hplain).
  destruct (decide (w = v)) as [->|Hne].
  - rewrite replace_self by apply Hplain. by apply redact_all_marker.
  - assert (v ∈ l) as Hv by (apply elem_of_cons in Hin as [?|?]; [by symmetry in H|done]).
    assert (replace_bytes w marker v = v) as ->.
    { apply replace_go_id. intros [_ Heq]%occurs_length. apply Hne, Heq. rewrite Forall_forall in Hw. by apply Hw. }
    apply IH; [done|done|]. apply stands_alone_replace; [apply Hplain|done|]. intros u Hu. apply Hs. by right.
Qed.

(** The order the values are redacted in. *)
Lemma sorted_dedup R l : StronglySorted R l → StronglySorted R (dedup l).
Proof.
  induction 1 as [|x l Hs IH Hx]; [constructor|]. destruct l as [|y l]; [by repeat constructor|].
  change (dedup (x :: y :: l)) with (if bool_decide (x = y) then dedup (y :: l) else x :: dedup (y :: l)).
  case_bool_decide; [done|]. constructor; [done|]. rewrite Forall_forall in Hx |- *. intros z Hz. apply Hx. by apply (elem_of_dedup_values z).
Qed.
Definition redaction_order (resolved : ResolvedEnvironment) : list string := dedup (sort_by longer (secret_values resolved)).
Lemma elem_of_redaction_order v resolved : v ∈ redaction_order resolved ↔ v ∈ secret_values resolved.
Proof. unfold redaction_order. by rewrite elem_of_dedup_values, elem_of_sort_by. Qed.
Lemma redaction_order_sorted resolved :
  StronglySorted (λ u w : list ascii, (length w ≤ length u)%nat) (bytes <$> redaction_order resolved).
Proof.
  assert (StronglySorted (λ a b, longer a b = true) (redaction_order resolved)) as Hs.
  { apply sorted_dedup, sort_by_sorted; unfold longer; intros *; rewrite ?Nat.leb_le; lia. }
  induction Hs as [|v l Hs IH Hv]; [constructor|]. simpl. constructor; [done|]. apply Forall_fmap. eapply Forall_impl; [exact Hv|].
  intros w Hw. simpl. rewrite !length_bytes. by apply Nat.leb_le.
Qed.
Lemma redaction_order_plain resolved :
  Forall (λ v, plain_value v = true) (secret_values resolved) → Forall plain (bytes <$> redaction_order resolved).
Proof.
  rewrite !Forall_forall. intros Hp w (v & -> & Hv)%list_elem_of_fmap. apply elem_of_redaction_order in Hv.
  apply plain_value_spec; [|by apply Hp]. by apply list_elem_of_filter in Hv as [? _].
Qed.

(** A value with one part at the end of a text and the rest at the start of the next one. *)
Definition straddles (w x y : string) : bool :=
  existsb (λ i, bool_decide (take i (bytes w) `suffix_of` bytes x) && bool_decide (drop i (bytes w) `prefix_of` bytes y))
    (seq 1 (String.length w - 1)).
Lemma straddles_spec w x y : straddling (bytes w) (bytes x) (bytes y) → straddles w x y = true.
Proof.
  intros (k & r & Hw & Hk & Hr & Hsuf & Hpre). apply existsb_exists. exists (length k). rewrite Hw. split.
  - apply list_elem_of_In, elem_of_seq. rewrite <-length_bytes, Hw, length_app. destruct k; [done|]. destruct r; [done|]. simpl. lia.
  - rewrite take_app_length, drop_app_length. by rewrite !bool_decide_true.
Qed.

Lemma redactions_id l text :
  (∀ v, v ∈ l → contains_str v text = false) →
  foldl (λ redacted value, replace value "<redacted>" redacted) text l = text.
Proof.
  induction l as [|x l IH]; intros Hl; simpl; [done|].
  assert (replace x "<redacted>" text = text) as ->; [|apply IH; intros v Hv; apply Hl; by right].
  unfold replace, replace_bytes. rewrite replace_go_id; [apply of_bytes_bytes|].
  rewrite <-contains_str_occurs, Hl; [done|]. by left.
Qed.

(** *** Resolving *)

Section resolve_lemmas.
Context `{NumberText} (host_env : string → option string) (loaded : gmap string string)
  (allow_host_env : bool).
Let secret := resolve_secret_name host_env loaded allow_host_env.

Lemma resolve_steps m k missing l :
  ∃ m', foldl (resolve_step host_env loaded allow_host_env) (m, k, missing) l =
    (m', list_to_set (filter (λ n, is_Some (secret n)) l) ∪ k, missing ++ filter (λ n, secret n = None) l) ∧
    ∀ n, m' !! n = match secret n with
                   | Some v => if bool_decide (n ∈ l) then Some v else m !! n
                   | None => m !! n
                   end.
Proof.
  revert m k missing. induction l as [|x l IH]; intros m k missing; simpl.
  { exists m. rewrite app_nil_r, union_empty_l_L. split; [done|]. intros n. by destruct (secret n). }
  fold secret. rewrite !filter_cons. destruct (secret x) as [v|] eqn:Ex.
  - rewrite (decide_True (P := is_Some _)) by eauto. rewrite decide_False by done.
    destruct (IH (<[x:=v]> m) ({[x]} ∪ k) missing) as (m' & -> & Hm'). exists m'. split.
    { f_equal. f_equal. simpl. set_solver. }
    intros n. rewrite Hm'. destruct (decide (n = x)) as [->|Hne].
    + rewrite Ex, lookup_insert_eq, (bool_decide_true (x ∈ x :: l)) by set_solver. by case_bool_decide.
    + rewrite lookup_insert_ne by done. destruct (secret n); [|done].
      by rewrite (bool_decide_ext (n ∈ x :: l) (n ∈ l)) by set_solver.
  - rewrite (decide_False (P := is_Some _)) by (intros [? ?]; congruence). rewrite decide_True by done.
    destruct (IH m k (missing ++ [x])) as (m' & -> & Hm'). exists m'. split.
    { f_equal. by rewrite <-(assoc_L (++)). }
    intros n. rewrite Hm'. destruct (secret n) as [v|] eqn:En; [|done].
    by rewrite (bool_decide_ext (n ∈ x :: l) (n ∈ l)) by (assert (n ≠ x) by congruence; set_solver).
Qed.

Lemma clear_fold_lookup (l : hashmap ClearValue) (m : gmap string string) n :
  hm_wf l →
  foldl (λ m kv, <[kv.1 := clear_to_string kv.2]> m) m l !! n =
    match hm_get l n with Some v => Some (clear_to_string v) | None => m !! n end.
Proof.
  unfold hm_wf. revert m. induction l as [|[k v] l IH]; intros m Hwf; simpl; [done|].
  apply NoDup_cons in Hwf as [Hk Hwf]. rewrite IH by done. unfold hm_get at 2. simpl.
  destruct (String.eqb_spec k n) as [->|Hne]; simpl.
  - destruct (hm_get l n) as [w|] eqn:E; [|apply lookup_insert_eq].
    destruct Hk. apply (hm_get_elem l n w) in E; [|done]. apply list_elem_of_fmap. by exists (n, w).
  - fold (hm_get l n). destruct (hm_get l n); [done|]. by apply lookup_insert_ne.
Qed.
End resolve_lemmas.

(** *** The environment file *)

(** The entries of an environment file: its lines of the form [NAME=VALUE]. *)
Definition env_file_entries (content : string) : list (string * string) :=
  omap (split_once "=") (split_char newline content).

Lemma split_char_line (line rest : string) :
  newline ∉ bytes line → split_char newline (line +:+ String newline rest) = line :: split_char newline rest.
Proof.
  induction line as [|d line IH]; intros Hn; [done|].
  change (String d line +:+ String newline rest) with (String d (line +:+ String newline rest)).
  cbn [split_char]. rewrite IH by (intros ?; apply Hn; by right).
  rewrite bool_decide_false; [done|]. intros ->. apply Hn. left.
Qed.

Lemma env_file_lines_entries service control values content :
  (∀ k v, (k, v) ∈ values → "="%char ∉ bytes k ∧ newline ∉ bytes k) →
  env_file_lines service control values = Ok content →
  env_file_entries content = filter (λ kv, kv.1 ∉ control) values.
Proof.
  revert content. induction values as [|[k v] values IH]; intros content Hk; simpl.
  { by intros [= <-]. }
  assert (∀ k v, (k, v) ∈ values → "="%char ∉ bytes k ∧ newline ∉ bytes k) as Hk'.
  { intros ???. eapply Hk. by right. }
  rewrite filter_cons. case_bool_decide as Hc.
  { rewrite decide_False by (simpl; tauto). by apply IH. }
  rewrite decide_True by done. destruct (contains_char newline v) eqn:Ev; [done|].
  destruct (env_file_lines _ _ _) as [rest|]; [|done]. simpl. intros [= <-].
  destruct (Hk k v) as [Heq Hnl]; [by left|]. apply bool_decide_eq_false in Ev.
  unfold env_file_entries.
  assert (k +:+ "=" +:+ v +:+ String newline rest = (k +:+ String "=" v) +:+ String newline rest) as ->.
  { by rewrite !append_assoc. }
  rewrite split_char_line.
  - cbn [omap list_omap]. rewrite split_once_app by done. f_equal. by apply IH.
  - rewrite bytes_app, elem_of_app. intros [?|Hin]; [done|]. simpl in Hin.
    apply elem_of_cons in Hin as [Hin|?]; [done|done].
Qed.

Lemma env_file_lines_ok service control values :
  is_ok (env_file_lines service control values) = true ↔
  ∀ k v, (k, v) ∈ values → k ∉ control → newline ∉ bytes v.
Proof.
  induction values as [|[k v] values IH]; simpl.
  { split; [|done]. by intros _ ?? ?%elem_of_nil. }
  case_bool_decide as Hc.
  { rewrite IH. set_solver. }
  destruct (contains_char newline v) eqn:Ev.
  - apply bool_decide_eq_true in Ev. split; [done|]. intros Hall. destruct (Hall k v); [by left|done|done].
  - apply bool_decide_eq_false in Ev.
    transitivity (is_ok (env_file_lines service control values) = true);
      [by destruct (env_file_lines _ _ _)|]. rewrite IH. set_solver.
Qed.

(** *** Reading *)

Lemma read_env_line_key line key :
  match read_env_line line with
  | LineValue k _ | LineOpen k _ _ => k = key
  | LineSkipped => False
  end → is_valid_env_var_name key = true.
Proof.
  unfold read_env_line. destruct (_ || _); [done|]. destruct (split_once _ _) as [[k v]|]; [|done].
  destruct (is_valid_env_var_name (trim k)) eqn:Ek; [|done]. simpl. destruct (trim v) as [|q r]; [by intros <-|].
  destruct (is_quote q); [destruct (split_once _ _) as [[? ?]|]|destruct (find_str _ _) as [[? ?]|]]; by intros <-.
Qed.

Lemma read_env_lines_keys pending lines m :
  (∀ key, (fst ∘ fst <$> pending) = Some key → is_valid_env_var_name key = true) →
  map_Forall (λ key _, is_valid_env_var_name key = true) m →
  map_Forall (λ key _, is_valid_env_var_name key = true) (read_env_lines pending lines m).
Proof.
  revert pending m. induction lines as [|line lines IH]; intros [[[key q] parts]|] m Hp Hm; simpl.
  - apply map_Forall_insert_2; [by apply Hp|done].
  - done.
  - destruct (split_once q line) as [[part ?]|]; apply IH; try done.
    apply map_Forall_insert_2; [by apply Hp|done].
  - pose proof (read_env_line_key line) as Hk. destruct (read_env_line line); apply IH; try done.
    + apply map_Forall_insert_2; [by apply Hk|done].
    + intros ? [= <-]. by apply Hk.
Qed.

Module EnvProps.

(** C34: A secret does not show.  Let no value of a secret or control variable contain [<] or [>] or
    be part of the word "redacted", so that none has a part in common with a marker.  Then redacted
    text contains none of these values; an occurrence of one that no other occurrence of a value
    reaches into or out of, such as one with shorter values inside it, is replaced as a whole by one
    marker, and the text on either side is redacted as it would be by itself; and text without any
    of the values is unchanged. *)
Theorem redaction_hides_secrets text resolved :
  Forall (λ v, plain_value v = true) (secret_values resolved) →
  (∀ key v, key ∈ secret_keys resolved ∪ control_keys resolved → env_values resolved !! key = Some v → v ≠ "" →
     contains_str v (redact_secrets text resolved) = false) ∧
  (∀ x v y, text = x +:+ v +:+ y → v ∈ secret_values resolved →
     (∀ w, w ∈ secret_values resolved → straddles w x (v +:+ y) = false ∧ straddles w (x +:+ v) y = false) →
     redact_secrets text resolved = redact_secrets x resolved +:+ "<redacted>" +:+ redact_secrets y resolved) ∧
  ((∀ v, v ∈ secret_values resolved → contains_str v text = false) → redact_secrets text resolved = text).
Proof.
  intros Hp%redaction_order_plain. split_and!.
  - intros key v Hk Hv Hne. apply not_true_iff_false. rewrite contains_str_occurs. unfold redact_secrets. rewrite bytes_redactions.
    apply redact_all_hides; [|done]. apply list_elem_of_fmap_2, elem_of_redaction_order. by apply (elem_of_secret_values _ key).
  - intros x v y -> Hv Hs. apply bytes_inj. unfold redact_secrets. rewrite !bytes_app, !bytes_redactions, !bytes_app.
    apply redact_all_whole; [by apply list_elem_of_fmap_2, elem_of_redaction_order|done|apply redaction_order_sorted|].
    intros u (w & -> & Hw%elem_of_redaction_order)%list_elem_of_fmap. destruct (Hs w Hw) as [H1 H2]. rewrite <-!bytes_app.
    split; intros Hst%straddles_spec; congruence.
  - intros Ht. apply redactions_id. intros v Hv%elem_of_redaction_order. by apply Ht.
Qed.

(** Resolving an environment is complete.  It succeeds when every secret has a value in
    the loaded file or, if that is allowed, on the host; each secret then has that value,
    over a clear variable of its name, and each other clear variable its own; otherwise the
    error names every secret that is missing, in order. *)
Theorem resolution_is_complete `{NumberText} host_env loaded allow_host_env env :
  hm_wf (env_clear env) →
  let secret := resolve_secret_name host_env loaded allow_host_env in
  match resolve_environment host_env loaded allow_host_env env with
  | Ok r =>
      (∀ n, n ∈ env_secrets env → is_Some (secret n)) ∧
      (∀ n, env_values r !! n = if bool_decide (n ∈ env_secrets env) then secret n
                                else clear_to_string <$> hm_get (env_clear env) n) ∧
      secret_keys r = list_to_set (env_secrets env) ∧ control_keys r = ∅
  | Err e =>
      ∃ missing, missing = filter (λ n, secret n = None) (env_secrets env) ∧ missing ≠ [] ∧
        e = "Missing required secrets: " +:+ String.concat ", " missing +:+
            ". Create a .env file with these secrets, or pass --host-env to read from the host environment."
  end.
Proof.
  intros Hwf secret. unfold resolve_environment.
  destruct (resolve_steps host_env loaded allow_host_env (clear_values env) ∅ [] (env_secrets env))
    as (m' & -> & Hm'). fold secret in Hm' |- *. rewrite app_nil_l. case_bool_decide as Hmiss; simpl.
  - assert (∀ n, n ∈ env_secrets env → is_Some (secret n)) as Hall.
    { intros n Hn. destruct (secret n) eqn:En; [eauto|].
      assert (n ∈ filter (λ n, secret n = None) (env_secrets env)) as Hin by (by apply list_elem_of_filter).
      rewrite Hmiss in Hin. by apply elem_of_nil in Hin. }
    split_and!; [done| | |done].
    + intros n. rewrite Hm'. unfold clear_values. rewrite clear_fold_lookup, lookup_empty by done.
      case_bool_decide as Hn; [destruct (Hall n Hn) as [v ->]; done|].
      assert (match hm_get (env_clear env) n with Some v => Some (clear_to_string v) | None => None end
              = clear_to_string <$> hm_get (env_clear env) n) as -> by by destruct (hm_get _ _).
      by destruct (secret n).
    + apply set_eq. intros n. rewrite elem_of_union, !elem_of_list_to_set, list_elem_of_filter. set_solver.
  - eauto.
Qed.

(** The environment file a container gets has exactly the variables of the service that
    are not for jiji's own use, in order, and reads back as them; it is refused only when one
    of their values has a line break. *)
Theorem env_file_reads_back service resolved :
  (∀ k v, env_values resolved !! k = Some v → "="%char ∉ bytes k ∧ newline ∉ bytes k) →
  match env_file_content service resolved with
  | Ok content =>
      env_file_entries content = filter (λ kv, kv.1 ∉ control_keys resolved) (btree_list (env_values resolved))
  | Err _ => ∃ k v, env_values resolved !! k = Some v ∧ k ∉ control_keys resolved ∧ newline ∈ bytes v
  end.
Proof.
  intros Hk. unfold env_file_content.
  destruct (env_file_lines _ _ _) as [content|e] eqn:E.
  - eapply env_file_lines_entries; [|exact E]. intros k v Hin%elem_of_btree_list. by eapply Hk.
  - assert (¬ (∀ k v, (k, v) ∈ btree_list (env_values resolved) → k ∉ control_keys resolved → newline ∉ bytes v)) as Hn.
    { rewrite <-(env_file_lines_ok service), E. done. }
    assert (¬ Forall (λ kv : string * string, kv.1 ∈ control_keys resolved ∨ newline ∉ bytes kv.2)
              (btree_list (env_values resolved))) as Hf.
    { rewrite Forall_forall. intros Hall. apply Hn. intros k v Hin Hc.
      destruct (Hall _ Hin) as [?|?]; done. }
    apply not_Forall_Exists in Hf; [|apply _]. apply Exists_exists in Hf as ([k v] & Hin & Hkv). simpl in Hkv.
    exists k, v. apply elem_of_btree_list in Hin. split_and!; [done|tauto|].
    destruct (decide (newline ∈ bytes v)); tauto.
Qed.

(** Whatever a [.env] file contains, what is read from it are names a shell takes as
    variables. *)
Theorem env_file_keys_are_names content :
  map_Forall (λ key _, is_valid_env_var_name key = true) (parse_env_file content).
Proof. apply read_env_lines_keys; [done|apply map_Forall_empty]. Qed.

Definition sample_numbers : NumberText := {| number_to_string _ := "0" |}.
Definition sample_resolved : ResolvedEnvironment :=
  {| env_values := {["LOG" := "on"; "TOKEN" := "k7"; "CERT" := "P1"]}; secret_keys := {["TOKEN"]};
     control_keys := {["CERT"]} |}.

Definition sample_file : string :=
  "# keys
A=1 # one
B = 'two
lines'
export C=3
A=4".

(** A token and a longer one that begins with it. *)
Definition nested_secrets : ResolvedEnvironment :=
  {| env_values := {["TOKEN" := "secret-tok"; "TOKEN_V2" := "secret-tok-v2"]}; secret_keys := {["TOKEN"; "TOKEN_V2"]}; control_keys := ∅ |}.
Lemma redaction_hides_secrets_witness :
  secret_values nested_secrets = ["secret-tok"; "secret-tok-v2"] ∧
  redact_secrets "auth failed for secret-tok-v2" nested_secrets =
    redact_secrets "auth failed for " nested_secrets +:+ "<redacted>" +:+ redact_secrets "" nested_secrets ∧
  redact_secrets "auth failed for " nested_secrets = "auth failed for ".
Proof.
  assert (secret_values nested_secrets = ["secret-tok"; "secret-tok-v2"]) as Hv by (vm_compute; reflexivity).
  assert (Forall (λ v, plain_value v = true) (secret_values nested_secrets)) as Hp by (rewrite Hv; repeat constructor).
  split; [exact Hv|]. split.
  - apply (proj1 (proj2 (redaction_hides_secrets "auth failed for secret-tok-v2" nested_secrets Hp)) _ "secret-tok-v2" _); [reflexivity|rewrite Hv; right; by left|].
    rewrite Hv. intros w [->|[->|[]%elem_of_nil]%elem_of_cons]%elem_of_cons; split; vm_compute; reflexivity.
  - apply (proj2 (proj2 (redaction_hides_secrets "auth failed for " nested_secrets Hp))). rewrite Hv.
    intros w [->|[->|[]%elem_of_nil]%elem_of_cons]%elem_of_cons; vm_compute; reflexivity.
Defined.

Definition sample_environment : Environment :=
  {| env_clear := [("LOG", ClearBool true)]; env_secrets := ["TOKEN"] |}.

Lemma resolution_is_complete_witness :
  (∃ r, @resolve_environment sample_numbers (λ _, None) {["TOKEN" := "t"]} false sample_environment = Ok r ∧
     env_values r !! "LOG" = Some "true" ∧ env_values r !! "TOKEN" = Some "t") ∧
  is_ok (@resolve_environment sample_numbers (λ _, None) ∅ false sample_environment) = false.
Proof.
  split; [|vm_compute; reflexivity].
  pose proof (@resolution_is_complete sample_numbers (λ _, None) {["TOKEN" := "t"]} false sample_environment)
    as Hr. cbn zeta in Hr.
  destruct (@resolve_environment sample_numbers (λ _, None) {["TOKEN" := "t"]} false sample_environment)
    as [r|e] eqn:E; [|vm_compute in E; discriminate E].
  exists r. split; [done|]. destruct Hr as (_ & Hv & _); [by apply NoDup_singleton|].
  rewrite !Hv. split; vm_compute; reflexivity.
Defined.

Lemma env_file_reads_back_witness :
  ∃ content, env_file_content "web" sample_resolved = Ok content ∧
    env_file_entries content = [("LOG", "on"); ("TOKEN", "k7")].
Proof.
  pose proof (env_file_reads_back "web" sample_resolved) as Hr.
  destruct (env_file_content "web" sample_resolved) as [content|e] eqn:E; [|vm_compute in E; discriminate E].
  exists content. split; [done|]. rewrite Hr; [vm_compute; reflexivity|].
  intros k v Hkv. unfold sample_resolved in Hkv. simpl in Hkv. apply lookup_insert_Some in Hkv as [[<- _]|[_ Hkv]]; [split; refine (bool_decide_unpack _ _); vm_compute; exact I|].
  apply lookup_insert_Some in Hkv as [[<- _]|[_ Hkv]]; [split; refine (bool_decide_unpack _ _); vm_compute; exact I|].
  apply lookup_singleton_Some in Hkv as [<- _]. split; refine (bool_decide_unpack _ _); vm_compute; exact I.
Defined.

(** A [.env] file: comments, a value over two lines, a name that is none, a repeated name. *)
Lemma sample_file_reads : parse_env_file sample_file = {["A" := "4"; "B" := "two
lines"]}.
Proof. vm_compute. reflexivity. Qed.
End EnvProps.
