(* ===== verification/Session.v ===== *)
(** What the CLI does on a server: commands over SSH and requests to the agent, and the
    operations on containers, images, volumes and networks made of them
    ([jiji-cli/src/container_ops.rs], [agent_client.rs], [version_requirements.rs],
    [mounts.rs], and [stage_env_file] of [env_resolution.rs]).

    A program is a function on a [World]: the database of the server's agent, the machine
    with its shell, and the log of what was done.  What the shell answers and the clock are
    parameters ([Host]).  A request to the agent is one SSH command; [fate] says of each
    whether it got there and whether its answer came back.  A program ends with a value, with
    an error (the text of the [anyhow::Error]), in a panic, or, where it polls, with its fuel
    spent. *)

From S2P Require Import Prelude Text Bytes Substring Cidr Naming Schema Planner ServiceRuntime.
From S2P Require Import Membership Catalog Desired OpLog Leases Cron CronExec Replication Store Api CandidatePlan EnvResolution.
Open Scope N_scope.

#[export] Instance ContainerEngine_eq_dec : EqDecision ContainerEngine.
Proof. solve_decision. Defined.

Record CommandResult := {
  stdout : string;
  stderr : string;
  success : bool;
  code : option N;
}.

Inductive StreamChunk := Stdout (data : list ascii) | Stderr (data : list ascii) | Exit (code : N).

(** The other side of an SSH session: [exec] runs a command with an input, [exec_stream] gives
    the chunks of its output; [clock] is the monotonic clock and [unix_time] the time since the
    epoch if it is after it, both in nanoseconds; the last two are the texts of an error and of
    an answer of the agent. *)
Class Host := {
  machine : Type;
  exec : string → string → machine → result string CommandResult * machine;
  exec_stream : string → machine → result string (list (result string StreamChunk)) * machine;
  clock : machine → N;
  sleep : N → machine → machine;
  unix_time : machine → result string N;
  session_host : string;
  error_message : ApiError → string;
  response_debug : ResponseBody → string;
}.

(** What becomes of a request: it never gets to the agent, its answer is lost, or it is
    answered. *)
Inductive Fate := Lost (e : string) | Cut (e : string) | Delivered.

Inductive Event :=
| Executed (command input : string) (outcome : result string CommandResult)
| Asked (request : Request) (fate : Fate) (answer : ApiResult) (before after : AgentStore).

Inductive flow (A : Type) := Fine (a : A) | Fails (e : string) | Crashes | Exhausted.
Arguments Fine {A}. Arguments Fails {A}. Arguments Crashes {A}. Arguments Exhausted {A}.

Record World `{Host} := { w_store : AgentStore; w_machine : machine; w_log : list Event }.

Definition M `{Host} (A : Type) : Type := World → flow A * World.

#[export] Instance M_ret `{Host} : MRet M := λ A a w, (Fine a, w).
#[export] Instance M_bind `{Host} : MBind M := λ A B f m w,
  match m w with
  | (Fine a, w) => f a w
  | (Fails e, w) => (Fails e, w)
  | (Crashes, w) => (Crashes, w)
  | (Exhausted, w) => (Exhausted, w)
  end.
Definition fail `{Host} {A} (e : string) : M A := λ w, (Fails e, w).

(** [if let Err(error) = m]: the error as a value. *)
Definition attempt `{Host} {A} (m : M A) : M (result string A) := λ w,
  match m w with
  | (Fine a, w) => (Fine (Ok a), w)
  | (Fails e, w) => (Fine (Err e), w)
  | (Crashes, w) => (Crashes, w)
  | (Exhausted, w) => (Exhausted, w)
  end.
(** [let _ = m]. *)
Definition ignore `{Host} {A} (m : M A) : M () := attempt m ≫= λ _, mret ().
Definition of_result `{Host} {A} (r : result string A) : M A :=
  match r with Ok a => mret a | Err e => fail e end.
Definition of_outcome `{Host} {A} (o : outcome A) : M A :=
  match o with Returned a => mret a | Panicked => λ w, (Crashes, w) end.

Section session.
Context `{Host}.

Definition with_machine (w : World) (m : machine) (e : list Event) : World :=
  {| w_store := w_store w; w_machine := m; w_log := e ++ w_log w |}.

(** [SshSession::execute_with_input] and [execute]. *)
Definition execute_with_input (command input : string) : M CommandResult := λ w,
  let '(outcome, m) := exec command input (w_machine w) in
  (match outcome with Ok r => Fine r | Err e => Fails e end,
   with_machine w m [Executed command input outcome]).
Definition execute (command : string) : M CommandResult := execute_with_input command "".

Definition execute_streaming (command : string) : M (list (result string StreamChunk)) := λ w,
  let '(outcome, m) := exec_stream command (w_machine w) in
  (match outcome with Ok r => Fine r | Err e => Fails e end, with_machine w m []).

Definition now_monotonic : M N := λ w, (Fine (clock (w_machine w)), w).
Definition sleep_for (nanos : N) : M () := λ w, (Fine (), with_machine w (sleep nanos (w_machine w)) []).
Definition system_time : M N := λ w,
  (match unix_time (w_machine w) with Ok n => Fine n | Err e => Fails e end, w).

(** [{:?}] of an exit code. *)
Definition code_debug (code : option N) : string :=
  match code with Some c => "Some(" +:+ pretty c +:+ ")" | None => "None" end.

Definition ensure_success (command : string) (r : CommandResult) : M () :=
  if success r then mret ()
  else fail ("Command `" +:+ command +:+ "` failed on " +:+ session_host +:+ " (exit "
             +:+ code_debug (code r) +:+ "): " +:+ trim (stderr r)).

(** [execute] and [ensure_success]. *)
Definition run_checked (command : string) : M CommandResult :=
  r ← execute command; _ ← ensure_success command r; mret r.

(** ** [container_ops.rs] *)

Section container_ops.
Context (engine : ContainerEngine).
Let e := engine_to_string engine.

Definition image_exists (image : string) : M bool :=
  r ← execute (e +:+ " image inspect " +:+ image +:+ " >/dev/null 2>&1"); mret (success r).

(** The chunks of a command: output, errors and the exit code. *)
Fixpoint gather (out err : list ascii) (code : option N) (chunks : list (result string StreamChunk)) :
    M CommandResult :=
  match chunks with
  | [] => mret {| stdout := from_utf8_lossy out; stderr := from_utf8_lossy err;
                  success := bool_decide (code = Some 0); code := code |}
  | Err error :: _ => fail error
  | Ok (Stdout data) :: chunks => gather (out ++ data) err code chunks
  | Ok (Stderr data) :: chunks => gather out (err ++ data) code chunks
  | Ok (Exit c) :: chunks => gather out err (Some c) chunks
  end.

Definition pull_command (image : string) : string :=
  e +:+ " pull" +:+
  (if bool_decide (engine = Podman) && starts_with "localhost:" image then " --tls-verify=false" else "")
  +:+ " " +:+ image.
Definition pull_image (image : string) : M () :=
  chunks ← execute_streaming (pull_command image);
  r ← gather [] [] None chunks;
  ensure_success (pull_command image) r.

Definition ensure_image (image : string) : M () :=
  present ← image_exists image;
  if (present : bool) then mret () else pull_image image.

(** The progress line of a chunk. *)
Definition report_pull_progress (data : list ascii) : option string :=
  trim <$> last (filter (λ l, trim_is_empty l = false) (lines (from_utf8_lossy data))).

Definition inspect_status (name : string) : M (option string) :=
  r ← execute (e +:+ " inspect " +:+ name +:+ " --format '{{.State.Status}}'");
  mret (if success r then Some (trim (stdout r)) else None).

Definition inspect_ip_address (name : string) : M (option N) :=
  r ← execute (e +:+ " inspect " +:+ name +:+
       " --format '{{range .NetworkSettings.Networks}}{{.IPAddress}}{{end}}' 2>/dev/null || true");
  mret (parse_ipv4 (trim (stdout r))).

Definition non_empty_text (s : string) : option string := if bool_decide (s = "") then None else Some s.

Definition inspect_image (name : string) : M (option string) :=
  r ← execute (e +:+ " inspect " +:+ name +:+ " --format '{{.Config.Image}}' 2>/dev/null || true");
  mret (non_empty_text (trim (stdout r))).
Definition inspect_image_id (name : string) : M (option string) :=
  r ← execute (e +:+ " inspect " +:+ name +:+ " --format '{{.Image}}' 2>/dev/null || true");
  mret (non_empty_text (trim (stdout r))).

Definition start (name : string) : M () := _ ← run_checked (e +:+ " start " +:+ name); mret ().
Definition stop (name : string) : M () := _ ← run_checked (e +:+ " stop " +:+ name); mret ().
Definition remove (name : string) : M () := _ ← run_checked (e +:+ " rm -f " +:+ name); mret ().

Definition logs_tail (name : string) (lines : N) : M string :=
  r ← execute (e +:+ " logs --tail " +:+ pretty lines +:+ " " +:+ name +:+ " 2>&1"); mret (stdout r).

Definition stop_if_running (name : string) : M () :=
  status ← inspect_status name;
  if bool_decide (status = Some "running") then stop name else mret ().

Definition remove_if_present (name : string) : M bool :=
  status ← inspect_status name;
  match status with
  | None => mret false
  | Some _ => _ ← remove name; mret true
  end.

(** [bridge.rs]: the DNS address Podman takes off the bridge. *)
Definition render_podman_dns_address_command (bridge_interface : string) (dns_address : N) : option string :=
  if bool_decide (engine = Podman)
  then Some ("ip address replace " +:+ ipv4_to_string dns_address +:+ "/32 dev " +:+ bridge_interface)
  else None.
Definition reconcile_podman_dns_address (bridge_interface : string) (dns_address : N) : M () :=
  match render_podman_dns_address_command bridge_interface dns_address with
  | None => mret ()
  | Some command => _ ← run_checked command; mret ()
  end.

Record ContainerSummary := {
  summary_name : string;
  summary_project : option string;
  summary_service : option string;
  summary_server : option string;
  summary_status : string;
}.

Definition quote_char : string := String (ascii_of_N 34) "".
Definition label_template (key : string) : string :=
  match engine with
  | Docker => "{{.Label " +:+ quote_char +:+ key +:+ quote_char +:+ "}}"
  | Podman => "{{index .Labels " +:+ quote_char +:+ key +:+ quote_char +:+ "}}"
  end.
Definition render_list_by_label_filter_command (project : option string) : string :=
  e +:+ " ps -a --filter label=jiji.managed=true"
  +:+ match project with Some p => " --filter label=jiji.project=" +:+ p | None => "" end
  +:+ " --format '{{.Names}}|" +:+ label_template "jiji.project" +:+ "|" +:+ label_template "jiji.service"
  +:+ "|" +:+ label_template "jiji.server" +:+ "|{{.State}}'".

(** A field, trimmed, if it is there and not empty. *)
Definition non_empty (field : option string) : option string := field ≫= λ f, non_empty_text (trim f).

Definition parse_container_summary_line (line : string) : ContainerSummary :=
  let fields := split_char "|" line in
  {| summary_name := trim (default "" (fields !! 0%nat));
     summary_project := non_empty (fields !! 1%nat);
     summary_service := non_empty (fields !! 2%nat);
     summary_server := non_empty (fields !! 3%nat);
     summary_status := trim (default "" (fields !! 4%nat)) |}.
Definition parse_container_summary_lines (out : string) : list ContainerSummary :=
  parse_container_summary_line <$> filter (λ l, trim_is_empty l = false) (lines out).

Definition list_by_label_filter (project : option string) : M (list ContainerSummary) :=
  r ← run_checked (render_list_by_label_filter_command project);
  mret (parse_container_summary_lines (stdout r)).
Definition list_managed_containers (project : string) : M (list ContainerSummary) :=
  list_by_label_filter (Some project).
Definition list_other_project_containers (exclude_project : string) : M (list ContainerSummary) :=
  all ← list_by_label_filter None;
  mret (filter (λ c, match summary_project c with
                     | Some project => negb (bool_decide (project = exclude_project))
                     | None => false
                     end = true) all).

Definition trimmed_lines (out : string) : list string := filter (λ n, n ≠ "") (trim <$> lines out).

Definition image_referenced_elsewhere (image : string) : M (list string) :=
  r ← run_checked (e +:+ " ps -a --filter ancestor=" +:+ image +:+ " --format '{{.Names}}'");
  mret (trimmed_lines (stdout r)).

Definition remove_image_if_present (image : string) : M bool :=
  present ← image_exists image;
  if (present : bool) then _ ← run_checked (e +:+ " rmi " +:+ image); mret true else mret false.

Definition volume_exists (name : string) : M bool :=
  r ← execute (e +:+ " volume inspect " +:+ name +:+ " >/dev/null 2>&1"); mret (success r).
Definition volume_attached_projects (name : string) : M (list (option string)) :=
  r ← run_checked (e +:+ " ps -a --filter volume=" +:+ name +:+ " --format '" +:+
        label_template "jiji.project" +:+ "'");
  mret ((λ l, non_empty_text (trim l)) <$> lines (stdout r)).
Definition remove_volume_if_present (name : string) : M bool :=
  present ← volume_exists name;
  if (present : bool) then _ ← run_checked (e +:+ " volume rm " +:+ name); mret true else mret false.

Definition count_attachments (out : string) (exclude : list string) : nat :=
  length (filter (λ n, n ≠ "" ∧ n ∉ exclude) (trim <$> lines out)).
Definition network_attachment_count (network : string) (exclude : list string) : M nat :=
  r ← run_checked (e +:+ " ps -a --filter network=" +:+ network +:+ " --format '{{.Names}}'");
  mret (count_attachments (stdout r) exclude).

Definition remove_network_if_present (name : string) : M bool :=
  r ← execute (e +:+ " network inspect " +:+ name +:+ " >/dev/null 2>&1");
  if negb (success r) then mret false
  else
    let command := e +:+ " network rm " +:+ name in
    r ← execute command;
    if negb (success r) && bool_decide (engine = Podman) && contains_str "associated containers" (stderr r) then
      _ ← run_checked (e +:+ " network rm --force " +:+ name); mret true
    else _ ← ensure_success command r; mret true.
End container_ops.

Definition create_and_start (run : NetworkedContainerRun) : M () :=
  _ ← run_checked (shell_command run);
  match nc_network_target run with
  | TargetBridge => reconcile_podman_dns_address (nc_engine run) (nc_bridge_interface run) (nc_dns_address run)
  | _ => mret ()
  end.

(** ** [env_resolution.rs]: staging *)

Definition install_command (mode temp path : string) : string :=
  "set -eu; install -D -m " +:+ mode +:+ " /dev/stdin " +:+ temp +:+ "; mv " +:+ temp +:+ " " +:+ path.

Definition stage_env_file (project service server : string) (resolved : ResolvedEnvironment) : M string :=
  content ← of_result (env_file_content service resolved);
  let path := env_file_path project service server in
  r ← execute_with_input (install_command "0600" (path +:+ ".jiji-new") path) content;
  if negb (success r) then
    fail ("Could not stage environment file on " +:+ session_host +:+ ": " +:+ trim (stderr r) +:+
          ". Check disk space and permissions under .jiji/ on that host, then retry.")
  else mret path.
End session.

(** ** [mounts.rs] *)

Record ParsedMount := {
  mount_local : string;
  mount_remote : string;
  mount_mode : option string;
  mount_owner : option string;
  mount_options : option string;
}.

(** [splitn(3, ':')]. *)
Definition parse_mount (mount : MountConfig) : result string ParsedMount :=
  match mount with
  | MountStr value =>
      let bad := "Mount '" +:+ value +:+ "' must be in 'local:remote' or 'local:remote:options' format" in
      match split_once ":" value with
      | None => Err bad
      | Some (local, rest) =>
          let '(remote, options) :=
            match split_once ":" rest with
            | Some (remote, options) => (remote, Some options)
            | None => (rest, None)
            end in
          if bool_decide (local = "") || bool_decide (remote = "") then Err bad
          else Ok {| mount_local := local; mount_remote := remote; mount_mode := None; mount_owner := None;
                     mount_options := options |}
      end
  | MountDetailed local remote mode owner options =>
      Ok {| mount_local := local; mount_remote := remote; mount_mode := mode; mount_owner := owner;
            mount_options := options |}
  end.

Definition remote_mount_base (project kind service : string) : string :=
  ".jiji/" +:+ project +:+ "/" +:+ kind +:+ "/" +:+ service.

(** A component [..] of a path. *)
Definition reject_path_traversal (local : string) : result string () :=
  if existsb (λ segment, bool_decide (segment = "..")) (split_char "/" local)
  then Err ("Mount local path '" +:+ local +:+ "' may not contain '..' path segments")
  else Ok ().

Fixpoint build_mount_args (mounts : list MountConfig) (project kind service : string) :
    result string (list string) :=
  match mounts with
  | [] => Ok []
  | mount :: mounts =>
      let? parsed := parse_mount mount in
      let? _ := reject_path_traversal (mount_local parsed) in
      let? rest := build_mount_args mounts project kind service in
      Ok ("-v" :: (remote_mount_base project kind service +:+ "/" +:+ mount_local parsed +:+ ":" +:+
                   mount_remote parsed +:+
                   match mount_options parsed with Some options => ":" +:+ options | None => "" end) :: rest)
  end.
Definition build_all_mount_args (service : Service) (project service_name : string) :
    result string (list string) :=
  let? files := build_mount_args (service_files service) project "files" service_name in
  let? directories := build_mount_args (service_directories service) project "directories" service_name in
  Ok (files ++ directories ++ render_volumes (service_volumes service) service_name).

(** The local files a mount uploads, and [tar::Builder] on a directory. *)
Class LocalTree := {
  read_bytes : string → result string string;
  dir_exists : string → bool;
  archive : string → result string string;
}.

Section mounts.
Context `{Host, LocalTree}.

Definition upload_file (local_path remote_path : string) (mode owner : option string) : M () :=
  content ← of_result (map_err (λ _, "Could not read local file " +:+ local_path) (read_bytes local_path));
  let command := install_command (default "0644" mode) (remote_path +:+ ".jiji-new") remote_path in
  r ← execute_with_input command content;
  _ ← ensure_success command r;
  match owner with
  | Some owner => _ ← run_checked ("chown " +:+ owner +:+ " " +:+ remote_path); mret ()
  | None => mret ()
  end.

Definition build_tar_archive (local_dir : string) (max_bytes : N) : result string string :=
  let? bytes := map_err (λ _, "Could not archive directory " +:+ local_dir) (archive local_dir) in
  if max_bytes <? N.of_nat (String.length bytes) then
    Err ("Directory '" +:+ local_dir +:+ "' archives to " +:+ pretty (N.of_nat (String.length bytes)) +:+
         " bytes, exceeding the " +:+ pretty max_bytes +:+
         "-byte upload limit. Reduce its contents or raise the configured limit.")
  else Ok bytes.

Definition upload_directory (local_dir remote_dir : string) (mode owner : option string) (max_bytes : N) : M () :=
  if negb (dir_exists local_dir) then _ ← run_checked ("mkdir -p " +:+ remote_dir); mret ()
  else
    bytes ← of_result (build_tar_archive local_dir max_bytes);
    let command := "set -eu; mkdir -p " +:+ remote_dir +:+ "; tar -C " +:+ remote_dir +:+ " -xf -" in
    r ← execute_with_input command bytes;
    _ ← ensure_success command r;
    _ ← match mode with
        | Some mode => _ ← run_checked ("chmod -R " +:+ mode +:+ " " +:+ remote_dir); mret ()
        | None => mret ()
        end;
    match owner with
    | Some owner => _ ← run_checked ("chown -R " +:+ owner +:+ " " +:+ remote_dir); mret ()
    | None => mret ()
    end.

(** The two loops of [prepare_mounts], each with its upload. *)
Fixpoint upload_mounts (upload : string → string → option string → option string → M ())
    (mounts : list MountConfig) (base project_root : string) : M () :=
  match mounts with
  | [] => mret ()
  | mount :: mounts =>
      parsed ← of_result (parse_mount mount);
      _ ← of_result (reject_path_traversal (mount_local parsed));
      _ ← upload (join_path project_root (mount_local parsed)) (base +:+ "/" +:+ mount_local parsed)
            (mount_mode parsed) (mount_owner parsed);
      upload_mounts upload mounts base project_root
  end.

Definition prepare_mounts (service : Service) (service_name project project_root : string)
    (max_dir_bytes : N) : M (list string) :=
  _ ← upload_mounts upload_file (service_files service)
        (remote_mount_base project "files" service_name) project_root;
  _ ← upload_mounts (λ local remote mode owner, upload_directory local remote mode owner max_dir_bytes)
        (service_directories service) (remote_mount_base project "directories" service_name) project_root;
  of_result (build_all_mount_args service project service_name).
End mounts.

(** ** [version_requirements.rs] *)

Definition take_while {A} (p : A → bool) : list A → list A :=
  fix go l := match l with x :: l => if p x then x :: go l else [] | [] => [] end.
Definition skip_while {A} (p : A → bool) : list A → list A :=
  fix go l := match l with x :: l' => if p x then go l' else l | [] => [] end.

(** [engine.rs]: [parse_version]. *)
Definition parse_version (output : string) : option (N * (N * N)) :=
  let digits_and_dots := of_bytes
    (take_while (λ c, is_ascii_digit c || bool_decide (c = "."%char))
       (skip_while (λ c, negb (is_ascii_digit c)) (bytes output))) in
  let number s := match parse_uint u64_max s with Ok n => Some n | Err _ => None end in
  let parts := split_char "." digits_and_dots in
  major ← parts !! 0%nat ≫= number;
  minor ← parts !! 1%nat ≫= number;
  patch ← number (default "0" (parts !! 2%nat));
  Some (major, (minor, patch)).

Definition MIN_AGENT_VERSION : string := "0.4.9".
Definition MIN_PROXY_VERSION : string := "0.4.9".
Definition MIN_RETENTION_AGENT_VERSION : string := "0.6.5".

Definition check_min_version (subject host found min fix_hint : string) : result string () :=
  match parse_version found, parse_version min with
  | Some found_version, Some min_version =>
      if ltb found_version min_version then
        Err (subject +:+ " on '" +:+ host +:+ "' is running v" +:+ found +:+
             ", but this jiji requires at least v" +:+ min +:+ ". " +:+ fix_hint)
      else Ok ()
  | _, _ => Ok ()
  end.

(** ** [agent_client.rs] *)

(** The agent of the server: its configuration, the environment of each request and what
    becomes of it, by the number of things done before. *)
Class AgentLink := {
  link_api : AgentApi;
  link_env : nat → Env;
  link_fate : nat → Fate;
}.

Section agent_client.
Context `{ContentHash MembershipRecord, ContentHash CatalogRecord, ContentHash DesiredStateRecord, Labels}
  `{Host, AgentLink}.

Definition call (key : option string) (body : RequestBody) : M ResponseBody := λ w,
  let n := length (w_log w) in
  let request := {| idempotency_key := key; request_body := body |} in
  let '(answer, store) := handle_idempotent link_api (link_env n) (w_store w) request in
  let next store := {| w_store := store; w_machine := w_machine w;
                       w_log := Asked request (link_fate n) answer (w_store w) store :: w_log w |} in
  match link_fate n with
  | Lost e => (Fails e, next (w_store w))
  | Cut e => (Fails e, next store)
  | Delivered =>
      (match answer with
       | Ok response => Fine response
       | Err error => Fails ("Agent rejected request on " +:+ session_host +:+ ": " +:+ error_message error)
       end, next store)
  end.

Definition unexpected {A} (what : string) (response : ResponseBody) : M A :=
  fail ("Agent returned unexpected " +:+ what +:+ " response: " +:+ response_debug response).

Definition catalog : M (list CatalogRecord) :=
  response ← call None CatalogList;
  match response with
  | CatalogRecords records => mret records
  | response => unexpected "catalog" response
  end.

Definition check_version (host : string) : M () :=
  response ← attempt (call None Health);
  match response with
  | Err _ => fail ("Could not reach jiji-agent on '" +:+ host +:+
                   "'. Run `jiji server setup` to install or repair it.")
  | Ok (HealthIs _ _ version) =>
      of_result (check_min_version "jiji-agent" host version MIN_AGENT_VERSION
                   "Run `jiji server setup` to update it.")
  | Ok response => unexpected "health" response
  end.
End agent_client.
