(* ===== verification/Transaction.v ===== *)
(** The deployment of one endpoint: [jiji-cli/src/deploy_transaction.rs], with the health gate
    [wait_until_healthy] of [health_check.rs].  A candidate container is started beside the
    running one, checked, made active in the catalog and on the proxy, and only then is the
    previous one drained, stopped and tombstoned.

    The identifier of the process and SHA-256 give the deployment its name.  Progress lines
    are left out.  [fuel] bounds each poll; the theorems say how much is enough. *)

From S2P Require Import Prelude Text Bytes Substring Cidr Naming Schema Planner ServiceRuntime.
From S2P Require Import Membership Catalog Desired OpLog Leases Cron CronExec Replication Store Api CandidatePlan EnvResolution Session ProxyRoutes Cascade.
Open Scope N_scope.

Record EndpointDeploymentContext := {
  ctx_project : string;
  ctx_server : ServerPlan;
  ctx_service_name : string;
  ctx_replica_id : string;
  ctx_service : Service;
  ctx_engine : ContainerEngine;
  ctx_image : string;
  ctx_resolved_env : ResolvedEnvironment;
  ctx_project_root : string;
  ctx_skip_proxy : bool;
  ctx_max_dir_upload_bytes : N;
}.

(** [{state:?}]. *)
Definition state_debug (s : DeploymentState) : string :=
  match s with
  | Candidate => "Candidate" | Active => "Active" | Draining => "Draining"
  | Stopped => "Stopped" | Tombstoned => "Tombstoned"
  end.

(** [to_lowercase]: no other character becomes one of those looked for. *)
Definition is_dependent_container_error (error : string) : bool :=
  contains_str "dependent container" (str_to_ascii_lowercase error).

Definition max_seconds (l : list N) : option N :=
  match l with [] => None | x :: l => Some (foldl N.max x l) end.
Definition proxy_activation_progress_detail (targets : list RouteTarget) : outcome string :=
  let! timeouts := outcomes parse_duration
    (omap (λ t, route_healthcheck t ≫= healthcheck_deploy_timeout) targets) in
  Returned match max_seconds (omap id timeouts) with
           | Some timeout => "proxy route (" +:+ pretty timeout +:+ "s)"
           | None => "proxy route"
           end.

Section transaction.
Context `{ContentHash MembershipRecord, ContentHash CatalogRecord, ContentHash DesiredStateRecord, Labels}
  `{Host, AgentLink} `{RouteJson, LocalTree, Sha256, FloatText} (process_id : N) (fuel : nat)
  (ctx : EndpointDeploymentContext).

Let engine := ctx_engine ctx.
Let project := ctx_project ctx.
Let service_name := ctx_service_name ctx.
Let replica := ctx_replica_id ctx.

(** ** The health gate *)

(** One attempt: passed, failed for good with its message, or to be tried again. *)
Definition health_attempt (plan : HealthCheckPlan) (start_time : N) : M (option (option string)) :=
  attempted ← attempt (execute (hp_command plan));
  match attempted with
  | Ok r =>
      if success r then mret (Some None)
      else
        now ← now_monotonic;
        if hp_deploy_timeout plan * SECOND <=? now - start_time
        then mret (Some (Some (summarize_attempt (stdout r) (stderr r) (code r)))) else mret None
  | Err error =>
      now ← now_monotonic;
      if hp_deploy_timeout plan * SECOND <=? now - start_time then mret (Some (Some error)) else mret None
  end.

Definition wait_until_healthy (container_name : string) (plan : HealthCheckPlan) : M () :=
  start_time ← now_monotonic;
  verdict ← poll fuel (hp_interval plan * SECOND) (health_attempt plan start_time);
  match verdict with
  | None => mret ()
  | Some last_error =>
      logs ← attempt (logs_tail engine container_name 50);
      fail ("Health check `" +:+ hp_command plan +:+ "` did not succeed on " +:+ session_host +:+ " within "
            +:+ pretty (hp_deploy_timeout plan) +:+ "s: " +:+ last_error +:+ ". Recent logs: "
            +:+ match logs with Ok logs => logs | Err _ => "" end)
  end.

(** ** Steps *)

Definition commit_catalog (replica_id deployment_id : string) (address : N) (ports : list N)
    (state : DeploymentState) (health : HealthState) : M CatalogRecord :=
  response ← call (Some ("catalog:" +:+ deployment_id +:+ ":" +:+ state_debug state))
    (CatalogCommit service_name replica_id deployment_id (ipv4_to_string address) ports (ctx_image ctx)
       state health);
  match response with
  | CatalogCommitted record => mret record
  | response => unexpected "catalog" response
  end.

(** [unwrap_or_default] and seconds. *)
Definition timestamp_or_zero : M N :=
  time ← attempt system_time;
  mret match time with Ok nanos => nanos / SECOND | Err _ => 0 end.

Definition release_address (deployment_id : string) (timestamp : N) : M ResponseBody :=
  call (Some ("release:" +:+ deployment_id)) (ReleaseAddress deployment_id timestamp).

Definition release_candidate (replica_id deployment_id : string) (address : N) (candidate_name : string) : M () :=
  _ ← ignore (remove_if_present engine candidate_name);
  _ ← ignore (commit_catalog replica_id deployment_id address [] Tombstoned Unhealthy);
  timestamp ← timestamp_or_zero;
  ignore (release_address deployment_id timestamp).

Definition restore_stop_first (previous : option CatalogRecord) : M () :=
  if negb (service_stop_first (ctx_service ctx)) then mret ()
  else match previous with
       | Some previous =>
           ignore (start engine (dynamic_container_name project service_name (deployment_id previous)))
       | None => mret ()
       end.

Definition service_has_retention_spec (service : string) : M bool :=
  response ← attempt (call None ImageRetentionList);
  mret match response with
       | Ok (ImageRetentionSpecs specs) => existsb (λ spec, bool_decide (ir_service spec = service)) specs
       | _ => false
       end.

Definition capture_orphaned_static_image (service_name : string) (service : option Service)
    (old_name : string) : M (option string) :=
  if match service with Some s => bool_decide (is_Some (service_build s)) | None => false end then mret None
  else
    tracked ← service_has_retention_spec service_name;
    if (tracked : bool) then mret None
    else
      id ← attempt (inspect_image_id engine old_name);
      mret match id with Ok id => id | Err _ => None end.

Definition finish_orphaned_static_image_cleanup (orphaned_image_id : option string) : M () :=
  match orphaned_image_id with
  | None => mret ()
  | Some image_id =>
      referenced ← attempt (image_referenced_elsewhere engine image_id);
      match referenced with
      | Ok [] => ignore (remove_image_if_present engine image_id)
      | _ => mret ()
      end
  end.

Definition sweep_record (service_name : string) (service : option Service) (record : CatalogRecord) : M () :=
  let old_name := dynamic_container_name project service_name (deployment_id record) in
  orphaned_image ← capture_orphaned_static_image service_name service old_name;
  removed ← attempt (remove_if_present engine old_name);
  match removed with
  | Err _ => mret ()
  | Ok _ =>
      _ ← finish_orphaned_static_image_cleanup orphaned_image;
      timestamp ← timestamp_or_zero;
      _ ← ignore (release_address (deployment_id record) timestamp);
      ignore (call (Some ("catalog:" +:+ deployment_id record +:+ ":Tombstoned"))
        (CatalogCommit (Catalog.service record) (replica_id record) (deployment_id record)
           (ipv4_to_string (Catalog.address record)) (Catalog.ports record) (Catalog.image record)
           Tombstoned Unknown))
  end.

Definition sweep_stuck_draining_records (service_name : string) (service : option Service) : M () :=
  records ← attempt catalog;
  match records with
  | Err _ => mret ()
  | Ok records =>
      each (sweep_record service_name service)
        (filter (λ r, Catalog.service r = service_name ∧ owner_node_id r = sp_name (ctx_server ctx) ∧
                      Catalog.state r = Draining) records)
  end.

Fixpoint activate_proxy_routes (targets : list RouteTarget) (address timeout : N) : M () :=
  match targets with
  | [] => mret ()
  | target :: targets =>
      _ ← deploy_route engine target;
      _ ← verify_route_address engine fuel (route_host target) (route_path_prefix target)
            {| socket_ip := address; socket_port := route_port target |} timeout;
      activate_proxy_routes targets address timeout
  end.
Fixpoint activate_tcp_proxy_routes (targets : list TcpRouteTarget) (address timeout : N) : M () :=
  match targets with
  | [] => mret ()
  | target :: targets =>
      _ ← deploy_tcp_route engine target;
      _ ← verify_tcp_route_address engine fuel (tcp_listen_port target)
            {| socket_ip := address; socket_port := tcp_port target |} timeout;
      activate_tcp_proxy_routes targets address timeout
  end.

(** ** The three transactions *)

Definition new_deployment_id : M string :=
  nonce ← system_time;
  let nul := String Ascii.zero "" in
  mret (String.concat "" (hex_byte <$>
    sha256 (project +:+ nul +:+ replica +:+ nul +:+ pretty nonce +:+ nul +:+ pretty process_id))).

Definition find_previous (records : list CatalogRecord) : option CatalogRecord :=
  find (λ r, bool_decide (replica_id r = replica) && is_active_healthy r) records.

(** [stop_first]: the previous container is stopped before the candidate starts. *)
Definition stop_previous (previous : option CatalogRecord) : M () :=
  if service_stop_first (ctx_service ctx) then
    match previous with
    | Some previous => stop engine (dynamic_container_name project service_name (deployment_id previous))
    | None => mret ()
    end
  else mret ().

(** The image, the mounts and the environment file of the candidate. *)
Definition prepare : M (list string * string) :=
  _ ← ensure_image engine (ctx_image ctx);
  mount_args ← prepare_mounts (ctx_service ctx) service_name project (ctx_project_root ctx)
                 (ctx_max_dir_upload_bytes ctx);
  env_file ← stage_env_file project service_name (sp_name (ctx_server ctx)) (ctx_resolved_env ctx);
  mret (mount_args, env_file).

(** The container runs and its check passes, or everything is undone: [undo] is what the
    transaction does on failure. *)
Definition start_and_check (run : NetworkedContainerRun) (candidate_name : string)
    (plan : outcome HealthCheckPlan) (undo : M ()) : M HealthCheckPlan :=
  started ← attempt (create_and_start run);
  match started with
  | Err error => _ ← undo; fail error
  | Ok _ =>
      plan ← of_outcome plan;
      healthy ← attempt (wait_until_healthy candidate_name plan);
      match healthy with
      | Err error => _ ← undo; fail (redact_secrets error (ctx_resolved_env ctx))
      | Ok _ => mret plan
      end
  end.

(** What happens to the previous deployment once it drains.  [defer] says whether a dependent
    container that holds it back is waited for. *)
Definition remove_previous (defer release : bool) (timestamp : M N) (previous : CatalogRecord) : M bool :=
  let old_name := dynamic_container_name project service_name (deployment_id previous) in
  orphaned_image ← capture_orphaned_static_image service_name (Some (ctx_service ctx)) old_name;
  _ ← ignore (stop engine old_name);
  removed ← attempt (remove_if_present engine old_name);
  match removed with
  | Err error =>
      if defer && is_dependent_container_error error then mret false else fail error
  | Ok _ =>
      _ ← finish_orphaned_static_image_cleanup orphaned_image;
      _ ← (if release then timestamp ← timestamp; _ ← release_address (deployment_id previous) timestamp; mret ()
           else mret ());
      _ ← commit_catalog (replica_id previous) (deployment_id previous) (Catalog.address previous)
            (Catalog.ports previous) Tombstoned Unknown;
      mret true
  end.

Definition retire_previous (defer release : bool) (timestamp : M N) (previous : CatalogRecord) : M bool :=
  _ ← commit_catalog (replica_id previous) (deployment_id previous) (Catalog.address previous)
        (Catalog.ports previous) Draining Unknown;
  remove_previous defer release timestamp previous.

Definition retire (defer release : bool) (timestamp : M N) (previous : option CatalogRecord) : M () :=
  match previous with
  | Some previous => _ ← retire_previous defer release timestamp previous; mret ()
  | None => mret ()
  end.

Definition deploy_shared_endpoint (upstream_service_name : string) : M (string * N) :=
  deployment ← new_deployment_id;
  let candidate_name := dynamic_container_name project service_name deployment in
  records ← catalog;
  let previous := find_previous records in
  upstream ← of_result (ok_or
    (find (λ r, bool_decide (Catalog.service r = upstream_service_name)
                && bool_decide (owner_node_id r = sp_name (ctx_server ctx)) && is_active_healthy r) records)
    ("Service '" +:+ service_name +:+ "' shares '" +:+ upstream_service_name +:+ "''s network namespace, but '"
     +:+ upstream_service_name +:+ "' has no active, healthy deployment on '" +:+ sp_name (ctx_server ctx)
     +:+ "'. Deploy '" +:+ upstream_service_name +:+ "' first."));
  let target_container := dynamic_container_name project upstream_service_name (deployment_id upstream) in
  let address := Catalog.address upstream in
  prepared ← prepare;
  let run := build_shared_run engine project service_name (sp_name (ctx_server ctx)) replica deployment
               (ctx_image ctx) address (ctx_server ctx) (ctx_service ctx) prepared.1 prepared.2 target_container in
  _ ← commit_catalog replica deployment address [] Candidate Unknown;
  _ ← start_and_check run candidate_name (plan_for_candidate engine candidate_name address 0 None)
        (release_candidate replica deployment address candidate_name);
  _ ← commit_catalog replica deployment address [] Active Healthy;
  _ ← retire false false (mret 0) previous;
  _ ← sweep_stuck_draining_records upstream_service_name None;
  mret (deployment, address).

Definition undo_candidate (deployment : string) (address : N) (candidate_name : string)
    (previous : option CatalogRecord) : M () :=
  _ ← release_candidate replica deployment address candidate_name;
  restore_stop_first previous.

(** The port and the check of the first route. *)
Definition health_target (targets : list RouteTarget) (tcp : list TcpRouteTarget) :
    N * option HealthcheckConfig :=
  match targets, tcp with
  | target :: _, _ => (route_port target, route_healthcheck target)
  | [], target :: _ => (tcp_port target, tcp_healthcheck target)
  | [], [] => (0, None)
  end.

Definition lease_candidate (deployment : string) (timestamp : N) : M N :=
  lease ← call (Some ("lease:" +:+ deployment))
    (AllocateAddress deployment replica (cidr_to_string (sp_container_subnet (ctx_server ctx)))
       [ipv4_to_string (sp_bridge_gateway (ctx_server ctx)); ipv4_to_string (sp_dns_address (ctx_server ctx));
        ipv4_to_string (sp_proxy_address (ctx_server ctx))] timestamp);
  match lease with
  | AddressLeased _ _ address _ => of_result (ok_or (parse_ipv4 address) addr_parse_error_text)
  | response => unexpected "lease" response
  end.

Definition activation (targets : list RouteTarget) (tcp : list TcpRouteTarget) (address timeout : N) : M () :=
  _ ← of_outcome (proxy_activation_progress_detail targets);
  _ ← activate_proxy_routes targets address timeout;
  activate_tcp_proxy_routes tcp address timeout.

Definition deploy_dynamic_endpoint : M (string * N) :=
  deployment ← new_deployment_id;
  let candidate_name := dynamic_container_name project service_name deployment in
  records ← catalog;
  let previous := find_previous records in
  nanos ← system_time;
  let timestamp := nanos / SECOND in
  address ← lease_candidate deployment timestamp;
  _ ← stop_previous previous;
  prepared ← prepare;
  let run := build_dynamic_run engine project service_name (sp_name (ctx_server ctx)) replica deployment
               (ctx_image ctx) address (ctx_server ctx) (ctx_service ctx) prepared.1 prepared.2 in
  let dns_server := {| socket_ip := sp_dns_address (ctx_server ctx); socket_port := 53 |} in
  targets ← of_result (targets_for_service project service_name dns_server (service_proxy (ctx_service ctx)));
  targets ← of_result (resolve_tls_secrets (ctx_resolved_env ctx) targets);
  tcp ← of_result (tcp_targets_for_service project service_name dns_server (service_proxy (ctx_service ctx)));
  let committed_ports := (route_port <$> targets) ++ (tcp_port <$> tcp) in
  _ ← commit_catalog replica deployment address committed_ports Candidate Unknown;
  let '(health_port, health_config) := health_target targets tcp in
  plan ← start_and_check run candidate_name
           (plan_for_candidate engine candidate_name address health_port health_config)
           (undo_candidate deployment address candidate_name previous);
  _ ← commit_catalog replica deployment address committed_ports Active Healthy;
  _ ← (if ctx_skip_proxy ctx then mret ()
       else
         activated ← attempt (activation targets tcp address (hp_deploy_timeout plan));
         match activated with
         | Err error => _ ← undo_candidate deployment address candidate_name previous; fail error
         | Ok _ => mret ()
         end);
  _ ← retire true true (mret timestamp) previous;
  _ ← sweep_stuck_draining_records service_name (Some (ctx_service ctx));
  mret (deployment, address).

Definition deploy_host_mode : M (string * N) :=
  deployment ← new_deployment_id;
  let candidate_name := dynamic_container_name project service_name deployment in
  let address := sp_management_address (ctx_server ctx) in
  let committed_ports :=
    match head (service_ports (ctx_service ctx)) with
    | Some port => match parse_uint u16_max port with Ok p => [p] | Err _ => [] end
    | None => []
    end in
  records ← catalog;
  let previous := find_previous records in
  _ ← stop_previous previous;
  prepared ← prepare;
  let run := build_host_run engine project service_name (sp_name (ctx_server ctx)) replica deployment
               (ctx_image ctx) address (ctx_server ctx) (ctx_service ctx) prepared.1 prepared.2 in
  _ ← commit_catalog replica deployment address committed_ports Candidate Unknown;
  _ ← start_and_check run candidate_name (plan_for_candidate engine candidate_name address 0 None)
        (undo_candidate deployment address candidate_name previous);
  _ ← commit_catalog replica deployment address committed_ports Active Healthy;
  _ ← retire true true (nanos ← system_time; mret (nanos / SECOND)) previous;
  _ ← sweep_stuck_draining_records service_name (Some (ctx_service ctx));
  mret (deployment, address).

Definition deploy_endpoint : M EndpointOutcome :=
  result ← attempt
    (if bool_decide (service_network_mode (ctx_service ctx) = "host") then deploy_host_mode
     else match network_mode_dependency (ctx_service ctx) with
          | Some upstream => deploy_shared_endpoint upstream
          | None => deploy_dynamic_endpoint
          end);
  mret match result with
       | Ok (deployment, _) => Deployed deployment
       | Err error => DeployFailed error
       end.
End transaction.
