(* ===== verification/SessionLaws.v ===== *)
(** How to reason about what the CLI does on a server: triples for its programs, the programs
    that only run commands and leave the agent alone, and invariants that requests to the
    agent keep. *)

From S2P Require Import Prelude Text Bytes Substring Cidr Naming Schema Planner ServiceRuntime.
From S2P Require Import Membership Catalog Desired OpLog Leases Cron CronExec Replication Store Api CandidatePlan EnvResolution Session ProxyRoutes.
Open Scope N_scope.

Section triples.
Context `{Host}.

(** From [P], a program that ends with a value ends in [Q], and one that ends otherwise in
    [E]. *)
Definition triple {A} (P : World → Prop) (m : M A) (Q : A → World → Prop) (E : World → Prop) : Prop :=
  ∀ w, P w → match m w with (Fine a, w') => Q a w' | (_, w') => E w' end.
Definition keeps {A} (I : World → Prop) (m : M A) : Prop := triple I m (λ _, I) I.

Lemma triple_ret {A} (P : World → Prop) (a : A) Q E : (∀ w, P w → Q a w) → triple P (mret a) Q E.
Proof. intros HQ w Hw. by apply HQ. Qed.
Lemma triple_fail {A} (P : World → Prop) e (Q : A → World → Prop) E :
  (∀ w, P w → E w : Prop) → triple P (fail e) Q E.
Proof. intros HE w Hw. by apply HE. Qed.
Lemma triple_bind {A B} P (m : M A) Q E (f : A → M B) R :
  triple P m Q E → (∀ a, triple (Q a) (f a) R E) → triple P (m ≫= f) R E.
Proof.
  intros Hm Hf w Hw. specialize (Hm w Hw). unfold mbind, M_bind.
  destruct (m w) as [[a| | |] w']; [by apply Hf|done|done|done].
Qed.
Lemma triple_conseq {A} (P P' : World → Prop) (m : M A) (Q Q' : A → World → Prop) (E E' : World → Prop) :
  triple P' m Q' E' → (∀ w, P w → P' w) → (∀ a w, Q' a w → Q a w) → (∀ w, E' w → E w) → triple P m Q E.
Proof.
  intros Hm HP HQ HE w Hw. specialize (Hm w (HP _ Hw)). destruct (m w) as [[a| | |] w']; auto.
Qed.
Lemma triple_weaken {A} (P' P : World → Prop) (m : M A) Q E :
  (∀ w, P w → P' w) → triple P' m Q E → triple P m Q E.
Proof. intros HP Hm w Hw. by apply Hm, HP. Qed.
Lemma triple_attempt {A} P (m : M A) Q E :
  triple P m Q E → triple P (attempt m) (λ r w, match r with Ok a => Q a w | Err _ => E w end) E.
Proof. intros Hm w Hw. specialize (Hm w Hw). unfold attempt. by destruct (m w) as [[a| | |] w']. Qed.
Lemma triple_ignore {A} P (m : M A) Q E :
  triple P m Q E → triple P (ignore m) (λ _ w, (∃ a, Q a w) ∨ E w) E.
Proof.
  intros Hm. eapply triple_bind; [by apply triple_attempt|]. intros [a|e]; apply triple_ret; intros w Hw; eauto.
Qed.
Lemma triple_pure {A} (φ : Prop) P (m : M A) Q E :
  (φ → triple P m Q E) → triple (λ w, φ ∧ P w) m Q E.
Proof. intros Hm w [Hφ Hw]. by apply Hm. Qed.
Lemma triple_of_result {A} P (r : result string A) Q (E : World → Prop) :
  (∀ a w, r = Ok a → P w → Q a w) → (∀ w, P w → E w) → triple P (of_result r) Q E.
Proof. intros HQ HE w Hw. destruct r; simpl; auto. Qed.

Lemma triple_true {A} (m : M A) : triple (λ _, True) m (λ _ _, True) (λ _, True).
Proof. intros w _. by destruct (m w) as [[a| | |] w']. Qed.
Lemma triple_and {A} (P P' : World → Prop) (m : M A) (Q Q' : A → World → Prop) (E E' : World → Prop) :
  triple P m Q E → triple P' m Q' E' →
  triple (λ w, P w ∧ P' w) m (λ a w, Q a w ∧ Q' a w) (λ w, E w ∧ E' w).
Proof.
  intros Hm Hm' w [Hw Hw']. specialize (Hm w Hw). specialize (Hm' w Hw').
  by destruct (m w) as [[a| | |] w'].
Qed.
Lemma keeps_and {A} (I J : World → Prop) (m : M A) : keeps I m → keeps J m → keeps (λ w, I w ∧ J w) m.
Proof. apply triple_and. Qed.

Lemma keeps_conseq {A} (I : World → Prop) (m : M A) (P E : World → Prop) :
  keeps I m → (∀ w, P w → I w) → (∀ w, I w → E w) → triple P m (λ _, I) E.
Proof. intros Hm HP HE. eapply triple_conseq; [exact Hm|done|done|done]. Qed.

(** ** Invariants *)

Section keeps.
Context (I : World → Prop).

Lemma keeps_ret {A} (a : A) : keeps I (mret a).
Proof using. by apply triple_ret. Qed.
Lemma keeps_fail {A} e : keeps I (fail e : M A).
Proof using. by apply triple_fail. Qed.
Lemma keeps_bind {A B} (m : M A) (f : A → M B) : keeps I m → (∀ a, keeps I (f a)) → keeps I (m ≫= f).
Proof using. intros Hm Hf. by eapply triple_bind. Qed.
Lemma keeps_attempt {A} (m : M A) : keeps I m → keeps I (attempt m).
Proof using. intros Hm. eapply triple_conseq; [by apply triple_attempt|done| |done]. by intros []. Qed.
Lemma keeps_ignore {A} (m : M A) : keeps I m → keeps I (ignore m).
Proof using. intros Hm. apply keeps_bind; [by apply keeps_attempt|intros; apply keeps_ret]. Qed.
Lemma keeps_of_result {A} (r : result string A) : keeps I (of_result r).
Proof using. destruct r; [apply keeps_ret|apply keeps_fail]. Qed.
Lemma keeps_of_outcome {A} (o : outcome A) : keeps I (of_outcome o).
Proof using. by destruct o; intros w Hw. Qed.
Lemma keeps_each {A} (f : A → M ()) l : (∀ a, a ∈ l → keeps I (f a)) → keeps I (each f l).
Proof using.
  induction l as [|a l IH]; intros Hf; simpl; [apply keeps_ret|].
  apply keeps_bind; [apply Hf; by left|intros _]. apply IH. intros b Hb. apply Hf. by right.
Qed.
Lemma keeps_poll {A} fuel pause (look : M (option A)) :
  keeps I look → keeps I (sleep_for pause) → keeps I (poll fuel pause look).
Proof using.
  intros Hl Hs. induction fuel as [|fuel IH]; simpl; [by intros w Hw|]. apply keeps_bind; [done|].
  intros [a|]; [apply keeps_ret|]. apply keeps_bind; [done|by intros _].
Qed.
End keeps.

(** ** Programs that leave the agent alone *)

Definition is_executed (e : Event) : Prop := match e with Executed _ _ _ => True | _ => False end.

(** Another world with the same database, and commands run since. *)
Definition aside (w w' : World) : Prop :=
  w_store w' = w_store w ∧ ∃ l, w_log w' = l ++ w_log w ∧ Forall is_executed l.
Definition quiet {A} (m : M A) : Prop := ∀ w, aside w (m w).2.
(** What commands do not change. *)
Definition neutral (I : World → Prop) : Prop := ∀ w w', aside w w' → I w → I w'.

Lemma aside_refl w : aside w w.
Proof. split; [done|]. by exists []. Qed.
Lemma aside_trans w1 w2 w3 : aside w1 w2 → aside w2 w3 → aside w1 w3.
Proof.
  intros [Hs (l & Hl & Hf)] [Hs' (l' & Hl' & Hf')]. split; [congruence|]. exists (l' ++ l).
  rewrite Hl', Hl. split; [by rewrite (assoc_L (++))|]. by apply Forall_app.
Qed.

Lemma quiet_keeps {A} I (m : M A) : neutral I → quiet m → keeps I m.
Proof. intros HI Hm w Hw. specialize (Hm w). destruct (m w) as [[a| | |] w']; by eapply HI. Qed.

Lemma quiet_ret {A} (a : A) : quiet (mret a). Proof. intros w. apply aside_refl. Qed.
Lemma quiet_fail {A} e : quiet (fail e : M A). Proof. intros w. apply aside_refl. Qed.
Lemma quiet_bind {A B} (m : M A) (f : A → M B) : quiet m → (∀ a, quiet (f a)) → quiet (m ≫= f).
Proof.
  intros Hm Hf w. specialize (Hm w). unfold mbind, M_bind. destruct (m w) as [[a| | |] w']; try done.
  eapply aside_trans; [exact Hm|apply Hf].
Qed.
Lemma quiet_attempt {A} (m : M A) : quiet m → quiet (attempt m).
Proof. intros Hm w. specialize (Hm w). unfold attempt. by destruct (m w) as [[a| | |] w']. Qed.
Lemma quiet_ignore {A} (m : M A) : quiet m → quiet (ignore m).
Proof. intros Hm. apply quiet_bind; [by apply quiet_attempt|intros; apply quiet_ret]. Qed.
Lemma quiet_of_result {A} (r : result string A) : quiet (of_result r).
Proof. destruct r; [apply quiet_ret|apply quiet_fail]. Qed.
Lemma quiet_of_outcome {A} (o : outcome A) : quiet (of_outcome o).
Proof. destruct o; intros w; apply aside_refl. Qed.
Lemma quiet_with_machine w m l : Forall is_executed l → aside w (with_machine w m l).
Proof. split; [done|]. by exists l. Qed.
Lemma quiet_execute command input : quiet (execute_with_input command input).
Proof.
  intros w. unfold execute_with_input. destruct (exec _ _ _) as [o m]. apply quiet_with_machine. by repeat constructor.
Qed.
Lemma quiet_execute_plain command : quiet (execute command).
Proof. apply quiet_execute. Qed.
Lemma quiet_execute_streaming command : quiet (execute_streaming command).
Proof. intros w. unfold execute_streaming. destruct (exec_stream _ _) as [o m]. by apply quiet_with_machine. Qed.
Lemma quiet_now : quiet now_monotonic. Proof. intros w. apply aside_refl. Qed.
Lemma quiet_sleep n : quiet (sleep_for n). Proof. intros w. by apply quiet_with_machine. Qed.
Lemma quiet_system_time : quiet system_time. Proof. intros w. apply aside_refl. Qed.
Lemma quiet_gather out err c chunks : quiet (gather out err c chunks).
Proof.
  revert out err c. induction chunks as [|[[d|d|n]|e] chunks IH]; intros out err c; simpl;
    [apply quiet_ret|apply IH|apply IH|apply IH|apply quiet_fail].
Qed.
Lemma quiet_poll {A} fuel pause (look : M (option A)) : quiet look → quiet (poll fuel pause look).
Proof.
  intros Hl. induction fuel as [|fuel IH]; simpl; [intros w; apply aside_refl|]. apply quiet_bind; [done|].
  intros [a|]; [apply quiet_ret|]. apply quiet_bind; [apply quiet_sleep|by intros _].
Qed.
Lemma quiet_each {A} (f : A → M ()) l : (∀ a, quiet (f a)) → quiet (each f l).
Proof.
  intros Hf. induction l; simpl; [apply quiet_ret|]. by apply quiet_bind.
Qed.
End triples.

Create HintDb quiet.
#[export] Hint Resolve quiet_ret quiet_fail quiet_of_result quiet_of_outcome quiet_execute quiet_execute_plain
  quiet_execute_streaming quiet_now quiet_sleep quiet_system_time quiet_gather quiet_attempt quiet_ignore
  quiet_poll quiet_each : quiet.

(** Walks through a program made of quiet ones. *)
Ltac quiet :=
  repeat first
    [ progress intros
    | solve [auto with quiet]
    | apply quiet_bind
    | apply quiet_attempt
    | apply quiet_ignore
    | apply quiet_poll
    | apply quiet_each
    | case_match ].

Section quiet_programs.
Context `{Host}.

Lemma quiet_ensure_success command r : quiet (ensure_success command r).
Proof. unfold ensure_success. quiet. Qed.
#[local] Hint Resolve quiet_ensure_success : quiet.
Lemma quiet_run_checked command : quiet (run_checked command).
Proof. unfold run_checked. quiet. Qed.
#[local] Hint Resolve quiet_run_checked : quiet.

Lemma quiet_image_exists e image : quiet (image_exists e image).
Proof. unfold image_exists. quiet. Qed.
#[local] Hint Resolve quiet_image_exists : quiet.
Lemma quiet_ensure_image e image : quiet (ensure_image e image).
Proof. unfold ensure_image, pull_image. quiet. Qed.
Lemma quiet_inspect_status e name : quiet (inspect_status e name).
Proof. unfold inspect_status. quiet. Qed.
#[local] Hint Resolve quiet_inspect_status : quiet.
Lemma quiet_inspect_image_id e name : quiet (inspect_image_id e name).
Proof. unfold inspect_image_id. quiet. Qed.
Lemma quiet_start e name : quiet (start e name).
Proof. unfold start. quiet. Qed.
Lemma quiet_stop e name : quiet (stop e name).
Proof. unfold stop. quiet. Qed.
Lemma quiet_logs_tail e name n : quiet (logs_tail e name n).
Proof. unfold logs_tail. quiet. Qed.
Lemma quiet_remove_if_present e name : quiet (remove_if_present e name).
Proof. unfold remove_if_present, remove. quiet. Qed.
Lemma quiet_image_referenced_elsewhere e image : quiet (image_referenced_elsewhere e image).
Proof. unfold image_referenced_elsewhere. quiet. Qed.
Lemma quiet_remove_image_if_present e image : quiet (remove_image_if_present e image).
Proof. unfold remove_image_if_present. quiet. Qed.
Lemma quiet_create_and_start run : quiet (create_and_start run).
Proof. unfold create_and_start, reconcile_podman_dns_address. quiet. Qed.
Lemma quiet_stage_env_file p s n r : quiet (stage_env_file p s n r).
Proof. unfold stage_env_file. quiet. Qed.

Lemma quiet_upload_mounts upload mounts base root :
  (∀ a b c d, quiet (upload a b c d)) → quiet (upload_mounts upload mounts base root).
Proof. intros Hu. induction mounts; simpl; quiet. Qed.
Lemma quiet_prepare_mounts `{LocalTree} s n p r b : quiet (prepare_mounts s n p r b).
Proof.
  unfold prepare_mounts. repeat (apply quiet_bind; [apply quiet_upload_mounts; intros|intros _]); [| |quiet].
  - unfold upload_file. quiet.
  - unfold upload_directory. quiet.
Qed.

Context `{RouteJson}.
Lemma quiet_run_or command what : quiet (run_or command what).
Proof. unfold run_or. quiet. Qed.
#[local] Hint Resolve quiet_run_or : quiet.
Lemma quiet_parsed {A} what (r : result string A) : quiet (parsed what r).
Proof. unfold parsed. quiet. Qed.
#[local] Hint Resolve quiet_parsed : quiet.
Lemma quiet_deploy_route e t : quiet (deploy_route e t).
Proof. unfold deploy_route, upload_static_certs_if_configured, upload_cert_file. quiet. Qed.
Lemma quiet_deploy_tcp_route e t : quiet (deploy_tcp_route e t).
Proof. unfold deploy_tcp_route. quiet. Qed.
Lemma quiet_look status a b c d f : quiet status → quiet (look_for_address status a b c d f).
Proof. intros Hs. unfold look_for_address. quiet. Qed.
Lemma quiet_route_status e h p : quiet (route_status e h p).
Proof. unfold route_status. quiet. Qed.
Lemma quiet_tcp_route_status e l : quiet (tcp_route_status e l).
Proof. unfold tcp_route_status. quiet. Qed.
#[local] Hint Resolve quiet_look quiet_route_status quiet_tcp_route_status : quiet.
Lemma quiet_verify_route_address e fuel h p a t : quiet (verify_route_address e fuel h p a t).
Proof. unfold verify_route_address. quiet. Qed.
Lemma quiet_verify_tcp_route_address e fuel l a t : quiet (verify_tcp_route_address e fuel l a t).
Proof. unfold verify_tcp_route_address. quiet. Qed.
End quiet_programs.

#[export] Hint Resolve quiet_ensure_success quiet_run_checked quiet_image_exists quiet_ensure_image
  quiet_inspect_status quiet_inspect_image_id quiet_start quiet_stop quiet_logs_tail
  quiet_remove_if_present quiet_image_referenced_elsewhere quiet_remove_image_if_present
  quiet_create_and_start quiet_stage_env_file quiet_prepare_mounts quiet_run_or quiet_parsed
  quiet_deploy_route quiet_deploy_tcp_route quiet_verify_route_address quiet_verify_tcp_route_address : quiet.
