(* ===== verification/Deploy.v ===== *)
(** What a deployment guarantees, whatever fails on the way: the transactions of
    [Transaction.v] on the agent of [Api.v]. *)

From S2P Require Import Prelude Text Bytes Substring Cidr Naming Schema Planner ServiceRuntime.
From S2P Require Import Membership Catalog Desired OpLog Leases Cron CronExec Replication Store Api CandidatePlan EnvResolution Session ProxyRoutes SessionLaws Transaction.
Open Scope N_scope.

(** The key a commit has. *)
Definition commit_key (deployment : string) (state : DeploymentState) : string :=
  "catalog:" +:+ deployment +:+ ":" +:+ state_debug state.

(** The requests a deployment makes, with their keys: commits to the catalog that [C]
    allows, and some that do not touch it. *)
Definition permitted (C : string → string → DeploymentState → Prop) (key : option string)
    (body : RequestBody) : Prop :=
  match body with
  | CatalogCommit _ replica deployment _ _ _ state _ =>
      key = Some (commit_key deployment state) ∧ C replica deployment state
  | AllocateAddress deployment _ _ _ _ => key = Some ("lease:" +:+ deployment)
  | ReleaseAddress deployment _ => key = Some ("release:" +:+ deployment)
  | CatalogList | ImageRetentionList => key = None
  | _ => False
  end.

Section steps.
Context `{ContentHash MembershipRecord, ContentHash CatalogRecord, ContentHash DesiredStateRecord, Labels}
  `{Host, AgentLink} `{RouteJson, LocalTree, Sha256, FloatText} (process_id : N) (fuel : nat)
  (ctx : EndpointDeploymentContext).

Lemma quiet_wait_until_healthy name plan : quiet (wait_until_healthy fuel ctx name plan).
Proof. unfold wait_until_healthy, health_attempt. quiet. Qed.
Lemma quiet_activation targets tcp address timeout : quiet (activation fuel ctx targets tcp address timeout).
Proof.
  unfold activation. apply quiet_bind; [quiet|intros _]. apply quiet_bind.
  - induction targets; simpl; quiet.
  - intros _. induction tcp; simpl; quiet.
Qed.
Lemma quiet_prepare : quiet (prepare ctx).
Proof. unfold prepare. quiet. Qed.
Lemma quiet_stop_previous previous : quiet (stop_previous ctx previous).
Proof. unfold stop_previous. quiet. Qed.
Lemma quiet_restore_stop_first previous : quiet (restore_stop_first ctx previous).
Proof. unfold restore_stop_first. quiet. Qed.
Lemma quiet_new_deployment_id : quiet (new_deployment_id process_id ctx).
Proof. unfold new_deployment_id. quiet. Qed.
Lemma quiet_timestamp_or_zero : quiet timestamp_or_zero.
Proof. unfold timestamp_or_zero. quiet. Qed.
Lemma quiet_finish image : quiet (finish_orphaned_static_image_cleanup ctx image).
Proof. unfold finish_orphaned_static_image_cleanup. quiet. Qed.
#[local] Hint Resolve quiet_wait_until_healthy quiet_activation quiet_prepare quiet_stop_previous
  quiet_restore_stop_first quiet_new_deployment_id quiet_timestamp_or_zero quiet_finish : quiet.

(** An invariant that commands and the permitted requests keep. *)
Section invariant.
Context (I : World → Prop) (C : string → string → DeploymentState → Prop)
  (I_neutral : neutral I) (I_call : ∀ key body, permitted C key body → keeps I (call key body)).

#[local] Hint Resolve keeps_ret keeps_fail keeps_of_result keeps_of_outcome : keeps.

Ltac keeps :=
  repeat first
    [ progress intros
    | solve [auto with keeps]
    | solve [apply quiet_keeps; [exact I_neutral|quiet]]
    | apply keeps_bind
    | apply keeps_attempt
    | apply keeps_ignore
    | case_match ].

Lemma keeps_commit replica d a ports st h : C replica d st → keeps I (commit_catalog ctx replica d a ports st h).
Proof using I_neutral I_call.
  intros HC. unfold commit_catalog. apply keeps_bind; [by apply I_call|].
  intros []; first [apply keeps_ret|unfold unexpected; apply keeps_fail].
Qed.
Lemma keeps_release d t : keeps I (release_address d t).
Proof using I_call. by apply I_call. Qed.
#[local] Hint Resolve keeps_commit keeps_release : keeps.

Lemma keeps_release_candidate replica d a name :
  C replica d Tombstoned → keeps I (release_candidate ctx replica d a name).
Proof using I_neutral I_call. intros HC. unfold release_candidate. keeps. Qed.
#[local] Hint Resolve keeps_release_candidate : keeps.

Lemma keeps_undo_candidate d a name previous :
  C (ctx_replica_id ctx) d Tombstoned → keeps I (undo_candidate ctx d a name previous).
Proof using I_neutral I_call. intros HC. unfold undo_candidate. keeps. Qed.

Lemma keeps_has_retention_spec service : keeps I (service_has_retention_spec service).
Proof using I_neutral I_call. unfold service_has_retention_spec. keeps. by apply I_call. Qed.
#[local] Hint Resolve keeps_has_retention_spec : keeps.
Lemma keeps_capture name service old : keeps I (capture_orphaned_static_image ctx name service old).
Proof using I_neutral I_call. unfold capture_orphaned_static_image. keeps. Qed.
#[local] Hint Resolve keeps_capture : keeps.

Lemma keeps_sweep_record name service r :
  C (replica_id r) (deployment_id r) Tombstoned → keeps I (sweep_record ctx name service r).
Proof using I_neutral I_call. intros HC. unfold sweep_record. keeps. by apply I_call. Qed.

(** The sweep touches what drains. *)
Definition drained_permitted (records : list CatalogRecord) : Prop :=
  ∀ r, r ∈ records → Catalog.state r = Draining → C (replica_id r) (deployment_id r) Tombstoned.

Lemma keeps_sweep name service :
  triple I catalog (λ records w, drained_permitted records ∧ I w) I →
  keeps I (sweep_stuck_draining_records ctx name service).
Proof using I_neutral I_call.
  intros Hc. unfold sweep_stuck_draining_records. eapply triple_bind; [by apply triple_attempt|].
  intros [records|e]; [|by apply triple_ret]. apply triple_pure. intros Hd. apply keeps_each.
  intros r ((_ & _ & Hr) & Hin)%list_elem_of_filter. apply keeps_sweep_record. by apply Hd.
Qed.

Lemma keeps_remove_previous defer release timestamp p :
  quiet timestamp → C (replica_id p) (deployment_id p) Tombstoned →
  keeps I (remove_previous ctx defer release timestamp p).
Proof using I_neutral I_call. intros Ht HC. unfold remove_previous. keeps. Qed.
#[local] Hint Resolve keeps_remove_previous : keeps.

Lemma keeps_retire defer release timestamp previous :
  quiet timestamp →
  (∀ p, previous = Some p →
     C (replica_id p) (deployment_id p) Draining ∧ C (replica_id p) (deployment_id p) Tombstoned) →
  keeps I (retire ctx defer release timestamp previous).
Proof using I_neutral I_call.
  intros Ht HC. destruct previous as [p|]; [|apply keeps_ret]. destruct (HC p eq_refl) as [Hd Hs].
  unfold retire, retire_previous. keeps.
Qed.

Lemma keeps_start_and_check run name plan undo :
  keeps I undo → keeps I (start_and_check fuel ctx run name plan undo).
Proof using I_neutral I_call. intros Hu. unfold start_and_check. keeps. Qed.

Lemma keeps_lease d t : keeps I (lease_candidate ctx d t).
Proof using I_neutral I_call.
  unfold lease_candidate. apply keeps_bind; [by apply I_call|]. intros []; unfold unexpected; keeps.
Qed.
End invariant.
End steps.

#[export] Hint Resolve quiet_wait_until_healthy quiet_activation quiet_prepare quiet_stop_previous
  quiet_restore_stop_first quiet_new_deployment_id quiet_timestamp_or_zero quiet_finish : quiet.

(** ** What a request does to the catalog *)

Lemma state_debug_inj s t : state_debug s = state_debug t → s = t.
Proof. by destruct s, t. Qed.

Lemma state_debug_no_colon s : ":"%char ∉ bytes (state_debug s).
Proof. destruct s; refine (bool_decide_unpack _ _); vm_compute; exact I. Qed.

Lemma app_last_sep {A} (c : A) (a b a' b' : list A) :
  c ∉ b → c ∉ b' → a ++ c :: b = a' ++ c :: b' → a = a' ∧ b = b'.
Proof.
  intros Hb Hb' Heq. apply app_eq_inv in Heq as [(k & -> & Hk)|(k & -> & Hk)].
  - destruct k as [|x k]; simpl in Hk; [injection Hk as ->; by rewrite app_nil_r|].
    injection Hk as -> ->. set_solver.
  - destruct k as [|x k]; simpl in Hk; [injection Hk as ->; by rewrite app_nil_r|].
    injection Hk as -> ->. set_solver.
Qed.

Lemma commit_key_inj d s d' s' : commit_key d s = commit_key d' s' → d = d' ∧ s = s'.
Proof.
  unfold commit_key. intros Heq%append_inj_l.
  assert (bytes d ++ ":"%char :: bytes (state_debug s) = bytes d' ++ ":"%char :: bytes (state_debug s')) as Hb.
  { apply (f_equal bytes) in Heq. by rewrite !bytes_app in Heq. }
  apply app_last_sep in Hb as [Hd Hs]; [|apply state_debug_no_colon|apply state_debug_no_colon].
  split; [by apply bytes_inj|]. by apply state_debug_inj, bytes_inj.
Qed.

Abbreviation deployments s := (winners (catalog_log (replicated s))).

Section requests.
Context `{ContentHash MembershipRecord, ContentHash CatalogRecord, ContentHash DesiredStateRecord, Labels,
  Sha256}.

Lemma apply_catalog_winners c log r prov scope out log' :
  apply_catalog c log r prov scope = Ok (out, log') →
  winners log' = winners log ∨ ∃ id, winners log' = <[deployment_id r := (id, r)]> (winners log).
Proof.
  unfold apply_catalog. destruct (Catalog.record_id r) as [id|]; [|done]. simpl.
  destruct (has_operation log id); [intros [= <- <-]; by left|].
  destruct (ensure_replication_capacity c); [|done]. simpl. destruct (Catalog.from_records _ _); [|done]. simpl.
  destruct (Catalog.apply _ _ _ _) as [[o ?]|]; [|done]. simpl.
  destruct o; try (intros [= <- <-]; by left). destruct (_ && _); [|done]. intros [= <- <-]. right. by exists id.
Qed.

(** The epoch of the local node, from its membership. *)
Definition local_epoch (identity : NodeIdentity) (s : AgentStore) : N :=
  match local_member s identity with Ok (_, owner) => Membership.owner_epoch owner | Err _ => 0 end.

(** A request of a deployment leaves the membership as it is, and the catalog too or with one
    record of the deployment it is about, of the epoch of the node. *)
Lemma handle_deployments api identity env s key body C :
  api_catalog_identity api = Some identity → permitted C key body →
  let s' := (handle api env s body).2 in
  membership_log (replicated s') = membership_log (replicated s) ∧
  (deployments s' = deployments s ∨
   ∃ id r, deployments s' = <[deployment_id r := (id, r)]> (deployments s) ∧
     C (replica_id r) (deployment_id r) (Catalog.state r) ∧ Catalog.owner_epoch r = local_epoch identity s).
Proof.
  intros Hapi Hp. destruct body; try done; cbn -[allocate_address catalog_commit].
  - split; [done|by left].
  - destruct (allocate_address _ _ _ _ _ _) as [[lease s']|e] eqn:E.
    + unfold allocate_address in E. destruct (cidr_from_str _); [|done]. simpl in E.
      destruct (mapM _ _); [|done]. simpl in E. destruct (allocate _ _ _ _ _) as [[? ?]|]; [|done].
      injection E as <- <-. split; [done|by left].
    + cbn. destruct (error_cause e); try (split; [done|by left]).
      destruct (collect_expired_address_leases _ _) as [[? ?]|]; split; try done; by left.
  - destruct (quarantine_address_lease _ _ _) as [[? ?]|]; split; try done; by left.
  - destruct (catalog_commit _ _ _ _ _ _ _ _ _ _ _) as [[r s']|] eqn:E; [|split; [done|by left]]. cbn.
    unfold catalog_commit, configured in E. rewrite Hapi in E. simpl in E.
    destruct (parse_ipv4 _) as [a|]; [|done]. simpl in E. unfold local_epoch.
    destruct (local_member s identity) as [[members owner]|]; [|done]. simpl in E.
    destruct (fenced _ _ _ _); [done|]. destruct (apply_catalog _ _ _ _ _) as [[out log]|] eqn:Ea; [|done].
    injection E as <- <-. split; [done|]. cbn.
    apply apply_catalog_winners in Ea as [Ha|[id Ha]]; [by left|right].
    eexists id, _. split; [exact Ha|]. by destruct Hp.
  - split; [done|by left].
Qed.

Lemma catalog_commit_epoch api identity c s service rep d a ports image st h r s' :
  api_catalog_identity api = Some identity →
  catalog_commit api c s service rep d a ports image st h = Ok (r, s') →
  Catalog.owner_epoch r = local_epoch identity s.
Proof.
  intros Hapi. unfold catalog_commit, configured, local_epoch. rewrite Hapi. simpl.
  destruct (parse_ipv4 a); [|done]. simpl. destruct (local_member s identity) as [[members owner]|]; [|done].
  simpl. destruct (fenced _ _ _ _); [done|]. destruct (apply_catalog _ _ _ _ _) as [[out log]|]; [|done].
  by intros [= <- _].
Qed.

Lemma handle_idempotent_deployments api identity env s key body C :
  api_catalog_identity api = Some identity → permitted C key body →
  let s' := (handle_idempotent api env s {| idempotency_key := key; request_body := body |}).2 in
  membership_log (replicated s') = membership_log (replicated s) ∧
  (deployments s' = deployments s ∨
   ∃ id r, deployments s' = <[deployment_id r := (id, r)]> (deployments s) ∧
     C (replica_id r) (deployment_id r) (Catalog.state r) ∧ Catalog.owner_epoch r = local_epoch identity s).
Proof.
  intros Hapi Hp s'. pose proof (handle_deployments api identity env s key body C Hapi Hp) as Hh.
  subst s'. unfold handle_idempotent. cbn [idempotency_key request_body]. destruct key as [k|]; [|exact Hh].
  destruct (idempotent_get _ _); [split; [done|by left]|].
  by destruct (handle api env s body) as [o s'].
Qed.

Lemma handle_idempotent_keys api env s key body k :
  key ≠ Some k → idempotency_keys s !! k = None →
  idempotency_keys (handle_idempotent api env s {| idempotency_key := key; request_body := body |}).2 !! k = None.
Proof.
  intros Hne Hk. unfold handle_idempotent. cbn [idempotency_key request_body].
  pose proof (handled_keys _ _ _ (handle_handled api env s body)) as Hkeys.
  destruct key as [k'|]; [|by rewrite Hkeys].
  destruct (idempotent_get _ _) eqn:Eg; [done|]. destruct (handle api env s body) as [o s']. simpl in *.
  unfold idempotent_put. rewrite Hkeys. unfold idempotent_get in Eg. rewrite Eg.
  rewrite lookup_insert_ne; [done|congruence].
Qed.

Lemma local_epoch_membership identity s s' :
  membership_log (replicated s') = membership_log (replicated s) → local_epoch identity s' = local_epoch identity s.
Proof. intros Hm. unfold local_epoch, local_member. by rewrite Hm. Qed.
End requests.

(** ** A replica stays served *)

Section serving.
Context `{ContentHash MembershipRecord, ContentHash CatalogRecord, ContentHash DesiredStateRecord, Labels}
  `{Host, AgentLink} `{RouteJson, LocalTree, Sha256, FloatText} `{!HashSeparates} (process_id : N) (fuel : nat)
  (ctx : EndpointDeploymentContext) (identity : NodeIdentity)
  (Hapi : api_catalog_identity link_api = Some identity) (Hrt : runtime_ok link_api).

Let replica := ctx_replica_id ctx.

(** The agent has an active and healthy deployment of the replica. *)
Definition served (replica : string) (s : AgentStore) : Prop :=
  ∃ r, r ∈ latest_catalog (catalog_log (replicated s)) ∧ replica_id r = replica ∧ is_active_healthy r = true.

(** Every database an agent answered from had one. *)
Definition served_throughout (replica : string) (log : list Event) : Prop :=
  Forall (λ e, match e with Asked _ _ _ _ after => served replica after | Executed _ _ _ => True end) log.

(** The tables are sound, and no record of the replica is of a later epoch than the node's. *)
Record deployable (s : AgentStore) : Prop := {
  dp_store : store_ok identity s;
  dp_epochs : ∀ d id r, deployments s !! d = Some (id, r) → replica_id r = replica →
    Catalog.owner_epoch r ≤ local_epoch identity s;
}.

Definition active_at (d : string) (s : AgentStore) : Prop :=
  ∃ id r, deployments s !! d = Some (id, r) ∧ replica_id r = replica ∧ is_active_healthy r = true.

(** The deployment [d] serves the replica. *)
Record serving (d : string) (w : World) : Prop := {
  sv_deployable : deployable (w_store w);
  sv_active : active_at d (w_store w);
  sv_log : served_throughout replica (w_log w);
}.
Record any_serving (w : World) : Prop := {
  as_deployable : deployable (w_store w);
  as_served : served replica (w_store w);
  as_log : served_throughout replica (w_log w);
}.

Lemma active_served d s : active_at d s → served replica s.
Proof. intros (id & r & Hw & Hr). exists r. split; [|done]. apply elem_of_latest_catalog. eauto. Qed.
Lemma serving_any d w : serving d w → any_serving w.
Proof. intros [Hd Ha Hl]. split; try done. by eapply active_served. Qed.

Lemma served_throughout_app l l' :
  served_throughout replica (l ++ l') ↔ served_throughout replica l ∧ served_throughout replica l'.
Proof. apply Forall_app. Qed.
Lemma executed_served l : Forall is_executed l → served_throughout replica l.
Proof. intros Hl. eapply Forall_impl; [exact Hl|]. by intros []. Qed.

Lemma serving_neutral d : neutral (serving d).
Proof.
  intros w w' [Hs (l & Hl & He)] [Hd Ha Hv]. split; rewrite ?Hs; try done. rewrite Hl.
  apply served_throughout_app. split; [by apply executed_served|done].
Qed.

(** The record of another deployment is not touched. *)
Definition spares (d : string) (r' d' : string) (st : DeploymentState) : Prop := d' ≠ d.

Lemma deployable_step env s key body C :
  permitted C key body → deployable s →
  deployable (handle_idempotent link_api env s {| idempotency_key := key; request_body := body |}).2.
Proof.
  intros Hp [Hs He].
  destruct (handle_idempotent_deployments link_api identity env s key body C Hapi Hp) as [Hm Hw].
  split.
  - eapply ApiProps.astep_ok; [done|done|exact Hs|]. apply ApiProps.astep_request.
  - intros d id r Hd Hr. rewrite (local_epoch_membership identity s) by done.
    destruct Hw as [Hw|(id' & r' & Hw & _ & Hr')]; rewrite Hw in Hd; [by eapply He|].
    apply lookup_insert_Some in Hd as [[_ [= <- <-]]|[_ Hd]]; [by rewrite Hr'|by eapply He].
Qed.

Lemma active_step d env s key body :
  permitted (spares d) key body → active_at d s →
  active_at d (handle_idempotent link_api env s {| idempotency_key := key; request_body := body |}).2.
Proof.
  intros Hp (id & r & Hd & Hr).
  destruct (handle_idempotent_deployments link_api identity env s key body _ Hapi Hp) as [_ Hw].
  exists id, r. split; [|done]. destruct Hw as [->|(id' & r' & -> & Hne & _)]; [done|].
  by rewrite lookup_insert_ne.
Qed.

(** Every way a request can end keeps what answered requests keep. *)
Lemma call_keeps (I : World → Prop) key body :
  (∀ w f a store, store = w_store w ∨
     store = (handle_idempotent link_api (link_env (length (w_log w))) (w_store w)
                {| idempotency_key := key; request_body := body |}).2 →
     I w → I {| w_store := store; w_machine := w_machine w;
                w_log := Asked {| idempotency_key := key; request_body := body |} f a (w_store w) store
                           :: w_log w |}) →
  keeps I (call key body).
Proof.
  intros HI w Hw. unfold call. specialize (HI w).
  destruct (handle_idempotent _ _ _ _) as [answer store] eqn:Eh. simpl in HI.
  destruct (link_fate _); [by apply HI; [left|]|by apply HI; [right|]|].
  destruct answer; by apply HI; [right|].
Qed.

Lemma serving_call d key body : permitted (spares d) key body → keeps (serving d) (call key body).
Proof.
  intros Hp. apply call_keeps. intros w f a store Hstore [Hd Ha Hl].
  assert (deployable store ∧ active_at d store) as [Hd' Ha'].
  { destruct Hstore as [->| ->]; [done|]. split; [by eapply deployable_step|by apply active_step]. }
  split; try done. simpl. constructor; [by eapply active_served|done].
Qed.

(** A commit of [d] in the state [st] is still to come: what the catalog has of [d] is of the
    replica, and the key of the commit was not used. *)
Record coming (st : DeploymentState) (d : string) (w : World) : Prop := {
  cm_deployable : deployable (w_store w);
  cm_own : ∀ id r, deployments (w_store w) !! d = Some (id, r) → replica_id r = replica;
  cm_key : idempotency_keys (w_store w) !! commit_key d st = None;
}.
Definition awaits (st : DeploymentState) (d : string) (r' d' : string) (st' : DeploymentState) : Prop :=
  d' = d → r' = replica ∧ st' ≠ st.

Lemma permitted_impl (C C' : string → string → DeploymentState → Prop) key body :
  (∀ r d st, C r d st → C' r d st) → permitted C key body → permitted C' key body.
Proof. intros HC. destruct body; try done. intros [? ?]. split; [done|auto]. Qed.

Lemma coming_neutral st d : neutral (coming st d).
Proof. intros w w' [Hs _] [Hd Ho Hk]. by split; rewrite ?Hs. Qed.

Lemma coming_call st d key body : permitted (awaits st d) key body → keeps (coming st d) (call key body).
Proof.
  intros Hp. apply call_keeps. intros w f a store Hstore [Hd Ho Hk]. split; simpl.
  - destruct Hstore as [->| ->]; [done|]. by eapply deployable_step.
  - destruct Hstore as [->| ->]; [done|]. intros id r Hr.
    destruct (handle_idempotent_deployments link_api identity (link_env (length (w_log w))) (w_store w)
      key body _ Hapi Hp) as [_ [Hw|(id' & r' & Hw & HC & _)]]; rewrite Hw in Hr; [by eapply Ho|].
    apply lookup_insert_Some in Hr as [[Hdr [= <- <-]]|[_ Hr]]; [by apply HC|by eapply Ho].
  - destruct Hstore as [->| ->]; [done|]. apply handle_idempotent_keys; [|done].
    intros ->. destruct body; try done; simpl in Hp.
    destruct Hp as [Hkey%(inj Some) HC]. apply commit_key_inj in Hkey as [<- <-]. by destruct HC.
Qed.

(** What the catalog has of a deployment. *)
Definition at_state (d : string) (st : DeploymentState) (h : HealthState) (s : AgentStore) : Prop :=
  ∃ id r, deployments s !! d = Some (id, r) ∧ replica_id r = replica ∧ Catalog.state r = st ∧ Catalog.health r = h.

Lemma at_state_active d s : at_state d Active Healthy s → active_at d s.
Proof.
  intros (id & r & Hd & Hr & Hst & Hh). exists id, r. split_and!; try done.
  unfold is_active_healthy. by rewrite Hst, Hh.
Qed.

(** A commit that is answered is in the catalog. *)
Lemma committed_state env s service d a ports image st h r s' :
  deployable s → (∀ id r, deployments s !! d = Some (id, r) → replica_id r = replica) →
  handle link_api env s (CatalogCommit service replica d a ports image st h)
    = (Ok (CatalogCommitted r), s') → at_state d st h s'.
Proof.
  intros [Hs He] Ho. cbn [handle]. unfold answer.
  destruct (catalog_commit _ _ _ _ _ _ _ _ _ _ _) as [[r0 s0]|] eqn:E; [|done]. intros [= <- <-].
  pose proof (catalog_commit_epoch _ _ _ _ _ _ _ _ _ _ _ _ _ _ Hapi E) as Hep.
  destruct (catalog_commit_installs _ _ _ _ _ _ _ _ _ _ _ _ _ _ Hs Hapi E)
    as (id & log' & addr & _ & -> & Hw & _ & _ & Hr).
  { split; [done|]. intros d' id' r' Hd' Hr'. rewrite Hep. by eapply He. }
  exists id, r0. simpl. rewrite Hw, lookup_insert_eq. split; [done|]. by rewrite Hr.
Qed.

Lemma deployable_call key body C :
  permitted C key body → keeps (λ w, deployable (w_store w)) (call key body).
Proof.
  intros Hp. apply call_keeps. intros w f a store Hstore Hd. simpl.
  destruct Hstore as [->| ->]; [done|]. by eapply deployable_step.
Qed.

Lemma commit_triple st d a ports h :
  triple (coming st d) (commit_catalog ctx replica d a ports st h)
    (λ _ w, deployable (w_store w) ∧ at_state d st h (w_store w)) (λ w, deployable (w_store w)).
Proof.
  unfold commit_catalog. set (body := CatalogCommit _ _ _ _ _ _ _ _).
  apply (triple_bind _ _ (λ resp w, deployable (w_store w) ∧
    ∀ r, resp = CatalogCommitted r → at_state d st h (w_store w))).
  2: { intros []; try (apply triple_fail; by intros w []).
       apply triple_ret. intros w [Hd Ha]. split; [done|by eapply Ha]. }
  intros w [Hs Ho Hk].
  pose proof (deployable_call (Some (commit_key d st)) body (λ _ _ _, True) (conj eq_refl I) w Hs) as Hc.
  fold (commit_key d st). revert Hc. unfold call.
  destruct (handle_idempotent _ _ _ _) as [answer store] eqn:Eh. destruct (link_fate _); try done.
  destruct answer as [resp|e]; [|done]. intros Hp. split; [done|]. intros r ->. simpl.
  unfold handle_idempotent, idempotent_get in Eh. cbn [idempotency_key request_body] in Eh. rewrite Hk in Eh.
  destruct (handle _ _ _ body) as [o s'] eqn:Ehh. injection Eh as -> <-.
  exact (committed_state _ _ _ _ _ _ _ _ _ _ _ Hs Ho Ehh).
Qed.

(** The deployment [p] serves the replica and [d] is being brought up. *)
Definition pending (p d : string) (w : World) : Prop := serving p w ∧ coming Active d w.
Definition brings_up (p d : string) (r' d' : string) (st : DeploymentState) : Prop :=
  spares p r' d' st ∧ awaits Active d r' d' st.

Lemma pending_neutral p d : neutral (pending p d).
Proof. intros w w' Ha [Hs Hc]. split; [by eapply serving_neutral|by eapply coming_neutral]. Qed.

Lemma pending_call p d key body : permitted (brings_up p d) key body → keeps (pending p d) (call key body).
Proof.
  intros Hp. apply keeps_and.
  - apply serving_call. eapply permitted_impl; [|exact Hp]. by intros ??? [].
  - apply coming_call. eapply permitted_impl; [|exact Hp]. by intros ??? [].
Qed.

Lemma activate_triple p d a ports :
  p ≠ d →
  triple (pending p d) (commit_catalog ctx replica d a ports Active Healthy)
    (λ _ w, serving p w ∧ serving d w) (serving p).
Proof.
  intros Hpd. eapply triple_conseq.
  - apply (triple_and (serving p) (coming Active d)); [|apply commit_triple].
    eapply keeps_commit; [apply serving_neutral|apply serving_call|by apply not_eq_sym].
  - done.
  - intros r w [Hp [Hd Ha]]. split; [done|]. destruct Hp as [_ _ Hl]. split; try done. by apply at_state_active.
  - by intros w [].
Qed.

(** *** The transactions *)

Definition fresh (d : string) (w : World) : Prop :=
  deployments (w_store w) !! d = None ∧ idempotency_keys (w_store w) !! commit_key d Active = None.

Lemma winner_filed s d id r : deployable s → deployments s !! d = Some (id, r) → deployment_id r = d.
Proof.
  intros [Hs _] Hd. destruct (reachable_bounded _ _ (so_catalog _ _ Hs)) as [[v Hv] _].
  by destruct (winner_in_scope _ _ _ _ _ _ Hv Hd).
Qed.

(** The answer to [CatalogList] is the catalog. *)
Lemma catalog_triple (I E : World → Prop) (Q : list CatalogRecord → World → Prop) :
  keeps I (call None CatalogList) → (∀ w, I w → E w) →
  (∀ w, I w → Q (latest_catalog (catalog_log (replicated (w_store w)))) w) → triple I catalog Q E.
Proof.
  intros Hk HE HQ. unfold catalog.
  apply (triple_bind _ _ (λ resp w, I w ∧ ∃ records, resp = CatalogRecords records ∧ Q records w)).
  2: { intros resp w [HI (records & -> & HQ')]. exact HQ'. }
  intros w Hw. specialize (Hk w Hw). revert Hk. unfold call. simpl.
  destruct (link_fate _); [by intros; apply HE|by intros; apply HE|]. intros Hi. split; [done|].
  eexists. split; [done|]. by apply HQ in Hi.
Qed.

Lemma keeps_then {A B} (I E : World → Prop) (m : M A) (f : A → M B) R :
  keeps I m → (∀ w, I w → E w) → (∀ a, triple I (f a) R E) → triple I (m ≫= f) R E.
Proof. intros Hm HE Hf. eapply triple_bind; [by eapply keeps_conseq|exact Hf]. Qed.

Lemma find_previous_triple d :
  triple (λ w, any_serving w ∧ fresh d w) catalog
    (λ records w, ∃ p, (find_previous ctx records = Some p ∧ deployment_id p ≠ d) ∧
                       pending (deployment_id p) d w) any_serving.
Proof.
  apply catalog_triple.
  - apply call_keeps. intros w f a store Hstore [[Hd Hs Hl] Hf].
    assert (store = w_store w) as -> by (by destruct Hstore as [->| ->]).
    split; [|done]. split; try done. simpl. by constructor.
  - by intros w [].
  - intros w [[Hd (r & Hr & Hrep & Hact) Hl] [Hf Hk]].
    destruct (find_previous ctx _) as [p|] eqn:Ep.
    + apply find_some in Ep as [Hp Hpr]. apply list_elem_of_In in Hp.
      apply andb_true_iff in Hpr as [Hpr Hpa]. apply bool_decide_eq_true in Hpr.
      apply elem_of_latest_catalog in Hp as (d' & id & Hp).
      pose proof (winner_filed _ _ _ _ Hd Hp) as <-.
      exists p. split; [split; [done|congruence]|]. split; [split; try done; by exists id, p|].
      split; [done|intros ??; congruence|done].
    + exfalso. eapply find_none in Ep; [|by apply list_elem_of_In]. simpl in Ep.
      rewrite Hact, bool_decide_true in Ep by done. done.
Qed.

Lemma draining_other d s r :
  deployable s → active_at d s → r ∈ latest_catalog (catalog_log (replicated s)) →
  Catalog.state r = Draining → deployment_id r ≠ d.
Proof.
  intros Hd (id & q & Hq & _ & Hact) Hr Hst Heq. apply elem_of_latest_catalog in Hr as (d' & id' & Hr).
  pose proof (winner_filed _ _ _ _ Hd Hr) as <-. rewrite Heq, Hq in Hr. injection Hr as -> ->.
  unfold is_active_healthy in Hact. by rewrite Hst in Hact.
Qed.

Lemma sweep_serving d name service : keeps (serving d) (sweep_stuck_draining_records ctx name service).
Proof.
  eapply keeps_sweep; [apply serving_neutral|apply serving_call|]. apply catalog_triple; [by apply serving_call|done|].
  intros w Hw. split; [|done]. intros r Hr Hst. destruct Hw as [Hd Ha _]. by eapply draining_other.
Qed.

Lemma retire_serving d defer release timestamp p :
  quiet timestamp → deployment_id p ≠ d → keeps (serving d) (retire ctx defer release timestamp (Some p)).
Proof.
  intros Ht Hp. eapply keeps_retire; [apply serving_neutral|apply serving_call|done|]. by intros ? [= <-].
Qed.

Lemma candidate_pending p d a ports :
  p ≠ d → keeps (pending p d) (commit_catalog ctx replica d a ports Candidate Unknown).
Proof. intros Hp. eapply keeps_commit; [apply pending_neutral|apply pending_call|]. by split. Qed.

Lemma check_pending p d run name plan undo :
  (∀ (I : World → Prop) C, neutral I → (∀ key body, permitted C key body → keeps I (call key body)) →
     C replica d Tombstoned → keeps I undo) →
  p ≠ d → keeps (pending p d) (start_and_check fuel ctx run name plan undo).
Proof.
  intros Hu Hp. eapply keeps_start_and_check; [apply pending_neutral|apply pending_call|].
  eapply Hu; [apply pending_neutral|apply pending_call|]. by split.
Qed.

Lemma pending_any p d w : pending p d w → any_serving w.
Proof. intros [Hs _]. by eapply serving_any. Qed.

(** What all three do once the candidate passed: it is made active, confirmed by [confirm],
    and takes over. *)
Lemma take_over p d a ports (confirm : M ()) defer release timestamp name service (result : string * N) :
  deployment_id p ≠ d → quiet timestamp →
  triple (λ w, serving (deployment_id p) w ∧ serving d w) confirm (λ _, serving d) any_serving →
  triple (pending (deployment_id p) d)
    (_ ← commit_catalog ctx replica d a ports Active Healthy;
     _ ← confirm;
     _ ← retire ctx defer release timestamp (Some p);
     _ ← sweep_stuck_draining_records ctx name service;
     mret result) (λ _, any_serving) any_serving.
Proof.
  intros Hp Ht Hc. eapply triple_bind.
  { eapply triple_conseq; [by apply activate_triple|done|done|apply serving_any]. }
  intros ?. eapply triple_bind; [exact Hc|intros ?].
  apply keeps_then; [by apply retire_serving|apply serving_any|intros _].
  apply keeps_then; [by apply sweep_serving|apply serving_any|intros _].
  apply triple_ret. apply serving_any.
Qed.

Lemma triple_previous {A} d (f : list CatalogRecord → M A) :
  (∀ records p, find_previous ctx records = Some p → deployment_id p ≠ d →
     triple (pending (deployment_id p) d) (f records) (λ _, any_serving) any_serving) →
  triple (λ w, any_serving w ∧ fresh d w) (catalog ≫= f) (λ _, any_serving) any_serving.
Proof.
  intros Hf. eapply triple_bind; [apply find_previous_triple|]. intros records w (p & [Hp Hd] & Hw).
  by apply (Hf records p).
Qed.

Ltac pending_step :=
  apply keeps_then;
  [first
    [ apply keeps_of_result
    | solve [apply quiet_keeps; [apply pending_neutral|auto with quiet]]
    | by apply candidate_pending
    | eapply keeps_lease; [apply pending_neutral|apply pending_call]
    | apply check_pending; [|done]; intros I C HI HC Ht;
      first [by eapply keeps_undo_candidate|by eapply keeps_release_candidate] ]
  |apply pending_any|intros ?].

Lemma new_id_triple P :
  triple (λ w, P w ∧ ∀ d, (new_deployment_id process_id ctx w).1 = Fine d → fresh d w)
    (new_deployment_id process_id ctx) (λ d w, P w ∧ fresh d w) P.
Proof.
  intros w [Hw Hf]. revert Hf. unfold new_deployment_id, system_time, mbind, M_bind.
  destruct (unix_time (w_machine w)); intros Hf; [|done]. simpl. split; [done|]. by apply Hf.
Qed.

Lemma deploy_shared_serving upstream :
  triple (λ w, any_serving w ∧ ∀ d, (new_deployment_id process_id ctx w).1 = Fine d → fresh d w)
    (deploy_shared_endpoint process_id fuel ctx upstream) (λ _, any_serving) any_serving.
Proof.
  unfold deploy_shared_endpoint. eapply triple_bind; [apply new_id_triple|]. intros d. cbn zeta.
  apply triple_previous. intros records p Hp Hd. rewrite Hp. do 4 pending_step.
  refine (take_over p d _ _ (mret ()) _ _ _ _ _ _ Hd _ _); [apply quiet_ret|].
  apply triple_ret. by intros w [].
Qed.

Lemma deploy_host_serving :
  triple (λ w, any_serving w ∧ ∀ d, (new_deployment_id process_id ctx w).1 = Fine d → fresh d w)
    (deploy_host_mode process_id fuel ctx) (λ _, any_serving) any_serving.
Proof.
  unfold deploy_host_mode. eapply triple_bind; [apply new_id_triple|]. intros d. cbn zeta.
  apply triple_previous. intros records p Hp Hd. rewrite Hp. do 4 pending_step.
  refine (take_over p d _ _ (mret ()) _ _ _ _ _ _ Hd _ _); [quiet|].
  apply triple_ret. by intros w [].
Qed.

Lemma both_neutral p d : neutral (λ w, serving p w ∧ serving d w).
Proof. intros w w' Ha [Hp Hd]. split; by eapply serving_neutral. Qed.

Lemma deploy_dynamic_serving :
  triple (λ w, any_serving w ∧ ∀ d, (new_deployment_id process_id ctx w).1 = Fine d → fresh d w)
    (deploy_dynamic_endpoint process_id fuel ctx) (λ _, any_serving) any_serving.
Proof.
  unfold deploy_dynamic_endpoint. eapply triple_bind; [apply new_id_triple|]. intros d. cbn zeta.
  apply triple_previous. intros records p Hp Hd. rewrite Hp. do 7 pending_step. pending_step.
  case_match. pending_step. apply take_over; [done|quiet|].
  destruct (ctx_skip_proxy ctx); [apply triple_ret; by intros w []|].
  apply keeps_then.
  { apply quiet_keeps; [apply both_neutral|auto with quiet]. }
  { intros w []. by eapply serving_any. }
  intros [u|e]; [apply triple_ret; by intros w []|].
  apply (triple_bind _ _ (λ _, any_serving)); [|intros ?; by apply triple_fail].
  eapply triple_conseq; [eapply (keeps_undo_candidate ctx (serving (deployment_id p)) (spares (deployment_id p)));
    [apply serving_neutral|apply serving_call|by apply not_eq_sym]|by intros w []| |apply serving_any].
  intros ?. apply serving_any.
Qed.

(** ** What a deployment that succeeds leaves *)

Definition retired (p : string) (s : AgentStore) : Prop :=
  ∀ id r, deployments s !! p = Some (id, r) → Catalog.state r = Draining ∨ Catalog.state r = Tombstoned.

(** [d] is active and the previous deployment is not. *)
Record settled (d : string) (previous : option CatalogRecord) (w : World) : Prop := {
  st_deployable : deployable (w_store w);
  st_active : active_at d (w_store w);
  st_retired : ∀ p, previous = Some p → retired (deployment_id p) (w_store w);
}.
Definition settles (d : string) (r' d' : string) (st : DeploymentState) : Prop :=
  d' ≠ d ∧ (st = Draining ∨ st = Tombstoned).

Lemma settled_neutral d previous : neutral (settled d previous).
Proof. intros w w' [Hs _] [Hd Ha Hr]. by split; rewrite ?Hs. Qed.

Lemma settled_call d previous key body :
  permitted (settles d) key body → keeps (settled d previous) (call key body).
Proof.
  intros Hp. apply call_keeps. intros w f a store Hstore [Hd Ha Hr]. destruct Hstore as [->| ->]; [by split|].
  split; simpl.
  - by eapply deployable_step.
  - apply active_step; [|done]. eapply permitted_impl; [|exact Hp]. by intros ??? [].
  - intros p Hprev id r Hw.
    destruct (handle_idempotent_deployments link_api identity (link_env (length (w_log w))) (w_store w)
      key body _ Hapi Hp) as [_ [Heq|(id' & r' & Heq & [_ HC] & _)]]; rewrite Heq in Hw; [by eapply Hr|].
    apply lookup_insert_Some in Hw as [[_ [= <- <-]]|[_ Hw]]; [done|by eapply Hr].
Qed.

(** [d] and what is to become of the previous deployment are still to be committed. *)
Definition waiting (d : string) (previous : option CatalogRecord) (w : World) : Prop :=
  coming Active d w ∧ ∀ p, previous = Some p → coming Draining (deployment_id p) w.
Definition waits (d : string) (previous : option CatalogRecord) (r' d' : string) (st : DeploymentState) : Prop :=
  awaits Active d r' d' st ∧ ∀ p, previous = Some p → awaits Draining (deployment_id p) r' d' st.

Lemma waiting_neutral d previous : neutral (waiting d previous).
Proof.
  intros w w' Ha [Hc Hp]. split; [by eapply coming_neutral|]. intros p Hprev. eapply coming_neutral; eauto.
Qed.
Lemma waiting_previous_call previous key body :
  permitted (λ r' d' st, ∀ p, previous = Some p → awaits Draining (deployment_id p) r' d' st) key body →
  keeps (λ w, ∀ p, previous = Some p → coming Draining (deployment_id p) w) (call key body).
Proof.
  intros Hp. destruct previous as [p|].
  - eapply triple_conseq; [apply (coming_call Draining (deployment_id p) key body)| | |].
    + eapply permitted_impl; [|exact Hp]. intros ??? Hw. by apply Hw.
    + intros w Hw. by apply Hw.
    + by intros ? w Hw ? [= <-].
    + by intros w Hw ? [= <-].
  - eapply triple_conseq; [apply (triple_true (call key body))|done|done|done].
Qed.

Lemma waiting_call d previous key body :
  permitted (waits d previous) key body → keeps (waiting d previous) (call key body).
Proof.
  intros Hp. apply keeps_and.
  - apply coming_call. eapply permitted_impl; [|exact Hp]. by intros ??? [].
  - apply waiting_previous_call. eapply permitted_impl; [|exact Hp]. by intros ??? [].
Qed.

Definition no_world : World → Prop := λ _, True.

(** The previous deployment is another one of the replica. *)
Definition of_replica (d : string) (previous : option CatalogRecord) : Prop :=
  ∀ p, previous = Some p → replica_id p = replica ∧ deployment_id p ≠ d.

(** [d] is active, and the previous deployment is to drain. *)
Definition handing_over (d : string) (previous : option CatalogRecord) (w : World) : Prop :=
  (deployable (w_store w) ∧ active_at d (w_store w)) ∧
  ∀ p, previous = Some p → coming Draining (deployment_id p) w.

Lemma handing_over_neutral d previous : neutral (handing_over d previous).
Proof.
  intros w w' Ha [Hc Hp]. split; [by destruct Ha as [-> _]|]. intros p Hprev. eapply coming_neutral; eauto.
Qed.

Lemma hand_over_triple d previous a ports :
  of_replica d previous →
  triple (waiting d previous) (commit_catalog ctx replica d a ports Active Healthy)
    (λ _, handing_over d previous) no_world.
Proof.
  intros Hprev. eapply triple_conseq.
  - apply (triple_and (coming Active d) (λ w, ∀ p, previous = Some p → coming Draining (deployment_id p) w)).
    + apply commit_triple.
    + eapply keeps_commit.
      * intros w w' Ha Hw p Hp. eapply coming_neutral; eauto.
      * apply waiting_previous_call.
      * intros p Hp Heq. by destruct (Hprev p Hp) as [_ []].
  - done.
  - intros r w [[Hd Ha] Hw]. split; [|done]. split; [done|by apply at_state_active].
  - done.
Qed.

Lemma sweep_settled d previous name service :
  keeps (settled d previous) (sweep_stuck_draining_records ctx name service).
Proof.
  eapply keeps_sweep; [apply settled_neutral|apply settled_call|]. apply catalog_triple; [by apply settled_call|done|].
  intros w Hw. split; [|done]. intros r Hr Hst. destruct Hw as [Hd Ha _]. split; [by eapply draining_other|by right].
Qed.

Lemma retire_settled d previous defer release timestamp :
  of_replica d previous → quiet timestamp →
  triple (handing_over d previous) (retire ctx defer release timestamp previous)
    (λ _, settled d previous) no_world.
Proof.
  intros Hprev Ht. destruct previous as [p|].
  2: { apply triple_ret. intros w [[Hd Ha] _]. by split. }
  destruct (Hprev p eq_refl) as [Hrep Hne]. unfold retire, retire_previous. rewrite Hrep.
  apply (triple_bind _ _ (λ _, settled d (Some p))); [|intros ?; by apply triple_ret].
  apply (triple_bind _ _ (λ _, settled d (Some p))).
  - eapply triple_conseq.
    + apply (triple_and (settled d None) (coming Draining (deployment_id p))); [|apply commit_triple].
      eapply keeps_commit; [apply settled_neutral|apply settled_call|]. split; [done|by left].
    + intros w [[Hd Ha] Hp]. split; [by split|by apply Hp].
    + intros r w [[_ Ha _] [Hd (id & q & Hq & _ & Hst & _)]]. split; try done. intros ? [= <-] id' q' Hq'.
      rewrite Hq in Hq'. injection Hq' as <- <-. by left.
    + done.
  - intros ?. eapply keeps_conseq; [|done|done].
    eapply keeps_remove_previous; [apply settled_neutral|apply settled_call|done|]. split; [done|by right].
Qed.

Lemma triple_fails {A B} P (m : M A) e (Q : B → World → Prop) : triple P (_ ← m; fail e) Q no_world.
Proof.
  eapply triple_bind; [eapply triple_conseq; [apply (triple_true m)|done|by intros; exact I|done]|].
  intros ?. by apply triple_fail.
Qed.

Lemma settle d previous a ports (confirm : M ()) defer release timestamp name service (result : string * N) :
  of_replica d previous → quiet timestamp → result.1 = d →
  triple (handing_over d previous) confirm (λ _, handing_over d previous) no_world →
  triple (waiting d previous)
    (_ ← commit_catalog ctx replica d a ports Active Healthy;
     _ ← confirm;
     _ ← retire ctx defer release timestamp previous;
     _ ← sweep_stuck_draining_records ctx name service;
     mret result) (λ r w, settled r.1 previous w) no_world.
Proof.
  intros Hp Ht <- Hc. eapply triple_bind; [by apply hand_over_triple|intros ?].
  eapply triple_bind; [exact Hc|intros ?]. eapply triple_bind; [by apply retire_settled|intros ?].
  apply keeps_then; [apply sweep_settled|done|intros _]. by apply triple_ret.
Qed.

Ltac waiting_step :=
  apply keeps_then;
  [first
    [ apply keeps_of_result
    | solve [apply quiet_keeps; [apply waiting_neutral|auto with quiet]]
    | eapply keeps_commit; [apply waiting_neutral|apply waiting_call|assumption]
    | eapply keeps_lease; [apply waiting_neutral|apply waiting_call]
    | eapply keeps_start_and_check; [apply waiting_neutral|apply waiting_call|];
      first [eapply keeps_undo_candidate|eapply keeps_release_candidate];
      [apply waiting_neutral|apply waiting_call|assumption] ]
  |done|intros ?].

(** The world a deployment starts in. *)
Record startable (s0 : AgentStore) (w : World) : Prop := {
  sb_store : w_store w = s0;
  sb_deployable : deployable s0;
  sb_previous : ∀ p, find_previous ctx (latest_catalog (catalog_log (replicated s0))) = Some p →
    idempotency_keys s0 !! commit_key (deployment_id p) Draining = None;
}.
Abbreviation previous_of s0 := (find_previous ctx (latest_catalog (catalog_log (replicated s0)))).

Lemma find_previous_some s p :
  deployable s → previous_of s = Some p →
  replica_id p = replica ∧ ∃ id, deployments s !! deployment_id p = Some (id, p).
Proof.
  intros Hd [Hp Hpr]%find_some. apply list_elem_of_In in Hp. apply andb_true_iff in Hpr as [Hpr _].
  apply bool_decide_eq_true in Hpr. split; [done|]. apply elem_of_latest_catalog in Hp as (d' & id & Hp).
  pose proof (winner_filed _ _ _ _ Hd Hp) as <-. eauto.
Qed.

Lemma triple_start {A} s0 d (f : list CatalogRecord → M A) Q :
  (of_replica d (previous_of s0) → waits d (previous_of s0) replica d Candidate →
   waits d (previous_of s0) replica d Tombstoned →
   triple (waiting d (previous_of s0)) (f (latest_catalog (catalog_log (replicated s0)))) Q no_world) →
  triple (λ w, startable s0 w ∧ fresh d w) (catalog ≫= f) Q no_world.
Proof.
  intros Hf. eapply (triple_bind _ _ (λ records w, records = latest_catalog (catalog_log (replicated s0)) ∧
    startable s0 w ∧ fresh d w)).
  { apply catalog_triple; [|done|].
    2: { intros w Hw. split; [by rewrite (sb_store _ _ (proj1 Hw))|done]. }
    apply call_keeps. intros w f' a store Hstore [Hs Hfr].
    assert (store = w_store w) as -> by (by destruct Hstore as [->| ->]). split; [|done]. by destruct Hs. }
  intros records w (-> & [<- Hd Hk] & [Hfr Hkey]).
  assert (of_replica d (previous_of (w_store w))) as Ho.
  { intros p Hp. destruct (find_previous_some _ _ Hd Hp) as (Hr & id & Hw). split; [done|congruence]. }
  apply Hf; [done| | |].
  1, 2: split; [by intros _|]; intros p Hp Heq; by destruct (Ho p Hp) as [_ []].
  split; [split; [done|intros ??; congruence|done]|]. intros p Hp.
  destruct (find_previous_some _ _ Hd Hp) as (Hr & id & Hw). split; [done| |by apply Hk].
  intros ?? Hw'. rewrite Hw in Hw'. by injection Hw' as <- <-.
Qed.

Abbreviation startable_fresh s0 w :=
  (startable s0 w ∧ ∀ d, (new_deployment_id process_id ctx w).1 = Fine d → fresh d w).

Lemma deploy_shared_settled upstream s0 :
  triple (λ w, startable_fresh s0 w) (deploy_shared_endpoint process_id fuel ctx upstream)
    (λ r w, settled r.1 (previous_of s0) w) no_world.
Proof.
  unfold deploy_shared_endpoint. eapply triple_bind.
  { eapply triple_conseq; [apply (new_id_triple (startable s0))|done|done|done]. }
  intros d. cbn zeta. apply triple_start. intros Ho Hc Ht. do 4 waiting_step.
  refine (settle d _ _ _ (mret ()) _ _ _ _ _ (d, _) Ho _ eq_refl _); [apply quiet_ret|]. by apply triple_ret.
Qed.

Lemma deploy_host_settled s0 :
  triple (λ w, startable_fresh s0 w) (deploy_host_mode process_id fuel ctx)
    (λ r w, settled r.1 (previous_of s0) w) no_world.
Proof.
  unfold deploy_host_mode. eapply triple_bind.
  { eapply triple_conseq; [apply (new_id_triple (startable s0))|done|done|done]. }
  intros d. cbn zeta. apply triple_start. intros Ho Hc Ht. do 4 waiting_step.
  refine (settle d _ _ _ (mret ()) _ _ _ _ _ (d, _) Ho _ eq_refl _); [quiet|]. by apply triple_ret.
Qed.

Lemma deploy_dynamic_settled s0 :
  triple (λ w, startable_fresh s0 w) (deploy_dynamic_endpoint process_id fuel ctx)
    (λ r w, settled r.1 (previous_of s0) w) no_world.
Proof.
  unfold deploy_dynamic_endpoint. eapply triple_bind.
  { eapply triple_conseq; [apply (new_id_triple (startable s0))|done|done|done]. }
  intros d. cbn zeta. apply triple_start. intros Ho Hc Ht. do 8 waiting_step. case_match. waiting_step.
  apply settle; [done|quiet|done|]. destruct (ctx_skip_proxy ctx); [by apply triple_ret|].
  apply keeps_then; [|done|].
  { apply quiet_keeps; [apply handing_over_neutral|auto with quiet]. }
  intros [u|e]; [by apply triple_ret|]. apply triple_fails.
Qed.
End serving.
