(* ===== verification/DeployGate.v ===== *)
(** The health gate of a deployment: a container is made active only after it was started and
    its check passed.  The theorems about deployments are at the end, with runs of a server
    that show what they say and what failures leave behind. *)

From S2P Require Import Prelude Text Bytes Substring Cidr Naming Schema Planner ServiceRuntime.
From S2P Require Import Membership Catalog Desired OpLog Leases Cron CronExec Replication Store Api CandidatePlan EnvResolution Session ProxyRoutes SessionLaws Cascade Transaction Deploy.
Open Scope N_scope.

Section gate.
Context (ctx : EndpointDeploymentContext).
Let container d := dynamic_container_name (ctx_project ctx) (ctx_service_name ctx) d.

(** A container of the deployment was started. *)
Definition started (d : string) (log : list Event) : Prop :=
  ∃ run r, nc_container_name run = container d ∧ Executed (shell_command run) "" (Ok r) ∈ log ∧ success r = true.

(** A check of its container passed after it was started. *)
Definition passed (d : string) (log : list Event) : Prop :=
  ∃ address port check plan r l1 l2,
    plan_for_candidate (ctx_engine ctx) (container d) address port check = Returned plan ∧
    log = l1 ++ Executed (hp_command plan) "" (Ok r) :: l2 ∧ success r = true ∧ started d l2.

(** Every commit that makes a deployment active comes after its check passed; the newest event
    of a log is its first. *)
Fixpoint gated (log : list Event) : Prop :=
  match log with
  | [] => True
  | e :: log =>
      match e with
      | Asked {| request_body := CatalogCommit _ _ d _ _ _ Active _ |} _ _ _ _ => passed d log
      | _ => True
      end ∧ gated log
  end.

Lemma started_app d l log : started d log → started d (l ++ log).
Proof. intros (run & r & ? & ? & ?). exists run, r. set_solver. Qed.
Lemma passed_app d l log : passed d log → passed d (l ++ log).
Proof.
  intros (a & p & c & plan & r & l1 & l2 & Hp & -> & Hr). exists a, p, c, plan, r, (l ++ l1), l2.
  by rewrite <-(assoc_L (++)).
Qed.
Lemma gated_app l log : Forall is_executed l → gated log → gated (l ++ log).
Proof.
  intros Hl Hg. induction Hl as [|e l He Hl IH]; [done|]. destruct e; [|done]. by split.
Qed.
End gate.

Section gate_programs.
Context `{ContentHash MembershipRecord, ContentHash CatalogRecord, ContentHash DesiredStateRecord, Labels}
  `{Host, AgentLink} `{RouteJson, LocalTree, Sha256, FloatText} (process_id : N) (fuel : nat)
  (ctx : EndpointDeploymentContext).

Definition gate (w : World) : Prop := gated ctx (w_log w).
Definition not_active (r d : string) (st : DeploymentState) : Prop := st ≠ Active.

Lemma gate_neutral : neutral gate.
Proof. intros w w' [_ (l & Hl & He)] Hw. unfold gate. rewrite Hl. by apply gated_app. Qed.

Lemma gate_call key body : permitted not_active key body → keeps gate (call key body).
Proof.
  intros Hp. apply call_keeps. intros w f a store _ Hw. split; [|done].
  destruct body; try done. by destruct Hp as [_ Hp], state.
Qed.

Lemma gate_active d replica a ports h :
  triple (λ w, gate w ∧ passed ctx d (w_log w)) (commit_catalog ctx replica d a ports Active h)
    (λ _, gate) gate.
Proof.
  unfold commit_catalog. apply (triple_bind _ _ (λ _, gate)).
  - intros w [Hg Hp]. unfold call. destruct (handle_idempotent _ _ _ _) as [answer store].
    destruct (link_fate _); [done|done|]. by destruct answer.
  - intros []; first [by apply triple_ret|by apply triple_fail].
Qed.

(** A checked command that succeeds is in the log. *)
Lemma run_checked_triple (P : World → Prop) command :
  neutral P →
  triple P (run_checked command)
    (λ r w, P w ∧ Executed command "" (Ok r) ∈ w_log w ∧ success r = true) P.
Proof.
  intros HP w Hw. unfold run_checked, execute, execute_with_input, mbind, M_bind.
  destruct (exec command "" (w_machine w)) as [o m].
  assert (P (with_machine w m [Executed command "" o])) as Hw'.
  { eapply HP; [|exact Hw]. apply quiet_with_machine. by repeat constructor. }
  destruct o as [r|e]; [|done]. unfold ensure_success. destruct (success r) eqn:Er; [|done]. simpl.
  split; [done|]. split; [|done]. by left.
Qed.

Lemma create_triple d run :
  nc_container_name run = dynamic_container_name (ctx_project ctx) (ctx_service_name ctx) d →
  triple gate (create_and_start run) (λ _ w, gate w ∧ started ctx d (w_log w)) gate.
Proof.
  intros Hname. unfold create_and_start. eapply triple_bind; [apply run_checked_triple, gate_neutral|].
  intros r. set (P := λ w, gate w ∧ started ctx d (w_log w)).
  assert (neutral P) as HP.
  { intros w w' Ha [Hg Hs]. split; [by eapply gate_neutral|]. destruct Ha as [_ (l & -> & _)].
    by apply started_app. }
  eapply triple_conseq.
  - apply (quiet_keeps P _ HP). unfold reconcile_podman_dns_address. quiet.
  - intros w (Hg & Hr & Hs). split; [done|]. by exists run, r.
  - done.
  - by intros w [].
Qed.

Lemma poll_triple {A} (P E : World → Prop) (Q : A → World → Prop) pause (look : M (option A)) n :
  neutral P → (∀ w, P w → E w) →
  triple P look (λ r w, match r with Some a => Q a w | None => P w end) E → triple P (poll n pause look) Q E.
Proof.
  intros HP HE Hl. induction n as [|n IH]; [by intros w Hw; apply HE|]. simpl.
  eapply triple_bind; [exact Hl|]. intros [a|]; [by apply triple_ret|].
  apply keeps_then; [apply quiet_keeps; [done|apply quiet_sleep]|done|by intros _].
Qed.

Lemma execute_triple (P : World → Prop) command :
  neutral P →
  triple P (attempt (execute command))
    (λ o w, P w ∧ ∃ w0, P w0 ∧ w_log w = Executed command "" o :: w_log w0) P.
Proof.
  intros HP w Hw. unfold attempt, execute, execute_with_input.
  destruct (exec command "" (w_machine w)) as [o m].
  assert (P (with_machine w m [Executed command "" o])) as Hw'.
  { eapply HP; [|exact Hw]. apply quiet_with_machine. by repeat constructor. }
  destruct o as [r|e]; simpl; split; try done; by exists w.
Qed.

Lemma health_triple d address port check plan name :
  plan_for_candidate (ctx_engine ctx) (dynamic_container_name (ctx_project ctx) (ctx_service_name ctx) d)
    address port check = Returned plan →
  triple (λ w, gate w ∧ started ctx d (w_log w)) (wait_until_healthy fuel ctx name plan)
    (λ _ w, gate w ∧ passed ctx d (w_log w)) gate.
Proof.
  intros Hplan. set (P := λ w, gate w ∧ started ctx d (w_log w)).
  assert (neutral P) as HP.
  { intros w w' Ha [Hg Hs]. split; [by eapply gate_neutral|]. destruct Ha as [_ (l & -> & _)].
    by apply started_app. }
  assert (∀ w, P w → gate w) as HPg by by intros w [].
  unfold wait_until_healthy. apply keeps_then; [apply quiet_keeps; [done|quiet]|done|intros start_time].
  apply (triple_bind _ _ (λ verdict w, match verdict with
    | None => gate w ∧ passed ctx d (w_log w) | Some _ => P w end)).
  - apply poll_triple; [done|done|]. unfold health_attempt. eapply triple_bind.
    { eapply triple_conseq; [by apply execute_triple|done|done|done]. }
    intros [r|e]; [destruct (success r) eqn:Er|].
    + apply triple_ret. intros w [[Hg _] (w0 & [_ Hs] & Hl)]. split; [done|].
      exists address, port, check, plan, r, [], (w_log w0). by rewrite Hl.
    + apply (triple_weaken P); [by intros w []|]. apply keeps_then; [apply quiet_keeps; [done|quiet]|done|].
      intros now. destruct (_ <=? _); by apply triple_ret.
    + apply (triple_weaken P); [by intros w []|]. apply keeps_then; [apply quiet_keeps; [done|quiet]|done|].
      intros now. destruct (_ <=? _); by apply triple_ret.
  - intros [e|]; [|by apply triple_ret]. apply keeps_then; [apply quiet_keeps; [done|quiet]|done|intros ?].
    by apply triple_fail.
Qed.

Lemma check_triple d run address port check undo :
  let name := dynamic_container_name (ctx_project ctx) (ctx_service_name ctx) d in
  nc_container_name run = name → keeps gate undo →
  triple gate (start_and_check fuel ctx run name (plan_for_candidate (ctx_engine ctx) name address port check) undo)
    (λ _ w, gate w ∧ passed ctx d (w_log w)) gate.
Proof.
  intros name Hname Hu. unfold start_and_check. eapply triple_bind; [by apply triple_attempt, create_triple|].
  intros [u|e].
  2: { apply (triple_bind _ _ (λ _, gate)); [done|intros ?]. by apply triple_fail. }
  destruct (plan_for_candidate _ _ _ _ _) as [plan|] eqn:Eplan.
  2: { intros w [Hw _]. exact Hw. }
  apply (triple_bind _ _ (λ p w, p = plan ∧ gate w ∧ started ctx d (w_log w))); [by apply triple_ret|].
  intros p. apply triple_pure. intros ->. eapply triple_bind; [eapply triple_attempt, health_triple, Eplan|].
  intros [v|e]; [by apply triple_ret|].
  apply (triple_bind _ _ (λ _, gate)); [done|intros ?]. by apply triple_fail.
Qed.

(** What comes after the check does not make anything active but the candidate. *)
Lemma gate_rest d replica a ports h (confirm : M ()) defer release timestamp previous name service
    (result : string * N) :
  quiet timestamp → keeps gate confirm →
  triple (λ w, gate w ∧ passed ctx d (w_log w))
    (_ ← commit_catalog ctx replica d a ports Active h;
     _ ← confirm;
     _ ← retire ctx defer release timestamp previous;
     _ ← sweep_stuck_draining_records ctx name service;
     mret result) (λ _, gate) gate.
Proof.
  intros Ht Hc. eapply triple_bind; [apply gate_active|intros ?]. apply keeps_bind; [exact Hc|intros ?].
  apply keeps_bind; [|intros ?; apply keeps_bind; [|intros ?; apply keeps_ret]].
  - by eapply keeps_retire; [apply gate_neutral|apply gate_call|done|].
  - eapply keeps_sweep; [apply gate_neutral|apply gate_call|].
    apply catalog_triple; [by apply gate_call|done|]. intros w Hw. by split.
Qed.

Ltac gate_step :=
  apply keeps_then;
  [first
    [ apply keeps_of_result
    | solve [apply quiet_keeps; [apply gate_neutral|auto with quiet]]
    | by eapply keeps_commit; [apply gate_neutral|apply gate_call|]
    | eapply keeps_lease; [apply gate_neutral|apply gate_call]
    | apply catalog_triple; [by apply gate_call|done|done] ]
  |done|intros ?].
Ltac gate_undo :=
  first [eapply keeps_undo_candidate|eapply keeps_release_candidate];
  [apply gate_neutral|apply gate_call|done].

Lemma shared_gate upstream : keeps gate (deploy_shared_endpoint process_id fuel ctx upstream).
Proof.
  unfold deploy_shared_endpoint. do 5 gate_step.
  eapply triple_bind; [apply check_triple; [done|gate_undo]|intros ?].
  refine (gate_rest _ _ _ _ _ (mret ()) _ _ _ _ _ _ _ _ _); [apply quiet_ret|apply keeps_ret].
Qed.

Lemma host_gate : keeps gate (deploy_host_mode process_id fuel ctx).
Proof.
  unfold deploy_host_mode. do 5 gate_step.
  eapply triple_bind; [apply check_triple; [done|gate_undo]|intros ?].
  refine (gate_rest _ _ _ _ _ (mret ()) _ _ _ _ _ _ _ _ _); [quiet|apply keeps_ret].
Qed.

Lemma dynamic_gate : keeps gate (deploy_dynamic_endpoint process_id fuel ctx).
Proof.
  unfold deploy_dynamic_endpoint. do 10 gate_step. case_match.
  eapply triple_bind; [apply check_triple; [done|gate_undo]|intros ?].
  apply gate_rest; [quiet|]. destruct (ctx_skip_proxy ctx); [apply keeps_ret|].
  apply keeps_bind; [apply quiet_keeps; [apply gate_neutral|auto with quiet]|].
  intros [u|e]; [apply keeps_ret|]. apply keeps_bind; [gate_undo|intros ?; apply keeps_fail].
Qed.
End gate_programs.

(** ** Polls end *)

(** Time does not go back while a command runs, and a pause takes as long as it says. *)
Class HostTime `{Host} : Prop := {
  exec_clock : ∀ command input m, clock m ≤ clock (exec command input m).2;
  sleep_clock : ∀ n m, clock m + n ≤ clock (sleep n m);
}.

Section polls.
Context `{HostTime}.

(** A program that has an end, and takes time or none. *)
Definition timely {A} (m : M A) : Prop :=
  ∀ w, (m w).1 ≠ Exhausted ∧ clock (w_machine w) ≤ clock (w_machine (m w).2).

Lemma timely_ret {A} (a : A) : timely (mret a). Proof. by split. Qed.
Lemma timely_fail {A} e : timely (fail e : M A). Proof. by split. Qed.
Lemma timely_now : timely now_monotonic. Proof. by split. Qed.
Lemma timely_bind {A B} (m : M A) (f : A → M B) : timely m → (∀ a, timely (f a)) → timely (m ≫= f).
Proof.
  intros Hm Hf w. destruct (Hm w) as [He Hc]. unfold mbind, M_bind.
  destruct (m w) as [[a| | |] w']; try done. destruct (Hf a w') as [He' Hc']. split; [done|]. simpl in Hc. lia.
Qed.
Lemma timely_attempt {A} (m : M A) : timely m → timely (attempt m).
Proof. intros Hm w. destruct (Hm w) as [He Hc]. unfold attempt. by destruct (m w) as [[a| | |] w']. Qed.
Lemma timely_execute command : timely (execute command).
Proof.
  intros w. unfold execute, execute_with_input. pose proof (exec_clock command "" (w_machine w)) as Hc.
  destruct (exec command "" (w_machine w)) as [[r|e] m]; by split.
Qed.

(** A poll whose looks end it after a deadline has enough fuel with one look for each pause
    until then. *)
Lemma poll_ends {A} (look : M (option A)) pause deadline n w :
  timely look → (∀ w, (look w).1 = Fine None → clock (w_machine (look w).2) < deadline) →
  deadline ≤ clock (w_machine w) + N.of_nat n * pause → (poll (S n) pause look w).1 ≠ Exhausted.
Proof.
  intros Ht Hl. revert w. induction n as [|n IH]; intros w Hd.
  - cbn [poll]. unfold mbind, M_bind. specialize (Ht w). specialize (Hl w).
    destruct (look w) as [[[a|]| | |] w']; try done; [|by destruct Ht].
    specialize (Hl eq_refl). destruct Ht as [_ Ht]. simpl in *. lia.
  - cbn [poll]. unfold mbind at 1, M_bind. specialize (Ht w) as [He Hc].
    destruct (look w) as [[[a|]| | |] w']; try done. unfold mbind, M_bind, sleep_for.
    apply IH. simpl in *. pose proof (sleep_clock pause (w_machine w')). lia.
Qed.
End polls.

Section poll_programs.
Context `{HostTime, RouteJson} (engine : ContainerEngine).

Lemma look_ends status missing route expected deadline timeout :
  timely status →
  timely (look_for_address status missing route expected deadline timeout) ∧
  ∀ w, (look_for_address status missing route expected deadline timeout w).1 = Fine None →
    clock (w_machine (look_for_address status missing route expected deadline timeout w).2) < deadline.
Proof.
  intros Hs. split.
  - unfold look_for_address. apply timely_bind; [done|]. intros st. destruct (negb _); [apply timely_fail|].
    destruct (serves _ _); [apply timely_ret|]. apply timely_bind; [apply timely_now|]. intros now.
    destruct (_ <=? _); [apply timely_fail|apply timely_ret].
  - intros w. unfold look_for_address, mbind, M_bind. destruct (status w) as [[st| | |] w']; try done.
    destruct (negb _); [done|]. destruct (serves _ _); [done|]. simpl.
    destruct (N.leb_spec deadline (clock (w_machine w'))); done.
Qed.

Lemma timely_route_status host path_prefix : timely (route_status engine host path_prefix).
Proof.
  unfold route_status, run_or. apply timely_bind.
  - apply timely_bind; [apply timely_execute|]. intros r. destruct (success r); [apply timely_ret|apply timely_fail].
  - intros r. unfold parsed. destruct (parse_route_status _); [apply timely_ret|apply timely_fail].
Qed.

(** The last thing done was a look at the route, and it showed the address. *)
Definition reported (host : string) (path_prefix : option string) (expected : SocketAddr) (w : World) : Prop :=
  ∃ r status l, w_log w = Executed (render_status_command engine host path_prefix) "" (Ok r) :: l ∧
    success r = true ∧ parse_route_status (stdout r) = Ok status ∧ route_exists status = true ∧
    serves (socket_to_string expected) status = true.

Lemma look_reports host path_prefix expected missing route deadline timeout :
  triple (λ _, True)
    (look_for_address (route_status engine host path_prefix) missing route (socket_to_string expected) deadline timeout)
    (λ r w, match r with Some _ => reported host path_prefix expected w | None => True end) (λ _, True).
Proof.
  intros w _. unfold look_for_address, route_status, run_or, execute, execute_with_input, mbind, M_bind.
  destruct (exec _ _ _) as [[r|e] m]; [|done]. destruct (success r) eqn:Er; [|done]. cbn.
  destruct (parse_route_status (stdout r)) as [status|e] eqn:Ep; [|done]. cbn.
  destruct (route_exists status) eqn:Ee; [|done]. cbn. destruct (serves _ _) eqn:Es.
  - cbn. by exists r, status, (w_log w).
  - cbn. by destruct (_ <=? _).
Qed.

Lemma timely_health_attempt plan start_time : timely (health_attempt plan start_time).
Proof.
  unfold health_attempt. apply timely_bind; [apply timely_attempt, timely_execute|].
  assert (∀ text : string, timely (now ← now_monotonic;
    if hp_deploy_timeout plan * SECOND <=? now - start_time then mret (Some (Some text)) else mret None)) as Hn.
  { intros text. apply timely_bind; [apply timely_now|]. intros now. destruct (_ <=? _); apply timely_ret. }
  intros [r|e]; [|apply Hn]. destruct (success r); [apply timely_ret|apply Hn].
Qed.

Lemma health_attempt_early plan start_time w :
  (health_attempt plan start_time w).1 = Fine None →
  clock (w_machine (health_attempt plan start_time w).2) < start_time + hp_deploy_timeout plan * SECOND.
Proof.
  unfold health_attempt, mbind, M_bind, attempt, execute, execute_with_input.
  destruct (exec _ _ _) as [[r|e] m]; cbn.
  - destruct (success r); [done|]. cbn. destruct (N.leb_spec (hp_deploy_timeout plan * SECOND) (clock m - start_time)); [done|].
    intros _. cbn. lia.
  - destruct (N.leb_spec (hp_deploy_timeout plan * SECOND) (clock m - start_time)); [done|]. intros _. cbn. lia.
Qed.
End poll_programs.

Module DeployProps.

Section props.
Context `{ContentHash MembershipRecord, ContentHash CatalogRecord, ContentHash DesiredStateRecord, Labels}
  `{Host, AgentLink} `{RouteJson, LocalTree, Sha256, FloatText} (process_id : N) (fuel : nat)
  (ctx : EndpointDeploymentContext).

(** A world of a deployment that is about to start: the agent's tables are sound, no record of
    the replica is of a later epoch than the node's, and the name of the deployment is new. *)
Record ready (identity : NodeIdentity) (w : World) : Prop := {
  rd_identity : api_catalog_identity link_api = Some identity;
  rd_runtime : runtime_ok link_api;
  rd_deployable : deployable ctx identity (w_store w);
  rd_fresh : ∀ d, (new_deployment_id process_id ctx w).1 = Fine d → fresh d w;
}.

Lemma deploy_endpoint_triple P (Q : string → World → Prop) (E : World → Prop) :
  (∀ upstream, triple P (deploy_shared_endpoint process_id fuel ctx upstream) (λ r, Q r.1) E) →
  triple P (deploy_dynamic_endpoint process_id fuel ctx) (λ r, Q r.1) E →
  triple P (deploy_host_mode process_id fuel ctx) (λ r, Q r.1) E →
  triple P (deploy_endpoint process_id fuel ctx)
    (λ o w, match o with Deployed d => Q d w | _ => E w end) E.
Proof.
  intros Hs Hd Hh. unfold deploy_endpoint. eapply triple_bind.
  - apply triple_attempt. case_bool_decide; [exact Hh|].
    destruct (network_mode_dependency _) as [upstream|]; [apply Hs|exact Hd].
  - intros [[d a]|e]; by apply triple_ret.
Qed.

(** C4: A deployment never takes a replica out of service.  Whatever the commands on the
    server answer, whichever requests to the agent or answers of it get lost, and wherever
    the deployment fails: a replica that had an active and healthy deployment in the catalog
    has one after every request and at the end. *)
Theorem deployment_keeps_a_replica_served `{!HashSeparates} identity w :
  ready identity w → served (ctx_replica_id ctx) (w_store w) → w_log w = [] →
  let w' := (deploy_endpoint process_id fuel ctx w).2 in
  served (ctx_replica_id ctx) (w_store w') ∧ served_throughout (ctx_replica_id ctx) (w_log w').
Proof.
  intros [Hid Hrt Hd Hf] Hs Hl.
  assert (any_serving ctx identity (deploy_endpoint process_id fuel ctx w).2) as [_ ??]; [|done].
  assert (any_serving ctx identity w) as Hw by (split; try done; rewrite Hl; constructor).
  pose proof (deploy_endpoint_triple
    (λ w, any_serving ctx identity w ∧ ∀ d, (new_deployment_id process_id ctx w).1 = Fine d → fresh d w)
    (λ _, any_serving ctx identity) (any_serving ctx identity)) as Ht.
  specialize (Ht (λ u, deploy_shared_serving process_id fuel ctx identity Hid Hrt u)
    (deploy_dynamic_serving process_id fuel ctx identity Hid Hrt)
    (deploy_host_serving process_id fuel ctx identity Hid Hrt) w (conj Hw Hf)).
  by destruct (deploy_endpoint process_id fuel ctx w) as [[[d|e|]| | |] w'].
Qed.

(** C10: What a deployment that reports success leaves: its own record is active and healthy,
    and the deployment that served the replica before, if there was one, drains or is
    tombstoned.  This is from a state that is ready: the agent has its identity and a well-formed
    subnet, its tables came about by its operations, no record of the replica is of a later epoch
    than the node's, and the name of the new deployment is new to the catalog and to the keys of
    answered requests, as is the request to drain the one before; and the hash of a catalog record
    tells its deployment, epoch and revision. *)
Theorem successful_deployment_takes_over `{!HashSeparates} identity w d :
  ready identity w →
  (∀ p, find_previous ctx (latest_catalog (catalog_log (replicated (w_store w)))) = Some p →
     idempotency_keys (w_store w) !! commit_key (deployment_id p) Draining = None) →
  (deploy_endpoint process_id fuel ctx w).1 = Fine (Deployed d) →
  let s' := w_store (deploy_endpoint process_id fuel ctx w).2 in
  active_at ctx d s' ∧
  ∀ p, find_previous ctx (latest_catalog (catalog_log (replicated (w_store w)))) = Some p →
    retired (deployment_id p) s'.
Proof.
  intros [Hid Hrt Hd Hf] Hk Hout. assert (startable ctx identity (w_store w) w) as Hst by by split.
  pose proof (deploy_endpoint_triple
    (λ v, startable ctx identity (w_store w) v ∧
       ∀ d, (new_deployment_id process_id ctx v).1 = Fine d → fresh d v)
    (λ d, settled ctx identity d (find_previous ctx (latest_catalog (catalog_log (replicated (w_store w))))))
    no_world) as Ht.
  specialize (Ht (λ u, deploy_shared_settled process_id fuel ctx identity Hid Hrt u _)
    (deploy_dynamic_settled process_id fuel ctx identity Hid Hrt _)
    (deploy_host_settled process_id fuel ctx identity Hid Hrt _) w
    (conj Hst Hf)).
  destruct (deploy_endpoint process_id fuel ctx w) as [o w']. simpl in Hout. subst o. by destruct Ht as [_ ??].
Qed.

(** C5: Only a container that was started and passed its check becomes active: in the log of
    a deployment, however it went, each request that commits a deployment as active comes
    after a check of that deployment's container that succeeded, which comes after a start of
    it that succeeded. *)
Theorem only_checked_containers_become_active w :
  w_log w = [] → gated ctx (w_log (deploy_endpoint process_id fuel ctx w).2).
Proof.
  intros Hl. assert (gate ctx w) as Hg by (unfold gate; by rewrite Hl).
  pose proof (deploy_endpoint_triple (gate ctx) (λ _, gate ctx) (gate ctx)
    (λ u, shared_gate process_id fuel ctx u) (dynamic_gate process_id fuel ctx)
    (host_gate process_id fuel ctx) w Hg) as Ht.
  by destruct (deploy_endpoint process_id fuel ctx w) as [[[d|e|]| | |] w'].
Qed.

(** Waiting for the proxy ends.  With one look for each half second of the timeout and
    one more, the wait for an address never runs out of looks: it ends with an error, or with
    success right after the proxy reported that address as a healthy backend of the route. *)
Theorem activation_wait_ends `{!HostTime} engine n host path_prefix expected timeout w :
  2 * timeout ≤ N.of_nat n →
  let out := verify_route_address engine (S n) host path_prefix expected timeout w in
  out.1 ≠ Exhausted ∧ (out.1 = Fine () → reported engine host path_prefix expected out.2).
Proof.
  intros Hn out. subst out. unfold verify_route_address. cbn [mbind M_bind]. unfold mbind, M_bind, now_monotonic.
  set (look := look_for_address _ _ _ _ _ _). split.
  - destruct (look_ends (route_status engine host path_prefix) ("Proxy route for host '" +:+ host +:+ "'")
      ("host '" +:+ host +:+ "'") (socket_to_string expected) (clock (w_machine w) + timeout * SECOND) timeout
      (timely_route_status engine host path_prefix)) as [Ht He].
    apply (poll_ends look POLL_PAUSE (clock (w_machine w) + timeout * SECOND)); [exact Ht|exact He|].
    unfold SECOND, POLL_PAUSE. lia.
  - pose proof (poll_triple (λ _, True) (λ _, True) (λ _, reported engine host path_prefix expected)
      POLL_PAUSE look (S n)) as Hp.
    specialize (Hp ltac:(done) ltac:(done) (look_reports engine host path_prefix expected _ _ _ _) w I).
    destruct (poll (S n) POLL_PAUSE look w) as [[a| | |] w']; done.
Qed.

(** The health gate ends: with a look for each interval of the timeout and one more it
    never runs out of looks. *)
Theorem health_gate_ends `{!HostTime} n name plan w :
  hp_deploy_timeout plan ≤ N.of_nat n * hp_interval plan →
  (wait_until_healthy (S n) ctx name plan w).1 ≠ Exhausted.
Proof.
  intros Hn. unfold wait_until_healthy. unfold mbind at 1, M_bind, now_monotonic.
  set (look := health_attempt plan (clock (w_machine w))). unfold mbind at 1, M_bind.
  assert ((poll (S n) (hp_interval plan * SECOND) look w).1 ≠ Exhausted) as Hp.
  { apply (poll_ends look _ (clock (w_machine w) + hp_deploy_timeout plan * SECOND)).
    - apply timely_health_attempt.
    - intros v. apply health_attempt_early.
    - unfold SECOND. nia. }
  destruct (poll _ _ look w) as [[[e|]| | |] w']; try done.
  apply (timely_bind (attempt (logs_tail (ctx_engine ctx) name 50))); [|intros ?; apply timely_fail].
  apply timely_attempt. unfold logs_tail. apply timely_bind; [apply timely_execute|]. intros ?. apply timely_ret.
Qed.
End props.

(** *** A server *)

(** A server on which the commands that [fails] names fail and the others succeed, each taking
    a second. *)
Definition sample_host (fails : string → bool) : Host := {|
  machine := N;
  exec command _ m :=
    (Ok {| stdout := "running"; stderr := ""; success := negb (fails command);
           code := Some (if fails command then 1 else 0) |}, m + SECOND);
  exec_stream command m := (Ok [Ok (Exit (if fails command then 1 else 0))], m + SECOND);
  clock m := m; sleep n m := m + n;
  unix_time _ := Ok 1700000000000000000;
  session_host := "10.0.0.1"; error_message _ := "refused"; response_debug _ := "" |}.
Definition sample_link : AgentLink :=
  {| link_api := ApiProps.sample_api; link_env _ := ApiProps.sample_env; link_fate _ := Delivered |}.
Definition sample_json : RouteJson :=
  {| parse_routes _ := Ok []; parse_tcp_routes _ := Ok [];
     parse_route_status _ :=
       Ok {| route_exists := true;
             route_backends := [{| backend_address := "100.64.0.4:80"; backend_healthy := true |}] |};
     parse_tcp_route_status _ := Err "" |}.
Definition sample_tree : LocalTree := {| read_bytes _ := Err ""; dir_exists _ := false; archive _ := Err "" |}.
Definition sample_float : FloatText := {| float_to_string _ := "1" |}.

Definition sample_server_plan : ServerPlan :=
  let subnet := {| network := 1681915904; prefix := 21 |} in
  {| sp_name := "a"; sp_public_host := "10.0.0.1"; sp_management_address := 3323068417;
     sp_container_subnet := subnet; sp_bridge_gateway := 1681915905; sp_dns_address := 1681915906;
     sp_proxy_address := 1681915907; sp_wireguard_port := 51820; sp_wireguard_interface := "jw-demo";
     sp_bridge_interface := "jb-demo"; sp_bridge_name := "jiji-demo"; sp_peers := []; sp_routes := [];
     sp_firewall := {| local_container_subnet := subnet; remote_container_subnets := [] |} |}.

Definition sample_service (stop_first : bool) : Service :=
  {| service_image := Some "web:2"; service_build := None; service_servers := ["a"];
     service_scale := 1; service_ports := []; service_volumes := []; service_files := [];
     service_directories := []; service_environment := {| env_clear := []; env_secrets := [] |};
     service_command := None; service_proxy := None; service_retain := 3; service_network_mode := "bridge";
     service_cpus := None; service_memory := None; service_gpus := None; service_devices := [];
     service_privileged := false; service_cap_add := []; service_stop_first := stop_first;
     service_restart := None; service_crons := ∅ |}.

Definition sample_ctx (stop_first : bool) : EndpointDeploymentContext :=
  {| ctx_project := "demo"; ctx_server := sample_server_plan; ctx_service_name := "web";
     ctx_replica_id := "web-0"; ctx_service := sample_service stop_first; ctx_engine := Docker;
     ctx_image := "web:2"; ctx_resolved_env := {| env_values := ∅; secret_keys := ∅; control_keys := ∅ |};
     ctx_project_root := "/srv"; ctx_skip_proxy := true; ctx_max_dir_upload_bytes := 0 |}.

(** The replica is served by the deployment [d1]. *)
Definition sample_served : AgentStore :=
  (ApiProps.sample_handle ApiProps.sample_store (ApiProps.sample_commit "d1" Active)).2.
Definition sample_world (fails : string → bool) : @World (sample_host fails) :=
  @Build_World (sample_host fails) sample_served 0 [].

Definition sample_deploy (fails : string → bool) (stop_first : bool) :
    flow EndpointOutcome * @World (sample_host fails) :=
  @deploy_endpoint MembershipProps.sample_hash ApiProps.commit_hash DesiredProps.sample_hash
    LeasesProps.sample_labels (sample_host fails) sample_link sample_json sample_tree constant_sha256
    sample_float 1 20 (sample_ctx stop_first) (sample_world fails).

(** The name of the new deployment. *)
Definition zeros : string := String.concat "" (replicate 64 "0").

Lemma sample_served_deployable :
  @deployable MembershipProps.sample_hash ApiProps.commit_hash (sample_ctx false) ApiProps.sample_node sample_served.
Proof.
  split.
  - eapply (@handled_ok MembershipProps.sample_hash ApiProps.commit_hash ApiProps.sample_api).
    + reflexivity.
    + intros mesh Hm. discriminate Hm.
    + apply ApiProps.sample_store_ok.
    + apply (@handle_handled MembershipProps.sample_hash ApiProps.commit_hash DesiredProps.sample_hash
        constant_sha256 LeasesProps.sample_labels).
  - intros d id r Hd _.
    assert (map_Forall (λ _ p, Catalog.owner_epoch p.2 ≤
      @local_epoch MembershipProps.sample_hash ApiProps.sample_node sample_served) (deployments sample_served)) as Hall.
    { refine (bool_decide_unpack _ _). vm_compute. exact I. }
    apply (Hall d (id, r) Hd).
Qed.

Lemma sample_ready fails :
  @ready MembershipProps.sample_hash ApiProps.commit_hash (sample_host fails) sample_link constant_sha256
    1 (sample_ctx false) ApiProps.sample_node (sample_world fails).
Proof.
  split; [reflexivity|intros mesh Hm; discriminate Hm|apply sample_served_deployable|].
  intros d Hd. vm_compute in Hd. injection Hd as <-. split; vm_compute; reflexivity.
Qed.

Lemma sample_is_served : served "web-0" sample_served.
Proof.
  assert (Exists (λ r, replica_id r = "web-0" ∧ is_active_healthy r = true)
    (latest_catalog (catalog_log (replicated sample_served)))) as Hex.
  { refine (bool_decide_unpack _ _). vm_compute. exact I. }
  apply Exists_exists in Hex as (r & Hr & ? & ?). by exists r.
Qed.

(** The witness is a deployment whose health check fails. *)
Definition unhealthy (command : string) : bool := contains_str "inspect demo-web-000000000000 " command.

Lemma deployment_keeps_a_replica_served_witness :
  (∃ e, (sample_deploy unhealthy false).1 = Fine (DeployFailed e)) ∧
  served "web-0" (w_store (sample_deploy unhealthy false).2) ∧
  served_throughout "web-0" (w_log (sample_deploy unhealthy false).2).
Proof.
  split; [eexists; vm_compute; reflexivity|].
  apply (@deployment_keeps_a_replica_served MembershipProps.sample_hash ApiProps.commit_hash
    DesiredProps.sample_hash LeasesProps.sample_labels (sample_host unhealthy) sample_link sample_json sample_tree
    constant_sha256 sample_float 1 20 (sample_ctx false) ApiProps.commit_hash_separates ApiProps.sample_node
    (sample_world unhealthy)).
  - apply sample_ready.
  - apply sample_is_served.
  - reflexivity.
Defined.

Definition all_well (command : string) : bool := false.

Lemma successful_deployment_takes_over_witness :
  active_at (sample_ctx false) zeros (w_store (sample_deploy all_well false).2) ∧
  retired "d1" (w_store (sample_deploy all_well false).2).
Proof.
  destruct (@successful_deployment_takes_over MembershipProps.sample_hash ApiProps.commit_hash
    DesiredProps.sample_hash LeasesProps.sample_labels (sample_host all_well) sample_link sample_json sample_tree
    constant_sha256 sample_float 1 20 (sample_ctx false) ApiProps.commit_hash_separates ApiProps.sample_node
    (sample_world all_well) zeros) as [Ha Hr].
  - apply sample_ready.
  - intros p Hp. vm_compute in Hp. injection Hp as <-. vm_compute. reflexivity.
  - vm_compute. reflexivity.
  - split; [exact Ha|]. destruct (find_previous (sample_ctx false)
      (latest_catalog (catalog_log (replicated sample_served)))) as [p|] eqn:Ep; [|vm_compute in Ep; discriminate Ep].
    pose proof (Hr p Ep) as Hp. vm_compute in Ep. injection Ep as <-. exact Hp.
Defined.

Lemma only_checked_containers_become_active_witness :
  gated (sample_ctx false) (w_log (sample_deploy all_well false).2).
Proof.
  apply (@only_checked_containers_become_active MembershipProps.sample_hash ApiProps.commit_hash
    DesiredProps.sample_hash LeasesProps.sample_labels (sample_host all_well) sample_link sample_json sample_tree
    constant_sha256 sample_float 1 20 (sample_ctx false) (sample_world all_well)).
  reflexivity.
Defined.

Lemma sample_time fails : @HostTime (sample_host fails).
Proof. split; simpl; intros; lia. Qed.

Lemma activation_wait_ends_witness :
  let expected := {| socket_ip := 1681915908; socket_port := 80 |} in
  (@verify_route_address (sample_host all_well) sample_json Docker 61 "h" None expected 30 (sample_world all_well)).1
    ≠ Exhausted.
Proof.
  apply (@activation_wait_ends (sample_host all_well) sample_json (sample_time all_well) Docker 60 "h" None
    {| socket_ip := 1681915908; socket_port := 80 |} 30 (sample_world all_well)).
  reflexivity.
Defined.

Lemma health_gate_ends_witness :
  (@wait_until_healthy (sample_host unhealthy) 16 (sample_ctx false) "demo-web-000000000000"
     {| hp_command := "docker inspect demo-web-000000000000 "; hp_interval := 2; hp_deploy_timeout := 30 |}
     (sample_world unhealthy)).1 ≠ Exhausted.
Proof.
  apply (@health_gate_ends (sample_host unhealthy) (sample_ctx false) (sample_time unhealthy) 15). reflexivity.
Defined.

(** *** What a failure leaves *)

(** An image that cannot be pulled: the deployment ends with the address of the candidate
    leased, under a deployment the catalog has never heard of.  Only leases in quarantine are
    ever collected, so the address is lost to the server. *)
Definition no_image (command : string) : bool :=
  contains_str "image inspect" command || contains_str " pull " command.

Theorem failed_preparation_leaks_the_lease :
  (∃ e, (sample_deploy no_image false).1 = Fine (DeployFailed e)) ∧
  let s := w_store (sample_deploy no_image false).2 in
  lease_state <$> leases (lease_tables (agent s)) !! zeros = Some "active" ∧ deployments s !! zeros = None.
Proof. split; [eexists; vm_compute; reflexivity|]. vm_compute. by split. Qed.

(** With [stop_first] it also leaves the previous container stopped: it was stopped before the
    image was looked for, and nothing starts it again, while the catalog goes on naming it. *)
Definition ran (command : string) (log : list Event) : bool :=
  existsb (λ e, match e with Executed c _ _ => bool_decide (c = command) | _ => false end) log.

Theorem failed_preparation_leaves_the_service_stopped :
  let w := (sample_deploy no_image true).2 in
  (∃ e, (sample_deploy no_image true).1 = Fine (DeployFailed e)) ∧
  ran "docker stop demo-web-d1" (w_log w) = true ∧ ran "docker start demo-web-d1" (w_log w) = false.
Proof. split; [eexists; vm_compute; reflexivity|]. vm_compute. by split. Qed.

(** An error is kept under the key of its request as an answer is.  A commit the agent refused
    for want of space is refused for ever after under that key, though the same commit with
    another key succeeds: the sweep of drained deployments, which always uses the same keys,
    cannot make up for it. *)
Theorem refused_commit_stays_refused :
  let full := {| env_capacity := {| soft_quota_bytes := Some 1; page_count := 8; page_size := 4096 |};
                 env_schema_version := 12; env_version := "1"; env_pid := 7; env_uptime := 0; env_run_id := "run" |} in
  let request key := {| idempotency_key := Some key; request_body := ApiProps.sample_commit "d1" Tombstoned |} in
  let handle := @handle_idempotent MembershipProps.sample_hash ApiProps.commit_hash DesiredProps.sample_hash
    LeasesProps.sample_labels ApiProps.sample_api in
  let '(first, s) := handle full sample_served (request "catalog:d1:Tombstoned") in
  is_ok first = false ∧ is_ok (handle ApiProps.sample_env s (request "catalog:d1:Tombstoned")).1 = false ∧
  is_ok (handle ApiProps.sample_env s (request "other")).1 = true.
Proof. vm_compute. done. Qed.
End DeployProps.
