(* ===== verification/Daemon.v ===== *)
(** The agent's own process: the programs it runs on its host, the database it owns, and its
    configuration ([jiji-agent/src/runtime.rs]: [MeshConfig], [LocalRuntimeConfig]; the
    command helpers of [local_reconcile.rs] and [wireguard_bringup.rs]).

    A task of the agent is a function on a [Process]: the tables of the database, the host,
    and the log of the commands that were run.  What a command does to the host, and the
    clock, are parameters ([OperatingSystem]).  A task ends with a value, with an error of
    its own, or in a panic. *)

From S2P Require Import Prelude Text Bytes Substring Cidr Naming Schema Planner ServiceRuntime.
From S2P Require Import Membership Catalog Desired OpLog Leases Cron CronExec Replication Store Api.
Open Scope N_scope.

Record Output := { output_stdout : string; output_stderr : string; output_success : bool }.

(** [spawn argv input] runs a program with an input and waits for it; [resolve_socket] is the
    first address [to_socket_addrs] gives. *)
Class OperatingSystem := {
  host : Type;
  spawn : list string → string → host → result string Output * host;
  unix_timestamp : host → N;
  resolve_socket : string → option SocketAddr;
}.

Record Spawned := { spawned_argv : list string; spawned_outcome : result string Output }.

(** The tables the API sees and those only the agent's own tasks use. *)
Record Database := {
  db_store : AgentStore;
  db_peer_cache : PeerCache;
  db_liveness : gmap string string;
}.
Definition with_db_store (d : Database) (s : AgentStore) : Database :=
  {| db_store := s; db_peer_cache := db_peer_cache d; db_liveness := db_liveness d |}.
Definition with_peer_cache (d : Database) (c : PeerCache) : Database :=
  {| db_store := db_store d; db_peer_cache := c; db_liveness := db_liveness d |}.

Record Process `{OperatingSystem} := {
  p_database : Database;
  p_host : host;
  p_commands : list Spawned;
}.

(** Tasks: state, errors and panics. *)
Definition Task `{OperatingSystem} (E A : Type) : Type := Process → result (fault E) A * Process.

#[export] Instance Task_ret `{OperatingSystem} E : MRet (Task E) := λ A a p, (Ok a, p).
#[export] Instance Task_bind `{OperatingSystem} E : MBind (Task E) := λ A B f m p,
  match m p with
  | (Ok a, p) => f a p
  | (Err e, p) => (Err e, p)
  end.

Section tasks.
Context `{OperatingSystem}.

Definition throw {E A} (e : E) : Task E A := λ p, (Err (Failed e), p).
Definition lift {E A} (r : result (fault E) A) : Task E A := λ p, (r, p).
Definition lift_result {E A} (r : result E A) : Task E A := lift (fallible r).
(** [map_err]. *)
Definition mapping_error {E F A} (f : E → F) (m : Task E A) : Task F A := λ p,
  match m p with
  | (Ok a, p) => (Ok a, p)
  | (Err (Failed e), p) => (Err (Failed (f e)), p)
  | (Err Panic, p) => (Err Panic, p)
  end.
(** The outcome as a value: [match m {..}], [if let Err(error) = m]. *)
Definition outcome_of {E F A} (m : Task E A) : Task F (result E A) := λ p,
  match m p with
  | (Ok a, p) => (Ok (Ok a), p)
  | (Err (Failed e), p) => (Ok (Err e), p)
  | (Err Panic, p) => (Err Panic, p)
  end.
(** [let _ = m]. *)
Definition ignoring {E F A} (m : Task E A) : Task F () := outcome_of m ≫= λ _, mret ().

Definition database {E} : Task E Database := λ p, (Ok (p_database p), p).
Definition set_database {E} (d : Database) : Task E () := λ p,
  (Ok (), {| p_database := d; p_host := p_host p; p_commands := p_commands p |}).
Definition timestamp {E} : Task E N := λ p, (Ok (unix_timestamp (p_host p)), p).

(** [Command::new(..).args(..).output()]. *)
Definition command_output (argv : list string) (input : string) : Task string Output := λ p,
  let '(outcome, h) := spawn argv input (p_host p) in
  (fallible outcome,
   {| p_database := p_database p; p_host := h;
      p_commands := p_commands p ++ [{| spawned_argv := argv; spawned_outcome := outcome |}] |}).
Definition output (argv : list string) : Task string Output := command_output argv "".

(** [for x in l { .. }] with [?] inside. *)
Fixpoint for_each {E A} (f : A → Task E ()) (l : list A) : Task E () :=
  match l with
  | [] => mret ()
  | a :: l => _ ← f a; for_each f l
  end.

Definition error_text (o : Output) : string := trim (output_stderr o).

(** [local_reconcile.rs] and [wireguard_bringup.rs]. *)
Definition command_ok {E} (argv : list string) : Task E bool :=
  r ← outcome_of (output argv);
  mret (match r with Ok o => output_success o | Err _ => false end).
Definition command_required (argv : list string) : Task string () :=
  o ← output argv;
  if output_success o then mret () else throw (error_text o).
End tasks.

(** ** Configuration *)

Record ProxyRouteSpec := {
  prs_host : string;
  prs_path_prefix : option string;
  prs_name : string;
  prs_port : N;
  prs_apply_args : list string;
}.

Record TcpRouteSpec := {
  trs_listen_port : N;
  trs_name : string;
  trs_port : N;
  trs_apply_args : list string;
}.

Record LocalRuntimeConfig := {
  lr_bridge_network : string;
  lr_bridge_interface : string;
  lr_proxy_address : N;
  lr_proxy_routes : list ProxyRouteSpec;
  lr_tcp_routes : list TcpRouteSpec;
  lr_container_subnet : Ipv4Cidr;
  lr_bridge_gateway : N;
  lr_container_cidr : Ipv4Cidr;
  lr_wireguard_port : N;
  lr_peer_public_ips : list N;
  lr_public_host : string;
}.

(** [MeshConfig]; [CronExec] has the fields a cron run reads. *)
Record NodeConfig := {
  nd_project_id : string;
  nd_recovery_epoch : N;
  nd_node_id : string;
  nd_wireguard_interface : string;
  nd_wireguard_private_key_path : string;
  nd_replication_bind : SocketAddr;
  nd_dns_bind_address : N;
  nd_local_runtime : LocalRuntimeConfig;
  nd_reconcile_interval_secs : N;
  nd_store_soft_quota_bytes : N;
  nd_compaction_interval_secs : N;
  nd_dns_forwarders : list N;
}.

Definition mesh_of (c : NodeConfig) : CronExec.MeshConfig :=
  {| mesh_bridge_gateway := lr_bridge_gateway (nd_local_runtime c);
     mesh_dns_bind_address := nd_dns_bind_address c;
     mesh_proxy_address := lr_proxy_address (nd_local_runtime c);
     mesh_container_subnet := lr_container_subnet (nd_local_runtime c) |}.

Definition REACHABILITY_TIMEOUT_INTERVALS : N := 3.
Definition DEFAULT_STORE_SOFT_QUOTA_BYTES : N := 64 * 1024 * 1024.
Definition DEFAULT_COMPACTION_INTERVAL_SECS : N := 300.
Definition default_interval : N := 10.
(** 1.1.1.1 and 8.8.8.8. *)
Definition default_dns_forwarders : list N := [16843009; 134744072].

Inductive RuntimeError :=
| RuntimeIo (e : string)
| InvalidConfig
| WrongProject
| RuntimeStore
| WireGuardInspect (e : string)
| WireGuardApply (e : string).

(** [saturating_mul]. *)
Definition peer_reachability_timeout_secs (c : NodeConfig) : N :=
  N.min (nd_reconcile_interval_secs c * REACHABILITY_TIMEOUT_INTERVALS) u64_max.

Definition validate_config (c : NodeConfig) (expected_project : string) : result RuntimeError () :=
  let local := nd_local_runtime c in
  if negb (bool_decide (nd_project_id c = expected_project)) then Err WrongProject
  else if is_empty (nd_project_id c) || is_empty (nd_node_id c) || is_empty (nd_wireguard_interface c)
       || is_empty (nd_wireguard_private_key_path c) || is_empty (lr_bridge_network local)
       || is_empty (lr_bridge_interface local) || (lr_wireguard_port local =? 0)
       || is_empty (lr_public_host local) || (nd_recovery_epoch c =? 0)
       || (nd_reconcile_interval_secs c =? 0) || (nd_store_soft_quota_bytes c =? 0)
       || (nd_compaction_interval_secs c =? 0) then Err InvalidConfig
  else Ok ().

(** [replication_bind.ip()] is an IPv4 address, or the program stops. *)
Definition config_management_address {E} (c : NodeConfig) : result (fault E) N :=
  match nd_replication_bind c with SocketV4 ip _ => Ok ip | SocketV6 _ _ => Err Panic end.

Definition config_identity (c : NodeConfig) : NodeIdentity :=
  {| identity_project_id := nd_project_id c; identity_recovery_epoch := nd_recovery_epoch c;
     identity_node_id := nd_node_id c |}.
Definition config_scope (c : NodeConfig) : MembershipScope :=
  {| scope_project_id := nd_project_id c; scope_recovery_epoch := nd_recovery_epoch c |}.

(** ** [Display] of addresses *)

Definition hex_digit (n : N) : ascii := ascii_of_N (if n <? 10 then n + 48 else n + 87).
Fixpoint drop_zeros (l : list N) : list N :=
  match l with 0 :: ((_ :: _) as l') => drop_zeros l' | _ => l end.
(** [{:x}] of a group of 16 bits. *)
Definition hex_group (n : N) : string :=
  String.string_of_list_ascii
    (hex_digit <$> drop_zeros [n / 4096; n / 256 mod 16; n / 16 mod 16; n mod 16]).

Definition groups (ip : N) : list N :=
  (λ i, N.shiftr ip (112 - 16 * i) mod 65536) <$> [0; 1; 2; 3; 4; 5; 6; 7].

(** The first of the longest runs of zero groups: where it starts and its length. *)
Fixpoint zero_run (i : nat) (current longest : nat * nat) (l : list N) : nat * nat :=
  match l with
  | [] => longest
  | 0 :: l =>
      let current := (if bool_decide (current.2 = 0%nat) then i else current.1, S current.2) in
      zero_run (S i) current (if bool_decide (longest.2 < current.2)%nat then current else longest) l
  | _ :: l => zero_run (S i) (0%nat, 0%nat) longest l
  end.

Definition ipv6_to_string (ip : N) : string :=
  let l := groups ip in
  let colons l := String.concat ":" (hex_group <$> l) in
  if bool_decide (take 6 l = [0; 0; 0; 0; 0; 65535]) then "::ffff:" +:+ ipv4_to_string (ip mod 2 ^ 32)
  else
    let '(start, len) := zero_run 0 (0%nat, 0%nat) (0%nat, 0%nat) l in
    if bool_decide (1 < len)%nat
    then colons (take start l) +:+ "::" +:+ colons (drop (start + len) l)
    else colons l.

Definition socket_addr_to_string (a : SocketAddr) : string :=
  match a with
  | SocketV4 ip port => ipv4_to_string ip +:+ ":" +:+ pretty port
  | SocketV6 ip port => "[" +:+ ipv6_to_string ip +:+ "]:" +:+ pretty port
  end.

Lemma ipv6_examples :
  ipv6_to_string 0 = "::" ∧ ipv6_to_string 1 = "::1" ∧
  ipv6_to_string (N.shiftl 0x20010db8 96 + 0xff) = "2001:db8::ff" ∧
  ipv6_to_string (N.shiftl 0xffff 32 + 16843009) = "::ffff:1.1.1.1" ∧
  ipv6_to_string (N.shiftl 0x10002000300040005000 48) = "1000:2000:3000:4000:5000::".
Proof. by vm_compute. Qed.

(** ** Tasks that leave the database alone *)

Section frame.
Context `{OperatingSystem}.

Definition keeps_database {E A} (m : Task E A) : Prop := ∀ p, p_database (m p).2 = p_database p.

Lemma task_keeps_ret {E A} (a : A) : keeps_database (E := E) (mret a).
Proof. done. Qed.
Lemma keeps_throw {E A} (e : E) : keeps_database (A := A) (throw e).
Proof. done. Qed.
Lemma keeps_lift {E A} (r : result (fault E) A) : keeps_database (lift r).
Proof. done. Qed.
Lemma keeps_database_read {E} : keeps_database (E := E) database.
Proof. done. Qed.
Lemma keeps_timestamp {E} : keeps_database (E := E) timestamp.
Proof. done. Qed.
Lemma task_keeps_bind {E A B} (m : Task E A) (f : A → Task E B) :
  keeps_database m → (∀ a, keeps_database (f a)) → keeps_database (m ≫= f).
Proof.
  intros Hm Hf p. unfold mbind, Task_bind. specialize (Hm p).
  destruct (m p) as [[a|e] p1]; simpl in *; [|done]. by rewrite Hf.
Qed.
Lemma keeps_mapping_error {E F A} (f : E → F) (m : Task E A) :
  keeps_database m → keeps_database (mapping_error f m).
Proof. intros Hm p. unfold mapping_error. specialize (Hm p). by destruct (m p) as [[a|[e|]] p1]. Qed.
Lemma keeps_outcome_of {E F A} (m : Task E A) : keeps_database m → keeps_database (outcome_of (F := F) m).
Proof. intros Hm p. unfold outcome_of. specialize (Hm p). by destruct (m p) as [[a|[e|]] p1]. Qed.
Lemma keeps_ignoring {E F A} (m : Task E A) : keeps_database m → keeps_database (ignoring (F := F) m).
Proof. intros Hm. apply task_keeps_bind; [by apply keeps_outcome_of|]. intros. apply task_keeps_ret. Qed.
Lemma keeps_command_output argv input : keeps_database (command_output argv input).
Proof. intros p. unfold command_output. by destruct (spawn _ _ _). Qed.
Lemma keeps_for_each {E A} (f : A → Task E ()) l : (∀ a, keeps_database (f a)) → keeps_database (for_each f l).
Proof. intros Hf. induction l as [|a l IH]; [done|]. by apply task_keeps_bind. Qed.
End frame.

Create HintDb daemon.
#[export] Hint Resolve task_keeps_ret keeps_throw keeps_lift keeps_database_read keeps_timestamp task_keeps_bind
  keeps_mapping_error keeps_outcome_of keeps_ignoring keeps_command_output keeps_for_each : daemon.

(** Proves [keeps_database] of a task made of commands. *)
Ltac keeps :=
  repeat match goal with
  | |- keeps_database (if ?b then _ else _) => destruct b
  | |- keeps_database (match ?x with _ => _ end) => destruct x
  | |- keeps_database (_ ≫= _) => apply task_keeps_bind
  | |- keeps_database (for_each _ _) => apply keeps_for_each
  | |- keeps_database (output _) => apply keeps_command_output
  | |- ∀ _, _ => intro
  | |- _ => progress auto with daemon
  end.
