(* ===== verification/Wireguard.v ===== *)
(** WireGuard peers from membership ([jiji-agent/src/wireguard.rs], and [reconcile_once],
    [observed_endpoints], [apply_action] and [replication_targets] of [runtime.rs]).

    What [wg set] and [ip route] do to the kernel's peers and routes is stated as a class,
    [WireGuardKernel]: the laws are those of their manuals. *)

From S2P Require Import Prelude Text Bytes Substring Cidr Naming Schema Planner ServiceRuntime.
From S2P Require Import Membership Catalog Desired OpLog Leases Cron CronExec Replication Store Api Daemon.
Open Scope N_scope.

Inductive PeerAction :=
| SetPeer (node public_key : string) (endpoint : SocketAddr) (allowed_ips : list string)
| UpdateEndpoint (node public_key : string) (endpoint : SocketAddr)
| RemovePeer (node public_key : string) (allowed_ips : list string).

Record ReconcilePlan := { plan_actions : list PeerAction; plan_next_cache : PeerCache }.

#[export] Instance PeerCacheEntry_eq_dec : EqDecision PeerCacheEntry.
Proof. solve_decision. Defined.

(** The addresses routed to a cached peer, and to the node of a record. *)
Definition cached_ips (e : PeerCacheEntry) : list string :=
  [pc_management_address e +:+ "/32"; pc_container_subnet e].
Definition member_ips (r : MembershipRecord) : list string :=
  [ipv4_to_string (management_address r) +:+ "/32"; container_subnet r].

(** What is observed wins, then what is cached under the same key, then the first configured
    endpoint. *)
Definition peer_endpoint (observed_endpoints : gmap string SocketAddr)
    (previous : option PeerCacheEntry) (r : MembershipRecord) : option SocketAddr :=
  match observed_endpoints !! wireguard_public_key r with
  | Some endpoint => Some endpoint
  | None =>
      match previous with
      | Some entry =>
          if bool_decide (pc_wireguard_public_key entry = wireguard_public_key r)
          then Some (pc_endpoint entry) else head (endpoints r)
      | None => head (endpoints r)
      end
  end.

Definition cache_entry (r : MembershipRecord) (endpoint : SocketAddr) : PeerCacheEntry :=
  {| pc_node_id := node_id r; pc_wireguard_public_key := wireguard_public_key r;
     pc_management_address := ipv4_to_string (management_address r);
     pc_container_subnet := container_subnet r; pc_endpoint := endpoint;
     pc_owner_epoch := Membership.owner_epoch r; pc_revision := Membership.revision r |}.

Definition allowed_ips_unchanged (previous : option PeerCacheEntry) (next : PeerCacheEntry) : bool :=
  match previous with
  | Some previous =>
      bool_decide (pc_wireguard_public_key previous = pc_wireguard_public_key next)
      && bool_decide (pc_management_address previous = pc_management_address next)
      && bool_decide (pc_container_subnet previous = pc_container_subnet next)
  | None => false
  end.

(** The two arms of the loop: the actions for a record and what the cache has afterwards. *)
Definition tombstoned_actions (previous : option PeerCacheEntry) (r : MembershipRecord) : list PeerAction :=
  match previous with
  | Some previous => [RemovePeer (node_id r) (pc_wireguard_public_key previous) (cached_ips previous)]
  | None => []
  end.
Definition active_actions (previous : option PeerCacheEntry) (r : MembershipRecord)
    (endpoint : SocketAddr) : list PeerAction :=
  let next := cache_entry r endpoint in
  match previous with
  | Some previous =>
      if bool_decide (pc_wireguard_public_key previous = wireguard_public_key r) then []
      else [RemovePeer (node_id r) (pc_wireguard_public_key previous) (cached_ips previous)]
  | None => []
  end ++
  if bool_decide (previous = Some next) then []
  else if allowed_ips_unchanged previous next
  then [UpdateEndpoint (node_id r) (wireguard_public_key r) endpoint]
  else [SetPeer (node_id r) (wireguard_public_key r) endpoint (member_ips r)].

Section plan.
Context (local_node_id : string) (observed_endpoints : gmap string SocketAddr).

Definition plan_record {E} (st : gset string * ReconcilePlan) (r : MembershipRecord) :
    result (fault E) (gset string * ReconcilePlan) :=
  let '(handled, plan) := st in
  if bool_decide (node_id r = local_node_id) || bool_decide (node_id r ∈ handled) then Ok st
  else
    let handled := {[node_id r]} ∪ handled in
    let previous := plan_next_cache plan !! node_id r in
    match Membership.state r with
    | Membership.Tombstoned =>
        Ok (handled, {| plan_actions := plan_actions plan ++ tombstoned_actions previous r;
                        plan_next_cache := delete (node_id r) (plan_next_cache plan) |})
    | Membership.Active =>
        let? endpoint := expect (peer_endpoint observed_endpoints previous r) in
        Ok (handled, {| plan_actions := plan_actions plan ++ active_actions previous r endpoint;
                        plan_next_cache := <[node_id r := cache_entry r endpoint]> (plan_next_cache plan) |})
    end.

Definition plan_reconciliation {E} (records : list MembershipRecord) (cache : PeerCache) :
    result (fault E) ReconcilePlan :=
  let? st := try_fold plan_record (∅, {| plan_actions := []; plan_next_cache := cache |}) records in
  Ok st.2.
End plan.

Definition join_ips (ips : list string) : string := String.concat "," ips.

(** The commands of a plan, as text. *)
Definition render_action (interface : string) (action : PeerAction) : list string :=
  match action with
  | SetPeer _ public_key endpoint allowed_ips =>
      ("wg set " +:+ interface +:+ " peer " +:+ public_key +:+ " endpoint " +:+ socket_addr_to_string endpoint
       +:+ " allowed-ips " +:+ join_ips allowed_ips +:+ " persistent-keepalive 25")
      :: ((λ ip, "ip route replace " +:+ ip +:+ " dev " +:+ interface) <$> allowed_ips)
  | UpdateEndpoint _ public_key endpoint =>
      ["wg set " +:+ interface +:+ " peer " +:+ public_key +:+ " endpoint " +:+ socket_addr_to_string endpoint]
  | RemovePeer _ public_key allowed_ips =>
      ("wg set " +:+ interface +:+ " peer " +:+ public_key +:+ " remove")
      :: ((λ ip, "ip route del " +:+ ip +:+ " dev " +:+ interface) <$> allowed_ips)
  end.
Definition render_commands (interface : string) (plan : ReconcilePlan) : list string :=
  plan_actions plan ≫= render_action interface.

(** ** [runtime.rs] *)

Section runtime.
Context `{OperatingSystem}.

Definition wg_args (action : PeerAction) : list string :=
  match action with
  | SetPeer _ public_key endpoint allowed_ips =>
      [public_key; "endpoint"; socket_addr_to_string endpoint; "allowed-ips"; join_ips allowed_ips;
       "persistent-keepalive"; "25"]
  | UpdateEndpoint _ public_key endpoint => [public_key; "endpoint"; socket_addr_to_string endpoint]
  | RemovePeer _ public_key _ => [public_key; "remove"]
  end.

Definition replace_routes (interface : string) (allowed_ips : list string) : Task RuntimeError () :=
  for_each (λ ip,
    o ← mapping_error RuntimeIo (output ["ip"; "route"; "replace"; ip; "dev"; interface]);
    if output_success o then mret ()
    else throw (WireGuardApply ("could not install route for " +:+ ip +:+ " via " +:+ interface +:+ ": "
                                +:+ error_text o))) allowed_ips.

Definition delete_routes (interface : string) (allowed_ips : list string) : Task RuntimeError () :=
  for_each (λ ip, ignoring (output ["ip"; "route"; "del"; ip; "dev"; interface])) allowed_ips.

Definition apply_action (interface : string) (action : PeerAction) : Task RuntimeError () :=
  o ← mapping_error RuntimeIo (output (["wg"; "set"; interface; "peer"] ++ wg_args action));
  if output_success o then
    match action with
    | SetPeer _ _ _ allowed_ips => replace_routes interface allowed_ips
    | RemovePeer _ _ allowed_ips => delete_routes interface allowed_ips
    | UpdateEndpoint _ _ _ => mret ()
    end
  else throw (WireGuardApply (error_text o)).

(** One line of [wg show .. endpoints]. *)
Definition read_endpoint (found : gmap string SocketAddr) (line : string) : gmap string SocketAddr :=
  match split_whitespace line with
  | public_key :: endpoint :: _ =>
      if bool_decide (endpoint = "(none)") then found
      else match resolve_socket endpoint with
           | Some address => <[public_key := address]> found
           | None => found
           end
  | _ => found
  end.

Definition observed_endpoints (interface : string) : Task RuntimeError (gmap string SocketAddr) :=
  o ← mapping_error RuntimeIo (output ["wg"; "show"; interface; "endpoints"]);
  if output_success o then mret (foldl read_endpoint ∅ (lines (output_stdout o)))
  else throw (WireGuardInspect (error_text o)).

Definition store_peer_cache {E} (e : E) (cache : PeerCache) : Task E () :=
  d ← database;
  match replace_peer_cache cache with
  | Ok c => set_database (with_peer_cache d c)
  | Err _ => throw e
  end.

Definition reconcile_peers (config : NodeConfig) : Task RuntimeError () :=
  d ← database;
  let records := latest_membership (membership_log (replicated (db_store d))) in
  observed ← observed_endpoints (nd_wireguard_interface config);
  plan ← lift (plan_reconciliation (nd_node_id config) observed records (db_peer_cache d));
  _ ← for_each (apply_action (nd_wireguard_interface config)) (plan_actions plan);
  store_peer_cache RuntimeStore (plan_next_cache plan).

(** A later record of a node replaces an earlier one. *)
Definition replication_targets (config : NodeConfig) (d : Database) : list (string * SocketAddr) :=
  let port := match nd_replication_bind config with SocketV4 _ port | SocketV6 _ port => port end in
  btree_list (foldl (λ peers r,
    if bool_decide (node_id r = nd_node_id config) then peers
    else <[node_id r := SocketV4 (management_address r) port]> peers) ∅
    (active_membership (membership_log (replicated (db_store d))))).
End runtime.

(** * Properties *)

(** ** The kernel *)

Record KernelPeer := { peer_endpoint_text : string; peer_allowed : gset string }.
Record Kernel := { kernel_peers : gmap string KernelPeer; kernel_routes : gset string }.

(** [wg set .. allowed-ips]: an address belongs to one peer, so the others lose it. *)
Definition wg_set (key endpoint : string) (ips : gset string) (k : Kernel) : Kernel :=
  {| kernel_peers :=
       <[key := {| peer_endpoint_text := endpoint; peer_allowed := ips |}]>
         ((λ q, {| peer_endpoint_text := peer_endpoint_text q; peer_allowed := peer_allowed q ∖ ips |})
          <$> kernel_peers k);
     kernel_routes := kernel_routes k |}.
(** Without [allowed-ips] they stay as they are; a peer that is not there is added. *)
Definition wg_endpoint (key endpoint : string) (k : Kernel) : Kernel :=
  {| kernel_peers :=
       <[key := {| peer_endpoint_text := endpoint;
                   peer_allowed := match kernel_peers k !! key with
                                   | Some q => peer_allowed q
                                   | None => ∅
                                   end |}]> (kernel_peers k);
     kernel_routes := kernel_routes k |}.
Definition wg_remove (key : string) (k : Kernel) : Kernel :=
  {| kernel_peers := delete key (kernel_peers k); kernel_routes := kernel_routes k |}.
Definition route_replace (ip : string) (k : Kernel) : Kernel :=
  {| kernel_peers := kernel_peers k; kernel_routes := {[ip]} ∪ kernel_routes k |}.
Definition route_del (ip : string) (k : Kernel) : Kernel :=
  {| kernel_peers := kernel_peers k; kernel_routes := kernel_routes k ∖ {[ip]} |}.

Definition succeeded (outcome : result string Output) : bool :=
  match outcome with Ok o => output_success o | Err _ => false end.

(** The manuals of [wg] and [ip], for one interface. *)
Class WireGuardKernel `{OperatingSystem} (interface : string) := {
  kernel : host → Kernel;
  kernel_wg_set key endpoint ips input h outcome h' :
    spawn ["wg"; "set"; interface; "peer"; key; "endpoint"; endpoint; "allowed-ips"; ips;
           "persistent-keepalive"; "25"] input h = (outcome, h') →
    succeeded outcome = true →
    kernel h' = wg_set key endpoint (list_to_set (split_char "," ips)) (kernel h);
  kernel_wg_endpoint key endpoint input h outcome h' :
    spawn ["wg"; "set"; interface; "peer"; key; "endpoint"; endpoint] input h = (outcome, h') →
    succeeded outcome = true → kernel h' = wg_endpoint key endpoint (kernel h);
  kernel_wg_remove key input h outcome h' :
    spawn ["wg"; "set"; interface; "peer"; key; "remove"] input h = (outcome, h') →
    succeeded outcome = true → kernel h' = wg_remove key (kernel h);
  kernel_wg_show input h outcome h' :
    spawn ["wg"; "show"; interface; "endpoints"] input h = (outcome, h') → kernel h' = kernel h;
  kernel_route_replace ip input h outcome h' :
    spawn ["ip"; "route"; "replace"; ip; "dev"; interface] input h = (outcome, h') →
    succeeded outcome = true → kernel h' = route_replace ip (kernel h);
  kernel_route_del ip input h outcome h' :
    spawn ["ip"; "route"; "del"; ip; "dev"; interface] input h = (outcome, h') →
    kernel h' = if succeeded outcome then route_del ip (kernel h) else kernel h;
}.

(** What an action may do to the kernel: a route that cannot be deleted is left. *)
Inductive acts : PeerAction → Kernel → Kernel → Prop :=
| acts_set node key endpoint ips k k' :
    kernel_peers k' = kernel_peers (wg_set key (socket_addr_to_string endpoint) (list_to_set ips) k) →
    kernel_routes k' = kernel_routes k ∪ list_to_set ips →
    acts (SetPeer node key endpoint ips) k k'
| acts_endpoint node key endpoint k :
    acts (UpdateEndpoint node key endpoint) k (wg_endpoint key (socket_addr_to_string endpoint) k)
| acts_remove node key ips k k' :
    kernel_peers k' = delete key (kernel_peers k) →
    kernel_routes k ∖ list_to_set ips ⊆ kernel_routes k' →
    acts (RemovePeer node key ips) k k'.

Inductive acts_all : list PeerAction → Kernel → Kernel → Prop :=
| acts_nil k : acts_all [] k k
| acts_cons a l k1 k2 k3 : acts a k1 k2 → acts_all l k2 k3 → acts_all (a :: l) k1 k3.

Lemma acts_all_app l1 l2 k k' :
  acts_all (l1 ++ l2) k k' ↔ ∃ k1, acts_all l1 k k1 ∧ acts_all l2 k1 k'.
Proof.
  revert k. induction l1 as [|a l1 IH]; intros k; simpl.
  - split; [intros Ha; exists k; by repeat constructor|]. intros (k1 & Hn & Ha). by inversion Hn; subst.
  - split.
    + inversion 1 as [|? ? ? k2 ? Ha Hl]; subst. apply IH in Hl as (k1 & Hl1 & Hl2).
      exists k1. split; [by econstructor|done].
    + intros (k1 & Hl1 & Hl2). inversion Hl1; subst. econstructor; [done|]. apply IH. eauto.
Qed.

(** Only an action that names its key makes a peer. *)
Definition action_key (a : PeerAction) : string :=
  match a with SetPeer _ key _ _ | UpdateEndpoint _ key _ | RemovePeer _ key _ => key end.

Lemma acts_all_peers l k k' key :
  acts_all l k k' → is_Some (kernel_peers k' !! key) →
  is_Some (kernel_peers k !! key) ∨
  ∃ a, a ∈ l ∧ action_key a = key ∧ match a with RemovePeer _ _ _ => False | _ => True end.
Proof.
  induction 1 as [k|a l k1 k2 k3 Ha Hl IH]; [by left|]. intros Hk.
  destruct (IH Hk) as [Hk2|(b & Hb & Hkey & Hnr)]; [|right; exists b; split_and!; [by right|done|done]].
  destruct (decide (action_key a = key)) as [<-|Hne].
  - destruct Ha as [node key endpoint ips k k' Hp _|node key endpoint k|node key ips k k' Hp _]; simpl in *.
    + right. eexists. split_and!; [left|done|done].
    + right. eexists. split_and!; [left|done|done].
    + rewrite Hp, lookup_delete_eq in Hk2. by destruct Hk2.
  - left. destruct Ha as [node key' endpoint ips k k' Hp _|node key' endpoint k|node key' ips k k' Hp _]; simpl in *.
    + rewrite Hp in Hk2. simpl in Hk2. by rewrite lookup_insert_ne, lookup_fmap, fmap_is_Some in Hk2.
    + by rewrite lookup_insert_ne in Hk2.
    + by rewrite Hp, lookup_delete_ne in Hk2.
Qed.

(** Addresses [wg] can take apart again. *)
Definition comma_free (ip : string) : Prop := ","%char ∉ bytes ip.

Lemma split_char_join (ips : list string) :
  Forall comma_free ips → ips ≠ [] → split_char "," (join_ips ips) = ips.
Proof.
  assert (∀ s, comma_free s → split_char "," s = [s]) as Hone.
  { induction s as [|d s IH]; intros Hs; [done|]. cbn [split_char].
    rewrite IH by (intros ?; apply Hs; by right). rewrite bool_decide_false; [done|].
    intros ->. apply Hs. left. }
  assert (∀ s t, comma_free s → split_char "," (s +:+ String "," t) = s :: split_char "," t) as Hcons.
  { induction s as [|d s IH]; intros t Hs; [done|].
    change (String d s +:+ String "," t) with (String d (s +:+ String "," t)). cbn [split_char].
    rewrite IH by (intros ?; apply Hs; by right). rewrite bool_decide_false; [done|].
    intros ->. apply Hs. left. }
  induction ips as [|s ips IH]; intros Hf Hn; [done|]. apply Forall_cons in Hf as [Hs Hf].
  destruct ips as [|s' ips]; [by apply Hone|].
  etrans; [exact (Hcons s (join_ips (s' :: ips)) Hs)|]. by rewrite IH.
Qed.

(** *** Running actions *)

Section actions.
Context `{OperatingSystem} {interface : string} `{!WireGuardKernel interface}.

Definition kernel_of (p : Process) : Kernel := kernel (p_host p).

Lemma output_inv argv input (p p' : Process) o :
  mapping_error RuntimeIo (command_output argv input) p = (Ok o, p') →
  spawn argv input (p_host p) = (Ok o, p_host p') ∧ p_database p' = p_database p.
Proof.
  unfold mapping_error, command_output. destruct (spawn argv input (p_host p)) as [[r|e] h]; simpl; [|done].
  intros [= <- <-]. done.
Qed.

Lemma task_bind_ok {E A B} (m : Task E A) (f : A → Task E B) p b p' :
  (m ≫= f) p = (Ok b, p') → ∃ a p1, m p = (Ok a, p1) ∧ f a p1 = (Ok b, p').
Proof. unfold mbind, Task_bind. destruct (m p) as [[a|e] p1]; [eauto|done]. Qed.

Lemma replace_routes_run ips (p p' : Process) :
  replace_routes interface ips p = (Ok (), p') →
  p_database p' = p_database p ∧ kernel_peers (kernel_of p') = kernel_peers (kernel_of p) ∧
  kernel_routes (kernel_of p') = kernel_routes (kernel_of p) ∪ list_to_set ips.
Proof.
  unfold kernel_of. revert p. induction ips as [|ip ips IH]; intros p Hrun.
  { injection Hrun as <-. simpl. rewrite union_empty_r_L. done. }
  apply task_bind_ok in Hrun as ([] & p1 & Hone & Hrest).
  apply task_bind_ok in Hone as (o & p2 & Ho & Hone). apply output_inv in Ho as [Hs Hd].
  destruct (output_success o) eqn:Hok; [|done]. injection Hone as <-.
  destruct (IH _ Hrest) as (Hd' & Hp & Hr).
  rewrite (kernel_route_replace _ _ _ _ _ Hs Hok) in *. simpl in *. split_and!; [congruence|done|].
  rewrite Hr. set_solver.
Qed.

Lemma delete_routes_run ips (p p' : Process) :
  delete_routes interface ips p = (Ok (), p') →
  p_database p' = p_database p ∧ kernel_peers (kernel_of p') = kernel_peers (kernel_of p) ∧
  kernel_routes (kernel_of p) ∖ list_to_set ips ⊆ kernel_routes (kernel_of p').
Proof.
  unfold kernel_of. revert p. induction ips as [|ip ips IH]; intros p Hrun.
  { injection Hrun as <-. split_and!; [done..|]. simpl. set_solver. }
  apply task_bind_ok in Hrun as ([] & p1 & Hone & Hrest).
  destruct (IH _ Hrest) as (Hd & Hp & Hr).
  unfold ignoring, outcome_of, output, command_output, mbind, Task_bind in Hone.
  destruct (spawn ["ip"; "route"; "del"; ip; "dev"; interface] "" (p_host p)) as [out h] eqn:Hs.
  assert (p_database p1 = p_database p ∧ p_host p1 = h) as [Hd1 <-].
  { destruct out; simpl in Hone; by injection Hone as <-. }
  apply kernel_route_del in Hs. rewrite Hs in *. split_and!; [congruence|by destruct (succeeded out)|].
  destruct (succeeded out); simpl in *; set_solver.
Qed.

(** An action that is carried out does what [acts] says, and leaves the database alone. *)
Definition plain_action (a : PeerAction) : Prop :=
  match a with SetPeer _ _ _ ips => Forall comma_free ips ∧ ips ≠ [] | _ => True end.

Lemma apply_action_run a (p p' : Process) :
  plain_action a → apply_action interface a p = (Ok (), p') →
  p_database p' = p_database p ∧ acts a (kernel_of p) (kernel_of p').
Proof.
  intros Hplain Hrun. apply task_bind_ok in Hrun as (o & p1 & Ho & Hrun).
  apply output_inv in Ho as [Hs Hd]. destruct (output_success o) eqn:Hok; [|done].
  unfold kernel_of in *. destruct a as [n key ep ips|n key ep|n key ips]; simpl in Hs.
  - destruct Hplain. destruct (replace_routes_run _ _ _ Hrun) as (Hd' & Hp & Hr). split; [congruence|].
    apply kernel_wg_set in Hs; [|done]. rewrite split_char_join in Hs by done. unfold kernel_of in *.
    rewrite Hs in Hp, Hr. by constructor.
  - injection Hrun as <-. split; [done|]. apply kernel_wg_endpoint in Hs; [|done]. rewrite Hs. constructor.
  - destruct (delete_routes_run _ _ _ Hrun) as (Hd' & Hp & Hr). split; [congruence|].
    apply kernel_wg_remove in Hs; [|done]. unfold kernel_of in *. rewrite Hs in Hp, Hr. by constructor.
Qed.

Lemma apply_actions_run l (p p' : Process) :
  Forall plain_action l → for_each (apply_action interface) l p = (Ok (), p') →
  p_database p' = p_database p ∧ acts_all l (kernel_of p) (kernel_of p').
Proof.
  revert p. induction l as [|a l IH]; intros p Hl Hrun.
  { injection Hrun as <-. split; [done|constructor]. }
  apply Forall_cons in Hl as [Ha Hl]. apply task_bind_ok in Hrun as ([] & p1 & Ha1 & Hrun).
  destruct (apply_action_run _ _ _ Ha Ha1) as [Hd Hk]. destruct (IH _ Hl Hrun) as [Hd' Hk'].
  split; [congruence|]. by econstructor.
Qed.
End actions.

(** ** The plan *)

Section planning.
Context (local : string) (observed : gmap string SocketAddr).
Implicit Types (r s : MembershipRecord) (cache : PeerCache).

(** The actions for one record, from the cache before the pass. *)
Definition record_actions cache r : list PeerAction :=
  let previous := cache !! node_id r in
  if bool_decide (node_id r = local) then []
  else match Membership.state r with
       | Membership.Tombstoned => tombstoned_actions previous r
       | Membership.Active =>
           match peer_endpoint observed previous r with
           | Some endpoint => active_actions previous r endpoint
           | None => []
           end
       end.
Definition record_entry cache r : option PeerCacheEntry :=
  let previous := cache !! node_id r in
  if bool_decide (node_id r = local) then previous
  else match Membership.state r with
       | Membership.Tombstoned => None
       | Membership.Active => cache_entry r <$> peer_endpoint observed previous r
       end.

Lemma plan_record_ok {E} handled plan r st' :
  plan_record (E := E) local observed (handled, plan) r = Ok st' → node_id r ∉ handled →
  plan_actions st'.2 = plan_actions plan ++ record_actions (plan_next_cache plan) r ∧
  plan_next_cache st'.2 !! node_id r = record_entry (plan_next_cache plan) r ∧
  (∀ n, n ≠ node_id r → plan_next_cache st'.2 !! n = plan_next_cache plan !! n) ∧
  st'.1 ⊆ {[node_id r]} ∪ handled.
Proof.
  unfold plan_record, record_actions, record_entry. intros Hp Hn.
  case_bool_decide as Hl; simpl in Hp.
  { injection Hp as <-. simpl. rewrite app_nil_r. split_and!; [done..|set_solver]. }
  rewrite bool_decide_false in Hp by done. destruct (Membership.state r).
  - destruct (peer_endpoint observed _ r) as [ep|]; [|done]. injection Hp as <-. simpl.
    split_and!; [done|by simplify_map_eq|intros; by simplify_map_eq|set_solver].
  - injection Hp as <-. simpl. split_and!; [done|by simplify_map_eq|intros; by simplify_map_eq|set_solver].
Qed.

Lemma record_agree cache cache' r :
  cache' !! node_id r = cache !! node_id r →
  record_actions cache' r = record_actions cache r ∧ record_entry cache' r = record_entry cache r.
Proof. unfold record_actions, record_entry. by intros ->. Qed.

Lemma plan_fold_shape {E} records handled plan st' :
  try_fold (plan_record (E := E) local observed) (handled, plan) records = Ok st' →
  NoDup (node_id <$> records) → (∀ r, r ∈ records → node_id r ∉ handled) →
  plan_actions st'.2 = plan_actions plan ++ (records ≫= record_actions (plan_next_cache plan)) ∧
  (∀ r, r ∈ records → plan_next_cache st'.2 !! node_id r = record_entry (plan_next_cache plan) r) ∧
  (∀ n, n ∉ node_id <$> records → plan_next_cache st'.2 !! n = plan_next_cache plan !! n).
Proof.
  revert handled plan. induction records as [|r records IH]; intros handled plan Hf Hnd Hh.
  { injection Hf as <-. simpl. rewrite app_nil_r. split_and!; [done|set_solver|done]. }
  cbn [try_fold] in Hf. destruct (plan_record _ _ _ _) as [[handled1 plan1]|] eqn:Hr; [|done].
  apply plan_record_ok in Hr as (Ha & He & Ho & Hs); [|set_solver]. simpl in *.
  apply NoDup_cons in Hnd as [Hni Hnd].
  destruct (IH _ _ Hf Hnd) as (Ha' & He' & Ho').
  { intros s Hsi Hin. apply Hs, elem_of_union in Hin as [Hin%elem_of_singleton|Hin]; [|set_solver].
    apply Hni. rewrite <-Hin. by apply list_elem_of_fmap_2. }
  assert (∀ s, s ∈ records → node_id s ≠ node_id r) as Hne.
  { intros s Hsi Heq. apply Hni. rewrite <-Heq. by apply list_elem_of_fmap_2. }
  assert (∀ s, s ∈ records → record_actions (plan_next_cache plan1) s = record_actions (plan_next_cache plan) s ∧
            record_entry (plan_next_cache plan1) s = record_entry (plan_next_cache plan) s) as Hag.
  { intros s Hsi. apply record_agree, Ho. by apply Hne. }
  split_and!.
  - rewrite Ha', Ha, <-app_assoc. f_equal. simpl. f_equal.
    clear -Hag. induction records as [|s l IHl]; [done|]. simpl. rewrite (proj1 (Hag s ltac:(by left))).
    f_equal. apply IHl. intros. apply Hag. by right.
  - intros s [->|Hsi]%elem_of_cons.
    + by rewrite Ho' by done.
    + rewrite He' by done. by apply Hag.
  - intros n Hn. rewrite Ho' by set_solver. apply Ho. set_solver.
Qed.

Lemma plan_shape {E} records cache plan :
  plan_reconciliation (E := E) local observed records cache = Ok plan →
  NoDup (node_id <$> records) →
  plan_actions plan = records ≫= record_actions cache ∧
  (∀ r, r ∈ records → plan_next_cache plan !! node_id r = record_entry cache r) ∧
  (∀ n, n ∉ node_id <$> records → plan_next_cache plan !! n = cache !! n).
Proof.
  unfold plan_reconciliation. destruct (try_fold _ _ _) as [st|] eqn:Hf; [|done]. intros [= <-] Hnd.
  by apply plan_fold_shape in Hf as (Ha & He & Ho).
Qed.

(** A plan is made whenever the active records have an endpoint, as validated records do. *)
Lemma plan_made {E} records cache :
  (∀ r, r ∈ records → Membership.state r = Membership.Active → endpoints r ≠ []) →
  ∃ plan, plan_reconciliation (E := E) local observed records cache = Ok plan.
Proof.
  intros He. unfold plan_reconciliation.
  enough (∀ st, ∃ st', try_fold (plan_record (E := E) local observed) st records = Ok st') as Hst.
  { destruct (Hst (∅, {| plan_actions := []; plan_next_cache := cache |})) as [st' ->]. eauto. }
  induction records as [|r records IH]; intros [handled plan]; [by eexists|]. cbn [try_fold].
  enough (∃ st1, plan_record (E := E) local observed (handled, plan) r = Ok st1) as [st1 ->].
  { apply IH. intros. apply He; [by right|done]. }
  unfold plan_record. destruct (_ || _); [by eexists|]. destruct (Membership.state r) eqn:Hs; [|by eexists].
  enough (∃ ep, peer_endpoint observed (plan_next_cache plan !! node_id r) r = Some ep) as [ep ->] by (by eexists).
  specialize (He r ltac:(by left) Hs). unfold peer_endpoint.
  destruct (observed !! _); [by eexists|]. destruct (endpoints r); [done|].
  destruct (plan_next_cache plan !! node_id r); [case_bool_decide|]; by eexists.
Qed.

Lemma handled_subset {E} records handled plan st' (past : gset string) :
  try_fold (plan_record (E := E) local observed) (handled, plan) records = Ok st' → handled ⊆ past →
  st'.1 ⊆ list_to_set (node_id <$> records) ∪ past.
Proof.
  revert handled plan past. induction records as [|r records IH]; intros handled plan past Hf Hh.
  { injection Hf as <-. set_solver. }
  cbn [try_fold] in Hf. destruct (plan_record _ _ _ r) as [[h1 pl1]|] eqn:Hr; [|done].
  assert (h1 ⊆ {[node_id r]} ∪ past) as Hh1.
  { unfold plan_record in Hr. destruct (_ || _); [simplify_eq; set_solver|].
    destruct (Membership.state r); [|simplify_eq; set_solver].
    destruct (peer_endpoint _ _ r); [|done]. injection Hr as <- _. set_solver. }
  apply (IH _ _ _ Hf) in Hh1. simpl. set_solver.
Qed.

Lemma plan_has_endpoints {E} records cache plan :
  plan_reconciliation (E := E) local observed records cache = Ok plan → NoDup (node_id <$> records) →
  ∀ r, r ∈ records → node_id r ≠ local → Membership.state r = Membership.Active →
  is_Some (peer_endpoint observed (cache !! node_id r) r).
Proof.
  unfold plan_reconciliation. destruct (try_fold _ _ _) as [st|] eqn:Hf; [|done]. intros _ Hnd r Hr Hl Hst.
  apply list_elem_of_split in Hr as (l1 & l2 & ->). rewrite try_fold_app in Hf.
  destruct (try_fold _ _ l1) as [[handled plan1]|] eqn:Hf1; [|done]. cbn [try_fold] in Hf.
  destruct (plan_record _ _ _ r) as [st1|] eqn:Hrec; [|done].
  rewrite fmap_app, fmap_cons in Hnd. apply NoDup_app in Hnd as (Hnd1 & Hnd12 & _).
  assert (node_id r ∉ node_id <$> l1) as Hn by (intros ?; eapply Hnd12; [done|by left]).
  destruct (plan_fold_shape _ _ _ _ Hf1 Hnd1) as (_ & _ & Hout); [set_solver|].
  assert (handled ⊆ list_to_set (node_id <$> l1)) as Hh.
  { pose proof (handled_subset _ _ _ _ ∅ Hf1) as Hh. simpl in Hh. set_solver. }
  unfold plan_record in Hrec. rewrite bool_decide_false in Hrec by done.
  rewrite bool_decide_false in Hrec by (intros Hin%Hh; by apply elem_of_list_to_set in Hin).
  simpl in Hrec. rewrite Hst in Hrec. simpl in Hout. rewrite Hout in Hrec by done.
  destruct (peer_endpoint _ _ r); [by eexists|done].
Qed.

(** Planning again from what a plan leaves, with the same observations, gives nothing to do. *)
Lemma entry_settles cache cache' r :
  cache' !! node_id r = record_entry cache r → record_actions cache' r = [] ∧ record_entry cache' r = record_entry cache r.
Proof.
  unfold record_actions, record_entry. intros Hc. case_bool_decide; [done|]. rewrite Hc.
  destruct (Membership.state r); [|done].
  destruct (peer_endpoint observed (cache !! node_id r) r) as [ep|] eqn:Hep; simpl.
  - assert (peer_endpoint observed (Some (cache_entry r ep)) r = Some ep) as Hep'.
    { revert Hep. unfold peer_endpoint. destruct (observed !! wireguard_public_key r); [done|].
      simpl. by rewrite bool_decide_true. }
    rewrite Hep'. split; [|done]. unfold active_actions. simpl. by rewrite !bool_decide_true by done.
  - assert (peer_endpoint observed None r = None) as ->; [|done].
    revert Hep. unfold peer_endpoint. destruct (observed !! _); [done|].
    destruct (cache !! node_id r); [by case_bool_decide|done].
Qed.

Lemma replan_made {E} records cache plan :
  plan_reconciliation (E := E) local observed records cache = Ok plan → NoDup (node_id <$> records) →
  ∃ plan', plan_reconciliation (E := E) local observed records (plan_next_cache plan) = Ok plan'.
Proof.
  intros Hplan Hnd. destruct (plan_shape _ _ _ Hplan Hnd) as (_ & Hin & _).
  pose proof (plan_has_endpoints _ _ _ Hplan Hnd) as Hep. clear Hplan.
  unfold plan_reconciliation.
  enough (∀ l handled pl, l ⊆ records → NoDup (node_id <$> l) →
    (∀ r, r ∈ l → plan_next_cache pl !! node_id r = plan_next_cache plan !! node_id r) →
    ∃ st', try_fold (plan_record (E := E) local observed) (handled, pl) l = Ok st') as Hl.
  { destruct (Hl records ∅ {| plan_actions := []; plan_next_cache := plan_next_cache plan |}) as [st ->]; eauto. }
  induction l as [|r l IH]; intros handled pl Hsub Hn Hc; [by eexists|]. cbn [try_fold].
  apply NoDup_cons in Hn as [Hr Hn].
  enough (∃ st1, plan_record (E := E) local observed (handled, pl) r = Ok st1 ∧
            ∀ n, n ≠ node_id r → plan_next_cache st1.2 !! n = plan_next_cache pl !! n) as ([h1 pl1] & -> & Ho).
  { apply IH; [set_solver|done|]. intros s Hs. simpl in Ho. rewrite Ho; [apply Hc; by right|].
    intros Heq. apply Hr. rewrite <-Heq. by apply list_elem_of_fmap_2. }
  unfold plan_record. case_bool_decide as Hl; [by eexists|]. case_bool_decide; [by eexists|]. simpl.
  destruct (Membership.state r) eqn:Hst; [|eexists; split; [done|intros; by simplify_map_eq]].
  rewrite Hc, Hin by (first [by left|set_solver]). unfold record_entry. rewrite bool_decide_false, Hst by done.
  destruct (Hep r ltac:(set_solver) Hl Hst) as [ep Hep']. rewrite Hep'. simpl.
  assert (peer_endpoint observed (Some (cache_entry r ep)) r = Some ep) as ->.
  { revert Hep'. unfold peer_endpoint. destruct (observed !! _); [done|]. simpl. by rewrite bool_decide_true. }
  simpl. eexists. split; [done|]. intros. by simplify_map_eq.
Qed.
End planning.

(** ** The kernel after a pass *)

(** The kernel has a peer under a key with just these addresses, and routes them. *)
Definition installed (k : Kernel) (key : string) (ips : list string) : Prop :=
  (∃ q, kernel_peers k !! key = Some q ∧ peer_allowed q = list_to_set ips) ∧
  list_to_set ips ⊆ kernel_routes k.

Definition in_step (cache : PeerCache) (k : Kernel) : Prop :=
  ∀ n e, cache !! n = Some e → installed k (pc_wireguard_public_key e) (cached_ips e).

Section kernel_pass.
Context (local : string) (observed : gmap string SocketAddr).
Context (cache : PeerCache) (records : list MembershipRecord).
Implicit Types (r s : MembershipRecord).

Definition is_peer r : Prop := r ∈ records ∧ node_id r ≠ local ∧ Membership.state r = Membership.Active.

(** A cached peer whose key the pass takes away: its node is gone, or has another key. *)
Definition retired r (e : PeerCacheEntry) : Prop :=
  r ∈ records ∧ node_id r ≠ local ∧ cache !! node_id r = Some e ∧
  (Membership.state r = Membership.Tombstoned ∨ wireguard_public_key r ≠ pc_wireguard_public_key e).

(** Peers share neither key nor address, and none has what another node gives up. *)
Record separate : Prop := {
  sep_peers : ∀ r s, is_peer r → is_peer s → node_id r ≠ node_id s →
    wireguard_public_key r ≠ wireguard_public_key s ∧ member_ips r ## member_ips s;
  sep_retired : ∀ r e s, retired r e → is_peer s → node_id r ≠ node_id s →
    pc_wireguard_public_key e ≠ wireguard_public_key s ∧ cached_ips e ## member_ips s;
}.

(** A node whose addresses are in the cache as they are in its record. *)
Definition unchanged r : Prop :=
  ∃ e, cache !! node_id r = Some e ∧ pc_wireguard_public_key e = wireguard_public_key r ∧
       cached_ips e = member_ips r.

(** [r] is settled once its turn has come, or before if it needs no [SetPeer]. *)
Definition settled (past : gset string) (k : Kernel) : Prop :=
  (∀ r, is_peer r → node_id r ∈ past ∨ unchanged r → installed k (wireguard_public_key r) (member_ips r)) ∧
  (∀ r e, retired r e → node_id r ∈ past → kernel_peers k !! pc_wireguard_public_key e = None).

Lemma allowed_ips_unchanged_true e r ep :
  allowed_ips_unchanged (Some e) (cache_entry r ep) = true →
  pc_wireguard_public_key e = wireguard_public_key r ∧ cached_ips e = member_ips r.
Proof.
  unfold allowed_ips_unchanged, cached_ips, member_ips. simpl. intros Ha. bool_to_prop. split; [done|congruence].
Qed.

Lemma installed_remove k k' node key key' ips ips' :
  acts (RemovePeer node key ips) k k' → installed k key' ips' → key ≠ key' → ips ## ips' →
  installed k' key' ips'.
Proof.
  inversion 1 as [| |? ? ? ? ? Hp Hr]; subst. intros [(q & Hq & Hal) Hro] Hk Hd. split.
  - exists q. rewrite Hp. by simplify_map_eq.
  - set_solver.
Qed.

Lemma installed_set_other k k' node key ep key' ips ips' :
  acts (SetPeer node key ep ips) k k' → installed k key' ips' → key ≠ key' → ips ## ips' →
  installed k' key' ips'.
Proof.
  inversion 1 as [? ? ? ? ? ? Hp Hr| |]; subst. intros [(q & Hq & Hal) Hro] Hk Hd. split.
  - eexists. rewrite Hp. simpl. rewrite lookup_insert_ne, lookup_fmap, Hq by done. split; [done|].
    simpl. rewrite Hal. set_solver.
  - rewrite Hr. set_solver.
Qed.

Lemma installed_set k k' node key ep ips :
  acts (SetPeer node key ep ips) k k' → installed k' key ips.
Proof.
  inversion 1 as [? ? ? ? ? ? Hp Hr| |]; subst. split; [|rewrite Hr; set_solver].
  eexists. rewrite Hp. simpl. rewrite lookup_insert_eq. done.
Qed.

Lemma installed_endpoint k k' node key ep key' ips' :
  acts (UpdateEndpoint node key ep) k k' → installed k key' ips' → installed k' key' ips'.
Proof.
  inversion 1; subst. intros [(q & Hq & Hal) Hro]. split; [|done]. simpl.
  destruct (decide (key = key')) as [<-|Hne]; [|exists q; by rewrite lookup_insert_ne].
  rewrite lookup_insert_eq, Hq. by eexists.
Qed.

Lemma gone_stays a k k' key :
  acts a k k' → kernel_peers k !! key = None →
  match a with SetPeer _ key' _ _ | UpdateEndpoint _ key' _ => key' ≠ key | RemovePeer _ _ _ => True end →
  kernel_peers k' !! key = None.
Proof.
  inversion 1 as [? ? ? ? ? ? Hp| |? ? ? ? ? Hp]; subst; intros Hk Hne.
  - rewrite Hp. simpl. by rewrite lookup_insert_ne, lookup_fmap, Hk.
  - simpl. by rewrite lookup_insert_ne.
  - rewrite Hp. rewrite lookup_delete_None. by right.
Qed.

Context (Hsep : separate) (Hnd : NoDup (node_id <$> records)).

Lemma same_record r s : r ∈ records → s ∈ records → node_id r = node_id s → r = s.
Proof.
  intros Hr Hs Heq. apply list_elem_of_lookup in Hr as [i Hi], Hs as [j Hj].
  assert (i = j) as <-; [|congruence].
  apply (NoDup_lookup _ _ _ (node_id r) Hnd); rewrite list_lookup_fmap; [by rewrite Hi|by rewrite Hj, Heq].
Qed.

(** The removal that opens the actions for a retired peer. *)
Lemma settled_remove r e k k' past :
  retired r e → settled past k → node_id r ∉ past →
  acts (RemovePeer (node_id r) (pc_wireguard_public_key e) (cached_ips e)) k k' →
  (∀ s, is_peer s → node_id s ∈ past ∨ unchanged s → installed k' (wireguard_public_key s) (member_ips s)) ∧
  (∀ s e', retired s e' → node_id s ∈ {[node_id r]} ∪ past → kernel_peers k' !! pc_wireguard_public_key e' = None).
Proof.
  intros Hret [Hin Hgone] Hpast Hact. split.
  - intros s Hs Hor. destruct (decide (node_id r = node_id s)) as [Heq|Hne].
    + destruct Hret as (Hr & Hl & Hc & Hst). destruct Hs as (Hs & _ & Hact').
      rewrite (same_record r s Hr Hs Heq) in *. destruct Hor as [?|(e1 & He1 & Hk & _)]; [done|].
      simplify_eq. destruct Hst as [?|Hst]; [congruence|]. by rewrite Hk in Hst.
    + destruct (sep_retired Hsep _ _ _ Hret Hs Hne). eapply installed_remove; eauto.
  - intros s e' Hs [Heq%elem_of_singleton|Hp]%elem_of_union.
    + destruct Hret as (Hr & _ & Hc & _), Hs as (Hs & _ & Hc' & _). rewrite Heq in Hc'. simplify_eq.
      inversion Hact as [| |? ? ? ? ? Hp]; subst. rewrite Hp. apply lookup_delete_eq.
    + eapply gone_stays; [exact Hact|by eapply Hgone|done].
Qed.

(** All but the peer of [r] itself. *)
Definition nearly r (past : gset string) (k : Kernel) : Prop :=
  (∀ s, is_peer s → node_id s ≠ node_id r → node_id s ∈ past ∨ unchanged s →
     installed k (wireguard_public_key s) (member_ips s)) ∧
  (∀ s e, retired s e → node_id s ∈ {[node_id r]} ∪ past → kernel_peers k !! pc_wireguard_public_key e = None).

Lemma nearly_settled r past k :
  nearly r past k → (is_peer r → installed k (wireguard_public_key r) (member_ips r)) → r ∈ records →
  settled ({[node_id r]} ∪ past) k.
Proof.
  intros [Hin Hgone] Hr Hrec. split; [|done]. intros s Hs Hor.
  destruct (decide (node_id s = node_id r)) as [Heq|Hne].
  - assert (s = r) as -> by (apply same_record; [apply Hs|done..]). by apply Hr.
  - apply Hin; [done..|]. set_solver.
Qed.

Lemma settled_nearly r past k :
  settled past k → (∀ e, ¬ retired r e) → r ∈ records → nearly r past k.
Proof.
  intros [Hin Hgone] Hnr Hr. split; [intros; by apply Hin|].
  intros s e Hs [Heq%elem_of_singleton|Hp]%elem_of_union; [|by eapply Hgone].
  destruct (Hnr e). rewrite (same_record s r) in Hs; [done|apply Hs|done|done].
Qed.

Lemma retired_key r s e :
  is_peer r → retired s e → wireguard_public_key r ≠ pc_wireguard_public_key e.
Proof.
  intros Hr Hs. destruct (decide (node_id s = node_id r)) as [Heq|Hne].
  - assert (s = r) as -> by (apply same_record; [apply Hs|apply Hr|done]).
    destruct Hs as (_ & _ & _ & [Ht|]); [|done]. by rewrite (proj2 (proj2 Hr)) in Ht.
  - destruct (sep_retired Hsep _ _ _ Hs Hr Hne). congruence.
Qed.

Lemma nearly_set r past k k' ep :
  nearly r past k → is_peer r →
  acts (SetPeer (node_id r) (wireguard_public_key r) ep (member_ips r)) k k' →
  settled ({[node_id r]} ∪ past) k'.
Proof.
  intros [Hin Hgone] Hr Hact. apply nearly_settled; [|intros _; by eapply installed_set|apply Hr].
  split.
  - intros s Hs Hne Hor. destruct (sep_peers Hsep r s Hr Hs) as [? ?]; [done|].
    eapply installed_set_other; eauto.
  - intros s e Hs Hp. eapply gone_stays; [exact Hact|by eapply Hgone|]. simpl. by eapply retired_key.
Qed.

Lemma nearly_endpoint r past k k' ep :
  nearly r past k → is_peer r → installed k (wireguard_public_key r) (member_ips r) →
  acts (UpdateEndpoint (node_id r) (wireguard_public_key r) ep) k k' →
  settled ({[node_id r]} ∪ past) k'.
Proof.
  intros [Hin Hgone] Hr Hi Hact. apply nearly_settled; [|intros _; by eapply installed_endpoint|apply Hr].
  split.
  - intros s Hs Hne Hor. eapply installed_endpoint; eauto.
  - intros s e Hs Hp. eapply gone_stays; [exact Hact|by eapply Hgone|]. simpl. by eapply retired_key.
Qed.

Lemma acts_all_one a k k' : acts_all [a] k k' → acts a k k'.
Proof. inversion 1 as [|? ? ? ? ? Ha Hl]; subst. by inversion Hl; subst. Qed.

(** The actions of an active peer that keeps its key or is new. *)
Lemma settled_update r ep past k k' :
  is_peer r → settled past k → (∀ e, ¬ retired r e) →
  acts_all (let next := cache_entry r ep in
            if bool_decide (cache !! node_id r = Some next) then []
            else if allowed_ips_unchanged (cache !! node_id r) next
            then [UpdateEndpoint (node_id r) (wireguard_public_key r) ep]
            else [SetPeer (node_id r) (wireguard_public_key r) ep (member_ips r)]) k k' →
  settled ({[node_id r]} ∪ past) k'.
Proof.
  intros Hr Hset Hnr Hacts. pose proof (settled_nearly r past k Hset Hnr (proj1 Hr)) as Hnear.
  simpl in Hacts. case_bool_decide as Hc.
  - inversion Hacts; subst. apply nearly_settled; [done| |apply Hr]. intros _. apply Hset; [done|].
    right. by eexists.
  - destruct (allowed_ips_unchanged _ _) eqn:Hu; apply acts_all_one in Hacts.
    + destruct (cache !! node_id r) as [e|] eqn:He; [|done]. apply allowed_ips_unchanged_true in Hu.
      eapply nearly_endpoint; [done..| |done]. apply Hset; [done|]. right. by eexists.
    + by eapply nearly_set.
Qed.

Lemma settled_record r past k k' :
  r ∈ records → node_id r ∉ past → settled past k →
  (is_peer r → is_Some (peer_endpoint observed (cache !! node_id r) r)) →
  acts_all (record_actions local observed cache r) k k' → settled ({[node_id r]} ∪ past) k'.
Proof.
  intros Hr Hpast Hset Hep Hacts. unfold record_actions in Hacts. case_bool_decide as Hl.
  { inversion Hacts; subst. apply nearly_settled; [|by intros (_ & ? & _)|done].
    apply settled_nearly; [done| |done]. by intros e (_ & ? & _). }
  destruct (Membership.state r) eqn:Hst.
  - assert (is_peer r) as Hpeer by done. destruct (Hep Hpeer) as [ep Hep']. rewrite Hep' in Hacts.
    unfold active_actions in Hacts. apply acts_all_app in Hacts as (k1 & Hrem & Hacts).
    destruct (cache !! node_id r) as [e|] eqn:He;
      [destruct (decide (pc_wireguard_public_key e = wireguard_public_key r)) as [Hkey|Hkey]|].
    + rewrite bool_decide_true in Hrem by done. inversion Hrem; subst. eapply settled_update; [done..| |by rewrite He].
      intros e' (_ & _ & He' & [?|Hne]); [congruence|]. by simplify_eq.
    + rewrite bool_decide_false in Hrem by done. apply acts_all_one in Hrem.
      destruct (settled_remove r e k k1 past) as [Hin Hgone];
        [split_and!; auto|done..|].
      rewrite bool_decide_false in Hacts by (intros [= ->]; by apply Hkey).
      unfold allowed_ips_unchanged in Hacts. simpl in Hacts. rewrite bool_decide_false in Hacts by done.
      apply acts_all_one in Hacts. eapply nearly_set; [|done..]. split; [intros; by apply Hin|done].
    + inversion Hrem; subst. eapply settled_update; [done..| |by rewrite He].
      intros e' (_ & _ & He' & _). congruence.
  - assert (¬ is_peer r) as Hnp by (intros (_ & _ & Ha); congruence).
    unfold tombstoned_actions in Hacts. destruct (cache !! node_id r) as [e|] eqn:He.
    + apply acts_all_one in Hacts.
      destruct (settled_remove r e k k' past) as [Hin Hgone]; [split_and!; auto|done..|].
      apply nearly_settled; [|done..]. split; [intros; by apply Hin|done].
    + inversion Hacts; subst. apply nearly_settled; [|done..]. apply settled_nearly; [done| |done].
      intros e' (_ & _ & He' & _). congruence.
Qed.

Lemma settled_records l past k k' :
  l ⊆ records → NoDup (node_id <$> l) → (∀ r, r ∈ l → node_id r ∉ past) → settled past k →
  (∀ r, is_peer r → is_Some (peer_endpoint observed (cache !! node_id r) r)) →
  acts_all (l ≫= record_actions local observed cache) k k' →
  settled (list_to_set (node_id <$> l) ∪ past) k'.
Proof.
  revert past k. induction l as [|r l IH]; intros past k Hl Hn Hp Hset Hep Hacts.
  { inversion Hacts; subst. simpl. by rewrite union_empty_l_L. }
  simpl in Hacts. apply acts_all_app in Hacts as (k1 & Ha1 & Ha2). apply NoDup_cons in Hn as [Hr Hn].
  eapply settled_record in Ha1; [|set_solver|apply Hp; by left|done|by auto].
  eapply IH in Ha2; [|set_solver|done| |done|done].
  - replace (list_to_set (node_id <$> r :: l) ∪ past)
      with (list_to_set (node_id <$> l) ∪ ({[node_id r]} ∪ past)); [done|]. simpl. set_solver.
  - intros s Hs [Heq%elem_of_singleton|?]%elem_of_union; [|by eapply Hp; [right|]].
    apply Hr. rewrite <-Heq. by apply list_elem_of_fmap_2.
Qed.
End kernel_pass.

(** ** A pass over the mesh *)

Lemma ipv4_comma_free a : comma_free (ipv4_to_string a +:+ "/32").
Proof.
  assert (∀ i, ","%char ∉ bytes (pretty (octet a i))) as Ho.
  { intros i. assert (existsb (Ascii.eqb ",") (bytes (pretty (octet a i))) = false) as Hn.
    { apply negb_true_iff.
      apply (N_below_forallb 256 (λ n, negb (existsb (Ascii.eqb ",") (bytes (pretty n))))); [by vm_compute|].
      apply octet_lt. }
    intros Hin. apply not_true_iff_false in Hn. apply Hn, existsb_exists.
    exists ","%char. split; [by apply list_elem_of_In|apply Ascii.eqb_refl]. }
  unfold comma_free, ipv4_to_string, bytes in *. rewrite !list_ascii_app, !elem_of_app. simpl.
  rewrite !elem_of_cons, elem_of_nil. naive_solver.
Qed.

Lemma ipv4_suffix_inj a b :
  a < 2 ^ 32 → b < 2 ^ 32 → ipv4_to_string a +:+ "/32" = ipv4_to_string b +:+ "/32" → a = b.
Proof.
  intros Ha Hb Heq. assert (ipv4_to_string a = ipv4_to_string b) as He.
  { pose proof (split_once_app "/" (ipv4_to_string a) "32" (ipv4_no_slash a)) as Hsa.
    pose proof (split_once_app "/" (ipv4_to_string b) "32" (ipv4_no_slash b)) as Hsb.
    change (String "/" "32") with "/32"%string in *. rewrite Heq in Hsa. rewrite Hsa in Hsb. by injection Hsb. }
  apply (f_equal parse_ipv4) in He. rewrite !parse_ipv4_to_string in He by done. by injection He.
Qed.

(** What the database takes back is what was given. *)
Lemma replace_peer_cache_same (cache : PeerCache) c :
  (∀ n e, cache !! n = Some e → pc_node_id e = n) → replace_peer_cache cache = Ok c → c = cache.
Proof.
  intros Hk. unfold replace_peer_cache, btree_values.
  assert (∀ l acc c, (∀ n e, (n, e) ∈ l → pc_node_id e = n) → try_fold cache_row acc l.*2 = Ok c →
            NoDup l.*1 → c = list_to_map l ∪ acc) as Hfold.
  { clear. induction l as [|[n e] l IH]; intros acc c Hl Hf Hn; cbn [fmap list_fmap try_fold snd] in Hf.
    { injection Hf as <-. simpl. by rewrite map_empty_union. }
    destruct (cache_row acc e) as [acc'|] eqn:Hr; [|done]. simpl in Hf. apply NoDup_cons in Hn as [Hne Hn].
    apply IH in Hf; [|intros; apply Hl; by right|done].
    unfold cache_row in Hr. destruct (_ && _) eqn:Hb; [|done]. injection Hr as <-.
    rewrite (Hl n e) in Hf by (by left). subst c. simpl.
    rewrite <-insert_union_r, insert_union_l by (by apply not_elem_of_list_to_map_1). done. }
  intros Hf. apply Hfold in Hf; [|intros n e He; apply Hk; by apply elem_of_btree_list|apply NoDup_btree_keys].
  rewrite map_union_empty in Hf. subst c. apply map_eq. intros n. apply option_eq. intros e.
  rewrite <-elem_of_list_to_map by apply NoDup_btree_keys. apply elem_of_btree_list.
Qed.

Section mesh.
Context `{OperatingSystem, !ContentHash MembershipRecord} (config : NodeConfig).
Context `{!WireGuardKernel (nd_wireguard_interface config)}.

Abbreviation local_node := (nd_node_id config).
Definition known (d : Database) : list MembershipRecord :=
  latest_membership (membership_log (replicated (db_store d))).

(** The membership log is one the store builds, its addresses are IPv4 addresses and its
    subnets are not management addresses; the cache is keyed by the nodes of records, and the
    kernel has what it says; no peer has the key or an address that another node gives up. *)
Record mesh_ready (d : Database) (k : Kernel) : Prop := {
  mr_log : ∃ scope v, mlog_ok scope (membership_log (replicated (db_store d))) v;
  mr_typed : ∀ r, r ∈ known d → management_address r < 2 ^ 32 ∧ comma_free (container_subnet r);
  mr_subnets : ∀ r s, r ∈ known d → s ∈ known d →
    ipv4_to_string (management_address r) +:+ "/32" ≠ container_subnet s;
  mr_cache : ∀ n e, db_peer_cache d !! n = Some e →
    pc_node_id e = n ∧ n ≠ local_node ∧ n ∈ node_id <$> known d;
  mr_in_step : in_step (db_peer_cache d) k;
  mr_released : ∀ r e s, retired local_node (db_peer_cache d) (known d) r e →
    is_peer local_node (known d) s → node_id r ≠ node_id s →
    pc_wireguard_public_key e ≠ wireguard_public_key s ∧ cached_ips e ## member_ips s;
}.

Lemma known_winner d scope v r :
  mlog_ok scope (membership_log (replicated (db_store d))) v → r ∈ known d → Membership.records v !! node_id r = Some r.
Proof.
  intros Hok Hr. unfold known, latest_membership, latest in Hr.
  apply list_elem_of_fmap in Hr as ([id r'] & -> & Hw). apply elem_of_btree_values in Hw as [n Hw]. simpl.
  assert (Membership.records v !! n = Some r') as Hv by (apply (mo_winners _ _ _ Hok); by eexists).
  destruct (Membership.vw_keyed _ _ (from_records_view_wf _ _ _ (mo_replay _ _ _ Hok)) _ _ Hv) as [-> _]. done.
Qed.

Lemma known_NoDup d scope v :
  mlog_ok scope (membership_log (replicated (db_store d))) v → NoDup (node_id <$> known d).
Proof.
  intros Hok. unfold known, latest_membership, latest, btree_values.
  assert (∀ l : list (string * (string * MembershipRecord)),
            (∀ n id r, (n, (id, r)) ∈ l → node_id r = n) → node_id <$> (l.*2).*2 = l.*1) as Hl.
  { induction l as [|[n [id r]] l IH]; intros Hkey; [done|]. simpl. rewrite (Hkey n id r) by (by left).
    f_equal. apply IH. intros. eapply Hkey. by right. }
  rewrite Hl; [apply NoDup_btree_keys|]. intros n id r Hr%elem_of_btree_list.
  eapply Membership.vw_keyed; [eapply from_records_view_wf, mo_replay, Hok|]. apply (mo_winners _ _ _ Hok). by eexists.
Qed.
Lemma ready_separate d k : mesh_ready d k → separate local_node (db_peer_cache d) (known d).
Proof.
  intros Hm. destruct (mr_log _ _ Hm) as (scope & v & Hok). split; [|apply Hm].
  intros r s (Hr & _ & Hra) (Hs & _ & Hsa) Hne.
  destruct (Membership.vw_claims _ _ (from_records_view_wf _ _ _ (mo_replay _ _ _ Hok)) _ _ _ _
    (known_winner _ _ _ _ Hok Hr) (known_winner _ _ _ _ Hok Hs) Hne Hra Hsa) as (_ & Hma & Hsub & Hkey).
  split; [done|]. unfold member_ips. intros x Hx Hx'. apply elem_of_cons in Hx as [->|Hx].
  - apply elem_of_cons in Hx' as [Heq|Hx'].
    + apply Hma. apply ipv4_suffix_inj; [by apply (mr_typed _ _ Hm)..|done].
    + apply list_elem_of_singleton in Hx'. by apply (mr_subnets _ _ Hm r s).
  - apply list_elem_of_singleton in Hx as ->. apply elem_of_cons in Hx' as [Heq|Hx'].
    + by apply (mr_subnets _ _ Hm s r).
    + by apply list_elem_of_singleton in Hx'.
Qed.

Lemma ready_settled d k : mesh_ready d k → settled local_node (db_peer_cache d) (known d) ∅ k.
Proof.
  intros Hm. split; [|set_solver]. intros r Hr [?|(e & He & Hkey & Hips)]; [set_solver|].
  rewrite <-Hkey, <-Hips. by eapply (mr_in_step _ _ Hm).
Qed.

Lemma plan_plain {E} observed d k plan :
  mesh_ready d k → plan_reconciliation (E := E) local_node observed (known d) (db_peer_cache d) = Ok plan →
  Forall plain_action (plan_actions plan).
Proof.
  intros Hm Hplan. destruct (mr_log _ _ Hm) as (scope & v & Hok).
  destruct (plan_shape _ _ _ _ _ Hplan (known_NoDup _ _ _ Hok)) as (-> & _).
  apply Forall_forall. intros a Ha. apply list_elem_of_bind in Ha as (r & Ha & Hr).
  destruct a as [n key ep ips| |]; [|done..]. assert (ips = member_ips r) as ->.
  { unfold record_actions, tombstoned_actions, active_actions in Ha.
    repeat (case_match || case_bool_decide || set_solver). }
  split; [|done]. destruct (mr_typed _ _ Hm _ Hr). constructor; [apply ipv4_comma_free|by constructor].
Qed.

(** A plan makes peers of active members only. *)
Lemma plan_makes_peers {E} observed d k plan a :
  mesh_ready d k → plan_reconciliation (E := E) local_node observed (known d) (db_peer_cache d) = Ok plan →
  a ∈ plan_actions plan → match a with RemovePeer _ _ _ => False | _ => True end →
  ∃ r, is_peer local_node (known d) r ∧ wireguard_public_key r = action_key a.
Proof.
  intros Hm Hplan Ha Hnr. destruct (mr_log _ _ Hm) as (scope & v & Hok).
  destruct (plan_shape _ _ _ _ _ Hplan (known_NoDup _ _ _ Hok)) as (Hl & _). rewrite Hl in Ha.
  apply list_elem_of_bind in Ha as (r & Ha & Hr). exists r. unfold is_peer.
  unfold record_actions, tombstoned_actions, active_actions in Ha. case_bool_decide; [set_solver|].
  destruct a; try done; destruct (Membership.state r); repeat (case_match || case_bool_decide || set_solver).
Qed.

(** The database after a pass has the cache of the plan. *)
Lemma next_cache_keyed {E} observed d k plan :
  mesh_ready d k → plan_reconciliation (E := E) local_node observed (known d) (db_peer_cache d) = Ok plan →
  ∀ n e, plan_next_cache plan !! n = Some e → pc_node_id e = n ∧
    ∃ r, is_peer local_node (known d) r ∧ node_id r = n ∧
      pc_wireguard_public_key e = wireguard_public_key r ∧ cached_ips e = member_ips r.
Proof.
  intros Hm Hplan n e He. destruct (mr_log _ _ Hm) as (scope & v & Hok).
  destruct (plan_shape _ _ _ _ _ Hplan (known_NoDup _ _ _ Hok)) as (_ & Hin & Hout).
  destruct (decide (n ∈ node_id <$> known d)) as [(r & -> & Hr)%list_elem_of_fmap|Hn].
  - rewrite Hin in He by done. unfold record_entry in He. case_bool_decide as Hl.
    { destruct (mr_cache _ _ Hm _ _ He) as (_ & Hnl & _). done. }
    destruct (Membership.state r) eqn:Hst; [|done].
    destruct (peer_endpoint _ _ r) as [ep|]; [|done]. injection He as <-. split; [done|]. by exists r.
  - rewrite Hout in He by done. by destruct (mr_cache _ _ Hm _ _ He) as (_ & _ & ?).
Qed.

Lemma reconcile_peers_inv (p p' : Process) :
  reconcile_peers config p = (Ok (), p') →
  ∃ observed plan p1 p2 c,
    observed_endpoints (nd_wireguard_interface config) p = (Ok observed, p1) ∧
    plan_reconciliation (E := RuntimeError) local_node observed (known (p_database p))
      (db_peer_cache (p_database p)) = Ok plan ∧
    for_each (apply_action (nd_wireguard_interface config)) (plan_actions plan) p1 = (Ok (), p2) ∧
    replace_peer_cache (plan_next_cache plan) = Ok c ∧
    kernel_of p' = kernel_of p2 ∧ p_database p' = with_peer_cache (p_database p2) c.
Proof.
  intros Hrun. apply task_bind_ok in Hrun as (d & p0 & Hd & Hrun). injection Hd as <- <-.
  apply task_bind_ok in Hrun as (observed & p1 & Hobs & Hrun).
  apply task_bind_ok in Hrun as (plan & p1' & Hplan & Hrun). injection Hplan as Hplan <-.
  apply task_bind_ok in Hrun as ([] & p2 & Hacts & Hrun).
  apply task_bind_ok in Hrun as (d & p0 & Hd & Hrun). injection Hd as <- <-.
  destruct (replace_peer_cache _) as [c|] eqn:Hc; [|done]. injection Hrun as <-. by exists observed, plan, p1, p2, c.
Qed.

Lemma observed_endpoints_run (p p' : Process) observed :
  observed_endpoints (nd_wireguard_interface config) p = (Ok observed, p') →
  kernel_of p' = kernel_of p ∧ p_database p' = p_database p.
Proof.
  intros Hrun. apply task_bind_ok in Hrun as (o & p1 & Ho & Hrun). apply output_inv in Ho as [Hs Hd].
  destruct (output_success o); [|done]. injection Hrun as _ <-. split; [|done].
  by apply kernel_wg_show in Hs.
Qed.
End mesh.

Module WireguardProps.

(** C9: A pass over the peers that returns brings the kernel to the membership, from a state
    that is ready: the membership log is one the store builds, with IPv4 addresses, and subnets that
    are neither management addresses nor contain a comma; the cache is of known nodes and what it
    lists is in the kernel; and no member has a key or an address that another node gives up
    in this pass.  Then every other active member is a WireGuard peer under its own key, with its
    management address and its subnet as its only allowed addresses and a route to both; the
    cached key of a member that was removed or has changed its key is no peer any more; a peer
    that was none before has the key of an active member; and the cache has exactly the other
    active members, each as it is in the kernel.  Peers the cache does not list may remain. *)
Theorem mesh_follows_membership `{OperatingSystem, !ContentHash MembershipRecord}
    (config : NodeConfig) `{!WireGuardKernel (nd_wireguard_interface config)} (p p' : Process) :
  mesh_ready config (p_database p) (kernel_of p) → reconcile_peers config p = (Ok (), p') →
  (∀ r, is_peer (nd_node_id config) (known (p_database p)) r →
     installed (kernel_of p') (wireguard_public_key r) (member_ips r)) ∧
  (∀ r e, retired (nd_node_id config) (db_peer_cache (p_database p)) (known (p_database p)) r e →
     kernel_peers (kernel_of p') !! pc_wireguard_public_key e = None) ∧
  (∀ key, is_Some (kernel_peers (kernel_of p') !! key) → is_Some (kernel_peers (kernel_of p) !! key) ∨
     ∃ r, is_peer (nd_node_id config) (known (p_database p)) r ∧ wireguard_public_key r = key) ∧
  in_step (db_peer_cache (p_database p')) (kernel_of p') ∧
  (∀ n, is_Some (db_peer_cache (p_database p') !! n) ↔
     ∃ r, is_peer (nd_node_id config) (known (p_database p)) r ∧ node_id r = n).
Proof.
  intros Hm Hrun. destruct (mr_log _ _ _ Hm) as (scope & v & Hok). pose proof (known_NoDup _ _ _ Hok) as Hnd.
  destruct (reconcile_peers_inv _ _ _ Hrun) as (obs & plan & p1 & p2 & c & Hobs & Hplan & Hacts & Hc & Hk & Hd).
  destruct (observed_endpoints_run _ _ _ _ Hobs) as [Hk1 Hd1].
  apply apply_actions_run in Hacts as [Hd2 Hacts]; [|by eapply plan_plain]. rewrite Hk1, <-Hk in Hacts.
  pose proof (next_cache_keyed _ _ _ _ _ Hm Hplan) as Hkeyed.
  apply replace_peer_cache_same in Hc as ->; [|intros n e He; by apply Hkeyed].
  destruct (plan_shape _ _ _ _ _ Hplan Hnd) as (Ha & Hin & _). rewrite Ha in Hacts.
  assert (∀ r, is_peer (nd_node_id config) (known (p_database p)) r →
    is_Some (plan_next_cache plan !! node_id r) ∧
    is_Some (peer_endpoint obs (db_peer_cache (p_database p) !! node_id r) r)) as Hpeer.
  { intros r (Hr & Hl & Hst). destruct (plan_has_endpoints _ _ _ _ _ Hplan Hnd r Hr Hl Hst) as [ep Hep].
    rewrite Hin by done. unfold record_entry. rewrite bool_decide_false, Hst, Hep by done. by split; eexists. }
  assert (∀ key, is_Some (kernel_peers (kernel_of p') !! key) → is_Some (kernel_peers (kernel_of p) !! key) ∨
    ∃ r, is_peer (nd_node_id config) (known (p_database p)) r ∧ wireguard_public_key r = key) as Hnew.
  { intros key [?|(b & Hb & <- & Hnr)]%(acts_all_peers _ _ _ _ Hacts); [by left|right].
    eapply plan_makes_peers; [done|done|by rewrite Ha|done]. }
  eapply settled_records in Hacts; 
    [|by eapply ready_separate|done|done|done|intros; apply not_elem_of_empty|by eapply ready_settled|by apply Hpeer].
  destruct Hacts as [Hinst Hgone]. rewrite Hd. simpl.
  assert (∀ r, r ∈ known (p_database p) →
            node_id r ∈ list_to_set (C := gset string) (node_id <$> known (p_database p)) ∪ ∅) as Hmem.
  { intros r Hr. apply elem_of_union_l, elem_of_list_to_set. by apply list_elem_of_fmap_2. }
  split_and!.
  - intros r Hr. apply Hinst; [done|left]. apply Hmem, Hr.
  - intros r e Hr. eapply Hgone; [done|]. apply Hmem, Hr.
  - exact Hnew.
  - intros n e He. destruct (Hkeyed n e He) as (_ & r & Hr & _ & -> & ->).
    apply Hinst; [done|left]. apply Hmem, Hr.
  - intros n. split.
    + intros [e He]. destruct (Hkeyed n e He) as (_ & r & Hr & Hn & _). by exists r.
    + intros (r & Hr & <-). by apply Hpeer.
Qed.

(** Reconciliation settles: once a plan has been carried out, planning again from the
    cache it leaves, with the same records and observations, asks for nothing. *)
Theorem reconciliation_settles (local : string) (observed : gmap string SocketAddr)
    (records : list MembershipRecord) (cache : PeerCache) (plan : ReconcilePlan) :
  NoDup (node_id <$> records) →
  plan_reconciliation (E := RuntimeError) local observed records cache = Ok plan →
  plan_reconciliation (E := RuntimeError) local observed records (plan_next_cache plan) =
    Ok {| plan_actions := []; plan_next_cache := plan_next_cache plan |}.
Proof.
  intros Hnd Hplan. destruct (plan_shape _ _ _ _ _ Hplan Hnd) as (_ & Hin & Hout).
  destruct (replan_made _ _ _ _ _ Hplan Hnd) as [plan' Hplan'].
  rewrite Hplan'. destruct (plan_shape _ _ _ _ _ Hplan' Hnd) as (Ha' & Hin' & Hout').
  destruct plan' as [actions' next']. simpl in *. f_equal. f_equal.
  - rewrite Ha'. clear -Hin. induction records as [|r l IH]; [done|]. simpl.
    rewrite (proj1 (entry_settles _ _ cache _ r (Hin r ltac:(by left)))). apply IH. intros. apply Hin. by right.
  - apply map_eq. intros n. destruct (decide (n ∈ node_id <$> records)) as [(r & -> & Hr)%list_elem_of_fmap|Hn].
    + rewrite Hin' by done. rewrite (proj2 (entry_settles _ _ cache _ r (Hin r Hr))). by rewrite Hin.
    + by rewrite Hout'.
Qed.

(** A pass that fails leaves the cache of peers as it was: last-known-good state never
    runs ahead of the kernel. *)
Theorem failed_pass_keeps_the_cache `{OperatingSystem} (config : NodeConfig) (p p' : Process)
    (e : fault RuntimeError) :
  reconcile_peers config p = (Err e, p') → p_database p' = p_database p.
Proof.
  intros Hrun. assert (∃ (m : Task RuntimeError ReconcilePlan), keeps_database m ∧
    reconcile_peers config p = (plan ← m; store_peer_cache RuntimeStore (plan_next_cache plan)) p) as (m & Hm & Hr).
  { exists (d ← database;
      observed ← observed_endpoints (nd_wireguard_interface config);
      plan ← lift (plan_reconciliation (nd_node_id config) observed
        (latest_membership (membership_log (replicated (db_store d)))) (db_peer_cache d));
      _ ← for_each (apply_action (nd_wireguard_interface config)) (plan_actions plan); mret plan).
    split; [|unfold reconcile_peers, mbind, Task_bind, mret, Task_ret; repeat (case_match; simplify_eq/=; try done)].
    unfold observed_endpoints, apply_action, replace_routes, delete_routes, output. keeps. }
  rewrite Hr in Hrun. unfold mbind, Task_bind in Hrun. specialize (Hm p).
  destruct (m p) as [[plan|e'] p1]; simpl in Hm; [|by simplify_eq].
  unfold store_peer_cache, database, set_database, throw, mbind, Task_bind in Hrun.
  by destruct (replace_peer_cache _); simplify_eq.
Qed.

(** ** A sample host *)

Definition ran (k : Kernel) : result string Output * Kernel :=
  (Ok {| output_stdout := ""; output_stderr := ""; output_success := true |}, k).
Definition sample_spawn (argv : list string) (_ : string) (k : Kernel) : result string Output * Kernel :=
  match argv with
  | [_; _; _; _; key; _; endpoint; _; ips; _; _] =>
      ran (wg_set key endpoint (list_to_set (split_char "," ips)) k)
  | [_; _; _; _; key; _; endpoint] => ran (wg_endpoint key endpoint k)
  | [program; _; verb; ip; key; _] =>
      if bool_decide (program = "wg") then ran (wg_remove key k)
      else if bool_decide (verb = "replace") then ran (route_replace ip k)
      else ran (route_del ip k)
  | _ => ran k
  end.
#[local] Instance sample_os : OperatingSystem :=
  {| host := Kernel; spawn := sample_spawn; unix_timestamp _ := 0; resolve_socket _ := None |}.
#[local] Instance sample_kernel : WireGuardKernel "wg0".
Proof.
  refine {| kernel := λ k : host (OperatingSystem := sample_os), k |};
    unfold spawn; simpl; unfold ran; intros; repeat case_bool_decide; by simplify_eq/=.
Defined.

Definition sample_runtime : LocalRuntimeConfig :=
  {| lr_bridge_network := "jiji"; lr_bridge_interface := "jiji0"; lr_proxy_address := 1681915907;
     lr_proxy_routes := []; lr_tcp_routes := [];
     lr_container_subnet := {| network := 1681915904; prefix := 20 |}; lr_bridge_gateway := 1681915905;
     lr_container_cidr := {| network := 1681915904; prefix := 10 |}; lr_wireguard_port := 51820;
     lr_peer_public_ips := []; lr_public_host := "192.0.2.1" |}.
Definition sample_config : NodeConfig :=
  {| nd_project_id := "demo"; nd_recovery_epoch := 1; nd_node_id := "here"; nd_wireguard_interface := "wg0";
     nd_wireguard_private_key_path := "/etc/key"; nd_replication_bind := SocketV4 1000 8443;
     nd_dns_bind_address := 1681915906; nd_local_runtime := sample_runtime; nd_reconcile_interval_secs := 10;
     nd_store_soft_quota_bytes := 1; nd_compaction_interval_secs := 300; nd_dns_forwarders := [] |}.

#[local] Existing Instance MembershipProps.sample_hash.

Definition members_of (rs : list MembershipRecord) : Log MembershipRecord :=
  foldl (λ log r, ReplicationProps.log_of log
           (apply_membership OpLogProps.sample_capacity log r MembershipProps.sample_scope)) Log_empty rs.

Lemma members_of_ok rs : ∃ v, mlog_ok MembershipProps.sample_scope (members_of rs) v.
Proof.
  unfold members_of.
  assert (∃ v, mlog_ok MembershipProps.sample_scope (@Log_empty MembershipRecord) v) as Hlog
    by (eexists; apply mlog_empty).
  revert Hlog. generalize (@Log_empty MembershipRecord).
  induction rs as [|r rs IH]; intros log [v Hv]; [by exists v|]. simpl. apply IH.
  destruct (apply_membership _ log r _) as [[out log']|] eqn:Ha; [|by exists v].
  by eapply apply_membership_keeps.
Qed.

Definition member (name key : string) (address : N) (rev : N) (st : MembershipState) : MembershipRecord :=
  let r := MembershipProps.sample_record name address ("10.0." +:+ pretty address +:+ ".0/24") 1 rev st in
  {| Membership.project_id := Membership.project_id r; Membership.recovery_epoch := 1;
     Membership.protocol_version := 1; Membership.schema_version := 1;
     node_id := name; server_name := name; wireguard_public_key := key; management_address := address;
     container_subnet := container_subnet r; endpoints := endpoints r; Membership.owner_epoch := 1;
     Membership.revision := rev; Membership.state := st |}.

Definition database_with (rs : list MembershipRecord) (cache : PeerCache) : Database :=
  {| db_store := ApiProps.empty_store (members_of rs); db_peer_cache := cache; db_liveness := ∅ |}.
Definition process_with (rs : list MembershipRecord) (cache : PeerCache) (k : Kernel) : Process :=
  {| p_database := database_with rs cache; p_host := k; p_commands := [] |}.

Definition empty_kernel : Kernel := {| kernel_peers := ∅; kernel_routes := ∅ |}.
(** The process once it has gone over the peers. *)
Definition pass (p : Process) : Process := (reconcile_peers sample_config p).2.

Lemma passed (p : Process) :
  (reconcile_peers sample_config p).1 = Ok () → reconcile_peers sample_config p = (Ok (), pass p).
Proof. unfold pass. by destruct (reconcile_peers sample_config p) as [r p']; simpl; intros ->. Qed.

Definition two_members : list MembershipRecord :=
  [member "alpha" "key-1" 1 1 Membership.Active; member "zulu" "key-2" 2 1 Membership.Active].

Lemma known_two : known (database_with two_members ∅) = two_members.
Proof. by vm_compute. Qed.

Lemma two_ready : mesh_ready sample_config (database_with two_members ∅) empty_kernel.
Proof.
  split.
  - exists MembershipProps.sample_scope. apply members_of_ok.
  - rewrite known_two. unfold two_members. intros r. rewrite !elem_of_cons, elem_of_nil.
    intros [->|[->|[]]]; (split; [done|]); apply (bool_decide_eq_true_1 _); by vm_compute.
  - rewrite known_two. unfold two_members. intros r s. rewrite !elem_of_cons, !elem_of_nil.
    intros [->|[->|[]]] [->|[->|[]]]; apply (bool_decide_eq_true_1 _); by vm_compute.
  - intros n e He. simpl in He. by rewrite lookup_empty in He.
  - intros n e He. simpl in He. by rewrite lookup_empty in He.
  - intros r e s (_ & _ & He & _). simpl in He. by rewrite lookup_empty in He.
Qed.

Lemma mesh_follows_membership_witness :
  let p := process_with two_members ∅ empty_kernel in
  mesh_ready sample_config (p_database p) (kernel_of p) ∧
  reconcile_peers sample_config p = (Ok (), pass p) ∧
  installed (kernel_of (pass p)) "key-2" ["0.0.0.2/32"; "10.0.2.0/24"].
Proof.
  intros p. assert (reconcile_peers sample_config p = (Ok (), pass p)) as Hrun
    by (apply passed; vm_compute; reflexivity).
  split; [exact two_ready|]. split; [exact Hrun|].
  destruct (mesh_follows_membership sample_config (WireGuardKernel0 := sample_kernel) p (pass p) two_ready Hrun)
    as (Hpeers & _).
  apply (Hpeers (member "zulu" "key-2" 2 1 Membership.Active)). unfold is_peer. simpl.
  change (p_database p) with (database_with two_members ∅). rewrite known_two.
  split_and!; [right; left|done|done].
Defined.

Lemma failed_pass_keeps_the_cache_witness :
  let cut : OperatingSystem := {| host := (); spawn _ _ h := (Err "no such file", h);
                                  unix_timestamp _ := 0; resolve_socket _ := None |} in
  let p : @Process cut := {| p_database := database_with two_members ∅; p_host := (); p_commands := [] |} in
  ∃ p', @reconcile_peers cut sample_config p = (Err (Failed (RuntimeIo "no such file")), p') ∧
    p_database p' = p_database p.
Proof.
  intros cut p. exists (@reconcile_peers cut sample_config p).2.
  assert (@reconcile_peers cut sample_config p =
    (Err (Failed (RuntimeIo "no such file")), (@reconcile_peers cut sample_config p).2)) as Hrun
    by reflexivity.
  split; [exact Hrun|]. exact (failed_pass_keeps_the_cache sample_config p _ _ Hrun).
Defined.

(** A server that gets another name can lose its peers for good.  A node id is the name of
    a server and the WireGuard key stays on the host, so the record of the old name is
    tombstoned with the key the new name has.  Here "zulu" is renamed "alpha": the store takes
    all three records, the pass sets the peer for "alpha" and then removes the key for "zulu",
    and leaves no peer and no route to its addresses; the cache says it is there, so every
    later pass that sees the same records does nothing. *)
Theorem renamed_server_loses_its_peer :
  let renamed := [member "zulu" "key-2" 2 1 Membership.Active; member "zulu" "key-2" 2 2 Membership.Tombstoned;
                  member "alpha" "key-2" 2 1 Membership.Active] in
  let before := pass (process_with [member "zulu" "key-2" 2 1 Membership.Active] ∅ empty_kernel) in
  let p := process_with renamed (db_peer_cache (p_database before)) (p_host before) in
  installed (p_host before) "key-2" ["0.0.0.2/32"; "10.0.2.0/24"] ∧
  (node_id <$> active_membership (members_of renamed)) = ["alpha"] ∧
  (reconcile_peers sample_config p).1 = Ok () ∧
  is_Some (db_peer_cache (p_database (pass p)) !! "alpha") ∧
  kernel_peers (p_host (pass p)) = ∅ ∧ kernel_routes (p_host (pass p)) = ∅ ∧
  (reconcile_peers sample_config (pass p)).1 = Ok () ∧
  db_peer_cache (p_database (pass (pass p))) = db_peer_cache (p_database (pass p)) ∧
  kernel_peers (p_host (pass (pass p))) = ∅ ∧ kernel_routes (p_host (pass (pass p))) = ∅.
Proof.
  intros renamed before p. split_and!; [|vm_compute; reflexivity|vm_compute; reflexivity| |vm_compute; reflexivity..].
  - split; [|apply (bool_decide_eq_true_1 _); vm_compute; reflexivity].
    eexists. split; vm_compute; reflexivity.
  - eexists. vm_compute. reflexivity.
Qed.

Lemma reconciliation_settles_witness :
  ∃ plan, plan_actions plan ≠ [] ∧
    plan_reconciliation (E := RuntimeError) "here" ∅ two_members ∅ = Ok plan ∧
    plan_reconciliation (E := RuntimeError) "here" ∅ two_members (plan_next_cache plan) =
      Ok {| plan_actions := []; plan_next_cache := plan_next_cache plan |}.
Proof.
  destruct (plan_reconciliation (E := RuntimeError) "here" ∅ two_members ∅) as [plan|] eqn:Hplan;
    [|vm_compute in Hplan; discriminate].
  exists plan. split; [|split; [reflexivity|]].
  { vm_compute in Hplan. injection Hplan as <-. discriminate. }
  apply (reconciliation_settles "here" ∅ two_members ∅); [|exact Hplan].
  apply (bool_decide_eq_true_1 _). by vm_compute.
Defined.
End WireguardProps.
