(* ===== verification/ProxyScript.v ===== *)
(** The commands and scripts shared by the CLI and the agent: the run command and the ingress
    rules of the shared proxy ([jiji-network/src/proxy_script.rs]) and the script that brings
    up the bridge of a project ([bridge_script.rs]).

    The version of the proxy is fixed when the program is built and the networks of a
    container are JSON: both are parameters ([ProxyBuild]). *)

From S2P Require Import Prelude Text Bytes Substring Cidr Naming Schema Planner ServiceRuntime.
From S2P Require Import Session.
Open Scope N_scope.

(** [JIJI_PROXY_BUILD_VERSION], and the text at [networks.<name>.IPAddress] of a JSON
    object. *)
Class ProxyBuild := {
  PROXY_VERSION : string;
  network_address : string → string → option string;
}.

Definition CONTAINER_NAME : string := "jiji-proxy".
Definition CERTS_DIR : string := "/etc/jiji/certs".
Definition CONFIG_DIR : string := "/etc/jiji/proxy".
Definition INTERNAL_HTTP_PORT : N := 8080.
Definition INTERNAL_HTTPS_PORT : N := 8443.
Definition INTERNAL_TCP_RELAY_PORT : N := 39100.
Definition INGRESS_TABLE : string := "jiji_proxy_ingress".
Definition RELAY_NAT_TABLE : string := "jiji_tcp_relay".

Definition nl : string := String newline "".
Definition tab : string := String (ascii_of_N 9) "".
Definition quoted (s : string) : string := quote_char +:+ s +:+ quote_char.
(** The lines of a text, each ended. *)
Definition text_lines (l : list string) : string := String.concat "" ((λ s, s +:+ nl) <$> l).

Definition config_fingerprint (engine : ContainerEngine) : string := "v1-" +:+ engine_to_string engine.

Definition render_daemon_config : string :=
  text_lines
    ["http_listen: " +:+ quoted ("0.0.0.0:" +:+ pretty INTERNAL_HTTP_PORT);
     "https_listen: " +:+ quoted ("0.0.0.0:" +:+ pretty INTERNAL_HTTPS_PORT);
     "cert_dir: " +:+ CERTS_DIR;
     "admin_socket: /run/jiji-proxy/admin.sock";
     "acme:";
     "  directory_url: " +:+ quoted "https://acme-v02.api.letsencrypt.org/directory"].

Section build.
Context `{ProxyBuild}.

Definition proxy_image : string := "ghcr.io/acidtib/jiji-proxy:v" +:+ PROXY_VERSION.

Record ProxyRunNetwork := { run_bridge_name : string; run_proxy_address : N }.

Definition render_run_command (engine : ContainerEngine) (network : option ProxyRunNetwork)
    (fingerprint : string) : string :=
  let network_args :=
    match network with
    | None => " --network none"
    | Some n => " --network " +:+ run_bridge_name n +:+ " --ip " +:+ ipv4_to_string (run_proxy_address n)
    end in
  engine_to_string engine +:+ " run --name " +:+ CONTAINER_NAME +:+ network_args +:+
  " --detach --restart unless-stopped --label jiji.managed=true --label jiji.proxy-config=" +:+ fingerprint
  +:+ " --volume " +:+ CERTS_DIR +:+ ":" +:+ CERTS_DIR
  +:+ " --volume " +:+ CONFIG_DIR +:+ ":" +:+ CONFIG_DIR +:+ ":ro"
  +:+ " --publish 80:" +:+ pretty INTERNAL_HTTP_PORT +:+ " --publish 443:" +:+ pretty INTERNAL_HTTPS_PORT
  +:+ " " +:+ proxy_image.

Definition attached_address (networks_json bridge_name : string) : option N :=
  address ← network_address (trim networks_json) bridge_name;
  if bool_decide (address = "") then None else parse_ipv4 address.
End build.

Definition is_missing_container_error (stderr : string) : bool :=
  let stderr := str_to_ascii_lowercase stderr in
  contains_str "no such container" stderr || contains_str "no container with name or id" stderr.

(** A rule line of an [nft] table: the address it names, if any, its port, and the address, if any,
    and the port after [dnat to]. *)
Record NatRule := { match_address : option N; match_port : N; to_address : option N; to_port : N }.

Definition render_rule (r : NatRule) : string :=
  tab +:+ tab +:+ match match_address r with Some a => "ip daddr " +:+ ipv4_to_string a +:+ " " | None => "" end
  +:+ "tcp dport " +:+ pretty (match_port r) +:+ " dnat to "
  +:+ match to_address r with Some a => ipv4_to_string a | None => "" end +:+ ":" +:+ pretty (to_port r).

Definition nft_table (table : string) (rules : list NatRule) : string :=
  text_lines
    (["delete table ip " +:+ table;
      "table ip " +:+ table +:+ " {";
      tab +:+ "chain prerouting {";
      tab +:+ tab +:+ "type nat hook prerouting priority dstnat - 5; policy accept;"]
     ++ (render_rule <$> rules) ++ [tab +:+ "}"; "}"]).

Definition ingress_rules (address public_host : N) (include_http : bool) (tcp_ports : list N) : list NatRule :=
  let rule port target :=
    {| match_address := Some public_host; match_port := port; to_address := Some address; to_port := target |} in
  (if include_http then [rule 80 INTERNAL_HTTP_PORT; rule 443 INTERNAL_HTTPS_PORT] else []) ++
  ((λ port, rule port port) <$> tcp_ports).
Definition render_nftables (address public_host : N) (include_http : bool) (tcp_ports : list N) : string :=
  nft_table INGRESS_TABLE (ingress_rules address public_host include_http tcp_ports).

Definition relay_rules (tcp_ports : list N) : list NatRule :=
  (λ port, {| match_address := None; match_port := port; to_address := None;
              to_port := INTERNAL_TCP_RELAY_PORT |}) <$> tcp_ports.
Definition render_relay_netns_nftables (tcp_ports : list N) : string :=
  nft_table RELAY_NAT_TABLE (relay_rules tcp_ports).
Definition render_relay_netns_apply_script (pid : N) (tcp_ports : list N) : string :=
  let enter := "nsenter --net=/proc/" +:+ pretty pid +:+ "/ns/net -- nft " in
  enter +:+ "add table ip " +:+ RELAY_NAT_TABLE +:+ " 2>/dev/null || true" +:+ nl
  +:+ enter +:+ "-f - <<'JIJI_RELAY_NFT'" +:+ nl
  +:+ render_relay_netns_nftables tcp_ports
  +:+ "JIJI_RELAY_NFT" +:+ nl.

(** The shell function both scripts define. *)
Definition ensure_rule_function : list string :=
  ["ensure_rule() {";
   "  if ! iptables -C " +:+ quoted "$@" +:+ " 2>/dev/null; then";
   "    iptables -I " +:+ quoted "$@";
   "  fi";
   "}"].

Definition forward_ports (tcp_ports : list N) : list N := [INTERNAL_HTTP_PORT; INTERNAL_HTTPS_PORT] ++ tcp_ports.
Definition accept_rule (chain : string) (address port : N) : string :=
  "ensure_rule " +:+ chain +:+ " -d " +:+ ipv4_to_string address +:+ " -p tcp --dport " +:+ pretty port
  +:+ " -j ACCEPT".
Definition render_forward_accept_script (address : N) (tcp_ports : list N) : string :=
  let ports := forward_ports tcp_ports in
  text_lines
    (["#!/bin/sh"; "set -eu"; ""] ++ ensure_rule_function ++ [""]
     ++ (accept_rule "FORWARD" address <$> ports)
     ++ ["if iptables -n -L DOCKER-USER >/dev/null 2>&1; then"]
     ++ ((λ port, "  " +:+ accept_rule "DOCKER-USER" address port) <$> ports)
     ++ ["fi"]).

(** The first address on a network of ours in an inspection. *)
Definition surviving_proxy_address (output : string) : option N :=
  head (omap (λ line,
    '(network, address) ← split_once " " line;
    if starts_with "jiji-" network then parse_ipv4 address else None) (lines output)).

(** ** [bridge_script.rs] *)

Record BridgeScriptParams := {
  bs_bridge_name : string;
  bs_bridge_interface : string;
  bs_wireguard_interface : string;
  bs_container_subnet : Ipv4Cidr;
  bs_bridge_gateway : N;
  bs_dns_address : N;
  bs_container_cidr : Ipv4Cidr;
  bs_wireguard_port : N;
  bs_peer_public_ips : list N;
  bs_public_host : string;
}.

Section bridge.
Context (engine : ContainerEngine) (params : BridgeScriptParams).
Let e := engine_to_string engine.
Let bridge := bs_bridge_name params.
Let subnet := cidr_to_string (bs_container_subnet params).
Let gateway := ipv4_to_string (bs_bridge_gateway params).
Let mesh := cidr_to_string (bs_container_cidr params).

(** [variable=$(engine network inspect bridge --format '{{template}}')]. *)
Definition inspected (variable template : string) : string :=
  variable +:+ "=$(" +:+ e +:+ " network inspect " +:+ bridge +:+ " --format '{{" +:+ template +:+ "}}')".
Definition docker_option (key : string) : string :=
  "index .Options " +:+ quoted ("com.docker.network.bridge." +:+ key).
Definition inspections : list string :=
  match engine with
  | Docker =>
      [inspected "actual_subnet" "(index .IPAM.Config 0).Subnet";
       inspected "actual_gateway" "(index .IPAM.Config 0).Gateway";
       inspected "actual_gateway_mode" (docker_option "gateway_mode_ipv4");
       inspected "actual_trusted_interfaces" (docker_option "trusted_host_interfaces")]
  | Podman =>
      [inspected "actual_subnet" "(index .Subnets 0).Subnet";
       inspected "actual_gateway" "(index .Subnets 0).Gateway"]
  end.

Definition bridge_option (key value : string) : string := " --opt com.docker.network.bridge." +:+ key +:+ "=" +:+ value.
Definition create_command : string :=
  match engine with
  | Docker =>
      "  docker network create --driver bridge --subnet " +:+ subnet +:+ " --gateway " +:+ gateway
      +:+ bridge_option "name" (bs_bridge_interface params)
      +:+ bridge_option "enable_ip_masquerade" "false"
      +:+ bridge_option "gateway_mode_ipv4" "routed"
      +:+ bridge_option "trusted_host_interfaces" (bs_wireguard_interface params)
      +:+ " " +:+ bridge +:+ " >/dev/null"
  | Podman =>
      "  podman network create --subnet " +:+ subnet +:+ " --gateway " +:+ gateway
      +:+ " --interface-name " +:+ bs_bridge_interface params +:+ " " +:+ bridge +:+ " >/dev/null"
  end.
(** [render_docker_network] and [render_podman_network]. *)
Definition render_network : list string :=
  ["if ! " +:+ e +:+ " network inspect " +:+ bridge +:+ " >/dev/null 2>&1; then"; create_command; "fi"]
  ++ match engine with
     | Docker => []
     | Podman =>
         ["if ! ip link show " +:+ bs_bridge_interface params +:+ " >/dev/null 2>&1; then";
          "ip link add name " +:+ bs_bridge_interface params +:+ " type bridge";
          "fi";
          "ip link set " +:+ bs_bridge_interface params +:+ " up";
          "ip address replace " +:+ gateway +:+ "/" +:+ pretty (prefix (bs_container_subnet params))
            +:+ " dev " +:+ bs_bridge_interface params]
     end
  ++ inspections.

Definition check_line (variable expected complaint : string) : string :=
  "test " +:+ quoted variable +:+ " = " +:+ quoted expected +:+ " || { echo " +:+ quoted complaint
  +:+ " >&2; exit 1; }".

Definition rerun : string := "Then rerun jiji network setup".
Definition engine_option_validation : list string :=
  match engine with
  | Docker =>
      let advice := " Stop attached containers with: docker ps --filter network=" +:+ bridge
        +:+ ". Remove the incompatible bridge with: docker network rm " +:+ bridge +:+ ". " +:+ rerun
        +:+ " from the deployment machine." in
      [check_line "$actual_gateway_mode" "routed"
         (bridge +:+ " Docker network is not in routed gateway mode." +:+ advice);
       check_line "$actual_trusted_interfaces" (bs_wireguard_interface params)
         (bridge +:+ " Docker network does not trust " +:+ bs_wireguard_interface params +:+ "." +:+ advice)]
  | Podman => []
  end.

Definition drift_check (what variable expected : string) : string :=
  check_line variable expected
    (bridge +:+ " network " +:+ what +:+ " is " +:+ variable +:+ ", expected " +:+ expected
     +:+ ". Stop attached containers with: " +:+ e +:+ " ps --filter network=" +:+ bridge
     +:+ ". Remove the incompatible bridge with: " +:+ e +:+ " network rm " +:+ bridge +:+ ". " +:+ rerun
     +:+ " --hosts " +:+ bs_public_host params +:+ " from the deployment machine.").

Definition forward_rule (chain from_if to_if from_net to_net : string) : string :=
  "ensure_rule " +:+ chain +:+ " -i " +:+ from_if +:+ " -o " +:+ to_if +:+ " -s " +:+ from_net +:+ " -d " +:+ to_net
  +:+ " -j ACCEPT".
Definition mesh_rules (chain : string) : list string :=
  [forward_rule chain (bs_bridge_interface params) (bs_wireguard_interface params) subnet mesh;
   forward_rule chain (bs_wireguard_interface params) (bs_bridge_interface params) mesh subnet].

(** A [join] of no lines still leaves its own line. *)
Definition joined_lines (l : list string) : string := String.concat nl l.

Definition postrouting_comment : list string :=
  ["# Exempts mesh-bound traffic from this bridge's own postrouting masquerade/SNAT. Load-bearing on";
   "# Podman specifically: unlike Docker's bridge (created with enable_ip_masquerade=false above),";
   "# Podman's netavark backend always masquerades traffic leaving the bridge subnet toward any";
   "# destination outside it, including a remote host's own container subnet reached over WireGuard --";
   "# confirmed live: a container's real mesh address was silently rewritten to this host's own";
   "# WireGuard endpoint address before leaving, so the receiving host's own FORWARD rule (which";
   "# matches on the real container mesh CIDR, see the two ensure_rule lines above) never matched the";
   "# masqueraded source and the connection hung. Harmless on Docker, where this traffic was never";
   "# masqueraded to begin with -- applied on both engines rather than adding another engine branch."].

Definition render_restore_script : string :=
  text_lines
    (["#!/bin/sh"; "set -eu"; ""] ++ render_network
     ++ [drift_check "subnet" "$actual_subnet" subnet; drift_check "gateway" "$actual_gateway" gateway;
         joined_lines engine_option_validation; "";
         "ip address replace " +:+ ipv4_to_string (bs_dns_address params) +:+ "/32 dev " +:+ bs_bridge_interface params;
         "sysctl -w net.ipv4.ip_forward=1 >/dev/null"; ""]
     ++ ensure_rule_function ++ [""]
     ++ mesh_rules "FORWARD"
     ++ ["if iptables -n -L DOCKER-USER >/dev/null 2>&1; then"]
     ++ ((λ r, "  " +:+ r) <$> mesh_rules "DOCKER-USER")
     ++ ["fi"; ""] ++ postrouting_comment
     ++ ["if ! iptables -t nat -C POSTROUTING -d " +:+ mesh +:+ " -j ACCEPT 2>/dev/null; then";
         "  iptables -t nat -I POSTROUTING -d " +:+ mesh +:+ " -j ACCEPT"; "fi";
         joined_lines ((λ a, "ensure_rule INPUT -p udp -s " +:+ ipv4_to_string a +:+ "/32 --dport "
                             +:+ pretty (bs_wireguard_port params) +:+ " -j ACCEPT")
                       <$> bs_peer_public_ips params)]).

Definition existing_check (what variable expected : string) : string :=
  check_line variable expected
    ("Existing " +:+ bridge +:+ " bridge " +:+ what +:+ " is " +:+ variable +:+ ", expected " +:+ expected
     +:+ ". Stop the containers listed by: " +:+ e +:+ " ps --filter network=" +:+ bridge
     +:+ ". Remove it with: " +:+ e +:+ " network rm " +:+ bridge +:+ ". Then retry network setup.").
Definition render_existing_validation_command : string :=
  "set -eu; if ! " +:+ e +:+ " network inspect " +:+ bridge +:+ " >/dev/null 2>&1; then exit 0; fi; "
  +:+ String.concat "; " inspections +:+ "; "
  +:+ existing_check "subnet" "$actual_subnet" subnet +:+ "; "
  +:+ existing_check "gateway" "$actual_gateway" gateway +:+ "; "
  +:+ joined_lines engine_option_validation.
End bridge.

(** ** What is rendered, on an example *)

Lemma render_examples :
  render_nftables 1684783108 3405803786 true [5432] = text_lines
    ["delete table ip jiji_proxy_ingress"; "table ip jiji_proxy_ingress {"; tab +:+ "chain prerouting {";
     tab +:+ tab +:+ "type nat hook prerouting priority dstnat - 5; policy accept;";
     tab +:+ tab +:+ "ip daddr 203.0.113.10 tcp dport 80 dnat to 100.107.192.4:8080";
     tab +:+ tab +:+ "ip daddr 203.0.113.10 tcp dport 443 dnat to 100.107.192.4:8443";
     tab +:+ tab +:+ "ip daddr 203.0.113.10 tcp dport 5432 dnat to 100.107.192.4:5432"; tab +:+ "}"; "}"] ∧
  surviving_proxy_address (text_lines ["podman 10.88.0.2"; "jiji-demo 10.0.2.9"]) = Some 167772681.
Proof. by vm_compute. Qed.
