(* ===== verification/Discovery.v ===== *)
(** What the agent sees of its containers and images: discovery and the recovery of leases from
    labels ([jiji-agent/src/discovery.rs]) and the pruning of images
    ([jiji-agent/src/image_retention.rs]).

    Labels are kept as JSON text: writing and reading it is a parameter ([LabelJson]), with
    the round trip of [serde_json] as its law. *)

From S2P Require Import Prelude Text Bytes Substring Cidr Naming Schema Planner ServiceRuntime.
From S2P Require Import Membership Catalog Desired OpLog Leases Cron CronExec Replication Store Api Session Daemon.
Open Scope N_scope.

(** A JSON object of strings, and the string under a key of a JSON text: [None] when the text
    is not JSON. *)
Class LabelJson := {
  labels_to_json : list (string * string) → string;
  read_labels : string → option (string → option string);
}.

(** The first value under a key; the object discovery writes has each key once. *)
Fixpoint assoc (key : string) (l : list (string * string)) : option string :=
  match l with
  | [] => None
  | (k, v) :: l => if bool_decide (k = key) then Some v else assoc key l
  end.

Class LabelJsonLaws `{LabelJson} := {
  labels_round_trip l : NoDup l.*1 → ∃ f, read_labels (labels_to_json l) = Some f ∧ ∀ key, f key = assoc key l;
}.

Section discovery.
Context `{OperatingSystem, LabelJson}.

Inductive DiscoveryOutcome :=
| Observed (observations : list Observation)
| EngineUnavailable (error : string)
| EngineError (error : string).

Definition label_names : list string :=
  ["jiji.service"; "jiji.catalog-managed"; "jiji.replica"; "jiji.deployment"; "jiji.lease";
   "jiji.lease-owned"; "jiji.lifecycle"].

Definition discovery_template (engine : ContainerEngine) : string :=
  "{{.ID}}|{{.Names}}|{{.Image}}|" +:+ String.concat "|" (label_template engine <$> label_names) +:+ "|{{.State}}".

(** The next field of a line, trimmed; the empty text past the last. *)
Definition field (fields : list string) (i : nat) : string := trim (default "" (fields !! i)).

Definition parse_line (line : string) : option Observation :=
  let fields := split_char "|" line in
  if bool_decide (field fields 0 = "") then None
  else Some {| container_id := field fields 0; observed_name := field fields 1; observed_image := field fields 2;
               labels_json := labels_to_json (imap (λ i key, (key, field fields (3 + i))) label_names);
               observed_state := field fields 10 |}.
Definition parse_lines (out : string) : list Observation :=
  omap parse_line (filter (λ l, trim_is_empty l = false) (lines out)).

Definition discover {E} (engine : ContainerEngine) (project : string) : Task E DiscoveryOutcome :=
  r ← outcome_of (output [engine_to_string engine; "ps"; "-a"; "--filter"; "label=jiji.managed=true";
                          "--filter"; "label=jiji.project=" +:+ project; "--format"; discovery_template engine]);
  mret (match r with
        | Ok o => if output_success o then Observed (parse_lines (output_stdout o)) else EngineError (error_text o)
        | Err error => EngineUnavailable error
        end).

(** A label that is there and not empty. *)
Definition filled (labels : string → option string) (key : string) : option string :=
  v ← labels key; if bool_decide (v = "") then None else Some v.

(** The lease the labels of a container claim. *)
Definition claimed_lease (o : Observation) : option (string * string * N) :=
  labels ← read_labels (labels_json o);
  if negb (bool_decide (filled labels "jiji.catalog-managed" = Some "true")) then None
  else if bool_decide (filled labels "jiji.lease-owned" = Some "false") then None
  else
    deployment ← filled labels "jiji.deployment";
    replica ← filled labels "jiji.replica";
    text ← filled labels "jiji.lease";
    address ← parse_ipv4 text;
    Some (deployment, replica, address).

Definition recover_labeled_lease (st : nat * LeaseTables) (o : Observation) : nat * LeaseTables :=
  match claimed_lease o with
  | None => st
  | Some (deployment, replica, address) =>
      let '(recovered, t) := recover_address_lease st.2 deployment replica address in
      (if recovered then S st.1 else st.1, t)
  end.
Definition recover_labeled_leases (t : LeaseTables) (observations : list Observation) : nat * LeaseTables :=
  foldl recover_labeled_lease (0%nat, t) observations.

Definition with_lease_db (d : Database) (t : LeaseTables) : Database :=
  with_db_store d (with_agent (db_store d) (with_lease_tables (agent (db_store d)) t)).
Definition lease_db (d : Database) : LeaseTables := lease_tables (agent (db_store d)).

(** One pass of [run_loop]. *)
Definition discovery_pass {E} (engine : ContainerEngine) (project : string) : Task E () :=
  outcome ← discover engine project;
  match outcome with
  | Observed observations =>
      d ← database;
      now ← timestamp;
      let t := (recover_labeled_leases (lease_db d) observations).2 in
      let t := foldl upsert_observation t observations in
      let t := (retain_observations t (container_id <$> observations)).1 in
      set_database (with_lease_db d (set_checkpoint t "last_discovery_at" (pretty now)))
  | EngineUnavailable _ | EngineError _ => mret ()
  end.

(** ** [image_retention.rs] *)

Definition list_images (engine : ContainerEngine) (repo : string) : Task string (list (string * string)) :=
  o ← output [engine_to_string engine; "images"; "--format"; "{{.ID}} {{.Repository}}:{{.Tag}}"; "--filter";
              "reference=" +:+ repo];
  if output_success o then
    lift_result (try_fold (λ images line,
      match split_once " " line with
      | Some image => Ok (images ++ [image])
      | None => Err ("unexpected images output line: " +:+ quote_char +:+ line +:+ quote_char)
      end) [] (trimmed_lines (output_stdout o)))
  else throw (error_text o).

Definition list_container_images (engine : ContainerEngine) : Task string (list string) :=
  o ← output [engine_to_string engine; "ps"; "-a"; "--format"; "{{.Image}}"];
  if output_success o then mret (trimmed_lines (output_stdout o)) else throw (error_text o).

Definition is_missing_image_error (stderr : string) : bool :=
  let lower := str_to_ascii_lowercase stderr in
  contains_str "no such image" lower || contains_str "image not known" lower.

(** [Some] error when the image is still there. *)
Definition remove_image {E} (engine : ContainerEngine) (image_id : string) : Task E (option string) :=
  r ← outcome_of (output [engine_to_string engine; "rmi"; image_id]);
  mret (match r with
        | Ok o => if output_success o || is_missing_image_error (error_text o) then None else Some (error_text o)
        | Err error => Some error
        end).

Fixpoint prune_images {E} (engine : ContainerEngine) (in_use : list string) (images : list (string * string)) :
    Task E (list (string * string)) :=
  match images with
  | [] => mret []
  | (id, name) :: images =>
      failure ← (if bool_decide (name ∈ in_use) then mret None else remove_image engine id);
      failures ← prune_images engine in_use images;
      mret (match failure with Some error => (id, error) :: failures | None => failures end)
  end.

Definition prune_repo (engine : ContainerEngine) (repo : string) (retain : N) : Task string (list (string * string)) :=
  images ← list_images engine repo;
  in_use ← list_container_images engine;
  prune_images engine in_use (drop (N.to_nat retain) images).
End discovery.

(** * Properties *)

(** ** Recovered leases *)

(** The same address for the same replica. *)
Definition same_claim (l l' : AddressLease) : Prop :=
  lease_replica l' = lease_replica l ∧ lease_address l' = lease_address l.

Definition holds (t : LeaseTables) (claim : string * string * N) : Prop :=
  let '(d, r, a) := claim in ∃ l, leases t !! d = Some l ∧ lease_replica l = r ∧ lease_address l = a.

(** Another claim stands in its way. *)
Definition contested (t : LeaseTables) (claim : string * string * N) : Prop :=
  let '(d, r, a) := claim in
  ∃ d' l, leases t !! d' = Some l ∧
    (d' = d ∧ (lease_replica l ≠ r ∨ lease_address l ≠ a) ∨ d' ≠ d ∧ lease_address l = a).

(** Leases only grow, and every lease that is new is the claim of some container. *)
Record recovers (claims : list (string * string * N)) (t t' : LeaseTables) : Prop := {
  rv_wf : leases_wf (leases t) → leases_wf (leases t');
  rv_kept : ∀ d l, leases t !! d = Some l → ∃ l', leases t' !! d = Some l' ∧ same_claim l l';
  rv_new : ∀ d l, leases t' !! d = Some l → leases t !! d = None → (d, lease_replica l, lease_address l) ∈ claims;
  rv_claims : ∀ c, c ∈ claims → holds t' c ∨ contested t' c;
}.

Lemma holds_kept t t' c :
  (∀ d l, leases t !! d = Some l → ∃ l', leases t' !! d = Some l' ∧ same_claim l l') →
  holds t c ∨ contested t c → holds t' c ∨ contested t' c.
Proof.
  intros Hk. destruct c as [[d r] a]. intros [(l & Hl & Hr & Ha)|(d' & l & Hl & Hc)].
  - left. destruct (Hk _ _ Hl) as (l' & Hl' & Hr' & Ha'). exists l'. split_and!; [done|congruence..].
  - right. destruct (Hk _ _ Hl) as (l' & Hl' & Hr' & Ha'). exists d', l'. split; [done|].
    by rewrite Hr', Ha'.
Qed.

Lemma recovers_nil t : recovers [] t t.
Proof. split; [done| | |]; [by intros d l Hl; exists l|congruence|set_solver]. Qed.

Lemma recovers_app cs1 cs2 t1 t2 t3 :
  recovers cs1 t1 t2 → recovers cs2 t2 t3 → recovers (cs1 ++ cs2) t1 t3.
Proof.
  intros [W1 K1 N1 C1] [W2 K2 N2 C2]. split.
  - auto.
  - intros d l Hl. destruct (K1 _ _ Hl) as (l1 & Hl1 & ? & ?), (K2 _ _ Hl1) as (l2 & Hl2 & ? & ?).
    exists l2. split; [done|]. split; congruence.
  - intros d l Hl Hn. apply elem_of_app. destruct (leases t2 !! d) as [l2|] eqn:Hl2; [left|right; by apply N2].
    destruct (K2 _ _ Hl2) as (l' & Hl' & Hr & Ha). assert (l' = l) as -> by congruence.
    rewrite Hr, Ha. by apply N1.
  - intros c [Hc|Hc]%elem_of_app; [|by apply C2]. eapply holds_kept; [done|]. by apply C1.
Qed.

Lemma recover_address_lease_recovers t d r a :
  recovers [(d, r, a)] t (recover_address_lease t d r a).2.
Proof.
  assert (leases_wf (leases t) → leases_wf (leases (recover_address_lease t d r a).2)) as Hwf.
  { intros Hw. eapply (LeasesProps.lstep_wf (H := {| deployment_label _ := None |})); [done|apply LeasesProps.lstep_recover]. }
  unfold recover_address_lease, address_lease in *. destruct (leases t !! d) as [l|] eqn:Hl.
  - destruct (negb _ || negb _) eqn:Hb.
    + split; [done|by intros d' l' ?; exists l'|simpl; congruence|].
      intros c ->%list_elem_of_singleton. right. exists d, l. split; [done|]. left. split; [done|].
      apply orb_true_iff in Hb as [Hb|Hb]; bool_to_prop; [by left|right]. by apply N.eqb_neq.
    + apply orb_false_iff in Hb as [Hb1 Hb2]. bool_to_prop. apply N.eqb_eq in Hb2. simpl. split; [done| | |].
      * intros d' l' Hl'. destruct (decide (d = d')) as [<-|Hne]; simpl.
        -- rewrite lookup_insert_eq. eexists. split; [done|]. simplify_eq. done.
        -- rewrite lookup_insert_ne by done. by exists l'.
      * simpl. intros d' l' [[<- <-]|[_ ?]]%lookup_insert_Some Hn; congruence.
      * intros c ->%list_elem_of_singleton. left. eexists. simpl. rewrite lookup_insert_eq. by split_and!.
  - destruct (address_taken t a) eqn:Ht.
    + split; [done|by intros d' l' ?; exists l'|simpl; congruence|].
      intros c ->%list_elem_of_singleton. right. apply address_taken_true in Ht as (d' & l' & Hl' & Ha').
      exists d', l'. split; [done|]. right. split; [congruence|done].
    + simpl. split; [done| | |].
      * intros d' l' Hl'. exists l'. simpl. rewrite lookup_insert_ne by congruence. done.
      * simpl. intros d' l' [[<- <-]|[_ ?]]%lookup_insert_Some Hn; [by left|congruence].
      * intros c ->%list_elem_of_singleton. left. eexists. simpl. rewrite lookup_insert_eq. by split_and!.
Qed.

Section recovery.
Context `{LabelJson}.

Lemma recover_labeled_leases_recovers t os :
  recovers (omap claimed_lease os) t (recover_labeled_leases t os).2.
Proof.
  unfold recover_labeled_leases. generalize 0%nat. revert t.
  induction os as [|o os IH]; intros t n; [apply recovers_nil|]. cbn [foldl omap list_omap].
  unfold recover_labeled_lease at 2. destruct (claimed_lease o) as [[[d r] a]|]; [|apply IH]. simpl.
  pose proof (recover_address_lease_recovers t d r a) as Hr.
  destruct (recover_address_lease t d r a) as [b t1]. simpl in Hr.
  exact (recovers_app [(d, r, a)] _ _ _ _ Hr (IH t1 _)).
Qed.
End recovery.

(** ** What a pass writes *)

Lemma upsert_observations t os :
  leases (foldl upsert_observation t os) = leases t ∧
  checkpoints (foldl upsert_observation t os) = checkpoints t ∧
  observations (foldl upsert_observation t os) =
    list_to_map (reverse ((λ o, (container_id o, o)) <$> os)) ∪ observations t.
Proof.
  revert t. induction os as [|o os IH]; intros t.
  { simpl. by rewrite map_empty_union. }
  cbn [foldl]. destruct (IH (upsert_observation t o)) as (-> & -> & ->). split_and!; [done..|].
  rewrite fmap_cons, reverse_cons, list_to_map_app, <-map_union_assoc. f_equal. simpl.
  by rewrite <-insert_union_l, map_empty_union.
Qed.

Lemma pass_observations t os :
  observations (retain_observations (foldl upsert_observation t os) (container_id <$> os)).1 =
    list_to_map (reverse ((λ o, (container_id o, o)) <$> os)).
Proof.
  unfold retain_observations. simpl. destruct (upsert_observations t os) as (_ & _ & ->).
  set (m := list_to_map (reverse _) : gmap string Observation).
  assert (∀ n, is_Some (m !! n) ↔ n ∈ container_id <$> os) as Hm.
  { intros n. unfold m. split.
    - intros [o Ho%elem_of_list_to_map_2]. apply elem_of_reverse, list_elem_of_fmap in Ho as (o' & [= -> ->] & Ho).
      by apply list_elem_of_fmap_2.
    - intros (o & -> & Ho)%list_elem_of_fmap.
      destruct (list_to_map (reverse ((λ o, (container_id o, o)) <$> os)) !! container_id o) as [x|] eqn:Hx;
        [by eexists|]. apply not_elem_of_list_to_map_2 in Hx. destruct Hx.
      apply list_elem_of_fmap. exists (container_id o, o). split; [done|]. apply elem_of_reverse.
      apply list_elem_of_fmap. by exists o. }
  apply map_eq. intros n. apply option_eq. intros o. rewrite map_lookup_filter_Some. simpl.
  rewrite lookup_union_Some_raw. split.
  - intros [[Hn|[Hn _]] Hin]; [done|]. apply Hm in Hin as [? ?]. congruence.
  - intros Hn. split; [by left|]. apply Hm. by eexists.
Qed.

(** ** Pruning *)

Section pruning.
Context `{OperatingSystem}.

(** A removal of an image that may go. *)
Definition prunes (engine : ContainerEngine) (images : list (string * string)) (in_use : list string)
    (c : Spawned) : Prop :=
  ∃ id name, spawned_argv c = [engine_to_string engine; "rmi"; id] ∧ (id, name) ∈ images ∧ name ∉ in_use.

Lemma command_output_run argv input (p : Process) :
  ∃ out h, command_output argv input p =
    (fallible out, {| p_database := p_database p; p_host := h;
                      p_commands := p_commands p ++ [{| spawned_argv := argv; spawned_outcome := out |}] |}).
Proof. unfold command_output. destruct (spawn argv input (p_host p)) as [out h]. by exists out, h. Qed.

Lemma remove_image_run {E} engine id (p : Process) :
  ∃ failure out h, remove_image (E := E) engine id p =
    (Ok failure, {| p_database := p_database p; p_host := h;
       p_commands := p_commands p ++
         [{| spawned_argv := [engine_to_string engine; "rmi"; id]; spawned_outcome := out |}] |}).
Proof.
  unfold remove_image, outcome_of, output, mbind, Task_bind.
  destruct (command_output_run [engine_to_string engine; "rmi"; id] "" p) as (out & h & ->).
  destruct out as [o|e]; simpl; by eexists _, _, h.
Qed.

Lemma prunes_weaken engine image images in_use c :
  prunes engine images in_use c → prunes engine (image :: images) in_use c.
Proof. intros (id & name & ? & ? & ?). exists id, name. split_and!; [done|by right|done]. Qed.

Lemma prune_images_run {E} engine in_use images (p : Process) :
  ∃ failures p' removed, prune_images (E := E) engine in_use images p = (Ok failures, p') ∧
    p_commands p' = p_commands p ++ removed ∧ Forall (prunes engine images in_use) removed.
Proof.
  revert p. induction images as [|[id name] images IH]; intros p.
  { exists [], p, []. by rewrite app_nil_r. }
  cbn [prune_images]. unfold mbind, Task_bind. case_bool_decide as Hin.
  - simpl. destruct (IH p) as (fs & p' & removed & -> & Hr & Hf). exists fs, p', removed.
    split_and!; [done..|]. eapply Forall_impl; [exact Hf|]. intros c. apply prunes_weaken.
  - destruct (remove_image_run (E := E) engine id p) as (failure & out & h & ->).
    set (c := {| spawned_argv := _; spawned_outcome := out |}).
    destruct (IH {| p_database := p_database p; p_host := h; p_commands := p_commands p ++ [c] |})
      as (fs & p' & removed & -> & Hr & Hf).
    eexists _, p', (c :: removed). split_and!; [done|by rewrite Hr; simpl; rewrite <-app_assoc|].
    constructor; [exists id, name; (split_and!; [done|by left|done])|].
    eapply Forall_impl; [exact Hf|]. intros c'. apply prunes_weaken.
Qed.
End pruning.

Module DiscoveryProps.

(** Labels never steal a lease.  Recovering leases from the labels of the containers that
    are seen keeps addresses unique and every lease with its replica and address; a lease that
    appears is the claim of a container that was seen; and every claim of a container is then
    either its lease or stands against the lease of another. *)
Theorem labels_never_steal_a_lease `{LabelJson} (t : LeaseTables) (os : list Observation) :
  let t' := (recover_labeled_leases t os).2 in
  (leases_wf (leases t) → leases_wf (leases t')) ∧
  (∀ d l, leases t !! d = Some l → ∃ l', leases t' !! d = Some l' ∧ same_claim l l') ∧
  (∀ d l, leases t' !! d = Some l → leases t !! d = None →
     ∃ o, o ∈ os ∧ claimed_lease o = Some (d, lease_replica l, lease_address l)) ∧
  (∀ o c, o ∈ os → claimed_lease o = Some c → holds t' c ∨ contested t' c).
Proof.
  destruct (recover_labeled_leases_recovers t os) as [W K N C]. split_and!; [done|done| |].
  - intros d l Hl Hn. destruct (proj1 (list_elem_of_omap _ _ _) (N _ _ Hl Hn)) as (o & ? & ?). by exists o.
  - intros o c Ho Hc. apply C, list_elem_of_omap. by exists o.
Qed.

(** A pass of discovery either leaves the database as it was, when the engine could not be
    asked or failed, or leaves in it just the containers the engine listed, the last line of
    each: what was seen before and is not there any more goes, and no lease changes but by
    recovery. *)
Theorem discovery_records_what_it_sees `{OperatingSystem, LabelJson} (engine : ContainerEngine)
    (project : string) (p : Process) :
  let p' := (discovery_pass (E := string) engine project p).2 in
  match (discover (E := string) engine project p).1 with
  | Ok (Observed os) =>
      observations (lease_db (p_database p')) = list_to_map (reverse ((λ o, (container_id o, o)) <$> os)) ∧
      leases (lease_db (p_database p')) = leases (recover_labeled_leases (lease_db (p_database p)) os).2 ∧
      is_Some (get_checkpoint (lease_db (p_database p')) "last_discovery_at")
  | _ => p_database p' = p_database p
  end.
Proof.
  unfold discovery_pass, discover, mbind, Task_bind, outcome_of, output.
  destruct (command_output_run [engine_to_string engine; "ps"; "-a"; "--filter"; "label=jiji.managed=true";
    "--filter"; "label=jiji.project=" +:+ project; "--format"; discovery_template engine] "" p) as (out & h & ->).
  destruct out as [o|e]; simpl; [|done]. destruct (output_success o); simpl; [|done].
  set (t := recover_labeled_leases _ _). split_and!.
  - pose proof (pass_observations t.2 (parse_lines (output_stdout o))) as Hp. unfold retain_observations in Hp.
    simpl in Hp. exact Hp.
  - by destruct (upsert_observations t.2 (parse_lines (output_stdout o))) as (-> & _).
  - unfold get_checkpoint. simpl. rewrite lookup_insert_eq. by eexists.
Qed.

(** Pruning the images of a repository removes only images past the newest [retain] that no
    container uses, and reports what it could not remove. *)
Theorem pruning_keeps_recent_and_used_images `{OperatingSystem} (engine : ContainerEngine)
    (repo : string) (retain : N) (p p1 p2 : Process) images in_use :
  list_images engine repo p = (Ok images, p1) → list_container_images engine p1 = (Ok in_use, p2) →
  ∃ failures p3 removed, prune_repo engine repo retain p = (Ok failures, p3) ∧
    p_commands p3 = p_commands p2 ++ removed ∧
    Forall (prunes engine (drop (N.to_nat retain) images) in_use) removed.
Proof.
  intros Hi Hu. unfold prune_repo, mbind, Task_bind. rewrite Hi. simpl. rewrite Hu.
  apply prune_images_run.
Qed.

(** An engine with three images of a repository, the second in use. *)
Definition sample_engine : OperatingSystem :=
  {| host := (); unix_timestamp _ := 0; resolve_socket _ := None;
     spawn argv _ h :=
       let printed l := Ok {| output_stdout := String.concat (String newline "") l; output_stderr := "";
                              output_success := true |} in
       (match argv !! 1%nat with
        | Some "images" => printed ["i3 app:3"; "i2 app:2"; "i1 app:1"]
        | Some "ps" => printed ["app:2"]
        | _ => printed []
        end, h) |}.

Lemma pruning_keeps_recent_and_used_images_witness :
  let p := @Build_Process sample_engine
    {| db_store := ApiProps.sample_store; db_peer_cache := ∅; db_liveness := ∅ |} tt [] in
  ∃ p1 p2 failures p3 removed,
    @list_images sample_engine Docker "app" p = (Ok [("i3", "app:3"); ("i2", "app:2"); ("i1", "app:1")], p1) ∧
    @list_container_images sample_engine Docker p1 = (Ok ["app:2"], p2) ∧
    @prune_repo sample_engine Docker "app" 1 p = (Ok failures, p3) ∧ p_commands p3 = p_commands p2 ++ removed ∧
    Forall (prunes Docker [("i2", "app:2"); ("i1", "app:1")] ["app:2"]) removed.
Proof.
  intros p. exists (@list_images sample_engine Docker "app" p).2.
  exists (@list_container_images sample_engine Docker (@list_images sample_engine Docker "app" p).2).2.
  destruct (@pruning_keeps_recent_and_used_images sample_engine Docker "app" 1 p
    (@list_images sample_engine Docker "app" p).2
    (@list_container_images sample_engine Docker (@list_images sample_engine Docker "app" p).2).2
    [("i3", "app:3"); ("i2", "app:2"); ("i1", "app:1")] ["app:2"] eq_refl eq_refl)
    as (failures & p3 & removed & Hrun & Hc & Hf).
  exists failures, p3, removed. exact (conj eq_refl (conj eq_refl (conj Hrun (conj Hc Hf)))).
Defined.
End DiscoveryProps.
