(* ===== verification/Reconcile.v ===== *)
(** The agent's repair loop ([jiji-agent/src/local_reconcile.rs]) with what it calls: the
    bring-up of the WireGuard interface ([wireguard_bringup.rs]), of the bridge
    ([bridge_bringup.rs]) and of the shared proxy ([proxy_bringup.rs]), and the lease that
    keeps agents of other projects off the proxy ([host_lease.rs]).

    Files, the advisory lock, waiting, JSON and the texts of store errors are parameters
    ([AgentEnvironment]).  A command that runs out of its time is one of the ways it fails. *)

From S2P Require Import Prelude Text Bytes Substring Cidr Naming Schema Planner ServiceRuntime.
From S2P Require Import Membership Catalog Desired OpLog Leases Cron CronExec Replication Store Api CandidatePlan.
From S2P Require Import Session Daemon Wireguard ProxyScript Discovery.
Open Scope N_scope.

(** What a process that has a lock file open calls itself, if it can be read. *)
Inductive Flock := Acquired | WouldBlock | FlockFailed (e : string).

Class AgentEnvironment `{OperatingSystem} := {
  create_dir_all : string → host → result string () * host;
  write_file : string → string → host → result string () * host;
  open_lock : string → host → result string () * host;
  flock : string → host → Flock * host;
  lock_holders : string → host → result string (list (option string)) * host;
  remove_file : string → host → result string () * host;
  unlock : string → host → host;
  pause : N → host → host;
  capacity : host → Capacity;
  route_exists_field : string → result string (option bool);
  store_error_text : StoreError → string;
  membership_error_text : MembershipError → string;
}.

Section reconcile.
Context `{AgentEnvironment, LabelJson, ProxyBuild}.
Context `{ContentHash MembershipRecord, ContentHash CatalogRecord}.

Definition on_host {A} (f : host → result string A * host) : Task string A := λ p,
  let '(r, h) := f (p_host p) in
  (fallible r, {| p_database := p_database p; p_host := h; p_commands := p_commands p |}).
Definition change_host {E} (f : host → host) : Task E () := λ p,
  (Ok (), {| p_database := p_database p; p_host := f (p_host p); p_commands := p_commands p |}).

(** ** [wireguard_bringup.rs] and [bridge_bringup.rs] *)

(** [run] of the bring-up modules: the error of a program that cannot be started names it. *)
Definition run (argv : list string) : Task string () :=
  o ← mapping_error (λ e, "could not run " +:+ default "" (head argv) +:+ ": " +:+ e) (output argv);
  if output_success o then mret () else throw (error_text o).

Definition bring_up_interface (interface : string) (management_address listen_port : N)
    (private_key_path : string) : Task string () :=
  present ← command_ok ["ip"; "link"; "show"; "dev"; interface];
  _ ← (if (present : bool) then mret () else run ["ip"; "link"; "add"; interface; "type"; "wireguard"]);
  _ ← run ["wg"; "set"; interface; "private-key"; private_key_path; "listen-port"; pretty listen_port];
  _ ← run ["ip"; "address"; "replace"; ipv4_to_string management_address +:+ "/32"; "dev"; interface];
  run ["ip"; "link"; "set"; interface; "up"].

Definition run_script (script : string) : Task string () :=
  o ← mapping_error (λ e, "could not spawn sh to run script: " +:+ e) (command_output ["sh"; "-s"] script);
  if output_success o then mret () else throw (error_text o).

Definition bridge_params (wireguard_interface : string) (dns_address : N) (local : LocalRuntimeConfig) :
    BridgeScriptParams :=
  {| bs_bridge_name := lr_bridge_network local; bs_bridge_interface := lr_bridge_interface local;
     bs_wireguard_interface := wireguard_interface; bs_container_subnet := lr_container_subnet local;
     bs_bridge_gateway := lr_bridge_gateway local; bs_dns_address := dns_address;
     bs_container_cidr := lr_container_cidr local; bs_wireguard_port := lr_wireguard_port local;
     bs_peer_public_ips := lr_peer_public_ips local; bs_public_host := lr_public_host local |}.
Definition bring_up_bridge_and_dns (engine : ContainerEngine) (wireguard_interface : string) (dns_address : N)
    (local : LocalRuntimeConfig) : Task string () :=
  run_script (render_restore_script engine (bridge_params wireguard_interface dns_address local)).

(** ** [host_lease.rs] *)

Definition DEFAULT_PATH : string := "/etc/jiji/proxy-ingress/agent.lock".

Definition is_container_helper (name : string) : bool :=
  bool_decide (name ∈ ["aardvark-dns"; "catatonit"; "conmon"; "crun"; "fuse-overlayfs"; "pasta";
                       "rootlessport"; "slirp4netns"]).

(** The processes other than this one that have the file open. *)
Definition held_only_by_inherited_helpers (holders : list (option string)) : bool :=
  negb (bool_decide (holders = [])) &&
  forallb (λ holder, match holder with Some name => is_container_helper (trim name) | None => false end) holders.

Definition try_acquire (path : string) : Task string bool :=
  _ ← on_host (create_dir_all "/etc/jiji/proxy-ingress");
  _ ← on_host (open_lock path);
  first ← on_host (λ h, let '(r, h) := flock path h in (Ok r, h));
  match first with
  | Acquired => mret true
  | FlockFailed e => throw e
  | WouldBlock =>
      holders ← on_host (lock_holders path);
      if held_only_by_inherited_helpers holders then
        _ ← on_host (remove_file path);
        _ ← on_host (open_lock path);
        second ← on_host (λ h, let '(r, h) := flock path h in (Ok r, h));
        match second with
        | Acquired => mret true
        | WouldBlock => mret false
        | FlockFailed e => throw e
        end
      else mret false
  end.

(** ** [proxy_bringup.rs] *)

Section proxy.
Context (engine : ContainerEngine).
Let e := engine_to_string engine.

Definition upload_daemon_config : Task string () :=
  _ ← on_host (create_dir_all CONFIG_DIR);
  on_host (write_file (CONFIG_DIR +:+ "/config.yml") render_daemon_config).

Definition is_current_and_running (fingerprint : string) : Task string bool :=
  o ← output [e; "inspect"; CONTAINER_NAME; "--format";
              "{{.State.Status}} {{index .Config.Labels " +:+ quoted "jiji.proxy-config" +:+ "}} {{.Config.Image}}"];
  mret (output_success o &&
        bool_decide (trim (output_stdout o) = "running " +:+ fingerprint +:+ " " +:+ proxy_image)).

(** At most [tries] looks, a second apart. *)
Fixpoint wait_until_running (tries : nat) : Task string () :=
  match tries with
  | O => throw "jiji-proxy did not become ready within 30 seconds"
  | S tries =>
      o ← output [e; "inspect"; CONTAINER_NAME; "--format"; "{{.State.Status}}"];
      if output_success o && bool_decide (trim (output_stdout o) = "running") then mret ()
      else _ ← change_host (pause 1); wait_until_running tries
  end.

Definition run_shell (command : string) : Task string () :=
  o ← mapping_error (λ e, "could not run shell command: " +:+ e) (output ["sh"; "-c"; command]);
  if output_success o then mret () else throw (error_text o).

Definition recreate (fingerprint : string) (config : NodeConfig) : Task string () :=
  _ ← on_host (create_dir_all CERTS_DIR);
  _ ← run [e; "pull"; proxy_image];
  o ← output [e; "container"; "rm"; "-f"; CONTAINER_NAME];
  if negb (output_success o) && negb (is_missing_container_error (output_stderr o)) then
    throw ("could not replace jiji-proxy: " +:+ error_text o)
  else
    let network := {| run_bridge_name := lr_bridge_network (nd_local_runtime config);
                      run_proxy_address := lr_proxy_address (nd_local_runtime config) |} in
    _ ← run_shell (render_run_command engine (Some network) fingerprint);
    wait_until_running 30.

Definition connect_proxy (config : NodeConfig) : list string :=
  [e; "network"; "connect"; "--ip"; ipv4_to_string (lr_proxy_address (nd_local_runtime config));
   lr_bridge_network (nd_local_runtime config); CONTAINER_NAME].

Definition ensure_attached (config : NodeConfig) : Task string () :=
  let local := nd_local_runtime config in
  o ← output [e; "inspect"; CONTAINER_NAME; "--format"; "{{json .NetworkSettings.Networks}}"];
  if negb (output_success o) then throw ("jiji-proxy is unavailable: " +:+ error_text o)
  else
    match attached_address (output_stdout o) (lr_bridge_network local) with
    | Some existing =>
        if existing =? lr_proxy_address local then mret ()
        else throw ("jiji-proxy is already attached to '" +:+ lr_bridge_network local +:+ "' with address "
                    +:+ ipv4_to_string existing +:+ ", expected " +:+ ipv4_to_string (lr_proxy_address local))
    | None => run (connect_proxy config)
    end.

Definition RULES_DIR : string := "/etc/jiji/proxy-ingress".
Definition apply_ingress_rule (address public_host : N) (include_http : bool) (tcp_ports : list N) : Task string () :=
  let rules_path := RULES_DIR +:+ "/rules.nft" in
  _ ← on_host (create_dir_all RULES_DIR);
  _ ← on_host (write_file rules_path (render_nftables address public_host include_http tcp_ports));
  _ ← ignoring (run ["nft"; "add"; "table"; "ip"; INGRESS_TABLE]);
  run ["nft"; "--file"; rules_path].

Definition container_pid : Task string N :=
  o ← output [e; "inspect"; CONTAINER_NAME; "--format"; "{{.State.Pid}}"];
  if negb (output_success o) then throw ("could not read jiji-proxy's PID: " +:+ error_text o)
  else lift_result (map_err (λ e, "jiji-proxy reported a non-numeric PID: " +:+ parse_int_error_text e)
                      (parse_uint u32_max (trim (output_stdout o)))).

Definition tcp_ports (config : NodeConfig) : list N := trs_listen_port <$> lr_tcp_routes (nd_local_runtime config).

(** [reconcile]; the lease is given back when its guard goes out of scope. *)
Definition reconcile_proxy (config : NodeConfig) : Task string () :=
  let local := nd_local_runtime config in
  let ports := tcp_ports config in
  let fingerprint := config_fingerprint engine in
  _ ← upload_daemon_config;
  is_current ← is_current_and_running fingerprint;
  lease ← mapping_error (λ e, "could not acquire the host proxy lease: " +:+ e) (try_acquire DEFAULT_PATH);
  let give_back : Task string () := if (lease : bool) then change_host (unlock DEFAULT_PATH) else mret () in
  if negb is_current && negb lease then mret ()
  else
    r ← outcome_of (if (is_current : bool) then mret () else
          current ← is_current_and_running fingerprint;
          if (current : bool) then mret () else recreate fingerprint config);
    _ ← give_back;
    _ ← lift_result r;
    _ ← ensure_attached config;
    _ ← (if bool_decide (engine = Docker) || negb (bool_decide (ports = [])) then
           match parse_ipv4 (lr_public_host local) with
           | None => throw "public_host is not a valid IPv4 address: invalid IPv4 address syntax"
           | Some public_host =>
               apply_ingress_rule (lr_proxy_address local) public_host (bool_decide (engine = Docker)) ports
           end
         else mret ());
    _ ← run_script (render_forward_accept_script (lr_proxy_address local) ports);
    pid ← container_pid;
    run_script (render_relay_netns_apply_script pid ports).
End proxy.

(** ** [local_reconcile.rs] *)

(** *** Backoff *)

Definition MIN_BACKOFF : N := 2.
Definition MAX_BACKOFF : N := 60.

(** The number of failures is a [u32]; the delay in seconds and the failures afterwards. *)
Definition backoff_success : N * N := (MIN_BACKOFF, 0).
Definition backoff_failure (failures : N) : N * N :=
  let failures := N.min (failures + 1) u32_max in
  let multiplier := N.shiftl 1 (N.min (saturating_sub failures 1) 5) in
  (N.min (MIN_BACKOFF * (multiplier mod 2 ^ 32)) MAX_BACKOFF, failures).

(** *** Links and the bridge *)

Definition address_shown (interface : string) : list string := ["ip"; "-4"; "address"; "show"; "dev"; interface].

Definition link_has_management_address {E} (interface : string) (address : N) : Task E bool :=
  r ← outcome_of (output (address_shown interface));
  mret (match r with
        | Ok o => output_success o && contains_str (ipv4_to_string address +:+ "/32") (output_stdout o)
        | Err _ => false
        end).

Definition ensure_link (interface : string) (bind : SocketAddr) (listen_port : N) (private_key_path : string) :
    Task string () :=
  match bind with
  | SocketV6 _ _ => throw "WireGuard management address must be IPv4"
  | SocketV4 management_address _ =>
      up ← link_has_management_address interface management_address;
      if (up : bool) then mret ()
      else
        _ ← bring_up_interface interface management_address listen_port private_key_path;
        up ← link_has_management_address interface management_address;
        if (up : bool) then store_peer_cache (store_error_text OpLog.Database) ∅
        else throw (interface +:+ " is still missing its management address after bring-up")
  end.

Definition ensure_bridge_and_dns (engine : ContainerEngine) (config : NodeConfig) : Task string bool :=
  let local := nd_local_runtime config in
  let dns := ipv4_to_string (nd_dns_bind_address config) in
  let show := address_shown (lr_bridge_interface local) in
  ready ← command_ok show;
  present ← (if (ready : bool) then o ← output show; mret (contains_str dns (output_stdout o)) else mret false);
  if (present : bool) then mret false
  else
    _ ← bring_up_bridge_and_dns engine (nd_wireguard_interface config) (nd_dns_bind_address config) local;
    o ← output show;
    if output_success o && contains_str dns (output_stdout o) then mret true
    else throw ("bridge " +:+ lr_bridge_interface local +:+ " or DNS address " +:+ dns +:+
                " is still missing after restore").

(** What is discovered, or the error. *)
Definition discovered (engine : ContainerEngine) (config : NodeConfig) : Task string (list Observation) :=
  outcome ← discover engine (nd_project_id config);
  match outcome with
  | Observed observations => mret observations
  | EngineUnavailable error | EngineError error => throw error
  end.

Definition repair_runtime_attachments (engine : ContainerEngine) (config : NodeConfig) : Task string () :=
  let e := engine_to_string engine in
  _ ← ignoring (output [e; "network"; "disconnect"; "--force"; lr_bridge_network (nd_local_runtime config);
                        CONTAINER_NAME]);
  _ ← command_required (connect_proxy engine config);
  observations ← discovered engine config;
  for_each (λ o,
    match read_labels (labels_json o) with
    | None => throw "labels are not JSON"
    | Some labels =>
        if bool_decide (labels "jiji.catalog-managed" = Some "true") then
          _ ← ignoring (output [e; "stop"; observed_name o]);
          command_required [e; "start"; observed_name o]
        else mret ()
    end) observations.

(** *** Containers *)

Definition restartable (local_node_id : string) (catalog : list CatalogRecord) (startup_candidates : gset string)
    (o : Observation) : bool :=
  match read_labels (labels_json o) with
  | None => false
  | Some labels =>
      bool_decide (labels "jiji.catalog-managed" = Some "true") &&
      match labels "jiji.deployment", labels "jiji.lifecycle" with
      | Some deployment, Some lifecycle =>
          bool_decide (lifecycle ∈ ["candidate"; "active"]) &&
          existsb (λ r, bool_decide (owner_node_id r = local_node_id) && bool_decide (deployment_id r = deployment)
                        && (bool_decide (Catalog.state r = Catalog.Active)
                            || (bool_decide (Catalog.state r = Catalog.Candidate)
                                && bool_decide (deployment ∈ startup_candidates)))) catalog
      | _, _ => false
      end
  end.
Definition restart_candidates (local_node_id : string) (observations : list Observation)
    (catalog : list CatalogRecord) (startup_candidates : gset string) : list string :=
  observed_name <$> filter (λ o, restartable local_node_id catalog startup_candidates o = true)
    (filter (λ o, observed_state o ≠ "running") observations).

Definition catalog_of (d : Database) : list CatalogRecord := latest_catalog (catalog_log (replicated (db_store d))).

Definition reconcile_containers (engine : ContainerEngine) (config : NodeConfig) (startup_candidates : gset string) :
    Task string () :=
  observations ← discovered engine config;
  d ← database;
  for_each (λ name, command_required [engine_to_string engine; "start"; name])
    (restart_candidates (nd_node_id config) observations (catalog_of d) startup_candidates).

(** *** Images *)

Definition retention_problems (results : list (string * result string (list (string * string)))) : list string :=
  results ≫= λ '(service, r),
    match r with
    | Err error => [service +:+ ": " +:+ error]
    | Ok failures =>
        (λ '(image_id, error), service +:+ ": could not remove image '" +:+ image_id +:+ "': " +:+ error) <$> failures
    end.
Definition fold_retention_problems (results : list (string * result string (list (string * string)))) :
    result string () :=
  match retention_problems results with
  | [] => Ok ()
  | problems => Err (String.concat "; " problems)
  end.

Fixpoint prune_all {E} (engine : ContainerEngine) (specs : list ImageRetentionSpec) :
    Task E (list (string * result string (list (string * string)))) :=
  match specs with
  | [] => mret []
  | spec :: specs =>
      r ← outcome_of (prune_repo engine (ir_repo spec) (ir_retain spec));
      rest ← prune_all engine specs;
      mret ((ir_service spec, r) :: rest)
  end.
Definition reconcile_image_retention (engine : ContainerEngine) : Task string () :=
  d ← database;
  results ← prune_all engine (image_retention_specs (retention_specs (db_store d)));
  lift_result (fold_retention_problems results).

(** *** Deployments left over from the last run of the agent *)

Definition with_transition (r : CatalogRecord) (revision : N) (state : DeploymentState) (health : HealthState) :
    CatalogRecord :=
  {| Catalog.project_id := Catalog.project_id r; Catalog.recovery_epoch := Catalog.recovery_epoch r;
     Catalog.protocol_version := Catalog.protocol_version r; Catalog.schema_version := Catalog.schema_version r;
     Catalog.service := Catalog.service r; replica_id := replica_id r; owner_node_id := owner_node_id r;
     Catalog.owner_epoch := Catalog.owner_epoch r; Catalog.revision := revision; deployment_id := deployment_id r;
     Catalog.address := Catalog.address r; Catalog.ports := Catalog.ports r; Catalog.image := Catalog.image r;
     Catalog.state := state; Catalog.health := health |}.

Definition apply_local_catalog_state (config : NodeConfig) (original : CatalogRecord) (state : DeploymentState)
    (health : HealthState) : Task string () := λ p,
  let d := p_database p in
  let s := db_store d in
  let outcome :=
    let? members := map_err membership_error_text
      (Membership.from_records (membership_operations (membership_log (replicated s))) (config_scope config)) in
    let record := with_transition original (next_revision (catalog_of d) (replica_id original)) state health in
    let? (_, log) := map_err store_error_text
      (apply_catalog (capacity (p_host p)) (catalog_log (replicated s)) record Local
         (catalog_scope (config_identity config) members)) in
    Ok log in
  match outcome with
  | Ok log => set_database (with_db_store d (with_catalog_log s log)) p
  | Err e => throw e p
  end.

Definition quarantine_lease (deployment : string) : Task string () :=
  d ← database;
  now ← timestamp;
  match quarantine_address_lease (lease_db d) deployment (u64_saturating_add now DEFAULT_QUARANTINE_SECONDS) with
  | Ok (_, t) => set_database (with_lease_db d t)
  | Err _ => throw (store_error_text OpLog.Database)
  end.

Definition deployment_label_of (o : Observation) : option string :=
  labels ← read_labels (labels_json o); labels "jiji.deployment".

(** The deployments with a container, and those whose container runs. *)
Definition present_deployments (observations : list Observation) : gset string :=
  list_to_set (omap deployment_label_of observations).
Definition running_deployments (observations : list Observation) : gset string :=
  present_deployments (filter (λ o, observed_state o = "running") observations).

Definition own_candidate (config : NodeConfig) (startup_candidates : gset string) (r : CatalogRecord) : bool :=
  bool_decide (deployment_id r ∈ startup_candidates) && bool_decide (owner_node_id r = nd_node_id config)
  && bool_decide (Catalog.state r = Catalog.Candidate).
Definition superseded_by (config : NodeConfig) (candidate r : CatalogRecord) : bool :=
  bool_decide (replica_id r = replica_id candidate) && negb (bool_decide (deployment_id r = deployment_id candidate))
  && bool_decide (owner_node_id r = nd_node_id config) && bool_decide (Catalog.state r = Catalog.Active).

Definition retire_superseded (engine : ContainerEngine) (config : NodeConfig) (present : gset string)
    (previous : CatalogRecord) : Task string () :=
  let e := engine_to_string engine in
  let name := dynamic_container_name (nd_project_id config) (Catalog.service previous) (deployment_id previous) in
  _ ← apply_local_catalog_state config previous Catalog.Draining Catalog.Unknown;
  _ ← (if bool_decide (deployment_id previous ∈ present) then
         _ ← ignoring (command_required [e; "stop"; name]);
         command_required [e; "rm"; "-f"; name]
       else mret ());
  _ ← apply_local_catalog_state config previous Catalog.Tombstoned Catalog.Unknown;
  quarantine_lease (deployment_id previous).

Definition recover_candidate (engine : ContainerEngine) (config : NodeConfig) (present : gset string)
    (catalog : list CatalogRecord) (candidate : CatalogRecord) : Task string () :=
  _ ← apply_local_catalog_state config candidate Catalog.Active Catalog.Healthy;
  for_each (retire_superseded engine config present)
    (filter (λ r, superseded_by config candidate r = true) catalog).

Definition recover_startup_candidates (engine : ContainerEngine) (config : NodeConfig)
    (startup_candidates : gset string) : Task string () :=
  if bool_decide (startup_candidates = ∅) then mret ()
  else
    observations ← discovered engine config;
    d ← database;
    let catalog := catalog_of d in
    let running := running_deployments observations in
    let candidates := filter (λ r, own_candidate config startup_candidates r = true) catalog in
    let missing := filter (λ r, deployment_id r ∉ running) candidates in
    _ ← for_each (recover_candidate engine config (present_deployments observations) catalog)
          (filter (λ r, deployment_id r ∈ running) candidates);
    if bool_decide (missing = []) then mret ()
    else throw ("startup candidate container(s) are absent and were preserved for operator recovery: "
                +:+ String.concat ", " (deployment_id <$> missing)).

(** *** Routes of the proxy *)

Definition proxy_exec (engine : ContainerEngine) (args : list string) : Task string string :=
  o ← output ([engine_to_string engine; "exec"] ++ (if bool_decide (engine = Podman) then ["--no-session"] else [])
              ++ [CONTAINER_NAME; "jiji-proxy"] ++ args);
  if output_success o then mret (output_stdout o) else throw (error_text o).

Definition parse_route_exists (output : string) : result string bool :=
  let? field := map_err (λ e, "could not parse jiji-proxy route status: " +:+ e) (route_exists_field output) in
  ok_or field "jiji-proxy route status has no boolean 'route_exists' field".

Definition prefix_arg (path_prefix : option string) : list string :=
  match path_prefix with Some prefix => ["--path-prefix=" +:+ prefix] | None => [] end.
Definition dns_arg (config : NodeConfig) : string :=
  "--dns-server=" +:+ ipv4_to_string (nd_dns_bind_address config) +:+ ":53".

Definition route_status_args (route : ProxyRouteSpec) : list string :=
  ["route"; "status"; "--host=" +:+ prs_host route] ++ prefix_arg (prs_path_prefix route).
Definition route_apply_args (config : NodeConfig) (route : ProxyRouteSpec) : list string :=
  ["route"; "apply"; "--host=" +:+ prs_host route; dns_arg config; "--name=" +:+ prs_name route;
   "--port=" +:+ pretty (prs_port route)] ++ prefix_arg (prs_path_prefix route) ++ prs_apply_args route.
Definition tcp_status_args (route : TcpRouteSpec) : list string :=
  ["tcp-route"; "status"; "--listen-port=" +:+ pretty (trs_listen_port route)].
Definition tcp_apply_args (config : NodeConfig) (route : TcpRouteSpec) : list string :=
  ["tcp-route"; "apply"; "--listen-port=" +:+ pretty (trs_listen_port route); dns_arg config;
   "--name=" +:+ trs_name route; "--port=" +:+ pretty (trs_port route)] ++ trs_apply_args route.

(** A route that is not there is applied. *)
Definition repair_route (engine : ContainerEngine) (status apply : list string) : Task string () :=
  out ← proxy_exec engine status;
  there ← lift_result (parse_route_exists out);
  if (there : bool) then mret () else _ ← proxy_exec engine apply; mret ().

Definition reconcile_proxy_routes (engine : ContainerEngine) (config : NodeConfig) : Task string () :=
  for_each (λ r, repair_route engine (route_status_args r) (route_apply_args config r))
    (lr_proxy_routes (nd_local_runtime config)).
Definition reconcile_tcp_routes (engine : ContainerEngine) (config : NodeConfig) : Task string () :=
  for_each (λ r, repair_route engine (tcp_status_args r) (tcp_apply_args config r))
    (lr_tcp_routes (nd_local_runtime config)).

(** *** One pass *)

Record RepairOutcome := { repaired_component : string; repair_result : result string () }.

Definition repair {E} (component : string) (m : Task string ()) : Task E RepairOutcome :=
  r ← outcome_of m; mret {| repaired_component := component; repair_result := r |}.

Definition ensure_config_link (config : NodeConfig) : Task string () :=
  ensure_link (nd_wireguard_interface config) (nd_replication_bind config)
    (lr_wireguard_port (nd_local_runtime config)) (nd_wireguard_private_key_path config).

Definition ensure_network_links (engine : ContainerEngine) (config : NodeConfig) : Task string () :=
  _ ← mapping_error (λ e, "WireGuard interface: " +:+ e) (ensure_config_link config);
  _ ← mapping_error (λ e, "bridge/DNS address: " +:+ e) (ensure_bridge_and_dns engine config);
  mret ().

Definition reconcile_once {E} (engine : ContainerEngine) (config : NodeConfig) (startup_candidates : gset string) :
    Task E (list RepairOutcome) :=
  wireguard ← repair "wireguard" (ensure_config_link config);
  bridge ← outcome_of (ensure_bridge_and_dns engine config);
  let bridge_outcome := {| repaired_component := "bridge_dns";
                           repair_result := match bridge with Ok _ => Ok () | Err e => Err e end |} in
  attachments ← match bridge with
                | Ok true => o ← repair "bridge_runtime_attachments" (repair_runtime_attachments engine config); mret [o]
                | _ => mret []
                end;
  proxy ← repair "proxy_attachment" (reconcile_proxy engine config);
  containers ← repair "containers" (reconcile_containers engine config startup_candidates);
  images ← repair "image_retention" (reconcile_image_retention engine);
  recovery ← repair "deployment_recovery" (recover_startup_candidates engine config startup_candidates);
  routes ← repair "proxy_routes" (reconcile_proxy_routes engine config);
  tcp ← repair "tcp_proxy_routes" (reconcile_tcp_routes engine config);
  mret ([wireguard; bridge_outcome] ++ attachments ++ [proxy; containers; images; recovery; routes; tcp]).

Definition with_components (d : Database) (c : Components) : Database :=
  let s := db_store d in
  with_db_store d {| replicated := replicated s; agent := agent s; local_state := local_state s;
                     idempotency_keys := idempotency_keys s; peer_sync := peer_sync s; components := c;
                     retention_specs := retention_specs s |}.

(** One turn of [run_loop]: the delay before the next one and the failures so far. *)
Definition repair_turn {E} (engine : ContainerEngine) (config : NodeConfig) (startup_candidates : gset string)
    (failures : N) : Task E (N * N) :=
  outcomes ← reconcile_once engine config startup_candidates;
  let failed := existsb (λ o, negb (is_ok (repair_result o))) outcomes in
  let '(delay, failures) := if failed then backoff_failure failures else backoff_success in
  now ← timestamp;
  d ← database;
  let next_retry_at := u64_saturating_add now delay in
  _ ← set_database (with_components d (foldl (λ c o,
        record_component_result (pretty now) c (repaired_component o) (repair_result o)
          (if is_ok (repair_result o) then None else Some next_retry_at)) (components (db_store d)) outcomes));
  _ ← change_host (pause delay);
  mret (delay, failures).
End reconcile.

(** * Properties *)

(** ** Tasks that do not panic *)

Section no_panic.
Context `{OperatingSystem}.

Definition no_panic {E A} (m : Task E A) : Prop := ∀ p, (m p).1 ≠ Err Panic.

Lemma no_panic_ret {E A} (a : A) : no_panic (E := E) (mret a).
Proof. done. Qed.
Lemma no_panic_throw {E A} (e : E) : no_panic (A := A) (throw e).
Proof. done. Qed.
Lemma no_panic_lift_result {E A} (r : result E A) : no_panic (lift_result r).
Proof. intros p. by destruct r. Qed.
Lemma no_panic_bind {E A B} (m : Task E A) (f : A → Task E B) :
  no_panic m → (∀ a, no_panic (f a)) → no_panic (m ≫= f).
Proof.
  intros Hm Hf p. unfold mbind, Task_bind. specialize (Hm p).
  destruct (m p) as [[a|[e|]] p1]; [apply Hf|done|done].
Qed.
Lemma no_panic_mapping_error {E F A} (f : E → F) (m : Task E A) : no_panic m → no_panic (mapping_error f m).
Proof. intros Hm p. unfold mapping_error. specialize (Hm p). by destruct (m p) as [[a|[e|]] p1]. Qed.
Lemma no_panic_outcome_of {E F A} (m : Task E A) : no_panic m → no_panic (outcome_of (F := F) m).
Proof. intros Hm p. unfold outcome_of. specialize (Hm p). by destruct (m p) as [[a|[e|]] p1]. Qed.
Lemma no_panic_ignoring {E F A} (m : Task E A) : no_panic m → no_panic (ignoring (F := F) m).
Proof. intros Hm. apply no_panic_bind; [by apply no_panic_outcome_of|]. intros. apply no_panic_ret. Qed.
Lemma no_panic_command_output argv input : no_panic (command_output argv input).
Proof. intros p. unfold command_output. by destruct (spawn _ _ _) as [[?|?] ?]. Qed.
Lemma no_panic_for_each {E A} (f : A → Task E ()) l : (∀ a, no_panic (f a)) → no_panic (for_each f l).
Proof. intros Hf. induction l as [|a l IH]; [done|]. by apply no_panic_bind. Qed.
Lemma no_panic_database {E} : no_panic (E := E) database.
Proof. done. Qed.
Lemma no_panic_set_database {E} d : no_panic (E := E) (set_database d).
Proof. done. Qed.
Lemma no_panic_timestamp {E} : no_panic (E := E) timestamp.
Proof. done. Qed.
Lemma no_panic_on_host {A} (f : host → result string A * host) : no_panic (on_host f).
Proof. intros p. unfold on_host. by destruct (f (p_host p)) as [[?|?] ?]. Qed.
Lemma no_panic_change_host {E} (f : host → host) : no_panic (E := E) (change_host f).
Proof. done. Qed.

(** Such a task always has an outcome. *)
Lemma outcome_of_total {E F A} (m : Task E A) p :
  no_panic m → ∃ r, outcome_of (F := F) m p = (Ok r, (m p).2).
Proof.
  intros Hm. specialize (Hm p). unfold outcome_of. destruct (m p) as [[a|[e|]] p1]; [..|done]; by eexists.
Qed.
End no_panic.

#[export] Hint Resolve no_panic_ret no_panic_throw no_panic_lift_result no_panic_mapping_error no_panic_outcome_of
  no_panic_ignoring no_panic_command_output no_panic_database no_panic_set_database no_panic_timestamp
  no_panic_on_host no_panic_change_host : daemon.

(** Goes through a task, looking into the definitions it is given. *)
Ltac no_panics :=
  repeat match goal with
  | |- no_panic (if ?b then _ else _) => destruct b
  | |- no_panic (match ?x with _ => _ end) => destruct x
  | |- no_panic (_ ≫= _) => apply no_panic_bind
  | |- no_panic (for_each _ _) => apply no_panic_for_each
  | |- no_panic (mapping_error _ _) => apply no_panic_mapping_error
  | |- no_panic (outcome_of _) => apply no_panic_outcome_of
  | |- no_panic (ignoring _) => apply no_panic_ignoring
  | |- ∀ _, _ => intro
  | |- _ => progress eauto with daemon
  end.

(** The materialised catalog of a process. *)
Abbreviation table p := (winners (catalog_log (replicated (db_store (p_database p))))).

Section laws.
Context `{AgentEnvironment, LabelJson, ProxyBuild}.
Context `{ContentHash MembershipRecord, ContentHash CatalogRecord}.

Lemma no_panic_run argv : no_panic (run argv).
Proof. unfold run, output. no_panics. Qed.
Lemma no_panic_run_script script : no_panic (run_script script).
Proof. unfold run_script. no_panics. Qed.
Lemma no_panic_command_required argv : no_panic (command_required argv).
Proof. unfold command_required, output. no_panics. Qed.
Lemma no_panic_command_ok {E} argv : no_panic (E := E) (command_ok argv).
Proof. unfold command_ok, output. no_panics. Qed.
Lemma no_panic_discovered engine config : no_panic (discovered engine config).
Proof. unfold discovered, discover, output. no_panics. Qed.
Hint Resolve no_panic_run no_panic_run_script no_panic_command_required no_panic_command_ok no_panic_discovered : daemon.

Lemma no_panic_ensure_link config : no_panic (ensure_config_link config).
Proof.
  unfold ensure_config_link, ensure_link, link_has_management_address, bring_up_interface, store_peer_cache, output.
  no_panics.
Qed.
Lemma no_panic_bridge engine config : no_panic (ensure_bridge_and_dns engine config).
Proof. unfold ensure_bridge_and_dns, bring_up_bridge_and_dns, output. no_panics. Qed.
Lemma no_panic_attachments engine config : no_panic (repair_runtime_attachments engine config).
Proof. unfold repair_runtime_attachments, output. no_panics. Qed.

Lemma no_panic_wait engine n : no_panic (wait_until_running engine n).
Proof. induction n as [|n IH]; simpl; unfold output; no_panics. Qed.
Hint Resolve no_panic_wait : daemon.
Lemma no_panic_proxy engine config : no_panic (reconcile_proxy engine config).
Proof.
  unfold reconcile_proxy, upload_daemon_config, is_current_and_running, try_acquire, recreate, run_shell,
    ensure_attached, apply_ingress_rule, container_pid, output.
  no_panics.
Qed.
Lemma no_panic_containers engine config startup : no_panic (reconcile_containers engine config startup).
Proof. unfold reconcile_containers. no_panics. Qed.

Lemma no_panic_prune_images {E} engine in_use images : no_panic (prune_images (E := E) engine in_use images).
Proof.
  induction images as [|[id name] images IH]; [done|]. cbn [prune_images]. unfold remove_image, output. no_panics.
Qed.
Hint Resolve no_panic_prune_images : daemon.
Lemma no_panic_prune_all {E} engine specs : no_panic (prune_all (E := E) engine specs).
Proof.
  induction specs as [|spec specs IH]; [done|]. cbn [prune_all].
  unfold prune_repo, list_images, list_container_images, output. no_panics.
Qed.
Hint Resolve no_panic_prune_all : daemon.
Lemma no_panic_images engine : no_panic (reconcile_image_retention engine).
Proof. unfold reconcile_image_retention. no_panics. Qed.

Lemma no_panic_apply_local config r state health : no_panic (apply_local_catalog_state config r state health).
Proof. intros p. unfold apply_local_catalog_state. by repeat case_match. Qed.
Hint Resolve no_panic_apply_local : daemon.
Lemma no_panic_recovery engine config startup : no_panic (recover_startup_candidates engine config startup).
Proof.
  unfold recover_startup_candidates, recover_candidate, retire_superseded, quarantine_lease. no_panics.
Qed.
Lemma no_panic_repair_route engine status apply : no_panic (repair_route engine status apply).
Proof. unfold repair_route, proxy_exec, output. no_panics. Qed.
Hint Resolve no_panic_repair_route : daemon.
Lemma no_panic_routes engine config :
  no_panic (reconcile_proxy_routes engine config) ∧ no_panic (reconcile_tcp_routes engine config).
Proof. unfold reconcile_proxy_routes, reconcile_tcp_routes. split; no_panics. Qed.

(** What a component answered, as the outcome of its task. *)
Definition answered {A} (r : result string A) : result (fault string) A :=
  match r with Ok a => Ok a | Err e => Err (Failed e) end.

Lemma outcome_of_run {E A} (m : Task string A) p :
  no_panic m → ∃ r q, m p = (answered r, q) ∧ outcome_of (F := E) m p = (Ok r, q).
Proof.
  intros Hm. specialize (Hm p). unfold outcome_of. destruct (m p) as [[a|[e|]] q]; simpl in Hm; [..|done].
  - by exists (Ok a), q.
  - by exists (Err e), q.
Qed.

Lemma repair_run {E B} component m (f : RepairOutcome → Task E B) p :
  no_panic m → ∃ r q, m p = (answered r, q) ∧
    (repair component m ≫= f) p = f {| repaired_component := component; repair_result := r |} q.
Proof.
  intros Hm. destruct (outcome_of_run (E := E) m p Hm) as (r & q & Hr & Ho). exists r, q. split; [done|].
  unfold repair, mbind, Task_bind. by rewrite Ho.
Qed.

(** The components of a turn with the task of each, in order; the attachments are repaired
    in a turn that made the bridge anew. *)
Definition last_components (engine : ContainerEngine) (config : NodeConfig) (startup : gset string) :
    list (string * Task string ()) :=
  [("proxy_attachment", reconcile_proxy engine config);
   ("containers", reconcile_containers engine config startup);
   ("image_retention", reconcile_image_retention engine);
   ("deployment_recovery", recover_startup_candidates engine config startup);
   ("proxy_routes", reconcile_proxy_routes engine config);
   ("tcp_proxy_routes", reconcile_tcp_routes engine config)].
Definition component_tasks (engine : ContainerEngine) (config : NodeConfig) (startup : gset string)
    (rebuilt : bool) : list (string * Task string ()) :=
  [("wireguard", ensure_config_link config);
   ("bridge_dns", (_ ← ensure_bridge_and_dns engine config; mret ()))] ++
  (if rebuilt then [("bridge_runtime_attachments", repair_runtime_attachments engine config)] else []) ++
  last_components engine config startup.

(** The outcomes are those of the tasks, each started where the one before it stopped. *)
Fixpoint run_in_turn (ms : list (string * Task string ())) (p : Process) (os : list RepairOutcome)
    (p' : Process) : Prop :=
  match ms, os with
  | [], [] => p' = p
  | (component, m) :: ms, o :: os => repaired_component o = component ∧
      ∃ q, m p = (answered (repair_result o), q) ∧ run_in_turn ms q os p'
  | _, _ => False
  end.

Lemma run_in_turn_app ms1 ms2 p os1 q os2 p' :
  run_in_turn ms1 p os1 q → run_in_turn ms2 q os2 p' → run_in_turn (ms1 ++ ms2) p (os1 ++ os2) p'.
Proof.
  revert p os1. induction ms1 as [|[c m] ms1 IH]; intros p [|o os1]; simpl; try done; [by intros <-|].
  intros (Hc & q1 & Hq & Hrun) Hm2. split; [done|]. exists q1. eauto.
Qed.

Lemma run_in_turn_names ms p os p' : run_in_turn ms p os p' → repaired_component <$> os = ms.*1.
Proof.
  revert p os. induction ms as [|[c m] ms IH]; intros p [|o os]; simpl; try done.
  intros (-> & q & _ & Hrun). f_equal. eauto.
Qed.

Lemma reconcile_last {E} engine config startup before p :
  ∃ os p',
    (proxy ← repair (E := E) "proxy_attachment" (reconcile_proxy engine config);
     containers ← repair "containers" (reconcile_containers engine config startup);
     images ← repair "image_retention" (reconcile_image_retention engine);
     recovery ← repair "deployment_recovery" (recover_startup_candidates engine config startup);
     routes ← repair "proxy_routes" (reconcile_proxy_routes engine config);
     tcp ← repair "tcp_proxy_routes" (reconcile_tcp_routes engine config);
     mret (before ++ [proxy; containers; images; recovery; routes; tcp])) p = (Ok (before ++ os), p') ∧
    run_in_turn (last_components engine config startup) p os p'.
Proof.
  destruct (no_panic_routes engine config) as [Hroutes Htcp].
  repeat match goal with
  | |- context [(repair ?c ?m ≫= ?f) ?q] =>
      let r := fresh "r" in let q' := fresh "q" in
      edestruct (repair_run c m f q) as (r & q' & ? & ->);
      [auto using no_panic_proxy, no_panic_containers, no_panic_images, no_panic_recovery|]
  end.
  eexists _, _. split; [reflexivity|]. simpl. repeat (split; [reflexivity|eexists; split; [eassumption|]]). done.
Qed.

(** A pass comes to its end, with the result of every component. *)
Lemma reconcile_once_total {E} engine config startup p :
  let bridge := (ensure_bridge_and_dns engine config (ensure_config_link config p).2).1 in
  ∃ os p', reconcile_once (E := E) engine config startup p = (Ok os, p') ∧
    run_in_turn (component_tasks engine config startup (match bridge with Ok b => b | Err _ => false end)) p os p'.
Proof.
  unfold reconcile_once.
  match goal with |- context [(repair ?c ?m ≫= ?f) ?q] =>
    destruct (repair_run c m f q (no_panic_ensure_link _)) as (r1 & p1 & Hm1 & ->) end.
  rewrite Hm1. cbn [fst snd]. unfold mbind at 1, Task_bind at 1.
  destruct (outcome_of_run (E := E) (ensure_bridge_and_dns engine config) p1 (no_panic_bridge _ _))
    as (b & p2 & Hm2 & ->). rewrite Hm2.
  set (first := [{| repaired_component := "wireguard"; repair_result := r1 |};
                 {| repaired_component := "bridge_dns";
                    repair_result := match b with Ok _ => Ok () | Err e => Err e end |}]).
  assert (run_in_turn [("wireguard", ensure_config_link config);
    ("bridge_dns", (_ ← ensure_bridge_and_dns engine config; mret ()))] p first p2) as Hfirst.
  { simpl. split; [done|]. exists p1. split; [done|]. split; [done|]. exists p2. split; [|done].
    unfold mbind, Task_bind. rewrite Hm2. by destruct b. }
  destruct b as [[|]|e]; cbn [answered fst].
  - unfold mbind at 1, Task_bind at 1.
    match goal with |- context [(repair ?c ?m ≫= ?f) ?q] =>
      destruct (repair_run c m f q (no_panic_attachments _ _)) as (r3 & p3 & Hm3 & ->) end.
    destruct (reconcile_last (E := E) engine config startup
      (first ++ [{| repaired_component := "bridge_runtime_attachments"; repair_result := r3 |}]) p3) as (os & p' & Hrun & Hos).
    eexists _, _. split; [exact Hrun|]. rewrite <-app_assoc.
    eapply run_in_turn_app; [done|]. eapply (run_in_turn_app [_]); [|done]. simpl. eauto.
  - destruct (reconcile_last (E := E) engine config startup first p2) as (os & p' & Hrun & Hos).
    eexists _, _. split; [exact Hrun|]. by eapply run_in_turn_app.
  - destruct (reconcile_last (E := E) engine config startup first p2) as (os & p' & Hrun & Hos).
    eexists _, _. split; [exact Hrun|]. by eapply run_in_turn_app.
Qed.

Lemma component_tasks_NoDup engine config startup rebuilt :
  NoDup (component_tasks engine config startup rebuilt).*1.
Proof. apply (bool_decide_unpack _). by destruct rebuilt. Qed.

(** *** The rows of a turn *)

(** The row of a component after a turn at [now], from its row before. *)
Definition turn_row (now next_retry : N) (before : option ComponentStatus) (o : RepairOutcome) : ComponentStatus :=
  {| cs_component := repaired_component o;
     cs_last_attempt_at := Some (pretty now);
     cs_last_success_at := if is_ok (repair_result o) then Some (pretty now) else before ≫= cs_last_success_at;
     cs_consecutive_failures :=
       if is_ok (repair_result o) then 0 else from_option cs_consecutive_failures 0 before + 1;
     cs_last_error := match repair_result o with Ok _ => None | Err e => Some e end;
     cs_next_retry_at := if is_ok (repair_result o) then None else Some (pretty next_retry) |}.

Definition record_outcomes (now next_retry : N) (c : Components) (os : list RepairOutcome) : Components :=
  foldl (λ c o, record_component_result (pretty now) c (repaired_component o) (repair_result o)
    (if is_ok (repair_result o) then None else Some next_retry)) c os.

Lemma record_outcomes_rows now next_retry os c :
  NoDup (repaired_component <$> os) →
  (∀ o, o ∈ os → record_outcomes now next_retry c os !! repaired_component o =
     Some (turn_row now next_retry (c !! repaired_component o) o)) ∧
  (∀ n, n ∉ repaired_component <$> os → record_outcomes now next_retry c os !! n = c !! n).
Proof.
  unfold record_outcomes. revert c. induction os as [|o os IH]; intros c Hnd; cbn [foldl fmap list_fmap] in *.
  { split; [by intros o ?%elem_of_nil|done]. }
  apply NoDup_cons in Hnd as [Hno Hnd].
  set (c' := record_component_result _ c _ _ _).
  assert (c' = <[repaired_component o := turn_row now next_retry (c !! repaired_component o) o]> c) as Hc'.
  { subst c'. unfold record_component_result, turn_row. destruct (repair_result o); [done|]. f_equal. f_equal.
    by destruct (c !! repaired_component o). }
  destruct (IH c' Hnd) as [Hin Hout]. rewrite Hc' in Hin, Hout. split.
  - intros o' [->|Ho']%elem_of_cons.
    + rewrite Hc', Hout by done. apply lookup_insert_eq.
    + rewrite Hc', (Hin _ Ho'), lookup_insert_ne; [done|]. intros Heq. apply Hno. rewrite Heq.
      by apply list_elem_of_fmap_2.
  - intros n Hn. rewrite not_elem_of_cons in Hn. rewrite Hc', Hout by apply Hn. apply lookup_insert_ne. naive_solver.
Qed.

(** *** Backoff *)

Lemma backoff_failure_spec f :
  f ≤ u32_max →
  (backoff_failure f).1 = N.min (2 ^ (f + 1)) MAX_BACKOFF ∧ (backoff_failure f).2 = N.min (f + 1) u32_max.
Proof.
  intros Hf. unfold backoff_failure, saturating_sub. cbn [fst snd]. split; [|done].
  destruct (N.ltb_spec f 5) as [Hlt|Hge].
  - assert (f = 0 ∨ f = 1 ∨ f = 2 ∨ f = 3 ∨ f = 4) as Hcases by lia.
    by destruct Hcases as [->|[->|[->|[->| ->]]]].
  - assert (N.min (N.min (f + 1) u32_max - 1) 5 = 5) as -> by (unfold u32_max in *; lia).
    assert (2 ^ 6 ≤ 2 ^ (f + 1)) as Hp by (apply N.pow_le_mono_r; lia).
    change (2 ^ 6) with 64 in Hp. unfold MAX_BACKOFF. rewrite (N.min_r (2 ^ (f + 1)) 60) by lia. done.
Qed.

(** *** Recovery *)

(** A task that changes the entries of some deployments only. *)
Definition changes_only {E A} (D : string → Prop) (m : Task E A) : Prop :=
  ∀ p d, ¬ D d → table (m p).2 !! d = table p !! d.

Lemma changes_only_keeps {E A} D (m : Task E A) : keeps_database m → changes_only D m.
Proof. intros Hm p d _. by rewrite Hm. Qed.
Lemma changes_only_bind {E A B} D (m : Task E A) (f : A → Task E B) :
  changes_only D m → (∀ a, changes_only D (f a)) → changes_only D (m ≫= f).
Proof.
  intros Hm Hf p d Hd. unfold mbind, Task_bind. specialize (Hm p d Hd).
  destruct (m p) as [[a|e] p1]; simpl in *; [|done]. by rewrite Hf.
Qed.
Lemma changes_only_for_each {E A} D (f : A → Task E ()) l :
  (∀ a, a ∈ l → changes_only D (f a)) → changes_only D (for_each f l).
Proof.
  induction l as [|a l IH]; intros Hf; [by apply changes_only_keeps|].
  apply changes_only_bind; [apply Hf; by left|]. intros _. apply IH. intros. apply Hf. by right.
Qed.

Lemma apply_catalog_winner_kept c log r prov scope out log' d :
  apply_catalog c log r prov scope = Ok (out, log') → d ≠ deployment_id r → winners log' !! d = winners log !! d.
Proof.
  unfold apply_catalog. intros Ha Hd. repeat (case_match; simplify_eq/=; try done).
  by rewrite lookup_insert_ne.
Qed.

Lemma changes_only_apply_local config r state health (D : string → Prop) :
  D (deployment_id r) → changes_only D (apply_local_catalog_state config r state health).
Proof.
  intros HD p d Hd. unfold apply_local_catalog_state.
  destruct (map_err _ (Membership.from_records _ _)) as [members|e]; [|done].
  destruct (apply_catalog _ _ _ _ _) as [[out log]|e] eqn:Ha; [|done]. simpl.
  apply (apply_catalog_winner_kept _ _ _ _ _ _ _ d Ha). simpl. intros ->. by apply Hd.
Qed.

Lemma changes_only_quarantine D deployment : changes_only D (quarantine_lease deployment).
Proof.
  intros p d _. unfold quarantine_lease, database, timestamp, set_database, throw, mbind, Task_bind.
  by destruct (quarantine_address_lease _ _ _) as [[? ?]|].
Qed.

Lemma keeps_command_required argv : keeps_database (command_required argv).
Proof. unfold command_required, output. keeps. Qed.
Lemma keeps_discovered engine config : keeps_database (discovered engine config).
Proof. unfold discovered, discover, output. keeps. Qed.

(** The candidates of this node that were left over and whose containers run. *)
Definition running_candidate config (startup : gset string) (os : list Observation) (catalog : list CatalogRecord)
    (c : CatalogRecord) : Prop :=
  c ∈ catalog ∧ deployment_id c ∈ startup ∧ owner_node_id c = nd_node_id config ∧
  Catalog.state c = Catalog.Candidate ∧
  ∃ o labels, o ∈ os ∧ observed_state o = "running" ∧ read_labels (labels_json o) = Some labels ∧
    labels "jiji.deployment" = Some (deployment_id c).

(** What recovery may change: such a candidate, and the active deployment of this node it takes
    over from. *)
Definition recovered config startup os catalog (d : string) : Prop :=
  ∃ c, running_candidate config startup os catalog c ∧
    (d = deployment_id c ∨
     ∃ r, r ∈ catalog ∧ replica_id r = replica_id c ∧ owner_node_id r = nd_node_id config ∧
       Catalog.state r = Catalog.Active ∧ d = deployment_id r).

Lemma running_candidate_intro config startup os catalog c :
  c ∈ catalog → own_candidate config startup c = true → deployment_id c ∈ running_deployments os →
  running_candidate config startup os catalog c.
Proof.
  unfold own_candidate, running_deployments, present_deployments, running_candidate, deployment_label_of.
  rewrite !andb_true_iff, !bool_decide_eq_true, elem_of_list_to_set, list_elem_of_omap.
  intros Hc ((Hs & Ho) & Hst) (o & [Hrun Hin]%list_elem_of_filter & (labels & Hl & Hd)%bind_Some).
  split_and!; [done..|]. by exists o, labels.
Qed.

Lemma recover_candidate_changes engine config startup os catalog present c :
  running_candidate config startup os catalog c →
  changes_only (recovered config startup os catalog) (recover_candidate engine config present catalog c).
Proof.
  intros Hc. apply changes_only_bind.
  { apply changes_only_apply_local. exists c. auto. }
  intros _. apply changes_only_for_each. intros r [Hs Hr]%list_elem_of_filter.
  assert (recovered config startup os catalog (deployment_id r)) as HD.
  { exists c. split; [done|]. right. exists r. unfold superseded_by in Hs.
    rewrite !andb_true_iff, !bool_decide_eq_true in Hs. naive_solver. }
  unfold retire_superseded. apply changes_only_bind; [by apply changes_only_apply_local|]. intros _.
  apply changes_only_bind; [|intros _; apply changes_only_bind; [by apply changes_only_apply_local|]].
  - apply changes_only_keeps. case_bool_decide; [|apply task_keeps_ret].
    apply task_keeps_bind; [apply keeps_ignoring, keeps_command_required|intros _; apply keeps_command_required].
  - intros _. apply changes_only_quarantine.
Qed.

Lemma database_bind {E A} (f : Database → Task E A) (p : Process) :
  (database ≫= f) p = f (p_database p) p.
Proof. done. Qed.

Lemma recovery_changes engine config startup os (p p1 : Process) :
  discovered engine config p = (Ok os, p1) →
  ∀ d, ¬ recovered config startup os (catalog_of (p_database p)) d →
  table (recover_startup_candidates engine config startup p).2 !! d = table p !! d.
Proof.
  intros Hd d Hnr. unfold recover_startup_candidates. case_bool_decide; [done|].
  pose proof (keeps_discovered engine config p) as Hk. unfold mbind at 1, Task_bind at 1.
  rewrite Hd in Hk |- *. simpl in Hk. rewrite <-Hk in Hnr |- *.
  rewrite database_bind.
  refine (changes_only_bind (recovered config startup os (catalog_of (p_database p1))) _ _ _ _ p1 d Hnr).
  - apply changes_only_for_each. intros c [Hrun [Hown Hin]%list_elem_of_filter]%list_elem_of_filter.
    by apply recover_candidate_changes, running_candidate_intro.
  - intros _. apply changes_only_keeps. case_bool_decide; [apply task_keeps_ret|apply keeps_throw].
Qed.

(** *** Routes *)

Definition proxy_argv (engine : ContainerEngine) (args : list string) : list string :=
  [engine_to_string engine; "exec"] ++ (if bool_decide (engine = Podman) then ["--no-session"] else [])
  ++ [CONTAINER_NAME; "jiji-proxy"] ++ args.

(** The status of a route that is not there. *)
Definition says_absent (outcome : result string Output) : Prop :=
  ∃ o, outcome = Ok o ∧ output_success o = true ∧ parse_route_exists (output_stdout o) = Ok false.

(** One route: its status is asked, and it is applied only if it is not there. *)
Inductive route_commands engine (status apply : list string) : list Spawned → Prop :=
| route_asked outcome : route_commands engine status apply
    [{| spawned_argv := proxy_argv engine status; spawned_outcome := outcome |}]
| route_applied outcome outcome' : says_absent outcome → route_commands engine status apply
    [{| spawned_argv := proxy_argv engine status; spawned_outcome := outcome |};
     {| spawned_argv := proxy_argv engine apply; spawned_outcome := outcome' |}].

Lemma proxy_exec_run engine args (p : Process) :
  ∃ outcome p', p_commands p' = p_commands p ++
      [{| spawned_argv := proxy_argv engine args; spawned_outcome := outcome |}] ∧
    proxy_exec engine args p =
      (match outcome with
       | Ok o => if output_success o then Ok (output_stdout o) else Err (Failed (error_text o))
       | Err e => Err (Failed e)
       end, p').
Proof.
  unfold proxy_exec, output, mbind, Task_bind.
  destruct (command_output_run (proxy_argv engine args) "" p) as (outcome & h & Hrun).
  unfold proxy_argv in *. rewrite Hrun. exists outcome.
  destruct outcome as [o|e]; simpl; [destruct (output_success o)|]; (eexists; split; [|reflexivity]; done).
Qed.

Lemma repair_route_commands engine status apply (p : Process) :
  ∃ cs, p_commands (repair_route engine status apply p).2 = p_commands p ++ cs ∧
    route_commands engine status apply cs.
Proof.
  unfold repair_route, mbind, Task_bind.
  destruct (proxy_exec_run engine status p) as (outcome & p1 & Hc & ->).
  destruct outcome as [o|e]; [destruct (output_success o) eqn:Ho|]; simpl;
    [|eexists; split; [exact Hc|apply route_asked]..].
  unfold lift_result, lift.
  destruct (parse_route_exists (output_stdout o)) as [[|]|e] eqn:Hp; simpl;
    [eexists; split; [exact Hc|apply route_asked]| |eexists; split; [exact Hc|apply route_asked]].
  destruct (proxy_exec_run engine apply p1) as (outcome' & p2 & Hc' & ->). eexists. split.
  - destruct outcome' as [o'|e']; [destruct (output_success o')|]; simpl; rewrite Hc', Hc, <-app_assoc; reflexivity.
  - apply route_applied. by exists o.
Qed.

Lemma repair_routes_commands {R} engine (status apply : R → list string) routes (p : Process) :
  ∃ css, p_commands (for_each (λ r, repair_route engine (status r) (apply r)) routes p).2 = p_commands p ++ mjoin css ∧
    ∀ i cs, css !! i = Some cs → ∃ r, routes !! i = Some r ∧ route_commands engine (status r) (apply r) cs.
Proof.
  revert p. induction routes as [|r routes IH]; intros p.
  { exists []. split; [by rewrite app_nil_r|done]. }
  cbn [for_each]. unfold mbind, Task_bind.
  destruct (repair_route_commands engine (status r) (apply r) p) as (cs & Hc & Hcs).
  destruct (repair_route engine (status r) (apply r) p) as [[[]|e] p1]; simpl in Hc.
  - destruct (IH p1) as (css & Hcss & Hall). exists (cs :: css). split.
    + rewrite Hcss, Hc, mjoin_cons. by rewrite app_assoc.
    + intros [|i] cs' Hi; simpl in *; [simplify_eq; by exists r|by apply Hall].
  - exists [cs]. split; [simpl; by rewrite Hc, app_nil_r|]. intros [|i] cs' Hi; simplify_eq/=. by exists r.
Qed.
End laws.

Module ReconcileProps.
Section props.
Context `{AgentEnvironment, LabelJson, ProxyBuild}.
Context `{ContentHash MembershipRecord, ContentHash CatalogRecord}.

(** C12: A turn of the repair loop always completes, whatever the host answers: no component
    panics and none that fails keeps the others from their turn.  The outcomes are those of
    the tasks of the components, run in order, with the attachments when the bridge was made
    anew.  Afterwards the row of every component in the database is that of its outcome in this turn:
    the time of the turn as its last attempt; for a success the same time as its last success, no failures, no
    error and no retry; for a failure its message, one failure more than before, the success
    it had before and the time of the next turn; and no other row has changed.  The wait
    before the next turn is two seconds when all is well, and 2, 4, 8, .. seconds but at most
    a minute over failing turns in a row.  Writes to the database of the agent are taken to
    succeed. *)
Theorem repair_turn_completes {E} (engine : ContainerEngine) (config : NodeConfig) (startup : gset string)
    (failures : N) (p : Process) :
  failures ≤ u32_max →
  let bridge := (ensure_bridge_and_dns engine config (ensure_config_link config p).2).1 in
  let rebuilt := match bridge with Ok b => b | Err _ => false end in
  ∃ outcomes p1 delay failures' p',
    reconcile_once (E := E) engine config startup p = (Ok outcomes, p1) ∧
    run_in_turn (component_tasks engine config startup rebuilt) p outcomes p1 ∧
    repair_turn (E := E) engine config startup failures p = (Ok (delay, failures'), p') ∧
    failures' ≤ u32_max ∧
    (if forallb (λ o, is_ok (repair_result o)) outcomes then delay = MIN_BACKOFF ∧ failures' = 0
     else delay = N.min (2 ^ (failures + 1)) MAX_BACKOFF ∧ failures' = N.min (failures + 1) u32_max) ∧
    let before := components (db_store (p_database p1)) in
    let after := components (db_store (p_database p')) in
    let now := unix_timestamp (p_host p1) in
    (∀ o, o ∈ outcomes → after !! repaired_component o =
       Some (turn_row now (u64_saturating_add now delay) (before !! repaired_component o) o)) ∧
    (∀ name, name ∉ repaired_component <$> outcomes → after !! name = before !! name).
Proof.
  intros Hf bridge rebuilt. destruct (reconcile_once_total (E := E) engine config startup p) as (os & p1 & Hrun & Hos).
  fold bridge rebuilt in Hos. pose proof (run_in_turn_names _ _ _ _ Hos) as Hn.
  assert (existsb (λ o, negb (is_ok (repair_result o))) os = negb (forallb (λ o, is_ok (repair_result o)) os)) as Hex.
  { clear. induction os as [|o os IH]; [done|]. simpl. rewrite IH. by destruct (is_ok (repair_result o)). }
  pose proof (backoff_failure_spec failures Hf) as [Hd Hf'].
  exists os, p1. unfold repair_turn. unfold mbind at 1, Task_bind at 1. rewrite Hrun, Hex.
  pose proof (λ delay, record_outcomes_rows (unix_timestamp (p_host p1))
    (u64_saturating_add (unix_timestamp (p_host p1)) delay) os (components (db_store (p_database p1)))) as Hrec.
  rewrite Hn in Hrec. pose proof (λ delay, Hrec delay (component_tasks_NoDup _ _ _ _)) as Hrow. clear Hrec. rewrite <-Hn in Hrow.
  destruct (forallb (λ o, is_ok (repair_result o)) os); cbn [negb].
  - eexists MIN_BACKOFF, 0, _. split_and!; [done|done|reflexivity|by unfold u32_max|done|done|apply Hrow..].
  - destruct (backoff_failure failures) as [delay failures']. simpl in Hd, Hf'. eexists delay, failures', _.
    split_and!; [done|done|reflexivity|lia|done|done|apply Hrow..].
Qed.

(** The agent restarts a container when, and only when, it does not run, its labels say the
    catalog manages it as a candidate or as active, and this node owns a record of its
    deployment that is active, or a candidate that was there when the agent started. *)
Theorem restarts_only_what_the_catalog_wants (local : string) (os : list Observation)
    (catalog : list CatalogRecord) (startup : gset string) (name : string) :
  name ∈ restart_candidates local os catalog startup ↔
  ∃ o labels deployment lifecycle r,
    o ∈ os ∧ observed_name o = name ∧ observed_state o ≠ "running" ∧
    read_labels (labels_json o) = Some labels ∧ labels "jiji.catalog-managed" = Some "true" ∧
    labels "jiji.deployment" = Some deployment ∧ labels "jiji.lifecycle" = Some lifecycle ∧
    lifecycle ∈ ["candidate"; "active"] ∧
    r ∈ catalog ∧ owner_node_id r = local ∧ deployment_id r = deployment ∧
    (Catalog.state r = Catalog.Active ∨ Catalog.state r = Catalog.Candidate ∧ deployment ∈ startup).
Proof.
  unfold restart_candidates. rewrite list_elem_of_fmap. setoid_rewrite list_elem_of_filter.
  setoid_rewrite list_elem_of_filter. unfold restartable. split.
  - intros (o & -> & Hr & Hs & Ho). destruct (read_labels (labels_json o)) as [labels|] eqn:Hl; [|done].
    apply andb_true_iff in Hr as [Hm Hr]. destruct (labels "jiji.deployment") as [dep|] eqn:Hd; [|done].
    destruct (labels "jiji.lifecycle") as [life|] eqn:Hlife; [|done].
    apply andb_true_iff in Hr as [Hlf (r & Hin & Hr)%existsb_exists]. apply list_elem_of_In in Hin.
    exists o, labels, dep, life, r. rewrite !andb_true_iff, orb_true_iff, andb_true_iff in Hr.
    rewrite !bool_decide_eq_true in *. naive_solver.
  - intros (o & labels & dep & life & r & Ho & Hn & Hs & Hl & Hm & Hd & Hlife & Hlf & Hr & Hown & Hdep & Hst).
    exists o. split; [done|]. rewrite Hl, Hd, Hlife. split; [|done].
    rewrite !andb_true_iff. split_and!; [by apply bool_decide_eq_true|by apply bool_decide_eq_true|].
    apply existsb_exists. exists r. split; [by apply list_elem_of_In|].
    rewrite !andb_true_iff, orb_true_iff, andb_true_iff, !bool_decide_eq_true. naive_solver.
Qed.

(** C13: Recovery after a restart of the agent changes the catalog entry of a deployment only for
    a running successor: a candidate of this node that was left over and whose container runs,
    or the active deployment of the same replica that such a candidate takes over from.  What is
    absent or cannot be seen is never tombstoned: without an answer of the engine nothing
    changes. *)
Theorem recovery_needs_a_running_successor (engine : ContainerEngine) (config : NodeConfig)
    (startup : gset string) (p : Process) :
  let p' := (recover_startup_candidates engine config startup p).2 in
  match (discovered engine config p).1 with
  | Ok os => ∀ d, ¬ recovered config startup os (catalog_of (p_database p)) d → table p' !! d = table p !! d
  | Err _ => p_database p' = p_database p
  end.
Proof.
  destruct (discovered engine config p) as [[os|e] p1] eqn:Hd; simpl.
  - by eapply recovery_changes.
  - pose proof (keeps_discovered engine config p) as Hk. rewrite Hd in Hk. simpl in Hk.
    unfold recover_startup_candidates. case_bool_decide; [done|]. unfold mbind, Task_bind. by rewrite Hd.
Qed.

(** Repairing the routes of the proxy never overwrites one: for the routes in order, the
    status of each is asked, and it is applied only when the proxy has answered that it has no
    such route. *)
Theorem repair_never_overwrites_a_route (engine : ContainerEngine) (config : NodeConfig) (p : Process) :
  ∃ css, p_commands (reconcile_proxy_routes engine config p).2 = p_commands p ++ mjoin css ∧
    ∀ i cs, css !! i = Some cs →
      ∃ r, lr_proxy_routes (nd_local_runtime config) !! i = Some r ∧
        route_commands engine (route_status_args r) (route_apply_args config r) cs.
Proof. apply repair_routes_commands. Qed.
End props.

(** A host on which nothing works. *)
Definition broken_host : OperatingSystem :=
  {| host := (); spawn _ _ h := (Err "no such file", h); unix_timestamp _ := 0; resolve_socket _ := None |}.
Definition broken_environment : @AgentEnvironment broken_host :=
  {| create_dir_all _ h := (Err "read-only", h); write_file _ _ h := (Err "read-only", h);
     open_lock _ h := (Err "read-only", h); flock _ h := (WouldBlock, h); lock_holders _ h := (Ok [], h);
     remove_file _ h := (Err "read-only", h); unlock _ h := h; pause _ h := h;
     capacity _ := OpLogProps.sample_capacity; route_exists_field _ := Err "not JSON";
     store_error_text _ := "store"; membership_error_text _ := "membership" |}.
Definition no_labels : LabelJson := {| labels_to_json _ := ""; read_labels _ := None |}.
Definition no_build : ProxyBuild := {| PROXY_VERSION := "1"; network_address _ _ := None |}.

Lemma repair_turn_completes_witness :
  let p := @Build_Process broken_host (WireguardProps.database_with [] ∅) tt [] in
  3 ≤ u32_max ∧
  ∃ outcomes p1 delay failures' p',
    @reconcile_once broken_host broken_environment no_labels no_build MembershipProps.sample_hash CatalogProps.sample_hash
      string Docker WireguardProps.sample_config ∅ p = (Ok outcomes, p1) ∧
    @repair_turn broken_host broken_environment no_labels no_build MembershipProps.sample_hash CatalogProps.sample_hash
      string Docker WireguardProps.sample_config ∅ 3 p = (Ok (delay, failures'), p') ∧
    (∀ o, o ∈ outcomes → cs_last_error <$> components (db_store (p_database p')) !! repaired_component o =
       Some (match repair_result o with Ok _ => None | Err e => Some e end)).
Proof.
  intros p. assert (3 ≤ u32_max) as H3 by (unfold u32_max; lia). split; [exact H3|].
  destruct (@repair_turn_completes broken_host broken_environment no_labels no_build MembershipProps.sample_hash
    CatalogProps.sample_hash string Docker WireguardProps.sample_config ∅ 3 p H3)
    as (os & p1 & delay & f & p' & Hrun & _ & Hturn & _ & _ & Hrow & _).
  exists os, p1, delay, f, p'. split_and!; [done|done|]. intros o Ho. by rewrite (Hrow o Ho).
Defined.
End ReconcileProps.
