(* ===== verification/HostProxy.v ===== *)
(** The shared proxy of a server as the CLI handles it: [jiji-cli/src/proxy.rs] and
    [proxy_ingress.rs], the installation of the agent, [agent_install.rs], and the names it
    derives from a project, [jiji-agent/src/paths.rs] and [systemd.rs]. *)

From S2P Require Import Prelude Text Bytes Substring Cidr Naming Schema Planner ServiceRuntime.
From S2P Require Import Membership Catalog Desired OpLog Leases Cron CronExec Replication Store Api CandidatePlan EnvResolution.
From S2P Require Import Session ProxyRoutes SessionLaws ProxyScript.
Open Scope N_scope.

Definition text : list ascii → string := String.string_of_list_ascii.

(** ** [paths.rs] and [systemd.rs] *)

Definition DEFAULT_ROOT : string := "/etc/jiji/agent".

Record AgentPaths := {
  project_dir : string;
  binary_path : string;
  state_dir : string;
  db_path : string;
  socket_path : string;
  mesh_config_path : string;
  membership_bootstrap_path : string;
  unit_name : string;
  unit_path : string;
}.

(** [Path::join] with a relative name. *)
Definition join (dir name : string) : string := dir +:+ "/" +:+ name.

Definition for_project `{Sha256} (project root : string) : AgentPaths :=
  let slug := text (systemd_unit_slug project) in
  let dir := join root slug in
  let unit := "jiji-agent-" +:+ slug +:+ ".service" in
  {| binary_path := join (join dir "bin") "jiji-agent";
     state_dir := join dir "state";
     db_path := join (join dir "state") "agent.sqlite3";
     socket_path := join dir "agent.sock";
     mesh_config_path := join dir "mesh.json";
     membership_bootstrap_path := join dir "membership-bootstrap.json";
     unit_path := join "/etc/systemd/system" unit;
     unit_name := unit;
     project_dir := dir |}.
Definition default_for_project `{Sha256} (project : string) : AgentPaths := for_project project DEFAULT_ROOT.

Definition render_unit (paths : AgentPaths) (project : string) (engine : ContainerEngine) : string :=
  text_lines
    ["[Unit]";
     "Description=Jiji agent (" +:+ project +:+ ")";
     "After=network-online.target";
     "Wants=network-online.target";
     "StartLimitIntervalSec=60";
     "StartLimitBurst=10";
     "";
     "[Service]";
     "Type=simple";
     "ExecStart=" +:+ binary_path paths +:+ " run --project " +:+ project +:+ " --engine "
     +:+ engine_to_string engine +:+ " --state-dir " +:+ state_dir paths +:+ " --socket " +:+ socket_path paths
     +:+ " --mesh-config " +:+ mesh_config_path paths;
     "Restart=on-failure";
     "RestartSec=2";
     "KillMode=process";
     "";
     "[Install]";
     "WantedBy=multi-user.target"].

Section host.
Context `{Host}.

(** [run_required], the same in [agent_install.rs], [proxy.rs] and [proxy_ingress.rs]. *)
Definition run_required (command action : string) : M () :=
  r ← execute command;
  if success r then mret ()
  else fail ("Could not " +:+ action +:+ " on " +:+ session_host +:+ ": " +:+ trim (stderr r)
             +:+ ". Fix the host error and retry the command.").

(** ** [agent_install.rs] *)

Inductive AgentStatus := Installed | Upgraded | AgentAlreadyRunning.

Definition is_unit_active (unit : string) : M bool :=
  r ← execute ("systemctl is-active --quiet " +:+ unit); mret (success r).
Definition path_exists (path : string) : M bool :=
  r ← execute ("test -e " +:+ path); mret (success r).
Definition remote_sha256 (path : string) : M (option string) :=
  r ← execute ("sha256sum " +:+ path +:+ " 2>/dev/null | cut -d' ' -f1");
  let hash := trim (stdout r) in
  mret (if success r && negb (bool_decide (hash = "")) then Some hash else None).

Definition hex_sha256 `{Sha256} (content : string) : string :=
  text (mjoin (hex_fixed 2 <$> sha256 content)).

Definition write_remote_bytes (mode path content : string) : M () :=
  r ← execute_with_input ("install -D -m " +:+ mode +:+ " /dev/stdin " +:+ path) content;
  if success r then mret ()
  else fail ("Could not write " +:+ path +:+ " on " +:+ session_host +:+ ": " +:+ trim (stderr r)).

Definition start_agent_command (paths : AgentPaths) (project : string) : string :=
  "systemctl stop " +:+ unit_name paths +:+ " >/dev/null 2>&1 || true; "
  +:+ binary_path paths +:+ " membership-import --project " +:+ project +:+ " --state-dir " +:+ state_dir paths
  +:+ " --mesh-config " +:+ mesh_config_path paths +:+ " --input " +:+ membership_bootstrap_path paths +:+ "; "
  +:+ "systemctl daemon-reload; systemctl enable --now " +:+ unit_name paths +:+ " >/dev/null; "
  +:+ "for attempt in 1 2 3 4 5; do " +:+ binary_path paths +:+ " ping --socket " +:+ socket_path paths
  +:+ " >/dev/null && exit 0; sleep 1; done; exit 1".

(** The upload of a binary that was read from a local file, if there is one; whether it was
    needed. *)
Definition upload_agent_binary `{Sha256} (paths : AgentPaths) (binary : option (result string string)) : M bool :=
  match binary with
  | None => mret false
  | Some (Err error) => fail error
  | Some (Ok content) =>
      remote_hash ← remote_sha256 (binary_path paths);
      if bool_decide (remote_hash = Some (hex_sha256 content)) then mret false
      else _ ← write_remote_bytes "0755" (binary_path paths) content; mret true
  end.

(** [mesh_config] and [membership] are the JSON texts of the two values. *)
Definition ensure_agent `{Sha256} (engine : ContainerEngine) (project : string)
    (binary : option (result string string)) (mesh_config membership : string) : M AgentStatus :=
  let paths := default_for_project project in
  _ ← run_required ("install -d -m 0700 " +:+ project_dir paths +:+ " " +:+ join (project_dir paths) "bin"
                    +:+ " " +:+ state_dir paths) "create the jiji agent's directories";
  was_active ← is_unit_active (unit_name paths);
  uploaded ← upload_agent_binary paths binary;
  _ ← write_remote_bytes "0600" (mesh_config_path paths) mesh_config;
  _ ← write_remote_bytes "0600" (membership_bootstrap_path paths) membership;
  _ ← write_remote_bytes "0644" (unit_path paths) (render_unit paths project engine);
  _ ← run_required (start_agent_command paths project) "start the jiji agent";
  mret (if negb was_active then Installed else if (uploaded : bool) then Upgraded else AgentAlreadyRunning).

Definition remove_agent_command (paths : AgentPaths) : string :=
  "systemctl disable --now " +:+ unit_name paths +:+ " >/dev/null 2>&1 || true; rm -f " +:+ unit_path paths
  +:+ "; systemctl daemon-reload; rm -rf " +:+ project_dir paths.

Definition remove_agent `{Sha256} (project : string) : M bool :=
  let paths := default_for_project project in
  active ← is_unit_active (unit_name paths);
  was_present ← (if (active : bool) then mret true else path_exists (unit_path paths));
  _ ← run_required (remove_agent_command paths) "remove the jiji agent";
  mret was_present.

(** ** [proxy_ingress.rs] *)

Definition RULES_DIR : string := "/etc/jiji/proxy-ingress".
Definition RULES_PATH : string := "/etc/jiji/proxy-ingress/rules.nft".
Definition RESTORE_SCRIPT_PATH : string := "/etc/jiji/proxy-ingress/restore.sh".
Definition UNIT_PATH : string := "/etc/systemd/system/jiji-proxy-ingress-restore.service".
Definition UNIT_NAME : string := "jiji-proxy-ingress-restore.service".

Definition write_remote_file (setup mode path content : string) : M () :=
  r ← execute setup;
  if negb (success r) then
    fail ("Could not prepare " +:+ path +:+ " on " +:+ session_host +:+ ": " +:+ trim (stderr r))
  else
    r ← execute_with_input ("install -m " +:+ mode +:+ " /dev/stdin " +:+ path) content;
    if negb (success r) then
      fail ("Could not write " +:+ path +:+ " on " +:+ session_host +:+ ": " +:+ trim (stderr r))
    else mret ().

Definition ensure_ingress_rule (address public_host : N) (include_http : bool) (tcp_ports : list N) : M () :=
  _ ← write_remote_file ("mkdir -p " +:+ RULES_DIR) "0644" RULES_PATH
        (render_nftables address public_host include_http tcp_ports);
  _ ← run_required ("set -eu; nft add table ip " +:+ INGRESS_TABLE +:+ " 2>/dev/null || true; nft --file "
                    +:+ RULES_PATH) "apply the jiji-proxy public ingress rule";
  run_required (render_forward_accept_script address tcp_ports)
    "authorize the jiji-proxy ingress rule in the engine's own FORWARD chain".

Definition remove_ingress_command : string :=
  "systemctl disable --now " +:+ UNIT_NAME +:+ " >/dev/null 2>&1 || true; rm -f " +:+ UNIT_PATH +:+ " "
  +:+ RESTORE_SCRIPT_PATH +:+ "; systemctl daemon-reload; nft delete table ip " +:+ INGRESS_TABLE
  +:+ " 2>/dev/null || true; rm -rf " +:+ RULES_DIR.
Definition remove_ingress_rule : M () :=
  run_required remove_ingress_command "remove the jiji-proxy public ingress rule".

Definition surviving_command : string :=
  "docker inspect --format '{{range $name, $network := .NetworkSettings.Networks}}{{printf "
  +:+ quoted "%s %s\n" +:+ " $name $network.IPAddress}}{{end}}' " +:+ CONTAINER_NAME +:+ " 2>/dev/null || true".

Definition refresh_from_surviving_attachment (engine : ContainerEngine) (public_host : N) : M bool :=
  if bool_decide (engine ≠ Docker) then mret false
  else
    r ← execute surviving_command;
    match surviving_proxy_address (stdout r) with
    | Some address => _ ← ensure_ingress_rule address public_host true []; mret true
    | None => mret false
    end.

(** ** [proxy.rs] *)

Definition parse_public_host (server : ServerPlan) : result string N :=
  ok_or (parse_ipv4 (sp_public_host server))
    ("Server '" +:+ sp_name server +:+ "' host '" +:+ sp_public_host server
     +:+ "' must be a public IPv4 address for jiji-proxy's ingress rule").

Inductive ProxyState := ProxyAlreadyRunning | ProxyStarted.

Record ProxyNetwork := {
  pn_bridge_name : string;
  pn_bridge_interface : string;
  pn_proxy_address : N;
  pn_dns_address : N;
  pn_public_host : N;
}.

Context `{RouteJson, ProxyBuild}.
Section engine.
Context (engine : ContainerEngine).
Let e := engine_to_string engine.

Definition upload_daemon_config : M () :=
  let path := CONFIG_DIR +:+ "/config.yml" in
  let temp := path +:+ ".jiji-new" in
  r ← execute_with_input ("set -eu; install -D -m 0644 /dev/stdin " +:+ temp +:+ "; mv " +:+ temp +:+ " " +:+ path)
        render_daemon_config;
  if success r then mret ()
  else fail ("Could not write jiji-proxy config on " +:+ session_host +:+ ": " +:+ trim (stderr r)).

Definition is_current_and_running (fingerprint : string) : M bool :=
  r ← execute (e +:+ " inspect " +:+ CONTAINER_NAME +:+ " --format '{{.State.Status}} {{index .Config.Labels "
               +:+ quoted "jiji.proxy-config" +:+ "}} {{.Config.Image}}'");
  mret (success r && bool_decide (trim (stdout r) = "running " +:+ fingerprint +:+ " " +:+ proxy_image)).

(** At most [tries] looks, a second apart. *)
Fixpoint wait_until_running (tries : nat) : M () :=
  match tries with
  | O =>
      logs ← execute (e +:+ " logs --tail 20 " +:+ CONTAINER_NAME);
      fail ("jiji-proxy did not become ready on " +:+ session_host +:+ " within 30 seconds. Inspect it with `"
            +:+ e +:+ " logs " +:+ CONTAINER_NAME +:+ "` and retry the command. Recent logs: " +:+ trim (stdout logs))
  | S tries =>
      r ← execute (e +:+ " inspect " +:+ CONTAINER_NAME +:+ " --format '{{.State.Status}}'");
      if success r && bool_decide (trim (stdout r) = "running") then mret ()
      else _ ← sleep_for SECOND; wait_until_running tries
  end.

(** [jiji_agent::host_lease::DEFAULT_PATH]. *)
Definition LEASE_PATH : string := "/etc/jiji/proxy-ingress/agent.lock".

Definition replace_command (run_command : string) : string :=
  "mkdir -p $(dirname " +:+ LEASE_PATH +:+ "); flock --close --timeout 60 " +:+ LEASE_PATH +:+ " -c 'set -eu; "
  +:+ e +:+ " container rm -f " +:+ CONTAINER_NAME +:+ " >/dev/null 2>&1 || true; " +:+ run_command +:+ "'".

Definition recreate (fingerprint : string) (network : option ProxyNetwork) : M () :=
  _ ← run_required ("mkdir -p " +:+ CERTS_DIR) "create certificate directory";
  _ ← run_required (e +:+ " pull " +:+ proxy_image) "pull jiji-proxy image";
  let run_network := (λ n, {| run_bridge_name := pn_bridge_name n; run_proxy_address := pn_proxy_address n |})
                       <$> network in
  r ← execute (replace_command (render_run_command engine run_network fingerprint));
  if success r then wait_until_running 30
  else fail ("Could not replace jiji-proxy on " +:+ session_host +:+ ": " +:+ trim (stderr r)
             +:+ ". Remove the existing '" +:+ CONTAINER_NAME +:+ "' container and retry the command.").

Definition ensure_attached (network : ProxyNetwork) : M () :=
  r ← execute (e +:+ " inspect " +:+ CONTAINER_NAME +:+ " --format '{{json .NetworkSettings.Networks}}'");
  if negb (success r) then
    fail ("Could not inspect jiji-proxy's attached networks on " +:+ session_host +:+ ": " +:+ trim (stderr r))
  else
    match attached_address (stdout r) (pn_bridge_name network) with
    | Some existing =>
        if existing =? pn_proxy_address network then mret ()
        else fail ("jiji-proxy on " +:+ session_host +:+ " is already attached to network '" +:+ pn_bridge_name network
                   +:+ "' with address " +:+ ipv4_to_string existing +:+ ", expected "
                   +:+ ipv4_to_string (pn_proxy_address network) +:+ ". Remove the container with `" +:+ e +:+ " rm -f "
                   +:+ CONTAINER_NAME +:+ "` and retry, or investigate the address drift.")
    | None =>
        r ← execute (e +:+ " network connect --ip " +:+ ipv4_to_string (pn_proxy_address network) +:+ " "
                     +:+ pn_bridge_name network +:+ " " +:+ CONTAINER_NAME);
        if success r then mret ()
        else fail ("Could not attach jiji-proxy to network '" +:+ pn_bridge_name network +:+ "' on " +:+ session_host
                   +:+ ": " +:+ trim (stderr r) +:+ ". Run `jiji network setup` for this project and retry.")
    end.

Definition attach_network (network : ProxyNetwork) : M () :=
  _ ← ensure_attached network;
  _ ← reconcile_podman_dns_address engine (pn_bridge_interface network) (pn_dns_address network);
  if bool_decide (engine = Docker)
  then ensure_ingress_rule (pn_proxy_address network) (pn_public_host network) true []
  else mret ().

Definition ensure_proxy (network : option ProxyNetwork) (force : bool) : M ProxyState :=
  let fingerprint := config_fingerprint engine in
  _ ← upload_daemon_config;
  current ← (if force then mret false else is_current_and_running fingerprint);
  status ← (if (current : bool) then mret ProxyAlreadyRunning
            else _ ← recreate fingerprint network; mret ProxyStarted);
  _ ← (match network with Some network => attach_network network | None => mret () end);
  _ ← check_proxy_version engine session_host;
  mret status.

Definition disconnect_bridge_if_attached (bridge_name : string) : M bool :=
  r ← execute (e +:+ " network disconnect " +:+ bridge_name +:+ " " +:+ CONTAINER_NAME);
  if success r then mret true
  else if is_missing_container_error (stderr r) then mret false
  else
    let lowered := str_to_ascii_lowercase (stderr r) in
    if contains_str "is not connected" lowered || contains_str "not found" lowered then mret false
    else fail ("Could not disconnect jiji-proxy from network '" +:+ bridge_name +:+ "' on " +:+ session_host
               +:+ ": " +:+ trim (stderr r)).
End engine.
End host.
