(* ===== verification/AuditTrail.v ===== *)
(** The audit trail of a project on a server: [jiji-cli/src/audit.rs]. *)

From S2P Require Import Prelude Text Bytes Substring Cidr Naming Schema Planner ServiceRuntime.
From S2P Require Import Membership Catalog Desired OpLog Leases Cron CronExec Replication Store Api CandidatePlan EnvResolution.
From S2P Require Import Session ProxyRoutes SessionLaws.
Open Scope N_scope.

Inductive AuditStatus := AuditSuccess | AuditFailed.
Definition audit_status_to_string (s : AuditStatus) : string :=
  match s with AuditSuccess => "SUCCESS" | AuditFailed => "FAILED" end.
Definition audit_status_of_string (value : string) : result string AuditStatus :=
  let lowered := str_to_ascii_lowercase value in
  if bool_decide (lowered = "success") then Ok AuditSuccess
  else if bool_decide (lowered = "failed") then Ok AuditFailed
  else Err ("Unknown audit status '" +:+ lowered +:+ "'. Use 'success' or 'failed'.").

Record AuditEntry := {
  ae_timestamp : N;
  ae_action : string;
  ae_status : AuditStatus;
  ae_actor : string;
  ae_message : string;
  ae_duration_ms : option N;
  ae_lock_scope : option string;
  ae_deployment_id : option string;
}.

(** The user who runs the command, and JSON: the text of an entry and the entry of a text. *)
Class Operator := {
  current_user : string;
  entry_to_json : AuditEntry → result string string;
  entry_of_json : string → option AuditEntry;
}.

Definition audit_file_path (project : string) : string := project_staging_dir project +:+ "/audit.log".

Definition with_scope (entry : AuditEntry) (scope : string) : AuditEntry :=
  {| ae_timestamp := ae_timestamp entry; ae_action := ae_action entry; ae_status := ae_status entry;
     ae_actor := ae_actor entry; ae_message := ae_message entry; ae_duration_ms := ae_duration_ms entry;
     ae_lock_scope := Some scope; ae_deployment_id := ae_deployment_id entry |}.
Definition with_deployment_id (entry : AuditEntry) (deployment : string) : AuditEntry :=
  {| ae_timestamp := ae_timestamp entry; ae_action := ae_action entry; ae_status := ae_status entry;
     ae_actor := ae_actor entry; ae_message := ae_message entry; ae_duration_ms := ae_duration_ms entry;
     ae_lock_scope := ae_lock_scope entry; ae_deployment_id := Some deployment |}.

Section audit.
Context `{Host, Operator}.

(** [AuditEntry::new]; a duration is in nanoseconds, and its milliseconds are cast to 64 bits. *)
Definition new_entry (action : string) (status : AuditStatus) (message : string) (duration : option N) : M AuditEntry :=
  now ← attempt system_time;
  mret {| ae_timestamp := match now with Ok n => n / 1000000000 | Err _ => 0 end;
          ae_action := action; ae_status := status; ae_actor := current_user; ae_message := message;
          ae_duration_ms := (λ d, (d / 1000000) mod 2 ^ 64) <$> duration;
          ae_lock_scope := None; ae_deployment_id := None |}.

Definition append_command (project : string) : string :=
  "set -eu; install -d -m 0700 " +:+ project_staging_dir project +:+ "; umask 077; cat >> " +:+ audit_file_path project.
Definition append_entry (project : string) (entry : AuditEntry) : M () :=
  line ← of_result (entry_to_json entry);
  r ← execute_with_input (append_command project) (line +:+ String newline "");
  if success r then mret ()
  else fail ("Could not append audit entry on " +:+ session_host +:+ ": " +:+ trim (stderr r)).

Definition record (project action : string) (status : AuditStatus) (message : string) (scope deployment_id : option string)
    (duration : option N) : M () :=
  entry ← new_entry action status message duration;
  let entry := match scope with Some s => with_scope entry s | None => entry end in
  let entry := match deployment_id with Some d => with_deployment_id entry d | None => entry end in
  ignore (append_entry project entry).

(** An endpoint of a command: its identity, whether it succeeded, its deployment. *)
Definition EndpointResult : Type := string * bool * option string.

(** [rsplit(':').next()]. *)
Definition replica_of_identity (identity : string) : string :=
  match rsplit_once ":" identity with Some (_, replica) => replica | None => identity end.

(** What [record_endpoints_by_server] writes for one server: status, message, scope and deployment. *)
Definition server_summary (detail : option string) (locks_replicas : bool) (results : list EndpointResult) :
    AuditStatus * string * option string * option string :=
  let identities := String.concat ", " ((λ r, r.1.1 +:+ (if (r.1.2 : bool) then "" else " (failed)")) <$> results) in
  (if forallb (λ r, r.1.2) results then AuditSuccess else AuditFailed,
   match detail with Some d => d +:+ ": " +:+ identities | None => identities end,
   if locks_replicas
   then Some (String.concat ", " ((λ r, "replica:" +:+ replica_of_identity r.1.1) <$> results)) else None,
   match results with [(_, _, Some d)] => Some d | _ => None end).

Definition parse_entries (out : string) : list AuditEntry := omap (λ l, entry_of_json (trim l)) (lines out).

Definition read_entries (project : string) (tail : N) : M (list AuditEntry) :=
  r ← execute ("tail -n " +:+ pretty (N.max tail 1) +:+ " " +:+ audit_file_path project +:+ " 2>/dev/null || true");
  mret (parse_entries (stdout r)).
Definition read_all_entries (project : string) : M (list AuditEntry) :=
  r ← execute ("cat " +:+ audit_file_path project +:+ " 2>/dev/null || true");
  mret (parse_entries (stdout r)).
Definition since_command (cutoff : N) (path : string) : string :=
  "awk -v cutoff=" +:+ pretty cutoff +:+ " '{ line=$0; sub(/^[[:space:]]*\{[[:space:]]*" +:+ quote_char +:+ "timestamp"
  +:+ quote_char +:+ "[[:space:]]*:[[:space:]]*/, " +:+ quote_char +:+ quote_char
  +:+ ", line); if ((line + 0) >= cutoff) print }' " +:+ path +:+ " 2>/dev/null || true".
Definition read_entries_since (project : string) (cutoff : N) : M (list AuditEntry) :=
  r ← execute (since_command cutoff (audit_file_path project)); mret (parse_entries (stdout r)).
Definition render_follow_command (project : string) : string :=
  "install -d -m 0700 " +:+ project_staging_dir project +:+ "; touch " +:+ audit_file_path project +:+ "; tail -n 0 -f "
  +:+ audit_file_path project.
End audit.

(** [entry(server).or_default().push(..)] over the outcomes of a command. *)
Definition by_server (outcomes : list (string * string * bool * option string)) : gmap string (list EndpointResult) :=
  foldl (λ m o, let '(identity, server, ok, deployment) := o in
           <[server := default [] (m !! server) ++ [(identity, ok, deployment)]]> m) ∅ outcomes.

Lemma quiet_record `{Host, Operator} project action status message scope deployment duration :
  quiet (record project action status message scope deployment duration).
Proof. unfold record, new_entry, append_entry. quiet. Qed.
