(* ===== verification/Teardown.v ===== *)
(** Taking a project off a server: [jiji-cli/src/image_teardown.rs], [volume_teardown.rs],
    [network_teardown.rs], [proxy_teardown.rs], [teardown_plan.rs] and
    [commands/server/teardown.rs]. *)

From S2P Require Import Prelude Text Bytes Substring Cidr Naming Schema Planner ServiceRuntime.
From S2P Require Import Membership Catalog Desired OpLog Leases Cron CronExec Replication Store Api CandidatePlan EnvResolution.
From S2P Require Import Session ProxyRoutes SessionLaws ProxyScript HostProxy AuditTrail.
Open Scope N_scope.

(** The first of each name, in order. *)
Fixpoint distinct_by {A} (name : A → string) (seen : gset string) (l : list A) : list A :=
  match l with
  | [] => []
  | a :: l => if bool_decide (name a ∈ seen) then distinct_by name seen l
              else a :: distinct_by name ({[name a]} ∪ seen) l
  end.

(** A [for] loop that collects what each turn gives. *)
Fixpoint collect `{Host} {A B} (f : A → M B) (l : list A) : M (list B) :=
  match l with
  | [] => mret []
  | a :: l => b ← f a; rest ← collect f l; mret (b :: rest)
  end.

(** ** [image_teardown.rs] *)

Inductive ImageOutcome := ImageRemoved | ImageNotPresent | ImageRetainedInUseBy (names : list string).

Definition image_candidates (config : Config) : list string :=
  distinct_by id ∅ (normalize_image_name <$> omap (λ s, service_image s.2) (config_services config)).

Definition teardown_image `{Host} (engine : ContainerEngine) (image : string) : M (string * ImageOutcome) :=
  present ← image_exists engine image;
  if negb present then mret (image, ImageNotPresent)
  else
    referenced ← image_referenced_elsewhere engine image;
    if bool_decide (referenced ≠ []) then mret (image, ImageRetainedInUseBy referenced)
    else _ ← remove_image_if_present engine image; mret (image, ImageRemoved).
Definition discover_and_remove `{Host} (engine : ContainerEngine) (images : list string) :
    M (list (string * ImageOutcome)) := collect (teardown_image engine) images.

(** ** [volume_teardown.rs] *)

Record VolumeCandidate := { vc_name : string; vc_service : string }.
Record DiscoveredVolume := {
  dv_name : string;
  dv_service : string;
  dv_exists : bool;
  dv_blocked_by : option string;
}.

Definition volume_candidate (service_name volume : string) : option VolumeCandidate :=
  '(source, _) ← split_once ":" volume;
  if is_named_volume_source source
  then Some {| vc_name := service_name +:+ "-" +:+ source; vc_service := service_name |} else None.
Definition compute_candidates_for_service (config : Config) (service_name : string) : list VolumeCandidate :=
  match hm_get (config_services config) service_name with
  | None => []
  | Some service => distinct_by vc_name ∅ (omap (volume_candidate service_name) (service_volumes service))
  end.
Definition volume_candidates (config : Config) : list VolumeCandidate :=
  distinct_by vc_name ∅ ((config_services config).*1 ≫= compute_candidates_for_service config).

Definition describe_blocking_attacher (this_project : string) (attacher : option string) : option string :=
  match attacher with
  | Some project => if bool_decide (project = this_project) then None else Some project
  | None => Some "an unlabeled container"
  end.

(** [find_map]. *)
Definition find_map {A B} (f : A → option B) (l : list A) : option B := head (omap f l).

Definition discover_volume `{Host} (engine : ContainerEngine) (project : string) (candidate : VolumeCandidate) :
    M DiscoveredVolume :=
  present ← volume_exists engine (vc_name candidate);
  blocked_by ← (if (present : bool) then
                  attached ← volume_attached_projects engine (vc_name candidate);
                  mret (find_map (describe_blocking_attacher project) attached)
                else mret None);
  mret {| dv_name := vc_name candidate; dv_service := vc_service candidate;
          dv_exists := present; dv_blocked_by := blocked_by |}.
Definition discover_volumes `{Host} (engine : ContainerEngine) (candidates : list VolumeCandidate) (project : string) :
    M (list DiscoveredVolume) := collect (discover_volume engine project) candidates.

Definition remove_volume `{Host} (engine : ContainerEngine) (volume : DiscoveredVolume) : M (string * bool) :=
  if negb (dv_exists volume) || bool_decide (is_Some (dv_blocked_by volume)) then mret (dv_name volume, false)
  else removed ← remove_volume_if_present engine (dv_name volume); mret (dv_name volume, removed).
Definition remove_volumes_of `{Host} (engine : ContainerEngine) (volumes : list DiscoveredVolume) :
    M (list (string * bool)) := collect (remove_volume engine) volumes.

(** ** [network_teardown.rs] *)

(** Of [commands/network/setup.rs]. *)
Definition network_dir (slug : string) : string := "/etc/jiji/network/" +:+ slug.
Definition private_key_path (slug : string) : string := network_dir slug +:+ "/private.key".
Definition public_key_path (slug : string) : string := network_dir slug +:+ "/public.key".
Definition wireguard_config_path (interface : string) : string := "/etc/wireguard/" +:+ interface +:+ ".conf".

Definition podman_restart_dropin_path (slug : string) : string :=
  "/etc/systemd/system/podman-restart.service.d/jiji-network-" +:+ slug +:+ ".conf".

Record NetworkTeardownStatus := {
  nt_installed_generation : option string;
  nt_other_project_containers : list ContainerSummary;
}.

Inductive NetworkRemovalOutcome := NetworkRemoved | NetworkAlreadyAbsent | NetworkRetainedAttached (count : nat).

Section network.
Context `{Host, Sha256} (engine : ContainerEngine) (project : string).
Let e := engine_to_string engine.
Let slug := text (systemd_unit_slug project).

Definition read_installed_generation : M (option string) :=
  r ← execute ("cat " +:+ network_dir slug +:+ "/mesh-generation 2>/dev/null || true");
  mret (non_empty_text (trim (stdout r))).
Definition discover_network : M NetworkTeardownStatus :=
  generation ← read_installed_generation;
  others ← list_other_project_containers engine project;
  mret {| nt_installed_generation := generation; nt_other_project_containers := others |}.

Definition render_stop_and_disable_units_command : string :=
  let units := ["jiji-dns-" +:+ slug +:+ ".service"; "jiji-service-nat-" +:+ slug +:+ ".service";
                "jiji-network-restore-" +:+ slug +:+ ".service";
                "wg-quick@" +:+ text (wireguard_interface_name project) +:+ ".service"] in
  String.concat "; " ((λ u, "systemctl disable --now " +:+ u +:+ " 2>/dev/null || true") <$> units)
  +:+ "; rm -f /etc/systemd/system/jiji-dns-" +:+ slug +:+ ".service /etc/systemd/system/jiji-service-nat-" +:+ slug
  +:+ ".service /etc/systemd/system/jiji-network-restore-" +:+ slug +:+ ".service".

Definition stop_and_disable_units : M () :=
  _ ← run_checked render_stop_and_disable_units_command;
  _ ← (if bool_decide (engine = Podman) then
         _ ← run_checked ("rm -f " +:+ podman_restart_dropin_path slug); mret ()
       else mret ());
  _ ← run_checked "systemctl daemon-reload"; mret ().

Definition remove_wireguard_command : string :=
  let interface := text (wireguard_interface_name project) in
  "ip link delete " +:+ interface +:+ " 2>/dev/null || true; rm -f " +:+ wireguard_config_path interface
  +:+ " " +:+ private_key_path slug +:+ " " +:+ public_key_path slug.
Definition remove_wireguard : M () := _ ← run_checked remove_wireguard_command; mret ().

Definition remove_nftables_command : string :=
  "nft delete table ip " +:+ text (service_nat_table_name project) +:+ " 2>/dev/null || true".
Definition remove_nftables : M () := _ ← run_checked remove_nftables_command; mret ().

Definition delete_bridge_command : string :=
  "ip link delete " +:+ text (bridge_interface_name project) +:+ " type bridge 2>/dev/null || true".
Definition remove_bridge_and_engine_network : M NetworkRemovalOutcome :=
  let bridge_name := text (bridge_network_name project) in
  attached ← network_attachment_count engine bridge_name [];
  if (0 <? attached)%nat then mret (NetworkRetainedAttached attached)
  else
    removed ← remove_network_if_present engine bridge_name;
    _ ← (if bool_decide (engine = Podman) then _ ← run_checked delete_bridge_command; mret () else mret ());
    mret (if (removed : bool) then NetworkRemoved else NetworkAlreadyAbsent).

Definition render_remove_compiled_state_command : string :=
  "rm -rf " +:+ network_dir slug +:+ "; systemctl daemon-reload".
Definition remove_compiled_state : M () := _ ← run_checked render_remove_compiled_state_command; mret ().
End network.

(** ** [proxy_teardown.rs] *)

Definition unwrap_or_default {A} (l : option (list A)) : list A := default [] l.

Definition service_routes (service : Service) : list (string * option string) :=
  match service_proxy service with
  | None => []
  | Some proxy =>
      match proxy_targets proxy with
      | Some targets =>
          targets ≫= λ target,
            if bool_decide (is_Some (target_listen_port target)) then []
            else (λ host, (host, target_path_prefix target)) <$> unwrap_or_default (target_hosts target)
      | None =>
          if bool_decide (is_Some (proxy_listen_port proxy)) then []
          else (λ host, (host, proxy_path_prefix proxy)) <$> unwrap_or_default (proxy_hosts proxy)
      end
  end.
Definition compute_route_candidates (config : Config) : list (string * option string) :=
  config_services config ≫= λ s, service_routes s.2.

Definition service_tcp_routes (service : Service) : list N :=
  match service_proxy service with
  | None => []
  | Some proxy =>
      match proxy_targets proxy with
      | Some targets => omap target_listen_port targets
      | None => option_list (proxy_listen_port proxy)
      end
  end.
Definition compute_tcp_route_candidates (config : Config) : list N :=
  config_services config ≫= λ s, service_tcp_routes s.2.

Inductive ProxyContainerOutcome :=
| ProxyRemoved
| ProxyAlreadyAbsent
| ProxyRetainedInUseBy (routes : list RouteSummary) (tcp_routes : list N).

Section proxy.
Context `{Host, RouteJson} (engine : ContainerEngine).

(** [list] if the proxy runs. *)
Definition if_proxy_runs {A} (list_them : M (list A)) : M (list A) :=
  status ← inspect_status engine CONTAINER_NAME;
  if bool_decide (status = Some "running") then list_them else mret [].
Definition list_routes_if_running : M (list RouteSummary) := if_proxy_runs (list_routes engine).
Definition list_tcp_routes_if_running : M (list N) := if_proxy_runs (list_tcp_routes engine).

Definition remove_project_routes (candidates existing : list (string * option string)) :
    M (list ((string * option string) * bool)) :=
  collect (λ route,
    if bool_decide (route ∈ existing)
    then _ ← remove_route engine route.1 route.2; mret (route, true)
    else mret (route, false)) candidates.
Definition remove_project_tcp_routes (candidates existing : list N) : M (list (N * bool)) :=
  collect (λ port,
    if bool_decide (port ∈ existing)
    then _ ← remove_tcp_route engine port; mret (port, true)
    else mret (port, false)) candidates.

Definition remove_certs_command : string := "rm -rf " +:+ CERTS_DIR.
Definition remove_certs_dir : M () :=
  r ← execute remove_certs_command;
  if success r then mret ()
  else fail ("Could not remove " +:+ CERTS_DIR +:+ " on " +:+ session_host +:+ ": " +:+ trim (stderr r)).

Definition teardown_proxy_container_if_unused : M ProxyContainerOutcome :=
  remaining ← list_routes_if_running;
  remaining_tcp ← list_tcp_routes_if_running;
  if bool_decide (remaining ≠ []) || bool_decide (remaining_tcp ≠ [])
  then mret (ProxyRetainedInUseBy remaining remaining_tcp)
  else
    removed ← remove_if_present engine CONTAINER_NAME;
    if negb removed then mret ProxyAlreadyAbsent
    else
      _ ← remove_certs_dir;
      _ ← (if bool_decide (engine = Docker) then remove_ingress_rule else mret ());
      mret ProxyRemoved.
End proxy.

(** ** [teardown_plan.rs] *)

Record ServerTeardownPlan := {
  tp_server_name : string;
  tp_containers : list ContainerSummary;
  tp_proxy_routes : list (string * option string);
  tp_tcp_proxy_routes : list N;
  tp_volumes : list DiscoveredVolume;
  tp_images : list string;
  tp_network : NetworkTeardownStatus;
  tp_project_directory_exists : bool;
}.

Definition project_directory_exists `{Host} (project : string) : M bool :=
  r ← execute ("test -d " +:+ project_staging_dir project); mret (success r).

Definition present_images `{Host} (engine : ContainerEngine) (images : list string) : M (list string) :=
  found ← collect (λ image, present ← image_exists engine image; mret (image, present : bool)) images;
  mret (filter (λ x, x.2 = true) found).*1.

Definition discover `{Host, RouteJson, Sha256} (engine : ContainerEngine) (config : Config)
    (project server_name : string) (include_volumes : bool) : M ServerTeardownPlan :=
  containers ← list_managed_containers engine project;
  existing_routes ← list_routes_if_running engine;
  let proxy_routes := filter (λ r, r ∈ (λ s, (rs_host s, rs_path_prefix s)) <$> existing_routes)
                        (compute_route_candidates config) in
  existing_tcp_routes ← list_tcp_routes_if_running engine;
  let tcp_proxy_routes := filter (λ p, p ∈ existing_tcp_routes) (compute_tcp_route_candidates config) in
  volumes ← (if include_volumes then discover_volumes engine (volume_candidates config) project else mret []);
  images ← present_images engine (image_candidates config);
  network ← discover_network engine project;
  directory ← project_directory_exists project;
  mret {| tp_server_name := server_name; tp_containers := containers; tp_proxy_routes := proxy_routes;
          tp_tcp_proxy_routes := tcp_proxy_routes; tp_volumes := volumes; tp_images := images;
          tp_network := network; tp_project_directory_exists := directory |}.

Definition render_other_project_notices (others : list ContainerSummary) : list string :=
  (λ c, "another jiji project's container '" +:+ summary_name c +:+ "' (project '"
        +:+ default "unlabeled" (summary_project c)
        +:+ "') is also present on this host and will be left untouched") <$> others.

Definition removable (volume : DiscoveredVolume) : bool :=
  dv_exists volume && bool_decide (dv_blocked_by volume = None).
Definition counted (n : nat) (what : string) : string := pretty (N.of_nat n) +:+ " " +:+ what.
Definition render_summary (plan : ServerTeardownPlan) : string :=
  tp_server_name plan +:+ ": " +:+ String.concat ", "
    ([counted (length (tp_containers plan)) "container(s)"]
     ++ (if bool_decide (tp_volumes plan = []) then []
         else [counted (length (filter (λ v, removable v = true) (tp_volumes plan))) "volume(s)"])
     ++ (if bool_decide (tp_images plan = []) then [] else [counted (length (tp_images plan)) "image(s)"])
     ++ (if bool_decide (tp_proxy_routes plan = []) then []
         else [counted (length (tp_proxy_routes plan)) "proxy route(s)"])
     ++ (if bool_decide (nt_installed_generation (tp_network plan) = None) then [] else ["private network"])
     ++ (if tp_project_directory_exists plan then ["staged files/env"] else [])).

(** ** [commands/server/teardown.rs] *)

Inductive TeardownStepResult :=
| Removed
| AlreadyAbsent
| Retained (reason : string)
| Failed (error : string).

Definition Steps := list (string * TeardownStepResult).

Inductive HostTeardownOutcome :=
| Unreachable (error : string)
| Planned
| Completed (steps : Steps).

Definition present_or_absent (was_present : bool) : TeardownStepResult :=
  if was_present then Removed else AlreadyAbsent.

Definition format_route (host : string) (path_prefix : option string) : string :=
  match path_prefix with Some prefix => host +:+ prefix | None => host end.

Definition is_dependent (config : Config) (c : ContainerSummary) : bool :=
  match summary_service c ≫= hm_get (config_services config) with
  | Some service => bool_decide (is_Some (network_mode_dependency service))
  | None => false
  end.
(** [partition], then the two parts in order. *)
Definition order_containers_for_removal (containers : list ContainerSummary) (config : Config) :
    list ContainerSummary :=
  filter (λ c, is_dependent config c = true) containers ++ filter (λ c, is_dependent config c = false) containers.

Section steps.
Context `{Host}.

(** A step whose error becomes its result; [report] gives the lines of a success. *)
Definition step {A} (name : string) (m : M A) (report : A → Steps) : M Steps :=
  r ← attempt m;
  mret (match r with Ok a => report a | Err error => [(name, Failed error)] end).
Definition as_step {A} (name : string) (f : A → TeardownStepResult) (a : A) : Steps := [(name, f a)].

(** One container: stopped, then removed; whether that failed. *)
Definition teardown_container (engine : ContainerEngine) (c : ContainerSummary) : M (string * TeardownStepResult) :=
  let name := "container '" +:+ summary_name c +:+ "'" in
  stopped ← attempt (stop_if_running engine (summary_name c));
  match stopped with
  | Err error => mret (name, Failed error)
  | Ok _ =>
      r ← attempt (remove_if_present engine (summary_name c));
      mret (name, match r with Ok removed => present_or_absent removed | Err error => Failed error end)
  end.

Definition is_failed (r : TeardownStepResult) : bool := match r with Failed _ => true | _ => false end.
Definition any_failed (steps : Steps) : bool := existsb (λ s, is_failed s.2) steps.

Definition volume_step (volumes : list DiscoveredVolume) (result : string * bool) : string * TeardownStepResult :=
  let '(name, removed) := result in
  let matching := find (λ v, bool_decide (dv_name v = name)) volumes in
  ("volume '" +:+ name +:+ "' (service '" +:+ default "unknown" (dv_service <$> matching) +:+ "')",
   if removed then Removed
   else match matching ≫= dv_blocked_by with Some reason => Retained reason | None => AlreadyAbsent end).

Definition image_step (result : string * ImageOutcome) : string * TeardownStepResult :=
  ("image '" +:+ result.1 +:+ "'",
   match result.2 with
   | ImageRemoved => Removed
   | ImageNotPresent => AlreadyAbsent
   | ImageRetainedInUseBy names => Retained ("still used by " +:+ String.concat ", " names)
   end).

Definition proxy_step (outcome : ProxyContainerOutcome) : TeardownStepResult :=
  match outcome with
  | ProxyRemoved => Removed
  | ProxyAlreadyAbsent => AlreadyAbsent
  | ProxyRetainedInUseBy routes tcp_routes =>
      Retained ("still serving route(s): " +:+ String.concat ", "
        (((λ r, format_route (rs_host r) (rs_path_prefix r)) <$> routes)
         ++ ((λ p, "tcp:" +:+ pretty p) <$> tcp_routes)))
  end.

Definition network_step (outcome : NetworkRemovalOutcome) : TeardownStepResult :=
  match outcome with
  | NetworkRemoved => Removed
  | NetworkAlreadyAbsent => AlreadyAbsent
  | NetworkRetainedAttached count => Retained (counted count "container(s) still attached")
  end.

Definition staging_step (project : string) (exists_ : bool) : M Steps :=
  let name := "project staging directory" in
  if negb exists_ then mret [(name, AlreadyAbsent)]
  else
    r ← attempt (execute ("rm -rf " +:+ project_staging_dir project));
    mret [(name, match r with
                 | Ok r => if success r then Removed else Failed (trim (stderr r))
                 | Err error => Failed error
                 end)].

(** [network_plan.servers[server_name]]. *)
Definition planned_server (plan : NetworkPlan) (name : string) : M ServerPlan :=
  match np_servers plan !! name with Some s => mret s | None => λ w, (Crashes, w) end.

Context `{RouteJson, Sha256}.

Definition disconnect_step (engine : ContainerEngine) (network_plan : NetworkPlan) (server_name project : string) :
    M Steps :=
  let name := "jiji-proxy network attachment" in
  r ← attempt (disconnect_bridge_if_attached engine (text (bridge_network_name project)));
  match r with
  | Err error => mret [(name, Failed error)]
  | Ok was_attached =>
      server ← planned_server network_plan server_name;
      ingress ← attempt (public_host ← of_result (parse_public_host server);
                         refresh_from_surviving_attachment engine public_host);
      mret ((name, present_or_absent was_attached) ::
            match ingress with Ok _ => [] | Err error => [("jiji-proxy ingress rule", Failed error)] end)
  end.

Definition removed_step (name : string) (m : M ()) : M Steps := step name m (as_step name (λ _, Removed)).

(** The network layer. *)
Definition teardown_network (engine : ContainerEngine) (project : string) : M Steps :=
  units ← removed_step "network systemd units" (stop_and_disable_units engine project);
  wireguard ← removed_step "wireguard configuration" (remove_wireguard project);
  nft ← removed_step "service-nat nftables table" (remove_nftables project);
  bridge ← step "jiji bridge network" (remove_bridge_and_engine_network engine project)
             (as_step "jiji bridge network" network_step);
  compiled ← removed_step "compiled network state" (remove_compiled_state project);
  mret (units ++ wireguard ++ nft ++ bridge ++ compiled).

(** The agent, the routes and the containers. *)
Definition teardown_application (engine : ContainerEngine) (project : string) (plan : ServerTeardownPlan)
    (config : Config) : M (Steps * Steps * Steps * Steps) :=
  agent ← step "jiji agent" (remove_agent project) (as_step "jiji agent" present_or_absent);
  routes ← step "proxy routes" (remove_project_routes engine (tp_proxy_routes plan) (tp_proxy_routes plan))
             (fmap (λ r, ("proxy route '" +:+ format_route r.1.1 r.1.2 +:+ "'", present_or_absent r.2)));
  tcp_routes ← step "tcp proxy routes"
                 (remove_project_tcp_routes engine (tp_tcp_proxy_routes plan) (tp_tcp_proxy_routes plan))
                 (fmap (λ r, ("tcp proxy route 'tcp:" +:+ pretty r.1 +:+ "'", present_or_absent r.2)));
  containers ← collect (teardown_container engine) (order_containers_for_removal (tp_containers plan) config);
  mret (agent, routes, tcp_routes, containers).

Definition execute_host_teardown (engine : ContainerEngine) (network_plan : NetworkPlan) (server_name project : string)
    (plan : ServerTeardownPlan) (remove_volumes : bool) (config : Config) : M Steps :=
  '(agent, routes, tcp_routes, containers) ← teardown_application engine project plan config;
  let application_layer_failed := any_failed containers in
  volumes ← (if remove_volumes
             then step "volumes" (remove_volumes_of engine (tp_volumes plan)) (fmap (volume_step (tp_volumes plan)))
             else mret []);
  images ← (if application_layer_failed then mret []
            else step "images" (discover_and_remove engine (tp_images plan)) (fmap image_step));
  staging ← staging_step project (tp_project_directory_exists plan);
  proxy ← step "jiji-proxy container" (teardown_proxy_container_if_unused engine)
            (as_step "jiji-proxy container" proxy_step);
  attachment ← disconnect_step engine network_plan server_name project;
  network ← (if application_layer_failed
             then mret [("network layer", Retained "skipped because application-layer teardown had failures")]
             else teardown_network engine project);
  mret (agent ++ routes ++ tcp_routes ++ containers ++ volumes ++ images ++ staging ++ proxy ++ attachment ++ network).
End steps.

(** The hosts that were not fully torn down. *)
Definition incomplete (outcome : HostTeardownOutcome) : bool :=
  match outcome with
  | Unreachable _ => true
  | Planned => false
  | Completed steps => any_failed steps
  end.
Definition print_summary_and_exit (outcomes : gmap string HostTeardownOutcome) : result string () :=
  let failures := length (filter (λ o, incomplete o = true) (btree_values outcomes)) in
  if (0 <? failures)%nat
  then Err ("Teardown incomplete for " +:+ pretty (N.of_nat failures) +:+ " server(s); see the summary above.")
  else Ok ().

Definition split_comma_trimmed (value : option string) : list string :=
  match value with
  | Some value => filter (λ s, s ≠ "") (trim <$> split_char "," value)
  | None => []
  end.

(** [run] from the connections on: what each server answered to the connection attempt, whether
    the operator confirmed, and whether the host locks were taken.  The servers are independent
    worlds. *)
Section run.
Context `{Host, RouteJson, Sha256, Operator}.
Context (engine : ContainerEngine) (network_plan : NetworkPlan) (project : string) (config : Config).
Context (remove_volumes : bool).

(** One host once the locks are held: the steps, and then the audit entry, which the removal of
    the staging directory must not take away. *)
Definition teardown_and_audit (started_at : N) (server_name : string) (plan : ServerTeardownPlan) : M Steps :=
  steps ← execute_host_teardown engine network_plan server_name project plan remove_volumes config;
  now ← now_monotonic;
  _ ← record project "server_teardown" (if any_failed steps then AuditFailed else AuditSuccess)
        (counted (length steps) "step(s)") (Some "host-runtime") None (Some (now - started_at));
  mret steps.

Definition discover_host (server_name : string) : M ServerTeardownPlan :=
  discover engine config project server_name remove_volumes.

Definition unreachable_of {A} (r : result string A) : option HostTeardownOutcome :=
  match r with Err e => Some (Unreachable e) | Ok _ => None end.
Definition undiscovered {A} (r : flow A * World) : option HostTeardownOutcome :=
  match r.1 with Fails e => Some (Unreachable e) | _ => None end.
Definition discovered_plan (r : flow ServerTeardownPlan * World) : option (ServerTeardownPlan * World) :=
  match r.1 with Fine plan => Some (plan, r.2) | _ => None end.
Definition completed (r : flow Steps * World) : option HostTeardownOutcome :=
  match r.1 with Fine steps => Some (Completed steps) | _ => None end.

Definition teardown_hosts (started_at : N) (dry_run confirmed : bool) (locked : result string ())
    (connections : gmap string (result string World)) : result string () * gmap string World :=
  let sessions := omap (λ c, match c with Ok w => Some w | Err _ => None end) connections in
  let found := map_imap (λ name w, Some (discover_host name w)) sessions in
  let outcomes := omap unreachable_of connections ∪ omap undiscovered found in
  let plans := omap discovered_plan found in
  let worlds := snd <$> found in
  if bool_decide (plans = ∅) then (print_summary_and_exit outcomes, worlds)
  else if dry_run then (print_summary_and_exit (((λ _, Planned) <$> plans) ∪ outcomes), worlds)
  else if negb confirmed then (Err "Teardown cancelled: project name did not match.", worlds)
  else
    match locked with
    | Err error => (Err error, worlds)
    | Ok _ =>
        let executed := map_imap (λ name pw, Some (teardown_and_audit started_at name pw.1 pw.2)) plans in
        (print_summary_and_exit (omap completed executed ∪ outcomes), (snd <$> executed) ∪ worlds)
    end.
End run.

(** ** What a teardown does and when *)

(** The commands that take away the network of a project. *)
Definition network_commands `{Sha256} (engine : ContainerEngine) (project : string) : list string :=
  let e := engine_to_string engine in
  let slug := text (systemd_unit_slug project) in
  let bridge := text (bridge_network_name project) in
  [render_stop_and_disable_units_command project; "rm -f " +:+ podman_restart_dropin_path slug;
   remove_wireguard_command project; remove_nftables_command project;
   e +:+ " network rm " +:+ bridge; e +:+ " network rm --force " +:+ bridge;
   delete_bridge_command project; render_remove_compiled_state_command project].

Definition inspect_command (engine : ContainerEngine) (name : string) : string :=
  engine_to_string engine +:+ " inspect " +:+ name +:+ " --format '{{.State.Status}}'".
Definition remove_command (engine : ContainerEngine) (name : string) : string :=
  engine_to_string engine +:+ " rm -f " +:+ name.
Definition remove_image_command (engine : ContainerEngine) (image : string) : string :=
  engine_to_string engine +:+ " rmi " +:+ image.
Definition users_command (engine : ContainerEngine) (image : string) : string :=
  engine_to_string engine +:+ " ps -a --filter ancestor=" +:+ image +:+ " --format '{{.Names}}'".
Definition remove_volume_command (engine : ContainerEngine) (volume : string) : string :=
  engine_to_string engine +:+ " volume rm " +:+ volume.
Definition attachers_command (engine : ContainerEngine) (volume : string) : string :=
  engine_to_string engine +:+ " ps -a --filter volume=" +:+ volume +:+ " --format '"
  +:+ label_template engine "jiji.project" +:+ "'".

Definition image_probe (engine : ContainerEngine) (image : string) : string :=
  engine_to_string engine +:+ " image inspect " +:+ image +:+ " >/dev/null 2>&1".
Definition volume_probe (engine : ContainerEngine) (volume : string) : string :=
  engine_to_string engine +:+ " volume inspect " +:+ volume +:+ " >/dev/null 2>&1".
Definition network_probe `{Sha256} (engine : ContainerEngine) (project : string) : string :=
  engine_to_string engine +:+ " network inspect " +:+ text (bridge_network_name project) +:+ " >/dev/null 2>&1".
Definition attached_command `{Sha256} (engine : ContainerEngine) (project : string) : string :=
  engine_to_string engine +:+ " ps -a --filter network=" +:+ text (bridge_network_name project) +:+ " --format '{{.Names}}'".
Definition remove_network_command `{Sha256} (engine : ContainerEngine) (project force : string) : string :=
  engine_to_string engine +:+ " network rm " +:+ force +:+ text (bridge_network_name project).

(** A command that was answered, with or without success. *)
Definition answered (success_ : bool) (command : string) (l : list Event) : Prop :=
  ∃ input r, Executed command input (Ok r) ∈ l ∧ success r = success_.
(** The engine has removed a container, or an inspection of it failed, which the code takes for
    its absence though it may have another cause. *)
Definition removed_or_unseen (engine : ContainerEngine) (name : string) (l : list Event) : Prop :=
  answered false (inspect_command engine name) l ∨ answered true (remove_command engine name) l.
(** The engine says no container uses an image. *)
Definition unused_image (engine : ContainerEngine) (image : string) (l : list Event) : Prop :=
  ∃ input r, Executed (users_command engine image) input (Ok r) ∈ l ∧ success r = true ∧ trimmed_lines (stdout r) = [].
(** The engine says every container with a volume is of the project. *)
Definition own_volume (engine : ContainerEngine) (project volume : string) (l : list Event) : Prop :=
  ∃ input r, Executed (attachers_command engine volume) input (Ok r) ∈ l ∧ success r = true ∧
    Forall (λ line, trim line = project ∧ project ≠ "") (lines (stdout r)).
