(* ===== verification/TeardownLaws.v ===== *)
(** What a teardown may do and in which order: which commands its programs issue, what the log
    must hold before a command that destroys something, and the properties of [Teardown]. *)

From S2P Require Import Prelude Text Bytes Substring Cidr Naming Schema Planner ServiceRuntime.
From S2P Require Import Membership Catalog Desired OpLog Leases Cron CronExec Replication Store Api CandidatePlan EnvResolution.
From S2P Require Import Session ProxyRoutes SessionLaws ProxyScript HostProxy AuditTrail Teardown.
Open Scope N_scope.

(** ** The commands of a program *)

Section issues.
Context `{Host} (P : string → Prop).

Definition executes (ev : Event) : Prop := ∃ c input outcome, ev = Executed c input outcome ∧ P c.
(** Every command a program executes, however it ends, satisfies [P], and it asks the agent for
    nothing. *)
Definition issues {A} (m : M A) : Prop :=
  ∀ w, ∃ l, w_log (m w).2 = l ++ w_log w ∧ Forall executes l.

Lemma issues_ret {A} (a : A) : issues (mret a).
Proof. intros w. by exists []. Qed.
Lemma issues_fail {A} e : issues (fail e : M A).
Proof. intros w. by exists []. Qed.
Lemma issues_of_result {A} (r : result string A) : issues (of_result r).
Proof. destruct r; [apply issues_ret|apply issues_fail]. Qed.
Lemma issues_crash {A} : issues ((λ w, (Crashes, w)) : M A).
Proof. intros w. by exists []. Qed.
Lemma issues_bind {A B} (m : M A) (f : A → M B) : issues m → (∀ a, issues (f a)) → issues (m ≫= f).
Proof.
  intros Hm Hf w. destruct (Hm w) as (l & Hl & Hp). unfold mbind, M_bind.
  destruct (m w) as [[a| | |] w']; simpl in *; try by (exists l).
  destruct (Hf a w') as (l' & Hl' & Hp'). exists (l' ++ l). rewrite Hl', Hl, (assoc_L (++)).
  split; [done|]. by apply Forall_app.
Qed.
Lemma issues_attempt {A} (m : M A) : issues m → issues (attempt m).
Proof. intros Hm w. specialize (Hm w). unfold attempt. by destruct (m w) as [[a| | |] w']. Qed.
Lemma issues_ignore {A} (m : M A) : issues m → issues (ignore m).
Proof. intros Hm. apply issues_bind; [by apply issues_attempt|intros; apply issues_ret]. Qed.
Lemma issues_collect {A B} (f : A → M B) l : (∀ a, a ∈ l → issues (f a)) → issues (collect f l).
Proof.
  induction l as [|a l IH]; intros Hf; simpl; [apply issues_ret|].
  apply issues_bind; [apply Hf; by left|intros b]. apply issues_bind; [|intros; apply issues_ret].
  apply IH. intros. apply Hf. by right.
Qed.
Lemma issues_execute_with_input c input : P c → issues (execute_with_input c input).
Proof.
  intros HP w. unfold execute_with_input. destruct (exec c input (w_machine w)) as [outcome mc].
  exists [Executed c input outcome]. split; [done|]. apply Forall_singleton. by exists c, input, outcome.
Qed.
Lemma issues_execute c : P c → issues (execute c).
Proof. apply issues_execute_with_input. Qed.
Lemma issues_run_checked c : P c → issues (run_checked c).
Proof.
  intros HP. unfold run_checked, ensure_success. apply issues_bind; [by apply issues_execute|intros r].
  apply issues_bind; [|intros; apply issues_ret]. case_match; [apply issues_ret|apply issues_fail].
Qed.
Lemma issues_clock : issues now_monotonic.
Proof. intros w. by exists []. Qed.
Lemma issues_system_time : issues system_time.
Proof. intros w. by exists []. Qed.
End issues.

Lemma issues_impl `{Host} (P Q : string → Prop) {A} (m : M A) : (∀ c, P c → Q c) → issues P m → issues Q m.
Proof.
  intros HPQ Hm w. destruct (Hm w) as (l & Hl & Hf). exists l. split; [done|].
  eapply Forall_impl; [exact Hf|]. intros ev (c & i & o & -> & Hc). exists c, i, o. auto.
Qed.

Create HintDb issues.
#[export] Hint Resolve issues_ret issues_fail issues_of_result issues_crash issues_clock issues_system_time : issues.

(** Walks through a program; what remains are conditions on its commands. *)
Ltac issues_step :=
  match goal with
  | |- ∀ _, _ => intro
  | |- issues _ _ => solve [auto with issues]
  | |- issues _ (mbind _ _) => apply issues_bind
  | |- issues _ (attempt _) => apply issues_attempt
  | |- issues _ (ignore _) => apply issues_ignore
  | |- issues _ (collect _ _) => apply issues_collect
  | |- issues _ (run_checked _) => apply issues_run_checked
  | |- issues _ (execute _) => apply issues_execute
  | |- issues _ (execute_with_input _ _) => apply issues_execute_with_input
  | |- issues _ _ => case_match
  end.
Ltac issues := repeat issues_step.

(** ** Commands that destroy something *)

(** How the commands start that take away the network, an image, a volume or the certificates. *)
Definition dangerous_starts (engine : ContainerEngine) : list string :=
  let e := engine_to_string engine in
  ["systemctl disable --now jiji-dns-"; "rm -f /etc/systemd/system/podman-restart"; "ip link delete ";
   "nft delete table ip jiji_service_nat_"; e +:+ " network rm "; "rm -rf /etc/jiji/network/";
   e +:+ " rmi "; e +:+ " volume rm "; "rm -rf /etc/jiji/certs"].
Definition harmless (engine : ContainerEngine) (c : string) : Prop :=
  existsb (λ p, starts_with p c) (dangerous_starts engine) = false.

Section harmless.
Context `{Host, RouteJson, Sha256} (engine : ContainerEngine) (project : string).

Ltac harmless := solve [unfold harmless; destruct engine; reflexivity].

Lemma harmless_not_image c i : harmless engine c → c ≠ remove_image_command engine i.
Proof. intros Hc ->. revert Hc. unfold harmless. by destruct engine. Qed.
Lemma harmless_not_volume c v : harmless engine c → c ≠ remove_volume_command engine v.
Proof. intros Hc ->. revert Hc. unfold harmless. by destruct engine. Qed.
Lemma harmless_not_certs c : harmless engine c → c ≠ remove_certs_command.
Proof. intros Hc ->. revert Hc. unfold harmless. by destruct engine. Qed.
Lemma harmless_not_network c : harmless engine c → c ∉ network_commands engine project.
Proof.
  intros Hc Hin. unfold network_commands in Hin. revert Hc.
  repeat (apply elem_of_cons in Hin as [->|Hin]; [unfold harmless; by destruct engine|]).
  by apply elem_of_nil in Hin.
Qed.

Lemma list_containers_harmless p : issues (harmless engine) (list_managed_containers engine p).
Proof. unfold list_managed_containers, list_by_label_filter. issues; harmless. Qed.
Lemma list_others_harmless p : issues (harmless engine) (list_other_project_containers engine p).
Proof. unfold list_other_project_containers, list_by_label_filter. issues; harmless. Qed.
Lemma inspect_status_harmless n : issues (harmless engine) (inspect_status engine n).
Proof. unfold inspect_status. issues; harmless. Qed.
Hint Resolve list_containers_harmless list_others_harmless inspect_status_harmless : issues.
Lemma routes_harmless : issues (harmless engine) (list_routes_if_running engine).
Proof. unfold list_routes_if_running, if_proxy_runs, list_routes, run_or, parsed. issues; harmless. Qed.
Lemma tcp_routes_harmless : issues (harmless engine) (list_tcp_routes_if_running engine).
Proof. unfold list_tcp_routes_if_running, if_proxy_runs, list_tcp_routes, run_or, parsed. issues; harmless. Qed.
Lemma image_exists_harmless i : issues (harmless engine) (image_exists engine i).
Proof. unfold image_exists. issues; harmless. Qed.
Lemma volume_exists_harmless v : issues (harmless engine) (volume_exists engine v).
Proof. unfold volume_exists. issues; harmless. Qed.
Lemma attached_harmless v : issues (harmless engine) (volume_attached_projects engine v).
Proof. unfold volume_attached_projects. issues; harmless. Qed.
Lemma referenced_harmless i : issues (harmless engine) (image_referenced_elsewhere engine i).
Proof. unfold image_referenced_elsewhere. issues; harmless. Qed.
Hint Resolve routes_harmless tcp_routes_harmless image_exists_harmless volume_exists_harmless attached_harmless
  referenced_harmless : issues.
Lemma discover_harmless config server volumes :
  issues (harmless engine) (discover engine config project server volumes).
Proof.
  unfold discover, discover_volumes, discover_volume, present_images, discover_network, read_installed_generation,
    project_directory_exists. issues; harmless.
Qed.

Lemma agent_harmless : issues (harmless engine) (remove_agent project).
Proof. unfold remove_agent, is_unit_active, path_exists, run_required. issues; harmless. Qed.
Lemma remove_routes_harmless c l : issues (harmless engine) (remove_project_routes engine c l).
Proof. unfold remove_project_routes, remove_route, run_or. issues; harmless. Qed.
Lemma remove_tcp_routes_harmless c l : issues (harmless engine) (remove_project_tcp_routes engine c l).
Proof. unfold remove_project_tcp_routes, remove_tcp_route, run_or. issues; harmless. Qed.
Lemma stop_harmless n : issues (harmless engine) (stop_if_running engine n).
Proof. unfold stop_if_running, stop. issues; harmless. Qed.
Lemma remove_harmless n : issues (harmless engine) (remove_if_present engine n).
Proof. unfold remove_if_present, Session.remove. issues; harmless. Qed.
Lemma staging_harmless b : issues (harmless engine) (staging_step project b).
Proof. unfold staging_step. issues; harmless. Qed.
Lemma ingress_harmless : issues (harmless engine) remove_ingress_rule.
Proof. unfold remove_ingress_rule, run_required. issues; harmless. Qed.
Lemma disconnect_harmless np server : issues (harmless engine) (disconnect_step engine np server project).
Proof.
  unfold disconnect_step, disconnect_bridge_if_attached, planned_server, refresh_from_surviving_attachment,
    ensure_ingress_rule, write_remote_file, run_required. issues; harmless.
Qed.
Lemma record_harmless `{Operator} p a s m sc d t : issues (harmless engine) (record p a s m sc d t).
Proof. unfold record, new_entry, append_entry. issues; harmless. Qed.
End harmless.
#[export] Hint Resolve discover_harmless agent_harmless remove_routes_harmless remove_tcp_routes_harmless stop_harmless
  remove_harmless staging_harmless disconnect_harmless record_harmless inspect_status_harmless
  image_exists_harmless volume_exists_harmless attached_harmless referenced_harmless routes_harmless
  tcp_routes_harmless ingress_harmless : issues.

Lemma Forall2_covers {A B} (P : A → B → Prop) xs bs a : Forall2 P xs bs → a ∈ xs → ∃ b, P a b.
Proof. intros Hf [i Hi]%list_elem_of_lookup. destruct (Forall2_lookup_l _ _ _ _ _ Hf Hi) as (b & _ & ?). by exists b. Qed.

(** ** What must come before what *)

Section order.
Context `{Host, RouteJson, Sha256} (engine : ContainerEngine) (project : string).
(** The containers of the project that were found. *)
Context (containers : list ContainerSummary).

Definition all_removed_or_unseen (l : list Event) : Prop := ∀ s, s ∈ containers → removed_or_unseen engine (summary_name s) l.

(** The proxy is not there or does not run, or answered that it has no route of either kind. *)
Definition not_running (l : list Event) : Prop :=
  ∃ input r, Executed (inspect_command engine CONTAINER_NAME) input (Ok r) ∈ l ∧
    (success r = true → trim (stdout r) ≠ "running").
Definition no_routes {A} (command : string) (parse : string → result string (list A)) (l : list Event) : Prop :=
  ∃ input r, Executed command input (Ok r) ∈ l ∧ success r = true ∧ parse (stdout r) = Ok [].
Definition proxy_idle (l : list Event) : Prop :=
  (not_running l ∨ no_routes (render_list_command engine) parse_routes l) ∧
  (not_running l ∨ no_routes (render_tcp_list_command engine) parse_tcp_routes l).

(** A command that destroys something has its reasons earlier in the log. *)
Definition justified (l : list Event) (c : string) : Prop :=
  (c ∈ network_commands engine project → all_removed_or_unseen l) ∧
  (∀ i, c = remove_image_command engine i → all_removed_or_unseen l ∧ unused_image engine i l) ∧
  (∀ v, c = remove_volume_command engine v → own_volume engine project v l) ∧
  (c = remove_certs_command → proxy_idle l).
Fixpoint orderly (l : list Event) : Prop :=
  match l with
  | [] => True
  | Executed c _ _ :: l => justified l c ∧ orderly l
  | Asked _ _ _ _ _ :: l => orderly l
  end.

Lemma harmless_justified l c : harmless engine c → justified l c.
Proof.
  intros Hc. split_and!.
  - intros Hn. by destruct (harmless_not_network engine project c Hc).
  - intros i Hi. by destruct (harmless_not_image engine c i Hc).
  - intros v Hv. by destruct (harmless_not_volume engine c v Hc).
  - intros He. by destruct (harmless_not_certs engine c Hc).
Qed.

(** What holds of a log and stays so. *)
Definition stable (Ψ : list Event → Prop) : Prop := ∀ l l', Ψ l → Ψ (l' ++ l).

Lemma answered_stable b c : stable (answered b c).
Proof. intros l l' (i & r & Hin & Hb). exists i, r. split; [|done]. apply elem_of_app. by right. Qed.
Lemma removed_or_unseen_stable n : stable (removed_or_unseen engine n).
Proof. intros l l' [Hg|Hg]; [left|right]; by apply answered_stable. Qed.
Lemma all_removed_or_unseen_stable : stable all_removed_or_unseen.
Proof. intros l l' Hg s Hs. by apply removed_or_unseen_stable, Hg. Qed.
Lemma own_volume_stable v : stable (own_volume engine project v).
Proof. intros l l' (i & r & Hin & Hr). exists i, r. split; [|done]. apply elem_of_app. by right. Qed.
Lemma unused_image_stable i : stable (unused_image engine i).
Proof. intros l l' (j & r & Hin & Hr). exists j, r. split; [|done]. apply elem_of_app. by right. Qed.
Lemma not_running_stable : stable not_running.
Proof. intros l l' (j & r & Hin & Hr). exists j, r. split; [|done]. apply elem_of_app. by right. Qed.
Lemma no_routes_stable {A} c (p : string → result string (list A)) : stable (no_routes c p).
Proof. intros l l' (j & r & Hin & Hr). exists j, r. split; [|done]. apply elem_of_app. by right. Qed.
Lemma or_stable (Φ Ψ : list Event → Prop) : stable Φ → stable Ψ → stable (λ l, Φ l ∨ Ψ l).
Proof. intros HΦ HΨ l l' [?|?]; [left|right]; auto. Qed.
Lemma and_stable (Φ Ψ : list Event → Prop) : stable Φ → stable Ψ → stable (λ l, Φ l ∧ Ψ l).
Proof. intros HΦ HΨ l l' [? ?]; auto. Qed.
Lemma true_stable : stable (λ _, True).
Proof. done. Qed.
Lemma implied_stable (φ : Prop) (Φ : list Event → Prop) : stable Φ → stable (λ l, φ → Φ l).
Proof. intros HΦ l l' Hl Hφ. by apply HΦ, Hl. Qed.
Lemma forall_stable {A} (Φ : A → list Event → Prop) : (∀ a, stable (Φ a)) → stable (λ l, ∀ a, Φ a l).
Proof. intros HΦ l l' Hl a. by apply HΦ, Hl. Qed.

(** The world since the log was [L0]: in order, and with [Ψ] in the log. *)
Context (L0 : list Event).
Definition since (Ψ : list Event → Prop) (w : World) : Prop :=
  ∃ l, w_log w = l ++ L0 ∧ orderly l ∧ Ψ l.

Lemma since_impl (Φ Ψ : list Event → Prop) w : (∀ l, Φ l → Ψ l) → since Φ w → since Ψ w.
Proof. intros Hi (l & Hl & Ho & HΦ). exists l. auto. Qed.
Lemma since_extend Ψ w l w' :
  stable Ψ → since Ψ w → w_log w' = l ++ w_log w →
  (∀ l1 c i o l2 k, l = l1 ++ Executed c i o :: l2 → Ψ k → justified (l2 ++ k) c) → since Ψ w'.
Proof.
  intros Hs (k & Hk & Ho & HΨ) Hl Hj. exists (l ++ k). rewrite Hl, Hk, (assoc_L (++)). split; [done|].
  split; [|by apply Hs]. clear Hl. induction l as [|ev l IH]; [done|]. simpl.
  assert (orderly (l ++ k)) as Ho'.
  { apply IH. intros l1 c i o l2 k' -> HΨ'. by apply (Hj (ev :: l1) c i o). }
  destruct ev as [c i o|]; [|done]. split; [|done]. by apply (Hj [] c i o).
Qed.

(** A program whose commands are all justified by [Ψ] keeps the order. *)
Lemma issues_keeps {A} (P : string → Prop) Ψ (m : M A) :
  stable Ψ → issues P m → (∀ c l, P c → Ψ l → justified l c) → keeps (since Ψ) m.
Proof.
  intros Hs Hm Hj w Hw. destruct (Hm w) as (l & Hl & Hf).
  assert (since Ψ (m w).2) as Hw'.
  { eapply since_extend; [done..|]. intros l1 c i o l2 k -> HΨ.
    apply Forall_app in Hf as [_ [(c' & i' & o' & Heq & Hc) _]%Forall_cons]. simplify_eq.
    apply Hj; [done|]. by apply Hs. }
  by destruct (m w) as [[a| | |] w'].
Qed.
Lemma harmless_keeps {A} Ψ (m : M A) : stable Ψ → issues (harmless engine) m → keeps (since Ψ) m.
Proof. intros Hs Hm. eapply issues_keeps; [done..|]. intros c l Hc _. by apply harmless_justified. Qed.

(** One command, and what its answer adds to the log. *)
Lemma execute_logs Ψ c (Φ : CommandResult → list Event → Prop) :
  stable Ψ → (∀ l, Ψ l → justified l c) →
  (∀ r l, Φ r (Executed c "" (Ok r) :: l)) →
  triple (since Ψ) (execute c) (λ r, since (λ l, Ψ l ∧ Φ r l)) (since Ψ).
Proof.
  intros Hs Hj HΦ w (l & Hl & Ho & HΨ). unfold execute, execute_with_input.
  destruct (exec c "" (w_machine w)) as [[r|e] mc]; simpl.
  - exists (Executed c "" (Ok r) :: l). split; [simpl; by rewrite Hl|]. split; [by split; [apply Hj|]|].
    split; [|apply HΦ]. by apply (Hs _ [_]).
  - exists (Executed c "" (Err e) :: l). split; [simpl; by rewrite Hl|]. split; [by split; [apply Hj|]|].
    by apply (Hs _ [_]).
Qed.

Lemma run_checked_logs Ψ c :
  stable Ψ → (∀ l, Ψ l → justified l c) →
  triple (since Ψ) (run_checked c)
    (λ r, since (λ l, Ψ l ∧ success r = true ∧ Executed c "" (Ok r) ∈ l)) (since Ψ).
Proof.
  intros Hs Hj. unfold run_checked.
  eapply triple_bind; [apply (execute_logs Ψ c (λ r l, Executed c "" (Ok r) ∈ l)); [done..|left]|]. intros r.
  unfold ensure_success. destruct (success r) eqn:Hr.
  - eapply triple_bind; [apply (triple_ret _ _ (λ _, since (λ l, Ψ l ∧ Executed c "" (Ok r) ∈ l))); intros w Hw; exact Hw|].
    intros []. apply triple_ret. intros w. apply since_impl. naive_solver.
  - eapply triple_bind; [apply (triple_fail _ _ (λ _ _, False))|by intros a w []]. intros w. apply since_impl. naive_solver.
Qed.

Lemma collect_triple {A B} (Ψ : list Event → Prop) (f : A → M B) (Φ : A → B → list Event → Prop) xs :
  stable Ψ → (∀ a b, stable (Φ a b)) →
  (∀ Ψ', stable Ψ' → (∀ l, Ψ' l → Ψ l) → ∀ a, a ∈ xs →
    triple (since Ψ') (f a) (λ b, since (λ l, Ψ' l ∧ Φ a b l)) (since Ψ)) →
  triple (since Ψ) (collect f xs) (λ bs, since (λ l, Ψ l ∧ Forall2 (λ a b, Φ a b l) xs bs)) (since Ψ).
Proof.
  intros HΨ HΦ Hf. enough (∀ Ψ', stable Ψ' → (∀ l, Ψ' l → Ψ l) →
    triple (since Ψ') (collect f xs) (λ bs, since (λ l, Ψ' l ∧ Forall2 (λ a b, Φ a b l) xs bs)) (since Ψ)) by auto.
  induction xs as [|a xs IH]; intros Ψ' Hs Hi; simpl.
  { apply triple_ret. intros w. apply since_impl. auto. }
  eapply triple_bind; [apply Hf; [done..|by left]|]. intros b.
  eapply triple_bind.
  { apply IH; [|by apply and_stable|intros l [? _]; auto]. intros. apply Hf; [done..|by right]. }
  intros bs. apply triple_ret. intros w. apply since_impl. intros l [[? ?] ?]. split; [done|]. by constructor.
Qed.

(** A program that keeps the order tells nothing new. *)
Lemma keeps_triple {A} Ψ (m : M A) : keeps (since Ψ) m → triple (since Ψ) m (λ _, since Ψ) (since Ψ).
Proof. done. Qed.

Lemma keeps_forget {A} (Ψ Φ : list Event → Prop) (m : M A) :
  keeps (since (λ l, Ψ l ∧ Φ l)) m → triple (since (λ l, Ψ l ∧ Φ l)) m (λ _, since Ψ) (since Ψ).
Proof.
  intros Hm. eapply triple_conseq; [exact Hm|done|intros a w|intros w]; apply since_impl; naive_solver.
Qed.

Lemma keeps_more {A} (Ψ Φ : list Event → Prop) (m : M A) :
  keeps (since (λ l, Ψ l ∧ Φ l)) m → triple (since (λ l, Ψ l ∧ Φ l)) m (λ _, since (λ l, Ψ l ∧ Φ l)) (since Ψ).
Proof. intros Hm. eapply triple_conseq; [exact Hm|done|done|intros w]; apply since_impl; naive_solver. Qed.

Lemma checked_triple Ψ c :
  stable Ψ → (∀ l, Ψ l → justified l c) →
  triple (since Ψ) (_ ← run_checked c; mret ()) (λ _, since (λ l, Ψ l ∧ answered true c l)) (since Ψ).
Proof.
  intros Hs Hj. eapply triple_bind; [by apply run_checked_logs|]. intros r. apply triple_ret. intros w.
  apply since_impl. intros l (HΨ & Hr & Hin). split; [done|]. by exists "", r.
Qed.

(** An error leaves what held before. *)
Lemma triple_forgets {A} (Ψ Φ : list Event → Prop) P (m : M A) Q :
  (∀ l, Φ l → Ψ l) → triple P m Q (since Φ) → triple P m Q (since Ψ).
Proof. intros Hi Hm. eapply triple_conseq; [exact Hm|done..|]. intros w. by apply since_impl. Qed.

(** *** Containers *)

Lemma remove_if_present_result Ψ n :
  stable Ψ →
  triple (since Ψ) (remove_if_present engine n)
    (λ removed, since (λ l, Ψ l ∧ if (removed : bool) then answered true (remove_command engine n) l
                                  else answered false (inspect_command engine n) l)) (since Ψ).
Proof.
  intros Hs. unfold remove_if_present, inspect_status.
  eapply triple_bind; [eapply triple_bind|].
  { apply (execute_logs Ψ (inspect_command engine n)
      (λ r l, answered (success r) (inspect_command engine n) l)); [done|..].
    - intros l _. apply harmless_justified. unfold harmless. by destruct engine.
    - intros r l. exists "", r. split; [left|done]. }
  { intros r. apply (triple_ret _ _ (λ status, since (λ l, Ψ l ∧
      (status = None → answered false (inspect_command engine n) l)))).
    intros w. apply since_impl. intros l [HΨ Hr]. split; [done|]. by destruct (success r). }
  intros [status|].
  - unfold Session.remove. eapply (triple_weaken (since Ψ)); [intros w; apply since_impl; naive_solver|].
    eapply triple_bind; [apply (checked_triple Ψ (remove_command engine n)); [done|]|intros []; apply triple_ret; intros w Hw; exact Hw].
    intros l _. apply harmless_justified. unfold harmless. by destruct engine.
  - apply triple_ret. intros w. apply since_impl. naive_solver.
Qed.

Lemma remove_if_present_triple Ψ n :
  stable Ψ →
  triple (since Ψ) (remove_if_present engine n) (λ _, since (λ l, Ψ l ∧ removed_or_unseen engine n l)) (since Ψ).
Proof.
  intros Hs. eapply triple_conseq; [by apply (remove_if_present_result Ψ n)|done| |done].
  intros [|] w; apply since_impl; unfold removed_or_unseen; naive_solver.
Qed.

Lemma teardown_container_triple Ψ c :
  stable Ψ →
  triple (since Ψ) (teardown_container engine c)
    (λ s, since (λ l, Ψ l ∧ (is_failed s.2 = false → removed_or_unseen engine (summary_name c) l))) (since Ψ).
Proof.
  intros Hs. unfold teardown_container. eapply triple_bind.
  { apply triple_attempt, keeps_triple, harmless_keeps; [done|]. auto with issues. }
  intros [[]|error]; [|apply triple_ret; intros w; apply since_impl; naive_solver].
  eapply triple_bind; [by apply triple_attempt, remove_if_present_triple|].
  intros [b|error]; apply triple_ret; intros w; apply since_impl; naive_solver.
Qed.

Lemma teardown_containers_triple Ψ config :
  stable Ψ →
  triple (since Ψ) (collect (teardown_container engine) (order_containers_for_removal containers config))
    (λ steps, since (λ l, Ψ l ∧ (any_failed steps = false → all_removed_or_unseen l))) (since Ψ).
Proof.
  intros HΨ. eapply triple_conseq.
  - apply (collect_triple Ψ (teardown_container engine)
      (λ c s l, is_failed s.2 = false → removed_or_unseen engine (summary_name c) l)); [done|..].
    + intros c s l l' Hg Hf. by apply removed_or_unseen_stable, Hg.
    + intros Ψ' Hs Hi c _. eapply triple_conseq; [by apply teardown_container_triple|done..|].
      intros w. by apply since_impl.
  - done.
  - intros steps w. apply since_impl. intros l [? Hall]. split; [done|]. intros Hf s Hs.
    assert (s ∈ order_containers_for_removal containers config) as Hin.
    { unfold order_containers_for_removal. rewrite elem_of_app, !list_elem_of_filter.
      destruct (is_dependent config s); auto. }
    apply list_elem_of_lookup in Hin as [i Hi]. destruct (Forall2_lookup_l _ _ _ _ _ Hall Hi) as (st & Hst & Hg).
    apply Hg. unfold any_failed in Hf. apply not_true_iff_false. intros Ht. rewrite <-not_true_iff_false in Hf.
    apply Hf, existsb_exists. exists st. split; [|done]. apply list_elem_of_In. by eapply list_elem_of_lookup_2.
  - done.
Qed.

(** *** Images, volumes, the proxy and the network *)

(** Commands of different kinds start differently. *)
Ltac apart H :=
  exfalso; revert H; unfold network_commands, remove_image_command, remove_volume_command; destruct engine; intros H;
  repeat (apply elem_of_cons in H as [H|H]; [by simplify_eq/=|]); first [by apply elem_of_nil in H | by simplify_eq/=].

Lemma image_justified l i : all_removed_or_unseen l → unused_image engine i l → justified l (remove_image_command engine i).
Proof.
  intros Hg Hu. split_and!; [done| |intros v Hv; apart Hv|intros Hc; apart Hc].
  intros i' Hi. assert (i' = i) as ->; [|done]. unfold remove_image_command in Hi. destruct engine; by simplify_eq/=.
Qed.
Lemma volume_justified l v : own_volume engine project v l → justified l (remove_volume_command engine v).
Proof.
  intros Hu. split_and!; [intros Hn; apart Hn|intros i Hi; apart Hi| |intros Hc; apart Hc].
  intros v' Hi. assert (v' = v) as ->; [|done]. unfold remove_volume_command in Hi. destruct engine; by simplify_eq/=.
Qed.
Lemma certs_justified l : proxy_idle l → justified l remove_certs_command.
Proof. intros Hu. split_and!; [intros Hn; apart Hn|intros i Hi; apart Hi|intros v Hv; apart Hv|done]. Qed.
Lemma network_justified l c : all_removed_or_unseen l → c ∈ network_commands engine project → justified l c.
Proof.
  intros Hg Hc. split_and!; [done|intros i ->; apart Hc|intros v ->; apart Hc|intros ->; apart Hc].
Qed.

(** A thing that is there is removed. *)
Lemma if_present_triple Ψ probe c :
  stable Ψ → harmless engine probe → (∀ l, Ψ l → justified l c) →
  triple (since Ψ)
    (present ← (r ← execute probe; mret (success r)); if (present : bool) then _ ← run_checked c; mret true else mret false)
    (λ _, since (λ l, Ψ l ∧ (answered false probe l ∨ answered true c l))) (since Ψ).
Proof.
  intros Hs Hp Hj. eapply triple_bind; [eapply triple_bind|].
  { apply (execute_logs Ψ probe (λ r l, answered (success r) probe l)); [done|intros; by apply harmless_justified|].
    intros r l. exists "", r. split; [left|done]. }
  { intros r. apply (triple_ret _ _ (λ present, since (λ l, Ψ l ∧ answered present probe l))). done. }
  intros [|].
  - eapply (triple_weaken (since Ψ)); [intros w; apply since_impl; naive_solver|].
    eapply triple_bind; [by apply run_checked_logs|]. intros r. apply triple_ret. intros w. apply since_impl.
    intros l (HΨ & Hr & Hin). split; [done|right]. by exists "", r.
  - apply triple_ret. intros w. apply since_impl. naive_solver.
Qed.

(** The engine listed containers that use an image. *)
Definition used_image (i : string) (l : list Event) : Prop :=
  ∃ input r, Executed (users_command engine i) input (Ok r) ∈ l ∧ success r = true ∧ trimmed_lines (stdout r) ≠ [].
(** An image was removed, is kept for containers that use it, or its inspection failed. *)
Definition image_settled (i : string) (l : list Event) : Prop :=
  answered true (remove_image_command engine i) l ∨ used_image i l ∨ answered false (image_probe engine i) l.
Lemma image_settled_stable i : stable (image_settled i).
Proof.
  repeat apply or_stable; try apply answered_stable. intros l l' (j & r & Hin & Hr). exists j, r.
  split; [|done]. apply elem_of_app. by right.
Qed.

Lemma teardown_image_triple Ψ i :
  stable Ψ → (∀ l, Ψ l → all_removed_or_unseen l) →
  triple (since Ψ) (teardown_image engine i) (λ _, since (λ l, Ψ l ∧ image_settled i l)) (since Ψ).
Proof.
  intros Hs Hg. unfold teardown_image, image_exists. eapply triple_bind; [eapply triple_bind|].
  { apply (execute_logs Ψ (image_probe engine i) (λ r l, answered (success r) (image_probe engine i) l)); [done|..].
    - intros l _. apply harmless_justified. unfold harmless. by destruct engine.
    - intros r l. exists "", r. split; [left|done]. }
  { intros r. apply (triple_ret _ _ (λ present, since (λ l, Ψ l ∧ answered present (image_probe engine i) l))). done. }
  intros [|]; simpl; [|apply triple_ret; intros w; apply since_impl; unfold image_settled; naive_solver].
  eapply (triple_weaken (since Ψ)); [intros w; apply since_impl; naive_solver|]. eapply triple_bind.
  { unfold image_referenced_elsewhere. eapply triple_bind.
    - apply (run_checked_logs Ψ (users_command engine i)); [done|]. intros l _. apply harmless_justified.
      unfold harmless. by destruct engine.
    - intros r. apply (triple_ret _ _ (λ names, since (λ l, Ψ l ∧
        (names ≠ [] → used_image i l) ∧ (names = [] → unused_image engine i l)))).
      intros w. apply since_impl. intros l (HΨ & Hr & Hin). split_and!; [done|intros Hn; by exists "", r..]. }
  intros names. case_bool_decide as Hn.
  { apply triple_ret. intros w. apply since_impl. intros l (? & Hu & _). split; [done|]. right. left. by apply Hu. }
  eapply (triple_weaken (since (λ l, Ψ l ∧ unused_image engine i l))); [intros w; apply since_impl; naive_solver|].
  eapply triple_conseq; [eapply triple_bind; [eapply (if_present_triple (λ l, Ψ l ∧ unused_image engine i l) (image_probe engine i))|]|done|..].
  - apply and_stable; [done|apply unused_image_stable].
  - unfold harmless. by destruct engine.
  - intros l [HΨ Hu]. apply image_justified; auto.
  - intros removed. apply (triple_ret _ _ (λ _, since (λ l, Ψ l ∧ image_settled i l))). intros w. apply since_impl.
    intros l [[? _] [?|?]]; (split; [done|]); [by do 2 right|by left].
  - done.
  - intros w. apply since_impl. naive_solver.
Qed.

Lemma discover_and_remove_triple Ψ images :
  stable Ψ → (∀ l, Ψ l → all_removed_or_unseen l) →
  triple (since Ψ) (discover_and_remove engine images)
    (λ _, since (λ l, Ψ l ∧ ∀ i, i ∈ images → image_settled i l)) (since Ψ).
Proof.
  intros Hs Hg. eapply triple_conseq.
  - apply (collect_triple Ψ (teardown_image engine) (λ i _, image_settled i)); [done|intros; apply image_settled_stable|].
    intros Ψ' Hs' Hi i _. eapply triple_conseq; [apply (teardown_image_triple Ψ' i); auto|done..|]. intros w. by apply since_impl.
  - done.
  - intros bs w. apply since_impl. intros l [HΨ Hf]. split; [done|]. intros i Hi. by destruct (Forall2_covers _ _ _ _ Hf Hi).
  - done.
Qed.

(** The volumes of a plan that may be removed are known to be the project's. *)
Definition volumes_known (volumes : list DiscoveredVolume) (l : list Event) : Prop :=
  ∀ v, v ∈ volumes → removable v = true → own_volume engine project (dv_name v) l.
Lemma volumes_known_stable volumes : stable (volumes_known volumes).
Proof. intros l l' Hv v Hin Hr. by apply own_volume_stable, Hv. Qed.

(** A volume that may be removed was removed, or its inspection failed. *)
Definition volume_settled (v : string) (l : list Event) : Prop :=
  answered false (volume_probe engine v) l ∨ answered true (remove_volume_command engine v) l.
Lemma volume_settled_stable v : stable (volume_settled v).
Proof. apply or_stable; apply answered_stable. Qed.

Lemma remove_volumes_triple Ψ volumes :
  stable Ψ → (∀ l, Ψ l → volumes_known volumes l) →
  triple (since Ψ) (remove_volumes_of engine volumes)
    (λ _, since (λ l, Ψ l ∧ ∀ v, v ∈ volumes → removable v = true → volume_settled (dv_name v) l)) (since Ψ).
Proof.
  intros Hs Hv. eapply triple_conseq.
  - apply (collect_triple Ψ (remove_volume engine) (λ v _ l, removable v = true → volume_settled (dv_name v) l)); [done|..].
    { intros v b l l' Hl Hr. by apply volume_settled_stable, Hl. }
    intros Ψ' Hs' Hi v Hin. unfold remove_volume.
    assert (negb (dv_exists v) || bool_decide (is_Some (dv_blocked_by v)) = negb (removable v)) as ->.
    { unfold removable. destruct (dv_exists v), (dv_blocked_by v); reflexivity. }
    destruct (removable v) eqn:Hr; simpl; [|apply triple_ret; intros w; apply since_impl; naive_solver].
    eapply triple_conseq; [eapply triple_bind; [apply (if_present_triple Ψ' (volume_probe engine (dv_name v)))|]|done|..].
    + done.
    + unfold harmless. by destruct engine.
    + intros l Hl. apply volume_justified, Hv; [by apply Hi|done|done].
    + intros removed. apply (triple_ret _ _ (λ _, since (λ l, Ψ' l ∧ (true = true → volume_settled (dv_name v) l)))).
      intros w. apply since_impl. unfold volume_settled. naive_solver.
    + done.
    + intros w. by apply since_impl.
  - done.
  - intros bs w. apply since_impl. intros l [HΨ Hf]. split; [done|]. intros v Hin. by destruct (Forall2_covers _ _ _ _ Hf Hin).
  - done.
Qed.

(** The proxy answered that it has routes. *)
Definition some_routes {A} (command : string) (parse : string → result string (list A)) (l : list Event) : Prop :=
  ∃ input r found, Executed command input (Ok r) ∈ l ∧ success r = true ∧ parse (stdout r) = Ok found ∧ found ≠ [].
Lemma some_routes_stable {A} c (p : string → result string (list A)) : stable (some_routes c p).
Proof. intros l l' (j & r & f & Hin & Hr). exists j, r, f. split; [|done]. apply elem_of_app. by right. Qed.

(** Listing what the proxy serves: nothing, because it does not run or says so, or what it
    answered. *)
Lemma if_proxy_runs_triple {A} Ψ command (parse : string → result string (list A)) (what unread : string) :
  stable Ψ → harmless engine command →
  triple (since Ψ) (if_proxy_runs engine (r ← run_or command what; parsed unread (parse (stdout r))))
    (λ found, since (λ l, Ψ l ∧ (found = [] → not_running l ∨ no_routes command parse l) ∧
       (found ≠ [] → some_routes command parse l))) (since Ψ).
Proof.
  intros Hs Hc. unfold if_proxy_runs, inspect_status. eapply triple_bind; [eapply triple_bind|].
  { apply (execute_logs Ψ (inspect_command engine CONTAINER_NAME)
      (λ r l, (success r = true → trim (stdout r) ≠ "running") → not_running l)); [done|..].
    - intros l _. apply harmless_justified. unfold harmless. by destruct engine.
    - intros r l Hr. exists "", r. split; [left|done]. }
  { intros r. apply (triple_ret _ _ (λ status, since (λ l, Ψ l ∧ (status ≠ Some "running" → not_running l)))).
    intros w. apply since_impl. intros l [HΨ Hr]. split; [done|]. intros Hst. apply Hr. intros Hsu. rewrite Hsu in Hst.
    congruence. }
  intros status. case_bool_decide as Hst; [|apply triple_ret; intros w; apply since_impl; naive_solver].
  eapply (triple_weaken (since Ψ)); [intros w; apply since_impl; naive_solver|].
  unfold run_or. eapply triple_bind; [eapply triple_bind|].
  { apply (execute_logs Ψ command (λ r l, Executed command "" (Ok r) ∈ l)); [done| |intros; left].
    intros l _. by apply harmless_justified. }
  { intros r. destruct (success r) eqn:Hr.
    - apply (triple_ret _ _ (λ r, since (λ l, Ψ l ∧ success r = true ∧ Executed command "" (Ok r) ∈ l))).
      intros w. apply since_impl. naive_solver.
    - apply triple_fail. intros w. apply since_impl. naive_solver. }
  intros r. unfold parsed. destruct (parse (stdout r)) as [found|error] eqn:Hp.
  - apply triple_ret. intros w. apply since_impl. intros l (HΨ & Hr & Hin).
    split_and!; [done|intros ->; right; by exists "", r|intros Hn; by exists "", r, found].
  - apply triple_fail. intros w. apply since_impl. naive_solver.
Qed.

(** The proxy of the server has routes, its container was removed with its certificates, or
    an inspection of it failed. *)
Definition proxy_settled (l : list Event) : Prop :=
  some_routes (render_list_command engine) parse_routes l ∨
  some_routes (render_tcp_list_command engine) parse_tcp_routes l ∨
  (answered true (remove_command engine CONTAINER_NAME) l ∧ answered true remove_certs_command l) ∨
  answered false (inspect_command engine CONTAINER_NAME) l.
Lemma proxy_settled_stable : stable proxy_settled.
Proof.
  repeat apply or_stable; try apply answered_stable; [apply some_routes_stable..|].
  apply and_stable; apply answered_stable.
Qed.

Lemma remove_certs_triple Ψ :
  stable Ψ → (∀ l, Ψ l → proxy_idle l) →
  triple (since Ψ) remove_certs_dir (λ _, since (λ l, Ψ l ∧ answered true remove_certs_command l)) (since Ψ).
Proof.
  intros Hs Hi. unfold remove_certs_dir.
  eapply triple_bind; [apply (execute_logs Ψ remove_certs_command (λ r l, answered (success r) remove_certs_command l)); [done|..]|].
  { intros l Hl. by apply certs_justified, Hi. }
  { intros r l. exists "", r. split; [left|done]. }
  intros r. cbv beta. destruct (success r); [apply triple_ret; intros w Hw; exact Hw|]. apply triple_fail. intros w. apply since_impl. naive_solver.
Qed.

Lemma idle_proxy_triple Ψ :
  stable Ψ →
  triple (since (λ l, Ψ l ∧ proxy_idle l))
    (removed ← remove_if_present engine CONTAINER_NAME;
     if negb removed then mret ProxyAlreadyAbsent
     else
       _ ← remove_certs_dir;
       _ ← (if bool_decide (engine = Docker) then remove_ingress_rule else mret ());
       mret ProxyRemoved)
    (λ _, since (λ l, Ψ l ∧ proxy_settled l)) (since Ψ).
Proof.
  intros Hs. assert (stable (λ l, Ψ l ∧ proxy_idle l)) as Hsi.
  { repeat apply and_stable; [done|..]; apply or_stable; first [apply not_running_stable|apply no_routes_stable]. }
  eapply triple_bind; [eapply (triple_forgets Ψ); [|by apply remove_if_present_result]; naive_solver|].
  intros [|]; simpl; [|apply triple_ret; intros w; apply since_impl; unfold proxy_settled; naive_solver].
  eapply triple_bind; [eapply (triple_forgets Ψ); [|apply remove_certs_triple]|].
  - naive_solver.
  - apply and_stable; [done|apply answered_stable].
  - naive_solver.
  - intros []. eapply triple_bind; [eapply (triple_forgets Ψ); [|apply keeps_triple, harmless_keeps]|].
    + naive_solver.
    + apply and_stable; [apply and_stable; [exact Hsi|apply answered_stable]|apply answered_stable].
    + case_match; [apply (ingress_harmless engine)|issues].
    + intros []. apply triple_ret. intros w. apply since_impl. unfold proxy_settled. naive_solver.
Qed.

Lemma proxy_teardown_triple Ψ :
  stable Ψ →
  triple (since Ψ) (teardown_proxy_container_if_unused engine) (λ _, since (λ l, Ψ l ∧ proxy_settled l)) (since Ψ).
Proof.
  intros Hs. unfold teardown_proxy_container_if_unused.
  set (http := λ found : list RouteSummary, λ l,
    (found = [] → not_running l ∨ no_routes (render_list_command engine) parse_routes l) ∧
    (found ≠ [] → some_routes (render_list_command engine) parse_routes l)).
  set (tcp := λ found : list N, λ l,
    (found = [] → not_running l ∨ no_routes (render_tcp_list_command engine) parse_tcp_routes l) ∧
    (found ≠ [] → some_routes (render_tcp_list_command engine) parse_tcp_routes l)).
  assert (∀ f, stable (http f)) as Hh.
  { intros f. apply and_stable; apply implied_stable; [|apply some_routes_stable].
    apply or_stable; [apply not_running_stable|apply no_routes_stable]. }
  assert (∀ f, stable (tcp f)) as Ht.
  { intros f. apply and_stable; apply implied_stable; [|apply some_routes_stable].
    apply or_stable; [apply not_running_stable|apply no_routes_stable]. }
  eapply triple_bind.
  { apply if_proxy_runs_triple; [done|]. unfold harmless. by destruct engine. }
  intros remaining. eapply triple_bind.
  { eapply triple_conseq; [apply (if_proxy_runs_triple (λ l, Ψ l ∧ http remaining l))|done|done|].
    - by apply and_stable.
    - unfold harmless. by destruct engine.
    - intros w. apply since_impl. naive_solver. }
  intros remaining_tcp. destruct (bool_decide (remaining ≠ []) || bool_decide (remaining_tcp ≠ [])) eqn:Hr.
  { apply triple_ret. intros w. apply since_impl. intros l ((HΨ & _ & H1') & _ & H2'). split; [done|].
    apply orb_true_iff in Hr as [Hr%bool_decide_eq_true|Hr%bool_decide_eq_true]; unfold proxy_settled; auto. }
  apply orb_false_iff in Hr as [Hr1%bool_decide_eq_false%dec_stable Hr2%bool_decide_eq_false%dec_stable].
  eapply (triple_weaken (since (λ l, Ψ l ∧ proxy_idle l))); [|by apply idle_proxy_triple].
  intros w. apply since_impl. intros l ((HΨ & Hh1 & _) & Ht1 & _). split; [done|]. split; auto.
Qed.

(** The engine listed containers on the bridge network. *)
Definition bridge_in_use (l : list Event) : Prop :=
  ∃ input r, Executed (attached_command engine project) input (Ok r) ∈ l ∧ success r = true ∧ count_attachments (stdout r) [] ≠ 0%nat.
(** The bridge network was removed, is kept for containers on it, or its inspection failed. *)
Definition bridge_settled (l : list Event) : Prop :=
  answered true (remove_network_command engine project "") l ∨ answered true (remove_network_command engine project "--force ") l ∨
  bridge_in_use l ∨ answered false (network_probe engine project) l.
Lemma bridge_settled_stable : stable bridge_settled.
Proof.
  repeat apply or_stable; try apply answered_stable. intros l l' (j & r & Hin & Hr). exists j, r.
  split; [|done]. apply elem_of_app. by right.
Qed.

Lemma remove_network_triple Ψ :
  stable Ψ → (∀ l, Ψ l → all_removed_or_unseen l) →
  triple (since Ψ) (remove_network_if_present engine (text (bridge_network_name project)))
    (λ _, since (λ l, Ψ l ∧ bridge_settled l)) (since Ψ).
Proof.
  intros Hs Hg. unfold remove_network_if_present.
  eapply triple_bind; [apply (execute_logs Ψ (network_probe engine project) (λ r l, answered (success r) (network_probe engine project) l)); [done|..]|].
  { intros l _. apply harmless_justified. unfold harmless. by destruct engine. }
  { intros r l. exists "", r. split; [left|done]. }
  intros r. cbv beta. destruct (success r); simpl;
    [|apply triple_ret; intros w; apply since_impl; unfold bridge_settled; naive_solver].
  eapply (triple_weaken (since Ψ)); [intros w; apply since_impl; naive_solver|].
  eapply triple_bind; [apply (execute_logs Ψ (remove_network_command engine project "")
    (λ r l, answered (success r) (remove_network_command engine project "") l)); [done|..]|].
  { intros l Hl. apply network_justified; [auto|]. do 4 right. left. }
  { intros r' l. exists "", r'. split; [left|done]. }
  intros r'. cbv beta. destruct (negb (success r') && _ && _) eqn:Hf.
  - eapply (triple_weaken (since Ψ)); [intros w; apply since_impl; naive_solver|].
    eapply triple_bind; [apply (run_checked_logs Ψ (remove_network_command engine project "--force ")); [done|]|].
    { intros l Hl. apply network_justified; [auto|]. do 5 right. left. }
    intros r2. apply triple_ret. intros w. apply since_impl. intros l (HΨ & Hr & Hin). split; [done|].
    right. left. by exists "", r2.
  - unfold ensure_success. destruct (success r').
    + eapply triple_bind; [apply (triple_ret _ _ (λ _, since (λ l, Ψ l ∧ answered true (remove_network_command engine project "") l))); done|].
      intros []. apply triple_ret. intros w. apply since_impl. unfold bridge_settled. naive_solver.
    + eapply triple_bind; [apply (triple_fail _ _ (λ _ _, False))|by intros a w []]. intros w. apply since_impl. naive_solver.
Qed.

Lemma remove_bridge_triple Ψ :
  stable Ψ → (∀ l, Ψ l → all_removed_or_unseen l) →
  triple (since Ψ) (remove_bridge_and_engine_network engine project)
    (λ _, since (λ l, Ψ l ∧ bridge_settled l)) (since Ψ).
Proof.
  intros Hs Hg. unfold remove_bridge_and_engine_network, network_attachment_count. eapply triple_bind; [eapply triple_bind|].
  - apply (run_checked_logs Ψ (attached_command engine project)); [done|]. intros l _. apply harmless_justified. unfold harmless. by destruct engine.
  - intros r. apply (triple_ret _ _ (λ n, since (λ l, Ψ l ∧ (n ≠ 0%nat → bridge_in_use l)))).
    intros w. apply since_impl. intros l (HΨ & Hr & Hin). split; [done|]. intros Hn. by exists "", r.
  - intros n. destruct (Nat.ltb_spec 0 n) as [Hn|_].
    { apply triple_ret. intros w. apply since_impl. intros l [HΨ Hb]. split; [done|]. right. right. left. apply Hb. lia. }
    eapply (triple_weaken (since Ψ)); [intros w; apply since_impl; naive_solver|].
    eapply triple_bind; [by apply remove_network_triple|]. intros removed.
    eapply (triple_bind _ _ (λ _, since (λ l, Ψ l ∧ bridge_settled l))); [|intros []; apply triple_ret; intros w Hw; exact Hw].
    eapply triple_conseq; [apply (issues_keeps (λ c, c ∈ network_commands engine project) (λ l, Ψ l ∧ bridge_settled l))|done|done|].
    + apply and_stable; [done|apply bridge_settled_stable].
    + case_match; issues. unfold network_commands. do 6 right. left.
    + intros c l Hc [HΨ _]. apply network_justified; auto.
    + intros w. apply since_impl. naive_solver.
Qed.

(** *** Discovery and execution *)

Lemma discover_volume_triple Ψ candidate :
  stable Ψ →
  triple (since Ψ) (discover_volume engine project candidate)
    (λ v, since (λ l, Ψ l ∧ (removable v = true → own_volume engine project (dv_name v) l))) (since Ψ).
Proof.
  intros Hs. unfold discover_volume. eapply triple_bind; [apply keeps_triple, harmless_keeps; auto with issues|].
  intros [|]; [|eapply triple_bind; [apply (triple_ret _ _ (λ _, since Ψ)); intros w Hw; exact Hw|];
                intros b; apply triple_ret; intros w; apply since_impl; naive_solver].
  unfold volume_attached_projects. eapply triple_bind; [eapply triple_bind; [eapply triple_bind|]|].
  - apply (run_checked_logs Ψ (attachers_command engine (vc_name candidate))); [done|].
    intros l _. apply harmless_justified. unfold harmless. by destruct engine.
  - intros r. apply (triple_ret _ _ (λ attached, since (λ l, Ψ l ∧
      ∃ r, success r = true ∧ Executed (attachers_command engine (vc_name candidate)) "" (Ok r) ∈ l ∧
        attached = (λ l, non_empty_text (trim l)) <$> lines (stdout r)))).
    intros w. apply since_impl. naive_solver.
  - intros attached. apply (triple_ret _ _ (λ b, since (λ l, Ψ l ∧
      (b = None → own_volume engine project (vc_name candidate) l)))).
    intros w. apply since_impl. intros l (HΨ & r & Hr & Hin & ->). split; [done|]. intros Hb.
    exists "", r. split_and!; [done..|]. apply Forall_forall. intros line Hline.
    unfold find_map in Hb. apply head_None in Hb.
    assert (describe_blocking_attacher project (non_empty_text (trim line)) = None) as Hd.
    { destruct (describe_blocking_attacher project (non_empty_text (trim line))) as [x|] eqn:Hx; [|done].
      exfalso. apply (not_elem_of_nil x). rewrite <-Hb. apply list_elem_of_omap. eexists. split; [|exact Hx].
      apply list_elem_of_fmap. by exists line. }
    unfold non_empty_text, describe_blocking_attacher in Hd.
    destruct (bool_decide (trim line = "")) eqn:He; [done|]. apply bool_decide_eq_false in He.
    case_bool_decide as Hp; [by subst|done].
  - intros b. apply triple_ret. intros w. apply since_impl. intros l [HΨ Hb]. split; [done|].
    unfold removable. simpl. intros Hn%bool_decide_eq_true. auto.
Qed.

Lemma discover_triple config server include_volumes :
  triple (since (λ _, True)) (discover engine config project server include_volumes)
    (λ plan, since (volumes_known (tp_volumes plan))) (since (λ _, True)).
Proof.
  unfold discover.
  eapply triple_bind; [apply keeps_triple, harmless_keeps; [done|apply list_containers_harmless]|]. intros cs.
  eapply triple_bind; [apply keeps_triple, harmless_keeps; [done|apply routes_harmless]|]. intros rs.
  eapply triple_bind; [apply keeps_triple, harmless_keeps; [done|apply tcp_routes_harmless]|]. intros ts.
  eapply (triple_bind _ _ (λ vs, since (volumes_known vs))).
  { destruct include_volumes; [|apply triple_ret; intros w; apply since_impl; intros l _ v Hv; by apply elem_of_nil in Hv].
    eapply triple_conseq; [apply (collect_triple (λ _, True) (discover_volume engine project)
      (λ _ v l, removable v = true → own_volume engine project (dv_name v) l)); [done|..]|done| |done].
    - intros c v l l' Hv Hr. by apply own_volume_stable, Hv.
    - intros Ψ' Hs _ c _. eapply triple_conseq; [by apply discover_volume_triple|done..|]. intros w. by apply since_impl.
    - intros vs w. apply since_impl. intros l [_ Hf] v Hv Hr. apply list_elem_of_lookup in Hv as [i Hi].
      destruct (Forall2_lookup_r _ _ _ _ _ Hf Hi) as (c & _ & Hc). auto. }
  intros vs. eapply (triple_conseq _ (since (volumes_known vs)) _ _ (λ plan w, tp_volumes plan = vs ∧ since (volumes_known vs) w)
    _ (since (volumes_known vs))); [|done|by intros plan w [-> ?]|intros w; by apply since_impl].
  eapply triple_bind; [apply keeps_triple, harmless_keeps; [apply volumes_known_stable|]|].
  { unfold present_images. issues. }
  intros found. eapply triple_bind; [apply keeps_triple, harmless_keeps; [apply volumes_known_stable|]|].
  { unfold discover_network, read_installed_generation. issues; [|apply list_others_harmless].
    unfold harmless. by destruct engine. }
  intros n. eapply triple_bind; [apply keeps_triple, harmless_keeps; [apply volumes_known_stable|]|].
  { unfold project_directory_exists. issues. unfold harmless. by destruct engine. }
  intros d. by apply triple_ret.
Qed.

Lemma step_keeps {A} Ψ name (m : M A) report : keeps (since Ψ) m → keeps (since Ψ) (step name m report).
Proof. intros Hm. apply keeps_bind; [by apply keeps_attempt|]. intros r. apply keeps_ret. Qed.

Lemma keeps_collect {A B} I (f : A → M B) xs : (∀ a, a ∈ xs → keeps I (f a)) → keeps I (collect f xs).
Proof.
  induction xs as [|a xs IH]; intros Hf; simpl; [apply keeps_ret|]. apply keeps_bind; [apply Hf; by left|].
  intros b. apply keeps_bind; [apply IH; intros; apply Hf; by right|]. intros bs. apply keeps_ret.
Qed.

(** *** What a report says *)

Lemma run_required_triple Ψ c action :
  stable Ψ → (∀ l, Ψ l → justified l c) →
  triple (since Ψ) (run_required c action) (λ _, since (λ l, Ψ l ∧ answered true c l)) (since Ψ).
Proof.
  intros Hs Hj. unfold run_required.
  eapply triple_bind; [apply (execute_logs Ψ c (λ r l, Executed c "" (Ok r) ∈ l)); [done..|left]|]. intros r.
  destruct (success r) eqn:Hr; [apply triple_ret|apply triple_fail]; intros w; apply since_impl.
  - intros l [HΨ Hin]. split; [done|]. by exists "", r.
  - by intros l [].
Qed.
Lemma run_or_triple Ψ c what :
  stable Ψ → harmless engine c →
  triple (since Ψ) (run_or c what) (λ _, since (λ l, Ψ l ∧ answered true c l)) (since Ψ).
Proof.
  intros Hs Hc. unfold run_or.
  eapply triple_bind; [apply (execute_logs Ψ c (λ r l, Executed c "" (Ok r) ∈ l)); [done|intros; by apply harmless_justified|left]|].
  intros r. destruct (success r) eqn:Hr; [apply triple_ret|apply triple_fail]; intros w; apply since_impl.
  - intros l [HΨ Hin]. split; [done|]. by exists "", r.
  - by intros l [].
Qed.
Lemma triple_value {A B} Ψ Φ (m : M A) (b : B) :
  triple (since Ψ) m (λ _, since Φ) (since Ψ) → triple (since Ψ) (_ ← m; mret b) (λ _, since Φ) (since Ψ).
Proof. intros Hm. eapply triple_bind; [exact Hm|]. intros a. by apply triple_ret. Qed.

(** A step that is not reported as failed has done its work. *)
Lemma step_triple {A} Ψ Φ name (m : M A) report :
  triple (since Ψ) m (λ _, since (λ l, Ψ l ∧ Φ l)) (since Ψ) →
  triple (since Ψ) (step name m report) (λ st, since (λ l, Ψ l ∧ (any_failed st = false → Φ l))) (since Ψ).
Proof.
  intros Hm. unfold step. eapply triple_bind; [by apply triple_attempt|].
  intros [a|error]; apply triple_ret; intros w; apply since_impl; naive_solver.
Qed.

Lemma agent_triple Ψ :
  stable Ψ →
  triple (since Ψ) (remove_agent project)
    (λ _, since (λ l, Ψ l ∧ answered true (remove_agent_command (default_for_project project)) l)) (since Ψ).
Proof.
  intros Hs. unfold remove_agent.
  eapply triple_bind; [apply keeps_triple, harmless_keeps; [done|]|intros active].
  { unfold is_unit_active. issues. unfold harmless. by destruct engine. }
  eapply triple_bind; [apply keeps_triple, harmless_keeps; [done|]|intros present].
  { unfold path_exists. issues. unfold harmless. by destruct engine. }
  apply triple_value, run_required_triple; [done|]. intros l _. apply harmless_justified.
  unfold harmless. by destruct engine.
Qed.

(** Routes that are all there are all removed. *)
Lemma removed_routes_triple {A} `{EqDecision A} Ψ (command : A → string) (remove_one : A → M ()) (xs : list A) :
  stable Ψ → (∀ Ψ a, stable Ψ → triple (since Ψ) (remove_one a) (λ _, since (λ l, Ψ l ∧ answered true (command a) l)) (since Ψ)) →
  triple (since Ψ) (collect (λ a, if bool_decide (a ∈ xs) then _ ← remove_one a; mret (a, true) else mret (a, false)) xs)
    (λ _, since (λ l, Ψ l ∧ ∀ a, a ∈ xs → answered true (command a) l)) (since Ψ).
Proof.
  intros Hs Hr. eapply triple_conseq.
  - apply (collect_triple Ψ _ (λ a _ l, answered true (command a) l)); [done|intros; apply answered_stable|].
    intros Ψ' Hs' Hi a Ha. rewrite bool_decide_true by done.
    eapply triple_conseq; [apply triple_value, (Hr Ψ' a Hs')|done..|]. intros w. by apply since_impl.
  - done.
  - intros bs w. apply since_impl. intros l [HΨ Hf]. split; [done|]. intros a Ha.
    by destruct (Forall2_covers _ _ _ _ Hf Ha).
  - done.
Qed.

Lemma staging_triple Ψ exists_ :
  stable Ψ →
  triple (since Ψ) (staging_step project exists_)
    (λ st, since (λ l, Ψ l ∧ (any_failed st = false → exists_ = true →
       answered true ("rm -rf " +:+ project_staging_dir project) l))) (since Ψ).
Proof.
  intros Hs. unfold staging_step. destruct exists_; simpl;
    [|apply triple_ret; intros w; apply since_impl; naive_solver].
  set (c := "rm -rf " +:+ project_staging_dir project).
  eapply triple_bind; [apply triple_attempt, (execute_logs Ψ c (λ r l, Executed c "" (Ok r) ∈ l)); [done| |left]|].
  { intros l _. apply harmless_justified. unfold harmless. by destruct engine. }
  intros [r|error]; apply triple_ret; intros w; apply since_impl; [|naive_solver].
  intros l [HΨ Hin]. split; [done|]. destruct (success r) eqn:Hr; [|done]. intros _ _. by exists "", r.
Qed.

(** The commands of the network layer whose success the report vouches for; several are
    written so that they succeed whether or not there was something to take away. *)
Definition network_cleared (l : list Event) : Prop :=
  (∀ c, c ∈ [render_stop_and_disable_units_command project; remove_wireguard_command project;
             remove_nftables_command project; render_remove_compiled_state_command project] → answered true c l) ∧
  bridge_settled l.

Lemma units_triple Ψ :
  stable Ψ → (∀ l, Ψ l → all_removed_or_unseen l) →
  triple (since Ψ) (stop_and_disable_units engine project)
    (λ _, since (λ l, Ψ l ∧ answered true (render_stop_and_disable_units_command project) l)) (since Ψ).
Proof.
  intros Hs Hg. unfold stop_and_disable_units. eapply triple_bind.
  { apply (run_checked_logs Ψ); [done|]. intros l Hl. apply network_justified; [auto|left]. }
  intros r. eapply (triple_weaken (since (λ l, Ψ l ∧ answered true (render_stop_and_disable_units_command project) l)));
    [intros w; apply since_impl; intros l (HΨ & Hr & Hin); split; [done|]; by exists "", r|].
  apply keeps_more, (issues_keeps (λ c, harmless engine c ∨ c ∈ network_commands engine project)).
  - apply and_stable; [done|apply answered_stable].
  - issues; unfold network_commands, harmless; first [by (left; destruct engine) | right; repeat first [by left | right]].
  - intros c l [Hc|Hc] [HΨ _]; [by apply harmless_justified|]. apply network_justified; auto.
Qed.

Lemma teardown_network_triple Ψ :
  stable Ψ → (∀ l, Ψ l → all_removed_or_unseen l) →
  triple (since Ψ) (teardown_network engine project)
    (λ st, since (λ l, Ψ l ∧ (any_failed st = false → network_cleared l))) (since (λ _, True)).
Proof.
  intros Hs Hg. unfold teardown_network, removed_step.
  assert (∀ c, c ∈ network_commands engine project → ∀ Ψ', stable Ψ' → (∀ l, Ψ' l → Ψ l) →
    triple (since Ψ') (_ ← run_checked c; mret ()) (λ _, since (λ l, Ψ' l ∧ answered true c l)) (since Ψ')) as Hc.
  { intros c Hc Ψ' Hs' Hi. apply checked_triple; [done|]. intros l Hl. apply network_justified; auto. }
  assert (∀ A (m : M A) Ψ' (Q : A → World → Prop), triple (since Ψ') m Q (since Ψ') → triple (since Ψ') m Q (since (λ _, True)))
    as Hw. { intros A m Ψ' Q Hm. eapply triple_conseq; [exact Hm|done..|]. intros w. by apply since_impl. }
  eapply triple_bind; [apply Hw, step_triple, units_triple; auto|]. intros units.
  eapply triple_bind; [apply Hw, step_triple, Hc|]; [by do 2 right; left| |by intros l []|].
  { apply and_stable; [done|]. intros l l' Ha Hf. by apply answered_stable, Ha. }
  intros wireguard. eapply triple_bind; [apply Hw, step_triple, Hc|]; [by do 3 right; left| |by intros l [[] _]|].
  { repeat apply and_stable; [done|..]; intros l l' Ha Hf; by apply answered_stable, Ha. }
  intros nft. eapply triple_bind; [apply Hw, step_triple, remove_bridge_triple|].
  { repeat apply and_stable; [done|..]; apply implied_stable, answered_stable. }
  { naive_solver. }
  intros bridge. eapply triple_bind; [apply Hw, step_triple, Hc|]; [by do 7 right; left| |by intros l [[[[] _] _] _]|].
  { repeat apply and_stable; [done|..]; apply implied_stable; first [apply answered_stable|apply bridge_settled_stable]. }
  intros compiled. apply triple_ret. intros w. apply since_impl. intros l [[[[[HΨ H1'] H2'] H3'] H5'] H4']. split; [done|].
  unfold any_failed. rewrite !existsb_app, !orb_false_iff. intros (F1 & F2 & F3 & F5 & F4). split; [|by auto]. intros c Hin.
  repeat (apply elem_of_cons in Hin as [->|Hin]; [by auto|]). by apply elem_of_nil in Hin.
Qed.

(** What a teardown without a failed step has seen to: what was found was removed, or kept for
    what still uses it, or an inspection failed. *)
Definition torn_down (plan : ServerTeardownPlan) (remove_volumes : bool) (l : list Event) : Prop :=
  answered true (remove_agent_command (default_for_project project)) l ∧
  (∀ r, r ∈ tp_proxy_routes plan → answered true (render_remove_command engine r.1 r.2) l) ∧
  (∀ p, p ∈ tp_tcp_proxy_routes plan → answered true (render_tcp_remove_command engine p) l) ∧
  all_removed_or_unseen l ∧
  (remove_volumes = true → ∀ v, v ∈ tp_volumes plan → removable v = true → volume_settled (dv_name v) l) ∧
  (∀ i, i ∈ tp_images plan → image_settled i l) ∧
  proxy_settled l ∧
  (tp_project_directory_exists plan = true → answered true ("rm -rf " +:+ project_staging_dir project) l) ∧
  network_cleared l.

Lemma application_triple plan config :
  tp_containers plan = containers →
  triple (since (volumes_known (tp_volumes plan)))
    (teardown_application engine project plan config)
    (λ x, since (λ l, volumes_known (tp_volumes plan) l ∧
       (any_failed x.1.1.1 = false → answered true (remove_agent_command (default_for_project project)) l) ∧
       (any_failed x.1.1.2 = false → ∀ r, r ∈ tp_proxy_routes plan → answered true (render_remove_command engine r.1 r.2) l) ∧
       (any_failed x.1.2 = false → ∀ p, p ∈ tp_tcp_proxy_routes plan → answered true (render_tcp_remove_command engine p) l) ∧
       (any_failed x.2 = false → all_removed_or_unseen l)))
    (since (λ _, True)).
Proof.
  intros Hc. unfold teardown_application. rewrite Hc. pose proof (volumes_known_stable (tp_volumes plan)) as Hv.
  assert (∀ A (m : M A) Ψ' (Q : A → World → Prop), triple (since Ψ') m Q (since Ψ') → triple (since Ψ') m Q (since (λ _, True)))
    as Hw. { intros A m Ψ' Q Hm. eapply triple_conseq; [exact Hm|done..|]. intros w. by apply since_impl. }
  eapply triple_bind; [by apply Hw, step_triple, agent_triple|]. intros agent.
  eapply triple_bind.
  { apply Hw, step_triple, (removed_routes_triple _ (λ r, render_remove_command engine r.1 r.2) (λ r, remove_route engine r.1 r.2)).
    - apply and_stable; [done|]. apply implied_stable, answered_stable.
    - intros Ψ r Hs. apply triple_value, run_or_triple; [done|]. unfold harmless. by destruct engine. }
  intros routes. eapply triple_bind.
  { apply Hw, step_triple, (removed_routes_triple _ (render_tcp_remove_command engine) (remove_tcp_route engine)).
    - repeat apply and_stable; [done|..]; apply implied_stable; [|do 2 (apply forall_stable; intros)]; apply answered_stable.
    - intros Ψ r Hs. apply triple_value, run_or_triple; [done|]. unfold harmless. by destruct engine. }
  intros tcp. eapply triple_bind.
  { apply Hw, teardown_containers_triple.
    repeat apply and_stable; [done|..]; apply implied_stable; repeat (apply forall_stable; intros); apply answered_stable. }
  intros cs. apply triple_ret. intros w. apply since_impl. naive_solver.
Qed.

Lemma execute_host_triple network_plan server plan remove_volumes config :
  tp_containers plan = containers →
  triple (since (volumes_known (tp_volumes plan)))
    (execute_host_teardown engine network_plan server project plan remove_volumes config)
    (λ steps, since (λ l, any_failed steps = false → torn_down plan remove_volumes l)) (since (λ _, True)).
Proof.
  intros Hc. unfold execute_host_teardown.
  eapply triple_bind; [by apply application_triple|]. intros [[[agent routes] tcp] cs]. simpl.
  match goal with |- triple (since ?P) _ _ _ => set (Ψ := P) end.
  assert (stable Ψ) as Hs.
  { subst Ψ. repeat apply and_stable; [apply volumes_known_stable|..]; apply implied_stable;
      repeat (apply forall_stable; intros); first [apply answered_stable|apply removed_or_unseen_stable]. }
  assert (∀ A (m : M A), keeps (since Ψ) m → triple (since Ψ) m (λ _, since Ψ) (since (λ _, True))) as Hk.
  { intros A m Hm. eapply triple_conseq; [exact Hm|done..|]. intros w. by apply since_impl. }
  eapply (triple_bind _ _ (λ volumes, since (λ l, Ψ l ∧ (any_failed volumes = false → remove_volumes = true →
    ∀ v, v ∈ tp_volumes plan → removable v = true → volume_settled (dv_name v) l)))).
  { destruct remove_volumes; [|apply triple_ret; intros w; apply since_impl; naive_solver].
    eapply triple_conseq; [eapply (triple_forgets (λ _, True)), step_triple, (remove_volumes_triple Ψ (tp_volumes plan)); [done|done|]|done| |done].
    - by intros l [].
    - intros st w. apply since_impl. naive_solver. }
  intros volumes. match goal with |- triple (since ?P) _ _ _ => set (Ψ1 := P) end.
  assert (stable Ψ1) as Hs1.
  { apply and_stable; [done|]. repeat first [apply implied_stable|apply forall_stable; intros]. apply volume_settled_stable. }
  eapply (triple_bind _ _ (λ images, since (λ l, Ψ1 l ∧ (any_failed cs = false → any_failed images = false →
    ∀ i, i ∈ tp_images plan → image_settled i l)))).
  { destruct (any_failed cs) eqn:Hf; [apply triple_ret; intros w; apply since_impl; naive_solver|].
    eapply triple_conseq; [eapply (triple_forgets (λ _, True)), step_triple, (discover_and_remove_triple Ψ1); [done|done|]|done| |done].
    - intros l [Hl _]. by apply Hl.
    - intros st w. apply since_impl. naive_solver. }
  intros images. match goal with |- triple (since ?P) _ _ _ => set (Ψ2 := P) end.
  assert (stable Ψ2) as Hs2.
  { apply and_stable; [done|]. repeat first [apply implied_stable|apply forall_stable; intros]. apply image_settled_stable. }
  eapply triple_bind; [by eapply (triple_forgets (λ _, True)), (staging_triple Ψ2)|intros staging].
  cbv beta. match goal with |- triple (since ?P) _ _ _ => set (Ψ3 := P) end.
  assert (stable Ψ3) as Hs3. { apply and_stable; [done|]. repeat apply implied_stable. apply answered_stable. }
  eapply triple_bind; [by eapply (triple_forgets (λ _, True)), step_triple, (proxy_teardown_triple Ψ3)|intros proxy].
  cbv beta. match goal with |- triple (since ?P) _ _ _ => set (Ψ4 := P) end.
  assert (stable Ψ4) as Hs4. { apply and_stable; [done|]. apply implied_stable, proxy_settled_stable. }
  eapply triple_bind; [eapply (triple_forgets (λ _, True)), keeps_triple, (harmless_keeps Ψ4); [done|done|apply disconnect_harmless]|intros attachment].
  eapply (triple_bind _ _ (λ network, since (λ l, Ψ4 l ∧ (any_failed cs = false → any_failed network = false → network_cleared l)))).
  - destruct (any_failed cs) eqn:Hf; [apply triple_ret; intros w; apply since_impl; naive_solver|].
    eapply triple_conseq; [apply (teardown_network_triple Ψ4); [done|]|done| |done].
    + intros l [[[[Hl _] _] _] _]. by apply Hl.
    + intros network w. apply since_impl. naive_solver.
  - intros network. apply triple_ret. intros w. apply since_impl. unfold any_failed.
    intros l [[[[[(_ & T1 & T2 & T3 & T4) T5] T6] T7] T8] T9] Hf. rewrite !existsb_app, !orb_false_iff in Hf.
    destruct Hf as (F1 & F2 & F3 & F4 & F5 & F6 & F7 & F8 & _ & F9).
    unfold torn_down. split_and!; auto.
Qed.
End order.

Lemma orderly_split `{RouteJson, Sha256} engine project containers l1 c i o l2 :
  orderly engine project containers (l1 ++ Executed c i o :: l2) → justified engine project containers l2 c.
Proof. induction l1 as [|[c' i' o'|] l1 IH]; simpl; [by intros []|by intros [_ ?]; auto|auto]. Qed.

(** ** Programs that end *)

Section settles.
Context `{Host}.

(** A program ends with a value or an error, in every world; or always with a value. *)
Definition settles {A} (m : M A) : Prop := ∀ w, (∃ a w', m w = (Fine a, w')) ∨ ∃ e w', m w = (Fails e, w').
Definition returns {A} (m : M A) : Prop := ∀ w, ∃ a w', m w = (Fine a, w').

Lemma settles_ret {A} (a : A) : settles (mret a).
Proof. intros w. left. by exists a, w. Qed.
Lemma settles_fail {A} e : settles (fail e : M A).
Proof. intros w. right. by exists e, w. Qed.
Lemma settles_of_result {A} (r : result string A) : settles (of_result r).
Proof. destruct r; [apply settles_ret|apply settles_fail]. Qed.
Lemma settles_bind {A B} (m : M A) (f : A → M B) : settles m → (∀ a, settles (f a)) → settles (m ≫= f).
Proof.
  intros Hm Hf w. unfold mbind, M_bind. destruct (Hm w) as [(a & w' & ->)|(e & w' & ->)]; [apply Hf|].
  right. by exists e, w'.
Qed.
Lemma settles_execute c input : settles (execute_with_input c input).
Proof.
  intros w. unfold execute_with_input. destruct (exec c input (w_machine w)) as [[r|e] mc]; [left|right]; by do 2 eexists.
Qed.
Lemma settles_execute_plain c : settles (execute c).
Proof. apply settles_execute. Qed.
Lemma settles_collect {A B} (f : A → M B) l : (∀ a, settles (f a)) → settles (collect f l).
Proof.
  intros Hf. induction l as [|a l IH]; simpl; [apply settles_ret|]. apply settles_bind; [done|]. intros b.
  apply settles_bind; [done|]. intros bs. apply settles_ret.
Qed.
Lemma settles_returns {A} (m : M A) : returns m → settles m.
Proof. intros Hm w. left. apply Hm. Qed.

Lemma returns_ret {A} (a : A) : returns (mret a).
Proof. intros w. by exists a, w. Qed.
Lemma returns_attempt {A} (m : M A) : settles m → returns (attempt m).
Proof. intros Hm w. unfold attempt. destruct (Hm w) as [(a & w' & ->)|(e & w' & ->)]; by do 2 eexists. Qed.
Lemma returns_bind {A B} (m : M A) (f : A → M B) : returns m → (∀ a, returns (f a)) → returns (m ≫= f).
Proof. intros Hm Hf w. unfold mbind, M_bind. destruct (Hm w) as (a & w' & ->). apply Hf. Qed.
Lemma returns_collect {A B} (f : A → M B) l : (∀ a, returns (f a)) → returns (collect f l).
Proof.
  intros Hf. induction l as [|a l IH]; simpl; [apply returns_ret|]. apply returns_bind; [done|]. intros b.
  apply returns_bind; [done|]. intros bs. apply returns_ret.
Qed.
Lemma returns_step {A} name (m : M A) report : settles m → returns (step name m report).
Proof. intros Hm. apply returns_bind; [by apply returns_attempt|]. intros r. apply returns_ret. Qed.
End settles.

Create HintDb settles.
#[export] Hint Resolve settles_ret settles_fail settles_of_result settles_execute settles_execute_plain : settles.

Ltac settles_goal :=
  match goal with
  | |- ∀ _, _ => intro
  | |- settles _ => solve [auto with settles]
  | |- settles (mbind _ _) => apply settles_bind
  | |- settles (collect _ _) => apply settles_collect
  | |- settles _ => case_match
  end.
Ltac settles := repeat settles_goal.

Section returns.
Context `{Host, RouteJson, Sha256} (engine : ContainerEngine) (project : string).

Lemma settles_ensure_success c r : settles (ensure_success c r).
Proof. unfold ensure_success. settles. Qed.
Hint Resolve settles_ensure_success : settles.
Lemma settles_run_checked c : settles (run_checked c).
Proof. unfold run_checked. settles. Qed.
Lemma settles_run_required c a : settles (run_required c a).
Proof. unfold run_required. settles. Qed.
Lemma settles_run_or c what : settles (run_or c what).
Proof. unfold run_or. settles. Qed.
Lemma settles_inspect n : settles (inspect_status engine n).
Proof. unfold inspect_status. settles. Qed.
Lemma settles_parsed {A} what (r : result string A) : settles (parsed what r).
Proof. unfold parsed. settles. Qed.
Hint Resolve settles_run_checked settles_run_required settles_run_or settles_inspect settles_parsed : settles.
Lemma settles_remove_if_present n : settles (remove_if_present engine n).
Proof. unfold remove_if_present, Session.remove. settles. Qed.
Hint Resolve settles_remove_if_present : settles.

Lemma teardown_application_returns plan config : returns (teardown_application engine project plan config).
Proof.
  unfold teardown_application. apply returns_bind; [|intros agent; apply returns_bind; [|intros routes; apply returns_bind;
    [|intros tcp; apply returns_bind; [|intros cs; apply returns_ret]]]].
  - apply returns_step. unfold remove_agent, is_unit_active, path_exists. settles.
  - apply returns_step. unfold remove_project_routes, remove_route. settles.
  - apply returns_step. unfold remove_project_tcp_routes, remove_tcp_route. settles.
  - apply returns_collect. intros c. unfold teardown_container.
    apply returns_bind; [apply returns_attempt; unfold stop_if_running, stop; settles|].
    intros [[]|error]; [|apply returns_ret]. apply returns_bind; [apply returns_attempt; settles|]. intros r. apply returns_ret.
Qed.

Lemma teardown_network_returns : returns (teardown_network engine project).
Proof.
  unfold teardown_network, removed_step. apply returns_bind; [|intros units; apply returns_bind; [|intros wg; apply returns_bind;
    [|intros nft; apply returns_bind; [|intros bridge; apply returns_bind; [|intros compiled; apply returns_ret]]]]];
    apply returns_step.
  - unfold stop_and_disable_units. settles.
  - unfold remove_wireguard. settles.
  - unfold remove_nftables. settles.
  - unfold remove_bridge_and_engine_network, network_attachment_count, remove_network_if_present. settles.
  - unfold remove_compiled_state. settles.
Qed.

Lemma disconnect_returns network_plan server :
  is_Some (np_servers network_plan !! server) → returns (disconnect_step engine network_plan server project).
Proof.
  intros [sp Hsp]. unfold disconnect_step.
  apply returns_bind; [apply returns_attempt; unfold disconnect_bridge_if_attached; settles|].
  intros [b|error]; [|apply returns_ret]. apply returns_bind; [unfold planned_server; rewrite Hsp; apply returns_ret|].
  intros s. apply returns_bind; [|intros r; apply returns_ret]. apply returns_attempt.
  unfold refresh_from_surviving_attachment, ensure_ingress_rule, write_remote_file. settles.
Qed.

Lemma execute_host_returns network_plan server plan remove_volumes config :
  is_Some (np_servers network_plan !! server) →
  returns (execute_host_teardown engine network_plan server project plan remove_volumes config).
Proof.
  intros Hsp. unfold execute_host_teardown. apply returns_bind; [apply teardown_application_returns|].
  intros [[[agent routes] tcp] cs]. apply returns_bind; [|intros volumes; apply returns_bind;
    [|intros images; apply returns_bind; [|intros staging; apply returns_bind; [|intros proxy; apply returns_bind;
    [by apply disconnect_returns|intros attachment; apply returns_bind; [|intros network; apply returns_ret]]]]]].
  - destruct remove_volumes; [|apply returns_ret]. apply returns_step.
    unfold remove_volumes_of, remove_volume, remove_volume_if_present, volume_exists. settles.
  - destruct (any_failed cs); [apply returns_ret|]. apply returns_step.
    unfold discover_and_remove, teardown_image, image_exists, image_referenced_elsewhere, remove_image_if_present. settles.
    unfold image_exists. settles.
  - unfold staging_step. destruct (negb _); [apply returns_ret|].
    apply returns_bind; [apply returns_attempt; settles|intros r; apply returns_ret].
  - apply returns_step. unfold teardown_proxy_container_if_unused, list_routes_if_running, list_tcp_routes_if_running,
      if_proxy_runs, list_routes, list_tcp_routes, remove_certs_dir, remove_ingress_rule. settles.
  - destruct (any_failed cs); [apply returns_ret|]. apply teardown_network_returns.
Qed.

Lemma discover_settles config server volumes : settles (discover engine config project server volumes).
Proof.
  unfold discover, list_managed_containers, list_by_label_filter, list_routes_if_running, list_tcp_routes_if_running,
    if_proxy_runs, list_routes, list_tcp_routes, discover_volumes, discover_volume, volume_exists, volume_attached_projects,
    present_images, image_exists, discover_network, read_installed_generation, list_other_project_containers,
    list_by_label_filter, project_directory_exists. settles.
Qed.
End returns.

Lemma torn_down_stable `{RouteJson, Sha256} engine project containers plan remove_volumes :
  stable (torn_down engine project containers plan remove_volumes).
Proof.
  unfold torn_down, network_cleared. repeat apply and_stable;
    repeat first [apply implied_stable|apply forall_stable; intros];
    first [apply answered_stable|apply removed_or_unseen_stable|apply volume_settled_stable|apply image_settled_stable
          |apply proxy_settled_stable|apply bridge_settled_stable].
Qed.

Lemma print_summary_ok outcomes :
  print_summary_and_exit outcomes = Ok () → ∀ n o, outcomes !! n = Some o → incomplete o = false.
Proof.
  unfold print_summary_and_exit. intros Hp n o Ho. apply not_true_iff_false. intros Hi.
  destruct (0 <? _)%nat eqn:Hl; [done|]. apply Nat.ltb_ge in Hl.
  assert (o ∈ filter (λ o, incomplete o = true) (btree_values outcomes)) as Hin.
  { apply list_elem_of_filter. split; [done|]. apply elem_of_btree_values. by exists n. }
  destruct (filter _ _); [by apply elem_of_nil in Hin|simpl in Hl; lia].
Qed.

Module TeardownProps.
Section props.
Context `{Host, RouteJson, Sha256, Operator}.
Context (engine : ContainerEngine) (network_plan : NetworkPlan) (project : string) (config : Config).

(** A host, from the look at what is there to the last step. *)
Definition teardown_host (server : string) (remove_volumes : bool) : M (ServerTeardownPlan * Steps) :=
  plan ← discover engine config project server remove_volumes;
  steps ← execute_host_teardown engine network_plan server project plan remove_volumes config;
  mret (plan, steps).

Lemma teardown_host_orderly server remove_volumes w plan steps w' :
  teardown_host server remove_volumes w = (Fine (plan, steps), w') →
  ∃ l, w_log w' = l ++ w_log w ∧ orderly engine project (tp_containers plan) l ∧
    (any_failed steps = false → torn_down engine project (tp_containers plan) plan remove_volumes l).
Proof.
  unfold teardown_host, mbind, M_bind. intros Hrun.
  destruct (discover _ _ _ _ _ w) as [[p| | |] w1] eqn:Hd; [|done..].
  destruct (execute_host_teardown _ _ _ _ _ _ _ w1) as [[st| | |] w2] eqn:He; [|done..]. unfold mret, M_ret in Hrun.
  simplify_eq.
  pose proof (discover_triple engine project (tp_containers plan) (w_log w) config server remove_volumes w) as H1'.
  rewrite Hd in H1'. specialize (H1' ltac:(by exists [])).
  pose proof (execute_host_triple engine project (tp_containers plan) (w_log w) network_plan server plan remove_volumes
    config eq_refl w1 H1') as H2'.
  rewrite He in H2'. destruct H2' as (l & Hl & Ho & Ht). by exists l.
Qed.

(** C14: The application goes before its network and its images: whatever the server answers,
    before a command that takes away the project's network (units, WireGuard, firewall table,
    bridge, compiled state) or one of its images, the engine has, for every container of
    the project that was found, removed it or answered an inspection of it with a failure,
    which the code takes for its absence; and for the image it has listed no container that
    uses it. *)
Theorem application_goes_first (server : string) (remove_volumes : bool) (w w' : World)
    (plan : ServerTeardownPlan) (steps : Steps) :
  teardown_host server remove_volumes w = (Fine (plan, steps), w') →
  ∃ l, w_log w' = l ++ w_log w ∧ ∀ later c i o before, l = later ++ Executed c i o :: before →
    (c ∈ network_commands engine project → all_removed_or_unseen engine (tp_containers plan) before) ∧
    (∀ image, c = remove_image_command engine image →
       all_removed_or_unseen engine (tp_containers plan) before ∧ unused_image engine image before).
Proof.
  intros Hrun. destruct (teardown_host_orderly _ _ _ _ _ _ Hrun) as (l & Hl & Ho & _). exists l. split; [done|].
  intros later c i o before ->. by destruct (orderly_split _ _ _ _ _ _ _ _ Ho) as (Hn & Hi & _).
Qed.

(** C15: Data of others is never deleted: before a volume is removed the engine has listed the
    containers that have it, and every one was of this project; before the certificates of the
    shared proxy are removed, the proxy was seen not to run or has answered that it has no HTTP
    and no TCP route of any project. *)
Theorem data_of_others_is_kept (server : string) (remove_volumes : bool) (w w' : World)
    (plan : ServerTeardownPlan) (steps : Steps) :
  teardown_host server remove_volumes w = (Fine (plan, steps), w') →
  ∃ l, w_log w' = l ++ w_log w ∧ ∀ later c i o before, l = later ++ Executed c i o :: before →
    (∀ volume, c = remove_volume_command engine volume → own_volume engine project volume before) ∧
    (c = remove_certs_command → proxy_idle engine before).
Proof.
  intros Hrun. destruct (teardown_host_orderly _ _ _ _ _ _ Hrun) as (l & Hl & Ho & _). exists l. split; [done|].
  intros later c i o before ->. by destruct (orderly_split _ _ _ _ _ _ _ _ Ho) as (_ & _ & Hv & Hc).
Qed.

(** Every selected server has a plan, or an outcome that says it was not reached. *)
Lemma planned_or_unreachable remove_volumes (connections : gmap string (result string World)) n c :
  connections !! n = Some c →
  let sessions := omap (λ c, match c with Ok w => Some w | Err _ => None end) connections in
  let found := map_imap (λ name w, Some (discover_host engine project config remove_volumes name w)) sessions in
  (∃ w plan w1, c = Ok w ∧ discover engine config project n remove_volumes w = (Fine plan, w1) ∧
     omap discovered_plan found !! n = Some (plan, w1)) ∨
  (omap discovered_plan found !! n = None ∧
   ∃ e, (omap unreachable_of connections ∪ omap undiscovered found) !! n = Some (Unreachable e)).
Proof.
  intros Hc sessions found. rewrite lookup_union, !lookup_omap. unfold found. rewrite map_lookup_imap.
  unfold sessions. rewrite lookup_omap, Hc. destruct c as [w|e]; simpl; [|by right; eauto].
  destruct (discover_settles engine project config n remove_volumes w) as [(plan & w1 & Hd)|(e & w1 & Hd)];
    unfold discover_host; rewrite Hd; simpl; [left|right; eauto].
  by exists w, plan, w1.
Qed.

(** The audit entry comes after, and its failure changes nothing. *)
Lemma audit_comes_after remove_volumes started_at server plan w1 steps w2 :
  execute_host_teardown engine network_plan server project plan remove_volumes config w1 = (Fine steps, w2) →
  ∃ w3 l, teardown_and_audit engine network_plan project config remove_volumes started_at server plan w1 = (Fine steps, w3) ∧
    w_log w3 = l ++ w_log w2.
Proof.
  intros Hex. unfold teardown_and_audit, mbind, M_bind. rewrite Hex. simpl.
  set (m := record _ _ _ _ _ _ _). assert (returns m) as Hm.
  { unfold m, record, new_entry, ignore, append_entry. apply returns_bind; [apply returns_bind; [apply returns_attempt|]|].
    - intros w. unfold system_time. destruct (unix_time (w_machine w)); [left|right]; by do 2 eexists.
    - intros now. apply returns_ret.
    - intros entry. apply returns_bind; [apply returns_attempt; settles|intros r; apply returns_ret]. }
  destruct (Hm w2) as ([] & w3 & Hw3). destruct (record_harmless engine _ _ _ _ _ _ _ w2 : ∃ l, w_log (m w2).2 = l ++ _ ∧ _)
    as (l & Hl & _).
  rewrite Hw3 in Hl |- *. by exists w3, l.
Qed.

End props.

(** A container that shares the network of another is removed before it: the order is one of
    the containers found, with every dependent before every container that is none. *)
Theorem dependents_go_first (containers : list ContainerSummary) (config : Config) :
  Permutation (order_containers_for_removal containers config) containers ∧
  ∀ i j c d, order_containers_for_removal containers config !! i = Some c →
    order_containers_for_removal containers config !! j = Some d →
    is_dependent config c = false → is_dependent config d = true → (j < i)%nat.
Proof.
  unfold order_containers_for_removal. split.
  - induction containers as [|c l IH]; [done|]. rewrite !filter_cons.
    destruct (is_dependent config c); simpl; [by constructor|]. by rewrite <-Permutation_middle, IH.
  - intros i j c d Hi Hj Hc Hd. apply lookup_app_Some in Hi as [Hi|[Hi Hi']].
    { apply list_elem_of_lookup_2, list_elem_of_filter in Hi as [? _]. congruence. }
    apply lookup_app_Some in Hj as [Hj|[Hj Hj']].
    { apply lookup_lt_Some in Hj. lia. }
    apply list_elem_of_lookup_2, list_elem_of_filter in Hj' as [? _]. congruence.
Qed.

(** ** A server with a shared proxy *)

(** The proxy of a server: whether its container is there and runs, the hosts it routes for all
    projects (kept in its memory and lost with it, the agents apply them again), and whether the
    certificate directory is there. *)
Record ProxyMachine := { container_there : bool; container_runs : bool; routed : list string; certificates : bool }.
Definition reply (ok : bool) (out : string) : CommandResult :=
  {| stdout := out; stderr := ""; success := ok; code := Some (if ok then 0 else 1) |}.
Definition proxy_exec (c input : string) (m : ProxyMachine) : result string CommandResult * ProxyMachine :=
  if bool_decide (c = inspect_command Docker CONTAINER_NAME) then
    (Ok (reply (container_there m) (if container_runs m then "running" else "exited")), m)
  else if bool_decide (c = remove_command Docker CONTAINER_NAME) then
    (Ok (reply true ""), {| container_there := false; container_runs := false; routed := []; certificates := certificates m |})
  else if bool_decide (c = remove_certs_command) then
    (Ok (reply true ""), {| container_there := container_there m; container_runs := container_runs m;
                            routed := routed m; certificates := false |})
  else if bool_decide (c = render_list_command Docker) then (Ok (reply true (String.concat "," (routed m))), m)
  else (Ok (reply true ""), m).
Definition proxy_host : Host :=
  {| machine := ProxyMachine; exec := proxy_exec; exec_stream _ m := (Ok [], m); clock _ := 0; sleep _ m := m;
     unix_time _ := Ok 0; session_host := "app"; error_message _ := ""; response_debug _ := "" |}.
Definition route_list_json : RouteJson :=
  {| parse_routes out := Ok (if bool_decide (out = "") then []
                             else [{| rs_host := out; rs_path_prefix := None |}]);
     parse_tcp_routes _ := Ok []; parse_route_status _ := Err ""; parse_tcp_route_status _ := Err "" |}.
Definition proxy_world (m : ProxyMachine) (store : AgentStore) : @World proxy_host :=
  @Build_World proxy_host store m [].

(** A stopped proxy is taken for an unused one.  A proxy that runs and routes a host of
    another project is kept; the same proxy, stopped when the teardown comes by, is removed with
    the certificates of every project on the server, though its routes were never asked for. *)
Theorem stopped_proxy_loses_its_certificates (store : AgentStore) :
  let run m := @teardown_proxy_container_if_unused proxy_host route_list_json Docker (proxy_world m store) in
  let running := {| container_there := true; container_runs := true; routed := ["other.example"]; certificates := true |} in
  let stopped := {| container_there := true; container_runs := false; routed := ["other.example"]; certificates := true |} in
  (run running).1 = Fine (ProxyRetainedInUseBy [{| rs_host := "other.example"; rs_path_prefix := None |}] []) ∧
  certificates (w_machine (run running).2) = true ∧
  (run stopped).1 = Fine ProxyRemoved ∧
  certificates (w_machine (run stopped).2) = false ∧
  ∀ i o, Executed (render_list_command Docker) i o ∉ w_log (run stopped).2.
Proof.
  split_and!; [vm_compute; reflexivity..|]. intros i o.
  match goal with |- _ ∉ ?l => let l' := eval vm_compute in l in change l with l' end.
  rewrite !not_elem_of_cons. split_and!; try discriminate; try apply not_elem_of_nil.
  all: vm_compute; intros Heq; discriminate Heq.
Qed.

(** ** A server with two containers of the project *)

(** A service with an image and a volume, and one in its network. *)
Definition sample_db : Service :=
  let s := with_network "bridge" [] (Some sample_tcp_proxy) (Service_default ["a"; "b"]) in
  {| service_image := Some "postgres:18"; service_build := None; service_servers := service_servers s;
     service_scale := 1; service_ports := []; service_volumes := ["data:/var/lib/postgresql"]; service_files := [];
     service_directories := []; service_environment := service_environment s; service_command := None;
     service_proxy := service_proxy s; service_retain := 3; service_network_mode := "bridge"; service_cpus := None;
     service_memory := None; service_gpus := None; service_devices := []; service_privileged := false;
     service_cap_add := []; service_stop_first := false; service_restart := None; service_crons := ∅ |}.
Definition sample_project : Config :=
  {| config_project := "demo"; config_builder := sample_builder;
     config_servers := config_servers sample_config;
     config_services := [("db", sample_db); ("sidecar", with_network "service:db" [] None (Service_default ["a"]))];
     config_ssh := None; config_network := None; config_secrets_path := None;
     config_secrets := None; config_environment := None |}.

(** Everything succeeds; the engine lists the two containers, the proxy is not there. *)
Definition newline_text : string := String newline "".
Definition sample_exec (c input : string) (m : ()) : result string CommandResult * () :=
  (Ok (if bool_decide (c = render_list_by_label_filter_command Docker (Some "demo"))
       then reply true ("db-1|demo|db|a|running" +:+ newline_text +:+ "sidecar-1|demo|sidecar|a|running" +:+ newline_text)
       else if bool_decide (c = attachers_command Docker "db-data") then reply true ("demo" +:+ newline_text)
       else if bool_decide (c = inspect_command Docker CONTAINER_NAME) then reply false ""
       else reply true ""), m).
Definition sample_server_host : Host :=
  {| machine := (); exec := sample_exec; exec_stream _ m := (Ok [], m); clock _ := 0; sleep _ m := m;
     unix_time _ := Ok 0; session_host := "a"; error_message _ := ""; response_debug _ := "" |}.
Definition sample_operator : Operator :=
  {| current_user := "ops"; entry_to_json _ := Ok "{}"; entry_of_json _ := None |}.
Definition fresh_world : @World sample_server_host := @Build_World sample_server_host ApiProps.sample_store tt [].
Definition sample_teardown : flow (ServerTeardownPlan * Steps) * @World sample_server_host :=
  @teardown_host sample_server_host route_list_json constant_sha256 Docker PlannerProps.sample_plan "demo" sample_project "a" true
    fresh_world.

Lemma sample_teardown_runs :
  ∃ plan steps w', sample_teardown = (Fine (plan, steps), w') ∧
    (summary_name <$> tp_containers plan) = ["db-1"; "sidecar-1"] ∧ tp_images plan = ["docker.io/library/postgres:18"] ∧
    (removable <$> tp_volumes plan) = [true] ∧ length steps = 13%nat ∧ any_failed steps = false.
Proof.
  destruct sample_teardown as [f w'] eqn:Hrun. assert (f = sample_teardown.1) as Hf by (by rewrite Hrun).
  vm_compute in Hf. subst f. do 3 eexists. split; [reflexivity|]. vm_compute. split_and!; reflexivity.
Qed.

Lemma application_goes_first_witness :
  ∃ plan steps w' l, sample_teardown = (Fine (plan, steps), w') ∧
    (summary_name <$> tp_containers plan) = ["db-1"; "sidecar-1"] ∧ w_log w' = l ++ w_log fresh_world ∧
    ∀ later c i o before, l = later ++ Executed c i o :: before →
      c ∈ @network_commands constant_sha256 Docker "demo" → all_removed_or_unseen Docker (tp_containers plan) before.
Proof.
  destruct sample_teardown_runs as (plan & steps & w' & Hrun & Hn & _).
  destruct (@application_goes_first sample_server_host route_list_json constant_sha256 Docker PlannerProps.sample_plan "demo"
    sample_project "a" true fresh_world w' plan steps Hrun) as (l & Hl & Hall).
  exists plan, steps, w', l. split_and!; [exact Hrun|exact Hn|exact Hl|].
  intros later c i o before Heq. apply (proj1 (Hall later c i o before Heq)).
Defined.

Lemma data_of_others_is_kept_witness :
  ∃ plan steps w' l, sample_teardown = (Fine (plan, steps), w') ∧
    (removable <$> tp_volumes plan) = [true] ∧ w_log w' = l ++ w_log fresh_world ∧
    ∀ later c i o before, l = later ++ Executed c i o :: before →
      c = remove_volume_command Docker "db-data" → own_volume Docker "demo" "db-data" before.
Proof.
  destruct sample_teardown_runs as (plan & steps & w' & Hrun & _ & _ & Hv & _).
  destruct (@data_of_others_is_kept sample_server_host route_list_json constant_sha256 Docker PlannerProps.sample_plan "demo"
    sample_project "a" true fresh_world w' plan steps Hrun) as (l & Hl & Hall).
  exists plan, steps, w', l. split_and!; [exact Hrun|exact Hv|exact Hl|].
  intros later c i o before Heq. apply (proj1 (Hall later c i o before Heq)).
Defined.

Definition sample_connections : gmap string (result string (@World sample_server_host)) := {[ "a" := Ok fresh_world ]}.
Definition sample_hosts_run : result string () * gmap string (@World sample_server_host) :=
  @teardown_hosts sample_server_host route_list_json constant_sha256 sample_operator Docker PlannerProps.sample_plan "demo"
    sample_project true 0 false true (Ok ()) sample_connections.

End TeardownProps.
