(* ===== verification/Fleet.v ===== *)
(** Several servers at once: programs that use the sessions of a fleet, and the two that keep
    what the agents have installed in step with the configuration, [jiji-cli/src/cron_reconcile.rs]
    and [image_retention_reconcile.rs], with the image names of [registry.rs].

    A [Fleet] is the world of every server, reached or not; a program takes the names of the
    servers it has a session to.  Each agent has its own link. *)

From S2P Require Import Prelude Text Bytes Substring Cidr Naming Schema Planner ServiceRuntime.
From S2P Require Import Membership Catalog Desired OpLog Leases Cron CronExec Replication Store Api CandidatePlan EnvResolution.
From S2P Require Import Session Cascade.
Open Scope N_scope.

Abbreviation Fleet := (gmap string World).

Section fleet.
Context `{Host}.

Definition F (A : Type) : Type := Fleet → flow A * Fleet.

#[export] Instance F_ret : MRet F := λ A a fl, (Fine a, fl).
#[export] Instance F_bind : MBind F := λ A B f m fl,
  match m fl with
  | (Fine a, fl) => f a fl
  | (Fails e, fl) => (Fails e, fl)
  | (Crashes, fl) => (Crashes, fl)
  | (Exhausted, fl) => (Exhausted, fl)
  end.

(** A program on the session of a server; its error as a value. *)
Definition on {A} (server : string) (m : M A) : F (result string A) := λ fl,
  match fl !! server with
  | None => (Crashes, fl)
  | Some w =>
      let '(r, w) := attempt m w in (r, <[server := w]> fl)
  end.
Definition panics {A} (o : outcome A) : F A :=
  match o with Returned a => mret a | Panicked => λ fl, (Crashes, fl) end.
Definition expects {E A} (r : result (fault E) A) : F A :=
  match r with Ok a => mret a | Err _ => λ fl, (Crashes, fl) end.

(** A [for] loop that collects problems. *)
Fixpoint problems_of {A} (f : A → F (list string)) (l : list A) : F (list string) :=
  match l with
  | [] => mret []
  | a :: l => p ← f a; ps ← problems_of f l; mret (p ++ ps)
  end.

Definition stops {A} (error : string) : F A := λ fl, (Fails error, fl).
Definition attempts {A} (m : F A) : F (result string A) := λ fl,
  match m fl with
  | (Fine a, fl) => (Fine (Ok a), fl)
  | (Fails e, fl) => (Fine (Err e), fl)
  | (Crashes, fl) => (Crashes, fl)
  | (Exhausted, fl) => (Exhausted, fl)
  end.
(** [?] on a program of a session. *)
Definition on_or {A} (server : string) (m : M A) : F A :=
  r ← on server m; match r with Ok a => mret a | Err e => stops e end.
Definition f_context {A} (what : string) (m : F A) : F A :=
  r ← attempts m; match r with Ok a => mret a | Err _ => stops what end.
Definition of_f {A} (r : result string A) : F A := match r with Ok a => mret a | Err e => stops e end.
(** An index of a map; it panics where there is none. *)
Definition index {A} (m : gmap string A) (name : string) : F A :=
  match m !! name with Some a => mret a | None => λ fl, (Crashes, fl) end.

Fixpoint each {A} (f : A → F ()) (l : list A) : F () :=
  match l with [] => mret () | a :: l => _ ← f a; each f l end.
(** What a program gives for each of some servers. *)
Fixpoint collect_by {A} (f : string → F A) (l : list string) : F (gmap string A) :=
  match l with
  | [] => mret ∅
  | n :: l => a ← f n; m ← collect_by f l; mret (<[n := a]> m)
  end.
End fleet.

(** ** [registry.rs]: image names *)

Definition NAMESPACED_HOSTS : list string := ["ghcr.io"; "docker.io"; "registry-1.docker.io"; "index.docker.io"].

Definition repo_reference (registry : Registry) (project service : string) : result string string :=
  if registry_is_local registry
  then Ok ("localhost:" +:+ pretty (registry_port registry) +:+ "/" +:+ project +:+ "-" +:+ service)
  else
    let? server := ok_or (registry_server registry)
      "Remote registry has no `server:` configured. Set builder.registry.server." in
    if bool_decide (server ∈ NAMESPACED_HOSTS) then
      let? namespace := ok_or (registry_username registry)
        ("Registry '" +:+ server +:+ "' requires `builder.registry.username` for image names.") in
      Ok (server +:+ "/" +:+ namespace +:+ "/" +:+ project +:+ "-" +:+ service)
    else Ok (server +:+ "/" +:+ project +:+ "-" +:+ service).
Definition full_image_name (registry : Registry) (project service tag : string) : result string string :=
  let? repo := repo_reference registry project service in Ok (repo +:+ ":" +:+ tag).

(** ** [cron_reconcile.rs] *)

Definition to_agent_overlap (value : Schema.CronOverlap) : Cron.CronOverlap :=
  match value with Schema.Forbid => Cron.Forbid end.
Definition to_agent_missed_runs (value : Schema.CronMissedRuns) : Cron.CronMissedRuns :=
  match value with Schema.Skip => Cron.Skip end.

Definition render_command (command : CommandValue) : list string :=
  match command with CommandSingle value => [value] | CommandMultiple values => values end.

(** [min_by_key]: the first of the least. *)
Definition min_by {A} (key : A → N) (l : list A) : option A :=
  foldl (λ best a, match best with
                   | Some b => if key a <? key b then Some a else best
                   | None => Some a
                   end) None l.

Definition select_cron_owner (assignments : list ReplicaAssignment) (catalog : list CatalogRecord) :
    option (ReplicaAssignment * CatalogRecord) :=
  min_by (λ x, ra_ordinal x.1)
    (omap (λ a, (λ r, (a, r)) <$> find (λ r, bool_decide (replica_id r = ra_replica_id a)
                                          && bool_decide (Catalog.state r = Catalog.Active)
                                          && bool_decide (Catalog.health r = Catalog.Healthy)) catalog) assignments).

Definition owner_env_file_path (project service_name owner_server : string) : string :=
  ".jiji/" +:+ project +:+ "/env/" +:+ service_name +:+ "-" +:+ owner_server +:+ ".env".
Definition absolutize (home relative : string) : string := home +:+ "/" +:+ relative.
Definition absolutize_mount_args (home : string) (args : list string) : list string :=
  (λ arg, if starts_with ".jiji/" arg then absolutize home arg else arg) <$> args.

(** [{:?}] of a text. *)
Class DebugText := { debug_text : string → string }.

Definition remote_home_dir `{Host, DebugText} : M string :=
  r ← attempt (execute "pwd");
  match r with
  | Err _ => fail ("could not determine the home directory on " +:+ session_host)
  | Ok r =>
      let home := trim (stdout r) in
      if negb (success r) || negb (starts_with "/" home)
      then fail ("unexpected `pwd` output on " +:+ session_host +:+ ": " +:+ debug_text (trim (stderr r)))
      else mret home
  end.

Section apply_request.
Context `{ContentHash CronSpecContent}.

Definition cron_timeout_seconds (cron : CronConfig) : outcome N :=
  match timeout_duration cron with
  | Returned t => Returned (default 3600 t)
  | Panicked => Panicked
  end.

Definition render_apply_request `{Host} (service_name cron_name : string) (cron : CronConfig) (image : string)
    (mount_args resource_args : list string) (env_file_path source_deployment_id source_replica_id bridge_network : string)
    (dns_address revision : N) : F RequestBody :=
  let command := render_command (cron_command cron) in
  timeout_seconds ← panics (cron_timeout_seconds cron);
  hash ← expects (canonical_hash
    {| spec_project := ""; spec_service := service_name; spec_cron_name := cron_name; spec_revision := revision;
       spec_canonical_hash := ""; spec_owner_node_id := ""; spec_owner_epoch := 0; spec_server := "";
       spec_source_deployment_id := source_deployment_id; spec_source_replica_id := source_replica_id;
       spec_image := image; spec_schedule := cron_schedule cron; spec_timezone := cron_timezone cron;
       spec_timeout_seconds := timeout_seconds; spec_overlap := to_agent_overlap (cron_overlap cron);
       spec_missed_runs := to_agent_missed_runs (cron_missed_runs cron); spec_command := command; spec_env_file_path := env_file_path;
       spec_mount_args := mount_args; spec_resource_args := resource_args; spec_bridge_network := bridge_network;
       spec_dns_address := ipv4_to_string dns_address |});
  mret (CronSpecApply service_name cron_name revision hash source_deployment_id source_replica_id image
          (cron_schedule cron) (cron_timezone cron) timeout_seconds
          (to_agent_overlap (cron_overlap cron)) (to_agent_missed_runs (cron_missed_runs cron))
          command env_file_path mount_args resource_args bridge_network (ipv4_to_string dns_address)).
End apply_request.

(** The SSH client: what preparing and opening a connection to a server comes to. *)
Class Connector := {
  connect_options : string → NamedServer → result string ();
  connect : string → result string ();
}.

(** The servers with a session, and those opened here.  [lenient] skips a server that cannot be
    reached. *)
Definition resolve_server `{Connector} (config : Config) (sessions : gset string) (lenient : bool)
    (st : gset string * list string) (server : string) : result string (gset string * list string) :=
  if bool_decide (server ∈ sessions) then Ok ({[server]} ∪ st.1, st.2)
  else
    match hm_get (config_servers config) server with
    | None =>
        if lenient then Ok st
        else Err ("Server '" +:+ server +:+ "' referenced by cron reconciliation is not defined in configuration")
    | Some named =>
        match connect_options server named with
        | Err error => if lenient then Ok st else Err error
        | Ok _ =>
            match connect server with
            | Err _ => if lenient then Ok st
                       else Err ("Could not connect to '" +:+ server +:+ "' to reconcile cron ownership")
            | Ok _ => Ok ({[server]} ∪ st.1, st.2 ++ [server])
            end
        end
    end.
Definition resolve_sessions `{Connector} (config : Config) (servers : list string) (sessions : gset string)
    (lenient : bool) : result string (gset string * list string) :=
  try_fold (resolve_server config sessions lenient) (∅, []) servers.

Section reconcile.
Context `{ContentHash MembershipRecord, ContentHash CatalogRecord, ContentHash DesiredStateRecord,
  ContentHash CronSpecContent, Labels, Sha256}.
Context `{Host, DebugText, FloatText, Connector}.
Context (links : string → AgentLink).

(** [agent_client::call] without a key, on a session. *)
Definition ask (server : string) (body : RequestBody) : F (result string ResponseBody) :=
  on server (@call _ _ _ _ _ (links server) None body).

(** The first server of a service with a session. *)
Definition seed_server (service : Service) (sessions : gset string) : option string :=
  find (λ n, bool_decide (n ∈ sessions)) (service_servers service).

Record CronOwner := { co_server_name : string; co_record : CatalogRecord; co_assignment : ReplicaAssignment }.

Definition find_owner_in (config : Config) (service_name : string) (service : Service) (sessions : gset string) :
    F (result string CronOwner) :=
  match seed_server service sessions with
  | None => mret (Err ("service '" +:+ service_name +:+ "': no reachable server"))
  | Some seed =>
      records ← on seed (@catalog _ _ _ _ _ (links seed));
      match records with
      | Err _ => mret (Err ("service '" +:+ service_name
                   +:+ "': could not read the service catalog to determine cron ownership"))
      | Ok records =>
          let assignments := assignments_for (config_project config) service_name (service_servers service)
                               (service_scale service) in
          mret match select_cron_owner assignments records with
          | None => Err ("service '" +:+ service_name
                         +:+ "': no active, healthy replica; it has no cron owner right now")
          | Some (assignment, record) =>
              if bool_decide (owner_node_id record ∈ sessions)
              then Ok {| co_server_name := owner_node_id record; co_record := record; co_assignment := assignment |}
              else Err ("service '" +:+ service_name +:+ "': could not reach '" +:+ owner_node_id record
                        +:+ "', the owning host for its cron jobs")
          end
      end
  end.
Definition find_owner (config : Config) (service_name : string) (service : Service) (sessions : gset string) :
    F (result string (CronOwner * gset string * list string)) :=
  match resolve_sessions config (service_servers service) sessions false with
  | Err error => mret (Err error)
  | Ok (resolved, newly_opened) =>
      r ← find_owner_in config service_name service resolved;
      mret (let? owner := r in Ok (owner, resolved, newly_opened))
  end.

Definition redeploy_hint : string := "Run `jiji deploy` again to retry cron installation.".
Definition about (service_name what : string) : string := "service '" +:+ service_name +:+ "'" +:+ what.

(** The loop of [install_on_owner] over the cron jobs: the problems, and what was installed. *)
Fixpoint install_crons (service_name owner : string) (request_of : string → CronConfig → F RequestBody)
    (crons : list (string * CronConfig)) : F (list string * gset string) :=
  match crons with
  | [] => mret ([], ∅)
  | (cron_name, cron) :: crons =>
      request ← request_of cron_name cron;
      response ← ask owner request;
      rest ← install_crons service_name owner request_of crons;
      let name := about service_name (" cron '" +:+ cron_name +:+ "'") in
      mret match response with
      | Ok (CronSpecApplied _ _) => (rest.1, {[cron_name]} ∪ rest.2)
      | Ok response => ((name +:+ ": agent on '" +:+ owner +:+ "' returned an unexpected response: "
                         +:+ response_debug response +:+ ". " +:+ redeploy_hint) :: rest.1, rest.2)
      | Err error => ((name +:+ ": could not install on '" +:+ owner +:+ "': " +:+ error +:+ ". " +:+ redeploy_hint)
                        :: rest.1, rest.2)
      end
  end.

Definition install_on_owner (config : Config) (plan : NetworkPlan) (service_name : string) (service : Service)
    (sessions : gset string) : F (list string * option string * gset string) :=
  let problem what := about service_name (": " +:+ what +:+ " " +:+ redeploy_hint) in
  match seed_server service sessions with
  | None => mret ([problem "no reachable server; cron jobs were not reconciled."], None, ∅)
  | Some seed =>
      records ← on seed (@catalog _ _ _ _ _ (links seed));
      match records with
      | Err error =>
          mret ([problem ("could not read the service catalog to determine cron ownership: " +:+ error +:+ ".")], None, ∅)
      | Ok records =>
          let assignments := assignments_for (config_project config) service_name (service_servers service)
                               (service_scale service) in
          match select_cron_owner assignments records with
          | None => mret ([problem "no active, healthy replica; cron jobs were not reconciled."], None, ∅)
          | Some (assignment, record) =>
              let owner := owner_node_id record in
              match bool_decide (owner ∈ sessions), np_servers plan !! owner with
              | true, Some owner_server =>
                  home ← on owner remote_home_dir;
                  match home with
                  | Err error => mret ([problem ("could not determine the cron owner's home directory on '" +:+ owner
                                                 +:+ "': " +:+ error +:+ ".")], Some owner, ∅)
                  | Ok home =>
                      match build_all_mount_args service (config_project config) service_name with
                      | Err error => mret ([problem ("could not render mount arguments for its cron jobs: " +:+ error
                                                     +:+ ".")], Some owner, ∅)
                      | Ok args =>
                          let env_file := absolutize home (owner_env_file_path (config_project config) service_name owner) in
                          r ← install_crons service_name owner
                                (λ cron_name cron,
                                   render_apply_request service_name cron_name cron (Catalog.image record)
                                     (absolutize_mount_args home args) (render_resource_options service) env_file
                                     (deployment_id record) (ra_replica_id assignment) (sp_bridge_name owner_server)
                                     (sp_dns_address owner_server) (Catalog.revision record))
                                (btree_list (service_crons service));
                          mret (r.1, Some owner, r.2)
                      end
                  end
              | _, _ => mret ([problem ("could not reach '" +:+ owner +:+ "', the owning host for its cron jobs.")],
                              Some owner, ∅)
              end
          end
      end
  end.

Definition remove_specs_absent_from (service_name server_name : string) (desired : gset string) : F (list string) :=
  installed ← ask server_name CronSpecList;
  match installed with
  | Err error => mret [about service_name (": could not list installed cron jobs on '" +:+ server_name +:+ "': " +:+ error)]
  | Ok response =>
      let specs := match response with CronSpecs specs => specs | _ => [] end in
      problems_of (λ spec,
        r ← ask server_name (CronSpecRemove service_name (spec_cron_name spec));
        mret match r with
             | Ok _ => []
             | Err error => [about service_name (" cron '" +:+ spec_cron_name spec
                               +:+ "': could not remove a stale installation on '" +:+ server_name +:+ "': " +:+ error)]
             end)
        (filter (λ spec, spec_service spec = service_name ∧ spec_cron_name spec ∉ desired) specs)
  end.

Definition desired_on_former_owner (desired installed_on_owner : gset string) : gset string :=
  desired ∖ installed_on_owner.

(** What a server keeps of a service's jobs. *)
Definition desired_for_server (desired installed : gset string) (owner : option string) (server_name : string) : gset string :=
  match owner with
  | Some owner => if bool_decide (owner = server_name) then desired else desired_on_former_owner desired installed
  | None => desired
  end.

Definition reconcile_service_crons_inner (config : Config) (plan : NetworkPlan) (service_name : string)
    (service : Service) (sessions : gset string) : F (list string) :=
  '(install_problems, owner, installed) ←
    (if bool_decide (service_crons service = ∅) then mret ([], None, ∅)
     else install_on_owner config plan service_name service sessions);
  let desired := dom (service_crons service) in
  sweep_problems ← problems_of (λ server_name,
    remove_specs_absent_from service_name server_name (desired_for_server desired installed owner server_name))
    (btree_elems sessions);
  mret (install_problems ++ sweep_problems).

Definition reconcile_service_crons (config : Config) (plan : NetworkPlan) (service_name : string)
    (service : Service) (sessions : gset string) : F (list string) :=
  match resolve_sessions config (service_servers service) sessions false with
  | Err error => mret [about service_name (": could not reach every eligible server to reconcile cron jobs: " +:+ error
                         +:+ ". " +:+ redeploy_hint)]
  | Ok (resolved, _) => reconcile_service_crons_inner config plan service_name service resolved
  end.

Definition remove_all_cron_specs (config : Config) (service_name : string) (service : Service) (sessions : gset string) :
    F (list string) :=
  match resolve_sessions config (service_servers service) sessions false with
  | Err error => mret [about service_name (": could not reach every eligible server to remove its cron jobs: " +:+ error)]
  | Ok (resolved, _) => problems_of (λ server_name, remove_specs_absent_from service_name server_name ∅) (btree_elems resolved)
  end.

Definition is_deployed (o : EndpointOutcome) : bool := match o with Deployed _ => true | _ => false end.
Definition note_outcome (services : gmap string string) (m : gmap string bool) (o : string * EndpointOutcome) :
    gmap string bool :=
  match services !! o.1 with
  | None => m
  | Some service => <[service := default true (m !! service) && is_deployed o.2]> m
  end.
Definition fully_deployed_services (selected : list ServiceEndpointPlan) (results : list (list (string * EndpointOutcome))) :
    gmap string bool :=
  let services : gmap string string := list_to_map (reverse ((λ e, (ep_identity e, ep_service e)) <$> selected)) in
  foldl (note_outcome services) ∅ (mjoin results).

(** [config.services[name]]. *)
Definition configured_service (config : Config) (name : string) : F Service :=
  match hm_get (config_services config) name with Some s => mret s | None => λ fl, (Crashes, fl) end.

Definition crons_after_deploy (config : Config) (plan : NetworkPlan) (sessions : gset string)
    (selected : list ServiceEndpointPlan) (results : list (list (string * EndpointOutcome))) : F (list string) :=
  problems_of (λ x : string * bool,
    if x.2 then service ← configured_service config x.1; reconcile_service_crons config plan x.1 service sessions
    else mret []) (btree_list (fully_deployed_services selected results)).

(** ** [image_retention_reconcile.rs] *)

Definition agent_supports_retention (server_name : string) : F bool :=
  r ← ask server_name Health;
  mret match r with
       | Ok (HealthIs _ _ version) =>
           is_ok (check_min_version "jiji-agent" server_name version MIN_RETENTION_AGENT_VERSION
                    "Run `jiji server upgrade` to enable it here.")
       | _ => true
       end.

Definition services_to_reconcile (config : Config) (selected : list ServiceEndpointPlan)
    (results : list (list (string * EndpointOutcome))) : list string :=
  omap (λ x : string * bool,
    if x.2 then
      service ← hm_get (config_services config) x.1;
      if bool_decide (is_Some (service_build service)) then Some x.1 else None
    else None) (btree_list (fully_deployed_services selected results)).

(** The agents probed so far, and whether they know retention. *)
Definition supported (cache : gmap string bool) (server_name : string) : F (bool * gmap string bool) :=
  match cache !! server_name with
  | Some b => mret (b, cache)
  | None => b ← agent_supports_retention server_name; mret (b, <[server_name := b]> cache)
  end.

Fixpoint push_to (service_name repo : string) (retain : N) (cache : gmap string bool) (servers : list string) :
    F (list string * gmap string bool) :=
  match servers with
  | [] => mret ([], cache)
  | server_name :: servers =>
      '(known, cache) ← supported cache server_name;
      problems ← (if known : bool then
                    r ← ask server_name (ImageRetentionApply service_name repo retain);
                    mret match r with
                         | Ok _ => []
                         | Err error => [about service_name (": could not push its image-retention spec to '" +:+ server_name
                                           +:+ "': " +:+ error)]
                         end
                  else mret []);
      rest ← push_to service_name repo retain cache servers;
      mret (problems ++ rest.1, rest.2)
  end.

Definition push_retention_spec (config : Config) (service_name : string) (service : Service) (sessions : gset string)
    (cache : gmap string bool) : F (list string * gmap string bool) :=
  match repo_reference (builder_registry (config_builder config)) (config_project config) service_name with
  | Err _ => mret ([], cache)
  | Ok repo =>
      match resolve_sessions config (service_servers service) sessions true with
      | Err error => mret ([about service_name (": could not reach every eligible server to push its image-retention spec: "
                              +:+ error)], cache)
      | Ok (resolved, _) => push_to service_name repo (service_retain service) cache (btree_elems resolved)
      end
  end.

Fixpoint push_all (config : Config) (sessions : gset string) (cache : gmap string bool) (services : list string) :
    F (list string) :=
  match services with
  | [] => mret []
  | name :: services =>
      service ← configured_service config name;
      '(problems, cache) ← push_retention_spec config name service sessions cache;
      rest ← push_all config sessions cache services;
      mret (problems ++ rest)
  end.

(** The services that want a specification on each server. *)
Definition want (m : gmap string (gset string)) (server service : string) : gmap string (gset string) :=
  <[server := {[service]} ∪ default ∅ (m !! server)]> m.
Definition desired_retention_pairs (config : Config) : gmap string (gset string) :=
  foldl (λ m s, if bool_decide (service_build s.2 = None) then m
                else foldl (λ m server, want m server s.1) m (service_servers s.2)) ∅ (config_services config).

Definition sweep_server (wanted : gset string) (server_name : string) : F (list string) :=
  installed ← ask server_name ImageRetentionList;
  match installed with
  | Ok (ImageRetentionSpecs specs) =>
      problems_of (λ spec,
        r ← ask server_name (ImageRetentionRemove (ir_service spec));
        mret match r with
             | Ok _ => []
             | Err error => ["'" +:+ server_name +:+ "': could not remove stale image-retention spec for service '"
                             +:+ ir_service spec +:+ "': " +:+ error]
             end) (filter (λ spec, ir_service spec ∉ wanted) specs)
  | _ => mret []
  end.

Definition sweep_stale_retention_specs (config : Config) (sessions : gset string) : F (list string) :=
  let desired := desired_retention_pairs config in
  match resolve_sessions config (btree_elems (sessions ∪ dom desired)) sessions true with
  | Err error => mret ["could not reach every server to sweep stale image-retention specs: " +:+ error]
  | Ok (resolved, _) =>
      problems_of (λ server_name, sweep_server (default ∅ (desired !! server_name)) server_name) (btree_elems resolved)
  end.

Definition retention_after_deploy (config : Config) (selected : list ServiceEndpointPlan)
    (results : list (list (string * EndpointOutcome))) (sessions : gset string) : F (list string) :=
  pushed ← push_all config sessions ∅ (services_to_reconcile config selected results);
  swept ← sweep_stale_retention_specs config sessions;
  mret (pushed ++ swept).

Definition remove_all_retention_specs (config : Config) (service_name : string) (service : Service)
    (sessions : gset string) : F (list string) :=
  match resolve_sessions config (service_servers service) sessions false with
  | Err error => mret [about service_name (": could not reach every eligible server to remove its image-retention spec: "
                         +:+ error)]
  | Ok (resolved, _) =>
      problems_of (λ server_name,
        r ← ask server_name (ImageRetentionRemove service_name);
        mret match r with
             | Ok _ => []
             | Err error => [about service_name (": could not remove its image-retention spec from '" +:+ server_name
                               +:+ "': " +:+ error)]
             end) (btree_elems resolved)
  end.
End reconcile.
