(* ===== verification/FleetLaws.v ===== *)
(** Properties of [Fleet]: where the cron jobs of a service are installed. *)

From S2P Require Import Prelude Text Bytes Substring Cidr Naming Schema Planner ServiceRuntime.
From S2P Require Import Membership Catalog Desired OpLog Leases Cron CronExec Replication Store Api CandidatePlan EnvResolution.
From S2P Require Import Session Cascade SessionLaws Fleet.
Open Scope N_scope.

(** ** Triples *)

Section triples.
Context `{Host}.

Definition ftriple {A} (P : Fleet → Prop) (m : F A) (Q : A → Fleet → Prop) (E : Fleet → Prop) : Prop :=
  ∀ fl, P fl → match m fl with (Fine a, fl') => Q a fl' | (_, fl') => E fl' end.

Lemma ftriple_ret {A} (P : Fleet → Prop) (a : A) Q E : (∀ fl, P fl → Q a fl) → ftriple P (mret a) Q E.
Proof. intros HQ fl Hfl. by apply HQ. Qed.
Lemma ftriple_bind {A B} P (m : F A) Q E (f : A → F B) R :
  ftriple P m Q E → (∀ a, ftriple (Q a) (f a) R E) → ftriple P (m ≫= f) R E.
Proof.
  intros Hm Hf fl Hfl. specialize (Hm fl Hfl). unfold mbind, F_bind.
  destruct (m fl) as [[a| | |] fl']; [by apply Hf|done|done|done].
Qed.
Lemma ftriple_conseq {A} (P P' : Fleet → Prop) (m : F A) (Q Q' : A → Fleet → Prop) (E E' : Fleet → Prop) :
  ftriple P' m Q' E' → (∀ fl, P fl → P' fl) → (∀ a fl, Q' a fl → Q a fl) → (∀ fl, E' fl → E fl) → ftriple P m Q E.
Proof. intros Hm HP HQ HE fl Hfl. specialize (Hm fl (HP _ Hfl)). destruct (m fl) as [[a| | |] fl']; auto. Qed.
Lemma ftriple_panics {A} (P : Fleet → Prop) (o : outcome A) : ftriple P (panics o) (λ _, P) P.
Proof. intros fl Hfl. by destruct o. Qed.
Lemma ftriple_expects {E A} (P : Fleet → Prop) (r : result (fault E) A) : ftriple P (expects r) (λ _, P) P.
Proof. intros fl Hfl. by destruct r. Qed.
(** A loop whose turns keep [I]. *)
Lemma ftriple_problems {A} (I : Fleet → Prop) (f : A → F (list string)) l :
  (∀ a, a ∈ l → ftriple I (f a) (λ _, I) I) → ftriple I (problems_of f l) (λ _, I) I.
Proof.
  induction l as [|a l IH]; intros Hf; simpl; [by apply ftriple_ret|].
  eapply ftriple_bind; [apply Hf; by left|]. intros p. eapply ftriple_bind; [apply IH; intros; apply Hf; by right|].
  intros ps. by apply ftriple_ret.
Qed.
Lemma ftriple_run {A} P (m : F A) Q E fl : ftriple P m Q E → P fl → (∀ a fl', Q a fl' → E fl') → E (m fl).2.
Proof. intros Hm Hfl HQ. specialize (Hm fl Hfl). destruct (m fl) as [[a| | |] fl']; simpl; eauto. Qed.

(** ** Jobs *)

(** The cron jobs installed on a server. *)
Definition jobs_in (w : World) : gmap Job SpecRow := job_specs (cron (agent (w_store w))).
Definition jobs (fl : Fleet) (server : string) : gmap Job SpecRow :=
  match fl !! server with Some w => jobs_in w | None => ∅ end.
Definition has (fl : Fleet) (server : string) (job : Job) : Prop := is_Some (jobs fl server !! job).

Lemma jobs_insert fl n w m : jobs (<[n := w]> fl) m = if bool_decide (m = n) then jobs_in w else jobs fl m.
Proof.
  unfold jobs. case_bool_decide as Hm; [subst; by rewrite lookup_insert_eq|]. by rewrite lookup_insert_ne.
Qed.

(** A program on one server, given what it does to the jobs there. *)
Lemma on_spec {A} n (m : M A) fl :
  match on n m fl with
  | (r, fl') =>
      (fl !! n = None ∧ r = Crashes ∧ fl' = fl) ∨
      ∃ w, fl !! n = Some w ∧ fl' = <[n := (m w).2]> fl ∧
        r = match (m w).1 with Fine a => Fine (Ok a) | Fails e => Fine (Err e) | Crashes => Crashes | Exhausted => Exhausted end
  end.
Proof.
  unfold on. destruct (fl !! n) as [w|] eqn:Hw; [|by left]. unfold attempt.
  destruct (m w) as [[a|e| |] w'] eqn:Hm; right; exists w; by rewrite Hm.
Qed.
End triples.

Section calls.
Context `{ContentHash MembershipRecord, ContentHash CatalogRecord, ContentHash DesiredStateRecord,
  ContentHash CronSpecContent, Labels, Sha256}.
Context `{Host, DebugText, FloatText, Connector}.
Context (links : string → AgentLink).

(** A request leaves the store, or changes it as the agent handles it; an answer means the
    latter. *)
Lemma call_spec (link : AgentLink) body w :
  let m := @call _ _ _ _ _ link None body w in
  let answer := handle (@link_api link) (@link_env link (length (w_log w))) (w_store w) body in
  (w_store m.2 = w_store w ∧ ∃ e, m.1 = Fails e) ∨
  (w_store m.2 = answer.2 ∧ match m.1 with Fine r => answer.1 = Ok r | Fails _ => True | _ => False end).
Proof.
  unfold call, handle_idempotent. simpl. destruct (handle _ _ _ _) as [a st].
  destruct (link_fate _); simpl; [left; eauto|by right|right]. split; [done|]. by destruct a.
Qed.

Lemma ask_spec n body fl :
  match ask links n body fl with
  | (r, fl') =>
      (fl !! n = None ∧ r = Crashes ∧ fl' = fl) ∨
      ∃ w w', fl !! n = Some w ∧ fl' = <[n := w']> fl ∧
        let answer := handle (@link_api (links n)) (@link_env (links n) (length (w_log w))) (w_store w) body in
        ((w_store w' = w_store w ∧ ∃ e, r = Fine (Err e)) ∨
         (w_store w' = answer.2 ∧ ((∃ e, r = Fine (Err e)) ∨ ∃ b, r = Fine (Ok b) ∧ answer.1 = Ok b)))
  end.
Proof.
  pose proof (on_spec n (@call _ _ _ _ _ (links n) None body) fl) as Ho. unfold ask.
  destruct (on n _ fl) as [r fl']. destruct Ho as [?|(w & Hw & -> & ->)]; [by left|right].
  exists w, (@call _ _ _ _ _ (links n) None body w).2. split_and!; [done..|].
  destruct (call_spec (links n) body w) as [(Hs & e & ->)|(Hs & Hr)]; [left; eauto|right].
  split; [done|]. destruct (call None body w).1; naive_solver.
Qed.

(** *** What a request does to the jobs *)

(** Nothing but [D] changes. *)
Definition only (D : string → Job → Prop) (fl fl' : Fleet) : Prop :=
  ∀ n job, ¬ D n job → jobs fl' n !! job = jobs fl n !! job.
Definition touches {A} (D : string → Job → Prop) (m : F A) : Prop := ∀ fl, only D fl (m fl).2.
(** Nothing that is installed goes. *)
Definition grows {A} (m : F A) : Prop := ∀ fl n job, has fl n job → has (m fl).2 n job.

Lemma touches_ret {A} D (a : A) : touches D (mret a).
Proof. by intros fl n job. Qed.
Lemma touches_bind {A B} D (m : F A) (f : A → F B) : touches D m → (∀ a, touches D (f a)) → touches D (m ≫= f).
Proof.
  intros Hm Hf fl n job Hn. specialize (Hm fl n job Hn). unfold mbind, F_bind.
  destruct (m fl) as [[a| | |] fl']; simpl in *; [|done..]. rewrite (Hf a fl' n job Hn). done.
Qed.
Lemma touches_problems {A} D (f : A → F (list string)) l : (∀ a, a ∈ l → touches D (f a)) → touches D (problems_of f l).
Proof.
  induction l as [|a l IH]; intros Hf; simpl; [apply touches_ret|].
  apply touches_bind; [apply Hf; by left|intros p; apply touches_bind; [|intros ps; apply touches_ret]].
  apply IH. intros. apply Hf. by right.
Qed.
Lemma touches_panics {A} D (o : outcome A) : touches D (panics o).
Proof. by destruct o. Qed.
Lemma touches_expects {E A} D (r : result (fault E) A) : touches D (expects r).
Proof. by destruct r. Qed.
Lemma touches_impl {A} (D D' : string → Job → Prop) (m : F A) : (∀ n j, D n j → D' n j) → touches D m → touches D' m.
Proof. intros Hi Hm fl n job Hn. apply Hm. auto. Qed.

(** A program on a server that leaves the store alone. *)
Lemma touches_on {A} D n (m : M A) : (∀ w, w_store (m w).2 = w_store w) → touches D (on n m).
Proof.
  intros Hm fl k job _. pose proof (on_spec n m fl) as Ho. destruct (on n m fl) as [r fl'].
  destruct Ho as [(_ & _ & ->)|(w & Hw & -> & _)]; [done|]. simpl. rewrite jobs_insert.
  case_bool_decide as Hk; [|done]. subst k. unfold jobs. rewrite Hw. unfold jobs_in. by rewrite Hm.
Qed.
Lemma touches_ask D n body :
  (∀ api env s job, ¬ D n job →
     job_specs (cron (agent (handle api env s body).2)) !! job = job_specs (cron (agent s)) !! job) →
  touches D (ask links n body).
Proof.
  intros Hd fl k job Hk. pose proof (ask_spec n body fl) as Ha. destruct (ask links n body fl) as [r fl'].
  destruct Ha as [(_ & _ & ->)|(w & w' & Hw & -> & Ha)]; [done|]. simpl. rewrite jobs_insert.
  case_bool_decide as He; [|done]. subst k. unfold jobs. rewrite Hw. unfold jobs_in.
  destruct Ha as [[-> _]|[-> _]]; [done|]. by apply Hd.
Qed.

Lemma touches_catalog D n : touches D (on n (@catalog _ _ _ _ _ (links n))).
Proof.
  apply touches_on. intros w. unfold catalog, mbind, M_bind. pose proof (call_spec (links n) CatalogList w) as Hc.
  destruct (call None CatalogList w) as [[r|e| |] w']; simpl in *;
    destruct Hc as [[Hs _]|[Hs _]]; rewrite <-Hs by done; try (by destruct r); try done.
Qed.
Lemma quiet_store {A} (m : M A) : quiet m → ∀ w, w_store (m w).2 = w_store w.
Proof. intros Hm w. apply Hm. Qed.
Lemma touches_home D n : touches D (on n remote_home_dir).
Proof. apply touches_on, quiet_store. unfold remote_home_dir. quiet. Qed.

Definition job_at (server : string) (job : Job) (n : string) (j : Job) : Prop := n = server ∧ j = job.

Lemma remove_touches n service c : touches (job_at n (service, c)) (ask links n (CronSpecRemove service c)).
Proof. apply touches_ask. intros api env s job Hj. simpl. rewrite lookup_delete_ne; [done|]. intros <-. by apply Hj. Qed.
Lemma list_touches n D : touches D (ask links n CronSpecList).
Proof. by apply touches_ask. Qed.

(** A request that applies a specification. *)
Definition applies (service c : string) (body : RequestBody) : Prop :=
  ∃ revision hash deployment replica image schedule timezone timeout overlap missed command env mounts resources bridge dns,
    body = CronSpecApply service c revision hash deployment replica image schedule timezone timeout overlap missed command
             env mounts resources bridge dns.

Lemma apply_effect api env s service c body :
  applies service c body →
  let answer := handle api env s body in
  (∀ job, job ≠ (service, c) → job_specs (cron (agent answer.2)) !! job = job_specs (cron (agent s)) !! job) ∧
  (∀ job, is_Some (job_specs (cron (agent s)) !! job) → is_Some (job_specs (cron (agent answer.2)) !! job)) ∧
  (∀ r, answer.1 = Ok r → is_Some (job_specs (cron (agent answer.2)) !! (service, c))) ∧
  (∀ job row, job_specs (cron (agent answer.2)) !! job = Some row →
     job_specs (cron (agent s)) !! job = Some row ∨ spec_job (row_spec row) = job).
Proof.
  intros (?&?&?&?&?&?&?&?&?&?&?&?&?&?&?&?&->). simpl.
  destruct (let? identity := configured api "cron identity is not configured" in _) as [[identity owner]|e]; [|naive_solver].
  unfold apply_cron_spec, spec_job. simpl. split_and!.
  - intros job Hj. by rewrite lookup_insert_ne.
  - intros job Hj. rewrite lookup_insert_is_Some. destruct (decide (job = (service, c))); [by left|by right].
  - intros r _. rewrite lookup_insert_is_Some. by left.
  - intros job row. rewrite lookup_insert_Some. intros [[<- <-]|[_ ?]]; [by right|by left].
Qed.
Lemma apply_touches n service c body : applies service c body → touches (job_at n (service, c)) (ask links n body).
Proof.
  intros Hb. apply touches_ask. intros api env s job Hj.
  apply (proj1 (apply_effect api env s service c body Hb)). intros ->. by apply Hj.
Qed.
Lemma apply_grows n service c body : applies service c body → grows (ask links n body).
Proof.
  intros Hb fl k job Hh. pose proof (ask_spec n body fl) as Ha. destruct (ask links n body fl) as [r fl'].
  destruct Ha as [(_ & _ & ->)|(w & w' & Hw & -> & Ha)]; [done|]. unfold has in *. simpl. rewrite jobs_insert.
  case_bool_decide as He; [|done]. subst k. unfold jobs in Hh. rewrite Hw in Hh. unfold jobs_in in *.
  destruct Ha as [[-> _]|[-> _]]; [done|]. by apply (proj1 (proj2 (apply_effect _ _ _ _ _ _ Hb))).
Qed.
Lemma applied n service c body fl r fl' :
  applies service c body → ask links n body fl = (Fine (Ok r), fl') → has fl' n (service, c).
Proof.
  intros Hb Hr. pose proof (ask_spec n body fl) as Ha. rewrite Hr in Ha.
  destruct Ha as [(_ & Hc & _)|(w & w' & Hw & -> & Ha)]; [done|]. unfold has. rewrite jobs_insert, bool_decide_true by done.
  unfold jobs_in. destruct Ha as [[_ [e He]]|[-> [[e He]|(b & [= <-] & Hok)]]]; [done|done|].
  by apply (proj1 (proj2 (proj2 (apply_effect _ _ _ _ _ _ Hb))) r).
Qed.

Lemma grows_ret {A} (a : A) : grows (mret a).
Proof. by intros fl n job. Qed.
Lemma grows_bind {A B} (m : F A) (f : A → F B) : grows m → (∀ a, grows (f a)) → grows (m ≫= f).
Proof.
  intros Hm Hf fl n job Hh. specialize (Hm fl n job Hh). unfold mbind, F_bind.
  destruct (m fl) as [[a| | |] fl']; simpl in *; [by apply Hf|done..].
Qed.
Lemma touches_grows {A} (m : F A) : touches (λ _ _, False) m → grows m.
Proof. intros Hm fl n job Hh. unfold has. rewrite (Hm fl n job); [done|tauto]. Qed.

(** *** Installing on the owner *)

(** A way to make requests that only applies specifications of the service. *)
Definition renders (service : string) (request_of : string → CronConfig → F RequestBody) : Prop :=
  ∀ c cron fl, (request_of c cron fl).2 = fl ∧ ∀ body, (request_of c cron fl).1 = Fine body → applies service c body.
Lemma renders_apply_request service image mounts resources env deployment replica bridge dns revision :
  renders service (λ c cron, render_apply_request service c cron image mounts resources env deployment replica bridge dns revision).
Proof.
  intros c cron fl. unfold render_apply_request, mbind, F_bind, panics, expects.
  destruct (cron_timeout_seconds cron) as [t|]; [|done]. simpl. unfold mret, F_ret.
  destruct (canonical_hash _) as [h|]; [|done]. simpl. split; [done|]. intros body [= <-]. unfold applies. repeat eexists.
Qed.

(** One turn of the loop. *)
Lemma install_crons_run service owner request_of c cron crons fl :
  renders service request_of →
  (∃ r, install_crons links service owner request_of ((c, cron) :: crons) fl = (r, fl) ∧ ∀ x, r ≠ Fine x) ∨
  ∃ body, applies service c body ∧
    install_crons links service owner request_of ((c, cron) :: crons) fl =
    (response ← ask links owner body;
     rest ← install_crons links service owner request_of crons;
     mret match response with
      | Ok (CronSpecApplied _ _) => (rest.1, {[c]} ∪ rest.2)
      | Ok response => ((about service (" cron '" +:+ c +:+ "'") +:+ ": agent on '" +:+ owner +:+ "' returned an unexpected response: "
                         +:+ response_debug response +:+ ". " +:+ redeploy_hint) :: rest.1, rest.2)
      | Err error => ((about service (" cron '" +:+ c +:+ "'") +:+ ": could not install on '" +:+ owner +:+ "': " +:+ error +:+ ". "
                        +:+ redeploy_hint) :: rest.1, rest.2)
      end) fl.
Proof.
  intros Hr. destruct (Hr c cron fl) as [Hfl Hb]. simpl. unfold mbind at 1 4, F_bind at 1 4.
  destruct (request_of c cron fl) as [[body|e| |] fl'] eqn:Hq; simpl in *; subst fl'.
  - right. exists body. split; [by apply Hb|done].
  - left. by eexists.
  - left. by eexists.
  - left. by eexists.
Qed.

Lemma install_crons_grows service owner request_of crons :
  renders service request_of → grows (install_crons links service owner request_of crons).
Proof.
  intros Hr. induction crons as [|[c cron] crons IH]; [apply grows_ret|]. intros fl n job Hh.
  destruct (install_crons_run service owner request_of c cron crons fl Hr) as [(r & -> & _)|(body & Hb & ->)]; [done|].
  revert fl n job Hh. apply grows_bind; [by eapply apply_grows|]. intros response. apply grows_bind; [done|]. intros rest. apply grows_ret.
Qed.
Lemma install_crons_touches service owner request_of crons :
  renders service request_of →
  touches (λ n job, n = owner ∧ job.1 = service ∧ job.2 ∈ crons.*1) (install_crons links service owner request_of crons).
Proof.
  intros Hr. induction crons as [|[c cron] crons IH]; [apply touches_ret|]. intros fl n job Hn.
  destruct (install_crons_run service owner request_of c cron crons fl Hr) as [(r & -> & _)|(body & Hb & ->)]; [done|].
  revert fl n job Hn. apply touches_bind.
  { eapply touches_impl; [|by apply apply_touches]. intros n j [-> ->]. simpl. split_and!; [done..|left]. }
  intros response. apply touches_bind; [|intros rest; apply touches_ret].
  eapply touches_impl; [|exact IH]. intros n j (? & ? & ?). split_and!; [done..|by right].
Qed.
Lemma install_crons_installed service owner request_of crons fl ps inst fl' :
  renders service request_of → install_crons links service owner request_of crons fl = (Fine (ps, inst), fl') →
  (∀ c, c ∈ inst → has fl' owner (service, c)) ∧ (ps = [] → ∀ c, c ∈ crons.*1 → c ∈ inst).
Proof.
  intros Hr. revert fl ps inst fl'. induction crons as [|[c cron] crons IH]; intros fl ps inst fl'.
  { simpl. unfold mret, F_ret. intros [= <- <- <-]. split; [set_solver|]. intros _ c Hc. by apply elem_of_nil in Hc. }
  destruct (install_crons_run service owner request_of c cron crons fl Hr) as [(r & -> & Hne)|(body & Hb & ->)].
  { intros [= -> _]. by destruct (Hne _ eq_refl). }
  unfold mbind at 1, F_bind at 1. destruct (ask links owner body fl) as [[response| | |] fl1] eqn:Ha; [|done..].
  unfold mbind, F_bind. destruct (install_crons links service owner request_of crons fl1) as [[[ps1 inst1]| | |] fl2] eqn:Hi; [|done..].
  destruct (IH _ _ _ _ Hi) as [Hin Hall]. pose proof (install_crons_grows service owner request_of crons Hr fl1) as Hg.
  rewrite Hi in Hg. simpl in Hg. unfold mret, F_ret. simpl.
  assert (∀ x, response = Ok x → has fl2 owner (service, c)) as Happ.
  { intros x ->. apply Hg. by eapply applied. }
  destruct response as [[]|e]; intros [= <- <- <-]; try (by split; [done|intros [=]]).
  split; [|intros -> d [->|Hd]%elem_of_cons; set_solver].
  intros d [->%elem_of_singleton|Hd]%elem_of_union; [by eapply Happ|by apply Hin].
Qed.

(** What installing leaves: nothing goes and only the service's jobs change; every job counted as
    installed is on the owner; without a problem there is an owner with a session, and every job
    is installed. *)
Definition installs (service_name : string) (service : Service) (sessions : gset string)
    (m : F (list string * option string * gset string)) : Prop :=
  grows m ∧ touches (λ n job, n ∈ sessions ∧ job.1 = service_name ∧ job.2 ∈ dom (service_crons service)) m ∧
  ∀ fl fl' ps owner inst, m fl = (Fine (ps, owner, inst), fl') →
    (owner = None → inst = ∅) ∧ (∀ o c, owner = Some o → c ∈ inst → has fl' o (service_name, c)) ∧
    (ps = [] → ∃ o, owner = Some o ∧ o ∈ sessions ∧ dom (service_crons service) ⊆ inst).

Lemma installs_problem service_name service sessions p owner :
  installs service_name service sessions (mret ([p], owner, ∅)).
Proof.
  split_and!; [apply grows_ret|apply touches_ret|]. intros fl fl' ps o inst [= <- <- <- <-].
  split_and!; [done|set_solver|done].
Qed.
Lemma installs_after {A} service_name service sessions (m : F A) f :
  (∀ D, touches D m) → (∀ a, installs service_name service sessions (f a)) →
  installs service_name service sessions (m ≫= f).
Proof.
  intros Hm Hf. split_and!.
  - apply grows_bind; [by apply touches_grows|]. intros a. apply Hf.
  - apply touches_bind; [done|]. intros a. apply Hf.
  - intros fl fl' ps o inst. unfold mbind, F_bind. destruct (m fl) as [[a| | |] fl1]; [|done..]. apply Hf.
Qed.

Lemma install_on_owner_installs config plan service_name service sessions :
  installs service_name service sessions (install_on_owner links config plan service_name service sessions).
Proof.
  unfold install_on_owner. destruct (seed_server service sessions) as [seed|]; [|apply installs_problem].
  apply installs_after; [intros; apply touches_catalog|]. intros [records|error]; [|apply installs_problem].
  destruct (select_cron_owner _ records) as [[assignment record]|]; [|apply installs_problem].
  destruct (bool_decide (owner_node_id record ∈ sessions)) eqn:Ho; [|apply installs_problem].
  destruct (np_servers plan !! owner_node_id record) as [server|]; [|apply installs_problem].
  apply installs_after; [intros; apply touches_home|]. intros [home|error]; [|apply installs_problem].
  destruct (build_all_mount_args _ _ _) as [args|error]; [|apply installs_problem].
  set (request_of := λ c cron, _). assert (renders service_name request_of) as Hr by apply renders_apply_request.
  assert (∀ c, c ∈ (btree_list (service_crons service)).*1 ↔ c ∈ dom (service_crons service)) as Hd.
  { intros c. rewrite elem_of_dom. apply elem_of_btree_keys. }
  split_and!.
  - apply grows_bind; [by apply install_crons_grows|]. intros r. apply grows_ret.
  - apply touches_bind; [|intros r; apply touches_ret]. eapply touches_impl; [|by apply install_crons_touches].
    intros n j (-> & -> & Hj). split_and!; [by apply bool_decide_eq_true in Ho|done|]. by apply Hd.
  - intros fl fl' ps o inst. unfold mbind, F_bind.
    destruct (install_crons links service_name (owner_node_id record) request_of _ fl) as [[[ps1 inst1]| | |] fl1] eqn:Hi; [|done..].
    intros [= <- <- <- <-]. destruct (install_crons_installed _ _ _ _ _ _ _ _ Hr Hi) as [Hin Hall].
    split_and!; [done|intros o c [= <-]; apply Hin|]. intros ->. exists (owner_node_id record).
    split_and!; [done|by apply bool_decide_eq_true in Ho|]. intros c Hc. apply Hall; [done|]. by apply Hd.
Qed.

(** *** The sweep *)

Lemma sweep_touches service_name n desired :
  touches (λ m job, m = n ∧ job.1 = service_name ∧ job.2 ∉ desired) (remove_specs_absent_from links service_name n desired).
Proof.
  unfold remove_specs_absent_from. apply touches_bind; [apply list_touches|]. intros [response|error]; [|apply touches_ret].
  apply touches_problems. intros spec [[Hs Hn] _]%list_elem_of_filter.
  apply touches_bind; [|intros r; apply touches_ret]. eapply touches_impl; [|apply remove_touches].
  intros m j [-> ->]. simpl. done.
Qed.

(** A job that stays desired on a server stays there. *)
Lemma sweeps_keep service_name (desired : string → gset string) servers fl n (job : Job) :
  job.2 ∈ desired n →
  jobs (problems_of (λ m, remove_specs_absent_from links service_name m (desired m)) servers fl).2 n !! job = jobs fl n !! job.
Proof.
  intros Hc. assert (touches (λ n job, job.1 = service_name ∧ job.2 ∉ desired n)
    (problems_of (λ m, remove_specs_absent_from links service_name m (desired m)) servers)) as Ht.
  { apply touches_problems. intros m _. eapply touches_impl; [|apply sweep_touches]. intros k j (-> & ? & ?). done. }
  apply Ht. tauto.
Qed.

Lemma reconcile_inner_keeps config plan service_name service sessions c fl n :
  c ∈ dom (service_crons service) → has fl n (service_name, c) →
  ∃ m, has (reconcile_service_crons_inner links config plan service_name service sessions fl).2 m (service_name, c).
Proof.
  intros Hc Hh. unfold reconcile_service_crons_inner. rewrite bool_decide_false by (intros He; by rewrite He, dom_empty in Hc).
  destruct (install_on_owner_installs config plan service_name service sessions) as (Hg & _ & Hi).
  specialize (Hg fl n _ Hh). specialize (Hi fl). unfold mbind at 1, F_bind at 1.
  destruct (install_on_owner _ _ _ _ _ _ fl) as [[[[ps owner] inst]| | |] fl1]; simpl in Hg |- *; [|by exists n..].
  destruct (Hi fl1 ps owner inst eq_refl) as (Hnone & Hon & _). clear Hi.
  set (desired := desired_for_server (dom (service_crons service)) inst owner).
  assert (∃ m, has fl1 m (service_name, c) ∧ c ∈ desired m) as (m & Hm & Hd).
  { unfold desired, desired_for_server. destruct owner as [o|]; [|by exists n].
    destruct (decide (c ∈ inst)) as [Hin|Hin].
    - exists o. split; [by apply Hon|]. by rewrite bool_decide_true.
    - exists n. split; [done|]. case_bool_decide; [done|]. unfold desired_on_former_owner. set_solver. }
  exists m. unfold mbind, F_bind. unfold has in *.
  pose proof (sweeps_keep service_name desired (btree_elems sessions) fl1 m (service_name, c) Hd) as Hk. unfold desired in Hk.
  destruct (problems_of _ _ fl1) as [[ps2| | |] fl2]; simpl in *; by rewrite Hk.
Qed.

Lemma reconcile_inner_touches config plan service_name service sessions :
  touches (λ n job, n ∈ sessions ∧ job.1 = service_name) (reconcile_service_crons_inner links config plan service_name service sessions).
Proof.
  unfold reconcile_service_crons_inner. apply touches_bind.
  { case_bool_decide; [apply touches_ret|].
    eapply touches_impl; [|apply install_on_owner_installs]. by intros n j (? & ? & _). }
  intros [[ps owner] inst]. apply touches_bind; [|intros; apply touches_ret]. apply touches_problems. intros m Hm%elem_of_btree_elems.
  eapply touches_impl; [|apply sweep_touches]. by intros n j (-> & ? & _).
Qed.

(** *** A pass without a problem *)

(** Jobs only go. *)
Definition subs {A} (m : F A) : Prop := ∀ fl n job row, jobs (m fl).2 n !! job = Some row → jobs fl n !! job = Some row.
Lemma subs_ret {A} (a : A) : subs (mret a).
Proof. by intros fl n job. Qed.
Lemma subs_bind {A B} (m : F A) (f : A → F B) : subs m → (∀ a, subs (f a)) → subs (m ≫= f).
Proof.
  intros Hm Hf fl n job row Hj. apply Hm. revert Hj. unfold mbind, F_bind.
  destruct (m fl) as [[a| | |] fl']; simpl; [apply Hf|done..].
Qed.
Lemma subs_problems {A} (f : A → F (list string)) l : (∀ a, subs (f a)) → subs (problems_of f l).
Proof.
  intros Hf. induction l as [|a l IH]; simpl; [apply subs_ret|]. apply subs_bind; [done|]. intros p.
  apply subs_bind; [done|]. intros ps. apply subs_ret.
Qed.
Lemma subs_touches {A} (m : F A) : touches (λ _ _, False) m → subs m.
Proof. intros Hm fl n job row. rewrite (Hm fl n job); [done|tauto]. Qed.
Lemma subs_remove n service c : subs (ask links n (CronSpecRemove service c)).
Proof.
  intros fl k job row. pose proof (ask_spec n (CronSpecRemove service c) fl) as Ha.
  destruct (ask links n _ fl) as [r fl']. destruct Ha as [(_ & _ & ->)|(w & w' & Hw & -> & Ha)]; [done|].
  simpl. rewrite jobs_insert. case_bool_decide as He; [|done]. subst k. unfold jobs. rewrite Hw. unfold jobs_in.
  destruct Ha as [[-> _]|[-> _]]; [done|]. simpl. by intros [_ ?]%lookup_delete_Some.
Qed.
Lemma subs_sweep service_name n desired : subs (remove_specs_absent_from links service_name n desired).
Proof.
  unfold remove_specs_absent_from. apply subs_bind; [apply subs_touches, list_touches|]. intros [response|error]; [|apply subs_ret].
  apply subs_problems. intros spec. apply subs_bind; [apply subs_remove|]. intros r. apply subs_ret.
Qed.

Lemma problems_of_nil {A} (f : A → F (list string)) a l fl fl' :
  problems_of f (a :: l) fl = (Fine [], fl') →
  ∃ fl1, f a fl = (Fine [], fl1) ∧ problems_of f l fl1 = (Fine [], fl').
Proof.
  simpl. unfold mbind, F_bind. destruct (f a fl) as [[p| | |] fl1]; [|done..].
  destruct (problems_of f l fl1) as [[ps| | |] fl2] eqn:Hl; [|done..]. intros [= Happ <-].
  apply app_nil in Happ as [-> ->]. by exists fl1.
Qed.

Lemma removed_is_gone n service c fl r fl' :
  ask links n (CronSpecRemove service c) fl = (Fine (Ok r), fl') → jobs fl' n !! ((service, c) : Job) = None.
Proof.
  intros Hr. pose proof (ask_spec n (CronSpecRemove service c) fl) as Ha. rewrite Hr in Ha.
  destruct Ha as [(_ & Hc & _)|(w & w' & Hw & -> & Ha)]; [done|]. rewrite jobs_insert, bool_decide_true by done.
  unfold jobs_in. destruct Ha as [[_ [e He]]|[-> [[e He]|_]]]; [done|done|]. simpl. apply lookup_delete_eq.
Qed.

Lemma removals_done n service (specs : list CronJobSpec) fl fl' :
  problems_of (λ spec,
    r ← ask links n (CronSpecRemove service (spec_cron_name spec));
    mret match r with
         | Ok _ => []
         | Err error => [about service (" cron '" +:+ spec_cron_name spec
                           +:+ "': could not remove a stale installation on '" +:+ n +:+ "': " +:+ error)]
         end) specs fl = (Fine [], fl') →
  ∀ spec, spec ∈ specs → jobs fl' n !! ((service, spec_cron_name spec) : Job) = None.
Proof.
  revert fl. induction specs as [|s specs IH]; intros fl Hrun spec Hin; [by apply elem_of_nil in Hin|].
  apply problems_of_nil in Hrun as (fl1 & Ha & Hrun). apply elem_of_cons in Hin as [->|Hin]; [|by eapply IH].
  revert Ha. unfold mbind, F_bind. destruct (ask links n _ fl) as [[[r|e]| | |] fl0] eqn:Ha; [|done..].
  intros [= ->]. apply removed_is_gone in Ha. apply eq_None_not_Some. intros [row Hrow].
  match type of Hrun with problems_of ?g _ _ = _ =>
    pose proof (subs_problems g specs ltac:(intros; apply subs_bind; [apply subs_remove|intros; apply subs_ret])) as Hsub end.
  specialize (Hsub fl1 n (service, spec_cron_name s) row). rewrite Hrun in Hsub. specialize (Hsub Hrow). congruence.
Qed.

(** Every specification is stored under its own name. *)
Definition keyed (fl : Fleet) : Prop := ∀ n job row, jobs fl n !! job = Some row → spec_job (row_spec row) = job.

Lemma sweep_is_complete service_name n desired fl fl' :
  keyed fl → remove_specs_absent_from links service_name n desired fl = (Fine [], fl') →
  ∀ job : Job, job.1 = service_name → job.2 ∉ desired → jobs fl' n !! job = None.
Proof.
  intros Hk. unfold remove_specs_absent_from, mbind, F_bind. pose proof (ask_spec n CronSpecList fl) as Ha.
  destruct (ask links n CronSpecList fl) as [[[response|e]| | |] fl1] eqn:Hask; [|done..].
  destruct Ha as [(_ & Hc & _)|(w & w' & Hw & -> & Ha)]; [done|].
  destruct Ha as [[_ [e He]]|[Hs [[e He]|(b & [= ->] & Hok)]]]; [done|done|]. simpl in Hok, Hs. injection Hok as <-. simpl.
  intros Hrun [s c] Hserv Hd. simpl in Hserv, Hd. subst s. apply eq_None_not_Some. intros [row Hrow].
  match type of Hrun with problems_of ?g ?l ?f = _ =>
    pose proof (subs_problems g l ltac:(intros; apply subs_bind; [apply subs_remove|intros; apply subs_ret]) f n (service_name, c) row) as Hsub end.
  rewrite Hrun in Hsub. specialize (Hsub Hrow). rewrite jobs_insert, bool_decide_true in Hsub by done. unfold jobs_in in Hsub. rewrite Hs in Hsub.
  assert (jobs fl n !! ((service_name, c) : Job) = Some row) as Hj by (unfold jobs; rewrite Hw; exact Hsub).
  pose proof (Hk _ _ _ Hj) as Hkey. unfold spec_job in Hkey. injection Hkey as Hks Hkc.
  pose proof (removals_done _ _ _ _ _ Hrun (row_spec row)) as Hgone. rewrite Hkc in Hgone.
  rewrite Hgone in Hrow; [done|]. apply list_elem_of_filter. rewrite Hkc. split; [done|].
  unfold cron_specs. apply list_elem_of_fmap. exists row. split; [done|]. apply elem_of_btree_values. by exists (service_name, c).
Qed.

Definition keeps_keyed {A} (m : F A) : Prop := ∀ fl, keyed fl → keyed (m fl).2.
Lemma keyed_bind {A B} (m : F A) (f : A → F B) : keeps_keyed m → (∀ a, keeps_keyed (f a)) → keeps_keyed (m ≫= f).
Proof.
  intros Hm Hf fl Hk. specialize (Hm fl Hk). unfold mbind, F_bind.
  destruct (m fl) as [[a| | |] fl']; simpl in *; [by apply Hf|done..].
Qed.
Lemma keyed_subs {A} (m : F A) : subs m → keeps_keyed m.
Proof. intros Hm fl Hk n job row Hj. by eapply Hk, Hm. Qed.
Lemma keyed_apply n service c body : applies service c body → keeps_keyed (ask links n body).
Proof.
  intros Hb fl Hk k job row. pose proof (ask_spec n body fl) as Ha. destruct (ask links n body fl) as [r fl'].
  destruct Ha as [(_ & _ & ->)|(w & w' & Hw & -> & Ha)]; [apply Hk|]. simpl. rewrite jobs_insert.
  case_bool_decide as He; [|apply Hk]. subst k. unfold jobs_in.
  destruct Ha as [[-> _]|[-> _]]; [intros Hj; eapply (Hk n); unfold jobs; by rewrite Hw|].
  intros Hj. apply (proj2 (proj2 (proj2 (apply_effect _ _ _ _ _ _ Hb)))) in Hj as [Hj|Hj]; [|done].
  eapply (Hk n). unfold jobs. by rewrite Hw.
Qed.
Lemma keyed_install_crons service owner request_of crons :
  renders service request_of → keeps_keyed (install_crons links service owner request_of crons).
Proof.
  intros Hr. induction crons as [|[c cron] crons IH]; [apply keyed_subs, subs_ret|]. intros fl Hk.
  destruct (install_crons_run service owner request_of c cron crons fl Hr) as [(r & -> & _)|(body & Hb & ->)]; [done|].
  revert fl Hk. apply keyed_bind; [by eapply keyed_apply|]. intros response. apply keyed_bind; [done|].
  intros rest. apply keyed_subs, subs_ret.
Qed.
Lemma keyed_install_on_owner config plan service_name service sessions :
  keeps_keyed (install_on_owner links config plan service_name service sessions).
Proof.
  assert (∀ A (m : F A), (∀ D, touches D m) → keeps_keyed m) as Ht by (intros; by apply keyed_subs, subs_touches).
  unfold install_on_owner. destruct (seed_server service sessions) as [seed|]; [|apply keyed_subs, subs_ret].
  apply keyed_bind; [apply Ht; intros; apply touches_catalog|]. intros [records|error]; [|apply keyed_subs, subs_ret].
  destruct (select_cron_owner _ records) as [[assignment record]|]; [|apply keyed_subs, subs_ret].
  destruct (bool_decide _); [|apply keyed_subs, subs_ret]. destruct (np_servers plan !! _); [|apply keyed_subs, subs_ret].
  apply keyed_bind; [apply Ht; intros; apply touches_home|]. intros [home|error]; [|apply keyed_subs, subs_ret].
  destruct (build_all_mount_args _ _ _) as [args|error]; [|apply keyed_subs, subs_ret].
  apply keyed_bind; [apply keyed_install_crons, renders_apply_request|]. intros r. apply keyed_subs, subs_ret.
Qed.

Lemma sweeps_are_complete service_name (desired : string → gset string) servers fl fl' :
  keyed fl → problems_of (λ m, remove_specs_absent_from links service_name m (desired m)) servers fl = (Fine [], fl') →
  ∀ n (job : Job), n ∈ servers → job.1 = service_name → job.2 ∉ desired n → jobs fl' n !! job = None.
Proof.
  revert fl. induction servers as [|m servers IH]; intros fl Hk Hrun n job Hn Hs Hd; [by apply elem_of_nil in Hn|].
  apply problems_of_nil in Hrun as (fl1 & Hm & Hrun).
  pose proof (keyed_subs _ (subs_sweep service_name m (desired m)) fl Hk) as Hk1. rewrite Hm in Hk1. simpl in Hk1.
  apply elem_of_cons in Hn as [->|Hn]; [|by eapply IH]. apply eq_None_not_Some. intros [row Hrow].
  pose proof (subs_problems (λ m, remove_specs_absent_from links service_name m (desired m)) servers
    ltac:(intros; apply subs_sweep) fl1 m job row) as Hsub.
  rewrite Hrun in Hsub. specialize (Hsub Hrow).
  rewrite (sweep_is_complete service_name m (desired m) fl fl1 Hk Hm job Hs Hd) in Hsub. done.
Qed.

(** Where the jobs of a service are after a pass without a problem. *)
Lemma reconcile_inner_places config plan service_name service sessions fl fl' :
  keyed fl → reconcile_service_crons_inner links config plan service_name service sessions fl = (Fine [], fl') →
  ∃ owner, (service_crons service ≠ ∅ → owner ∈ sessions) ∧
    ∀ n c, n ∈ sessions → has fl' n (service_name, c) ↔ n = owner ∧ c ∈ dom (service_crons service).
Proof.
  intros Hk Hrun. unfold reconcile_service_crons_inner in Hrun. case_bool_decide as Hc.
  - exists "". split; [done|]. intros n c Hn. rewrite Hc, dom_empty_L. split; [|set_solver]. intros [row Hrow]. exfalso.
    revert Hrun. unfold mbind, F_bind, mret, F_ret. destruct (problems_of _ _ fl) as [[ps| | |] fl1] eqn:Hs; [|done..].
    intros [= -> ->]. rewrite Hc, dom_empty_L in Hs.
    pose proof (sweeps_are_complete service_name (λ _, ∅) _ _ _ Hk Hs n (service_name, c)) as Hnone.
    rewrite Hnone in Hrow; [done|by apply elem_of_btree_elems|done|apply not_elem_of_empty].
  - destruct (install_on_owner_installs config plan service_name service sessions) as (_ & _ & Hi). specialize (Hi fl).
    pose proof (keyed_install_on_owner config plan service_name service sessions fl Hk) as Hk1. revert Hrun.
    unfold mbind, F_bind. destruct (install_on_owner _ _ _ _ _ _ fl) as [[[[ps owner] inst]| | |] fl1]; [|done..].
    simpl in Hk1. destruct (Hi fl1 ps owner inst eq_refl) as (_ & Hon & Hall).
    destruct (problems_of _ _ fl1) as [[ps2| | |] fl2] eqn:Hs; [|done..]. intros [= [-> ->]%app_nil ->].
    destruct (Hall eq_refl) as (o & -> & Ho & Hsub). exists o. split; [done|]. intros n c Hn.
    set (desired := desired_for_server (dom (service_crons service)) inst (Some o)).
    assert (c ∈ desired n ↔ n = o ∧ c ∈ dom (service_crons service)) as Hdes.
    { unfold desired, desired_for_server, desired_on_former_owner. case_bool_decide; set_solver. }
    split.
    + intros [row Hrow]. apply Hdes. destruct (decide (c ∈ desired n)) as [|Hd]; [done|].
      rewrite (sweeps_are_complete service_name desired _ _ _ Hk1 Hs n (service_name, c)) in Hrow;
        [done|by apply elem_of_btree_elems|done|done].
    + intros [-> Hcron]. unfold has.
      pose proof (sweeps_keep service_name desired (btree_elems sessions) fl1 o (service_name, c)) as Hkeep.
      unfold desired in Hkeep. rewrite Hs in Hkeep. simpl in Hkeep. rewrite Hkeep by (by apply Hdes).
      by apply Hon; [|apply Hsub].
Qed.

(** *** The sessions of a pass *)

(** Reaching every server or none: the sessions are those of the servers asked for. *)
Lemma resolve_strict config servers sessions st st' :
  try_fold (resolve_server config sessions false) st servers = Ok st' → st'.1 = st.1 ∪ list_to_set servers.
Proof.
  revert st. induction servers as [|n servers IH]; intros st; simpl; [intros [= <-]; by rewrite (right_id_L ∅ (∪))|].
  destruct (resolve_server config sessions false st n) as [st1|] eqn:Hn; [|done]. simpl. intros Hr%IH. rewrite Hr.
  assert (st1.1 = {[n]} ∪ st.1) as ->; [|by rewrite (comm_L (∪) {[n]}), (assoc_L (∪))]. revert Hn. unfold resolve_server.
  case_bool_decide; [by intros [= <-]|]. destruct (hm_get _ _); [|done]. destruct (connect_options _ _); [|done].
  destruct (connect n); [|done]. by intros [= <-].
Qed.
Lemma resolve_sessions_strict config servers sessions resolved opened :
  resolve_sessions config servers sessions false = Ok (resolved, opened) → resolved = list_to_set servers.
Proof. intros Hr%resolve_strict. simpl in Hr. by rewrite (left_id_L ∅ (∪)) in Hr. Qed.
End calls.

Module FleetProps.
Section laws.
Context `{ContentHash MembershipRecord, ContentHash CatalogRecord, ContentHash DesiredStateRecord,
  ContentHash CronSpecContent, Labels, Sha256}.
Context `{Host, DebugText, FloatText, Connector}.
Context (links : string → AgentLink).

(** C26: Reconciling the cron jobs of a service never loses one and keeps to itself.  Whatever the
    servers, the links and the agents do, and whether the pass reports problems or dies half way:
    a job that the configuration has and that some server of the fleet has installed is installed
    on some server afterwards, and no job of another service and no job on a server outside the
    service's list is changed. *)
Theorem cron_jobs_are_not_lost config plan service_name service sessions fl :
  let fl' := (reconcile_service_crons links config plan service_name service sessions fl).2 in
  (∀ c n, c ∈ dom (service_crons service) → has fl n (service_name, c) → ∃ m, has fl' m (service_name, c)) ∧
  (∀ n (job : Job), ¬ (n ∈ service_servers service ∧ job.1 = service_name) → jobs fl' n !! job = jobs fl n !! job).
Proof.
  unfold reconcile_service_crons. destruct (resolve_sessions _ _ _ _) as [[resolved opened]|e] eqn:Hr; simpl; [|eauto].
  apply resolve_sessions_strict in Hr as ->. split.
  - intros c n. apply reconcile_inner_keeps.
  - intros n job Hn. apply reconcile_inner_touches. by rewrite elem_of_list_to_set.
Qed.

(** A pass that reports no problem has put the jobs where they belong.  On a fleet whose
    agents store each job under its own name, afterwards exactly one of the service's servers, the
    owner, has the configured jobs, it has all of them and no other of this service, and the
    service's other servers have none: every job of an earlier owner, renamed or dropped, is
    gone. *)
Theorem clean_pass_places_the_jobs config plan service_name service sessions fl fl' :
  keyed fl → reconcile_service_crons links config plan service_name service sessions fl = (Fine [], fl') →
  ∃ owner, (service_crons service ≠ ∅ → owner ∈ service_servers service) ∧
    ∀ n c, n ∈ service_servers service → has fl' n (service_name, c) ↔ n = owner ∧ c ∈ dom (service_crons service).
Proof.
  intros Hk. unfold reconcile_service_crons. destruct (resolve_sessions _ _ _ _) as [[resolved opened]|e] eqn:Hr; [|done].
  apply resolve_sessions_strict in Hr as ->. intros (owner & Ho & Hall)%reconcile_inner_places; [|done].
  exists owner. split; [intros Hc; specialize (Ho Hc); by apply elem_of_list_to_set in Ho|].
  intros n c Hn. apply Hall. by apply elem_of_list_to_set.
Qed.
End laws.

(** ** Two servers, the job on the one that is no longer the owner *)

Definition sample_cron : CronConfig :=
  {| cron_schedule := "0 3 * * *"; cron_command := CommandSingle "tidy"; cron_timezone := default_cron_timezone;
     cron_timeout := default_cron_timeout; cron_overlap := Schema.Forbid; cron_missed_runs := Schema.Skip |}.
Definition sample_service : Service :=
  {| service_image := Some "web:2"; service_build := None; service_servers := ["b"; "a"];
     service_scale := 1; service_ports := []; service_volumes := []; service_files := [];
     service_directories := []; service_environment := {| env_clear := []; env_secrets := [] |};
     service_command := None; service_proxy := None; service_retain := 3; service_network_mode := "bridge";
     service_cpus := None; service_memory := None; service_gpus := None; service_devices := [];
     service_privileged := false; service_cap_add := []; service_stop_first := false;
     service_restart := None; service_crons := {[ "tidy" := sample_cron ]} |}.

Definition sample_host : Host :=
  {| machine := (); exec _ _ m := (Ok {| stdout := "/root"; stderr := ""; success := true; code := Some 0 |}, m);
     exec_stream _ m := (Ok [], m); clock _ := 0; sleep _ m := m; unix_time _ := Ok 0; session_host := "a";
     error_message _ := ""; response_debug _ := "" |}.
Definition sample_links (_ : string) : AgentLink :=
  {| link_api := ApiProps.sample_api; link_env _ := ApiProps.sample_env; link_fate _ := Delivered |}.
Definition sample_debug : DebugText := {| debug_text s := s |}.
Definition sample_float : FloatText := {| float_to_string _ := "1" |}.
Definition sample_connector : Connector := {| connect_options _ _ := Ok (); connect _ := Ok () |}.
Definition sample_cron_hash : ContentHash CronSpecContent := {| content_hash _ := Some "hash" |}.

(** The replica on [a] serves, as every catalog knows; the job [tidy] and a job of before its
    renaming are on [b]. *)
Definition sample_catalog : AgentStore :=
  (ApiProps.sample_handle ApiProps.sample_store
     (CatalogCommit "web" (@replica_id_for constant_sha256 "demo" "web" "a" 0) "d1" "10.0.0.5" [80] "web:2" Catalog.Active Healthy)).2.
Definition sample_apply (c : string) : RequestBody :=
  CronSpecApply "web" c 1 "hash" "d0" "web-0" "web:1" "0 3 * * *" "UTC" 3600 Cron.Forbid Cron.Skip ["tidy"] "" [] [] "jiji-demo" "".
Definition sample_fleet : gmap string (@World sample_host) :=
  let stale := (ApiProps.sample_handle (ApiProps.sample_handle sample_catalog (sample_apply "tidy")).2 (sample_apply "clean")).2 in
  {[ "a" := @Build_World sample_host sample_catalog tt []; "b" := @Build_World sample_host stale tt [] ]}.

Definition sample_pass : flow (list string) * gmap string (@World sample_host) :=
  @reconcile_service_crons MembershipProps.sample_hash ApiProps.commit_hash DesiredProps.sample_hash sample_cron_hash
    LeasesProps.sample_labels constant_sha256 sample_host sample_debug sample_float sample_connector sample_links
    sample_config PlannerProps.sample_plan "web" sample_service {["a"]} sample_fleet.

Lemma sample_keyed : @keyed sample_host sample_fleet.
Proof.
  assert (map_Forall (λ _ w, map_Forall (λ job row, spec_job (row_spec row) = job) (@jobs_in sample_host w)) sample_fleet) as Hall.
  { refine (bool_decide_unpack _ _). vm_compute. exact I. }
  intros n job row. unfold jobs. destruct (sample_fleet !! n) as [w|] eqn:Hw; [|by rewrite lookup_empty]. apply (Hall n w Hw).
Qed.

Lemma clean_pass_places_the_jobs_witness :
  sample_pass.1 = Fine [] ∧ @has sample_host sample_fleet "b" ("web", "tidy") ∧ @has sample_host sample_fleet "b" ("web", "clean") ∧
  ∃ owner, owner ∈ service_servers sample_service ∧
    ∀ n c, n ∈ service_servers sample_service →
      @has sample_host sample_pass.2 n ("web", c) ↔ n = owner ∧ c ∈ dom (service_crons sample_service).
Proof.
  assert (sample_pass.1 = Fine []) as Hok by (vm_compute; reflexivity).
  assert (sample_pass = (Fine [], sample_pass.2)) as Hrun by (rewrite <-Hok; apply surjective_pairing).
  split_and!; [exact Hok|eexists; vm_compute; reflexivity..|].
  destruct (@clean_pass_places_the_jobs MembershipProps.sample_hash ApiProps.commit_hash DesiredProps.sample_hash sample_cron_hash
    LeasesProps.sample_labels constant_sha256 sample_host sample_debug sample_float sample_connector sample_links
    sample_config PlannerProps.sample_plan "web" sample_service {["a"]} sample_fleet _ sample_keyed Hrun) as (owner & Ho & Hall).
  exists owner. split; [|exact Hall]. apply Ho. intros He. apply (f_equal map_to_list) in He. vm_compute in He. discriminate He.
Defined.
End FleetProps.
