(* ===== verification/FleetLogs.v ===== *)
(** What programs over several servers leave in their logs: triples over the events each server
    has logged since a given state of the fleet. *)

From S2P Require Import Prelude Text Bytes Substring Cidr Naming Schema Planner ServiceRuntime.
From S2P Require Import Membership Catalog Desired OpLog Leases Cron CronExec Replication Store Api CandidatePlan EnvResolution.
From S2P Require Import Locks Session ProxyRoutes SessionLaws ProxyScript HostProxy AuditTrail Teardown TeardownLaws Cascade Fleet FleetLaws.
Open Scope N_scope.

Section logs.
Context `{Host} (fl0 : gmap string World).

(** What every server has logged since [fl0]. *)
Definition Since (Ψ : string → list Event → Prop) (fl : Fleet) : Prop :=
  ∀ n w0, fl0 !! n = Some w0 → ∃ w l, fl !! n = Some w ∧ w_log w = l ++ w_log w0 ∧ Ψ n l.

Definition update (Ψ : string → list Event → Prop) (n : string) (Φ : list Event → Prop) : string → list Event → Prop :=
  λ m, if bool_decide (m = n) then Φ else Ψ m.

Lemma Since_impl (Ψ Φ : string → list Event → Prop) fl : (∀ n l, Ψ n l → Φ n l) → Since Ψ fl → Since Φ fl.
Proof. intros Hi Hs n w0 Hn. destruct (Hs n w0 Hn) as (w & l & Hw & Hl & HΨ). exists w, l. auto. Qed.

(** A run that does not panic; the error it may end with is part of what is said. *)
Definition finishes {A} (P : Fleet → Prop) (m : F A) (Q : A → Fleet → Prop) (E : string → Fleet → Prop) : Prop :=
  ∀ fl, P fl → match m fl with (Fine a, fl') => Q a fl' | (Fails e, fl') => E e fl' | _ => True end.
(** The same whatever the error says. *)
Definition holds {A} (P : Fleet → Prop) (m : F A) (Q : A → Fleet → Prop) (E : Fleet → Prop) : Prop := finishes P m Q (λ _, E).

Lemma finishes_bind {A B} P (m : F A) Q E (f : A → F B) R :
  finishes P m Q E → (∀ a, finishes (Q a) (f a) R E) → finishes P (m ≫= f) R E.
Proof.
  intros Hm Hf fl Hfl. specialize (Hm fl Hfl). unfold mbind, F_bind.
  destruct (m fl) as [[a| | |] fl']; [by apply Hf|done..].
Qed.
Lemma finishes_conseq {A} (P P' : Fleet → Prop) (m : F A) (Q Q' : A → Fleet → Prop) (E E' : string → Fleet → Prop) :
  finishes P' m Q' E' → (∀ fl, P fl → P' fl) → (∀ a fl, Q' a fl → Q a fl) → (∀ e fl, E' e fl → E e fl) → finishes P m Q E.
Proof. intros Hm HP HQ HE fl Hfl. specialize (Hm fl (HP _ Hfl)). destruct (m fl) as [[a| | |] fl']; auto. Qed.
Lemma finishes_index {A B} (P : Fleet → Prop) (m : gmap string A) n (f : A → F B) Q E :
  (∀ a, m !! n = Some a → finishes P (f a) Q E) → finishes P (index m n ≫= f) Q E.
Proof. intros Hf fl Hfl. unfold mbind, F_bind, index. destruct (m !! n) as [a|] eqn:Ha; [|done]. by apply (Hf a). Qed.
Lemma finishes_each {A} (I : list A → Fleet → Prop) (f : A → F ()) l E :
  (∀ done a rest, l = done ++ a :: rest → finishes (I done) (f a) (λ _, I (done ++ [a])) E) →
  finishes (I []) (each f l) (λ _, I l) E.
Proof.
  enough (∀ rest done, l = done ++ rest →
    (∀ done a rest, l = done ++ a :: rest → finishes (I done) (f a) (λ _, I (done ++ [a])) E) →
    finishes (I done) (each f rest) (λ _, I l) E) as Hgen by (intros; by apply (Hgen l [])).
  induction rest as [|a rest IH]; intros done Hl Hf; simpl.
  - rewrite app_nil_r in Hl. subst. by intros fl Hfl.
  - eapply finishes_bind; [by eapply Hf|]. intros []. apply IH; [|done]. by rewrite Hl, <-(assoc_L (++)).
Qed.

Lemma holds_ret {A} (P : Fleet → Prop) (a : A) Q E : (∀ fl, P fl → Q a fl) → holds P (mret a) Q E.
Proof. intros HQ fl Hfl. by apply HQ. Qed.
Lemma holds_stops {A} (P : Fleet → Prop) e (Q : A → Fleet → Prop) (E : Fleet → Prop) :
  (∀ fl, P fl → E fl) → holds P (stops e) Q E.
Proof. intros HE fl Hfl. by apply HE. Qed.
Lemma holds_of_f {A} (P : Fleet → Prop) (r : result string A) (E : Fleet → Prop) :
  (∀ fl, P fl → E fl) → holds P (of_f r) (λ _, P) E.
Proof. intros HE. destruct r; [by apply holds_ret|by apply holds_stops]. Qed.
Lemma holds_bind {A B} P (m : F A) Q E (f : A → F B) R :
  holds P m Q E → (∀ a, holds (Q a) (f a) R E) → holds P (m ≫= f) R E.
Proof. apply finishes_bind. Qed.
Lemma holds_conseq {A} (P P' : Fleet → Prop) (m : F A) (Q Q' : A → Fleet → Prop) (E E' : Fleet → Prop) :
  holds P' m Q' E' → (∀ fl, P fl → P' fl) → (∀ a fl, Q' a fl → Q a fl) → (∀ fl, E' fl → E fl) → holds P m Q E.
Proof. intros Hm HP HQ HE. eapply finishes_conseq; [exact Hm|auto..]. Qed.
Lemma holds_attempts {A} P (m : F A) Q E : holds P m Q E → holds P (attempts m) (λ r fl, match r with Ok a => Q a fl | Err _ => E fl end) E.
Proof. intros Hm fl Hfl. specialize (Hm fl Hfl). unfold attempts. by destruct (m fl) as [[a| | |] fl']. Qed.
Lemma holds_context {A} P (m : F A) Q E what : holds P m Q E → holds P (f_context what m) Q E.
Proof.
  intros Hm. eapply holds_bind; [by apply holds_attempts|]. intros [a|e]; [by apply holds_ret|by apply holds_stops].
Qed.
Lemma holds_index {A} (P : Fleet → Prop) (m : gmap string A) n E : holds P (index m n) (λ a fl, P fl ∧ m !! n = Some a) E.
Proof. intros fl Hfl. unfold index. by destruct (m !! n). Qed.
Lemma holds_each {A} (I : list A → Fleet → Prop) (f : A → F ()) l E :
  (∀ done a rest, l = done ++ a :: rest → holds (I done) (f a) (λ _, I (done ++ [a])) E) →
  holds (I []) (each f l) (λ _, I l) E.
Proof. apply finishes_each. Qed.

(** *** Programs on one server *)

Lemma Since_and (Ψ Φ : string → list Event → Prop) fl : Since Ψ fl → Since Φ fl → Since (λ n l, Ψ n l ∧ Φ n l) fl.
Proof.
  intros H1 H2 n w0 Hn. destruct (H1 n w0 Hn) as (w & l & Hw & Hl & HΨ), (H2 n w0 Hn) as (w' & l' & Hw' & Hl' & HΦ).
  rewrite Hw in Hw'. injection Hw' as <-. rewrite Hl in Hl'. apply (inj (λ l, l ++ w_log w0)) in Hl' as <-. by exists w, l.
Qed.

(** What [m] adds to the log, and what it adds when it returns. *)
Definition adds {A} (P : list Event → Prop) (Φ : A → list Event → Prop) (m : M A) : Prop :=
  ∀ w, ∃ l', w_log (m w).2 = l' ++ w_log w ∧ P l' ∧ match (m w).1 with Fine a => Φ a l' | _ => True end.

Lemma issues_adds {A} P (m : M A) : issues P m → adds (Forall (executes P)) (λ _ _, True) m.
Proof. intros Hm w. destruct (Hm w) as (l & Hl & Hf). exists l. split_and!; [done..|]. by destruct (m w).1. Qed.

Lemma adds_bind {A B} N P Φ (m : M A) (f : A → M B) :
  (∀ l l', Forall (executes N) l' → P l → P (l' ++ l)) →
  adds P Φ m → (∀ a, issues N (f a)) → adds P (λ _ _, True) (m ≫= f).
Proof.
  intros HP Hm Hf w. destruct (Hm w) as (l & Hl & Hp & _). unfold mbind, M_bind.
  destruct (m w) as [[a| | |] w']; simpl in *; try by (exists l).
  destruct (Hf a w') as (l' & Hl' & Hn). exists (l' ++ l). rewrite Hl', Hl, (assoc_L (++)). split_and!; [done|by apply HP|].
  by destruct (fst _).
Qed.
Lemma adds_attempt {A} P Φ (m : M A) : adds P Φ m → adds P (λ _ _, True) (attempt m).
Proof.
  intros Hm w. destruct (Hm w) as (l & Hl & Hp & _). exists l. unfold attempt. by destruct (m w) as [[a| | |] w'].
Qed.
(** A command that must succeed is in the log, and so is its success. *)
Lemma adds_run_checked c :
  adds (λ l, ∃ o, l = [Executed c "" o]) (λ r l, l = [Executed c "" (Ok r)] ∧ success r = true) (run_checked c).
Proof.
  intros w. unfold run_checked, execute, execute_with_input, ensure_success, mbind, M_bind.
  destruct (exec c "" (w_machine w)) as [[r|e] mc]; simpl.
  - exists [Executed c "" (Ok r)]. destruct (success r) eqn:Hr; simpl; eauto.
  - exists [Executed c "" (Err e)]. eauto.
Qed.
Lemma adds_impl {A} (P P' : list Event → Prop) (Φ Φ' : A → list Event → Prop) (m : M A) :
  adds P Φ m → (∀ l, P l → P' l) → (∀ a l, Φ a l → Φ' a l) → adds P' Φ' m.
Proof.
  intros Hm HP HΦ w. destruct (Hm w) as (l & Hl & Hp & Ha). exists l. split_and!; [done|by apply HP|].
  destruct (m w).1; auto.
Qed.
(** A program on [n]: what it makes of the log there. *)
Lemma holds_on {A} Ψ n (m : M A) P (Φ : A → list Event → Prop) :
  adds P Φ m →
  holds (Since Ψ) (on n m)
    (λ r, Since (λ k l, if bool_decide (k = n) then ∃ l' l0, l = l' ++ l0 ∧ Ψ k l0 ∧ P l' ∧
                          match r with Ok a => Φ a l' | Err _ => True end else Ψ k l))
    (λ _, False).
Proof.
  intros Hm fl Hs. pose proof (on_spec n m fl) as Ho. destruct (on n m fl) as [r fl'].
  destruct Ho as [(_ & -> & _)|(w & Hw & -> & ->)]; [done|]. destruct (Hm w) as (l' & Hl' & HP & HΦ).
  enough (∀ r : result string A, (match r with Ok a => Φ a l' | Err _ => True end) →
    Since (λ k l, if bool_decide (k = n) then ∃ l' l0, l = l' ++ l0 ∧ Ψ k l0 ∧ P l' ∧
                    match r with Ok a => Φ a l' | Err _ => True end else Ψ k l) (<[n := (m w).2]> fl)) as Hgen.
  { destruct (m w) as [[a|e| |] w']; simpl in *; [by apply (Hgen (Ok a))|by apply (Hgen (Err e))|done|done]. }
  intros r Hr k w0 Hk. destruct (Hs k w0 Hk) as (v & l & Hv & Hl & HΨ). case_bool_decide as He.
  - subst k. rewrite Hw in Hv. injection Hv as <-. exists (m w).2, (l' ++ l). rewrite lookup_insert_eq.
    split_and!; [done|by rewrite Hl', Hl, (assoc_L (++))|]. exists l', l. done.
  - exists v, l. by rewrite lookup_insert_ne.
Qed.

(** A program that always returns. *)
Lemma holds_on_or_returns {A} Ψ n (m : M A) P (Φ : A → list Event → Prop) :
  returns m → adds P Φ m →
  holds (Since Ψ) (on_or n m)
    (λ a, Since (λ k l, if bool_decide (k = n) then ∃ l' l0, l = l' ++ l0 ∧ Ψ k l0 ∧ P l' ∧ Φ a l' else Ψ k l)) (λ _, False).
Proof.
  intros Hr Hm fl Hs. pose proof (holds_on Ψ n m P Φ Hm fl Hs) as Ho. pose proof (on_spec n m fl) as Hon.
  unfold on_or, mbind, F_bind. destruct (on n m fl) as [[[a|e]|e| |] fl']; [exact Ho| |done..].
  destruct Hon as [(_ & Hc & _)|(w & _ & _ & He)]; [done|]. destruct (Hr w) as (a & w' & Ha). by rewrite Ha in He.
Qed.

(** What a program logs, by what it comes to. *)
Definition logs {A} (R : result string A → list Event → Prop) (m : M A) : Prop :=
  ∀ w, ∃ l', w_log (m w).2 = l' ++ w_log w ∧
    match (m w).1 with Fine a => R (Ok a) l' | Fails e => R (Err e) l' | _ => True end.
Lemma logs_ret {A} (R : result string A → list Event → Prop) a : R (Ok a) [] → logs R (mret a).
Proof. intros HR w. by exists []. Qed.
Lemma logs_fail {A} (R : result string A → list Event → Prop) e : R (Err e) [] → logs R (fail e).
Proof. intros HR w. by exists []. Qed.
Lemma logs_execute c i : logs (λ r l, l = [Executed c i r]) (execute_with_input c i).
Proof. intros w. unfold execute_with_input. destruct (exec c i (w_machine w)) as [[r|e] mc]; by eexists. Qed.
Lemma logs_bind {A B} R1 R2 R (m : M A) (f : A → M B) :
  logs R1 m → (∀ a, logs (R2 a) (f a)) → (∀ e l, R1 (Err e) l → R (Err e) l) →
  (∀ a r l1 l2, R1 (Ok a) l1 → R2 a r l2 → R r (l2 ++ l1)) → logs R (m ≫= f).
Proof.
  intros Hm Hf He Hr w. destruct (Hm w) as (l & Hl & Hl'). unfold mbind, M_bind.
  destruct (m w) as [[a|e| |] w']; simpl in *; [|exists l; auto|by exists l|by exists l].
  destruct (Hf a w') as (l' & Hl'' & HR). exists (l' ++ l). rewrite Hl'', Hl, (assoc_L (++)). split; [done|].
  destruct (fst _); eauto.
Qed.
Lemma logs_impl {A} (R R' : result string A → list Event → Prop) m : logs R m → (∀ r l, R r l → R' r l) → logs R' m.
Proof. intros Hm Hi w. destruct (Hm w) as (l & Hl & HR). exists l. split; [done|]. destruct (m w).1; auto. Qed.

Lemma holds_on_logs {A} Ψ n (m : M A) R :
  logs R m →
  holds (Since Ψ) (on n m)
    (λ r, Since (λ k l, if bool_decide (k = n) then ∃ l' l0, l = l' ++ l0 ∧ Ψ k l0 ∧ R r l' else Ψ k l)) (λ _, False).
Proof.
  intros Hm fl Hs. pose proof (on_spec n m fl) as Ho. destruct (on n m fl) as [r fl'].
  destruct Ho as [(_ & -> & _)|(w & Hw & -> & ->)]; [done|]. destruct (Hm w) as (l' & Hl' & HR).
  enough (∀ r : result string A, R r l' →
    Since (λ k l, if bool_decide (k = n) then ∃ l' l0, l = l' ++ l0 ∧ Ψ k l0 ∧ R r l' else Ψ k l) (<[n := (m w).2]> fl)) as Hgen.
  { destruct (m w) as [[a|e| |] w']; simpl in *; [by apply (Hgen (Ok a))|by apply (Hgen (Err e))|done|done]. }
  intros r Hr k w0 Hk. destruct (Hs k w0 Hk) as (v & l & Hv & Hl & HΨ). case_bool_decide as He.
  - subst k. rewrite Hw in Hv. injection Hv as <-. exists (m w).2, (l' ++ l). rewrite lookup_insert_eq, Hl', Hl, (assoc_L (++)). eauto 10.
  - exists v, l. by rewrite lookup_insert_ne.
Qed.
End logs.

Lemma Since_now `{Host} fl : Since fl (λ _ l, l = []) fl.
Proof. intros n w0 Hn. by exists w0, []. Qed.
