(* ===== verification/LockSession.v ===== *)
(** Deployment locks over SSH: the commands of [jiji-cli/src/lock.rs] on one server, and
    [OwnedDeploymentLocks] and [with_locks] ([commands/lock/mod.rs]) over the sessions of a command.

    A lock is a directory with an [info.json]; the protocol of one such directory, with its
    interleavings, is in [Locks].  Here the commands are issued and answered.  Operations that
    the code runs concurrently are run one after the other, in the order of their list. *)

From S2P Require Import Prelude Text Bytes Substring Cidr Naming Schema Planner ServiceRuntime.
From S2P Require Import Membership Catalog Desired OpLog Leases Cron CronExec Replication Store Api CandidatePlan EnvResolution.
From S2P Require Import Locks Session ProxyRoutes ProxyScript HostProxy AuditTrail Cascade Fleet.
Open Scope N_scope.

(** [serde_json] on the metadata and on a text. *)
Class LockJson := {
  info_to_json : LockInfo → result string string;
  info_of_json : string → option LockInfo;
  json_text : string → result string string;
}.

(** ** The commands of one lock *)

Section lock_files.
Context `{Host, LockJson}.

Definition read_lock_command (path : string) : string := "cat " +:+ path +:+ "/info.json 2>/dev/null || true".
Definition read_lock_file (path : string) : M (option LockInfo) :=
  r ← execute (read_lock_command path); mret (info_of_json (trim (stdout r))).

Definition pending_path (path lock_id : string) : string := path +:+ "." +:+ lock_id +:+ ".pending".
Definition acquire_command (path lock_id : string) : string :=
  let pending := pending_path path lock_id in
  String.concat nl
    ["set -eu"; "mkdir -p " +:+ parent_dir path; "mkdir " +:+ pending;
     "if ! install -m 0600 /dev/stdin " +:+ pending +:+ "/info.json; then rmdir " +:+ pending +:+ "; exit 74; fi";
     "if ! mv -T " +:+ pending +:+ " " +:+ path +:+ " 2>/dev/null; then"; "rm -f " +:+ pending +:+ "/info.json"; "rmdir " +:+ pending;
     "echo JIJI_LOCK_HELD"; "fi"].

Definition recover_command (path : string) : string :=
  String.concat nl
    ["if [ -d " +:+ path +:+ " ]; then"; "rm -f " +:+ path +:+ "/info.json"; "rmdir " +:+ path +:+ " 2>/dev/null || true";
     "elif [ -e " +:+ path +:+ " ]; then"; "rm -f " +:+ path; "fi"].
Definition recover_incomplete_lock (path : string) : M () :=
  r ← execute (recover_command path);
  if success r then mret ()
  else fail ("Could not recover incomplete lock at " +:+ path +:+ " on " +:+ session_host +:+ ": " +:+ trim (stderr r)).

(** The marker of contention. *)
Definition is_held (r : CommandResult) : bool := success r && bool_decide (trim (stdout r) = "JIJI_LOCK_HELD").
(** What the answer says unless it is the marker. *)
Definition acquired_or_fail (path : string) (r : CommandResult) : M AcquireResult :=
  if success r then mret Acquired
  else fail ("Could not acquire lock at " +:+ path +:+ " on " +:+ session_host +:+ ": " +:+ trim (stderr r)).

Definition acquire_lock (path : string) (info : LockInfo) : M AcquireResult :=
  content ← of_result (info_to_json info);
  lock_id ← of_outcome (match info_lock_id info with Some lock_id => Returned lock_id | None => Panicked end);
  let claim := execute_with_input (acquire_command path lock_id) content in
  r ← claim;
  if is_held r then
    holder ← read_lock_file path;
    match holder with
    | Some holder => mret (Held (Some holder))
    | None =>
        _ ← recover_incomplete_lock path;
        r ← claim;
        if is_held r then holder ← read_lock_file path; mret (Held holder)
        else acquired_or_fail path r
    end
  else acquired_or_fail path r.

Inductive ReleaseOwnedResult := Released | NoLongerOwned | AlreadyGone.

Definition release_command (path expected : string) : string :=
  String.concat nl
    ["set -eu"; "test -d " +:+ path +:+ " || exit 76";
     "actual=$(sed -n 's/.*" +:+ quoted "lock_id" +:+ "[[:space:]]*:[[:space:]]*" +:+ quoted "\([^" +:+ "]*\)" +:+ quote_char +:+ ".*/\1/p' "
       +:+ path +:+ "/info.json)";
     "test " +:+ quoted "$actual" +:+ " = " +:+ expected +:+ " || exit 75"; "rm -f " +:+ path +:+ "/info.json"; "rmdir " +:+ path].
Definition release_owned_lock (path lock_id : string) : M ReleaseOwnedResult :=
  expected ← of_result (json_text lock_id);
  r ← execute (release_command path expected);
  if bool_decide (code r = Some 76) then mret AlreadyGone
  else if bool_decide (code r = Some 75) then mret NoLongerOwned
  else if success r then mret Released
  else fail ("Could not release lock at " +:+ path +:+ " on " +:+ session_host +:+ ": " +:+ trim (stderr r)).

Definition force_command (path : string) : string :=
  "if [ -d " +:+ path +:+ " ]; then rm -f " +:+ path +:+ "/info.json && rmdir " +:+ path +:+ "; else rm -f " +:+ path +:+ "; fi".
Definition force_remove_lock (path : string) : M () :=
  r ← execute (force_command path);
  if success r then mret ()
  else fail ("Could not remove lock at " +:+ path +:+ " on " +:+ session_host +:+ ": " +:+ trim (stderr r)).

(** *** Discovery *)

Definition discover_command (project : string) : string :=
  let dir := project_staging_dir project +:+ "/locks" in
  let proxy := HOST_GLOBAL_PROXY_LOCK_PATH in
  String.concat nl
    ["set -eu"; "if [ -d " +:+ dir +:+ " ]; then"; "find " +:+ dir +:+ " -name info.json 2>/dev/null | while IFS= read -r f; do";
     "printf 'LOCKPATH:%s\n' " +:+ quoted "$f"; "cat " +:+ quoted "$f"; "printf '\n'"; "done"; "fi";
     "if [ -f " +:+ proxy +:+ "/info.json ]; then"; "printf 'LOCKPATH:%s/info.json\n' " +:+ proxy; "cat " +:+ proxy +:+ "/info.json";
     "printf '\n'"; "fi"].

(** What has been read: the locks, the path of the one that is read and its text. *)
Record Discovery := { d_locks : list (LockScope * LockInfo); d_path : option string; d_body : string }.
Definition flush (d : Discovery) : list (LockScope * LockInfo) :=
  d_locks d ++ match d_path d ≫= parse_scope_from_path, info_of_json (trim (d_body d)) with
               | Some scope, Some info => [(scope, info)]
               | _, _ => []
               end.
Definition discover_line (d : Discovery) (line : string) : Discovery :=
  match strip_prefix "LOCKPATH:" line with
  | Some path => {| d_locks := flush d; d_path := Some path; d_body := "" |}
  | None => {| d_locks := d_locks d; d_path := d_path d; d_body := d_body d +:+ line +:+ nl |}
  end.
Definition discover_locks (project : string) : M (list (LockScope * LockInfo)) :=
  r ← execute (discover_command project);
  mret (flush (foldl discover_line {| d_locks := []; d_path := None; d_body := "" |} (lines (stdout r)))).
End lock_files.

(** ** The locks of a command *)

(** The time of the command: an instant in nanoseconds and a time in seconds for each turn of a
    loop, the first of them at its start. *)
Class LocalTime := { instant : nat → N; unix_seconds : nat → N }.

(** [LockInfo::new]. *)
Definition new_info `{Operator} (message : string) (now_nanos pid sequence : N) : LockInfo :=
  {| info_message := message; info_acquired_at := now_nanos / SECOND; info_acquired_by := current_user; info_pid := pid;
     info_lock_id := Some (pretty pid +:+ "-" +:+ pretty now_nanos +:+ "-" +:+ pretty sequence) |}.

Record OwnedDeploymentLocks := { owned_project : string; owned_lock_id : string; owned_acquired : list LockRequest }.

Section locks.
Context `{Host, LockJson, LocalTime}.
Context (sessions : gset string).

(** An operation for each request.  The sessions are looked up first; [expect] panics where a
    host has none. *)
Fixpoint run_each {A} (m : LockRequest → M A) (requests : list LockRequest) : F (list (LockRequest * result string A)) :=
  match requests with
  | [] => mret []
  | request :: requests =>
      r ← on (req_host request) (m request);
      rs ← run_each m requests;
      mret ((request, r) :: rs)
  end.
Definition execute_each {A} (m : LockRequest → M A) (requests : list LockRequest) : F (list (LockRequest * result string A)) :=
  if forallb (λ r, bool_decide (req_host r ∈ sessions)) requests then run_each m requests else λ fl, (Crashes, fl).

Section with_project.
Context (project : string).
Definition path_of (request : LockRequest) : string := lock_path (req_scope request) project.

Definition release_text (request : LockRequest) (what : string) : string :=
  scope_to_string (req_scope request) +:+ " on " +:+ req_host request +:+ ": " +:+ what.
Definition release_warning (x : LockRequest * result string ReleaseOwnedResult) : option string :=
  match x.2 with
  | Ok NoLongerOwned => Some (scope_to_string (req_scope x.1) +:+ " lock on " +:+ req_host x.1
                              +:+ " is no longer owned by this invocation; it was not removed.")
  | _ => None
  end.
Definition release_error (x : LockRequest * result string ReleaseOwnedResult) : option string :=
  match x.2 with Err error => Some (release_text x.1 error) | Ok _ => None end.
Definition release_requests (lock_id : string) (requests : list LockRequest) : F (list string * list string) :=
  results ← execute_each (λ request, release_owned_lock (path_of request) lock_id) requests;
  mret (omap release_warning results, omap release_error results).

(** The requests of one rank, with what their attempts gave. *)
Definition note_group (now : N) (acc : Round) (group : list (LockRequest * Attempt)) : Round :=
  {| round_acquired := round_acquired acc ++ omap (λ x, if is_acquired x.2 then Some x.1 else None) group;
     round_failures := round_failures acc ++ omap (λ x, failure_text now x.1 x.2) group;
     round_hard_failure := round_hard_failure acc || existsb (λ x, is_hard x.2) group |}.
(** As [acquire_ranks]: rank after rank until one fails; the number of requests is enough fuel. *)
Fixpoint attempt_ranks (fuel : nat) (now : N) (info : LockInfo) (acc : Round) (sorted : list LockRequest) : F Round :=
  match fuel, sorted with
  | S fuel, first :: _ =>
      if bool_decide (round_failures acc = []) then
        let group := span (same_rank first) sorted in
        attempts ← execute_each (λ request, acquire_lock (path_of request) info) group.1;
        attempt_ranks fuel now info (note_group now acc attempts) group.2
      else mret acc
  | _, _ => mret acc
  end.

(** [force]: every lock is removed; the first failure is the error. *)
Definition remove_all (sorted : list LockRequest) : F () :=
  results ← execute_each (λ request, force_remove_lock (path_of request)) sorted;
  of_f (try_fold (λ _ x, x.2) () results).

Definition lock_lines (l : list string) : string := String.concat (nl +:+ "  ") l.
(** What is reported when the acquisition ends without the locks. *)
Definition turn_error (failures rollback_errors : list string) : string :=
  "Could not acquire every lock this operation needs:" +:+ nl +:+ "  " +:+ lock_lines failures
  +:+ (if bool_decide (rollback_errors = []) then ""
       else nl +:+ "Could not roll back partial locks:" +:+ nl +:+ "  " +:+ lock_lines rollback_errors)
  +:+ nl +:+ "Check `jiji lock status`, and once it is safe, run `jiji lock release`.".
(** One turn of the loop: the locks, or whether to go on. *)
Definition acquire_turn (timeout : N) (force : bool) (info : LockInfo) (lock_id : string) (sorted : list LockRequest) (turn : nat) :
    F (option (list LockRequest)) :=
  _ ← (if force then remove_all sorted else mret ());
  round ← attempt_ranks (length sorted) (unix_seconds turn) info Round_empty sorted;
  if bool_decide (round_failures round = []) then mret (Some (round_acquired round))
  else
    '(_, rollback_errors) ← release_requests lock_id (round_acquired round);
    if round_hard_failure round || negb (bool_decide (rollback_errors = []))
       || (instant 0 + timeout * SECOND <=? instant (S turn))
    then stops (turn_error (round_failures round) rollback_errors)
    else mret None.

(** The loop; it waits two seconds between two turns.  [fuel] bounds the number of turns. *)
Fixpoint acquire_loop (fuel : nat) (timeout : N) (force : bool) (info : LockInfo) (lock_id : string) (sorted : list LockRequest)
    (turn : nat) : F (list LockRequest) :=
  match fuel with
  | O => λ fl, (Exhausted, fl)
  | S fuel =>
      acquired ← acquire_turn timeout force info lock_id sorted turn;
      match acquired with
      | Some acquired => mret acquired
      | None => acquire_loop fuel timeout force info lock_id sorted (S turn)
      end
  end.

(** Enough turns for [timeout]: one every two seconds, and one to find that it is over. *)
Definition enough_turns (timeout : N) : nat := N.to_nat (timeout / 2) + 2.

Definition acquire_locks (locks : list LockRequest) (info : LockInfo) (timeout : N) (force : bool) : F OwnedDeploymentLocks :=
  lock_id ← panics (match info_lock_id info with Some lock_id => Returned lock_id | None => Panicked end);
  acquired ← acquire_loop (enough_turns timeout) timeout force info lock_id (sort_requests locks project) 0;
  mret {| owned_project := project; owned_lock_id := lock_id; owned_acquired := acquired |}.

Definition release_locks (owned : OwnedDeploymentLocks) : F () :=
  '(_, errors) ← release_requests (owned_lock_id owned) (owned_acquired owned);
  if bool_decide (errors = []) then mret ()
  else stops ("Could not release lock(s) on server(s): " +:+ String.concat ", " errors
              +:+ ". Run `jiji lock release` after verifying no operation is active.").

Definition with_locks (locks : list LockRequest) (info : LockInfo) (timeout : N) (force : bool) (operation : F ()) : F () :=
  owned ← acquire_locks locks info timeout force;
  operation_result ← attempts operation;
  release_result ← attempts (release_locks owned);
  match operation_result, release_result with
  | Ok _, Ok _ => mret ()
  | Err error, Ok _ => stops error
  | Ok _, Err release_error => stops release_error
  | Err _, Err release_error => stops ("Additionally, " +:+ release_error)
  end.
End with_project.
End locks.
