(* ===== verification/LockLaws.v ===== *)
(** Properties of the deployment locks of a command: acquisition is all or nothing and ends, and an
    operation under locks is between their acquisition and their release. *)

From S2P Require Import Prelude Text Bytes Substring Cidr Naming Schema Planner ServiceRuntime.
From S2P Require Import Membership Catalog Desired OpLog Leases Cron CronExec Replication Store Api CandidatePlan EnvResolution.
From S2P Require Import Locks Session ProxyRoutes SessionLaws ProxyScript HostProxy AuditTrail Teardown TeardownLaws Cascade Fleet FleetLaws.
From S2P Require Import FleetLogs LockSession.
Open Scope N_scope.

(** ** The commands are told apart *)

Lemma after_last {A} (c : A) l1 l2 l1' l2' : c ∉ l2 → c ∉ l2' → l1 ++ c :: l2 = l1' ++ c :: l2' → l2 = l2'.
Proof.
  intros H2 H2' He. apply app_eq_inv in He as [(k & -> & Hk)|(k & -> & Hk)]; destruct k as [|x k].
  1,3: by injection Hk.
  all: injection Hk as -> ->; exfalso; first [by apply H2; rewrite elem_of_app, elem_of_cons; auto|by apply H2'; rewrite elem_of_app, elem_of_cons; auto].
Qed.

(** A path on one line. *)
Definition one_line (path : string) : Prop := newline ∉ bytes path.

Lemma concat_app_cons sep (l : list string) s k :
  l ≠ [] → String.concat sep (l ++ s :: k) = String.concat sep l +:+ (sep +:+ String.concat sep (s :: k)).
Proof.
  intros Hl. induction l as [|x l IH]; [done|]. destruct l as [|y l]; [done|].
  change (String.concat sep ((x :: y :: l) ++ s :: k)) with (x +:+ (sep +:+ String.concat sep ((y :: l) ++ s :: k))).
  rewrite IH by done. change (String.concat sep (x :: y :: l)) with (x +:+ (sep +:+ String.concat sep (y :: l))).
  by rewrite !append_assoc.
Qed.

Lemma rmdir_one_line p : one_line p → newline ∉ bytes ("rmdir " +:+ p).
Proof.
  intros Hp. rewrite bytes_app, elem_of_app. intros [Hin|Hin]; [|done]. revert Hin.
  by apply (bool_decide_eq_true_1 (newline ∉ bytes "rmdir ")).
Qed.

Lemma acquire_command_inj p q lock_id : one_line p → one_line q → acquire_command p lock_id = acquire_command q lock_id → p = q.
Proof.
  intros Hp Hq He. set (rest := nl +:+ ("echo JIJI_LOCK_HELD" +:+ (nl +:+ "fi"))).
  set (suffix := "." +:+ (lock_id +:+ ".pending")).
  assert (∀ p, ∃ head, acquire_command p lock_id = head +:+ (String newline ("rmdir " +:+ p) +:+ (suffix +:+ rest))) as Hform.
  { clear. intros p. unfold acquire_command.
    eexists (String.concat nl [_; _; _; _; _; _]). 
    change [?a; ?b; ?c; ?d; ?e; ?f; ?g; ?h; ?i] with ([a; b; c; d; e; f] ++ g :: [h; i]).
    rewrite concat_app_cons by done. f_equal. 
    change (String newline (("rmdir " +:+ (p +:+ suffix)) +:+ rest) = String newline (("rmdir " +:+ p) +:+ (suffix +:+ rest))).
    f_equal. by rewrite !append_assoc. }
  destruct (Hform p) as [hp Hp'], (Hform q) as [hq Hq']. rewrite Hp', Hq' in He. apply (f_equal bytes) in He.
  rewrite !bytes_app, !(assoc_L (++)) in He. do 2 apply app_inv_tail in He.
  change (bytes (String newline ?s)) with (newline :: bytes s) in He. apply after_last in He.
  - rewrite !bytes_app in He. by apply app_inv_head, bytes_inj in He.
  - by apply rmdir_one_line.
  - by apply rmdir_one_line.
Qed.

Lemma release_command_inj p q expected : one_line p → one_line q → release_command p expected = release_command q expected → p = q.
Proof.
  intros Hp Hq He.
  assert (∀ p, ∃ head, release_command p expected = head +:+ String newline ("rmdir " +:+ p)) as Hform.
  { clear. intros p. unfold release_command. eexists (String.concat nl [_; _; _; _; _]).
    change [?a; ?b; ?c; ?d; ?e; ?f] with ([a; b; c; d; e] ++ f :: []). by rewrite concat_app_cons. }
  destruct (Hform p) as [hp Hp'], (Hform q) as [hq Hq']. rewrite Hp', Hq' in He. apply (f_equal bytes) in He.
  rewrite !bytes_app in He. change (bytes (String newline ?s)) with (newline :: bytes s) in He. apply after_last in He.
  - rewrite !bytes_app in He. by apply app_inv_head, bytes_inj in He.
  - by apply rmdir_one_line.
  - by apply rmdir_one_line.
Qed.

(** ** What the answers say of a lock *)

(** A lock of this invocation, by the answers to its commands: it is not this invocation's (it was
    never claimed, another holds it, or a release was answered), it is this invocation's (a claim
    was answered with success), or the last claim or release failed or lost its answer. *)
Inductive LockState := NotOurs | Ours | Doubtful.

(** A release that was answered: the lock is removed, another's, or was gone already. *)
Definition release_answered (o : result string CommandResult) : bool :=
  match o with
  | Ok r => bool_decide (code r = Some 76) || bool_decide (code r = Some 75) || success r
  | Err _ => false
  end.

Section laws.
Context `{Host, LockJson, LocalTime}.
Context (sessions : gset string) (project : string) (info : LockInfo) (lock_id expected : string).
Context (info_id : info_lock_id info = Some lock_id) (lock_text : json_text lock_id = Ok expected).

Definition lock_event (path : string) (ev : Event) : option LockState :=
  match ev with
  | Executed c _ o =>
      if bool_decide (c = release_command path expected) then Some (if release_answered o then NotOurs else Doubtful)
      else if bool_decide (c = acquire_command path lock_id) then
        match o with
        | Ok r => if is_held r then None else Some (if success r then Ours else Doubtful)
        | Err _ => Some Doubtful
        end
      else None
  | _ => None
  end.
(** The last event, which comes first, counts. *)
Fixpoint lock_state (path : string) (l : list Event) : LockState :=
  match l with [] => NotOurs | ev :: l => default (lock_state path l) (lock_event path ev) end.

Definition indifferent (path : string) (l : list Event) : Prop := Forall (λ ev, lock_event path ev = None) l.
Lemma state_indifferent path l l' : indifferent path l' → lock_state path (l' ++ l) = lock_state path l.
Proof. induction 1 as [|ev l' He Hf IH]; [done|]. simpl. by rewrite He. Qed.

Lemma acquire_not_release p q : acquire_command p lock_id ≠ release_command q expected.
Proof. discriminate. Qed.
Lemma read_not_lock p q : read_lock_command p ≠ release_command q expected ∧ read_lock_command p ≠ acquire_command q lock_id.
Proof. split; discriminate. Qed.
Lemma recover_not_lock p q : recover_command p ≠ release_command q expected ∧ recover_command p ≠ acquire_command q lock_id.
Proof. split; discriminate. Qed.
Lemma force_not_lock p q : force_command p ≠ release_command q expected ∧ force_command p ≠ acquire_command q lock_id.
Proof. split; discriminate. Qed.
#[local] Opaque acquire_command release_command read_lock_command recover_command force_command.
Lemma other_command path c i o : c ≠ release_command path expected → c ≠ acquire_command path lock_id → indifferent path [Executed c i o].
Proof. intros Hr Ha. apply Forall_singleton. simpl. by rewrite !bool_decide_false. Qed.

(** What trying to acquire the lock at [p] logs: with an error, the lock is in doubt or as it was. *)
Definition acquire_logged (p : string) (r : result string AcquireResult) (l : list Event) : Prop :=
  (∀ q, one_line q → q ≠ p → indifferent q l) ∧
  match r with
  | Ok Acquired => ∀ l0, lock_state p (l ++ l0) = Ours
  | Ok (Held _) => indifferent p l
  | Err _ => indifferent p l ∨ ∀ l0, lock_state p (l ++ l0) = Doubtful
  end.

Lemma claim_elsewhere p q i o : one_line p → one_line q → q ≠ p → indifferent q [Executed (acquire_command p lock_id) i o].
Proof. intros Hp Hq Hne. apply other_command; [apply acquire_not_release|]. intros He. apply Hne. symmetry. by apply (acquire_command_inj p q lock_id). Qed.
Lemma claim_event p i o :
  lock_event p (Executed (acquire_command p lock_id) i o) =
    match o with Ok r => if is_held r then None else Some (if success r then Ours else Doubtful) | Err _ => Some Doubtful end.
Proof. simpl. by rewrite bool_decide_false, bool_decide_true by (done || apply acquire_not_release). Qed.
Lemma read_indifferent p q i o : indifferent q [Executed (read_lock_command p) i o].
Proof. destruct (read_not_lock p q). by apply other_command. Qed.
Lemma recover_indifferent p q i o : indifferent q [Executed (recover_command p) i o].
Proof. destruct (recover_not_lock p q). by apply other_command. Qed.
Lemma indifferent_app q l l' : indifferent q l → indifferent q l' → indifferent q (l ++ l').
Proof. intros. by apply Forall_app. Qed.

(** One claim, with what comes of its answer. *)
Lemma claim_logs p content {B} (f : CommandResult → M B) (R : result string B → list Event → Prop) :
  (∀ e, R (Err e) [Executed (acquire_command p lock_id) content (Err e)]) →
  (∀ r, logs (λ b l, R b (l ++ [Executed (acquire_command p lock_id) content (Ok r)])) (f r)) →
  logs R (r ← execute_with_input (acquire_command p lock_id) content; f r).
Proof.
  intros He Hf. eapply logs_bind; [apply logs_execute|exact Hf| |].
  - by intros e l ->.
  - by intros r b l1 l2 ->.
Qed.
Lemma lost_claim p content e : one_line p → acquire_logged p (Err e) [Executed (acquire_command p lock_id) content (Err e)].
Proof. intros Hp. split; [intros; by apply claim_elsewhere|]. right. intros l0. cbn [app lock_state]. by rewrite claim_event. Qed.

Lemma acquired_or_fail_logs p r content :
  one_line p → is_held r = false →
  logs (λ b l, acquire_logged p b (l ++ [Executed (acquire_command p lock_id) content (Ok r)])) (acquired_or_fail p r).
Proof.
  intros Hp Hr. unfold acquired_or_fail. destruct (success r) eqn:Hs; [apply logs_ret|apply logs_fail]; (split; [intros q Hq Hne; by apply claim_elsewhere|]).
  - intros l0. cbn [app lock_state]. by rewrite claim_event, Hr, Hs.
  - right. intros l0. cbn [app lock_state]. by rewrite claim_event, Hr, Hs.
Qed.

(** Nothing is claimed or released. *)
Definition calm (l : list Event) : Prop := ∀ q, one_line q → indifferent q l.
Lemma calm_app l l' : calm l → calm l' → calm (l ++ l').
Proof. intros Hl Hl' q Hq. by apply indifferent_app; [apply Hl|apply Hl']. Qed.
Lemma read_logs p : logs (λ _, calm) (read_lock_file p).
Proof.
  eapply logs_bind; [apply logs_execute|intros r; apply (logs_ret (λ _ l, l = [])); done|..].
  - intros e l -> q _. apply read_indifferent.
  - intros a r l1 l2 -> -> q _. apply read_indifferent.
Qed.
Lemma recover_logs p : logs (λ _, calm) (recover_incomplete_lock p).
Proof.
  eapply logs_bind; [apply logs_execute|intros r; instantiate (1 := λ _ _ l, l = []); case_match; [by apply logs_ret|by apply logs_fail]|..].
  - intros e l -> q _. apply recover_indifferent.
  - intros a r l1 l2 -> -> q _. apply recover_indifferent.
Qed.
Lemma acquire_logged_later p b l l' : one_line p → acquire_logged p b l → calm l' → acquire_logged p b (l ++ l').
Proof.
  intros Hp [Hq Hb] Hc. split; [intros q Hl Hne; apply indifferent_app; [by apply Hq|by apply Hc]|].
  destruct b as [[|holder]|e]; [|by apply indifferent_app; [|apply Hc]|].
  - intros l0. rewrite <-(assoc_L (++)). apply Hb.
  - destruct Hb as [Hb|Hb]; [left; by apply indifferent_app; [|apply Hc]|right; intros l0; rewrite <-(assoc_L (++)); apply Hb].
Qed.
Lemma calm_refused p (b : result string AcquireResult) l : one_line p → calm l → b ≠ Ok Acquired → acquire_logged p b l.
Proof.
  intros Hp Hc Hb. split; [intros q Hq _; by apply Hc|]. destruct b as [[|holder]|e]; [done|by apply Hc|left; by apply Hc].
Qed.

Lemma acquire_logs p : one_line p → logs (acquire_logged p) (acquire_lock p info).
Proof.
  intros Hp. unfold acquire_lock. rewrite info_id.
  destruct (info_to_json info) as [content|e]; [|by apply logs_fail; split; [intros|left]; constructor].
  change (of_result (Ok content) ≫= ?f) with (f content). cbv beta. change (of_outcome (Returned lock_id) ≫= ?f) with (f lock_id). cbv beta zeta.
  apply claim_logs. { intros e. by apply lost_claim. }
  intros r. destruct (is_held r) eqn:Hh; [|by apply acquired_or_fail_logs].
  assert (∀ r, is_held r = true → calm [Executed (acquire_command p lock_id) content (Ok r)]) as Hheld.
  { intros s Hs q Hq. destruct (decide (q = p)) as [->|]; [|by apply claim_elsewhere]. apply Forall_singleton. by rewrite claim_event, Hs. }
  eapply logs_bind; [apply read_logs| | |].
  2: { intros e l Hl. apply calm_refused; [done|by apply calm_app; [|apply Hheld]|done]. }
  2: { intros a b l1 l2 Hl1 Hl2. rewrite <-(assoc_L (++)). instantiate (1 := λ _ b l, acquire_logged p b l) in Hl2. simpl in Hl2.
       apply acquire_logged_later; [done..|]. by apply calm_app; [|apply Hheld]. }
  intros [holder|]; [apply logs_ret, calm_refused; [done|intros q _; constructor|done]|].
  eapply logs_bind; [apply recover_logs| | |].
  2: { intros e l Hl. by apply calm_refused. }
  2: { intros a b l1 l2 Hl1 Hl2. instantiate (1 := λ _ b l, acquire_logged p b l) in Hl2. simpl in Hl2. by apply acquire_logged_later. }
  intros u. apply claim_logs. { intros e. by apply lost_claim. }
  intros s. destruct (is_held s) eqn:Hs; [|by apply acquired_or_fail_logs].
  eapply logs_bind; [apply read_logs|intros holder; apply (logs_ret (λ b l, b ≠ Ok Acquired ∧ l = [])); done| |].
  - intros e l Hl. apply calm_refused; [done|by apply calm_app; [|apply Hheld]|done].
  - intros a b l1 l2 Hl1 [Hb ->]. apply calm_refused; [done|by apply calm_app; [|apply Hheld]|done].
Qed.

(** Releasing the lock at [p], and removing one by force. *)
Definition release_logged (p : string) (r : result string ReleaseOwnedResult) (l : list Event) : Prop :=
  ∃ o, l = [Executed (release_command p expected) "" o] ∧ match r with Ok _ => release_answered o = true | Err _ => True end.
Lemma release_logs p : logs (release_logged p) (release_owned_lock p lock_id).
Proof.
  unfold release_owned_lock. rewrite lock_text. change (of_result (Ok expected) ≫= ?f) with (f expected). cbv beta.
  eapply logs_bind; [apply logs_execute|intros r; instantiate (1 := λ r b l, l = [] ∧ match b with Ok _ => release_answered (Ok r) = true | Err _ => True end)| |].
  - unfold release_answered. case_bool_decide; [by apply logs_ret|]. case_bool_decide; [by apply logs_ret|].
    destruct (success r); [by apply logs_ret|by apply logs_fail].
  - intros e l ->. by eexists.
  - intros a r l1 l2 -> [-> Hr]. by eexists.
Qed.
Lemma force_logs p : logs (λ _, calm) (force_remove_lock p).
Proof.
  unfold force_remove_lock. eapply logs_bind; [apply logs_execute|intros r; instantiate (1 := λ _ _ l, l = [])| |].
  - case_match; [by apply logs_ret|by apply logs_fail].
  - intros e l -> q _. destruct (force_not_lock p q). by apply other_command.
  - intros a r l1 l2 -> -> q _. destruct (force_not_lock p q). by apply other_command.
Qed.

(** *** The locks of a fleet *)

Context (fl0 : gmap string World).
Abbreviation path_of := (path_of project).

(** The lock of a request, and a lock that one of some messages names. *)
Definition is_lock (n p : string) (r : LockRequest) : Prop := req_host r = n ∧ path_of r = p.
Definition named (texts : list string) (n p : string) : Prop := ∃ r what, is_lock n p r ∧ release_text r what ∈ texts.
Lemma named_more texts texts' n p : texts ⊆ texts' → named texts n p → named texts' n p.
Proof. intros Ht (r & what & Hr & Hin). exists r, what. auto. Qed.

(** At most the locks of [acc] are claimed, and [texts] names those in doubt. *)
Definition at_most (acc : list LockRequest) (texts : list string) (n : string) (l : list Event) : Prop :=
  ∀ p, one_line p → match lock_state p l with
                    | NotOurs => True
                    | Ours => ∃ r, r ∈ acc ∧ is_lock n p r
                    | Doubtful => named texts n p
                    end.
(** None of the locks of [acc] is free. *)
Definition at_least (acc : list LockRequest) (n : string) (l : list Event) : Prop :=
  ∀ r p, one_line p → r ∈ acc → is_lock n p r → lock_state p l ≠ NotOurs.
Definition holding (acc : list LockRequest) (texts : list string) (n : string) (l : list Event) : Prop :=
  at_most acc texts n l ∧ at_least acc n l.

Lemma at_most_more acc acc' texts texts' n l : acc ⊆ acc' → texts ⊆ texts' → at_most acc texts n l → at_most acc' texts' n l.
Proof.
  intros Ha Ht Hm p Hp. specialize (Hm p Hp). destruct (lock_state p l); [done| |by eapply named_more].
  destruct Hm as (r & Hr & ?). exists r. auto.
Qed.
Lemma at_most_calm acc texts n l l' : calm l' → at_most acc texts n l → at_most acc texts n (l' ++ l).
Proof. intros Hc Hm p Hp. rewrite state_indifferent by (by apply Hc). by apply Hm. Qed.

(** What an attempt to acquire the lock of [r] adds. *)
Definition doubt (r : LockRequest) (a : Attempt) : list string := match a with Err e => [release_text r e] | Ok _ => [] end.
Definition gain (r : LockRequest) (a : Attempt) : list LockRequest := if is_acquired a then [r] else [].

Lemma acquire_adds acc texts r a l l0 :
  one_line (path_of r) → acquire_logged (path_of r) a l → holding acc texts (req_host r) l0 →
  holding (acc ++ gain r a) (texts ++ doubt r a) (req_host r) (l ++ l0).
Proof.
  intros Hp [Hq Ha] [Hm Hl].
  assert (∀ q, one_line q → q ≠ path_of r ∨ indifferent q l → lock_state q (l ++ l0) = lock_state q l0) as Hsame.
  { intros q Hlq [Hne|Hi]; apply state_indifferent; [by apply Hq|done]. }
  assert (∀ q, one_line q → q = path_of r → lock_state q (l ++ l0) = lock_state q l0 ∧ gain r a = [] ∨
     lock_state q (l ++ l0) = Ours ∧ gain r a = [r] ∨ lock_state q (l ++ l0) = Doubtful ∧ ∃ e, a = Err e) as Hself.
  { intros q Hlq ->. destruct a as [[|h]|e]; simpl in *; [right; left; by split|left; by rewrite Hsame by auto|].
    destruct Ha as [Ha|Ha]; [left; by rewrite Hsame by auto|right; right; eauto]. }
  split.
  - intros q Hlq. specialize (Hm q Hlq).
    assert (lock_state q (l ++ l0) = lock_state q l0 →
      match lock_state q (l ++ l0) with NotOurs => True | Ours => ∃ r', r' ∈ acc ++ gain r a ∧ is_lock (req_host r) q r'
      | Doubtful => named (texts ++ doubt r a) (req_host r) q end) as Hkeep.
    { intros ->. destruct (lock_state q l0); [done| |eapply named_more, Hm; set_solver].
      destruct Hm as (r' & Hr' & ?). exists r'. rewrite elem_of_app. auto. }
    destruct (decide (q = path_of r)) as [He|Hne]; [|by apply Hkeep, Hsame; auto].
    destruct (Hself q Hlq He) as [[Hs _]|[[Hs Hg]|[Hs [e ->]]]]; [by apply Hkeep|..]; rewrite Hs.
    + exists r. rewrite Hg. split; [set_solver|by split].
    + exists r, e. split; [by split|]. simpl. set_solver.
  - intros r' q Hlq Hr' Hlock. destruct (decide (q = path_of r)) as [He|Hne].
    + destruct (Hself q Hlq He) as [[Hs Hg]|[[Hs Hg]|[Hs _]]]; rewrite Hs; [|done..].
      rewrite Hg, app_nil_r in Hr'. by apply (Hl r').
    + rewrite Hsame by auto. apply (Hl r'); [done| |done]. apply elem_of_app in Hr' as [?|Hr']; [done|].
      unfold gain in Hr'. destruct (is_acquired a); [|by apply elem_of_nil in Hr'].
      apply list_elem_of_singleton in Hr' as ->. by destruct Hlock.
Qed.
Lemma holding_elsewhere acc texts r a n l : n ≠ req_host r → holding acc texts n l → holding (acc ++ gain r a) (texts ++ doubt r a) n l.
Proof.
  intros Hn [Hm Hl]. split; [eapply at_most_more, Hm; set_solver|]. intros r' q Hlq Hr' [Hh Hq].
  apply (Hl r'); [done| |done]. apply elem_of_app in Hr' as [?|Hr']; [done|]. unfold gain in Hr'.
  destruct (is_acquired a); [|by apply elem_of_nil in Hr']. apply list_elem_of_singleton in Hr' as ->. by rewrite Hh in Hn.
Qed.
Lemma acquire_one acc texts r :
  one_line (path_of r) →
  holds (Since fl0 (holding acc texts)) (on (req_host r) (acquire_lock (path_of r) info))
    (λ a, Since fl0 (holding (acc ++ gain r a) (texts ++ doubt r a))) (λ _, False).
Proof.
  intros Hp. eapply holds_conseq; [apply (holds_on_logs fl0 (holding acc texts) (req_host r) _ _ (acquire_logs _ Hp))|auto| |auto].
  intros a fl. apply Since_impl. intros k l. case_bool_decide as Hk; [|by apply holding_elsewhere].
  intros (l' & l0 & -> & Hh & Ha). subst k. by apply acquire_adds.
Qed.

Definition taken (rs : list (LockRequest * Attempt)) : list LockRequest := omap (λ x, if is_acquired x.2 then Some x.1 else None) rs.
Definition doubts (rs : list (LockRequest * Attempt)) : list string := rs ≫= λ x, doubt x.1 x.2.
Lemma acquire_each acc texts group :
  Forall (λ r, one_line (path_of r)) group →
  holds (Since fl0 (holding acc texts)) (run_each (λ request, acquire_lock (path_of request) info) group)
    (λ rs fl, rs.*1 = group ∧ Since fl0 (holding (acc ++ taken rs) (texts ++ doubts rs)) fl) (λ _, False).
Proof.
  intros Hg. revert acc texts. induction Hg as [|r group Hr Hg IH]; intros acc texts; simpl.
  - apply holds_ret. intros fl Hfl. unfold doubts. simpl. by rewrite !app_nil_r.
  - eapply holds_bind; [by apply acquire_one|]. intros a. eapply holds_bind; [apply IH|]. intros rs. apply holds_ret.
    intros fl [Hrs Hs]. split; [by rewrite <-Hrs|]. revert Hs. rewrite <-!(assoc_L (++)). unfold taken, doubts, gain. simpl. by destruct (is_acquired a).
Qed.

Lemma all_taken now (rs : list (LockRequest * Attempt)) : omap (λ x, failure_text now x.1 x.2) rs = [] → taken rs = rs.*1.
Proof.
  unfold taken. induction rs as [|[r [[|h]|e]] rs IH]; simpl; [done| |by destruct h|done]. intros Hf. f_equal. by apply IH.
Qed.
Lemma taken_sub rs : taken rs ⊆ rs.*1.
Proof.
  unfold taken. intros r (x & Hx & Hr)%list_elem_of_omap. apply list_elem_of_fmap. exists x. destruct (is_acquired x.2); [by injection Hr|done].
Qed.
(** A lock in doubt is among the failures of the round, and the failure is a hard one. *)
Lemma doubts_fail now rs : doubts rs ⊆ omap (λ x, failure_text now x.1 x.2) rs.
Proof.
  intros text ([r [a|e]] & Ht & Hx)%list_elem_of_bind; simpl in Ht; [by apply elem_of_nil in Ht|].
  apply list_elem_of_singleton in Ht as ->. apply list_elem_of_omap. exists (r, Err e). split; [done|]. unfold failure_text, release_text. simpl.
  by rewrite !append_assoc.
Qed.
Lemma doubts_hard rs : existsb (λ x, is_hard x.2) rs = false → doubts rs = [].
Proof.
  induction rs as [|[r [a|e]] rs IH]; [done| |done]. simpl. by apply IH.
Qed.

Lemma attempt_ranks_holds fuel now acc texts sorted :
  Forall (λ r, one_line (path_of r)) sorted → (length sorted ≤ fuel)%nat →
  texts ⊆ round_failures acc → (round_hard_failure acc = false → texts = []) → Forall (λ r, one_line (path_of r)) (round_acquired acc) →
  holds (Since fl0 (holding (round_acquired acc) texts)) (attempt_ranks sessions project fuel now info acc sorted)
    (λ round fl, (∃ texts, Since fl0 (holding (round_acquired round) texts) fl ∧ texts ⊆ round_failures round ∧
                    (round_hard_failure round = false → texts = [])) ∧
       (∃ more, round_failures round = round_failures acc ++ more) ∧
       (round_failures round = [] → round_acquired round = round_acquired acc ++ sorted) ∧
       Forall (λ r, one_line (path_of r)) (round_acquired round)) (λ _, False).
Proof.
  revert acc texts sorted. induction fuel as [|fuel IH]; intros acc texts sorted Hs Hf Ht Hh Hl; simpl.
  { destruct sorted; simpl in Hf; [|lia]. apply holds_ret. intros fl Hfl. rewrite app_nil_r. split_and!; [by exists texts|by exists []; rewrite app_nil_r|done..]. }
  destruct sorted as [|first sorted].
  { apply holds_ret. intros fl Hfl. rewrite app_nil_r. split_and!; [by exists texts|by exists []; rewrite app_nil_r|done..]. }
  case_bool_decide as Hn; [|apply holds_ret; intros fl Hfl; split_and!; [by exists texts|by exists []; rewrite app_nil_r|done..]].
  set (group := span (same_rank first) (first :: sorted)).
  assert (group.1 ++ group.2 = first :: sorted) as Hgroup by apply span_app.
  assert (length group.2 ≤ fuel)%nat as Hlen.
  { pose proof (span_length (same_rank first) first sorted (N.eqb_refl _)) as Hle. simpl in Hf. unfold group. lia. }
  rewrite <-Hgroup in Hs. apply Forall_app in Hs as [Hs1 Hs2]. unfold execute_each. destruct (forallb _ group.1); [|by intros fl _].
  eapply holds_bind; [by apply acquire_each|]. intros rs fl [Hrs Hfl].
  assert (texts ++ doubts rs ⊆ round_failures (note_group now acc rs)) as Ht'.
  { simpl. pose proof (doubts_fail now rs). set_solver. }
  assert (round_hard_failure (note_group now acc rs) = false → texts ++ doubts rs = []) as Hh'.
  { simpl. intros [Hha Hhr]%orb_false_iff. by rewrite Hh, doubts_hard. }
  assert (Forall (λ r, one_line (path_of r)) (round_acquired (note_group now acc rs))) as Hl'.
  { simpl. apply Forall_app. split; [done|]. apply Forall_forall. intros r Hr%taken_sub. eapply Forall_forall in Hs1; [exact Hs1|]. rewrite <-Hrs. exact Hr. }
  specialize (IH (note_group now acc rs) (texts ++ doubts rs) group.2 Hs2 Hlen Ht' Hh' Hl' fl Hfl).
  destruct (attempt_ranks _ _ _ _ _ _ _ fl) as [[round| | |] fl']; try done. destruct IH as (Hdoubt & [more Hmore] & Ha & Hround).
  simpl in Hmore. split_and!; [done|eexists; by rewrite Hmore, <-(assoc_L (++))| |done].
  intros Hr. rewrite (Ha Hr). rewrite Hr in Hmore. symmetry in Hmore. apply app_nil in Hmore as [[_ Hmore]%app_nil _].
  assert (taken rs = group.1) as Htaken by (by rewrite (all_taken now)).
  change (round_acquired (note_group now acc rs)) with (round_acquired acc ++ taken rs). by rewrite Htaken, <-(assoc_L (++)), Hgroup.
Qed.

(** *** Releasing *)

Definition unreleased (r : LockRequest) (a : result string ReleaseOwnedResult) : list string :=
  match a with Ok _ => [] | Err e => [release_text r e] end.
Lemma release_one r rest texts :
  one_line (path_of r) →
  holds (Since fl0 (at_most (r :: rest) texts)) (on (req_host r) (release_owned_lock (path_of r) lock_id))
    (λ a, Since fl0 (at_most rest (texts ++ unreleased r a))) (λ _, False).
Proof.
  intros Hp. eapply holds_conseq; [apply (holds_on_logs fl0 (at_most (r :: rest) texts) (req_host r) _ _ (release_logs _))|auto| |auto].
  intros a fl. apply Since_impl. intros k l.
  assert (∀ q l0, ¬ is_lock k q r → one_line q → at_most (r :: rest) texts k l0 →
    match lock_state q l0 with NotOurs => True | Ours => ∃ r', r' ∈ rest ∧ is_lock k q r'
    | Doubtful => named (texts ++ unreleased r a) k q end) as Hother.
  { intros q l0 Hne Hq Hm. specialize (Hm q Hq). destruct (lock_state q l0); [done| |eapply named_more, Hm; set_solver].
    destruct Hm as (r' & [->|Hr']%elem_of_cons & Hlock); [done|eauto]. }
  case_bool_decide as Hk; [|intros Hm q Hq; apply Hother; [by intros [He _]|done..]].
  intros (l' & l0 & -> & Hm & o & -> & Ho) q Hq. simpl. subst k. case_bool_decide as Hc; simpl.
  - apply release_command_inj in Hc as <-; [|done..]. destruct (release_answered o) eqn:Hro; [done|].
    destruct a as [u|e]; [simpl in Ho; congruence|]. exists r, e. split; [done|]. simpl. set_solver.
  - rewrite bool_decide_false by (intros He; symmetry in He; by apply acquire_not_release in He). simpl.
    apply Hother; [|done..]. intros [_ <-]. done.
Qed.
Lemma release_each acc texts :
  Forall (λ r, one_line (path_of r)) acc →
  holds (Since fl0 (at_most acc texts)) (run_each (λ request, release_owned_lock (path_of request) lock_id) acc)
    (λ rs, Since fl0 (at_most [] (texts ++ omap release_error rs))) (λ _, False).
Proof.
  intros Hacc. revert texts. induction Hacc as [|r acc Hr Hacc IH]; intros texts; simpl; [by apply holds_ret; intros fl; rewrite app_nil_r|].
  eapply holds_bind; [by apply release_one|]. intros a.
  eapply holds_bind; [apply IH|]. intros rs. apply holds_ret. intros fl. rewrite <-(assoc_L (++)). by destruct a.
Qed.
Lemma release_requests_holds acc texts :
  Forall (λ r, one_line (path_of r)) acc →
  holds (Since fl0 (at_most acc texts)) (release_requests sessions project lock_id acc) (λ res, Since fl0 (at_most [] (texts ++ res.2))) (λ _, False).
Proof.
  intros Hacc. unfold release_requests, execute_each. destruct (forallb _ acc); [|by intros fl _].
  eapply holds_bind; [by apply release_each|]. intros rs. by apply holds_ret.
Qed.

(** *** Acquiring *)

(** No lock is claimed; one that is in doubt is named in the error. *)
Definition reported (e n p : string) : Prop := ∃ r what, is_lock n p r ∧ occurs (bytes (release_text r what)) (bytes e).
Definition given_up (e : string) (n : string) (l : list Event) : Prop :=
  ∀ p, one_line p → lock_state p l = NotOurs ∨ lock_state p l = Doubtful ∧ reported e n p.
Definition nothing_held (n : string) (l : list Event) : Prop := ∀ p, one_line p → lock_state p l = NotOurs.

Lemma nothing_given_up e n l : nothing_held n l → given_up e n l.
Proof. intros Hn p Hp. left. by apply Hn. Qed.
Lemma at_most_nothing n l : at_most [] [] n l ↔ nothing_held n l.
Proof.
  split; intros Hm p Hp; specialize (Hm p Hp); [|by rewrite Hm].
  destruct (lock_state p l); [done|destruct Hm as (r & Hr & _)|destruct Hm as (r & what & _ & Hr)]; by apply elem_of_nil in Hr.
Qed.
Lemma at_most_given_up texts e n l : (∀ text, text ∈ texts → occurs (bytes text) (bytes e)) → at_most [] texts n l → given_up e n l.
Proof.
  intros He Hm p Hp. specialize (Hm p Hp). destruct (lock_state p l); [by left|destruct Hm as (r & Hr & _); by apply elem_of_nil in Hr|].
  right. split; [done|]. destruct Hm as (r & what & Hr & Ht). exists r, what. auto.
Qed.

Lemma occurs_concat sep text texts : text ∈ texts → occurs (bytes text) (bytes (String.concat sep texts)).
Proof.
  induction texts as [|t texts IH]; [by intros ?%elem_of_nil|]. intros Hin.
  assert (occurs (bytes text) (bytes t) ∨ text ∈ texts) as Ho.
  { apply elem_of_cons in Hin as [->|?]; [left; exists [], []; by rewrite app_nil_r|by right]. }
  destruct texts as [|u texts]; [destruct Ho as [Ho|?%elem_of_nil]; done|].
  change (String.concat sep (t :: u :: texts)) with (t +:+ (sep +:+ String.concat sep (u :: texts))). rewrite !bytes_app.
  destruct Ho as [Ho|Ho]; [by apply occurs_app_l|by apply occurs_app_r, occurs_app_r, IH].
Qed.

Lemma remove_each requests :
  holds (Since fl0 (at_most [] [])) (run_each (λ request, force_remove_lock (path_of request)) requests)
    (λ _, Since fl0 (at_most [] [])) (λ _, False).
Proof.
  induction requests as [|r requests IH]; simpl; [by apply holds_ret|]. eapply holds_bind.
  { eapply holds_conseq; [apply (holds_on_logs fl0 (at_most [] []) (req_host r) _ _ (force_logs _))|auto| |auto].
    intros a fl. apply Since_impl. intros k l. case_bool_decide; [|done]. intros (l' & l0 & -> & Hh & Hc). by apply at_most_calm. }
  intros a. eapply holds_bind; [apply IH|]. intros rs. by apply holds_ret.
Qed.
Abbreviation Gives_up := (λ e, Since fl0 (given_up e)).
Abbreviation Nothing := (Since fl0 (at_most [] [])).
Lemma nothing_gives_up e fl : Nothing fl → Gives_up e fl.
Proof. apply Since_impl. intros n l Hm. by apply nothing_given_up, at_most_nothing. Qed.
Lemma remove_all_finishes sorted : finishes Nothing (remove_all sessions project sorted) (λ _, Nothing) Gives_up.
Proof.
  unfold remove_all, execute_each. destruct (forallb _ sorted); [|by intros fl _].
  eapply finishes_bind; [eapply finishes_conseq; [apply remove_each|auto|intros a fl Ha; exact Ha|done]|].
  intros rs fl Hfl. simpl. destruct (try_fold _ _ rs) as [u|e]; [done|by apply nothing_gives_up].
Qed.

Lemma turn_error_names failures errors text :
  text ∈ failures ++ errors → occurs (bytes text) (bytes (turn_error failures errors)).
Proof.
  unfold turn_error, lock_lines. rewrite !bytes_app. intros [Hf|He]%elem_of_app.
  - do 3 apply occurs_app_r. by apply occurs_app_l, occurs_concat.
  - do 4 apply occurs_app_r. apply occurs_app_l. rewrite bool_decide_false by (intros ->; by apply elem_of_nil in He).
    rewrite !bytes_app. do 4 apply occurs_app_r. by apply occurs_concat.
Qed.

Lemma turn_fails texts round errors n l :
  texts ⊆ round_failures round → at_most [] (texts ++ errors) n l → given_up (turn_error (round_failures round) errors) n l.
Proof.
  intros Ht. apply at_most_given_up. intros text Hin. apply turn_error_names. apply elem_of_app in Hin as [?|?]; apply elem_of_app; auto.
Qed.
Lemma acquire_turn_finishes timeout force sorted turn :
  Forall (λ r, one_line (path_of r)) sorted →
  finishes Nothing (acquire_turn sessions project timeout force info lock_id sorted turn)
    (λ o, match o with
          | Some acquired => λ fl, acquired = sorted ∧ Since fl0 (holding sorted []) fl
          | None => Nothing
          end) Gives_up.
Proof.
  intros Hs. unfold acquire_turn. eapply finishes_bind.
  { instantiate (1 := λ _, Nothing). destruct force; [apply remove_all_finishes|by intros fl Hfl]. }
  intros u. eapply finishes_bind.
  { eapply finishes_conseq; [apply (attempt_ranks_holds (length sorted) (unix_seconds turn) Round_empty [] sorted Hs (le_n _))|..]; [done|done|constructor| | |].
    - intros fl. apply Since_impl. intros n l Hm. split; [done|]. intros r p _ Hr. by apply elem_of_nil in Hr.
    - intros round fl Hr. exact Hr.
    - done. }
  intros round. case_bool_decide as Hf.
  { intros fl ((texts & Hh & Ht & _) & _ & Ha & _). simpl. specialize (Ha Hf). simpl in Ha. rewrite Ha in Hh |- *.
    rewrite Hf in Ht. apply list_nil_subseteq in Ht as ->. done. }
  intros fl ((texts & Hh & Ht & Hhard) & _ & _ & Hl).
  assert (Since fl0 (at_most (round_acquired round) texts) fl) as Hm by (revert Hh; apply Since_impl; by intros n l [? _]).
  pose proof (release_requests_holds (round_acquired round) texts Hl fl Hm) as Hrel. unfold mbind, F_bind.
  destruct (release_requests _ _ _ _ fl) as [[[warnings errors]| | |] fl']; [|done..]. simpl in Hrel.
  destruct (round_hard_failure round) eqn:Hrh; simpl.
  { revert Hrel. apply Since_impl. intros n l. by apply turn_fails. }
  rewrite (Hhard eq_refl) in Hrel. case_bool_decide as Hne; simpl.
  - subst errors. destruct (_ <=? _); simpl; [by apply nothing_gives_up|done].
  - revert Hrel. apply Since_impl. intros n l. apply (turn_fails []). by intros ? ?%elem_of_nil.
Qed.

Lemma acquire_loop_finishes fuel timeout force sorted turn :
  Forall (λ r, one_line (path_of r)) sorted →
  finishes Nothing (acquire_loop sessions project fuel timeout force info lock_id sorted turn)
    (λ acquired fl, acquired = sorted ∧ Since fl0 (holding sorted []) fl) Gives_up.
Proof.
  intros Hs. revert turn. induction fuel as [|fuel IH]; intros turn; simpl; [by intros fl _|].
  eapply finishes_bind; [by apply acquire_turn_finishes|]. intros [acquired|]; [by intros fl Hfl|apply IH].
Qed.

(** Exactly the requested locks are held. *)
Definition exactly (locks : list LockRequest) (n : string) (l : list Event) : Prop :=
  ∀ p, one_line p → match lock_state p l with
                    | Ours => ∃ r, r ∈ locks ∧ is_lock n p r
                    | NotOurs => ¬ ∃ r, r ∈ locks ∧ is_lock n p r
                    | Doubtful => False
                    end.
Lemma holding_exactly acc locks n l : acc ≡ₚ locks → holding acc [] n l → exactly locks n l.
Proof.
  intros Hp [Hm Hl] p Hlp. specialize (Hm p Hlp). destruct (lock_state p l) eqn:Hs.
  - intros (r & Hr & Hlock). rewrite <-Hp in Hr. by apply (Hl r p).
  - destruct Hm as (r & Hr & Hlock). exists r. by rewrite <-Hp.
  - destruct Hm as (r & what & _ & Hr). by apply elem_of_nil in Hr.
Qed.
Lemma exactly_at_most acc locks n l : acc ≡ₚ locks → exactly locks n l → at_most acc [] n l.
Proof.
  intros Hp Hm p Hlp. specialize (Hm p Hlp). destruct (lock_state p l); [done| |done].
  destruct Hm as (r & Hr & Hlock). exists r. by rewrite Hp.
Qed.

Lemma acquire_locks_finishes locks timeout force :
  Forall (λ r, one_line (path_of r)) locks →
  finishes Nothing (acquire_locks sessions project locks info timeout force)
    (λ owned fl, owned_lock_id owned = lock_id ∧ owned_acquired owned = sort_requests locks project ∧ Since fl0 (exactly locks) fl) Gives_up.
Proof.
  intros Hl. unfold acquire_locks. rewrite info_id. cbn [panics].
  assert (sort_requests locks project ≡ₚ locks) as Hp by apply sort_by_Permutation.
  change (mret lock_id ≫= ?f) with (f lock_id). cbv beta. eapply finishes_bind.
  { apply acquire_loop_finishes. by rewrite Hp. }
  intros acquired fl [-> Hs]. simpl. split_and!; [done..|]. revert Hs. apply Since_impl. intros n l. by apply holding_exactly.
Qed.

(** An operation that issues no command on the locks of this invocation itself. *)
Definition minds_its_own (operation : F ()) : Prop := ∀ fl, Since fl (λ _, calm) (operation fl).2.
Lemma Since_trans Ψ Φ fl fl' :
  Since fl0 Ψ fl → Since fl Φ fl' → Since fl0 (λ n l, ∃ l' l0, l = l' ++ l0 ∧ Ψ n l0 ∧ Φ n l') fl'.
Proof.
  intros H1' H2' n w0 Hn. destruct (H1' n w0 Hn) as (w & l & Hw & Hl & HΨ). destruct (H2' n w Hw) as (w' & l' & Hw' & Hl' & HΦ).
  exists w', (l' ++ l). rewrite Hl', Hl, (assoc_L (++)). eauto 10.
Qed.
Lemma operation_holds acc operation :
  minds_its_own operation →
  holds (Since fl0 (at_most acc [])) operation (λ _, Since fl0 (at_most acc [])) (Since fl0 (at_most acc [])).
Proof.
  intros Ho fl Hs. pose proof (Since_trans _ _ _ _ Hs (Ho fl)) as Ht.
  assert (Since fl0 (at_most acc []) (operation fl).2) as Ha.
  { revert Ht. apply Since_impl. intros n l (l' & l0 & -> & Hh & Hc). by apply at_most_calm. }
  by destruct (operation fl) as [[a|e| |] fl'].
Qed.
Lemma release_locks_finishes acc :
  Forall (λ r, one_line (path_of r)) acc →
  finishes (Since fl0 (at_most acc []))
    (release_locks sessions project {| owned_project := project; owned_lock_id := lock_id; owned_acquired := acc |}) (λ _, Nothing) Gives_up.
Proof.
  intros Hl. unfold release_locks. eapply finishes_bind.
  { eapply finishes_conseq; [apply (release_requests_holds acc [] Hl)|auto|intros a fl Ha; exact Ha|done]. }
  intros [warnings errors] fl Hfl. simpl in *. case_bool_decide as He; [by subst errors|]. simpl.
  revert Hfl. apply Since_impl. intros n l. apply at_most_given_up. intros text Ht. rewrite !bytes_app.
  apply occurs_app_r, occurs_app_l. by apply occurs_concat.
Qed.

Lemma given_up_within e e' n l : (∀ s, occurs s (bytes e) → occurs s (bytes e')) → given_up e n l → given_up e' n l.
Proof.
  intros He Hg p Hp. destruct (Hg p Hp) as [?|[Hs (r & what & Hr & Ho)]]; [by left|]. right. split; [done|]. exists r, what. auto.
Qed.
Lemma with_locks_finishes locks timeout force operation :
  Forall (λ r, one_line (path_of r)) locks → minds_its_own operation →
  finishes Nothing (with_locks sessions project locks info timeout force operation) (λ _, Nothing) Gives_up.
Proof.
  intros Hl Ho. unfold with_locks. eapply finishes_bind; [by apply acquire_locks_finishes|]. intros owned fl (Hid & Hacq & Hs).
  assert (sort_requests locks project ≡ₚ locks) as Hp by apply sort_by_Permutation.
  assert (release_locks sessions project owned =
    release_locks sessions project {| owned_project := project; owned_lock_id := lock_id; owned_acquired := sort_requests locks project |}) as ->.
  { unfold release_locks. by rewrite Hid, Hacq. }
  assert (Since fl0 (at_most (sort_requests locks project) []) fl) as Hm by (revert Hs; apply Since_impl; intros; by eapply exactly_at_most).
  pose proof (operation_holds _ operation Ho fl Hm) as Hop. unfold mbind, F_bind, attempts at 1.
  destruct (operation fl) as [[a|e| |] fl1]; [| |done..].
  all: assert (Forall (λ r, one_line (path_of r)) (sort_requests locks project)) as Hl' by (by rewrite Hp).
  all: pose proof (release_locks_finishes _ Hl' fl1 Hop) as Hr; unfold attempts.
  all: destruct (release_locks _ _ _ fl1) as [[b|e'| |] fl2]; [..|done|done]; simpl; [done || by apply nothing_gives_up|].
  - done.
  - revert Hr. apply Since_impl. intros n l. apply given_up_within. intros s Hocc. rewrite bytes_app. by apply occurs_app_r.
Qed.
End laws.

(** ** Acquisition ends *)

Section ends.
Context `{Host, LockJson, LocalTime}.
Context (sessions : gset string) (project : string) (info : LockInfo) (lock_id : string).

(** A program that does not run out of fuel. *)
Definition ends {A} (m : F A) : Prop := ∀ fl, (m fl).1 ≠ Exhausted.
Lemma ends_ret {A} (a : A) : ends (mret a).
Proof. by intros fl. Qed.
Lemma ends_bind {A B} (m : F A) (f : A → F B) : ends m → (∀ a, ends (f a)) → ends (m ≫= f).
Proof.
  intros Hm Hf fl. specialize (Hm fl). unfold mbind, F_bind. destruct (m fl) as [[a| | |] fl']; [apply Hf|done..].
Qed.
Lemma ends_on {A} n (m : M A) : (∀ w, (m w).1 ≠ Exhausted) → ends (on n m).
Proof.
  intros Hm fl. unfold on. destruct (fl !! n) as [w|]; [|done]. specialize (Hm w). unfold attempt.
  by destruct (m w) as [[a| | |] w'].
Qed.
Lemma ends_run_each {A} (m : LockRequest → M A) requests : (∀ r w, (m r w).1 ≠ Exhausted) → ends (run_each m requests).
Proof.
  intros Hm. induction requests as [|r requests IH]; simpl; [apply ends_ret|].
  apply ends_bind; [apply ends_on, Hm|]. intros a. apply ends_bind; [apply IH|]. intros rs. apply ends_ret.
Qed.
Lemma ends_execute_each {A} (m : LockRequest → M A) requests :
  (∀ r w, (m r w).1 ≠ Exhausted) → ends (execute_each sessions m requests).
Proof. intros Hm. unfold execute_each. destruct (forallb _ _); [by apply ends_run_each|by intros fl]. Qed.
Lemma settles_ends {A} (m : M A) : settles m → ∀ w, (m w).1 ≠ Exhausted.
Proof. intros Hm w. by destruct (Hm w) as [(a & w' & ->)|(e & w' & ->)]. Qed.

Context (info_id : info_lock_id info = Some lock_id).

Lemma settles_acquire p : settles (acquire_lock p info).
Proof.
  unfold acquire_lock. rewrite info_id. apply settles_bind; [apply settles_of_result|]. intros content.
  apply (settles_bind (mret lock_id)); [apply settles_ret|]. unfold read_lock_file, recover_incomplete_lock, acquired_or_fail.
  intros id. settles.
Qed.
Lemma settles_release p : settles (release_owned_lock p lock_id).
Proof. unfold release_owned_lock. settles. Qed.
Lemma settles_force p : settles (force_remove_lock p).
Proof. unfold force_remove_lock. settles. Qed.

Lemma ends_attempt_ranks fuel now acc sorted : ends (attempt_ranks sessions project fuel now info acc sorted).
Proof.
  revert acc sorted. induction fuel as [|fuel IH]; intros acc [|first sorted]; simpl; try apply ends_ret.
  case_bool_decide; [|apply ends_ret]. apply ends_bind; [|intros rs; apply IH].
  apply ends_execute_each. intros r. apply settles_ends, settles_acquire.
Qed.
Lemma ends_release requests : ends (release_requests sessions project lock_id requests).
Proof.
  apply ends_bind; [|intros rs; apply ends_ret]. apply ends_execute_each. intros r. apply settles_ends, settles_release.
Qed.
Lemma ends_turn timeout force sorted turn : ends (acquire_turn sessions project timeout force info lock_id sorted turn).
Proof.
  unfold acquire_turn. apply ends_bind.
  { destruct force; [|apply ends_ret]. apply ends_bind; [apply ends_execute_each; intros r; apply settles_ends, settles_force|].
    intros rs fl. by destruct (try_fold _ _ rs). }
  intros _. apply ends_bind; [apply ends_attempt_ranks|]. intros round. case_bool_decide; [apply ends_ret|].
  apply ends_bind; [apply ends_release|]. intros [warnings errors]. case_match; [by intros fl|apply ends_ret].
Qed.
(** Another turn follows only before the deadline. *)
Lemma turn_goes_on timeout force sorted turn fl fl' :
  acquire_turn sessions project timeout force info lock_id sorted turn fl = (Fine None, fl') → instant (S turn) < instant 0 + timeout * SECOND.
Proof.
  unfold acquire_turn, mbind, F_bind.
  destruct ((if force then remove_all sessions project sorted else mret ()) fl) as [[u| | |] fl1]; try done.
  destruct (attempt_ranks _ _ _ _ _ _ _ fl1) as [[round| | |] fl2]; try done. case_bool_decide; [done|].
  destruct (release_requests _ _ _ _ fl2) as [[[warnings errors]| | |] fl3]; try done.
  destruct (_ <=? _) eqn:Hd; [by rewrite orb_true_r|]. intros _. by apply N.leb_gt.
Qed.

(** The clock of the command runs on, and two turns are two seconds apart. *)
Definition paced : Prop := instant 0 ≤ instant 1 ∧ ∀ n, instant (S n) + 2 * SECOND ≤ instant (S (S n)).
Lemma paced_turn n : paced → instant 0 + 2 * N.of_nat n * SECOND ≤ instant (S n).
Proof.
  intros [H0' Hs]. induction n as [|n IH]; [lia|]. specialize (Hs n). rewrite Nat2N.inj_succ. unfold SECOND in *. lia.
Qed.
Lemma ends_acquire_loop fuel timeout force sorted turn :
  paced → (enough_turns timeout ≤ fuel + turn)%nat → (turn = 0%nat ∨ instant turn < instant 0 + timeout * SECOND) →
  ends (acquire_loop sessions project fuel timeout force info lock_id sorted turn).
Proof.
  intros Hp. revert turn. induction fuel as [|fuel IH]; intros turn Hf Ht.
  - exfalso. unfold enough_turns in Hf. simpl in Hf. pose proof (N.div_mod timeout 2 ltac:(lia)) as Hdm.
    pose proof (N.mod_lt timeout 2 ltac:(lia)) as Hm. revert Hdm Hm Hf. generalize (timeout / 2), (timeout mod 2). intros h r Hdm Hm Hf.
    destruct Ht as [->|Ht]; [lia|]. destruct turn as [|turn]; [lia|].
    pose proof (paced_turn turn Hp) as Hi. unfold SECOND in *. lia.
  - simpl. intros fl. pose proof (ends_turn timeout force sorted turn fl) as He.
    pose proof (turn_goes_on timeout force sorted turn fl) as Hgo. unfold mbind, F_bind.
    destruct (acquire_turn _ _ _ _ _ _ _ turn fl) as [[[acquired|]| | |] fl']; [done| |done..].
    apply IH; [lia|]. right. by apply (Hgo fl').
Qed.
Lemma ends_acquire locks timeout force : paced → ends (acquire_locks sessions project locks info timeout force).
Proof.
  intros Hp. unfold acquire_locks. rewrite info_id. cbn [panics]. change (mret lock_id ≫= ?f) with (f lock_id). cbv beta.
  apply ends_bind; [|intros acquired; apply ends_ret]. apply ends_acquire_loop; [done|lia|by left].
Qed.
End ends.

Lemma Since_nothing `{Host} project lock_id expected fl : Since fl (at_most project lock_id expected [] []) fl.
Proof. eapply Since_impl; [|apply Since_now]. intros n l ->. by apply at_most_nothing. Qed.

Module LockProps.
Section laws.
Context `{Host, LockJson, LocalTime}.
Context (sessions : gset string) (project : string) (info : LockInfo) (lock_id expected : string).

(** C24: Acquiring locks is all or nothing, by the servers' answers, whatever they answer.  When the
    acquisition ends well it holds the requested locks and, on every server, exactly their paths
    were claimed with success and not released since.  When it ends with an error, after any number
    of turns, no lock is claimed: each was never claimed, was found held, or its release was
    answered (removed, another's, or gone), except a lock whose last claim or release failed or lost
    its answer, which the error names by its scope and its host.  For an invocation with a lock id
    and paths on one line; nothing is said of an acquisition that panics. *)
Theorem acquisition_is_all_or_nothing locks timeout force fl :
  info_lock_id info = Some lock_id → json_text lock_id = Ok expected →
  Forall (λ r, one_line (path_of project r)) locks →
  match acquire_locks sessions project locks info timeout force fl with
  | (Fine owned, fl') => owned_acquired owned ≡ₚ locks ∧ Since fl (exactly project lock_id expected locks) fl'
  | (Fails e, fl') => Since fl (given_up project lock_id expected e) fl'
  | _ => True
  end.
Proof.
  intros Hi Hj Hl. pose proof (acquire_locks_finishes sessions project info lock_id expected Hi Hj fl locks timeout force Hl fl) as Ha.
  specialize (Ha (Since_nothing project lock_id expected fl)). destruct (acquire_locks _ _ _ _ _ _ fl) as [[owned|e| |] fl']; try done.
  destruct Ha as (_ & -> & Hs). split; [apply sort_by_Permutation|done].
Qed.

(** C25: An operation under locks gives every lock back.  Let an invocation with a lock id run, under
    locks with paths on one line, an operation that issues no claim and no release of this
    invocation's locks itself.  When the command ends well, no lock is claimed, by the servers'
    answers; when it ends with an error, whether the acquisition, the operation or the release
    failed, no lock is claimed either, except that one whose last claim or release failed or lost
    its answer may be, and is named in the error by its scope and its host.  Nothing is said of a
    command that panics. *)
Theorem locks_are_given_back locks timeout force operation fl :
  info_lock_id info = Some lock_id → json_text lock_id = Ok expected →
  Forall (λ r, one_line (path_of project r)) locks → minds_its_own lock_id expected operation →
  match with_locks sessions project locks info timeout force operation fl with
  | (Fine _, fl') => Since fl (nothing_held lock_id expected) fl'
  | (Fails e, fl') => Since fl (given_up project lock_id expected e) fl'
  | _ => True
  end.
Proof.
  intros Hi Hj Hl Ho. pose proof (with_locks_finishes sessions project info lock_id expected Hi Hj fl locks timeout force operation Hl Ho fl) as Ha.
  specialize (Ha (Since_nothing project lock_id expected fl)).
  destruct (with_locks _ _ _ _ _ _ _ fl) as [[u|e| |] fl']; try done. revert Ha. apply Since_impl. intros n l. apply at_most_nothing.
Qed.

(** Waiting for locks ends.  With a clock that runs on and two seconds between two turns, the
    acquisition ends within half the seconds of the timeout and two more turns. *)
Theorem lock_wait_ends locks timeout force fl :
  info_lock_id info = Some lock_id → paced → (acquire_locks sessions project locks info timeout force fl).1 ≠ Exhausted.
Proof. intros Hi Hp. by apply (ends_acquire sessions project info lock_id Hi). Qed.
End laws.

(** ** Two locks on two servers *)

Definition sample_json : LockJson := {| info_to_json _ := Ok "{}"; info_of_json _ := None; json_text s := Ok s |}.
Definition sample_time : LocalTime := {| instant n := N.of_nat n * (2 * SECOND); unix_seconds _ := 0 |}.
Definition sample_info : LockInfo :=
  {| info_message := "deploy"; info_acquired_at := 0; info_acquired_by := "ops"; info_pid := 1; info_lock_id := Some "1-0-0" |}.
Definition sample_locks : list LockRequest :=
  [{| req_scope := HostGlobalProxy; req_host := "a" |}; {| req_scope := LogicalReplica "web-0"; req_host := "b" |}].
Definition sample_acquire : flow OwnedDeploymentLocks * gmap string (@World FleetProps.sample_host) :=
  @acquire_locks FleetProps.sample_host sample_json sample_time {[ "a"; "b" ]} "demo" sample_locks sample_info 300 false FleetProps.sample_fleet.

Lemma sample_lines : Forall (λ r, one_line (path_of "demo" r)) sample_locks.
Proof.
  repeat constructor; apply (bool_decide_eq_true_1 _); by vm_compute.
Qed.
Lemma acquisition_is_all_or_nothing_witness :
  ∃ owned fl', sample_acquire = (Fine owned, fl') ∧ owned_acquired owned ≡ₚ sample_locks ∧
    Since FleetProps.sample_fleet (exactly "demo" "1-0-0" "1-0-0" sample_locks) fl'.
Proof.
  pose proof (@acquisition_is_all_or_nothing FleetProps.sample_host sample_json sample_time {[ "a"; "b" ]} "demo" sample_info "1-0-0" "1-0-0"
    sample_locks 300 false FleetProps.sample_fleet eq_refl eq_refl sample_lines) as Hw.
  change (acquire_locks _ _ _ _ _ _ _) with sample_acquire in Hw. destruct sample_acquire as [[owned| | |] fl'] eqn:Ha.
  2-4: apply (f_equal fst) in Ha; vm_compute in Ha; discriminate Ha.
  exists owned, fl'. split; [done|apply Hw].
Defined.

Lemma nothing_minds_its_own `{Host} lock_id expected : minds_its_own lock_id expected (mret ()).
Proof. intros fl. eapply Since_impl; [|apply Since_now]. intros n l -> q _. constructor. Qed.
Definition sample_locked : flow () * gmap string (@World FleetProps.sample_host) :=
  @with_locks FleetProps.sample_host sample_json sample_time {[ "a"; "b" ]} "demo" sample_locks sample_info 300 false (mret ())
    FleetProps.sample_fleet.
Lemma locks_are_given_back_witness :
  ∃ fl', sample_locked = (Fine (), fl') ∧ Since FleetProps.sample_fleet (nothing_held "1-0-0" "1-0-0") fl'.
Proof.
  pose proof (@locks_are_given_back FleetProps.sample_host sample_json sample_time {[ "a"; "b" ]} "demo" sample_info "1-0-0" "1-0-0"
    sample_locks 300 false (mret ()) FleetProps.sample_fleet eq_refl eq_refl sample_lines (nothing_minds_its_own "1-0-0" "1-0-0")) as Hw.
  change (with_locks _ _ _ _ _ _ _ _) with sample_locked in Hw. destruct sample_locked as [[[]| | |] fl'] eqn:Ha.
  2-4: apply (f_equal fst) in Ha; vm_compute in Ha; discriminate Ha.
  exists fl'. done.
Defined.
Lemma lock_wait_ends_witness : (sample_acquire).1 ≠ Exhausted.
Proof.
  apply (@lock_wait_ends FleetProps.sample_host sample_json sample_time {[ "a"; "b" ]} "demo" sample_info "1-0-0"); [done|].
  split; [done|]. intros n. cbn [instant sample_time]. unfold SECOND. lia.
Defined.
End LockProps.
