(* ===== verification/NetworkSetup.v ===== *)
(** Setting up the network of a project on its servers, the part on one server:
    [jiji-cli/src/commands/network/bridge.rs] (the bridge and its migration to another range),
    [network_guard.rs], and the steps of [commands/network/setup.rs]: the preflight, the keys,
    what is staged, activated, verified and rolled back.  [NetworkApply] puts them together
    over the servers. *)

From S2P Require Import Prelude Text Bytes Substring Cidr Naming Schema Planner ServiceRuntime.
From S2P Require Import Membership Catalog Desired OpLog Leases Cron CronExec Replication Store Api CandidatePlan EnvResolution.
From S2P Require Import Locks Session ProxyRoutes SessionLaws ProxyScript HostProxy AuditTrail Teardown.
Open Scope N_scope.

(** ** [jiji-network/src/error.rs]: the texts of the errors *)

Definition plan_error_text (e : NetworkPlanError) : string :=
  match e with
  | InvalidCidr value reason => "Invalid network CIDR '" +:+ value +:+ "': " +:+ reason +:+ ". Update the network configuration."
  | OverlappingAddressSpaces management container =>
      "Network ranges overlap: management_cidr '" +:+ management +:+ "' and container_cidr '" +:+ container
      +:+ "'. Configure two disjoint IPv4 ranges."
  | ContainerRangeTooSmall cidr prefix =>
      "Container range '" +:+ cidr +:+ "' is too small. Configure a range containing at least one /" +:+ pretty prefix
      +:+ " server subnet."
  | ManagementRangeTooSmall cidr available required =>
      "Management range '" +:+ cidr +:+ "' has " +:+ pretty available +:+ " usable addresses but the container range requires "
      +:+ pretty required +:+ ". Configure a larger management_cidr."
  | BucketExhausted kind bucket capacity =>
      "Network allocation bucket " +:+ pretty bucket +:+ " for " +:+ kind +:+ " is full (" +:+ pretty capacity
      +:+ " entries). Change one of the colliding names or configure a larger address range."
  | DuplicateServiceServer service server =>
      "Service '" +:+ service +:+ "' lists server '" +:+ server +:+ "' more than once. Remove the duplicate entry."
  | UnknownServiceServer service server =>
      "Service '" +:+ service +:+ "' references unknown server '" +:+ server
      +:+ "'. Add that server or correct the service servers list."
  | UnmatchedHostFilter filter =>
      "No configured server matches host filter '" +:+ filter +:+ "'. Check --hosts and try again."
  | UnmatchedServiceFilter filter =>
      "No configured service matches service filter '" +:+ filter +:+ "'. Check --services and try again."
  end.

(** [with_context]: an error is shown as its outermost context. *)
Definition context `{Host} {A} (what : string) (m : M A) : M A :=
  r ← attempt m; match r with Ok a => mret a | Err _ => fail what end.

(** ** [bridge.rs] *)

Record BridgeMigration := {
  bm_old_subnet : Ipv4Cidr;
  bm_old_gateway : N;
  bm_attachments : list (string * N);
}.

Definition includes_proxy (migration : BridgeMigration) : bool :=
  existsb (λ a, bool_decide (a.1 = CONTAINER_NAME)) (bm_attachments migration).
Definition previous_proxy_address (migration : BridgeMigration) : option N :=
  snd <$> find (λ a, bool_decide (a.1 = CONTAINER_NAME)) (bm_attachments migration).

Definition network_inspection_command (engine : ContainerEngine) : string :=
  match engine with
  | Docker => "if command -v docker >/dev/null 2>&1; then docker network inspect $(docker network ls -q) --format 'NETWORK {{.Name}} {{range .IPAM.Config}}{{.Subnet}} {{end}}' 2>/dev/null || true; fi"
  | Podman => "if command -v podman >/dev/null 2>&1; then podman network inspect --format 'NETWORK {{.Name}} {{range .Subnets}}{{.Subnet}} {{end}}' $(podman network ls -q) 2>/dev/null || true; fi"
  end.

Section bridge.
Context `{Host} (engine : ContainerEngine) (plan : NetworkPlan) (server : ServerPlan).
Let e := engine_to_string engine.
Let bridge := sp_bridge_name server.

Definition peer_host (endpoint : string) : string :=
  match rsplit_once ":" endpoint with Some (host, _) => host | None => endpoint end.
Definition peer_public_ips : result string (list N) :=
  ok_or (mapM (λ p, parse_ipv4 (peer_host (peer_endpoint p))) (sp_peers server))
    "WireGuard firewall rules require server hosts to be public IPv4 addresses".

Definition script_params (peer_public_ips : list N) : BridgeScriptParams :=
  {| bs_bridge_name := bridge; bs_bridge_interface := sp_bridge_interface server;
     bs_wireguard_interface := sp_wireguard_interface server; bs_container_subnet := sp_container_subnet server;
     bs_bridge_gateway := sp_bridge_gateway server; bs_dns_address := sp_dns_address server;
     bs_container_cidr := np_container_cidr plan; bs_wireguard_port := sp_wireguard_port server;
     bs_peer_public_ips := peer_public_ips; bs_public_host := sp_public_host server |}.

Definition bridge_restore_script : result string string :=
  let? ips := peer_public_ips in Ok (render_restore_script engine (script_params ips)).
Definition bridge_validation_command : string := render_existing_validation_command engine (script_params []).

Definition bridge_inspection_command : string :=
  let field name := match engine with
    | Docker => "{{(index .IPAM.Config 0)." +:+ name +:+ "}}"
    | Podman => "{{(index .Subnets 0)." +:+ name +:+ "}}"
    end in
  "if ! " +:+ e +:+ " network inspect " +:+ bridge +:+ " >/dev/null 2>&1; then printf '%s\n' MISSING; exit 0; fi; "
  +:+ "subnet=$(" +:+ e +:+ " network inspect " +:+ bridge +:+ " --format '" +:+ field "Subnet" +:+ "'); "
  +:+ "gateway=$(" +:+ e +:+ " network inspect " +:+ bridge +:+ " --format '" +:+ field "Gateway" +:+ "'); "
  +:+ "printf '%s|%s\n' " +:+ quoted "$subnet" +:+ " " +:+ quoted "$gateway".

(** One container on the bridge: only the proxy may be there. *)
Definition inspect_attachment (name : string) : M (string * N) :=
  if negb (bool_decide (name = CONTAINER_NAME)) then
    fail ("Cannot change bridge CIDR while service container '" +:+ name +:+ "' is attached on " +:+ session_host
          +:+ ". Dynamic deployment addresses are durable catalog leases; remove the affected service deployment, rerun `jiji network setup`, then deploy it again.")
  else
    r ← run_checked (e +:+ " inspect " +:+ name +:+ " --format '{{(index .NetworkSettings.Networks " +:+ quoted bridge
                     +:+ ").IPAddress}}'");
    address ← of_result (ok_or (parse_ipv4 (trim (stdout r)))
                ("Container '" +:+ name +:+ "' returned an invalid address during network migration"));
    mret (name, address).

Definition inspect_migration : M (option BridgeMigration) :=
  r ← execute ("set -eu; " +:+ bridge_inspection_command);
  _ ← ensure_success bridge_inspection_command r;
  let value := trim (stdout r) in
  if bool_decide (value = "MISSING") || bool_decide (value = "") then mret None
  else
    '(subnet, gateway) ← of_result (ok_or (split_once "|" value) ("Invalid bridge inspection response '" +:+ value +:+ "'"));
    old_subnet ← of_result (map_err plan_error_text (cidr_from_str subnet));
    old_gateway ← of_result (ok_or (parse_ipv4 gateway) addr_parse_error_text);
    if bool_decide (old_subnet = sp_container_subnet server) && (old_gateway =? sp_bridge_gateway server) then mret None
    else
      names ← run_checked (e +:+ " ps -a --filter network=" +:+ bridge +:+ " --format '{{.Names}}'");
      attachments ← collect inspect_attachment (trimmed_lines (stdout names));
      mret (Some {| bm_old_subnet := old_subnet; bm_old_gateway := old_gateway; bm_attachments := attachments |}).

Definition delete_bridge_link : list string :=
  match engine with
  | Podman => ["ip link delete " +:+ sp_bridge_interface server +:+ " type bridge 2>/dev/null || true"]
  | Docker => []
  end.
Definition detach_command (migration : BridgeMigration) : string :=
  "set -eu; " +:+ String.concat "; "
    (((λ a, e +:+ " network disconnect -f " +:+ bridge +:+ " " +:+ a.1 +:+ " >/dev/null") <$> bm_attachments migration)
     ++ [e +:+ " network rm " +:+ bridge +:+ " >/dev/null"] ++ delete_bridge_link).
Definition detach_for_migration (migration : BridgeMigration) : M () :=
  _ ← run_checked (detach_command migration); mret ().

Definition connect_command (address : N) (name : string) : string :=
  e +:+ " network connect --ip " +:+ ipv4_to_string address +:+ " " +:+ bridge +:+ " " +:+ name.
(** [addresses[name]]: only the proxy has one. *)
Definition reattach (name : string) : M () :=
  if bool_decide (name = CONTAINER_NAME)
  then _ ← run_checked (connect_command (sp_proxy_address server) name); mret ()
  else λ w, (Crashes, w).
Definition reattach_after_migration (migration : BridgeMigration) : M bool :=
  _ ← collect (λ a, reattach a.1) (bm_attachments migration);
  _ ← reconcile_podman_dns_address engine (sp_bridge_interface server) (sp_dns_address server);
  mret (includes_proxy migration).

Definition render_network_create (subnet : Ipv4Cidr) (gateway : N) : string :=
  match engine with
  | Docker =>
      "docker network create --driver bridge --subnet " +:+ cidr_to_string subnet +:+ " --gateway " +:+ ipv4_to_string gateway
      +:+ bridge_option "name" (sp_bridge_interface server)
      +:+ bridge_option "enable_ip_masquerade" "false"
      +:+ bridge_option "gateway_mode_ipv4" "routed"
      +:+ bridge_option "trusted_host_interfaces" (sp_wireguard_interface server)
      +:+ " " +:+ bridge +:+ " >/dev/null"
  | Podman =>
      "podman network create --subnet " +:+ cidr_to_string subnet +:+ " --gateway " +:+ ipv4_to_string gateway
      +:+ " --interface-name " +:+ sp_bridge_interface server +:+ " " +:+ bridge +:+ " >/dev/null"
  end.
Definition restore_bridge_command (migration : BridgeMigration) : string :=
  "set -eu; " +:+ String.concat "; "
    (((λ a, e +:+ " network disconnect -f " +:+ bridge +:+ " " +:+ a.1 +:+ " >/dev/null 2>&1 || true") <$> bm_attachments migration)
     ++ [e +:+ " network rm " +:+ bridge +:+ " >/dev/null 2>&1 || true"] ++ delete_bridge_link
     ++ [render_network_create (bm_old_subnet migration) (bm_old_gateway migration)]
     ++ ((λ a, connect_command a.2 a.1) <$> bm_attachments migration)).
Definition restore_previous_bridge (migration : BridgeMigration) : M () :=
  _ ← run_checked (restore_bridge_command migration); mret ().
End bridge.

(** ** [setup.rs]: paths, markers and the records of a run *)

Definition network_generations (slug : string) : string := network_dir slug +:+ "/generations".
Definition network_current (slug : string) : string := network_dir slug +:+ "/current".

Definition NETWORK_ARTIFACT_VERSION : N := 5.

Record InstalledGeneration := { ig_network : option string }.
Record ActivationDomains := { ad_mesh : bool }.

Definition network_name (state : InstalledGeneration) : string :=
  match ig_network state with
  | Some path => match rsplit_once "/" path with Some (_, name) => name | None => path end
  | None => "none"
  end.

(** [to_be_bytes] of a [u64]. *)
Definition u64_to_be (n : N) : list ascii := u32_to_be (n / 2 ^ 32) ++ u32_to_be (n mod 2 ^ 32).
Definition framed (s : string) : list ascii := u64_to_be (N.of_nat (String.length s)) ++ bytes s.

Section digests.
Context `{Sha256}.

Definition project_marker_identity (project : string) : string := String.concat "" (hex_byte <$> sha256 project).
Definition address_range_marker (plan : NetworkPlan) : string :=
  project_marker_identity (np_project plan) +:+ " " +:+ cidr_to_string (np_management_cidr plan) +:+ " "
  +:+ cidr_to_string (np_container_cidr plan) +:+ nl.

Definition artifact_generation (plan_generation : string) (public_keys : gmap string string) : string :=
  let input := u32_to_be NETWORK_ARTIFACT_VERSION ++ framed plan_generation
               ++ mjoin ((λ k : string * string, framed k.1 ++ framed k.2) <$> btree_list public_keys) in
  plan_generation +:+ "-v" +:+ pretty NETWORK_ARTIFACT_VERSION +:+ "-"
  +:+ String.concat "" (hex_byte <$> take 8 (sha256 (of_bytes input))).
End digests.

(** ** The configuration of WireGuard *)

Definition render_peer (public_keys : gmap string string) (peer : WireGuardPeerPlan) : list string :=
  match public_keys !! peer_server peer with
  | None => []
  | Some public_key =>
      [""; "[Peer]"; "# " +:+ peer_server peer; "PublicKey = " +:+ public_key; "Endpoint = " +:+ peer_endpoint peer;
       "AllowedIPs = " +:+ String.concat ", " (cidr_to_string <$> peer_allowed_ips peer); "PersistentKeepalive = 25"]
  end.
Definition render_wireguard (server : ServerPlan) (public_keys : gmap string string) : string :=
  text_lines
    (["[Interface]"; "Address = " +:+ ipv4_to_string (sp_management_address server) +:+ "/32";
      "ListenPort = " +:+ pretty (sp_wireguard_port server); "PrivateKey = __JIJI_PRIVATE_KEY__"]
     ++ mjoin (render_peer public_keys <$> sp_peers server)).

(** The loop of [parse_wireguard_peer_keys]: the keys, the name of the peer that is read, and
    whether a peer is read. *)
Definition peer_key_line (st : gmap string string * option string * bool) (line : string) :
    gmap string string * option string * bool :=
  let '(keys, current_name, in_peer) := st in
  let trimmed := trim line in
  if bool_decide (trimmed = "[Peer]") then (keys, None, true)
  else if starts_with "[" trimmed then (keys, None, false)
  else if negb in_peer then st
  else
    match strip_prefix "# " trimmed with
    | Some name => (keys, Some (trim name), in_peer)
    | None =>
        match strip_prefix "PublicKey = " trimmed, current_name with
        | Some value, Some name => (<[name := trim value]> keys, None, in_peer)
        | _, _ => st
        end
    end.
Definition parse_wireguard_peer_keys (content : string) : gmap string string :=
  (foldl peer_key_line (∅, None, false) (lines content)).1.1.

Definition render_wireguard_sync_command (interface config_path : string) : string :=
  let sync_path := "/etc/wireguard/" +:+ interface +:+ ".syncconf" in
  let inner_quote := "'" +:+ quoted "'" +:+ "'" in
  "sh -c 'set -eu; sync_path=" +:+ quoted "$1" +:+ "; trap " +:+ inner_quote +:+ "rm -f " +:+ quoted "$sync_path"
  +:+ inner_quote +:+ " EXIT; install -m 0600 /dev/null " +:+ quoted "$sync_path" +:+ "; wg-quick strip " +:+ quoted "$2"
  +:+ " > " +:+ quoted "$sync_path" +:+ "; wg syncconf " +:+ quoted "$3" +:+ " " +:+ quoted "$sync_path" +:+ "' sh "
  +:+ sync_path +:+ " " +:+ config_path +:+ " " +:+ interface.

Definition expected_routes (server : ServerPlan) : list string :=
  mjoin ((λ p, cidr_to_string <$> peer_allowed_ips p) <$> sp_peers server).
Definition render_route_sync (server : ServerPlan) : string :=
  let iface := sp_wireguard_interface server in
  let routes := expected_routes server in
  let each := "for route in $(ip -4 route show dev " +:+ iface +:+ " | awk '{print $1}'); do " in
  let delete := "ip route del " +:+ quoted "$route" +:+ " dev " +:+ iface in
  if bool_decide (routes = []) then each +:+ delete +:+ "; done"
  else each +:+ "case " +:+ quoted "$route" +:+ " in " +:+ String.concat "|" routes +:+ ") ;; *) " +:+ delete
       +:+ " ;; esac; done; "
       +:+ String.concat "; " ((λ route, "ip route replace " +:+ route +:+ " dev " +:+ iface) <$> routes).

(** [ln -sfn target link.new; mv -Tf link.new link]. *)
Definition relink (target link : string) : string :=
  "ln -sfn " +:+ target +:+ " " +:+ link +:+ ".new; mv -Tf " +:+ link +:+ ".new " +:+ link.
(** The links of a generation, the first to [target]. *)
Definition relink_generation (target slug interface : string) : string :=
  let current := network_current slug in
  let dir := network_dir slug in
  relink target current +:+ "; " +:+ relink (current +:+ "/wireguard.conf") (wireguard_config_path interface) +:+ "; "
  +:+ relink (current +:+ "/restore.sh") (dir +:+ "/restore.sh") +:+ "; "
  +:+ relink (current +:+ "/mesh-generation") (dir +:+ "/mesh-generation").

(** The trailing semicolon of the last step is cut off. *)
Definition render_activation_command (server : ServerPlan) (mesh_generation artifact slug : string) (activate_mesh : bool) :
    string :=
  let iface := sp_wireguard_interface server in
  let generation := network_generations slug +:+ "/" +:+ artifact in
  let current := network_current slug in
  "set -eu; systemctl daemon-reload; "
  +:+ (if activate_mesh then
         "sysctl --system >/dev/null; test -s " +:+ generation +:+ "/wireguard.conf; test -x " +:+ generation
         +:+ "/restore.sh; test " +:+ quoted ("$(cat " +:+ generation +:+ "/mesh-generation)") +:+ " = '" +:+ mesh_generation
         +:+ "'; if test -e " +:+ current +:+ " && ! test -L " +:+ current +:+ "; then rm -rf " +:+ current +:+ "; fi; "
         +:+ relink_generation generation slug iface
         +:+ "; if ! ip link show dev " +:+ iface +:+ " >/dev/null 2>&1; then ip link add " +:+ iface
         +:+ " type wireguard; fi; wg set " +:+ iface +:+ " private-key " +:+ private_key_path slug +:+ " listen-port "
         +:+ pretty (sp_wireguard_port server) +:+ "; ip address replace " +:+ ipv4_to_string (sp_management_address server)
         +:+ "/32 dev " +:+ iface +:+ "; ip link set " +:+ iface +:+ " up; "
         +:+ render_wireguard_sync_command iface (wireguard_config_path iface) +:+ "; " +:+ render_route_sync server
         +:+ "; sh " +:+ network_dir slug +:+ "/restore.sh"
       else "true").

Definition render_rollback_command (state : InstalledGeneration) (slug : string) (server : ServerPlan)
    (domains : ActivationDomains) : string :=
  let iface := sp_wireguard_interface server in
  let dir := network_dir slug in
  let config := wireguard_config_path iface in
  let network :=
    if ad_mesh domains then
      match ig_network state with
      | Some path => relink_generation path slug iface
      | None => "ip link delete " +:+ iface +:+ " 2>/dev/null || true; rm -rf " +:+ network_current slug +:+ "; rm -f "
                +:+ config +:+ " " +:+ dir +:+ "/restore.sh " +:+ dir +:+ "/mesh-generation"
      end
    else "true" in
  let restart_mesh :=
    match ad_mesh domains, ig_network state with
    | true, Some _ => render_wireguard_sync_command iface config +:+ "; " +:+ render_route_sync server +:+ "; sh " +:+ dir
                      +:+ "/restore.sh"
    | _, _ => "true"
    end in
  "set -eu; " +:+ network +:+ "; systemctl daemon-reload; " +:+ restart_mesh.

Definition parse_generation_path (value root : string) : result string (option string) :=
  if bool_decide (value = "-") then Ok None
  else if negb (starts_with root value) || existsb is_whitespace (utf8_chars value)
  then Err ("unsafe generation path '" +:+ value +:+ "'")
  else Ok (Some value).
Definition parse_installed_generation (value slug : string) : result string InstalledGeneration :=
  match lines value with
  | [line] =>
      let? path := parse_generation_path line (network_generations slug +:+ "/") in Ok {| ig_network := path |}
  | lines => Err ("expected one generation path, received " +:+ pretty (N.of_nat (length lines)))
  end.

(** ** Conflicts with what is on the server *)

Definition is_jiji_bridge_name (name : string) : bool := starts_with "jiji-" name.
Definition is_jiji_managed_interface (name : string) : bool := starts_with "jiji" name.

Section conflicts.
Context (server_name : string) (server : ServerPlan) (plan : NetworkPlan).

Definition range_is_taken (existing : Ipv4Cidr) : bool :=
  overlaps existing (np_management_cidr plan) || overlaps existing (np_container_cidr plan).

Definition reject_project_range_overlap (owner : string) (existing : Ipv4Cidr) : result string () :=
  if range_is_taken existing
  then Err ("Server '" +:+ server_name +:+ "' has another jiji project ('" +:+ owner +:+ "') reserving '" +:+ cidr_to_string existing
            +:+ "', which overlaps this project's planned management range '" +:+ cidr_to_string (np_management_cidr plan)
            +:+ "' or container range '" +:+ cidr_to_string (np_container_cidr plan)
            +:+ "'. Set explicit non-overlapping `network.management_cidr` and `network.container_cidr` values in jiji.yml, then retry.")
  else Ok ().
Definition reject_jiji_collision (what value other : string) : result string () :=
  Err ("Server '" +:+ server_name +:+ "' already has a jiji-managed resource ('" +:+ other +:+ "') using " +:+ what +:+ " '" +:+ value
       +:+ "', which this project also needs. This is a collision between two independent jiji projects on the same host. Set distinct `network.container_cidr` and `network.management_cidr` values for one project in jiji.yml, then retry.").
Definition reject_overlap (source : string) (existing : Ipv4Cidr) : result string () :=
  if range_is_taken existing
  then Err ("Server '" +:+ server_name +:+ "' has an existing " +:+ source +:+ " '" +:+ cidr_to_string existing
            +:+ "' that overlaps jiji's management range '" +:+ cidr_to_string (np_management_cidr plan) +:+ "' or container range '"
            +:+ cidr_to_string (np_container_cidr plan)
            +:+ "'. Change the jiji network CIDRs or remove the conflicting route, then retry.")
  else Ok ().

(** Every field that is a range; the others are passed over. *)
Definition each_range (check : Ipv4Cidr → result string ()) (fields : list string) : result string () :=
  try_fold (λ _ value, match cidr_from_str value with Ok cidr => check cidr | Err _ => Ok () end) () fields.

Definition inspect_network (name : string) (cidr : Ipv4Cidr) : result string () :=
  if bool_decide (name = sp_bridge_name server) && bool_decide (cidr = sp_container_subnet server) then Ok ()
  else if is_jiji_bridge_name name then
    if bool_decide (cidr = sp_container_subnet server)
    then reject_jiji_collision "container subnet" (cidr_to_string cidr) name else Ok ()
  else reject_overlap "container network" cidr.

Definition inspect_port (iface : string) (port : option N) : result string () :=
  if negb (bool_decide (iface = sp_wireguard_interface server)) && bool_decide (port = Some (sp_wireguard_port server)) then
    if is_jiji_managed_interface iface
    then reject_jiji_collision "WireGuard port" (pretty (sp_wireguard_port server)) iface
    else Err ("Server '" +:+ server_name +:+ "' already has WireGuard interface '" +:+ iface +:+ "' listening on port "
              +:+ pretty (sp_wireguard_port server)
              +:+ ", which this project also needs. Free that port or reconfigure the other interface, then retry.")
  else Ok ().

Definition inspect_address (iface address : string) : result string () :=
  match split_once "/" address with
  | Some (addr, _) =>
      if bool_decide (parse_ipv4 addr = Some (sp_management_address server)) then
        if is_jiji_managed_interface iface
        then reject_jiji_collision "WireGuard management address" (ipv4_to_string (sp_management_address server)) iface
        else Err ("Server '" +:+ server_name +:+ "' already has interface '" +:+ iface +:+ "' holding address "
                  +:+ ipv4_to_string (sp_management_address server)
                  +:+ ", which this project's WireGuard peer also needs. Free that address or reconfigure the other interface, then retry.")
      else Ok ()
  | None => Ok ()
  end.

(** One line of the inspection. *)
Definition inspect_line (line : string) : result string () :=
  match strip_prefix "RANGE " line with
  | Some rest =>
      let fields := split_whitespace rest in
      each_range (reject_project_range_overlap (default "unknown" (head fields))) (tail fields)
  | None =>
  if starts_with "NETWORK " line then
    let fields := tail (split_whitespace line) in
    each_range (inspect_network (default "" (head fields))) (tail fields)
  else match strip_prefix "PORT " line with
  | Some rest =>
      let fields := split_whitespace rest in
      inspect_port (default "" (head fields))
        (fields !! 1%nat ≫= λ value, match parse_uint u16_max value with Ok port => Some port | Err _ => None end)
  | None =>
  match strip_prefix "ADDR " line with
  | Some rest =>
      let fields := split_whitespace rest in
      let iface := default "" (fields !! 1%nat) in
      if bool_decide (fields !! 2%nat = Some "inet") && negb (bool_decide (iface = sp_wireguard_interface server))
      then inspect_address iface (default "" (fields !! 3%nat)) else Ok ()
  | None =>
      if contains_str " dev jiji" line then Ok ()
      else match split_whitespace line with
           | destination :: _ => each_range (reject_overlap "host route") [destination]
           | [] => Ok ()
           end
  end end end.
End conflicts.

Definition conflicts_command (engine : ContainerEngine) (project_identity : string) : string :=
  let root := network_dir "" in
  "ip -o -4 route show table all; " +:+ network_inspection_command engine
  +:+ "; wg show all listen-port 2>/dev/null | sed 's/^/PORT /' || true; ip -o -4 address show | sed 's/^/ADDR /'; for range_file in "
  +:+ root +:+ "*/current/address-ranges; do test -f " +:+ quoted "$range_file" +:+ " || continue; owner=${range_file#" +:+ root
  +:+ "}; owner=${owner%%/*}; read identity management container < " +:+ quoted "$range_file" +:+ " || continue; if test -z "
  +:+ quoted "$container" +:+ "; then container=$management; management=$identity; identity=$owner; fi; test "
  +:+ quoted "$identity" +:+ " = " +:+ quoted project_identity +:+ " && continue; printf 'RANGE %s %s %s\n' "
  +:+ quoted "$identity" +:+ " " +:+ quoted "$management" +:+ " " +:+ quoted "$container" +:+ "; done".

(** ** The steps on one server *)

Section steps.
Context `{Host, Sha256}.

(** A command that must succeed; its output is not looked at. *)
Definition must_run (command : string) : M () := _ ← run_checked command; mret ().
Definition must_run_with (command input : string) : M () :=
  r ← execute_with_input command input; ensure_success command r.

Definition monolithic {A} : M A :=
  fail ("Host " +:+ session_host +:+ " has a monolithic network generation installed. This development build requires clean separated mesh/service-runtime state; run `jiji server teardown` followed by `jiji server setup`.").
Definition legacy_command (slug : string) : string := "cat " +:+ network_dir slug +:+ "/generation 2>/dev/null || true".

(** [network_guard.rs] *)
Definition generation_is_current (plan : NetworkPlan) : M bool :=
  let slug := text (systemd_unit_slug (np_project plan)) in
  r ← execute ("if test -L " +:+ network_current slug +:+ "; then cat " +:+ network_dir slug
               +:+ "/mesh-generation 2>/dev/null || true; fi");
  _ ← (if bool_decide (trim (stdout r) = "") then
         legacy ← execute (legacy_command slug);
         if bool_decide (trim (stdout legacy) = "") then mret () else monolithic
       else mret ());
  mret (bool_decide (trim (stdout r) = np_mesh_generation plan)).

Definition require_root : M () :=
  r ← execute "id -u";
  if success r && bool_decide (trim (stdout r) = "0") then mret ()
  else fail ("Network setup on " +:+ session_host +:+ " requires an SSH user with uid 0. Connect as root and retry.").
Definition reject_monolithic_generation (slug : string) : M () :=
  r ← execute (legacy_command slug);
  if bool_decide (trim (stdout r) = "") then mret () else monolithic.
Definition ensure_engine_available (engine : ContainerEngine) : M () :=
  let e := engine_to_string engine in
  r ← execute ("command -v " +:+ e);
  if success r then mret ()
  else fail (e +:+ " is not installed on " +:+ session_host
             +:+ ". Run `jiji server setup` to install the engine and network together.").

Definition write_staged_file (path mode content : string) : M () :=
  let temporary := path +:+ ".jiji-new" in
  must_run_with ("set -eu; install -D -m " +:+ mode +:+ " /dev/stdin " +:+ temporary +:+ "; mv " +:+ temporary +:+ " " +:+ path)
    content.
Definition generation_file_command (path mode : string) : string :=
  let temporary := path +:+ ".jiji-new" in
  "set -eu; install -D -m " +:+ mode +:+ " /dev/stdin " +:+ temporary +:+ "; if test -e " +:+ path +:+ "; then cmp -s " +:+ temporary
  +:+ " " +:+ path +:+ " || { echo 'Staged content differs inside an existing immutable generation. Upgrade jiji or report an artifact-version bug.' >&2; exit 1; }; rm -f "
  +:+ temporary +:+ "; else mv " +:+ temporary +:+ " " +:+ path +:+ "; fi".
Definition write_generation_file (path mode content : string) : M () :=
  must_run_with (generation_file_command path mode) content.

Definition inspect_conflicts (engine : ContainerEngine) (server_name : string) (server : ServerPlan) (plan : NetworkPlan) :
    M (option BridgeMigration) :=
  r ← run_checked (conflicts_command engine (project_marker_identity (np_project plan)));
  _ ← of_result (try_fold (λ _ line, inspect_line server_name server plan line) () (lines (stdout r)));
  migration ← inspect_migration engine server;
  match migration with
  | Some migration => mret (Some migration)
  | None => _ ← must_run (bridge_validation_command engine plan server); mret None
  end.

Definition enable_linger_command : string :=
  "command -v loginctl >/dev/null 2>&1 && loginctl enable-linger " +:+ quoted "$(whoami)" +:+ " || true".
Definition install_prerequisites (slug : string) : M () :=
  must_run ("set -eu; if command -v apt-get >/dev/null 2>&1; then apt-get update -qq; DEBIAN_FRONTEND=noninteractive apt-get install -y -qq wireguard-tools dnsutils iptables nftables; elif command -v dnf >/dev/null 2>&1; then dnf install -y wireguard-tools bind-utils iptables nftables; else echo 'Unsupported package manager. Install wireguard-tools, DNS query tools, iptables, and nftables manually.' >&2; exit 1; fi; install -d -m 0700 /etc/jiji/network; install -d -m 0700 "
            +:+ network_dir slug +:+ "; install -d -m 0700 /etc/wireguard; " +:+ enable_linger_command).

(** The rule of one profile. *)
Definition apparmor_rule (profile rule : string) : string :=
  let file := "/etc/apparmor.d/" +:+ profile in
  let local := "/etc/apparmor.d/local/" +:+ profile in
  "if test -f " +:+ file +:+ " && grep -Fq 'include if exists <local/" +:+ profile +:+ ">' " +:+ file +:+ "; then touch " +:+ local
  +:+ "; chmod 0644 " +:+ local +:+ "; rule='  " +:+ rule +:+ " r,'; grep -Fqx " +:+ quoted "$rule" +:+ " " +:+ local
  +:+ " || printf '%s\n' " +:+ quoted "$rule" +:+ " >> " +:+ local +:+ "; apparmor_parser -r " +:+ file +:+ "; fi; ".
Definition wg_apparmor_compatibility_command : string :=
  "if test -r /sys/module/apparmor/parameters/enabled && grep -q '^Y' /sys/module/apparmor/parameters/enabled && command -v apparmor_parser >/dev/null 2>&1; then install -d -m 0755 /etc/apparmor.d/local; "
  +:+ apparmor_rule "wg" "/etc/jiji/network/*/private.key"
  +:+ apparmor_rule "wg-quick" "/etc/jiji/network/*/generations/*/wireguard.conf" +:+ "fi".
Definition ensure_wg_apparmor_compatibility : M () := must_run wg_apparmor_compatibility_command.

Definition ensure_keypair (slug : string) : M () :=
  let private := private_key_path slug in
  let public := public_key_path slug in
  must_run ("set -eu; umask 077; test -s " +:+ private +:+ " || wg genkey > " +:+ private +:+ "; wg pubkey < " +:+ private +:+ " > "
            +:+ public +:+ "; chmod 0600 " +:+ private +:+ "; chmod 0644 " +:+ public).

Definition read_public_key (slug server_name : string) : M string :=
  let path := public_key_path slug in
  r ← execute ("test -s " +:+ path +:+ " && cat " +:+ path);
  if negb (success r) || bool_decide (trim (stdout r) = "")
  then fail ("Server '" +:+ server_name +:+ "' has no enrolled WireGuard public key. Run network setup without a host filter once all servers are reachable.")
  else mret (trim (stdout r)).
Definition read_installed_peer_keys (slug : string) : M (gmap string string) :=
  let current := network_current slug in
  r ← attempt (execute ("set -eu; if test -L " +:+ current +:+ "; then cat " +:+ quoted ("$(readlink -f " +:+ current +:+ ")/wireguard.conf")
                        +:+ " 2>/dev/null; fi"));
  mret match r with
       | Ok r => if success r then parse_wireguard_peer_keys (stdout r) else ∅
       | Err _ => ∅
       end.

Definition capture_installed_generation (slug : string) : M InstalledGeneration :=
  let current := network_current slug in
  r ← run_checked ("set -eu; if test -L " +:+ current +:+ "; then readlink -f " +:+ current +:+ "; else printf '%s\n' -; fi");
  of_result (map_err (λ _, "Host " +:+ session_host +:+ " returned invalid installed network generation state")
               (parse_installed_generation (stdout r) slug)).

Definition finalize_wireguard_command (slug dir : string) : string :=
  let staged := "/etc/wireguard/jiji-stage.conf" in
  let conf := dir +:+ "/wireguard.conf" in
  let new := conf +:+ ".new" in
  "set -eu; private_key=$(cat " +:+ private_key_path slug +:+ "); sed " +:+ quoted "s|__JIJI_PRIVATE_KEY__|$private_key|" +:+ " " +:+ conf
  +:+ ".input > " +:+ new +:+ "; chmod 0600 " +:+ new +:+ "; cp " +:+ new +:+ " " +:+ staged +:+ "; wg-quick strip " +:+ staged
  +:+ " >/dev/null; if test -e " +:+ conf +:+ "; then cmp -s " +:+ new +:+ " " +:+ conf
  +:+ " || { echo 'Staged WireGuard content differs inside an existing immutable generation. Upgrade jiji or report an artifact-version bug.' >&2; exit 1; }; rm -f "
  +:+ new +:+ "; else mv " +:+ new +:+ " " +:+ conf +:+ "; fi; rm -f " +:+ conf +:+ ".input " +:+ staged.

Definition stage_host (engine : ContainerEngine) (plan : NetworkPlan) (server : ServerPlan) (public_keys : gmap string string)
    (artifact slug : string) (domains : ActivationDomains) : M () :=
  if ad_mesh domains then
    let dir := network_generations slug +:+ "/" +:+ artifact in
    _ ← must_run ("install -d -m 0750 " +:+ dir);
    _ ← write_staged_file (dir +:+ "/wireguard.conf.input") "0600" (render_wireguard server public_keys);
    _ ← must_run (finalize_wireguard_command slug dir);
    _ ← write_staged_file "/etc/sysctl.d/99-jiji-network.conf" "0644" ("net.ipv4.ip_forward=1" +:+ nl);
    script ← of_result (bridge_restore_script engine plan server);
    _ ← write_generation_file (dir +:+ "/restore.sh") "0750" script;
    _ ← write_generation_file (dir +:+ "/address-ranges") "0644" (address_range_marker plan);
    write_generation_file (dir +:+ "/mesh-generation") "0644" (np_mesh_generation plan +:+ nl)
  else mret ().

Definition activate_host (server : ServerPlan) (mesh_generation artifact slug : string) (activate_mesh : bool) : M () :=
  must_run (render_activation_command server mesh_generation artifact slug activate_mesh).

Definition enroll_command (seed : ServerPlan) (peer : WireGuardPeerPlan) (public_key : string) : string :=
  "wg set " +:+ sp_wireguard_interface seed +:+ " peer " +:+ public_key +:+ " endpoint " +:+ peer_endpoint peer +:+ " allowed-ips "
  +:+ String.concat "," (cidr_to_string <$> peer_allowed_ips peer) +:+ " persistent-keepalive 25".
Definition enroll_target_with_seed (seed : ServerPlan) (target_name : string) (public_keys : gmap string string) : M () :=
  match find (λ p, bool_decide (peer_server p = target_name)) (sp_peers seed) with
  | None => fail ("'" +:+ target_name +:+ "' is not a peer in the seed's own network plan; this should never happen for two servers in the same project")
  | Some peer =>
      public_key ← of_result (ok_or (public_keys !! target_name)
                     ("no enrolled WireGuard public key was read for '" +:+ target_name +:+ "'"));
      must_run (enroll_command seed peer public_key)
  end.

Definition peer_check (server : ServerPlan) (peer : WireGuardPeerPlan) : string :=
  let address := ipv4_to_string (peer_management_address peer) in
  "attempt=0; until ping -c 1 -W 3 " +:+ address +:+ " >/dev/null; do attempt=$((attempt + 1)); [ " +:+ quoted "$attempt"
  +:+ " -ge 5 ] && { echo " +:+ quoted ("WireGuard peer verification failed after 5 attempts: " +:+ sp_name server +:+ " ("
       +:+ ipv4_to_string (sp_management_address server) +:+ ") could not reach " +:+ peer_server peer +:+ " (" +:+ address +:+ ")")
  +:+ " >&2; exit 1; }; sleep 1; done".
Definition verify_command (server : ServerPlan) (plan : NetworkPlan) (domains : ActivationDomains) (public_keys : gmap string string) :
    string :=
  let slug := text (systemd_unit_slug (np_project plan)) in
  let checks := String.concat "; "
    (peer_check server <$> filter (λ p, is_Some (public_keys !! peer_server p)) (sp_peers server)) in
  "set -eu; "
  +:+ (if ad_mesh domains then
         "wg show " +:+ sp_wireguard_interface server +:+ " >/dev/null; ip link show " +:+ sp_bridge_interface server
         +:+ " >/dev/null; ip -4 address show dev " +:+ sp_bridge_interface server +:+ " | grep -F '"
         +:+ ipv4_to_string (sp_bridge_gateway server) +:+ "' >/dev/null; test "
         +:+ quoted ("$(cat " +:+ network_dir slug +:+ "/mesh-generation)") +:+ " = '" +:+ np_mesh_generation plan +:+ "'; " +:+ checks
       else "true").
Definition verify_host (server : ServerPlan) (plan : NetworkPlan) (domains : ActivationDomains)
    (public_keys : gmap string string) : M () :=
  must_run (verify_command server plan domains public_keys).

Definition remove_legacy_service_runtime (plan : NetworkPlan) : M () :=
  let slug := text (systemd_unit_slug (np_project plan)) in
  let table := text (service_nat_table_name (np_project plan)) in
  let root := network_dir slug in
  must_run ("set -eu; systemctl disable --now jiji-dns-" +:+ slug
    +:+ ".service 2>/dev/null || true; systemctl disable --now jiji-service-nat-" +:+ slug
    +:+ ".service 2>/dev/null || true; rm -f /etc/systemd/system/jiji-dns-" +:+ slug
    +:+ ".service /etc/systemd/system/jiji-service-nat-" +:+ slug +:+ ".service " +:+ root +:+ "/restore-service-nat.sh " +:+ root
    +:+ "/service-runtime-generation; rm -rf " +:+ root +:+ "/dns-current " +:+ root +:+ "/dns-generations " +:+ root
    +:+ "/service-nat-current " +:+ root +:+ "/service-nat-generations; nft delete table ip " +:+ table
    +:+ " 2>/dev/null || true; systemctl daemon-reload").

Definition rollback_host (state : InstalledGeneration) (slug : string) (server : ServerPlan) (engine : ContainerEngine)
    (project : string) (domains : ActivationDomains) : M () :=
  _ ← must_run (render_rollback_command state slug server domains);
  if ad_mesh domains && bool_decide (ig_network state = None) then
    _ ← context ("rollback removed jiji's own compiled state on " +:+ session_host
                 +:+ ", but could not remove a partially-created bridge network")
          (remove_bridge_and_engine_network engine project);
    mret ()
  else mret ().
End steps.
