(* ===== verification/NetworkApply.v ===== *)
(** Setting up the network over the servers of a project: [jiji-cli/src/commands/network/setup.rs]
    from [run] to [apply_connected] and [rollback_transaction].  Every target is staged before
    any is activated; a failure from then on rolls back the servers that were attempted, in the
    reverse order.

    The servers are a [Fleet]; what connecting to one comes to is the [Connector].  Printing is
    left out. *)

From S2P Require Import Prelude Text Bytes Substring Cidr Naming Schema Planner ServiceRuntime.
From S2P Require Import Membership Catalog Desired OpLog Leases Cron CronExec Replication Store Api CandidatePlan EnvResolution.
From S2P Require Import Locks Session ProxyRoutes SessionLaws ProxyScript HostProxy AuditTrail Teardown Cascade Fleet NetworkSetup.
Open Scope N_scope.

(** [&plan.mesh_generation[..12]]; the generation is hexadecimal. *)
Definition short_generation `{Host} (plan : NetworkPlan) : F string :=
  if (String.length (np_mesh_generation plan) <? 12)%nat then λ fl, (Crashes, fl)
  else mret (String.substring 0 12 (np_mesh_generation plan)).

Record RollbackContext := {
  rc_previous : gmap string InstalledGeneration;
  rc_activation_domains : gmap string ActivationDomains;
  rc_migrations : gmap string BridgeMigration;
  rc_plan : NetworkPlan;
  rc_engine : ContainerEngine;
  rc_started : gmap string N;
}.

Section rollback.
Context `{Host, Sha256, Operator}.

Definition record_rollback_audit (host : string) (context : RollbackContext) (failed_host phase cause : string)
    (rollback_outcome : result string ()) : F () :=
  let failure := "rollback after " +:+ phase +:+ " failure on '" +:+ failed_host +:+ "': " +:+ cause in
  let message := match rollback_outcome with
                 | Ok _ => failure
                 | Err error => failure +:+ "; rollback itself failed: " +:+ error
                 end in
  started ← index (rc_started context) host;
  on_or host (now ← now_monotonic;
              record (np_project (rc_plan context)) "network_setup" AuditFailed message
                (Some (scope_to_string ProjectMaintenance)) None (Some (now - started))).

(** The bridge and the ingress rule of a server that was to migrate. *)
Definition restore_migration (server : ServerPlan) (engine : ContainerEngine) (plan : NetworkPlan) (migration : BridgeMigration) :
    M (result string ()) :=
  restored ← attempt (restore_previous_bridge engine server migration);
  match restored with
  | Err error => mret (Err ("could not restore previous bridge: " +:+ error))
  | Ok _ =>
      match engine, previous_proxy_address migration with
      | Docker, Some address =>
          ingress ← attempt (public_host ← of_result (parse_public_host server);
                             ensure_ingress_rule address public_host true []);
          mret match ingress with
               | Ok _ => Ok ()
               | Err error => Err ("previous bridge was restored but proxy ingress was not: " +:+ error)
               end
      | _, _ => mret (Ok ())
      end
  end.

(** One server of the rollback: what could not be undone there. *)
Definition rollback_one (context : RollbackContext) (failed_host phase cause host : string) : F (option string) :=
  let plan := rc_plan context in
  let slug := text (systemd_unit_slug (np_project plan)) in
  state ← index (rc_previous context) host;
  domains ← index (rc_activation_domains context) host;
  server ← index (np_servers plan) host;
  migrated ← (match rc_migrations context !! host with
              | Some migration => on_or host (restore_migration server (rc_engine context) plan migration)
              | None => mret (Ok ())
              end);
  outcome ← (match migrated with
             | Err detail => mret (Err detail)
             | Ok _ => on host (rollback_host state slug server (rc_engine context) (np_project plan) domains)
             end);
  _ ← record_rollback_audit host context failed_host phase cause outcome;
  mret match outcome with Ok _ => None | Err detail => Some (host +:+ ": " +:+ detail) end.

Fixpoint rollback_all (context : RollbackContext) (failed_host phase cause : string) (hosts : list string) : F (list string) :=
  match hosts with
  | [] => mret []
  | host :: hosts =>
      failure ← rollback_one context failed_host phase cause host;
      failures ← rollback_all context failed_host phase cause hosts;
      mret (option_list failure ++ failures)
  end.

(** The error of a run that was rolled back says how the rollback went. *)
Definition rollback_error (plan : NetworkPlan) (failed_host phase : string) (rollback_failures : list string) : string :=
  let slug := text (systemd_unit_slug (np_project plan)) in
  let failed := "Network " +:+ phase +:+ " failed on '" +:+ failed_host +:+ "'" in
  if bool_decide (rollback_failures = [])
  then failed +:+ " and all attempted hosts were rolled back. Fix the reported error and rerun `jiji network setup`."
  else failed +:+ ". Rollback also failed on: " +:+ String.concat "; " rollback_failures
       +:+ ". Run `jiji network setup` after restoring SSH access, and inspect `" +:+ network_current slug
       +:+ "` on those hosts.".
(** It never returns. *)
Definition rollback_transaction {A} (attempted : list string) (context : RollbackContext) (failed_host phase cause : string) : F A :=
  rollback_failures ← rollback_all context failed_host phase cause (reverse attempted);
  stops (rollback_error (rc_plan context) failed_host phase rollback_failures).
End rollback.

Section apply.
Context `{Host, Sha256, Operator}.
Context (config : Config) (plan : NetworkPlan).
Let engine := builder_engine (config_builder config).
Let slug := text (systemd_unit_slug (np_project plan)).
Let planned := index (np_servers plan).

Definition preflight_host (mesh_current : gmap string bool) (host : string) : F (option BridgeMigration) :=
  _ ← on_or host require_root;
  _ ← on_or host (reject_monolithic_generation slug);
  _ ← on_or host (ensure_engine_available engine);
  current ← index mesh_current host;
  if (current : bool) then
    _ ← on_or host (write_generation_file (network_current slug +:+ "/address-ranges") "0644" (address_range_marker plan));
    mret None
  else
    server ← planned host;
    on_or host (inspect_conflicts engine host server plan).

Definition prepare_host (mesh_current : gmap string bool) (host : string) : F () :=
  _ ← on_or host ensure_wg_apparmor_compatibility;
  current ← index mesh_current host;
  if (current : bool) then mret ()
  else _ ← on_or host (install_prerequisites slug); on_or host (ensure_keypair slug).

(** Keys of members without a session, from what the servers have installed. *)
Fixpoint recover_keys (public_keys : gmap string string) (hosts : list string) : F (gmap string string) :=
  match hosts with
  | [] => mret public_keys
  | host :: hosts =>
      if bool_decide (size public_keys = size (np_servers plan)) then mret public_keys
      else
        installed ← on_or host (read_installed_peer_keys slug);
        recover_keys (public_keys ∪ filter (λ k : string * string, is_Some (np_servers plan !! k.1)) installed) hosts
  end.

(** Activation of one server: the phase that failed and why. *)
Definition activate_one (artifact : string) (context : RollbackContext) (host : string) : F (option (string * string)) :=
  domains ← index (rc_activation_domains context) host;
  server ← planned host;
  let migration := rc_migrations context !! host in
  detached ← (match migration with
              | Some migration => on host (detach_for_migration engine server migration)
              | None => mret (Ok ())
              end);
  match detached with
  | Err error => mret (Some ("bridge migration", error))
  | Ok _ =>
      activated ← on host (activate_host server (np_mesh_generation plan) artifact slug (ad_mesh domains));
      match activated, migration with
      | Err error, _ => mret (Some ("activation", error))
      | Ok _, None => mret None
      | Ok _, Some migration =>
          reattached ← on host (reattach_after_migration engine server migration);
          match reattached with
          | Err error => mret (Some ("container reattachment", error))
          | Ok _ =>
              if includes_proxy migration && bool_decide (engine = Docker) then
                ingress ← on host (public_host ← of_result (parse_public_host server);
                                   ensure_ingress_rule (sp_proxy_address server) public_host true []);
                mret match ingress with Ok _ => None | Err error => Some ("proxy ingress migration", error) end
              else mret None
          end
      end
  end.

(** The servers are attempted one after the other. *)
Fixpoint activate_all (artifact : string) (context : RollbackContext) (attempted hosts : list string) : F () :=
  match hosts with
  | [] => mret ()
  | host :: hosts =>
      failure ← activate_one artifact context host;
      match failure with
      | Some (phase, cause) => rollback_transaction (attempted ++ [host]) context host phase cause
      | None => activate_all artifact context (attempted ++ [host]) hosts
      end
  end.

(** A step on each target; a failure rolls back all of them. *)
Definition or_roll_back (context : RollbackContext) (targets : list string) (phase : string) (step : string → F (result string ())) :
    F () :=
  each (λ host,
    r ← step host;
    match r with Ok _ => mret () | Err cause => rollback_transaction targets context host phase cause end) targets.

Definition stage_one (public_keys : gmap string string) (artifact : string) (domains : gmap string ActivationDomains)
    (host : string) : F () :=
  server ← planned host;
  domains ← index domains host;
  f_context ("Could not stage generation " +:+ np_mesh_generation plan +:+ " on '" +:+ host
             +:+ "'. No host generation was activated. Fix the reported error and rerun `jiji network setup`.")
    (on_or host (stage_host engine plan server public_keys artifact slug domains)).

(** From the staged generations on. *)
Definition activate_and_verify (public_keys : gmap string string) (artifact : string) (context : RollbackContext)
    (seed : option string) (targets : list string) : F () :=
  _ ← activate_all artifact context [] targets;
  _ ← (match seed with
       | Some seed =>
           seed_server ← planned seed;
           or_roll_back context targets "seed enrollment"
             (λ host, on seed (enroll_target_with_seed seed_server host public_keys))
       | None => mret ()
       end);
  _ ← or_roll_back context targets "verification" (λ host,
        server ← planned host;
        domains ← index (rc_activation_domains context) host;
        on host (verify_host server plan domains public_keys));
  _ ← each (λ host, on_or host (remove_legacy_service_runtime plan)) targets;
  each (λ host,
    generation ← short_generation plan;
    started ← index (rc_started context) host;
    on_or host (now ← now_monotonic;
                record (np_project plan) "network_setup" AuditSuccess ("mesh generation " +:+ generation)
                  (Some (scope_to_string ProjectMaintenance)) None (Some (now - started)))) targets.

Definition apply_connected (target_names : gset string) (hosts : list string) (allow_mesh_changes : bool) : F () :=
  let targets := filter (λ n, n ∈ target_names) hosts in
  mesh_current ← collect_by (λ host,
    if negb allow_mesh_changes then mret true else on_or host (generation_is_current plan)) targets;
  migrations ← collect_by (preflight_host mesh_current) targets;
  _ ← each (prepare_host mesh_current) targets;
  read ← collect_by (λ host, on_or host (read_public_key slug host)) hosts;
  public_keys ← (if (size read <? size (np_servers plan))%nat then recover_keys read hosts else mret read);
  let artifact := artifact_generation (np_mesh_generation plan) public_keys in
  previous ← collect_by (λ host, on_or host (capture_installed_generation slug)) targets;
  let desired_network := network_generations slug +:+ "/" +:+ artifact in
  let activation_domains := (λ installed, {| ad_mesh := negb (bool_decide (ig_network installed = Some desired_network)) |}) <$> previous in
  _ ← each (stage_one public_keys artifact activation_domains) targets;
  started ← collect_by (λ host, on_or host now_monotonic) targets;
  let context := {| rc_previous := previous; rc_activation_domains := activation_domains; rc_migrations := omap id migrations;
                    rc_plan := plan; rc_engine := engine; rc_started := started |} in
  activate_and_verify public_keys artifact context (find (λ n, negb (bool_decide (n ∈ target_names))) hosts) targets.
End apply.

(** ** Connecting and the entry points *)

Section entry_points.
Context `{Host, Sha256, Operator, Connector}.
Context (config : Config) (plan : NetworkPlan).

Definition server_names_sorted : list string := sort_by leb (fst <$> config_servers config).

(** [config.ssh] is there or the command stops. *)
Definition require_ssh (what : string) : F () :=
  match config_ssh config with Some _ => mret () | None => stops what end.
Definition no_ssh : string :=
  "No `ssh:` section is configured. Add at least `ssh.user:` before running network setup.".

(** The options of each server, all before the first connection. *)
Definition all_options (servers : list string) : F () :=
  each (λ n, named ← (match hm_get (config_servers config) n with Some named => mret named | None => λ fl, (Crashes, fl) end);
             of_f (connect_options n named)) servers.

Definition connect_all : F (list string) :=
  if bool_decide (config_servers config = []) then stops "No servers are configured. Add at least one server and retry."
  else
    _ ← require_ssh no_ssh;
    _ ← all_options server_names_sorted;
    if forallb (λ n, is_ok (connect n)) server_names_sorted then mret server_names_sorted
    else stops "Could not reach every configured server. Restore SSH access and retry network setup.".

(** The targets, then other servers until one answers. *)
Fixpoint enroll_hosts (target_names : gset string) (hosts names : list string) : F (list string * bool) :=
  match names with
  | [] => mret (hosts, false)
  | name :: names =>
      named ← (match hm_get (config_servers config) name with Some named => mret named | None => λ fl, (Crashes, fl) end);
      _ ← of_f (connect_options name named);
      match connect name, bool_decide (name ∈ target_names) with
      | Ok _, true => enroll_hosts target_names (hosts ++ [name]) names
      | Ok _, false => mret (hosts ++ [name], true)
      | Err _, true => stops ("Could not connect to required enrollment target '" +:+ name +:+ "'")
      | Err _, false => enroll_hosts target_names hosts names
      end
  end.
Definition connect_enrollment_hosts (target_names : gset string) : F (list string) :=
  _ ← require_ssh "No `ssh:` section is configured";
  let seeds := filter (λ n, n ∉ target_names) server_names_sorted in
  '(hosts, seed_found) ← enroll_hosts target_names [] (btree_elems target_names ++ seeds);
  if (size target_names <? length (config_servers config))%nat && negb seed_found
  then stops "No existing seed server is reachable for enrollment"
  else mret hosts.

Definition apply (target_names : gset string) : F () :=
  _ ← short_generation plan;
  hosts ← connect_all;
  apply_connected config plan target_names hosts true.

(** The servers whose mesh is not the planned one. *)
Fixpoint stale_hosts (deploying : bool) (hosts : list string) : F (list string) :=
  match hosts with
  | [] => mret []
  | host :: hosts =>
      current ← (if deploying then mret true
                 else f_context ("Could not inspect the installed mesh generation on '" +:+ host
                                 +:+ "'. Restore SSH access and retry `jiji deploy`.")
                        (on_or host (generation_is_current plan)));
      stale ← stale_hosts deploying hosts;
      mret ((if (current : bool) then [] else [host +:+ " (mesh)"]) ++ stale)
  end.

Definition reconcile_cluster (retry_command : string) : F () :=
  let deploying := bool_decide (retry_command = "jiji deploy") in
  hosts ← f_context ("Could not reach every configured server for network reconciliation. Restore SSH access and retry `"
                     +:+ retry_command +:+ "`.") connect_all;
  stale ← stale_hosts deploying hosts;
  if bool_decide (stale = []) then
    _ ← each (λ host, on_or host (remove_legacy_service_runtime plan)) hosts;
    _ ← short_generation plan; mret ()
  else
    _ ← short_generation plan;
    f_context ("Network reconciliation failed for stale host(s): " +:+ String.concat ", " stale
               +:+ ". Fix the reported network error and retry `" +:+ retry_command +:+ "`.")
      (apply_connected config plan (dom (np_servers plan)) hosts (negb deploying)).

Definition reconcile_for_server_setup (target_names : gset string) : F () :=
  if bool_decide (size target_names = size (np_servers plan)) then reconcile_cluster "jiji server setup"
  else
    hosts ← connect_enrollment_hosts target_names;
    f_context "Could not bootstrap the selected host through a reachable seed; existing offline peers are not required"
      (apply_connected config plan target_names hosts true).

(** A service deployment leaves the network to the agents. *)
Definition reconcile_for_deploy : F () := mret ().

Definition selected_host_names (host_filters : option string) : result string (gset string) :=
  let? servers := map_err plan_error_text (select_hosts plan (split_comma_trimmed host_filters)) in
  Ok (list_to_set (sp_name <$> servers)).

(** [run] from the plan on; [locked] is what taking the maintenance locks comes to. *)
Definition network_setup (host_filters : option string) (locked : result string ()) : F () :=
  if negb (np_enabled plan) then mret ()
  else
    target_names ← of_f (selected_host_names host_filters);
    _ ← require_ssh no_ssh;
    let named := filter (λ n, n ∈ target_names) server_names_sorted in
    _ ← all_options named;
    let failures := omap (λ n, match connect n, hm_get (config_servers config) n with
                               | Err error, Some server => Some (n +:+ " (" +:+ server_host server +:+ "): " +:+ error)
                               | _, _ => None
                               end) named in
    if negb (bool_decide (failures = []))
    then stops ("Could not connect to server(s): " +:+ String.concat ", " failures +:+ ". Restore SSH access and retry.")
    else _ ← of_f locked; apply target_names.
End entry_points.
