(* ===== verification/WireguardConf.v ===== *)
(** The WireGuard configuration of a server read back: the names and public keys of its peers
    that [parse_wireguard_peer_keys] finds in what [render_wireguard] wrote. *)

From S2P Require Import Prelude Text Bytes Substring Cidr Naming Schema Planner ServiceRuntime.
From S2P Require Import Membership Catalog Desired OpLog Leases Cron CronExec Replication Store Api CandidatePlan EnvResolution.
From S2P Require Import Locks Session ProxyRoutes SessionLaws ProxyScript HostProxy NetworkSetup.
Open Scope N_scope.

(** ** Text of a configuration *)

Definition printable (c : ascii) : Prop := 32 ≤ N_of_ascii c < 127.
Definition visible (c : ascii) : Prop := 32 < N_of_ascii c < 127.
(** A name, a key or an endpoint as it stands in a configuration: one word of visible ASCII. *)
Definition word (s : string) : Prop := Forall visible (bytes s) ∧ s ≠ "".
Definition printed (s : string) : Prop := Forall printable (bytes s).

Ltac each_line :=
  repeat match goal with |- Forall printed (_ :: _) => apply Forall_cons; split | |- Forall printed [] => constructor end;
  try by repeat constructor.

Lemma printed_app s t : printed s → printed t → printed (s +:+ t).
Proof. intros. unfold printed. rewrite bytes_app. by apply Forall_app. Qed.
Lemma word_printed s : word s → printed s.
Proof. intros [Hs _]. eapply Forall_impl; [exact Hs|]. unfold visible, printable. lia. Qed.
Lemma pretty_printed (n : N) : printed (pretty n).
Proof.
  unfold pretty, pretty_N. case_decide; [by repeat constructor|].
  assert (∀ n s, printed s → printed (pretty_N_go n s)) as Hgo.
  { clear. induction n as [n IH] using (well_founded_induction N.lt_wf_0). intros s Hs.
    destruct (decide (0 < n)) as [Hn|Hn]; [|replace n with 0 by lia; by rewrite pretty_N_go_0].
    rewrite pretty_N_go_step by done. apply IH; [apply N.div_lt; lia|]. constructor; [|done].
    unfold pretty_N_char. repeat case_match; unfold printable; simpl; lia. }
  apply Hgo. constructor.
Qed.
Lemma concat_printed sep l : printed sep → Forall printed l → printed (String.concat sep l).
Proof.
  intros Hsep. induction 1 as [|s l Hs Hl IH]; [constructor|]. simpl. destruct l; [done|]. by repeat apply printed_app.
Qed.
Lemma ipv4_printed a : printed (ipv4_to_string a).
Proof. unfold ipv4_to_string. repeat (apply printed_app; [apply pretty_printed|apply printed_app; [by repeat constructor|]]). apply pretty_printed. Qed.
Lemma cidr_printed c : printed (cidr_to_string c).
Proof. unfold cidr_to_string, cidr_text. apply printed_app; [apply ipv4_printed|]. apply printed_app; [by repeat constructor|apply pretty_printed]. Qed.

(** *** Lines *)

Lemma printed_lines l : Forall printed l → lines (text_lines l) = l.
Proof.
  intros Hl. assert (split_char newline (text_lines l) = l ++ [""]) as Hs.
  { induction Hl as [|s l Hs Hl IH]; [done|]. 
    replace (text_lines (s :: l)) with (s +:+ String newline (text_lines l)).
    { rewrite split_char_line, IH; [done|]. intros Hin. eapply Forall_forall in Hs; [|exact Hin].
      unfold printable in Hs. simpl in Hs. lia. }
    unfold text_lines. destruct l; simpl; by rewrite ?append_assoc. }
  unfold lines. rewrite Hs, rev_app_distr. simpl. rewrite app_nil_r.
  rewrite <-map_rev, rev_involutive. clear Hs. induction Hl as [|s l Hp Hl IH]; [done|]. simpl. f_equal; [|done].
  unfold strip_cr. destruct (rev (bytes s)) as [|c r] eqn:Hr; [done|]. rewrite bool_decide_false; [done|]. intros ->.
  assert (carriage_return ∈ bytes s) as Hin by (apply list_elem_of_In, in_rev; rewrite Hr; by left).
  eapply Forall_forall in Hp; [|exact Hin]. unfold printable in Hp. simpl in Hp. lia.
Qed.

(** *** Trimming *)

Lemma printed_chars s : printed s → utf8_chars s = (λ c, [c]) <$> bytes s.
Proof.
  unfold printed, utf8_chars. generalize (bytes s). induction 1 as [|c l [_ Hc] Hl IH]; [done|]. simpl.
  unfold utf8_width. rewrite (proj2 (N.ltb_lt _ 192)) by lia. cbn [take drop]. by rewrite take_0, drop_0, IH.
Qed.
Lemma visible_not_space c : visible c → is_whitespace [c] = false.
Proof.
  intros Hc. rewrite <-(ascii_N_embedding c). apply negb_true_iff.
  assert (implb ((32 <? N_of_ascii c) && (N_of_ascii c <? 127)) (negb (is_whitespace [ascii_of_N (N_of_ascii c)])) = true) as Hi.
  { apply (N_below_forallb 256 (λ n, implb ((32 <? n) && (n <? 127)) (negb (is_whitespace [ascii_of_N n])))); [by vm_compute|].
    apply N_ascii_bounded. }
  unfold visible in Hc. by rewrite (proj2 (N.ltb_lt _ _) (proj1 Hc)), (proj2 (N.ltb_lt _ _) (proj2 Hc)) in Hi.
Qed.
Lemma mjoin_singles (l : list ascii) : mjoin ((λ c, [c]) <$> l) = l.
Proof. induction l as [|c l IH]; [done|]. exact (f_equal (cons c) IH). Qed.

(** A line that begins and ends with something to see is not trimmed. *)
Lemma trim_line c s d : visible c → visible d → printed s → trim (String c (s +:+ String d "")) = String c (s +:+ String d "").
Proof.
  intros Hc Hd Hs. assert (printed (String c (s +:+ String d ""))) as Hp.
  { constructor; [unfold visible, printable in *; lia|]. apply printed_app; [done|]. repeat constructor; unfold visible in *; lia. }
  unfold trim, trim_chars. rewrite printed_chars by done. simpl. rewrite (visible_not_space c Hc). simpl.
  fold bytes. rewrite bytes_app, fmap_app, rev_app_distr. simpl. rewrite (visible_not_space d Hd). simpl.
  rewrite rev_app_distr, rev_involutive. simpl. unfold of_chars. simpl. f_equal.
  change [[d]] with ((λ c, [c]) <$> [d]). rewrite <-fmap_app, mjoin_singles. change [d] with (bytes (String d "")).
  rewrite <-bytes_app. apply of_bytes_bytes.
Qed.
Lemma word_last s : word s → ∃ t d, s = t +:+ String d "" ∧ printed t ∧ visible d.
Proof.
  intros [Hs Hn]. destruct (bytes s) as [|x l _] eqn:Hb using rev_ind.
  { by destruct s. }
  apply Forall_app in Hs as [Hl Hx]. apply Forall_cons in Hx as [Hx _]. exists (of_bytes l), x. split_and!; [|..|done].
  - apply bytes_inj. by rewrite bytes_app, bytes_of_bytes.
  - unfold printed. rewrite bytes_of_bytes. eapply Forall_impl; [exact Hl|]. unfold visible, printable. lia.
Qed.
Lemma trim_labelled c label s : visible c → printed label → word s → trim (String c label +:+ s) = String c label +:+ s.
Proof.
  intros Hc Hl (t & d & -> & Ht & Hd)%word_last. change (String c label +:+ (t +:+ String d "")) with (String c (label +:+ (t +:+ String d ""))).
  rewrite <-append_assoc. by apply trim_line; [..|apply printed_app].
Qed.
Lemma trim_word s : word s → trim s = s.
Proof.
  intros Hw. destruct s as [|c s]; [by destruct Hw|]. destruct Hw as [[Hc Hs]%Forall_cons _].
  destruct (decide (s = "")) as [->|Hn].
  - unfold trim, trim_chars. rewrite printed_chars by (repeat constructor; unfold visible in Hc; lia). simpl.
    rewrite (visible_not_space c Hc). simpl. by rewrite (visible_not_space c Hc).
  - assert (word s) as (t & d & -> & Ht & Hd)%word_last by done. by apply trim_line.
Qed.

Lemma drop_whitespace_last l ch : is_whitespace ch = false → ∃ l', drop_whitespace (l ++ [ch]) = l' ++ [ch].
Proof.
  intros Hc. induction l as [|x l [l' IH]]; simpl; [rewrite Hc; by exists []|].
  destruct (is_whitespace x); [by exists l'|by exists (x :: l)].
Qed.
Lemma trim_first c s : visible c → printed s → ∃ t, trim (String c s) = String c t.
Proof.
  intros Hc Hs. unfold trim, trim_chars. rewrite printed_chars by (constructor; [unfold visible, printable in *; lia|done]).
  change ((λ c, [c]) <$> bytes (String c s)) with ([c] :: ((λ c, [c]) <$> bytes s)).
  cbn [drop_whitespace]. rewrite (visible_not_space c Hc). cbn [rev].
  destruct (drop_whitespace_last (rev ((λ c, [c]) <$> bytes s)) [c] (visible_not_space c Hc)) as [l' ->].
  rewrite rev_app_distr. simpl. unfold of_chars. simpl. by eexists.
Qed.

(** *** The peers *)

(** Lines the reader passes over. *)
Lemma other_line st c s :
  visible c → c ≠ "["%char → c ≠ "#"%char → c ≠ "P"%char → printed s → peer_key_line st (String c s) = st.
Proof.
  intros Hc H1 H2 H3 Hs. destruct st as [[keys name] in_peer]. unfold peer_key_line.
  destruct (trim_first c s Hc Hs) as [t ->]. rewrite bool_decide_false by congruence.
  unfold starts_with, strip_prefix; fold strip_prefix. rewrite bool_decide_false by congruence. destruct in_peer; [|done]. simpl.
  by rewrite !bool_decide_false by congruence.
Qed.

(** The keys of [peers], by name. *)
Definition add_key (public_keys keys : gmap string string) (peer : WireGuardPeerPlan) : gmap string string :=
  match public_keys !! peer_server peer with Some key => <[peer_server peer := key]> keys | None => keys end.
Definition peer_keys (public_keys : gmap string string) (peers : list WireGuardPeerPlan) : gmap string string :=
  foldl (add_key public_keys) ∅ peers.

Definition readable (public_keys : gmap string string) (peer : WireGuardPeerPlan) : Prop :=
  word (peer_server peer) ∧ printed (peer_endpoint peer) ∧ ∀ key, public_keys !! peer_server peer = Some key → word key.

Lemma render_peer_printed public_keys peer : readable public_keys peer → Forall printed (render_peer public_keys peer).
Proof.
  intros (Hn & He & Hk). unfold render_peer. destruct (_ !! _) as [key|]; [|constructor]. specialize (Hk key eq_refl).
  each_line.
  all: apply printed_app; [by repeat constructor|]; try done; try by apply word_printed.
  apply (concat_printed ", "); [by repeat constructor|]. apply Forall_fmap, Forall_true. intros c. apply cidr_printed.
Qed.
Lemma peer_is_read public_keys peer keys in_peer :
  readable public_keys peer →
  ∃ in_peer', foldl peer_key_line (keys, None, in_peer) (render_peer public_keys peer) =
    (add_key public_keys keys peer, None, in_peer').
Proof.
  intros (Hn & He & Hk). unfold render_peer, add_key. destruct (_ !! _) as [key|]; [|by exists in_peer]. specialize (Hk key eq_refl). exists true.
  cbn [foldl].
  assert (peer_key_line (keys, None, in_peer) "" = (keys, None, in_peer)) as -> by (by destruct in_peer).
  assert (peer_key_line (keys, None, in_peer) "[Peer]" = (keys, None, true)) as -> by done.
  assert (peer_key_line (keys, None, true) ("# " +:+ peer_server peer) = (keys, Some (peer_server peer), true)) as ->.
  { unfold peer_key_line. rewrite trim_labelled by (done || by repeat constructor). simpl. by rewrite trim_word. }
  assert (peer_key_line (keys, Some (peer_server peer), true) ("PublicKey = " +:+ key)
          = (<[peer_server peer := key]> keys, None, true)) as ->.
  { unfold peer_key_line. rewrite trim_labelled by (done || by repeat constructor). simpl. by rewrite trim_word. }
  assert (∀ st, peer_key_line st ("Endpoint = " +:+ peer_endpoint peer) = st) as ->.
  { intros st. apply (other_line st "E" ("ndpoint = " +:+ peer_endpoint peer)); try done. by apply printed_app; [repeat constructor|]. }
  assert (∀ st, peer_key_line st ("AllowedIPs = " +:+ String.concat ", " (cidr_to_string <$> peer_allowed_ips peer)) = st) as ->; [|done].
  intros st. apply (other_line st "A" ("llowedIPs = " +:+ String.concat ", " (cidr_to_string <$> peer_allowed_ips peer))); try done.
  apply printed_app; [by repeat constructor|]. apply concat_printed; [by repeat constructor|].
  apply Forall_fmap, Forall_true. intros c. apply cidr_printed.
Qed.
Lemma peers_are_read public_keys peers keys in_peer :
  Forall (readable public_keys) peers →
  ∃ in_peer', foldl peer_key_line (keys, None, in_peer) (mjoin (render_peer public_keys <$> peers)) =
    (foldl (add_key public_keys) keys peers, None, in_peer').
Proof.
  intros Hp. revert keys in_peer. induction Hp as [|p peers Hp Hps IH]; intros keys in_peer; [by exists in_peer|].
  rewrite fmap_cons. change (mjoin (?x :: ?l)) with (x ++ mjoin l). rewrite foldl_app.
  destruct (peer_is_read public_keys p keys in_peer Hp) as [b ->]. apply IH.
Qed.
Lemma lookup_peer_keys public_keys peers n :
  peer_keys public_keys peers !! n = if bool_decide (n ∈ peer_server <$> peers) then public_keys !! n else None.
Proof.
  unfold peer_keys. induction peers as [|p peers IH] using rev_ind; [done|]. rewrite foldl_app. cbn [foldl].
  rewrite fmap_app. unfold add_key at 1. destruct (decide (n = peer_server p)) as [->|Hn].
  - rewrite bool_decide_true by (apply elem_of_app; right; by left).
    destruct (public_keys !! peer_server p) eqn:Hk; [by rewrite lookup_insert_eq|]. rewrite IH. by case_bool_decide.
  - transitivity (foldl (add_key public_keys) ∅ peers !! n).
    { destruct (public_keys !! peer_server p); [by rewrite lookup_insert_ne|done]. }
    rewrite IH. erewrite bool_decide_ext; [done|]. rewrite elem_of_app. simpl. rewrite list_elem_of_singleton. tauto.
Qed.
Lemma keys_are_read server public_keys :
  Forall (readable public_keys) (sp_peers server) →
  parse_wireguard_peer_keys (render_wireguard server public_keys) = peer_keys public_keys (sp_peers server).
Proof.
  intros Hp. unfold parse_wireguard_peer_keys, render_wireguard. rewrite printed_lines.
  - rewrite foldl_app. cbn [foldl].
    assert (∀ st, peer_key_line st ("ListenPort = " +:+ pretty (sp_wireguard_port server)) = st) as ->.
    { intros st. apply (other_line st "L" ("istenPort = " +:+ pretty (sp_wireguard_port server))); try done.
      apply printed_app; [by repeat constructor|apply pretty_printed]. }
    assert (∀ st, peer_key_line st ("Address = " +:+ ipv4_to_string (sp_management_address server) +:+ "/32") = st) as ->.
    { intros st. apply (other_line st "A" ("ddress = " +:+ ipv4_to_string (sp_management_address server) +:+ "/32")); try done.
      apply printed_app; [by repeat constructor|]. apply printed_app; [apply ipv4_printed|by repeat constructor]. }
    assert (peer_key_line (peer_key_line (∅, None, false) "[Interface]") "PrivateKey = __JIJI_PRIVATE_KEY__" = (∅, None, false)) as -> by done.
    by destruct (peers_are_read public_keys (sp_peers server) ∅ false Hp) as [b ->].
  - apply Forall_app. split.
    + each_line.
      * apply (printed_app "Address = "); [by repeat constructor|]. apply printed_app; [apply ipv4_printed|by repeat constructor].
      * apply (printed_app "ListenPort = "); [by repeat constructor|apply pretty_printed].
    + induction Hp as [|p peers Hp Hps IH]; [constructor|]. rewrite fmap_cons. apply Forall_app. split; [by apply render_peer_printed|done].
Qed.

Module ConfProps.
(** The keys of the peers survive the configuration.  For names and keys of one word of visible
    ASCII, what a server reads back from the configuration that was rendered for it is, for every
    peer of its plan, the public key the configuration was rendered with, or nothing where there
    was none, and it reads nothing else. *)
Theorem rendered_keys_are_read_back server public_keys n :
  Forall (readable public_keys) (sp_peers server) →
  parse_wireguard_peer_keys (render_wireguard server public_keys) !! n =
    if bool_decide (n ∈ peer_server <$> sp_peers server) then public_keys !! n else None.
Proof. intros Hp. by rewrite keys_are_read, lookup_peer_keys. Qed.

Lemma rendered_keys_are_read_back_witness :
  ∃ s, np_servers PlannerProps.sample_plan !! "a" = Some s ∧
    parse_wireguard_peer_keys (render_wireguard s {[ "a" := "own="; "b" := "Zm9v=" ]}) !! "b" = Some "Zm9v=".
Proof.
  destruct (np_servers PlannerProps.sample_plan !! "a") as [s|] eqn:Es; [|vm_compute in Es; discriminate Es].
  exists s. split; [done|]. vm_compute in Es. injection Es as <-. rewrite rendered_keys_are_read_back; [by vm_compute|].
  constructor; [|constructor]. split_and!; [split; [by repeat constructor|done]|by repeat constructor|].
  intros key [= <-]. split; [by repeat constructor|done].
Defined.
End ConfProps.
