(* ===== verification/NetworkLaws.v ===== *)
(** Properties of setting up the network: what is read back from a configuration, and what a run
    over several servers leaves on each of them, whichever command fails on the way. *)

From S2P Require Import Prelude Text Bytes Substring Cidr Naming Schema Planner ServiceRuntime.
From S2P Require Import Membership Catalog Desired OpLog Leases Cron CronExec Replication Store Api CandidatePlan EnvResolution.
From S2P Require Import Locks Session ProxyRoutes SessionLaws ProxyScript HostProxy AuditTrail Teardown TeardownLaws Cascade Fleet FleetLaws.
From S2P Require Import FleetLogs NetworkSetup NetworkApply.
Open Scope N_scope.

(** ** Activation and rollback in a log *)

(** How the commands start that make a generation the current one and that take it back. *)
Definition is_activation (c : string) : bool := starts_with "set -eu; systemctl daemon-reload; " c.
Definition is_rollback (c : string) : bool :=
  existsb (λ p, starts_with p c) ["set -eu; ln -sfn "; "set -eu; ip link delete "; "set -eu; true; systemctl daemon-reload; "].

Lemma activation_is_activation server generation artifact slug mesh :
  is_activation (render_activation_command server generation artifact slug mesh) = true.
Proof. reflexivity. Qed.
Lemma rollback_is_rollback state slug server domains : is_rollback (render_rollback_command state slug server domains) = true.
Proof. destruct state as [[path|]], domains as [[]]; reflexivity. Qed.

(** [Unclear]: the latest of these commands failed, and may have done a part of its work. *)
Inductive Standing := Untouched | Activated | RolledBack | Unclear.
Definition went_well (o : result string CommandResult) : bool := match o with Ok r => success r | Err _ => false end.
(** What the latest of these commands in a log was, and whether it succeeded. *)
Fixpoint standing (l : list Event) : Standing :=
  match l with
  | [] => Untouched
  | Executed c _ o :: l =>
      if is_activation c then if went_well o then Activated else Unclear
      else if is_rollback c then if went_well o then RolledBack else Unclear
      else standing l
  | Asked _ _ _ _ _ :: l => standing l
  end.

Definition neutral (c : string) : Prop := is_activation c = false ∧ is_rollback c = false.
Lemma standing_neutral l l' : Forall (executes neutral) l' → standing (l' ++ l) = standing l.
Proof.
  induction l' as [|ev l' IH]; intros Hf; [done|]. apply Forall_cons in Hf as [(c & i & o & -> & Ha & Hr) Hf].
  simpl. by rewrite Ha, Hr, IH.
Qed.

Ltac neutral := solve [split; reflexivity].

(** *** Programs that neither activate nor roll back *)

Section neutral.
Context `{Host, Sha256, Operator} (engine : ContainerEngine).

Lemma must_run_neutral c : neutral c → issues neutral (must_run c).
Proof. intros Hc. unfold must_run. issues. done. Qed.
Lemma must_run_with_neutral c i : neutral c → issues neutral (must_run_with c i).
Proof. intros Hc. unfold must_run_with, ensure_success. issues. done. Qed.
Lemma record_neutral p a s m sc d t : issues neutral (record p a s m sc d t).
Proof. unfold record, new_entry, append_entry. issues; neutral. Qed.
Lemma ingress_neutral a p b t : issues neutral (ensure_ingress_rule a p b t).
Proof. unfold ensure_ingress_rule, write_remote_file, run_required. issues; neutral. Qed.
Lemma generation_is_current_neutral plan : issues neutral (generation_is_current plan).
Proof. unfold generation_is_current, monolithic. issues; neutral. Qed.
Lemma require_root_neutral : issues neutral require_root.
Proof. unfold require_root. issues; neutral. Qed.
Lemma reject_monolithic_neutral slug : issues neutral (reject_monolithic_generation slug).
Proof. unfold reject_monolithic_generation, monolithic. issues; neutral. Qed.
Lemma engine_available_neutral : issues neutral (ensure_engine_available engine).
Proof. unfold ensure_engine_available. issues; neutral. Qed.
Lemma generation_file_neutral p m c : issues neutral (write_generation_file p m c).
Proof. apply must_run_with_neutral. neutral. Qed.
Lemma staged_file_neutral p m c : issues neutral (write_staged_file p m c).
Proof. apply must_run_with_neutral. neutral. Qed.
Lemma migration_neutral server : issues neutral (inspect_migration engine server).
Proof. unfold inspect_migration, inspect_attachment, ensure_success. issues; destruct engine; neutral. Qed.
Lemma conflicts_neutral name server plan : issues neutral (inspect_conflicts engine name server plan).
Proof.
  unfold inspect_conflicts. issues; [neutral|apply migration_neutral|apply must_run_neutral].
  unfold bridge_validation_command. destruct engine; neutral.
Qed.
Lemma prerequisites_neutral slug : issues neutral (install_prerequisites slug).
Proof. apply must_run_neutral. neutral. Qed.
Lemma apparmor_neutral : issues neutral ensure_wg_apparmor_compatibility.
Proof. apply must_run_neutral. neutral. Qed.
Lemma keypair_neutral slug : issues neutral (ensure_keypair slug).
Proof. apply must_run_neutral. neutral. Qed.
Lemma public_key_neutral slug name : issues neutral (read_public_key slug name).
Proof. unfold read_public_key. issues; neutral. Qed.
Lemma peer_keys_neutral slug : issues neutral (read_installed_peer_keys slug).
Proof. unfold read_installed_peer_keys. issues; neutral. Qed.
Lemma capture_neutral slug : issues neutral (capture_installed_generation slug).
Proof. unfold capture_installed_generation. issues; neutral. Qed.
Lemma stage_host_neutral plan server keys artifact slug domains :
  issues neutral (stage_host engine plan server keys artifact slug domains).
Proof.
  unfold stage_host. destruct (ad_mesh domains); [|apply issues_ret].
  apply issues_bind; [apply must_run_neutral; neutral|intros _]. apply issues_bind; [apply staged_file_neutral|intros _].
  apply issues_bind; [apply must_run_neutral; neutral|intros _]. apply issues_bind; [apply staged_file_neutral|intros _].
  apply issues_bind; [apply issues_of_result|intros script]. do 2 (apply issues_bind; [apply generation_file_neutral|intros _]).
  apply generation_file_neutral.
Qed.
Lemma detach_neutral server migration : issues neutral (detach_for_migration engine server migration).
Proof.
  unfold detach_for_migration. issues. unfold detach_command.
  destruct engine, (bm_attachments migration) as [|a [|b l]]; neutral.
Qed.
Lemma reattach_neutral server migration : issues neutral (reattach_after_migration engine server migration).
Proof.
  unfold reattach_after_migration, reattach, reconcile_podman_dns_address, render_podman_dns_address_command.
  destruct engine; simpl; issues; neutral.
Qed.
Lemma enroll_neutral seed target keys : issues neutral (enroll_target_with_seed seed target keys).
Proof. unfold enroll_target_with_seed. issues. apply must_run_neutral. neutral. Qed.
Lemma verify_neutral server plan domains keys : issues neutral (verify_host server plan domains keys).
Proof. apply must_run_neutral. unfold verify_command. destruct (ad_mesh domains); neutral. Qed.
Lemma legacy_neutral plan : issues neutral (remove_legacy_service_runtime plan).
Proof. apply must_run_neutral. neutral. Qed.
Lemma restore_neutral server plan migration : issues neutral (restore_migration server engine plan migration).
Proof.
  unfold restore_migration, restore_previous_bridge. issues; try apply ingress_neutral.
  unfold restore_bridge_command. destruct engine, (bm_attachments migration) as [|a [|b l]]; neutral.
Qed.
Lemma remove_bridge_neutral project : issues neutral (remove_bridge_and_engine_network engine project).
Proof.
  unfold remove_bridge_and_engine_network, network_attachment_count, remove_network_if_present, ensure_success. issues; destruct engine; neutral.
Qed.
End neutral.
#[export] Hint Resolve must_run_neutral record_neutral ingress_neutral generation_is_current_neutral require_root_neutral
  reject_monolithic_neutral engine_available_neutral generation_file_neutral staged_file_neutral migration_neutral
  conflicts_neutral prerequisites_neutral apparmor_neutral keypair_neutral public_key_neutral peer_keys_neutral
  capture_neutral stage_host_neutral detach_neutral reattach_neutral enroll_neutral verify_neutral legacy_neutral
  restore_neutral remove_bridge_neutral : issues.

(** ** Programs on one server *)

Section logs.
Context `{Host} (fl0 : gmap string World).

(** Closed under what activates nothing and takes nothing back. *)
Definition calm (Ψ : string → list Event → Prop) : Prop :=
  ∀ n l l', Forall (executes neutral) l' → Ψ n l → Ψ n (l' ++ l).
Definition lasting (Φ : list Event → Prop) : Prop := ∀ l l1 l2, Φ l → Φ (l1 ++ l ++ l2).

Lemma adds_must_run c :
  adds (λ l, ∃ o, l = [Executed c "" o]) (λ _ l, ∃ r, l = [Executed c "" (Ok r)] ∧ success r = true) (must_run c).
Proof.
  intros w. destruct (adds_run_checked c w) as (l & Hl & Hp & Ha). unfold must_run, mbind, M_bind. exists l.
  destruct (run_checked c w) as [[a| | |] w']; simpl in *; eauto.
Qed.

(** A neutral program, and what its answer adds for good. *)
Lemma holds_on_neutral {A} Ψ n (m : M A) (Φ : A → list Event → Prop) :
  calm Ψ → (∀ a, lasting (Φ a)) → adds (Forall (executes neutral)) Φ m →
  holds (Since fl0 Ψ) (on n m)
    (λ r, Since fl0 (λ k l, Ψ k l ∧ match r with Ok a => k = n → Φ a l | Err _ => True end)) (λ _, False).
Proof.
  intros Hc HΦ Hm. eapply holds_conseq; [exact (holds_on fl0 Ψ n m _ Φ Hm)|done| |done]. intros r fl. apply Since_impl.
  intros k l. case_bool_decide as Hk.
  - intros (l' & l0 & -> & HΨ & Hn & Hr). split; [by apply Hc|]. destruct r; [|done]. intros _. by apply (HΦ _ _ [] l0).
  - intros HΨ. split; [done|]. by destruct r.
Qed.
Lemma holds_on_or {A} Ψ n (m : M A) (Φ : A → list Event → Prop) :
  calm Ψ → (∀ a, lasting (Φ a)) → adds (Forall (executes neutral)) Φ m →
  holds (Since fl0 Ψ) (on_or n m) (λ a, Since fl0 (λ k l, Ψ k l ∧ (k = n → Φ a l))) (Since fl0 Ψ).
Proof.
  intros Hc HΦ Hm. eapply holds_bind.
  { eapply holds_conseq; [by apply (holds_on_neutral Ψ n m Φ)|done|intros r fl Hr; exact Hr|done]. }
  intros [a|e]; [by apply holds_ret|]. apply holds_stops. intros fl. apply Since_impl. by intros k l [? _].
Qed.

(** *** Programs that are neutral everywhere *)

Definition passive {A} (m : F A) : Prop := ∀ Ψ, calm Ψ → holds (Since fl0 Ψ) m (λ _, Since fl0 Ψ) (Since fl0 Ψ).

Lemma passive_ret {A} (a : A) : passive (mret a).
Proof. intros Ψ Hc. by apply holds_ret. Qed.
Lemma passive_bind {A B} (m : F A) (f : A → F B) : passive m → (∀ a, passive (f a)) → passive (m ≫= f).
Proof. intros Hm Hf Ψ Hc. eapply holds_bind; [by apply Hm|]. intros a. by apply Hf. Qed.
Lemma holds_on_passive {A} Ψ n (m : M A) :
  calm Ψ → issues neutral m → holds (Since fl0 Ψ) (on n m) (λ _, Since fl0 Ψ) (λ _, False).
Proof.
  intros Hc Hm. eapply holds_conseq; [apply (holds_on_neutral Ψ n m (λ _ _, True)); [done|done|by apply issues_adds]|done| |done].
  intros r fl. apply Since_impl. by intros k l [? _].
Qed.
Lemma passive_on {A} n (m : M A) : issues neutral m → passive (on n m).
Proof. intros Hm Ψ Hc. eapply holds_conseq; [by apply holds_on_passive|done..]. Qed.
Lemma passive_on_or {A} n (m : M A) : issues neutral m → passive (on_or n m).
Proof.
  intros Hm. apply passive_bind; [by apply passive_on|]. intros [a|e]; [apply passive_ret|]. intros Ψ Hc. by apply holds_stops.
Qed.
Lemma passive_index {A} (m : gmap string A) n : passive (index m n).
Proof. intros Ψ Hc fl Hs. unfold index. by destruct (m !! n). Qed.
Lemma passive_each {A} (f : A → F ()) l : (∀ a, a ∈ l → passive (f a)) → passive (each f l).
Proof.
  induction l as [|a l IH]; intros Hf; simpl; [apply passive_ret|]. apply passive_bind; [apply Hf; by left|].
  intros _. apply IH. intros. apply Hf. by right.
Qed.

(** What each server gave, with what its log says of it. *)
Lemma holds_collect_by {A} Ψ (f : string → F A) (Φ : string → A → list Event → Prop) hosts :
  calm Ψ → (∀ n a, lasting (Φ n a)) →
  (∀ n, n ∈ hosts → ∀ Ψ, calm Ψ → holds (Since fl0 Ψ) (f n) (λ a, Since fl0 (λ k l, Ψ k l ∧ (k = n → Φ n a l))) (Since fl0 Ψ)) →
  holds (Since fl0 Ψ) (collect_by f hosts)
    (λ m fl, dom m = list_to_set hosts ∧ Since fl0 (λ k l, Ψ k l ∧ ∀ a, m !! k = Some a → Φ k a l) fl) (Since fl0 Ψ).
Proof.
  intros Hc HΦ. revert Ψ Hc. induction hosts as [|n hosts IH]; intros Ψ Hc Hf; simpl.
  { apply holds_ret. intros fl Hs. split; [by rewrite dom_empty_L|]. revert Hs. apply Since_impl. intros k l HΨ.
    split; [done|]. intros a Ha. by rewrite lookup_empty in Ha. }
  eapply holds_bind; [apply Hf; [by left|done]|]. intros a. set (Ψ' := λ k l, Ψ k l ∧ (k = n → Φ n a l)).
  assert (calm Ψ') as Hc'.
  { intros k l l' Hn [HΨ Ha]. split; [by apply Hc|]. intros Hk. specialize (HΦ n a l l' [] (Ha Hk)).
    by rewrite app_nil_r in HΦ. }
  eapply holds_bind.
  { eapply holds_conseq; [apply (IH Ψ' Hc'); intros; apply Hf; [by right|done]|done|intros m fl Hm; exact Hm|].
    intros fl. apply Since_impl. by intros k l [? _]. }
  intros m. apply holds_ret. intros fl [Hd Hs]. split; [by rewrite dom_insert_L, Hd|]. revert Hs. apply Since_impl.
  intros k l [[HΨ Ha] Hm]. split; [done|]. intros b. rewrite lookup_insert_Some. intros [[<- <-]|[_ Hb]]; [by apply Ha|by apply Hm].
Qed.
Lemma holds_collect_passive {A} Ψ (f : string → F A) hosts :
  calm Ψ → (∀ n, n ∈ hosts → passive (f n)) → holds (Since fl0 Ψ) (collect_by f hosts) (λ m fl, dom m = list_to_set hosts ∧ Since fl0 Ψ fl) (Since fl0 Ψ).
Proof.
  intros Hc Hf. eapply holds_conseq; [apply (holds_collect_by Ψ f (λ _ _ _, True)); [done|done|]|done| |done].
  - intros n Hn Ψ' Hc'. eapply holds_conseq; [by apply (Hf n Hn)|done| |done]. intros a fl. apply Since_impl. auto.
  - intros m fl [Hd Hs]. split; [done|]. revert Hs. apply Since_impl. by intros k l [? _].
Qed.
Lemma passive_collect {A} (f : string → F A) hosts : (∀ n, n ∈ hosts → passive (f n)) → passive (collect_by f hosts).
Proof. intros Hf Ψ Hc. eapply holds_conseq; [by apply holds_collect_passive|auto|by intros m fl [_ ?]|auto]. Qed.
End logs.

(** ** A run over the targets *)

Section setup.
Context `{Host, Sha256, Operator}.
Context (config : Config) (plan : NetworkPlan) (fl0 : gmap string World).
Let engine := builder_engine (config_builder config).
Let slug := text (systemd_unit_slug (np_project plan)).

(** A server is not left with what a failed run has activated: it was never touched, the
    rollback succeeded, or the error of the run names the server. *)
Definition taken_back (failures : list string) (n : string) (l : list Event) : Prop :=
  standing l = Untouched ∨ standing l = RolledBack ∨ ∃ detail, n +:+ ": " +:+ detail ∈ failures.
(** A server has passed its check after its generation was activated. *)
Definition verified (n : string) (l : list Event) : Prop :=
  ∃ later before i r server domains keys, np_servers plan !! n = Some server ∧
    l = later ++ Executed (verify_command server plan domains keys) i (Ok r) :: before ∧
    success r = true ∧ standing before = Activated.

Lemma lasting_calm (Ψ : string → list Event → Prop) : (∀ n, lasting (Ψ n)) → calm Ψ.
Proof. intros Hl n l l' _ HΨ. specialize (Hl n l l' [] HΨ). by rewrite app_nil_r in Hl. Qed.
Lemma taken_back_calm failures : calm (taken_back failures).
Proof. intros n l l' Hn. unfold taken_back. by rewrite standing_neutral. Qed.
Lemma standing_calm s : calm (λ _ l, standing l = s).
Proof. intros n l l' Hn <-. by apply standing_neutral. Qed.
Lemma verified_calm : calm verified.
Proof.
  intros n l l' _ (later & before & i & r & s & d & k & Hs & -> & Hr). exists (l' ++ later), before, i, r, s, d, k.
  by rewrite (assoc_L (++)).
Qed.
Lemma calm_and Ψ Φ : calm Ψ → calm Φ → calm (λ n l, Ψ n l ∧ Φ n l).
Proof. intros HΨ HΦ n l l' Hn [? ?]. split; [by apply HΨ|by apply HΦ]. Qed.
Lemma calm_or Ψ Φ : calm Ψ → calm Φ → calm (λ n l, Ψ n l ∨ Φ n l).
Proof. intros HΨ HΦ n l l' Hn [?|?]; [left; by apply HΨ|right; by apply HΦ]. Qed.
Lemma calm_on (D : string → Prop) Ψ : calm Ψ → calm (λ n l, D n → Ψ n l).
Proof. intros HΨ n l l' Hn Hd Hn'. apply HΨ; auto. Qed.
Lemma calm_const (D : string → Prop) : calm (λ n _, D n).
Proof. by intros n l l'. Qed.

(** Facts that stay, whatever comes. *)
Context (S : string → list Event → Prop) (S_lasting : ∀ n, lasting (S n)).
Lemma S_calm : calm S.
Proof. by apply lasting_calm. Qed.

(** *** Rolling back *)

Lemma adds_before {A B} Φ (m : M A) (f : A → M B) (Ψ : list Event → Prop) :
  adds (λ _, True) (λ _, Ψ) m → (∀ l l', Forall (executes Φ) l' → Ψ l → Ψ (l' ++ l)) → (∀ a, issues Φ (f a)) →
  adds (λ _, True) (λ _, Ψ) (m ≫= f).
Proof.
  intros Hm HΨ Hf w. destruct (Hm w) as (l & Hl & _ & Ha). unfold mbind, M_bind.
  destruct (m w) as [[a| | |] w']; simpl in *; try by (exists l).
  destruct (Hf a w') as (l' & Hl' & Hn). exists (l' ++ l). rewrite Hl', Hl, (assoc_L (++)). split_and!; [done..|].
  destruct (f a w').1; [by apply HΨ|done..].
Qed.
(** A rollback that returns has run its command with success. *)
Lemma rollback_adds state server project domains :
  adds (λ _, True) (λ _ l, standing l = RolledBack) (rollback_host state slug server engine project domains).
Proof.
  unfold rollback_host. eapply adds_before.
  - eapply adds_impl; [apply adds_must_run|done|]. intros _ l (r & -> & Hr). simpl. rewrite rollback_is_rollback, Hr.
    by destruct state as [[path|]], domains as [[]].
  - intros l l' Hn <-. by apply standing_neutral.
  - intros _. case_match; [|apply issues_ret]. unfold context. issues.
Qed.

Lemma standing_app l l' : standing l' ≠ Untouched → standing (l' ++ l) = standing l'.
Proof.
  induction l' as [|[c i o|] l' IH]; simpl; [done| |done]. destruct (is_activation c); [done|]. by destruct (is_rollback c).
Qed.
Lemma record_returns p a st m sc d t : returns (record p a st m sc d t).
Proof.
  unfold record, new_entry, ignore, append_entry. apply returns_bind; [apply returns_bind; [apply returns_attempt|]|].
  - intros w. unfold system_time. destruct (unix_time (w_machine w)); [left|right]; by do 2 eexists.
  - intros now. apply returns_ret.
  - intros entry. apply returns_bind; [apply returns_attempt; settles|intros r; apply returns_ret].
Qed.
Lemma timed_record_returns started p a st m sc d :
  returns (now ← now_monotonic; record p a st m sc d (Some (now - started))).
Proof. apply returns_bind; [intros w; by do 2 eexists|]. intros now. apply record_returns. Qed.
Lemma restore_returns server migration : returns (restore_migration server engine plan migration).
Proof.
  unfold restore_migration. apply returns_bind; [apply returns_attempt; unfold restore_previous_bridge; settles; apply settles_run_checked|].
  intros [[]|e]; [|apply returns_ret]. case_match; [|apply returns_ret]. case_match; [|apply returns_ret].
  apply returns_bind; [|intros; apply returns_ret]. apply returns_attempt.
  unfold ensure_ingress_rule, write_remote_file, run_required. settles.
Qed.

(** What remains to be undone: the servers of [hs]. *)
Definition to_undo (hs failures : list string) (n : string) (l : list Event) : Prop := S n l ∧ (n ∈ hs ∨ taken_back failures n l).
Lemma to_undo_calm hs failures : calm (to_undo hs failures).
Proof. apply calm_and; [apply S_calm|]. apply calm_or; [apply (calm_const (λ n, n ∈ hs))|apply taken_back_calm]. Qed.
Lemma taken_back_more failures more n l : taken_back failures n l → taken_back (failures ++ more) n l.
Proof. intros [?|[?|[d Hd]]]; [by left|by right; left|]. do 2 right. exists d. apply elem_of_app. by left. Qed.
(** A server that is named needs no undoing. *)
Lemma to_undo_named h hs failures detail n l :
  to_undo (h :: hs) failures n l → to_undo hs (failures ++ [h +:+ ": " +:+ detail]) n l.
Proof.
  intros [HS Hu]. split; [done|]. destruct Hu as [[->|?]%elem_of_cons|?]; [right|by left|right; by apply taken_back_more].
  do 2 right. exists detail. apply elem_of_app. right. by left.
Qed.

(** A neutral program that always returns. *)
Lemma quiet_on_or {A} Ψ n (m : M A) :
  calm Ψ → returns m → issues neutral m → holds (Since fl0 Ψ) (on_or n m) (λ _, Since fl0 Ψ) (λ _, False).
Proof.
  intros Hc Hr Hm. eapply holds_conseq; [eapply (holds_on_or_returns fl0 Ψ n m (Forall (executes neutral)) (λ _ _, True)); [done|by apply issues_adds]|done| |done].
  intros a fl. apply Since_impl. intros k l. case_bool_decide; [|done]. intros (l' & l0 & -> & HΨ & Hn & _). by apply Hc.
Qed.

Lemma holds_frame_index {A B} (P : Fleet → Prop) (m : gmap string A) n (f : A → F B) Q E :
  (∀ a, m !! n = Some a → holds P (f a) Q E) → holds P (index m n ≫= f) Q E.
Proof.
  intros Hf. eapply holds_bind; [apply (holds_index P)|]. intros a fl [Hfl Ha]. by apply Hf.
Qed.

Lemma holds_ret_bind {A B} (P : Fleet → Prop) (a : A) (f : A → F B) Q E : holds P (f a) Q E → holds P (mret a ≫= f) Q E.
Proof. done. Qed.

Section context.
Context (ctx : RollbackContext) (ctx_plan : rc_plan ctx = plan) (ctx_engine : rc_engine ctx = engine).

Lemma audit_rollback Ψ h failed_host phase cause outcome :
  calm Ψ → holds (Since fl0 Ψ) (record_rollback_audit h ctx failed_host phase cause outcome) (λ _, Since fl0 Ψ) (λ _, False).
Proof.
  intros Hc. unfold record_rollback_audit. apply holds_frame_index. intros started _.
  apply quiet_on_or; [done|apply timed_record_returns|issues].
Qed.

Lemma rollback_host_undoes h hs failures server state domains :
  holds (Since fl0 (to_undo (h :: hs) failures)) (on h (rollback_host state slug server engine (np_project plan) domains))
    (λ outcome, Since fl0 (to_undo hs (failures ++ match outcome with Ok _ => [] | Err detail => [h +:+ ": " +:+ detail] end))) (λ _, False).
Proof.
  eapply holds_conseq; [eapply holds_on, rollback_adds|done| |done]. intros outcome fl. apply Since_impl. intros k l.
  case_bool_decide as Hk.
  - intros (l' & l0 & -> & [HS Hu] & _ & Ho). subst k.
    assert (S h (l' ++ l0)) as HS'. { specialize (S_lasting h l0 l' [] HS). by rewrite app_nil_r in S_lasting. }
    split; [done|right]. destruct outcome as [[]|detail].
    + right. left. by rewrite standing_app; rewrite Ho.
    + do 2 right. exists detail. apply elem_of_app. right. by left.
  - intros [HS Hu]. split; [done|]. destruct Hu as [[?|?]%elem_of_cons|?]; [done|by left|right; by apply taken_back_more].
Qed.

Lemma rollback_one_undoes h hs failures failed_host phase cause :
  holds (Since fl0 (to_undo (h :: hs) failures)) (rollback_one ctx failed_host phase cause h)
    (λ failure, Since fl0 (to_undo hs (failures ++ option_list failure))) (λ _, False).
Proof.
  unfold rollback_one. rewrite ctx_plan, ctx_engine.
  do 2 (apply holds_frame_index; intros ? _). apply holds_frame_index. intros server Hserver.
  set (Q := λ outcome : result string (), Since fl0 (to_undo hs (failures ++ match outcome with Ok _ => [] | Err detail => [h +:+ ": " +:+ detail] end))).
  eapply (holds_bind _ _ (λ _, Since fl0 (to_undo (h :: hs) failures))).
  { destruct (rc_migrations ctx !! h) as [migration|]; [|by apply holds_ret].
    apply quiet_on_or; [apply to_undo_calm|apply restore_returns|apply restore_neutral]. }
  intros migrated. eapply (holds_bind _ _ Q).
  { destruct migrated as [[]|detail]; [apply rollback_host_undoes|]. apply holds_ret. intros fl. apply Since_impl.
    intros k l. apply to_undo_named. }
  intros outcome. eapply holds_bind; [apply audit_rollback, to_undo_calm|]. intros []. apply holds_ret.
  by destruct outcome as [[]|detail].
Qed.

Lemma rollback_all_undoes hs failures failed_host phase cause :
  holds (Since fl0 (to_undo hs failures)) (rollback_all ctx failed_host phase cause hs)
    (λ more, Since fl0 (to_undo [] (failures ++ more))) (λ _, False).
Proof.
  revert failures. induction hs as [|h hs IH]; intros failures; simpl; [apply holds_ret; by rewrite app_nil_r|].
  eapply holds_bind; [apply rollback_one_undoes|]. intros failure. eapply holds_bind; [apply IH|]. intros more. apply holds_ret.
  by rewrite (assoc_L (++)).
Qed.

(** A rollback stops the run, with nothing left to undo but what its error names. *)
Definition rolled_back (e : string) (fl : Fleet) : Prop :=
  ∃ failed_host phase failures, e = rollback_error plan failed_host phase failures ∧ Since fl0 (to_undo [] failures) fl.
Lemma rollback_transaction_undoes {A} attempted failed_host phase cause (Q : A → Fleet → Prop) :
  finishes (Since fl0 (to_undo attempted [])) (rollback_transaction attempted ctx failed_host phase cause) Q rolled_back.
Proof.
  unfold rollback_transaction. eapply finishes_bind.
  - eapply finishes_conseq; [apply (rollback_all_undoes (reverse attempted) [])| |intros a fl Hfl; exact Hfl|by intros e fl []].
    intros fl. apply Since_impl. intros k l [HS [Hk|Hu]]; (split; [done|]); [left; by rewrite elem_of_reverse|by right].
  - intros failures fl Hfl. rewrite ctx_plan. by exists failed_host, phase, failures.
Qed.

(** *** Activating *)

(** The servers of [done] have the new generation; the others are untouched. *)
Definition activated (done : list string) (n : string) (l : list Event) : Prop :=
  S n l ∧ standing l = if bool_decide (n ∈ done) then Activated else Untouched.
Lemma activated_calm done : calm (activated done).
Proof.
  apply calm_and; [apply S_calm|]. intros n l l' Hn <-. by apply standing_neutral.
Qed.
Lemma activated_to_undo done fl : Since fl0 (activated done) fl → Since fl0 (to_undo done []) fl.
Proof. apply Since_impl. intros k l [HS Hst]. split; [done|]. case_bool_decide; [by left|]. right. by left. Qed.

Lemma activate_adds server generation artifact mesh :
  adds (λ _, True) (λ _ l, standing l = Activated) (activate_host server generation artifact slug mesh).
Proof. eapply adds_impl; [apply adds_must_run|done|]. intros _ l (r & -> & Hr). simpl. by rewrite Hr. Qed.

(** On the way the server is touched or not. *)
Lemma activate_one_activates artifact done h :
  h ∉ done →
  holds (Since fl0 (activated done)) (activate_one config plan artifact ctx h)
    (λ r, match r with None => Since fl0 (activated (done ++ [h])) | Some _ => Since fl0 (to_undo (done ++ [h]) []) end) (λ _, False).
Proof.
  intros Hh. unfold activate_one. do 2 (apply holds_frame_index; intros ? _). rename a0 into server.
  assert (∀ fl, Since fl0 (activated done) fl → Since fl0 (to_undo (done ++ [h]) []) fl) as Hwait.
  { intros fl Hfl. apply activated_to_undo in Hfl. revert Hfl. apply Since_impl. intros k l [HS Hu]. split; [done|].
    rewrite elem_of_app. tauto. }
  assert (∀ fl, Since fl0 (activated (done ++ [h])) fl → Since fl0 (to_undo (done ++ [h]) []) fl) as Hdone by apply activated_to_undo.
  eapply holds_bind.
  { instantiate (1 := λ _, Since fl0 (activated done)). destruct (rc_migrations ctx !! h) as [migration|]; [|by apply holds_ret].
    apply holds_on_passive; [apply activated_calm|issues]. }
  intros [[]|error]; [|apply holds_ret; apply Hwait]. eapply holds_bind.
  { eapply holds_conseq; [exact (holds_on fl0 (activated done) h _ _ _ (activate_adds server (np_mesh_generation plan) artifact (ad_mesh a)))|done| |done].
    intros r fl Hfl. instantiate (1 := λ r, Since fl0 (match r with Ok _ => activated (done ++ [h]) | Err _ => to_undo (done ++ [h]) [] end)).
    revert Hfl. apply Since_impl. intros k l. case_bool_decide as Hk.
    - intros (l' & l0 & -> & [HS _] & _ & Hl'). subst k.
      assert (S h (l' ++ l0)) as HS'. { specialize (S_lasting h l0 l' [] HS). by rewrite app_nil_r in S_lasting. }
      assert (h ∈ done ++ [h]) as Hin by (apply elem_of_app; right; by left).
      destruct r as [[]|error]; (split; [done|]); [|by left]. rewrite standing_app, bool_decide_true by (done || by rewrite Hl'). done.
    - intros [HS Hst]. destruct r as [[]|error]; (split; [done|]).
      + rewrite Hst. apply (f_equal (λ b : bool, if b then Activated else Untouched)).
        apply bool_decide_ext. rewrite elem_of_app, list_elem_of_singleton. naive_solver.
      + case_bool_decide; [left; apply elem_of_app; by left|]. right. by left. }
  intros [[]|error]; [|by apply holds_ret]. destruct (rc_migrations ctx !! h) as [migration|]; [|by apply holds_ret].
  eapply holds_bind; [apply holds_on_passive; [apply activated_calm|issues]|]. intros [b|error]; [|apply holds_ret; apply Hdone].
  case_match; [|by apply holds_ret].
  eapply holds_bind; [apply holds_on_passive; [apply activated_calm|issues]|]. intros [[]|error]; apply holds_ret; [done|apply Hdone].
Qed.

Lemma activate_all_activates artifact done hosts :
  NoDup (done ++ hosts) →
  finishes (Since fl0 (activated done)) (activate_all config plan artifact ctx done hosts)
    (λ _, Since fl0 (activated (done ++ hosts))) rolled_back.
Proof.
  revert done. induction hosts as [|h hosts IH]; intros done Hd; simpl; [rewrite app_nil_r; by intros fl Hfl|].
  eapply finishes_bind.
  { eapply finishes_conseq; [apply activate_one_activates|done|intros r fl Hr; exact Hr|done].
    apply NoDup_app in Hd as (_ & Hd & _). intros Hin. apply (Hd h Hin). by left. }
  intros [[phase cause]|]; [apply rollback_transaction_undoes|].
  replace (done ++ h :: hosts) with ((done ++ [h]) ++ hosts) by (by rewrite <-(assoc_L (++))).
  apply IH. by rewrite <-(assoc_L (++)).
Qed.

(** *** Enrolling and verifying *)

Context (targets : list string).

(** Of the activated targets, those of [done] have passed their check. *)
Definition checked (done : list string) (n : string) (l : list Event) : Prop :=
  activated targets n l ∧ (n ∈ done → verified n l).
Lemma checked_calm done : calm (checked done).
Proof. apply calm_and; [apply activated_calm|]. apply (calm_on (λ n, n ∈ done)), verified_calm. Qed.

(** A step on each target, with what it keeps and adds. *)
Lemma or_roll_back_holds phase step (I : list string → Fleet → Prop) :
  (∀ done fl, I done fl → Since fl0 (activated targets) fl) →
  (∀ done h, h ∈ targets → holds (I done) (step h) (λ r, match r with Ok _ => I (done ++ [h]) | Err _ => I done end) (λ _, False)) →
  finishes (I []) (or_roll_back ctx targets phase step) (λ _, I targets) rolled_back.
Proof.
  intros Ha Hstep. unfold or_roll_back. apply (finishes_each I). intros done h rest Hl. eapply finishes_bind.
  { eapply finishes_conseq; [apply (Hstep done h)|auto|intros r fl Hr; exact Hr|intros e fl []].
    rewrite Hl. apply elem_of_app. right. by left. }
  intros [[]|cause]; [by intros fl Hfl|].
  eapply finishes_conseq; [apply (rollback_transaction_undoes targets h phase cause (λ _, I (done ++ [h])))| |auto|auto].
  intros fl Hfl. by apply activated_to_undo, (Ha done).
Qed.

Lemma enroll_holds seed seed_server keys :
  finishes (Since fl0 (activated targets))
    (or_roll_back ctx targets "seed enrollment" (λ host, on seed (enroll_target_with_seed seed_server host keys)))
    (λ _, Since fl0 (activated targets)) rolled_back.
Proof.
  apply (or_roll_back_holds _ _ (λ _, Since fl0 (activated targets))); [done|]. intros done h _.
  eapply holds_conseq; [apply holds_on_passive; [apply activated_calm|issues]|done| |done]. by intros [].
Qed.

Lemma verify_holds keys :
  finishes (Since fl0 (activated targets))
    (or_roll_back ctx targets "verification" (λ host,
        server ← index (np_servers plan) host;
        domains ← index (rc_activation_domains ctx) host;
        on host (verify_host server plan domains keys)))
    (λ _, Since fl0 (checked targets)) rolled_back.
Proof.
  eapply finishes_conseq; [apply (or_roll_back_holds _ _ (λ done, Since fl0 (checked done)))| |done|done].
  - intros done fl. apply Since_impl. by intros k l [? _].
  - intros done h Hh. apply holds_frame_index. intros server Hserver. apply holds_frame_index. intros domains _.
    eapply holds_conseq; [exact (holds_on fl0 (checked done) h _ _ _ (adds_must_run (verify_command server plan domains keys)))|done| |done].
    intros r fl Hfl. enough (Since fl0 (checked (match r with Ok _ => done ++ [h] | Err _ => done end)) fl) by (by destruct r).
    revert Hfl. apply Since_impl. intros k l. case_bool_decide as Hk.
    + intros (l' & l0 & -> & Hc & [o Ho] & Hr). subst k.
      assert (checked done h (l' ++ l0)) as Hc'.
      { apply checked_calm; [|done]. subst l'. apply Forall_singleton. eexists _, _, _. split; [done|].
        unfold verify_command. destruct (ad_mesh domains); neutral. }
      destruct r as [[]|]; [|done]. split; [apply Hc'|]. intros _. destruct Hr as (res & -> & Hs). destruct Hc as [[_ Hst] _].
      rewrite bool_decide_true in Hst by done. exists [], l0, "", res, server, domains, keys. done.
    + intros [Ha Hv]. split; [done|]. intros Hin. apply Hv. destruct r; [|done].
      rewrite elem_of_app, list_elem_of_singleton in Hin. tauto.
  - intros fl. apply Since_impl. intros k l Ha. split; [done|]. intros Hn. by apply elem_of_nil in Hn.
Qed.

(** From the staged generations to the end. *)
Lemma activate_and_verify_holds keys artifact seed :
  NoDup targets →
  finishes (Since fl0 (activated [])) (activate_and_verify config plan keys artifact ctx seed targets)
    (λ _, Since fl0 (checked targets)) (λ e fl, rolled_back e fl ∨ Since fl0 (checked targets) fl).
Proof.
  intros Hd. unfold activate_and_verify. eapply finishes_bind.
  { eapply finishes_conseq; [by apply (activate_all_activates artifact [] targets)|auto|intros r fl Hfl; exact Hfl|by left]. }
  intros ?. eapply finishes_bind.
  { instantiate (1 := λ _, Since fl0 (activated targets)). destruct seed as [seed|]; [|by intros fl Hfl].
    apply finishes_index. intros seed_server _. eapply finishes_conseq; [apply enroll_holds|done|done|by left]. }
  intros ?. eapply finishes_bind; [eapply finishes_conseq; [apply verify_holds|auto|intros r fl Hfl; exact Hfl|by left]|]. intros ?.
  assert (∀ (m : F ()), passive fl0 m → finishes (Since fl0 (checked targets)) m (λ _, Since fl0 (checked targets))
    (λ e fl, rolled_back e fl ∨ Since fl0 (checked targets) fl)) as Hp.
  { intros m Hm. eapply finishes_conseq; [apply Hm, checked_calm|done|done|by right]. }
  eapply finishes_bind; [apply Hp, passive_each; intros; apply passive_on_or; issues|]. intros ?.
  apply Hp, passive_each. intros h _. apply passive_bind.
  { unfold short_generation. intros Ψ Hc fl Hfl. by destruct (_ <? _)%nat. }
  intros generation. apply passive_bind; [apply passive_index|]. intros started. apply passive_on_or. issues.
Qed.
End context.
End setup.

(** ** Staging *)

Section staging.
Context `{Host, Sha256, Operator}.
Context (config : Config) (plan : NetworkPlan) (fl0 : gmap string World).
Let engine := builder_engine (config_builder config).
Let slug := text (systemd_unit_slug (np_project plan)).

Definition generation_dir (artifact : string) : string := network_generations slug +:+ "/" +:+ artifact.
(** The last file of the generation is written. *)
Definition written (artifact : string) (l : list Event) : Prop :=
  ∃ r, success r = true ∧
    Executed (generation_file_command (generation_dir artifact +:+ "/mesh-generation") "0644") (np_mesh_generation plan +:+ nl) (Ok r) ∈ l.
(** The server has said which generation it has. *)
Definition captured (installed : InstalledGeneration) (l : list Event) : Prop :=
  ∃ c r, Executed c "" (Ok r) ∈ l ∧ success r = true ∧ parse_installed_generation (stdout r) slug = Ok installed.
(** The generation [artifact] is on the server, by now or already. *)
Definition staged (artifact : string) (l : list Event) : Prop :=
  written artifact l ∨ captured {| ig_network := Some (generation_dir artifact) |} l.

Lemma written_lasting artifact : lasting (written artifact).
Proof. intros l l1 l2 (r & Hr & Hin). exists r. split; [done|]. rewrite !elem_of_app. auto. Qed.
Lemma captured_lasting installed : lasting (captured installed).
Proof. intros l l1 l2 (c & r & Hin & Hr). exists c, r. rewrite !elem_of_app. auto. Qed.
Lemma staged_lasting artifact : lasting (staged artifact).
Proof. intros l l1 l2 [Hw|Hc]; [left; by apply written_lasting|right; by apply captured_lasting]. Qed.

Lemma adds_must_run_with c i : neutral c →
  adds (Forall (executes neutral)) (λ _ l, ∃ r, success r = true ∧ Executed c i (Ok r) ∈ l) (must_run_with c i).
Proof.
  intros Hc w. unfold must_run_with, execute_with_input, ensure_success, mbind, M_bind.
  destruct (exec c i (w_machine w)) as [[r|e] mc]; simpl.
  - exists [Executed c i (Ok r)]. split_and!; [by destruct (success r)|apply Forall_singleton; by eexists _, _, _|].
    destruct (success r) eqn:Hr; simpl; [|done]. exists r. split; [done|by left].
  - exists [Executed c i (Err e)]. split_and!; [done|apply Forall_singleton; by eexists _, _, _|done].
Qed.
(** The last of a sequence of programs. *)
Lemma adds_then {A B} Φ (m : M A) (f : A → M B) :
  issues neutral m → (∀ b, lasting (Φ b)) → (∀ a, adds (Forall (executes neutral)) Φ (f a)) →
  adds (Forall (executes neutral)) Φ (m ≫= f).
Proof.
  intros Hm HΦ Hf w. destruct (Hm w) as (l & Hl & Hn). unfold mbind, M_bind.
  destruct (m w) as [[a| | |] w']; simpl in *; try by (exists l).
  destruct (Hf a w') as (l' & Hl' & Hn' & Hr). exists (l' ++ l). rewrite Hl', Hl, (assoc_L (++)).
  split_and!; [done|by apply Forall_app|]. destruct (fst _); try done. by apply (HΦ _ l' [] l).
Qed.

Lemma capture_adds : adds (Forall (executes neutral)) captured (capture_installed_generation slug).
Proof.
  intros w. unfold capture_installed_generation. set (c := "set -eu; if test -L " +:+ _). unfold mbind, M_bind.
  destruct (adds_run_checked c w) as (l & Hl & [o Ho] & Hr).
  assert (Forall (executes neutral) l) as Hn by (subst l; apply Forall_singleton; eexists _, _, _; split; [done|neutral]).
  destruct (run_checked c w) as [[r| | |] w'] eqn:Hrun; simpl in *; try by (exists l).
  exists l. destruct (parse_installed_generation (stdout r) slug) as [installed|e] eqn:Hp; simpl; [|done].
  split_and!; [done..|]. destruct Hr as [-> Hs]. exists c, r. split; [by left|done].
Qed.
Lemma stage_adds server keys artifact domains :
  adds (Forall (executes neutral)) (λ _ l, ad_mesh domains = true → written artifact l) (stage_host engine plan server keys artifact slug domains).
Proof.
  unfold stage_host. destruct (ad_mesh domains); [|by apply (adds_impl (Forall (executes neutral)) _ (λ _ _, True)); [apply issues_adds, issues_ret|..]].
  apply (adds_impl (Forall (executes neutral)) _ (λ _, written artifact)); [|done..].
  pose proof written_lasting artifact as Hl.
  repeat (apply adds_then; [solve [auto with issues|apply must_run_neutral; neutral|apply issues_of_result]|done|intros ?]).
  apply adds_must_run_with. neutral.
Qed.

(** *** Before the activation *)

Lemma preflight_passive current h : passive fl0 (preflight_host config plan current h).
Proof.
  unfold preflight_host. do 3 (apply passive_bind; [apply passive_on_or; issues|intros ?]).
  apply passive_bind; [apply passive_index|]. intros [].
  - apply passive_bind; [apply passive_on_or; issues|intros; apply passive_ret].
  - apply passive_bind; [apply passive_index|intros; apply passive_on_or; issues].
Qed.
Lemma prepare_passive current h : passive fl0 (prepare_host plan current h).
Proof.
  unfold prepare_host. apply passive_bind; [apply passive_on_or; issues|intros ?].
  apply passive_bind; [apply passive_index|]. intros []; [apply passive_ret|].
  apply passive_bind; [|intros ?]; apply passive_on_or; issues.
Qed.
Lemma recover_passive keys hosts : passive fl0 (recover_keys plan keys hosts).
Proof.
  revert keys. induction hosts as [|h hosts IH]; intros keys; simpl; [apply passive_ret|].
  case_bool_decide; [apply passive_ret|]. apply passive_bind; [apply passive_on_or; issues|auto].
Qed.

Definition before (Φ : string → list Event → Prop) (n : string) (l : list Event) : Prop := standing l = Untouched ∧ Φ n l.
Lemma before_calm Φ : (∀ n, lasting (Φ n)) → calm (before Φ).
Proof. intros HΦ. apply calm_and; [apply standing_calm|by apply lasting_calm]. Qed.
Definition known (previous : gmap string InstalledGeneration) (n : string) (l : list Event) : Prop :=
  ∀ installed, previous !! n = Some installed → captured installed l.
Lemma known_lasting previous n : lasting (known previous n).
Proof. intros l l1 l2 Hk installed Hi. apply captured_lasting. auto. Qed.
Definition staged_on (artifact : string) (hosts : list string) (n : string) (l : list Event) : Prop := n ∈ hosts → staged artifact l.
Lemma staged_on_lasting artifact hosts n : lasting (staged_on artifact hosts n).
Proof. intros l l1 l2 Hs Hn. by apply staged_lasting, Hs. Qed.

Lemma capture_holds targets :
  holds (Since fl0 (before (λ _ _, True))) (collect_by (λ host, on_or host (capture_installed_generation slug)) targets)
    (λ previous, Since fl0 (before (known previous))) (Since fl0 (before (λ _ _, True))).
Proof.
  eapply holds_conseq; [apply (holds_collect_by fl0 (before (λ _ _, True)) _ (λ _, captured))|auto| |auto].
  - by apply before_calm.
  - intros n. apply captured_lasting.
  - intros n Hn Ψ Hc. apply (holds_on_or fl0 Ψ n _ captured Hc captured_lasting capture_adds).
  - intros previous fl [_ Hs]. revert Hs. apply Since_impl. by intros k l [[? _] Hk].
Qed.

(** What staging on one server comes to. *)
Lemma stage_one_holds keys artifact previous done h :
  let domains := (λ installed, {| ad_mesh := negb (bool_decide (ig_network installed = Some (generation_dir artifact))) |}) <$> previous in
  let I done := before (λ n l, known previous n l ∧ staged_on artifact done n l) in
  holds (Since fl0 (I done)) (stage_one config plan keys artifact domains h) (λ _, Since fl0 (I (done ++ [h]))) (Since fl0 (before (λ _ _, True))).
Proof.
  intros domains I. unfold stage_one. apply holds_frame_index. intros server _. apply holds_frame_index. intros d Hd.
  unfold domains in Hd. apply lookup_fmap_Some in Hd as (installed & <- & Hi). apply holds_context.
  set (d := {| ad_mesh := _ |}). assert (calm (I done)) as Hc.
  { apply before_calm. intros n l l1 l2 [Hk Hs]. split; [by apply known_lasting|by apply staged_on_lasting]. }
  eapply holds_conseq; [apply (holds_on_or fl0 (I done) h _ (λ _ l, ad_mesh d = true → written artifact l) Hc)|auto| |].
  - intros _ l l1 l2 Hw Hm. by apply written_lasting, Hw.
  - apply stage_adds.
  - intros u fl. apply Since_impl. intros k l [[Hu [Hk Hs]] Hw]. split_and!; [done..|].
    intros [Hin|Hin%list_elem_of_singleton]%elem_of_app; [by apply Hs|]. subst k. specialize (Hw eq_refl). simpl in Hw.
    case_bool_decide as Hg; [|left; by apply Hw]. right. destruct installed as [g]. simpl in Hg. subst g. by apply Hk.
  - intros fl. apply Since_impl. by intros k l [? _].
Qed.

(** *** The whole run *)

Definition end_of_run (targets : list string) (artifact : string) (n : string) (l : list Event) : Prop :=
  checked plan (staged_on artifact targets) targets targets n l.
Definition undone_run (targets : list string) (artifact e : string) (fl : Fleet) : Prop :=
  rolled_back plan fl0 (staged_on artifact targets) e fl.

Lemma apply_connected_holds target_names hosts allow :
  let targets := filter (λ n, n ∈ target_names) hosts in
  NoDup hosts →
  finishes (Since fl0 (λ _ l, l = [])) (apply_connected config plan target_names hosts allow)
    (λ _ fl, ∃ artifact, Since fl0 (end_of_run targets artifact) fl)
    (λ e fl, Since fl0 (before (λ _ _, True)) fl
           ∨ ∃ artifact, undone_run targets artifact e fl ∨ Since fl0 (end_of_run targets artifact) fl).
Proof.
  intros targets Hd. set (E := λ e fl, _ ∨ _).
  assert (∀ e fl, Since fl0 (before (λ _ _, True)) fl → E e fl) as HE by (by left).
  assert (calm (before (λ _ _, True))) as Hc by (by apply before_calm).
  assert (∀ {A} (m : F A), passive fl0 m →
    finishes (Since fl0 (before (λ _ _, True))) m (λ _, Since fl0 (before (λ _ _, True))) E) as Hp.
  { intros A m Hm. eapply finishes_conseq; [by apply Hm|auto|auto|auto]. }
  unfold apply_connected. eapply finishes_bind.
  { eapply (finishes_conseq _ (Since fl0 (before (λ _ _, True)))); [apply Hp, passive_collect|..|auto].
    - intros n _. case_match; [apply passive_ret|apply passive_on_or; issues].
    - intros fl. apply Since_impl. by intros k l ->.
    - intros m fl Hs. exact Hs. }
  intros current. eapply finishes_bind; [apply Hp, passive_collect; intros; apply preflight_passive|]. intros migrations.
  eapply finishes_bind; [apply Hp, passive_each; intros; apply prepare_passive|]. intros ?.
  eapply finishes_bind; [apply Hp, passive_collect; intros; apply passive_on_or; issues|]. intros read.
  eapply finishes_bind; [apply Hp; case_match; [apply recover_passive|apply passive_ret]|]. intros keys.
  set (artifact := artifact_generation _ keys).
  eapply finishes_bind; [eapply finishes_conseq; [apply capture_holds|auto|intros m fl Hs; exact Hs|auto]|]. intros previous.
  set (domains := _ <$> previous).
  set (I done := Since fl0 (before (λ n l, known previous n l ∧ staged_on artifact done n l))).
  eapply finishes_bind.
  { eapply (finishes_conseq _ (I [])); [apply (holds_each I)|..].
    - intros done h rest _. apply stage_one_holds.
    - intros fl. apply Since_impl. intros k l [Hu Hk]. split_and!; [done..|]. by intros ?%elem_of_nil.
    - intros u fl Hs. exact Hs.
    - exact HE. }
  intros ?. eapply finishes_bind.
  { eapply finishes_conseq; [apply (passive_collect fl0 (λ host, on_or host now_monotonic) targets)|intros fl Hs; exact Hs| |].
    - intros. apply passive_on_or. issues.
    - apply before_calm. intros n l l1 l2 [Hk Hs]. split; [by apply known_lasting|by apply staged_on_lasting].
    - intros m fl Hs. exact Hs.
    - intros e fl Hs. apply HE. revert Hs. apply Since_impl. by intros k l [? _]. }
  intros started. eapply finishes_conseq; [apply (activate_and_verify_holds config plan fl0 (staged_on artifact targets))| | |].
  - apply staged_on_lasting.
  - done.
  - done.
  - by apply NoDup_filter.
  - intros fl. apply Since_impl. intros k l [Hu [_ Hs]]. done.
  - intros [] fl Hs. by exists artifact.
  - intros e fl Hs. right. by exists artifact.
Qed.
End staging.

Lemma targets_iff (n : string) (target_names : gset string) (hosts : list string) :
  n ∈ filter (λ n, n ∈ target_names) hosts ↔ n ∈ hosts ∧ n ∈ target_names.
Proof. rewrite list_elem_of_filter. tauto. Qed.

Module NetworkProps.
Section laws.
Context `{Host, Sha256, Operator}.
Context (config : Config) (plan : NetworkPlan).

(** C18: A network set-up that ends well has set up every target.  Each target has the new
    generation, staged or already there, its last activation succeeded and is not taken back,
    and it passed its check after that activation; on no other server of the fleet is a generation
    activated or rolled back. *)
Theorem finished_setup_is_verified target_names hosts allow fl fl' :
  NoDup hosts → apply_connected config plan target_names hosts allow fl = (Fine (), fl') →
  ∃ artifact, Since fl (λ n l,
    if bool_decide (n ∈ hosts ∧ n ∈ target_names)
    then staged plan artifact l ∧ standing l = Activated ∧ verified plan n l else standing l = Untouched) fl'.
Proof.
  intros Hd Hr. pose proof (apply_connected_holds config plan fl target_names hosts allow Hd fl) as Hh.
  rewrite Hr in Hh. destruct Hh as [artifact Hs]; [by apply Since_now|]. exists artifact. revert Hs. apply Since_impl.
  intros n l [[Hst Hact] Hv]. unfold staged_on in Hst. rewrite list_elem_of_filter in Hst, Hv.
  rewrite (bool_decide_ext _ _ (targets_iff n target_names hosts)) in Hact.
  case_bool_decide as Hin; [|done]. destruct Hin. split_and!; [by apply Hst|done|by apply Hv].
Qed.

(** C17: A network set-up that fails leaves no server on a generation the others do not have,
    or says so.  Either no server was activated or rolled back; or every target had the whole
    generation staged first, and then either the error is that of a rollback and every server was
    untouched, was rolled back by a command that succeeded, or is listed in the error as one whose
    rollback failed (of its bridge, its ingress rule, its generation or its network); or every target
    has the generation, activated with success, and has passed its check. *)
Theorem failed_setup_is_rolled_back target_names hosts allow fl e fl' :
  NoDup hosts → apply_connected config plan target_names hosts allow fl = (Fails e, fl') →
  Since fl (λ _ l, standing l = Untouched) fl' ∨
  ∃ artifact,
    Since fl (λ n l, n ∈ hosts → n ∈ target_names → staged plan artifact l) fl' ∧
    ((∃ failed_host phase failures, e = rollback_error plan failed_host phase failures ∧
        Since fl (λ n l, standing l = Untouched ∨ standing l = RolledBack ∨ ∃ detail, n +:+ ": " +:+ detail ∈ failures) fl')
     ∨ Since fl (λ n l, n ∈ hosts → n ∈ target_names → standing l = Activated ∧ verified plan n l) fl').
Proof.
  intros Hd Hr. pose proof (apply_connected_holds config plan fl target_names hosts allow Hd fl) as Hh.
  rewrite Hr in Hh. destruct Hh as [Hs|[artifact Hs]]; [by apply Since_now| |].
  - left. revert Hs. apply Since_impl. by intros n l [? _].
  - right. exists artifact. assert (Since fl (λ n l, staged_on plan artifact (filter (λ n, n ∈ target_names) hosts) n l) fl') as Hst.
    { destruct Hs as [(? & ? & ? & _ & Hs)|Hs]; revert Hs; apply Since_impl; [by intros n l [? _]|by intros n l [[? _] _]]. }
    split; [revert Hst; apply Since_impl; intros n l Hn ??; apply Hn; by apply list_elem_of_filter|].
    destruct Hs as [(h & phase & failures & He & Hs)|Hs]; [left; exists h, phase, failures; split; [done|]|right]; revert Hs; apply Since_impl.
    + intros n l [_ [Hn%elem_of_nil|Hu]]; [done|exact Hu].
    + intros n l [[_ Hact] Hv] ??. rewrite (bool_decide_ext _ _ (targets_iff n target_names hosts)), bool_decide_true in Hact by done.
      split; [done|]. apply Hv. by apply list_elem_of_filter.
Qed.
End laws.

(** ** A fleet of two new servers *)

Definition reply (ok : bool) (out : string) : result string CommandResult :=
  Ok {| stdout := out; stderr := ""; success := ok; code := Some (if ok then 0 else 1) |}.
(** The machine says whether the server fails its check. *)
Definition sample_exec (c : string) (i : string) (broken : bool) : result string CommandResult * bool :=
  ((if bool_decide (c = "id -u") then reply true "0"
    else if contains_str "public.key && cat" c then reply true "KEY"
    else if contains_str "readlink -f" c then reply true "-"
    else if starts_with "set -eu; wg show " c then reply (negb broken) ""
    else reply true ""), broken).
Definition sample_machine : Host :=
  {| machine := bool; exec := sample_exec; exec_stream _ m := (Ok [], m); clock _ := 0; sleep _ m := m; unix_time _ := Ok 0;
     session_host := "a"; error_message _ := ""; response_debug _ := "" |}.
Definition sample_worlds (broken : bool) : gmap string (@World sample_machine) :=
  {[ "a" := @Build_World sample_machine ApiProps.sample_store false []; "b" := @Build_World sample_machine ApiProps.sample_store broken [] ]}.
Definition sample_apply (broken : bool) : flow () * gmap string (@World sample_machine) :=
  @apply_connected sample_machine constant_sha256 TeardownProps.sample_operator sample_config PlannerProps.sample_plan
    {[ "a"; "b" ]} ["a"; "b"] true (sample_worlds broken).

Lemma sample_distinct : NoDup ["a"; "b"].
Proof. repeat constructor; set_solver. Qed.

Lemma finished_setup_is_verified_witness :
  ∃ fl', sample_apply false = (Fine (), fl') ∧ ∃ artifact, Since (sample_worlds false) (λ n l,
    if bool_decide (n ∈ ["a"; "b"] ∧ n ∈ ({[ "a"; "b" ]} : gset string))
    then @staged constant_sha256 PlannerProps.sample_plan artifact l ∧ standing l = Activated ∧ @verified constant_sha256 PlannerProps.sample_plan n l
    else standing l = Untouched) fl'.
Proof.
  destruct (sample_apply false) as [r fl'] eqn:Er. assert (r = Fine ()) as -> by (change r with (r, fl').1; rewrite <-Er; by vm_compute).
  exists fl'. split; [done|]. 
  exact (@finished_setup_is_verified sample_machine constant_sha256 TeardownProps.sample_operator sample_config PlannerProps.sample_plan
           {[ "a"; "b" ]} ["a"; "b"] true (sample_worlds false) fl' sample_distinct Er).
Defined.

(** The check of [b] fails; both servers were activated by then. *)
Lemma failed_setup_is_rolled_back_witness :
  ∃ e fl', sample_apply true = (Fails e, fl') ∧
    (Since (sample_worlds true) (λ _ l, standing l = Untouched) fl' ∨
     ∃ artifact,
       Since (sample_worlds true) (λ n l, n ∈ ["a"; "b"] → n ∈ ({[ "a"; "b" ]} : gset string) → @staged constant_sha256 PlannerProps.sample_plan artifact l) fl' ∧
       ((∃ failed_host phase failures, e = @rollback_error constant_sha256 PlannerProps.sample_plan failed_host phase failures ∧
           Since (sample_worlds true) (λ n l, standing l = Untouched ∨ standing l = RolledBack ∨ ∃ detail, n +:+ ": " +:+ detail ∈ failures) fl')
        ∨ Since (sample_worlds true) (λ n l, n ∈ ["a"; "b"] → n ∈ ({[ "a"; "b" ]} : gset string) →
                                         standing l = Activated ∧ @verified constant_sha256 PlannerProps.sample_plan n l) fl')).
Proof.
  destruct (sample_apply true) as [r fl'] eqn:Er. destruct r as [[]|e| |].
  all: try (exfalso; apply (f_equal fst) in Er; vm_compute in Er; discriminate Er).
  exists e, fl'. split; [done|]. 
  exact (@failed_setup_is_rolled_back sample_machine constant_sha256 TeardownProps.sample_operator sample_config PlannerProps.sample_plan
           {[ "a"; "b" ]} ["a"; "b"] true (sample_worlds true) e fl' sample_distinct Er).
Defined.
Lemma sample_rolls_back : (standing ∘ w_log) <$> (sample_apply true).2 = {[ "a" := RolledBack; "b" := RolledBack ]}.
Proof. by vm_compute. Qed.
End NetworkProps.
