(* ===== verification/Services.v ===== *)
(** What the commands on services have in common: the selection of endpoints of
    [jiji-cli/src/commands/deploy.rs], the connections, the environments, the proxy check, the two
    waves of deployments of [cascade.rs] over the sessions of a command and the audit entries.

    What the code runs concurrently is run one after the other here.  Printing is left out. *)

From S2P Require Import Prelude Text Bytes Substring Cidr Naming Schema Planner ServiceRuntime.
From S2P Require Import Membership Catalog Desired OpLog Leases Cron CronExec Replication Store Api CandidatePlan EnvResolution.
From S2P Require Import Locks Session ProxyRoutes Transaction ProxyScript HostProxy AuditTrail Teardown Cascade Fleet LockSession NetworkSetup.
Open Scope N_scope.

Definition DEFAULT_MAX_DIR_UPLOAD_BYTES : N := 100 * 1024 * 1024.

Definition crash `{Host} {A} : F A := λ fl, (Crashes, fl).

(** ** Selection *)

Definition select_target_endpoints (p : NetworkPlan) (hosts services : option string) : result string (list ServiceEndpointPlan) :=
  let? servers := map_err plan_error_text (select_hosts p (split_comma_trimmed hosts)) in
  let target_hosts : gset string := list_to_set (sp_name <$> servers) in
  let? candidates := map_err plan_error_text (select_endpoints p (split_comma_trimmed services)) in
  match filter (λ e, ep_server e ∈ target_hosts) candidates with
  | [] => Err "No service endpoint matches both --hosts and --services filters"
  | selected => Ok selected
  end.

Definition selected_service_names (selected : list ServiceEndpointPlan) : gset string := list_to_set (ep_service <$> selected).
Definition selected_server_names (selected : list ServiceEndpointPlan) : gset string := list_to_set (ep_server <$> selected).
Definition selected_service_names_for_message (selected : list ServiceEndpointPlan) : string :=
  String.concat ", " (btree_elems (selected_service_names selected)).

(** The endpoint of the plan for a service on a server. *)
Definition planned_endpoint (p : NetworkPlan) (service server : string) : option ServiceEndpointPlan :=
  snd <$> list_find (λ e, ep_service e = service ∧ ep_server e = server) (btree_values (np_endpoints p)).
(** An endpoint for an assignment, under the identity of its replica; [expect] panics. *)
Definition place_assignment (config : Config) (p : NetworkPlan) (service_name : string) (sel : Selection) (a : ReplicaAssignment) :
    result (fault ()) Selection :=
  let? e := expect (planned_endpoint p service_name (ra_server a)) in
  let identity := replica_identity (config_project config) service_name (ra_replica_id a) in
  Ok (sel.1 ++ [with_identity e identity], <[identity := ra_replica_id a]> sel.2).

Section selection.
Context `{ContentHash MembershipRecord, ContentHash CatalogRecord, ContentHash DesiredStateRecord, Labels, Sha256}.
Context `{Host} (links : string → AgentLink).
Context (config : Config) (p : NetworkPlan).

Definition place_service (allowed_hosts : gset string) (sel : Selection) (service_name : string) : result (fault ()) Selection :=
  let? service := expect (hm_get (config_services config) service_name) in
  try_fold (λ sel a, if bool_decide (ra_server a ∈ allowed_hosts) then place_assignment config p service_name sel a else Ok sel) sel
    (assignments_for (config_project config) service_name (service_servers service) (service_scale service)).
Definition select_replica_endpoints (hosts services : option string) : F Selection :=
  eligible ← of_f (select_target_endpoints p hosts services);
  sel ← expects (try_fold (place_service (selected_server_names eligible)) ([], ∅) (btree_elems (selected_service_names eligible)));
  match sel.1 with
  | [] => stops "No desired service replica matches both --hosts and --services filters; use `jiji service scale` to change placement"
  | _ => mret (sort_by identity_leb sel.1, sel.2)
  end.

(** [DesiredRead] on the agent of a server. *)
Definition read_desired (server service_name : string) : F (option DesiredStateRecord) :=
  on_or server
    (response ← @call _ _ _ _ _ (links server) None (DesiredRead service_name);
     match response with
     | DesiredStateIs record => mret record
     | response => unexpected "desired-state" response
     end).

Fixpoint place_effective (service_name : string) (eligible : list string) (allowed_hosts : gset string) (sel : Selection)
    (assignments : list ReplicaAssignment) : F Selection :=
  match assignments with
  | [] => mret sel
  | a :: assignments =>
      if negb (bool_decide (ra_server a ∈ eligible))
      then stops ("Desired placement for '" +:+ service_name +:+ "' assigns '" +:+ ra_replica_id a +:+ "' to ineligible server '"
                  +:+ ra_server a +:+ "'; reset or repair it with `jiji service scale`")
      else
        sel ← (if bool_decide (ra_server a ∈ allowed_hosts) then expects (place_assignment config p service_name sel a) else mret sel);
        place_effective service_name eligible allowed_hosts sel assignments
  end.

(** The services in turn; also the servers whose proxy has a route of one of them. *)
Fixpoint effective_services (allowed_hosts : gset string) (seed : string) (sel : Selection) (ingress_hosts : gset string)
    (names : list string) : F (Selection * gset string) :=
  match names with
  | [] => mret (sel, ingress_hosts)
  | service_name :: names =>
      configured ← configured_service config service_name;
      let servers := service_servers configured in
      let ingress_hosts := if bool_decide (is_Some (service_proxy configured)) then ingress_hosts ∪ list_to_set servers else ingress_hosts in
      record ← read_desired seed service_name;
      let scale := default (service_scale configured) (record ≫= Desired.scale_override) in
      sel ← place_effective service_name servers allowed_hosts sel (assignments_for (config_project config) service_name servers scale);
      effective_services allowed_hosts seed sel ingress_hosts names
  end.

Definition select_effective_replica_endpoints (hosts : option string) (service_names sessions : gset string) :
    F (Selection * gset string) :=
  servers ← of_f (map_err plan_error_text (select_hosts p (split_comma_trimmed hosts)));
  match btree_elems sessions with
  | [] => stops "No connected agent is available to read desired state"
  | seed :: _ =>
      '(sel, ingress_hosts) ← effective_services (list_to_set (sp_name <$> servers)) seed ([], ∅) ∅ (btree_elems service_names);
      match sel.1 with
      | [] => stops "No effective desired replicas match the requested filters"
      | _ => mret ((sort_by identity_leb sel.1, sel.2), ingress_hosts)
      end
  end.
End selection.

(** ** Connections *)

Section connections.
Context `{Connector} (config : Config).

Definition server_defined (name : string) : result string NamedServer :=
  ok_or (hm_get (config_servers config) name)
    ("Server '" +:+ name +:+ "' referenced by a selected endpoint is not defined in configuration").
(** All servers are looked up, then the options of each prepared, then those without a session
    connected to. *)
Definition connect_selected (connected names : gset string) : result string () :=
  let? _ := try_fold (λ _ n, let? _ := server_defined n in Ok ()) () (btree_elems names) in
  let? _ := try_fold (λ _ n, let? named := server_defined n in connect_options n named) () (btree_elems names) in
  match filter (λ n, is_ok (connect n) = false) (btree_elems (names ∖ connected)) with
  | [] => Ok ()
  | failures => Err ("Could not connect to server(s): " +:+ String.concat ", " failures +:+ ". Restore SSH access and retry.")
  end.
End connections.

(** ** Environments *)

Section environments.
Context `{NumberText} (host_env : string → option string) (allow_host_env : bool) (config : Config).

Definition no_environment : Environment := {| env_clear := []; env_secrets := [] |}.
Definition resolve_service_env (loaded_env : gmap string string) (service : Service) : result string ResolvedEnvironment :=
  let merged := add_tls_secret_refs (service_proxy service)
                  (merge_environment (default no_environment (config_environment config)) (service_environment service)) in
  let? resolved := resolve_environment host_env loaded_env allow_host_env merged in
  Ok (mark_tls_control_secrets (service_proxy service) resolved).

(** Each service once; [lookup] finds it in the configuration. *)
Fixpoint resolve_envs `{Host} (lookup : string → F Service) (loaded_env : gmap string string) (envs : gmap string ResolvedEnvironment)
    (names : list string) : F (gmap string ResolvedEnvironment) :=
  match names with
  | [] => mret envs
  | name :: names =>
      if bool_decide (is_Some (envs !! name)) then resolve_envs lookup loaded_env envs names
      else
        service ← lookup name;
        resolved ← of_f (map_err (λ _, "Could not resolve environment for service '" +:+ name +:+ "'")
                           (resolve_service_env loaded_env service));
        resolve_envs lookup loaded_env (<[name := resolved]> envs) names
  end.
End environments.

(** ** The proxies *)

Section proxies.
Context `{Host, RouteJson, ProxyBuild} (config : Config) (p : NetworkPlan).
Context (sessions : gset string).

Definition proxy_network (server_plan : ServerPlan) : result string ProxyNetwork :=
  let? public_host := parse_public_host server_plan in
  Ok {| pn_bridge_name := sp_bridge_name server_plan; pn_bridge_interface := sp_bridge_interface server_plan;
        pn_proxy_address := sp_proxy_address server_plan; pn_dns_address := sp_dns_address server_plan;
        pn_public_host := public_host |}.

(** The proxy of every server it is asked for is up and of the right version. *)
Definition verify_proxies (serves_proxy : string → bool) : F () :=
  each (λ server_name,
    if serves_proxy server_name then
      server_plan ← index (np_servers p) server_name;
      network ← of_f (proxy_network server_plan);
      f_context ("jiji-proxy is not ready on '" +:+ server_name +:+ "'")
        (_ ← on_or server_name (ensure_proxy (builder_engine (config_builder config)) (Some network) false); mret ())
    else mret ()) (btree_elems sessions).

(** Whether a selected endpoint on the server is of a service with a proxy. *)
Definition serves_proxied (selected : list ServiceEndpointPlan) (server_name : string) : bool :=
  existsb (λ e, bool_decide (ep_server e = server_name)
             && bool_decide (is_Some (hm_get (config_services config) (ep_service e) ≫= service_proxy))) selected.

Definition dns_of (server_plan : ServerPlan) : SocketAddr := {| socket_ip := sp_dns_address server_plan; socket_port := 53 |}.
(** [reconcile_catalog_routes] over the sessions. *)
Definition reconcile_catalog_routes (project : string) (services : gmap string ProxyConfig)
    (resolved_envs : gmap string ResolvedEnvironment) : F () :=
  dns_servers ← collect_by (λ n, server_plan ← index (np_servers p) n; mret (dns_of server_plan)) (btree_elems sessions);
  each (λ n, on_or n (reconcile_host_routes (builder_engine (config_builder config)) project n dns_servers services resolved_envs))
    (btree_elems sessions).
End proxies.

(** ** The two waves *)

(** A service of a wave, with what its deployment needs. *)
Record Job := {
  job_service_name : string;
  job_service : Service;
  job_images : gmap string string;
  job_resolved_env : ResolvedEnvironment;
  job_skip_proxy : bool;
  job_endpoints : list ServiceEndpointPlan;
  job_presumed_failed : bool;
}.

Section dispatch.
Context `{ContentHash MembershipRecord, ContentHash CatalogRecord, ContentHash DesiredStateRecord, Labels}.
Context `{Host, RouteJson, LocalTree, Sha256, FloatText} (links : string → AgentLink) (process_id : N) (fuel : nat).
Context (config : Config) (p : NetworkPlan) (project_root : string) (sessions : gset string) (replica_ids : gmap string string).

Definition endpoint_context (server : ServerPlan) (service_name replica_id : string) (service : Service) (image : string)
    (resolved_env : ResolvedEnvironment) (skip_proxy : bool) : EndpointDeploymentContext :=
  {| ctx_project := np_project p; ctx_server := server; ctx_service_name := service_name; ctx_replica_id := replica_id;
     ctx_service := service; ctx_engine := builder_engine (config_builder config); ctx_image := image;
     ctx_resolved_env := resolved_env; ctx_project_root := project_root; ctx_skip_proxy := skip_proxy;
     ctx_max_dir_upload_bytes := DEFAULT_MAX_DIR_UPLOAD_BYTES |}.
Definition deploy_on (server_name : string) (ctx : EndpointDeploymentContext) : F EndpointOutcome :=
  on_or server_name (@deploy_endpoint _ _ _ _ _ (links server_name) _ _ _ _ process_id fuel ctx).

(** [deploy_service_endpoints]. *)
Fixpoint run_endpoints (job : Job) (sibling_failed : bool) (endpoints : list ServiceEndpointPlan) : F (list (string * EndpointOutcome)) :=
  match endpoints with
  | [] => mret []
  | e :: endpoints =>
      if sibling_failed then
        rest ← run_endpoints job true endpoints;
        mret ((ep_identity e, SkippedAfterSiblingFailure) :: rest)
      else
        _ ← (if bool_decide (ep_server e ∈ sessions) then mret () else crash);
        server ← index (np_servers p) (ep_server e);
        replica_id ← index replica_ids (ep_identity e);
        image ← index (job_images job) (ep_identity e);
        outcome ← deploy_on (ep_server e)
                    (endpoint_context server (job_service_name job) replica_id (job_service job) image (job_resolved_env job)
                       (job_skip_proxy job));
        rest ← run_endpoints job (negb (Cascade.is_deployed outcome)) endpoints;
        mret ((ep_identity e, outcome) :: rest)
  end.
Definition run_job (job : Job) : F ServiceOutcomes :=
  outcomes ← run_endpoints job (job_presumed_failed job) (job_endpoints job);
  mret (job_service_name job, outcomes).

Fixpoint mapF {A B} (f : A → F B) (l : list A) : F (list B) :=
  match l with [] => mret [] | a :: l => b ← f a; bs ← mapF f l; mret (b :: bs) end.

Section with_images.
(** The images of a service by the identity of an endpoint. *)
Context (images_for : string → list ServiceEndpointPlan → F (gmap string string)).
Context (resolved_envs : gmap string ResolvedEnvironment) (skip_proxy : bool).

(** [build_wave]: all services of a wave before one of them is deployed. *)
Definition build_job (dependents_of : gmap string (list string)) (presumed_failed : gmap string bool)
    (entry : string * list ServiceEndpointPlan) : F Job :=
  let '(service_name, endpoints) := entry in
  service ← configured_service config service_name;
  images ← images_for service_name endpoints;
  resolved_env ← index resolved_envs service_name;
  mret {| job_service_name := service_name; job_service := service; job_images := images; job_resolved_env := resolved_env;
          job_skip_proxy := skip_proxy || bool_decide (is_Some (dependents_of !! service_name)); job_endpoints := endpoints;
          job_presumed_failed := default false (presumed_failed !! default "" (network_mode_dependency service)) |}.
Definition run_wave (dependents_of : gmap string (list string)) (presumed_failed : gmap string bool) (wave : EndpointsByService) :
    F (list ServiceOutcomes) :=
  jobs ← mapF (build_job dependents_of presumed_failed) (btree_list wave);
  mapF run_job jobs.
Definition run_waves (selected : list ServiceEndpointPlan) : F (list ServiceOutcomes * list ServiceOutcomes) :=
  '(dependents_of, wave_one, wave_two) ← expects (compute_service_waves config (group_by_service selected));
  one ← run_wave dependents_of ∅ wave_one;
  two ← run_wave dependents_of (upstream_failed one) wave_two;
  mret (one, two).
End with_images.

(** One image for each service. *)
Definition image_of_service (images : gmap string string) (service_name : string) (endpoints : list ServiceEndpointPlan) :
    F (gmap string string) :=
  image ← index images service_name;
  mret (list_to_map ((λ e, (ep_identity e, image)) <$> endpoints)).
End dispatch.

(** ** The end of a command *)

Section report.
Context `{Host, Operator}.

Definition record_endpoints_by_server (sessions : gset string) (project action : string) (detail : option string)
    (outcomes : list (string * string * bool * option string)) (locks_replicas : bool) (duration : option N) : F () :=
  each (λ x, if bool_decide (x.1 ∈ sessions) then
               let '(status, summary, scope, deployment) := server_summary detail locks_replicas x.2 in
               _ ← on x.1 (record project action status summary scope deployment duration); mret ()
             else mret ()) (btree_list (by_server outcomes)).

(** [server_by_identity]. *)
Definition servers_by_identity (selected : list ServiceEndpointPlan) : gmap string string :=
  foldl (λ m e, <[ep_identity e := ep_server e]> m) ∅ selected.
Definition deployed_id (o : EndpointOutcome) : option string := match o with Deployed d => Some d | _ => None end.
Definition audit_outcome (servers : gmap string string) (o : string * EndpointOutcome) : F (string * string * bool * option string) :=
  server ← index servers o.1; mret (o.1, server, Cascade.is_deployed o.2, deployed_id o.2).

(** The summary prints twelve characters of a deployment. *)
Definition short_ids (results : list (list (string * EndpointOutcome))) : F () :=
  each (λ o : string * EndpointOutcome,
          match o.2 with Deployed d => if (String.length d <? 12)%nat then crash else mret () | _ => mret () end) (mjoin results).
Definition failed_outcomes (results : list (list (string * EndpointOutcome))) : nat :=
  length (filter (λ o : string * EndpointOutcome, Cascade.is_deployed o.2 = false) (mjoin results)).
Definition fail_if_any (what : string) (failures : nat) : F () :=
  if (0 <? failures)%nat
  then stops (what +:+ " failed for " +:+ pretty (N.of_nat failures) +:+ " endpoint(s); see the summary above.")
  else mret ().
End report.
