(* ===== verification/ServiceRemove.v ===== *)
(** Removing services and pruning their images: [jiji-cli/src/commands/service/remove.rs] and
    [prune.rs], from the plan on.  The results of a step, [RemoveStepResult] and
    [PruneStepResult], have the cases of [TeardownStepResult].  The operator's answer to the
    prompt is an argument; the preview is printed, but an error in its routes ends the command. *)

From S2P Require Import Prelude Text Bytes Substring Cidr Naming Schema Planner ServiceRuntime.
From S2P Require Import Membership Catalog Desired OpLog Leases Cron CronExec Replication Store Api CandidatePlan EnvResolution.
From S2P Require Import Locks Session ProxyRoutes Transaction ProxyScript HostProxy AuditTrail Teardown Cascade Fleet LockSession NetworkSetup Services.
Open Scope N_scope.

(** A deployment that is neither stopped nor a tombstone. *)
Definition is_live (r : CatalogRecord) : bool :=
  match Catalog.state r with Stopped | Tombstoned => false | _ => true end.
Definition owned_records (service server : string) (records : list CatalogRecord) : list CatalogRecord :=
  filter (λ r, Catalog.service r = service ∧ owner_node_id r = server ∧ is_live r = true) records.

(** ** Removing on one server *)

Section on_a_server.
Context `{ContentHash MembershipRecord, ContentHash CatalogRecord, ContentHash DesiredStateRecord, Labels}.
Context `{Host, AgentLink}.
Context (engine : ContainerEngine) (project : string).

Definition retire_deployment (r : CatalogRecord) : M TeardownStepResult :=
  committed ← attempt (call (Some ("remove:catalog:" +:+ deployment_id r))
    (CatalogCommit (Catalog.service r) (replica_id r) (deployment_id r) (ipv4_to_string (Catalog.address r)) (Catalog.ports r)
       (Catalog.image r) Tombstoned Unhealthy));
  match committed with
  | Err error => mret (Failed error)
  | Ok (CatalogCommitted _) =>
      timestamp ← timestamp_or_zero;
      released ← attempt (call (Some ("remove:lease:" +:+ deployment_id r)) (ReleaseAddress (deployment_id r) timestamp));
      mret match released with
           | Ok (AddressReleased _) => Removed
           | Ok _ => Failed "agent returned an unexpected address-release response"
           | Err error => Failed error
           end
  | Ok _ => mret (Failed "agent returned an unexpected catalog response")
  end.

Definition remove_container (name : string) : M TeardownStepResult :=
  stopped ← attempt (stop_if_running engine name);
  match stopped with
  | Err error => mret (Failed error)
  | Ok _ =>
      r ← attempt (remove_if_present engine name);
      mret match r with Ok removed => present_or_absent removed | Err error => Failed error end
  end.

(** The deployments in turn: the container first, the record only when that did not fail. *)
Fixpoint remove_deployments (service : string) (owned : list CatalogRecord) : M (Steps * list string) :=
  match owned with
  | [] => mret ([], [])
  | r :: owned =>
      let name := dynamic_container_name project service (deployment_id r) in
      result ← remove_container name;
      '(steps, retired) ←
        (if is_failed result then mret ([], [])
         else
           retire_result ← retire_deployment r;
           mret ([("catalog deployment '" +:+ deployment_id r +:+ "'", retire_result)],
                 match retire_result with Removed => [deployment_id r] | _ => [] end));
      '(rest, more) ← remove_deployments service owned;
      mret (("container '" +:+ name +:+ "'", result) :: steps ++ rest, retired ++ more)
  end.

(** One step for each; an error is its result. *)
Definition step_of {A} (name : A → string) (m : A → M ()) (a : A) : M (string * TeardownStepResult) :=
  r ← attempt (m a); mret (name a, match r with Ok _ => Removed | Err error => Failed error end).

Definition route_steps (service : string) (proxy : option ProxyConfig) (dns_server : SocketAddr) : M Steps :=
  match targets_for_service project service dns_server proxy with
  | Err error => mret [("proxy routes", Failed error)]
  | Ok targets =>
      collect (step_of (λ t, "proxy route '" +:+ format_route (route_host t) (route_path_prefix t) +:+ "'")
                 (λ t, remove_route engine (route_host t) (route_path_prefix t))) targets
  end.
Definition tcp_route_steps (service : string) (proxy : option ProxyConfig) (dns_server : SocketAddr) : M Steps :=
  match tcp_targets_for_service project service dns_server proxy with
  | Err error => mret [("tcp proxy routes", Failed error)]
  | Ok targets =>
      collect (step_of (λ t, "proxy route 'tcp:" +:+ pretty (tcp_listen_port t) +:+ "'")
                 (λ t, remove_tcp_route engine (tcp_listen_port t))) targets
  end.
Definition named_volume_step (discovered : list DiscoveredVolume) (x : string * bool) : string * TeardownStepResult :=
  ("volume '" +:+ x.1 +:+ "'", (volume_step discovered x).2).
Definition volume_steps (candidates : list VolumeCandidate) : M Steps :=
  match candidates with
  | [] => mret []
  | _ =>
      r ← attempt (discovered ← discover_volumes engine candidates project;
                   results ← remove_volumes_of engine discovered;
                   mret (named_volume_step discovered <$> results));
      mret match r with Ok steps => steps | Err error => [("volumes", Failed error)] end
  end.

(** One endpoint: the steps with their results, and the deployments it retired. *)
Definition remove_endpoint (endpoint : ServiceEndpointPlan) (service : Service) (dns_server : SocketAddr)
    (candidates : list VolumeCandidate) : M (Steps * list string) :=
  records ← attempt catalog;
  match records with
  | Err error => mret ([("service catalog", Failed error)], [])
  | Ok records =>
      let owned := owned_records (ep_service endpoint) (ep_server endpoint) records in
      '(steps, retired) ← remove_deployments (ep_service endpoint) owned;
      routes ← route_steps (ep_service endpoint) (service_proxy service) dns_server;
      tcp_routes ← tcp_route_steps (ep_service endpoint) (service_proxy service) dns_server;
      volumes ← volume_steps candidates;
      mret (match owned with [] => [("catalog deployments", AlreadyAbsent)] | _ => [] end ++ steps ++ routes ++ tcp_routes ++ volumes,
            retired)
  end.

(** ** Pruning on one server *)

Definition list_images_command (repo : string) : string :=
  engine_to_string engine +:+ " images --format '{{.ID}}' --filter reference=" +:+ repo.

Definition prune_image (id : string) : M (string * TeardownStepResult) :=
  referenced ← image_referenced_elsewhere engine id;
  match referenced with
  | [] => removed ← attempt (remove_image_if_present engine id);
          mret (id, match removed with Ok was_present => present_or_absent was_present | Err error => Failed error end)
  | _ => mret (id, Retained ("still used by " +:+ String.concat ", " referenced))
  end.
Definition prune_service_images (repo : string) (retain_n : N) : M Steps :=
  r ← execute (list_images_command repo);
  if success r then collect prune_image (drop (N.to_nat retain_n) (trimmed_lines (stdout r)))
  else fail ("Could not list images for '" +:+ repo +:+ "' on " +:+ session_host +:+ ": " +:+ trim (stderr r)).
End on_a_server.

(** ** [service remove] *)

Section commands.
Context `{ContentHash MembershipRecord, ContentHash CatalogRecord, ContentHash DesiredStateRecord,
  ContentHash CronSpecContent, Labels, Sha256}.
Context `{Host, DebugText, FloatText, Connector, RouteJson, Operator, LockJson, LocalTime}.
Context (links : string → AgentLink) (config : Config) (p : NetworkPlan).
(** The identity of the process for its locks, and the time the command took so far. *)
Context (lock_info : string → LockInfo) (elapsed : N).

Let engine := builder_engine (config_builder config).
Let project := np_project p.

(** The preview goes through the routes of every endpoint. *)
Definition preview_endpoint (e : ServiceEndpointPlan) : F () :=
  service ← configured_service config (ep_service e);
  server_plan ← index (np_servers p) (ep_server e);
  _ ← of_f (targets_for_service project (ep_service e) (dns_of server_plan) (service_proxy service));
  _ ← of_f (tcp_targets_for_service project (ep_service e) (dns_of server_plan) (service_proxy service));
  mret ().

(** The locks of the replicas an endpoint has deployments of. *)
Definition replica_locks (e : ServiceEndpointPlan) : F (list LockRequest) :=
  records ← on_or (ep_server e) (@catalog _ _ _ _ _ (links (ep_server e)));
  let ids : gset string := list_to_set (replica_id <$> owned_records (ep_service e) (ep_server e) records) in
  mret ((λ id, {| req_scope := LogicalReplica id; req_host := ep_server e |}) <$> btree_elems ids).
(** The servers of endpoints whose service has a proxy. *)
Fixpoint proxy_hosts (selected : list ServiceEndpointPlan) : F (gset string) :=
  match selected with
  | [] => mret ∅
  | e :: selected =>
      service ← configured_service config (ep_service e);
      rest ← proxy_hosts selected;
      mret (if bool_decide (is_Some (service_proxy service)) then {[ep_server e]} ∪ rest else rest)
  end.

Definition remove_on (remove_volumes : bool) (e : ServiceEndpointPlan) : F (string * (Steps * list string)) :=
  server_plan ← index (np_servers p) (ep_server e);
  service ← configured_service config (ep_service e);
  r ← on_or (ep_server e)
        (@remove_endpoint _ _ _ _ _ (links (ep_server e)) engine project e service (dns_of server_plan)
           (if remove_volumes then compute_candidates_for_service config (ep_service e) else []));
  mret (ep_identity e, r).

(** [[deployment_id] => Some(..), _ => None]. *)
Definition only {A} (l : list A) : option A := match l with [a] => Some a | _ => None end.
Definition remove_audit (servers : gmap string string) (x : string * (Steps * list string)) : F (string * string * bool * option string) :=
  server ← index servers x.1; mret (x.1, server, negb (any_failed x.2.1), only x.2.2).

Definition remove_services_locked (selected : list ServiceEndpointPlan) (sessions : gset string) (remove_volumes : bool) : F () :=
  results ← mapF (remove_on remove_volumes) selected;
  outcomes ← mapF (remove_audit (servers_by_identity selected)) results;
  _ ← record_endpoints_by_server sessions project "service_remove" None outcomes true (Some elapsed);
  let names := btree_elems (selected_service_names selected) in
  problems ← problems_of (λ name,
    service ← configured_service config name;
    cron ← remove_all_cron_specs links config name service sessions;
    retention ← remove_all_retention_specs links config name service sessions;
    mret (cron ++ retention)) names;
  fail_if_any "Removal" (length (filter (λ x, any_failed x.2.1 = true) results) + length problems).

(** [run] from the plan on. *)
Definition remove_services (hosts services : option string) (confirmed : result string bool) (remove_volumes : bool)
    (lock_timeout : N) (force_lock : bool) : F () :=
  selected ← of_f (select_target_endpoints p hosts services);
  _ ← each preview_endpoint selected;
  yes ← of_f confirmed;
  if negb yes then stops "Removal cancelled."
  else
    let sessions := selected_server_names selected in
    _ ← of_f (connect_selected config ∅ sessions);
    locks ← mapF replica_locks selected;
    hosts ← proxy_hosts selected;
    with_locks sessions project
      (mjoin locks ++ ((λ h, {| req_scope := HostGlobalProxy; req_host := h |}) <$> btree_elems hosts))
      (lock_info ("jiji service remove: " +:+ String.concat ", " (ep_identity <$> selected))) lock_timeout force_lock
      (remove_services_locked selected sessions remove_volumes).

(** ** [service prune] *)

Definition prune_on (retain_override : option N) (e : ServiceEndpointPlan) : F (string * result string Steps) :=
  service ← configured_service config (ep_service e);
  let retain_n := default (service_retain service) retain_override in
  r ← (match repo_reference (builder_registry (config_builder config)) (config_project config) (ep_service e) with
       | Err error => mret (Err error)
       | Ok repo => on (ep_server e) (prune_service_images engine repo retain_n)
       end);
  mret (ep_identity e, r).
Definition pruned_ok (r : result string Steps) : bool := match r with Ok steps => negb (any_failed steps) | Err _ => false end.
Definition prune_audit (servers : gmap string string) (x : string * result string Steps) : F (string * string * bool * option string) :=
  server ← index servers x.1; mret (x.1, server, pruned_ok x.2, None).

(** The endpoints of services that are built. *)
Fixpoint prunable (selected : list ServiceEndpointPlan) : F (list ServiceEndpointPlan) :=
  match selected with
  | [] => mret []
  | e :: selected =>
      service ← configured_service config (ep_service e);
      rest ← prunable selected;
      mret (if bool_decide (service_build service = None) then rest else e :: rest)
  end.

Definition prune_services (hosts services : option string) (retain_override : option N) : F () :=
  selected ← of_f (select_target_endpoints p hosts services);
  selected ← prunable selected;
  match selected with
  | [] => mret ()
  | _ =>
      let sessions := selected_server_names selected in
      _ ← of_f (connect_selected config ∅ sessions);
      results ← mapF (prune_on retain_override) selected;
      outcomes ← mapF (prune_audit (servers_by_identity selected)) results;
      _ ← record_endpoints_by_server sessions project "service_prune" None outcomes false (Some elapsed);
      fail_if_any "Prune" (length (filter (λ x, pruned_ok x.2 = false) results))
  end.
End commands.
