(* ===== verification/ServiceScale.v ===== *)
(** Scaling a service: [jiji-cli/src/commands/service/scale.rs], from the plan on.  The answers of
    the operator to the two prompts are arguments. *)

From S2P Require Import Prelude Text Bytes Substring Cidr Naming Pattern Schema Planner ServiceRuntime.
From S2P Require Import Membership Catalog Desired OpLog Leases Cron CronExec Replication Store Api CandidatePlan EnvResolution.
From S2P Require Import Locks Session ProxyRoutes Transaction ProxyScript HostProxy AuditTrail Teardown Cascade Fleet LockSession NetworkSetup.
From S2P Require Import Services ServiceRemove.
Open Scope N_scope.

(** ** The plan *)

Definition u32_max : N := 2 ^ 32 - 1.
(** [(len as u32).saturating_mul(requested)]. *)
Definition total_instances (eligible : list string) (requested : N) : N :=
  N.min (N.of_nat (length eligible) mod 2 ^ 32 * requested) u32_max.

(** What may have more than one instance on a server. *)
Definition check_scale (service_name : string) (service : Service) (eligible : list string) (requested : N) : result string () :=
  let about what := Err ("Service '" +:+ service_name +:+ "' " +:+ what) in
  if 2000 <? total_instances eligible requested
  then Err ("Scale " +:+ pretty requested +:+ " across " +:+ pretty (N.of_nat (length eligible)) +:+ " server(s) is "
            +:+ pretty (total_instances eligible requested) +:+ " total instances, which exceeds Jiji's supported limit of 2000")
  else if negb (1 <? requested) then Ok ()
  else if service_stop_first service then about "uses stop_first and must remain a singleton"
  else if negb (bool_decide (service_network_mode service = "bridge")) then about "can only scale with project bridge networking"
  else match service_volumes service, service_files service, service_directories service with
  | [], [], [] =>
      if service_privileged service || negb (bool_decide (service_devices service = [])) || bool_decide (is_Some (service_gpus service))
      then about "uses exclusive host resources and cannot be scaled"
      else if negb (bool_decide (service_ports service = []))
      then about "publishes fixed host ports and cannot run more than one replica on the same host"
      else Ok ()
  | _, _, _ => about "has local volumes/files/directories and cannot be scaled implicitly"
  end.

Definition is_active_of (service_name : string) (r : CatalogRecord) : bool :=
  bool_decide (Catalog.service r = service_name) && bool_decide (Catalog.state r = Catalog.Active).
Definition is_healthy_of (service_name : string) (r : CatalogRecord) : bool :=
  is_active_of service_name r && bool_decide (Catalog.health r = Catalog.Healthy).

Record ScalePlan := { additions : list ReplicaAssignment; removals : list ReplicaAssignment }.

(** A replica that is active and not planned for is retired where it is. *)
Definition note_removal (removals : list ReplicaAssignment) (r : CatalogRecord) : list ReplicaAssignment :=
  if forallb (λ a, negb (bool_decide (ra_replica_id a = replica_id r))) removals
  then removals ++ [{| ra_replica_id := replica_id r; ra_ordinal := u32_max; ra_server := owner_node_id r |}]
  else removals.

Definition scale_plan `{Sha256} (project service_name : string) (eligible : list string) (catalog : list CatalogRecord)
    (current_count requested : N) : ScalePlan :=
  let assignments := assignments_for project service_name eligible requested in
  let active_replica_ids : gset string := list_to_set (replica_id <$> filter (λ r, is_healthy_of service_name r = true) catalog) in
  let desired_ids : gset string := list_to_set (ra_replica_id <$> assignments) in
  let declared := filter (λ a, ra_replica_id a ∉ desired_ids) (assignments_for project service_name eligible current_count) in
  {| additions := filter (λ a, ra_replica_id a ∉ active_replica_ids) assignments;
     removals := foldl note_removal declared
                   (filter (λ r, is_active_of service_name r = true ∧ replica_id r ∉ desired_ids) catalog) |}.

(** The servers the change touches. *)
Definition affected_servers (seed_name : string) (eligible : list string) (proxied : bool) (plan : ScalePlan) : gset string :=
  let changed : gset string := list_to_set (ra_server <$> additions plan) ∪ list_to_set (ra_server <$> removals plan) in
  let affected := if proxied then changed ∪ list_to_set eligible else changed in
  if bool_decide (affected = ∅) then {[seed_name]} else affected.

(** The locks: one for the service on the first eligible server, and the proxies. *)
Definition scale_locks (service_name seed_name : string) (proxied : bool) (affected : gset string) : list LockRequest :=
  {| req_scope := ServiceScale service_name; req_host := seed_name |}
  :: (if proxied then (λ h, {| req_scope := HostGlobalProxy; req_host := h |}) <$> btree_elems affected else []).

(** ** Retiring a replica *)

Section retire.
Context `{ContentHash MembershipRecord, ContentHash CatalogRecord, ContentHash DesiredStateRecord, Labels}.
Context `{Host, AgentLink}.
Context (engine : ContainerEngine) (project service : string).

Definition retire_record (replica : string) (r : CatalogRecord) : M () :=
  let name := dynamic_container_name project service (deployment_id r) in
  _ ← stop_if_running engine name;
  _ ← remove_if_present engine name;
  _ ← call (Some ("scale:stop:" +:+ deployment_id r))
        (CatalogCommit service replica (deployment_id r) (ipv4_to_string (Catalog.address r)) (Catalog.ports r) (Catalog.image r)
           Tombstoned Unhealthy);
  timestamp ← timestamp_or_zero;
  _ ← call (Some ("scale:release:" +:+ deployment_id r)) (ReleaseAddress (deployment_id r) timestamp);
  mret ().
Definition retire_replica (replica : string) : M () :=
  records ← catalog;
  ProxyRoutes.each (retire_record replica) (filter (λ r, replica_id r = replica ∧ is_live r = true) records).
End retire.

(** ** The command *)

Section command.
Context `{ContentHash MembershipRecord, ContentHash CatalogRecord, ContentHash DesiredStateRecord,
  ContentHash CronSpecContent, Labels, Sha256}.
Context `{Host, DebugText, FloatText, Connector, RouteJson, Operator, LockJson, LocalTime, LocalTree, LocalFiles, NumberText}.
Context (links : string → AgentLink) (process_id : N) (fuel : nat) (config : Config) (p : NetworkPlan).
Context (lock_info : string → LockInfo) (elapsed : N) (project_root : string) (environment : option string).
Context (host_env : string → option string) (allow_host_env : bool).

Let engine := builder_engine (config_builder config).
Let project := config_project config.

(** [connect]: one server after the other. *)
Definition connect_each (names : list string) : result string () :=
  try_fold (λ _ name,
    let? server := ok_or (hm_get (config_servers config) name) ("Server '" +:+ name +:+ "' is not configured") in
    let? _ := connect_options name server in
    map_err (λ _, "Could not connect to '" +:+ name +:+ "'") (connect name)) () names.

(** How many instances are asked for; [answer] is what the operator types. *)
Definition requested_scale (service : Service) (scale : option N) (reset : bool) (answer : result string string) (current_count : N) :
    result string N :=
  if reset then Ok (service_scale service)
  else match scale with
  | Some scale => Ok scale
  | None =>
      let? value := answer in
      if bool_decide (trim value = "") then Ok current_count
      else map_err (λ _, "Scale must be a non-negative integer") (parse_uint u32_max (trim value))
  end.

Section scaling.
Context (service_name : string) (service : Service) (current_desired : option DesiredStateRecord) (catalog : list CatalogRecord).
Context (current_count requested : N) (reset : bool) (sessions : gset string).

Definition new_override : option N := if reset then None else Some requested.
Definition desired_is_current : bool :=
  match current_desired with Some record => bool_decide (Desired.scale_override record = new_override) | None => false end.
Definition commit_desired (seed : string) : F () :=
  if desired_is_current then mret ()
  else
    let source_revision := default 0 (Desired.revision <$> current_desired) in
    on_or seed
      (response ← @call _ _ _ _ _ (links seed)
         (Some ("desired:" +:+ service_name +:+ ":" +:+ (if reset then "reset" else "override") +:+ ":" +:+ pretty source_revision
                +:+ ":" +:+ pretty requested))
         (DesiredCommit service_name new_override);
       match response with
       | DesiredStateIs (Some _) => mret ()
       | response => unexpected "desired-state" response
       end).

Definition scale_image : result string string :=
  match service_image service with
  | Some image => resolve_image_reference image None
  | None =>
      ok_or (Catalog.image <$> find (is_healthy_of service_name) catalog)
        ("Build-only service '" +:+ service_name +:+ "' has no active deployment to copy an image from; "
         +:+ "deploy it with `jiji deploy --build` first")
  end.

(** A new replica; the progress prints twelve characters of its deployment. *)
Definition add_replica (image : string) (resolved_env : ResolvedEnvironment) (a : ReplicaAssignment) : F () :=
  _ ← of_f (ok_or (planned_endpoint p service_name (ra_server a))
              ("No network endpoint exists for service '" +:+ service_name +:+ "' on '" +:+ ra_server a +:+ "'"));
  _ ← (if bool_decide (ra_server a ∈ sessions) then mret () else crash);
  server ← index (np_servers p) (ra_server a);
  outcome ← deploy_on links process_id fuel (ra_server a)
              (endpoint_context config p project_root server service_name (ra_replica_id a) service image resolved_env false);
  match outcome with
  | Deployed d => if (String.length d <? 12)%nat then crash else mret ()
  | DeployFailed error =>
      stops ("Scale-up failed for '" +:+ ra_replica_id a +:+ "' on '" +:+ ra_server a +:+ "': " +:+ error
             +:+ ". Retry the same scale command to resume.")
  | SkippedAfterSiblingFailure => crash
  end.
Definition retire_assignment (a : ReplicaAssignment) : F () :=
  if bool_decide (ra_server a ∈ sessions)
  then on_or (ra_server a) (@retire_replica _ _ _ _ _ (links (ra_server a)) engine project service_name (ra_replica_id a))
  else crash.

Definition scale_routes (resolved_env : ResolvedEnvironment) : F () :=
  match service_proxy service with
  | Some proxy => reconcile_catalog_routes config p sessions project {[service_name := proxy]} {[service_name := resolved_env]}
  | None => mret ()
  end.
Definition scale_crons : F () :=
  cron_problems ← reconcile_service_crons links config p service_name service sessions;
  if bool_decide (cron_problems = []) then mret ()
  else stops ("Scale succeeded, but " +:+ pretty (N.of_nat (length cron_problems))
              +:+ " cron reconciliation problem(s) occurred; see above.").

(** The work under the locks, in the order of the code. *)
Definition scale_operation (plan : ScalePlan) : F () :=
  match btree_elems sessions with
  | [] => crash
  | seed :: _ =>
      _ ← commit_desired seed;
      '(loaded_env, _) ← of_f (load_env_file project_root environment (config_secrets_path config));
      resolved_env ← of_f (resolve_service_env host_env allow_host_env config loaded_env service);
      image ← of_f scale_image;
      _ ← each (add_replica image resolved_env) (additions plan);
      _ ← each retire_assignment (removals plan);
      _ ← scale_routes resolved_env;
      scale_crons
  end.

(** The work, then an entry on every server. *)
Definition scale_locked (plan : ScalePlan) : F () :=
  match btree_elems sessions with
  | [] => crash
  | _ =>
      result ← attempts (scale_operation plan);
      _ ← each (λ n,
            _ ← on n (record project "service_scale" (if is_ok result then AuditSuccess else AuditFailed)
                        (service_name +:+ ": scale " +:+ pretty current_count +:+ " -> " +:+ pretty requested +:+ " (per server) on " +:+ n)
                        (Some (scope_to_string (ServiceScale service_name))) None (Some elapsed));
            mret ()) (btree_elems sessions);
      of_f result
  end.
End scaling.

(** From the seed on, with the service and its servers. *)
Definition scale_from (service_name : string) (service : Service) (eligible : list string) (seed_name : string) (scale : option N)
    (reset : bool) (answer : result string string) (dry_run : bool) (confirmed : result string bool) : F () :=
  _ ← of_f (connect_each [seed_name]);
  current_desired ← read_desired links seed_name service_name;
  catalog ← on_or seed_name (@Session.catalog _ _ _ _ _ (links seed_name));
  let current_count := default (service_scale service) (current_desired ≫= Desired.scale_override) in
  requested ← of_f (requested_scale service scale reset answer current_count);
  _ ← of_f (check_scale service_name service eligible requested);
  let plan := scale_plan project service_name eligible catalog current_count requested in
  if dry_run then mret ()
  else
    yes ← of_f confirmed;
    if negb yes then stops "Scaling cancelled."
    else
      let proxied := bool_decide (is_Some (service_proxy service)) in
      let affected := affected_servers seed_name eligible proxied plan in
      _ ← of_f (connect_each (btree_elems (affected ∖ {[seed_name]})));
      with_locks affected project (scale_locks service_name seed_name proxied affected)
        (lock_info ("jiji service scale: " +:+ service_name +:+ " -> " +:+ pretty requested)) 300 false
        (scale_locked service_name service current_desired catalog current_count requested reset affected plan).

(** [run] from the plan on. *)
Definition scale_service (hosts services : option string) (scale : option N) (reset : bool) (answer : result string string)
    (dry_run : bool) (confirmed : result string bool) : F () :=
  if bool_decide (is_Some hosts)
  then stops ("`jiji service scale` does not accept -H/--hosts; scale applies uniformly to every server already listed in `servers:`")
  else
    service_filter ← of_f (ok_or services "`jiji service scale` requires -S/--services to select exactly one service");
    match filter (λ name, matches_pattern name service_filter = true) (fst <$> config_services config) with
    | [service_name] =>
        service ← configured_service config service_name;
        let eligible := dedup (sort_by leb (service_servers service)) in
        match eligible with
        | [] => crash
        | seed_name :: _ => scale_from service_name service eligible seed_name scale reset answer dry_run confirmed
        end
    | matched => stops ("-S/--services must match exactly one service; '" +:+ service_filter +:+ "' matched "
                        +:+ pretty (N.of_nat (length matched)))
    end.
End command.
