(* ===== verification/ServiceRedeploy.v ===== *)
(** Deploying services again and anew: [jiji-cli/src/commands/service/restart.rs], [rollback.rs] and
    [commands/deploy.rs] without [--build], from the plan on.

    The three select endpoints and the replicas of each, take the locks, and deploy in two waves.
    Of a deployment, the build of images and the report of peers that have seen it are left out. *)

From S2P Require Import Prelude Text Bytes Substring Cidr Naming Schema Planner ServiceRuntime.
From S2P Require Import Membership Catalog Desired OpLog Leases Cron CronExec Replication Store Api CandidatePlan EnvResolution.
From S2P Require Import Locks Session ProxyRoutes Transaction ProxyScript HostProxy AuditTrail Teardown Cascade Fleet LockSession NetworkSetup.
From S2P Require Import NetworkApply Services.
Open Scope N_scope.

(** ** Images *)

(** The image a service is rolled back to. *)
Definition resolve_rollback_image (registry : Registry) (project service_name : string) (service : Service) (version : string) :
    result string string :=
  let failed error := "Could not resolve rollback image for service '" +:+ service_name +:+ "': " +:+ error in
  if bool_decide (is_Some (service_build service)) then map_err failed (full_image_name registry project service_name version)
  else
    let? image := ok_or (service_image service)
      ("Service '" +:+ service_name +:+ "' has no `image:` or `build:` configured. Set one before rolling back.") in
    map_err failed (resolve_image_reference image (Some version)).

(** The image a service is deployed with when nothing is built. *)
Definition resolve_deploy_image (service_name : string) (service : Service) (version : option string) : result string string :=
  let? image := ok_or (service_image service)
    (if bool_decide (is_Some (service_build service))
     then "Service '" +:+ service_name +:+ "' has no `image:` configured, but has `build:` configured. "
          +:+ "Pass `--build` to build and push it, or set `image:` directly."
     else "Service '" +:+ service_name +:+ "' has no `image:` configured. Set an image reference before deploying.") in
  map_err (λ _, "Could not resolve image for service '" +:+ service_name +:+ "'") (resolve_image_reference image version).

Definition resolve_restart_image `{ContentHash MembershipRecord, ContentHash CatalogRecord, ContentHash DesiredStateRecord, Labels,
    Sha256, Host, AgentLink} (p : NetworkPlan) (e : ServiceEndpointPlan) (service : Service) : M string :=
  match service_image service with
  | Some image => of_result (resolve_image_reference image None)
  | None =>
      let replica := replica_id_for (np_project p) (ep_service e) (ep_server e) 0 in
      records ← catalog;
      of_result (ok_or (Catalog.image <$> find (λ r, bool_decide (replica_id r = replica)
                                                  && bool_decide (Catalog.state r = Catalog.Active)
                                                  && bool_decide (Catalog.health r = Catalog.Healthy)) records)
        ("Service '" +:+ ep_service e +:+ "' has no `image:` configured and no healthy active deployment on '" +:+ ep_server e
         +:+ "' to restart from. Deploy it first with `jiji deploy --build`."))
  end.

(** ** The commands *)

Section commands.
Context `{ContentHash MembershipRecord, ContentHash CatalogRecord, ContentHash DesiredStateRecord,
  ContentHash CronSpecContent, Labels, Sha256}.
Context `{Host, DebugText, FloatText, Connector, RouteJson, Operator, LockJson, LocalTime, LocalTree, LocalFiles, NumberText, ProxyBuild}.
Context (links : string → AgentLink) (process_id : N) (fuel : nat) (config : Config) (p : NetworkPlan).
Context (lock_info : string → LockInfo) (elapsed : N) (project_root : string) (environment : option string).
Context (host_env : string → option string) (allow_host_env : bool) (lock_timeout : N) (force_lock : bool).

Let engine := builder_engine (config_builder config).
Let project := config_project config.

Definition networking_enabled (command : string) : F () :=
  if np_enabled p then mret ()
  else stops ("Private networking is disabled in configuration; `jiji " +:+ command
              +:+ "` requires it. Enable `network.enabled` and run `jiji server setup`.").

Definition load_environment : F (gmap string string) :=
  '(loaded_env, _) ← of_f (load_env_file project_root environment (config_secrets_path config));
  mret loaded_env.
(** A service of the configuration, or an error. *)
Definition defined_service (name : string) : F Service :=
  of_f (ok_or (hm_get (config_services config) name) ("Service '" +:+ name +:+ "' is not defined in configuration")).

(** After the waves: cron jobs, retention, the audit entries and the count of failures.
    [ingress] runs in between. *)
Definition finish (action : string) (detail : option string) (what : string) (sessions : gset string)
    (selected : list ServiceEndpointPlan) (results : list (list (string * EndpointOutcome))) (ingress : F nat) : F () :=
  cron_problems ← crons_after_deploy links config p sessions selected results;
  retention_problems ← retention_after_deploy links config selected results sessions;
  ingress_errors ← ingress;
  outcomes ← mapF (audit_outcome (servers_by_identity selected)) (mjoin results);
  _ ← record_endpoints_by_server sessions (np_project p) action detail outcomes true (Some elapsed);
  _ ← short_ids results;
  fail_if_any what (failed_outcomes results + ingress_errors + length cron_problems + length retention_problems).

Definition waves images_for resolved_envs skip_proxy sessions replica_ids selected : F (list (list (string * EndpointOutcome))) :=
  '(one, two) ← run_waves links process_id fuel config p project_root sessions replica_ids images_for resolved_envs skip_proxy selected;
  mret (snd <$> (one ++ two)).

(** *** Restart and rollback *)

(** The replicas of the selected endpoints by the configured scale, and the dependents. *)
Definition select_expanded (hosts services : option string) : F Selection :=
  matched ← of_f (select_target_endpoints p hosts services);
  sel ← expects (expand_replicas config matched);
  expects (add_cascaded_dependents config p sel).

(** The locks of an endpoint: its replica, and the proxy of its server if the service has one. *)
Fixpoint endpoint_locks (replica_ids : gmap string string) (selected : list ServiceEndpointPlan) : F (list LockRequest) :=
  match selected with
  | [] => mret []
  | e :: selected =>
      service ← configured_service config (ep_service e);
      replica_id ← index replica_ids (ep_identity e);
      rest ← endpoint_locks replica_ids selected;
      mret ({| req_scope := LogicalReplica replica_id; req_host := ep_server e |}
            :: (if bool_decide (is_Some (service_proxy service)) then [{| req_scope := HostGlobalProxy; req_host := ep_server e |}] else [])
            ++ rest)
  end.

(** The images of the endpoints; every failure is reported, then the command ends. *)
Fixpoint restart_images (selected : list ServiceEndpointPlan) : F (gmap string string * nat) :=
  match selected with
  | [] => mret (∅, 0%nat)
  | e :: selected =>
      service ← configured_service config (ep_service e);
      r ← on (ep_server e) (@resolve_restart_image _ _ _ _ _ _ (links (ep_server e)) p e service);
      '(images, failures) ← restart_images selected;
      mret match r with Ok image => (<[ep_identity e := image]> images, failures) | Err _ => (images, S failures) end
  end.

Definition restart_locked (sel : Selection) (sessions : gset string) : F () :=
  let '(selected, replica_ids) := sel in
  _ ← reconcile_for_deploy;
  loaded_env ← load_environment;
  resolved_envs ← resolve_envs host_env allow_host_env config defined_service loaded_env ∅ (ep_service <$> selected);
  _ ← verify_proxies config p sessions (serves_proxied config selected);
  '(images, failures) ← restart_images selected;
  if (0 <? failures)%nat
  then stops ("Could not resolve the restart image for " +:+ pretty (N.of_nat failures) +:+ " endpoint(s); see the errors above.")
  else
    results ← waves (λ _ _, mret images) resolved_envs false sessions replica_ids selected;
    finish "service_restart" None "Restart" sessions selected results (mret 0%nat).

Definition restart_services (hosts services : option string) : F () :=
  _ ← networking_enabled "service restart";
  '(selected, replica_ids) ← select_expanded hosts services;
  let sessions := selected_server_names selected in
  _ ← of_f (connect_selected config ∅ sessions);
  locks ← endpoint_locks replica_ids selected;
  with_locks sessions project locks (lock_info ("jiji service restart: " +:+ selected_service_names_for_message selected))
    lock_timeout force_lock (restart_locked (selected, replica_ids) sessions).

Fixpoint rollback_images (version : string) (names : list string) : F (gmap string string) :=
  match names with
  | [] => mret ∅
  | name :: names =>
      service ← configured_service config name;
      image ← of_f (resolve_rollback_image (builder_registry (config_builder config)) project name service version);
      images ← rollback_images version names;
      mret (<[name := image]> images)
  end.

Definition rollback_locked (version : string) (sel : Selection) (sessions : gset string) (images : gmap string string) : F () :=
  let '(selected, replica_ids) := sel in
  _ ← reconcile_for_deploy;
  loaded_env ← load_environment;
  resolved_envs ← resolve_envs host_env allow_host_env config (configured_service config) loaded_env ∅
                    (btree_elems (selected_service_names selected));
  _ ← verify_proxies config p sessions (serves_proxied config selected);
  results ← waves (image_of_service images) resolved_envs false sessions replica_ids selected;
  finish "service_rollback" (Some ("version '" +:+ version +:+ "'")) "Rollback" sessions selected results (mret 0%nat).

Definition rollback_services (hosts services : option string) (version : string) : F () :=
  _ ← networking_enabled "service rollback";
  '(selected, replica_ids) ← select_expanded hosts services;
  images ← rollback_images version (btree_elems (selected_service_names selected));
  let sessions := selected_server_names selected in
  _ ← of_f (connect_selected config ∅ sessions);
  locks ← endpoint_locks replica_ids selected;
  with_locks sessions project locks
    (lock_info ("jiji service rollback: " +:+ selected_service_names_for_message selected +:+ " to " +:+ version))
    lock_timeout force_lock (rollback_locked version (selected, replica_ids) sessions images).

(** *** Deploy *)

Definition least (l : list string) : option string := head (sort_by leb l).

(** The first eligible server of the selected services. *)
Fixpoint eligible_servers (names : list string) : F (list string) :=
  match names with
  | [] => mret []
  | name :: names => service ← configured_service config name; rest ← eligible_servers names; mret (service_servers service ++ rest)
  end.

Fixpoint replica_requests (replica_ids : gmap string string) (selected : list ServiceEndpointPlan) : F (list LockRequest) :=
  match selected with
  | [] => mret []
  | e :: selected =>
      replica_id ← index replica_ids (ep_identity e);
      rest ← replica_requests replica_ids selected;
      mret ({| req_scope := LogicalReplica replica_id; req_host := ep_server e |} :: rest)
  end.

(** The images by service; a service is looked at once. *)
Fixpoint deploy_images (version : option string) (images : gmap string string) (names : list string) : F (gmap string string) :=
  match names with
  | [] => mret images
  | name :: names =>
      if bool_decide (is_Some (images !! name)) then deploy_images version images names
      else
        service ← defined_service name;
        image ← of_f (resolve_deploy_image name service version);
        deploy_images version (<[name := image]> images) names
  end.

(** The proxied services of the selection. *)
Fixpoint proxied_services (selected : list ServiceEndpointPlan) : F (gmap string ProxyConfig) :=
  match selected with
  | [] => mret ∅
  | e :: selected =>
      service ← configured_service config (ep_service e);
      rest ← proxied_services selected;
      mret (match service_proxy service with Some proxy => <[ep_service e := proxy]> rest | None => rest end)
  end.

(** The routes of the selected services once all of them are deployed: how many errors. *)
Definition deploy_ingress (skip_proxy : bool) (sessions : gset string) (selected : list ServiceEndpointPlan)
    (resolved_envs : gmap string ResolvedEnvironment) (results : list (list (string * EndpointOutcome))) : F nat :=
  if (failed_outcomes results =? 0)%nat && negb skip_proxy then
    services ← proxied_services selected;
    r ← attempts (reconcile_catalog_routes config p sessions (np_project p) services resolved_envs);
    mret (if is_ok r then 0%nat else 1%nat)
  else mret 0%nat.

Definition deploy_locked (version : option string) (skip_proxy : bool) (sel : Selection) (ingress_hosts sessions : gset string) : F () :=
  let '(selected, replica_ids) := sel in
  _ ← reconcile_for_deploy;
  loaded_env ← load_environment;
  images ← deploy_images version ∅ (ep_service <$> selected);
  resolved_envs ← resolve_envs host_env allow_host_env config (configured_service config) loaded_env ∅ (ep_service <$> selected);
  _ ← each (λ n, on_or n (@check_version _ _ _ _ _ (links n) n)) (btree_elems sessions);
  _ ← (if skip_proxy then mret () else verify_proxies config p sessions (λ n, bool_decide (n ∈ ingress_hosts)));
  results ← waves (image_of_service images) resolved_envs skip_proxy sessions replica_ids selected;
  finish "deploy" None "Deploy" sessions selected results (deploy_ingress skip_proxy sessions selected resolved_envs results).

Definition deploy_services (hosts services version : option string) (skip_proxy : bool) (confirmed : result string bool) : F () :=
  _ ← networking_enabled "deploy";
  '(configured_selected, _) ← select_replica_endpoints config p hosts services;
  let selected_services := selected_service_names configured_selected in
  eligible ← eligible_servers (btree_elems selected_services);
  seed_server ← (match least eligible with Some seed => mret seed | None => crash end);
  seed_config ← (match hm_get (config_servers config) seed_server with Some named => mret named | None => crash end);
  _ ← of_f (connect_options seed_server seed_config);
  _ ← of_f (map_err (λ _, "Could not connect to seed server '" +:+ seed_server +:+ "'") (connect seed_server));
  _ ← on_or seed_server (@check_version _ _ _ _ _ (links seed_server) seed_server);
  '(sel, ingress_hosts) ← select_effective_replica_endpoints links config p hosts selected_services {[seed_server]};
  '(selected, replica_ids) ← expects (add_cascaded_dependents config p sel);
  yes ← of_f confirmed;
  if negb yes then stops "Deployment cancelled."
  else
    let sessions := selected_server_names selected ∪ ingress_hosts in
    _ ← of_f (connect_selected config {[seed_server]} sessions);
    replica_locks ← replica_requests replica_ids selected;
    let locks := replica_locks ++ (if skip_proxy then [] else
                   (λ h, {| req_scope := HostGlobalProxy; req_host := h |}) <$> btree_elems ingress_hosts) in
    with_locks sessions project locks (lock_info ("jiji deploy: " +:+ selected_service_names_for_message selected))
      lock_timeout force_lock (deploy_locked version skip_proxy (selected, replica_ids) ingress_hosts sessions).
End commands.
