(* ===== verification/CommandLogs.v ===== *)
(** Programs over several servers by what they add to the logs: a property of lists of events that
    holds of every extension ([spreads]), and events that are due by what came before them
    ([in_order], [step]).  With the locks, which only run commands. *)

From S2P Require Import Prelude Text Bytes Substring Cidr Naming Pattern Schema Planner ServiceRuntime.
From S2P Require Import Membership Catalog Desired OpLog Leases Cron CronExec Replication Store Api CandidatePlan EnvResolution.
From S2P Require Import Locks Session ProxyRoutes SessionLaws Transaction ProxyScript HostProxy AuditTrail Teardown TeardownLaws Cascade.
From S2P Require Import Fleet FleetLaws FleetLogs LockSession NetworkSetup Services.
Open Scope N_scope.

Lemma Since_then `{Host} (P Q R : string → list Event → Prop) fl fl1 fl2 :
  (∀ n l l', P n l → Q n l' → R n (l' ++ l)) → Since fl P fl1 → Since fl1 Q fl2 → Since fl R fl2.
Proof.
  intros Happ H1 H2 n w0 Hn. destruct (H1 n w0 Hn) as (w & l & Hw & Hl & HP). destruct (H2 n w Hw) as (w' & l' & Hw' & Hl' & HP').
  exists w', (l' ++ l). rewrite Hl', Hl, (assoc_L (++)). auto.
Qed.
Lemma Since_twice `{Host} (P : string → list Event → Prop) fl fl1 fl2 :
  (∀ n l l', P n l → P n l' → P n (l' ++ l)) → Since fl P fl1 → Since fl1 P fl2 → Since fl P fl2.
Proof. apply Since_then. Qed.

(** ** What every extension of a log has *)

Section spreads.
Context `{Host} (P : list Event → Prop).

Definition extends {A} (m : M A) : Prop := ∀ w, ∃ l, w_log (m w).2 = l ++ w_log w ∧ P l.
Definition spreads {A} (m : F A) : Prop := ∀ fl, Since fl (λ _, P) (m fl).2.

(** A property of sequences of events that commands have. *)
Record closed : Prop := {
  closed_executed l : Forall is_executed l → P l;
  closed_app l l' : P l → P l' → P (l' ++ l);
}.
Context (P_closed : closed).

Lemma closed_nil : P [].
Proof. by apply (closed_executed P_closed). Qed.
Lemma extends_quiet {A} (m : M A) : quiet m → extends m.
Proof. intros Hm w. destruct (Hm w) as [_ (l & Hl & Hf)]. exists l. split; [done|]. by apply (closed_executed P_closed). Qed.
Lemma extends_bind {A B} (m : M A) (f : A → M B) : extends m → (∀ a, extends (f a)) → extends (m ≫= f).
Proof.
  intros Hm Hf w. destruct (Hm w) as (l & Hl & HP). unfold mbind, M_bind. destruct (m w) as [[a| | |] w']; [|by exists l..].
  destruct (Hf a w') as (l' & Hl' & HP'). simpl in Hl. exists (l' ++ l). rewrite Hl', Hl, (assoc_L (++)). split; [done|].
  by apply (closed_app P_closed).
Qed.
Lemma extends_attempt {A} (m : M A) : extends m → extends (attempt m).
Proof. intros Hm w. destruct (Hm w) as (l & Hl & HP). exists l. unfold attempt. by destruct (m w) as [[a| | |] w']. Qed.
Lemma extends_each {A} (f : A → M ()) l : (∀ a, a ∈ l → extends (f a)) → extends (ProxyRoutes.each f l).
Proof.
  intros Hf. induction l as [|a l IH]; simpl; [apply extends_quiet, quiet_ret|].
  apply extends_bind; [apply Hf, list_elem_of_here|intros _; apply IH; intros; by apply Hf, list_elem_of_further].
Qed.
(** One request. *)
Lemma extends_call `{ContentHash MembershipRecord, ContentHash CatalogRecord, ContentHash DesiredStateRecord, Labels, AgentLink} key body :
  (∀ fate answer s s', P [Asked {| idempotency_key := key; request_body := body |} fate answer s s']) → extends (call key body).
Proof.
  intros HP w. unfold call. destruct (handle_idempotent _ _ _ _) as [answer store].
  destruct (link_fate _) eqn:Hf; (eexists [_]; split; [reflexivity|apply HP]).
Qed.

Lemma spreads_ret {A} (a : A) : spreads (mret a).
Proof. intros fl. eapply Since_impl; [|apply Since_now]. intros n l ->. apply closed_nil. Qed.
Lemma spreads_stay {A} (m : F A) : (∀ fl, (m fl).2 = fl) → spreads m.
Proof. intros Hm fl. rewrite Hm. eapply Since_impl; [|apply Since_now]. intros n l ->. apply closed_nil. Qed.
Lemma spreads_stops {A} e : spreads (stops e : F A).
Proof. by apply spreads_stay. Qed.
Lemma spreads_crash {A} : spreads (crash : F A).
Proof. by apply spreads_stay. Qed.
Lemma spreads_of_f {A} (r : result string A) : spreads (of_f r).
Proof. apply spreads_stay. by destruct r. Qed.
Lemma spreads_expects {E A} (r : result (fault E) A) : spreads (expects r).
Proof. apply spreads_stay. by destruct r. Qed.
Lemma spreads_panics {A} (o : outcome A) : spreads (panics o).
Proof. apply spreads_stay. by destruct o. Qed.
Lemma spreads_index {A} (m : gmap string A) n : spreads (index m n).
Proof. apply spreads_stay. intros fl. unfold index. by destruct (m !! n). Qed.
Lemma spreads_service config n : spreads (configured_service config n).
Proof. apply spreads_stay. intros fl. unfold configured_service. by destruct (hm_get _ _). Qed.
Lemma spreads_bind {A B} (m : F A) (f : A → F B) : spreads m → (∀ a, spreads (f a)) → spreads (m ≫= f).
Proof.
  intros Hm Hf fl. specialize (Hm fl). unfold mbind, F_bind. destruct (m fl) as [[a| | |] fl1]; try done.
  eapply Since_twice; [|exact Hm|apply Hf]. intros _ l l'. apply (closed_app P_closed).
Qed.
Lemma spreads_attempts {A} (m : F A) : spreads m → spreads (attempts m).
Proof. intros Hm fl. specialize (Hm fl). unfold attempts. by destruct (m fl) as [[a| | |] fl1]. Qed.
Lemma spreads_context {A} what (m : F A) : spreads m → spreads (f_context what m).
Proof. intros Hm. apply spreads_bind; [by apply spreads_attempts|]. intros [a|e]; [apply spreads_ret|apply spreads_stops]. Qed.
Lemma spreads_on {A} n (m : M A) : extends m → spreads (on n m).
Proof.
  intros Hm fl. pose proof (on_spec n m fl) as Ho. destruct (on n m fl) as [r fl'].
  destruct Ho as [(_ & _ & ->)|(w & Hw & -> & _)]; simpl.
  { eapply Since_impl; [|apply Since_now]. intros k l ->. apply closed_nil. }
  intros k w0 Hk. destruct (decide (k = n)) as [->|Hne].
  - rewrite Hw in Hk. injection Hk as <-. destruct (Hm w) as (l & Hl & HP). exists (m w).2, l. by rewrite lookup_insert_eq.
  - exists w0, []. rewrite lookup_insert_ne by done. split_and!; [done..|apply closed_nil].
Qed.
Lemma spreads_on_or {A} n (m : M A) : extends m → spreads (on_or n m).
Proof. intros Hm. apply spreads_bind; [by apply spreads_on|]. intros [a|e]; [apply spreads_ret|apply spreads_stops]. Qed.
Lemma spreads_each {A} (f : A → F ()) l : (∀ a, spreads (f a)) → spreads (Fleet.each f l).
Proof. intros Hf. induction l; simpl; [apply spreads_ret|]. apply spreads_bind; [apply Hf|done]. Qed.
Lemma spreads_mapF {A B} (f : A → F B) l : (∀ a, spreads (f a)) → spreads (mapF f l).
Proof.
  intros Hf. induction l; simpl; [apply spreads_ret|]. apply spreads_bind; [apply Hf|intros b].
  apply spreads_bind; [done|intros bs; apply spreads_ret].
Qed.
Lemma spreads_problems {A} (f : A → F (list string)) l : (∀ a, spreads (f a)) → spreads (problems_of f l).
Proof.
  intros Hf. induction l; simpl; [apply spreads_ret|]. apply spreads_bind; [apply Hf|intros b].
  apply spreads_bind; [done|intros bs; apply spreads_ret].
Qed.
Lemma spreads_run_each {A} (m : LockRequest → M A) requests : (∀ r, extends (m r)) → spreads (run_each m requests).
Proof.
  intros Hm. induction requests as [|r requests IH]; simpl; [apply spreads_ret|]. apply spreads_bind; [by apply spreads_on|intros x].
  apply spreads_bind; [done|intros; apply spreads_ret].
Qed.
Lemma spreads_execute_each {A} sessions (m : LockRequest → M A) requests :
  (∀ r, extends (m r)) → spreads (execute_each sessions m requests).
Proof. intros Hm. unfold execute_each. destruct (forallb _ _); [by apply spreads_run_each|by apply spreads_stay]. Qed.
End spreads.

Create HintDb spreads.
#[export] Hint Resolve spreads_ret spreads_stops spreads_crash spreads_of_f spreads_expects spreads_panics spreads_index spreads_service
  spreads_on spreads_on_or extends_quiet extends_attempt extends_bind : spreads.

(** Walks through a program. *)
Ltac spreads :=
  repeat first
    [ progress intros
    | solve [eauto with spreads quiet]
    | apply spreads_bind; [done|..]
    | apply spreads_attempts
    | apply spreads_context; [done|]
    | apply spreads_each; [done|]
    | apply spreads_mapF; [done|]
    | apply spreads_problems; [done|]
    | case_match ].

(** ** Order *)

(** What holds of a log holds of a longer one. *)
Definition monotone (Φ : list Event → Prop) : Prop := ∀ l l', l ⊆ l' → Φ l → Φ l'.
Lemma answered_monotone b c : monotone (answered b c).
Proof. intros l l' Hsub (i & r & Hin & Hr). exists i, r. split; [by apply Hsub|done]. Qed.
Lemma removed_or_unseen_monotone engine n : monotone (removed_or_unseen engine n).
Proof. intros l l' Hsub [Hg|Hg]; [left|right]; by eapply answered_monotone. Qed.
Lemma unused_image_monotone engine i : monotone (unused_image engine i).
Proof. intros l l' Hsub (j & r & Hin & Hr). exists j, r. split; [by apply Hsub|done]. Qed.
Lemma subseteq_app_l {A} (l l' : list A) : l ⊆ l ++ l'.
Proof. intros x Hx. apply elem_of_app. by left. Qed.
Lemma subseteq_app_r {A} (l l' : list A) : l' ⊆ l ++ l'.
Proof. intros x Hx. apply elem_of_app. by right. Qed.

Section order.
Context `{Host} (due : list Event → Event → Prop).

(** Each event is due by what came before it; the log has the newest first. *)
Fixpoint in_order (l : list Event) : Prop := match l with [] => True | e :: l => due l e ∧ in_order l end.

Context (due_monotone : ∀ e, monotone (λ l, due l e)).

Lemma in_order_app l l' : in_order l → in_order l' → in_order (l' ++ l).
Proof.
  intros Hl. induction l' as [|e l' IH]; [done|]. intros [He Hl']. split; [|auto]. eapply due_monotone; [|exact He]. apply subseteq_app_l.
Qed.
Lemma in_order_closed : (∀ e l, is_executed e → due l e) → closed in_order.
Proof.
  intros Hd. split; [|apply in_order_app]. intros l Hl. induction Hl as [|e l He Hl IH]; [done|]. split; auto.
Qed.

(** From a log in order with [Ψ], [m] leaves one in order, and with [Q] when it returns. *)
Definition step {A} (Ψ : list Event → Prop) (m : M A) (Q : A → list Event → Prop) : Prop :=
  ∀ w k k0, w_log w = k ++ k0 → in_order k → Ψ k →
    ∃ l, w_log (m w).2 = l ++ w_log w ∧ in_order (l ++ k) ∧ match (m w).1 with Fine a => Q a (l ++ k) | _ => True end.

Lemma step_extends {A} (m : M A) Q : step (λ _, True) m Q → extends in_order m.
Proof. intros Hm w. destruct (Hm w [] (w_log w)) as (l & Hl & Ho & _); [done..|]. exists l. by rewrite app_nil_r in Ho. Qed.
Lemma step_ret {A} Ψ (a : A) (Q : A → list Event → Prop) : (∀ l, Ψ l → Q a l) → step Ψ (mret a) Q.
Proof. intros HQ w k k0 Hk Ho HΨ. exists []. split_and!; [done..|by apply HQ]. Qed.
Lemma step_fail {A} Ψ e (Q : A → list Event → Prop) : step Ψ (fail e) Q.
Proof. intros w k k0 Hk Ho HΨ. by exists []. Qed.
Lemma step_impl {A} (Ψ Ψ' : list Event → Prop) (m : M A) (Q Q' : A → list Event → Prop) :
  step Ψ' m Q' → (∀ l, Ψ l → Ψ' l) → (∀ a l, Q' a l → Q a l) → step Ψ m Q.
Proof.
  intros Hm HΨ HQ w k k0 Hk Ho Hk'. destruct (Hm w k k0 Hk Ho (HΨ _ Hk')) as (l & Hl & Hl' & Hr). exists l.
  split_and!; [done..|]. destruct (m w).1; auto.
Qed.
Lemma step_pre {A} (Ψ Ψ' : list Event → Prop) (m : M A) Q : (∀ l, Ψ l → Ψ' l) → step Ψ' m Q → step Ψ m Q.
Proof. intros HΨ Hm. by eapply step_impl. Qed.
Lemma step_bind {A B} Ψ (m : M A) Q (f : A → M B) R : step Ψ m Q → (∀ a, step (Q a) (f a) R) → step Ψ (m ≫= f) R.
Proof.
  intros Hm Hf w k k0 Hk Ho HΨ. destruct (Hm w k k0 Hk Ho HΨ) as (l & Hl & Hl' & Hr). unfold mbind, M_bind.
  destruct (m w) as [[a| | |] w']; simpl in *; [|by exists l..].
  destruct (Hf a w' (l ++ k) k0) as (l' & Hl2 & Ho' & Hr'); [by rewrite Hl, Hk, (assoc_L (++))|done..|].
  exists (l' ++ l). rewrite Hl2, Hl, <-!(assoc_L (++)). auto.
Qed.
Lemma step_attempt {A} Ψ (m : M A) (Q : A → list Event → Prop) :
  step Ψ m Q → step Ψ (attempt m) (λ r l, match r with Ok a => Q a l | Err _ => True end).
Proof.
  intros Hm w k k0 Hk Ho HΨ. destruct (Hm w k k0 Hk Ho HΨ) as (l & Hl & Hl' & Hr). exists l. unfold attempt.
  by destruct (m w) as [[a| | |] w'].
Qed.
(** What is known already is known afterwards. *)
Lemma step_frame {A} (Φ Ψ : list Event → Prop) (m : M A) (Q : A → list Event → Prop) :
  monotone Φ → step Ψ m Q → step (λ l, Φ l ∧ Ψ l) m (λ a l, Φ l ∧ Q a l).
Proof.
  intros HΦ Hm w k k0 Hk Ho [Hφ HΨ]. destruct (Hm w k k0 Hk Ho HΨ) as (l & Hl & Hl' & Hr). exists l. split_and!; [done..|].
  destruct (m w).1; [|done..]. split; [|done]. eapply HΦ; [|exact Hφ]. apply subseteq_app_r.
Qed.
Lemma step_keep {A} (Ψ : list Event → Prop) (m : M A) (Q : A → list Event → Prop) :
  monotone Ψ → step Ψ m Q → step Ψ m (λ a l, Ψ l ∧ Q a l).
Proof. intros HΨ Hm. apply (step_impl Ψ (λ l, Ψ l ∧ Ψ l) m _ (λ a l, Ψ l ∧ Q a l)); [by apply step_frame|done..]. Qed.
(** Commands that are due at any time. *)
Lemma step_issues {A} Ψ (P : string → Prop) (m : M A) :
  (∀ c i o l, P c → due l (Executed c i o)) → issues P m → step Ψ m (λ _ _, True).
Proof.
  intros HP Hm w k k0 Hk Ho _. destruct (Hm w) as (l & Hl & Hf). exists l. split_and!; [done| |by destruct (m w).1].
  clear Hl. induction Hf as [|e l (c & i & o & -> & Hc) Hf IH]; [done|]. split; [by apply HP|done].
Qed.
Lemma step_execute (Ψ : list Event → Prop) c :
  (∀ l o, Ψ l → due l (Executed c "" o)) → step Ψ (execute c) (λ r l, Executed c "" (Ok r) ∈ l).
Proof.
  intros Hd w k k0 Hk Ho HΨ. unfold execute, execute_with_input. destruct (exec c "" (w_machine w)) as [[r|e] mc]; eexists [_];
    (split; [reflexivity|split; [split; [by apply Hd|done]|]]); [apply list_elem_of_here|done].
Qed.
(** A command that must succeed. *)
Lemma step_run_or Ψ c what : (∀ l o, Ψ l → due l (Executed c "" o)) → step Ψ (run_or c what) (λ _ l, answered true c l).
Proof.
  intros Hd. eapply step_bind; [by apply step_execute|]. intros r. destruct (success r) eqn:Hr; [|apply step_fail].
  apply step_ret. intros l Hl. by exists "", r.
Qed.
Lemma step_run_checked Ψ c : (∀ l o, Ψ l → due l (Executed c "" o)) → step Ψ (run_checked c) (λ _ l, answered true c l).
Proof.
  intros Hd. unfold run_checked. eapply step_bind; [by apply step_execute|]. intros r. unfold ensure_success.
  destruct (success r) eqn:Hr; [|apply step_bind with (Q := λ _ _, False); [apply step_fail|by intros a w k k0 _ _ []]].
  apply step_bind with (Q := λ _ l, answered true c l); [apply step_ret; intros l Hl; by exists "", r|].
  intros _. by apply step_ret.
Qed.
(** A list of programs: what each has come to. *)
Lemma step_collect {A B} Ψ (f : A → M B) (Q : A → B → list Event → Prop) xs :
  monotone Ψ → (∀ a b, monotone (Q a b)) → (∀ a, a ∈ xs → step Ψ (f a) (Q a)) →
  step Ψ (collect f xs) (λ bs l, Forall2 (λ a b, Q a b l) xs bs).
Proof.
  intros HΨ HQ. induction xs as [|a xs IH]; intros Hf; simpl; [apply step_ret; by constructor|].
  eapply step_bind.
  { apply step_keep; [done|apply Hf, list_elem_of_here]. }
  intros b. eapply step_bind.
  { apply (step_impl (λ l, Ψ l ∧ Q a b l) (λ l, Q a b l ∧ Ψ l) _ (λ bs l, Q a b l ∧ Forall2 (λ a b, Q a b l) xs bs)
      (λ bs l, Q a b l ∧ Forall2 (λ a b, Q a b l) xs bs)); [|naive_solver|auto].
    apply step_frame; [apply HQ|]. apply IH. intros. by apply Hf, list_elem_of_further. }
  intros bs. apply step_ret. intros l [Hb Hbs]. by constructor.
Qed.
(** A request and its answer. *)
Definition accepted (body : RequestBody) (response : ResponseBody) (l : list Event) : Prop :=
  ∃ key s s', Asked {| idempotency_key := key; request_body := body |} Delivered (Ok response) s s' ∈ l.
Lemma accepted_monotone body response : monotone (accepted body response).
Proof. intros l l' Hsub (key & s & s' & Hin). exists key, s, s'. by apply Hsub. Qed.
Lemma step_call `{ContentHash MembershipRecord, ContentHash CatalogRecord, ContentHash DesiredStateRecord, Labels, AgentLink} Ψ key body :
  (∀ l fate answer s s', Ψ l → due l (Asked {| idempotency_key := key; request_body := body |} fate answer s s')) →
  step Ψ (call key body) (accepted body).
Proof.
  intros Hd w k k0 Hk Ho HΨ. unfold call. destruct (handle_idempotent _ _ _ _) as [answer store].
  destruct (link_fate _); (eexists [_]; split; [reflexivity|split; [split; [by apply Hd|done]|]]); [done..|].
  destruct answer as [response|error]; [|done].
  exists key. eexists _, _. apply list_elem_of_here.
Qed.
End order.

(** *** Programs over several servers that end well *)

Lemma closed_true : closed (λ _, True).
Proof. done. Qed.

Lemma on_or_fine `{Host} due {A} n (m : M A) Q fl a fl' :
  step due (λ _, True) m Q → on_or n m fl = (Fine a, fl') → Since fl (λ k l, k = n → Q a l) fl'.
Proof.
  intros Hm. unfold on_or, mbind, F_bind. pose proof (on_spec n m fl) as Ho. destruct (on n m fl) as [[[b|e]| | |] fl1]; try done.
  intros [= -> ->]. destruct Ho as [(_ & ? & _)|(w & Hw & -> & Hr)]; [done|]. intros k w0 Hk.
  destruct (decide (k = n)) as [->|Hne]; [|exists w0, []; rewrite lookup_insert_ne by done; by split_and!].
  rewrite Hw in Hk. injection Hk as <-. destruct (Hm w [] (w_log w)) as (l & Hl & _ & HQ); [done..|].
  exists (m w).2, l. rewrite lookup_insert_eq. split_and!; [done..|]. intros _. rewrite app_nil_r in HQ.
  by destruct (m w) as [[c| | |] w']; simplify_eq/=.
Qed.
Lemma mapF_fine `{Host} {A B} (f : A → F B) (Q : A → B → string → list Event → Prop) l fl bs fl' :
  (∀ a, spreads (λ _, True) (f a)) → (∀ a b n, monotone (Q a b n)) →
  (∀ a b fl fl', f a fl = (Fine b, fl') → Since fl (Q a b) fl') →
  mapF f l fl = (Fine bs, fl') → Since fl (λ n log, Forall2 (λ a b, Q a b n log) l bs) fl'.
Proof.
  intros Hs HQ Hf. revert fl bs. induction l as [|a l IH]; intros fl bs; simpl.
  { intros [= <- <-]. eapply Since_impl; [|apply Since_now]. by constructor. }
  unfold mbind, F_bind. destruct (f a fl) as [[b| | |] fl1] eqn:Hfa; try done.
  destruct (mapF f l fl1) as [[bs'| | |] fl2] eqn:Hl; try done. intros [= <- ->].
  eapply Since_then; [|by apply Hf, Hfa|by apply IH, Hl]. intros n l1 l2 H1 H2. constructor.
  - eapply HQ, H1. apply subseteq_app_r.
  - eapply Forall2_impl; [exact H2|]. intros a' b' Hab. eapply HQ, Hab. apply subseteq_app_l.
Qed.

(** What the end of a program has done, the whole program has. *)
Lemma Since_last `{Host} {A B} (m : F A) (f : A → F B) (Φ : string → list Event → Prop) fl b fl' :
  spreads (λ _, True) m → (∀ n, monotone (Φ n)) → (∀ a fl1, f a fl1 = (Fine b, fl') → Since fl1 Φ fl') →
  (m ≫= f) fl = (Fine b, fl') → Since fl Φ fl'.
Proof.
  intros Hm HΦ Hf. specialize (Hm fl). unfold mbind, F_bind. destruct (m fl) as [[a| | |] fl1]; try done. intros Hrun.
  eapply Since_then; [|exact Hm|by eapply Hf]. intros n l l' _ Hl. eapply HΦ, Hl. apply subseteq_app_l.
Qed.

(** ** The locks *)

Section locks.
Context `{Host, LockJson, LocalTime} (P : list Event → Prop) (P_closed : closed P).
Context (sessions : gset string) (project : string).

Lemma quiet_acquire_lock path info : quiet (acquire_lock path info).
Proof. unfold acquire_lock, acquired_or_fail, recover_incomplete_lock, read_lock_file. quiet. Qed.
Lemma quiet_release path lock_id : quiet (release_owned_lock path lock_id).
Proof. unfold release_owned_lock. quiet. Qed.
Lemma quiet_force path : quiet (force_remove_lock path).
Proof. unfold force_remove_lock. quiet. Qed.

Lemma spreads_release_requests lock_id requests : spreads P (release_requests sessions project lock_id requests).
Proof.
  apply spreads_bind; [done|apply spreads_execute_each; [done|intros; apply extends_quiet, quiet_release; done]|].
  intros; by apply spreads_ret.
Qed.
Lemma spreads_release_locks owned : spreads P (release_locks sessions project owned).
Proof. apply spreads_bind; [done|apply spreads_release_requests|]. intros [w e]. case_match; [by apply spreads_ret|by apply spreads_stops]. Qed.
Lemma spreads_attempt_ranks fuel now info acc sorted : spreads P (attempt_ranks sessions project fuel now info acc sorted).
Proof.
  revert acc sorted. induction fuel as [|fuel IH]; intros acc [|first rest]; simpl; try by apply spreads_ret.
  case_bool_decide; [|by apply spreads_ret]. apply spreads_bind; [done| |intros; apply IH].
  apply spreads_execute_each; [done|]. intros. apply extends_quiet, quiet_acquire_lock. done.
Qed.
Lemma spreads_acquire_locks locks info timeout force : spreads P (acquire_locks sessions project locks info timeout force).
Proof.
  apply spreads_bind; [done|by apply spreads_panics|]. intros lock_id. apply spreads_bind; [done| |intros; by apply spreads_ret].
  generalize 0%nat as turn, (enough_turns timeout) as fuel. intros turn fuel. revert turn.
  induction fuel as [|fuel IH]; intros turn; simpl; [by apply spreads_stay|].
  apply spreads_bind; [done| |intros [acquired|]; [by apply spreads_ret|apply IH]]. unfold acquire_turn.
  apply spreads_bind; [done| |intros _].
  { destruct force; [|by apply spreads_ret]. apply spreads_bind; [done| |intros; by apply spreads_of_f].
    apply spreads_execute_each; [done|]. intros. apply extends_quiet, quiet_force. done. }
  apply spreads_bind; [done|apply spreads_attempt_ranks|intros round]. case_bool_decide; [by apply spreads_ret|].
  apply spreads_bind; [done|apply spreads_release_requests|]. intros [w e]. case_match; [by apply spreads_stops|by apply spreads_ret].
Qed.
Lemma spreads_with_locks locks info timeout force operation :
  spreads P operation → spreads P (with_locks sessions project locks info timeout force operation).
Proof.
  intros Ho. apply spreads_bind; [done|apply spreads_acquire_locks|]. intros owned.
  apply spreads_bind; [done|by apply spreads_attempts|]. intros r.
  apply spreads_bind; [done|apply spreads_attempts, spreads_release_locks|]. intros r'. destruct r, r'; first [by apply spreads_ret|by apply spreads_stops].
Qed.

(** A command that ends well has run its operation to its end. *)
Lemma with_locks_fine locks info timeout force operation fl fl' :
  with_locks sessions project locks info timeout force operation fl = (Fine (), fl') →
  ∃ fl1 fl2, Since fl (λ _, P) fl1 ∧ operation fl1 = (Fine (), fl2) ∧ Since fl2 (λ _, P) fl'.
Proof.
  unfold with_locks, mbind, F_bind. pose proof (spreads_acquire_locks locks info timeout force fl) as Ha.
  destruct (acquire_locks _ _ _ _ _ _ fl) as [[owned| | |] fl1]; try done.
  unfold attempts at 1. destruct (operation fl1) as [[[]|e| |] fl2] eqn:Ho; try done.
  - pose proof (spreads_release_locks owned fl2) as Hr. unfold attempts. destruct (release_locks _ _ _ fl2) as [[?|?| |] fl3]; try done.
    intros [= <-]. by exists fl1, fl2.
  - unfold attempts. by destruct (release_locks _ _ _ fl2) as [[?|?| |] fl3].
Qed.
End locks.
