(* ===== verification/ServiceLaws.v ===== *)
(** Properties of the commands on services. *)

From S2P Require Import Prelude Text Bytes Substring Cidr Naming Pattern Schema Validation Planner ServiceRuntime.
From S2P Require Import Membership Catalog Desired OpLog Leases Cron CronExec Replication Store Api CandidatePlan EnvResolution.
From S2P Require Import Reconcile DeployGate Locks Session ProxyRoutes SessionLaws Transaction ProxyScript HostProxy AuditTrail Teardown TeardownLaws Cascade.
From S2P Require Import Fleet FleetLaws FleetLogs LockSession LockLaws NetworkSetup Services ServiceRemove ServiceScale ServiceRedeploy.
Open Scope N_scope.

(** ** A lock that is asked for twice *)

Section twice.
Context `{Host, LockJson, LocalTime}.
Context (sessions : gset string) (project : string) (info : LockInfo) (lock_id : string).
Context (info_id : info_lock_id info = Some lock_id).

Let path := HOST_GLOBAL_PROXY_LOCK_PATH.

(** A lock directory: a claim that succeeds takes it; while it is taken a claim is refused, and
    who holds it can be read. *)
Record lock_directory (taken : machine → Prop) : Prop := {
  claim_takes input m r m' :
    exec (acquire_command path lock_id) input m = (Ok r, m') → success r = true → is_held r = false → taken m';
  taken_refuses input m o m' :
    taken m → exec (acquire_command path lock_id) input m = (o, m') →
    taken m' ∧ ∀ r, o = Ok r → success r = false ∨ is_held r = true;
  taken_is_read m o m' :
    taken m → exec (read_lock_command path) "" m = (o, m') →
    taken m' ∧ ∀ r, o = Ok r → is_Some (info_of_json (trim (stdout r)));
}.

Context (taken : machine → Prop) (directory : lock_directory taken).
#[local] Opaque acquire_command read_lock_command recover_command.

(** The outcome of an attempt on a world. *)
Lemma acquire_takes w w' : acquire_lock path info w = (Fine Acquired, w') → taken (w_machine w').
Proof.
  unfold acquire_lock. rewrite info_id. unfold mbind, M_bind, of_result, of_outcome.
  destruct (info_to_json info) as [content|]; [|done]. simpl. unfold execute_with_input, mbind, M_bind.
  destruct (exec (acquire_command path lock_id) content (w_machine w)) as [[r|] m] eqn:He; [|done].
  destruct (is_held r) eqn:Hr.
  - unfold read_lock_file, mbind, M_bind. destruct (execute _ _) as [[r'| | |] w1]; try done. simpl.
    destruct (info_of_json _); [done|]. unfold recover_incomplete_lock, mbind, M_bind.
    destruct (execute _ w1) as [[r2| | |] w2]; try done. destruct (success r2); [|done]. simpl.
    destruct (exec (acquire_command path lock_id) content (w_machine w2)) as [[r3|] m3] eqn:He3; [|done].
    destruct (is_held r3) eqn:Hr3; [by destruct (execute _ _) as [[?| | |] ?]|].
    unfold acquired_or_fail. destruct (success r3) eqn:Hs; [|done]. intros [= <-]. simpl. by eapply claim_takes.
  - unfold acquired_or_fail. destruct (success r) eqn:Hs; [|done]. intros [= <-]. simpl. by eapply claim_takes.
Qed.

Lemma acquire_refused w : taken (w_machine w) → (acquire_lock path info w).1 ≠ Fine Acquired ∧ taken (w_machine (acquire_lock path info w).2).
Proof.
  intros Ht. unfold acquire_lock. rewrite info_id. unfold mbind, M_bind, of_result, of_outcome.
  destruct (info_to_json info) as [content|]; [|done]. simpl. unfold execute_with_input, mbind, M_bind.
  destruct (exec (acquire_command path lock_id) content (w_machine w)) as [o m] eqn:He.
  destruct (taken_refuses _ directory _ _ _ _ Ht He) as [Hm Hr]. destruct o as [r|]; [|done].
  destruct (Hr r eq_refl) as [Hs|Hh].
  - unfold is_held, acquired_or_fail. rewrite Hs. done.
  - rewrite Hh. unfold read_lock_file, execute, execute_with_input, mbind, M_bind. simpl.
    destruct (exec (read_lock_command path) "" m) as [o' m'] eqn:He'.
    destruct (taken_is_read _ directory _ _ _ Hm He') as [Hm' Hi]. destruct o' as [r'|]; [|done].
    simpl. by destruct (Hi r' eq_refl) as [holder ->].
Qed.
(** A host on which the lock is taken stays so, and no attempt there succeeds. *)
Definition taken_on (h : string) (fl : Fleet) : Prop := ∃ w, fl !! h = Some w ∧ taken (w_machine w).
Let claim (request : LockRequest) : M AcquireResult := acquire_lock (path_of project request) info.

Lemma on_world {A} h (m : M A) fl r fl' : on h m fl = (Fine r, fl') →
  ∃ w w', fl !! h = Some w ∧ fl' = <[h := w']> fl ∧
    match r with Ok a => m w = (Fine a, w') | Err e => m w = (Fails e, w') end.
Proof.
  unfold on. destruct (fl !! h) as [w|]; [|done]. unfold attempt.
  destruct (m w) as [[a|e| |] w'] eqn:Hm; intros [= <- <-]; eauto 6.
Qed.

Lemma taken_step h request fl r fl' :
  req_scope request = HostGlobalProxy → taken_on h fl → on (req_host request) (claim request) fl = (Fine r, fl') →
  taken_on h fl' ∧ (req_host request = h → is_acquired r = false).
Proof.
  intros Hs (w & Hw & Ht) (w1 & w1' & Hw1 & -> & Hr)%on_world.
  unfold claim, path_of in Hr. rewrite Hs in Hr. simpl in Hr. unfold taken_on. destruct (decide (req_host request = h)) as [<-|Hne].
  - rewrite Hw in Hw1. injection Hw1 as <-. destruct (acquire_refused w Ht) as [Hn Ht']. fold path in Hr. split.
    + exists w1'. rewrite lookup_insert_eq. split; [done|]. by destruct r; rewrite Hr in Ht'.
    + intros _. destruct r as [a|e]; [|done]. rewrite Hr in Hn. by destruct a.
  - split; [|done]. exists w. by rewrite lookup_insert_ne.
Qed.

Lemma group_taken h group fl rs fl' :
  Forall (λ r, req_scope r = HostGlobalProxy) group → taken_on h fl → run_each claim group fl = (Fine rs, fl') →
  h ∈ req_host <$> group → ∃ x, x ∈ rs ∧ is_acquired x.2 = false.
Proof.
  revert fl rs. induction group as [|request group IH]; intros fl rs Hg Ht Hrun Hh; [by apply elem_of_nil in Hh|].
  apply Forall_cons in Hg as [Hs Hg]. simpl in Hrun. unfold mbind, F_bind in Hrun.
  destruct (on _ _ fl) as [[r| | |] fl1] eqn:Ho; try done. destruct (taken_step h _ _ _ _ Hs Ht Ho) as [Ht1 Hr].
  destruct (run_each _ group fl1) as [[rs'| | |] fl2] eqn:Hrs; try done. injection Hrun as <- <-.
  apply elem_of_cons in Hh as [->|Hh].
  - exists (request, r). split; [apply list_elem_of_here|by apply Hr].
  - destruct (IH fl1 rs' Hg Ht1 Hrs Hh) as (x & Hx & Hn). exists x. split; [by apply list_elem_of_further|done].
Qed.

(** Two requests for the proxy of one host. *)
Definition repeated (requests : list LockRequest) : Prop :=
  ∃ i j h, i ≠ j ∧ requests !! i = Some {| req_scope := HostGlobalProxy; req_host := h |}
           ∧ requests !! j = Some {| req_scope := HostGlobalProxy; req_host := h |}.

Lemma repeated_cons x requests :
  repeated (x :: requests) ↔ (req_scope x = HostGlobalProxy ∧ x ∈ requests) ∨ repeated requests.
Proof.
  split.
  - intros ([|i] & [|j] & h & Hne & Hi & Hj); simpl in *; [done|..].
    + injection Hi as ->. left. split; [done|]. by eapply list_elem_of_lookup_2.
    + injection Hj as ->. left. split; [done|]. by eapply list_elem_of_lookup_2.
    + right. exists i, j, h. split; [lia|done].
  - intros [[Hs Hin]|(i & j & h & Hne & Hi & Hj)].
    + apply list_elem_of_lookup_1 in Hin as [j Hj]. exists 0%nat, (S j), (req_host x).
      destruct x as [s h]. simpl in *. by subst.
    + exists (S i), (S j), h. split; [lia|done].
Qed.

Lemma group_repeated group fl rs fl' :
  Forall (λ r, req_scope r = HostGlobalProxy) group → repeated group → run_each claim group fl = (Fine rs, fl') →
  ∃ x, x ∈ rs ∧ is_acquired x.2 = false.
Proof.
  revert fl rs. induction group as [|request group IH]; intros fl rs Hg Hrep Hrun; [by destruct Hrep as ([] & ? & ? & ? & ? & ?)|].
  apply Forall_cons in Hg as [Hs Hg]. simpl in Hrun. unfold mbind, F_bind in Hrun.
  destruct (on _ _ fl) as [[r| | |] fl1] eqn:Ho; try done.
  destruct (run_each _ group fl1) as [[rs'| | |] fl2] eqn:Hrs; try done. injection Hrun as <- <-.
  destruct (is_acquired r) eqn:Ha; [|by exists (request, r); split; [apply list_elem_of_here|]].
  assert (∃ x, x ∈ rs' ∧ is_acquired x.2 = false) as (x & Hx & Hn); [|exists x; split; [by apply list_elem_of_further|done]].
  apply repeated_cons in Hrep as [[_ Hin]|Hrep]; [|by eapply IH].
  apply (group_taken (req_host request) group fl1 rs' fl2 Hg); [|done|by apply list_elem_of_fmap_2].
  apply on_world in Ho as (w & w' & Hw & -> & Hr). destruct r as [[|]|]; [|done..].
  exists w'. split; [apply lookup_insert_eq|]. unfold claim, path_of in Hr. rewrite Hs in Hr. by apply acquire_takes in Hr.
Qed.
Lemma repeated_later group later :
  Forall (λ r, req_scope r ≠ HostGlobalProxy) group → repeated (group ++ later) → repeated later.
Proof.
  induction 1 as [|x group Hx _ IH]; [done|]. simpl. rewrite repeated_cons. intros [[Hs _]|Hr]; [done|auto].
Qed.
Lemma rank_proxy s : rank s = 4 → s = HostGlobalProxy.
Proof. by destruct s. Qed.
Lemma rank_max s : rank s ≤ 4.
Proof. destruct s; simpl; lia. Qed.

Lemma note_failure now acc group x :
  x ∈ group → is_acquired x.2 = false → round_failures (note_group now acc group) ≠ [].
Proof.
  intros Hx Hn. simpl. intros [_ Hf]%app_eq_nil. rewrite omap_nil_iff in Hf. specialize (Hf x Hx). apply failure_text_None in Hf. congruence.
Qed.
Lemma ranks_stop fuel now acc sorted fl round fl' :
  round_failures acc ≠ [] → attempt_ranks sessions project fuel now info acc sorted fl = (Fine round, fl') → round = acc.
Proof.
  intros Hacc. destruct fuel as [|fuel], sorted as [|first rest]; simpl; [by intros [= <- _]..|].
  rewrite bool_decide_false by done. by intros [= <- _].
Qed.

Lemma ranks_repeated fuel now acc sorted fl round fl' :
  (length sorted ≤ fuel)%nat → StronglySorted by_rank sorted → repeated sorted →
  attempt_ranks sessions project fuel now info acc sorted fl = (Fine round, fl') → round_failures round ≠ [].
Proof.
  revert acc sorted fl. induction fuel as [|fuel IH]; intros acc sorted fl Hlen Hs Hrep Hrun.
  { destruct sorted; [by destruct Hrep as ([] & ? & ? & ? & ? & ?)|simpl in Hlen; lia]. }
  destruct sorted as [|first rest]; [by destruct Hrep as ([] & ? & ? & ? & ? & ?)|]. cbn [attempt_ranks] in Hrun.
  destruct (decide (round_failures acc = [])) as [Hacc|Hacc]; [rewrite bool_decide_true in Hrun by done|rewrite bool_decide_false in Hrun by done; by injection Hrun as <- _].
  pose proof (span_app (same_rank first) (first :: rest)) as Happ.
  pose proof (λ r, span_later first rest r Hs) as Hlater.
  pose proof (λ r, span_fst (same_rank first) (first :: rest) r) as Hgroup.
  assert (same_rank first first = true) as Hff by (unfold same_rank; apply N.eqb_refl).
  pose proof (span_length (same_rank first) first rest Hff) as Hshort.
  destruct (span (same_rank first) (first :: rest)) as [group later] eqn:Hspan. simpl in Happ, Hlater, Hgroup, Hshort, Hrun.
  unfold mbind, F_bind, execute_each in Hrun. destruct (forallb _ group); [|done].
  destruct (run_each _ group fl) as [[attempts_| | |] fl1] eqn:Hg; try done.
  destruct (decide (rank (req_scope first) = 4)) as [H4|H4].
  - assert (later = []) as ->.
    { destruct later as [|x later]; [done|]. specialize (Hlater x (list_elem_of_here _ _)). pose proof (rank_max (req_scope x)). lia. }
    rewrite app_nil_r in Happ. rewrite <-Happ in Hrep.
    destruct (group_repeated group fl attempts_ fl1) as (x & Hx & Hn); [|done|exact Hg|].
    + apply Forall_forall. intros r Hr. apply rank_proxy. apply Hgroup in Hr. unfold same_rank in Hr. apply N.eqb_eq in Hr. by rewrite Hr.
    + pose proof (note_failure now acc attempts_ x Hx Hn) as Hf. by rewrite (ranks_stop _ _ _ _ _ _ _ Hf Hrun).
  - eapply IH; [| | |exact Hrun].
    + simpl in Hlen. lia.
    + rewrite <-Happ in Hs. by apply StronglySorted_app_1_r in Hs.
    + rewrite <-Happ in Hrep. eapply repeated_later; [|exact Hrep]. apply Forall_forall. intros r Hr Hp.
      apply Hgroup in Hr. unfold same_rank in Hr. apply N.eqb_eq in Hr. rewrite Hp in Hr. by apply H4.
Qed.

Lemma sorted_by_rank locks : StronglySorted by_rank (sort_requests locks project).
Proof.
  eapply StronglySorted_weaken; [|apply sort_by_sorted; unfold request_leb; [intros; apply leb_total|intros ???; apply leb_trans]].
  intros a b Hab. apply prod_leb_fst in Hab. by apply N_leb_le in Hab.
Qed.
Lemma repeated_Permutation l l' : l ≡ₚ l' → repeated l → repeated l'.
Proof.
  induction 1 as [|x l l' Hp IH|x y l|l1 l2 l3 _ IH1 _ IH2]; intros Hr; [done|..|auto].
  - revert Hr. rewrite !repeated_cons. intros [[Hs Hin]|Hr]; [left|right; auto]. split; [done|]. by rewrite <-Hp.
  - revert Hr. rewrite !repeated_cons, !elem_of_cons. intros [[Hs [->|Hin]]|[[Hs Hin]|Hr]]; auto.
Qed.

(** No operation runs under locks that contain the proxy of a host twice. *)
Lemma repeated_never_acquired locks timeout force fl : repeated locks →
  ∀ owned, (acquire_locks sessions project locks info timeout force fl).1 ≠ Fine owned.
Proof.
  intros Hrep owned. unfold acquire_locks. rewrite info_id. unfold mbind, F_bind. cbn [panics mret F_ret].
  assert (∀ fuel turn fl acquired,
    (acquire_loop sessions project fuel timeout force info lock_id (sort_requests locks project) turn fl).1 ≠ Fine acquired) as Hloop.
  { induction fuel as [|fuel IH]; intros turn fl1 acquired; [done|]. simpl. unfold mbind at 1, F_bind at 1.
    destruct (acquire_turn _ _ _ _ _ _ _ _ fl1) as [[[l|]| | |] fl2] eqn:Ht; try done. exfalso. revert Ht. unfold acquire_turn, mbind, F_bind.
    destruct ((if force then remove_all _ _ _ else mret ()) fl1) as [[u| | |] fl3]; try done.
    destruct (attempt_ranks _ _ _ _ _ _ _ fl3) as [[round| | |] fl4] eqn:Hr; try done.
    apply ranks_repeated in Hr; [|done|apply sorted_by_rank|eapply repeated_Permutation; [symmetry; apply sort_by_Permutation|done]].
    rewrite bool_decide_false by done. destruct (release_requests _ _ _ _ fl4) as [[[w e]| | |] fl5]; try done. by case_match. }
  specialize (Hloop (enough_turns timeout) 0%nat fl). destruct (acquire_loop _ _ _ _ _ _ _ _ _ fl) as [[acquired| | |] fl']; try done.
  by destruct (Hloop acquired).
Qed.
Lemma repeated_never_runs locks timeout force operation fl : repeated locks →
  (with_locks sessions project locks info timeout force operation fl).1 ≠ Fine ().
Proof.
  intros Hrep. unfold with_locks, mbind, F_bind. pose proof (repeated_never_acquired locks timeout force fl Hrep) as Hn.
  destruct (acquire_locks _ _ _ _ _ _ fl) as [[owned| | |] fl']; try done. by destruct (Hn owned).
Qed.
End twice.

(** A lock on a host without a session. *)
Lemma unreachable_lock_panics `{Host, LockJson, LocalTime} sessions project info lock_id request timeout operation fl :
  info_lock_id info = Some lock_id → req_host request ∉ sessions →
  with_locks sessions project [request] info timeout false operation fl = (Crashes, fl).
Proof.
  intros Hi Hn. unfold with_locks, acquire_locks. rewrite Hi.
  replace (enough_turns timeout) with (S (N.to_nat (timeout / 2) + 1)) by (unfold enough_turns; lia).
  unfold mbind, F_bind. cbn. unfold execute_each. cbn. unfold same_rank. rewrite N.eqb_refl. cbn. by rewrite bool_decide_false.
Qed.

Section redeploy.
Context `{ContentHash MembershipRecord, ContentHash CatalogRecord, ContentHash DesiredStateRecord,
  ContentHash CronSpecContent, Labels, Sha256}.
Context `{Host, DebugText, FloatText, Connector, RouteJson, Operator, LockJson, LocalTime, LocalTree, LocalFiles, NumberText, ProxyBuild}.
Context (config : Config).

(** A selected endpoint on a server whose service has a proxy. *)
Definition proxied_on (h : string) (e : ServiceEndpointPlan) : Prop :=
  ep_server e = h ∧ ∃ service, hm_get (config_services config) (ep_service e) = Some service ∧ is_Some (service_proxy service).

Lemma endpoint_locks_cons ids e selected fl locks fl' :
  endpoint_locks config ids (e :: selected) fl = (Fine locks, fl') →
  ∃ replica rest, endpoint_locks config ids selected fl = (Fine rest, fl') ∧
    ∀ h, proxied_on h e →
      locks = {| req_scope := LogicalReplica replica; req_host := h |} :: {| req_scope := HostGlobalProxy; req_host := h |} :: rest.
Proof.
  simpl. unfold mbind, F_bind, configured_service. destruct (hm_get _ _) as [service|] eqn:Hs; [|done]. simpl. unfold index.
  destruct (ids !! _) as [replica|]; [|done]. simpl. destruct (endpoint_locks _ _ _ fl) as [[rest| | |] fl1]; try done.
  intros [= <- <-]. exists replica, rest. split; [done|]. intros h (<- & service' & Hs' & Hp). simplify_eq. by rewrite bool_decide_true.
Qed.
Lemma endpoint_locks_suffix ids e selected fl locks fl' :
  endpoint_locks config ids (e :: selected) fl = (Fine locks, fl') →
  ∃ front rest, endpoint_locks config ids selected fl = (Fine rest, fl') ∧ locks = front ++ rest.
Proof.
  simpl. unfold mbind, F_bind, configured_service. destruct (hm_get _ _) as [service|]; [|done]. simpl. unfold index.
  destruct (ids !! _) as [replica|]; [|done]. simpl. destruct (endpoint_locks _ _ _ fl) as [[rest| | |] fl1]; try done.
  intros [= <- <-]. eexists (_ :: _), rest. done.
Qed.

Lemma endpoint_locks_in ids selected e h fl locks fl' :
  endpoint_locks config ids selected fl = (Fine locks, fl') → e ∈ selected → proxied_on h e →
  {| req_scope := HostGlobalProxy; req_host := h |} ∈ locks.
Proof.
  revert locks. induction selected as [|x selected IH]; intros locks Hl Hin Hp; [by apply elem_of_nil in Hin|].
  apply elem_of_cons in Hin as [<-|Hin].
  - apply endpoint_locks_cons in Hl as (replica & rest & _ & Hall). rewrite (Hall h Hp), !elem_of_cons. auto.
  - apply endpoint_locks_suffix in Hl as (front & rest & Hrest & ->). apply elem_of_app. right. by eapply IH.
Qed.

Lemma repeated_app front rest : repeated rest → repeated (front ++ rest).
Proof. induction front as [|x front IH]; [done|]. intros Hr. apply repeated_cons. auto. Qed.

Lemma endpoint_locks_repeated ids selected i j e e' h fl locks fl' :
  endpoint_locks config ids selected fl = (Fine locks, fl') → i ≠ j →
  selected !! i = Some e → selected !! j = Some e' → proxied_on h e → proxied_on h e' → repeated locks.
Proof.
  revert i j locks. induction selected as [|x selected IH]; intros i j locks Hl Hne Hi Hj Hp Hp'; [done|].
  assert (∀ y, proxied_on h x → y ∈ selected → proxied_on h y → repeated locks) as Hfirst.
  { intros y Hx Hy Hpy. apply endpoint_locks_cons in Hl as (replica & rest & Hrest & Hall). rewrite (Hall h Hx).
    rewrite !repeated_cons. right. left. split; [done|]. by eapply endpoint_locks_in. }
  destruct i as [|i], j as [|j]; simplify_eq/=.
  - eapply Hfirst; [done|by eapply list_elem_of_lookup_2|done].
  - eapply Hfirst; [done|by eapply list_elem_of_lookup_2|done].
  - apply endpoint_locks_suffix in Hl as (front & rest & Hrest & ->). apply repeated_app.
    eapply (IH i j); [exact Hrest|lia|done..].
Qed.
End redeploy.

(** ** The dispatch over the servers *)

Lemma grouped selected name l :
  group_by_service selected !! name = Some l → l = filter (λ e, ep_service e = name) selected.
Proof.
  assert (∀ name, default [] (group_by_service selected !! name) = filter (λ e, ep_service e = name) selected) as Hd.
  { clear. intros name. unfold group_by_service. induction selected as [|e selected IH] using rev_ind; [done|].
    rewrite foldl_snoc, filter_app, <-IH. simpl. destruct (decide (ep_service e = name)) as [<-|Hne].
    - by rewrite lookup_insert_eq, filter_cons_True.
    - by rewrite lookup_insert_ne, filter_cons_False, app_nil_r. }
  intros Hl. by rewrite <-Hd, Hl.
Qed.

Section dispatch.
Context `{ContentHash MembershipRecord, ContentHash CatalogRecord, ContentHash DesiredStateRecord, Labels}.
Context `{Host, RouteJson, LocalTree, Sha256, FloatText} (links : string → AgentLink) (process_id : N) (fuel : nat).
Context (config : Config) (p : NetworkPlan) (project_root : string) (sessions : gset string) (replica_ids : gmap string string).
Context (resolved_envs : gmap string ResolvedEnvironment) (skip_proxy : bool).

(** The outcomes of the endpoints of a service, in order: deployed until one fails, or from the
    start not at all where the upstream has failed, and skipped after that. *)
Fixpoint stops_at_failure (failed : bool) (outcomes : list EndpointOutcome) : Prop :=
  match outcomes with
  | [] => True
  | o :: outcomes =>
      if failed then o = SkippedAfterSiblingFailure ∧ stops_at_failure true outcomes
      else o ≠ SkippedAfterSiblingFailure ∧ stops_at_failure (negb (Cascade.is_deployed o)) outcomes
  end.
(** The endpoints of a server are all skipped. *)
Definition skipped_on (n : string) (eps : list ServiceEndpointPlan) (outcomes : list EndpointOutcome) : Prop :=
  ∀ i e, eps !! i = Some e → ep_server e = n → outcomes !! i = Some SkippedAfterSiblingFailure.

(** Deploying an endpoint is not skipping it, and stays on its server. *)
Lemma deploy_on_spec server ctx fl o fl' :
  deploy_on links process_id fuel server ctx fl = (Fine o, fl') →
  o ≠ SkippedAfterSiblingFailure ∧ ∀ n, n ≠ server → fl' !! n = fl !! n.
Proof.
  unfold deploy_on, on_or, mbind, F_bind. pose proof (on_spec server (@deploy_endpoint _ _ _ _ _ (links server) _ _ _ _ process_id fuel ctx) fl) as Ho.
  destruct (on server _ fl) as [[[a|e]| | |] fl1]; [|done..]. intros [= <- <-].
  destruct Ho as [(_ & ? & _)|(w & _ & -> & Ha)]; [done|]. split.
  - unfold deploy_endpoint, mbind, M_bind in Ha. destruct (attempt _ w) as [[[[d x]|e]| | |] w']; [by injection Ha as -> | by injection Ha as -> |done..].
  - intros n Hn. by rewrite lookup_insert_ne.
Qed.

Lemma run_endpoints_spec job failed eps fl outs fl' :
  run_endpoints links process_id fuel config p project_root sessions replica_ids job failed eps fl = (Fine outs, fl') →
  outs.*1 = ep_identity <$> eps ∧ stops_at_failure failed outs.*2 ∧ ∀ n, skipped_on n eps outs.*2 → fl' !! n = fl !! n.
Proof.
  revert failed fl outs. induction eps as [|e eps IH]; intros failed fl outs Hrun; [by injection Hrun as <- <-|].
  simpl in Hrun. destruct failed; unfold mbind, F_bind in Hrun.
  - destruct (run_endpoints _ _ _ _ _ _ _ _ job true eps fl) as [[rest| | |] fl1] eqn:Hr; try done. injection Hrun as <- <-.
    destruct (IH _ _ _ Hr) as (Hids & Hst & Hf). split_and!; [by rewrite !fmap_cons, Hids|done|].
    intros n Hn. apply Hf. intros i e' He'. exact (Hn (S i) e' He').
  - simpl in Hrun. case_bool_decide as Hs; [|done]. simpl in Hrun. unfold index in Hrun.
    destruct (np_servers p !! ep_server e) as [server|]; [|done]. simpl in Hrun.
    destruct (replica_ids !! ep_identity e) as [replica|]; [|done]. simpl in Hrun.
    destruct (job_images job !! ep_identity e) as [image|]; [|done]. simpl in Hrun.
    destruct (deploy_on _ _ _ _ _ fl) as [[outcome| | |] fl1] eqn:Hd; try done.
    destruct (run_endpoints _ _ _ _ _ _ _ _ job _ eps fl1) as [[rest| | |] fl2] eqn:Hr; try done. injection Hrun as <- <-.
    destruct (IH _ _ _ Hr) as (Hids & Hst & Hf). apply deploy_on_spec in Hd as [Hno Hframe].
    split_and!; [by rewrite !fmap_cons, Hids|done|]. intros n Hn. rewrite Hf by (intros i e' He'; exact (Hn (S i) e' He')).
    apply Hframe. intros ->. apply Hno. specialize (Hn 0%nat e eq_refl eq_refl). by injection Hn.
Qed.

(** A job of a wave: its service, its endpoints, and whether its upstream has failed. *)
Definition job_for (presumed : gmap string bool) (entry : string * list ServiceEndpointPlan) (job : Job) : Prop :=
  job_service_name job = entry.1 ∧ job_endpoints job = entry.2 ∧
  ∃ dependency, dependency_of config entry.1 = Ok dependency ∧ job_presumed_failed job = default false (presumed !! default "" dependency).
Lemma build_jobs_spec images dependents_of presumed entries fl jobs fl' :
  mapF (build_job config (image_of_service images) resolved_envs skip_proxy dependents_of presumed) entries fl = (Fine jobs, fl') →
  fl' = fl ∧ Forall2 (job_for presumed) entries jobs.
Proof.
  revert jobs. induction entries as [|[name eps] entries IH]; intros jobs; simpl; [by intros [= <- <-]|].
  unfold mbind, F_bind, build_job at 1, image_of_service at 1, configured_service, index.
  destruct (hm_get (config_services config) name) as [service|] eqn:Hs; [|done]. simpl.
  destruct (images !! name) as [image|]; [|done]. simpl. destruct (resolved_envs !! name) as [env|]; [|done]. simpl.
  destruct (mapF _ entries fl) as [[rest| | |] fl1] eqn:Hr; try done. intros [= <- <-]. destruct (IH _ eq_refl) as [-> Hf].
  split; [done|]. constructor; [|done]. split_and!; [done..|]. exists (network_mode_dependency service). unfold dependency_of. cbn [fst]. by rewrite Hs.
Qed.

(** What the services of a wave come to, and the servers the wave leaves alone. *)
Definition entry_ran (presumed : gmap string bool) (entry : string * list ServiceEndpointPlan) (r : ServiceOutcomes) : Prop :=
  r.1 = entry.1 ∧ r.2.*1 = ep_identity <$> entry.2 ∧
  ∃ dependency, dependency_of config entry.1 = Ok dependency ∧ stops_at_failure (default false (presumed !! default "" dependency)) r.2.*2.
Lemma run_jobs_spec presumed entries jobs fl res fl' :
  Forall2 (job_for presumed) entries jobs →
  mapF (run_job links process_id fuel config p project_root sessions replica_ids) jobs fl = (Fine res, fl') →
  Forall2 (entry_ran presumed) entries res ∧
  ∀ n, Forall2 (λ entry r, skipped_on n entry.2 r.2.*2) entries res → fl' !! n = fl !! n.
Proof.
  intros Hj. revert fl res. induction Hj as [|entry job entries jobs (Hn & He & dep & Hdep & Hpre) Hj IH]; intros fl res; simpl; [by intros [= <- <-]|].
  unfold mbind, F_bind, run_job at 1, mbind, F_bind.
  destruct (run_endpoints _ _ _ _ _ _ _ _ _ _ _ fl) as [[outs| | |] fl1] eqn:Hr; try done. simpl.
  destruct (mapF _ jobs fl1) as [[rest| | |] fl2] eqn:Hm; try done. intros [= <- <-].
  apply run_endpoints_spec in Hr as (Hids & Hst & Hf). destruct (IH _ _ Hm) as [Hrest Hframe]. rewrite He in Hids, Hf. rewrite Hpre in Hst. split.
  - constructor; [|done]. split_and!; [done..|]. by exists dep.
  - intros n [Hskip Hskips]%Forall2_cons. rewrite Hframe by done. by apply Hf.
Qed.
Lemma run_wave_spec images dependents_of presumed wave fl res fl' :
  run_wave links process_id fuel config p project_root sessions replica_ids (image_of_service images) resolved_envs skip_proxy
    dependents_of presumed wave fl = (Fine res, fl') →
  Forall2 (entry_ran presumed) (btree_list wave) res ∧
  ∀ n, Forall2 (λ entry r, skipped_on n entry.2 r.2.*2) (btree_list wave) res → fl' !! n = fl !! n.
Proof.
  unfold run_wave, mbind, F_bind. destruct (mapF _ (btree_list wave) fl) as [[jobs| | |] fl1] eqn:Hb; try done.
  apply build_jobs_spec in Hb as [-> Hj]. by apply run_jobs_spec.
Qed.
Lemma wave_ran_names presumed (wave : EndpointsByService) res : Forall2 (entry_ran presumed) (btree_list wave) res → res.*1 = btree_keys wave.
Proof.
  unfold btree_keys. induction 1 as [|entry r l res (Hr & _) _ IH]; [done|]. rewrite !fmap_cons, Hr. by f_equal.
Qed.
Lemma wave_ran_entry presumed (wave : EndpointsByService) res name outs :
  Forall2 (entry_ran presumed) (btree_list wave) res → (name, outs) ∈ res →
  ∃ eps, wave !! name = Some eps ∧ entry_ran presumed (name, eps) (name, outs).
Proof.
  intros Hw [i Hi]%list_elem_of_lookup. destruct (Forall2_lookup_r _ _ _ _ _ Hw Hi) as ([name' eps] & He & Hr).
  pose proof Hr as (Hname & _). simpl in Hname. subst name'. exists eps. split; [|done].
  apply elem_of_btree_list. by eapply list_elem_of_lookup_2.
Qed.
Lemma skipped_entries presumed (wave : EndpointsByService) res n :
  Forall2 (entry_ran presumed) (btree_list wave) res →
  (∀ name eps outs, wave !! name = Some eps → (name, outs) ∈ res → skipped_on n eps outs.*2) →
  Forall2 (λ entry r, skipped_on n entry.2 r.2.*2) (btree_list wave) res.
Proof.
  intros Hw Hs. apply Forall2_same_length_lookup_2; [by eapply Forall2_length|]. intros i [name eps] [name' outs] He Hr.
  pose proof (Forall2_lookup_lr _ _ _ _ _ _ Hw He Hr) as (Hn & _). simpl in Hn. subst name'. apply (Hs name).
  - apply elem_of_btree_list. by eapply list_elem_of_lookup_2.
  - by eapply list_elem_of_lookup_2.
Qed.
End dispatch.

Lemma group_selected selected name : name ∈ ep_service <$> selected → is_Some (group_by_service selected !! name).
Proof.
  unfold group_by_service. induction selected as [|e selected IH] using rev_ind; [by intros ?%elem_of_nil|].
  rewrite foldl_snoc, fmap_app, elem_of_app. simpl. intros [Hin| ->%list_elem_of_singleton].
  - rewrite lookup_insert_is_Some'. right. by apply IH.
  - rewrite lookup_insert_eq. eauto.
Qed.
Lemma dependency_service config name u :
  dependency_of config name = Ok (Some u) → ∃ service, hm_get (config_services config) name = Some service ∧ network_mode_dependency service = Some u.
Proof. unfold dependency_of. destruct (hm_get _ name) as [service|]; [|done]. simpl. intros [= Hu]. eauto. Qed.
(** The upstream of a service has none itself. *)
Lemma upstream_independent `{CronLibrary} config name service u :
  config_wf config → accepted config → (name, service) ∈ config_services config → network_mode_dependency service = Some u →
  dependency_of config u = Ok None.
Proof.
  intros Hwf Hacc Hs Hu. destruct (ValidationProps.accepted_dependency config name service u Hwf Hacc Hs Hu) as (_ & us & Hus & Hnone & _).
  unfold dependency_of. rewrite (proj2 (hm_get_elem _ _ _ (proj2 Hwf)) Hus). simpl. by rewrite Hnone.
Qed.

(** ** The plan of a scaling *)

Section planning.
Context `{Sha256}.

Lemma assigned_ids project service servers scale id :
  id ∈ ra_replica_id <$> assignments_for project service servers scale ↔
  ∃ server i, server ∈ servers ∧ i < scale ∧ id = replica_id_for project service server i.
Proof.
  rewrite assignments_for_slots, list_elem_of_fmap. split.
  - intros (a & -> & Ha). apply list_elem_of_lookup in Ha as [k Ha]. rewrite list_lookup_imap in Ha.
    destruct (replica_slots servers scale !! k) as [[server j]|] eqn:Hk; [|done]. injection Ha as <-.
    apply list_elem_of_lookup_2, list_elem_of_bind in Hk as (server' & Hin & Hs). apply list_elem_of_bind in Hin as (j' & Hin & Hj).
    apply list_elem_of_singleton in Hin. simplify_eq. exists server', j'.
    rewrite elem_of_btree_elems, elem_of_list_to_set in Hs. split; [done|]. split; [|done].
    apply list_elem_of_fmap in Hj as (n & -> & Hn). apply elem_of_seq in Hn. lia.
  - intros (server & j & Hs & Hj & ->). assert ((server, j) ∈ replica_slots servers scale) as Hin.
    { apply list_elem_of_bind. exists server. rewrite elem_of_btree_elems, elem_of_list_to_set. split; [|done].
      apply list_elem_of_bind. exists j. split; [by apply list_elem_of_singleton|]. apply list_elem_of_fmap.
      exists (N.to_nat j). split; [lia|]. apply elem_of_seq. lia. }
    apply list_elem_of_lookup in Hin as [k Hk]. eexists. split; [|apply list_elem_of_lookup; exists k; rewrite list_lookup_imap, Hk; done]. done.
Qed.

Lemma noted_removals l records id :
  id ∈ ra_replica_id <$> foldl note_removal l records ↔ id ∈ ra_replica_id <$> l ∨ id ∈ replica_id <$> records.
Proof.
  revert l. induction records as [|r records IH]; intros l; simpl; [rewrite elem_of_nil; tauto|].
  rewrite IH, elem_of_cons. unfold note_removal. destruct (forallb _ l) eqn:Hf.
  - rewrite fmap_app, elem_of_app. simpl. rewrite list_elem_of_singleton. tauto.
  - split; [tauto|]. intros [Hl|[->|Hr]]; [tauto| |tauto]. left. apply not_true_iff_false in Hf.
    apply dec_stable. intros Hn. apply Hf, forallb_forall. intros a Ha. apply negb_true_iff, bool_decide_false.
    intros He. apply Hn, list_elem_of_fmap. exists a. split; [done|]. by apply list_elem_of_In.
Qed.
End planning.

Module ServiceProps.
Section restart.
Context `{ContentHash MembershipRecord, ContentHash CatalogRecord, ContentHash DesiredStateRecord,
  ContentHash CronSpecContent, Labels, Sha256}.
Context `{Host, DebugText, FloatText, Connector, RouteJson, Operator, LockJson, LocalTime, LocalTree, LocalFiles, NumberText, ProxyBuild}.
Context (links : string → AgentLink) (process_id : N) (fuel : nat) (config : Config) (p : NetworkPlan).
Context (lock_info : string → LockInfo) (elapsed : N) (project_root : string) (environment : option string).
Context (host_env : string → option string) (allow_host_env : bool) (lock_timeout : N) (force_lock : bool).

(** C39: Two proxied endpoints on one server can be neither restarted nor rolled back together.
    When the selection has two endpoints on one server whose services have a proxy, such as two
    replicas of one service, the lock of that server's proxy is asked for twice.  On a machine
    where a lock that is held is refused, [service restart] and [service rollback] then never
    succeed, whatever else the servers answer and however long they wait. *)
Theorem shared_proxy_blocks_restart (taken : machine → Prop) lock_id hosts services version h i j e e' sel fl fl' :
  (∀ message, info_lock_id (lock_info message) = Some lock_id) → lock_directory lock_id taken →
  select_expanded config p hosts services fl = (Fine sel, fl') →
  i ≠ j → sel.1 !! i = Some e → sel.1 !! j = Some e' → proxied_on config h e → proxied_on config h e' →
  (restart_services links process_id fuel config p lock_info elapsed project_root environment host_env allow_host_env
     lock_timeout force_lock hosts services fl).1 ≠ Fine () ∧
  (rollback_services links process_id fuel config p lock_info elapsed project_root environment host_env allow_host_env
     lock_timeout force_lock hosts services version fl).1 ≠ Fine ().
Proof.
  intros Hid Hd Hsel Hne Hi Hj Hp Hp'. destruct sel as [selected ids]. simpl in Hi, Hj.
  assert (∀ sessions message operation fl1,
    ((locks ← endpoint_locks config ids selected;
      with_locks sessions (config_project config) locks (lock_info message) lock_timeout force_lock operation) fl1).1 ≠ Fine ()) as Hn.
  { intros sessions message operation fl1. unfold mbind, F_bind.
    destruct (endpoint_locks config ids selected fl1) as [[locks| | |] fl2] eqn:Hl; try done.
    eapply (repeated_never_runs sessions (config_project config) (lock_info message) lock_id (Hid _) taken Hd).
    by eapply endpoint_locks_repeated. }
  split; intros Hf.
  - unfold restart_services in Hf. unfold mbind at 1, F_bind at 1 in Hf. unfold networking_enabled in Hf.
    destruct (np_enabled p); [|done]. simpl in Hf. unfold mbind at 1, F_bind at 1 in Hf. rewrite Hsel in Hf. cbn iota beta in Hf.
    unfold mbind at 1, F_bind at 1 in Hf. destruct (of_f _ fl') as [[u| | |] fl2]; try done.
    by eapply Hn.
  - unfold rollback_services in Hf. unfold mbind at 1, F_bind at 1 in Hf. unfold networking_enabled in Hf.
    destruct (np_enabled p); [|done]. simpl in Hf. unfold mbind at 1, F_bind at 1 in Hf. rewrite Hsel in Hf. cbn iota beta in Hf.
    unfold mbind at 1, F_bind at 1 in Hf. destruct (rollback_images _ _ _ fl') as [[images| | |] fl1]; try done.
    unfold mbind at 1, F_bind at 1 in Hf. destruct (of_f _ fl1) as [[u| | |] fl2]; try done.
    by eapply Hn.
Qed.
End restart.

(** C40: Scaling panics when only other servers change.  For a service without a proxy whose plan
    adds or retires replicas, none of them on the first eligible server, the session to that
    server is closed and the lock of the scaling is then asked for on it: once the plan is
    confirmed and the servers are reached, the command panics, before it has changed anything. *)
Theorem scaling_elsewhere_panics `{ContentHash MembershipRecord, ContentHash CatalogRecord, ContentHash DesiredStateRecord,
    ContentHash CronSpecContent, Labels, Sha256}
    `{Host, DebugText, FloatText, Connector, RouteJson, Operator, LockJson, LocalTime, LocalTree, LocalFiles, NumberText}
    links process_id fuel config p lock_info elapsed project_root environment host_env allow_host_env
    service_name service eligible seed scale reset answer current catalog requested fl fl1 fl2 :
  let current_count := default (service_scale service) (current ≫= Desired.scale_override) in
  let plan := scale_plan (config_project config) service_name eligible catalog current_count requested in
  connect_each config [seed] = Ok () → read_desired links seed service_name fl = (Fine current, fl1) →
  on_or seed (@Session.catalog _ _ _ _ _ (links seed)) fl1 = (Fine catalog, fl2) →
  requested_scale service scale reset answer current_count = Ok requested → check_scale service_name service eligible requested = Ok () →
  service_proxy service = None → additions plan ++ removals plan ≠ [] → seed ∉ ra_server <$> additions plan ++ removals plan →
  connect_each config (btree_elems (affected_servers seed eligible false plan ∖ {[seed]})) = Ok () → (∀ message, is_Some (info_lock_id (lock_info message))) →
  scale_from links process_id fuel config p lock_info elapsed project_root environment host_env allow_host_env
    service_name service eligible seed scale reset answer false (Ok true) fl = (Crashes, fl2).
Proof.
  intros current_count plan Hseed Hread Hcat Hreq Hcheck Hproxy Hsome Helse Hconn Hid.
  unfold scale_from. unfold mbind at 1, F_bind at 1. rewrite Hseed. cbn [of_f mret F_ret].
  unfold mbind at 1, F_bind at 1. rewrite Hread. unfold mbind at 1, F_bind at 1. rewrite Hcat. cbn zeta.
  fold current_count. unfold mbind at 1, F_bind at 1. rewrite Hreq. cbn [of_f mret F_ret].
  unfold mbind at 1, F_bind at 1. rewrite Hcheck. cbn [of_f mret F_ret]. unfold mbind at 1, F_bind at 1. cbn [of_f mret F_ret negb].
  fold plan. rewrite Hproxy, bool_decide_false by (by intros [? ?]).
  assert (seed ∉ affected_servers seed eligible false plan) as Hnot.
  { unfold affected_servers. rewrite bool_decide_false.
    - rewrite elem_of_union, !elem_of_list_to_set. intros Hin. apply Helse. rewrite fmap_app. by apply elem_of_app.
    - intros Hempty. apply Hsome. apply (fmap_nil_inv ra_server). rewrite fmap_app.
      destruct (ra_server <$> additions plan) as [|x l] eqn:Ea; [destruct (ra_server <$> removals plan) as [|x l] eqn:Er; [done|]|];
        exfalso; apply (not_elem_of_empty (C := gset string) x); rewrite <-Hempty; set_solver. }
  unfold mbind at 1, F_bind at 1. rewrite Hconn. cbn [of_f mret F_ret]. destruct (Hid ("jiji service scale: " +:+ service_name +:+ " -> " +:+ pretty requested)) as [id Hi].
  by eapply unreachable_lock_panics.
Qed.

(** C22: The plan of a scaling leads to the scale that was asked for.  Whatever the catalog has, the
    requested replicas are exactly the healthy ones that are not retired and those that are
    added; every replica of the service that is active and not requested is retired.  When the
    replicas of the previous scale are all healthy and no others are active, a change touches the
    difference alone: replicas are added for the new places on each server or retired from the
    last ones, never both. *)
Theorem scale_plan_reaches_the_request `{Sha256} project service_name eligible catalog current requested :
  let plan := scale_plan project service_name eligible catalog current requested in
  let healthy := replica_id <$> filter (λ r, is_healthy_of service_name r = true) catalog in
  let wanted scale := ra_replica_id <$> assignments_for project service_name eligible scale in
  let places low high id := ∃ server i, server ∈ eligible ∧ low ≤ i < high ∧ id = replica_id_for project service_name server i in
  (∀ id, id ∈ wanted requested ↔ (id ∈ healthy ∧ id ∉ ra_replica_id <$> removals plan) ∨ id ∈ ra_replica_id <$> additions plan) ∧
  (∀ r, r ∈ catalog → is_active_of service_name r = true →
        replica_id r ∈ ra_replica_id <$> removals plan ↔ replica_id r ∉ wanted requested) ∧
  ((∀ s s' i i', s ∈ eligible → s' ∈ eligible → i < N.max current requested → i' < N.max current requested →
      replica_id_for project service_name s i = replica_id_for project service_name s' i' → s = s' ∧ i = i') →
   (∀ id, id ∈ healthy ↔ id ∈ wanted current) →
   (∀ r, r ∈ catalog → is_active_of service_name r = true → is_healthy_of service_name r = true) →
   ∀ id, (id ∈ ra_replica_id <$> additions plan ↔ places current requested id) ∧
         (id ∈ ra_replica_id <$> removals plan ↔ places requested current id)).
Proof.
  intros plan healthy wanted places.
  assert (∀ id, id ∈ ra_replica_id <$> additions plan ↔ id ∈ wanted requested ∧ id ∉ healthy) as Hadd.
  { intros id. simpl. rewrite !list_elem_of_fmap. setoid_rewrite list_elem_of_filter. setoid_rewrite elem_of_list_to_set.
    split; [intros (a & -> & Hn & Ha); split; [by apply list_elem_of_fmap_2|done]|intros [(a & -> & Ha)%list_elem_of_fmap Hn]; eauto]. }
  assert (∀ id, id ∈ ra_replica_id <$> removals plan ↔
    id ∉ wanted requested ∧ (id ∈ wanted current ∨ id ∈ replica_id <$> filter (λ r, is_active_of service_name r = true) catalog)) as Hrem.
  { intros id. simpl. rewrite noted_removals, !list_elem_of_fmap. setoid_rewrite list_elem_of_filter. setoid_rewrite elem_of_list_to_set.
    split.
    - intros [(a & -> & Hn & Ha)|(r & -> & [Ht Hn] & Hr)]; (split; [done|]); [left; apply list_elem_of_fmap|right]; eauto.
    - intros [Hn [Hc|(r & -> & Hr & Ht)]]; [left|right; eauto]. apply list_elem_of_fmap in Hc as (a & -> & Ha). eauto. }
  assert (∀ id, id ∈ healthy → id ∈ replica_id <$> filter (λ r, is_active_of service_name r = true) catalog) as Hact.
  { intros id (r & -> & [Hh Hr]%list_elem_of_filter)%list_elem_of_fmap. apply list_elem_of_fmap. exists r. split; [done|].
    apply list_elem_of_filter. split; [|done]. unfold is_healthy_of in Hh. by apply andb_true_iff in Hh as [? _]. }
  split_and!.
  - intros id. rewrite Hadd, Hrem. destruct (decide (id ∈ healthy)) as [Hh|Hh]; [specialize (Hact id Hh)|]; destruct (decide (id ∈ wanted requested)); tauto.
  - intros r Hr Ht. rewrite Hrem. assert (replica_id r ∈ replica_id <$> filter (λ r, is_active_of service_name r = true) catalog); [|tauto].
    apply list_elem_of_fmap. exists r. split; [done|]. by apply list_elem_of_filter.
  - intros Hinj Hstep Hheal id. rewrite Hadd, Hrem, Hstep.
    assert (∀ id, id ∈ replica_id <$> filter (λ r, is_active_of service_name r = true) catalog → id ∈ wanted current) as Hcur.
    { intros id' (r & -> & [Ht Hr]%list_elem_of_filter)%list_elem_of_fmap. apply Hstep, list_elem_of_fmap. exists r.
      split; [done|]. apply list_elem_of_filter. auto. }
    specialize (Hcur id). unfold wanted in *. rewrite !assigned_ids in *. clear Hadd Hrem Hact Hstep. unfold places. split; split.
    + intros [(s & i & Hs & Hi & ->) Hn]. exists s, i. split_and!; [done| |done|done].
      destruct (decide (current ≤ i)); [done|]. exfalso. apply Hn. exists s, i. split_and!; [done|lia|done].
    + intros (s & i & Hs & [Hl Hi] & ->). split; [eauto|]. intros (s' & i' & Hs' & Hi' & He).
      destruct (Hinj s s' i i' Hs Hs') as [_ Hii]; [lia..|done|]. lia.
    + intros [Hn Hor]. assert (∃ s i, s ∈ eligible ∧ i < current ∧ id = replica_id_for project service_name s i) as (s & i & Hs & Hi & ->) by tauto.
      exists s, i. split_and!; [done| |done|done]. destruct (decide (requested ≤ i)); [done|]. exfalso. apply Hn. exists s, i. split_and!; [done|lia|done].
    + intros (s & i & Hs & [Hl Hi] & ->). split; [|left; eauto]. intros (s' & i' & Hs' & Hi' & He).
      destruct (Hinj s s' i i' Hs Hs') as [_ Hii]; [lia..|done|]. lia.
Qed.

(** C35: A dependent waits for its upstream.  Let the configuration be well-formed and accepted by
    validation, and let the dispatch of a deploy over its sessions end with outcomes, whatever the
    servers do.  Then every selected service is in exactly one of the two waves, with one outcome
    for each of its selected endpoints, in their order.  The endpoints of a service of the first
    wave are deployed in turn until one fails, and the rest are skipped; a service of the second
    wave shares the network of one of the first, and is deployed in the same way if all endpoints of
    that one were deployed and skipped altogether if not; and a service that shares the network of
    another selected one is in the second wave.  A server whose endpoints are all skipped is left
    as it was. *)
Theorem dependents_follow_their_upstream `{CronLibrary}
    `{ContentHash MembershipRecord, ContentHash CatalogRecord, ContentHash DesiredStateRecord, Labels}
    `{Host, RouteJson, LocalTree, Sha256, FloatText} links process_id fuel config p project_root sessions replica_ids images
    resolved_envs skip_proxy selected fl one two fl' :
  config_wf config → accepted config →
  run_waves links process_id fuel config p project_root sessions replica_ids (image_of_service images) resolved_envs skip_proxy selected fl
    = (Fine (one, two), fl') →
  one.*1 ++ two.*1 ≡ₚ btree_keys (group_by_service selected) ∧
  (∀ name outs, (name, outs) ∈ one ++ two → outs.*1 = ep_identity <$> filter (λ e, ep_service e = name) selected) ∧
  (∀ name outs, (name, outs) ∈ one → stops_at_failure false outs.*2) ∧
  (∀ name outs, (name, outs) ∈ two → ∃ service u uouts, (name, service) ∈ config_services config ∧
     network_mode_dependency service = Some u ∧ (u, uouts) ∈ one ∧ stops_at_failure (service_failed uouts) outs.*2) ∧
  (∀ name service u, (name, service) ∈ config_services config → network_mode_dependency service = Some u →
     name ∈ ep_service <$> selected → u ∈ ep_service <$> selected → name ∈ two.*1) ∧
  (∀ n, (∀ name outs, (name, outs) ∈ one ++ two → skipped_on n (filter (λ e, ep_service e = name) selected) outs.*2) →
     fl' !! n = fl !! n).
Proof.
  intros Hwf Hacc Hrun. unfold run_waves, mbind, F_bind in Hrun.
  destruct (compute_service_waves config (group_by_service selected)) as [[[deps w1] w2]|] eqn:Ew; [|done]. simpl in Hrun.
  destruct (run_wave _ _ _ _ _ _ _ _ _ _ _ deps ∅ w1 fl) as [[r1| | |] fl1] eqn:Hw1; try done.
  destruct (run_wave _ _ _ _ _ _ _ _ _ _ _ deps (upstream_failed r1) w2 fl1) as [[r2| | |] fl2] eqn:Hw2; try done.
  injection Hrun as -> -> ->. apply run_wave_spec in Hw1 as [Hw1 Hf1], Hw2 as [Hw2 Hf2].
  pose proof (wave_ran_names _ _ _ _ Hw1) as Hk1. pose proof (wave_ran_names _ _ _ _ Hw2) as Hk2.
  destruct (waves_submap _ _ _ _ _ Ew) as [Hsub1 Hsub2]. pose proof (compute_waves_spec _ _ _ _ _ Ew) as Hspec.
  assert (∀ name outs, (name, outs) ∈ one → ∃ eps, w1 !! name = Some eps ∧ entry_ran config ∅ (name, eps) (name, outs)) as He1
    by (intros; by eapply wave_ran_entry).
  assert (∀ name outs, (name, outs) ∈ two → ∃ eps, w2 !! name = Some eps ∧ entry_ran config (upstream_failed one) (name, eps) (name, outs)) as He2
    by (intros; by eapply wave_ran_entry).
  split_and!.
  - rewrite Hk1, Hk2. by apply (waves_partition config _ deps).
  - intros name outs [Hin|Hin]%elem_of_app; [destruct (He1 _ _ Hin) as (eps & He%Hsub1 & _ & Hids & _)|destruct (He2 _ _ Hin) as (eps & He%Hsub2 & _ & Hids & _)].
    all: simpl in Hids; by rewrite Hids, (grouped _ _ _ He).
  - intros name outs Hin. destruct (He1 _ _ Hin) as (eps & _ & _ & _ & dep & _ & Hst). by rewrite lookup_empty in Hst.
  - intros name outs Hin. destruct (He2 _ _ Hin) as (eps & Hn & _ & _ & dep & Hdep & Hst). cbn [fst] in Hdep.
    destruct (Hspec name eps (Hsub2 _ _ Hn)) as [[Hup _] _]. destruct (Hup Hn) as (u & Hd & [ul Hul]). unfold depends_on in Hd.
    rewrite Hdep in Hd. injection Hd as ->. destruct (dependency_service _ _ _ Hdep) as (service & Hs & Hu).
    apply hm_get_elem in Hs; [|apply Hwf]. pose proof (upstream_independent config name service u Hwf Hacc Hs Hu) as Hudep.
    assert (w1 !! u = Some ul) as Hu1 by (apply (Hspec u ul Hul); intros (v & Hv & _); unfold depends_on in Hv; congruence).
    assert (u ∈ one.*1) as ([u' uouts] & -> & Hu2)%list_elem_of_fmap by (rewrite Hk1; apply elem_of_btree_keys; eauto).
    exists service, u', uouts. split_and!; [done..|]. simpl in Hst.
    rewrite (upstream_failed_lookup _ _ uouts) in Hst; [done| |done]. rewrite Hk1. apply NoDup_btree_keys.
  - intros name service u Hs Hu Hn%group_selected Hul%group_selected. destruct Hn as [l Hl]. rewrite Hk2. apply elem_of_btree_keys. exists l.
    apply (Hspec name l Hl). exists u. split; [|done]. unfold depends_on, dependency_of.
    rewrite (proj2 (hm_get_elem _ _ _ (proj2 Hwf)) Hs). simpl. by rewrite Hu.
  - intros n Hn. rewrite Hf2, Hf1; [done|..].
    + eapply skipped_entries; [exact Hw1|]. intros name eps outs Hl Hin. rewrite (grouped _ _ _ (Hsub1 _ _ Hl)). apply Hn, elem_of_app. by left.
    + eapply skipped_entries; [exact Hw2|]. intros name eps outs Hl Hin. rewrite (grouped _ _ _ (Hsub2 _ _ Hl)). apply Hn, elem_of_app. by right.
Qed.

(** ** Samples *)

(** A digest that tells short texts with different ends apart. *)
#[refine] Definition text_sha256 : Sha256 :=
  {| sha256 s := take 32 (reverse (N_of_ascii <$> bytes s) ++ replicate 32 0) |}.
Proof.
  - intros s. rewrite length_take, length_app, length_replicate. lia.
  - intros s. apply Forall_take, Forall_app. split; [|by apply Forall_replicate]. apply Forall_reverse, Forall_fmap, Forall_true.
    intros c. apply N_ascii_bounded.
Defined.

Definition json : LockJson := {| info_to_json _ := Ok "{}"; info_of_json _ := Some LockProps.sample_info; json_text s := Ok s |}.
Definition no_files : LocalFiles := {| EnvResolution.is_file _ := false; EnvResolution.read_to_string _ := Err ""; EnvResolution.path_exists _ := false |}.
(** A machine with one lock directory, empty or taken. *)
Definition lock_host : Host :=
  {| machine := bool;
     exec c _ m :=
       let answer out := Ok {| stdout := out; stderr := ""; success := true; code := Some 0 |} in
       if bool_decide (c = acquire_command HOST_GLOBAL_PROXY_LOCK_PATH "1-0-0")
       then (answer (if m then "JIJI_LOCK_HELD" else ""), true) else (answer "{}", m);
     exec_stream _ m := (Ok [], m); clock _ := 0; sleep _ m := m; unix_time _ := Ok 0; session_host := "a";
     error_message _ := ""; response_debug _ := "" |}.
Definition scaled_service : Service :=
  {| service_image := Some "db:1"; service_build := None; service_servers := ["a"; "b"]; service_scale := 2; service_ports := [];
     service_volumes := []; service_files := []; service_directories := []; service_environment := no_environment;
     service_command := None; service_proxy := Some sample_tcp_proxy; service_retain := 3; service_network_mode := "bridge";
     service_cpus := None; service_memory := None; service_gpus := None; service_devices := []; service_privileged := false;
     service_cap_add := []; service_stop_first := false; service_restart := None; service_crons := ∅ |}.
Definition scaled_config : Config :=
  {| config_project := "demo"; config_builder := sample_builder; config_servers := config_servers sample_config;
     config_services := [("db", scaled_service)]; config_ssh := None; config_network := None; config_secrets_path := None;
     config_secrets := None; config_environment := None |}.

#[local] Existing Instances MembershipProps.sample_hash ApiProps.commit_hash DesiredProps.sample_hash FleetProps.sample_cron_hash
  LeasesProps.sample_labels text_sha256 FleetProps.sample_debug FleetProps.sample_float FleetProps.sample_connector
  DeployProps.sample_json TeardownProps.sample_operator json LockProps.sample_time DeployProps.sample_tree no_files
  EnvProps.sample_numbers ReconcileProps.no_build.

Definition fine_or {A} (a : A) (f : flow A) : A := match f with Fine a => a | _ => a end.
(** A run that ends well, by its result. *)
Lemma ends_well {A B} (x : flow A * B) (a : A) : x.1 = Fine a → x = (Fine a, x.2).
Proof. intros <-. apply surjective_pairing. Qed.

Definition lock_fleet : gmap string (@World lock_host) := {["a" := @Build_World lock_host ApiProps.sample_store false []]}.
Definition scaled_select : flow Selection * gmap string (@World lock_host) :=
  @select_expanded _ lock_host scaled_config PlannerProps.sample_plan (Some "a") (Some "db") lock_fleet.
Definition scaled_selection : Selection := Eval vm_compute in fine_or ([], ∅) scaled_select.1.
Definition scaled_run (rollback : bool) : flow () :=
  if rollback
  then (@rollback_services _ _ _ _ _ _ lock_host _ _ _ _ _ _ _ _ _ _ _ FleetProps.sample_links 0 5 scaled_config PlannerProps.sample_plan
          (λ _, LockProps.sample_info) 0 "/srv" None (λ _, None) false 4 false (Some "a") (Some "db") "2" lock_fleet).1
  else (@restart_services _ _ _ _ _ _ lock_host _ _ _ _ _ _ _ _ _ _ _ FleetProps.sample_links 0 5 scaled_config PlannerProps.sample_plan
          (λ _, LockProps.sample_info) 0 "/srv" None (λ _, None) false 4 false (Some "a") (Some "db") lock_fleet).1.

Lemma lock_host_directory : @lock_directory lock_host json "1-0-0" (λ m, m = true).
Proof.
  split.
  - intros input m r m'. cbn [exec lock_host]. rewrite bool_decide_true by done. by intros [= _ <-].
  - intros input m o m' ->. cbn [exec lock_host]. rewrite bool_decide_true by done. intros [= <- <-]. split; [done|]. intros r [= <-]. by right.
  - intros m o m' ->. cbn [exec lock_host]. rewrite bool_decide_false by discriminate. intros [= <- <-]. split; [done|]. by intros r [= <-].
Qed.
(** Two replicas behind the proxy of one server: the command ends with an error. *)
Lemma shared_proxy_blocks_restart_witness :
  (∃ error, scaled_run false = Fails error) ∧ scaled_run false ≠ Fine () ∧ scaled_run true ≠ Fine ().
Proof.
  split; [eexists; vm_compute; reflexivity|].
  eapply (@shared_proxy_blocks_restart _ _ _ _ _ _ lock_host _ _ _ _ _ _ _ _ _ _ _ FleetProps.sample_links 0 5 scaled_config
    PlannerProps.sample_plan (λ _, LockProps.sample_info) 0 "/srv" None (λ _, None) false 4 false (λ m, m = true) "1-0-0" (Some "a") (Some "db")
    "2" "a" 0%nat 1%nat _ _ scaled_selection lock_fleet scaled_select.2).
  - done.
  - apply lock_host_directory.
  - apply (ends_well scaled_select). vm_compute. reflexivity.
  - done.
  - reflexivity.
  - reflexivity.
  - split; [done|]. exists scaled_service. split; [done|]. by eexists.
  - split; [done|]. exists scaled_service. split; [done|]. by eexists.
Defined.

(** A service without a proxy, one replica on each server, of which only the one on [a]
    runs: [a] is the first server and nothing changes there. *)
Definition plain_service : Service := with_network "bridge" [] None (Service_default ["a"; "b"]).
Definition one_runs : AgentStore :=
  (ApiProps.sample_handle ApiProps.sample_store
     (CatalogCommit "db" (replica_id_for "demo" "db" "a" 0) "d1" "10.0.0.5" [80] "db:1" Catalog.Active Healthy)).2.
Definition one_fleet : gmap string (@World FleetProps.sample_host) :=
  {[ "a" := @Build_World FleetProps.sample_host one_runs tt []; "b" := @Build_World FleetProps.sample_host one_runs tt [] ]}.
Definition plain_scale : flow () * gmap string (@World FleetProps.sample_host) :=
  @scale_from _ _ _ _ _ _ FleetProps.sample_host _ _ _ _ _ _ _ _ _ _ FleetProps.sample_links 0 5 scaled_config PlannerProps.sample_plan
     (λ _, LockProps.sample_info) 0 "/srv" None (λ _, None) false "db" plain_service ["a"; "b"] "a" (Some 1) false (Err "") false (Ok true)
     one_fleet.
Definition read_record := @read_desired _ _ _ _ FleetProps.sample_host FleetProps.sample_links "a" "db" one_fleet.
Definition read_catalog := @on_or FleetProps.sample_host _ "a" (@Session.catalog _ _ _ _ FleetProps.sample_host (FleetProps.sample_links "a")) read_record.2.
Definition one_record : list CatalogRecord := Eval vm_compute in fine_or [] read_catalog.1.
Lemma scaling_elsewhere_panics_witness : plain_scale = (Crashes, read_catalog.2).
Proof.
  eapply (@scaling_elsewhere_panics _ _ _ _ _ _ FleetProps.sample_host _ _ _ _ _ _ _ _ _ _ FleetProps.sample_links 0 5 scaled_config
    PlannerProps.sample_plan (λ _, LockProps.sample_info) 0 "/srv" None (λ _, None) false "db" plain_service ["a"; "b"] "a" (Some 1) false (Err "")
    None one_record 1 one_fleet read_record.2).
  - reflexivity.
  - apply (ends_well read_record). vm_compute. reflexivity.
  - apply (ends_well read_catalog). vm_compute. reflexivity.
  - reflexivity.
  - vm_compute. reflexivity.
  - reflexivity.
  - vm_compute. discriminate.
  - apply (bool_decide_eq_true_1 _). vm_compute. reflexivity.
  - vm_compute. reflexivity.
  - intros message. by eexists.
Defined.

(** From one instance on each of two servers to two: the second on [a] is added. *)
Definition two_run : list CatalogRecord :=
  (λ r, {| Catalog.project_id := "demo"; Catalog.recovery_epoch := 1; Catalog.protocol_version := 1;
      Catalog.schema_version := 2; Catalog.service := "db"; replica_id := r; owner_node_id := "a"; owner_epoch := 1; Catalog.revision := 1;
      deployment_id := "d"; Catalog.address := 1; Catalog.ports := []; Catalog.image := ""; Catalog.state := Catalog.Active;
      Catalog.health := Healthy |}) <$> [replica_id_for "demo" "db" "a" 0; replica_id_for "demo" "db" "b" 0].
Lemma scale_plan_reaches_the_request_witness :
  length (additions (scale_plan "demo" "db" ["a"; "b"] two_run 1 2)) = 2%nat ∧
  replica_id_for "demo" "db" "a" 1 ∈ ra_replica_id <$> additions (scale_plan "demo" "db" ["a"; "b"] two_run 1 2).
Proof.
  split; [vm_compute; reflexivity|].
  pose proof (scale_plan_reaches_the_request "demo" "db" ["a"; "b"] two_run 1 2) as Hw.
  cbv zeta in Hw. destruct Hw as (_ & _ & Hw). apply Hw; clear Hw.
  - intros s s' i i' Hs Hs' Hi Hi'.
    assert (i = 0 ∨ i = 1) as Hi0 by lia. assert (i' = 0 ∨ i' = 1) as Hi0' by lia. clear Hi Hi'.
    rewrite !elem_of_cons, elem_of_nil in Hs, Hs'.
    destruct Hs as [->|[->|[]]], Hs' as [->|[->|[]]], Hi0 as [->| ->], Hi0' as [->| ->]; intros Heq; first [done|vm_compute in Heq; discriminate Heq].
  - intros id. reflexivity.
  - intros r Hr. apply list_elem_of_fmap in Hr as (x & -> & Hx). done.
  - exists "a", 1. split_and!; [apply list_elem_of_here|done|done|done].
Defined.

(** A service on two servers and one that shares its network.  No request reaches the agent of the
    first server: the endpoint there fails, and all others are skipped. *)
Definition deaf_links (server : string) : AgentLink :=
  {| link_api := ApiProps.sample_api; link_env _ := ApiProps.sample_env;
     link_fate _ := if bool_decide (server = "a") then Lost "unreachable" else Delivered |}.
Definition sample_selected : list ServiceEndpointPlan :=
  (λ x : string * string * string, {| ep_identity := x.1.1; ep_project := "demo"; ep_service := x.1.2; ep_server := x.2 |}) <$>
  [("db-1", "db", "a"); ("db-2", "db", "b"); ("sidecar-1", "sidecar", "b")].
Definition no_env : ResolvedEnvironment := {| env_values := ∅; secret_keys := ∅; control_keys := ∅ |}.
Definition sample_ids : gmap string string := list_to_map ((λ e, (ep_identity e, ep_identity e)) <$> sample_selected).
Definition sample_waves : flow (list ServiceOutcomes * list ServiceOutcomes) * gmap string (@World FleetProps.sample_host) :=
  @run_waves _ _ _ _ FleetProps.sample_host _ _ _ _ deaf_links 0 5 sample_config PlannerProps.sample_plan "/srv" {["a"; "b"]}
    sample_ids (@image_of_service FleetProps.sample_host {["db" := "db:1"; "sidecar" := "db:1"]})
    {["db" := no_env; "sidecar" := no_env]} false sample_selected one_fleet.
Definition sample_outcomes : list ServiceOutcomes * list ServiceOutcomes := Eval vm_compute in fine_or ([], []) sample_waves.1.
Lemma dependents_follow_their_upstream_witness :
  sample_outcomes =
    ([("db", [("db-1", DeployFailed "unreachable"); ("db-2", SkippedAfterSiblingFailure)])],
     [("sidecar", [("sidecar-1", SkippedAfterSiblingFailure)])]) ∧
  sample_waves.2 !! "b" = one_fleet !! "b".
Proof.
  split; [vm_compute; reflexivity|].
  destruct (@dependents_follow_their_upstream ValidationProps.sample_cron_library _ _ _ _ FleetProps.sample_host _ _ _ _ deaf_links 0 5
    sample_config PlannerProps.sample_plan "/srv" {["a"; "b"]} sample_ids {["db" := "db:1"; "sidecar" := "db:1"]}
    {["db" := no_env; "sidecar" := no_env]} false sample_selected one_fleet
    sample_outcomes.1 sample_outcomes.2 sample_waves.2 sample_config_wf ValidationProps.sample_config_accepted) as (_ & _ & _ & _ & _ & Hf).
  - apply (ends_well sample_waves). vm_compute. reflexivity.
  - apply Hf. intros name outs [[= -> ->]|[[= -> ->]|[]%elem_of_nil]%elem_of_cons]%elem_of_cons.
    + intros [|[|i]] e He Hn; vm_compute in He; [injection He as <-; discriminate Hn|reflexivity|discriminate He].
    + intros [|i] e He Hn; vm_compute in He; [reflexivity|discriminate He].
Defined.
End ServiceProps.
