(* ===== verification/EngineInstall.v ===== *)
(** What a server needs before services run on it: the container engine ([jiji-cli/src/engine.rs]),
    the binary of the agent ([agent_distribution.rs], [find_local_agent_binary] of
    [agent_install.rs]) and the recovery epoch of a project ([recovery_epoch.rs]).

    In the texts of commands [quoted] stands for the double quotes of a shell script: each tilde is
    one.  Reading variables of the environment and running the local binary are arguments. *)

From S2P Require Import Prelude Text Bytes Substring Cidr Naming Schema Planner ServiceRuntime.
From S2P Require Import Membership Catalog Desired OpLog Leases Cron CronExec Replication Store Api CandidatePlan EnvResolution.
From S2P Require Import Session ProxyScript HostProxy.
Open Scope N_scope.

Definition dquote : ascii := ascii_of_N 34.
Definition quoted (s : string) : string := of_bytes ((λ c, if bool_decide (c = "~"%char) then dquote else c) <$> bytes s).

(** ** The engine *)

Definition Version : Type := N * (N * N).
Definition DOCKER_MIN_VERSION : Version := (29, (3, 0)).
Definition PODMAN_MIN_VERSION : Version := (5, (8, 4)).
Definition PODMAN_STATIC_VERSION : string := "5.8.4".
Definition PODMAN_STATIC_AMD64_SHA256 : string := "a58765fe8be6ab3fb79f892f1a027b4ce4a7e8eb589df1ef960c167cbde08d69".
Definition PODMAN_STATIC_ARM64_SHA256 : string := "a2f6b73cc0f7018e2e8518338a4ec27db70148e1af86e16719235605aefd1df3".

Inductive EngineStatus :=
| EngineAlreadyInstalled (version : string)
| EngineInstalled (version : string)
| EngineUpgraded (from to : string).

Record OsInfo := { os_id : string; os_version_id : string; os_version_codename : string }.

Definition min_version (engine : ContainerEngine) : Version :=
  match engine with Docker => DOCKER_MIN_VERSION | Podman => PODMAN_MIN_VERSION end.
Definition version_to_string (v : Version) : string := pretty v.1 +:+ "." +:+ pretty v.2.1 +:+ "." +:+ pretty v.2.2.
Definition check_engine_version (engine_name version_output : string) (min : Version) : result string () :=
  match parse_version version_output with
  | None => Ok ()
  | Some found =>
      if ltb found min
      then Err (engine_name +:+ " " +:+ version_to_string found +:+ " is installed, but jiji requires at least " +:+ version_to_string min
                +:+ ". Upgrade " +:+ engine_name +:+ " on this host and retry.")
      else Ok ()
  end.
Definition version_is_supported (version_output : string) (min : Version) : bool :=
  match parse_version version_output with None => true | Some found => negb (ltb found min) end.

Definition podman_static_configuration_command : string :=
  quoted ("mkdir -p /etc/containers/containers.conf.d; printf '%s\n' '[containers]' 'log_driver = ~k8s-file~' '' '[engine]' "
          +:+ "'runtime = ~/usr/local/bin/crun~' 'cgroup_manager = ~cgroupfs~' 'events_logger = ~file~' "
          +:+ "> /etc/containers/containers.conf.d/99-jiji-static.conf").
Definition podman_static_storage_configuration_command : string :=
  quoted ("mkdir -p /etc/containers; printf '%s\n' '[storage]' 'driver = ~overlay~' 'runroot = ~/var/run/containers/storage~' "
          +:+ "'graphroot = ~/var/lib/containers/storage~' '' '[storage.options.overlay]' 'ignore_chown_errors = ~true~' "
          +:+ "'mountopt = ~nodev~' > /etc/containers/storage.conf").
Definition podman_static_install_command : string :=
  quoted ("set -eu; arch=$(dpkg --print-architecture); case ~$arch~ in amd64) checksum=" +:+ PODMAN_STATIC_AMD64_SHA256
    +:+ " ;; arm64) checksum=" +:+ PODMAN_STATIC_ARM64_SHA256
    +:+ " ;; *) echo ~Unsupported architecture '$arch' for the pinned Podman static bundle. Install Podman " +:+ PODMAN_STATIC_VERSION
    +:+ " or newer manually.~ >&2; exit 1 ;; esac; asset=podman-linux-$arch.tar.gz; tmp=$(mktemp -d); trap 'rm -rf ~$tmp~' EXIT; "
    +:+ "curl -fsSL ~https://github.com/mgoltzsche/podman-static/releases/download/v" +:+ PODMAN_STATIC_VERSION
    +:+ "/$asset~ -o ~$tmp/$asset~; echo ~$checksum  $tmp/$asset~ | sha256sum -c -; tar -xzf ~$tmp/$asset~ -C ~$tmp~; "
    +:+ "cp -a --remove-destination ~$tmp/podman-linux-$arch/usr/local/.~ /usr/local/; mkdir -p /etc/containers/containers.conf.d; "
    +:+ "test -e /etc/containers/seccomp.json || install -m 0644 ~$tmp/podman-linux-$arch/etc/containers/seccomp.json~ "
    +:+ "/etc/containers/seccomp.json; ")
  +:+ podman_static_configuration_command +:+ "; " +:+ podman_static_storage_configuration_command
  +:+ "; if test -f /etc/apparmor.d/podman; then "
  +:+ "sed -Ei 's!^profile podman /usr/bin/podman !profile podman /usr/{bin,local/bin}/podman !' /etc/apparmor.d/podman; "
  +:+ "command -v apparmor_parser >/dev/null 2>&1 && apparmor_parser -r /etc/apparmor.d/podman || true; fi; systemctl daemon-reload".

Definition docker_packages : string :=
  "docker-ce docker-ce-cli containerd.io docker-buildx-plugin docker-compose-plugin curl git".
Definition docker_install_commands (os : OsInfo) : result string (list string) :=
  let start := ["systemctl start docker"; "systemctl enable docker"] in
  if bool_decide (os_id os = "ubuntu" ∨ os_id os = "debian") then
    Ok (["export DEBIAN_FRONTEND=noninteractive"; "apt-get update -qq"; "apt-get install -y -qq ca-certificates curl gnupg";
         "install -m 0755 -d /etc/apt/keyrings";
         "curl -fsSL https://download.docker.com/linux/" +:+ os_id os +:+ "/gpg -o /etc/apt/keyrings/docker.asc";
         "chmod a+r /etc/apt/keyrings/docker.asc";
         quoted "echo ~deb [arch=$(dpkg --print-architecture) signed-by=/etc/apt/keyrings/docker.asc] https://download.docker.com/linux/"
         +:+ os_id os +:+ " " +:+ os_version_codename os +:+ quoted " stable~ | tee /etc/apt/sources.list.d/docker.list > /dev/null";
         "apt-get update -qq"; "apt-get install -y -qq " +:+ docker_packages] ++ start)
  else if bool_decide (os_id os = "fedora") then
    Ok (["dnf -y install dnf-plugins-core";
         "dnf config-manager --add-repo https://download.docker.com/linux/fedora/docker-ce.repo";
         "dnf install -y " +:+ docker_packages] ++ start)
  else if bool_decide (os_id os = "centos" ∨ os_id os = "rhel") then
    Ok (["yum install -y yum-utils"; "yum-config-manager --add-repo https://download.docker.com/linux/centos/docker-ce.repo";
         "yum install -y " +:+ docker_packages] ++ start)
  else Err ("Don't know how to install docker on unsupported OS '" +:+ os_id os +:+ "' (version " +:+ os_version_id os
            +:+ "). Install docker manually and retry.").

Definition policy_cmd : string :=
  quoted ("mkdir -p /etc/containers && test -f /etc/containers/policy.json || "
          +:+ "echo '{~default~:[{~type~:~insecureAcceptAnything~}]}' | tee /etc/containers/policy.json > /dev/null").
Definition podman_install_commands (os : OsInfo) : result string (list string) :=
  if bool_decide (os_id os = "ubuntu" ∨ os_id os = "debian") then
    Ok ["export DEBIAN_FRONTEND=noninteractive"; "apt-get update -qq";
        "apt-get install -y -qq ca-certificates curl git iptables tar uidmap"; podman_static_install_command; policy_cmd]
  else if bool_decide (os_id os = "fedora" ∨ os_id os = "centos" ∨ os_id os = "rhel") then
    Ok ["dnf install -y podman curl git"; policy_cmd]
  else Err ("Don't know how to install podman on unsupported OS '" +:+ os_id os +:+ "' (version " +:+ os_version_id os
            +:+ "). Install podman manually and retry.").

(** [str::trim_matches] of a character. *)
Definition trim_matches (c : ascii) (s : string) : string :=
  let is_c d := bool_decide (d = c) in
  of_bytes (reverse (skip_while is_c (reverse (skip_while is_c (bytes s))))).
(** One line of [/etc/os-release]. *)
Definition os_line (os : OsInfo) (line : string) : OsInfo :=
  match split_once "=" line with
  | None => os
  | Some (key, value) =>
      let value := trim_matches dquote (trim value) in
      if bool_decide (key = "ID") then {| os_id := value; os_version_id := os_version_id os; os_version_codename := os_version_codename os |}
      else if bool_decide (key = "VERSION_ID")
      then {| os_id := os_id os; os_version_id := value; os_version_codename := os_version_codename os |}
      else if bool_decide (key = "VERSION_CODENAME")
      then {| os_id := os_id os; os_version_id := os_version_id os; os_version_codename := value |}
      else os
  end.

Section engine.
Context `{Host}.

Definition reconcile_managed_podman_static_configuration : M () :=
  r ← execute ("if test -f /etc/containers/containers.conf.d/99-jiji-static.conf; then " +:+ podman_static_configuration_command
               +:+ "; " +:+ podman_static_storage_configuration_command +:+ "; systemctl daemon-reload; fi");
  if success r then mret ()
  else fail ("Could not reconcile Jiji's Podman configuration on " +:+ session_host +:+ ": " +:+ trim (stderr r)
             +:+ ". Check the host's systemd/Podman state and retry.").
Definition is_installed (engine_name : string) : M bool := r ← execute ("which " +:+ engine_name); mret (success r).
Definition version_of (engine_name : string) : M string :=
  r ← execute (engine_name +:+ " --version");
  if success r then mret (trim (stdout r))
  else fail ("Could not read " +:+ engine_name +:+ " version on " +:+ session_host +:+ ": " +:+ trim (stderr r) +:+ ". Confirm "
             +:+ engine_name +:+ " is installed and on PATH for the SSH user, then retry.").
Definition detect_os : M OsInfo :=
  r ← execute "cat /etc/os-release";
  if negb (success r)
  then fail ("Could not read /etc/os-release on " +:+ session_host +:+ ": " +:+ trim (stderr r)
             +:+ ". Confirm the host is a supported Linux distribution and retry.")
  else
    let os := foldl os_line {| os_id := ""; os_version_id := ""; os_version_codename := "" |} (lines (stdout r)) in
    if bool_decide (os_id os = "")
    then fail ("Could not determine the OS distribution on " +:+ session_host
               +:+ " from /etc/os-release. Confirm the host is a supported Linux distribution and retry.")
    else mret os.

(** One shell for each command. *)
Fixpoint run_install (commands : list string) : M () :=
  match commands with
  | [] => mret ()
  | command :: commands =>
      r ← execute command;
      if success r then run_install commands
      else fail ("Command `" +:+ command +:+ "` failed on " +:+ session_host +:+ " (exit " +:+ code_debug (code r) +:+ "): "
                 +:+ trim (stderr r) +:+ ". Fix the reported error on that host and retry.")
  end.
Definition install (engine : ContainerEngine) : M () :=
  os ← detect_os;
  commands ← of_result (match engine with Docker => docker_install_commands os | Podman => podman_install_commands os end);
  run_install commands.

(** The version that is there and may stay, or what is to be replaced. *)
Definition installed_version (engine : ContainerEngine) : M (option string * bool) :=
  let name := engine_to_string engine in
  present ← is_installed name;
  if negb present then mret (None, false)
  else
    version ← version_of name;
    if version_is_supported version (min_version engine) then
      _ ← (match engine with Podman => reconcile_managed_podman_static_configuration | Docker => mret () end);
      mret (Some version, true)
    else
      _ ← (match engine with Podman => mret () | Docker => of_result (check_engine_version name version (min_version engine)) end);
      mret (Some version, false).
Definition ensure_engine (engine : ContainerEngine) : M EngineStatus :=
  let name := engine_to_string engine in
  found ← installed_version engine;
  match found with
  | (Some version, true) => mret (EngineAlreadyInstalled version)
  | (previous_version, _) =>
      _ ← install engine;
      version ← version_of name;
      _ ← of_result (check_engine_version name version (min_version engine));
      mret match previous_version with Some from => EngineUpgraded from version | None => EngineInstalled version end
  end.
End engine.

(** ** The binary of the agent *)

(** [AGENT_BUILD_VERSION] of [version_requirements.rs], set when the CLI is built. *)
Class AgentBuild := { AGENT_BUILD_VERSION : string }.

Definition DEFAULT_RELEASE_BASE_URL : string := "https://github.com/acidtib/jiji".
Record ManagedAgentDownload := { download_version : string; base_url : string }.
Inductive AgentBinarySource := LocalBinary (path : string) | Managed (download : ManagedAgentDownload).
Inductive LocalAgentVersion := LocalCurrent | LocalOutdated (found : string) | LocalUnknown.
Inductive LocalAgentBinary := Found (path : string) (explicit : bool) | ExplicitOverrideInvalid (message : string) | NotConfigured.

Section distribution.
Context `{AgentBuild, LocalFiles, Sha256}.
(** The environment, the file of the running program, and what a local program prints. *)
Context (env_var : string → option string) (current_exe : option string) (run_captured : string → list string → result string CommandResult).

Definition env_nonempty (name : string) : option string :=
  value ← env_var name; if bool_decide (trim value = "") then None else Some value.
Definition managed_download_config : ManagedAgentDownload :=
  {| download_version := default AGENT_BUILD_VERSION (env_nonempty "JIJI_AGENT_VERSION");
     base_url := default DEFAULT_RELEASE_BASE_URL (env_nonempty "JIJI_RELEASE_BASE_URL") |}.

(** [Path::parent] and [Path::join] of texts without a slash at the end. *)
Definition directory_of (path : string) : option string :=
  if bool_decide (path = "" ∨ path = "/") then None
  else match rsplit_once "/" path with
  | Some (dir, _) => Some (if bool_decide (dir = "") then "/" else dir)
  | None => Some ""
  end.
Definition path_join (dir name : string) : string :=
  if bool_decide (dir = "") then name else if bool_decide (dir = "/") then "/" +:+ name else join dir name.
Definition find_local_agent_binary : LocalAgentBinary :=
  match env_var "JIJI_AGENT_BINARY" with
  | Some path =>
      if EnvResolution.is_file path then Found path true
      else ExplicitOverrideInvalid ("JIJI_AGENT_BINARY=" +:+ path +:+ " does not exist")
  | None =>
      match (current_exe ≫= directory_of) with
      | Some dir => if EnvResolution.is_file (path_join dir "jiji-agent") then Found (path_join dir "jiji-agent") false else NotConfigured
      | None => NotConfigured
      end
  end.

Definition local_agent_binary_version (path : string) : LocalAgentVersion :=
  match run_captured path ["version"] with
  | Err _ => LocalUnknown
  | Ok r =>
      let found := trim (stdout r) in
      if negb (success r) || bool_decide (found = "") then LocalUnknown
      else match parse_version found, parse_version AGENT_BUILD_VERSION with
      | Some found_semver, Some required_semver => if ltb found_semver required_semver then LocalOutdated found else LocalCurrent
      | _, _ => LocalOutdated found
      end
  end.

Definition remote_install_script (base version project_dir bin_dir state_dir binary : string) : string :=
  quoted ("set -eu; arch=$(uname -m); case ~$arch~ in x86_64|amd64) asset=jiji-agent-linux-x86_64 ;; "
    +:+ "aarch64|arm64) asset=jiji-agent-linux-arm64 ;; "
    +:+ "*) echo ~jiji-agent: unsupported architecture '$arch' (expected x86_64/amd64/aarch64/arm64)~ >&2; exit 1 ;; esac; "
    +:+ "tmp=$(mktemp -d); trap 'rm -rf ~$tmp~' EXIT; curl -fsSL --retry 3 ~")
  +:+ base +:+ "/releases/download/jiji-agent-v" +:+ version
  +:+ quoted "/$asset.sha256~ -o ~$tmp/$asset.sha256~; expected=$(awk '{print $1}' ~$tmp/$asset.sha256~); if [ -f "
  +:+ binary +:+ quoted " ] && [ ~$(sha256sum " +:+ binary
  +:+ quoted " | awk '{print $1}')~ = ~$expected~ ]; then echo JIJI_AGENT_BINARY_CHANGED=0; exit 0; fi; curl -fsSL --retry 3 ~"
  +:+ base +:+ "/releases/download/jiji-agent-v" +:+ version
  +:+ quoted ("/$asset~ -o ~$tmp/$asset~; actual=$(sha256sum ~$tmp/$asset~ | awk '{print $1}'); "
    +:+ "if [ ~$expected~ != ~$actual~ ]; then echo ~jiji-agent: sha256 mismatch for $asset (expected $expected, got $actual)~ >&2; "
    +:+ "exit 1; fi; ")
  +:+ "install -d -m 0700 " +:+ project_dir +:+ " " +:+ bin_dir +:+ " " +:+ state_dir
  +:+ quoted "; install -m 0755 ~$tmp/$asset~ " +:+ binary +:+ "; echo JIJI_AGENT_BINARY_CHANGED=1".
Definition remote_install_script_changed_binary (out : string) : bool :=
  match last (lines out) with Some line => bool_decide (trim line = "JIJI_AGENT_BINARY_CHANGED=1") | None => false end.

Definition binary_source (bail_context : string) : result string AgentBinarySource :=
  match find_local_agent_binary with
  | Found path explicit =>
      match local_agent_binary_version path with
      | LocalCurrent => Ok (LocalBinary path)
      | LocalOutdated found =>
          if explicit
          then Err (bail_context +:+ ": JIJI_AGENT_BINARY=" +:+ path +:+ " is v" +:+ found +:+ ", but this jiji requires at least v"
                    +:+ AGENT_BUILD_VERSION +:+ ". Rebuild it (`mise install`) or point JIJI_AGENT_BINARY at a matching build.")
          else Ok (Managed managed_download_config)
      | LocalUnknown =>
          if explicit
          then Err (bail_context +:+ ": JIJI_AGENT_BINARY=" +:+ path +:+ " did not report its own version (too old, or not a jiji-agent "
                    +:+ "binary at all). Rebuild it (`mise install`) or point JIJI_AGENT_BINARY at a matching build.")
          else Ok (Managed managed_download_config)
      end
  | ExplicitOverrideInvalid message => Err (bail_context +:+ ": " +:+ message)
  | NotConfigured => Ok (Managed managed_download_config)
  end.
Definition resolve_agent_binary_source (project bail_context : string) : result string (AgentBinarySource * option string) :=
  let? source := binary_source bail_context in
  let paths := default_for_project project in
  Ok (source, match source with
              | Managed download => Some (remote_install_script (base_url download) (download_version download) (project_dir paths)
                                           (join (project_dir paths) "bin") (state_dir paths) (binary_path paths))
              | LocalBinary _ => None
              end).

(** ** [recovery_epoch.rs] *)

(** [directory]: beside the configuration. *)
Definition recovery_directory (config_path : string) : result string string :=
  let? parent := ok_or (directory_of config_path) "configuration path has no parent directory" in Ok (path_join parent "recovery").
Definition read_recovery_epoch (config_path : string) : result string N :=
  let? dir := recovery_directory config_path in
  let path := path_join dir "epoch" in
  if negb (EnvResolution.path_exists path) then Ok 1
  else
    let? value := EnvResolution.read_to_string path in
    let? epoch := map_err parse_int_error_text (parse_uint u64_max (trim value)) in
    if epoch =? 0 then Err (path +:+ " must contain a positive recovery epoch") else Ok epoch.
End distribution.
