(* ===== verification/ServerSetup.v ===== *)
(** Setting up servers: [jiji-cli/src/commands/server/setup.rs] from the plan on, with what it takes
    of [commands/network/membership.rs] (pulling and pushing membership), [import.rs],
    [assess.rs] and [backup.rs] ([replay_recovery_desired_state]).

    Each phase has its own connections; what the code does on several servers at once is done one
    after the other here.  JSON, the SSH client and local files are parameters, as are the answers
    of the operator.  Progress and reports are left out. *)

From S2P Require Import Prelude Text Bytes Substring Cidr Naming Schema Planner ServiceRuntime.
From S2P Require Import Membership Catalog Desired OpLog Leases Cron CronExec Replication Store Api CandidatePlan EnvResolution.
From S2P Require Import Locks Session Daemon ProxyRoutes Transaction ProxyScript HostProxy AuditTrail Teardown Cascade Fleet LockSession.
From S2P Require Import NetworkSetup NetworkApply Services EngineInstall.
Open Scope N_scope.

(** [serde_json] for membership, catalog and mesh configuration; writing them does not fail. *)
Class MembershipText := {
  membership_json : list MembershipRecord → string;
  membership_of_json : string → result string (list MembershipRecord);
  mesh_json : NodeConfig → string;
}.
(** A second connection to a server that refused the first, after a pause. *)
Class Redial := {
  is_connection_refused : string → bool;
  connect_again : string → result string ();
}.

Definition connect_for_setup `{Connector, Redial} (name : string) : result string () :=
  match connect name with
  | Err error => if is_connection_refused name then connect_again name else Err error
  | Ok _ => Ok ()
  end.

(** ** Membership on one server *)

Section membership.
Context `{Host, MembershipText, Sha256}.

Definition update_path (project : string) : string := join (project_dir (default_for_project project)) "membership-update.json".
Definition import_command (project : string) : string :=
  let paths := default_for_project project in
  binary_path paths +:+ " membership-import --project " +:+ project +:+ " --state-dir " +:+ state_dir paths +:+ " --mesh-config "
  +:+ mesh_config_path paths +:+ " --input " +:+ update_path project.
Definition push_membership (project : string) (rs : list MembershipRecord) : M () :=
  write ← execute_with_input ("install -D -m 0600 /dev/stdin " +:+ update_path project) (membership_json rs);
  if negb (success write)
  then fail ("could not stage membership update on " +:+ session_host +:+ ": " +:+ trim (stderr write))
  else
    applied ← execute (import_command project);
    if success applied then mret ()
    else fail (session_host +:+ " rejected the membership update: " +:+ trim (stderr applied)).
Definition export_command (project : string) : string :=
  let paths := default_for_project project in
  binary_path paths +:+ " membership-export --state-dir " +:+ state_dir paths.
Definition pull_membership (project : string) : M (list MembershipRecord) :=
  export ← execute (export_command project);
  if negb (success export)
  then fail ("could not read membership from " +:+ session_host +:+ ": " +:+ trim (stderr export))
  else of_result (membership_of_json (stdout export)).
End membership.

(** ** Membership over the servers *)

Section fleet_membership.
Context `{ContentHash MembershipRecord, Host, MembershipText, Sha256, Connector, Redial} (config : Config).
Let project := config_project config.

(** The members each reachable server outside [excluded] knows. *)
Fixpoint gather_from (servers : list (string * NamedServer)) (excluded : gset string) : F (list MembershipRecord) :=
  match servers with
  | [] => mret []
  | (name, server) :: servers =>
      found ← (if bool_decide (name ∈ excluded) || negb (is_ok (connect_options name server)) || negb (is_ok (connect name)) then mret []
               else r ← on name (pull_membership project); mret (match r with Ok rs => rs | Err _ => [] end));
      rest ← gather_from servers excluded;
      mret (found ++ rest)
  end.
Definition gather_membership (excluded : gset string) : F (list MembershipRecord) := gather_from (config_servers config) excluded.

(** The servers the records could not be brought to. *)
Definition push_membership_everywhere (rs : list MembershipRecord) (excluded : gset string) : F (list (string * string)) :=
  let names := filter (λ n, n ∉ excluded) (server_names_sorted config) in
  _ ← all_options config names;
  results ← mapF (λ n, match connect n with
                       | Err error => mret [(n, error)]
                       | Ok _ => r ← on n (push_membership project rs); mret (match r with Ok _ => [] | Err error => [(n, error)] end)
                       end) names;
  mret (mjoin results).

(** What the servers with a session know of those in [target_names]. *)
Fixpoint pull_from (names : list string) (target_names : gset string) : F (list MembershipRecord) :=
  match names with
  | [] => mret []
  | name :: names =>
      found ← (if bool_decide (name ∈ target_names) then r ← on name (pull_membership project); mret (match r with Ok rs => rs | Err _ => [] end)
               else mret []);
      rest ← pull_from names target_names;
      mret (found ++ rest)
  end.
(** A record that does not fit is left out. *)
Definition view_with (scope : MembershipScope) (v : MembershipView) (r : MembershipRecord) : MembershipView :=
  match Membership.apply v r scope with Ok (_, v') => v' | Err _ => v end.
Definition gather_membership_view (lock_sessions target_names : gset string) (scope : MembershipScope) : F MembershipView :=
  pulled ← pull_from (btree_elems lock_sessions) target_names;
  gathered ← gather_membership target_names;
  mret (foldl (view_with scope) MembershipView_default (pulled ++ gathered)).
End fleet_membership.

(** ** Enrolment *)

(** *** The text of a socket address *)

Definition hex_value (c : ascii) : option N :=
  let n := N_of_ascii c in
  if (48 <=? n) && (n <=? 57) then Some (n - 48)
  else if (97 <=? n) && (n <=? 102) then Some (n - 87)
  else if (65 <=? n) && (n <=? 70) then Some (n - 55) else None.
(** One to four hexadecimal digits. *)
Definition read_hex (l : list ascii) : option (N * list ascii) :=
  let digits := take_while (λ c, bool_decide (is_Some (hex_value c))) l in
  if (1 <=? length digits)%nat && (length digits <=? 4)%nat
  then Some (foldl (λ a c, a * 16 + default 0 (hex_value c)) 0 digits, drop (length digits) l) else None.
Definition read_dotted (l : list ascii) : option (N * list ascii) :=
  let prefix := take_while (λ c, is_ascii_digit c || bool_decide (c = "."%char)) l in
  ip ← parse_ipv4 (of_bytes prefix); Some (ip, drop (length prefix) l).
(** Up to [limit] groups with colons between them; whether they end in an IPv4 address. *)
Fixpoint read_groups (limit : nat) (first : bool) (l : list ascii) : list N * bool * list ascii :=
  match limit with
  | O => ([], false, l)
  | S limit =>
      match (if first then Some l else match l with ":"%char :: l => Some l | _ => None end) with
      | None => ([], false, l)
      | Some body =>
          match (if (limit =? 0)%nat then None else read_dotted body), read_hex body with
          | Some (ip, rest), _ => ([ip / 65536; ip mod 65536], true, rest)
          | None, Some (group, rest) => let '(groups, dotted, rest) := read_groups limit false rest in (group :: groups, dotted, rest)
          | None, None => ([], false, l)
          end
      end
  end.
Definition groups_value (groups : list N) : N := foldl (λ a g, a * 65536 + g) 0 groups.
Definition read_ipv6 (l : list ascii) : option (N * list ascii) :=
  let '(head, dotted, rest) := read_groups 8 true l in
  if (length head =? 8)%nat then Some (groups_value head, rest)
  else if dotted then None
  else match rest with
  | ":"%char :: ":"%char :: rest =>
      let '(tail, _, rest) := read_groups (7 - length head) true rest in
      Some (groups_value (head ++ replicate (8 - length head - length tail) 0 ++ tail), rest)
  | _ => None
  end.
(** What may follow the address in brackets: a scope. *)
Definition closes (l : list ascii) : bool :=
  match l with
  | ["]"%char] => true
  | "%"%char :: l =>
      let digits := take_while is_ascii_digit l in
      negb (bool_decide (digits = [])) && bool_decide (drop (length digits) l = ["]"%char]) && is_ok (parse_uint (2 ^ 32 - 1) (of_bytes digits))
  | _ => false
  end.
(** [format!("{host}:{port}").parse::<SocketAddr>()]. *)
Definition endpoint_of (host : string) (port : N) : option Membership.SocketAddr :=
  match parse_ipv4 host with
  | Some ip => Some (SocketV4 ip port)
  | None =>
      match bytes host with
      | "["%char :: l =>
          match read_ipv6 l with Some (ip, rest) => if closes rest then Some (SocketV6 ip port) else None | None => None end
      | _ => None
      end
  end.

Example endpoints_read :
  endpoint_of "192.0.2.1" 51820 = Some (SocketV4 3221225985 51820) ∧
  endpoint_of "[2001:db8::ff]" 1 = Some (SocketV6 (N.shiftl 0x20010db8 96 + 0xff) 1) ∧
  endpoint_of "[::ffff:1.1.1.1]" 1 = Some (SocketV6 (N.shiftl 0xffff 32 + 16843009) 1) ∧
  endpoint_of "[fe80::1%2]" 1 = Some (SocketV6 (N.shiftl 0xfe80 112 + 1) 1) ∧
  endpoint_of "2001:db8::ff" 1 = None ∧ endpoint_of "web.example" 1 = None ∧ endpoint_of "[1:2]" 1 = None.
Proof. vm_compute. done. Qed.

(** [jiji_agent::runtime::ProxyRouteSpec] and [TcpRouteSpec] are what [proxy_routes.rs] makes. *)
Definition agent_route (r : ProxyRoutes.ProxyRouteSpec) : Daemon.ProxyRouteSpec :=
  Daemon.Build_ProxyRouteSpec (ProxyRoutes.prs_host r) (ProxyRoutes.prs_path_prefix r) (ProxyRoutes.prs_name r) (ProxyRoutes.prs_port r)
    (ProxyRoutes.prs_apply_args r).
Definition agent_tcp_route (r : ProxyRoutes.TcpRouteSpec) : Daemon.TcpRouteSpec :=
  Daemon.Build_TcpRouteSpec (ProxyRoutes.trs_listen_port r) (ProxyRoutes.trs_name r) (ProxyRoutes.trs_port r) (ProxyRoutes.trs_apply_args r).

Section enrolment.
Context `{ContentHash MembershipRecord, Host, MembershipText, Sha256, Connector, Redial, FloatText} (config : Config) (p : NetworkPlan).
Let project := config_project config.
Let slug := text (systemd_unit_slug project).

(** The routes of the services on a server. *)
Fixpoint server_routes (name : string) (services : list (string * Service)) :
    F (list ProxyRoutes.ProxyRouteSpec * list ProxyRoutes.TcpRouteSpec) :=
  match services with
  | [] => mret ([], [])
  | (service_name, service) :: services =>
      '(http, tcp) ← (match bool_decide (name ∈ service_servers service), service_proxy service with
                      | true, Some proxy =>
                          http ← panics (runtime_specs_for_service project service_name (Some proxy));
                          http ← of_f http;
                          tcp ← panics (runtime_tcp_specs_for_service project service_name (Some proxy));
                          tcp ← of_f tcp;
                          mret (http, tcp)
                      | _, _ => mret ([], [])
                      end);
      '(https, tcps) ← server_routes name services;
      mret (http ++ https, tcp ++ tcps)
  end.

Definition mesh_config (name : string) (server_plan : ServerPlan) (recovery_epoch : N) (peer_public_ips : list N)
    (http : list ProxyRoutes.ProxyRouteSpec) (tcp : list ProxyRoutes.TcpRouteSpec) : NodeConfig :=
  {| nd_project_id := project; nd_recovery_epoch := recovery_epoch; nd_node_id := name;
     nd_wireguard_interface := sp_wireguard_interface server_plan; nd_wireguard_private_key_path := private_key_path slug;
     nd_replication_bind := SocketV4 (sp_management_address server_plan) (catalog_replication_port project);
     nd_dns_bind_address := sp_dns_address server_plan;
     nd_local_runtime :=
       {| lr_bridge_network := sp_bridge_name server_plan; lr_bridge_interface := sp_bridge_interface server_plan;
          lr_proxy_address := sp_proxy_address server_plan; lr_proxy_routes := agent_route <$> http;
          lr_tcp_routes := agent_tcp_route <$> tcp; lr_container_subnet := sp_container_subnet server_plan;
          lr_bridge_gateway := sp_bridge_gateway server_plan; lr_container_cidr := np_container_cidr p;
          lr_wireguard_port := sp_wireguard_port server_plan; lr_peer_public_ips := peer_public_ips;
          lr_public_host := sp_public_host server_plan |};
     nd_reconcile_interval_secs := 10; nd_store_soft_quota_bytes := DEFAULT_STORE_SOFT_QUOTA_BYTES;
     nd_compaction_interval_secs := DEFAULT_COMPACTION_INTERVAL_SECS;
     nd_dns_forwarders := match config_network config with
                          | Some network => network_dns_forwarders network
                          | None => Schema.default_dns_forwarders
                          end |}.

(** The record of a server as it is seen now. *)
Definition candidate_record (name : string) (server_plan : ServerPlan) (recovery_epoch : N) (key : string)
    (endpoint : Membership.SocketAddr) : MembershipRecord :=
  {| Membership.project_id := project; Membership.recovery_epoch := recovery_epoch;
     Membership.protocol_version := MEMBERSHIP_PROTOCOL_VERSION; Membership.schema_version := MEMBERSHIP_SCHEMA_VERSION;
     node_id := name; server_name := name; wireguard_public_key := key; management_address := sp_management_address server_plan;
     container_subnet := cidr_to_string (sp_container_subnet server_plan); endpoints := [endpoint]; Membership.owner_epoch := 1;
     Membership.revision := 1; Membership.state := Membership.Active |}.
(** [reconcile_record] and [apply]: the view with the record, or why it does not fit. *)
Definition enroll_record (scope : MembershipScope) (view : MembershipView) (candidate : MembershipRecord) : result MembershipError MembershipView :=
  match reconcile_record (Membership.get view (node_id candidate)) candidate with
  | None => Ok view
  | Some record => let? (_, view) := Membership.apply view record scope in Ok view
  end.

Definition read_key_command : string := "cat " +:+ public_key_path slug.
Definition bad_host (name host : string) : string :=
  "Server '" +:+ name +:+ "' host '" +:+ host +:+ "' must be a public IP address for mesh enrollment".

(** One target: the new view, and its configuration or why it is left out.  [error_text] is the
    text of an error of membership. *)
Definition enroll_target (error_text : MembershipError → string) (recovery_epoch : N) (scope : MembershipScope) (view : MembershipView)
    (name : string) : F (MembershipView * result string NodeConfig) :=
  match connect_for_setup name with
  | Err error => mret (view, Err error)
  | Ok _ =>
      server_plan ← index (np_servers p) name;
      key ← on_or name (execute read_key_command);
      if negb (success key) || bool_decide (trim (stdout key) = "")
      then mret (view, Err "WireGuard public key is unavailable after network bootstrap")
      else
        endpoint ← of_f (ok_or (endpoint_of (sp_public_host server_plan) (sp_wireguard_port server_plan))
                           (bad_host name (sp_public_host server_plan)));
        match enroll_record scope view (candidate_record name server_plan recovery_epoch (trim (stdout key)) endpoint) with
        | Err error => mret (view, Err ("could not enroll membership: " +:+ error_text error))
        | Ok view =>
            ips ← of_f (peer_public_ips server_plan);
            '(http, tcp) ← server_routes name (config_services config);
            mret (view, Ok (mesh_config name server_plan recovery_epoch ips http tcp))
        end
  end.
Fixpoint enroll_targets (error_text : MembershipError → string) (recovery_epoch : N) (scope : MembershipScope) (view : MembershipView)
    (names : list string) : F (MembershipView * list (string * NodeConfig) * list (string * string)) :=
  match names with
  | [] => mret (view, [], [])
  | name :: names =>
      '(view, outcome) ← enroll_target error_text recovery_epoch scope view name;
      '(view, prepared, failures) ← enroll_targets error_text recovery_epoch scope view names;
      mret match outcome with
           | Ok mesh => (view, (name, mesh) :: prepared, failures)
           | Err error => (view, prepared, (name, error) :: failures)
           end
  end.
(** Those that are prepared, the records of the whole mesh, and those left out. *)
Definition enroll_agent_targets (error_text : MembershipError → string) (names : list string) (recovery_epoch : N)
    (scope : MembershipScope) (view : MembershipView) : F (list (string * NodeConfig) * list MembershipRecord * list (string * string)) :=
  _ ← all_options config names;
  '(view, prepared, failures) ← enroll_targets error_text recovery_epoch scope view names;
  mret (prepared, Membership.all view, failures).
End enrolment.

(** ** Import of what ran before *)

(** [serde_json] for the catalog an agent exports. *)
Class CatalogText := { catalog_of_json : string → result string (list CatalogRecord) }.

Record HostReport := {
  legacy_runtime_present : bool;
  new_control_plane_enrolled : bool;
  catalog_record_count : nat;
  address_capacity : N;
  address_used : nat;
  importable : list string;
  already_migrated : list string;
  orphaned_containers : list string;
}.
Record ImportCandidate := {
  ic_server : string;
  ic_service : string;
  ic_replica_id : string;
  ic_deployment_id : string;
  ic_address : N;
  ic_image : string;
}.

Section import.
Context `{ContentHash MembershipRecord, ContentHash CatalogRecord, ContentHash DesiredStateRecord, Labels}.
Context `{Host, MembershipText, CatalogText, Sha256} (config : Config).
Let project := config_project config.
Let engine := builder_engine (config_builder config).

Definition probe_legacy_runtime : M bool :=
  let root := network_dir (text (systemd_unit_slug project)) in
  r ← execute ("test -s " +:+ root +:+ "/generation -o -d " +:+ root +:+ "/dns-current -o -d " +:+ root
               +:+ "/service-nat-current && echo yes || echo no");
  mret (bool_decide (trim (stdout r) = "yes")).
(** [{agent} {what} --state-dir {dir} 2>/dev/null || true]; nothing or nonsense is no record. *)
Definition fetch {A} (what : string) (parse : string → result string (list A)) : M (list A) :=
  let paths := default_for_project project in
  r ← execute (binary_path paths +:+ " " +:+ what +:+ " --state-dir " +:+ state_dir paths +:+ " 2>/dev/null || true");
  let trimmed := trim (stdout r) in
  mret (if bool_decide (trimmed = "") then [] else match parse trimmed with Ok l => l | Err _ => [] end).

(** The container that ran a service on a server. *)
Definition old_container (containers : list ContainerSummary) (service_name server : string) : option ContainerSummary :=
  find (λ c, bool_decide (summary_service c = Some service_name) && bool_decide (summary_server c = Some server)) containers.

Definition assess_host (server_plan : ServerPlan) : M HostReport :=
  legacy ← probe_legacy_runtime;
  membership ← fetch "membership-export" membership_of_json;
  catalog ← fetch "catalog-export" catalog_of_json;
  containers ← attempt (list_managed_containers engine project);
  let containers := match containers with Ok l => l | Err _ => [] end in
  let here := List.filter (λ s : string * Service,
    bool_decide (sp_name server_plan ∈ service_servers s.2)
    && match old_container containers s.1 (sp_name server_plan) with Some _ => true | None => false end) (config_services config) in
  let accounted := fst <$> here in
  let entry name := name +:+ " (replica " +:+ replica_id_for project name (sp_name server_plan) 0 +:+ ")" in
  let has_record name := existsb (λ r, bool_decide (replica_id r = replica_id_for project name (sp_name server_plan) 0)) catalog in
  mret {| legacy_runtime_present := legacy;
          new_control_plane_enrolled :=
            existsb (λ r, bool_decide (server_name r = sp_name server_plan) && Membership.is_active r) membership;
          catalog_record_count := length catalog;
          address_capacity := address_count (sp_container_subnet server_plan) - 5;
          address_used := length (List.filter (λ r, negb (bool_decide (Catalog.state r = Tombstoned))
                                                    && Cidr.contains (sp_container_subnet server_plan) (Catalog.address r)) catalog);
          importable := entry <$> List.filter (λ n, negb (has_record n)) accounted;
          already_migrated := entry <$> List.filter has_record accounted;
          orphaned_containers :=
            summary_name <$> List.filter (λ c, bool_decide (summary_server c = Some (sp_name server_plan))
              && match summary_service c with Some s => negb (bool_decide (s ∈ accounted)) | None => true end) containers |}.

(** A service on a server: what of it can be imported. *)
Definition discover_service (server : string) (containers : list ContainerSummary) (catalog : list CatalogRecord)
    (entry : string * Service) : M (list ImportCandidate) :=
  let '(service_name, service) := entry in
  if negb (bool_decide (server ∈ service_servers service)) then mret []
  else match old_container containers service_name server with
  | None => mret []
  | Some container =>
      let replica := replica_id_for project service_name server 0 in
      let deployment := "imported-" +:+ summary_name container in
      let live := match find (λ r, bool_decide (replica_id r = replica)) catalog with
                  | Some existing => match Catalog.state existing with Stopped | Tombstoned => false | _ => true end
                  | None => false
                  end in
      if live || existsb (λ r, bool_decide (deployment_id r = deployment)) catalog then mret []
      else
        address ← inspect_ip_address engine (summary_name container);
        match address with
        | None => mret []
        | Some address =>
            image ← inspect_image engine (summary_name container);
            mret [{| ic_server := server; ic_service := service_name; ic_replica_id := replica; ic_deployment_id := deployment;
                     ic_address := address; ic_image := default "unknown" image |}]
        end
  end.
Definition discover_candidates_on `{AgentLink} (server : string) : M (list ImportCandidate) :=
  containers ← list_managed_containers engine project;
  records ← attempt catalog;
  match records with
  | Err error => fail ("Agent not reachable on " +:+ server +:+ ": " +:+ error +:+ ". Run `jiji server setup` first.")
  | Ok records => found ← collect (discover_service server containers records) (config_services config); mret (mjoin found)
  end.

Definition commit_candidate `{AgentLink} (c : ImportCandidate) : M () :=
  response ← call (Some (ic_deployment_id c))
    (CatalogCommit (ic_service c) (ic_replica_id c) (ic_deployment_id c) (ipv4_to_string (ic_address c)) [] (ic_image c) Stopped Unknown);
  match response with
  | CatalogCommitted _ => mret ()
  | other => fail ("unexpected response " +:+ response_debug other)
  end.

Context (links : string → AgentLink) (p : NetworkPlan).
(** The answer of the operator to a question; none without a terminal. *)
Context (ask : option (string → result string bool)).

(** A question that [--yes] answers: [what] is to be confirmed, or the command ends with
    [cancelled]. *)
Definition confirmed (yes : bool) (question what cancelled : string) : F () :=
  if yes then mret ()
  else match ask with
  | None => stops ("Refusing to prompt for confirmation without a terminal attached. Pass --yes to confirm " +:+ what
                   +:+ " when running non-interactively (e.g. CI/CD).")
  | Some ask => answer ← of_f (ask question); if (answer : bool) then mret () else stops cancelled
  end.

(** [run_import]; assessing only reports. *)
Definition run_import (sessions : gset string) (dry_run yes : bool) : F () :=
  _ ← each (λ n, server_plan ← index (np_servers p) n; _ ← on n (assess_host server_plan); mret ()) (btree_elems sessions);
  found ← mapF (λ n, on_or n (@discover_candidates_on (links n) n)) (btree_elems sessions);
  match mjoin found with
  | [] => mret ()
  | candidates =>
      if dry_run then mret ()
      else
        _ ← confirmed yes ("Import " +:+ pretty (N.of_nat (length candidates)) +:+ " replica(s) as historical (Stopped) catalog records? "
                           +:+ "This never marks anything active and never touches a live replica.") "the import" "Import cancelled.";
        results ← mapF (λ c, r ← on (ic_server c) (@commit_candidate (links (ic_server c)) c);
                             mret (match r with Ok _ => [] | Err error => [ic_server c +:+ ": " +:+ error] end)) candidates;
        match mjoin results with
        | [] => mret ()
        | failures => stops ("Import failed for " +:+ pretty (N.of_nat (length failures)) +:+ " replica(s): "
                             +:+ String.concat "; " failures)
        end
  end.

(** The servers that do not answer, and what they answer. *)
Definition refusals `{Connector, Redial} (names : list string) : list (string * string) :=
  omap (λ n, match connect_for_setup n with Err error => Some (n, error) | Ok _ => None end) names.

Definition perform_import `{Connector, Redial} (names : list string) (dry_run yes : bool) : F () :=
  _ ← all_options config names;
  match refusals names with
  | [] => run_import (list_to_set names) dry_run yes
  | failures => stops ("Could not connect to server(s) for import: "
                       +:+ String.concat ", " ((λ f : string * string, f.1 +:+ ": " +:+ f.2) <$> failures))
  end.
End import.

(** ** The phases of [server setup] *)

(** [RecoverySource]: of what each agent knew when the recovery was prepared
    ([AgentBackupSnapshot]) the desired state is kept here, the part that is replayed. *)
Record RecoverySource := {
  format_version : N;
  source_project_id : string;
  source_recovery_epoch : N;
  replacement_recovery_epoch : N;
  source_desired : list (list DesiredStateRecord);
}.
(** The archives on the operator's machine: one that is there is read, and moved once replayed. *)
Class RecoveryArchive := {
  read_source : string → option (result string RecoverySource);
  rename_source : string → string → result string ();
}.

Section setup.
Context `{ContentHash MembershipRecord, ContentHash CatalogRecord, ContentHash DesiredStateRecord, Labels}.
Context `{Host, MembershipText, CatalogText, Sha256, Connector, Redial, FloatText, Operator, RouteJson, ProxyBuild, LockJson, LocalTime}.
Context `{AgentBuild, LocalFiles, RecoveryArchive} (config : Config) (p : NetworkPlan).
Context (links : string → AgentLink) (ask : option (string → result string bool)) (error_text : MembershipError → string).
(** The machine of the operator: environment, own file, local programs, the bytes of a file. *)
Context (env_var : string → option string) (current_exe : option string) (run_captured : string → list string → result string CommandResult).
Context (read_binary : string → result string string) (config_path : string) (lock_info : string → LockInfo) (elapsed : N).
Let project := config_project config.
Let slug := text (systemd_unit_slug project).
Let engine := builder_engine (config_builder config).

Definition rotate_command : string :=
  let private := private_key_path slug in
  let public := public_key_path slug in
  "set -eu; umask 077; rm -f " +:+ private +:+ " " +:+ public +:+ "; wg genkey > " +:+ private +:+ "; wg pubkey < " +:+ private
  +:+ " > " +:+ public +:+ "; chmod 0600 " +:+ private +:+ "; chmod 0644 " +:+ public.
Definition rotate_key_on (name : string) : F (list (string * string)) :=
  match connect_for_setup name with
  | Err error => mret [(name, error)]
  | Ok _ =>
      r ← on name (execute rotate_command);
      mret (match r with
            | Ok r => if success r then [] else [(name, trim (stderr r))]
            | Err error => [(name, error)]
            end)
  end.
Definition force_rotate_keys (names : list string) : F () :=
  _ ← all_options config names;
  failures ← mapF rotate_key_on names;
  match mjoin failures with
  | [] => mret ()
  | failures => stops ("Key rotation failed for " +:+ pretty (N.of_nat (length failures))
                       +:+ " server(s). Fix the reported hosts and retry `jiji server setup --rotate-key`.")
  end.

(** *** The agents *)

(** A server that is not configured any more leaves the mesh, if the operator agrees. *)
Definition decommission (yes : bool) (scope : MembershipScope) (view : MembershipView) : F MembershipView :=
  match compute_decommissions (list_to_set (fst <$> config_servers config)) view with
  | [] => mret view
  | decommissions =>
      _ ← confirmed ask yes "Permanently remove these servers from the mesh?" "decommissioning these hosts"
            "Server setup cancelled: decommissioning was not confirmed.";
      mret (foldl (view_with scope) view decommissions)
  end.

(** The release of the agent downloaded by the server itself; what went wrong with it. *)
Definition expect_script (script : option string) : F string :=
  panics (match script with Some script => Returned script | None => Panicked end).
Definition download_failed (r : CommandResult) : string := "could not download the jiji agent from the release: " +:+ trim (stderr r).

(** The agent of one prepared server, with a binary or the one that is there, and what went wrong. *)
Definition install_binary (records : list MembershipRecord) (name : string) (mesh : NodeConfig) (binary : option string) :
    F (list (string * string)) :=
  r ← on name (ensure_agent engine project (read_binary <$> binary) (mesh_json mesh) (membership_json records));
  match r with
  | Err error => mret [(name, error)]
  | Ok _ => pushed ← on name (push_membership project records); mret (match pushed with Ok _ => [] | Err error => [(name, error)] end)
  end.
Definition install_agent (source : AgentBinarySource) (script : option string) (records : list MembershipRecord)
    (target : string * NodeConfig) : F (list (string * string)) :=
  let '(name, mesh) := target in
  match source with
  | LocalBinary path => install_binary records name mesh (Some path)
  | Managed _ =>
      script ← expect_script script;
      r ← on_or name (execute script);
      if success r then install_binary records name mesh None else mret [(name, download_failed r)]
  end.

Definition setup_agents (names : list string) (yes : bool) (lock_sessions : gset string) : F () :=
  '(source, script) ← of_f (resolve_agent_binary_source env_var current_exe run_captured project "Phase 3 requires the authoritative jiji agent");
  let target_names := list_to_set names in
  recovery_epoch ← of_f (read_recovery_epoch config_path);
  let scope := {| scope_project_id := project; scope_recovery_epoch := recovery_epoch |} in
  view ← gather_membership_view config lock_sessions target_names scope;
  view ← decommission yes scope view;
  '(prepared, records, unenrolled) ← enroll_agent_targets config p error_text names recovery_epoch scope view;
  uninstalled ← mapF (install_agent source script records) prepared;
  match unenrolled ++ mjoin uninstalled with
  | [] => _ ← push_membership_everywhere config records target_names; mret ()
  | failures => stops ("Jiji agent install failed for " +:+ pretty (N.of_nat (length failures))
                       +:+ " server(s). Fix the reported hosts and retry `jiji server setup`.")
  end.

(** *** The proxies *)

Definition proxy_network (server_plan : ServerPlan) : result string (option ProxyNetwork) :=
  if np_enabled p then
    let? public_host := parse_public_host server_plan in
    Ok (Some {| pn_bridge_name := sp_bridge_name server_plan; pn_bridge_interface := sp_bridge_interface server_plan;
                pn_proxy_address := sp_proxy_address server_plan; pn_dns_address := sp_dns_address server_plan;
                pn_public_host := public_host |})
  else Ok None.
Definition audit_setup (name : string) (status : AuditStatus) (message : string) : F () :=
  _ ← on name (record project "server_setup" status message (Some (scope_to_string HostRuntime)) None (Some elapsed)); mret ().
Definition setup_proxy_on (name : string) : F (list (string * string)) :=
  match connect_for_setup name with
  | Err error => mret [(name, error)]
  | Ok _ =>
      server_plan ← index (np_servers p) name;
      network ← of_f (proxy_network server_plan);
      r ← on name (ensure_proxy engine network false);
      match r with
      | Ok _ => _ ← audit_setup name AuditSuccess "engine, network, agent, and jiji-proxy configured"; mret []
      | Err error => _ ← audit_setup name AuditFailed ("jiji-proxy setup failed: " +:+ error); mret [(name, error)]
      end
  end.
Definition setup_proxies (names : list string) : F () :=
  _ ← all_options config names;
  failures ← mapF setup_proxy_on names;
  match mjoin failures with
  | [] => mret ()
  | failures => stops ("Jiji proxy setup failed for " +:+ pretty (N.of_nat (length failures))
                       +:+ " server(s). Fix the reported hosts and retry `jiji server setup`.")
  end.

(** *** The desired state of a lost cluster *)

(** The newest record of each service. *)
Definition newest_desired (m : gmap string DesiredStateRecord) (r : DesiredStateRecord) : gmap string DesiredStateRecord :=
  match m !! Desired.service r with
  | Some current => if Desired.revision current <? Desired.revision r then <[Desired.service r := r]> m else m
  | None => <[Desired.service r := r]> m
  end.
Definition replay_record `{AgentLink} (current_epoch : N) (r : DesiredStateRecord) : M () :=
  _ ← call (Some ("recovery-desired:" +:+ Desired.service r +:+ ":" +:+ pretty current_epoch))
        (DesiredCommit (Desired.service r) (Desired.scale_override r));
  mret ().
Definition replay_recovery_desired_state (names : list string) : F nat :=
  current_epoch ← of_f (read_recovery_epoch config_path);
  if current_epoch <=? 1 then mret 0%nat
  else
    directory ← of_f (recovery_directory config_path);
    let stem := path_join directory ("recovery-source-epoch-" +:+ pretty (current_epoch - 1)) in
    let source_path := stem +:+ ".json" in
    match read_source source_path with
    | None => mret 0%nat
    | Some source =>
        source ← of_f source;
        if negb (bool_decide (source_project_id source = project)) || negb (replacement_recovery_epoch source =? current_epoch)
        then stops (source_path +:+ " does not match the active recovery epoch")
        else
          let desired := foldl newest_desired ∅ (mjoin (source_desired source)) in
          match names with
          | [] => mret 0%nat
          | seed :: _ =>
              if bool_decide (desired = ∅) then mret 0%nat
              else
                _ ← all_options config [seed];
                _ ← of_f (connect seed);
                _ ← each (λ r, on_or seed (@replay_record (links seed) current_epoch r)) (btree_values desired);
                _ ← of_f (rename_source source_path (stem +:+ ".replayed-epoch-" +:+ pretty current_epoch +:+ ".json"));
                mret (size desired)
          end
    end.

(** *** The command *)

(** A filter that fits no server is skipped with a warning. *)
Definition setup_targets (hosts : option string) : result string (gset string) :=
  let filters := split_comma_trimmed hosts in
  let found := foldl (λ found filter, match select_hosts p [filter] with
                                      | Ok servers => found ∪ list_to_set (sp_name <$> servers)
                                      | Err _ => found
                                      end) ∅ filters in
  if bool_decide (filters = []) then Ok (dom (np_servers p))
  else if bool_decide (found = ∅) then Err "No host filters matched a configured server."
  else Ok found.

(** The engine of each server that answers; what went wrong anywhere. *)
Definition engine_on (name : string) : F (list (string * string)) :=
  r ← on name (ensure_engine engine); mret (match r with Ok _ => [] | Err error => [(name, error)] end).
Definition setup_engines (names : list string) : F () :=
  _ ← all_options config names;
  let refused := refusals names in
  let reached := filter (λ n, is_ok (connect_for_setup n) = true) names in
  if bool_decide (reached = []) then stops "Could not connect to any server; see the errors above"
  else
    failures ← mapF engine_on reached;
    match refused ++ mjoin failures with
    | [] => mret ()
    | failures => stops ("Server setup failed for " +:+ pretty (N.of_nat (length failures)) +:+ " server(s)")
    end.

Definition network_failed (error : string) : string :=
  "Container engine setup succeeded, but complete network setup failed: " +:+ error.
(** What is done while the locks are held. *)
Definition setup_locked (names : list string) (target_names lock_sessions : gset string) (yes rotate_key import import_dry_run : bool) : F () :=
  _ ← setup_engines names;
  _ ← (if rotate_key then force_rotate_keys names else mret ());
  reconciled ← attempts (reconcile_for_server_setup config p target_names);
  _ ← of_f (map_err network_failed reconciled);
  _ ← setup_agents names yes lock_sessions;
  _ ← (if import then perform_import config links p ask names import_dry_run yes else mret ());
  _ ← setup_proxies names;
  _ ← replay_recovery_desired_state names;
  mret ().

(** [run] from the plan on. *)
Definition setup_servers (hosts : option string) (yes rotate_key import import_dry_run : bool) : F () :=
  _ ← require_ssh config ("No `ssh:` section configured in " +:+ config_path
                          +:+ ". Add at least `ssh.user:` before running server setup.");
  if bool_decide (config_servers config = [])
  then stops ("No servers defined in " +:+ config_path +:+ ". Add a `servers:` entry before running server setup.")
  else
    target_names ← of_f (setup_targets hosts);
    let names := filter (λ n, n ∈ target_names) (server_names_sorted config) in
    _ ← (if rotate_key then confirmed ask yes "Proceed with rotating these hosts' WireGuard keys?" "the key rotation"
                              "Server setup cancelled: key rotation was not confirmed." else mret ());
    _ ← all_options config names;
    match refusals names with
    | [] =>
        let lock_sessions := list_to_set names in
        with_locks lock_sessions project ((λ n, {| req_scope := HostRuntime; req_host := n |}) <$> names)
          (lock_info ("jiji server setup: " +:+ String.concat ", " names)) 300 false
          (setup_locked names target_names lock_sessions yes rotate_key import import_dry_run)
    | failures =>
        stops ("Could not connect to server(s): "
               +:+ String.concat ", " ((λ f : string * string, f.1 +:+ " (" +:+ default "" (server_host <$> hm_get (config_servers config) f.1)
                                          +:+ "): " +:+ f.2) <$> failures)
               +:+ ". Restore SSH access and retry.")
    end.
End setup.
