(* ===== verification/ServerUpgrade.v ===== *)
(** Upgrading servers: [jiji-cli/src/commands/server/upgrade.rs] from the plan on, over the
    enrolment of [ServerSetup.v].  What is printed on the way and the diagnostics at the end, which
    only read and only warn, are left out; what the code does on several servers at once is done
    one after the other. *)

From S2P Require Import Prelude Text Bytes Substring Cidr Naming Schema Planner ServiceRuntime.
From S2P Require Import Membership Catalog Desired OpLog Leases Cron CronExec Replication Store Api CandidatePlan EnvResolution.
From S2P Require Import Locks Session Daemon ProxyRoutes Transaction ProxyScript HostProxy AuditTrail Teardown Cascade Fleet LockSession.
From S2P Require Import NetworkSetup NetworkApply Services EngineInstall ServerSetup.
Open Scope N_scope.

Inductive VersionStatus := Current | Outdated | Ahead | UnknownVersion | Unavailable.
#[export] Instance VersionStatus_eq_dec : EqDecision VersionStatus.
Proof. solve_decision. Defined.

Definition status_label (s : VersionStatus) : string :=
  match s with
  | Current => "current" | Outdated => "outdated" | Ahead => "ahead" | UnknownVersion => "unknown" | Unavailable => "unavailable"
  end.
Definition compare_versions (found required : string) : VersionStatus :=
  match parse_version found, parse_version required with
  | Some found, Some required => if ltb found required then Outdated else if ltb required found then Ahead else Current
  | _, _ => UnknownVersion
  end.

Record ComponentRead := { cr_found : option string; cr_status : VersionStatus }.
Definition classify (read : result string string) (required : string) : ComponentRead :=
  match read with
  | Ok version => {| cr_found := Some version; cr_status := compare_versions version required |}
  | Err _ => {| cr_found := None; cr_status := Unavailable |}
  end.
Record HostRead := { hr_agent : ComponentRead; hr_proxy : ComponentRead }.
Definition unreachable_host : HostRead :=
  {| hr_agent := {| cr_found := None; cr_status := Unavailable |}; hr_proxy := {| cr_found := None; cr_status := Unavailable |} |}.

Definition describe_found (found : option string) : string :=
  match found with Some version => "v" +:+ version | None => "unavailable" end.
Definition plan_action (s : VersionStatus) (is_agent : bool) : string :=
  match s, is_agent with
  | Outdated, _ => "upgrade"
  | Current, _ => "refresh config"
  | UnknownVersion, _ => "refresh config (unparseable version)"
  | Ahead, true => "refresh config (ahead of required, binary not touched)"
  | Ahead, false => "skip (ahead of required, would downgrade)"
  | Unavailable, _ => "skip (unavailable)"
  end.
Definition summary_result (s : VersionStatus) (outcome : option (result string string)) : string :=
  match s, outcome with
  | Unavailable, _ => "unavailable"
  | _, Some (Ok detail) => detail
  | _, Some (Err error) => "failed: " +:+ error
  | _, None => "not attempted"
  end.

(** What became of a component, by server. *)
Abbreviation ComponentOutcomes := (gmap string (result string string)).
(** [insert] of each in turn. *)
Definition insert_all {A} (m : gmap string A) (l : list (string * A)) : gmap string A := foldl (λ m e, <[e.1 := e.2]> m) m l.
(** [entry(name).or_insert(outcome)]. *)
Definition or_insert (m : ComponentOutcomes) (name : string) (outcome : result string string) : ComponentOutcomes :=
  match m !! name with Some _ => m | None => <[name := outcome]> m end.

Definition is_unavailable (s : VersionStatus) : bool := bool_decide (s = Unavailable).
Definition is_ahead (s : VersionStatus) : bool := bool_decide (s = Ahead).

Section upgrade.
Context `{ContentHash MembershipRecord, ContentHash CatalogRecord, ContentHash DesiredStateRecord, Labels}.
Context `{Host, MembershipText, Sha256, Connector, Redial, FloatText, Operator, RouteJson, ProxyBuild, LockJson, LocalTime}.
Context `{AgentBuild, LocalFiles} (config : Config) (p : NetworkPlan).
Context (links : string → AgentLink) (ask : option (string → result string bool)) (error_text : MembershipError → string).
(** The machine of the operator: environment, own file, local programs, the bytes of a file. *)
Context (env_var : string → option string) (current_exe : option string) (run_captured : string → list string → result string CommandResult).
Context (read_binary : string → result string string) (config_path : string) (lock_info : string → LockInfo) (elapsed : N).
Let project := config_project config.
Let engine := builder_engine (config_builder config).

(** *** What runs *)

Definition read_agent_version `{AgentLink} : M string :=
  response ← call None Health;
  match response with
  | HealthIs _ _ version => mret version
  | other => fail ("agent returned an unexpected response: " +:+ response_debug other)
  end.
Definition read_proxy_version : M string :=
  r ← execute (render_version_command engine);
  if success r then mret (trim (stdout r)) else fail (trim (stderr r)).
Definition read_host (name : string) : F (string * HostRead) :=
  agent ← on name (@read_agent_version (links name));
  proxy ← on name read_proxy_version;
  mret (name, {| hr_agent := classify agent AGENT_BUILD_VERSION; hr_proxy := classify proxy PROXY_VERSION |}).

(** *** The agents *)

(** The binary a server gets, and whether its own download changed it; or why it gets none. *)
Definition binary_for (source : AgentBinarySource) (script : option string) (status : VersionStatus) (name : string) :
    F (result string (option string * bool)) :=
  match source, status with
  | LocalBinary path, (Current | Outdated) => mret (Ok (Some path, false))
  | Managed _, Outdated =>
      script ← expect_script script;
      r ← on name (execute script);
      mret (match r with
            | Ok r => if success r then Ok (None, remote_install_script_changed_binary (stdout r)) else Err (download_failed r)
            | Err error => Err error
            end)
  | _, _ => mret (Ok (None, false))
  end.
Definition agent_detail (status : VersionStatus) (found : option string) (changed : bool) (result : AgentStatus) : string :=
  let upgraded := "upgraded " +:+ describe_found found +:+ " -> v" +:+ AGENT_BUILD_VERSION in
  match status, result with
  | Outdated, Upgraded => upgraded
  | Outdated, Installed => if changed then upgraded else "installed"
  | Outdated, AgentAlreadyRunning => if changed then upgraded else "already current, config refreshed"
  | UnknownVersion, _ => "has an unparseable version, config refreshed (binary not touched)"
  | _, Installed => "installed"
  | _, Upgraded => "binary upgraded"
  | _, AgentAlreadyRunning => "already current, config refreshed"
  end.
Definition upgrade_agent (source : AgentBinarySource) (script : option string) (records : list MembershipRecord)
    (agent_reads : gmap string ComponentRead) (target : string * NodeConfig) : F (string * result string string) :=
  let '(name, mesh) := target in
  let status := default UnknownVersion (cr_status <$> agent_reads !! name) in
  binary ← binary_for source script status name;
  match binary with
  | Err error => mret (name, Err error)
  | Ok (binary, changed) =>
      r ← on name (ensure_agent engine project (read_binary <$> binary) (mesh_json mesh) (membership_json records));
      match r with
      | Err error => mret (name, Err error)
      | Ok result =>
          pushed ← on name (push_membership project records);
          mret (name, match pushed with
                      | Err error => Err error
                      | Ok _ => Ok (agent_detail status (agent_reads !! name ≫= cr_found) changed result)
                      end)
      end
  end.

(** The servers with a session that got nothing so far are told of the members. *)
Fixpoint tell_others (skipped : gset string) (records : list MembershipRecord) (outcomes : ComponentOutcomes) (names : list string) :
    F ComponentOutcomes :=
  match names with
  | [] => mret outcomes
  | name :: names =>
      outcomes ← (if bool_decide (name ∈ skipped) then mret outcomes
                  else pushed ← on name (push_membership project records);
                       mret (or_insert outcomes name (match pushed with Ok _ => Ok "membership refreshed" | Err error => Err error end)));
      tell_others skipped records outcomes names
  end.
Definition push_problem (error : string) : string := "could not push membership to the rest of the mesh: " +:+ error.

Definition upgrade_agents (targets : list string) (lock_sessions : gset string) (agent_reads : gmap string ComponentRead)
    (ahead_names : gset string) : F (ComponentOutcomes * list string) :=
  '(source, script) ← of_f (resolve_agent_binary_source env_var current_exe run_captured project
                              "jiji server upgrade requires the authoritative jiji agent");
  recovery_epoch ← of_f (read_recovery_epoch config_path);
  let scope := {| scope_project_id := project; scope_recovery_epoch := recovery_epoch |} in
  view ← gather_membership_view config lock_sessions lock_sessions scope;
  '(prepared, records, enroll_failures) ← enroll_agent_targets config p error_text targets recovery_epoch scope view;
  let outcomes := insert_all ∅ ((λ f : string * string, (f.1, Err f.2)) <$> enroll_failures) in
  results ← mapF (upgrade_agent source script records agent_reads) prepared;
  let outcomes := insert_all outcomes results in
  outcomes ← tell_others (list_to_set (fst <$> prepared) ∪ ahead_names) records outcomes (btree_elems lock_sessions);
  pushed ← attempts (push_membership_everywhere config records lock_sessions);
  mret (outcomes, match pushed with Ok _ => [] | Err error => [push_problem error] end).

(** *** The proxies *)

Definition upgrade_proxy (proxy_status : gmap string VersionStatus) (name : string) : F (string * result string string) :=
  let status := default UnknownVersion (proxy_status !! name) in
  if is_ahead status then mret (name, Ok "is ahead of required version, not upgraded")
  else
    server_plan ← index (np_servers p) name;
    network ← of_f (proxy_network p server_plan);
    let force := bool_decide (status = Outdated) in
    r ← on name (ensure_proxy engine network force);
    mret (name, match r with
                | Ok ProxyAlreadyRunning => Ok "already current"
                | Ok ProxyStarted => Ok (if force then "upgraded, now v" +:+ PROXY_VERSION else "started")
                | Err error => Err error
                end).
Definition upgrade_proxies (targets : list string) (proxy_status : gmap string VersionStatus) : F ComponentOutcomes :=
  results ← mapF (upgrade_proxy proxy_status) targets;
  mret (insert_all ∅ results).

(** *** The command *)

Definition component_message (component : string) (status : VersionStatus) (outcome : option (result string string)) : string :=
  if is_unavailable status then component +:+ " unavailable"
  else match outcome with
  | Some (Ok detail) => component +:+ " " +:+ detail
  | Some (Err error) => component +:+ " failed: " +:+ error
  | None => component +:+ " not attempted"
  end.
Definition failed_outcome (outcome : option (result string string)) : bool :=
  match outcome with Some (Err _) => true | _ => false end.
Definition audit_component (name component : string) (status : VersionStatus) (outcome : option (result string string)) : F () :=
  _ ← on name (record project "server_upgrade" (if failed_outcome outcome || is_unavailable status then AuditFailed else AuditSuccess)
                 (component_message component status outcome) (Some (scope_to_string HostRuntime)) None (Some elapsed));
  mret ().
Definition audit_host (reads : gmap string HostRead) (agents proxies : ComponentOutcomes) (name : string) : F () :=
  read ← index reads name;
  _ ← audit_component name "jiji-agent" (cr_status (hr_agent read)) (agents !! name);
  audit_component name "jiji-proxy" (cr_status (hr_proxy read)) (proxies !! name).

(** The agents that are neither out of reach nor ahead, and what becomes of all. *)
Definition agents_to_upgrade (reads : gmap string HostRead) : gmap string ComponentRead :=
  hr_agent <$> filter (λ e, negb (is_unavailable (cr_status (hr_agent e.2))) && negb (is_ahead (cr_status (hr_agent e.2))) = true) reads.
Definition agents_ahead (reads : gmap string HostRead) : gmap string HostRead :=
  filter (λ e, is_ahead (cr_status (hr_agent e.2)) = true) reads.
Definition not_touched (read : HostRead) : string :=
  "is ahead of required v" +:+ AGENT_BUILD_VERSION +:+ " (found " +:+ describe_found (cr_found (hr_agent read)) +:+ "); not touched".
Definition agent_phase (reachable : list string) (sessions : gset string) (reads : gmap string HostRead) : F (ComponentOutcomes * list string) :=
  let agent_reads := agents_to_upgrade reads in
  let targets := filter (λ n, n ∈ dom agent_reads) reachable in
  '(outcomes, problems) ← (if bool_decide (targets = []) then mret (∅, [])
                           else upgrade_agents targets sessions agent_reads (dom (agents_ahead reads)));
  mret (foldl (λ m (e : string * HostRead), or_insert m e.1 (Ok (not_touched e.2))) outcomes (btree_list (agents_ahead reads)), problems).
Definition proxy_phase (reachable : list string) (reads : gmap string HostRead) : F ComponentOutcomes :=
  let proxy_status := filter (λ e, negb (is_unavailable e.2) = true) ((λ r, cr_status (hr_proxy r)) <$> reads) in
  upgrade_proxies (filter (λ n, n ∈ dom proxy_status) reachable) proxy_status.

Definition any_outdated (reads : gmap string HostRead) : bool :=
  existsb (λ r, bool_decide (cr_status (hr_agent r) = Outdated) || bool_decide (cr_status (hr_proxy r) = Outdated)) (btree_values reads).
Definition confirm_upgrade (yes : bool) (reads : gmap string HostRead) : F () :=
  if any_outdated reads
  then confirmed ask yes "Proceed with upgrading these components?" "the upgrade" "Server upgrade cancelled: not confirmed." else mret ().
(** What is done while the locks are held: what is read, and what became of the components. *)
Definition upgrade_locked (yes : bool) (reachable : list string) (sessions : gset string) (reads : gmap string HostRead) :
    F (gmap string HostRead * ComponentOutcomes * ComponentOutcomes * list string) :=
  found ← mapF read_host reachable;
  let reads := insert_all reads found in
  _ ← confirm_upgrade yes reads;
  '(agents, problems) ← agent_phase reachable sessions reads;
  proxies ← proxy_phase reachable reads;
  _ ← each (audit_host reads agents proxies) (btree_elems sessions);
  mret (reads, agents, proxies, problems).

Definition host_failed (agents proxies : ComponentOutcomes) (e : string * HostRead) : bool :=
  is_unavailable (cr_status (hr_agent e.2)) || is_unavailable (cr_status (hr_proxy e.2))
  || failed_outcome (agents !! e.1) || failed_outcome (proxies !! e.1).
Definition not_clean : string := "Server upgrade did not complete cleanly for every host; see the summary above.".

(** [run] from the plan on. *)
Definition upgrade_servers (hosts services : option string) (yes : bool) : F () :=
  if bool_decide (is_Some services)
  then stops ("`jiji server upgrade` does not accept -S/--services: it upgrades host-level components shared across every service, "
              +:+ "not per-service state. Use -H/--hosts to select servers instead.")
  else
    _ ← require_ssh config ("No `ssh:` section configured in " +:+ config_path
                            +:+ ". Add at least `ssh.user:` before running server upgrade.");
    if bool_decide (config_servers config = []) then stops ("No servers are configured in " +:+ config_path +:+ ".")
    else
      target_names ← of_f (selected_host_names p hosts);
      let names := filter (λ n, n ∈ target_names) (server_names_sorted config) in
      _ ← all_options config names;
      let reachable := filter (λ n, is_ok (connect_for_setup n) = true) names in
      let reads := insert_all ∅ ((λ f : string * string, (f.1, unreachable_host)) <$> refusals names) in
      if bool_decide (reachable = []) then stops "Could not connect to any server; see the errors above"
      else
        let sessions := list_to_set reachable in
        owned ← acquire_locks sessions project ((λ n, {| req_scope := HostRuntime; req_host := n |}) <$> reachable)
                  (lock_info ("jiji server upgrade: " +:+ String.concat ", " reachable)) 300 false;
        upgraded ← attempts (upgrade_locked yes reachable sessions reads);
        released ← attempts (release_locks sessions project owned);
        match upgraded, released with
        | Ok (reads, agents, proxies, problems), Ok _ =>
            if negb (bool_decide (problems = [])) || existsb (host_failed agents proxies) (btree_list reads) then stops not_clean else mret ()
        | Err error, Ok _ => stops error
        | Ok _, Err release_error => stops release_error
        | Err _, Err release_error => stops ("Additionally, " +:+ release_error)
        end.
End upgrade.
