(* ===== verification/UpgradeLaws.v ===== *)
(** What an upgrade of servers does: an agent ahead of the command is only read, and an upgrade that
    ends well has reached every server it was to reach. *)

From S2P Require Import Prelude Text Bytes Substring Cidr Naming Schema Planner ServiceRuntime.
From S2P Require Import Membership Catalog Desired OpLog Leases Cron CronExec Replication Store Api CandidatePlan EnvResolution.
From S2P Require Import Locks Session Daemon ProxyRoutes SessionLaws Transaction ProxyScript HostProxy AuditTrail Teardown TeardownLaws Cascade.
From S2P Require Import Fleet FleetLaws FleetLogs LockSession NetworkSetup NetworkApply Services CommandLogs EngineInstall ServerSetup ServerUpgrade.
Open Scope N_scope.

(** ** One server among others *)

Section spares.
Context `{Host} (server : string) (P : Event → Prop).

(** All that a program does on [server] is [P]. *)
Definition spares {A} (m : F A) : Prop := ∀ fl, Since fl (λ n l, n = server → Forall P l) (m fl).2.

Lemma spares_stay {A} (m : F A) : (∀ fl, (m fl).2 = fl) → spares m.
Proof. intros Hm fl. rewrite Hm. eapply Since_impl; [|apply Since_now]. intros n l -> _. constructor. Qed.
Lemma spares_ret {A} (a : A) : spares (mret a).
Proof. by apply spares_stay. Qed.
Lemma spares_stops {A} e : spares (stops e : F A).
Proof. by apply spares_stay. Qed.
Lemma spares_of_f {A} (r : result string A) : spares (of_f r).
Proof. apply spares_stay. by destruct r. Qed.
Lemma spares_panics {A} (o : outcome A) : spares (panics o).
Proof. apply spares_stay. by destruct o. Qed.
Lemma spares_index {A} (m : gmap string A) n : spares (index m n).
Proof. apply spares_stay. intros fl. unfold index. by destruct (m !! n). Qed.
(** What follows is of a value the program returns. *)
Lemma spares_bind_fine {A B} (m : F A) (f : A → F B) :
  spares m → (∀ fl a fl', m fl = (Fine a, fl') → spares (f a)) → spares (m ≫= f).
Proof.
  intros Hm Hf fl. specialize (Hm fl). unfold mbind, F_bind. destruct (m fl) as [[a| | |] fl1] eqn:Hr; try done.
  eapply Since_twice; [|exact Hm|by eapply Hf]. intros n l l' Hl Hl' Hn. apply Forall_app. auto.
Qed.
Lemma spares_bind {A B} (m : F A) (f : A → F B) : spares m → (∀ a, spares (f a)) → spares (m ≫= f).
Proof. intros Hm Hf. apply spares_bind_fine; auto. Qed.
Lemma spares_attempts {A} (m : F A) : spares m → spares (attempts m).
Proof. intros Hm fl. specialize (Hm fl). unfold attempts. by destruct (m fl) as [[a| | |] fl1]. Qed.
Lemma spares_on {A} n (m : M A) : extends (λ l, n = server → Forall P l) m → spares (on n m).
Proof.
  intros Hm fl. pose proof (on_spec n m fl) as Ho. destruct (on n m fl) as [r fl'].
  destruct Ho as [(_ & _ & ->)|(w & Hw & -> & _)]; simpl.
  { eapply Since_impl; [|apply Since_now]. intros k l -> _. constructor. }
  intros k w0 Hk. destruct (decide (k = n)) as [->|Hne]; [|exists w0, []; rewrite lookup_insert_ne by done; by split_and!].
  rewrite Hw in Hk. injection Hk as <-. destruct (Hm w) as (l & Hl & HP). exists (m w).2, l. by rewrite lookup_insert_eq.
Qed.
Lemma spares_on_other {A} n (m : M A) : n ≠ server → quiet m → spares (on n m).
Proof. intros Hn Hq. apply spares_on. intros w. destruct (Hq w) as [_ (l & Hl & _)]. by exists l. Qed.
Lemma spares_mapF {A B} (f : A → F B) l : (∀ a, a ∈ l → spares (f a)) → spares (mapF f l).
Proof.
  induction l as [|a l IH]; intros Hf; simpl; [apply spares_ret|]. apply spares_bind; [apply Hf, list_elem_of_here|intros b].
  apply spares_bind; [|intros bs; apply spares_ret]. apply IH. intros. by apply Hf, list_elem_of_further.
Qed.
Lemma spares_each {A} (f : A → F ()) l : (∀ a, a ∈ l → spares (f a)) → spares (Fleet.each f l).
Proof.
  induction l as [|a l IH]; intros Hf; simpl; [apply spares_ret|]. apply spares_bind; [apply Hf, list_elem_of_here|intros b].
  apply IH. intros. by apply Hf, list_elem_of_further.
Qed.
End spares.

(** ** An agent that is ahead *)

Section ahead.
Context `{ContentHash MembershipRecord, Host, MembershipText, Sha256, Connector, Redial}.
Context `{AgentBuild, LocalFiles} (config : Config) (p : NetworkPlan).
Context (error_text : MembershipError → string).
Context (env_var : string → option string) (current_exe : option string) (run_captured : string → list string → result string CommandResult).
Context (read_binary : string → result string string) (config_path : string).
Let project := config_project config.
Let engine := builder_engine (config_builder config).

(** The export of the members an agent knows. *)
Definition exports (e : Event) : Prop := ∃ outcome, e = Executed (export_command project) "" outcome.

Context (server : string).

Lemma quiet_push records : quiet (push_membership project records).
Proof. unfold push_membership. quiet. Qed.
Lemma quiet_ensure_agent binary mesh membership : quiet (ensure_agent engine project binary mesh membership).
Proof. unfold ensure_agent, upload_agent_binary, is_unit_active, remote_sha256, write_remote_bytes, run_required. quiet. Qed.

Lemma extends_pull : extends (Forall exports) (pull_membership project).
Proof.
  intros w. unfold pull_membership, execute, execute_with_input, mbind, M_bind.
  destruct (exec _ _ _) as [[r|e] mc]; simpl; eexists [_]; [|split; [done|repeat constructor; by eexists]].
  destruct (negb _); [|unfold of_result; case_match]; (split; [done|repeat constructor; by eexists]).
Qed.
Lemma spares_pull_from names target_names : spares server exports (pull_from config names target_names).
Proof.
  induction names as [|name names IH]; simpl; [apply spares_ret|]. apply spares_bind.
  - case_bool_decide; [|apply spares_ret]. apply spares_bind; [|intros; apply spares_ret]. apply spares_on. intros w.
    destruct (extends_pull w) as (l & Hl & HP). by exists l.
  - intros found. apply spares_bind; [done|intros; apply spares_ret].
Qed.
Lemma spares_gather_from servers excluded : server ∈ excluded → spares server exports (gather_from config servers excluded).
Proof.
  intros Hin. induction servers as [|[name named] servers IH]; simpl; [apply spares_ret|]. apply spares_bind.
  - case_match; [apply spares_ret|]. apply spares_bind; [|intros; apply spares_ret]. apply spares_on. intros w.
    destruct (extends_pull w) as (l & Hl & HP). by exists l.
  - intros found. apply spares_bind; [done|intros; apply spares_ret].
Qed.
Lemma spares_all_options names : spares server exports (all_options config names).
Proof.
  apply spares_each. intros n _. apply spares_bind; [|intros; apply spares_of_f]. case_match; [apply spares_ret|by apply spares_stay].
Qed.
Lemma spares_push_everywhere records excluded :
  server ∈ excluded → spares server exports (push_membership_everywhere config records excluded).
Proof.
  intros Hin. apply spares_bind; [apply spares_all_options|intros _]. apply spares_bind; [|intros; apply spares_ret].
  apply spares_mapF. intros n [Hn _]%list_elem_of_filter. case_match; [|apply spares_ret].
  apply spares_bind; [|intros; apply spares_ret]. apply spares_on_other; [congruence|apply quiet_push].
Qed.

(** Enrolment reaches its targets only, and prepares no other. *)
Lemma spares_server_routes name services : spares server exports (server_routes config name services).
Proof.
  induction services as [|[service_name service] services IH]; simpl; [apply spares_ret|].
  apply spares_bind; [|intros [http tcp]; apply spares_bind; [done|intros []; apply spares_ret]].
  destruct (bool_decide _), (service_proxy service); try apply spares_ret.
  apply spares_bind; [apply spares_panics|intros ?]. apply spares_bind; [apply spares_of_f|intros ?].
  apply spares_bind; [apply spares_panics|intros ?]. apply spares_bind; [apply spares_of_f|intros ?]. apply spares_ret.
Qed.
Lemma spares_enroll_target recovery_epoch scope view name :
  name ≠ server → spares server exports (enroll_target config p error_text recovery_epoch scope view name).
Proof.
  intros Hn. unfold enroll_target. case_match; [|apply spares_ret]. apply spares_bind; [apply spares_index|intros server_plan].
  apply spares_bind.
  { apply spares_bind; [apply spares_on_other; [done|]|intros []; [apply spares_ret|apply spares_stops]]. quiet. }
  intros key. case_match; [apply spares_ret|]. apply spares_bind; [apply spares_of_f|intros endpoint]. case_match; [|apply spares_ret].
  apply spares_bind; [apply spares_of_f|intros ips]. apply spares_bind; [apply spares_server_routes|intros []]. apply spares_ret.
Qed.
Lemma spares_enroll_targets recovery_epoch scope view names :
  server ∉ names → spares server exports (enroll_targets config p error_text recovery_epoch scope view names).
Proof.
  revert view. induction names as [|name names IH]; intros view Hn; simpl; [apply spares_ret|]. apply not_elem_of_cons in Hn as [Hne Hn].
  apply spares_bind; [by apply spares_enroll_target|]. intros [view1 outcome].
  apply spares_bind; [by apply IH|]. intros [[view2 prepared] failures]. apply spares_ret.
Qed.
(** Each target is prepared or left out. *)
Lemma enroll_targets_parts recovery_epoch scope view names fl view' prepared failures fl' :
  enroll_targets config p error_text recovery_epoch scope view names fl = (Fine (view', prepared, failures), fl') →
  names ≡ₚ prepared.*1 ++ failures.*1.
Proof.
  revert view fl view' prepared failures fl'. induction names as [|name names IH]; intros view fl view' prepared failures fl'; simpl.
  { by intros [= <- <- <- <-]. }
  unfold mbind at 1, F_bind at 1. destruct (enroll_target _ _ _ _ _ _ _ fl) as [[[view1 outcome]| | |] fl1]; try done.
  unfold mbind at 1, F_bind at 1. destruct (enroll_targets _ _ _ _ _ _ _ fl1) as [[[[view2 prepared2] failures2]| | |] fl2] eqn:Hr; try done.
  apply IH in Hr. destruct outcome; intros [= <- <- <- <-]; simpl; rewrite Hr; [done|by rewrite Permutation_middle].
Qed.
Lemma enroll_agent_targets_parts names recovery_epoch scope view fl prepared records failures fl' :
  enroll_agent_targets config p error_text names recovery_epoch scope view fl = (Fine (prepared, records, failures), fl') →
  names ≡ₚ prepared.*1 ++ failures.*1.
Proof.
  unfold enroll_agent_targets. unfold mbind at 1, F_bind at 1. destruct (all_options _ _ fl) as [[[]| | |] fl1]; try done.
  unfold mbind at 1, F_bind at 1. destruct (enroll_targets _ _ _ _ _ _ _ fl1) as [[[[view2 prepared2] failures2]| | |] fl2] eqn:Hr; try done.
  intros [= <- <- <- <-]. by apply enroll_targets_parts in Hr.
Qed.

Lemma spares_upgrade_agent source script records reads target :
  target.1 ≠ server → spares server exports (upgrade_agent config read_binary source script records reads target).
Proof.
  destruct target as [name mesh]. simpl. intros Hn. apply spares_bind.
  { unfold binary_for. repeat case_match; try apply spares_ret. apply spares_bind; [apply spares_panics|intros ?].
    apply spares_bind; [apply spares_on_other; [done|quiet]|intros; apply spares_ret]. }
  intros [[binary changed]|e]; [|apply spares_ret]. apply spares_bind; [apply spares_on_other; [done|apply quiet_ensure_agent]|].
  intros [result|e]; [|apply spares_ret]. apply spares_bind; [apply spares_on_other; [done|apply quiet_push]|intros; apply spares_ret].
Qed.
Lemma spares_tell_others skipped records outcomes names :
  server ∈ skipped → spares server exports (tell_others config skipped records outcomes names).
Proof.
  intros Hin. revert outcomes. induction names as [|name names IH]; intros outcomes; simpl; [apply spares_ret|].
  apply spares_bind; [|auto]. case_bool_decide; [apply spares_ret|]. apply spares_bind; [|intros; apply spares_ret].
  apply spares_on_other; [congruence|apply quiet_push].
Qed.
Lemma spares_upgrade_agents targets sessions reads ahead_names :
  server ∉ targets → server ∈ sessions → server ∈ ahead_names →
  spares server exports (upgrade_agents config p error_text env_var current_exe run_captured read_binary config_path targets sessions reads ahead_names).
Proof.
  intros Ht Hs Ha. apply spares_bind; [apply spares_of_f|intros [source script]]. apply spares_bind; [apply spares_of_f|intros recovery_epoch].
  apply spares_bind.
  { apply spares_bind; [apply spares_pull_from|intros pulled]. apply spares_bind; [by apply spares_gather_from|intros; apply spares_ret]. }
  intros view. apply spares_bind_fine.
  { apply spares_bind; [apply spares_all_options|intros _]. apply spares_bind; [by apply spares_enroll_targets|].
    intros [[? ?] ?]. apply spares_ret. }
  intros fl [[prepared records] failures] fl' Henroll%enroll_agent_targets_parts. rewrite Henroll in Ht.
  apply spares_bind.
  { apply spares_mapF. intros [name mesh] Hin. apply spares_upgrade_agent. simpl. intros ->. apply Ht, elem_of_app. left.
    by apply (list_elem_of_fmap_2 fst) in Hin. }
  intros results. apply spares_bind; [apply spares_tell_others; set_solver|intros outcomes].
  apply spares_bind; [by apply spares_attempts, spares_push_everywhere|]. intros; apply spares_ret.
Qed.

(** C21: An agent newer than the command is never touched.  When the versions that were read put a
    connected server's agent ahead of the version this command was built with, then whatever the
    phase of the agents does with the other servers, and however it ends, all it does on that server
    is to ask it for the members it knows: no binary, configuration, unit or membership is written
    there and its agent is not restarted. *)
Theorem agent_ahead_is_only_read reachable sessions reads read fl w0 :
  server ∈ sessions → reads !! server = Some read → cr_status (hr_agent read) = Ahead → fl !! server = Some w0 →
  ∃ w l, (agent_phase config p error_text env_var current_exe run_captured read_binary config_path reachable sessions reads fl).2 !! server = Some w ∧
    w_log w = l ++ w_log w0 ∧ Forall exports l.
Proof.
  intros Hs Hr Ha Hw0.
  assert (spares server exports (agent_phase config p error_text env_var current_exe run_captured read_binary config_path reachable sessions reads)) as Hsp.
  { apply spares_bind; [|intros []; apply spares_ret]. case_bool_decide; [apply spares_ret|]. apply spares_upgrade_agents.
    - intros [[v Hin]%elem_of_dom _]%list_elem_of_filter. unfold agents_to_upgrade in Hin. rewrite lookup_fmap in Hin.
      destruct (filter _ reads !! server) as [read'|] eqn:Hf; [|done]. apply map_lookup_filter_Some in Hf as [Hf Hst]. simplify_eq/=.
      rewrite Ha in Hst. by rewrite andb_false_r in Hst.
    - done.
    - apply elem_of_dom. exists read. apply map_lookup_filter_Some. split; [done|]. simpl. by rewrite Ha. }
  destruct (Hsp fl server w0 Hw0) as (w & l & Hw & Hl & HP). exists w, l. auto.
Qed.
End ahead.

(** ** An upgrade that ends well *)

Lemma monotone_if (Q : Prop) (P : list Event → Prop) : monotone P → monotone (λ l, Q → P l).
Proof. intros HP l l' Hs Hl HQ. by eapply HP, Hl. Qed.
Lemma monotone_and (P Q : list Event → Prop) : monotone P → monotone Q → monotone (λ l, P l ∧ Q l).
Proof. intros HP HQ l l' Hs [Hp Hq]. split; [by eapply HP|by eapply HQ]. Qed.
Lemma monotone_or (P Q : list Event → Prop) : monotone P → monotone Q → monotone (λ l, P l ∨ Q l).
Proof. intros HP HQ l l' Hs [Hp|Hq]; [left; by eapply HP|right; by eapply HQ]. Qed.
Lemma monotone_const (Q : Prop) : monotone (λ _, Q).
Proof. by intros l l'. Qed.
Lemma monotone_ex {A} (P : A → list Event → Prop) : (∀ a, monotone (P a)) → monotone (λ l, ∃ a, P a l).
Proof. intros HP l l' Hs [a Ha]. exists a. by eapply HP. Qed.
Lemma monotone_all {A} (P : A → list Event → Prop) : (∀ a, monotone (P a)) → monotone (λ l, ∀ a, P a l).
Proof. intros HP l l' Hs Ha a. by eapply HP. Qed.
Lemma monotone_in e : monotone (λ l, e ∈ l).
Proof. intros l l' Hs He. by apply Hs. Qed.
#[export] Hint Resolve monotone_if monotone_and monotone_or monotone_const monotone_ex monotone_all monotone_in answered_monotone accepted_monotone : monotone.

Section ends.
Context `{Host}.

(** What [m] has left in the log when it returns. *)
Definition ends {A} (m : M A) (Q : A → list Event → Prop) : Prop :=
  ∀ w, ∃ l, w_log (m w).2 = l ++ w_log w ∧ match (m w).1 with Fine a => Q a l | _ => True end.

Lemma ends_quiet {A} (m : M A) : quiet m → ends m (λ _ _, True).
Proof. intros Hq w. destruct (Hq w) as [_ (l & Hl & _)]. exists l. split; [done|]. by destruct (m w).1. Qed.
Lemma ends_return {A} (a : A) : ends (mret a) (λ b _, b = a).
Proof. intros w. by exists []. Qed.
Lemma ends_fail {A} e Q : ends (fail e : M A) Q.
Proof. intros w. by exists []. Qed.
Lemma ends_of_result {A} (r : result string A) : ends (of_result r) (λ a _, r = Ok a).
Proof. destruct r; [|apply ends_fail]. intros w. by exists []. Qed.
Lemma ends_impl {A} (m : M A) (Q R : A → list Event → Prop) : ends m Q → (∀ a l, Q a l → R a l) → ends m R.
Proof. intros Hm HQ w. destruct (Hm w) as (l & Hl & Hr). exists l. split; [done|]. destruct (m w).1; auto. Qed.
Lemma ends_seq {A B} (m : M A) Q (f : A → M B) (R : A → B → list Event → Prop) :
  ends m Q → (∀ a, ends (f a) (R a)) → ends (m ≫= f) (λ b l, ∃ a l1 l2, l = l2 ++ l1 ∧ Q a l1 ∧ R a b l2).
Proof.
  intros Hm Hf w. destruct (Hm w) as (l & Hl & Hr). unfold mbind, M_bind. destruct (m w) as [[a| | |] w']; simpl in *; [|by exists l..].
  destruct (Hf a w') as (l' & Hl' & Hr'). exists (l' ++ l). rewrite Hl', Hl, (assoc_L (++)). split; [done|].
  destruct (f a w').1; [|done..]. by exists a, l, l'.
Qed.
Lemma ends_bind_ret {A B} (a : A) (f : A → M B) Q : ends (f a) Q → ends (mret a ≫= f) Q.
Proof. done. Qed.
(** The first part is what is known, or the second. *)
Lemma ends_first {A B} (m : M A) Q (f : A → M B) (R : list Event → Prop) :
  monotone R → ends m Q → (∀ a l, Q a l → R l) → (∀ a, quiet (f a)) → ends (m ≫= f) (λ _, R).
Proof.
  intros HR Hm HQ Hf. eapply ends_impl; [eapply ends_seq; [exact Hm|]; intros a; by apply ends_quiet|].
  intros b l (a & l1 & l2 & -> & Ha & _). eapply HR; [apply subseteq_app_r|by eapply HQ].
Qed.
Lemma ends_last {A B} (m : M A) (f : A → M B) (R : B → list Event → Prop) :
  (∀ b, monotone (R b)) → quiet m → (∀ a, ends (f a) R) → ends (m ≫= f) R.
Proof.
  intros HR Hm Hf. eapply ends_impl; [eapply ends_seq; [by apply ends_quiet|exact Hf]|].
  intros b l (a & l1 & l2 & -> & _ & Hb). eapply HR; [apply subseteq_app_l|done].
Qed.
Lemma ends_execute c i : ends (execute_with_input c i) (λ r l, Executed c i (Ok r) ∈ l).
Proof.
  intros w. unfold execute_with_input. destruct (exec c i (w_machine w)) as [[r|e] mc]; eexists [_]; (split; [reflexivity|]); [|done].
  apply list_elem_of_here.
Qed.
(** Both parts leave what they leave. *)
Lemma ends_both {A B} (m : M A) Q (f : A → M B) (R : A → B → list Event → Prop) :
  (∀ a, monotone (Q a)) → (∀ a b, monotone (R a b)) → ends m Q → (∀ a, ends (f a) (R a)) →
  ends (m ≫= f) (λ b l, ∃ a, Q a l ∧ R a b l).
Proof.
  intros HQ HR Hm Hf. eapply ends_impl; [by eapply ends_seq|]. intros b l (a & l1 & l2 & -> & Ha & Hb). exists a.
  split; [eapply HQ; [apply subseteq_app_r|done]|eapply HR; [apply subseteq_app_l|done]].
Qed.
Lemma ends_and {A} (m : M A) (Q R : A → list Event → Prop) : ends m Q → ends m R → ends m (λ a l, Q a l ∧ R a l).
Proof.
  intros HQ HR w. destruct (HQ w) as (l & Hl & Hq), (HR w) as (l' & Hl' & Hr). exists l. split; [done|].
  rewrite Hl in Hl'. apply (inj (λ l, l ++ w_log w)) in Hl' as <-. destruct (m w).1; auto.
Qed.
(** A command that succeeded on an input. *)
Definition wrote (c input : string) (l : list Event) : Prop := ∃ r, Executed c input (Ok r) ∈ l ∧ success r = true.
Lemma wrote_monotone c i : monotone (wrote c i).
Proof. apply monotone_ex. intros r. apply monotone_and; [apply monotone_in|apply monotone_const]. Qed.
Lemma wrote_answered c i l : wrote c i l → answered true c l.
Proof. intros (r & Hin & Hs). by exists i, r. Qed.
(** A command that has to succeed. *)
Lemma ends_wrote {A} c i (fine : CommandResult → M A) (failed : CommandResult → string) :
  (∀ r, quiet (fine r)) →
  ends (r ← execute_with_input c i; if success r then fine r else fail (failed r)) (λ _, wrote c i).
Proof.
  intros Hq w. destruct (ends_execute c i w) as (l & Hl & Hr). unfold mbind, M_bind.
  destruct (execute_with_input c i w) as [[r| | |] w']; simpl in *; [|by exists l..]. destruct (success r) eqn:Hs; [|by exists l].
  destruct (Hq r w') as [_ (l' & Hl' & _)]. exists (l' ++ l). rewrite Hl', Hl, (assoc_L (++)). split; [done|].
  destruct (fine r w').1; [|done..]. exists r. split; [|done]. apply elem_of_app. by right.
Qed.
Lemma ends_checked {A} c i (fine : CommandResult → M A) (failed : CommandResult → string) :
  (∀ r, quiet (fine r)) →
  ends (r ← execute_with_input c i; if success r then fine r else fail (failed r)) (λ _, answered true c).
Proof. intros Hq. eapply ends_impl; [by apply ends_wrote|]. intros a l. apply wrote_answered. Qed.
Lemma on_fine {A} n (m : M A) Q fl r fl' :
  ends m Q → on n m fl = (Fine r, fl') → Since fl (λ k l, k = n → match r with Ok a => Q a l | Err _ => True end) fl'.
Proof.
  intros Hm Hr. pose proof (on_spec n m fl) as Ho. rewrite Hr in Ho. destruct Ho as [(_ & ? & _)|(w & Hw & -> & Ho)]; [done|].
  intros k w0 Hk. destruct (decide (k = n)) as [->|Hne]; [|exists w0, []; rewrite lookup_insert_ne by done; by split_and!].
  rewrite Hw in Hk. injection Hk as <-. destruct (Hm w) as (l & Hl & HQ). exists (m w).2, l. rewrite lookup_insert_eq. split_and!; [done..|].
  intros _. destruct r; [|done]. destruct (m w) as [[c| | |] w']; simplify_eq/=; done.
Qed.
End ends.

Lemma inserted_lookup {A} (m : gmap string A) l k v :
  insert_all m l !! k = Some v → (k, v) ∈ l ∨ k ∉ l.*1 ∧ m !! k = Some v.
Proof.
  revert m. induction l as [|[k' v'] l IH]; intros m; simpl; [right; split; [set_solver|done]|].
  intros [Hin|[Hn Hm]]%IH; [left; by apply list_elem_of_further|]. destruct (decide (k' = k)) as [->|Hne].
  - rewrite lookup_insert_eq in Hm. simplify_eq. left. apply list_elem_of_here.
  - rewrite lookup_insert_ne in Hm by done. right. split; [set_solver|done].
Qed.
Lemma insert_all_out {A} (m : gmap string A) l k : k ∉ l.*1 → insert_all m l !! k = m !! k.
Proof.
  revert m. induction l as [|[k' v'] l IH]; intros m Hn; simpl; [done|]. simpl in Hn. apply not_elem_of_cons in Hn as [Hne Hn].
  unfold insert_all in *. rewrite IH by done. by rewrite lookup_insert_ne by done.
Qed.
Lemma insert_all_in {A} (m : gmap string A) l k : k ∈ l.*1 ∨ is_Some (m !! k) → is_Some (insert_all m l !! k).
Proof.
  revert m. induction l as [|[k' v'] l IH]; intros m Hk; simpl in *; [set_solver|]. apply IH.
  destruct (decide (k' = k)) as [->|Hne]; [right; by rewrite lookup_insert_eq|]. rewrite lookup_insert_ne by done. set_solver.
Qed.

Lemma answered_within b c l l' : answered b c l → l ⊆ l' → answered b c l'.
Proof. intros Ha Hs. by eapply answered_monotone. Qed.
Lemma Since_before `{Host} (P : string → list Event → Prop) fl fl1 fl2 :
  (∀ n, monotone (P n)) → Since fl P fl1 → Since fl1 (λ _ _, True) fl2 → Since fl P fl2.
Proof. intros HP H1 H2. eapply Since_then; [|exact H1|exact H2]. intros n l l' Hl _. eapply HP, Hl. apply subseteq_app_r. Qed.
Lemma Since_behind `{Host} (P : string → list Event → Prop) fl fl1 fl2 :
  (∀ n, monotone (P n)) → Since fl (λ _ _, True) fl1 → Since fl1 P fl2 → Since fl P fl2.
Proof. intros HP H1 H2. eapply Since_then; [|exact H1|exact H2]. intros n l l' _ Hl. eapply HP, Hl. apply subseteq_app_l. Qed.
(** A property of what one program leaves, and one of what the next leaves. *)
Lemma Since_both `{Host} (P Q : string → list Event → Prop) fl fl1 fl2 :
  (∀ n, monotone (P n)) → (∀ n, monotone (Q n)) → Since fl P fl1 → Since fl1 Q fl2 → Since fl (λ n l, P n l ∧ Q n l) fl2.
Proof.
  intros HP HQ H1 H2. apply Since_and.
  - eapply Since_before; [done|exact H1|]. by eapply Since_impl.
  - eapply Since_behind; [done| |exact H2]. by eapply Since_impl.
Qed.

Section reaches.
Context `{ContentHash MembershipRecord, ContentHash CatalogRecord, ContentHash DesiredStateRecord, Labels}.
Context `{Host, MembershipText, Sha256, Connector, Redial, FloatText, Operator, RouteJson, ProxyBuild, LockJson, LocalTime}.
Context `{AgentBuild, LocalFiles} (config : Config) (p : NetworkPlan).
Context (links : string → AgentLink) (ask : option (string → result string bool)) (error_text : MembershipError → string).
Context (env_var : string → option string) (current_exe : option string) (run_captured : string → list string → result string CommandResult).
Context (read_binary : string → result string string) (config_path : string) (lock_info : string → LockInfo) (elapsed : N).
Let project := config_project config.
Let engine := builder_engine (config_builder config).

(** The agent was started with a new configuration and told of the members of the mesh. *)
Definition agent_runs (l : list Event) : Prop :=
  answered true (start_agent_command (default_for_project project) project) l ∧ answered true (import_command project) l.
Lemma agent_runs_monotone : monotone agent_runs.
Proof. unfold agent_runs. auto with monotone. Qed.

(** The files of an agent are written before it is started. *)
Definition file_command (mode path : string) : string := "install -D -m " +:+ mode +:+ " /dev/stdin " +:+ path.
Definition agent_files (mesh membership : string) (l : list Event) : Prop :=
  let paths := default_for_project project in
  wrote (file_command "0600" (mesh_config_path paths)) mesh l ∧
  wrote (file_command "0600" (membership_bootstrap_path paths)) membership l ∧
  wrote (file_command "0644" (unit_path paths)) (render_unit paths project engine) l.
Lemma agent_files_monotone mesh membership : monotone (agent_files mesh membership).
Proof. repeat apply monotone_and; apply wrote_monotone. Qed.
Lemma ends_agent_files binary mesh membership : ends (ensure_agent engine project binary mesh membership) (λ _, agent_files mesh membership).
Proof.
  assert (∀ A B (m : M A) (f : A → M B), quiet m → (∀ a, ends (f a) (λ _, agent_files mesh membership)) →
    ends (m ≫= f) (λ _, agent_files mesh membership)) as Hnext.
  { intros A B m f Hm Hf. apply ends_last; [intros; apply agent_files_monotone|done..]. }
  unfold ensure_agent. apply Hnext; [unfold run_required; quiet|intros _].
  apply Hnext; [unfold is_unit_active; quiet|intros was_active].
  apply Hnext; [unfold upload_agent_binary, remote_sha256, write_remote_bytes; quiet|intros uploaded].
  assert (∀ mode path content, ends (write_remote_bytes mode path content) (λ _, wrote (file_command mode path) content)) as Hwrite.
  { intros mode path content. apply (ends_wrote _ _ (λ _, mret ())). quiet. }
  set (paths := default_for_project project). set (W1 := wrote (file_command "0600" (mesh_config_path paths)) mesh).
  set (W2 := wrote (file_command "0600" (membership_bootstrap_path paths)) membership).
  set (W3 := wrote (file_command "0644" (unit_path paths)) (render_unit paths project engine)).
  assert (monotone W1 ∧ monotone W2 ∧ monotone W3) as (HW1 & HW2 & HW3) by (split_and!; apply wrote_monotone).
  eapply ends_impl; [apply (ends_both _ (λ _, W1) _ (λ _ _ l, W2 l ∧ W3 l))|by intros st l (? & ? & ? & ?)].
  - done.
  - intros. by apply monotone_and.
  - apply Hwrite.
  - intros _. eapply ends_impl; [apply (ends_both _ (λ _, W2) _ (λ _ _, W3))|by intros st l (? & ? & ?)]; [done|done|apply Hwrite|].
    intros _. apply (ends_first _ (λ _, W3)); [done|apply Hwrite|done|]. intros. unfold run_required. quiet.
Qed.

Lemma ends_ensure_agent binary mesh membership :
  ends (ensure_agent engine project binary mesh membership) (λ _, answered true (start_agent_command (default_for_project project) project)).
Proof.
  assert (∀ m (f : () → M AgentStatus), quiet m → (∀ a, ends (f a) (λ _, answered true (start_agent_command (default_for_project project) project))) →
    ends (m ≫= f) (λ _, answered true (start_agent_command (default_for_project project) project))) as Hnext.
  { intros m f Hm Hf. apply ends_last; [intros; apply answered_monotone|done..]. }
  unfold ensure_agent. apply Hnext; [unfold run_required; quiet|intros _].
  apply ends_last; [intros; apply answered_monotone|unfold is_unit_active; quiet|intros was_active].
  apply ends_last; [intros; apply answered_monotone|unfold upload_agent_binary, remote_sha256, write_remote_bytes; quiet|intros uploaded].
  do 3 (apply Hnext; [unfold write_remote_bytes; quiet|intros _]).
  eapply ends_first; [apply answered_monotone|apply ends_checked; quiet|done|quiet].
Qed.
Lemma ends_push records : ends (push_membership project records) (λ _, answered true (import_command project)).
Proof.
  unfold push_membership. apply ends_last; [intros; apply answered_monotone|quiet|]. intros r. destruct (negb _); [apply ends_fail|].
  apply (ends_checked (import_command project) "" (λ _, mret ())). quiet.
Qed.

Lemma spreads_binary source script status name : spreads (λ _, True) (binary_for source script status name).
Proof.
  unfold binary_for. repeat case_match; try (by apply spreads_ret). apply spreads_bind; [done|by apply spreads_panics|intros ?].
  apply spreads_bind; [done|apply spreads_on; [done|apply extends_quiet; [done|quiet]]|intros; by apply spreads_ret].
Qed.
Lemma spreads_upgrade_agent source script records reads target :
  spreads (λ _, True) (upgrade_agent config read_binary source script records reads target).
Proof.
  destruct target as [name mesh]. apply spreads_bind; [done|apply spreads_binary|]. intros [[binary changed]|e]; [|by apply spreads_ret].
  apply spreads_bind; [done|apply spreads_on; [done|apply extends_quiet; [done|apply quiet_ensure_agent]]|].
  intros [result|e]; [|by apply spreads_ret].
  apply spreads_bind; [done|apply spreads_on; [done|apply extends_quiet; [done|apply quiet_push]]|intros; by apply spreads_ret].
Qed.
Lemma upgrade_agent_fine source script records reads target b fl fl' :
  upgrade_agent config read_binary source script records reads target fl = (Fine b, fl') →
  Since fl (λ k l, b.1 = target.1 ∧ (k = target.1 → is_ok b.2 = true → agent_runs l)) fl'.
Proof.
  destruct target as [name mesh]. unfold upgrade_agent. unfold mbind at 1, F_bind at 1.
  pose proof (spreads_binary source script (default UnknownVersion (cr_status <$> reads !! name)) name fl) as Hb.
  destruct (binary_for _ _ _ _ fl) as [[[[binary changed]|e]| | |] fl1]; try done; simpl.
  2: { intros [= <- <-]. eapply Since_impl; [|exact Hb]. simpl. by split. }
  unfold mbind at 1, F_bind at 1. destruct (on name (ensure_agent _ _ _ _ _) fl1) as [[r| | |] fl2] eqn:Ha; try done.
  eapply on_fine in Ha; [|apply ends_ensure_agent]. destruct r as [result|e]; cycle 1.
  { intros [= <- <-]. eapply Since_then; [|exact Hb|exact Ha]. simpl. by split. }
  unfold mbind at 1, F_bind at 1. destruct (on name (push_membership _ _) fl2) as [[r| | |] fl3] eqn:Hp; try done.
  eapply on_fine in Hp; [|apply ends_push]. intros [= <- <-]. eapply Since_then; [|exact Hb|eapply Since_both; [..|exact Ha|exact Hp]].
  - intros n l l' _ [Hl1 Hl2]. split; [done|]. intros Hn Hok. destruct r; [|done]. eapply agent_runs_monotone; [apply subseteq_app_l|].
    split; auto.
  - intros n. apply monotone_if, answered_monotone.
  - intros n. apply monotone_if. destruct r; auto with monotone.
Qed.

Let T : list Event → Prop := λ _, True.
Lemma T_closed : closed T.
Proof. apply closed_true. Qed.
Hint Resolve T_closed : core.
Hint Resolve quiet_push quiet_ensure_agent : quiet.

Lemma quiet_pull : quiet (pull_membership project).
Proof. unfold pull_membership. quiet. Qed.
Hint Resolve quiet_pull : quiet.
Lemma spreads_view sessions targets scope : spreads T (gather_membership_view config sessions targets scope).
Proof.
  apply spreads_bind; [done| |intros pulled].
  { induction (btree_elems sessions) as [|name names IH]; simpl; spreads. }
  apply spreads_bind; [done| |intros; by apply spreads_ret].
  unfold gather_membership. induction (config_servers config) as [|[name named] servers IH]; simpl; spreads.
Qed.
Lemma spreads_all_options names : spreads T (all_options config names).
Proof. unfold all_options. spreads. Qed.
Lemma spreads_push_everywhere records excluded : spreads T (push_membership_everywhere config records excluded).
Proof. apply spreads_bind; [done|apply spreads_all_options|]. spreads. Qed.
Lemma spreads_enroll names recovery_epoch scope view : spreads T (enroll_agent_targets config p error_text names recovery_epoch scope view).
Proof.
  apply spreads_bind; [done|apply spreads_all_options|intros _]. apply spreads_bind; [done| |intros [[? ?] ?]; by apply spreads_ret].
  revert view. induction names as [|name names IH]; intros view; simpl; [by apply spreads_ret|].
  apply spreads_bind; [done| |intros [view1 outcome]; apply spreads_bind; [done|done|intros [[? ?] ?]; by apply spreads_ret]].
  unfold enroll_target. spreads. induction (config_services config) as [|[n s] services IHs]; simpl; spreads.
Qed.
Lemma spreads_tell skipped records outcomes names : spreads T (tell_others config skipped records outcomes names).
Proof.
  revert outcomes. induction names as [|name names IH]; intros outcomes; simpl; [by apply spreads_ret|].
  apply spreads_bind; [done|spreads|auto].
Qed.
Lemma spreads_upgrade_agents targets sessions reads ahead_names :
  spreads T (upgrade_agents config p error_text env_var current_exe run_captured read_binary config_path targets sessions reads ahead_names).
Proof.
  apply spreads_bind; [done|by apply spreads_of_f|intros [source script]]. apply spreads_bind; [done|by apply spreads_of_f|intros recovery_epoch].
  apply spreads_bind; [done|apply spreads_view|intros view]. apply spreads_bind; [done|apply spreads_enroll|intros [[prepared records] failures]].
  apply spreads_bind; [done|apply spreads_mapF; [done|intros; apply spreads_upgrade_agent]|intros results].
  apply spreads_bind; [done|apply spreads_tell|intros outcomes].
  apply spreads_bind; [done|apply spreads_attempts, spreads_push_everywhere|intros; by apply spreads_ret].
Qed.

(** The outcomes a server has already stay. *)
Lemma tell_others_fine skipped records outcomes names fl outcomes' fl' n o :
  tell_others config skipped records outcomes names fl = (Fine outcomes', fl') → outcomes !! n = Some o → outcomes' !! n = Some o.
Proof.
  revert outcomes fl. induction names as [|name names IH]; intros outcomes fl; simpl; [by intros [= <- <-]|].
  unfold mbind at 1, F_bind at 1. case_bool_decide; simpl; [by apply IH|]. unfold mbind at 1, F_bind at 1.
  destruct (on _ _ fl) as [[r| | |] fl1]; try done. simpl. intros Hr Ho. eapply IH; [exact Hr|]. unfold or_insert.
  destruct (outcomes !! name) eqn:Hn; [done|]. rewrite lookup_insert_ne; [done|congruence].
Qed.

(** A result that is no failure is that of a prepared target. *)
Lemma result_of_target (targets : list string) (prepared : list (string * NodeConfig)) (failures : list (string * string))
    (results : list (string * result string string)) (outcomes : ComponentOutcomes) n (Φ : Prop) :
  targets ≡ₚ prepared.*1 ++ failures.*1 →
  Forall2 (λ t b, b.1 = t.1 ∧ (n = t.1 → is_ok b.2 = true → Φ)) prepared results →
  (∀ o, insert_all (insert_all ∅ ((λ f : string * string, (f.1, Err f.2)) <$> failures)) results !! n = Some o → outcomes !! n = Some o) →
  n ∈ targets → failed_outcome (outcomes !! n) = false → Φ.
Proof.
  intros Hp Hall Ho Hn Hf. rewrite Hp in Hn.
  assert (results.*1 = prepared.*1) as Hkeys.
  { clear -Hall. induction Hall as [|t b ts bs [Hb _] _ IH]; [done|]. rewrite !fmap_cons. by f_equal. }
  destruct (insert_all_in (insert_all ∅ ((λ f : string * string, (f.1, Err f.2)) <$> failures)) results n) as [o Hlook].
  { rewrite Hkeys. apply elem_of_app in Hn as [Hn|Hn]; [by left|right]. apply insert_all_in. left.
    by rewrite <-list_fmap_compose. }
  rewrite (Ho _ Hlook) in Hf. apply inserted_lookup in Hlook as [Hin|[Hout Hlook]].
  - destruct (list_elem_of_lookup_1 _ _ Hin) as [i Hi]. destruct (Forall2_lookup_r _ _ _ _ _ Hall Hi) as (t & Ht & Hb & HΦ).
    simpl in *. apply HΦ; [done|]. by destruct o.
  - apply inserted_lookup in Hlook as [Hin|[_ Hlook]]; [|by rewrite lookup_empty in Hlook].
    apply list_elem_of_fmap in Hin as (f & [= -> ->] & _). done.
Qed.

(** A target whose outcome is no failure has a running agent. *)
Lemma upgrade_agents_fine targets sessions reads ahead_names fl outcomes problems fl' :
  upgrade_agents config p error_text env_var current_exe run_captured read_binary config_path targets sessions reads ahead_names fl
    = (Fine (outcomes, problems), fl') →
  Since fl (λ n l, n ∈ targets → failed_outcome (outcomes !! n) = false → agent_runs l) fl'.
Proof.
  intros Hrun.
  assert (∀ n, monotone (λ l, n ∈ targets → failed_outcome (outcomes !! n) = false → agent_runs l)) as Hmono.
  { intros n. do 2 apply monotone_if. apply agent_runs_monotone. }
  revert Hrun. apply Since_last; [by apply spreads_of_f|done|]. intros [source script] fl1.
  apply Since_last; [by apply spreads_of_f|done|]. intros recovery_epoch fl2.
  apply Since_last; [apply spreads_view|done|]. intros view fl3. unfold mbind at 1, F_bind at 1.
  pose proof (spreads_enroll targets recovery_epoch {| scope_project_id := project; scope_recovery_epoch := recovery_epoch |} view fl3) as He.
  destruct (enroll_agent_targets _ _ _ _ _ _ _ fl3) as [[[[prepared records] failures]| | |] fl4] eqn:Henroll; try done.
  apply enroll_agent_targets_parts in Henroll. unfold mbind at 1, F_bind at 1.
  destruct (mapF (upgrade_agent _ _ _ _ _ _) prepared fl4) as [[results| | |] fl5] eqn:Hm; try done.
  apply (mapF_fine _ (λ t b k l, b.1 = t.1 ∧ (k = t.1 → is_ok b.2 = true → agent_runs l))) in Hm; cycle 1.
  { intros. apply spreads_upgrade_agent. }
  { intros t b n. apply monotone_and; [apply monotone_const|]. do 2 apply monotone_if. apply agent_runs_monotone. }
  { intros t b ? ?. apply upgrade_agent_fine. }
  unfold mbind at 1, F_bind at 1. pose proof (spreads_tell (list_to_set prepared.*1 ∪ ahead_names) records
    (insert_all (insert_all ∅ ((λ f : string * string, (f.1, Err f.2)) <$> failures)) results) (btree_elems sessions) fl5) as Ht.
  destruct (tell_others _ _ _ _ _ fl5) as [[outcomes1| | |] fl6] eqn:Htell; try done. unfold mbind at 1, F_bind at 1.
  pose proof (spreads_attempts T (push_membership_everywhere config records sessions) (spreads_push_everywhere records sessions) fl6) as Hp.
  destruct (attempts _ fl6) as [[pushed| | |] fl7]; try done. intros [= -> <- ->].
  eapply Since_behind; [exact Hmono|exact He|]. eapply Since_before; [exact Hmono| |eapply Since_then; [|exact Ht|exact Hp]; done].
  eapply Since_impl; [|exact Hm]. intros n l Hall. eapply result_of_target; [exact Henroll|exact Hall|].
  intros o. by eapply tell_others_fine.
Qed.

Lemma or_insert_others {A} (f : A → result string string) (es : list (string * A)) (m : ComponentOutcomes) n :
  (∀ v, (n, v) ∉ es) → foldl (λ m (e : string * A), or_insert m e.1 (f e.2)) m es !! n = m !! n.
Proof.
  revert m. induction es as [|[k v] es IH]; intros m Hno; simpl; [done|].
  rewrite IH by (intros v' Hv'; by eapply Hno, list_elem_of_further). unfold or_insert. destruct (m !! k); [done|].
  apply lookup_insert_ne. intros ->. eapply Hno, list_elem_of_here.
Qed.
(** The agents that were read and are not ahead, where nothing has failed. *)
Definition agents_done (reachable : list string) (reads : gmap string HostRead) (outcomes : ComponentOutcomes) (n : string) (l : list Event) : Prop :=
  ∀ read, n ∈ reachable → reads !! n = Some read → cr_status (hr_agent read) ≠ Unavailable →
  cr_status (hr_agent read) ≠ Ahead → failed_outcome (outcomes !! n) = false → agent_runs l.
Lemma agents_done_monotone reachable reads outcomes n : monotone (agents_done reachable reads outcomes n).
Proof. apply monotone_all. intros. do 5 apply monotone_if. apply agent_runs_monotone. Qed.
Lemma agent_phase_fine reachable sessions reads fl outcomes problems fl' :
  agent_phase config p error_text env_var current_exe run_captured read_binary config_path reachable sessions reads fl
    = (Fine (outcomes, problems), fl') →
  Since fl (agents_done reachable reads outcomes) fl'.
Proof.
  assert (∀ read n, reads !! n = Some read → cr_status (hr_agent read) ≠ Unavailable → cr_status (hr_agent read) ≠ Ahead →
    n ∈ dom (agents_to_upgrade reads)) as Hdom.
  { intros read n Hr Hu Ha. unfold agents_to_upgrade. rewrite dom_fmap. apply elem_of_dom. exists read. apply map_lookup_filter_Some.
    split; [done|]. simpl. unfold is_unavailable, is_ahead. by rewrite !bool_decide_eq_false_2. }
  unfold agent_phase. unfold mbind at 1, F_bind at 1. case_bool_decide as Ht.
  { simpl. intros [= <- <- <-]. eapply Since_impl; [|apply Since_now]. intros n l -> read Hn Hr Hu Ha _. exfalso.
    assert (n ∈ filter (λ n, n ∈ dom (agents_to_upgrade reads)) reachable) as Hin by (apply list_elem_of_filter; eauto).
    rewrite Ht in Hin. by apply elem_of_nil in Hin. }
  destruct (upgrade_agents _ _ _ _ _ _ _ _ _ _ _ _ fl) as [[[outcomes1 problems1]| | |] fl1] eqn:Hu; try done.
  apply upgrade_agents_fine in Hu. intros [= <- <- <-]. eapply Since_impl; [|exact Hu]. simpl.
  intros n l Hl read Hn Hr Hun Ha Hf. apply Hl; [apply list_elem_of_filter; eauto|].
  rewrite (or_insert_others (λ read, Ok (not_touched read))) in Hf; [done|]. intros v Hv. apply elem_of_btree_list, map_lookup_filter_Some in Hv as [Hv Hst].
  simplify_eq/=. by apply bool_decide_eq_true_1 in Hst.
Qed.

(** What is known of a server whose versions were read. *)
Definition agent_read (read : HostRead) (l : list Event) : Prop :=
  cr_status (hr_agent read) ≠ Unavailable →
  ∃ schema observations version, accepted Health (HealthIs schema observations version) l ∧
    cr_status (hr_agent read) = compare_versions version AGENT_BUILD_VERSION.
Definition proxy_read (read : HostRead) (l : list Event) : Prop :=
  cr_status (hr_proxy read) ≠ Unavailable →
  ∃ r, Executed (render_version_command engine) "" (Ok r) ∈ l ∧ success r = true ∧
    cr_status (hr_proxy read) = compare_versions (trim (stdout r)) PROXY_VERSION.
Lemma agent_read_monotone read : monotone (agent_read read).
Proof.
  apply monotone_if. do 3 (apply monotone_ex; intros ?). apply monotone_and; [apply accepted_monotone|apply monotone_const].
Qed.
Lemma proxy_read_monotone read : monotone (proxy_read read).
Proof. apply monotone_if, monotone_ex. intros r. apply monotone_and; [apply monotone_in|apply monotone_const]. Qed.

Lemma ends_call `{AgentLink} key body : ends (call key body) (accepted body).
Proof.
  intros w. destruct (step_call (λ _ _, True) (λ _, True) key body (λ _ _ _ _ _ _, I) w [] (w_log w) eq_refl I I) as (l & Hl & _ & Hr).
  rewrite app_nil_r in Hr. by exists l.
Qed.
Lemma ends_read_agent `{AgentLink} :
  ends read_agent_version (λ version l, ∃ schema observations, accepted Health (HealthIs schema observations version) l).
Proof.
  unfold read_agent_version. eapply ends_impl; [eapply (ends_seq _ _ _ (λ response version l, ∃ a b, response = HealthIs a b version));
    [apply ends_call|]|].
  - intros response. destruct response; try apply ends_fail. intros w. exists []. split; [done|]. simpl. eauto.
  - intros version l (response & l1 & l2 & -> & Ha & a & b & ->). exists a, b. eapply accepted_monotone; [apply subseteq_app_r|done].
Qed.
Lemma ends_read_proxy :
  ends (read_proxy_version config) (λ version l, ∃ r, Executed (render_version_command engine) "" (Ok r) ∈ l ∧ success r = true ∧ version = trim (stdout r)).
Proof.
  unfold read_proxy_version. eapply ends_impl; [eapply (ends_seq _ _ _ (λ r version l, success r = true ∧ version = trim (stdout r)));
    [apply (ends_execute _ "")|]|].
  - intros r. destruct (success r); [|apply ends_fail]. intros w. by exists [].
  - intros version l (r & l1 & l2 & -> & Hin & Hs & ->). exists r. split_and!; [apply elem_of_app; by right|done..].
Qed.
Lemma read_host_fine name b fl fl' :
  read_host config links name fl = (Fine b, fl') →
  Since fl (λ k l, b.1 = name ∧ (k = name → agent_read b.2 l ∧ proxy_read b.2 l)) fl'.
Proof.
  unfold read_host. unfold mbind at 1, F_bind at 1. destruct (on name (read_agent_version) fl) as [[agent| | |] fl1] eqn:Ha; try done.
  eapply on_fine in Ha; [|apply ends_read_agent].
  unfold mbind at 1, F_bind at 1. destruct (on name (read_proxy_version _) fl1) as [[proxy| | |] fl2] eqn:Hp; try done.
  eapply on_fine in Hp; [|apply ends_read_proxy]. intros [= <- <-]. eapply Since_then; [|exact Ha|exact Hp].
  intros n l l' Hl Hl'. split; [done|]. intros Hn. specialize (Hl Hn). specialize (Hl' Hn). split.
  - intros Hu. destruct agent as [version|e]; [|done]. destruct Hl as (a & c & Hacc). exists a, c, version.
    split; [eapply accepted_monotone; [apply subseteq_app_r|done]|done].
  - intros Hu. destruct proxy as [version|e]; [|done]. destruct Hl' as (r & Hin & Hs & ->). exists r.
    split_and!; [apply elem_of_app; by left|done..].
Qed.

(** *** The proxies *)

Definition upload_config_command : string :=
  let path := CONFIG_DIR +:+ "/config.yml" in
  "set -eu; install -D -m 0644 /dev/stdin " +:+ path +:+ ".jiji-new; mv " +:+ path +:+ ".jiji-new " +:+ path.
(** The command that puts a new container in the place of the old one. *)
Definition replace_proxy_command (network : option ProxyNetwork) : string :=
  replace_command engine (render_run_command engine
    ((λ n, {| run_bridge_name := pn_bridge_name n; run_proxy_address := pn_proxy_address n |}) <$> network) (config_fingerprint engine)).
Definition current_command : string :=
  engine_to_string engine +:+ " inspect " +:+ CONTAINER_NAME +:+ " --format '{{.State.Status}} {{index .Config.Labels "
  +:+ ProxyScript.quoted "jiji.proxy-config" +:+ "}} {{.Config.Image}}'".
(** The container was seen to run the wanted image with the wanted configuration. *)
Definition proxy_current (l : list Event) : Prop :=
  ∃ r, Executed current_command "" (Ok r) ∈ l ∧ success r = true ∧
    trim (stdout r) = "running " +:+ config_fingerprint engine +:+ " " +:+ proxy_image.
Definition networks_command : string := engine_to_string engine +:+ " inspect " +:+ CONTAINER_NAME +:+ " --format '{{json .NetworkSettings.Networks}}'".
Definition connect_command (network : ProxyNetwork) : string :=
  engine_to_string engine +:+ " network connect --ip " +:+ ipv4_to_string (pn_proxy_address network) +:+ " "
  +:+ pn_bridge_name network +:+ " " +:+ CONTAINER_NAME.
(** The container was seen on the bridge with its address, or was connected to it there. *)
Definition on_network (network : ProxyNetwork) (l : list Event) : Prop :=
  (∃ r, Executed networks_command "" (Ok r) ∈ l ∧ success r = true ∧
     attached_address (stdout r) (pn_bridge_name network) = Some (pn_proxy_address network)) ∨
  answered true (connect_command network) l.
(** The proxy answered with a version that is recent enough. *)
Definition version_checked (l : list Event) : Prop :=
  ∃ r, Executed (render_version_command engine) "" (Ok r) ∈ l ∧ success r = true ∧
    check_min_version "jiji-proxy" session_host (trim (stdout r)) MIN_PROXY_VERSION "Run `jiji proxy restart` to update it." = Ok ().
(** The proxy has its configuration, and a new container if it was out of date; the container
    runs what it should or is new, is on the network it is planned for, if any, and says a
    version that will do. *)
Definition proxy_runs (network : option ProxyNetwork) (outdated : bool) (l : list Event) : Prop :=
  wrote upload_config_command render_daemon_config l ∧
  (outdated = true → answered true (replace_proxy_command network) l) ∧
  (proxy_current l ∨ answered true (replace_proxy_command network) l) ∧
  (∀ planned, network = Some planned → on_network planned l) ∧ version_checked l.
Lemma proxy_current_monotone : monotone proxy_current.
Proof. apply monotone_ex. intros r. apply monotone_and; [apply monotone_in|apply monotone_const]. Qed.
Lemma on_network_monotone network : monotone (on_network network).
Proof.
  apply monotone_or; [|apply answered_monotone]. apply monotone_ex. intros r. apply monotone_and; [apply monotone_in|apply monotone_const].
Qed.
Lemma version_checked_monotone : monotone version_checked.
Proof. apply monotone_ex. intros r. apply monotone_and; [apply monotone_in|apply monotone_const]. Qed.
Lemma proxy_runs_monotone network outdated : monotone (proxy_runs network outdated).
Proof.
  repeat apply monotone_and; [apply wrote_monotone|apply monotone_if, answered_monotone| |
    apply monotone_all; intros; apply monotone_if, on_network_monotone|apply version_checked_monotone].
  apply monotone_or; [apply proxy_current_monotone|apply answered_monotone].
Qed.

Lemma quiet_wait tries : quiet (wait_until_running engine tries).
Proof. induction tries as [|tries IH]; simpl; quiet. Qed.
Lemma quiet_upload : quiet upload_daemon_config.
Proof. unfold upload_daemon_config. quiet. Qed.
Lemma quiet_recreate fingerprint network : quiet (recreate engine fingerprint network).
Proof. unfold recreate, run_required. pose proof quiet_wait. quiet. Qed.
Lemma quiet_attach network : quiet (attach_network engine network).
Proof.
  unfold attach_network, ensure_attached, reconcile_podman_dns_address, ensure_ingress_rule, run_required, write_remote_file. quiet.
Qed.
Lemma quiet_proxy_version host : quiet (check_proxy_version engine host).
Proof. unfold check_proxy_version, run_or. quiet. Qed.
Hint Resolve quiet_wait quiet_upload quiet_recreate quiet_attach quiet_proxy_version : quiet.

Lemma ends_recreate network : ends (recreate engine (config_fingerprint engine) network) (λ _, answered true (replace_proxy_command network)).
Proof.
  unfold recreate. do 2 (apply ends_last; [intros; apply answered_monotone|unfold run_required; quiet|intros _]).
  apply (ends_checked (replace_proxy_command network) "" (λ _, wait_until_running engine 30)). intros. apply quiet_wait.
Qed.
Lemma ends_is_current :
  ends (is_current_and_running engine (config_fingerprint engine)) (λ current l, current = true → proxy_current l).
Proof.
  unfold is_current_and_running. eapply ends_impl.
  { eapply (ends_seq _ (λ r l, Executed current_command "" (Ok r) ∈ l) _ (λ r current _, current = success r && bool_decide (trim (stdout r) =
      "running " +:+ config_fingerprint engine +:+ " " +:+ proxy_image))); [apply (ends_execute current_command "")|].
    intros r. apply ends_return. }
  intros current l (r & l1 & l2 & -> & Hin & ->) [Hs Ht%bool_decide_eq_true]%andb_true_iff. exists r.
  split_and!; [apply elem_of_app; by right|done..].
Qed.
Lemma ends_attached network : ends (ensure_attached engine network) (λ _, on_network network).
Proof.
  unfold ensure_attached. eapply ends_impl.
  { eapply (ends_seq _ (λ r l, Executed networks_command "" (Ok r) ∈ l) _ (λ r _ l, success r = true ∧ (attached_address (stdout r) (pn_bridge_name network) = Some (pn_proxy_address network) ∨
      answered true (connect_command network) l))); [apply (ends_execute networks_command "")|].
    intros r. destruct (success r); simpl; [|apply ends_fail].
    destruct (attached_address (stdout r) (pn_bridge_name network)) as [existing|].
    - destruct (N.eqb_spec existing (pn_proxy_address network)) as [->|]; [|apply ends_fail].
      eapply ends_impl; [apply ends_return|]. auto.
    - eapply ends_impl; [apply (ends_checked (connect_command network) "" (λ _, mret ())); quiet|]. auto. }
  intros [] l (r & l1 & l2 & -> & Hin & Hs & [Ha|Ha]); [left|right].
  - exists r. split_and!; [apply elem_of_app; by right|done..].
  - eapply answered_monotone; [apply subseteq_app_l|done].
Qed.
Lemma ends_version : ends (check_proxy_version engine session_host) (λ _, version_checked).
Proof.
  unfold check_proxy_version, run_or. eapply ends_impl.
  { eapply (ends_seq _ (λ r l, Executed (render_version_command engine) "" (Ok r) ∈ l ∧ success r = true) _
      (λ r _ _, check_min_version "jiji-proxy" session_host (trim (stdout r)) MIN_PROXY_VERSION "Run `jiji proxy restart` to update it." = Ok ())).
    - eapply ends_impl; [eapply (ends_seq _ _ _ (λ r r' _, success r = true ∧ r' = r)); [apply (ends_execute _ "")|]|].
      + intros r. destruct (success r); [|apply ends_fail]. eapply ends_impl; [apply ends_return|]. auto.
      + intros r l (r' & l1 & l2 & -> & Hin & Hs & ->). split; [apply elem_of_app; by right|done].
    - intros r. eapply ends_impl; [apply ends_of_result|]. by intros []. }
  intros [] l (r & l1 & l2 & -> & [Hin Hs] & Hc). exists r. split_and!; [apply elem_of_app; by right|done..].
Qed.

(** The container: current, or replaced. *)
Definition container_done (network : option ProxyNetwork) (force : bool) (l : list Event) : Prop :=
  (force = true → answered true (replace_proxy_command network) l) ∧
  (proxy_current l ∨ answered true (replace_proxy_command network) l).
Lemma container_done_monotone network force : monotone (container_done network force).
Proof.
  apply monotone_and; [apply monotone_if, answered_monotone|]. apply monotone_or; [apply proxy_current_monotone|apply answered_monotone].
Qed.
Lemma ends_container network (force : bool) {B} (rest : ProxyState → M B) (R : B → list Event → Prop) :
  (∀ b, monotone (R b)) → (∀ status, ends (rest status) R) →
  ends (current ← (if force then mret false else is_current_and_running engine (config_fingerprint engine));
        status ← (if (current : bool) then mret ProxyAlreadyRunning
                  else _ ← recreate engine (config_fingerprint engine) network; mret ProxyStarted);
        rest status) (λ b l, container_done network force l ∧ R b l).
Proof.
  intros HR Hrest. eapply ends_impl.
  { eapply (ends_both _ (λ (current : bool) l, if current then force = false ∧ proxy_current l else True) _
      (λ current b l, (current = false → answered true (replace_proxy_command network) l) ∧ R b l)).
    - intros []; [apply monotone_and; [apply monotone_const|apply proxy_current_monotone]|apply monotone_const].
    - intros current b. apply monotone_and; [apply monotone_if, answered_monotone|done].
    - destruct force; [eapply ends_impl; [apply ends_return|]; by intros ? ? ->|].
      eapply ends_impl; [apply ends_is_current|]. intros [] l Hl; auto.
    - intros current. eapply ends_impl.
      { eapply (ends_both _ (λ _ l, current = false → answered true (replace_proxy_command network) l) _ (λ _, R)); [..|exact Hrest].
        - intros _. apply monotone_if, answered_monotone.
        - done.
        - destruct current; [eapply ends_impl; [apply ends_return|]; done|].
          eapply ends_impl; [apply (ends_first _ (λ _, answered true (replace_proxy_command network))); [apply answered_monotone|apply ends_recreate|done|quiet]|auto]. }
      by intros b l (status & Hr & Hb). }
  intros b l (current & Hc & Hr & Hb). split; [|done]. split.
  - intros ->. apply Hr. destruct current; [by destruct Hc|done].
  - destruct current; [left; apply Hc|right; auto].
Qed.

Lemma ends_ensure_proxy network force : ends (ensure_proxy engine network force) (λ _, proxy_runs network force).
Proof.
  unfold ensure_proxy. set (N l := ∀ planned, network = Some planned → on_network planned l).
  assert (monotone N) as HN by (apply monotone_all; intros; apply monotone_if, on_network_monotone).
  eapply ends_impl.
  { eapply (ends_both _ (λ _, wrote upload_config_command render_daemon_config) _
      (λ _ _ l, container_done network force l ∧ N l ∧ version_checked l)).
    - intros. apply wrote_monotone.
    - intros. apply monotone_and; [apply container_done_monotone|]. apply monotone_and; [done|apply version_checked_monotone].
    - apply (ends_wrote upload_config_command _ (λ _, mret ())). quiet.
    - intros _. apply ends_container; [intros; apply monotone_and; [done|apply version_checked_monotone]|]. intros status.
      eapply ends_impl; [eapply (ends_both _ (λ _, N) _ (λ _ _, version_checked))|by intros b l (? & ? & ?)].
      + done.
      + intros. apply version_checked_monotone.
      + destruct network as [planned|]; [|eapply ends_impl; [apply ends_return|]; by intros ? ? _ ? ?].
        unfold attach_network. eapply ends_impl; [apply (ends_first _ (λ _, on_network planned))|]; [apply on_network_monotone|apply ends_attached|done| |].
        * intros _. unfold reconcile_podman_dns_address, ensure_ingress_rule, run_required, write_remote_file. quiet.
        * intros [] l Hl planned' [= <-]. exact Hl.
      + intros []. apply (ends_first _ (λ _, version_checked)); [apply version_checked_monotone|apply ends_version|done|quiet]. }
  intros status l (u & Hw & (Hf & Hc) & Hn & Hv). split_and!; auto.
Qed.

(** The proxy of a server runs on the network planned for it. *)
Definition proxy_done (n : string) (outdated : bool) (l : list Event) : Prop :=
  ∃ server_plan network, np_servers p !! n = Some server_plan ∧ proxy_network p server_plan = Ok network ∧ proxy_runs network outdated l.
Lemma proxy_done_monotone n outdated : monotone (proxy_done n outdated).
Proof.
  do 2 (apply monotone_ex; intros ?). do 2 (apply monotone_and; [apply monotone_const|]). apply proxy_runs_monotone.
Qed.
Lemma quiet_ensure_proxy network force : quiet (ensure_proxy engine network force).
Proof. unfold ensure_proxy, is_current_and_running. quiet. Qed.
Hint Resolve quiet_ensure_proxy : quiet.
Lemma spreads_upgrade_proxy proxy_status name : spreads T (upgrade_proxy config p proxy_status name).
Proof. unfold upgrade_proxy. spreads. Qed.
Lemma upgrade_proxy_fine proxy_status name b fl fl' :
  upgrade_proxy config p proxy_status name fl = (Fine b, fl') →
  Since fl (λ k l, b.1 = name ∧ (k = name → is_ok b.2 = true → ∀ st, proxy_status !! name = Some st → st ≠ Ahead →
    proxy_done name (bool_decide (st = Outdated)) l)) fl'.
Proof.
  unfold upgrade_proxy. destruct (is_ahead _) eqn:Ha.
  { intros [= <- <-]. eapply Since_impl; [|apply Since_now]. intros n l -> . split; [done|]. intros _ _ st Hst Hne. rewrite Hst in Ha.
    by apply bool_decide_eq_true_1 in Ha. }
  unfold mbind at 1, F_bind at 1. unfold index. destruct (np_servers p !! name) as [server_plan|] eqn:Hp; [|done]. simpl.
  unfold mbind at 1, F_bind at 1. destruct (proxy_network p server_plan) as [network|e] eqn:Hn; [|done]. simpl.
  unfold mbind at 1, F_bind at 1. destruct (on name (ensure_proxy _ _ _) fl) as [[r| | |] fl1] eqn:Ho; try done.
  eapply on_fine in Ho; [|apply ends_ensure_proxy]. intros [= <- <-]. eapply Since_impl; [|exact Ho].
  intros n l Hl. split; [done|]. intros Hk Hok st Hst Hne. exists server_plan, network. split_and!; [done..|].
  rewrite Hst in Hl. destruct r; [by apply Hl|done].
Qed.

(** A result for each key. *)
Lemma insert_all_results {A B} (m : gmap string A) (keys : list B) (key : B → string) (results : list (string * A)) n (Φ : A → Prop) :
  Forall2 (λ k b, b.1 = key k ∧ (n = key k → Φ b.2)) keys results → n ∈ key <$> keys →
  ∃ a, insert_all m results !! n = Some a ∧ Φ a.
Proof.
  intros Hall Hn. assert (results.*1 = key <$> keys) as Hkeys.
  { clear -Hall. induction Hall as [|t b ts bs [Hb _] _ IH]; [done|]. rewrite !fmap_cons. by f_equal. }
  destruct (insert_all_in m results n) as [a Ha]; [left; by rewrite Hkeys|]. exists a. split; [done|].
  apply inserted_lookup in Ha as [Hin|[Hout _]]; [|by rewrite Hkeys in Hout].
  destruct (list_elem_of_lookup_1 _ _ Hin) as [i Hi]. destruct (Forall2_lookup_r _ _ _ _ _ Hall Hi) as (t & Ht & Hb & HΦ). auto.
Qed.
Definition proxies_done (reachable : list string) (reads : gmap string HostRead) (outcomes : ComponentOutcomes) (n : string) (l : list Event) : Prop :=
  ∀ read, n ∈ reachable → reads !! n = Some read → cr_status (hr_proxy read) ≠ Unavailable →
  cr_status (hr_proxy read) ≠ Ahead → failed_outcome (outcomes !! n) = false →
  proxy_done n (bool_decide (cr_status (hr_proxy read) = Outdated)) l.
Lemma proxies_done_monotone reachable reads outcomes n : monotone (proxies_done reachable reads outcomes n).
Proof. apply monotone_all. intros. do 5 apply monotone_if. apply proxy_done_monotone. Qed.
Lemma proxy_phase_fine reachable reads fl outcomes fl' :
  proxy_phase config p reachable reads fl = (Fine outcomes, fl') →
  Since fl (proxies_done reachable reads outcomes) fl'.
Proof.
  unfold proxy_phase, upgrade_proxies. set (proxy_status := filter _ _). unfold mbind at 1, F_bind at 1.
  destruct (mapF (upgrade_proxy _ _ _) _ fl) as [[results| | |] fl1] eqn:Hm; try done. intros [= <- <-].
  apply (mapF_fine _ (λ name b k l, b.1 = name ∧ (k = name → is_ok b.2 = true → ∀ st, proxy_status !! name = Some st → st ≠ Ahead →
    proxy_done name (bool_decide (st = Outdated)) l))) in Hm; cycle 1.
  { intros. apply spreads_upgrade_proxy. }
  { intros name b n. apply monotone_and; [apply monotone_const|]. do 2 apply monotone_if. apply monotone_all. intros st.
    do 2 apply monotone_if. apply proxy_done_monotone. }
  { intros name b ? ?. apply upgrade_proxy_fine. }
  eapply Since_impl; [|exact Hm]. intros n l Hall read Hn Hr Hu Ha Hf.
  assert (proxy_status !! n = Some (cr_status (hr_proxy read))) as Hst.
  { apply map_lookup_filter_Some. rewrite lookup_fmap, Hr. split; [done|]. simpl. unfold is_unavailable. by rewrite bool_decide_eq_false_2. }
  destruct (insert_all_results ∅ (filter (λ k, k ∈ dom proxy_status) reachable) id results n (λ a, is_ok a = true → ∀ st, proxy_status !! n = Some st → st ≠ Ahead →
    proxy_done n (bool_decide (st = Outdated)) l)) as (a & Hlook & Hdone).
  - eapply Forall2_impl; [exact Hall|]. intros name b [Hb Hrun]. split; [done|]. intros ->. by apply Hrun.
  - rewrite list_fmap_id. apply list_elem_of_filter. split; [|done]. apply elem_of_dom. eauto.
  - rewrite Hlook in Hf. apply Hdone; [by destruct a|done..].
Qed.

(** *** The command *)

Lemma spreads_agent_phase reachable sessions reads :
  spreads T (agent_phase config p error_text env_var current_exe run_captured read_binary config_path reachable sessions reads).
Proof.
  apply spreads_bind; [done| |intros []; by apply spreads_ret]. case_bool_decide; [by apply spreads_ret|apply spreads_upgrade_agents].
Qed.
Lemma spreads_proxy_phase reachable reads : spreads T (proxy_phase config p reachable reads).
Proof.
  apply spreads_bind; [done|apply spreads_mapF; [done|intros; apply spreads_upgrade_proxy]|intros; by apply spreads_ret].
Qed.
Lemma spreads_read_host name : spreads T (read_host config links name).
Proof.
  apply spreads_bind; [done| |intros agent; apply spreads_bind; [done| |intros; by apply spreads_ret]]; (apply spreads_on; [done|]).
  - apply extends_bind; [done|by apply extends_call|]. intros response. apply extends_quiet; [done|]. destruct response; quiet.
  - apply extends_quiet; [done|]. unfold read_proxy_version. quiet.
Qed.
Lemma spreads_audits reads agents proxies names : spreads T (Fleet.each (audit_host config elapsed reads agents proxies) names).
Proof.
  apply spreads_each; [done|]. intros name. apply spreads_bind; [done|by apply spreads_index|intros read].
  apply spreads_bind; [done| |intros _]; (apply spreads_bind; [done|apply spreads_on; [done|apply extends_quiet; [done|]]|intros; by apply spreads_ret]);
    unfold record, new_entry, append_entry; quiet.
Qed.

Lemma confirm_stays yes reads fl : (confirm_upgrade ask yes reads fl).2 = fl.
Proof.
  unfold confirm_upgrade, confirmed. destruct (any_outdated _), yes, ask as [question|]; try done.
  unfold mbind, F_bind. by destruct (question _) as [[]|].
Qed.

(** What the end of the locked part says of a server. *)
Definition locked_facts (reads : gmap string HostRead) (agents proxies : ComponentOutcomes) (n : string) (l : list Event) : Prop :=
  ∃ read, reads !! n = Some read ∧ agent_read read l ∧ proxy_read read l ∧
    (cr_status (hr_agent read) ≠ Unavailable → cr_status (hr_agent read) ≠ Ahead → failed_outcome (agents !! n) = false → agent_runs l) ∧
    (cr_status (hr_proxy read) ≠ Unavailable → cr_status (hr_proxy read) ≠ Ahead → failed_outcome (proxies !! n) = false →
     proxy_done n (bool_decide (cr_status (hr_proxy read) = Outdated)) l).
Lemma upgrade_locked_fine yes reachable sessions reads0 fl reads agents proxies problems fl' :
  upgrade_locked config p links ask error_text env_var current_exe run_captured read_binary config_path elapsed yes reachable sessions reads0 fl
    = (Fine (reads, agents, proxies, problems), fl') →
  Since fl (λ n l, (n ∈ reachable → locked_facts reads agents proxies n l) ∧ (n ∉ reachable → reads !! n = reads0 !! n)) fl'.
Proof.
  unfold upgrade_locked. unfold mbind at 1, F_bind at 1. destruct (mapF (read_host _ _) reachable fl) as [[found| | |] fl1] eqn:Hm; try done.
  apply (mapF_fine _ (λ name b k l, b.1 = name ∧ (k = name → agent_read b.2 l ∧ proxy_read b.2 l))) in Hm; cycle 1.
  { intros. apply spreads_read_host. }
  { intros name b n. apply monotone_and; [apply monotone_const|]. apply monotone_if, monotone_and; [apply agent_read_monotone|apply proxy_read_monotone]. }
  { intros name b ? ?. apply read_host_fine. }
  set (reads1 := insert_all reads0 found). unfold mbind at 1, F_bind at 1.
  pose proof (confirm_stays yes reads1 fl1) as Hc. destruct (confirm_upgrade _ _ _ fl1) as [[[]| | |] fl1']; try done. simpl in Hc. subst fl1'.
  unfold mbind at 1, F_bind at 1. destruct (agent_phase _ _ _ _ _ _ _ _ _ _ _ fl1) as [[[agents1 problems1]| | |] fl2] eqn:Ha; try done.
  apply agent_phase_fine in Ha. unfold mbind at 1, F_bind at 1.
  destruct (proxy_phase _ _ _ _ fl2) as [[proxies1| | |] fl3] eqn:Hp; try done. apply proxy_phase_fine in Hp.
  unfold mbind at 1, F_bind at 1. pose proof (spreads_audits reads1 agents1 proxies1 (btree_elems sessions) fl3) as Hs.
  destruct (Fleet.each _ _ fl3) as [[[]| | |] fl4]; try done. intros [= <- <- <- <- <-].
  pose proof (Since_both _ _ _ _ _ (agents_done_monotone _ _ _) (proxies_done_monotone _ _ _) Ha Hp) as Hap.
  eapply Since_before in Hap; [|intros n; apply monotone_and; [apply agents_done_monotone|apply proxies_done_monotone]|exact Hs].
  eapply Since_then; [|exact Hm|exact Hap]. intros n l l' Hall [Hra Hrp].
  assert (found.*1 = reachable) as Hkeys.
  { clear -Hall. induction Hall as [|k b ks bs [Hb _] _ IH]; [done|]. rewrite fmap_cons. by f_equal. }
  split; [intros Hn|intros Hn; apply insert_all_out; by rewrite Hkeys].
  destruct (insert_all_results reads0 reachable id found n (λ read, agent_read read l ∧ proxy_read read l)) as (read & Hr & Hra' & Hrp').
  - eapply Forall2_impl; [exact Hall|]. done.
  - by rewrite list_fmap_id.
  - exists read. split_and!; [done|eapply agent_read_monotone; [apply subseteq_app_r|done]|eapply proxy_read_monotone; [apply subseteq_app_r|done]|..].
    + intros Hu Hah Hf. eapply agent_runs_monotone; [apply subseteq_app_l|eauto].
    + intros Hu Hah Hf. eapply proxy_done_monotone; [apply subseteq_app_l|eauto].
Qed.

(** A server that was upgraded: its agent said its version and, unless that is ahead, was started
    with its configuration and the members of the mesh; its proxy said its version and, unless that
    is ahead, got its configuration, and a new container where it was out of date. *)
Definition upgraded (n : string) (l : list Event) : Prop :=
  (∃ schema observations version, accepted Health (HealthIs schema observations version) l ∧
     (compare_versions version AGENT_BUILD_VERSION ≠ Ahead → agent_runs l)) ∧
  (∃ r, Executed (render_version_command engine) "" (Ok r) ∈ l ∧ success r = true ∧
     let status := compare_versions (trim (stdout r)) PROXY_VERSION in
     status ≠ Ahead → proxy_done n (bool_decide (status = Outdated)) l).
Lemma upgraded_monotone n : monotone (upgraded n).
Proof.
  apply monotone_and.
  - do 3 (apply monotone_ex; intros ?). apply monotone_and; [apply accepted_monotone|]. apply monotone_if, agent_runs_monotone.
  - apply monotone_ex. intros r. apply monotone_and; [apply monotone_in|]. apply monotone_and; [apply monotone_const|].
    apply monotone_if, proxy_done_monotone.
Qed.
Lemma clean_host reads agents proxies n l :
  locked_facts reads agents proxies n l → existsb (host_failed agents proxies) (btree_list reads) = false → upgraded n l.
Proof.
  intros (read & Hr & Ha & Hp & Hra & Hrp) Hclean.
  assert (host_failed agents proxies (n, read) = false) as Hn.
  { destruct (host_failed _ _ _) eqn:Hf; [|done]. rewrite <-Hclean. symmetry. apply existsb_exists. exists (n, read). split; [|done].
    by apply list_elem_of_In, elem_of_btree_list. }
  unfold host_failed in Hn. simpl in Hn. rewrite !orb_false_iff in Hn. destruct Hn as [[[Hua Hup] Hfa] Hfp].
  apply bool_decide_eq_false_1 in Hua, Hup. destruct (Ha Hua) as (schema & observations & version & Hacc & Hst).
  destruct (Hp Hup) as (r & Hin & Hs & Hpst). split; [exists schema, observations, version|exists r]; split_and!; try done.
  - intros Hne. apply Hra; [done|congruence|done].
  - simpl. rewrite <-Hpst. intros Hne. by apply Hrp.
Qed.

Lemma unreachable_fails reads agents proxies n :
  reads !! n = Some unreachable_host → existsb (host_failed agents proxies) (btree_list reads) = false → False.
Proof.
  intros Hr Hclean. enough (existsb (host_failed agents proxies) (btree_list reads) = true) by congruence.
  apply existsb_exists. exists (n, unreachable_host). split; [|done]. by apply list_elem_of_In, elem_of_btree_list.
Qed.
(** A server that refuses is read as unavailable. *)
Lemma refused_reads names n :
  n ∈ names → is_ok (connect_for_setup n) = false →
  insert_all ∅ ((λ f : string * string, (f.1, unreachable_host)) <$> refusals names) !! n = Some unreachable_host.
Proof.
  intros Hn Hc. destruct (insert_all_in (∅ : gmap string HostRead) ((λ f : string * string, (f.1, unreachable_host)) <$> refusals names) n)
    as [read Hr].
  - left. rewrite <-list_fmap_compose. apply list_elem_of_fmap. unfold refusals. destruct (connect_for_setup n) as [|e] eqn:He; [done|].
    exists (n, e). split; [done|]. apply list_elem_of_omap. exists n. by rewrite He.
  - rewrite Hr. apply inserted_lookup in Hr as [Hin|[_ Hr]]; [|by rewrite lookup_empty in Hr].
    by apply list_elem_of_fmap in Hin as (f & [= _ ->] & _).
Qed.

(** C20: An upgrade that ends well has reached every server it was to reach.  When the command ends
    without an error, each configured server that the host filter selects was connected to, its
    agent and its proxy said which version they run, an agent that is not ahead was started again
    and took the members of the mesh, and a proxy that is not ahead
    got its configuration and, where it was out of date, a new container on the network planned for
    its server. *)
Theorem clean_upgrade_reaches_every_server hosts services yes targets fl fl' :
  upgrade_servers config p links ask error_text env_var current_exe run_captured read_binary config_path lock_info elapsed hosts services yes fl
    = (Fine (), fl') →
  selected_host_names p hosts = Ok targets →
  Since fl (λ n l, n ∈ server_names_sorted config → n ∈ targets → upgraded n l) fl'.
Proof.
  intros Hrun Htargets. unfold upgrade_servers in Hrun. case_bool_decide; [done|].
  assert (∀ n, monotone (λ l, n ∈ server_names_sorted config → n ∈ targets → upgraded n l)) as Hmono.
  { intros n. do 2 apply monotone_if. apply upgraded_monotone. }
  revert Hrun. apply Since_last; [unfold require_ssh; spreads|done|]. intros _ fl1. case_bool_decide; [done|]. rewrite Htargets.
  change (of_f (Ok targets)) with (mret targets : F (gset string)). unfold mbind at 1, F_bind at 1. cbn [mret F_ret].
  set (names := filter (λ n, n ∈ targets) (server_names_sorted config)). apply Since_last; [apply spreads_all_options|done|]. intros _ fl2.
  set (reachable := filter (λ n, is_ok (connect_for_setup n) = true) names). set (reads0 := insert_all ∅ _). case_bool_decide; [done|].
  apply Since_last; [apply spreads_acquire_locks; done|done|]. intros owned fl3. unfold mbind at 1, F_bind at 1. unfold attempts at 1.
  destruct (upgrade_locked _ _ _ _ _ _ _ _ _ _ _ _ _ _ _ fl3) as [[[[[reads agents] proxies] problems]|e| |] fl4] eqn:Hl; try done; cycle 1.
  { unfold mbind, F_bind. by destruct (attempts _ fl4) as [[[]| | |] fl5]. }
  apply upgrade_locked_fine in Hl. unfold mbind at 1, F_bind at 1.
  pose proof (spreads_attempts T _ (spreads_release_locks T T_closed (list_to_set reachable) project owned) fl4) as Hr.
  destruct (attempts _ fl4) as [[[u|e]| | |] fl5]; try done. destruct (negb _ || _) eqn:Hf; [done|]. intros [= <-].
  apply orb_false_iff in Hf as [_ Hclean]. eapply Since_before; [done| |exact Hr]. eapply Since_impl; [|exact Hl].
  intros n l [Hin Hout] Hn Ht. assert (n ∈ names) as Hnames by (by apply list_elem_of_filter).
  destruct (is_ok (connect_for_setup n)) eqn:Hok.
  - eapply clean_host; [apply Hin, list_elem_of_filter; done|done].
  - exfalso. assert (reads !! n = Some unreachable_host) as Hr'; [|by eapply unreachable_fails].
    rewrite Hout by (intros Hx%list_elem_of_filter; naive_solver congruence). by apply refused_reads.
Qed.
End reaches.

Module UpgradeProps.

(** A machine on which every command succeeds, whose containers run, and which says "1.0.0" else. *)
Definition upgrade_host : Host :=
  {| machine := ();
     exec c _ m := (Ok {| stdout := if contains_str "State.Status" c then "running" else "1.0.0"; stderr := ""; success := true; code := Some 0 |}, m);
     exec_stream _ m := (Ok [], m); clock _ := 0; sleep _ m := m; unix_time _ := Ok 0; session_host := "a";
     error_message _ := ""; response_debug _ := "" |}.
Definition info : LockInfo := {| info_message := ""; info_acquired_at := 0; info_acquired_by := "op"; info_pid := 1; info_lock_id := Some "1-0-0" |}.
Definition lock_json : LockJson := {| info_to_json _ := Ok "{}"; info_of_json _ := Some info; json_text s := Ok s |}.
Definition local_time : LocalTime := {| instant n := N.of_nat n; unix_seconds _ := 0 |}.
Definition member_text : MembershipText := {| membership_json _ := "[]"; membership_of_json _ := Ok []; mesh_json _ := "{}" |}.
Definition no_redial : Redial := {| is_connection_refused _ := false; connect_again _ := Ok () |}.
Definition route_json : RouteJson :=
  {| parse_routes _ := Ok []; parse_tcp_routes _ := Ok []; parse_route_status _ := Err ""; parse_tcp_route_status _ := Err "" |}.
Definition proxy_build : ProxyBuild := {| PROXY_VERSION := "1.0.1"; network_address _ _ := None |}.
Definition agent_build : AgentBuild := {| AGENT_BUILD_VERSION := "1.0.1" |}.
Definition no_local_files : LocalFiles :=
  {| EnvResolution.is_file _ := false; EnvResolution.read_to_string _ := Err ""; EnvResolution.path_exists _ := false |}.
Definition version_links (_ : string) : AgentLink :=
  {| link_api := ApiProps.sample_api;
     link_env _ := {| env_capacity := OpLogProps.sample_capacity; env_schema_version := 12; env_version := "1.0.0"; env_pid := 7;
                      env_uptime := 0; env_run_id := "run" |};
     link_fate _ := Delivered |}.
Definition ssh : Ssh :=
  {| ssh_user := Some "root"; ssh_port := 22; ssh_key_passphrase := None; ssh_connect_timeout := 30; ssh_command_timeout := 300;
     ssh_options := []; ssh_proxy := None; ssh_proxy_command := None; ssh_keys := None; ssh_keys_only := false;
     ssh_max_concurrent_starts := 30; ssh_pool_idle_timeout := 900; ssh_dns_retries := 3; ssh_log_level := LogLevel_default;
     ssh_config := SshConfigFiles_default |}.
Definition upgrade_config : Config :=
  {| config_project := "demo"; config_builder := config_builder sample_config; config_servers := config_servers sample_config;
     config_services := config_services sample_config; config_ssh := Some ssh; config_network := None; config_secrets_path := None;
     config_secrets := None; config_environment := None |}.

#[local] Existing Instances MembershipProps.sample_hash ApiProps.commit_hash DesiredProps.sample_hash LeasesProps.sample_labels
  constant_sha256 upgrade_host FleetProps.sample_float FleetProps.sample_connector TeardownProps.sample_operator lock_json local_time
  member_text no_redial route_json proxy_build agent_build no_local_files.

Definition upgrade_fleet : gmap string (@World upgrade_host) :=
  {[ "a" := @Build_World upgrade_host ApiProps.sample_store tt []; "b" := @Build_World upgrade_host ApiProps.sample_store tt [] ]}.
Definition sample_upgrade : flow () * gmap string (@World upgrade_host) :=
  upgrade_servers upgrade_config PlannerProps.sample_plan version_links None (λ _, "") (λ _, None) None (λ _ _, Err "") (λ _, Err "")
    "/srv/deploy.yml" (λ _, info) 0 (Some "a") None true upgrade_fleet.
Lemma clean_upgrade_reaches_every_server_witness :
  sample_upgrade.1 = Fine () ∧
  ∃ w l, sample_upgrade.2 !! "a" = Some w ∧ w_log w = l ++ [] ∧ upgraded upgrade_config PlannerProps.sample_plan "a" l.
Proof.
  assert (sample_upgrade.1 = Fine ()) as Hok by (vm_compute; reflexivity). split; [exact Hok|].
  pose proof (clean_upgrade_reaches_every_server upgrade_config PlannerProps.sample_plan version_links None (λ _, "") (λ _, None) None
    (λ _ _, Err "") (λ _, Err "") "/srv/deploy.yml" (λ _, info) 0 (Some "a") None true {["a"]} upgrade_fleet sample_upgrade.2) as Hw.
  destruct (Hw ltac:(rewrite <-Hok; apply surjective_pairing) ltac:(vm_compute; reflexivity)
    "a" (@Build_World upgrade_host ApiProps.sample_store tt []) ltac:(vm_compute; reflexivity)) as (w & l & Hl1 & Hl2 & Hl3).
  exists w, l. split; [exact Hl1|split; [exact Hl2|]]. apply Hl3; apply (bool_decide_unpack _); vm_compute; exact I.
Defined.

(** The agent of [a] is ahead, that of [b] is out of date. *)
Definition sample_read (s : VersionStatus) : HostRead :=
  {| hr_agent := {| cr_found := Some "1.0.2"; cr_status := s |}; hr_proxy := {| cr_found := Some "1.0.1"; cr_status := Current |} |}.
Definition sample_reads : gmap string HostRead := {[ "a" := sample_read Ahead; "b" := sample_read Outdated ]}.
Definition sample_phase : flow (ComponentOutcomes * list string) * gmap string (@World upgrade_host) :=
  agent_phase upgrade_config PlannerProps.sample_plan (λ _, "") (λ _, None) None (λ _ _, Err "") (λ _, Err "") "/srv/deploy.yml"
    ["a"; "b"] {["a"; "b"]} sample_reads upgrade_fleet.
Lemma agent_ahead_is_only_read_witness :
  (match sample_phase.1 with Fine (outcomes, _) => is_ok <$> outcomes !! "b" | _ => None end) = Some true ∧
  ∃ w l, sample_phase.2 !! "a" = Some w ∧ w_log w = l ++ [] ∧ Forall (exports upgrade_config) l.
Proof.
  split; [vm_compute; reflexivity|].
  apply (agent_ahead_is_only_read upgrade_config PlannerProps.sample_plan (λ _, "") (λ _, None) None (λ _ _, Err "") (λ _, Err "")
    "/srv/deploy.yml" "a" ["a"; "b"] {["a"; "b"]} sample_reads (sample_read Ahead) upgrade_fleet
    (@Build_World upgrade_host ApiProps.sample_store tt [])); [|vm_compute; reflexivity..].
  apply (bool_decide_unpack _); vm_compute; exact I.
Defined.
End UpgradeProps.
