(* ===== verification/SetupLaws.v ===== *)
(** What a set-up of servers has done when it ends well: every phase of [server setup] reached every
    server that was selected. *)

From S2P Require Import Prelude Text Bytes Substring Cidr Naming Schema Planner ServiceRuntime.
From S2P Require Import Membership Catalog Desired OpLog Leases Cron CronExec Replication Store Api CandidatePlan EnvResolution.
From S2P Require Import Locks Session Daemon ProxyRoutes SessionLaws Transaction ProxyScript HostProxy AuditTrail Teardown TeardownLaws Cascade.
From S2P Require Import Fleet FleetLaws FleetLogs LockSession NetworkSetup NetworkApply NetworkLaws Services CommandLogs EngineInstall ServerSetup ServerUpgrade UpgradeLaws.
Open Scope N_scope.

Lemma extends_issues `{Host} {A} P (m : M A) : issues P m → extends (λ _, True) m.
Proof. intros Hm w. destruct (Hm w) as (l & Hl & _). by exists l. Qed.
Lemma mjoin_empty {A} (ls : list (list A)) : mjoin ls = [] → Forall (λ l, l = []) ls.
Proof. induction ls as [|l ls IH]; [done|]. simpl. intros [-> H]%app_eq_nil. constructor; auto. Qed.
(** A program for each of some servers that reports what went wrong, and nothing did. *)
Lemma mapF_clean `{Host} {A B} (f : A → F (list B)) (Q : A → string → list Event → Prop) xs fl failures fl' :
  (∀ a, spreads (λ _, True) (f a)) → (∀ a n, monotone (Q a n)) →
  (∀ a b fl fl', f a fl = (Fine b, fl') → Since fl (λ n l, b = [] → Q a n l) fl') →
  mapF f xs fl = (Fine failures, fl') → mjoin failures = [] → Since fl (λ n l, ∀ a, a ∈ xs → Q a n l) fl'.
Proof.
  intros Hs Hm Hf Hrun Hnone%mjoin_empty. apply (mapF_fine _ (λ a b n l, b = [] → Q a n l)) in Hrun; [|done| |by intros; eauto].
  - eapply Since_impl; [|exact Hrun]. intros n l Hall a Ha. destruct (list_elem_of_lookup_1 _ _ Ha) as [i Hi].
    destruct (Forall2_lookup_l _ _ _ _ _ Hall Hi) as (b & Hb & HQ). apply HQ. by apply (Forall_lookup_1 _ _ _ _ Hnone Hb).
  - intros a b n. apply monotone_if, Hm.
Qed.

Section engine.
Context `{Host} (engine : ContainerEngine).

(** The engine was asked for its version, and the answer is of one that is supported. *)
Definition engine_ready (l : list Event) : Prop :=
  ∃ r, Executed (engine_to_string engine +:+ " --version") "" (Ok r) ∈ l ∧ success r = true ∧
    version_is_supported (trim (stdout r)) (min_version engine) = true.
Lemma engine_ready_monotone : monotone engine_ready.
Proof. apply monotone_ex. intros r. apply monotone_and; [apply monotone_in|apply monotone_const]. Qed.

Definition says_version (version : string) (l : list Event) : Prop :=
  ∃ r, Executed (engine_to_string engine +:+ " --version") "" (Ok r) ∈ l ∧ success r = true ∧ version = trim (stdout r).
Lemma ends_version_of : ends (version_of (engine_to_string engine)) says_version.
Proof.
  unfold version_of. eapply ends_impl; [eapply (ends_seq _ _ _ (λ r version l, success r = true ∧ version = trim (stdout r)));
    [apply (ends_execute _ "")|]|].
  - intros r. destruct (success r); [|apply ends_fail]. intros w. by exists [].
  - intros version l (r & l1 & l2 & -> & Hin & Hs & ->). exists r. split_and!; [apply elem_of_app; by right|done..].
Qed.
Lemma quiet_install : quiet (install engine).
Proof.
  unfold install, detect_os. quiet. match goal with |- quiet (run_install ?l) => induction l as [|c l IH]; simpl; quiet end.
Qed.
Lemma checked_version version l :
  says_version version l → check_engine_version (engine_to_string engine) version (min_version engine) = Ok () → engine_ready l.
Proof.
  intros (r & Hin & Hs & ->) Hc. exists r. split_and!; [done..|]. unfold check_engine_version in Hc. unfold version_is_supported.
  destruct (parse_version _) as [found|]; [|done]. by destruct (ltb _ _).
Qed.
Lemma ends_installed_version : ends (installed_version engine) (λ found l, found.2 = true → engine_ready l).
Proof.
  unfold installed_version. apply ends_last; [intros; apply monotone_if, engine_ready_monotone|unfold is_installed; quiet|].
  intros present. destruct (negb present); [eapply ends_impl; [apply ends_return|]; by intros ? ? ->|].
  eapply ends_impl.
  { eapply (ends_seq _ says_version _ (λ version found l, found.2 = true → version_is_supported version (min_version engine) = true));
      [apply ends_version_of|].
    intros version. destruct (version_is_supported _ _) eqn:Hv.
    - eapply ends_impl; [apply ends_quiet; unfold reconcile_managed_podman_static_configuration; quiet|done].
    - apply ends_last; [intros; apply monotone_const|destruct engine; quiet|]. intros _. eapply ends_impl; [apply ends_return|]. by intros ? ? ->. }
  intros found l (version & l1 & l2 & -> & (r & Hin & Hs & ->) & Hv) Hf. exists r. split_and!; [apply elem_of_app; by right|done|auto].
Qed.
Lemma ends_ensure_engine : ends (ensure_engine engine) (λ _, engine_ready).
Proof.
  assert (∀ previous, ends (_ ← install engine; version ← version_of (engine_to_string engine);
    _ ← of_result (check_engine_version (engine_to_string engine) version (min_version engine));
    mret match previous with Some from => EngineUpgraded from version | None => EngineInstalled version end) (λ _, engine_ready)) as Hnew.
  { intros previous. apply ends_last; [intros; apply engine_ready_monotone|apply quiet_install|intros _]. eapply ends_impl.
    { eapply (ends_seq _ says_version _ (λ version _ _, check_engine_version (engine_to_string engine) version (min_version engine) = Ok ()));
        [apply ends_version_of|].
      intros version. eapply ends_impl; [eapply (ends_seq _ _ _ (λ _ _ _, True)); [apply ends_of_result|intros; apply ends_quiet; quiet]|].
      by intros ? ? ([] & ? & ? & _ & ? & _). }
    intros status l (version & l1 & l2 & -> & Hs & Hc). eapply engine_ready_monotone; [apply subseteq_app_r|by eapply checked_version]. }
  unfold ensure_engine. eapply ends_impl.
  { eapply (ends_seq _ _ _ (λ found _ l, found.2 = false → engine_ready l)); [apply ends_installed_version|].
    intros [[version|] []]; [eapply ends_impl; [apply ends_return|done]|..];
      (eapply ends_impl; [first [exact (Hnew (Some version))|exact (Hnew None)]|auto]). }
  intros status l ([version current] & l1 & l2 & -> & Hc & Hn). simpl in *. destruct current.
  - eapply engine_ready_monotone; [apply subseteq_app_r|auto].
  - eapply engine_ready_monotone; [apply subseteq_app_l|auto].
Qed.
Lemma quiet_ensure_engine : quiet (ensure_engine engine).
Proof.
  unfold ensure_engine, installed_version, is_installed, version_of, reconcile_managed_podman_static_configuration.
  pose proof quiet_install. quiet.
Qed.
End engine.

Section setup.
Context `{ContentHash MembershipRecord, ContentHash CatalogRecord, ContentHash DesiredStateRecord, Labels}.
Context `{Host, MembershipText, CatalogText, Sha256, Connector, Redial, FloatText, Operator, RouteJson, ProxyBuild, LockJson, LocalTime}.
Context `{AgentBuild, LocalFiles, RecoveryArchive} (config : Config) (p : NetworkPlan).
Context (links : string → AgentLink) (ask : option (string → result string bool)) (error_text : MembershipError → string).
Context (env_var : string → option string) (current_exe : option string) (run_captured : string → list string → result string CommandResult).
Context (read_binary : string → result string string) (config_path : string) (lock_info : string → LockInfo) (elapsed : N).
Let project := config_project config.
Let engine := builder_engine (config_builder config).
Local Abbreviation T := (λ _ : list Event, True).
Hint Resolve closed_true : core.
Hint Resolve quiet_push quiet_ensure_agent quiet_ensure_engine quiet_ensure_proxy : quiet.

(** *** The engines *)

Lemma refusals_nil names n : refusals names = [] → n ∈ names → is_ok (connect_for_setup n) = true.
Proof.
  intros Hr Hn. destruct (connect_for_setup n) as [|e] eqn:He; [done|]. enough ((n, e) ∈ refusals names) as Hin.
  { rewrite Hr in Hin. by apply elem_of_nil in Hin. }
  apply list_elem_of_omap. exists n. by rewrite He.
Qed.
Lemma setup_engines_fine names fl fl' :
  setup_engines config names fl = (Fine (), fl') → Since fl (λ n l, n ∈ names → engine_ready engine l) fl'.
Proof.
  assert (∀ n, monotone (λ l, n ∈ names → engine_ready engine l)) as Hmono by (intros; apply monotone_if, engine_ready_monotone).
  apply Since_last; [apply spreads_all_options|done|]. intros _ fl1. cbv zeta. set (reached := filter (λ n, is_ok (connect_for_setup n) = true) names). case_bool_decide; [done|].
  unfold mbind at 1, F_bind at 1. destruct (mapF _ reached fl1) as [[failures| | |] fl2] eqn:Hm; try done.
  destruct (refusals names ++ mjoin failures) eqn:Hf; [|done]. apply app_eq_nil in Hf as [Hr Hf]. intros [= <-].
  apply (mapF_clean _ (λ a n l, n = a → engine_ready engine l)) in Hm; [| | | |done].
  - eapply Since_impl; [|exact Hm]. intros n l Hl Hn. apply (Hl n); [|done]. apply list_elem_of_filter. split; [|done]. by eapply refusals_nil.
  - intros a. unfold engine_on. spreads.
  - intros a n. apply monotone_if, engine_ready_monotone.
  - intros a b fl3 fl4. unfold engine_on. unfold mbind at 1, F_bind at 1. destruct (on a _ fl3) as [[r| | |] fl5] eqn:Ho; try done.
    eapply on_fine in Ho; [|apply ends_ensure_engine]. intros [= <- <-]. eapply Since_impl; [|exact Ho].
    intros n l Hl Hb Hn. destruct r; [by apply Hl|done].
Qed.

(** *** The keys *)

Lemma spreads_rotate name : spreads T (rotate_key_on config name).
Proof. unfold rotate_key_on. spreads. Qed.
Lemma force_rotate_fine names fl fl' :
  force_rotate_keys config names fl = (Fine (), fl') → Since fl (λ n l, n ∈ names → answered true (rotate_command config) l) fl'.
Proof.
  assert (∀ n, monotone (λ l, n ∈ names → answered true (rotate_command config) l)) as Hmono by (intros; apply monotone_if, answered_monotone).
  apply Since_last; [apply spreads_all_options|done|]. intros _ fl1.
  unfold mbind at 1, F_bind at 1. destruct (mapF _ names fl1) as [[failures| | |] fl2] eqn:Hm; try done.
  destruct (mjoin failures) eqn:Hf; [|done]. intros [= <-].
  apply (mapF_clean _ (λ a n l, n = a → answered true (rotate_command config) l)) in Hm; [| | | |done].
  - eapply Since_impl; [|exact Hm]. intros n l Hl Hn. by apply (Hl n).
  - apply spreads_rotate.
  - intros a n. apply monotone_if, answered_monotone.
  - intros a b fl3 fl4. unfold rotate_key_on. destruct (connect_for_setup a) as [|e]; cycle 1.
    { intros [= <- <-]. eapply Since_impl; [|apply Since_now]. by intros. }
    unfold mbind at 1, F_bind at 1. destruct (on a _ fl3) as [[r| | |] fl5] eqn:Ho; try done.
    eapply on_fine in Ho; [|apply (ends_execute _ "")]. intros [= <- <-]. eapply Since_impl; [|exact Ho].
    intros n l Hl Hb Hn. destruct r as [r|]; [|done]. destruct (success r) eqn:Hs; [|done]. exists "", r. split; [by apply Hl|done].
Qed.

(** *** The agents *)

(** The configuration planned for a server: its addresses and names in the network plan, the
    recovery epoch, the public addresses of its peers and the routes of its services. *)
Definition planned_mesh (recovery_epoch : N) (n : string) (mesh : NodeConfig) : Prop :=
  ∃ server_plan ips http tcp fl1 fl2, np_servers p !! n = Some server_plan ∧ peer_public_ips server_plan = Ok ips ∧
    server_routes config n (config_services config) fl1 = (Fine (http, tcp), fl2) ∧
    mesh = mesh_config config p n server_plan recovery_epoch ips http tcp.
Lemma enroll_target_mesh recovery_epoch scope view name fl view' outcome fl' :
  enroll_target config p error_text recovery_epoch scope view name fl = (Fine (view', outcome), fl') →
  match outcome with Ok mesh => planned_mesh recovery_epoch name mesh | Err _ => True end.
Proof.
  unfold enroll_target. destruct (connect_for_setup name); [|by intros [= _ <- _]].
  unfold mbind at 1, F_bind at 1. unfold index. destruct (np_servers p !! name) as [server_plan|] eqn:Hp; [|done]. cbn [mret F_ret].
  unfold mbind at 1, F_bind at 1. destruct (on_or name _ fl) as [[key| | |] fl1]; try done.
  destruct (_ || _); [by intros [= _ <- _]|].
  unfold mbind at 1, F_bind at 1. destruct (of_f _ fl1) as [[endpoint| | |] fl2]; try done.
  destruct (enroll_record _ _ _); [|by intros [= _ <- _]].
  unfold mbind at 1, F_bind at 1. destruct (peer_public_ips server_plan) as [ips|] eqn:Hi; [|done]. cbn [of_f mret F_ret].
  unfold mbind at 1, F_bind at 1. destruct (server_routes config name (config_services config) fl2) as [[[http tcp]| | |] fl3] eqn:Hr; try done.
  intros [= _ <- _]. by exists server_plan, ips, http, tcp, fl2, fl3.
Qed.
Lemma enroll_agent_targets_meshes names recovery_epoch scope view fl prepared records failures fl' :
  enroll_agent_targets config p error_text names recovery_epoch scope view fl = (Fine (prepared, records, failures), fl') →
  ∀ t, t ∈ prepared → planned_mesh recovery_epoch t.1 t.2.
Proof.
  assert (∀ names view fl view' prepared failures fl',
    enroll_targets config p error_text recovery_epoch scope view names fl = (Fine (view', prepared, failures), fl') →
    ∀ t, t ∈ prepared → planned_mesh recovery_epoch t.1 t.2) as Hall.
  { clear. induction names as [|name names IH]; intros view fl view' prepared failures fl'; simpl.
    { intros [= _ <- _ _] t Ht. by apply elem_of_nil in Ht. }
    unfold mbind at 1, F_bind at 1. destruct (enroll_target _ _ _ _ _ _ _ fl) as [[[view1 outcome]| | |] fl1] eqn:Ho; try done.
    apply enroll_target_mesh in Ho.
    unfold mbind at 1, F_bind at 1. destruct (enroll_targets _ _ _ _ _ _ _ fl1) as [[[[view2 prepared2] failures2]| | |] fl2] eqn:Hr; try done.
    specialize (IH _ _ _ _ _ _ Hr). destruct outcome; intros [= _ <- _ _] t; [|apply IH]. intros [->|Ht]%elem_of_cons; auto. }
  unfold enroll_agent_targets. unfold mbind at 1, F_bind at 1. destruct (all_options _ _ fl) as [[[]| | |] fl1]; try done.
  unfold mbind at 1, F_bind at 1. destruct (enroll_targets _ _ _ _ _ _ _ fl1) as [[[[view2 prepared2] failures2]| | |] fl2] eqn:Hr; try done.
  intros [= <- _ _ _]. by eapply Hall.
Qed.

(** The agent was given its files, among them [mesh] and [records], was started and took [records]. *)
Definition agent_given (mesh : NodeConfig) (records : list MembershipRecord) (l : list Event) : Prop :=
  agent_files config (mesh_json mesh) (membership_json records) l ∧
  wrote (file_command "0600" (update_path project)) (membership_json records) l ∧ agent_runs config l.
Lemma agent_given_monotone mesh records : monotone (agent_given mesh records).
Proof. repeat apply monotone_and; first [apply wrote_monotone|apply answered_monotone]. Qed.
(** The same, with the configuration planned for the server. *)
Definition agent_set_up (records : list MembershipRecord) (n : string) (l : list Event) : Prop :=
  ∃ recovery_epoch mesh, read_recovery_epoch config_path = Ok recovery_epoch ∧ planned_mesh recovery_epoch n mesh ∧ agent_given mesh records l.
Lemma agent_set_up_monotone records n : monotone (agent_set_up records n).
Proof.
  do 2 (apply monotone_ex; intros ?). do 2 (apply monotone_and; [apply monotone_const|]). apply agent_given_monotone.
Qed.

Lemma ends_push_file records :
  ends (push_membership project records) (λ _, wrote (file_command "0600" (update_path project)) (membership_json records)).
Proof.
  unfold push_membership. eapply ends_impl.
  { eapply (ends_seq _ (λ r l, Executed (file_command "0600" (update_path project)) (membership_json records) (Ok r) ∈ l) _
      (λ r _ _, success r = true)); [apply ends_execute|].
    intros r. destruct (success r); simpl; [|apply ends_fail]. eapply ends_impl; [apply ends_quiet; quiet|done]. }
  intros [] l (r & l1 & l2 & -> & Hin & Hs). exists r. split; [apply elem_of_app; by right|done].
Qed.

Lemma spreads_install_agent source script records target : spreads T (install_agent config read_binary source script records target).
Proof. destruct target as [name mesh]. unfold install_agent, install_binary, expect_script. spreads. Qed.
Lemma install_binary_fine records name mesh binary b fl fl' :
  install_binary config read_binary records name mesh binary fl = (Fine b, fl') →
  Since fl (λ n l, b = [] → n = name → agent_given mesh records l) fl'.
Proof.
  unfold install_binary. unfold mbind at 1, F_bind at 1. destruct (on name (ensure_agent _ _ _ _ _) fl) as [[r| | |] fl1] eqn:Ha; try done.
  eapply on_fine in Ha; [|apply ends_and; [apply ends_agent_files|apply ends_ensure_agent]]. destruct r as [result|e]; cycle 1.
  { intros [= <- <-]. eapply Since_impl; [|exact Ha]. by intros. }
  unfold mbind at 1, F_bind at 1. destruct (on name (push_membership _ _) fl1) as [[r| | |] fl2] eqn:Hp; try done.
  eapply on_fine in Hp; [|apply ends_and; [apply ends_push_file|apply ends_push]]. intros [= <- <-]. eapply Since_then; [|exact Ha|exact Hp].
  intros n l l' Hl1 Hl2 Hb Hn. destruct r; [|done]. destruct (Hl1 Hn) as [Hf Hs], (Hl2 Hn) as [Hu Hi].
  split; [eapply agent_files_monotone; [apply subseteq_app_r|done]|].
  split; [eapply wrote_monotone; [apply subseteq_app_l|done]|].
  split; (eapply answered_monotone; [|done]); [apply subseteq_app_r|apply subseteq_app_l].
Qed.
Lemma install_agent_fine source script records target b fl fl' :
  install_agent config read_binary source script records target fl = (Fine b, fl') →
  Since fl (λ n l, b = [] → n = target.1 → agent_given target.2 records l) fl'.
Proof.
  destruct target as [name mesh]. destruct source as [path|download]; [apply install_binary_fine|]. simpl.
  assert (∀ n, monotone (λ l, b = [] → n = name → agent_given mesh records l)) as Hmono
    by (intros; do 2 apply monotone_if; apply agent_given_monotone).
  apply Since_last; [by apply (spreads_panics T)|done|]. intros s fl1.
  apply Since_last; [apply (spreads_on_or T); [done|apply extends_quiet; [done|quiet]]|done|]. intros r fl2.
  destruct (success r); [apply install_binary_fine|]. intros [= <- <-]. eapply Since_impl; [|apply Since_now]. by intros.
Qed.
Lemma spreads_decommission yes scope view : spreads T (decommission config ask yes scope view).
Proof. unfold decommission, confirmed. spreads. Qed.
(** What holds for some value a later program finds. *)
Lemma Since_last_some {A B X} (m : F A) (f : A → F B) (P : X → string → list Event → Prop) fl b fl' :
  spreads T m → (∀ x n, monotone (P x n)) →
  (∀ a fl1, m fl = (Fine a, fl1) → f a fl1 = (Fine b, fl') → ∃ x, Since fl1 (P x) fl') →
  (m ≫= f) fl = (Fine b, fl') → ∃ x, Since fl (P x) fl'.
Proof.
  intros Hm HP Hf. specialize (Hm fl). unfold mbind, F_bind. destruct (m fl) as [[a| | |] fl1]; try done. intros Hrun.
  destruct (Hf a fl1 eq_refl Hrun) as [x Hx]. exists x. eapply Since_behind; [apply HP|exact Hm|exact Hx].
Qed.
Lemma setup_agents_fine names yes sessions fl fl' :
  setup_agents config p ask error_text env_var current_exe run_captured read_binary config_path names yes sessions fl = (Fine (), fl') →
  ∃ records, Since fl (λ n l, n ∈ names → agent_set_up records n l) fl'.
Proof.
  assert (∀ records n, monotone (λ l, n ∈ names → agent_set_up records n l)) as Hmono by (intros; apply monotone_if, agent_set_up_monotone).
  apply (Since_last_some _ _ (λ records n l, n ∈ names → agent_set_up records n l)); [by apply (spreads_of_f T)|done|]. intros [source script] fl1 _.
  apply (Since_last_some _ _ (λ records n l, n ∈ names → agent_set_up records n l)); [by apply (spreads_of_f T)|done|]. intros recovery_epoch fl2 Hepoch.
  assert (read_recovery_epoch config_path = Ok recovery_epoch) as Hre by (destruct (read_recovery_epoch config_path); [by injection Hepoch as -> _|done]).
  apply (Since_last_some _ _ (λ records n l, n ∈ names → agent_set_up records n l)); [apply spreads_view|done|]. intros view fl3 _.
  apply (Since_last_some _ _ (λ records n l, n ∈ names → agent_set_up records n l)); [apply spreads_decommission|done|]. intros view' fl4 _.
  unfold mbind at 1, F_bind at 1. set (scope := {| scope_project_id := _; scope_recovery_epoch := _ |}).
  pose proof (spreads_enroll config p error_text names recovery_epoch scope view' fl4) as Hs.
  destruct (enroll_agent_targets _ _ _ _ _ _ _ fl4) as [[[[prepared records] failures]| | |] fl5] eqn:He; try done.
  pose proof (enroll_agent_targets_meshes _ _ _ _ _ _ _ _ _ He) as Hmesh.
  apply enroll_agent_targets_parts in He. unfold mbind at 1, F_bind at 1.
  destruct (mapF _ prepared fl5) as [[uninstalled| | |] fl6] eqn:Hm; try done. destruct (failures ++ mjoin uninstalled) eqn:Hf; [|done].
  apply app_eq_nil in Hf as [-> Hf]. apply (mapF_clean _ (λ t n l, n = t.1 → agent_given t.2 records l)) in Hm; [| | | |done].
  - unfold mbind at 1, F_bind at 1. pose proof (spreads_push_everywhere config records (list_to_set names) fl6) as Hp.
    destruct (push_membership_everywhere _ _ _ fl6) as [[u| | |] fl7]; try done. intros [= <-]. exists records.
    eapply Since_behind; [done|exact Hs|]. eapply Since_before; [done| |exact Hp]. eapply Since_impl; [|exact Hm].
    intros n l Hl Hn. rewrite He, app_nil_r in Hn. apply list_elem_of_fmap in Hn as (t & -> & Ht).
    exists recovery_epoch, t.2. split_and!; [done|by apply Hmesh|by apply (Hl t)].
  - intros. apply spreads_install_agent.
  - intros t n. apply monotone_if, agent_given_monotone.
  - intros t b ? ?. apply install_agent_fine.
Qed.

(** *** The network *)

Context (config_NoDup : NoDup (config_servers config).*1).

Lemma enroll_hosts_sublist target_names hosts names fl r fl' :
  enroll_hosts config target_names hosts names fl = (Fine r, fl') → fl' = fl ∧ ∃ ks, r.1 = hosts ++ ks ∧ ks `sublist_of` names.
Proof.
  revert hosts fl. induction names as [|name names IH]; intros hosts fl; simpl.
  { intros [= <- <-]. split; [done|]. exists []. by rewrite app_nil_r. }
  unfold mbind at 1, F_bind at 1. destruct (hm_get _ name) as [named|]; [|done]. simpl. unfold mbind at 1, F_bind at 1.
  destruct (connect_options name named); [|done]. simpl. destruct (connect name), (bool_decide (name ∈ target_names)); try done.
  - intros (-> & ks & -> & Hs)%IH. split; [done|]. exists (name :: ks). rewrite <-(assoc_L (++)). by split; [|constructor].
  - intros [= <- <-]. split; [done|]. exists [name]. split; [done|]. constructor. apply sublist_nil_l.
  - intros (-> & ks & -> & Hs)%IH. split; [done|]. exists ks. by split; [|constructor].
Qed.
Lemma names_NoDup : NoDup (server_names_sorted config).
Proof. unfold server_names_sorted. by rewrite sort_by_Permutation. Qed.
Lemma apply_connected_grows target_names hosts allow fl fl' :
  NoDup hosts → apply_connected config p target_names hosts allow fl = (Fine (), fl') → Since fl (λ _, T) fl'.
Proof.
  intros Hd Hr. pose proof (apply_connected_holds config p fl target_names hosts allow Hd fl) as Hh.
  rewrite Hr in Hh. destruct Hh as [artifact Hs]; [by apply Since_now|]. by eapply Since_impl.
Qed.
Lemma f_context_fine {A} what (m : F A) fl a fl' : f_context what m fl = (Fine a, fl') → m fl = (Fine a, fl').
Proof. unfold f_context, attempts, mbind, F_bind. destruct (m fl) as [[b|e| |] fl1]; try done. Qed.
Lemma enrollment_hosts_fine target_names fl hosts fl' :
  connect_enrollment_hosts config target_names fl = (Fine hosts, fl') → fl' = fl ∧ NoDup hosts.
Proof.
  unfold connect_enrollment_hosts, require_ssh. unfold mbind at 1, F_bind at 1. destruct (config_ssh config); [|done]. simpl.
  unfold mbind at 1, F_bind at 1. destruct (enroll_hosts _ _ _ _ fl) as [[[hosts' found]| | |] fl1] eqn:He; try done.
  apply enroll_hosts_sublist in He as (-> & ks & Hk & Hs). simpl in Hk. subst hosts'. case_match; [done|]. intros [= <- <-]. split; [done|].
  eapply sublist_NoDup; [|exact Hs]. apply NoDup_app. split_and!.
  - unfold btree_elems. rewrite sort_by_Permutation. apply NoDup_elements.
  - intros n Hn [Hn' _]%list_elem_of_filter. by apply elem_of_btree_elems in Hn.
  - apply NoDup_filter, names_NoDup.
Qed.
Lemma spreads_stale deploying hosts : spreads T (stale_hosts p deploying hosts).
Proof.
  induction hosts as [|host hosts IH]; simpl; [by apply spreads_ret|].
  apply spreads_bind; [done| |intros current; apply spreads_bind; [done|done|intros; by apply spreads_ret]].
  destruct deploying; [by apply spreads_ret|]. apply spreads_context; [done|]. apply spreads_on_or; [done|].
  eapply extends_issues, generation_is_current_neutral.
Qed.
Lemma connect_all_fine fl hosts fl' : connect_all config fl = (Fine hosts, fl') → hosts = server_names_sorted config.
Proof.
  unfold connect_all. case_bool_decide; [done|]. unfold mbind at 1, F_bind at 1. destruct (require_ssh _ _ fl) as [[u| | |] fl1]; try done.
  unfold mbind at 1, F_bind at 1. destruct (all_options _ _ fl1) as [[v| | |] fl2]; try done. by case_match; [intros [= <- <-]|].
Qed.
Lemma spreads_connect_all : spreads T (connect_all config).
Proof.
  unfold connect_all, require_ssh. case_bool_decide; [by apply spreads_stops|]. apply spreads_bind; [done|spreads|intros _].
  apply spreads_bind; [done|apply spreads_all_options|intros _]. case_match; [by apply spreads_ret|by apply spreads_stops].
Qed.
Lemma spreads_generation : spreads T (short_generation p).
Proof. apply spreads_stay; [done|]. intros fl. unfold short_generation. by case_match. Qed.
Lemma spreads_legacy :
  spreads T (_ ← Fleet.each (λ host, on_or host (remove_legacy_service_runtime p)) (server_names_sorted config); _ ← short_generation p; mret ()).
Proof.
  apply spreads_bind; [done| |intros _; apply spreads_bind; [done|apply spreads_generation|intros; by apply spreads_ret]].
  apply spreads_each; [done|]. intros host. apply spreads_on_or; [done|]. eapply extends_issues, legacy_neutral.
Qed.
Lemma reconcile_cluster_grows retry fl fl' : reconcile_cluster config p retry fl = (Fine (), fl') → Since fl (λ _, T) fl'.
Proof.
  assert (∀ n : string, monotone ((λ _, T) n)) as Hmono by (intros; apply monotone_const).
  unfold reconcile_cluster. unfold mbind at 1, F_bind at 1.
  set (what := "Could not reach every configured server for network reconciliation. Restore SSH access and retry `" +:+ _).
  pose proof (spreads_context T closed_true what _ spreads_connect_all fl) as Hc.
  destruct (f_context what (connect_all config) fl) as [[hosts| | |] fl1] eqn:Hh; try done. apply f_context_fine, connect_all_fine in Hh as ->.
  simpl in Hc. intros Hrun. apply (Since_behind (λ _, T) fl fl1 fl' Hmono Hc). revert Hrun.
  apply Since_last; [apply spreads_stale|done|]. intros stale fl2. case_bool_decide.
  - intros Hrun. pose proof (spreads_legacy fl2) as Hs. by rewrite Hrun in Hs.
  - apply Since_last; [apply spreads_generation|done|]. intros gen fl3 Hrun%f_context_fine.
    eapply apply_connected_grows; [apply names_NoDup|exact Hrun].
Qed.
Lemma reconcile_grows target_names fl fl' : reconcile_for_server_setup config p target_names fl = (Fine (), fl') → Since fl (λ _, T) fl'.
Proof.
  unfold reconcile_for_server_setup. case_bool_decide; [apply reconcile_cluster_grows|]. unfold mbind at 1, F_bind at 1.
  destruct (connect_enrollment_hosts _ _ fl) as [[hosts| | |] fl1] eqn:Hh; try done. apply enrollment_hosts_fine in Hh as [-> Hd].
  intros Hrun%f_context_fine. by eapply apply_connected_grows.
Qed.

(** *** The proxies, what ran before, the desired state *)

Lemma quiet_audit action status message scope duration : quiet (record project action status message scope None duration).
Proof. unfold record, new_entry, append_entry. quiet. Qed.
Hint Resolve quiet_audit : quiet.
Lemma spreads_setup_proxy name : spreads T (setup_proxy_on config p elapsed name).
Proof. unfold setup_proxy_on, audit_setup. spreads. Qed.
Lemma setup_proxy_fine name b fl fl' :
  setup_proxy_on config p elapsed name fl = (Fine b, fl') → Since fl (λ n l, b = [] → n = name → proxy_done config p n false l) fl'.
Proof.
  unfold setup_proxy_on. destruct (connect_for_setup name) as [u|e]; cycle 1.
  { intros [= <- <-]. eapply Since_impl; [|apply Since_now]. by intros. }
  unfold mbind at 1, F_bind at 1. unfold index. destruct (np_servers p !! name) as [server_plan|] eqn:Hp; [|done]. simpl.
  unfold mbind at 1, F_bind at 1. destruct (proxy_network p server_plan) as [network|e] eqn:Hn; [|done]. simpl.
  unfold mbind at 1, F_bind at 1. destruct (on name (ensure_proxy _ _ _) fl) as [[r| | |] fl1] eqn:Ho; try done.
  eapply on_fine in Ho; [|apply ends_ensure_proxy].
  assert (∀ status message, spreads T (audit_setup config elapsed name status message)) as Hs by (unfold audit_setup; spreads).
  destruct r as [status|e]; (unfold mbind at 1, F_bind at 1;
    match goal with |- context [audit_setup ?c ?t ?n ?st ?m fl1] => specialize (Hs st m fl1); destruct (audit_setup c t n st m fl1) as [[v| | |] fl2] end;
    try done; intros [= <- <-]); [|by eapply Since_then; [by intros|exact Ho|exact Hs]].
  eapply Since_then; [|exact Ho|exact Hs]. intros n l l' Hl _ _ ->. exists server_plan, network. split_and!; [done..|].
  eapply proxy_runs_monotone; [apply subseteq_app_r|by apply Hl].
Qed.
Lemma setup_proxies_fine names fl fl' :
  setup_proxies config p elapsed names fl = (Fine (), fl') → Since fl (λ n l, n ∈ names → proxy_done config p n false l) fl'.
Proof.
  assert (∀ n, monotone (λ l, n ∈ names → proxy_done config p n false l)) as Hmono by (intros; apply monotone_if, proxy_done_monotone).
  apply Since_last; [apply spreads_all_options|done|]. intros _ fl1. unfold mbind at 1, F_bind at 1.
  destruct (mapF _ names fl1) as [[failures| | |] fl2] eqn:Hm; try done. destruct (mjoin failures) eqn:Hf; [|done]. intros [= <-].
  apply (mapF_clean _ (λ a n l, n = a → proxy_done config p n false l)) in Hm; [| | | |done].
  - eapply Since_impl; [|exact Hm]. intros n l Hl Hn. by apply (Hl n).
  - apply spreads_setup_proxy.
  - intros a n. apply monotone_if, proxy_done_monotone.
  - intros a b ? ?. apply setup_proxy_fine.
Qed.

Lemma quiet_assess server_plan : quiet (assess_host config server_plan).
Proof. unfold assess_host, probe_legacy_runtime, fetch, list_managed_containers. quiet. Qed.
Lemma quiet_collect {A B} (f : A → M B) l : (∀ a, quiet (f a)) → quiet (collect f l).
Proof. intros Hf. induction l as [|a l IH]; simpl; quiet. Qed.
Lemma extends_records `{AgentLink} : extends T catalog.
Proof.
  apply extends_bind; [done|by apply extends_call|]. intros response. apply extends_quiet; [done|]. unfold unexpected.
  destruct response; quiet.
Qed.
Lemma quiet_discover server containers records entry : quiet (discover_service config server containers records entry).
Proof. unfold discover_service, inspect_ip_address, inspect_image. destruct entry. quiet. Qed.
Lemma extends_discover `{AgentLink} server : extends T (discover_candidates_on config server).
Proof.
  apply extends_bind; [done|apply extends_quiet; [done|unfold list_managed_containers; quiet]|intros containers].
  apply extends_bind; [done|apply extends_attempt, extends_records|]. intros [records|e]; (apply extends_quiet; [done|]); [|quiet].
  apply quiet_bind; [apply quiet_collect, quiet_discover|quiet].
Qed.
Lemma extends_commit `{AgentLink} c : extends T (commit_candidate c).
Proof.
  apply extends_bind; [done|by apply extends_call|]. intros response. apply extends_quiet; [done|]. destruct response; quiet.
Qed.
Lemma spreads_import names dry_run yes : spreads T (perform_import config links p ask names dry_run yes).
Proof.
  apply spreads_bind; [done|apply spreads_all_options|intros _]. case_match; [|by apply spreads_stops]. unfold run_import.
  apply spreads_bind; [done|apply spreads_each; [done|]|intros _].
  { intros n. apply spreads_bind; [done|by apply spreads_index|intros server_plan]. apply spreads_bind; [done| |intros; by apply spreads_ret].
    apply spreads_on; [done|apply extends_quiet; [done|apply quiet_assess]]. }
  apply spreads_bind; [done|apply spreads_mapF; [done|intros n; apply spreads_on_or; [done|apply extends_discover]]|intros found].
  case_match; [by apply spreads_ret|]. case_match; [by apply spreads_ret|].
  apply spreads_bind; [done|unfold confirmed; spreads|intros _].
  apply spreads_bind; [done| |intros results; case_match; [by apply spreads_ret|by apply spreads_stops]].
  apply spreads_mapF; [done|]. intros c. apply spreads_bind; [done|apply spreads_on; [done|apply extends_commit]|intros; by apply spreads_ret].
Qed.
Lemma spreads_replay names : spreads T (replay_recovery_desired_state config links config_path names).
Proof.
  unfold replay_recovery_desired_state. apply spreads_bind; [done|by apply spreads_of_f|intros epoch]. case_match; [by apply spreads_ret|].
  apply spreads_bind; [done|by apply spreads_of_f|intros directory]. case_match; [|by apply spreads_ret].
  apply spreads_bind; [done|by apply spreads_of_f|intros source]. case_match; [by apply spreads_stops|].
  case_match; [by apply spreads_ret|]. case_match; [by apply spreads_ret|].
  apply spreads_bind; [done|apply spreads_all_options|intros _]. apply spreads_bind; [done|by apply spreads_of_f|intros _].
  apply spreads_bind; [done|apply spreads_each; [done|]|intros _].
  { intros record. apply spreads_on_or; [done|]. apply extends_bind; [done|by apply extends_call|]. intros. apply extends_quiet; [done|quiet]. }
  apply spreads_bind; [done|by apply spreads_of_f|intros; by apply spreads_ret].
Qed.

(** *** The command *)

(** A server that was set up: its engine is one that is supported, its keys were made anew if that
    was asked for, its agent was given its configuration and the members, and its proxy has its
    configuration on the network planned for it. *)
Definition set_up (rotate_key : bool) (records : list MembershipRecord) (n : string) (l : list Event) : Prop :=
  engine_ready engine l ∧ (rotate_key = true → answered true (rotate_command config) l) ∧
  agent_set_up records n l ∧ proxy_done config p n false l.
Local Ltac lasting :=
  intros; repeat first [apply monotone_if|apply engine_ready_monotone|apply answered_monotone|apply agent_set_up_monotone|apply proxy_done_monotone|
    apply monotone_and].
Lemma set_up_monotone rotate_key records n : monotone (set_up rotate_key records n).
Proof. unfold set_up. lasting. Qed.
Lemma rotate_fine (rotate_key : bool) names fl fl' :
  (if rotate_key then force_rotate_keys config names else mret ()) fl = (Fine (), fl') →
  Since fl (λ n l, n ∈ names → rotate_key = true → answered true (rotate_command config) l) fl'.
Proof.
  destruct rotate_key; intros Hk; [eapply Since_impl; [|by eapply force_rotate_fine]; auto|]. injection Hk as <-.
  eapply Since_impl; [|apply Since_now]. by intros.
Qed.
(** The phases after the agents. *)
Lemma last_phases_fine names (import dry_run yes : bool) fl fl' :
  (_ ← (if import then perform_import config links p ask names dry_run yes else mret ());
   _ ← setup_proxies config p elapsed names; _ ← replay_recovery_desired_state config links config_path names; mret ()) fl = (Fine (), fl') →
  Since fl (λ n l, n ∈ names → proxy_done config p n false l) fl'.
Proof.
  assert (∀ n, monotone (λ l, n ∈ names → proxy_done config p n false l)) as Hmono by (intros; apply monotone_if, proxy_done_monotone).
  apply Since_last; [destruct import; [apply spreads_import|by apply spreads_ret]|done|]. intros _ fl1.
  unfold mbind at 1, F_bind at 1. destruct (setup_proxies _ _ _ _ fl1) as [[[]| | |] fl2] eqn:Hp; try done. apply setup_proxies_fine in Hp.
  unfold mbind at 1, F_bind at 1. pose proof (spreads_replay names fl2) as Hs.
  destruct (replay_recovery_desired_state _ _ _ _ fl2) as [[k| | |] fl3]; try done. intros [= <-]. by eapply Since_before.
Qed.
Lemma setup_locked_fine names target_names sessions yes rotate_key import dry_run fl fl' :
  setup_locked config p links ask error_text env_var current_exe run_captured read_binary config_path elapsed names target_names sessions
    yes rotate_key import dry_run fl = (Fine (), fl') →
  ∃ records, Since fl (λ n l, n ∈ names → set_up rotate_key records n l) fl'.
Proof.
  unfold setup_locked. unfold mbind at 1, F_bind at 1. destruct (setup_engines _ _ fl) as [[[]| | |] fl1] eqn:He; try done.
  apply setup_engines_fine in He. unfold mbind at 1, F_bind at 1.
  destruct ((if rotate_key then force_rotate_keys config names else mret ()) fl1) as [[[]| | |] fl2] eqn:Hk; try done. apply rotate_fine in Hk.
  unfold mbind at 1, F_bind at 1. unfold attempts. destruct (reconcile_for_server_setup _ _ _ fl2) as [[[]|e| |] fl3] eqn:Hr; try done.
  apply reconcile_grows in Hr. unfold mbind at 1, F_bind at 1. cbn [map_err of_f mret F_ret]. unfold mbind at 1, F_bind at 1.
  destruct (setup_agents _ _ _ _ _ _ _ _ _ _ _ _ fl3) as [[[]| | |] fl4] eqn:Ha; try done. apply setup_agents_fine in Ha as [records Ha].
  intros Hp%last_phases_fine. exists records.
  assert (Since fl3 (λ n l, (n ∈ names → agent_set_up records n l) ∧ (n ∈ names → proxy_done config p n false l)) fl') as Hap
    by (eapply Since_both; [lasting..|exact Ha|exact Hp]).
  eapply Since_behind in Hap; [|lasting|exact Hr].
  eapply Since_impl; [|eapply Since_both; [| |exact He|eapply Since_both; [| |exact Hk|exact Hap]]]; [|lasting..].
  intros n l (Hl1 & Hl2 & Hl3 & Hl4) Hn. split_and!; auto.
Qed.

(** C19: A set-up that ends well has prepared every server it was to prepare.  When the command ends
    without an error there is one list of members such that, on each configured server that the
    host filters select, the log has: an answer of the container engine with a version that is
    supported (or cannot be told); the rotation of the keys, answered with success, if it was
    asked for; the files of the agent, written with success, among them the configuration made
    of the server's place in the network plan, its peers, the recovery epoch and the routes of
    its services, and the list of members; the start of the agent and its import of the list,
    answered with success; the configuration of the proxy, written with success, its container
    seen to run with the wanted image and fingerprint or replaced with success, seen on the bridge
    planned for the server with the planned address or connected to it with success where the
    plan has one, and an answer of it with a version that will do. *)
Theorem clean_setup_prepares_every_server hosts yes rotate_key import dry_run targets fl fl' :
  setup_servers config p links ask error_text env_var current_exe run_captured read_binary config_path lock_info elapsed
    hosts yes rotate_key import dry_run fl = (Fine (), fl') →
  setup_targets p hosts = Ok targets →
  ∃ records, Since fl (λ n l, n ∈ server_names_sorted config → n ∈ targets → set_up rotate_key records n l) fl'.
Proof.
  intros Hrun Htargets. set (P := λ records n l, n ∈ server_names_sorted config → n ∈ targets → set_up rotate_key records n l).
  assert (∀ records n, monotone (P records n)) as Hmono.
  { intros records n. do 2 apply monotone_if. apply set_up_monotone. }
  revert Hrun. unfold setup_servers. apply (Since_last_some _ _ P); [unfold require_ssh; spreads|done|]. intros _ fl1 _. case_bool_decide; [done|].
  rewrite Htargets. change (of_f (Ok targets)) with (mret targets : F (gset string)). unfold mbind at 1, F_bind at 1. cbn [mret F_ret].
  set (names := filter (λ n, n ∈ targets) (server_names_sorted config)).
  apply (Since_last_some _ _ P); [unfold confirmed; spreads|done|]. intros _ fl2 _.
  apply (Since_last_some _ _ P); [apply spreads_all_options|done|]. intros _ fl3 _.
  case_match; [|done]. intros (fl4 & fl5 & Hs1 & Hop & Hs2)%(with_locks_fine T closed_true).
  apply setup_locked_fine in Hop as [records Hop]. exists records.
  eapply Since_behind; [done|exact Hs1|]. eapply Since_before; [done| |exact Hs2]. eapply Since_impl; [|exact Hop].
  intros n l Hl Hn Ht. apply Hl. by apply list_elem_of_filter.
Qed.
End setup.

Module SetupProps.
Import UpgradeProps.

(** Machines that know their name: every command succeeds, the mesh is the planned one, the engine
    is new enough and containers run. *)
Definition setup_host : Host :=
  {| machine := string;
     exec c _ name :=
       (Ok {| stdout := if contains_str "mesh-generation" c then np_mesh_generation PlannerProps.sample_plan
                        else if contains_str "public.key" c then name
                        else if contains_str "--version" c then "Docker version 29.4.0"
                        else if contains_str "State.Status" c then "running" else "1.0.0";
              stderr := ""; success := true; code := Some 0 |}, name);
     exec_stream _ m := (Ok [], m); clock _ := 0; sleep _ m := m; unix_time _ := Ok 0; session_host := "a";
     error_message _ := ""; response_debug _ := "" |}.
Definition catalog_text : CatalogText := {| catalog_of_json _ := Ok [] |}.
Definition no_archive : RecoveryArchive := {| read_source _ := None; rename_source _ _ := Ok () |}.
#[local] Existing Instances MembershipProps.sample_hash ApiProps.commit_hash DesiredProps.sample_hash LeasesProps.sample_labels
  constant_sha256 setup_host FleetProps.sample_float FleetProps.sample_connector TeardownProps.sample_operator lock_json local_time
  member_text no_redial route_json proxy_build agent_build no_local_files catalog_text no_archive.

Definition setup_fleet : gmap string (@World setup_host) :=
  {[ "a" := @Build_World setup_host ApiProps.sample_store "a" []; "b" := @Build_World setup_host ApiProps.sample_store "b" [] ]}.
Definition sample_setup : flow () * gmap string (@World setup_host) :=
  setup_servers upgrade_config PlannerProps.sample_plan version_links None (λ _, "") (λ _, None) None (λ _ _, Err "") (λ _, Err "")
    "/srv/deploy.yml" (λ _, info) 0 None true true true false setup_fleet.
Lemma clean_setup_prepares_every_server_witness :
  sample_setup.1 = Fine () ∧
  ∃ w l records, sample_setup.2 !! "b" = Some w ∧ w_log w = l ++ [] ∧
    set_up upgrade_config PlannerProps.sample_plan "/srv/deploy.yml" true records "b" l.
Proof.
  assert (sample_setup.1 = Fine ()) as Hok by (vm_compute; reflexivity). split; [exact Hok|].
  pose proof (clean_setup_prepares_every_server upgrade_config PlannerProps.sample_plan version_links None (λ _, "") (λ _, None) None
    (λ _ _, Err "") (λ _, Err "") "/srv/deploy.yml" (λ _, info) 0) as Hw.
  specialize (Hw ltac:(apply (bool_decide_unpack _); vm_compute; exact I) None true true true false {["a"; "b"]} setup_fleet sample_setup.2).
  destruct (Hw ltac:(rewrite <-Hok; apply surjective_pairing) ltac:(vm_compute; reflexivity)) as [records Hall].
  destruct (Hall "b" (@Build_World setup_host ApiProps.sample_store "b" []) ltac:(vm_compute; reflexivity)) as (w & l & Hl1 & Hl2 & Hl3).
  exists w, l, records. split; [exact Hl1|split; [exact Hl2|]]. apply Hl3; apply (bool_decide_unpack _); vm_compute; exact I.
Defined.
End SetupProps.
