(* ===== verification/RemoveLaws.v ===== *)
(** The properties of removing services and pruning their images: what must come before what on a
    server, and what a command that ends well has done. *)

From S2P Require Import Prelude Text Bytes Substring Cidr Naming Pattern Schema Planner ServiceRuntime.
From S2P Require Import Membership Catalog Desired OpLog Leases Cron CronExec Replication Store Api CandidatePlan EnvResolution.
From S2P Require Import Reconcile DeployGate Locks Session ProxyRoutes SessionLaws Transaction ProxyScript HostProxy AuditTrail Teardown TeardownLaws Cascade.
From S2P Require Import Fleet FleetLaws FleetLogs LockSession LockLaws NetworkSetup Services ServiceRemove CommandLogs ServiceLaws.
Open Scope N_scope.

(** ** One endpoint *)

(** The agent has taken a deployment for a tombstone; it has released its address. *)
Definition tombstoned (deployment : string) (l : list Event) : Prop :=
  ∃ service replica address ports image health record,
    accepted (CatalogCommit service replica deployment address ports image Tombstoned health) (CatalogCommitted record) l.
Definition released (deployment : string) (l : list Event) : Prop :=
  ∃ timestamp lease, accepted (ReleaseAddress deployment timestamp) (AddressReleased lease) l.

Lemma tombstoned_monotone d : monotone (tombstoned d).
Proof.
  intros l l' Hsub (service & replica & address & ports & image & health & record & Ha).
  exists service, replica, address, ports, image, health, record. by eapply accepted_monotone.
Qed.
Lemma released_monotone d : monotone (released d).
Proof. intros l l' Hsub (t & x & Ha). exists t, x. by eapply accepted_monotone. Qed.

Section removal.
Context `{ContentHash MembershipRecord, ContentHash CatalogRecord, ContentHash DesiredStateRecord, Labels, Host}.
Context (engine : ContainerEngine) (project : string).

(** A record becomes a tombstone once its container was removed or an inspection of it failed,
    and its address is released once it is a tombstone. *)
Definition removal_due (l : list Event) (e : Event) : Prop :=
  match e with
  | Asked request _ _ _ _ =>
      match request_body request with
      | CatalogCommit service _ deployment _ _ _ Tombstoned _ => removed_or_unseen engine (dynamic_container_name project service deployment) l
      | ReleaseAddress deployment _ => tombstoned deployment l
      | _ => True
      end
  | Executed _ _ _ => True
  end.

Lemma removal_due_monotone e : monotone (λ l, removal_due l e).
Proof.
  intros l l' Hsub. destruct e as [|[key body] ? ? ? ?]; [done|]. destruct body; try done; simpl;
    first [by apply tombstoned_monotone|case_match; first [done|by apply removed_or_unseen_monotone]].
Qed.
Lemma removal_due_executed c i o l : removal_due l (Executed c i o).
Proof. done. Qed.

Notation step := (step removal_due).

(** A record that is retired: container, tombstone and address. *)
Definition cleared (r : CatalogRecord) (l : list Event) : Prop :=
  removed_or_unseen engine (dynamic_container_name project (Catalog.service r) (deployment_id r)) l ∧
  tombstoned (deployment_id r) l ∧ released (deployment_id r) l.
Lemma cleared_monotone r : monotone (cleared r).
Proof.
  intros l l' Hsub (Hg & Ht & Hr). split_and!; [by eapply removed_or_unseen_monotone|by eapply tombstoned_monotone|by eapply released_monotone].
Qed.

Lemma step_inspect_status n : step (λ _, True) (inspect_status engine n) (λ status l, status = None → removed_or_unseen engine n l).
Proof.
  unfold inspect_status. eapply step_bind; [by apply step_execute|]. intros r. apply step_ret. intros l Hl.
  destruct (success r) eqn:Hr; [done|]. intros _. left. by exists "", r.
Qed.
Lemma step_remove_if_present n : step (λ _, True) (remove_if_present engine n) (λ _ l, removed_or_unseen engine n l).
Proof.
  unfold remove_if_present. eapply step_bind; [apply step_inspect_status|]. intros [status|]; [|apply step_ret; auto].
  apply step_bind with (Q := λ _ l, removed_or_unseen engine n l); [|intros; by apply step_ret]. unfold Session.remove.
  eapply step_bind; [by apply step_run_checked|]. intros r. apply step_ret. intros l Hl. by right.
Qed.
Lemma step_remove_container n : step (λ _, True) (remove_container engine n) (λ r l, is_failed r = false → removed_or_unseen engine n l).
Proof.
  unfold remove_container. apply step_bind with (Q := λ _ _, True).
  { apply (step_issues _ _ (harmless engine)); [done|]. apply issues_attempt, stop_harmless. }
  intros [[]|error]; [|by apply step_ret].
  eapply step_bind; [apply step_attempt, step_remove_if_present|]. intros [b|error]; apply step_ret; [auto|done].
Qed.

Context `{AgentLink}.

Lemma step_catalog Ψ : step Ψ catalog (λ records l, accepted CatalogList (CatalogRecords records) l).
Proof.
  unfold catalog. eapply step_bind; [apply step_call; by intros|]. intros response.
  destruct response; try apply step_fail. by apply step_ret.
Qed.
Lemma step_retire r :
  step (λ l, removed_or_unseen engine (dynamic_container_name project (Catalog.service r) (deployment_id r)) l) (retire_deployment r)
    (λ res l, is_failed res = false → cleared r l).
Proof.
  unfold retire_deployment. eapply step_bind.
  { apply step_keep; [apply removed_or_unseen_monotone|]. apply step_attempt, step_call. intros l fate answer s s' Hl. exact Hl. }
  intros [response|error]; [|by apply step_ret]. destruct response; try by apply step_ret.
  set (T l := removed_or_unseen engine (dynamic_container_name project (Catalog.service r) (deployment_id r)) l ∧ tombstoned (deployment_id r) l).
  assert (monotone T) as HT by (intros l l' Hsub [? ?]; split; [by eapply removed_or_unseen_monotone|by eapply tombstoned_monotone]).
  eapply (step_pre _ _ T).
  { intros l [Hg Ha]. split; [done|]. eexists _, _, _, _, _, _, _. exact Ha. }
  eapply step_bind.
  { apply step_keep; [done|]. apply (step_issues _ _ (harmless engine)); [done|]. unfold timestamp_or_zero. issues. }
  intros timestamp. eapply step_bind.
  { eapply (step_pre _ _ T); [by intros l [? _]|]. apply step_keep; [done|]. apply step_attempt, step_call. intros l fate answer s s' [_ Hl]. exact Hl. }
  intros [response|error]; [|by apply step_ret]. apply step_ret. intros l [[Hg Ht] Ha]. destruct response; try done.
  intros _. split_and!; [done..|]. eexists _, _. exact Ha.
Qed.

Lemma any_failed_app steps steps' : any_failed (steps ++ steps') = any_failed steps || any_failed steps'.
Proof. apply existsb_app. Qed.

(** The deployments in turn. *)
Lemma step_remove_deployments service owned :
  (∀ r, r ∈ owned → Catalog.service r = service) →
  step (λ _, True) (remove_deployments engine project service owned)
    (λ x l, any_failed x.1 = false → ∀ r, r ∈ owned → cleared r l).
Proof.
  induction owned as [|r owned IH]; intros Hs; simpl; [apply step_ret; intros l _ _ r Hr; by apply elem_of_nil in Hr|].
  rewrite <-(Hs r (list_elem_of_here _ _)) at 1. eapply step_bind; [apply step_remove_container|]. intros result.
  apply step_bind with (Q := λ x l, is_failed result = false → any_failed x.1 = false → cleared r l).
  { destruct (is_failed result) eqn:Hf; [by apply step_ret|].
    eapply step_bind; [eapply step_pre; [|apply (step_retire r)]; intros l Hl; by apply Hl|]. intros res.
    apply step_ret. intros l Hl _. simpl. rewrite orb_false_r. exact Hl. }
  intros [steps retired]. eapply step_bind.
  { apply step_keep; [|eapply step_pre, IH; [done|]; intros; by apply Hs, list_elem_of_further].
    intros l l' Hsub Hc ? ?. eapply cleared_monotone; [done|]. by apply Hc. }
  intros [rest more]. apply step_ret. intros l [Hc Hrest]. simpl. rewrite any_failed_app. intros Hf r' Hr'.
  apply orb_false_iff in Hf as [Hf1 [Hf2 Hf3]%orb_false_iff].
  apply elem_of_cons in Hr' as [->|Hr']; auto.
Qed.

(** A list of steps of which none failed. *)
Lemma step_steps {A} (name : A → string) (m : A → M ()) (c : A → string) xs :
  (∀ a, step (λ _, True) (m a) (λ _ l, answered true (c a) l)) →
  step (λ _, True) (collect (step_of name m) xs) (λ steps l, any_failed steps = false → ∀ a, a ∈ xs → answered true (c a) l).
Proof.
  intros Hm. eapply step_impl;
    [apply (step_collect _ (λ _, True) _ (λ a (s : string * TeardownStepResult) l, is_failed s.2 = false → answered true (c a) l))|done|]; [done|..].
  - intros a b l l' Hsub Ha Hf. by eapply answered_monotone, Ha.
  - intros a _. unfold step_of. eapply step_bind; [apply step_attempt, Hm|]. intros [[]|e]; apply step_ret; [auto|done].
  - intros steps l Hall Hf a Ha. destruct (list_elem_of_lookup_1 _ _ Ha) as [i Hi].
    destruct (Forall2_lookup_l _ _ _ _ _ Hall Hi) as (s & Hs & Hok). apply Hok.
    destruct (is_failed s.2) eqn:E; [|done]. rewrite <-Hf. symmetry. apply existsb_exists. exists s. split; [|done].
    by eapply list_elem_of_In, list_elem_of_lookup_2.
Qed.

(** The commands that take the routes of a service off the proxy of a server. *)
Definition unrouted (service : string) (proxy : option ProxyConfig) (dns : SocketAddr) (l : list Event) : Prop :=
  (∀ targets t, targets_for_service project service dns proxy = Ok targets → t ∈ targets →
     answered true (render_remove_command engine (route_host t) (route_path_prefix t)) l) ∧
  (∀ targets t, tcp_targets_for_service project service dns proxy = Ok targets → t ∈ targets →
     answered true (render_tcp_remove_command engine (tcp_listen_port t)) l).
Lemma unrouted_monotone service proxy dns : monotone (unrouted service proxy dns).
Proof. intros l l' Hsub [Hh Ht]. split; intros targets t ? ?; eapply answered_monotone; eauto. Qed.

Lemma step_routes service proxy dns :
  step (λ _, True) (route_steps engine project service proxy dns)
    (λ steps l, any_failed steps = false → ∀ targets t, targets_for_service project service dns proxy = Ok targets → t ∈ targets →
       answered true (render_remove_command engine (route_host t) (route_path_prefix t)) l).
Proof.
  unfold route_steps. destruct (targets_for_service project service dns proxy) as [targets|error]; [|by apply step_ret].
  eapply step_impl;
    [apply (step_steps _ _ (λ t, render_remove_command engine (route_host t) (route_path_prefix t)))|done|].
  - intros t. unfold remove_route. eapply step_bind; [by apply step_run_or|]. intros r. by apply step_ret.
  - intros steps l Hl Hf targets' t [= <-] Ht. by apply Hl.
Qed.
Lemma step_tcp_routes service proxy dns :
  step (λ _, True) (tcp_route_steps engine project service proxy dns)
    (λ steps l, any_failed steps = false → ∀ targets t, tcp_targets_for_service project service dns proxy = Ok targets → t ∈ targets →
       answered true (render_tcp_remove_command engine (tcp_listen_port t)) l).
Proof.
  unfold tcp_route_steps. destruct (tcp_targets_for_service project service dns proxy) as [targets|error]; [|by apply step_ret].
  eapply step_impl; [apply (step_steps _ _ (λ t, render_tcp_remove_command engine (tcp_listen_port t)))|done|].
  - intros t. unfold remove_tcp_route. eapply step_bind; [by apply step_run_or|]. intros r. by apply step_ret.
  - intros steps l Hl Hf targets' t [= <-] Ht. by apply Hl.
Qed.
Lemma issues_volumes candidates : issues (λ _, True) (volume_steps engine project candidates).
Proof.
  unfold volume_steps, discover_volumes, discover_volume, remove_volumes_of, remove_volume, remove_volume_if_present, volume_exists,
    volume_attached_projects. issues; done.
Qed.

(** What the agent of the server had of the service is retired and its routes are taken down. *)
Definition removed_from (e : ServiceEndpointPlan) (proxy : option ProxyConfig) (dns : SocketAddr) (l : list Event) : Prop :=
  (∃ records, accepted CatalogList (CatalogRecords records) l ∧
     ∀ r, r ∈ owned_records (ep_service e) (ep_server e) records → cleared r l) ∧
  unrouted (ep_service e) proxy dns l.
Lemma removed_from_monotone e proxy dns : monotone (removed_from e proxy dns).
Proof.
  intros l l' Hsub [(records & Ha & Hc) Hu]. split; [|by eapply unrouted_monotone]. exists records.
  split; [by eapply accepted_monotone|]. intros r Hr. by eapply cleared_monotone, Hc.
Qed.

Lemma step_remove_endpoint e service dns candidates :
  step (λ _, True) (remove_endpoint engine project e service dns candidates)
    (λ x l, any_failed x.1 = false → removed_from e (service_proxy service) dns l).
Proof.
  unfold remove_endpoint. eapply step_bind; [apply step_attempt, step_catalog|]. intros [records|error]; [|by apply step_ret].
  set (owned := owned_records (ep_service e) (ep_server e) records).
  eapply step_bind.
  { apply step_keep; [apply accepted_monotone|]. eapply step_pre, (step_remove_deployments (ep_service e) owned); [done|].
    intros r Hr. by apply list_elem_of_filter in Hr as [[? _] _]. }
  intros [steps retired]. eapply step_bind.
  { apply step_keep; [|eapply step_pre, step_routes; done]. intros l l' Hsub [Ha Hc].
    split; [by eapply accepted_monotone|]. intros Hf r Hr. by eapply cleared_monotone, Hc. }
  intros routes. eapply step_bind.
  { apply step_keep; [|eapply step_pre, step_tcp_routes; done]. intros l l' Hsub [[Ha Hc] Hh].
    split; [split; [by eapply accepted_monotone|]|].
    - intros Hf r Hr. by eapply cleared_monotone, Hc.
    - intros Hf ts t Hts Ht. eapply answered_monotone; [done|]. by eapply Hh. }
  intros tcp_routes. eapply step_bind.
  { apply step_keep; [|apply (step_issues _ _ (λ _, True)); [done|apply issues_volumes]]. intros l l' Hsub [[[Ha Hc] Hh] Ht].
    split; [split; [split; [by eapply accepted_monotone|]|]|].
    - intros Hf r Hr. by eapply cleared_monotone, Hc.
    - intros Hf ts t Hts Hin. eapply answered_monotone; [done|]. by eapply Hh.
    - intros Hf ts t Hts Hin. eapply answered_monotone; [done|]. by eapply Ht. }
  intros volumes. apply step_ret. intros l [[[[Ha Hc] Hh] Ht] _]. simpl. rewrite !any_failed_app.
  intros [_ [Hs [Hr [Htr _]%orb_false_iff]%orb_false_iff]%orb_false_iff]%orb_false_iff.
  split; [exists records; split; [done|by apply Hc]|split; [by apply Hh|by apply Ht]].
Qed.
End removal.

(** ** The command *)

Section commands.
Context `{ContentHash MembershipRecord, ContentHash CatalogRecord, ContentHash DesiredStateRecord,
  ContentHash CronSpecContent, Labels, Sha256}.
Context `{Host, DebugText, FloatText, Connector, RouteJson, Operator, LockJson, LocalTime}.
Context (links : string → AgentLink) (config : Config) (p : NetworkPlan).
Context (lock_info : string → LockInfo) (elapsed : N).

Let engine := builder_engine (config_builder config).
Let project := np_project p.
Let ordered := in_order (removal_due engine project).

Lemma ordered_closed : closed ordered.
Proof. apply in_order_closed; [apply removal_due_monotone|]. by intros [] l. Qed.
Hint Resolve ordered_closed : core.

Lemma spreads_ask n body :
  (∀ key fate answer s s', removal_due engine project [] (Asked {| idempotency_key := key; request_body := body |} fate answer s s')) →
  spreads ordered (ask links n body).
Proof. intros Hd. apply spreads_on; [done|]. apply extends_call. intros. split; [apply Hd|done]. Qed.
Lemma spreads_catalog n : spreads ordered (on_or n (@catalog _ _ _ _ _ (links n))).
Proof. apply spreads_on_or; [done|]. eapply step_extends, step_catalog. Qed.
Lemma spreads_cron_specs name service sessions : spreads ordered (remove_all_cron_specs links config name service sessions).
Proof.
  unfold remove_all_cron_specs. case_match; [|by apply spreads_ret]. case_match. apply spreads_problems; [done|]. intros server.
  unfold remove_specs_absent_from. apply spreads_bind; [done|by apply spreads_ask|]. intros [response|error]; [|by apply spreads_ret].
  apply spreads_problems; [done|]. intros spec. apply spreads_bind; [done|by apply spreads_ask|]. intros r. by apply spreads_ret.
Qed.
Lemma spreads_retention_specs name service sessions : spreads ordered (remove_all_retention_specs links config name service sessions).
Proof.
  unfold remove_all_retention_specs. case_match; [|by apply spreads_ret]. case_match. apply spreads_problems; [done|]. intros server.
  apply spreads_bind; [done|by apply spreads_ask|]. intros r. by apply spreads_ret.
Qed.
Lemma spreads_report sessions action detail outcomes locks duration :
  spreads ordered (record_endpoints_by_server sessions project action detail outcomes locks duration).
Proof.
  unfold record_endpoints_by_server. apply spreads_each; [done|]. intros x. case_bool_decide; [|by apply spreads_ret].
  destruct (server_summary _ _ _) as [[[status summary] scope] deployment]. apply spreads_bind; [done| |intros; by apply spreads_ret].
  apply spreads_on; [done|]. apply extends_quiet; [done|]. unfold record, new_entry, append_entry. quiet.
Qed.
Lemma spreads_remove_on volumes e : spreads ordered (remove_on links config p volumes e).
Proof.
  unfold remove_on. apply spreads_bind; [done|by apply spreads_index|]. intros server_plan.
  apply spreads_bind; [done|by apply spreads_service|]. intros service. apply spreads_bind; [done| |intros; by apply spreads_ret].
  apply spreads_on_or; [done|]. eapply step_extends, step_remove_endpoint.
Qed.

Lemma spreads_problems_removed sessions names :
  spreads ordered (problems_of (λ name,
    service ← configured_service config name;
    cron ← remove_all_cron_specs links config name service sessions;
    retention ← remove_all_retention_specs links config name service sessions;
    mret (cron ++ retention)) names).
Proof.
  apply spreads_problems; [done|]. intros name. apply spreads_bind; [done|by apply spreads_service|]. intros service.
  apply spreads_bind; [done|apply spreads_cron_specs|]. intros cron. apply spreads_bind; [done|apply spreads_retention_specs|].
  intros. by apply spreads_ret.
Qed.
(** What follows the endpoints. *)
Definition removal_report (selected : list ServiceEndpointPlan) (sessions : gset string) (results : list (string * (Steps * list string))) : F () :=
  outcomes ← mapF (remove_audit (servers_by_identity selected)) results;
  _ ← record_endpoints_by_server sessions project "service_remove" None outcomes true (Some elapsed);
  problems ← problems_of (λ name,
    service ← configured_service config name;
    cron ← remove_all_cron_specs links config name service sessions;
    retention ← remove_all_retention_specs links config name service sessions;
    mret (cron ++ retention)) (btree_elems (selected_service_names selected));
  fail_if_any "Removal" (length (filter (λ x, any_failed x.2.1 = true) results) + length problems).
Lemma spreads_removal_report selected sessions results : spreads ordered (removal_report selected sessions results).
Proof.
  apply spreads_bind; [done|apply spreads_mapF; [done|]|].
  { intros x. apply spreads_bind; [done|by apply spreads_index|]. intros. by apply spreads_ret. }
  intros outcomes. apply spreads_bind; [done|apply spreads_report|]. intros _.
  apply spreads_bind; [done|apply spreads_problems_removed|]. intros problems. unfold fail_if_any.
  case_match; [by apply spreads_stops|by apply spreads_ret].
Qed.
(** It ends well only when no step has failed. *)
Lemma removal_report_fine selected sessions results fl fl' :
  removal_report selected sessions results fl = (Fine (), fl') →
  Forall (λ x : string * (Steps * list string), any_failed x.2.1 = false) results.
Proof.
  unfold removal_report, mbind, F_bind. destruct (mapF _ results fl) as [[outcomes| | |] fl1]; try done.
  destruct (record_endpoints_by_server _ _ _ _ _ _ _ fl1) as [[u| | |] fl2]; try done.
  destruct (problems_of _ _ fl2) as [[problems| | |] fl3]; try done. unfold fail_if_any.
  destruct (0 <? _)%nat eqn:Hf; [done|]. intros _. apply Nat.ltb_ge in Hf.
  apply Forall_forall. intros x Hx. destruct (any_failed x.2.1) eqn:E; [|done].
  assert (x ∈ filter (λ x : string * (Steps * list string), any_failed x.2.1 = true) results) as Hin by (by apply list_elem_of_filter).
  destruct (filter _ results); [by apply elem_of_nil in Hin|]. simpl in Hf. lia.
Qed.

Lemma spreads_locked selected sessions volumes :
  spreads ordered (remove_services_locked links config p elapsed selected sessions volumes).
Proof.
  apply spreads_bind; [done|apply spreads_mapF; [done|apply spreads_remove_on]|]. intros results. apply spreads_removal_report.
Qed.
Lemma spreads_preview e : spreads ordered (preview_endpoint config p e).
Proof.
  unfold preview_endpoint. apply spreads_bind; [done|by apply spreads_service|]. intros service.
  apply spreads_bind; [done|by apply spreads_index|]. intros server_plan.
  do 2 (apply spreads_bind; [done|by apply spreads_of_f|]; intros _). by apply spreads_ret.
Qed.
Lemma spreads_proxy_hosts selected : spreads ordered (proxy_hosts config selected).
Proof.
  induction selected as [|e selected IH]; simpl; [by apply spreads_ret|]. apply spreads_bind; [done|by apply spreads_service|].
  intros service. apply spreads_bind; [done|done|]. intros. by apply spreads_ret.
Qed.

(** What the endpoint of a service has come to on its server. *)
Definition removal_done (e : ServiceEndpointPlan) (n : string) (l : list Event) : Prop :=
  ∀ service server_plan, ep_server e = n → hm_get (config_services config) (ep_service e) = Some service →
    np_servers p !! n = Some server_plan → removed_from engine project e (service_proxy service) (dns_of server_plan) l.
Lemma removal_done_monotone e n : monotone (removal_done e n).
Proof. intros l l' Hsub Hd service server_plan He Hs Hp. by eapply removed_from_monotone, Hd. Qed.

Lemma spreads_any {A} (m : F A) : spreads ordered m → spreads (λ _, True) m.
Proof. intros Hm fl. eapply Since_impl; [|apply Hm]. done. Qed.

Lemma remove_on_fine volumes e x fl fl' :
  remove_on links config p volumes e fl = (Fine x, fl') → Since fl (λ n l, any_failed x.2.1 = false → removal_done e n l) fl'.
Proof.
  unfold remove_on. unfold mbind at 1, F_bind at 1. unfold index. destruct (np_servers p !! ep_server e) as [server_plan|] eqn:Hsp; [|done].
  unfold mbind at 1, F_bind at 1. unfold configured_service. destruct (hm_get _ _) as [service|] eqn:Hs; [|done]. simpl.
  unfold mbind at 1, F_bind at 1. destruct (on_or _ _ fl) as [[r| | |] fl1] eqn:Hr; try done. intros [= <- ->].
  eapply on_or_fine in Hr; [|apply (step_remove_endpoint engine project)]. eapply Since_impl; [|exact Hr].
  intros n l Hl Hf service' server_plan' <- Hs' Hp'. simplify_eq. by apply Hl.
Qed.

Lemma locked_removes selected sessions volumes fl fl' :
  remove_services_locked links config p elapsed selected sessions volumes fl = (Fine (), fl') →
  Since fl (λ n l, ∀ e, e ∈ selected → removal_done e n l) fl'.
Proof.
  unfold remove_services_locked. unfold mbind at 1, F_bind at 1.
  destruct (mapF (remove_on _ _ _ _) selected fl) as [[results| | |] fl1] eqn:Hm; try done.
  apply (mapF_fine _ (λ e x n l, any_failed x.2.1 = false → removal_done e n l)) in Hm; cycle 1.
  { intros e. apply spreads_any, spreads_remove_on. }
  { intros e x n l l' Hsub Hd Hf. by eapply removal_done_monotone, Hd. }
  { intros e x fl2 fl3. apply remove_on_fine. }
  intros Hrest. pose proof (spreads_removal_report selected sessions results fl1) as Hsp.
  change (removal_report selected sessions results fl1 = (Fine (), fl')) in Hrest. rewrite Hrest in Hsp.
  apply removal_report_fine in Hrest as Hok. eapply Since_then; [|exact Hm|exact Hsp]. intros n l l' Hall _ e He.
  destruct (list_elem_of_lookup_1 _ _ He) as [i Hi]. destruct (Forall2_lookup_l _ _ _ _ _ Hall Hi) as (x & Hx & Hd).
  eapply removal_done_monotone; [apply subseteq_app_r|]. apply Hd. by eapply (Forall_lookup_1 _ _ _ _ Hok).
Qed.

Lemma spreads_replica_locks selected : spreads ordered (mapF (replica_locks links) selected).
Proof.
  apply spreads_mapF; [done|]. intros e. apply spreads_bind; [done|apply spreads_catalog|]. intros. by apply spreads_ret.
Qed.
Lemma spreads_remove_services hosts services confirmed volumes timeout force :
  spreads ordered (remove_services links config p lock_info elapsed hosts services confirmed volumes timeout force).
Proof.
  apply spreads_bind; [done|by apply spreads_of_f|]. intros selected.
  apply spreads_bind; [done|apply spreads_each; [done|apply spreads_preview]|]. intros _.
  apply spreads_bind; [done|by apply spreads_of_f|]. intros yes. case_match; [by apply spreads_stops|].
  apply spreads_bind; [done|by apply spreads_of_f|]. intros _.
  apply spreads_bind; [done|apply spreads_replica_locks|]. intros locks. apply spreads_bind; [done|apply spreads_proxy_hosts|]. intros ingress.
  apply spreads_with_locks; [done|apply spreads_locked].
Qed.

(** C23: A removal takes the containers first.  Whatever fails on the way, on every server the
    agent is asked to make a deployment a tombstone only after the engine removed its container
    or answered an inspection of it with a failure, which the code takes for its absence, and
    to release its address only after it took the tombstone.  When the command ends well, then
    for every selected endpoint each deployment that the agent of its server listed for the service
    has had its container removed or not found by an inspection, is a tombstone the agent took
    and has had its address released, and every route of the service was taken off the proxy of
    that server. *)
Theorem removal_takes_the_containers_first hosts services confirmed volumes timeout force fl :
  let '(r, fl') := remove_services links config p lock_info elapsed hosts services confirmed volumes timeout force fl in
  Since fl (λ n l, in_order (removal_due engine project) l ∧
    ∀ selected e, r = Fine () → select_target_endpoints p hosts services = Ok selected → e ∈ selected → removal_done e n l) fl'.
Proof.
  pose proof (spreads_remove_services hosts services confirmed volumes timeout force fl) as Hs.
  destruct (remove_services _ _ _ _ _ _ _ _ _ _ _ fl) as [r fl'] eqn:Hrun. apply Since_and; [exact Hs|].
  destruct r as [[]|e| |]; try (eapply Since_impl; [|exact Hs]; by intros).
  unfold remove_services in Hrun. unfold mbind at 1, F_bind at 1 in Hrun.
  destruct (select_target_endpoints p hosts services) as [selected|]; [|done]. cbn [of_f mret F_ret] in Hrun.
  enough (Since fl (λ n l, ∀ e, e ∈ selected → removal_done e n l) fl') as Hgoal.
  { eapply Since_impl; [|exact Hgoal]. intros n l Hl selected' e _ [= <-]. apply Hl. }
  assert (∀ n, monotone (λ l, ∀ e, e ∈ selected → removal_done e n l)) as Hmono.
  { intros n l l' Hsub Hl e He. by eapply removal_done_monotone, Hl. }
  revert Hrun. apply Since_last; [apply spreads_any, spreads_each; [done|apply spreads_preview]|done|]. intros _ fl1.
  apply Since_last; [apply spreads_any; by apply spreads_of_f|done|]. intros yes fl2. case_match; [done|].
  apply Since_last; [apply spreads_any; by apply spreads_of_f|done|]. intros _ fl3.
  apply Since_last; [apply spreads_any, spreads_replica_locks|done|]. intros locks fl4.
  apply Since_last; [apply spreads_any, spreads_proxy_hosts|done|]. intros ingress fl5 Hlocks.
  apply (with_locks_fine _ closed_true) in Hlocks as (fl6 & fl7 & Hs1 & Hop & Hs2). apply locked_removes in Hop.
  eapply Since_then; [|exact Hs1|eapply Since_then; [|exact Hop|exact Hs2]]; intros n l l' Ha Hb; [exact (Hmono n _ _ (subseteq_app_l _ _) Hb)|exact (Hmono n _ _ (subseteq_app_r _ _) Ha)].
Qed.
End commands.

(** ** An engine that answers no inspection *)

Section unseen.
Context `{ContentHash MembershipRecord, ContentHash CatalogRecord, ContentHash DesiredStateRecord, Labels, Host, AgentLink}.
Context (engine : ContainerEngine) (project : string).
(** The command that inspects a container ends with a failure, whatever the cause. *)
Hypothesis inspections_fail : ∀ name m, ∃ r m', exec (inspect_command engine name) "" m = (Ok r, m') ∧ success r = false.

Definition only_inspects (l : list Event) : Prop := ∀ c i o, Executed c i o ∈ l → ∃ name, c = inspect_command engine name.
Definition inspecting {A} (m : M A) (Q : A → list Event → Prop) : Prop :=
  ∀ w, ∃ a w' l, m w = (Fine a, w') ∧ w_log w' = l ++ w_log w ∧ only_inspects l ∧ Q a l.

Lemma inspecting_ret {A} (a : A) (Q : A → list Event → Prop) : Q a [] → inspecting (mret a) Q.
Proof. intros HQ w. exists a, w, []. split_and!; [done..| |done]. by intros c i o ?%elem_of_nil. Qed.
Lemma inspecting_bind {A B} (m : M A) (f : A → M B) Q (R : B → list Event → Prop) :
  inspecting m Q → (∀ a l, Q a l → inspecting (f a) (λ b l', R b (l' ++ l))) → inspecting (m ≫= f) R.
Proof.
  intros Hm Hf w. destruct (Hm w) as (a & w1 & l & Hrun & Hl & Ho & HQ).
  destruct (Hf a l HQ w1) as (b & w2 & l' & Hrun' & Hl' & Ho' & HR). exists b, w2, (l' ++ l).
  unfold mbind, M_bind. rewrite Hrun. split_and!; [done|by rewrite Hl', Hl, (assoc_L (++))| |done].
  intros c i o [?|?]%elem_of_app; eauto.
Qed.
Lemma inspecting_attempt {A} (m : M A) Q : inspecting m Q → inspecting (attempt m) (λ r l, ∃ a, r = Ok a ∧ Q a l).
Proof.
  intros Hm w. destruct (Hm w) as (a & w' & l & Hrun & Hl & Ho & HQ). exists (Ok a), w', l. unfold attempt. rewrite Hrun.
  split_and!; [done..|]. by exists a.
Qed.
Lemma inspecting_status name : inspecting (inspect_status engine name) (λ status _, status = None).
Proof.
  apply inspecting_bind with (Q := λ r _, success r = false).
  - intros w. destruct (inspections_fail name (w_machine w)) as (r & m' & Hr & Hf). unfold execute, execute_with_input.
    change (engine_to_string engine +:+ " inspect " +:+ name +:+ " --format '{{.State.Status}}'") with (inspect_command engine name).
    rewrite Hr. eexists r, _, [_]. split_and!; [reflexivity|reflexivity| |done].
    intros c i o [= -> _ _]%list_elem_of_singleton. by exists name.
  - intros r l Hr. apply inspecting_ret. by rewrite Hr.
Qed.
Lemma inspecting_call key body :
  inspecting (attempt (call key body)) (λ _ l, ∃ fate answer s s',
    Asked {| idempotency_key := key; request_body := body |} fate answer s s' ∈ l).
Proof.
  intros w. unfold attempt, call. destruct (handle_idempotent _ _ _ _) as [answer store].
  destruct (link_fate _), answer; (eexists _, _, [_]; split_and!; [reflexivity|reflexivity|..]);
    first [by intros c i o ?%list_elem_of_singleton|do 4 eexists; left].
Qed.
Lemma inspecting_time : inspecting timestamp_or_zero (λ _ _, True).
Proof.
  intros w. unfold timestamp_or_zero, mbind, M_bind, attempt, system_time.
  destruct (unix_time (w_machine w)); (eexists _, _, []; split_and!; [reflexivity|reflexivity| |done]); by intros c i o ?%elem_of_nil.
Qed.

(** The commit of a tombstone of a record. *)
Definition asks_tombstone (r : CatalogRecord) (l : list Event) : Prop :=
  ∃ key fate answer s s', Asked {| idempotency_key := key; request_body :=
    CatalogCommit (Catalog.service r) (replica_id r) (deployment_id r) (ipv4_to_string (Catalog.address r)) (Catalog.ports r)
      (Catalog.image r) Tombstoned Unhealthy |} fate answer s s' ∈ l.
Lemma asks_tombstone_app r l l' : asks_tombstone r l ∨ asks_tombstone r l' → asks_tombstone r (l ++ l').
Proof.
  intros [(key & f & a & s & s' & Hin)|(key & f & a & s & s' & Hin)]; exists key, f, a, s, s'; apply elem_of_app; auto.
Qed.

Lemma inspecting_remove name : inspecting (remove_container engine name) (λ result _, result = AlreadyAbsent).
Proof.
  unfold remove_container. eapply inspecting_bind.
  { apply (inspecting_attempt _ (λ _ _, True)). unfold stop_if_running. eapply inspecting_bind; [apply inspecting_status|].
    intros status l ->. apply inspecting_ret. exact I. }
  intros r l (a & -> & _). eapply inspecting_bind.
  { apply (inspecting_attempt _ (λ b _, b = false)). unfold remove_if_present. eapply inspecting_bind; [apply inspecting_status|].
    intros status l' ->. by apply inspecting_ret. }
  intros r l' (b & -> & ->). by apply inspecting_ret.
Qed.
Lemma inspecting_retire r : inspecting (retire_deployment r) (λ _ l, asks_tombstone r l).
Proof.
  unfold retire_deployment. eapply inspecting_bind; [apply inspecting_call|].
  intros committed l (f & a & s & s' & Hin). assert (asks_tombstone r l) as Hr by (by exists (Some ("remove:catalog:" +:+ deployment_id r)), f, a, s, s').
  destruct committed as [[]|error]; try (by apply inspecting_ret; apply asks_tombstone_app; right).
  eapply inspecting_bind; [apply inspecting_time|]. intros t l' _. eapply inspecting_bind; [apply inspecting_call|].
  intros released l'' _. apply inspecting_ret. by apply asks_tombstone_app; right.
Qed.
End unseen.

Module RemoveProps.
Import ServiceProps.

#[local] Existing Instances MembershipProps.sample_hash ApiProps.commit_hash DesiredProps.sample_hash FleetProps.sample_cron_hash
  LeasesProps.sample_labels FleetProps.sample_host FleetProps.sample_debug FleetProps.sample_float FleetProps.sample_connector
  DeployProps.sample_json TeardownProps.sample_operator json LockProps.sample_time.

(** C37: Removing a service forgets containers it could not look at.  On a server where every
    inspection of a container ends with a failure, as when the engine is down, the removal of
    the deployments of a service runs no command but inspections, so it neither stops nor removes
    a container; still it reports every container as absent and asks the agent to make every
    deployment a tombstone. *)
Theorem uninspected_containers_are_forgotten
    `{ContentHash MembershipRecord, ContentHash CatalogRecord, ContentHash DesiredStateRecord, Labels, Host, AgentLink}
    (engine : ContainerEngine) (project service : string) (owned : list CatalogRecord) (w : World) :
  (∀ name m, ∃ r m', exec (inspect_command engine name) "" m = (Ok r, m') ∧ success r = false) →
  ∃ x w' l, remove_deployments engine project service owned w = (Fine x, w') ∧ w_log w' = l ++ w_log w ∧
    (∀ c i o, Executed c i o ∈ l → ∃ name, c = inspect_command engine name) ∧
    ∀ r, r ∈ owned → asks_tombstone r l ∧
      ("container '" +:+ dynamic_container_name project service (deployment_id r) +:+ "'", AlreadyAbsent) ∈ x.1.
Proof.
  intros Hfail. revert w.
  enough (inspecting engine (remove_deployments engine project service owned) (λ x l, ∀ r, r ∈ owned → asks_tombstone r l ∧
    ("container '" +:+ dynamic_container_name project service (deployment_id r) +:+ "'", AlreadyAbsent) ∈ x.1)) as Hi by exact Hi.
  induction owned as [|r owned IH]; [apply inspecting_ret; by intros r ?%elem_of_nil|]. simpl.
  eapply inspecting_bind; [by apply inspecting_remove|]. intros result l1 ->. simpl.
  eapply (inspecting_bind _ _ _ (λ _ l, asks_tombstone r l)).
  { eapply inspecting_bind; [apply inspecting_retire|]. intros res l Hr. by apply inspecting_ret. }
  intros [steps retired] l2 Hr. eapply inspecting_bind; [exact IH|]. intros [rest more] l3 Hrest.
  apply inspecting_ret. intros r' [->|Hr']%elem_of_cons; simpl.
  - split; [|left]. apply asks_tombstone_app; left. by apply asks_tombstone_app; right.
  - destruct (Hrest r' Hr') as [Ha Hin]. split.
    + by do 2 (apply asks_tombstone_app; left).
    + right. apply elem_of_app. by right.
Qed.

(** A server whose engine does not answer. *)
Definition silent_host : Host :=
  {| machine := (); exec _ _ m := (Ok {| stdout := ""; stderr := "Cannot connect to the Docker daemon"; success := false; code := Some 1 |}, m);
     exec_stream _ m := (Ok [], m); clock _ := 0; sleep _ m := m; unix_time _ := Ok 0; session_host := "a";
     error_message _ := ""; response_debug _ := "" |}.
Definition silent_world : @World silent_host := @Build_World silent_host one_runs tt [].
Lemma uninspected_containers_are_forgotten_witness :
  let r := CatalogProps.sample_deployment "d1" "a" 2 1 Catalog.Active in
  ∃ x w' l, @remove_deployments _ _ _ _ silent_host (FleetProps.sample_links "a") Docker "demo" "web" [r] silent_world = (Fine x, w') ∧
    w_log w' = l ++ [] ∧ (∀ c i o, Executed c i o ∈ l → ∃ name, c = inspect_command Docker name) ∧ asks_tombstone r l.
Proof.
  intros r. destruct (@uninspected_containers_are_forgotten _ _ _ _ silent_host (FleetProps.sample_links "a") Docker "demo" "web" [r] silent_world)
    as (x & w' & l & Hrun & Hl & Ho & Hall).
  - intros name m. eexists _, _. split; reflexivity.
  - exists x, w', l. split_and!; [exact Hrun|exact Hl|exact Ho|]. apply Hall. left.
Defined.

(** The replica on [a] is removed, and every command succeeds. *)
Definition sample_removal : flow () * gmap string (@World FleetProps.sample_host) :=
  remove_services FleetProps.sample_links scaled_config PlannerProps.sample_plan
    (λ _, LockProps.sample_info) 0 (Some "a") (Some "db") (Ok true) false 4 false one_fleet.
Lemma removal_takes_the_containers_first_witness :
  sample_removal.1 = Fine () ∧
  Since one_fleet (λ n l, in_order (removal_due Docker "demo") l ∧
    ∀ e, e ∈ match select_target_endpoints PlannerProps.sample_plan (Some "a") (Some "db") with Ok s => s | Err _ => [] end →
         removal_done scaled_config PlannerProps.sample_plan e n l) sample_removal.2.
Proof.
  assert (sample_removal.1 = Fine ()) as Hok by (vm_compute; reflexivity). split; [exact Hok|].
  pose proof (removal_takes_the_containers_first FleetProps.sample_links scaled_config PlannerProps.sample_plan
    (λ _, LockProps.sample_info) 0 (Some "a") (Some "db") (Ok true) false 4 false one_fleet) as Hw.
  unfold sample_removal in Hok |- *. destruct (remove_services _ _ _ _ _ _ _ _ _ _ _ _) as [r fl']. cbn [fst snd] in Hok |- *.
  eapply Since_impl; [|exact Hw]. intros n l [Ho Hd]. split; [exact Ho|].
  destruct (select_target_endpoints _ _ _) as [s|error] eqn:Hs; intros e He; [exact (Hd s e Hok eq_refl He)|destruct (not_elem_of_nil _ He)].
Defined.
End RemoveProps.
